(* ===== verification/_CoqProject ===== *)
-Q . S2P
Prelude.v
RustStr.v
Utils.v
HostPath.v
FilePlace.v
Utf8.v
Json.v
Channel.v
F64.v
CommandArity.v
Regex.v
Matcher.v
VirusScan.v
Classifier.v
Injection.v
PreExec.v
CommandGuard.v
Credential.v
ShellBleed.v
Dlp.v
AuditLog.v
ApprovalRules.v
SecTypes.v
EditorAccess.v
HotReload.v
Evaluate.v
Auditor.v
AuditorRuns.v
Escalation.v
Guardian.v
Merkle.v
Integrity.v
Ssrf.v
Pipeline.v
WfGraph.v
WfContext.v
Scheduler.v
Frame.v
Sanitize.v
Transfer.v
TransferRuns.v
Outbox.v
RingBuffer.v
Window.v
Limits.v
ToolGates.v
EditReplace.v
EditHint.v
ArgsValidator.v
TurnGuard.v
Turns.v
EditTools.v
Checkpoint.v
TurnWal.v
Dispatch.v
TurnRecovery.v
TokenBudget.v
LlmErrors.v
LlmCall.v
Inbox.v
TurnLoop.v
TurnDispatch.v
Routing.v
Slash.v
Admission.v
AdmissionRuns.v
AdmissionRest.v
Quota.v
FailStreak.v
Arbiter.v
Planner.v
BoardStore.v
