(* ===== verification/Prelude.v ===== *)
(** * Verification library of the NemesisBot Rust workspace

    NemesisBot is an agent that runs tools for a language model, alone or as one of
    a cluster of nodes that share a task board.  This library models the parts of it
    that decide, count and keep things, definition by definition, and proves what
    makes them correct.  This file holds what all the others share: the notation
    scope, results, tactics and lemmas on lists.

    ** The parts and how they interact

    Security (src/crates/nemesis-security).  A tool call goes through the layers of
    Pipeline, of which the first that objects refuses it: the injection detector
    (Injection, with the heuristics of Classifier), the command guard (CommandGuard),
    the scan of the scripts a command names (PreExec), which only makes the next layer
    ask, the auditor, the scanners for credentials (Credential) and other sensitive
    data (Dlp), the address guard (Ssrf) and the virus scan chain (VirusScan).  What
    is allowed goes to the hash chain (Integrity), whose entries also feed a Merkle
    tree (Merkle), and every decision to a log file (AuditLog).  Calls of some tools
    are then shown to a judge (Guardian).
    For the auditor a call is an operation on a target (SecTypes: the tool tables).
    It evaluates the operation
    (Evaluate): a fixed ban on deleting protected paths, the switches of the editor
    (EditorAccess), deny rules, ask rules, what an interpreter is told to run, allow
    rules, the default.  The patterns of rules are matched by Matcher, which compiles
    them to regular expressions (Regex) and cuts command lines into segments
    (CommandArity).  A decision that needs a human goes through the memory of
    approvals (ApprovalRules, reread through HotReload when its file changes), the
    unattended switch, and the approval manager (Auditor; AuditorRuns for calls side by
    side); Escalation holds the
    questions that bypass the rules.

    Workflows (src/crates/nemesis-workflow).  A workflow is validated and sorted into
    levels (WfGraph), its nodes see a flat context in which templates and conditions
    are evaluated (WfContext), and the scheduler runs the levels (Scheduler).

    Agent (src/crates/nemesis-agent).  Messages of channels (Channel) wait for the pump of the
    loop.  It rewrites the commands of users, templates and skills in them (Slash), finds
    the agent and the session of a message (Routing) and lets the gate decide (Admission):
    a command is answered, a message for an idle session gets a task, one for a busy session
    is bounced or put into the queues of the session (Inbox), from which it is put back when
    the task ends.  The tasks run beside the pump (AdmissionRuns), or between its steps
    (AdmissionRest).
    A turn is a loop of rounds (TurnLoop).  At the head of
    a round cancellation, emergency stop and the limit of rounds are looked at, the
    session's token budget is checked against the usage store (TokenBudget), and messages
    that arrived meanwhile are claimed (Inbox).  The history is repaired, cut to its
    summary and projected (Turns), and the model is called: with doubled tokens when an
    answer was burned, again after errors of some classes (LlmErrors), under hooks
    (LlmCall).  The answer is continued, accepted or sent back, or its tool calls run as a
    batch, serial or parallel: each call passes the fences and the check of its arguments
    (ArgsValidator), and its result the guards against loops (TurnGuard).
    A tool call that passes is dispatched (Dispatch, behind the loop by TurnDispatch): the
    emergency stop, two rewritings of its arguments, the gates that look at the call
    and the configuration alone (ToolGates), the declared rate limits (Limits), which
    ask through Escalation, the pipeline, the scan of the scripts on the disk
    (ShellBleed), the judge, the hooks; then the tool runs between two entries of the
    log of turns (TurnWal), and its output is scanned.  After a crash the log says which
    turn is taken up (TurnRecovery).  Of the tools themselves the two that edit files are
    modelled (EditTools), with their search for a text that does not quite occur
    (EditReplace) and what they tell the model (EditHint).  What a file held before a turn
    changed it is kept, for a rewind (Checkpoint).  Paths are joined and compared
    by HostPath; where a path leads, link by link, is FilePlace.  Recent events are kept in a ring buffer (RingBuffer).

    Cluster (src/crates/nemesis-cluster).  Messages travel in frames, sealed if there
    is a key, through the read and write loops of a connection (Frame).  The files
    of a task go from one node to another in chunks: the outbox of the sender pushes
    them and tries again (Outbox), the sink of the receiver stages, assembles,
    verifies and lands them (Transfer; TransferRuns for requests served side by side) under
    names made safe by Sanitize.

    Board (src/crates/nemesis-board).  A goal is split into sub-issues by a plan that
    a model writes and the planner checks (Planner).  Issues change status, are
    assigned and dispatched in the store (BoardStore); reviews that fail for the
    same reason blow a fuse (FailStreak).  In discussions a message wakes the nodes
    it mentions (Arbiter), and what nodes may post is rationed (Quota).

    ** Files and sources

    - Prelude: notations, results, tactics, [find_idx].
    - RustStr: strings as lists of Unicode scalar values, UTF-8 lengths and literals,
      the order of strings, the [str] methods the sources use.
    - Json: the values of serde_json, their queries, text.
    - HostPath: the part of [std::path] the sources use, on a host that is not
      Windows, and the comparison form of nemesis-path/src/paths.rs.
    - FilePlace: no source; the laws of a file system with links, and the place of a path,
      which the theorems on the plan mode use.
    - Utils: nemesis-types/src/utils.rs.  Utf8: [String::from_utf8_lossy] of the
      standard library.  F64: floating point as rationals with a rounding.
    - CommandArity: command_arity.rs.  Tokens, top-level segments, environment
      prefixes, the reduction of a command to its stable prefix.
    - Regex: the language of the regular expressions that the matcher generates, with
      a matcher proved correct, and the class [RegexEngine] that states what is
      relied on of the regex crate on that fragment; the class [RegexFind] of searches
      with any expression.
    - Matcher: matcher.rs.
    - Injection: injection.rs.  Classifier: classifier.rs.  CommandGuard: command.rs.
      PreExec: preexec.rs.  Credential: credential.rs.  Dlp: dlp.rs.  AuditLog:
      audit_log.rs.  VirusScan: scanner.rs without the ClamAV client.  Pipeline:
      pipeline.rs and the calls and refusals of types.rs.
    - ApprovalRules: approval_rules.rs.
    - SecTypes: types.rs.
    - EditorAccess: editor_access.rs and approval_auto.rs.
    - HotReload: nemesis-config/src/hot_reload.rs.
    - Evaluate, Auditor, AuditorRuns: auditor.rs, evaluation first, then the state machine,
      then the accesses of its calls and decisions; an [Office] is the auditor and the
      threads that are at it.
    - Escalation: the remaining questions of auditor.rs, verdicts of guardian.rs.
      Guardian: the rest of guardian.rs.
    - Merkle: merkle.rs.  Integrity: integrity.rs.  Ssrf: resolver.rs and ssrf.rs.
    - WfGraph: types.rs, parser.rs and the sort of scheduler.rs in the workflow crate.
    - WfContext: context.rs, the conditions and templates of nodes.rs, the context
      builder of scheduler.rs.
    - Scheduler: the rest of scheduler.rs, durations of types.rs.
    - Frame: rpc_types.rs, transport/frame.rs and transport/conn.rs of the cluster.
    - Sanitize: nemesis-utils/src/sanitize.rs.
    - Transfer: transfer.rs, fsutil.rs.  TransferRuns: the accesses to the disk of its
      three operations, a task per connection as in rpc/server.rs.  Outbox: outbox.rs.
    - RingBuffer: ringbuffer.rs of the agent.
    - Window: sliding windows of times, shared by the next and by Quota.
    - Limits: loop/limits.rs and the gate in loop/tool_dispatch.rs.
    - ShellBleed: shell_bleed.rs and the names of env_sanitize.rs (nemesis-utils).
    - ToolGates: the functions of loop/tool_dispatch.rs and loop/tool_defs.rs that
      decide or rewrite a call, nemesis-prompts/src/subagents.rs without its texts.
    - Dispatch: [handle_tool_call_at_depth] of loop/tool_dispatch.rs, hooks.rs,
      loop/output_rescan.rs, loop/credential_injection.rs,
      nemesis-config/src/vault_ref.rs.  What a dispatch
      reads of the loop is [LoopConfig], what it changes [Loop]; a part is a [Gate],
      which goes on or answers, and what happens is a list of events.
    - EditReplace: loop_tools/edit_replacers.rs.  EditHint: loop_tools/edit_hint.rs, the
      edit distance of args_validator.rs.  EditTools: [edit_file], [multiedit] and the
      fence of the workspace in loop_tools.rs.
    - Checkpoint: checkpoint.rs without the branches of deliveries.  The disk is a map from
      the components of paths to bytes, an [Act] what happens between two rewinds.
    - TurnWal: turn_wal.rs.  TurnRecovery: the messages of loop/bus.rs that resume
      turns; Dispatch, TurnWal and a crash composed.
    - ArgsValidator: args_validator.rs.  TurnGuard: turn_guard.rs.
    - Turns: types.rs and instance.rs as far as they hold a history, prune.rs,
      interrupt_replay.rs, the projections of loop/compact.rs, the merge of
      loop_continuation.rs.
    - LlmErrors: nemesis-utils/src/llm_error_class.rs, loop/rate_limit.rs.  LlmCall:
      loop/recovery.rs, loop/length_escalation.rs, the hooks on calls of hooks.rs; what a
      call changes is [Calls], what it finds outside [LlmEnv], its monad [CallM].
      Inbox: inbox.rs.
    - TurnLoop: loop/run_loop.rs, loop/tool_batch.rs, the parallel batch of
      loop/tool_defs.rs, spill.rs, the hooks on the end of a turn; [TurnState] is the state
      of the source, [World] what a turn changes, [TurnEnv] what it finds outside,
      [TurnM] its monad, the class [ToolRunner] what runs a call.  TurnDispatch: the
      dispatch as an instance of it.
    - Channel: nemesis-types/src/channel.rs.  Routing: agent_id.rs, session_key.rs and
      route.rs of nemesis-routing.  Slash: the rewriting and the answers of
      loop/commands.rs, the shell commands in templates of loop/messages.rs, the parsers
      of loop/maintenance.rs, nemesis-prompts/src/slash.rs.
    - Admission: loop/admission.rs, the pump of loop/bus.rs, dispatches of users in
      loop/maintenance.rs.  The state all threads share is [LoopState]; a [Config] adds
      the channel, the message the pump holds and the tasks with their phases, a [Move]
      is what one thread does under one lock, a [Block] what one thread does from one
      wait to the next.  AdmissionRuns and AdmissionRest hold the theorems.
    - TokenBudget: token_budget.rs, loop/token_budget.rs, the accounting of
      loop/observer.rs, and two queries of nemesis-data/src/usage_store.rs.
    - Quota: quota.rs.  FailStreak: fail_streak.rs.  Arbiter: arbitrator.rs and the
      filter of a worker in nemesisbot/src/board_bus.rs.
    - Planner: planner.rs, slugs of nemesis-prompts/src/professions/meta.rs.
    - BoardStore: state_machine.rs, the status of models.rs, and the operations of
      store.rs on issues and dispatches.

    A struct is a [Record] with a prefix on its fields, an enum an [Inductive] with
    the constructors of the source; a method that changes state takes the state and
    returns the new one; an error is a value of [result] or of an error type whose
    constructors stand for the messages.  Counters that wrap are integers modulo
    2^32 or 2^64 with the wrap written out, [usize] is bounded by the class
    [Target].  A [HashMap] or [DashMap] is a [gmap]; where the source iterates over
    one, the order is a parameter (class [HashOrder]).

    What is atomic: where theorems speak of threads that run side by side, a step is what a
    thread does under one lock, in one access to an atomic, one SQL statement or one access
    to the disk, and those of other threads come between any two.  So the pump and its tasks
    (Admission), the calls of the auditor (AuditorRuns), the requests of the transfer channel
    (TransferRuns) and the rounds, checks and queries of a budget (TokenBudget) are phases of
    which each does one such step; operations that hold their lock from first to last are
    one step (Limits, Quota, FailStreak, BoardStore).  The other definitions are
    what an operation does when nothing interferes; [uninterrupted_call], [served_alone]
    and [uninterrupted_steps] tie them to the phases.
    A transaction that fails gives back the store as it was; what the source runs
    outside of one takes effect by itself.  A directory tree is a map from relative
    paths to contents.

    ** What the theorems show

    - The pipeline (Pipeline): the ten steps with their state, log and early returns
      implement the contract "the first of seven objections refuses"; the audit chain
      is the record of the allowed calls of any run; a suspicious script needs a human;
      a refusal leaves its line; which calls go to the judge.
    - Dispatch (Dispatch, ToolGates, ShellBleed, HostPath): a tool runs only for a call
      that every gate has let pass, refused calls leave nothing but a receipt; over any
      sequence of calls the limits hold but for what a human let over them; the log of turns brackets every admitted call;
      wherever a crash cuts the file, the recovery takes up the call that was running
      and no other (TurnWal, TurnRecovery);
      the plan mode lets only files below the directory of plans through of what it takes
      for writes, a task with a working
      copy runs its commands there; the scan of scripts reports exactly what the first
      eight readable scripts contain.
    - Turns (TurnLoop, TurnDispatch, LlmCall, Inbox): a turn ends within two rounds of its
      limit, with a bounded number of requests, whatever the model, the tools, the hooks
      and the user do; what its tools do they do for calls that were checked, and over
      the dispatch each effect is that of a call that passed every gate where it was made; a batch answers its calls in their
      order; a call to the model comes back, the doubling asks exactly the requests of
      its ladder, and only a failure is written to the history; a queue loses nothing.
      Parts of a turn are judged by three predicates on its monad: [yields] (it comes
      back, with a result and so many requests), [steps] (it is a sequence of steps of a
      relation) and [lands] (what holds where it comes back).
    - Messages (Routing, Slash, AdmissionRuns, AdmissionRest): a message goes to the agent of
      its most specific binding, and the key of its session names the agent and tells
      apart what the scope says; the shell runs what a template quotes and nothing else.
      However the pump and the tasks interleave, one task holds a session and no message
      is lost unseen or doubled.  Runs on one thread are runs of interleaved threads; in
      them the work is bounded by the messages, and at rest, if all are ordinary and none was
      refused by a full channel, every one has been served.
      The interleavings show two ways for a message to be left or dropped.
    - Guards and histories (ArgsValidator, TurnGuard, Turns): the check of arguments
      passes exactly what conforms to a schema and mends exactly to nearest names; every answer of the guards is read off
      what they were told; repair pairs calls and results, and a summary hides whole pairs.
    - Edits (EditReplace, EditHint, EditTools): a fuzzy replacement changes the only block
      of lines that its level looks for and nothing else (but at the level of anchors, by a
      fault, another candidate), or says exactly why not; an
      exact one cuts the text at its occurrences; a batch is its edits one after the
      other or nothing; no file outside the workspace changes; the difference shown is
      one, and near lines are near by Levenshtein's distance.
    - Rewinding (Checkpoint): a rewind gives back the files as they were when its turn
      began, without a repository after declared changes, with one after any; a file is
      reported as changed from outside exactly if its last seal says so.
    - Layers (Injection, Classifier, CommandGuard, PreExec, Credential, Dlp, VirusScan,
      Guardian): what each reports is proved equal to a declarative description of its
      tables and loops; scores stay in the unit range whatever the rounding; check
      digits find single errors; redaction replaces the resolved spans and nothing else.
    - Text (Utils, Utf8, AuditLog): cuts respect characters and limits, decoding undoes
      encoding, a log event is one line, fields of the CSV export are read back.
    - Decisions (Evaluate, Auditor, Escalation): an operation is allowed only by a
      rule, a remembered approval, the unattended switch or a human; a deny rule
      wins; protected paths stay; forced requests wait; escalations fail closed; at
      every moment of every interleaving of the accesses of calls and decisions the counters
      account for every event, those counted that are between two counters included.
    - Patterns (Matcher, Regex, CommandArity): each of the three pattern languages is
      proved equal to a reference definition; a compound command is judged by its
      segments, and an allow rule must cover all of them.
    - Memory (ApprovalRules, HotReload): what is remembered is found again, and only
      for commands it covers; the table stays a map.
    - Logs (Merkle, Integrity): proofs verify, openings bind up to collisions of the
      hash; appending keeps the chain valid, a valid chain binds the covered fields.
    - Addresses (Ssrf): the guard accepts exactly the addresses outside its ranges.
    - Workflows (WfGraph, WfContext, Scheduler): the levels of the sort are proved
      against an order-independent specification ([layered]), validation accepts
      exactly the well-formed graphs and thereby excludes structural errors of the
      scheduler; the scheduler ends, starts no node before its dependencies are dealt
      with, by the conditions in the context of their level, and forgets none; retries; conditions and the precedence of the context.
    - Wire (Frame): streams of frames decode to what was encoded however they are
      cut; reader and writer agree on the limit; what is put on a connection arrives.
    - Files (Sanitize, Transfer, Outbox): names are safe and collide only with the
      hash; whatever requests arrive, and however they are served side by side, the inbox
      holds complete, verified directories only, while no two assemble one transfer or land
      one task at the same time (two that do can land a part); a push that is interrupted is taken up and delivers; the outbox loses
      nothing and its retries are bounded.
    - Rations (Limits, TokenBudget, Quota, FailStreak): no window ever holds more
      calls or posts than the configuration says, in any interleaving; the ledger of tokens
      and what is on its way to it agree with the store, unless an entry is seeded between
      the row and the record of a round or dropped inside a check; the fuse agrees
      with an abstract count; denied posts leave no trace.
    - Buffers (RingBuffer): the circular buffer refines the list of the last elements.
    - Board (Planner, Arbiter, BoardStore): a plan is accepted exactly if it is
      well-formed, and then never gets stuck; who is woken is exactly who is named;
      the activity log of an issue leads to its status; an issue has one active
      dispatch and a task one end; failed operations change nothing.

    Theorems whose comment starts with Observed record behaviour that a reader of the
    code would not expect; those with Also are further properties.

    ** Fuel and bounds

    [placeholder_refs] and [strip_env_assignments] get the length of their input, and
    every round consumes a character ([placeholder_refs_fuel],
    [strip_env_assignments_fuel]).  The loops of Merkle get the number of leaves,
    which halves in every round.  [kahn] gets the number of keys plus one, and every
    round visits a key; [topological_sort_layers] shows that this is enough and that
    no degree goes below zero.  [evaluate_condition] calls itself on text that is
    resolved again and need not end ([condition_recursion_unbounded]); on a
    conditional edge the guard of the scheduler makes the length of the resolved text
    enough ([evaluate_resolved_total], [schedule_total]).  [decode_all] and
    [read_task] get the length of the stream, of which every round takes a header
    ([decode_all_framed], [channel_delivers]).  [plan_file] gets a round per chunk,
    enough on 64-bit targets ([plan_chunks_spec]) and never enough on 32-bit ones for
    some sizes ([plan_stalls_32bit]).  The search of [detect_cycle] gets the number
    of sub-issues plus one, the depth of a path without repetition
    ([detect_cycle_exact]).  [self_recursive_go] and [term_go] get the length of the
    text, of which every round passes at least a character ([detect_iff],
    [destructive_exact]); [step_up] gets the distance to the end of the text
    ([boundaries_exact]), and [tail_char_safe] its length ([tail_char_safe_spec]).
    The ladder of [chat_call_escalating] gets 64 rungs, as many as doublings fit in 64
    bits ([rungs_fuel]); above a ceiling of 2^63 no fuel is enough
    ([huge_ceiling_never_ends]).  The rounds of [run_llm_loop] get any number from the
    limit plus two on ([turn_ends]); without a limit the loop need not end.  The channel of
    the pump holds 1024 messages; what it refuses is counted ([cf_refused]).

    ** What is a parameter

    The regex crate ([RegexEngine], [RegexFind], [RegexCaptures]), the rounding and logarithm of [f64]
    ([Float]), debug output of strings ([DebugStr]), the Unicode tables ([Unicode],
    [UnicodeUpper], [CharClass]),
    the platform and the width of [usize] ([Target]), SHA-256 ([Sha256]), AES-GCM
    ([Aead]), Base64, RFC 3339 times, URL, CIDR and DNS lookup ([Net]), the approval
    manager, times, ids and file contents, JSON numbers and text ([JsonNumbers],
    [JsonU64], [JsonText], [JsonCodec], [WireCodec], [WalJson],
    [PlanJson], [VerdictJson]), the order of hash maps ([HashOrder]), the
    tools and hooks as the answers of their methods, the formatter, the vault, the
    provider of the model with the times of its answers and the summaries it writes,
    equality of JSON numbers ([JsonChecks]), the texts of built-in templates
    ([TemplateTexts]), the repository at the side of a workspace ([ShadowGit]: which files
    it takes, and that trees have different names), that lower case goes letter by letter ([Lowering]), what a shell
    writes and the display name of a model, the
    executors of workflow nodes and the moments at which a cancellation is seen, the
    failures of SQL statements and of writes, the network.  What is relied on of them
    are the laws in these classes, and each has an instance in the library that
    witnesses use.

    ** What is not modelled, and the plan

    Left out for good: signatures and the vault (third-party cryptography), the ClamAV
    client and daemon, channels, providers, web, desktop and command line code (input and
    output), git and archives of the board, prompts.  Of a turn: observers, streams and
    capture, which only watch; the reloading of configuration, which is the environment's
    to show; replay records, prefetched memory, the reaction to files on the chain of
    instructions, pictures of a saved continuation.  The calls of a parallel batch are
    atomic, in any order ([tv_parallel_order]).
    Around a turn: the attachments of a message, the calls of its checkpoint, what a
    continuation does when its result comes (the pump counts it as served), the answers
    to requests for the history, permits, the forced stop, heartbeats and direct calls,
    and the way of a queued message when no channel is wired.
    Of rewinds: the cut of the conversation and its redo (loop/rewind.rs), the branches of
    deliveries, the setting up of the repository.
    Planned, in this order: the call stack and execution states of the workflow
    engine, cancelling a tree of issues and syncing parents on the board, the life of a
    cluster task, the second condition language (conditions.rs). *)
From stdpp Require Export base numbers list gmap strings pretty fin_maps.
From Stdlib Require Export ZArith Lia Ascii.
From stdpp Require Import sorting.

#[global] Set Default Goal Selector "!".

(** ** Notation scope of the development *)

Declare Scope nb_scope.
Delimit Scope nb_scope with nb.

(** Boolean equality of values with decidable equality, the model of [==]. *)
Notation "a =? b" := (bool_decide (a = b)) (at level 70) : nb_scope.
Notation "a <>? b" := (negb (bool_decide (a = b))) (at level 70) : nb_scope.

(** ** Results: [Result<T, E>] *)

Inductive result (A E : Type) : Type :=
| Ok (a : A)
| Err (e : E).
Arguments Ok {A E} a.
Arguments Err {A E} e.

Definition res_bind {A B E} (m : result A E) (k : A → result B E) : result B E :=
  match m with
  | Ok a => k a
  | Err e => Err e
  end.

Notation "x <-? m ; k" := (res_bind m (λ x, k))
  (at level 100, m at next level, k at level 200, right associativity) : nb_scope.

Definition is_ok {A E} (r : result A E) : bool :=
  match r with
  | Ok _ => true
  | Err _ => false
  end.

(** ** Automation *)

Create HintDb nb discriminated.
Create Rewrite HintDb nb_rw.

(** Case analysis on the innermost [match] or [if] of the goal. *)
Ltac break_match :=
  match goal with
  | |- context [match ?x with _ => _ end] =>
      lazymatch x with
      | context [match _ with _ => _ end] => fail
      | _ => destruct x eqn:?
      end
  end.

(** The same in a hypothesis. *)
Ltac break_match_in H :=
  match type of H with
  | context [match ?x with _ => _ end] =>
      lazymatch x with
      | context [match _ with _ => _ end] => fail
      | _ => destruct x eqn:?
      end
  end.

(** Turn boolean connectives and tests of the code into propositions. *)
Ltac bool_simpl :=
  repeat match goal with
  | H : _ && _ = true |- _ => apply andb_true_iff in H as [? ?]
  | H : _ || _ = false |- _ => apply orb_false_iff in H as [? ?]
  | H : negb _ = true |- _ => apply negb_true_iff in H
  | H : negb _ = false |- _ => apply negb_false_iff in H
  | H : bool_decide _ = true |- _ => apply bool_decide_eq_true in H
  | H : bool_decide _ = false |- _ => apply bool_decide_eq_false in H
  | H : N.ltb _ _ = true |- _ => apply N.ltb_lt in H
  | H : N.leb _ _ = true |- _ => apply N.leb_le in H
  | H : N.ltb _ _ = false |- _ => apply N.ltb_ge in H
  | H : N.leb _ _ = false |- _ => apply N.leb_gt in H
  | H : N.eqb _ _ = true |- _ => apply N.eqb_eq in H
  | H : N.eqb _ _ = false |- _ => apply N.eqb_neq in H
  | H : Nat.ltb _ _ = true |- _ => apply Nat.ltb_lt in H
  | H : Nat.leb _ _ = true |- _ => apply Nat.leb_le in H
  | H : Nat.ltb _ _ = false |- _ => apply Nat.ltb_ge in H
  | H : Nat.leb _ _ = false |- _ => apply Nat.leb_gt in H
  end.

(** ** Generic lemmas *)

Lemma existsb_app_iff {A} (f : A → bool) (l1 l2 : list A) :
  existsb f (l1 ++ l2) = existsb f l1 || existsb f l2.
Proof. induction l1 as [|x l1 IH]; simpl; [done|]. by rewrite IH, orb_assoc. Qed.

Lemma forallb_Forall_true {A} (f : A → bool) (l : list A) :
  forallb f l = true ↔ Forall (λ x, f x = true) l.
Proof. rewrite forallb_forall, Forall_forall. setoid_rewrite list_elem_of_In. done. Qed.

Lemma existsb_Exists_true {A} (f : A → bool) (l : list A) :
  existsb f l = true ↔ Exists (λ x, f x = true) l.
Proof.
  rewrite existsb_exists, Exists_exists. setoid_rewrite list_elem_of_In. done.
Qed.

(** The first element that satisfies a test, with its position
    ([iter().enumerate()] followed by an early return). *)
Fixpoint find_idx_from {A} (f : A → bool) (i : nat) (l : list A) : option (nat * A) :=
  match l with
  | [] => None
  | x :: l => if f x then Some (i, x) else find_idx_from f (S i) l
  end.

Definition find_idx {A} (f : A → bool) (l : list A) : option (nat * A) := find_idx_from f 0 l.

Lemma find_idx_from_Some {A} (f : A → bool) i l j x :
  find_idx_from f i l = Some (j, x) →
  i ≤ j ∧ l !! (j - i) = Some x ∧ f x = true ∧
  ∀ k y, i + k < j → l !! k = Some y → f y = false.
Proof.
  revert i. induction l as [|y l IH]; intros i H; simpl in H; [done|].
  destruct (f y) eqn:Hy.
  - injection H as -> ->. rewrite Nat.sub_diag. repeat split; auto. lia.
  - apply IH in H as (Hle & Hl & Hf & Hno). repeat split; auto with lia.
    + replace (j - i) with (S (j - S i)) by lia. done.
    + intros [|k] z Hk Hz; simpl in Hz; [congruence|]. apply (Hno k z); [lia|done].
Qed.

Lemma find_idx_from_None {A} (f : A → bool) i l :
  find_idx_from f i l = None ↔ ∀ x, x ∈ l → f x = false.
Proof.
  revert i. induction l as [|y l IH]; intros i; simpl.
  - split; [intros _ x Hx; by apply elem_of_nil in Hx | done].
  - destruct (f y) eqn:Hy.
    + split; [done|]. intros H. specialize (H y). rewrite H in Hy; [done|]. by left.
    + rewrite IH. split.
      * intros H x [->|Hx]%elem_of_cons; auto.
      * intros H x Hx. apply H. by right.
Qed.

Lemma find_idx_Some {A} (f : A → bool) l j x :
  find_idx f l = Some (j, x) → l !! j = Some x ∧ f x = true.
Proof.
  intros (_ & Hl & Hf & _)%find_idx_from_Some. by rewrite Nat.sub_0_r in Hl.
Qed.

Lemma find_idx_None {A} (f : A → bool) l :
  find_idx f l = None ↔ ∀ x, x ∈ l → f x = false.
Proof. apply find_idx_from_None. Qed.

Lemma find_idx_is_Some {A} (f : A → bool) l x :
  x ∈ l → f x = true → is_Some (find_idx f l).
Proof.
  intros Hx Hf. destruct (find_idx f l) as [r|] eqn:E; [by exists r|].
  rewrite find_idx_None in E. by rewrite (E x Hx) in Hf.
Qed.

(** ** Iteration order of a [HashMap] *)

(** The standard library promises that an iteration visits every entry once, and
    nothing about the order. *)
Class HashOrder := {
  hash_iter : ∀ {K : Type} `{Countable K} {A : Type}, gmap K A → list (K * A);
  hash_iter_perm : ∀ {K : Type} `{Countable K} {A : Type} (m : gmap K A),
    hash_iter m ≡ₚ map_to_list m;
}.

Lemma elem_of_hash_iter `{HashOrder} `{Countable K} {A} (m : gmap K A) k v :
  (k, v) ∈ hash_iter m ↔ m !! k = Some v.
Proof. by rewrite hash_iter_perm, elem_of_map_to_list. Qed.

Lemma NoDup_hash_iter `{HashOrder} `{Countable K} {A} (m : gmap K A) : NoDup (hash_iter m).*1.
Proof. rewrite hash_iter_perm. apply NoDup_fst_map_to_list. Qed.

(** An order, used to run the model. *)
Definition map_order : HashOrder :=
  {| hash_iter K _ _ A m := map_to_list m; hash_iter_perm K _ _ A m := Permutation_refl _ |}.

(** ** Counting in a map *)

(** [*m.entry(k).or_insert(0) += 1] for every element of a list. *)
Definition count_entries `{Countable K} (l : list K) : gmap K nat :=
  foldl (λ m k, <[k := S (default 0 (m !! k))]> m) ∅ l.

(** ** Lists *)

(** [Iterator::take_while]. *)
Fixpoint take_while {A} (p : A → bool) (l : list A) : list A :=
  match l with
  | [] => []
  | x :: l => if p x then x :: take_while p l else []
  end.

(** [Option::or]. *)
Definition or_else {A} (a b : option A) : option A :=
  match a with
  | Some _ => a
  | None => b
  end.

(** [Iterator::find_map]. *)
Fixpoint first_some {A B} (f : A → option B) (l : list A) : option B :=
  match l with
  | [] => None
  | x :: l => or_else (f x) (first_some f l)
  end.

Lemma or_else_Some {A} (a b : option A) x :
  or_else a b = Some x ↔ a = Some x ∨ (a = None ∧ b = Some x).
Proof. destruct a; simpl; split; naive_solver. Qed.

Lemma first_some_Some {A B} (f : A → option B) l b :
  first_some f l = Some b → ∃ a, a ∈ l ∧ f a = Some b.
Proof.
  induction l as [|a l IH]; simpl; [done|]. rewrite or_else_Some.
  intros [H|[_ H]]; [exists a; split; [by left|done]|].
  destruct (IH H) as (a' & ? & ?). exists a'. split; [by right|done].
Qed.

Lemma take_while_prefix {A} (p : A → bool) l :
  ∃ post, l = take_while p l ++ post ∧ Forall (λ x, p x = true) (take_while p l).
Proof.
  induction l as [|x l IH]; simpl; [by exists []|].
  destruct (p x) eqn:E; [|by exists (x :: l)].
  destruct IH as (post & Hl & Hf). exists post. split; [by rewrite Hl at 1|by constructor].
Qed.

Lemma elem_of_filter_bool {A} (f : A → bool) (l : list A) x : x ∈ List.filter f l → x ∈ l ∧ f x = true.
Proof. intros Hx%list_elem_of_In. apply filter_In in Hx as [Hx Hf]. split; [by apply list_elem_of_In|done]. Qed.

Lemma length_bind {A B} (f : A → list B) l : length (l ≫= f) = sum_list ((λ x, length (f x)) <$> l).
Proof.
  induction l as [|x l IH]; [done|]. change (length (f x ++ (l ≫= f)) = length (f x) + sum_list ((λ x, length (f x)) <$> l)).
  by rewrite length_app, IH.
Qed.

(** *** Strictly sorted lists *)

Lemma filter_StronglySorted {A} (R : relation A) (f : A → bool) l : StronglySorted R l → StronglySorted R (List.filter f l).
Proof.
  induction 1 as [|x l _ IH Hx]; cbn [List.filter]; [constructor|]. destruct (f x); [|done]. constructor; [done|].
  rewrite Forall_forall in Hx |- *. intros y [Hy _]%elem_of_filter_bool. by apply Hx.
Qed.

Lemma strictly_sorted_NoDup {A} (R : relation A) `{!Irreflexive R} l : StronglySorted R l → NoDup l.
Proof.
  induction 1 as [|x l _ IH Hx]; constructor; [|done]. intros Hin. rewrite Forall_forall in Hx.
  exact (irreflexivity R x (Hx x Hin)).
Qed.

Lemma strictly_sorted_unique {A} (R : relation A) `{!StrictOrder R} l1 l2 :
  StronglySorted R l1 → StronglySorted R l2 → (∀ x, x ∈ l1 ↔ x ∈ l2) → l1 = l2.
Proof.
  intros H1 H2 He. apply (StronglySorted_unique_strong R); [|done|done|].
  - intros x y _ _ Hxy Hyx. destruct (irreflexivity R x). by transitivity y.
  - apply NoDup_Permutation; [by eapply (strictly_sorted_NoDup R)..|done].
Qed.
