(* ===== verification/RustStr.v ===== *)
(** * Rust strings

    A [&str]/[String] is the list of its Unicode scalar values, so that
    [chars()], [char::is_whitespace] and the search functions of the standard
    library are functions on lists.  Where the source counts or slices in bytes
    ([str::len], [find] offsets, [str::get]) the UTF-8 length of each character
    is taken into account ([byte_len], [byte_get_from]), and [utf8_encode] gives
    the bytes that are hashed or sent.

    [str::to_lowercase] needs the Unicode case tables; only its behaviour on
    ASCII text is fixed here, by the class [Unicode]. *)
From S2P Require Import Prelude.
Local Open Scope N_scope.

(** ** Characters and literals *)

#[global] Arguments N.eqb !_ !_ / : simpl nomatch.

Abbreviation char := N (only parsing).
Abbreviation str := (list N) (only parsing).

(** A string literal of the source (ASCII literals only are used). *)
Fixpoint lit (s : string) : str :=
  match s with
  | EmptyString => []
  | String a s => N_of_ascii a :: lit s
  end.

Definition ch (s : string) : char :=
  match s with
  | EmptyString => 0
  | String a _ => N_of_ascii a
  end.

(** A literal with characters beyond ASCII: the file is UTF-8, so the Rocq
    string holds the encoded bytes. *)
Fixpoint utf8_scan (rest : nat) (acc : char) (s : string) : str :=
  match s with
  | EmptyString => []
  | String a s =>
      let b := N_of_ascii a in
      match rest with
      | S r => let acc := acc * 64 + N.land b 63 in if decide (r = 0%nat) then acc :: utf8_scan 0 0 s else utf8_scan r acc s
      | O => if b <? 128 then b :: utf8_scan 0 0 s
             else if b <? 224 then utf8_scan 1 (N.land b 31) s
             else if b <? 240 then utf8_scan 2 (N.land b 15) s
             else utf8_scan 3 (N.land b 7) s
      end
  end.

Definition ulit (s : string) : str := utf8_scan 0 0 s.

#[global] Arguments ulit _ : simpl never.

(** The characters the source names. *)
Definition c_nul : char := 0.
Definition c_nl : char := 10.
Definition c_cr : char := 13.
Definition c_space : char := 32.
Definition c_dquote : char := 34.
Definition c_squote : char := 39.
Definition c_backtick : char := 96.
Definition c_slash : char := 47.
Definition c_backslash : char := 92.
Definition c_star : char := 42.
Definition c_dot : char := 46.
Definition c_amp : char := 38.
Definition c_pipe : char := 124.
Definition c_semi : char := 59.
Definition c_gt : char := 62.
Definition c_lt : char := 60.
Definition c_eq : char := 61.
Definition c_under : char := 95.
Definition c_tilde : char := 126.
Definition c_dash : char := 45.
Definition c_colon : char := 58.

(** [char::is_whitespace]: the Unicode property White_Space. *)
Definition is_ws (c : char) : bool :=
  ((9 <=? c) && (c <=? 13)) || (c =? 32) || (c =? 133) || (c =? 160) || (c =? 5760)
  || ((8192 <=? c) && (c <=? 8202)) || (c =? 8232) || (c =? 8233) || (c =? 8239)
  || (c =? 8287) || (c =? 12288).

Definition is_ascii_char (c : char) : bool := c <? 128.
Definition is_ascii_upper (c : char) : bool := (65 <=? c) && (c <=? 90).
Definition is_ascii_lower (c : char) : bool := (97 <=? c) && (c <=? 122).
Definition is_ascii_alpha (c : char) : bool := is_ascii_upper c || is_ascii_lower c.
Definition is_ascii_digit (c : char) : bool := (48 <=? c) && (c <=? 57).
Definition is_ascii_alnum (c : char) : bool := is_ascii_alpha c || is_ascii_digit c.

(** [char::is_ascii_punctuation] and [char::is_control]. *)
Definition is_ascii_punctuation (c : char) : bool :=
  ((33 <=? c) && (c <=? 47)) || ((58 <=? c) && (c <=? 64)) || ((91 <=? c) && (c <=? 96))
  || ((123 <=? c) && (c <=? 126)).
Definition is_control (c : char) : bool := (c <=? 31) || ((127 <=? c) && (c <=? 159)).

(** [char::to_ascii_lowercase]. *)
Definition ascii_lower (c : char) : char := if is_ascii_upper c then c + 32 else c.

Definition is_ascii (s : str) : bool := forallb is_ascii_char s.

(** [str::to_lowercase], from the Unicode tables of the standard library. *)
Class Unicode := {
  to_lowercase : str → str;
  to_lowercase_ascii : ∀ s, is_ascii s = true → to_lowercase s = ascii_lower <$> s;
}.

(** An instance: the identity outside ASCII. *)
Definition ascii_unicode : Unicode :=
  {| to_lowercase := fmap ascii_lower; to_lowercase_ascii := λ s _, eq_refl |}.

(** [char::is_alphanumeric]. *)
Class CharClass := {
  is_alphanumeric : char → bool;
  is_alphanumeric_ascii : ∀ c, is_ascii_char c = true → is_alphanumeric c = is_ascii_alnum c;
}.

(** An instance: no alphanumeric character beyond ASCII. *)
Definition ascii_class : CharClass :=
  {| is_alphanumeric := is_ascii_alnum; is_alphanumeric_ascii := λ c _, eq_refl |}.

(** ** UTF-8 lengths and bytes *)

(** [char::len_utf8]. *)
Definition len_utf8 (c : char) : nat :=
  if c <? 128 then 1%nat else if c <? 2048 then 2%nat
  else if c <? 65536 then 3%nat else 4%nat.

(** [str::len]: the number of UTF-8 bytes. *)
Definition byte_len (s : str) : nat := sum_list_with len_utf8 s.

(** The UTF-8 bytes of a character and of a string ([str::as_bytes]). *)
Definition utf8_char (c : char) : list N :=
  if c <? 128 then [c]
  else if c <? 2048 then [192 + c / 64; 128 + c mod 64]
  else if c <? 65536 then [224 + c / 4096; 128 + (c / 64) mod 64; 128 + c mod 64]
  else [240 + c / 262144; 128 + (c / 4096) mod 64; 128 + (c / 64) mod 64; 128 + c mod 64].

Definition as_bytes (s : str) : list N := mjoin (utf8_char <$> s).

(** [s.get(off..)]: [None] past the end or inside a character. *)
Fixpoint byte_get_from (s : str) (off : nat) : option str :=
  match off with
  | O => Some s
  | S _ =>
      match s with
      | [] => None
      | c :: s' => if (off <? len_utf8 c)%nat then None else byte_get_from s' (off - len_utf8 c)
      end
  end.

(** ** Searching *)

Fixpoint starts_with (p s : str) : bool :=
  match p, s with
  | [], _ => true
  | a :: p, b :: s => (a =? b) && starts_with p s
  | _ :: _, [] => false
  end.

(** [str::strip_prefix]. *)
Definition strip_prefix (p s : str) : option str :=
  if starts_with p s then Some (drop (length p) s) else None.

Definition ends_with (p s : str) : bool := starts_with (rev p) (rev s).

(** [str::strip_suffix]. *)
Definition strip_suffix (p s : str) : option str :=
  if ends_with p s then Some (take (length s - length p) s) else None.

(** [str::find] for a string pattern: the position of the first occurrence,
    as the number of characters before it. *)
Fixpoint find_str (p s : str) : option nat :=
  if starts_with p s then Some 0%nat
  else match s with
       | [] => None
       | _ :: s => S <$> find_str p s
       end.

(** [str::split_once] on a string. *)
Definition split_once (p s : str) : option (str * str) :=
  match find_str p s with
  | Some i => Some (take i s, drop (i + length p)%nat s)
  | None => None
  end.

Definition contains (p s : str) : bool :=
  match find_str p s with
  | Some _ => true
  | None => false
  end.

Definition contains_char (c : char) (s : str) : bool := existsb (N.eqb c) s.

(** ** Splitting, trimming and joining *)

(** [str::split] on a character predicate: empty pieces are kept, and the empty
    string is one empty piece. *)
Fixpoint split_on (p : char → bool) (s : str) : list str :=
  match s with
  | [] => [[]]
  | c :: s =>
      if p c then [] :: split_on p s
      else match split_on p s with
           | [] => [[c]]
           | t :: ts => (c :: t) :: ts
           end
  end.

Definition nonempty (s : str) : bool :=
  match s with
  | [] => false
  | _ :: _ => true
  end.

(** [str::split_whitespace]. *)
Definition split_whitespace (s : str) : list str :=
  List.filter nonempty (split_on is_ws s).

Fixpoint trim_start_matches (p : char → bool) (s : str) : str :=
  match s with
  | [] => []
  | c :: s' => if p c then trim_start_matches p s' else s
  end.

Definition trim_end_matches (p : char → bool) (s : str) : str :=
  rev (trim_start_matches p (rev s)).

Definition trim_start : str → str := trim_start_matches is_ws.
Definition trim_end : str → str := trim_end_matches is_ws.
Definition trim (s : str) : str := trim_end (trim_start s).

(** [str::trim_matches] on a character predicate. *)
Definition trim_matches (p : char → bool) (s : str) : str :=
  trim_end_matches p (trim_start_matches p s).

(** [str::lines]: a line feed ends a line and takes a carriage return with it;
    nothing after the last line feed is no line. *)
Fixpoint lines_of (pieces : list str) : list str :=
  match pieces with
  | [] => []
  | [last] => if bool_decide (last = []) then [] else [last]
  | line :: pieces => default line (strip_suffix [c_cr] line) :: lines_of pieces
  end.

Definition lines (s : str) : list str := lines_of (split_on (N.eqb c_nl) s).

(** [slice::join]. *)
Fixpoint join (sep : str) (l : list str) : str :=
  match l with
  | [] => []
  | [t] => t
  | t :: l => t ++ sep ++ join sep l
  end.

(** ** Replacing *)

(** [str::replace] of a character. *)
Definition replace_char (c : char) (r s : str) : str :=
  mjoin ((λ x, if x =? c then r else [x]) <$> s).

(** [str::replace] of a non-empty string: the occurrences found left to right,
    without overlap; [skip] counts the characters of the current occurrence
    that are still to be dropped. *)
Fixpoint replace_str_aux (p r s : str) (skip : nat) : str :=
  match s with
  | [] => []
  | c :: s' =>
      match skip with
      | S k => replace_str_aux p r s' k
      | O => if starts_with p s then r ++ replace_str_aux p r s' (length p - 1)
             else c :: replace_str_aux p r s' 0
      end
  end.

Definition replace_str (p r s : str) : str := replace_str_aux p r s 0.

(** [str]'s order: bytewise, which is the order of the scalar values. *)
Fixpoint str_lt (a b : str) : bool :=
  match a, b with
  | _, [] => false
  | [], _ :: _ => true
  | x :: a, y :: b => (x <? y)%N || (N.eqb x y && str_lt a b)
  end.

Definition str_le (a b : str) : Prop := str_lt b a = false.

#[export] Instance str_le_dec a b : Decision (str_le a b).
Proof. unfold str_le. apply _. Defined.

(** A digit of [{:x}]. *)
Definition hex_digit (d : N) : char := if d <? 10 then 48 + d else 87 + d.

(** Decimal rendering of an unsigned integer ([Display]). *)
Definition show_nat (n : nat) : str := lit (pretty (N.of_nat n)).

(** ** Lemmas *)

Lemma nonempty_true (s : str) : nonempty s = true ↔ s ≠ [].
Proof. by destruct s. Qed.

Lemma starts_with_app (p s : str) : starts_with p (p ++ s) = true.
Proof. induction p as [|c p IH]; simpl; [done|]. by rewrite N.eqb_refl, IH. Qed.

Lemma starts_with_iff (p s : str) : starts_with p s = true ↔ ∃ t, s = p ++ t.
Proof.
  split; [|intros [t ->]; apply starts_with_app].
  revert s. induction p as [|c p IH]; intros s H; simpl in H; [by exists s|].
  destruct s as [|d s]; [done|]. bool_simpl. subst.
  destruct (IH s) as [t ->]; [done|]. by exists t.
Qed.

Lemma strip_prefix_Some (p s t : str) : strip_prefix p s = Some t ↔ s = p ++ t.
Proof.
  unfold strip_prefix. split.
  - destruct (starts_with p s) eqn:E; [|done]. intros [= <-].
    apply starts_with_iff in E as [u ->]. by rewrite drop_app_length.
  - intros ->. by rewrite starts_with_app, drop_app_length.
Qed.

Lemma ends_with_iff (p s : str) : ends_with p s = true ↔ ∃ t, s = t ++ p.
Proof.
  unfold ends_with. rewrite starts_with_iff. split; intros [t E].
  - exists (rev t). rewrite <- (rev_involutive s), E, rev_app_distr, rev_involutive. done.
  - exists (rev t). by rewrite E, rev_app_distr.
Qed.

Lemma strip_suffix_Some (p s t : str) : strip_suffix p s = Some t ↔ s = t ++ p.
Proof.
  unfold strip_suffix. split.
  - destruct (ends_with p s) eqn:E; [|done]. intros [= <-].
    apply ends_with_iff in E as [u ->].
    rewrite length_app, Nat.add_sub. by rewrite take_app_length.
  - intros ->. replace (ends_with p (t ++ p)) with true.
    + by rewrite length_app, Nat.add_sub, take_app_length.
    + symmetry. apply ends_with_iff. by exists t.
Qed.

Lemma strip_suffix_None (p s : str) : strip_suffix p s = None ↔ ends_with p s = false.
Proof. unfold strip_suffix. by destruct (ends_with p s). Qed.

Lemma find_str_Some (p s : str) i :
  find_str p s = Some i → ∃ a b, s = a ++ p ++ b ∧ length a = i.
Proof.
  revert i. induction s as [|c s IH]; intros i; simpl.
  - destruct (starts_with p []) eqn:E; [|done]. intros [= <-].
    apply starts_with_iff in E as [t Ht]. by exists [], t.
  - destruct (starts_with p (c :: s)) eqn:E.
    + intros [= <-]. apply starts_with_iff in E as [t Ht]. by exists [], t.
    + destruct (find_str p s) as [j|] eqn:F; [|done]. simpl. intros [= <-].
      destruct (IH j eq_refl) as (a & b & -> & <-). by exists (c :: a), b.
Qed.

Lemma find_str_is_Some (p a b : str) : is_Some (find_str p (a ++ p ++ b)).
Proof.
  induction a as [|c a IH].
  - simpl. destruct (p ++ b) eqn:E; simpl; rewrite <- E, starts_with_app; by eexists.
  - simpl. destruct (starts_with p (c :: a ++ p ++ b)); [by eexists|].
    destruct IH as [i ->]. by eexists.
Qed.

Lemma contains_iff (p s : str) : contains p s = true ↔ ∃ a b, s = a ++ p ++ b.
Proof.
  unfold contains. split.
  - destruct (find_str p s) as [i|] eqn:E; [|done]. intros _.
    apply find_str_Some in E as (a & b & -> & _). eauto.
  - intros (a & b & ->). by destruct (find_str_is_Some p a b) as [i ->].
Qed.

Lemma contains_char_iff (c : char) (s : str) : contains_char c s = true ↔ c ∈ s.
Proof.
  unfold contains_char. rewrite existsb_Exists_true, Exists_exists.
  split; [intros (x & Hx & E); bool_simpl; by subst | intros H; exists c].
  by rewrite N.eqb_refl.
Qed.

Lemma contains_char_false (c : char) (s : str) : contains_char c s = false ↔ c ∉ s.
Proof. rewrite <- contains_char_iff. by destruct (contains_char c s). Qed.

Lemma trim_start_matches_idem p (s : str) :
  trim_start_matches p (trim_start_matches p s) = trim_start_matches p s.
Proof.
  induction s as [|c s IH]; simpl; [done|].
  destruct (p c) eqn:E; [done|]. simpl. by rewrite E.
Qed.

Lemma trim_start_matches_suffix p (s : str) :
  ∃ a, s = a ++ trim_start_matches p s ∧ forallb p a = true.
Proof.
  induction s as [|c s IH]; simpl; [by exists []|].
  destruct (p c) eqn:E; [|by exists []].
  destruct IH as (a & Hs & Ha). exists (c :: a). simpl. rewrite E, Ha, <- Hs. done.
Qed.

Lemma trim_start_matches_app p (a s : str) :
  forallb p a = true → trim_start_matches p (a ++ s) = trim_start_matches p s.
Proof.
  induction a as [|c a IH]; simpl; [done|]. intros H. bool_simpl.
  rewrite (H : p c = true). auto.
Qed.

Lemma as_bytes_ascii (s : str) : is_ascii s = true → as_bytes s = s.
Proof.
  unfold is_ascii, as_bytes. induction s as [|c s IH]; intros H; [done|].
  cbn [forallb] in H. apply andb_true_iff in H as [Hc Hs]. rewrite fmap_cons. simpl.
  rewrite (IH Hs). unfold utf8_char, is_ascii_char in *. by rewrite Hc.
Qed.

Lemma trim_start_matches_head p (s : str) c :
  head (trim_start_matches p s) = Some c → p c = false.
Proof.
  induction s as [|x s IH]; simpl; [done|]. destruct (p x) eqn:E; [done|]. by intros [= <-].
Qed.

(** What [trim_end_matches] leaves is a prefix, and does not end with a match. *)
Lemma trim_end_matches_prefix p (s : str) :
  ∃ a, s = trim_end_matches p s ++ a ∧ forallb p a = true.
Proof.
  unfold trim_end_matches. destruct (trim_start_matches_suffix p (rev s)) as (a & E & Ha).
  exists (rev a). split.
  - rewrite <- rev_app_distr, <- E. by rewrite rev_involutive.
  - rewrite forallb_Forall_true in *. by apply Forall_rev.
Qed.

Lemma trim_end_matches_last p (s : str) c :
  last (trim_end_matches p s) = Some c → p c = false.
Proof.
  unfold trim_end_matches. rewrite rev_alt. fold (reverse (trim_start_matches p (rev s))).
  rewrite last_reverse. apply trim_start_matches_head.
Qed.

(** A word: no blanks, no quotes, at least one character. *)
Definition plain_char (c : char) : bool :=
  negb (is_ws c) && negb (N.eqb c c_squote) && negb (N.eqb c c_dquote).

Definition plain (t : str) : bool := nonempty t && forallb plain_char t.

Lemma join_cons (sep t : str) (l : list str) :
  l ≠ [] → join sep (t :: l) = t ++ sep ++ join sep l.
Proof. by destruct l. Qed.

Lemma forallb_app_iff {A} (f : A → bool) (a b : list A) :
  forallb f (a ++ b) = true ↔ forallb f a = true ∧ forallb f b = true.
Proof. rewrite forallb_app, andb_true_iff. done. Qed.

#[export] Hint Resolve starts_with_app find_str_is_Some : nb.
#[export] Hint Rewrite @forallb_app @existsb_app rev_app_distr rev_involutive : nb_rw.

(** ** Pieces and lines *)

Lemma split_on_app_sep p a c b : p c = true → split_on p (a ++ c :: b) = split_on p a ++ split_on p b.
Proof.
  intros Hc. induction a as [|x a IH]; simpl; [by rewrite Hc|].
  rewrite IH. destruct (p x); [done|]. destruct (split_on p a) as [|t ts] eqn:E; [|done].
  exfalso. destruct a as [|y a]; simpl in E; [done|]. destruct (p y); [done|]. by destruct (split_on p a).
Qed.

Lemma split_on_none p (s : str) : Forall (λ c, p c = false) s → split_on p s = [s].
Proof. induction 1 as [|c s Hc _ IH]; [done|]. cbn. by rewrite Hc, IH. Qed.

Lemma split_on_ne p (s : str) : split_on p s ≠ [].
Proof. destruct s as [|c s]; [done|]. cbn. destruct (p c); [done|]. by destruct (split_on p s). Qed.

Lemma lines_cons_ended (a b : str) : c_nl ∉ a → lines (a ++ c_nl :: b) = default a (strip_suffix [c_cr] a) :: lines b.
Proof.
  intros Ha. unfold lines. rewrite split_on_app_sep by done. rewrite (split_on_none _ a).
  2: { apply Forall_forall. intros c Hc. apply N.eqb_neq. by intros <-. }
  cbn [app]. pose proof (split_on_ne (N.eqb c_nl) b) as Hne. by destruct (split_on (N.eqb c_nl) b).
Qed.

Lemma lines_cons (a b : str) : c_nl ∉ a → last a ≠ Some c_cr → lines (a ++ c_nl :: b) = a :: lines b.
Proof.
  intros Ha Hcr. rewrite lines_cons_ended by done. f_equal. destruct (strip_suffix [c_cr] a) as [x|] eqn:E; [|done].
  apply strip_suffix_Some in E as ->. by rewrite last_snoc in Hcr.
Qed.

Lemma lines_cons_crlf (a b : str) : c_nl ∉ a → lines (a ++ c_cr :: c_nl :: b) = a :: lines b.
Proof.
  intros Ha. change (a ++ c_cr :: c_nl :: b) with (a ++ [c_cr] ++ c_nl :: b). rewrite app_assoc, lines_cons_ended.
  - by rewrite (proj2 (strip_suffix_Some [c_cr] (a ++ [c_cr]) a) eq_refl).
  - rewrite not_elem_of_app, list_elem_of_singleton. by split.
Qed.

(** ** Order *)

Lemma str_lt_trichotomy a b : if str_lt a b then str_lt b a = false ∧ a ≠ b else a = b ∨ str_lt b a = true.
Proof.
  revert b. induction a as [|x a IH]; intros [|y b]; cbn; [by left|done|by right|].
  destruct (N.ltb_spec x y), (N.ltb_spec y x); try lia; cbn.
  - split; [|intros [=]; lia]. by replace (y =? x) with false by (symmetry; apply N.eqb_neq; lia).
  - replace (x =? y) with false by (symmetry; apply N.eqb_neq; lia). by right.
  - assert (x = y) as -> by lia. rewrite N.eqb_refl. cbn. specialize (IH b). destruct (str_lt a b).
    + destruct IH as [H1 H2]. split; [done|congruence].
    + destruct IH as [->|H1]; [by left|by right].
Qed.

Lemma str_lt_trans a b c : str_lt a b = true → str_lt b c = true → str_lt a c = true.
Proof.
  revert b c. induction a as [|x a IH]; intros [|y b] [|z c]; cbn; try done.
  rewrite !orb_true_iff, !andb_true_iff, !N.eqb_eq, !N.ltb_lt.
  intros [H|[-> H]] [K|[-> K]]; [left; lia|by left|by left|right; split; [done|by eapply IH]].
Qed.

#[export] Instance str_le_total : Total str_le.
Proof.
  intros a b. unfold str_le. pose proof (str_lt_trichotomy b a) as H. destruct (str_lt b a); [right; apply H|by left].
Qed.

#[export] Instance str_le_antisymm : AntiSymm (=) str_le.
Proof.
  intros a b Ha Hb. unfold str_le in *. pose proof (str_lt_trichotomy a b) as H. rewrite Hb in H.
  destruct H as [H|H]; [done|congruence].
Qed.

#[export] Instance str_le_trans : Transitive str_le.
Proof.
  intros a b c Ha Hb. unfold str_le in *. destruct (str_lt c a) eqn:E; [|done].
  pose proof (str_lt_trichotomy a b) as H. destruct (str_lt a b) eqn:Eab.
  - by rewrite (str_lt_trans c a b E Eab) in Hb.
  - destruct H as [->|H]; congruence.
Qed.

Lemma lit_inj s s' : lit s = lit s' → s = s'.
Proof.
  revert s'. induction s as [|a s IH]; intros [|b s'] [=]; [done|]. f_equal; [|by apply IH].
  rewrite <- (ascii_N_embedding a), <- (ascii_N_embedding b). by f_equal.
Qed.
