(* ===== verification/Utils.v ===== *)
(** * Text utilities (nemesis-types/src/utils.rs)

    Cutting a text at a number of bytes without splitting a character, and the
    correlation prefix of RPC responses.  A byte index is a natural number; slices
    at an index inside a character, which panic, do not occur. *)
From S2P Require Import Prelude RustStr.
Local Open Scope nb_scope.

(** ** Boundaries *)

(** [str::is_char_boundary]. *)
Fixpoint is_char_boundary (s : str) (i : nat) : bool :=
  match i with
  | O => true
  | S _ => match s with
           | [] => false
           | c :: s => (len_utf8 c <=? i)%nat && is_char_boundary s (i - len_utf8 c)
           end
  end.

(** The loop [while !s.is_char_boundary(i) { i -= 1; }]. *)
Fixpoint step_down (s : str) (i : nat) : nat :=
  if is_char_boundary s i then i
  else match i with
       | O => O
       | S i => step_down s i
       end.

(** The loop [while !s.is_char_boundary(i) { i += 1; }]. *)
Fixpoint step_up (fuel : nat) (s : str) (i : nat) : option nat :=
  if is_char_boundary s i then Some i
  else match fuel with
       | O => None
       | S fuel => step_up fuel s (S i)
       end.

Definition floor_char_boundary (s : str) (max_len : nat) : nat :=
  if (byte_len s <=? max_len)%nat then byte_len s else step_down s max_len.

Definition ceil_char_boundary (s : str) (min_start : nat) : option nat :=
  if (min_start =? 0)%nat || (byte_len s <=? min_start)%nat then Some (min min_start (byte_len s))
  else step_up (byte_len s) s min_start.

(** [&s[..i]] and [&s[i..]]. *)
Fixpoint byte_take (s : str) (i : nat) : str :=
  match s with
  | [] => []
  | c :: s => if (len_utf8 c <=? i)%nat then c :: byte_take s (i - len_utf8 c) else []
  end.

Fixpoint byte_drop (s : str) (i : nat) : str :=
  match s with
  | [] => []
  | c :: s' => if (len_utf8 c <=? i)%nat then byte_drop s' (i - len_utf8 c) else s
  end.

(** ** Truncation *)

(** [str::char_indices]. *)
Fixpoint char_indices (off : nat) (s : str) : list (nat * char) :=
  match s with
  | [] => []
  | c :: s => (off, c) :: char_indices (off + len_utf8 c) s
  end.

Definition ellipsis : str := lit "...".

Definition truncate (s : str) (max_len : nat) : str :=
  if (byte_len s <=? max_len)%nat then s
  else
    let budget := (max_len - 3)%nat in
    if (budget =? 0)%nat then ellipsis
    else
      let boundary :=
        default 0%nat ((λ ic, fst ic + len_utf8 (snd ic))%nat
                       <$> last (take_while (λ ic, fst ic + len_utf8 (snd ic) <=? budget)%nat (char_indices 0 s))) in
      if (boundary =? 0)%nat then ellipsis else byte_take s boundary ++ ellipsis.

(** ** Correlation ids *)

Definition correlation_id (channel chat_id : str) : str := channel ++ [c_colon] ++ chat_id.

Definition rpc_open : str := lit "[rpc:".
Definition c_rbracket : char := ch "]".

Definition format_rpc_response (correlation_id content : str) : str :=
  rpc_open ++ correlation_id ++ [c_rbracket; c_space] ++ content.

(** [content.find(']')], then the text between and the text after. *)
Fixpoint split_at_char (c : char) (s : str) : option (str * str) :=
  match s with
  | [] => None
  | x :: s => if N.eqb x c then Some ([], s)
              else match split_at_char c s with
                   | Some (a, b) => Some (x :: a, b)
                   | None => None
                   end
  end.

Definition extract_rpc_correlation_id (content : str) : option (str * str) :=
  match strip_prefix rpc_open content with
  | Some rest =>
      match split_at_char c_rbracket rest with
      | Some (id, rest) => Some (id, trim_start rest)
      | None => None
      end
  | None => None
  end.

(** ** Lemmas *)

Lemma len_utf8_pos c : 1 ≤ len_utf8 c ≤ 4.
Proof. unfold len_utf8. repeat case_match; lia. Qed.

Lemma byte_len_app (a b : str) : byte_len (a ++ b) = byte_len a + byte_len b.
Proof. apply sum_list_with_app. Qed.

Lemma byte_len_cons c (s : str) : byte_len (c :: s) = len_utf8 c + byte_len s.
Proof. done. Qed.

(** The boundaries are the lengths of the prefixes. *)
Lemma is_char_boundary_iff s i : is_char_boundary s i = true ↔ ∃ p q, s = p ++ q ∧ byte_len p = i.
Proof.
  revert i. induction s as [|c s IH]; intros i.
  - destruct i; simpl; (split; [intros Hb|]); try done.
    + by exists [], [].
    + intros (p & q & Hpq & Hl). symmetry in Hpq. apply app_nil in Hpq as [-> ->]. discriminate.
  - pose proof (len_utf8_pos c). destruct i as [|i].
    { split; [|done]. by exists [], (c :: s). }
    cbn [is_char_boundary]. rewrite andb_true_iff, Nat.leb_le, IH. split.
    + intros [Hle (p & q & -> & Hl)]. exists (c :: p), q. split; [done|]. rewrite byte_len_cons. lia.
    + intros ([|c' p] & q & Hpq & Hl); [done|]. injection Hpq as <- ->. rewrite byte_len_cons in Hl.
      split; [lia|]. exists p, q. split; [done|lia].
Qed.

Lemma is_char_boundary_len s : is_char_boundary s (byte_len s) = true.
Proof. apply is_char_boundary_iff. exists s, []. by rewrite app_nil_r. Qed.

Lemma is_char_boundary_0 s : is_char_boundary s 0 = true.
Proof. by destruct s. Qed.

Lemma step_down_0 s : step_down s 0 = 0.
Proof. simpl. by rewrite is_char_boundary_0. Qed.

Lemma step_down_spec s i :
  is_char_boundary s (step_down s i) = true ∧ step_down s i ≤ i ∧
  ∀ j, is_char_boundary s j = true → j ≤ i → j ≤ step_down s i.
Proof.
  induction i as [|i IH]; [rewrite step_down_0; split_and!; [apply is_char_boundary_0|done|done]|].
  cbn [step_down].
  destruct (is_char_boundary s (S i)) eqn:E; [by split_and!|].
  destruct IH as (Hb & Hle & Hmax). split_and!; [done|lia|]. intros j Hj Hji.
  destruct (decide (j = S i)) as [->|]; [congruence|]. apply Hmax; [done|lia].
Qed.

Lemma step_up_spec fuel s i :
  i ≤ byte_len s → byte_len s ≤ i + fuel →
  ∃ r, step_up fuel s i = Some r ∧ is_char_boundary s r = true ∧ i ≤ r ≤ byte_len s ∧
       ∀ j, is_char_boundary s j = true → i ≤ j → r ≤ j.
Proof.
  revert i. induction fuel as [|fuel IH]; intros i Hi Hf; cbn [step_up];
    destruct (is_char_boundary s i) eqn:E.
  1,3: by exists i.
  - replace i with (byte_len s) in E by lia. by rewrite is_char_boundary_len in E.
  - destruct (decide (i = byte_len s)) as [->|]; [by rewrite is_char_boundary_len in E|].
    destruct (IH (S i)) as (r & -> & Hb & Hr & Hmin); [lia|lia|]. exists r. split_and!; try done; [lia|lia|].
    intros j Hj Hij. destruct (decide (j = i)) as [->|]; [congruence|]. apply Hmin; [done|lia].
Qed.

Lemma floor_le s i : floor_char_boundary s i ≤ i.
Proof.
  unfold floor_char_boundary. destruct (Nat.leb_spec (byte_len s) i); [lia|]. apply step_down_spec.
Qed.

Lemma ceil_total s i :
  ∃ c, ceil_char_boundary s i = Some c ∧ is_char_boundary s c = true ∧
       (i ≤ byte_len s → i ≤ c) ∧ c ≤ byte_len s ∧
       (i ≤ byte_len s → ∀ j, is_char_boundary s j = true → i ≤ j → c ≤ j).
Proof.
  unfold ceil_char_boundary. destruct (Nat.eqb_spec i 0) as [->|Hi]; cbn [orb].
  { exists 0. split_and!; [done|apply is_char_boundary_0|lia|lia|]. intros. lia. }
  destruct (Nat.leb_spec (byte_len s) i).
  - exists (byte_len s). split_and!; [f_equal; lia|apply is_char_boundary_len|lia|lia|]. intros ? j Hj ?. lia.
  - destruct (step_up_spec (byte_len s) s i) as (r & Hr & Hb & Hle & Hmin); [lia|lia|].
    exists r. split_and!; [done|done|lia|lia|]. intros _ j Hj. by apply Hmin.
Qed.

(** Slices at a boundary. *)
Lemma byte_take_app p q : byte_take (p ++ q) (byte_len p) = p.
Proof.
  induction p as [|c p IH].
  - destruct q as [|c q]; [done|]. simpl. pose proof (len_utf8_pos c). by destruct (Nat.leb_spec (len_utf8 c) 0); [lia|].
  - rewrite byte_len_cons, <- app_comm_cons. cbn.
    destruct (Nat.leb_spec (len_utf8 c) (len_utf8 c + byte_len p)); [|lia].
    replace (len_utf8 c + byte_len p - len_utf8 c) with (byte_len p) by lia. by rewrite IH.
Qed.

Lemma byte_drop_app p q : byte_drop (p ++ q) (byte_len p) = q.
Proof.
  induction p as [|c p IH].
  - destruct q as [|c q]; [done|]. simpl. pose proof (len_utf8_pos c). by destruct (Nat.leb_spec (len_utf8 c) 0); [lia|].
  - rewrite byte_len_cons, <- app_comm_cons. cbn.
    destruct (Nat.leb_spec (len_utf8 c) (len_utf8 c + byte_len p)); [|lia].
    replace (len_utf8 c + byte_len p - len_utf8 c) with (byte_len p) by lia. by rewrite IH.
Qed.

Lemma byte_take_len s i : byte_len (byte_take s i) ≤ i ∧ ∃ q, s = byte_take s i ++ q.
Proof.
  revert i. induction s as [|c s IH]; intros i; cbn; [split; [lia|by exists []]|].
  destruct (Nat.leb_spec (len_utf8 c) i); [|split; [cbn; lia|by exists (c :: s)]].
  destruct (IH (i - len_utf8 c)) as [Hl [q Hq]]. rewrite byte_len_cons. split; [lia|].
  exists q. by rewrite <- app_comm_cons, <- Hq.
Qed.

(** The byte budget of [truncate] ends at the largest boundary below it. *)
Lemma take_indices_last off budget s :
  default off ((λ ic, fst ic + len_utf8 (snd ic)) <$>
    last (take_while (λ ic, fst ic + len_utf8 (snd ic) <=? budget) (char_indices off s)))
  = off + byte_len (byte_take s (budget - off)).
Proof.
  revert off. induction s as [|c s IH]; intros off; cbn; [unfold byte_len; simpl; lia|].
  destruct (Nat.leb_spec (off + len_utf8 c) budget), (Nat.leb_spec (len_utf8 c) (budget - off)); try lia.
  - rewrite last_cons, byte_len_cons. specialize (IH (off + len_utf8 c)).
    replace (budget - (off + len_utf8 c)) with (budget - off - len_utf8 c) in IH by lia.
    destruct (last _) as [ic|]; simpl in *; lia.
  - pose proof (len_utf8_pos c). lia.
  - cbn. unfold byte_len. simpl. lia.
Qed.

Lemma byte_take_byte_len s i : byte_take s (byte_len (byte_take s i)) = byte_take s i.
Proof. destruct (byte_take_len s i) as [_ [q Hq]]. rewrite Hq at 1. apply byte_take_app. Qed.

Lemma truncate_eq s n :
  truncate s n = if byte_len s <=? n then s else byte_take s (n - 3) ++ ellipsis.
Proof.
  unfold truncate. destruct (byte_len s <=? n); [done|].
  destruct (Nat.eqb_spec (n - 3) 0) as [->|Hb].
  - destruct s as [|c s]; [done|]. cbn. pose proof (len_utf8_pos c).
    by destruct (Nat.leb_spec (len_utf8 c) 0); [lia|].
  - pose proof (take_indices_last 0 (n - 3) s) as E. rewrite Nat.sub_0_r in E. cbn [Nat.add] in E.
    cbv zeta. rewrite E. destruct (Nat.eqb_spec (byte_len (byte_take s (n - 3))) 0) as [Hz|Hz].
    + destruct (byte_take s (n - 3)) as [|c t]; [done|]. rewrite byte_len_cons in Hz.
      pose proof (len_utf8_pos c). lia.
    + by rewrite byte_take_byte_len.
Qed.

Lemma byte_take_longest s i p q : s = p ++ q → byte_len p ≤ i → ∃ r, byte_take s i = p ++ r.
Proof.
  intros -> Hp. revert i Hp. induction p as [|c p IH]; intros i Hp; [by eexists|].
  rewrite byte_len_cons in Hp. cbn. destruct (Nat.leb_spec (len_utf8 c) i); [|lia].
  destruct (IH (i - len_utf8 c)) as [r ->]; [lia|]. by exists r.
Qed.

Lemma byte_len_ellipsis : byte_len ellipsis = 3.
Proof. done. Qed.

(** ** Properties *)

(** Also: truncation keeps a text that fits, and otherwise keeps the longest prefix
    that leaves room for the three dots; the result fits, except that the dots stay
    when the limit is below three. *)
Theorem truncate_spec s n :
  (byte_len s ≤ n → truncate s n = s) ∧
  (n < byte_len s → ∃ p q, s = p ++ q ∧ truncate s n = p ++ ellipsis ∧ byte_len p ≤ n - 3 ∧
     ∀ p' q', s = p' ++ q' → byte_len p' ≤ n - 3 → byte_len p' ≤ byte_len p) ∧
  byte_len (truncate s n) ≤ n `max` 3.
Proof.
  rewrite truncate_eq. destruct (byte_take_len s (n - 3)) as [Hl [q Hq]].
  destruct (Nat.leb_spec (byte_len s) n); split_and!; try done; try lia.
  - intros _. exists (byte_take s (n - 3)), q. split_and!; [done|done|done|].
    intros p' q' Hs Hp'. destruct (byte_take_longest s (n - 3) p' q' Hs Hp') as [r ->].
    rewrite byte_len_app. lia.
  - rewrite byte_len_app, byte_len_ellipsis. lia.
Qed.

(** Also: the two searches for a boundary end, the first at the largest boundary not
    above the index and the second at the smallest one not below it, so that the
    slices taken there never split a character. *)
Theorem boundaries_exact s i :
  let f := floor_char_boundary s i in
  is_char_boundary s f = true ∧ f ≤ i ∧
  (∀ j, is_char_boundary s j = true → j ≤ i → j ≤ f) ∧
  ∃ c, ceil_char_boundary s i = Some c ∧ is_char_boundary s c = true ∧ c ≤ byte_len s ∧
       (i ≤ byte_len s → i ≤ c ∧ ∀ j, is_char_boundary s j = true → i ≤ j → c ≤ j).
Proof.
  cbn zeta. destruct (ceil_total s i) as (c & Hc & Hb & Hge & Hle & Hmin).
  assert (∀ j, is_char_boundary s j = true → j ≤ byte_len s) as Hmax.
  { intros j (p & q & -> & <-)%is_char_boundary_iff. rewrite byte_len_app. lia. }
  split_and!; [|apply floor_le| |by exists c; auto 10].
  - unfold floor_char_boundary. destruct (_ <=? _); [apply is_char_boundary_len|apply step_down_spec].
  - unfold floor_char_boundary. destruct (_ <=? _); [by auto|apply step_down_spec].
Qed.

Lemma split_at_char_app c a b : c ∉ a → split_at_char c (a ++ c :: b) = Some (a, b).
Proof.
  induction a as [|x a IH]; intros Hc; cbn; [by rewrite N.eqb_refl|].
  apply not_elem_of_cons in Hc as [Hx Hc]. destruct (N.eqb_spec x c); [by subst|].
  by rewrite IH.
Qed.

(** Also: the prefix of an RPC response is read back: the id when it holds no closing
    bracket, and the content without the blanks it begins with. *)
Theorem rpc_prefix_roundtrip id content :
  c_rbracket ∉ id →
  extract_rpc_correlation_id (format_rpc_response id content) = Some (id, trim_start content).
Proof.
  intros Hid. unfold extract_rpc_correlation_id, format_rpc_response.
  rewrite (proj2 (strip_prefix_Some _ _ (id ++ [c_rbracket; c_space] ++ content)) eq_refl).
  change ([c_rbracket; c_space] ++ content) with (c_rbracket :: c_space :: content).
  by rewrite (split_at_char_app c_rbracket id (c_space :: content) Hid).
Qed.

Lemma rpc_prefix_roundtrip_witness :
  (c_rbracket ∉ lit "web:42") ∧
  extract_rpc_correlation_id (format_rpc_response (lit "web:42") (lit "  done")) = Some (lit "web:42", lit "done").
Proof.
  assert (c_rbracket ∉ lit "web:42") as Hn by (apply (bool_decide_unpack _); vm_compute; exact I).
  split; [exact Hn|]. exact (rpc_prefix_roundtrip (lit "web:42") (lit "  done") Hn).
Defined.
