(* ===== verification/HostPath.v ===== *)
(** * Paths of a host ([std::path], nemesis-path/src/paths.rs)

    The part of [Path] the sources use, for a host that is not Windows, and the
    comparison form of nemesis-path.  A path is its text; the components of a path
    are texts, the root among them as a slash, and a path compares as its
    components. *)
From S2P Require Import Prelude RustStr.
Local Open Scope nb_scope.

(** ** [std::path] *)

Definition path_is_absolute (p : str) : bool := starts_with [c_slash] p.

Definition c_curdir : str := [c_dot].
Definition c_parentdir : str := [c_dot; c_dot].
Definition c_rootdir : str := [c_slash].

(** Pieces between slashes that are components wherever they stand. *)
Definition normal_piece (p : str) : bool := nonempty p && (p <>? c_curdir).

Definition pieces (p : str) : list str := split_on (N.eqb c_slash) p.

(** What [Path::components] yields in front: the root, or a leading dot. *)
Definition first_component (p : str) : list str :=
  if path_is_absolute p then [c_rootdir]
  else match pieces p with
       | x :: _ => if x =? c_curdir then [c_curdir] else []
       | [] => []
       end.

(** [Path::components]. *)
Definition components (p : str) : list str := first_component p ++ List.filter normal_piece (pieces p).

(** [PathBuf::push] and [Path::join]. *)
Definition path_join (base p : str) : str :=
  if path_is_absolute p then p
  else match last base with
       | None => p
       | Some c => if N.eqb c c_slash then base ++ p else base ++ [c_slash] ++ p
       end.

(** [Path::starts_with]. *)
Definition path_starts_with (p base : str) : bool := bool_decide (components base `prefix_of` components p).

(** ** [canonicalize_for_compare] *)

(** A [PathBuf] that is built from components: [pop] refuses at the root and at the
    empty path, and pushing the root restarts. *)
Definition pop (out : list str) : option (list str) :=
  match out with
  | [] => None
  | [x] => if x =? c_rootdir then None else Some []
  | _ => Some (removelast out)
  end.

Definition push (out : list str) (c : str) : list str := if c =? c_rootdir then [c_rootdir] else out ++ [c].

(** The body of both loops. *)
Definition step_component (out : list str) (comp : str) : list str :=
  if comp =? c_curdir then out
  else if comp =? c_parentdir then default (push out c_parentdir) (pop out)
  else push out comp.

Definition normalize_lexical (cs : list str) : list str := foldl step_component [] cs.

(** [Path::ancestors().skip(1)], from the longest: the components of an ancestor are
    a prefix. *)
Fixpoint proper_prefixes (cs : list str) : list (list str) :=
  match cs with
  | [] => []
  | c :: cs => ((cons c) <$> proper_prefixes cs) ++ [[]]
  end.

(** A root or a leading dot is the end of the ancestors but for the empty path, which
    only a relative path has. *)
Definition ancestors (cs : list str) : list (list str) :=
  List.filter (λ a, match a, cs with [], x :: _ => x <>? c_rootdir | _, _ => true end) (proper_prefixes cs).

Section Compare.
(** [std::fs::canonicalize]: the components of the real path of what exists. *)
Variable canonicalize : list str → option (list str).

Fixpoint from_ancestor (cs : list str) (ancs : list (list str)) : option (list str) :=
  match ancs with
  | [] => None
  | a :: ancs =>
      match canonicalize a with
      | Some p => Some (foldl step_component p (drop (length a) cs))
      | None => from_ancestor cs ancs
      end
  end.

Definition canonicalize_for_compare (path : str) : list str :=
  let cs := components path in
  match canonicalize cs with
  | Some p => p
  | None => default (normalize_lexical cs) (from_ancestor cs (ancestors cs))
  end.
End Compare.

(** ** Joining *)

Lemma split_on_head p a c b : p c = true → ∃ t ts ts', split_on p a = t :: ts ∧ split_on p (a ++ c :: b) = t :: ts'.
Proof.
  intros Hc. rewrite split_on_app_sep by done. destruct (split_on p a) as [|t ts] eqn:E; [|by eexists _, _, _].
  exfalso. destruct a as [|y a]; simpl in E; [done|]. destruct (p y); [done|]. by destruct (split_on p a).
Qed.

Lemma first_component_app a b : a ≠ [] → first_component (a ++ c_slash :: b) = first_component a.
Proof.
  intros Ha. unfold first_component, path_is_absolute, pieces.
  destruct (split_on_head (N.eqb c_slash) a c_slash b eq_refl) as (t & ts & ts' & -> & ->).
  by destruct a.
Qed.

(** The components of a join are those of the base, then those of the relative path;
    a leading dot of the latter is none. *)
Lemma components_join base p : base ≠ [] → path_is_absolute p = false →
  components (path_join base p) = components base ++ List.filter normal_piece (pieces p).
Proof.
  intros Hb Hp. unfold path_join. rewrite Hp. destruct (last base) as [c|] eqn:El.
  2: { by apply last_None in El. }
  unfold components. destruct (N.eqb_spec c c_slash) as [->|Hc].
  - apply last_Some in El as [b ->]. rewrite <- app_assoc. cbn [app].
    destruct b as [|x b]; [done|].
    rewrite !first_component_app by done. unfold pieces. rewrite !split_on_app_sep by done.
    rewrite !List.filter_app. cbn [split_on List.filter normal_piece nonempty andb]. by rewrite app_nil_r, app_assoc.
  - cbn [app]. rewrite first_component_app by done. unfold pieces. rewrite split_on_app_sep by done.
    by rewrite List.filter_app, app_assoc.
Qed.

(** A join stays, by its text, under its base. *)
Lemma path_join_under base p : path_is_absolute p = false → path_starts_with (path_join base p) base = true.
Proof.
  intros Hp. apply bool_decide_eq_true. destruct base as [|c base]; [apply prefix_nil|].
  rewrite components_join by done. by apply prefix_app_r.
Qed.

Lemma path_join_absolute base p : path_is_absolute p = true → path_join base p = p.
Proof. intros Hp. unfold path_join. by rewrite Hp. Qed.

Lemma path_join_rooted base p : path_is_absolute base = true → path_is_absolute (path_join base p) = true.
Proof.
  intros Hb. destruct (path_is_absolute p) eqn:Ea; [by rewrite path_join_absolute|].
  unfold path_join. rewrite Ea. apply starts_with_iff in Hb as [t ->]. cbn [app].
  destruct (last (c_slash :: t)) as [x|] eqn:El; [|by apply last_None in El].
  by destruct (N.eqb x c_slash).
Qed.

Lemma path_starts_with_refl p : path_starts_with p p = true.
Proof. by apply bool_decide_eq_true. Qed.

(** ** Comparison forms *)

(** What the loop builds on a real directory: the root, at most one step above it,
    and names. *)
Definition is_name (c : str) : Prop := c ≠ c_rootdir ∧ c ≠ c_curdir ∧ c ≠ c_parentdir.

Definition real_path (cs : list str) : Prop := ∃ ns, cs = c_rootdir :: ns ∧ Forall is_name ns.

Definition above_or_real (cs : list str) : Prop :=
  real_path cs ∨ ∃ ns, cs = c_rootdir :: c_parentdir :: ns ∧ Forall is_name ns.

Lemma pop_snoc out x : out ≠ [] → pop (out ++ [x]) = Some out.
Proof.
  intros Ho. destruct out as [|y out]; [done|]. cbn [app]. destruct (out ++ [x]) as [|z l] eqn:E.
  { by destruct out. }
  cbn [pop]. f_equal. rewrite <- E. exact (removelast_last (y :: out) x).
Qed.

Lemma step_component_rooted out comp : comp ≠ c_rootdir → above_or_real out → above_or_real (step_component out comp).
Proof.
  intros Hr Ho. unfold step_component.
  case_bool_decide as Hc; [done|].
  case_bool_decide as Hp.
  - destruct Ho as [(ns & -> & Hns)|(ns & -> & Hns)];
      (destruct ns as [|n ns _] using rev_ind; [|apply Forall_app in Hns as [Hns _]]).
    + right. by exists [].
    + rewrite app_comm_cons, pop_snoc by done. left. by exists ns.
    + left. by exists [].
    + rewrite !app_comm_cons, pop_snoc by done. right. by exists ns.
  - unfold push. rewrite bool_decide_false by done.
    assert (is_name comp) by done.
    destruct Ho as [(ns & -> & Hns)|(ns & -> & Hns)]; [left|right]; exists (ns ++ [comp]);
      (split; [done|]); apply Forall_app; by repeat constructor.
Qed.

Lemma split_on_clean p s : Forall (λ t, Forall (λ c, p c = false) t) (split_on p s).
Proof.
  induction s as [|c s IH]; simpl; [by repeat constructor|]. destruct (p c) eqn:E; [by constructor|].
  destruct (split_on p s) as [|t ts]; [by repeat constructor|].
  apply Forall_cons in IH as [Ht Hts]. constructor; [by constructor|done].
Qed.

Lemma elem_of_dropped {A} (x : A) n l : x ∈ drop n l → x ∈ l.
Proof. rewrite <- (take_drop n l) at 2. rewrite elem_of_app. by right. Qed.

(** Only the first component may be the root. *)
Lemma components_tail_rootless p : c_rootdir ∉ drop 1 (components p).
Proof.
  intros Hin. assert (c_rootdir ∈ pieces p) as Hp.
  { unfold components in Hin.
    assert (∀ l : list str, c_rootdir ∈ List.filter normal_piece l → c_rootdir ∈ l) as Hf.
    { intros l Hl. apply list_elem_of_In in Hl. apply filter_In in Hl as [Hl _]. by apply list_elem_of_In. }
    apply Hf. revert Hin. unfold first_component.
    destruct (path_is_absolute p); [done|]. destruct (pieces p) as [|x l]; [by intros ?%elem_of_nil|].
    case_bool_decide; [done|]. cbn [app]. intros Hin.
    by eapply elem_of_dropped. }
  pose proof (split_on_clean (N.eqb c_slash) p) as Hc. rewrite Forall_forall in Hc.
  specialize (Hc _ Hp). by apply Forall_cons in Hc as [? _].
Qed.

Lemma steps_rooted cs out : c_rootdir ∉ cs → above_or_real out → above_or_real (foldl step_component out cs).
Proof.
  revert out. induction cs as [|c cs IH]; intros out Hc Ho; [done|]. simpl. apply not_elem_of_cons in Hc as [Hc Hcs].
  apply IH; [done|]. by apply step_component_rooted.
Qed.

(** The comparison form of an absolute path on a host whose root exists is reached by
    the walk over its ancestors, and starts at the root. *)
Lemma canonicalize_rooted canonicalize path :
  (∀ cs p, canonicalize cs = Some p → real_path p) → is_Some (canonicalize [c_rootdir]) →
  path_is_absolute path = true → above_or_real (canonicalize_for_compare canonicalize path).
Proof.
  intros Hreal Hroot Habs. unfold canonicalize_for_compare.
  pose proof (components_tail_rootless path) as Hr.
  assert (∃ ns, components path = c_rootdir :: ns) as [ns Hns].
  { unfold components, first_component. rewrite Habs. by eexists. }
  rewrite Hns in *. cbn [drop] in Hr.
  destruct (canonicalize (c_rootdir :: ns)) as [p|] eqn:E; [left; by eapply Hreal|].
  assert (∀ ancs, Forall (λ a, a ≠ []) ancs → [c_rootdir] ∈ ancs →
    ∃ q, from_ancestor canonicalize (c_rootdir :: ns) ancs = Some q ∧ above_or_real q) as Hgo.
  { intros ancs Hne Hin. induction ancs as [|a ancs IH]; [by apply elem_of_nil in Hin|].
    apply Forall_cons in Hne as [Ha Hne]. cbn [from_ancestor].
    destruct (canonicalize a) as [p|] eqn:Ea.
    - eexists. split; [done|]. apply steps_rooted; [|left; by eapply Hreal].
      destruct a as [|x a]; [done|]. cbn [length drop]. intros Hd. apply Hr.
      by eapply elem_of_dropped.
    - apply elem_of_cons in Hin as [<-|Hin]; [by destruct Hroot as [? Hroot]; rewrite Hroot in Ea|by apply IH]. }
  destruct ns as [|n ns].
  { destruct Hroot as [? Hroot]. congruence. }
  destruct (Hgo (ancestors (c_rootdir :: n :: ns))) as (q & -> & Hq); [| |done].
  - apply Forall_forall. intros a Ha. unfold ancestors in Ha. apply list_elem_of_In, filter_In in Ha as [_ Ha].
    by destruct a.
  - unfold ancestors. apply list_elem_of_In, filter_In. split; [|done]. apply list_elem_of_In.
    cbn [proper_prefixes]. rewrite elem_of_app. left. apply list_elem_of_fmap. exists []. split; [done|].
    rewrite elem_of_app. right. by left.
Qed.

(** A path whose form lies under a directory with a name lies below it: no step above
    the root is left in it. *)
Lemma above_under_real cs dir : above_or_real cs → real_path dir → dir `prefix_of` cs → length dir ≠ 1 → real_path cs.
Proof.
  intros [Hr|(ns & -> & Hns)] (ds & -> & Hds) [k Hk] Hl; [done|].
  destruct ds as [|d ds]; [done|]. injection Hk as <- _. apply Forall_cons in Hds as [(_ & _ & Hd) _]. done.
Qed.

(** Observed: of two steps above a relative path the second undoes the first, so the
    mark that is kept for them is lost. *)
Theorem two_steps_up_are_lost x :
  is_name x →
  normalize_lexical [c_parentdir; x] = [c_parentdir; x] ∧
  normalize_lexical [c_parentdir; c_parentdir; x] = [x].
Proof.
  intros (Hr & Hc & Hp). unfold normalize_lexical. simpl. unfold step_component, push.
  by rewrite !(bool_decide_false (x = _)) by done.
Qed.

Lemma two_steps_up_are_lost_witness :
  is_name (lit "x") ∧ normalize_lexical (components (lit "../../x")) = [lit "x"].
Proof.
  split; [by repeat split|]. apply (two_steps_up_are_lost (lit "x")). by repeat split.
Defined.
