(* ===== verification/FilePlace.v ===== *)
(** * Where a file that is written lies (std::fs)

    A path is walked from the root, one component after the other, links followed and
    missing directories made; and when the comparison form of a path is the place that
    this walk comes to.  Of the file system only documented behaviour is assumed. *)
From S2P Require Import Prelude RustStr HostPath.
Local Open Scope nb_scope.

(** The directory above; that of the root is the root. *)
Definition parent_place (q : list str) : list str :=
  match q with
  | [] | [_] => q
  | _ => removelast q
  end.

(** What is assumed of [canonicalize] and of opening a file for writing; [opens q] is the
    place that the entry [q] leads to, when there is an entry. *)
Record FileSystem (canonicalize opens : list str → option (list str)) : Prop := {
  fs_root : canonicalize [c_rootdir] = Some [c_rootdir];
  fs_real : ∀ cs p, canonicalize cs = Some p → real_path p;
  (** Below what is missing there is nothing. *)
  fs_missing : ∀ cs c, cs ≠ [] → canonicalize cs = None → canonicalize (cs ++ [c]) = None;
  (** A name is looked up in the directory that the path before it leads to. *)
  fs_name : ∀ cs p c, canonicalize cs = Some p → is_name c → canonicalize (cs ++ [c]) = canonicalize (p ++ [c]);
  fs_up : ∀ cs p q, canonicalize cs = Some p → canonicalize (cs ++ [c_parentdir]) = Some q → q = parent_place p;
  (** What exists is opened where it is. *)
  fs_opens : ∀ cs q c p, canonicalize cs = Some q → is_name c → canonicalize (q ++ [c]) = Some p → opens (q ++ [c]) = Some p;
  fs_opens_real : ∀ q p, opens q = Some p → real_path p;
}.

(** Every link leads somewhere. *)
Definition no_dangling (canonicalize opens : list str → option (list str)) : Prop :=
  ∀ q, canonicalize q = None → opens q = None.

(** Every step up leaves a directory that exists. *)
Definition steps_up_exist (canonicalize : list str → option (list str)) (cs : list str) : Prop :=
  ∀ a b, cs = a ++ c_parentdir :: b → is_Some (canonicalize (a ++ [c_parentdir])).

Definition walk_step (opens : list str → option (list str)) (q : list str) (c : str) : list str :=
  if c =? c_parentdir then parent_place q else default (q ++ [c]) (opens (q ++ [c])).

(** Where a file lies that is written at an absolute path. *)
Definition place (opens : list str → option (list str)) (path : str) : list str :=
  foldl (walk_step opens) [c_rootdir] (drop 1 (components path)).

Section Places.
Context {canonicalize opens : list str → option (list str)} (fs : FileSystem canonicalize opens).

Lemma fs_prefix cs cs' : cs ≠ [] → is_Some (canonicalize (cs ++ cs')) → is_Some (canonicalize cs).
Proof.
  intros Hne.
  induction cs' as [|c cs' IH] using rev_ind; [by rewrite app_nil_r|]. rewrite app_assoc. intros Hs. apply IH.
  destruct (canonicalize (cs ++ cs')) eqn:E; [done|]. rewrite (fs_missing _ _ fs _ c) in Hs; [by destruct Hs|by destruct cs|done].
Qed.

Lemma existing_steps cs : is_Some (canonicalize cs) → steps_up_exist canonicalize cs.
Proof.
  intros Hs a b ->. apply (fs_prefix _ b); [by destruct a|]. by rewrite <- app_assoc.
Qed.

Definition plain_component (c : str) : Prop := is_name c ∨ c = c_parentdir.

Lemma components_rooted path : path_is_absolute path = true →
  ∃ ns, components path = c_rootdir :: ns ∧ Forall plain_component ns.
Proof.
  intros Habs. pose proof (components_tail_rootless path) as Hr. unfold components, first_component in *. rewrite Habs in *.
  cbn [app drop] in *. eexists. split; [done|]. apply Forall_forall. intros c Hc.
  assert (c ≠ c_rootdir) by by intros ->. apply elem_of_filter_bool in Hc as [_ Hn].
  unfold normal_piece in Hn. apply andb_true_iff in Hn as [_ Hn%negb_true_iff%bool_decide_eq_false].
  destruct (decide (c = c_parentdir)); [by right|by left].
Qed.

Lemma parent_real q : real_path q → real_path (parent_place q).
Proof.
  intros (ns & -> & Hns). destruct ns as [|n ns _] using rev_ind; [by exists []|].
  apply Forall_app in Hns as [Hns _]. exists ns. split; [|done]. unfold parent_place.
  destruct (ns ++ [n]) as [|x l] eqn:E; [by destruct ns|]. rewrite <- E, app_comm_cons. apply removelast_last.
Qed.

(** What exists is where the walk comes to. *)
Lemma walk_existing ns p : Forall plain_component ns → canonicalize (c_rootdir :: ns) = Some p →
  foldl (walk_step opens) [c_rootdir] ns = p.
Proof.
  revert p. induction ns as [|c ns IH] using rev_ind; intros p Hns Hp.
  { rewrite (fs_root _ _ fs) in Hp. by injection Hp. }
  apply Forall_app in Hns as [Hns [Hc _]%Forall_cons]. rewrite foldl_app. cbn [foldl].
  rewrite app_comm_cons in Hp. destruct (canonicalize (c_rootdir :: ns)) as [q|] eqn:E.
  2: { by rewrite (fs_missing _ _ fs (c_rootdir :: ns) c) in Hp. }
  rewrite (IH q) by done. unfold walk_step. destruct Hc as [Hc| ->].
  - rewrite bool_decide_false by apply Hc. rewrite (fs_name _ _ fs _ _ _ E Hc) in Hp. by rewrite (fs_opens _ _ fs _ _ _ _ E Hc Hp).
  - rewrite bool_decide_true by done. symmetry. by eapply fs_up.
Qed.

Lemma walk_missing q ns : no_dangling canonicalize opens → Forall is_name ns →
  (ns ≠ [] → canonicalize (q ++ take 1 ns) = None) → foldl (walk_step opens) q ns = q ++ ns.
Proof.
  intros Hd. revert q. induction ns as [|c ns IH]; intros q Hns Hq; [by rewrite app_nil_r|].
  apply Forall_cons in Hns as [Hc Hns]. cbn [foldl]. specialize (Hq ltac:(done)).
  change (canonicalize (q ++ [c]) = None) in Hq.
  assert (walk_step opens q c = q ++ [c]) as ->.
  { unfold walk_step. rewrite bool_decide_false by apply Hc. by rewrite (Hd _ Hq). }
  rewrite IH; [by rewrite <- app_assoc|done|]. intros _. destruct ns as [|c' ns]; [by rewrite app_nil_r|].
  apply (fs_missing _ _ fs); [by destruct q|done].
Qed.

Lemma steps_of_names p ns : Forall is_name ns → foldl step_component p ns = p ++ ns.
Proof.
  revert p. induction ns as [|c ns IH]; intros p Hns; [by rewrite app_nil_r|]. apply Forall_cons in Hns as [(Hr & Hc & Hp) Hns].
  cbn [foldl]. rewrite IH by done. unfold step_component, push. rewrite !bool_decide_false by done. by rewrite <- app_assoc.
Qed.

Lemma proper_prefixes_app a c b :
  proper_prefixes (a ++ c :: b) = ((λ x, a ++ c :: x) <$> proper_prefixes b) ++ a :: proper_prefixes a.
Proof.
  induction a as [|x a IH]; [done|]. cbn [app proper_prefixes]. rewrite IH, fmap_app, fmap_cons, <- list_fmap_compose.
  by rewrite <- !app_assoc.
Qed.

Lemma from_ancestor_skips cs l1 l2 : Forall (λ a, canonicalize a = None) l1 →
  from_ancestor canonicalize cs (l1 ++ l2) = from_ancestor canonicalize cs l2.
Proof. induction 1 as [|a l1 Ha _ IH]; [done|]. cbn [app from_ancestor]. by rewrite Ha. Qed.

(** The ancestor that is taken is the longest that exists. *)
Lemma compare_from a c b p path : components path = a ++ c :: b → a ≠ [] →
  canonicalize a = Some p → canonicalize (a ++ [c]) = None →
  canonicalize_for_compare canonicalize path = foldl step_component p (c :: b).
Proof.
  intros Hcs Hne Ha Hc. unfold canonicalize_for_compare. rewrite Hcs.
  assert (∀ x, canonicalize (a ++ c :: x) = None) as Hmiss.
  { intros x. destruct (canonicalize (a ++ c :: x)) eqn:E; [|done]. exfalso.
    destruct (fs_prefix (a ++ [c]) x) as [q Hq]; [by destruct a|rewrite <- app_assoc; by eexists|congruence]. }
  rewrite Hmiss. unfold ancestors. rewrite proper_prefixes_app, List.filter_app. cbn [List.filter].
  destruct a as [|r a]; [done|]. rewrite from_ancestor_skips.
  - cbn [from_ancestor]. rewrite Ha. cbn [default]. f_equal. by rewrite drop_app_length.
  - apply Forall_forall. intros x [Hx _]%elem_of_filter_bool. apply list_elem_of_fmap in Hx as (y & -> & _). apply Hmiss.
Qed.

(** Where a path stops to exist. *)
Lemma frontier ns : canonicalize (c_rootdir :: ns) = None →
  ∃ a c b p, c_rootdir :: ns = a ++ c :: b ∧ a ≠ [] ∧ canonicalize a = Some p ∧ canonicalize (a ++ [c]) = None.
Proof.
  induction ns as [|c ns IH] using rev_ind; [by rewrite (fs_root _ _ fs)|]. rewrite app_comm_cons. intros Hn.
  destruct (canonicalize (c_rootdir :: ns)) as [p|] eqn:E; [by exists (c_rootdir :: ns), c, [], p|].
  destruct (IH eq_refl) as (a & c' & b & p & He & ? & ? & ?). exists a, c', (b ++ [c]), p. by rewrite He, <- app_assoc.
Qed.

(** The comparison form of a path is the place where a file lies that is written at it. *)
Lemma compare_is_place path : no_dangling canonicalize opens → path_is_absolute path = true →
  steps_up_exist canonicalize (components path) → canonicalize_for_compare canonicalize path = place opens path.
Proof.
  intros Hd Habs Hup. destruct (components_rooted _ Habs) as (ns & Hcs & Hns). unfold place. rewrite Hcs. change (drop 1 (c_rootdir :: ns)) with ns.
  destruct (canonicalize (c_rootdir :: ns)) as [p|] eqn:E.
  { unfold canonicalize_for_compare. rewrite Hcs, E. symmetry. by apply walk_existing. }
  destruct (frontier ns E) as (a & c & b & p & He & Hne & Ha & Hc).
  rewrite (compare_from a c b p) by (done || by rewrite Hcs). destruct a as [|r a]; [done|]. injection He as <- ->.
  apply Forall_app in Hns as [Hns Hcb].
  assert (Forall is_name (c :: b)) as Hnames.
  { apply Forall_forall. intros x Hx. rewrite Forall_forall in Hcb. destruct (Hcb x Hx) as [| ->]; [done|]. exfalso.
    apply list_elem_of_split in Hx as (l1 & l2 & Hl). destruct (Hup (c_rootdir :: a ++ l1) l2) as [q Hq].
    { rewrite Hcs, Hl. cbn. by rewrite <- app_assoc. }
    destruct (fs_prefix ((c_rootdir :: a) ++ [c]) (drop 1 (l1 ++ [c_parentdir]))) as [q' Hq']; [done| |congruence].
    exists q. rewrite <- Hq. f_equal. cbn [app]. rewrite <- !app_assoc. do 2 f_equal.
    destruct l1; cbn in Hl |- *; by injection Hl as <- _. }
  rewrite foldl_app, (walk_existing a p) by done. rewrite steps_of_names by done. symmetry. apply walk_missing; [done..|].
  intros _. cbn [take]. rewrite <- (fs_name _ _ fs _ _ _ Ha); [done|]. by apply Forall_cons in Hnames as [? _].
Qed.

Lemma place_real path : path_is_absolute path = true → real_path (place opens path).
Proof.
  intros Habs. destruct (components_rooted _ Habs) as (ns & Hcs & Hns). unfold place. rewrite Hcs.
  change (drop 1 (c_rootdir :: ns)) with ns. clear Hcs.
  assert (real_path [c_rootdir]) as Hq by by exists []. revert Hq. generalize [c_rootdir] as q.
  induction Hns as [|c ns Hc Hns IH]; intros q Hq; [done|]. cbn [foldl]. apply IH. unfold walk_step.
  destruct Hc as [Hc| ->].
  - rewrite bool_decide_false by apply Hc. destruct (opens (q ++ [c])) as [p|] eqn:E; [by eapply fs_opens_real|].
    destruct Hq as (ms & -> & Hms). exists (ms ++ [c]). split; [done|]. apply Forall_app. split; [done|by apply Forall_singleton].
  - rewrite bool_decide_true by done. by apply parent_real.
Qed.

(** What is compared as being below is below, by its place. *)
Lemma compared_below dir path :
  no_dangling canonicalize opens → path_is_absolute dir = true → path_is_absolute path = true →
  steps_up_exist canonicalize (components dir) → steps_up_exist canonicalize (components path) →
  canonicalize_for_compare canonicalize dir `prefix_of` canonicalize_for_compare canonicalize path →
  ∃ rest, place opens path = place opens dir ++ rest ∧ Forall is_name rest.
Proof.
  intros Hd Hdir Hpath Hud Hup. rewrite !compare_is_place by done. intros [rest Hrest]. exists rest. split; [done|].
  destruct (place_real path Hpath) as (ns & Hns & Hf). destruct (place_real dir Hdir) as (ds & Hds & _).
  rewrite Hns, Hds in Hrest. cbn in Hrest. injection Hrest as ->. by apply Forall_app in Hf as [_ ?].
Qed.

Lemma joined_steps root p : root ≠ [] → is_Some (canonicalize (components root)) → path_is_absolute p = false →
  c_parentdir ∉ pieces p → steps_up_exist canonicalize (components (path_join root p)).
Proof.
  intros Hr Hs Hp Hn a b. rewrite components_join by done. intros He.
  change (a ++ c_parentdir :: b) with (a ++ [c_parentdir] ++ b) in He. rewrite app_assoc in He.
  apply app_eq_inv in He as [(k & Hk & _)|(k & Hk & Hb)]; [rewrite Hk in Hs; apply (fs_prefix _ k); [by destruct a|done]|].
  destruct k as [|x k _] using rev_ind; [rewrite app_nil_r in Hk; by rewrite Hk|]. exfalso.
  rewrite app_assoc in Hk. apply app_inj_tail in Hk as [_ <-]. apply Hn.
  apply (elem_of_filter_bool normal_piece). rewrite Hb, <- app_assoc. apply elem_of_app. right. by left.
Qed.
End Places.

(** ** A file system of entries *)

(** [tree] has under every entry the place it leads to: itself, or for a link another. *)
Section Tree.
Variable tree : gmap (list str) (list str).

Definition settled (p : list str) : bool := (p =? [c_rootdir]) || bool_decide (tree !! p = Some p).

Definition tree_step (q : option (list str)) (c : str) : option (list str) :=
  q ← q;
  if c =? c_parentdir then Some (parent_place q)
  else p ← tree !! (q ++ [c]); if settled p then Some p else None.

Definition tree_canonicalize (cs : list str) : option (list str) :=
  match cs with
  | r :: ns => if r =? c_rootdir then foldl tree_step (Some [c_rootdir]) ns else None
  | [] => None
  end.

Definition tree_opens (q : list str) : option (list str) := tree !! q.

Definition real_pathb (p : list str) : bool :=
  match p with
  | r :: ns => (r =? c_rootdir) && forallb (λ n, negb (n =? c_rootdir) && negb (n =? c_curdir) && negb (n =? c_parentdir)) ns
  | [] => false
  end.

(** Entries are real places, in directories that are entries. *)
Definition well_formed : bool :=
  forallb (λ e, real_pathb (snd e)
                && (if fst e =? snd e then settled (parent_place (fst e)) && (tree_canonicalize (fst e) =? Some (fst e)) else true))
    (map_to_list tree).

Definition all_lead_somewhere : bool := forallb (λ e, bool_decide (is_Some (tree_canonicalize (fst e)))) (map_to_list tree).

Lemma real_pathb_real p : real_pathb p = true → real_path p.
Proof.
  destruct p as [|r ns]; [done|]. cbn. intros [Hr%bool_decide_eq_true Hns]%andb_true_iff. subst r. exists ns. split; [done|].
  rewrite forallb_forall in Hns. apply Forall_forall. intros n Hn%list_elem_of_In. specialize (Hns n Hn).
  rewrite !andb_true_iff, !negb_true_iff, !bool_decide_eq_false in Hns. unfold is_name. tauto.
Qed.

Lemma tree_links_somewhere : all_lead_somewhere = true → no_dangling tree_canonicalize tree_opens.
Proof.
  unfold all_lead_somewhere. rewrite forallb_forall. intros Ha q Hq. unfold tree_opens. destruct (tree !! q) as [t|] eqn:E; [|done].
  apply elem_of_map_to_list, list_elem_of_In in E. specialize (Ha _ E). apply bool_decide_eq_true in Ha. cbn [fst] in Ha.
  rewrite Hq in Ha. by destruct Ha.
Qed.

Lemma tree_snoc cs c : cs ≠ [] → tree_canonicalize (cs ++ [c]) = tree_step (tree_canonicalize cs) c.
Proof.
  destruct cs as [|r ns]; [done|]. intros _. cbn [tree_canonicalize app]. case_bool_decide; [by rewrite foldl_app|done].
Qed.

Hypothesis wf : well_formed = true.

Lemma entry_wf k t : tree !! k = Some t →
  real_path t ∧ (k = t → settled (parent_place k) = true ∧ tree_canonicalize k = Some k).
Proof.
  intros E. unfold well_formed in wf. rewrite forallb_forall in wf.
  apply elem_of_map_to_list, list_elem_of_In in E. specialize (wf _ E). cbn [fst snd] in wf.
  apply andb_true_iff in wf as [Hr Hs]. split; [by apply real_pathb_real|]. intros ->. rewrite bool_decide_true in Hs by done.
  apply andb_true_iff in Hs as [Hs Hc%bool_decide_eq_true]. done.
Qed.

Lemma settled_facts p : settled p = true →
  real_path p ∧ settled (parent_place p) = true ∧ tree_canonicalize p = Some p.
Proof.
  intros [Hp%bool_decide_eq_true|Hp%bool_decide_eq_true]%orb_true_iff.
  - subst p. split_and!; [by exists []|done|done].
  - destruct (entry_wf _ _ Hp) as [Hr Hs]. destruct (Hs eq_refl). done.
Qed.

Lemma tree_settled cs p : tree_canonicalize cs = Some p → settled p = true.
Proof.
  revert p. induction cs as [|c cs IH] using rev_ind; intros p Hp; [done|].
  destruct cs as [|r cs]; [cbn in Hp; case_bool_decide; [by injection Hp as <-|done]|].
  rewrite tree_snoc in Hp by done. unfold tree_step in Hp.
  destruct (tree_canonicalize (r :: cs)) as [q|]; [|done]. cbn [mbind option_bind] in Hp. case_bool_decide.
  - injection Hp as <-. by apply settled_facts, IH.
  - destruct (tree !! (q ++ [c])) as [t|]; [|done]. cbn [mbind option_bind] in Hp. destruct (settled t) eqn:Es; [|done]. by injection Hp as <-.
Qed.

Lemma tree_file_system : FileSystem tree_canonicalize tree_opens.
Proof.
  assert (∀ cs p, tree_canonicalize cs = Some p → cs ≠ [] ∧ p ≠ []) as Hne.
  { intros cs p Hp. split; [by intros ->|]. apply tree_settled, settled_facts in Hp as [(ns & -> & _) _]. done. }
  assert (∀ cs p c, tree_canonicalize cs = Some p → tree_canonicalize (cs ++ [c]) = tree_canonicalize (p ++ [c])) as Hname.
  { intros cs p c Hp. destruct (Hne _ _ Hp). rewrite !tree_snoc by done. apply tree_settled in Hp as Hs.
    rewrite Hp. by destruct (settled_facts _ Hs) as (_ & _ & ->). }
  split.
  - done.
  - intros cs p Hp%tree_settled. by apply settled_facts.
  - intros cs c Hcs Hn. by rewrite tree_snoc, Hn.
  - intros cs p c Hp _. by apply Hname.
  - intros cs p q Hp Hq. destruct (Hne _ _ Hp). rewrite tree_snoc, Hp in Hq by done. cbn in Hq. by injection Hq as <-.
  - intros cs q c p Hq Hc Hp. rewrite <- (Hname _ _ _ Hq) in Hp. destruct (Hne _ _ Hq). rewrite tree_snoc, Hq in Hp by done. unfold tree_step in Hp.
    cbn [mbind option_bind] in Hp. rewrite bool_decide_false in Hp by apply Hc. unfold tree_opens.
    destruct (tree !! (q ++ [c])) as [t|]; [|done]. cbn [mbind option_bind] in Hp. by destruct (settled t).
  - intros q p Hq. by destruct (entry_wf _ _ Hq).
Qed.
End Tree.
