(* ===== verification/Utf8.v ===== *)
(** * Decoding UTF-8 with replacement ([String::from_utf8_lossy])

    Bytes are numbers below 256.  A sequence that is not UTF-8 becomes U+FFFD, one
    per maximal prefix of a well-formed character. *)
From S2P Require Import Prelude RustStr.
Local Open Scope N_scope.

Definition REPLACEMENT : char := 0xFFFD.

Definition cont (b : N) : bool := (128 <=? b) && (b <=? 191).

(** The number of bytes a first byte announces; 0 when it cannot begin a character. *)
Definition sequence_len (b : N) : nat :=
  if b <? 128 then 1%nat
  else if (194 <=? b) && (b <=? 223) then 2%nat
  else if (224 <=? b) && (b <=? 239) then 3%nat
  else if (240 <=? b) && (b <=? 244) then 4%nat
  else 0%nat.

(** The second byte of a character of three or four bytes. *)
Definition second (b0 b1 : N) : bool :=
  if N.eqb b0 0xE0 then (0xA0 <=? b1) && (b1 <=? 0xBF)
  else if N.eqb b0 0xED then (0x80 <=? b1) && (b1 <=? 0x9F)
  else if N.eqb b0 0xF0 then (0x90 <=? b1) && (b1 <=? 0xBF)
  else if N.eqb b0 0xF4 then (0x80 <=? b1) && (b1 <=? 0x8F)
  else cont b1.

Definition tail6 (b : N) : N := b - 128.

Fixpoint from_utf8_lossy (bytes : list N) : str :=
  match bytes with
  | [] => []
  | b0 :: t0 =>
      match sequence_len b0 with
      | 1%nat => b0 :: from_utf8_lossy t0
      | 2%nat =>
          match t0 with
          | b1 :: t1 =>
              if cont b1 then ((b0 - 192) * 64 + tail6 b1) :: from_utf8_lossy t1
              else REPLACEMENT :: from_utf8_lossy t0
          | [] => [REPLACEMENT]
          end
      | 3%nat =>
          match t0 with
          | b1 :: t1 =>
              if second b0 b1 then
                match t1 with
                | b2 :: t2 =>
                    if cont b2
                    then ((b0 - 224) * 4096 + tail6 b1 * 64 + tail6 b2) :: from_utf8_lossy t2
                    else REPLACEMENT :: from_utf8_lossy t1
                | [] => [REPLACEMENT]
                end
              else REPLACEMENT :: from_utf8_lossy t0
          | [] => [REPLACEMENT]
          end
      | 4%nat =>
          match t0 with
          | b1 :: t1 =>
              if second b0 b1 then
                match t1 with
                | b2 :: t2 =>
                    if cont b2 then
                      match t2 with
                      | b3 :: t3 =>
                          if cont b3
                          then ((b0 - 240) * 262144 + tail6 b1 * 4096 + tail6 b2 * 64 + tail6 b3)
                               :: from_utf8_lossy t3
                          else REPLACEMENT :: from_utf8_lossy t2
                      | [] => [REPLACEMENT]
                      end
                    else REPLACEMENT :: from_utf8_lossy t1
                | [] => [REPLACEMENT]
                end
              else REPLACEMENT :: from_utf8_lossy t0
          | [] => [REPLACEMENT]
          end
      | _ => REPLACEMENT :: from_utf8_lossy t0
      end
  end.

(** ** Lemmas *)

(** A Unicode scalar value. *)
Definition scalar (c : char) : Prop := c < 0x110000 ∧ ¬ (0xD800 <= c ∧ c <= 0xDFFF).

#[export] Instance scalar_dec c : Decision (scalar c).
Proof. unfold scalar. apply _. Defined.

(** Decide the comparisons of numbers in the goal. *)
Ltac n_tests := repeat match goal with
  | |- context [?a <? ?b] => destruct (N.ltb_spec a b); try lia
  | |- context [?a <=? ?b] => destruct (N.leb_spec a b); try lia
  | |- context [?a =? ?b] => destruct (N.eqb_spec a b); try lia
  end.

Lemma sequence_len_2 b : 194 <= b <= 223 → sequence_len b = 2%nat.
Proof. intros. unfold sequence_len. by n_tests. Qed.
Lemma sequence_len_3 b : 224 <= b <= 239 → sequence_len b = 3%nat.
Proof. intros. unfold sequence_len. by n_tests. Qed.
Lemma sequence_len_4 b : 240 <= b <= 244 → sequence_len b = 4%nat.
Proof. intros. unfold sequence_len. by n_tests. Qed.
Lemma sequence_len_1 b : b < 128 → sequence_len b = 1%nat.
Proof. intros. unfold sequence_len. by n_tests. Qed.

Lemma cont_true b : 128 <= b <= 191 → cont b = true.
Proof. intros. unfold cont. by n_tests. Qed.

Lemma div64 c : c = 64 * (c / 64) + c mod 64 ∧ c mod 64 < 64.
Proof. split; [apply N.div_mod'|]. apply N.mod_lt. lia. Qed.

Lemma div4096 c : c / 4096 = c / 64 / 64.
Proof. rewrite N.Div0.div_div. done. Qed.
Lemma div262144 c : c / 262144 = c / 64 / 64 / 64.
Proof. rewrite !N.Div0.div_div. done. Qed.

Lemma lossy_char c t : scalar c → from_utf8_lossy (utf8_char c ++ t) = c :: from_utf8_lossy t.
Proof.
  intros [Hc Hs]. unfold utf8_char.
  pose proof (div64 c) as [E1 ?]. pose proof (div64 (c / 64)) as [E2 ?]. pose proof (div64 (c / 64 / 64)) as [E3 ?].
  rewrite div262144, div4096.
  set (q1 := c / 64) in *. set (q2 := q1 / 64) in *. set (q3 := q2 / 64) in *.
  set (r1 := c mod 64) in *. set (r2 := q1 mod 64) in *. set (r3 := q2 mod 64) in *.
  clearbody r1 r2 r3. clearbody q3. clearbody q2. clearbody q1.
  destruct (N.ltb_spec c 128); [|destruct (N.ltb_spec c 2048); [|destruct (N.ltb_spec c 65536)]];
    cbn [app from_utf8_lossy].
  - by rewrite sequence_len_1.
  - rewrite sequence_len_2, cont_true by lia. f_equal. unfold tail6. lia.
  - rewrite sequence_len_3, (cont_true (128 + r1)) by lia.
    replace (second (224 + q2) (128 + r2)) with true
      by (unfold second, cont; by n_tests).
    f_equal. unfold tail6. lia.
  - rewrite sequence_len_4, (cont_true (128 + r1)), (cont_true (128 + r2)) by lia.
    replace (second (240 + q3) (128 + r3)) with true
      by (unfold second, cont; by n_tests).
    f_equal. unfold tail6. lia.
Qed.

Lemma lossy_app s t : Forall scalar s → from_utf8_lossy (as_bytes s ++ t) = s ++ from_utf8_lossy t.
Proof.
  unfold as_bytes. induction 1 as [|c s Hc _ IH]; [done|]. cbn [fmap list_fmap mjoin list_join].
  rewrite <- app_assoc, lossy_char by done. cbn [app]. f_equal. exact IH.
Qed.

Lemma lossy_ascii s t : is_ascii s = true → from_utf8_lossy (s ++ t) = s ++ from_utf8_lossy t.
Proof.
  intros Hs. rewrite <- (as_bytes_ascii s Hs) at 1. apply lossy_app, Forall_forall. intros c Hc.
  unfold is_ascii in Hs. rewrite forallb_forall in Hs. apply list_elem_of_In in Hc. specialize (Hs c Hc).
  unfold is_ascii_char in Hs. apply N.ltb_lt in Hs. split; lia.
Qed.

(** Also: what a text encodes to is decoded to the text. *)
Theorem utf8_roundtrip s : Forall scalar s → from_utf8_lossy (as_bytes s) = s.
Proof. intros Hs. rewrite <- (app_nil_r (as_bytes s)), lossy_app by done. apply app_nil_r. Qed.

Lemma utf8_roundtrip_witness :
  Forall scalar (ulit "aé中😀") ∧ from_utf8_lossy (as_bytes (ulit "aé中😀")) = ulit "aé中😀".
Proof.
  assert (Forall scalar (ulit "aé中😀")) as Hs by (apply (bool_decide_unpack _); vm_compute; exact I).
  split; [exact Hs|]. exact (utf8_roundtrip _ Hs).
Defined.

(** A character cut after its first byte. *)
Lemma lossy_cut c : 128 <= c → scalar c → ∃ b t, utf8_char c = b :: t ∧ from_utf8_lossy [b] = [REPLACEMENT].
Proof.
  intros Hc [Hs _]. unfold utf8_char.
  destruct (N.ltb_spec c 128); [lia|]. destruct (N.ltb_spec c 2048); [|destruct (N.ltb_spec c 65536)].
  all: do 2 eexists; split; [reflexivity|]; cbn [from_utf8_lossy].
  - rewrite sequence_len_2; [done|].
    pose proof (div64 c) as [E ?]. set (q := c / 64) in *. set (r := c mod 64) in *. clearbody q r. lia.
  - rewrite sequence_len_3; [done|].
    pose proof (N.div_mod' c 4096) as E. pose proof (N.mod_lt c 4096 ltac:(lia)).
    set (q := c / 4096) in *. set (r := c mod 4096) in *. clearbody q r. lia.
  - rewrite sequence_len_4; [done|].
    pose proof (N.div_mod' c 262144) as E. pose proof (N.mod_lt c 262144 ltac:(lia)).
    set (q := c / 262144) in *. set (r := c mod 262144) in *. clearbody q r. lia.
Qed.
