(* ===== verification/Json.v ===== *)
(** * JSON values ([serde_json::Value])

    The values, the queries of the sources, and text.  Numbers and [f64]
    arithmetic are opaque ([JsonNumbers]), as is the JSON text of a value
    ([JsonText], [JsonCodec]).  An object is the list of its members in the order
    of the map, which is that of the keys. *)
From Stdlib Require Import Sorted.
From S2P Require Import Prelude RustStr.
Local Open Scope nb_scope.

Class JsonNumbers := {
  num : Type;
  f64 : Type;
  num_as_f64 : num → option f64;
  num_from_f64 : f64 → option num;
  parse_f64 : str → option f64;
  f64_partial_cmp : f64 → f64 → option comparison;
  f64_nonzero : f64 → bool;
}.

#[warnings="-register-all"]
Inductive Value `{JsonNumbers} : Type :=
| VNull
| VBool (b : bool)
| VNumber (n : num)
| VString (s : str)
| VArray (a : list Value)
| VObject (o : list (str * Value)).

(** [Value::to_string]: the compact JSON text. *)
Class JsonText `{JsonNumbers} := {
  json_text : Value → str;
  json_text_null : json_text VNull = lit "null";
  json_text_bool : ∀ b, json_text (VBool b) = lit (if b then "true" else "false");
}.

(** What a [serde_json::Map] guarantees: the keys of every object are in order and
    different. *)
Fixpoint canonical `{JsonNumbers} (v : Value) : Prop :=
  match v with
  | VArray a => foldr (λ x P, canonical x ∧ P) True a
  | VObject o =>
      StronglySorted (λ m m' : str * Value, str_lt (fst m) (fst m') = true) o
      ∧ foldr (λ m P, canonical (snd m) ∧ P) True o
  | _ => True
  end.

(** Reading and writing: what is read is such a value, and what was written is read
    back. *)
Class JsonCodec `{JsonNumbers} := {
  json_from_str : str → option Value;
  json_to_string : Value → str;
  json_from_canonical : ∀ s v, json_from_str s = Some v → canonical v;
  json_roundtrip : ∀ v, canonical v → json_from_str (json_to_string v) = Some v;
}.

Section Values.
Context `{JsonNumbers}.

Definition as_object (v : Value) : option (list (str * Value)) :=
  match v with
  | VObject o => Some o
  | _ => None
  end.

Definition as_str (v : Value) : option str :=
  match v with
  | VString s => Some s
  | _ => None
  end.

Definition as_bool (v : Value) : option bool :=
  match v with
  | VBool b => Some b
  | _ => None
  end.

Definition as_array (v : Value) : option (list Value) :=
  match v with
  | VArray a => Some a
  | _ => None
  end.

Definition as_f64 (v : Value) : option f64 :=
  match v with
  | VNumber n => num_as_f64 n
  | _ => None
  end.

(** The text of a value where strings stand for themselves. *)
Definition plain_text `{!JsonText} (v : Value) : str :=
  match v with
  | VString s => s
  | other => json_text other
  end.

(** ** Members *)

Fixpoint member (k : str) (o : list (str * Value)) : option Value :=
  match o with
  | [] => None
  | (k', v) :: o => if k =? k' then Some v else member k o
  end.

(** [v.get(k)]. *)
Definition json_get (k : str) (v : Value) : option Value := as_object v ≫= member k.

Definition get_str (k : str) (v : Value) : option str := json_get k v ≫= as_str.

(** Insert into the map: the value of the key is replaced, a new key takes its
    place in the order. *)
Fixpoint insert_member (k : str) (v : Value) (o : list (str * Value)) : list (str * Value) :=
  match o with
  | [] => [(k, v)]
  | (k', v') :: o =>
      if k =? k' then (k, v) :: o
      else if str_lt k k' then (k, v) :: (k', v') :: o
      else (k', v') :: insert_member k v o
  end.

Definition remove_member (k : str) (o : list (str * Value)) : list (str * Value) :=
  List.filter (λ m, negb (k =? fst m)) o.

(** [v[k] = x] and [obj.insert] on an object; other values stay. *)
Definition set_member (k : str) (x v : Value) : Value :=
  match v with
  | VObject o => VObject (insert_member k x o)
  | other => other
  end.

Lemma member_insert k v o : member k (insert_member k v o) = Some v.
Proof.
  induction o as [|[k' v'] o IH]; cbn [insert_member member]; [by rewrite bool_decide_true|].
  case_bool_decide as Hk; cbn [member]; [by rewrite bool_decide_true|].
  destruct (str_lt k k'); cbn [member]; [by rewrite bool_decide_true|]. by rewrite bool_decide_false.
Qed.

Lemma member_insert_ne k k' v o : k ≠ k' → member k (insert_member k' v o) = member k o.
Proof.
  intros Hn. induction o as [|[k1 v1] o IH]; cbn [insert_member member]; [by rewrite bool_decide_false|].
  case_bool_decide as Hk; cbn [member].
  - subst k1. by rewrite !bool_decide_false.
  - destruct (str_lt k' k1); cbn [member]; [by rewrite bool_decide_false|]. by rewrite IH.
Qed.

Lemma get_set_member k x o : json_get k (set_member k x (VObject o)) = Some x.
Proof. apply member_insert. Qed.

Lemma get_set_member_ne k k' x v : k ≠ k' → json_get k (set_member k' x v) = json_get k v.
Proof. intros Hn. destruct v; try done. by apply member_insert_ne. Qed.

(** ** The order of the keys is kept *)

Lemma foldr_Forall {A} (P : A → Prop) l : foldr (λ x Q, P x ∧ Q) True l ↔ Forall P l.
Proof. induction l as [|x l IH]; cbn; [done|]. by rewrite Forall_cons, IH. Qed.

Lemma canonical_array a : canonical (VArray a) ↔ Forall canonical a.
Proof. apply foldr_Forall. Qed.

Definition sorted_members (o : list (str * Value)) : Prop :=
  StronglySorted (λ m m' : str * Value, str_lt (fst m) (fst m') = true) o.

Lemma canonical_object o : canonical (VObject o) ↔ sorted_members o ∧ Forall (λ m, canonical (snd m)) o.
Proof. cbn [canonical]. by rewrite (foldr_Forall (λ m, canonical (snd m))). Qed.

Lemma insert_member_Forall (P : str * Value → Prop) k v o :
  P (k, v) → Forall P o → Forall P (insert_member k v o).
Proof.
  intros Hk. induction 1 as [|[k' v'] o Hx Ho IH]; cbn [insert_member]; [by repeat constructor|].
  case_bool_decide; [by constructor|]. destruct (str_lt k k'); by repeat constructor.
Qed.

Lemma insert_member_sorted k v o : sorted_members o → sorted_members (insert_member k v o).
Proof.
  induction 1 as [|[k' v'] o Ho IH Hk']; cbn [insert_member]; [by repeat constructor|].
  case_bool_decide as Hk; [subst; by constructor|]. destruct (str_lt k k') eqn:E.
  - constructor; [by constructor|]. constructor; [done|]. eapply Forall_impl; [exact Hk'|].
    intros [k2 v2] H2. cbn in *. by eapply str_lt_trans.
  - constructor; [done|]. apply insert_member_Forall; [|done]. cbn.
    pose proof (str_lt_trichotomy k k') as Ht. rewrite E in Ht. by destruct Ht.
Qed.

Lemma set_member_canonical k x v : canonical x → canonical v → canonical (set_member k x v).
Proof.
  intros Hx. destruct v as [| | | |a|o]; try done. unfold set_member. rewrite !canonical_object. intros [Hs Ho].
  split; [by apply insert_member_sorted|by apply insert_member_Forall].
Qed.

Lemma remove_member_canonical k o : canonical (VObject o) → canonical (VObject (remove_member k o)).
Proof.
  rewrite !canonical_object. intros [Hs Ho]. split.
  - clear Ho. unfold remove_member. induction Hs as [|m o Hs IH Hm]; cbn; [constructor|]. destruct (negb _); [|done].
    constructor; [done|]. rewrite Forall_forall in Hm |- *. intros m' Hin. apply Hm.
    rewrite list_elem_of_In, filter_In in Hin. apply list_elem_of_In, Hin.
  - rewrite Forall_forall in Ho |- *. intros m' Hin. apply Ho. unfold remove_member in Hin.
    rewrite list_elem_of_In, filter_In in Hin. apply list_elem_of_In, Hin.
Qed.

Lemma member_canonical k o x : canonical (VObject o) → member k o = Some x → canonical x.
Proof.
  rewrite canonical_object. intros [_ Ho]. induction Ho as [|[k' v'] o Hx Ho IH]; [done|]. cbn [member].
  case_bool_decide; [by intros [= <-]|done].
Qed.
End Values.

(** ** A codec for witnesses *)

Definition unit_numbers : JsonNumbers := {|
  num := unit; f64 := unit; num_as_f64 := Some; num_from_f64 := Some; parse_f64 := λ _, None;
  f64_partial_cmp := λ _ _, Some Eq; f64_nonzero := λ _, true;
|}.

Section Toy.
#[local] Existing Instance unit_numbers.

Definition tree : Type := gen_tree (bool + str).

Fixpoint to_tree (v : Value) : tree :=
  match v with
  | VNull => GenNode 0 []
  | VBool b => GenLeaf (inl b)
  | VNumber _ => GenNode 1 []
  | VString s => GenLeaf (inr s)
  | VArray a => GenNode 2 (map to_tree a)
  | VObject o => GenNode 3 (map (λ m, GenNode 4 [GenLeaf (inr (fst m)); to_tree (snd m)]) o)
  end.

Fixpoint of_tree (t : tree) : Value :=
  match t with
  | GenLeaf (inl b) => VBool b
  | GenLeaf (inr s) => VString s
  | GenNode 1 _ => VNumber tt
  | GenNode 2 l => VArray (map of_tree l)
  | GenNode 3 l =>
      VObject (map (λ t, match t with GenNode _ [GenLeaf (inr k); x] => (k, of_tree x) | _ => ([], VNull) end) l)
  | _ => VNull
  end.

Fixpoint of_to_tree (v : Value) : of_tree (to_tree v) = v.
Proof.
  destruct v as [|b|[]|s|a|o]; try reflexivity; cbn [to_tree of_tree]; f_equal; rewrite map_map.
  - induction a as [|x a IH]; [done|]. cbn [map]. by rewrite of_to_tree, IH.
  - induction o as [|[k x] o IH]; [done|]. cbn [map fst snd]. by rewrite of_to_tree, IH.
Qed.

Fixpoint canonical_dec (v : Value) : Decision (canonical v).
Proof.
  destruct v as [|b|n|s|a|o]; try (left; exact I).
  - induction a as [|x a IH]; [by left|]. cbn. destruct (canonical_dec x), IH; (left; by split) || (right; tauto).
  - apply and_dec.
    + induction o as [|m o IH]; [left; constructor|]. destruct IH as [Hs|Hs].
      * destruct (Forall_dec (λ m', str_lt (fst m) (fst m') = true) o) as [Hf|Hf];
          [left; by constructor|right; by intros [? ?]%StronglySorted_inv].
      * right. by intros [? ?]%StronglySorted_inv.
    + induction o as [|[k x] o IH]; [by left|]. cbn. destruct (canonical_dec x), IH; (left; by split) || (right; tauto).
Defined.

Definition toy_read (s : str) : option Value :=
  match s with
  | [Npos p] =>
      v ← of_tree <$> decode p;
      if canonical_dec v then Some v else None
  | _ => None
  end.

Definition toy_json : JsonCodec.
Proof.
  refine {| json_from_str := toy_read; json_to_string := λ v, [Npos (encode (to_tree v))] |}.
  - intros s v. unfold toy_read. destruct s as [|[|p] [|]]; try done.
    destruct (of_tree <$> decode p) as [x|]; [|done]. cbn. destruct (canonical_dec x); [by intros [= <-]|done].
  - intros v Hv. unfold toy_read. rewrite decode_encode. cbn [fmap option_fmap option_map mbind option_bind].
    rewrite of_to_tree. by destruct (canonical_dec v).
Defined.
End Toy.
