(* ===== verification/Channel.v ===== *)
(** * Messages between channels and the agent (nemesis-types/src/channel.rs)

    What a channel hands in, what the agent hands out, and the list of open files a client
    reports with a message. *)
From stdpp Require Import strings.
From S2P Require Import Prelude RustStr Json.
Local Open Scope nb_scope.

Record MediaAttachment := mkMedia {
  ma_media_type : str;
  ma_url : str;
  ma_data : option str;
}.

Record InboundMessage := mkInbound {
  im_channel : str;
  im_sender_id : str;
  im_chat_id : str;
  im_content : str;
  im_media : list MediaAttachment;
  im_session_key : str;
  im_correlation_id : str;
  im_metadata : gmap str str;
  im_voice_playback : option bool;
}.

Definition im_with_content (m : InboundMessage) (content : str) : InboundMessage :=
  mkInbound (im_channel m) (im_sender_id m) (im_chat_id m) content (im_media m) (im_session_key m) (im_correlation_id m)
    (im_metadata m) (im_voice_playback m).

Definition im_with_key (m : InboundMessage) (key : str) : InboundMessage :=
  mkInbound (im_channel m) (im_sender_id m) (im_chat_id m) (im_content m) (im_media m) key (im_correlation_id m)
    (im_metadata m) (im_voice_playback m).

Record OutboundMeta := mkOutMeta {
  om_model : option str;
  om_session_key : option str;
  om_source_node : option str;
}.

Record OutboundMessage := mkOutbound {
  ob_channel : str;
  ob_chat_id : str;
  ob_content : str;
  ob_message_type : str;
  ob_meta : OutboundMeta;
}.

(** ** Open files *)

Definition MAX_OPEN_FILES : nat := 20.
Definition MAX_OPEN_FILE_PATH_LEN : nat := 1024.

(** The loop ends when enough are kept; one that was seen is passed over. *)
Fixpoint sanitize_go (paths seen cleaned : list str) : list str :=
  match paths with
  | [] => cleaned
  | p :: paths =>
      let p := trim p in
      if negb (nonempty p) || (MAX_OPEN_FILE_PATH_LEN <? length p)%nat then sanitize_go paths seen cleaned
      else
        let '(seen, cleaned) := if bool_decide (p ∈ seen) then (seen, cleaned) else (p :: seen, cleaned ++ [p]) in
        if (MAX_OPEN_FILES <=? length cleaned)%nat then cleaned else sanitize_go paths seen cleaned
  end.

Definition sanitize_open_files (paths : list str) : list str := sanitize_go paths [] [].

(** What the list is meant to be: trimmed, without blanks, long ones and repetitions, cut. *)
Fixpoint first_occurrences (l seen : list str) : list str :=
  match l with
  | [] => []
  | p :: l => if bool_decide (p ∈ seen) then first_occurrences l seen else p :: first_occurrences l (p :: seen)
  end.

Definition reportable (p : str) : bool := nonempty p && (length p <=? MAX_OPEN_FILE_PATH_LEN)%nat.

Section OpenFiles.
Context `{JsonNumbers} `{!JsonCodec}.

(** [serde_json::from_str::<Vec<String>>]. *)
Definition strings_from_json (raw : str) : option (list str) :=
  match json_from_str raw with
  | Some (VArray a) => mapM (λ v, match v with VString s => Some s | _ => None end) a
  | _ => None
  end.

Definition open_files_from_metadata (metadata : gmap str str) : list str :=
  default [] (raw ← metadata !! lit "open_files"; paths ← strings_from_json raw; Some (sanitize_open_files paths)).
End OpenFiles.

#[local] Opaque MAX_OPEN_FILES MAX_OPEN_FILE_PATH_LEN.

Lemma sanitize_go_spec paths : ∀ seen cleaned, (length cleaned < MAX_OPEN_FILES)%nat →
  sanitize_go paths seen cleaned = take MAX_OPEN_FILES (cleaned ++ first_occurrences (List.filter reportable (trim <$> paths)) seen).
Proof.
  induction paths as [|p paths IH]; intros seen cleaned Hl; [simpl; by rewrite app_nil_r, take_ge by lia|]. simpl sanitize_go.
  rewrite fmap_cons. simpl List.filter. unfold reportable at 1.
  rewrite Nat.ltb_antisym. destruct (nonempty (trim p)); simpl; [|by apply IH].
  destruct (length (trim p) <=? MAX_OPEN_FILE_PATH_LEN)%nat; simpl; [|by apply IH]. case_bool_decide as Hs.
  - rewrite (proj2 (Nat.leb_gt _ _) Hl). by apply IH.
  - rewrite length_app. simpl. case_match eqn:E.
    + apply Nat.leb_le in E.
      rewrite (cons_middle (trim p) cleaned (first_occurrences _ _)), (app_assoc cleaned [trim p]).
      rewrite (take_app_le (cleaned ++ [trim p])) by (rewrite length_app; simpl; lia). symmetry. apply take_ge. rewrite length_app. simpl. lia.
    + apply Nat.leb_gt in E. rewrite IH by (rewrite length_app; simpl; lia). by rewrite <-app_assoc.
Qed.

(** Also: the list a client reports is kept in its order, trimmed, each path once, without
    blank and overlong ones, and cut at the limit. *)
Theorem sanitize_open_files_spec paths :
  sanitize_open_files paths = take MAX_OPEN_FILES (first_occurrences (List.filter reportable (trim <$> paths)) []).
Proof. apply sanitize_go_spec. apply Nat.ltb_lt. reflexivity. Qed.
