(* ===== verification/F64.v ===== *)
(** * Floating point ([f64])

    A finite [f64] is the rational it stands for, and every operation is the exact
    one followed by rounding, as IEEE 754 defines it.  What is relied on of the
    rounding are its laws: it is monotone, it leaves alone the dyadic numbers that fit
    the 53 bits of a significand, and it leaves alone what it has rounded.  Overflow, infinities and NaN do not
    occur in the computations modelled with it: divisors are guarded and the sums
    have few small terms.  [log2] and the two renderings are opaque. *)
From Stdlib Require Import QArith Qround Lqa.
From S2P Require Import Prelude RustStr.
Local Open Scope Q_scope.

Class Float := {
  rnd : Q → Q;
  rnd_mono : ∀ x y, x <= y → rnd x <= rnd y;
  rnd_dyadic : ∀ (z : Z) (n : positive),
    (Z.abs z <= 2 ^ 53)%Z → (n < 1000)%positive → rnd (z # 2 ^ n) == (z # 2 ^ n);
  rnd_idem : ∀ x, rnd (rnd x) == rnd x;
  (** [f64::log2]. *)
  flog2 : Q → Q;
  (** [{:.2}]. *)
  fmt2 : Q → str;
}.

(** ** Operations *)

Section Operations.
Context {FL : Float}.

Definition fadd (x y : Q) : Q := rnd (x + y).
Definition fsub (x y : Q) : Q := rnd (x - y).
Definition fmul (x y : Q) : Q := rnd (x * y).
Definition fdiv (x y : Q) : Q := rnd (x / y).

(** [f64::min], [f64::max], [<], [<=]. *)
Definition fle (x y : Q) : bool := Qle_bool x y.
Definition flt (x y : Q) : bool := negb (Qle_bool y x).
Definition fmin (x y : Q) : Q := if fle x y then x else y.
Definition fmax (x y : Q) : Q := if fle x y then y else x.

(** The literal [n/100] and the conversion of a [usize]. *)
Definition f100 (n : Z) : Q := rnd (n # 100).
Definition of_usize (n : nat) : Q := rnd (inject_Z (Z.of_nat n)).

(** [f64::round]: the nearest integer, halves away from zero. *)
Definition fround (x : Q) : Q :=
  if fle 0 x then inject_Z (Qfloor (x + (1 # 2))) else - inject_Z (Qfloor (- x + (1 # 2))).

(** ** Lemmas *)

Lemma rnd_dy (z : Z) (d n : positive) :
  (2 ^ n)%positive = d → (Z.abs z <= 2 ^ 53)%Z → (n < 1000)%positive → rnd (z # d) == (z # d).
Proof. intros <-. apply rnd_dyadic. Qed.

Lemma rnd_int (z : Z) : (Z.abs z <= 2 ^ 52)%Z → rnd (inject_Z z) == inject_Z z.
Proof.
  intros Hz. assert (inject_Z z == ((2 * z) # 2)) as E by (unfold Qeq; simpl; lia).
  pose proof (rnd_dy (2 * z) 2 1 eq_refl ltac:(lia) ltac:(lia)) as Hr.
  assert (rnd (inject_Z z) == rnd ((2 * z) # 2)) as ->; [|by rewrite Hr].
  apply Qle_antisym; apply rnd_mono; rewrite E; apply Qle_refl.
Qed.

#[global] Instance rnd_proper : Proper (Qeq ==> Qeq) rnd.
Proof. intros x y E. apply Qle_antisym; apply rnd_mono; rewrite E; apply Qle_refl. Qed.

Lemma rnd_0 : rnd 0 == 0.
Proof. apply (rnd_int 0). lia. Qed.

Lemma rnd_1 : rnd 1 == 1.
Proof. apply (rnd_int 1). lia. Qed.

(** A bound by a representable number survives rounding. *)
Lemma rnd_le (x : Q) (z : Z) (d n : positive) :
  (2 ^ n)%positive = d → (Z.abs z <= 2 ^ 53)%Z → (n < 1000)%positive → x <= (z # d) → rnd x <= (z # d).
Proof. intros Hd Hz Hn Hx. rewrite <- (rnd_dy z d n) by done. by apply rnd_mono. Qed.

Lemma rnd_ge (x : Q) (z : Z) (d n : positive) :
  (2 ^ n)%positive = d → (Z.abs z <= 2 ^ 53)%Z → (n < 1000)%positive → (z # d) <= x → (z # d) <= rnd x.
Proof. intros Hd Hz Hn Hx. rewrite <- (rnd_dy z d n) by done. by apply rnd_mono. Qed.

Lemma rnd_nonneg x : 0 <= x → 0 <= rnd x.
Proof. intros Hx. rewrite <- rnd_0. by apply rnd_mono. Qed.

Lemma rnd_le_1 x : x <= 1 → rnd x <= 1.
Proof. intros Hx. rewrite <- rnd_1. by apply rnd_mono. Qed.

(** Near zero, rounding takes away at most [1/1024]. *)
Lemma rnd_lower x : 0 <= x → x <= 1024 → x - (1 # 1024) <= rnd x.
Proof.
  intros H0 H1. pose proof (Qfloor_le (1024 * x)) as Hf. pose proof (Qlt_floor (1024 * x)) as Hl.
  set (k := Qfloor (1024 * x)) in *. rewrite inject_Z_plus in Hl. change (inject_Z 1) with 1 in Hl.
  assert (0 <= inject_Z k + 1 ∧ inject_Z k <= 1048576) as [Hk0 Hk1] by lra.
  assert (- 1 <= k <= 1048576)%Z as Hk.
  { change 1048576 with (inject_Z 1048576) in Hk1. rewrite <- Zle_Qle in Hk1.
    change 1 with (inject_Z 1) in Hk0. rewrite <- inject_Z_plus in Hk0.
    change 0 with (inject_Z 0) in Hk0. rewrite <- Zle_Qle in Hk0. lia. }
  assert ((k # 1024) == inject_Z k / 1024) as E by (unfold Qeq, Qdiv, inject_Z; simpl; lia).
  assert ((k # 1024) <= rnd x) as Hr.
  { apply (rnd_ge x k 1024 10); [done|lia|lia|]. rewrite E. apply Qle_shift_div_r; lra. }
  rewrite E in Hr. assert (inject_Z k == 1024 * (inject_Z k / 1024)) as E2 by field. lra.
Qed.

Lemma fle_true x y : fle x y = true ↔ x <= y.
Proof. apply Qle_bool_iff. Qed.

Lemma fle_false x y : fle x y = false ↔ y < x.
Proof.
  unfold fle. split.
  - intros H. apply Qnot_le_lt. intros Hle%Qle_bool_iff. congruence.
  - intros H. destruct (Qle_bool x y) eqn:E; [|done]. apply Qle_bool_iff in E. lra.
Qed.

Lemma flt_true x y : flt x y = true ↔ x < y.
Proof. unfold flt. rewrite negb_true_iff. apply fle_false. Qed.

Lemma fmin_le_l x y : fmin x y <= x.
Proof. unfold fmin. destruct (fle x y) eqn:E; [lra|]. apply fle_false in E. lra. Qed.

Lemma fmin_le_r x y : fmin x y <= y.
Proof. unfold fmin. destruct (fle x y) eqn:E; [by apply fle_true|lra]. Qed.

Lemma fmin_nonneg x y : 0 <= x → 0 <= y → 0 <= fmin x y.
Proof. unfold fmin. by destruct (fle x y). Qed.

Lemma fadd_nonneg x y : 0 <= x → 0 <= y → 0 <= fadd x y.
Proof. intros. apply rnd_nonneg. lra. Qed.

Lemma fmul_nonneg x y : 0 <= x → 0 <= y → 0 <= fmul x y.
Proof. intros. apply rnd_nonneg. by apply Qmult_le_0_compat. Qed.

Lemma Qdiv_nonneg x y : 0 <= x → 0 <= y → 0 <= x / y.
Proof. intros. apply Qmult_le_0_compat; [done|]. by apply Qinv_le_0_compat. Qed.

Lemma fdiv_nonneg x y : 0 <= x → 0 <= y → 0 <= fdiv x y.
Proof. intros. apply rnd_nonneg. by apply Qdiv_nonneg. Qed.

Lemma f100_nonneg n : (0 <= n)%Z → 0 <= f100 n.
Proof. intros. apply rnd_nonneg. unfold Qle. simpl. lia. Qed.

Lemma of_usize_nonneg n : 0 <= of_usize n.
Proof. apply rnd_nonneg. unfold Qle. simpl. lia. Qed.

Lemma of_usize_pos n : n ≠ 0%nat → 1 <= of_usize n.
Proof. intros. unfold of_usize. rewrite <- rnd_1. apply rnd_mono. unfold Qle. simpl. lia. Qed.

Lemma fround_bounds x (k : Z) : 0 <= x → x <= inject_Z k → 0 <= fround x ∧ fround x <= inject_Z k.
Proof.
  intros H0 Hk. unfold fround. rewrite (proj2 (fle_true 0 x) H0).
  split.
  - change 0 with (inject_Z (Qfloor (1 # 2))). rewrite <- Zle_Qle. apply Qfloor_resp_le. lra.
  - rewrite <- Zle_Qle. assert (Qfloor (x + (1 # 2)) <= Qfloor (inject_Z k + (1 # 2)))%Z as H
      by (apply Qfloor_resp_le; lra).
    assert (Qfloor (inject_Z k + (1 # 2)) = k) as E.
    { unfold Qfloor, inject_Z, Qplus. simpl. symmetry. apply (Z.div_unique _ _ _ 1); lia. }
    lia.
Qed.
End Operations.

#[export] Hint Resolve rnd_nonneg rnd_le_1 fmin_nonneg fadd_nonneg fmul_nonneg fdiv_nonneg f100_nonneg
  of_usize_nonneg Qdiv_nonneg : nb.

(** Exact arithmetic satisfies the laws; used to run the model. *)
#[refine] Definition exact_float : Float :=
  {| rnd x := x; flog2 x := inject_Z (Z.log2 (Qfloor x)); fmt2 _ := [] |}.
Proof.
  - done.
  - intros. apply Qeq_refl.
  - intros. apply Qeq_refl.
Defined.
