(* ===== verification/CommandArity.v ===== *)
(** * Shell command prefixes (nemesis-security/src/command_arity.rs)

    Tokens of a command line, its top-level segments, the environment prefix and
    the readable prefix pattern that the approval memory is keyed on. *)
From S2P Require Import Prelude RustStr.
Local Open Scope nb_scope.

(** ** Tokens *)

(** The locals of [tokenize_command]. *)
Record TokState := mkTok {
  tk_tokens : list str;
  tk_cur : str;
  tk_in_single : bool;
  tk_in_double : bool;
  tk_has_content : bool;
}.

Definition tok_init : TokState := mkTok [] [] false false false.

(** One character of the loop. *)
Definition tok_step (st : TokState) (c : char) : TokState :=
  let '(mkTok ts cur sq dq hc) := st in
  if N.eqb c c_squote && negb dq then mkTok ts cur (negb sq) dq true
  else if N.eqb c c_dquote && negb sq then mkTok ts cur sq (negb dq) true
  else if is_ws c && negb sq && negb dq then
    if hc || nonempty cur then mkTok (ts ++ [cur]) [] sq dq false else st
  else mkTok ts (cur ++ [c]) sq dq true.

(** After the loop. *)
Definition tok_finish (st : TokState) : list str :=
  if tk_has_content st || nonempty (tk_cur st) then tk_tokens st ++ [tk_cur st]
  else tk_tokens st.

Definition tokenize_command (cmd : str) : list str :=
  tok_finish (foldl tok_step tok_init cmd).

(** ** Top-level segments *)

Record ScanState := mkScan {
  sc_segments : list str;
  sc_cur : str;
  sc_in_single : bool;
  sc_in_double : bool;
  sc_prev : option char;
}.

Definition scan_init : ScanState := mkScan [] [] false false None.

Definition scan_push_char (st : ScanState) (c : char) : ScanState :=
  mkScan (sc_segments st) (sc_cur st ++ [c]) (sc_in_single st) (sc_in_double st) (Some c).

Definition scan_push_segment (st : ScanState) : ScanState :=
  mkScan (sc_segments st ++ [sc_cur st]) [] (sc_in_single st) (sc_in_double st) None.

Definition scan_quote (st : ScanState) (c : char) : ScanState :=
  let sq := if N.eqb c c_squote && negb (sc_in_double st)
            then negb (sc_in_single st) else sc_in_single st in
  let dq := if N.eqb c c_squote && negb (sc_in_double st) then sc_in_double st
            else if N.eqb c c_dquote && negb (sc_in_single st)
                 then negb (sc_in_double st) else sc_in_double st in
  mkScan (sc_segments st) (sc_cur st ++ [c]) sq dq (Some c).

(** The forms of [&] and [|] that belong to a redirection. *)
Definition is_redirect (prev : option char) (c : char) (next : option char) : bool :=
  (N.eqb c c_amp
   && (bool_decide (prev = Some c_gt) || bool_decide (prev = Some c_lt)
       || bool_decide (next = Some c_gt)))
  || (N.eqb c c_pipe && bool_decide (prev = Some c_gt)).

Definition is_quote (c : char) : bool := N.eqb c c_squote || N.eqb c c_dquote.
Definition is_terminator (c : char) : bool :=
  N.eqb c c_semi || N.eqb c c_nl || N.eqb c c_cr.
Definition is_amp_pipe (c : char) : bool := N.eqb c c_amp || N.eqb c c_pipe.

(** The loop of [scan_segments]; [qa] is [quote_aware]. *)
Fixpoint scan_go (qa : bool) (s : str) (st : ScanState) : ScanState :=
  match s with
  | [] => st
  | c :: s' =>
      let unquoted := negb (sc_in_single st) && negb (sc_in_double st) in
      if is_quote c && qa then scan_go qa s' (scan_quote st c)
      else if is_terminator c && unquoted then scan_go qa s' (scan_push_segment st)
      else if is_amp_pipe c && unquoted then
        if is_redirect (sc_prev st) c (head s') then scan_go qa s' (scan_push_char st c)
        else match s' with
             | c' :: s'' =>
                 if N.eqb c c' then scan_go qa s'' (scan_push_segment st)
                 else scan_go qa s' (scan_push_segment st)
             | [] => scan_push_segment st
             end
      else scan_go qa s' (scan_push_char st c)
  end.

Definition scan_segments (cmd : str) (quote_aware : bool) : list str * bool :=
  let st := scan_go quote_aware cmd scan_init in
  (sc_segments st ++ [sc_cur st], negb (sc_in_single st) && negb (sc_in_double st)).

(** [Vec::dedup]: consecutive equal elements are kept once. *)
Fixpoint dedup (l : list str) : list str :=
  match l with
  | [] => []
  | x :: l' =>
      match dedup l' with
      | [] => [x]
      | y :: r => if x =? y then y :: r else x :: y :: r
      end
  end.

Definition finish_segments (segments : list str) : list str :=
  dedup (List.filter nonempty (trim <$> segments)).

Definition command_segments (cmd : str) : list str :=
  let '(segments, balanced) := scan_segments cmd true in
  if balanced then finish_segments segments
  else finish_segments (fst (scan_segments cmd false)).

(** ** Environment prefixes *)

Definition ident_start (c : char) : bool := is_ascii_alpha c || N.eqb c c_under.
Definition ident_char (c : char) : bool := is_ascii_alnum c || N.eqb c c_under.

(** [IDENT=]: the part before the first [=] is an identifier. *)
Definition is_env_assignment (token : str) : bool :=
  match find_str [c_eq] token with
  | None => false
  | Some O => false
  | Some eq =>
      match take eq token with
      | [] => false
      | c :: name => ident_start c && forallb ident_char name
      end
  end.

(** The [while let] loop of [strip_env_assignments]; every iteration removes at
    least the token, so the length of the segment is enough fuel. *)
Fixpoint strip_env_loop (fuel : nat) (rest : str) : str :=
  match fuel with
  | O => rest
  | S fuel =>
      match split_whitespace rest with
      | [] => rest
      | token :: _ =>
          if is_env_assignment token then
            match find_str token rest with
            | Some pos => strip_env_loop fuel (trim_start (drop (pos + length token) rest))
            | None => rest
            end
          else rest
      end
  end.

Definition strip_env_assignments (segment : str) : str :=
  strip_env_loop (S (length segment)) segment.

(** [skip_while(is_env_assignment)] on tokens. *)
Fixpoint strip_env_tokens (tokens : list str) : list str :=
  match tokens with
  | [] => []
  | t :: ts => if is_env_assignment t then strip_env_tokens ts else tokens
  end.

(** ** Prefix reduction *)

Definition ARITY_TABLE : list (str * nat) :=
  (λ '(k, n), (lit k, n)) <$>
  [ ("npm run", 3); ("npm exec", 3); ("pnpm run", 3); ("yarn run", 3);
    ("docker compose", 3);
    ("cargo", 2); ("rustup", 2);
    ("npm", 2); ("npx", 2); ("pnpm", 2); ("yarn", 2); ("bun", 2); ("bunx", 2);
    ("deno", 2); ("node", 2);
    ("python", 2); ("python3", 2); ("pip", 2); ("pip3", 2); ("uv", 2); ("poetry", 2);
    ("go", 2); ("dotnet", 2); ("flutter", 2); ("gradle", 2); ("mvn", 2); ("make", 2);
    ("cmake", 2);
    ("docker", 2); ("docker-compose", 2); ("podman", 2); ("kubectl", 2); ("helm", 2);
    ("git", 2); ("gh", 2); ("adb", 2);
    ("apt", 2); ("apt-get", 2); ("dnf", 2); ("yum", 2); ("pacman", 2); ("brew", 2);
    ("winget", 2); ("choco", 2); ("scoop", 2); ("systemctl", 2) ]%string.

(** [key_tokens] is a prefix of [rest], token by token. *)
Fixpoint tokens_prefix (key rest : list str) : bool :=
  match key, rest with
  | [], _ => true
  | k :: key, t :: rest => (t =? k) && tokens_prefix key rest
  | _ :: _, [] => false
  end.

(** The loop over the table: the largest arity among the matching keys. *)
Definition keep_step (rest : list str) (keep : nat) (entry : str * nat) : nat :=
  if tokens_prefix (split_whitespace (fst entry)) rest && (keep <? snd entry)%nat
  then snd entry else keep.

Definition keep_count (rest : list str) : nat := foldl (keep_step rest) 1 ARITY_TABLE.

Definition reduce_command (cmd : str) : str :=
  match strip_env_tokens (tokenize_command cmd) with
  | [] => []
  | rest =>
      let keep := keep_count rest in
      if (length rest <=? keep)%nat then join [c_space] rest
      else join [c_space] (take keep rest) ++ [c_space; c_star]
  end.

(** ** Tokenizer lemmas *)

#[local] Arguments tok_step : simpl never.

(** Tokens already emitted are only ever extended. *)
Definition tok_add (ts : list str) (st : TokState) : TokState :=
  mkTok (ts ++ tk_tokens st) (tk_cur st) (tk_in_single st) (tk_in_double st) (tk_has_content st).

#[local] Arguments tok_add : simpl never.

Lemma tok_step_add ts st c : tok_step (tok_add ts st) c = tok_add ts (tok_step st c).
Proof.
  destruct st as [ts' cur sq dq hc]. unfold tok_add, tok_step. simpl.
  repeat case_match; simpl; rewrite <- ?app_assoc; done.
Qed.

Lemma tok_foldl_add ts st s :
  foldl tok_step (tok_add ts st) s = tok_add ts (foldl tok_step st s).
Proof.
  revert st. induction s as [|c s IH]; intros st; simpl; [done|].
  by rewrite tok_step_add, IH.
Qed.

Lemma tok_finish_add ts st : tok_finish (tok_add ts st) = ts ++ tok_finish st.
Proof.
  destruct st as [ts' cur sq dq hc]. unfold tok_finish. simpl.
  destruct (hc || nonempty cur); rewrite ?app_assoc; done.
Qed.

Lemma plain_char_spec c :
  plain_char c = true → is_ws c = false ∧ N.eqb c c_squote = false ∧ N.eqb c c_dquote = false.
Proof. unfold plain_char. intros H. by rewrite !andb_true_iff, !negb_true_iff in H; destruct_and!. Qed.

Lemma tok_step_plain ts cur hc c :
  plain_char c = true →
  tok_step (mkTok ts cur false false hc) c = mkTok ts (cur ++ [c]) false false true.
Proof. intros (Hw & Hs & Hd)%plain_char_spec. unfold tok_step. by rewrite Hs, Hd, Hw. Qed.

Lemma tok_foldl_plain ts cur hc t :
  plain t = true →
  foldl tok_step (mkTok ts cur false false hc) t = mkTok ts (cur ++ t) false false true.
Proof.
  unfold plain. intros H. bool_simpl. destruct t as [|c t]; [done|]. clear H.
  revert cur hc c H0. induction t as [|d t IH]; intros cur hc c H; simpl in *; bool_simpl.
  - by rewrite tok_step_plain.
  - rewrite tok_step_plain by done. rewrite (IH _ _ d); [|simpl; by rewrite H0, H1].
    by rewrite <- app_assoc.
Qed.

Lemma is_ws_space : is_ws c_space = true.
Proof. reflexivity. Qed.

(** A plain word followed by a blank is the first token. *)
Lemma tokenize_plain_space t s :
  plain t = true → tokenize_command (t ++ c_space :: s) = t :: tokenize_command s.
Proof.
  intros Ht. unfold tokenize_command, tok_init.
  rewrite foldl_app, tok_foldl_plain by done. simpl.
  unfold tok_step at 2. simpl.
  change (mkTok [t] [] false false false) with (tok_add [t] tok_init).
  by rewrite tok_foldl_add, tok_finish_add.
Qed.

Lemma tokenize_plain t : plain t = true → tokenize_command t = [t].
Proof.
  intros Ht. unfold tokenize_command, tok_init. by rewrite tok_foldl_plain.
Qed.

(** Joining plain words with blanks and tokenizing again is the identity. *)
Lemma tokenize_join l :
  Forall (λ t, plain t = true) l → tokenize_command (join [c_space] l) = l.
Proof.
  induction 1 as [|t l Ht Hl IH]; [done|].
  destruct l as [|t' l]; [by apply tokenize_plain|].
  rewrite join_cons by done. cbn [app].
  by rewrite tokenize_plain_space, IH.
Qed.

(** ** Environment prefix lemmas *)

Lemma strip_env_loop_fuel fuel fuel' rest :
  length rest < fuel → length rest < fuel' → strip_env_loop fuel rest = strip_env_loop fuel' rest.
Proof.
  revert fuel' rest. induction fuel as [|fuel IH]; intros [|fuel'] rest Hf Hf'; try lia.
  cbn [strip_env_loop]. destruct (split_whitespace rest) as [|token ts]; [done|].
  destruct (is_env_assignment token) eqn:He; [|done].
  destruct (find_str token rest) as [pos|] eqn:Hp; [|done].
  assert (length (trim_start (drop (pos + length token) rest)) < length rest) as Hlt.
  { apply find_str_Some in Hp as (a & b & -> & <-).
    destruct (trim_start_matches_suffix is_ws (drop (length a + length token) (a ++ token ++ b)))
      as (w & Hw & _).
    apply (f_equal length) in Hw. rewrite length_app, length_drop in Hw.
    unfold trim_start. destruct token as [|c token]; [done|].
    rewrite !length_app in *. cbn [length] in *. lia. }
  apply IH; lia.
Qed.

(** A full pass: more fuel than characters makes no difference. *)
Lemma strip_env_assignments_fuel fuel segment :
  length segment < fuel → strip_env_loop fuel segment = strip_env_assignments segment.
Proof. intros Hf. unfold strip_env_assignments. apply strip_env_loop_fuel; lia. Qed.

Lemma strip_env_tokens_suffix ts : ∃ pre, ts = pre ++ strip_env_tokens ts ∧
  Forall (λ t, is_env_assignment t = true) pre.
Proof.
  induction ts as [|t ts IH]; simpl; [by exists []|].
  destruct (is_env_assignment t) eqn:E; [|by exists []].
  destruct IH as (pre & Hts & Hp). exists (t :: pre). simpl. rewrite <- Hts. auto.
Qed.

Lemma strip_env_tokens_head ts t r :
  strip_env_tokens ts = t :: r → is_env_assignment t = false.
Proof.
  induction ts as [|x ts IH]; simpl; [done|].
  destruct (is_env_assignment x) eqn:E; [done|]. by intros [= -> ->].
Qed.

Lemma find_str_char_app c (a b : str) :
  c ∉ a → find_str [c] (a ++ c :: b) = Some (length a).
Proof.
  induction a as [|x a IH]; intros H; simpl.
  - by rewrite N.eqb_refl.
  - apply not_elem_of_cons in H as [Hx Ha]. rewrite (proj2 (N.eqb_neq c x) Hx). simpl.
    by rewrite IH.
Qed.

Lemma ident_char_not_eq c : ident_char c = true → c ≠ c_eq.
Proof. intros H ->. vm_compute in H. done. Qed.

Lemma forallb_not_elem (p : char → bool) (s : str) c :
  forallb p s = true → p c = false → c ∉ s.
Proof.
  rewrite forallb_Forall_true, Forall_forall. intros H Hc Hin.
  apply H in Hin. congruence.
Qed.

(** [NAME=value] with an identifier for a name is recognised. *)
Lemma is_env_assignment_intro c name value :
  ident_start c = true → forallb ident_char name = true →
  is_env_assignment (c :: name ++ c_eq :: value) = true.
Proof.
  intros Hc Hn. unfold is_env_assignment.
  change (c :: name ++ c_eq :: value) with ((c :: name) ++ c_eq :: value).
  assert (Hs : ident_char c = true).
  { unfold ident_start, ident_char, is_ascii_alnum in *.
    destruct (is_ascii_alpha c); simpl in *; [done|]. by rewrite Hc, orb_true_r. }
  rewrite find_str_char_app.
  - simpl. rewrite take_app_length. by rewrite Hc, Hn.
  - apply (forallb_not_elem ident_char); [|done]. simpl. by rewrite Hs, Hn.
Qed.

(** ** Reduction *)

Lemma keep_step_ge rest k e : k ≤ keep_step rest k e.
Proof.
  unfold keep_step. destruct (tokens_prefix _ _ && (k <? e.2)%nat) eqn:E; [|lia].
  bool_simpl. lia.
Qed.

Lemma keep_foldl_ge rest k l : k ≤ foldl (keep_step rest) k l.
Proof.
  revert k. induction l as [|e l IH]; intros k; simpl; [lia|].
  pose proof (keep_step_ge rest k e). pose proof (IH (keep_step rest k e)). lia.
Qed.

Lemma keep_count_pos rest : 1 ≤ keep_count rest.
Proof. apply keep_foldl_ge. Qed.

(** The reduced command is the join of the kept tokens, with [ *] when
    something was cut. *)
Lemma reduce_command_eq cmd t ts :
  strip_env_tokens (tokenize_command cmd) = t :: ts →
  reduce_command cmd =
    join [c_space] (take (keep_count (t :: ts)) (t :: ts))
    ++ (if (length (t :: ts) <=? keep_count (t :: ts))%nat then [] else [c_space; c_star]).
Proof.
  intros E. unfold reduce_command. rewrite E. clear E.
  remember (t :: ts) as rest. clear Heqrest.
  destruct (length rest <=? keep_count rest)%nat eqn:L; [|done].
  bool_simpl. by rewrite take_ge, app_nil_r.
Qed.

(** ** Segmentation lemmas *)

(** Segments already emitted are only ever extended. *)
Definition scan_add (ss : list str) (st : ScanState) : ScanState :=
  mkScan (ss ++ sc_segments st) (sc_cur st) (sc_in_single st) (sc_in_double st) (sc_prev st).

Lemma scan_push_char_add ss st c : scan_push_char (scan_add ss st) c = scan_add ss (scan_push_char st c).
Proof. reflexivity. Qed.

Lemma scan_quote_add ss st c : scan_quote (scan_add ss st) c = scan_add ss (scan_quote st c).
Proof. reflexivity. Qed.

Lemma scan_push_segment_add ss st :
  scan_push_segment (scan_add ss st) = scan_add ss (scan_push_segment st).
Proof. unfold scan_push_segment, scan_add. simpl. by rewrite app_assoc. Qed.

(** Induction that follows the scanner, which may consume two characters. *)
Lemma scan_ind (P : str → Prop) :
  P [] → (∀ c, P [c]) → (∀ c d s, P s → P (d :: s) → P (c :: d :: s)) → ∀ s, P s.
Proof.
  intros H0 H1 H2 s. enough (P s ∧ ∀ c, P (c :: s)) by tauto.
  induction s as [|d s [IH1 IH2]]; [auto|]. split; [auto|]. intros c. auto.
Qed.

(** One step of the loop. *)
Lemma scan_go_cons qa c s' st :
  scan_go qa (c :: s') st =
    if is_quote c && qa then scan_go qa s' (scan_quote st c)
    else if is_terminator c && (negb (sc_in_single st) && negb (sc_in_double st))
    then scan_go qa s' (scan_push_segment st)
    else if is_amp_pipe c && (negb (sc_in_single st) && negb (sc_in_double st)) then
      if is_redirect (sc_prev st) c (head s') then scan_go qa s' (scan_push_char st c)
      else match s' with
           | c' :: s'' =>
               if N.eqb c c' then scan_go qa s'' (scan_push_segment st)
               else scan_go qa s' (scan_push_segment st)
           | [] => scan_push_segment st
           end
    else scan_go qa s' (scan_push_char st c).
Proof. reflexivity. Qed.

Lemma scan_go_nil qa st : scan_go qa [] st = st.
Proof. reflexivity. Qed.

#[local] Arguments scan_go : simpl never.
#[local] Arguments is_redirect : simpl never.

Lemma scan_go_add qa s ss st : scan_go qa s (scan_add ss st) = scan_add ss (scan_go qa s st).
Proof.
  revert st. induction s as [|c|c d s IH1 IH2] using scan_ind; intros st; [done| |];
    rewrite !(scan_go_cons _ c);
    rewrite ?scan_quote_add, ?scan_push_segment_add, ?scan_push_char_add;
    change (sc_in_single (scan_add ss st)) with (sc_in_single st);
    change (sc_in_double (scan_add ss st)) with (sc_in_double st);
    change (sc_prev (scan_add ss st)) with (sc_prev st);
    rewrite ?scan_go_nil; repeat case_match; auto.
Qed.

Definition unquoted (st : ScanState) : bool := negb (sc_in_single st) && negb (sc_in_double st).

(** A command whose last character cannot take part in an operator or a
    redirection with what follows. *)
Definition clean_end (a : str) : bool :=
  match last a with
  | None => true
  | Some c => negb (is_amp_pipe c) && negb (N.eqb c c_gt) && negb (N.eqb c c_lt)
  end.

Lemma clean_end_cons c d s : clean_end (c :: d :: s) = clean_end (d :: s).
Proof. done. Qed.

Lemma scan_go_app qa a s st :
  clean_end a = true → scan_go qa (a ++ s) st = scan_go qa s (scan_go qa a st).
Proof.
  revert st. induction a as [|c|c d a IH1 IH2] using scan_ind; intros st Ha; [done| |].
  - unfold clean_end in Ha. simpl in Ha. bool_simpl. cbn [app].
    rewrite !(scan_go_cons _ c), (H : is_amp_pipe c = false). simpl.
    rewrite ?scan_go_nil. repeat case_match; done.
  - rewrite clean_end_cons in Ha.
    assert (Ha' : clean_end a = true) by (by destruct a).
    cbn [app]. rewrite !(scan_go_cons _ c). cbn [head]. repeat case_match; auto.
Qed.

Lemma scan_go_blind_unquoted s st :
  unquoted st = true → unquoted (scan_go false s st) = true.
Proof.
  revert st. induction s as [|c|c d s IH1 IH2] using scan_ind; intros st Hu; [done| |];
    rewrite !(scan_go_cons _ c), andb_false_r; repeat case_match; auto.
Qed.

(** The last character seen is the one before the cursor, or none after a cut. *)
Definition prev_ok (a : str) (st : ScanState) : Prop :=
  sc_prev st = None ∨ sc_prev st = last a.

Lemma prev_ok_cons c a st : a ≠ [] → prev_ok a st → prev_ok (c :: a) st.
Proof. unfold prev_ok. destruct a; [done|]. auto. Qed.

Lemma scan_go_prev qa a st :
  a = [] ∨ prev_ok a (scan_go qa a st).
Proof.
  revert st. induction a as [|c|c d a IH1 IH2] using scan_ind; intros st; [by left| |]; right.
  - rewrite scan_go_cons, !scan_go_nil. unfold prev_ok. repeat case_match; simpl; auto.
  - assert (Hd : ∀ st, prev_ok (c :: d :: a) (scan_go qa (d :: a) st)).
    { intros st'. destruct (IH2 st') as [?|H]; [done|]. by apply prev_ok_cons. }
    rewrite (scan_go_cons _ c). repeat case_match; auto.
    destruct a as [|e a]; [left; done|].
    destruct (IH1 (scan_push_segment st)) as [?|H']; [done|].
    apply prev_ok_cons; [done|]. by apply prev_ok_cons.
Qed.

(** An operator followed by [b] cuts at top level. *)
Definition cuts (op b : str) : bool :=
  bool_decide (op ∈ [[c_semi]; [c_nl]; [c_cr]; [c_amp; c_amp]; [c_pipe; c_pipe]])
  || ((op =? [c_pipe]) && negb (bool_decide (head b = Some c_pipe)))
  || ((op =? [c_amp]) && negb (bool_decide (head b = Some c_amp))
      && negb (bool_decide (head b = Some c_gt))).

Lemma is_redirect_false prev c next :
  prev ≠ Some c_gt → prev ≠ Some c_lt → next ≠ Some c_gt → is_redirect prev c next = false.
Proof.
  intros Hg Hl Hn. unfold is_redirect.
  rewrite !bool_decide_eq_false_2 by done. by rewrite !andb_false_r.
Qed.

Lemma is_redirect_pipe_false prev next : prev ≠ Some c_gt → is_redirect prev c_pipe next = false.
Proof. intros Hg. unfold is_redirect. by rewrite (bool_decide_eq_false_2 _ Hg). Qed.

Lemma scan_go_cut qa op b st :
  cuts op b = true → unquoted st = true →
  sc_prev st ≠ Some c_gt → sc_prev st ≠ Some c_lt →
  scan_go qa (op ++ b) st = scan_go qa b (scan_push_segment st).
Proof.
  intros Hc Hu Hg Hl. unfold cuts in Hc. unfold unquoted in Hu.
  rewrite !orb_true_iff, !andb_true_iff, !negb_true_iff, !bool_decide_eq_true,
    !bool_decide_eq_false in Hc.
  rewrite !elem_of_cons, elem_of_nil in Hc.
  destruct_or?; destruct_and?; subst; try done; cbn [app]; rewrite scan_go_cons, Hu; simpl;
    try done.
  - by rewrite is_redirect_false.
  - by rewrite is_redirect_pipe_false.
  - rewrite is_redirect_pipe_false by done. destruct b as [|d b]; [done|]. cbn [head] in *.
    destruct (N.eqb_spec c_pipe d) as [<-|]; [congruence|done].
  - rewrite is_redirect_false by done. destruct b as [|d b]; [done|]. cbn [head] in *.
    destruct (N.eqb_spec c_amp d) as [<-|]; [congruence|done].
Qed.

Definition is_balanced (cmd : str) : bool := snd (scan_segments cmd true).

(** Cutting after a balanced command concatenates the two lists of segments. *)
Lemma scan_segments_cut qa a op b :
  unquoted (scan_go qa a scan_init) = true →
  clean_end a = true → cuts op b = true →
  scan_segments (a ++ op ++ b) qa
  = (fst (scan_segments a qa) ++ fst (scan_segments b qa), snd (scan_segments b qa)).
Proof.
  intros Hu Ha Hc. unfold scan_segments. rewrite scan_go_app by done.
  assert (Hp : sc_prev (scan_go qa a scan_init) ≠ Some c_gt ∧
               sc_prev (scan_go qa a scan_init) ≠ Some c_lt).
  { destruct (scan_go_prev qa a scan_init) as [->|[->| ->]]; [done..|].
    unfold clean_end in Ha. destruct (last a) as [c|]; [|done]. bool_simpl.
    split; congruence. }
  destruct Hp as [Hg Hl]. rewrite scan_go_cut by done.
  unfold unquoted in Hu. remember (scan_go qa a scan_init) as st.
  destruct st as [ss cur sq dq pv]. simpl in *. bool_simpl. subst.
  unfold scan_push_segment. simpl.
  replace (mkScan (ss ++ [cur]) [] false false None)
    with (scan_add (ss ++ [cur]) scan_init)
    by (unfold scan_add; simpl; by rewrite app_nil_r).
  rewrite scan_go_add. simpl. by rewrite !app_assoc.
Qed.

(** [finish_segments] drops the blank segments and trims the others. *)
Lemma elem_of_dedup x l : x ∈ dedup l ↔ x ∈ l.
Proof.
  induction l as [|y l IH]; simpl; [done|].
  destruct (dedup l) as [|z r] eqn:E.
  - rewrite !elem_of_cons, <- IH. done.
  - case_bool_decide; subst; rewrite !elem_of_cons, <- IH, !elem_of_cons; tauto.
Qed.

Lemma elem_of_finish seg l :
  seg ∈ finish_segments l ↔ seg ≠ [] ∧ ∃ raw, raw ∈ l ∧ seg = trim raw.
Proof.
  unfold finish_segments. rewrite elem_of_dedup, list_elem_of_In, filter_In, nonempty_true.
  rewrite <- list_elem_of_In, list_elem_of_fmap. split; [|by intros (? & raw & ? & ?); eauto].
  intros [(raw & -> & ?) ?]. eauto.
Qed.

Lemma command_segments_balanced cmd :
  is_balanced cmd = true → command_segments cmd = finish_segments (fst (scan_segments cmd true)).
Proof.
  unfold is_balanced, command_segments. destruct (scan_segments cmd true). simpl. by intros ->.
Qed.

Lemma command_segments_nonempty seg cmd : seg ∈ command_segments cmd → seg ≠ [].
Proof.
  unfold command_segments. destruct (scan_segments cmd true) as [l []]; by intros [? _]%elem_of_finish.
Qed.

(** The segments of a compound command are those of its parts. *)
Lemma elem_of_command_segments_cut seg a op b :
  is_balanced a = true → is_balanced b = true → clean_end a = true → cuts op b = true →
  seg ∈ command_segments (a ++ op ++ b) ↔ seg ∈ command_segments a ∨ seg ∈ command_segments b.
Proof.
  intros Ba Bb Ha Hc.
  assert (E : scan_segments (a ++ op ++ b) true
              = (fst (scan_segments a true) ++ fst (scan_segments b true),
                 snd (scan_segments b true))) by (by apply scan_segments_cut).
  rewrite !command_segments_balanced by (try done; unfold is_balanced; by rewrite E).
  rewrite E. cbn [fst]. generalize (scan_segments a true).1, (scan_segments b true).1.
  intros la lb. rewrite !elem_of_finish. setoid_rewrite elem_of_app. split.
  - intros (Hs & raw & [Hr|Hr] & Eq); [left|right]; (split; [done|]); exists raw; auto.
  - intros [(Hs & raw & Hr & Eq)|(Hs & raw & Hr & Eq)]; (split; [done|]); exists raw; auto.
Qed.
