(* ===== verification/Regex.v ===== *)
(** * The regular expressions the pattern matcher generates

    The [regex] crate is not part of the repository: an engine is an instance of
    [RegexEngine], whose law states the documented meaning of the only
    expressions that src/ builds from user patterns, namely anchored sequences of
    literals, escaped punctuation, [.*] and [[^c]*].  [parse_fragment] recognises
    that fragment from its concrete syntax, so that the escaping done by the
    source is part of the model.  [.] does not match a line feed, and [^]/[$]
    anchor the whole text (no multi-line mode). *)
From S2P Require Import Prelude RustStr.
Local Open Scope N_scope.

(** ** The fragment and its meaning *)

Inductive cls :=
| AnyButNl            (* [.] *)
| NotChar (c : char). (* [[^c]] *)

Inductive tok :=
| TLit (c : char)
| TStar (k : cls).

Definition in_cls (k : cls) (c : char) : bool :=
  match k with
  | AnyButNl => negb (c =? c_nl)
  | NotChar d => negb (c =? d)
  end.

(** [tmatch ts s]: the whole text [s] matches the anchored sequence [ts]. *)
Inductive tmatch : list tok → str → Prop :=
| tmatch_nil : tmatch [] []
| tmatch_lit c ts s : tmatch ts s → tmatch (TLit c :: ts) (c :: s)
| tmatch_star k ts a s :
    forallb (in_cls k) a = true → tmatch ts s → tmatch (TStar k :: ts) (a ++ s).

(** An executable matcher. *)
Fixpoint tmatchb (ts : list tok) : str → bool :=
  match ts with
  | [] => λ s, negb (nonempty s)
  | TLit c :: ts => λ s,
      match s with
      | d :: s => (c =? d) && tmatchb ts s
      | [] => false
      end
  | TStar k :: ts =>
      fix star (s : str) : bool :=
        tmatchb ts s ||
        match s with
        | d :: s => in_cls k d && star s
        | [] => false
        end
  end.

Lemma tmatchb_star_unfold k ts s :
  tmatchb (TStar k :: ts) s =
    tmatchb ts s || match s with
                    | d :: s => in_cls k d && tmatchb (TStar k :: ts) s
                    | [] => false
                    end.
Proof. by destruct s. Qed.

Lemma tmatch_star_cons k ts c s :
  in_cls k c = true → tmatch (TStar k :: ts) s → tmatch (TStar k :: ts) (c :: s).
Proof.
  intros Hc H. inversion H as [| |? ? a s' Ha Hs]; subst.
  apply (tmatch_star k ts (c :: a)); [simpl; by rewrite Hc|done].
Qed.

Lemma tmatchb_correct ts s : tmatchb ts s = true ↔ tmatch ts s.
Proof.
  revert s. induction ts as [|[c|k] ts IH]; intros s.
  - simpl. destruct s; simpl; split; (try done); [constructor|by inversion 1].
  - simpl. destruct s as [|d s]; [split; [done|by inversion 1]|].
    rewrite andb_true_iff, N.eqb_eq, IH. split.
    + intros [-> H]. by constructor.
    + by inversion 1.
  - split.
    + induction s as [|d s IHs]; rewrite tmatchb_star_unfold, orb_true_iff, IH.
      * intros [H|H]; [|done]. by apply (tmatch_star k ts []).
      * intros [H|H]; [by apply (tmatch_star k ts [])|].
        apply andb_true_iff in H as [Hd H]. apply tmatch_star_cons; auto.
    + intros H. inversion H as [| |? ? a s' Ha Hs]; subst. clear H.
      induction a as [|d a IHa]; rewrite tmatchb_star_unfold, orb_true_iff, IH; [by left|].
      simpl in Ha. apply andb_true_iff in Ha as [Hd Ha].
      right. cbn [app]. by rewrite Hd, IHa.
Qed.

#[export] Instance tmatch_dec ts s : Decision (tmatch ts s).
Proof.
  destruct (tmatchb ts s) eqn:E; [left|right]; rewrite <- tmatchb_correct, E; done.
Defined.

(** ** Concrete syntax *)

(** The punctuation of the [regex] syntax: an escape of one of these stands for
    the character itself ([regex_syntax::is_meta_character]). *)
Definition meta_chars : list char := lit "\.+*?()|[]{}^$#&-~".

Definition is_meta (c : char) : bool := bool_decide (c ∈ meta_chars).

(** The characters that cannot stand for themselves outside a class. *)
Definition syntax_chars : list char := lit "\.+*?()|[]{}^$".

Definition is_syntax (c : char) : bool := bool_decide (c ∈ syntax_chars).

(** Items up to the final [$]. *)
Fixpoint parse_items (s : str) : option (list tok) :=
  match s with
  | [] => None
  | c :: s1 =>
      if (c =? ch "$") && negb (nonempty s1) then Some []
      else if c =? c_dot then
        match s1 with
        | d :: s2 => if d =? c_star then cons (TStar AnyButNl) <$> parse_items s2 else None
        | [] => None
        end
      else if c =? ch "[" then
        match s1 with
        | h :: d :: r :: st :: s2 =>
            if (h =? ch "^") && (r =? ch "]") && (st =? c_star) && negb (is_syntax d && negb (d =? c_dot))
            then cons (TStar (NotChar d)) <$> parse_items s2 else None
        | _ => None
        end
      else if c =? c_backslash then
        match s1 with
        | d :: s2 => if is_meta d then cons (TLit d) <$> parse_items s2 else None
        | [] => None
        end
      else if is_syntax c then None
      else cons (TLit c) <$> parse_items s1
  end.

Definition parse_fragment (src : str) : option (list tok) :=
  match src with
  | c :: s => if c =? ch "^" then parse_items s else None
  | [] => None
  end.

(** ** Engines *)

Class RegexEngine := {
  (** [Regex::new] and [Regex::is_match]; [None] when compilation fails, as the
      crate does for an expression over its size limit. *)
  regex_new : str → option (str → bool);
  regex_law : ∀ src ts m, parse_fragment src = Some ts → regex_new src = Some m →
    ∀ s, m s = true ↔ tmatch ts s;
}.

(** [regex::escape]: a backslash before every punctuation character of the
    syntax. *)
Definition regex_escape (s : str) : str :=
  mjoin ((λ c, if is_meta c then [c_backslash; c] else [c]) <$> s).

(** An engine for the fragment, used to run the model. *)
#[refine] Definition fragment_engine : RegexEngine := {|
  regex_new src := tmatchb <$> parse_fragment src
|}.
Proof.
  intros src ts m Hp Hn s. rewrite Hp in Hn. injection Hn as <-. apply tmatchb_correct.
Defined.

(** [Regex::new(src)] followed by [is_match], with [Err(_) => false]. *)
Definition regex_match `{!RegexEngine} (src target : str) : bool :=
  match regex_new src with
  | Some m => m target
  | None => false
  end.

(** The engine accepts the expression. *)
Definition compiles `{!RegexEngine} (src : str) : Prop := is_Some (regex_new src).

Lemma regex_match_iff `{!RegexEngine} src ts s :
  parse_fragment src = Some ts → compiles src → (regex_match src s = true ↔ tmatch ts s).
Proof.
  intros Hp [m Hm]. unfold regex_match. rewrite Hm. by eapply regex_law.
Qed.

Lemma regex_match_sound `{!RegexEngine} src ts s :
  parse_fragment src = Some ts → regex_match src s = true → tmatch ts s.
Proof.
  intros Hp. unfold regex_match. destruct (regex_new src) as [m|] eqn:Hm; [|done].
  intros Hmt. by eapply regex_law.
Qed.

Lemma fragment_compiles src ts :
  parse_fragment src = Some ts → @compiles fragment_engine src.
Proof. intros Hp. unfold compiles. simpl. rewrite Hp. by eexists. Qed.

(** ** Printing the fragment *)

(** [print_ok p t]: the text [p] is a spelling of the token [t]. *)
Inductive spells : str → tok → Prop :=
| spells_any : spells (lit ".*") (TStar AnyButNl)
| spells_slash : spells (lit "[^/]*") (TStar (NotChar c_slash))
| spells_dot : spells (lit "[^.]*") (TStar (NotChar c_dot))
| spells_esc c : is_meta c = true → spells [c_backslash; c] (TLit c)
| spells_lit c : is_syntax c = false → spells [c] (TLit c).

Lemma parse_items_spells p t s :
  spells p t → (s ≠ []) → parse_items (p ++ s) = cons t <$> parse_items s.
Proof.
  intros Hsp Hs. inversion Hsp as [| | |c Hc|c Hc]; subst; try done.
  - simpl. by rewrite Hc.
  - assert (Hne : ∀ d, is_syntax d = true → (c =? d) = false).
    { intros d Hd. apply N.eqb_neq. intros ->. congruence. }
    simpl. rewrite Hc, !Hne by done. done.
Qed.

(** A regular expression spelled token by token parses to its tokens. *)
Lemma parse_fragment_spells ps ts :
  Forall2 spells ps ts → parse_fragment (lit "^" ++ mjoin ps ++ lit "$") = Some ts.
Proof.
  intros Hps. cbn [lit app parse_fragment]. change (N_of_ascii "^"%char) with (ch "^").
  rewrite N.eqb_refl.
  induction Hps as [|p t ps ts Hp Hps IH]; [done|].
  change (mjoin (p :: ps)) with (p ++ mjoin ps). rewrite <- app_assoc.
  rewrite (parse_items_spells p t) by (done || by destruct (mjoin ps)).
  unfold lit in IH. unfold lit. by rewrite IH.
Qed.

#[export] Hint Constructors spells tmatch : nb.

(** [Regex::new(src).ok()] as the test of a [filter_map]. *)
Definition compilesb `{!RegexEngine} (src : str) : bool :=
  match regex_new src with Some _ => true | None => false end.

Lemma compilesb_iff `{!RegexEngine} src : compilesb src = true ↔ compiles src.
Proof. unfold compilesb, compiles. destruct (regex_new src); split; (done || by intros []). Qed.

(** The entries of a table whose expression compiles. *)
Definition compiled `{!RegexEngine} {A} (f : A → str) (l : list A) : list A :=
  List.filter (λ e, compilesb (f e)) l.

Lemma elem_of_compiled `{!RegexEngine} {A} (f : A → str) (l : list A) e :
  e ∈ compiled f l → e ∈ l ∧ compiles (f e).
Proof. intros [He Hc]%elem_of_filter_bool. by apply compilesb_iff in Hc. Qed.

(** Tables are long: do not unfold this one first. *)
Strategy 100 [compiled].

(** ** Searching *)

(** Spans of characters in order, within bounds, without overlap and with different
    starts: after an empty match the search moves on by a character. *)
Fixpoint spans_from (lo hi : nat) (l : list (nat * nat)) : Prop :=
  match l with
  | [] => True
  | (a, b) :: l => (lo ≤ a ∧ a ≤ b ∧ b ≤ hi)%nat ∧ spans_from (b `max` S a) hi l
  end.

(** [Regex::find_iter] for an expression that compiles: the spans of the successive
    matches that do not overlap; there is one exactly if the text matches. *)
Class RegexFind `{RegexEngine} := {
  find_iter : str → str → list (nat * nat);
  find_iter_spans : ∀ src s, spans_from 0 (length s) (find_iter src s);
  find_iter_match : ∀ src m s, regex_new src = Some m → (m s = true ↔ find_iter src s ≠ []);
}.

(** [Regex::find] and [Match::as_str]. *)
Definition find_first `{RegexFind} (src s : str) : option (nat * nat) := head (find_iter src s).

Definition span_text (s : str) (m : nat * nat) : str := take (snd m - fst m) (drop (fst m) s).

(** The offset of a span in bytes. *)
Definition span_start (s : str) (m : nat * nat) : nat := byte_len (take (fst m) s).

(** [Regex::replace_all] by a text without [$]. *)
Fixpoint replace_spans (s : str) (at_ : nat) (l : list (nat * nat)) (by_ : str) : str :=
  match l with
  | [] => drop at_ s
  | (a, b) :: l => take (a - at_) (drop at_ s) ++ by_ ++ replace_spans s b l by_
  end.

(** An engine that searches an expression outside the fragment as a literal, used to
    run the model. *)
#[refine] Definition literal_engine : RegexEngine := {|
  regex_new src := Some (match parse_fragment src with
                         | Some ts => tmatchb ts
                         | None => contains src
                         end)
|}.
Proof.
  intros src ts m Hp [= <-] s. rewrite Hp. apply tmatchb_correct.
Defined.

Definition literal_spans (src s : str) : list (nat * nat) :=
  match parse_fragment src with
  | Some ts => if tmatchb ts s then [(0, length s)%nat] else []
  | None => match find_str src s with
            | Some i => [(i, (i + length src)%nat)]
            | None => []
            end
  end.

#[refine] Definition literal_find : @RegexFind literal_engine := {| find_iter := literal_spans |}.
Proof.
  - intros src s. unfold literal_spans. destruct (parse_fragment src) as [ts|].
    + destruct (tmatchb ts s); simpl; auto with lia.
    + destruct (find_str src s) as [i|] eqn:E; [|done]. apply find_str_Some in E as (a & b & -> & Hl).
      simpl. rewrite !length_app. split; [|done]. lia.
  - intros src m s [= <-]. unfold literal_spans. destruct (parse_fragment src) as [ts|].
    + destruct (tmatchb ts s); split; congruence.
    + unfold contains. destruct (find_str src s); split; congruence.
Defined.

(** An expression that compiles matches a text exactly if it is found in it. *)
Lemma regex_match_found `{RegexFind} src s :
  compiles src → (regex_match src s = true ↔ ∃ m, m ∈ find_iter src s).
Proof.
  intros [f Hf]. unfold regex_match. rewrite Hf, (find_iter_match src f s Hf).
  destruct (find_iter src s) as [|m l]; split; [done|by intros [? ?%elem_of_nil]|by exists m; left|done].
Qed.
