(* ===== verification/Matcher.v ===== *)
(** * Rule patterns (nemesis-security/src/matcher.rs)

    Path, command and domain patterns are compiled to regular expressions by
    textual substitution, exactly as the source does it; the theorems show that
    what the engine then accepts is the documented wildcard language.  The second
    half is the preparation of exec targets: normalisation, interpreter payloads
    and the asymmetric allow/deny matching of command segments. *)
From S2P Require Import Prelude RustStr CommandArity Regex.
Local Open Scope nb_scope.

(** [cfg!(windows)]. *)
Class Platform := { cfg_windows : bool }.

(** ** Path patterns *)

(** Normalize path separators to forward slash. *)
Definition normalize_path (path : str) : str := replace_char c_backslash [c_slash] path.

(** The characters [wildcard_to_regex] escapes. *)
Definition escaped_chars : list char := lit "^$+.?()[]{}|\".

(** The loop of [wildcard_to_regex]. *)
Fixpoint wildcard_body (s : str) : str :=
  match s with
  | [] => []
  | c :: s1 =>
      if N.eqb c c_star then
        match s1 with
        | d :: s2 =>
            if N.eqb d c_star then lit ".*" ++ wildcard_body s2
            else lit "[^/]*" ++ wildcard_body s1
        | [] => lit "[^/]*" ++ wildcard_body s1
        end
      else if bool_decide (c ∈ escaped_chars) then [c_backslash; c] ++ wildcard_body s1
      else [c] ++ wildcard_body s1
  end.

Definition wildcard_to_regex (pattern : str) : str :=
  lit "^" ++ wildcard_body pattern ++ lit "$".

(** The placeholders of the substitutions. *)
Definition WILDCARD_PLACEHOLDER : str := [c_nul] ++ lit "WILDCARD" ++ [c_nul].
Definition DOT_PLACEHOLDER : str := [c_nul] ++ lit "LITERALDOT" ++ [c_nul].

(** The regular expression of a command pattern. *)
Definition command_regex (pattern : str) : str :=
  let escaped := replace_char c_star WILDCARD_PLACEHOLDER pattern in
  let quoted := regex_escape escaped in
  let regex_body := replace_str WILDCARD_PLACEHOLDER (lit ".*") quoted in
  lit "^" ++ regex_body ++ lit "$".

(** The regular expression of a (lowercased) domain pattern. *)
Definition domain_regex (pattern : str) : str :=
  let p := replace_char c_star WILDCARD_PLACEHOLDER pattern in
  let p := replace_char c_dot DOT_PLACEHOLDER p in
  let p := regex_escape p in
  let p := replace_str WILDCARD_PLACEHOLDER (lit "[^.]*") p in
  let p := replace_str DOT_PLACEHOLDER (lit "\.") p in
  lit "^" ++ p ++ lit "$".

(** ** Exec targets *)

(** Interpreters and the flags that introduce a payload. *)
Definition WRAPPERS : list (str * list str) :=
  (λ '(b, fs), (lit b, map lit fs)) <$>
  [ ("powershell", ["-c"; "-command"; "-e"; "-enc"]);
    ("pwsh", ["-c"; "-command"; "-e"; "-enc"]);
    ("cmd", ["/c"; "/k"]);
    ("sh", ["-c"]); ("bash", ["-c"]); ("zsh", ["-c"]); ("ksh", ["-c"]); ("fish", ["-c"]);
    ("python", ["-c"]); ("python3", ["-c"]); ("python2", ["-c"]);
    ("node", ["-e"; "--eval"]); ("perl", ["-e"]); ("ruby", ["-e"]) ]%string.

(** The base name of a token, without [.exe]. *)
Definition bin_key (token : str) : str :=
  let base := default token (last (split_on (λ c, N.eqb c c_slash || N.eqb c c_backslash) token)) in
  default base (strip_suffix (lit ".exe") base).

(** The tokens with their accumulated byte offsets: each token is taken to be
    followed by one separator byte. *)
Fixpoint with_offsets (off : nat) (tokens : list str) : list (nat * str) :=
  match tokens with
  | [] => []
  | t :: ts => (off, t) :: with_offsets (off + (byte_len t + 1)) ts
  end.

Definition split_spaces (s : str) : list str :=
  List.filter nonempty (split_on (N.eqb c_space) s).

(** The payload of the interpreter token whose successors are [rest]. *)
Definition payload_after (command : str) (flags : list str) (rest : list (nat * str)) : option str :=
  match List.find (λ '(_, t), bool_decide (t ∈ flags)) rest with
  | Some (off, t) =>
      match byte_get_from command (off + byte_len t) with
      | Some payload =>
          let payload := trim payload in
          if nonempty payload then Some payload else None
      | None => None
      end
  | None => None
  end.

Fixpoint payloads_go (command : str) (toks : list (nat * str)) : list str :=
  match toks with
  | [] => []
  | (_, token) :: rest =>
      match List.find (λ '(bin, _), bin =? bin_key token) WRAPPERS with
      | Some (_, flags) =>
          option_list (payload_after command flags rest) ++ payloads_go command rest
      | None => payloads_go command rest
      end
  end.

Definition extract_interpreter_payloads (normalized_command : str) : list str :=
  payloads_go normalized_command (with_offsets 0 (split_spaces normalized_command)).

(** The loop of [glob_contains]. *)
Fixpoint find_in_order (segs : list str) (rest : str) : bool :=
  match segs with
  | [] => true
  | seg :: segs =>
      match find_str seg rest with
      | Some pos => find_in_order segs (drop (pos + length seg) rest)
      | None => false
      end
  end.

Definition glob_contains (pattern text : str) : bool :=
  find_in_order (List.filter nonempty (split_on (N.eqb c_star) pattern)) text.

Section Matching.
Context {UC : Unicode} {RE : RegexEngine} {PF : Platform}.

(** Convert a wildcard pattern to a regex and match against the target. *)
Definition do_match (pattern target : str) : bool :=
  regex_match (wildcard_to_regex pattern) target.

Definition match_pattern (pattern target : str) : bool :=
  let pattern := normalize_path pattern in
  let target := normalize_path target in
  if negb (contains_char c_star pattern) then pattern =? target
  else if negb (contains_char c_slash pattern) then do_match (lit "**" ++ pattern) target
  else do_match pattern target.

Definition match_path_rule (pattern target : str) : bool :=
  if cfg_windows then match_pattern (to_lowercase pattern) (to_lowercase target)
  else match_pattern pattern target.

Definition match_command_pattern (pattern command : str) : bool :=
  regex_match (command_regex pattern) command.

Definition match_domain_pattern (pattern domain : str) : bool :=
  let domain := to_lowercase domain in
  let pattern := to_lowercase pattern in
  if negb (contains_char c_star pattern) then domain =? pattern
  else regex_match (domain_regex pattern) domain.

(** The quotes a shell strips. *)
Definition is_shell_quote (c : char) : bool :=
  N.eqb c c_dquote || N.eqb c c_squote || N.eqb c c_backtick.

Definition normalize_exec_command (command : str) : str :=
  let collapsed := join [c_space] (split_whitespace command) in
  let no_quotes := List.filter (λ c, negb (is_shell_quote c)) collapsed in
  to_lowercase no_quotes.

Definition exec_rule_segments (target : str) : list str :=
  (λ seg, strip_env_assignments (normalize_exec_command seg)) <$> command_segments target.

Definition exec_rule_bucket_match
    (bucket pattern target_normalized : str) (segs : list str) : bool :=
  let pattern_lower := normalize_exec_command pattern in
  let hit := match_command_pattern pattern_lower in
  if bucket =? lit "allow" then negb (bool_decide (segs = [])) && forallb hit segs
  else existsb hit segs
       || hit (strip_env_assignments target_normalized)
       || hit target_normalized.
End Matching.

(** ** The wildcard languages *)

(** Path patterns: [**] is any text without a line feed, [*] any text without a
    slash, every other character itself. *)
Inductive glob : str → str → Prop :=
| glob_nil : glob [] []
| glob_lit c p t : c ≠ c_star → glob p t → glob (c :: p) (c :: t)
| glob_dstar a p t : c_nl ∉ a → glob p t → glob (c_star :: c_star :: p) (a ++ t)
| glob_star a p t :
    head p ≠ Some c_star → c_slash ∉ a → glob p t → glob (c_star :: p) (a ++ t).

(** Patterns in which every [*] is any text outside one character. *)
Inductive wild (sep : char) : str → str → Prop :=
| wild_nil : wild sep [] []
| wild_lit c p t : c ≠ c_star → wild sep p t → wild sep (c :: p) (c :: t)
| wild_star a p t : sep ∉ a → wild sep p t → wild sep (c_star :: p) (a ++ t).

(** The tokens a pattern stands for. *)
Fixpoint glob_tokens (s : str) : list tok :=
  match s with
  | [] => []
  | c :: s1 =>
      if N.eqb c c_star then
        match s1 with
        | d :: s2 =>
            if N.eqb d c_star then TStar AnyButNl :: glob_tokens s2
            else TStar (NotChar c_slash) :: glob_tokens s1
        | [] => [TStar (NotChar c_slash)]
        end
      else TLit c :: glob_tokens s1
  end.

Definition wild_tokens (k : cls) (s : str) : list tok :=
  (λ c, if N.eqb c c_star then TStar k else TLit c) <$> s.

Lemma forallb_not_in d a : forallb (λ c, negb (N.eqb c d)) a = true ↔ d ∉ a.
Proof.
  rewrite forallb_Forall_true, Forall_forall. split.
  - intros H Hin. specialize (H d Hin). by rewrite N.eqb_refl in H.
  - intros H c Hc. apply negb_true_iff, N.eqb_neq. by intros ->.
Qed.

Lemma in_cls_any a : forallb (in_cls AnyButNl) a = true ↔ c_nl ∉ a.
Proof. apply forallb_not_in. Qed.

Lemma in_cls_not d a : forallb (in_cls (NotChar d)) a = true ↔ d ∉ a.
Proof. apply forallb_not_in. Qed.

Lemma glob_tokens_star_cons d s :
  glob_tokens (c_star :: d :: s)
  = if N.eqb d c_star then TStar AnyButNl :: glob_tokens s
    else TStar (NotChar c_slash) :: glob_tokens (d :: s).
Proof. done. Qed.

Lemma glob_tokens_lit c s : c ≠ c_star → glob_tokens (c :: s) = TLit c :: glob_tokens s.
Proof. intros Hc. cbn [glob_tokens]. by rewrite (proj2 (N.eqb_neq c c_star) Hc). Qed.

Lemma glob_tokens_star p :
  head p ≠ Some c_star → glob_tokens (c_star :: p) = TStar (NotChar c_slash) :: glob_tokens p.
Proof.
  destruct p as [|d p]; [done|]. cbn [head]. intros Hd. rewrite glob_tokens_star_cons.
  destruct (N.eqb_spec d c_star); [congruence|done].
Qed.

Lemma glob_to_tmatch p t : glob p t → tmatch (glob_tokens p) t.
Proof.
  induction 1 as [|c p t Hc H IH|a p t Ha H IH|a p t Hp Ha H IH].
  - constructor.
  - rewrite glob_tokens_lit by done. by constructor.
  - rewrite glob_tokens_star_cons, N.eqb_refl. constructor; [by apply in_cls_any|done].
  - rewrite glob_tokens_star by done. constructor; [by apply in_cls_not|done].
Qed.

Lemma tmatch_to_glob p t : tmatch (glob_tokens p) t → glob p t.
Proof.
  revert t. induction p as [|c|c d p IH1 IH2] using scan_ind; intros t.
  - inversion 1. constructor.
  - destruct (decide (c = c_star)) as [->|Hc].
    + inversion 1 as [| |? ? a t' Ha Ht]; subst. inversion Ht; subst.
      apply glob_star; [done|by apply in_cls_not|constructor].
    + rewrite glob_tokens_lit by done. inversion 1 as [|? ? t' Ht|]; subst.
      inversion Ht; subst. by repeat constructor.
  - destruct (decide (c = c_star)) as [->|Hc].
    + rewrite glob_tokens_star_cons. destruct (N.eqb_spec d c_star) as [->|Hd];
        inversion 1 as [| |? ? a t' Ha Ht]; subst.
      * apply glob_dstar; [by apply in_cls_any|auto].
      * apply glob_star; [by intros [= ->]|by apply in_cls_not|auto].
    + rewrite glob_tokens_lit by done. inversion 1; subst. constructor; auto.
Qed.

Lemma glob_iff_tmatch p t : glob p t ↔ tmatch (glob_tokens p) t.
Proof. split; [apply glob_to_tmatch|apply tmatch_to_glob]. Qed.

Lemma wild_iff_tmatch sep k p t :
  (∀ a, forallb (in_cls k) a = true ↔ sep ∉ a) →
  wild sep p t ↔ tmatch (wild_tokens k p) t.
Proof.
  intros Hk. split.
  - induction 1 as [|c p t Hc H IH|a p t Ha H IH]; [constructor| |].
    + unfold wild_tokens. cbn [fmap list_fmap].
      rewrite (proj2 (N.eqb_neq c c_star) Hc). by constructor.
    + constructor; [by apply Hk|done].
  - revert t. induction p as [|c p IH]; intros t; [inversion 1; constructor|].
    unfold wild_tokens. cbn [fmap list_fmap].
    destruct (N.eqb_spec c c_star) as [->|Hc]; inversion 1; subst.
    + constructor; [by apply Hk|auto].
    + constructor; auto.
Qed.

(** ** What the generated expressions parse to *)

Lemma elem_of_escaped_meta c : c ∈ escaped_chars → is_meta c = true.
Proof.
  intros H. unfold is_meta. apply bool_decide_eq_true.
  revert c H. apply Forall_forall. by vm_compute; repeat constructor.
Qed.

Lemma not_escaped_not_syntax c : c ≠ c_star → c ∉ escaped_chars → is_syntax c = false.
Proof.
  intros Hs Hc. unfold is_syntax. apply bool_decide_eq_false. intros Hin.
  assert (Hall : Forall (λ c, c = c_star ∨ c ∈ escaped_chars) syntax_chars).
  { apply (bool_decide_unpack _). vm_compute. exact I. }
  rewrite Forall_forall in Hall. destruct (Hall c Hin); done.
Qed.

Lemma wildcard_body_star_cons d s :
  wildcard_body (c_star :: d :: s)
  = if N.eqb d c_star then lit ".*" ++ wildcard_body s
    else lit "[^/]*" ++ wildcard_body (d :: s).
Proof. done. Qed.

Lemma wildcard_body_lit c s :
  c ≠ c_star →
  wildcard_body (c :: s)
  = (if bool_decide (c ∈ escaped_chars) then [c_backslash; c] else [c]) ++ wildcard_body s.
Proof.
  intros Hc. cbn [wildcard_body]. rewrite (proj2 (N.eqb_neq c c_star) Hc). by case_bool_decide.
Qed.

Lemma wildcard_lit_spells c :
  c ≠ c_star →
  spells (if bool_decide (c ∈ escaped_chars) then [c_backslash; c] else [c]) (TLit c).
Proof.
  intros Hc. case_bool_decide.
  - by apply spells_esc, elem_of_escaped_meta.
  - by apply spells_lit, not_escaped_not_syntax.
Qed.

Lemma wildcard_body_spells p :
  ∃ ps, wildcard_body p = mjoin ps ∧ Forall2 spells ps (glob_tokens p).
Proof.
  induction p as [|c|c d p (ps1 & E1 & F1) (ps2 & E2 & F2)] using scan_ind.
  - exists []. by split.
  - destruct (decide (c = c_star)) as [->|Hc].
    + exists [lit "[^/]*"]. split; [done|]. repeat constructor.
    + rewrite wildcard_body_lit, glob_tokens_lit by done. eexists [_]. split; [done|].
      constructor; [by apply wildcard_lit_spells|constructor].
  - destruct (decide (c = c_star)) as [->|Hc].
    + rewrite wildcard_body_star_cons, glob_tokens_star_cons.
      destruct (N.eqb d c_star).
      * exists (lit ".*" :: ps1). rewrite E1. split; [done|]. constructor; [constructor|done].
      * exists (lit "[^/]*" :: ps2). rewrite E2. split; [done|]. constructor; [constructor|done].
    + rewrite wildcard_body_lit, glob_tokens_lit, E2 by done. eexists (_ :: ps2).
      split; [done|]. constructor; [by apply wildcard_lit_spells|done].
Qed.

Lemma parse_wildcard p : parse_fragment (wildcard_to_regex p) = Some (glob_tokens p).
Proof.
  destruct (wildcard_body_spells p) as (ps & E & F).
  unfold wildcard_to_regex. rewrite E. by apply parse_fragment_spells.
Qed.

(** *** Placeholder substitution *)

(** One character after quoting. *)
Definition esc1 (c : char) : str := if is_meta c then [c_backslash; c] else [c].

Lemma esc1_spells c : spells (esc1 c) (TLit c).
Proof.
  unfold esc1. destruct (is_meta c) eqn:E; [by apply spells_esc|].
  apply spells_lit. unfold is_meta, is_syntax in *. bool_simpl. apply bool_decide_eq_false.
  intros Hin. apply E. clear E. revert c Hin. apply Forall_forall.
  apply (bool_decide_unpack _). vm_compute. exact I.
Qed.

Lemma esc1_no_nul c : c ≠ c_nul → c_nul ∉ esc1 c.
Proof.
  intros Hc. unfold esc1. destruct (is_meta c); rewrite !elem_of_cons, elem_of_nil;
    intros [?|?]; naive_solver.
Qed.

Lemma mjoin_fmap_cons {A} (f : A → str) x l : mjoin (f <$> x :: l) = f x ++ mjoin (f <$> l).
Proof. done. Qed.

Lemma mjoin_app (a b : list str) : mjoin (a ++ b) = mjoin a ++ mjoin b.
Proof. induction a as [|x a IH]; [done|]. cbn [app]. change (mjoin (x :: a ++ b)) with (x ++ mjoin (a ++ b)). by rewrite IH, app_assoc. Qed.

Lemma regex_escape_app a b : regex_escape (a ++ b) = regex_escape a ++ regex_escape b.
Proof. unfold regex_escape. by rewrite fmap_app, mjoin_app. Qed.

Lemma regex_escape_blocks (f : char → str) p :
  regex_escape (mjoin (f <$> p)) = mjoin ((λ c, regex_escape (f c)) <$> p).
Proof.
  induction p as [|c p IH]; [done|]. by rewrite !mjoin_fmap_cons, regex_escape_app, IH.
Qed.

Lemma replace_char_blocks c r (f : char → str) p :
  replace_char c r (mjoin (f <$> p)) = mjoin ((λ x, replace_char c r (f x)) <$> p).
Proof.
  induction p as [|x p IH]; [done|]. rewrite !mjoin_fmap_cons.
  unfold replace_char in *. by rewrite fmap_app, mjoin_app, IH.
Qed.

Lemma replace_char_id c r s : c ∉ s → replace_char c r s = s.
Proof.
  induction s as [|x s IH]; intros H; [done|]. apply not_elem_of_cons in H as [Hx Hs].
  unfold replace_char in *. rewrite mjoin_fmap_cons. cbv beta.
  rewrite (proj2 (N.eqb_neq x c)) by done.
  by rewrite IH.
Qed.

Lemma replace_aux_skip p r a s :
  replace_str_aux p r (a ++ s) (length a) = replace_str_aux p r s 0.
Proof. induction a as [|c a IH]; [by destruct s|]. done. Qed.

(** A placeholder at the cursor is replaced. *)
Lemma replace_str_hit c p r s :
  replace_str (c :: p) r ((c :: p) ++ s) = r ++ replace_str (c :: p) r s.
Proof.
  unfold replace_str. cbn [app replace_str_aux].
  change (c :: p ++ s) with ((c :: p) ++ s). rewrite starts_with_app.
  f_equal. cbn [length]. rewrite Nat.sub_succ, Nat.sub_0_r. apply replace_aux_skip.
Qed.

(** A block that cannot begin an occurrence is copied. *)
Lemma replace_str_copy p r a s :
  (∀ x y, a = x ++ y → y ≠ [] → starts_with p (y ++ s) = false) →
  replace_str p r (a ++ s) = a ++ replace_str p r s.
Proof.
  unfold replace_str. induction a as [|c a IH]; intros H; [done|].
  cbn [app replace_str_aux]. change (c :: a ++ s) with ((c :: a) ++ s).
  rewrite (H [] (c :: a)) by done. f_equal. apply IH.
  intros x y -> Hy. apply (H (c :: x) y); done.
Qed.

Lemma starts_with_first_ne c p d s : c ≠ d → starts_with (c :: p) (d :: s) = false.
Proof. intros H. cbn [starts_with]. by rewrite (proj2 (N.eqb_neq c d) H). Qed.

(** In particular a block without the first character of the placeholder. *)
Lemma replace_str_copy_free c p r a s :
  c ∉ a → replace_str (c :: p) r (a ++ s) = a ++ replace_str (c :: p) r s.
Proof.
  intros Ha. apply replace_str_copy. intros x [|d y] -> Hy; [done|].
  apply starts_with_first_ne. intros ->. apply Ha. rewrite elem_of_app. right. by left.
Qed.

(** Replacing in a concatenation of blocks, placeholder by placeholder; [ok] is
    what a copied block may assume of the text that follows it. *)
Lemma replace_str_blocks (ok : str → Prop) c p r (f g : char → str) l :
  ok [] → (∀ x s, x ∈ l → ok s → ok (f x ++ s)) →
  (∀ x, x ∈ l → (f x = c :: p ∧ g x = r) ∨
     (g x = f x ∧ ∀ s, ok s → replace_str (c :: p) r (f x ++ s) = f x ++ replace_str (c :: p) r s)) →
  replace_str (c :: p) r (mjoin (f <$> l)) = mjoin (g <$> l).
Proof.
  intros Hnil Hok H.
  enough (ok (mjoin (f <$> l)) ∧
          replace_str (c :: p) r (mjoin (f <$> l)) = mjoin (g <$> l)) by tauto.
  induction l as [|x l IH]; [done|]. rewrite !mjoin_fmap_cons.
  destruct IH as [IHo <-]; [by intros; apply Hok; [right|]|by intros; apply H; right|].
  split; [apply Hok; [by left|done]|].
  destruct (H x) as [[-> ->]|[-> Hcopy]]; [by left|apply replace_str_hit|by apply Hcopy].
Qed.

Lemma mjoin_fmap_ext (f g : char → str) l :
  (∀ x, x ∈ l → f x = g x) → mjoin (f <$> l) = mjoin (g <$> l).
Proof.
  induction l as [|x l IH]; intros H; [done|]. rewrite !mjoin_fmap_cons.
  rewrite H by (by left). f_equal. apply IH. intros y Hy. apply H. by right.
Qed.

Lemma replace_char_eq c r s :
  replace_char c r s = mjoin ((λ x, if N.eqb x c then r else [x]) <$> s).
Proof. done. Qed.

Lemma regex_escape_single c : regex_escape [c] = esc1 c.
Proof. unfold regex_escape, esc1. simpl. by rewrite app_nil_r. Qed.

Lemma command_regex_eq p :
  c_nul ∉ p →
  command_regex p
  = lit "^" ++ mjoin ((λ c, if N.eqb c c_star then lit ".*" else esc1 c) <$> p) ++ lit "$".
Proof.
  intros Hp. unfold command_regex. do 2 f_equal.
  rewrite replace_char_eq, regex_escape_blocks.
  unfold WILDCARD_PLACEHOLDER at 1. cbn [app].
  apply (replace_str_blocks (λ _, True)); [done..|]. intros x Hx. cbv beta.
  destruct (N.eqb_spec x c_star) as [->|Hx']; [left; by vm_compute|right].
  rewrite regex_escape_single. split; [done|]. intros s _.
  apply replace_str_copy_free, esc1_no_nul. by intros ->.
Qed.

Lemma spells_fmap (f : char → str) (g : char → tok) p :
  (∀ c, spells (f c) (g c)) → Forall2 spells (f <$> p) (g <$> p).
Proof. intros H. induction p; constructor; auto. Qed.

Lemma parse_command_regex p :
  c_nul ∉ p → parse_fragment (command_regex p) = Some (wild_tokens AnyButNl p).
Proof.
  intros Hp. rewrite command_regex_eq by done. apply parse_fragment_spells.
  apply spells_fmap. intros c. destruct (N.eqb c c_star); [constructor|apply esc1_spells].
Qed.

Definition domain_block (star dot : str) (c : char) : str :=
  if N.eqb c c_star then star else if N.eqb c c_dot then dot else esc1 c.

(** The two placeholders before they are replaced. *)
Lemma domain_quoted_eq p :
  regex_escape (replace_char c_dot DOT_PLACEHOLDER (replace_char c_star WILDCARD_PLACEHOLDER p))
  = mjoin (domain_block WILDCARD_PLACEHOLDER DOT_PLACEHOLDER <$> p).
Proof.
  rewrite (replace_char_eq c_star), replace_char_blocks, regex_escape_blocks.
  apply mjoin_fmap_ext. intros x _. unfold domain_block.
  destruct (N.eqb_spec x c_star) as [->|Hs]; [by vm_compute|].
  rewrite replace_char_eq. rewrite mjoin_fmap_cons. cbn [fmap list_fmap mjoin list_join].
  rewrite app_nil_r. destruct (N.eqb_spec x c_dot) as [->|Hd]; [by vm_compute|].
  apply regex_escape_single.
Qed.

Definition c_W : char := ch "W".

Lemma head_esc1_W x s : x ≠ c_W → head (esc1 x ++ s) ≠ Some c_W.
Proof. unfold esc1. intros Hx. destruct (is_meta x); simpl; by intros [= ?]. Qed.

(** The dot placeholder is not an occurrence of the other one. *)
Lemma dot_placeholder_copy r s :
  head s ≠ Some c_W →
  replace_str WILDCARD_PLACEHOLDER r (DOT_PLACEHOLDER ++ s)
  = DOT_PLACEHOLDER ++ replace_str WILDCARD_PLACEHOLDER r s.
Proof.
  intros Hs. apply replace_str_copy. intros x y Hxy Hy.
  assert (Hc : y = DOT_PLACEHOLDER ∨ y = [c_nul] ∨ head y ≠ Some c_nul ∧ y ≠ []).
  { assert (Hd : drop (length x) DOT_PLACEHOLDER = y) by (by rewrite Hxy, drop_app_length).
    rewrite <- Hd in Hy |- *. clear Hxy Hd.
    destruct (decide (length x < 12)) as [Hlt|Hge].
    - clear Hy. revert Hlt. generalize (length x). intros n Hlt.
      do 12 (destruct n as [|n]; [first [by left | by right; left | by right; right]|]). lia.
    - rewrite drop_ge in Hy by (simpl; lia). done. }
  destruct Hc as [-> | [-> | [Hh Hne]]].
  - reflexivity.
  - destruct s as [|d s]; [done|]. cbn [head] in Hs. unfold WILDCARD_PLACEHOLDER.
    cbn [app starts_with lit]. rewrite N.eqb_refl.
    change (N_of_ascii "W"%char) with c_W. by rewrite (proj2 (N.eqb_neq c_W d)) by congruence.
  - destruct y as [|d y]; [done|]. apply starts_with_first_ne. cbn [head] in Hh. congruence.
Qed.

Lemma domain_regex_eq p :
  c_nul ∉ p → c_W ∉ p →
  domain_regex p
  = lit "^" ++ mjoin (domain_block (lit "[^.]*") (lit "\.") <$> p) ++ lit "$".
Proof.
  intros Hp HW. unfold domain_regex. do 2 f_equal. rewrite domain_quoted_eq.
  transitivity (replace_str DOT_PLACEHOLDER (lit "\.")
                  (mjoin (domain_block (lit "[^.]*") DOT_PLACEHOLDER <$> p))).
  - f_equal. unfold WILDCARD_PLACEHOLDER at 1. cbn [app].
    apply (replace_str_blocks (λ s, head s ≠ Some c_W)); [done| |].
    + intros x s Hx Hs. unfold domain_block.
      destruct (N.eqb x c_star); [done|]. destruct (N.eqb x c_dot); [done|].
      apply head_esc1_W. by intros ->.
    + intros x Hx. unfold domain_block.
      destruct (N.eqb_spec x c_star) as [->|]; [by left|right].
      destruct (N.eqb_spec x c_dot) as [->|]; (split; [done|]); intros s Hs.
      * by apply dot_placeholder_copy.
      * apply replace_str_copy_free, esc1_no_nul. by intros ->.
  - unfold DOT_PLACEHOLDER at 1. cbn [app].
    apply (replace_str_blocks (λ _, True)); [done..|]. intros x Hx. unfold domain_block.
    destruct (N.eqb_spec x c_star) as [->|].
    { right. split; [done|]. intros s _. apply replace_str_copy_free.
      apply (bool_decide_unpack _). by vm_compute. }
    destruct (N.eqb_spec x c_dot) as [->|]; [by left|right].
    split; [done|]. intros s _. apply replace_str_copy_free, esc1_no_nul. by intros ->.
Qed.

Lemma parse_domain_regex p :
  c_nul ∉ p → c_W ∉ p →
  parse_fragment (domain_regex p) = Some (wild_tokens (NotChar c_dot) p).
Proof.
  intros Hp HW. rewrite domain_regex_eq by done. apply parse_fragment_spells.
  apply spells_fmap. intros c. unfold domain_block.
  destruct (N.eqb c c_star); [constructor|].
  destruct (N.eqb_spec c c_dot) as [->|]; [by apply spells_esc|apply esc1_spells].
Qed.

(** ** [glob_contains] *)

(** The pieces occur in [text] one after the other, without overlap. *)
Inductive ordered_in : list str → str → Prop :=
| ordered_nil t : ordered_in [] t
| ordered_cons seg segs a b :
    ordered_in segs b → ordered_in (seg :: segs) (a ++ seg ++ b).

Lemma ordered_in_app_l segs a b : ordered_in segs b → ordered_in segs (a ++ b).
Proof.
  inversion 1 as [|seg segs' x y Hy]; subst; [constructor|].
  rewrite (app_assoc a x). by constructor.
Qed.

(** [find] returns the first occurrence. *)
Lemma find_str_first p a b i : find_str p (a ++ p ++ b) = Some i → i ≤ length a.
Proof.
  revert i. induction a as [|c a IH]; intros i H.
  - assert (E : find_str p (p ++ b) = Some 0).
    { destruct (p ++ b) eqn:E; simpl; rewrite <- E, starts_with_app; done. }
    rewrite app_nil_l, E in H. injection H as <-. lia.
  - cbn [app find_str] in H. destruct (starts_with p (c :: a ++ p ++ b)).
    + injection H as <-. simpl. lia.
    + destruct (find_str p (a ++ p ++ b)) as [j|]; [|done]. injection H as <-.
      specialize (IH j eq_refl). simpl. lia.
Qed.

Lemma find_in_order_iff segs t : find_in_order segs t = true ↔ ordered_in segs t.
Proof.
  revert t. induction segs as [|seg segs IH]; intros t; cbn [find_in_order].
  - split; [constructor|done].
  - split.
    + destruct (find_str seg t) as [i|] eqn:E; [|done].
      apply find_str_Some in E as (a & b & -> & <-).
      rewrite <- length_app, app_assoc, drop_app_length, IH, <- app_assoc.
      by constructor.
    + inversion 1 as [|? ? a b Hb]; subst.
      destruct (find_str seg (a ++ seg ++ b)) as [i|] eqn:E.
      * pose proof (find_str_first _ _ _ _ E) as Hi. rewrite IH.
        rewrite app_assoc, drop_app_le by (rewrite length_app; lia).
        by apply ordered_in_app_l.
      * destruct (find_str_is_Some seg a b) as [i Ei]. congruence.
Qed.

Section MatchingFacts.
Context {UC : Unicode} {RE : RegexEngine} {PF : Platform}.

(** The pattern [match_pattern] hands to the regex: one without a separator is
    made global. *)
Definition effective_pattern (pattern : str) : str :=
  if contains_char c_slash pattern then pattern else lit "**" ++ pattern.

Lemma do_match_glob p t :
  compiles (wildcard_to_regex p) → do_match p t = true ↔ glob p t.
Proof. intros Hc. rewrite glob_iff_tmatch. by apply regex_match_iff; [apply parse_wildcard|]. Qed.

Lemma match_command_wild p t :
  c_nul ∉ p → compiles (command_regex p) → match_command_pattern p t = true ↔ wild c_nl p t.
Proof.
  intros Hp Hc. rewrite (wild_iff_tmatch _ AnyButNl) by apply in_cls_any.
  apply regex_match_iff; [by apply parse_command_regex|done].
Qed.

(** What does not match the language is never accepted, compiled or not. *)
Lemma match_command_sound p t :
  c_nul ∉ p → match_command_pattern p t = true → wild c_nl p t.
Proof.
  intros Hp H. rewrite (wild_iff_tmatch _ AnyButNl) by apply in_cls_any.
  eapply regex_match_sound; [by apply parse_command_regex|done].
Qed.

Lemma existsb_segments_cut (f : str → bool) a op b :
  is_balanced a = true → is_balanced b = true → clean_end a = true → cuts op b = true →
  existsb f (exec_rule_segments (a ++ op ++ b))
  = existsb f (exec_rule_segments a) || existsb f (exec_rule_segments b).
Proof.
  intros Ba Bb Ha Hc. apply eq_true_iff_eq. rewrite orb_true_iff.
  rewrite !existsb_Exists_true, !Exists_exists. unfold exec_rule_segments.
  setoid_rewrite list_elem_of_fmap.
  setoid_rewrite (λ seg, elem_of_command_segments_cut seg a op b Ba Bb Ha Hc).
  split.
  - intros (x & (y & -> & [Hy|Hy]) & Hf); [left|right]; eauto.
  - intros [(x & (y & -> & Hy) & Hf)|(x & (y & -> & Hy) & Hf)]; eauto 6.
Qed.

Lemma forallb_negb_existsb (f : str → bool) l :
  forallb f l = negb (existsb (λ x, negb (f x)) l).
Proof. induction l as [|x l IH]; simpl; [done|]. rewrite IH. by destruct (f x). Qed.

Lemma forallb_segments_cut (f : str → bool) a op b :
  is_balanced a = true → is_balanced b = true → clean_end a = true → cuts op b = true →
  forallb f (exec_rule_segments (a ++ op ++ b))
  = forallb f (exec_rule_segments a) && forallb f (exec_rule_segments b).
Proof.
  intros. rewrite !forallb_negb_existsb, existsb_segments_cut by done. by rewrite negb_orb.
Qed.
End MatchingFacts.

#[export] Hint Resolve parse_wildcard parse_command_regex : nb.

(** ** Properties *)

Section MatcherProperties.
Context {UC : Unicode} {RE : RegexEngine} {PF : Platform}.

(** Also: whenever the engine compiles the generated expression, a path rule
    accepts exactly its documented wildcard language: both sides with [/]
    separators, equality without [*], and otherwise [*] within one directory
    level and [**] across levels, a pattern without separator being global. *)
Theorem match_pattern_spec pattern target :
  compiles (wildcard_to_regex (effective_pattern (normalize_path pattern))) →
  match_pattern pattern target = true ↔
  if contains_char c_star (normalize_path pattern)
  then glob (effective_pattern (normalize_path pattern)) (normalize_path target)
  else normalize_path pattern = normalize_path target.
Proof.
  intros Hc. unfold match_pattern, effective_pattern in *.
  destruct (contains_char c_star _); simpl.
  - destruct (contains_char c_slash _); by apply do_match_glob.
  - apply bool_decide_eq_true.
Qed.

(** Also: a command pattern without NUL accepts exactly the commands obtained by
    replacing every [*] by a text without line feeds: quoting through the
    placeholder and [regex::escape] loses nothing and lets no metacharacter
    through. *)
Theorem match_command_pattern_spec pattern command :
  c_nul ∉ pattern → compiles (command_regex pattern) →
  match_command_pattern pattern command = true ↔ wild c_nl pattern command.
Proof. apply match_command_wild. Qed.

(** Also: a domain rule compares case-insensitively and a [*] covers one label:
    it never crosses a dot. *)
Theorem match_domain_pattern_spec pattern domain :
  is_ascii pattern = true → c_nul ∉ pattern → compiles (domain_regex (to_lowercase pattern)) →
  match_domain_pattern pattern domain = true ↔
  if contains_char c_star (to_lowercase pattern)
  then wild c_dot (to_lowercase pattern) (to_lowercase domain)
  else to_lowercase domain = to_lowercase pattern.
Proof.
  intros Ha Hp Hc. unfold match_domain_pattern.
  destruct (contains_char c_star _); simpl; [|apply bool_decide_eq_true].
  rewrite (wild_iff_tmatch _ (NotChar c_dot)) by apply in_cls_not.
  apply regex_match_iff; [|done].
  assert (Hlow : ∀ c, c ∈ to_lowercase pattern → c ≠ c_nul ∧ c ≠ c_W).
  { rewrite to_lowercase_ascii by done. intros c (x & -> & Hx)%list_elem_of_fmap.
    unfold ascii_lower, is_ascii_upper. assert (x ≠ c_nul) by congruence.
    unfold c_nul, c_W in *. simpl. repeat case_match; bool_simpl; simpl in *; split; try lia.
    - intros ->. done. }
  apply parse_domain_regex; intros Hin; by destruct (Hlow _ Hin).
Qed.

(** Also: compound commands are decided asymmetrically: after a top-level
    operator, a deny or ask rule fires as soon as one part has a matching
    segment (or the whole line matches), while an allow rule needs every
    segment of every part. *)
Theorem exec_bucket_compound bucket pattern tnorm a op b :
  is_balanced a = true → is_balanced b = true → clean_end a = true → cuts op b = true →
  let hit := match_command_pattern (normalize_exec_command pattern) in
  let m := exec_rule_bucket_match bucket pattern tnorm (exec_rule_segments (a ++ op ++ b)) in
  (bucket = lit "allow" → m = true →
     forallb hit (exec_rule_segments a) = true ∧ forallb hit (exec_rule_segments b) = true) ∧
  (bucket ≠ lit "allow" →
     m = existsb hit (exec_rule_segments a) || existsb hit (exec_rule_segments b)
         || hit (strip_env_assignments tnorm) || hit tnorm).
Proof.
  intros Ba Bb Ha Hc hit m. unfold m, exec_rule_bucket_match. split.
  - intros ->. rewrite bool_decide_eq_true_2, forallb_segments_cut by done.
    rewrite !andb_true_iff. tauto.
  - intros Hb. by rewrite bool_decide_eq_false_2, existsb_segments_cut by done.
Qed.

(** Also: [glob_contains] decides whether the literal pieces of the pattern occur
    in the payload in order: its greedy left-to-right search misses no
    placement. *)
Theorem glob_contains_spec pattern text :
  glob_contains pattern text = true ↔
  ordered_in (List.filter nonempty (split_on (N.eqb c_star) pattern)) text.
Proof. apply find_in_order_iff. Qed.
End MatcherProperties.

(** ** The two blind spots of the normalisation *)

(** [rm], an empty pair of double quotes, [-rf /data]. *)
Definition quoted_rm : str := lit "rm " ++ [c_dquote; c_dquote] ++ lit " -rf /data".

(** [echo] with four empty quoted arguments, then a wrapped removal whose
    interpreter option has a two-byte character (U+00E9). *)
Definition quoted_wrapper : str :=
  lit "echo " ++ mjoin (replicate 4 [c_dquote; c_dquote; c_space])
  ++ lit "&& bash --rcfile " ++ [233%N] ++ lit " -c 'rm -rf /data'".

Section MatcherGaps.
Context {UC : Unicode} {RE : RegexEngine}.

Lemma match_command_false p t :
  c_nul ∉ p → tmatchb (wild_tokens AnyButNl p) t = false → match_command_pattern p t = false.
Proof.
  intros Hp Hf. destruct (match_command_pattern p t) eqn:E; [|done].
  apply match_command_sound in E; [|done].
  rewrite (wild_iff_tmatch _ AnyButNl), <- tmatchb_correct in E by apply in_cls_any. congruence.
Qed.

Ltac norm_ascii :=
  unfold normalize_exec_command;
  repeat (rewrite to_lowercase_ascii by (vm_compute; reflexivity)).

(** Observed: quotes are removed after blanks are merged, so an empty quoted argument
    leaves two blanks behind: the deny rule [rm -rf *] does not match the
    target [rm], two double quotes, [-rf /data], under any engine. *)
Theorem deny_gap_empty_quotes :
  exec_rule_bucket_match (lit "deny") (lit "rm -rf *")
    (normalize_exec_command quoted_rm) (exec_rule_segments quoted_rm) = false.
Proof.
  unfold exec_rule_bucket_match, exec_rule_segments.
  replace (command_segments quoted_rm) with [quoted_rm] by (vm_compute; reflexivity).
  cbn [fmap list_fmap existsb]. norm_ascii.
  rewrite bool_decide_eq_false_2 by done.
  rewrite !match_command_false; try (vm_compute; reflexivity);
    apply (bool_decide_unpack _); vm_compute; exact I.
Qed.

(** The same target without the empty argument is denied. *)
Lemma deny_plain_rm :
  compiles (command_regex (lit "rm -rf *")) →
  exec_rule_bucket_match (lit "deny") (lit "rm -rf *")
    (normalize_exec_command (lit "rm -rf /data")) (exec_rule_segments (lit "rm -rf /data")) = true.
Proof.
  intros Hc. unfold exec_rule_bucket_match.
  rewrite bool_decide_eq_false_2, orb_true_iff by done. right.
  norm_ascii. change (match_command_pattern (lit "rm -rf *") (lit "rm -rf /data") = true).
  apply match_command_wild; [apply (bool_decide_unpack _); vm_compute; exact I|done|].
  rewrite (wild_iff_tmatch _ AnyButNl), <- tmatchb_correct by apply in_cls_any.
  vm_compute. reflexivity.
Qed.

End MatcherGaps.

(** Observed: token offsets assume one separator byte, so blanks left by removed quotes
    shift the payload start; when it falls inside a multi-byte character the
    payload of a wrapped command is dropped and never scanned. *)
Theorem payload_gap_multibyte :
  @normalize_exec_command ascii_unicode quoted_wrapper
  = lit "echo     && bash --rcfile " ++ [233%N] ++ lit " -c rm -rf /data" ∧
  extract_interpreter_payloads (@normalize_exec_command ascii_unicode quoted_wrapper) = [] ∧
  extract_interpreter_payloads (lit "echo && bash --rcfile " ++ [233%N] ++ lit " -c rm -rf /data")
  = [lit "rm -rf /data"].
Proof. split_and!; vm_compute; reflexivity. Qed.

(** ** Witnesses *)

Lemma match_pattern_spec_witness :
  @compiles fragment_engine (wildcard_to_regex (effective_pattern (normalize_path (lit "/data/*.key")))) ∧
  @match_pattern fragment_engine (lit "/data/*.key") (lit "\data\a.key") = true.
Proof.
  split; [eapply fragment_compiles, parse_wildcard|].
  apply (@match_pattern_spec fragment_engine); [eapply fragment_compiles, parse_wildcard|].
  change (glob (lit "/data/*.key") (lit "/data/a.key")).
  apply glob_iff_tmatch, tmatchb_correct. reflexivity.
Defined.

Lemma match_command_pattern_spec_witness :
  (c_nul ∉ lit "rm -rf *") ∧ wild c_nl (lit "rm -rf *") (lit "rm -rf /data").
Proof.
  assert (Hn : c_nul ∉ lit "rm -rf *") by (apply (bool_decide_unpack _); reflexivity).
  split; [exact Hn|].
  apply (@match_command_pattern_spec fragment_engine); [exact Hn| |reflexivity].
  by eapply fragment_compiles, parse_command_regex.
Defined.

Lemma match_domain_pattern_spec_witness :
  is_ascii (lit "*.GitHub.com") = true ∧ wild c_dot (lit "*.github.com") (lit "api.github.com").
Proof.
  split; [reflexivity|].
  apply (proj1 (@match_domain_pattern_spec ascii_unicode fragment_engine
    (lit "*.GitHub.com") (lit "API.github.com") eq_refl
    ltac:(apply (bool_decide_unpack _); reflexivity)
    ltac:(eapply fragment_compiles, parse_domain_regex;
          apply (bool_decide_unpack _); reflexivity)) eq_refl).
Defined.

Lemma exec_bucket_compound_witness :
  is_balanced (lit "echo hi ") = true ∧ is_balanced (lit " rm -rf y") = true ∧
  @exec_rule_bucket_match ascii_unicode fragment_engine (lit "deny") (lit "rm -rf *")
    (lit "x") (@exec_rule_segments ascii_unicode (lit "echo hi " ++ lit "&&" ++ lit " rm -rf y")) = true.
Proof.
  do 2 (split; [reflexivity|]).
  etransitivity; [apply (proj2 (@exec_bucket_compound ascii_unicode fragment_engine
    (lit "deny") (lit "rm -rf *") (lit "x") (lit "echo hi ") (lit "&&") (lit " rm -rf y")
    eq_refl eq_refl eq_refl eq_refl)); discriminate|].
  vm_compute. reflexivity.
Defined.
