(* ===== verification/VirusScan.v ===== *)
(** * The virus scan chain, layer 7 (nemesis-security/src/scanner.rs)

    The chain of engines, its extension rules and the three scans, which stop at the
    first engine that finds something; and what the chain takes from the arguments of a
    tool call.  An engine ([VirusScanner]) is the record of its answers at the time of
    the call; the ClamAV engines themselves (a client of a daemon) come from outside,
    through [make_engine].  Sizes are not looked at: [max_file_size] is never read. *)
From S2P Require Import Prelude RustStr Json Matcher.
Local Open Scope nb_scope.

(** ** Results *)

Record ScanResult := mkScan {
  sr_path : str;
  sr_infected : bool;
  sr_virus : str;
  sr_raw : str;
  sr_engine : str;
  sr_duration : str;
}.

Definition scan_clean : ScanResult := mkScan [] false [] [] [] [].
Definition clean_from (engine : str) : ScanResult := mkScan [] false [] [] engine [].
Definition clean_with_path (engine path : str) : ScanResult := mkScan path false [] [] engine [].
Definition with_threats (engine virus path : str) : ScanResult := mkScan path true virus [] engine [].

Definition is_clean (r : ScanResult) : bool := negb (sr_infected r).

Definition keep_first (a b : str) : str := if nonempty a then a else b.

Definition merge (r other : ScanResult) : ScanResult :=
  let r := if sr_infected other
           then mkScan (sr_path r) true (keep_first (sr_virus r) (sr_virus other)) (sr_raw r)
                  (keep_first (sr_engine r) (sr_engine other)) (sr_duration r)
           else r in
  mkScan (keep_first (sr_path r) (sr_path other)) (sr_infected r) (sr_virus r) (sr_raw r)
    (sr_engine r) (sr_duration r).

Record ScanChainResult := mkChainResult {
  cr_clean : bool;
  cr_blocked : bool;
  cr_engine : str;
  cr_virus : str;
  cr_path : str;
  cr_results : list ScanResult;
}.

Definition chain_clean : ScanChainResult := mkChainResult true false [] [] [] [].

Definition chain_blocked (engine virus path : str) (results : list ScanResult) : ScanChainResult :=
  mkChainResult false true engine virus path results.

(** ** Engines *)

Record VirusScanner := mkEngine {
  vs_name : str;
  vs_start : result unit str;
  vs_is_ready : bool;
  vs_scan_file : str → ScanResult;
  vs_scan_content : list N → ScanResult;
  vs_scan_directory : str → list ScanResult;
}.

Definition stub_scanner : VirusScanner :=
  mkEngine (lit "stub") (Ok tt) true (clean_with_path (lit "stub")) (λ _, clean_from (lit "stub")) (λ _, []).

(** ** Extension rules *)

Record ExtensionRules := mkExtRules {
  xr_scan_extensions : list str;
  xr_skip_extensions : list str;
}.

Definition rules_default : ExtensionRules := mkExtRules [] [].

Definition is_separator `{!Platform} (c : char) : bool :=
  N.eqb c c_slash || (cfg_windows && N.eqb c c_backslash).

(** [Path::file_name]: the last component that is not [.], unless it is [..]. *)
Definition path_file_name `{!Platform} (path : str) : option str :=
  let pieces := split_on is_separator path in
  match last (List.filter (λ p, nonempty p && (p <>? lit ".")) pieces) with
  | Some p => if p =? lit ".." then None else Some p
  | None => None
  end.

(** [Path::extension]: what follows the last dot of the file name, unless the name has
    no dot but at its beginning. *)
Definition path_extension `{!Platform} (path : str) : option str :=
  name ← path_file_name path;
  match split_on (N.eqb c_dot) name with
  | [] | [_] => None
  | [[]; _] => None
  | pieces => last pieces
  end.

Definition should_scan_file `{!Platform} `{!Unicode} (r : ExtensionRules) (path : str) : bool :=
  let ext := to_lowercase (default [] (path_extension path)) in
  let listed l := existsb (λ e, to_lowercase e =? ext) l in
  match xr_scan_extensions r, xr_skip_extensions r with
  | _ :: _, _ => listed (xr_scan_extensions r)
  | [], _ :: _ => negb (listed (xr_skip_extensions r))
  | [], [] => true
  end.

(** ** The chain *)

Record ScanChainConfig := mkScanConfig {
  sg_enabled : bool;
  sg_max_file_size : N;
}.

Definition scan_config_default : ScanChainConfig := mkScanConfig false (50 * 1024 * 1024).

Section Chain.
Context `{JsonNumbers} {UC : Unicode} {PF : Platform}.

Record ScanChain := mkScanChain {
  sx_engines : list VirusScanner;
  sx_configs : gmap str Value;
  sx_config : ScanChainConfig;
  sx_rules : ExtensionRules;
  sx_enabled : bool;
}.

Definition scan_chain_new (config : ScanChainConfig) : ScanChain :=
  mkScanChain [] ∅ config rules_default false.

Definition add_engine (c : ScanChain) (e : VirusScanner) : ScanChain :=
  mkScanChain (sx_engines c ++ [e]) (sx_configs c) (sx_config c) (sx_rules c) (sx_enabled c).

Definition set_enabled (c : ScanChain) (enabled : bool) : ScanChain :=
  mkScanChain (sx_engines c) (sx_configs c) (sx_config c) (sx_rules c) enabled.

Definition engine_count (c : ScanChain) : nat := length (sx_engines c).

Definition clear_engines (c : ScanChain) : ScanChain :=
  mkScanChain [] ∅ (sx_config c) (sx_rules c) (sx_enabled c).

(** The loop of [scan_file] and [scan_content]: [results] are those so far. *)
Fixpoint scan_engines (engines : list VirusScanner) (run : VirusScanner → ScanResult) (path : str)
    (results : list ScanResult) : ScanChainResult + list ScanResult :=
  match engines with
  | [] => inr results
  | e :: engines =>
      if vs_is_ready e then
        let r := run e in
        let results := results ++ [r] in
        if sr_infected r then inl (chain_blocked (vs_name e) (sr_virus r) path results)
        else scan_engines engines run path results
      else scan_engines engines run path results
  end.

Definition finish_scan (path : str) (r : ScanChainResult + list ScanResult) : ScanChainResult :=
  match r with
  | inl blocked => blocked
  | inr results => mkChainResult true false [] [] path results
  end.

Definition scan_file (c : ScanChain) (path : str) : ScanChainResult :=
  match sx_engines c with
  | [] => chain_clean
  | engines =>
      if should_scan_file (sx_rules c) path
      then finish_scan path (scan_engines engines (λ e, vs_scan_file e path) path [])
      else chain_clean
  end.

Definition scan_content (c : ScanChain) (content : list N) : ScanChainResult :=
  match sx_engines c with
  | [] => chain_clean
  | engines => finish_scan [] (scan_engines engines (λ e, vs_scan_content e content) [] [])
  end.

(** The results of one engine, in turn. *)
Fixpoint directory_results (engine : str) (found results : list ScanResult)
    : ScanChainResult + list ScanResult :=
  match found with
  | [] => inr results
  | r :: found =>
      let results := results ++ [r] in
      if sr_infected r then inl (chain_blocked engine (sr_virus r) (sr_path r) results)
      else directory_results engine found results
  end.

Fixpoint directory_engines (engines : list VirusScanner) (dir : str) (results : list ScanResult)
    : ScanChainResult + list ScanResult :=
  match engines with
  | [] => inr results
  | e :: engines =>
      if vs_is_ready e then
        match directory_results (vs_name e) (vs_scan_directory e dir) results with
        | inl blocked => inl blocked
        | inr results => directory_engines engines dir results
        end
      else directory_engines engines dir results
  end.

Definition scan_directory (c : ScanChain) (dir : str) : ScanChainResult :=
  match sx_engines c with
  | [] => chain_clean
  | engines => finish_scan dir (directory_engines engines dir [])
  end.

(** ** Tool calls *)

Definition member_str (args : Value) (key : string) : option str := get_str (lit key) args.

(** A member that is a string with text in it. *)
Definition filled (args : Value) (key : string) : option str :=
  s ← member_str args key; if nonempty s then Some s else None.

Definition invocation_path (args : Value) : str :=
  default [] (or_else (json_get (lit "path") args) (json_get (lit "save_path") args) ≫= as_str).

Definition virus_at (r : ScanChainResult) (place : str) : str :=
  lit "virus detected by " ++ cr_engine r ++ lit ": " ++ place ++ lit " (virus: " ++ cr_virus r ++ lit ")".

(** A scan that blocks gives the error. *)
Definition blocked_error (r : ScanChainResult) (place : str) : option str :=
  if cr_blocked r then Some (virus_at r place) else None.

Definition file_error (c : ScanChain) (path : str) : option str :=
  if nonempty path then blocked_error (scan_file c path) path else None.

Definition content_error (c : ScanChain) (args : Value) (place : str) (key : string) : option str :=
  content ← filled args key; blocked_error (scan_content c (as_bytes content)) place.

Definition content_keys : list string := ["content"; "data"; "body"; "html"]%string.

Definition in_names (name : str) (l : list string) : bool := existsb (λ s, name =? lit s) l.

Definition scan_tool_invocation (c : ScanChain) (tool_name : str) (args : Value) : bool * option str :=
  if negb (sx_enabled c) || (engine_count c =? 0)%nat then (true, None)
  else
    let file_path := invocation_path args in
    if nonempty file_path && negb (should_scan_file (sx_rules c) file_path) then (true, None)
    else
      let error :=
        if in_names tool_name ["write_file"; "edit_file"; "append_file"]%string
        then content_error c args file_path "content"
        else if in_names tool_name ["download"; "exec"; "execute_command"; "shell"; "exec_async";
                                    "screen_capture"; "install_skill"]%string
        then file_error c file_path
        else if tool_name =? lit "web_fetch" then
          or_else (file_error c file_path)
            (first_some (content_error c args (lit "content from web_fetch")) content_keys)
        else if tool_name =? lit "cron" then content_error c args (lit "cron command") "command"
        else None in
      match error with
      | Some e => (false, Some e)
      | None => (true, None)
      end.

(** The words of a command that look like paths. *)
Definition path_words (command : str) : list str :=
  List.filter (λ w, contains_char c_slash w || contains_char c_backslash w || contains_char c_dot w)
    (split_whitespace command).

Definition keys_paths (args : Value) (keys : list string) : list str := omap (member_str args) keys.

Definition extract_paths_from_args (c : ScanChain) (tool_name : str) (args : Value) : list str :=
  if in_names tool_name ["file_write"; "file_edit"; "file_append"; "write_file"; "edit_file";
                         "append_file"]%string
  then keys_paths args ["path"; "file_path"]%string
  else if in_names tool_name ["download"; "network_download"; "screen_capture"]%string
  then keys_paths args ["save_path"; "path"]%string
  else if in_names tool_name ["exec"; "shell"; "exec_async"; "process_exec"; "execute_command"; "cron"]%string
  then default [] (path_words <$> member_str args "command")
  else if tool_name =? lit "install_skill" then keys_paths args ["path"]%string
  else [].

(** ** Configuration *)

Record ScannerEngineConfig := mkEngineConfig {
  se_name : str;
  se_engine_type : str;
  se_install_status : str;
}.

Record ScannerFullConfig := mkFullConfig {
  sf_enabled : list str;
  sf_engines : gmap str Value;
}.

(** Every installed entry becomes a stub. *)
Definition load_from_configs (c : ScanChain) (configs : list ScannerEngineConfig) : ScanChain :=
  foldl (λ c cfg, if se_install_status cfg =? lit "installed" then add_engine c stub_scanner else c)
    c configs.

(** [make_clamav] builds the ClamAV engine from its configuration. *)
Definition create_engine (make_clamav : Value → VirusScanner) (name : str) (config : Value)
    : result VirusScanner str :=
  if name =? lit "clamav" then Ok (make_clamav config)
  else if name =? lit "stub" then Ok stub_scanner
  else Err (lit "unknown scanner engine: " ++ name).

(** An entry with a status other than installed is left out; one without a status is
    taken. *)
Definition skipped_status (cfg : Value) : bool :=
  match json_get (lit "state") cfg ≫= get_str (lit "install_status") with
  | Some status => status <>? lit "installed"
  | None => false
  end.

Definition load_engine (make_clamav : Value → VirusScanner) (engines : gmap str Value) (c : ScanChain)
    (name : str) : ScanChain :=
  match engines !! name with
  | None => c
  | Some cfg =>
      match create_engine make_clamav name cfg with
      | Err _ => c
      | Ok e => if skipped_status cfg then c else add_engine c e
      end
  end.

Definition load_from_full_config (make_clamav : Value → VirusScanner) (c : ScanChain)
    (full : ScannerFullConfig) : ScanChain :=
  foldl (load_engine make_clamav (sf_engines full))
    (mkScanChain (sx_engines c) (sf_engines full) (sx_config c) (sx_rules c) (sx_enabled c))
    (sf_enabled full).

(** [from_value::<Vec<String>>]: an array of strings and nothing else. *)
Definition string_list (v : Value) : option (list str) := as_array v ≫= mapM as_str.

Definition extension_list (cfg : Value) (key : string) : list str :=
  default [] (json_get (lit key) cfg ≫= string_list).

(** The rules in the first configuration that has any, in the order of the map. *)
Definition get_extension_rules `{!HashOrder} (c : ScanChain) : ExtensionRules :=
  default rules_default
    (first_some (λ '(_, cfg),
       let scan := extension_list cfg "scan_extensions" in
       let skip := extension_list cfg "skip_extensions" in
       match scan, skip with
       | [], [] => None
       | _, _ => Some (mkExtRules scan skip)
       end) (hash_iter (sx_configs c))).
End Chain.

(** ** Lemmas *)

Section Facts.
Context `{JsonNumbers} {UC : Unicode} {PF : Platform}.

(** The first ready engine, with its place, whose answer is an infection. *)
Definition first_infected (run : VirusScanner → ScanResult) (engines : list VirusScanner)
    : option (nat * VirusScanner) :=
  find_idx (λ e, vs_is_ready e && sr_infected (run e)) engines.

(** The answers of the ready engines. *)
Definition ready_results (run : VirusScanner → ScanResult) (engines : list VirusScanner) : list ScanResult :=
  run <$> List.filter vs_is_ready engines.

Lemma scan_engines_from k engines run path results :
  scan_engines engines run path results =
  match find_idx_from (λ e, vs_is_ready e && sr_infected (run e)) k engines with
  | Some (i, e) => inl (chain_blocked (vs_name e) (sr_virus (run e)) path
                          (results ++ ready_results run (take (i - k) engines) ++ [run e]))
  | None => inr (results ++ ready_results run engines)
  end.
Proof.
  revert k results. induction engines as [|e engines IH]; intros k results; simpl; [by rewrite app_nil_r|].
  unfold ready_results in *. destruct (vs_is_ready e) eqn:Er; simpl.
  - destruct (sr_infected (run e)) eqn:Ei; [by rewrite Nat.sub_diag|].
    rewrite (IH (S k)). destruct (find_idx_from _ (S k) engines) as [[i e']|] eqn:E;
      rewrite <- app_assoc; [|by rewrite Er].
    apply find_idx_from_Some in E as (? & _). replace (i - k) with (S (i - S k)) by lia.
    cbn [take List.filter]. by rewrite Er.
  - rewrite (IH (S k)). destruct (find_idx_from _ (S k) engines) as [[i e']|] eqn:E; [|by rewrite Er].
    apply find_idx_from_Some in E as (? & _). replace (i - k) with (S (i - S k)) by lia.
    cbn [take List.filter]. by rewrite Er.
Qed.

Lemma scan_engines_spec engines run path :
  finish_scan path (scan_engines engines run path []) =
  match first_infected run engines with
  | Some (i, e) => chain_blocked (vs_name e) (sr_virus (run e)) path
                     (ready_results run (take i engines) ++ [run e])
  | None => mkChainResult true false [] [] path (ready_results run engines)
  end.
Proof.
  rewrite (scan_engines_from 0). unfold first_infected, find_idx.
  destruct (find_idx_from _ 0 engines) as [[i e]|]; simpl; [by rewrite Nat.sub_0_r|done].
Qed.

Lemma before_clean run engines i e :
  first_infected run engines = Some (i, e) →
  Forall (λ r, sr_infected r = false) (ready_results run (take i engines)).
Proof.
  intros (_ & Hl & _ & Hb)%find_idx_from_Some. apply Forall_fmap, Forall_forall.
  intros x Hx. apply elem_of_filter_bool in Hx as [Hx Hr]. apply list_elem_of_lookup in Hx as [j Hj].
  apply lookup_take_Some in Hj as [Hj Hlt]. specialize (Hb j x Hlt Hj). by rewrite Hr in Hb.
Qed.

Lemma blocked_iff run engines path :
  cr_blocked (finish_scan path (scan_engines engines run path [])) = true ↔
  ∃ e, e ∈ engines ∧ vs_is_ready e = true ∧ sr_infected (run e) = true.
Proof.
  rewrite scan_engines_spec. split.
  - destruct (first_infected run engines) as [[i e]|] eqn:E; [|done]. intros _.
    apply find_idx_Some in E as [Hl [Hr Hi]%andb_true_iff]. eauto using list_elem_of_lookup_2.
  - intros (e & He & Hr & Hi).
    destruct (find_idx_is_Some (λ e, vs_is_ready e && sr_infected (run e)) engines e He) as [[i e'] E].
    { by rewrite Hr, Hi. }
    unfold first_infected. by rewrite E.
Qed.

Lemma content_blocked_iff c content :
  cr_blocked (scan_content c content) = true ↔
  ∃ e, e ∈ sx_engines c ∧ vs_is_ready e = true ∧ sr_infected (vs_scan_content e content) = true.
Proof.
  rewrite <- (blocked_iff (λ e, vs_scan_content e content) _ []). unfold scan_content.
  destruct (sx_engines c); [|done]. by split.
Qed.

Lemma file_blocked_iff c path :
  cr_blocked (scan_file c path) = true ↔
  should_scan_file (sx_rules c) path = true ∧
  ∃ e, e ∈ sx_engines c ∧ vs_is_ready e = true ∧ sr_infected (vs_scan_file e path) = true.
Proof.
  rewrite <- (blocked_iff (λ e, vs_scan_file e path) _ path). unfold scan_file.
  destruct (sx_engines c) as [|e es]; [by split; [|intros [_ ?]]|].
  destruct (should_scan_file (sx_rules c) path); split; naive_solver.
Qed.

(** The ways a chain comes about in the program. *)
Inductive chain_reachable : ScanChain → Prop :=
| reach_new cfg : chain_reachable (scan_chain_new cfg)
| reach_add c e : chain_reachable c → chain_reachable (add_engine c e)
| reach_enable c b : chain_reachable c → chain_reachable (set_enabled c b)
| reach_clear c : chain_reachable c → chain_reachable (clear_engines c)
| reach_configs c l : chain_reachable c → chain_reachable (load_from_configs c l)
| reach_full mk c full : chain_reachable c → chain_reachable (load_from_full_config mk c full).

Lemma load_engine_rules mk engines names c :
  sx_rules (foldl (load_engine mk engines) c names) = sx_rules c.
Proof.
  revert c. induction names as [|n names IH]; intros c; simpl; [done|]. rewrite IH.
  unfold load_engine. by repeat case_match.
Qed.

Lemma load_configs_rules l c : sx_rules (load_from_configs c l) = sx_rules c.
Proof.
  unfold load_from_configs. revert c. induction l as [|cfg l IH]; intros c; simpl; [done|].
  rewrite IH. by case_match.
Qed.

Lemma reachable_rules c : chain_reachable c → sx_rules c = rules_default.
Proof.
  induction 1; try done; [by rewrite load_configs_rules|].
  unfold load_from_full_config. by rewrite load_engine_rules.
Qed.
End Facts.

(** ** Properties *)

Section Properties.
Context `{JsonNumbers} {UC : Unicode} {PF : Platform}.

(** Also: what blocks a file.  A file is blocked exactly when the extension rules admit it
    and some ready engine calls it infected; the answer names the first such engine and
    its virus, after the answers of the ready engines before it, all of them clean. *)
Theorem scan_file_exact c path :
  (cr_blocked (scan_file c path) = true ↔
     should_scan_file (sx_rules c) path = true ∧
     ∃ e, e ∈ sx_engines c ∧ vs_is_ready e = true ∧ sr_infected (vs_scan_file e path) = true) ∧
  (cr_blocked (scan_file c path) = true →
     ∃ i e, first_infected (λ e, vs_scan_file e path) (sx_engines c) = Some (i, e) ∧
       let before := ready_results (λ e, vs_scan_file e path) (take i (sx_engines c)) in
       scan_file c path = chain_blocked (vs_name e) (sr_virus (vs_scan_file e path)) path
                            (before ++ [vs_scan_file e path]) ∧
       Forall (λ r, sr_infected r = false) before).
Proof.
  split; [apply file_blocked_iff|]. unfold scan_file.
  destruct (sx_engines c) as [|e0 es]; [done|]. destruct (should_scan_file (sx_rules c) path); [|done].
  rewrite scan_engines_spec. destruct (first_infected _ _) as [[i e]|] eqn:E; [|done]. intros _.
  exists i, e. split_and!; [done..|]. by eapply before_clean.
Qed.

(** Observed: the extension rules of the configuration are not used.  However a chain is
    built and loaded, the rules it consults are the empty ones, which admit every file,
    whatever [get_extension_rules] reads from the configurations. *)
Theorem extension_rules_unused `{!HashOrder} c path :
  chain_reachable c → should_scan_file (sx_rules c) path = true.
Proof. by intros ->%reachable_rules. Qed.
End Properties.

(** ** Runs *)

Section Runs.
#[local] Existing Instances unit_numbers ascii_unicode.
#[local] Instance unix : Platform := {| cfg_windows := false |}.

(** An engine that finds a virus in every file. *)
Definition alarm : VirusScanner :=
  mkEngine (lit "alarm") (Ok tt) true (with_threats (lit "alarm") (lit "eicar"))
    (λ _, clean_from (lit "alarm")) (λ _, []).

Definition demo_full : ScannerFullConfig :=
  mkFullConfig [lit "stub"]
    {[lit "stub" := VObject [(lit "skip_extensions", VArray [VString (lit "TXT")])]]}.

Definition demo_chain : ScanChain := load_from_full_config (λ _, alarm) (scan_chain_new scan_config_default) demo_full.

Example extensions :
  path_extension (lit "a/b.tar.GZ/") = Some (lit "GZ") ∧ path_extension (lit ".bashrc") = None ∧
  path_extension (lit "a/..") = None ∧ path_extension (lit "x.") = Some [].
Proof. by vm_compute. Qed.

Lemma extension_rules_unused_witness :
  should_scan_file (@get_extension_rules _ map_order demo_chain) (lit "notes.txt") = false ∧
  should_scan_file (sx_rules demo_chain) (lit "notes.txt") = true.
Proof.
  split; [by vm_compute|]. apply (@extension_rules_unused _ _ _ map_order). do 2 constructor.
Defined.

Example first_named :
  let c := add_engine (add_engine demo_chain alarm) stub_scanner in
  cr_engine (scan_file c (lit "x.exe")) = lit "alarm" ∧ length (cr_results (scan_file c (lit "x.exe"))) = 2.
Proof. by vm_compute. Qed.
End Runs.
