(* ===== verification/Classifier.v ===== *)
(** * The heuristic injection classifier (nemesis-security/src/classifier.rs)

    Five factors between 0 and 1 (keywords, entropy, structure, repetition,
    instructions) and their weighted sum, in floating point (F64).  The texts that
    describe a factor are part of the result.  [{:?}] of a string is opaque. *)
From Stdlib Require Import QArith Lqa.
From S2P Require Import Prelude RustStr F64.
Local Open Scope nb_scope.
Local Open Scope Q_scope.

(** [{:?}] of a [String]. *)
Class DebugStr := { debug_str : str → str }.

(** ** Data *)

Record ScoreFactor := mkFactor {
  sf_name : str;
  sf_value : Q;
  sf_desc : str;
}.

Record ClassificationResult := mkClass {
  cl_score : Q;
  cl_level : str;
  cl_factors : list ScoreFactor;
}.

(** The default keywords with their weights in hundredths. *)
Definition keyword_table : list (string * Z) := [
  ("ignore", 15); ("previous", 10); ("instructions", 12);
  ("disregard", 14); ("override", 15); ("bypass", 14);
  ("restrictions", 12); ("safety", 8); ("constraints", 10);
  ("forget", 12); ("jailbreak", 18); ("unrestricted", 14);
  ("uncensored", 15); ("unfiltered", 13); ("pretend", 12);
  ("roleplay", 10); ("simulate", 8); ("persona", 10);
  ("character", 6); ("impersonate", 13); ("act", 5);
  ("imagine", 6); ("prompt", 10); ("system", 6);
  ("reveal", 12); ("confidential", 10); ("secret", 10);
  ("hidden", 8); ("internal", 7); ("private", 8);
  ("config", 6); ("dump", 10); ("expose", 12); ("exec", 10);
  ("eval", 10); ("script", 7); ("inject", 12); ("payload", 12);
  ("exploit", 13); ("vulnerability", 8); ("root", 8);
  ("admin", 7); ("privilege", 9); ("escalation", 10);
  ("base64", 10); ("encode", 6); ("decode", 6);
  ("obfuscate", 12); ("encrypt", 5); ("cipher", 7)
]%string%Z.

(** ** Words and characters *)

Section Words.
Context {UC : Unicode}.

Definition tokenize (s : str) : list str :=
  List.filter nonempty
    ((λ w, to_lowercase (trim_matches (λ c, is_ascii_punctuation c || negb (is_ascii_char c)) w))
     <$> split_whitespace s).
End Words.

Definition in_range (lo hi c : N) : bool := ((lo <=? c) && (c <=? hi))%N.

Definition script_category (c : char) : str :=
  if is_ascii_char c then lit "latin"
  else if in_range 0x4E00 0x9FFF c then lit "cjk"
  else if in_range 0x0400 0x04FF c then lit "cyrillic"
  else if in_range 0x0600 0x06FF c then lit "arabic"
  else if in_range 0xAC00 0xD7AF c then lit "hangul"
  else if in_range 0x0900 0x097F c then lit "devanagari"
  else if in_range 0x0590 0x05FF c then lit "hebrew"
  else if in_range 0x0370 0x03FF c then lit "greek"
  else if in_range 0x0E00 0x0E7F c then lit "thai"
  else [].

Definition count (p : char → bool) (s : str) : nat := length (List.filter p s).

(** [iter().max_by_key]: the last of the largest. *)
Definition max_by_key {A} (f : A → nat) (l : list A) : option A :=
  foldl (λ best x, match best with
                   | Some b => if (f b <=? f x)%nat then Some x else Some b
                   | None => Some x
                   end) None l.

Definition bigrams (s : str) : list str := zip_with (λ a b, [a; b]) s (tail s).

Definition imperative_starters : list str := lit <$>
  ["do "; "don't "; "never "; "always "; "must "; "should "; "shall "; "ensure "; "make sure ";
   "remember "; "note "; "important "; "warning "; "caution "; "requirement "; "rule ";
   "policy "]%string.

Definition is_numbered_line (s : str) : bool :=
  match s with
  | [] => false
  | c :: _ => is_ascii_digit c
              || existsb (λ p, starts_with (lit p) s)
                   ["step "; "phase "; "stage "; "part "; "rule "; "#"]%string
  end.

(** ** Factors *)

Section Factors.
Context {UC : Unicode} {FL : Float} {DS : DebugStr} `{HashOrder}.

Definition round_score (score : Q) : Q := fdiv (fround (fmul score 1000)) 1000.

Definition default_keywords : list (str * Q) := (λ kw, (lit (fst kw), f100 (snd kw))) <$> keyword_table.

(** One word of the loop of [keyword_density]. *)
Definition add_keyword (keywords : list (str * Q)) (acc : Q * nat) (w : str) : Q * nat :=
  match List.find (λ kw, fst kw =? w) keywords with
  | Some (_, weight) => (fadd (fst acc) weight, S (snd acc))
  | None => acc
  end.

Definition ratio_text (a : nat) (sep : str) (b : nat) : str := show_nat a ++ sep ++ show_nat b.

Definition keyword_density (keywords : list (str * Q)) (input : str) : Q * str :=
  let words := tokenize (to_lowercase input) in
  match words with
  | [] => (0, lit "no tokens")
  | _ =>
      let '(total_weight, matched) := foldl (add_keyword keywords) (0, 0%nat) words in
      let density := fdiv total_weight (of_usize (length words)) in
      (round_score (fmin (fmul density 5) 1),
       ratio_text matched (lit "/") (length words) ++ lit " keywords matched")
  end.

(** The share of a character in the input: its count over the length in bytes. *)
Definition char_share (input : str) (n : nat) : Q := fdiv (of_usize n) (of_usize (byte_len input)).

Definition entropy (input : str) : Q :=
  foldl (λ entropy n,
    let p := char_share input n in
    if flt 0 p then fsub entropy (fmul p (flog2 p)) else entropy)
    0 (snd <$> hash_iter (count_entries input)).

Definition entropy_score (input : str) : Q * str :=
  match input with
  | [] => (0, lit "empty input")
  | _ =>
      let entropy := entropy input in
      let max_entropy := flog2 (of_usize (size (count_entries input))) in
      if Qeq_bool max_entropy 0 then (0, lit "single character")
      else
        let normalised := fdiv entropy max_entropy in
        let score := if flt (f100 95) normalised then f100 60
                     else if flt normalised (f100 30) then f100 50
                     else if flt (f100 85) normalised then f100 30
                     else 0 in
        (round_score score,
         lit "entropy=" ++ fmt2 entropy ++ lit " bits (normalised=" ++ fmt2 normalised ++ lit ")")
  end.

Definition unusual_quotes : list char := [0x2018; 0x2019; 0x201C; 0x201D; c_backtick; 0x00B4]%N.

Definition structural_score (input : str) : Q * str :=
  match input with
  | [] => (0, lit "empty input")
  | _ =>
      let total := of_usize (length input) in
      let control_chars := count (λ c, is_control c && negb (N.eqb c c_nl) && negb (N.eqb c c_cr)
                                       && negb (N.eqb c 9)) input in
      let punctuation := count is_ascii_punctuation input in
      let scripts := List.filter nonempty (script_category <$> input) in
      let mixed_scripts := (2 <? size (count_entries scripts))%nat in
      let has_unusual_quote := existsb (λ c, bool_decide (c ∈ unusual_quotes)) input in
      let ctrl_ratio := fdiv (of_usize control_chars) total in
      let '(score, indicators) :=
        if flt (f100 5) ctrl_ratio then (fadd 0 (f100 40), [lit "control_chars"])
        else if flt (f100 1) ctrl_ratio then (fadd 0 (f100 20), [lit "control_chars_low"])
        else (0, []) in
      let '(score, indicators) :=
        if mixed_scripts then (fadd score (f100 30), indicators ++ [lit "mixed_scripts"])
        else (score, indicators) in
      let punct_ratio := fdiv (of_usize punctuation) total in
      let '(score, indicators) :=
        if flt (f100 30) punct_ratio then (fadd score (f100 20), indicators ++ [lit "excessive_punct"])
        else (score, indicators) in
      let '(score, indicators) :=
        if has_unusual_quote then (fadd score (f100 10), indicators ++ [lit "unusual_quotes"])
        else (score, indicators) in
      let score := fmin score 1 in
      (round_score score,
       match indicators with
       | [] => lit "none"
       | _ => join (lit ", ") indicators
       end)
  end.

Definition repetition_score (input : str) : Q * str :=
  if (byte_len input <? 4)%nat then (0, lit "input too short")
  else
    let lower := to_lowercase input in
    let words := tokenize lower in
    if (length words <? 2)%nat then (0, lit "insufficient tokens")
    else
      let '(most_common, max_freq) :=
        default ([], 0%nat) (max_by_key snd (hash_iter (count_entries words))) in
      let word_rep_ratio := fdiv (of_usize max_freq) (of_usize (length words)) in
      let bigram_freq := count_entries (bigrams lower) in
      let max_bigram := max_list (snd <$> hash_iter bigram_freq) in
      let bigram_rep_ratio := if (size bigram_freq =? 0)%nat then 0
                              else fdiv (of_usize max_bigram) (of_usize (size bigram_freq)) in
      let score := if flt (f100 60) word_rep_ratio then f100 80
                   else if flt (f100 40) word_rep_ratio then f100 50
                   else if flt (f100 30) word_rep_ratio then f100 30
                   else 0 in
      let score := if flt (f100 30) bigram_rep_ratio then fadd score (f100 20) else score in
      let score := fmin score 1 in
      match most_common with
      | [] => (round_score score, lit "no repetition")
      | _ => (round_score score,
              lit "most common word " ++ debug_str most_common ++ lit " appears "
              ++ ratio_text max_freq (lit "/") (length words) ++ lit " times")
      end.

Definition instruction_structure_score (input : str) : Q * str :=
  match input with
  | [] => (0, lit "empty input")
  | _ =>
      let content := to_lowercase <$> List.filter nonempty (trim <$> lines input) in
      let total_lines := length content in
      let imperative_lines :=
        length (List.filter (λ l, existsb (λ st, starts_with st l) imperative_starters) content) in
      let numbered_lines := length (List.filter is_numbered_line content) in
      if (total_lines =? 0)%nat then (0, lit "no content lines")
      else
        let imperative_ratio := fdiv (of_usize imperative_lines) (of_usize total_lines) in
        let numbered_ratio := fdiv (of_usize numbered_lines) (of_usize total_lines) in
        let score := if flt (f100 40) imperative_ratio then fadd 0 (f100 40)
                     else if flt (f100 20) imperative_ratio then fadd 0 (f100 20) else 0 in
        let score := if flt (f100 40) numbered_ratio then fadd score (f100 30)
                     else if flt (f100 20) numbered_ratio then fadd score (f100 15) else score in
        let score := if flt (f100 20) imperative_ratio && flt (f100 20) numbered_ratio
                     then fadd score (f100 20) else score in
        let score := fmin score 1 in
        (round_score score,
         lit "imperative=" ++ ratio_text imperative_lines (lit "/") total_lines
         ++ lit " numbered=" ++ ratio_text numbered_lines (lit "/") total_lines)
  end.

(** ** The classifier *)

Definition factors_of (keywords : list (str * Q)) (input : str) : list ScoreFactor :=
  let factor (name : string) (r : Q * str) := mkFactor (lit name) (fst r) (snd r) in
  [factor "keyword_density" (keyword_density keywords input);
   factor "entropy" (entropy_score input);
   factor "structural" (structural_score input);
   factor "repetition" (repetition_score input);
   factor "instruction_structure" (instruction_structure_score input)]%string.

Definition total_score (kw ent str_ rep instr : Q) : Q :=
  fmin (fadd (fadd (fadd (fadd (fmul (f100 30) kw) (fmul (f100 15) ent)) (fmul (f100 20) str_))
          (fmul (f100 15) rep)) (fmul (f100 20) instr)) 1.

Definition class_level (total : Q) : str :=
  if fle (f100 70) total then lit "malicious"
  else if fle (f100 40) total then lit "suspicious"
  else lit "clean".

Definition classify (keywords : list (str * Q)) (input : str) : ClassificationResult :=
  let total := total_score (fst (keyword_density keywords input)) (fst (entropy_score input))
                 (fst (structural_score input)) (fst (repetition_score input))
                 (fst (instruction_structure_score input)) in
  mkClass (round_score total) (class_level total) (factors_of keywords input).

(** ** Lemmas *)

Definition unit_range (x : Q) : Prop := 0 <= x ∧ x <= 1.

Lemma round_score_unit x : unit_range x → unit_range (round_score x).
Proof.
  intros [H0 H1]. unfold round_score.
  assert (0 <= fmul x 1000 ∧ fmul x 1000 <= inject_Z 1000) as [Hm0 Hm1].
  { split; [apply fmul_nonneg; [done|lra]|]. unfold fmul. rewrite <- (rnd_int 1000) by lia.
    apply rnd_mono. unfold inject_Z. lra. }
  destruct (fround_bounds _ 1000 Hm0 Hm1) as [Hr0 Hr1]. split.
  - apply fdiv_nonneg; [done|lra].
  - apply rnd_le_1, Qle_shift_div_r; [lra|]. unfold inject_Z in Hr1. lra.
Qed.

Lemma round_score_0 : unit_range (round_score 0).
Proof. apply round_score_unit. split; lra. Qed.

Lemma f100_unit n : (0 <= n <= 100)%Z → unit_range (f100 n).
Proof. intros Hn. split; [apply f100_nonneg; lia|]. apply rnd_le_1. unfold Qle. simpl. lia. Qed.

Lemma fmin_unit x : 0 <= x → unit_range (fmin x 1).
Proof. intros H0. split; [apply fmin_nonneg; [done|lra]|apply fmin_le_r]. Qed.

Lemma unit_0 : unit_range 0.
Proof. split; lra. Qed.
End Factors.

#[export] Hint Resolve round_score_unit f100_unit fmin_unit unit_0 : nb.
#[export] Hint Extern 1 (0 <= _ <= 100)%Z => lia : nb.
#[export] Hint Extern 1 (0 <= _)%Z => lia : nb.
#[export] Hint Extern 1 (0 <= _)%Q => lra : nb.

Section Bounds.
Context {UC : Unicode} {FL : Float} {DS : DebugStr} `{HashOrder}.

(** Case analysis on the tests of a factor. *)
Ltac score_cases := repeat first [case_match | progress simplify_eq/=].

Lemma keyword_density_unit keywords input :
  Forall (λ kw, 0 <= snd kw) keywords → unit_range (fst (keyword_density keywords input)).
Proof.
  intros Hk. unfold keyword_density. destruct (tokenize (to_lowercase input)) as [|w ws]; [apply unit_0|].
  assert (∀ l acc, 0 <= fst acc → 0 <= fst (foldl (add_keyword keywords) acc l)) as Hl.
  { induction l as [|x l IH]; intros acc Ha; [done|]. apply IH. unfold add_keyword.
    destruct (List.find _ keywords) as [[k weight]|] eqn:E; [|done].
    apply find_some in E as [Hin%list_elem_of_In _]. rewrite Forall_forall in Hk.
    apply fadd_nonneg; [done|]. apply (Hk _ Hin). }
  specialize (Hl (w :: ws) (0, 0%nat) ltac:(simpl; lra)).
  destruct (foldl (add_keyword keywords) (0, 0%nat) (w :: ws)) as [t m]. simpl in *.
  auto 8 with nb.
Qed.

Lemma entropy_score_unit input : unit_range (fst (entropy_score input)).
Proof. unfold entropy_score. score_cases; auto with nb. Qed.

Lemma structural_score_unit input : unit_range (fst (structural_score input)).
Proof. unfold structural_score. score_cases; auto 10 with nb. Qed.

Lemma repetition_score_unit input : unit_range (fst (repetition_score input)).
Proof. unfold repetition_score. score_cases; auto 10 with nb. Qed.

Lemma instruction_structure_score_unit input : unit_range (fst (instruction_structure_score input)).
Proof. unfold instruction_structure_score. score_cases; auto 10 with nb. Qed.

Lemma default_keywords_nonneg : Forall (λ kw, 0 <= snd kw) default_keywords.
Proof.
  unfold default_keywords. apply Forall_fmap, Forall_forall. intros [k n] Hin. simpl.
  assert (Forall (λ kw : string * Z, (0 <= snd kw)%Z) keyword_table) as Hall
    by (apply (bool_decide_unpack _); vm_compute; exact I).
  rewrite Forall_forall in Hall. apply f100_nonneg, (Hall _ Hin).
Qed.

Lemma total_score_unit a b c d e :
  0 <= a → 0 <= b → 0 <= c → 0 <= d → 0 <= e → unit_range (total_score a b c d e).
Proof. intros. unfold total_score. auto 10 with nb. Qed.

Lemma classify_unit input : unit_range (cl_score (classify default_keywords input)).
Proof.
  unfold classify. cbn [cl_score]. apply round_score_unit, total_score_unit.
  - apply keyword_density_unit, default_keywords_nonneg.
  - apply entropy_score_unit.
  - apply structural_score_unit.
  - apply repetition_score_unit.
  - apply instruction_structure_score_unit.
Qed.
End Bounds.

(** ** Properties *)

(** Also: the classifier answers between 0 and 1, from five factors that lie between
    0 and 1, whatever the input and however the additions round. *)
Theorem classify_bounds `{!Unicode, !Float, !DebugStr, !HashOrder} input :
  let r := classify default_keywords input in
  unit_range (cl_score r) ∧ length (cl_factors r) = 5%nat ∧
  Forall (λ f, unit_range (sf_value f)) (cl_factors r).
Proof.
  split; [apply classify_unit|]. split; [done|].
  unfold classify, factors_of. cbn [cl_factors]. rewrite !Forall_cons. cbn [sf_value].
  split_and!; [apply keyword_density_unit, default_keywords_nonneg|apply entropy_score_unit
    |apply structural_score_unit|apply repetition_score_unit|apply instruction_structure_score_unit|done].
Qed.

Local Open Scope nat_scope.

Lemma sum_counts {K} `{Countable K} (l : list K) :
  sum_list (snd <$> map_to_list (count_entries l)) = length l.
Proof.
  assert (∀ m : gmap K nat, ∀ k,
    sum_list (snd <$> map_to_list (<[k := S (default 0 (m !! k))]> m))
    = S (sum_list (snd <$> map_to_list m))) as Hi.
  { intros m k. rewrite <- (insert_delete_eq m k), map_to_list_insert by apply lookup_delete_eq.
    destruct (m !! k) as [n|] eqn:E; cbn.
    - rewrite <- (map_to_list_delete m k n E). done.
    - by rewrite delete_id. }
  unfold count_entries.
  assert (∀ m : gmap K nat,
    sum_list (snd <$> map_to_list (foldl (λ m k, <[k:=S (default 0 (m !! k))]> m) m l))
    = length l + sum_list (snd <$> map_to_list m)) as Hl.
  { induction l as [|k l IH]; intros m; [done|]. cbn [foldl length]. rewrite IH, Hi. lia. }
  rewrite Hl, map_to_list_empty. cbn. lia.
Qed.

Lemma len_utf8_cases c : is_ascii_char c = true ∧ len_utf8 c = 1 ∨ is_ascii_char c = false ∧ 2 ≤ len_utf8 c.
Proof. unfold len_utf8, is_ascii_char. repeat case_match; auto with lia. Qed.

Lemma byte_len_ascii (s : str) : length s ≤ byte_len s ∧ (is_ascii s = false → length s < byte_len s).
Proof.
  unfold byte_len, is_ascii. induction s as [|c s [IH1 IH2]]; [done|]. cbn.
  destruct (len_utf8_cases c) as [[-> ->]|[-> ?]]; cbn; split; try lia. intros Hs%IH2. lia.
Qed.

(** Observed: the entropy counts characters and divides by bytes: the counts add up
    to the number of characters, so the shares of an input that is not ASCII add up
    to less than one. *)
Theorem entropy_shares_short `{!HashOrder} input :
  is_ascii input = false →
  sum_list (snd <$> hash_iter (count_entries input)) = length input ∧ length input < byte_len input ∧
  ∀ `{!Float} n, char_share input n = fdiv (of_usize n) (of_usize (byte_len input)).
Proof.
  intros Ha. split; [|split; [by apply byte_len_ascii|done]].
  rewrite <- (sum_counts input).
  generalize (hash_iter_perm (count_entries input)). generalize (hash_iter (count_entries input)).
  generalize (map_to_list (count_entries input)). intros l l' Hp. by rewrite Hp.
Qed.

Lemma entropy_shares_short_witness `{!HashOrder} :
  is_ascii (ulit "é") = false ∧
  sum_list (snd <$> hash_iter (count_entries (ulit "é"))) = length (ulit "é") ∧
  length (ulit "é") < byte_len (ulit "é") ∧
  ∀ `{!Float} n, char_share (ulit "é") n = fdiv (of_usize n) (of_usize (byte_len (ulit "é"))).
Proof. split; [reflexivity|]. apply entropy_shares_short. reflexivity. Defined.
