(* ===== verification/Injection.v ===== *)
(** * Injection detection, layer 1 (nemesis-security/src/injection.rs)

    A table of weighted regular expressions; the weights of those that match are
    added, squashed into [0, 1) and combined with the score of the classifier.  The
    regex crate is the class [RegexFind]; a compiled expression is its source.
    [combine_scores], which nothing calls, is left out. *)
From Stdlib Require Import QArith Lqa.
From S2P Require Import Prelude RustStr Json Regex F64 Classifier.
Local Open Scope nb_scope.
Local Open Scope Q_scope.

(** ** Data *)

Inductive InjectionCategory := Jailbreak | RoleEscape | DataExtraction | CommandInjection | Encoding.

Definition category_str (c : InjectionCategory) : str :=
  lit match c with
      | Jailbreak => "jailbreak"
      | RoleEscape => "role_escape"
      | DataExtraction => "data_extraction"
      | CommandInjection => "command_injection"
      | Encoding => "encoding"
      end.

Record InjectionConfig := mkInjConfig {
  ij_enabled : bool;
  ij_threshold : Q;
  ij_max_input_length : N;
  ij_strict_mode : bool;
}.

Record InjectionResult := mkInjResult {
  ir_is_injection : bool;
  ir_score : Q;
  ir_level : str;
  ir_matched_patterns : list str;
}.

Record PatternMatch := mkPatternMatch {
  pm_pattern_name : str;
  pm_category : str;
  pm_matched_text : str;
  pm_weight : Q;
  pm_position : nat;
}.

Record AnalysisResult := mkAnalysis {
  an_is_injection : bool;
  an_score : Q;
  an_level : str;
  an_matched_patterns : list PatternMatch;
  an_recommendation : str;
  an_summary : str;
  an_strict_violations : list str;
}.

(** A compiled pattern of [with_patterns]: its expression and its name. *)
Record CompiledPattern := mkCompiled {
  cp_name : str;
  cp_regex : str;
  cp_category : InjectionCategory;
  cp_weight : Q;
}.

Record Detector := mkDetector {
  dt_config : InjectionConfig;
  dt_custom_patterns : option (list CompiledPattern);
  dt_keywords : list (str * Q);
}.

(** The table of [get_injection_patterns] and of [default_patterns], the weights in
    hundredths. *)
Definition pattern_table : list (InjectionCategory * string * Z) := [
  (Jailbreak, "(?i)ignore\s+(all\s+)?previous\s+instructions", 80);
  (Jailbreak, "(?i)forget\s+(all\s+)?previous", 80);
  (Jailbreak, "(?i)you\s+are\s+now\s+(DAN|jailbroken|unlocked)", 90);
  (Jailbreak, "(?i)bypass\s+(your|the)\s+(safety|security|filter)", 90);
  (Jailbreak, "(?i)pretend\s+you\s+(are|have)\s+no\s+(rules|restrictions)", 80);
  (Jailbreak, "(?i)disregard\s+(all\s+)?(your|the)\s+(rules|guidelines)", 80);
  (Jailbreak, "(?i)you\s+are\s+(no\s+longer|not)\s+(bound|limited)\s+by", 70);
  (Jailbreak, "(?i)enable\s+(developer|god|admin)\s+mode", 90);
  (Jailbreak, "(?i)jailbreak\s+(the\s+)?(bot|ai|model|system)", 90);
  (Jailbreak, "(?i)switch\s+to\s+(unrestricted|unfiltered)\s+mode", 80);
  (Jailbreak, "(?i)override\s+(safety|security|content)\s+(filter|policy|guidelines)", 90);
  (Jailbreak, "(?i)do\s+anything\s+now\b", 80);
  (Jailbreak, "(?i) bypass\s+openai\s+", 80);
  (Jailbreak, "(?i) no\s+restrictions\s+mode", 70);
  (Jailbreak, "(?i)answer\s+without\s+(any\s+)?(restriction|limit|filter)", 70);
  (RoleEscape, "(?i)system\s*:\s*", 70);
  (RoleEscape, "(?i)\[system\]", 60);
  (RoleEscape, "(?i)<\|im_start\|>", 90);
  (RoleEscape, "(?i)act\s+as\s+(if\s+you\s+(are|were)|an?\s+(unrestricted|admin))", 70);
  (RoleEscape, "(?i)you\s+are\s+(not|no\s+longer)\s+an?\s+(AI|assistant|bot)", 80);
  (RoleEscape, "(?i)new\s+instructions?\s*:", 70);
  (RoleEscape, "(?i)from\s+now\s+on[,.]?\s+you\s+(will|are|shall)", 60);
  (RoleEscape, "(?i)<\|endoftext\|>", 90);
  (RoleEscape, "(?i)\[INST\]", 70);
  (RoleEscape, "(?i)###\s*system", 60);
  (RoleEscape, "(?i)role\s*:\s*(system|admin|root|superuser)", 80);
  (RoleEscape, "(?i)ignore\s+role\s*(?:restrictions|assignment)", 70);
  (DataExtraction, "(?i)reveal\s+(your|the)\s+(system\s+)?prompt", 80);
  (DataExtraction, "(?i)show\s+me\s+(your|the)\s+(original|initial)\s+(instructions|prompt)", 80);
  (DataExtraction, "(?i)what\s+(are|were)\s+your\s+original\s+instructions", 70);
  (DataExtraction, "(?i)print\s+(your|the)\s+(system|initial|hidden)\s+prompt", 80);
  (DataExtraction, "(?i)repeat\s+(?:the\s+)?(?:words|text)\s+above", 60);
  (DataExtraction, "(?i)(?:output|display|echo|print)\s+(?:your|the)\s+(?:initial|original|hidden)\s+(?:instructions|prompt)", 80);
  (DataExtraction, "(?i)what\s+is\s+your\s+(system|hidden|secret)\s+prompt", 80);
  (DataExtraction, "(?i)(?:dump|export|extract)\s+(?:your|the)\s+(?:system|config|prompt)", 70);
  (DataExtraction, "(?i)(?:tell|inform)\s+me\s+(?:about|of)\s+your\s+(?:training|rules|constraints)", 60);
  (DataExtraction, "(?i)copy\s+(?:all|the)\s+(?:text|instructions)\s+(?:above|before)", 60);
  (CommandInjection, "(?i);\s*(rm|del|format|shutdown|reboot)", 90);
  (CommandInjection, "(?i)\|\s*(sh|bash|powershell|cmd)", 80);
  (CommandInjection, "(?i)`[^`]*`", 50);
  (CommandInjection, "(?i)\$\([^)]*\)", 60);
  (CommandInjection, "(?i)\\x[0-9a-f]{2}", 50);
  (CommandInjection, "(?i)\\u[0-9a-f]{4}", 40);
  (CommandInjection, "(?i)\\x[0-9a-f]{2}\\x[0-9a-f]{2}", 60);
  (CommandInjection, "(?i)%[0-9a-f]{2}%[0-9a-f]{2}", 50);
  (CommandInjection, "(?i)<script[^>]*>", 70);
  (CommandInjection, "(?i)javascript\s*:", 70);
  (CommandInjection, "(?i)on(error|load|click|mouseover)\s*=", 60);
  (CommandInjection, "(?i)data\s*:\s*text/html", 50);
  (CommandInjection, "(?i)(?:curl|wget)\s+.*\|\s*(?:sh|bash|python|perl)", 90);
  (CommandInjection, "(?i);\s*(drop|alter|truncate|delete\s+from)\s+(table|database|index)", 95);
  (CommandInjection, "\$\{jndi:(ldap|rmi|dns|nds|corba|iiop):", 95);
  (CommandInjection, "(?i)<!entity\s+", 88);
  (CommandInjection, "\{\{.*?\.(class|mro|subclasses|bases|init|globals)\b", 90);
  (CommandInjection, "\)\s*\(\s*\|\s*\(", 78);
  (CommandInjection, "\\x00|%00|\\0", 80);
  (CommandInjection, "\.\./\.\./", 88);
  (CommandInjection, "%s%s%s%s%s|%n%n%n%n", 82);
  (CommandInjection, "\{\{constructor", 88);
  (CommandInjection, "\$\{env[\s:]", 85)
]%string%Z.

(** ** Text of the arguments *)

Section Text.
Context `{JsonNumbers}.

(** Strings joined by blanks, in the order of the keys; other values give nothing. *)
Fixpoint extract_all_text (v : Value) : str :=
  match v with
  | VString s => s
  | VObject o => join [c_space] (map (λ m, extract_all_text (snd m)) o)
  | VArray a => join [c_space] (map extract_all_text a)
  | _ => []
  end.
End Text.

(** ** The detector *)

Definition high_risk_tools : list string :=
  ["exec"; "shell_exec"; "process_exec"; "write_file"; "file_write"; "file_edit"; "file_append";
   "shell"; "download"; "http_request"]%string.

Definition is_high_risk_tool (tool_name : str) : bool := existsb (λ t, tool_name =? lit t) high_risk_tools.

Section Detector.
Context {UC : Unicode} {FL : Float} {DS : DebugStr} `{HashOrder} `{RegexFind} `{JsonNumbers}.

Definition default_config : InjectionConfig := mkInjConfig true (f100 70) 100000 false.

Definition default_patterns : list (InjectionCategory * str * Q) :=
  (λ e : InjectionCategory * string * Z, (fst (fst e), lit (snd (fst e)), f100 (snd e))) <$> pattern_table.

(** The expressions that compile. *)
Definition get_injection_patterns : list (InjectionCategory * str * Q) :=
  compiled (λ e : InjectionCategory * str * Q, snd (fst e)) default_patterns.

Definition detector_new (config : InjectionConfig) : Detector := mkDetector config None default_keywords.

Definition compile_custom (patterns : list str) : list CompiledPattern :=
  omap id (imap (λ i p, match regex_new p with
                        | Some _ => Some (mkCompiled (lit "custom_" ++ show_nat i) p CommandInjection (f100 70))
                        | None => None
                        end) patterns).

Definition with_patterns (config : InjectionConfig) (patterns : list str) : Detector :=
  let compiled := compile_custom patterns in
  mkDetector config (match compiled with [] => None | _ => Some compiled end) default_keywords.

Definition update_config (d : Detector) (config : InjectionConfig) : Detector :=
  mkDetector config (dt_custom_patterns d) (dt_keywords d).

Definition skipped : InjectionResult := mkInjResult false 0 (lit "none") [].

(** The patterns in the order they are tried: those of the table, then the custom
    ones. *)
Definition all_patterns (d : Detector) : list (InjectionCategory * str * Q) :=
  get_injection_patterns
  ++ ((λ cp, (cp_category cp, cp_regex cp, cp_weight cp)) <$> default [] (dt_custom_patterns d)).

Definition hits (d : Detector) (input : str) : list (InjectionCategory * str * Q) :=
  List.filter (λ e : InjectionCategory * str * Q, regex_match (snd (fst e)) input) (all_patterns d).

Definition raw_score (weights : list Q) : Q := foldl fadd 0 weights.

Definition squash (raw : Q) : Q := if flt 0 raw then fdiv raw (fadd raw 1) else 0.

Definition combine (pattern_score classifier_score : Q) : Q :=
  fmin (fadd (fmul (f100 65) pattern_score) (fmul (f100 35) classifier_score)) 1.

Definition injection_level (score : Q) : str :=
  if fle (f100 90) score then lit "critical"
  else if fle (f100 70) score then lit "high"
  else if fle (f100 50) score then lit "medium"
  else lit "low".

(** What [analyze] and [analyze_tool_input] do with a text they do not skip. *)
Definition score_input (d : Detector) (threshold : Q) (input : str) : InjectionResult :=
  let matched := hits d input in
  let pattern_score := squash (raw_score (snd <$> matched)) in
  let score := combine pattern_score (cl_score (classify (dt_keywords d) input)) in
  mkInjResult (fle threshold score) score (injection_level score)
    ((λ e : InjectionCategory * str * Q, category_str (fst (fst e)) ++ lit ": " ++ snd (fst e)) <$> matched).

Definition effective_threshold (cfg : InjectionConfig) (tool_name : str) : Q :=
  if ij_strict_mode cfg && is_high_risk_tool tool_name
  then fmax (fmul (ij_threshold cfg) (f100 70)) (f100 30)
  else ij_threshold cfg.

Definition analyze_tool_input (d : Detector) (tool_name : str) (args : Value) : InjectionResult :=
  let input := extract_all_text args in
  if negb (nonempty input) then skipped
  else if (ij_max_input_length (dt_config d) <? N.of_nat (byte_len input))%N then skipped
  else score_input d (effective_threshold (dt_config d) tool_name) input.

Definition analyze (d : Detector) (text : str) : InjectionResult :=
  if negb (nonempty text) || (ij_max_input_length (dt_config d) <? N.of_nat (byte_len text))%N then skipped
  else score_input d (ij_threshold (dt_config d)) text.

(** ** Detailed analysis *)

Definition table_match (input : str) (e : InjectionCategory * str * Q) : option PatternMatch :=
  mat ← find_first (snd (fst e)) input;
  Some (mkPatternMatch (category_str (fst (fst e)) ++ lit "/" ++ snd (fst e)) (category_str (fst (fst e)))
          (take 120 (span_text input mat)) (snd e) (span_start input mat)).

Definition custom_match (input : str) (cp : CompiledPattern) : option PatternMatch :=
  mat ← find_first (cp_regex cp) input;
  Some (mkPatternMatch (cp_name cp) (category_str (cp_category cp))
          (take 120 (span_text input mat)) (cp_weight cp) (span_start input mat)).

(** The factors of [ScoringFactors] that enter the score; the one for repetition is 1. *)
Definition detailed_score (input : str) (matched : list PatternMatch) : Q :=
  let total_score := raw_score (pm_weight <$> matched) in
  let category_diversity := size (count_entries (pm_category <$> matched)) in
  let input_length_factor := if (byte_len input <? 50)%nat then f100 90 else 1 in
  let diversity_boost := fadd 1 (fmul (fsub (of_usize category_diversity) 1) (f100 5)) in
  fmin (fmul (fmul (fmul total_score input_length_factor) 1) diversity_boost) 1.

Definition strict_violations (cfg : InjectionConfig) (matched : list PatternMatch) : list str :=
  if ij_strict_mode cfg
  then (λ m, pm_category m ++ lit " pattern detected: " ++ pm_pattern_name m)
       <$> List.filter (λ m, fle (f100 70) (pm_weight m)) matched
  else [].

(** The categories are a [HashSet]: the summary lists them in its order. *)
Definition analyze_detailed (d : Detector) (args : Value) : AnalysisResult :=
  let input := extract_all_text args in
  let cfg := dt_config d in
  if negb (nonempty input) || (ij_max_input_length cfg <? N.of_nat (byte_len input))%N
  then mkAnalysis false 0 (lit "none") [] (lit "Input is empty or too long for analysis.")
         (lit "No analysis needed.") []
  else
    let matched := omap (table_match input) get_injection_patterns
                   ++ omap (custom_match input) (default [] (dt_custom_patterns d)) in
    let categories := count_entries (pm_category <$> matched) in
    let score := detailed_score input matched in
    let is_injection := fle (ij_threshold cfg) score in
    let level := injection_level score in
    let recommendation :=
      if is_injection then
        lit "Block this input. " ++ show_nat (length matched)
        ++ lit " injection pattern(s) detected across " ++ show_nat (size categories)
        ++ lit " category/categories. Risk level: " ++ level ++ lit "."
      else if flt (f100 30) score
           then lit "Input is suspicious but below threshold. Consider manual review."
           else lit "Input appears safe." in
    let summary :=
      match matched with
      | [] => lit "No injection patterns detected."
      | _ => lit "Detected " ++ show_nat (length matched) ++ lit " pattern(s) in "
             ++ show_nat (size categories) ++ lit " category/categories: "
             ++ join (lit ", ") (fst <$> hash_iter categories)
      end in
    mkAnalysis is_injection score level matched recommendation summary (strict_violations cfg matched).
End Detector.

(** ** Lemmas *)

Section Facts.
Context {UC : Unicode} {FL : Float} {DS : DebugStr} `{HashOrder} `{RegexFind} `{JsonNumbers}.

Lemma raw_score_nonneg ws acc : 0 <= acc → Forall (λ w, 0 <= w) ws → 0 <= foldl fadd acc ws.
Proof.
  revert acc. induction ws as [|w ws IH]; intros acc Ha Hw; [done|].
  inversion_clear Hw. apply IH; [by apply fadd_nonneg|done].
Qed.

Lemma raw_score_rounded ws acc : rnd acc == acc → rnd (foldl fadd acc ws) == foldl fadd acc ws.
Proof. revert acc. induction ws as [|w ws IH]; intros acc Ha; [done|]. apply IH, rnd_idem. Qed.

Lemma squash_unit raw : 0 <= raw → rnd raw == raw → unit_range (squash raw).
Proof.
  intros Hlo Hr. unfold squash. destruct (flt 0 raw) eqn:E; [|apply unit_0].
  apply flt_true in E. assert (raw <= fadd raw 1) as Hle.
  { rewrite <- Hr at 1. apply rnd_mono. lra. }
  split; [apply fdiv_nonneg; lra|]. apply rnd_le_1, Qle_shift_div_r; lra.
Qed.

Lemma combine_unit p c : 0 <= p → 0 <= c → unit_range (combine p c).
Proof. intros. apply fmin_unit, fadd_nonneg; apply fmul_nonneg; auto with nb. Qed.

Lemma table_weights : Forall (λ e : InjectionCategory * string * Z, (0 <= snd e <= 95)%Z) pattern_table.
Proof. apply (bool_decide_unpack _). vm_compute. exact I. Qed.

Lemma get_patterns_weights e :
  e ∈ get_injection_patterns → 0 <= snd e ∧ snd e <= (973 # 1024).
Proof.
  intros [He _]%elem_of_compiled. apply list_elem_of_fmap in He as [e0 [-> Hin]].
  pose proof table_weights as Hw. rewrite Forall_forall in Hw. specialize (Hw _ Hin). simpl. split.
  - apply f100_nonneg. lia.
  - apply (rnd_le _ 973 1024 10); [done|lia|lia|]. unfold Qle. simpl. lia.
Qed.

#[local] Opaque get_injection_patterns.

(** A detector as the constructors make it. *)
Definition detector_ok (d : Detector) : Prop :=
  dt_keywords d = default_keywords ∧ Forall (λ cp, 0 <= cp_weight cp) (default [] (dt_custom_patterns d)).

Lemma detector_new_ok config : detector_ok (detector_new config).
Proof. split; [done|constructor]. Qed.

Lemma with_patterns_ok config patterns : detector_ok (with_patterns config patterns).
Proof.
  split; [done|]. unfold with_patterns. cbn [dt_custom_patterns].
  assert (Forall (λ cp, 0 <= cp_weight cp) (compile_custom patterns)) as Hall.
  { unfold compile_custom. apply Forall_forall. intros cp.
    rewrite list_elem_of_omap. intros (o & Ho & Hi). simpl in Hi. subst o.
    apply elem_of_lookup_imap in Ho as (i & p & Hp & _). destruct (regex_new p); [|done].
    injection Hp as ->. simpl. apply f100_nonneg. lia. }
  by destruct (compile_custom patterns).
Qed.

Lemma update_config_ok d config : detector_ok d → detector_ok (update_config d config).
Proof. done. Qed.

Lemma elem_of_all_patterns d e :
  e ∈ all_patterns d →
  e ∈ get_injection_patterns ∨
  ∃ cp, cp ∈ default [] (dt_custom_patterns d) ∧ e = (cp_category cp, cp_regex cp, cp_weight cp).
Proof.
  unfold all_patterns. rewrite elem_of_app. intros [He|He]; [by left|right].
  apply list_elem_of_fmap in He as (cp & -> & Hcp). by exists cp.
Qed.

Lemma elem_of_hits d input e :
  e ∈ hits d input → e ∈ all_patterns d ∧ regex_match (snd (fst e)) input = true.
Proof. intros He. exact (elem_of_filter_bool _ _ e He). Qed.

Lemma hits_nonneg d input : detector_ok d → Forall (λ w, 0 <= w) (snd <$> hits d input).
Proof.
  intros [_ Hc]. apply Forall_fmap, Forall_forall. intros e [He _]%elem_of_hits.
  apply elem_of_all_patterns in He as [He|(cp & Hcp & ->)].
  - exact (proj1 (get_patterns_weights e He)).
  - rewrite Forall_forall in Hc. exact (Hc cp Hcp).
Qed.

Lemma score_input_unit d threshold input :
  detector_ok d → unit_range (ir_score (score_input d threshold input)).
Proof.
  intros Hd. unfold score_input. cbn [ir_score]. apply combine_unit.
  - apply squash_unit.
    + apply raw_score_nonneg; [lra|by apply hits_nonneg].
    + apply raw_score_rounded, rnd_0.
  - destruct Hd as [-> _]. apply classify_unit.
Qed.

(** The two halves of the score, from above. *)
Lemma combine_le p c x y :
  0 <= p → 0 <= c → p <= x → c <= y → x <= 1 → y <= 1 →
  combine p c <= rnd (rnd ((666 # 1024) * x) + rnd ((359 # 1024) * y)).
Proof.
  intros Hp Hc Hx Hy _ _. unfold combine.
  assert (f100 65 <= (666 # 1024)) as H65 by (apply (rnd_le _ 666 1024 10); [done|lia|lia|unfold Qle; simpl; lia]).
  assert (f100 35 <= (359 # 1024)) as H35 by (apply (rnd_le _ 359 1024 10); [done|lia|lia|unfold Qle; simpl; lia]).
  assert (0 <= f100 65 ∧ 0 <= f100 35) as [? ?] by (split; apply f100_nonneg; lia).
  eapply Qle_trans; [apply fmin_le_l|]. apply rnd_mono, Qplus_le_compat; apply rnd_mono.
  - apply Qle_trans with ((666 # 1024) * p).
    + by apply Qmult_le_compat_r.
    + apply Qmult_le_l; [done|]. lra.
  - apply Qle_trans with ((359 # 1024) * c).
    + by apply Qmult_le_compat_r.
    + apply Qmult_le_l; [done|]. lra.
Qed.

Lemma threshold_70 : (716 # 1024) <= f100 70.
Proof. apply (rnd_ge _ 716 1024 10); [done|lia|lia|unfold Qle; simpl; lia]. Qed.

Lemma weak_classifier_below p c :
  unit_range p → 0 <= c → c <= (1 # 8) → combine p c < f100 70.
Proof.
  intros [Hp0 Hp1] Hc0 Hc1. pose proof threshold_70.
  apply Qle_lt_trans with (5687 # 8192); [|lra].
  eapply Qle_trans; [apply (combine_le p c 1 (1 # 8)); auto; lra|].
  apply (rnd_le _ 5687 8192 13); [done|lia|lia|].
  assert (rnd ((666 # 1024) * 1) <= (666 # 1024)) by (apply (rnd_le _ 666 1024 10); [done|lia|lia|lra]).
  assert (rnd ((359 # 1024) * (1 # 8)) <= (359 # 8192)) by (apply (rnd_le _ 359 8192 13); [done|lia|lia|lra]).
  lra.
Qed.

Lemma squash_single w : 0 <= w → w <= (973 # 1024) → squash (fadd 0 w) <= (500 # 1024).
Proof.
  intros Hlo Hhi. set (raw := fadd 0 w).
  assert (0 <= raw) by (apply fadd_nonneg; lra).
  assert (raw <= (973 # 1024)) by (apply (rnd_le _ 973 1024 10); [done|lia|lia|lra]).
  unfold squash. destruct (flt 0 raw); [|lra].
  pose proof (rnd_lower (raw + 1) ltac:(lra) ltac:(lra)) as Hl. fold (fadd raw 1) in Hl.
  apply (rnd_le _ 500 1024 10); [done|lia|lia|]. apply Qle_shift_div_r; lra.
Qed.

Lemma single_pattern_below w c :
  0 <= w → w <= (973 # 1024) → unit_range c → combine (squash (fadd 0 w)) c < f100 70.
Proof.
  intros Hlo Hhi [Hc0 Hc1]. pose proof threshold_70. pose proof (squash_single w Hlo Hhi) as Hs.
  assert (unit_range (squash (fadd 0 w))) as [Hs0 _].
  { apply squash_unit; [apply fadd_nonneg; lra|apply rnd_idem]. }
  apply Qle_lt_trans with (700616 # 1048576); [|lra].
  eapply Qle_trans; [apply (combine_le _ c (500 # 1024) 1); auto; lra|].
  apply (rnd_le _ 700616 1048576 20); [done|lia|lia|].
  assert (rnd ((666 # 1024) * (500 # 1024)) <= (333000 # 1048576))
    by (apply (rnd_le _ 333000 1048576 20); [done|lia|lia|lra]).
  assert (rnd ((359 # 1024) * 1) <= (359 # 1024)) by (apply (rnd_le _ 359 1024 10); [done|lia|lia|lra]).
  lra.
Qed.

Lemma weak_zero c : unit_range c → combine (squash (raw_score [])) c < f100 70.
Proof.
  intros [Hc0 Hc1]. pose proof threshold_70.
  assert (squash (raw_score []) = 0) as -> by done.
  apply Qle_lt_trans with (359 # 1024); [|lra].
  eapply Qle_trans; [apply (combine_le 0 c 0 1); auto; lra|].
  apply (rnd_le _ 359 1024 10); [done|lia|lia|].
  assert (rnd ((666 # 1024) * 0) <= 0) 
    by (eapply Qle_trans; [apply (rnd_mono _ 0); lra|rewrite rnd_0; lra]).
  assert (rnd ((359 # 1024) * 1) <= (359 # 1024)) by (apply (rnd_le _ 359 1024 10); [done|lia|lia|lra]).
  lra.
Qed.
#[local] Transparent get_injection_patterns.
End Facts.

Lemma analyze_oversize `{!Unicode, !Float, !DebugStr, !HashOrder} `{RegexFind} d text :
  (ij_max_input_length (dt_config d) < N.of_nat (byte_len text))%N → analyze d text = skipped.
Proof. intros Hl%N.ltb_lt. unfold analyze. rewrite Hl, orb_true_r. done. Qed.

(** ** Properties *)

Section Properties.
Context {UC : Unicode} {FL : Float} {DS : DebugStr} `{HashOrder} `{RegexFind} `{JsonNumbers}.

(** Also: the verdict on a text: the score lies between 0 and 1, the text is flagged
    exactly if it is not empty, within the length limit, and its score reaches the
    threshold; and what is reported are the patterns that match, those of the table
    and the custom ones. *)
Theorem injection_verdict d text :
  detector_ok d →
  let r := analyze d text in
  let score := ir_score (score_input d (ij_threshold (dt_config d)) text) in
  unit_range (ir_score r) ∧ unit_range score ∧
  (ir_is_injection r = true ↔
   text ≠ [] ∧ (N.of_nat (byte_len text) <= ij_max_input_length (dt_config d))%N ∧
   ij_threshold (dt_config d) <= score) ∧
  (∀ p, p ∈ ir_matched_patterns r →
   ∃ e, e ∈ all_patterns d ∧ regex_match (snd (fst e)) text = true ∧
        p = category_str (fst (fst e)) ++ lit ": " ++ snd (fst e)).
Proof.
  intros Hd. cbn zeta. pose proof (score_input_unit d (ij_threshold (dt_config d)) text Hd) as Hu.
  unfold analyze. destruct text as [|c text]; cbn [nonempty negb orb].
  { split_and!; [apply unit_0|done|by split; [|intros [? _]]|by intros p Hp%elem_of_nil]. }
  destruct (N.ltb_spec (ij_max_input_length (dt_config d)) (N.of_nat (byte_len (c :: text)))) as [Hl|Hl].
  { split_and!; [apply unit_0|done|split; [done|intros (_ & Hle & _); lia]|by intros p Hp%elem_of_nil]. }
  split_and!; [done|done| |].
  - unfold score_input at 1. cbn [ir_is_injection]. fold (score_input d).
    rewrite fle_true. split; [|by intros (_ & _ & ?)]. intros Hs. split_and!; [done|done|exact Hs].
  - unfold score_input. cbn [ir_matched_patterns]. intros p [e [-> He]]%list_elem_of_fmap.
    apply elem_of_hits in He as [He Hm]. by exists e.
Qed.

(** Observed: at the default threshold the patterns alone flag nothing: a text of which at
    most one pattern matches is never flagged, and neither is one, whatever
    patterns match, that the classifier scores at most 1/8. *)
Theorem default_threshold_lenient input :
  let d := detector_new default_config in
  (length (hits d input) ≤ 1)%nat ∨ cl_score (classify default_keywords input) <= (1 # 8) →
  ir_is_injection (analyze d input) = false ∧
  ∀ tool_name args, extract_all_text args = input →
    ir_is_injection (analyze_tool_input d tool_name args) = false.
Proof.
  cbn zeta. set (d := detector_new default_config). intros Hor.
  assert (ir_is_injection (score_input d (f100 70) input) = false) as Hs.
  { pose proof (classify_unit input) as Hc. apply fle_false.
    change (combine (squash (raw_score (snd <$> hits d input))) (cl_score (classify default_keywords input)) < f100 70).
    pose proof (hits_nonneg d input (detector_new_ok _)) as Hn.
    destruct Hor as [Hl|Hw].
    - destruct (hits d input) as [|e [|]] eqn:E; [| |simpl in Hl; lia].
      + apply weak_zero; apply Hc.
      + assert (e ∈ hits d input) as [He _]%elem_of_hits by (rewrite E; by left).
        apply elem_of_all_patterns in He as [He|(cp & Hcp & _)]; [|by apply elem_of_nil in Hcp].
        destruct (get_patterns_weights e He). by apply single_pattern_below.
    - apply weak_classifier_below; [|apply Hc|done].
      apply squash_unit; [apply raw_score_nonneg; [lra|done]|apply raw_score_rounded, rnd_0]. }
  split.
  - unfold analyze. by destruct (_ || _).
  - intros tool_name args <-. unfold analyze_tool_input. cbn [dt_config ij_strict_mode default_config d detector_new].
    destruct (negb _); [done|]. by destruct (_ <? _)%N.
Qed.
End Properties.

(** ** Witnesses *)

#[local] Existing Instances ascii_unicode exact_float map_order literal_engine literal_find unit_numbers.

Definition toy_debug : DebugStr := {| debug_str s := [c_dquote] ++ s ++ [c_dquote] |}.
#[local] Existing Instance toy_debug.

Definition inst_text : str := lit "please \[INST\] now (?i)\[INST\]".

Lemma inst_hits : length (hits (detector_new default_config) inst_text) = 1%nat.
Proof. vm_compute. reflexivity. Qed.

Lemma injection_verdict_witness :
  length (hits (detector_new default_config) inst_text) = 1%nat ∧
  unit_range (ir_score (analyze (detector_new default_config) inst_text)).
Proof.
  split; [exact inst_hits|].
  exact (proj1 (injection_verdict (detector_new default_config) inst_text (detector_new_ok _))).
Defined.

Lemma default_threshold_lenient_witness :
  length (hits (detector_new default_config) inst_text) = 1%nat ∧
  ir_is_injection (analyze (detector_new default_config) inst_text) = false.
Proof.
  split; [exact inst_hits|].
  exact (proj1 (default_threshold_lenient inst_text (or_introl (Nat.eq_le_incl _ _ inst_hits)))).
Defined.
