(* ===== verification/PreExec.v ===== *)
(** * Scanning scripts before they run (nemesis-security/src/preexec.rs)

    The words of a command line that name scripts are resolved to files, whose text
    goes through the injection detector.  The file system is a function from paths to
    bytes, the home directory comes from the environment.  Paths are those of Unix;
    on Windows a drive letter makes a path absolute too. *)
From Stdlib Require Import QArith.
From S2P Require Import Prelude RustStr Utils Utf8 Regex F64 Classifier Json Injection.
Local Open Scope nat_scope.
Local Open Scope nb_scope.

(** ** Constants *)

Definition MAX_SCRIPTS_PER_COMMAND : nat := 8.
Definition SNIFF_BYTES : N := (8 * 1024)%N.
Definition MAX_SCAN_BYTES : N := (512 * 1024)%N.

Definition SCRIPT_EXTENSIONS : list string :=
  ["sh"; "bash"; "zsh"; "ksh"; "ash"; "ps1"; "psm1"; "psd1"; "py"; "pyw"; "rb"; "pl"; "pm"; "js";
   "mjs"; "cjs"; "ts"]%string.

(** ** Words *)

Definition tokenize (command : str) : list str :=
  trim_matches (λ c, N.eqb c c_dquote || N.eqb c c_squote) <$> split_whitespace command.

Definition is_sep (c : char) : bool := N.eqb c c_slash || N.eqb c c_backslash.

(** [rsplit(['/', '\\']).next()]. *)
Definition last_segment (token : str) : str := default [] (last (split_on is_sep token)).

(** [rfind('.')], then what follows. *)
Fixpoint after_last_dot (s : str) : option (nat * str) :=
  match s with
  | [] => None
  | c :: s => match after_last_dot s with
              | Some (i, e) => Some (S i, e)
              | None => if N.eqb c c_dot then Some (0, s) else None
              end
  end.

Definition has_any_extension (token : str) : bool :=
  match after_last_dot (last_segment token) with
  | Some (S _, _) => true
  | _ => false
  end.

Definition has_script_extension (token : str) : bool :=
  match after_last_dot (last_segment token) with
  | Some (_, ext) => existsb (λ e, (ascii_lower <$> ext) =? lit e) SCRIPT_EXTENSIONS
  | None => false
  end.

Definition structure_chars : list char := lit ";|&<>(){}$`*?".

Definition is_script_candidate (token : str) : bool :=
  if negb (nonempty token) || starts_with [c_dash] token || contains (lit "://") token
     || existsb (λ c, bool_decide (c ∈ structure_chars)) token
  then false
  else if has_script_extension token then true
  else (starts_with (lit "./") token || starts_with (lit "../") token || contains_char c_slash token)
       && negb (has_any_extension token).

(** ** The scanner *)

Record PreExecHit := mkHit {
  hi_script : str;
  hi_score : Q;
  hi_level : str;
  hi_matched : list str;
}.

Record PreExecScanner := mkPreExec {
  px_detector : Detector;
  px_workspace_root : str;
}.

(** What the scan sees of its surroundings: the variables [USERPROFILE] and [HOME],
    and the files. *)
Record PreExecEnv := mkPreExecEnv {
  pe_userprofile : option str;
  pe_home : option str;
  pe_read : str → option (list N);
}.

(** [trim_start_matches("./")]. *)
Fixpoint trim_dot_slash (s : str) : str :=
  match s with
  | a :: b :: s' => if N.eqb a c_dot && N.eqb b c_slash then trim_dot_slash s' else s
  | _ => s
  end.

Definition resolve (env : PreExecEnv) (p : PreExecScanner) (token : str) : option str :=
  let t := replace_char c_backslash [c_slash] token in
  match strip_prefix (lit "~/") t with
  | Some rest =>
      home ← or_else (pe_userprofile env) (pe_home env);
      if nonempty home then Some (trim_end_matches is_sep home ++ [c_slash] ++ rest) else None
  | None =>
      if starts_with [c_slash] t then Some t
      else
        let root := px_workspace_root p in
        if nonempty root
        then Some (trim_end_matches is_sep root ++ [c_slash] ++ trim_dot_slash t)
        else None
  end.

(** The bytes of a file that count as a script: not empty, no NUL at the beginning, and
    a first line that names an interpreter when the name has no extension. *)
Definition is_script (token : str) (bytes : list N) : bool :=
  let sniff := take (N.to_nat SNIFF_BYTES) bytes in
  match bytes with
  | [] => false
  | _ => negb (existsb (N.eqb 0) sniff)
         && (has_script_extension token || starts_with (lit "#!") sniff)
  end.

(** The text that is analysed. *)
Definition script_text (bytes : list N) : str := from_utf8_lossy (take (N.to_nat MAX_SCAN_BYTES) bytes).

(** The limits are large numbers: unfold them last. *)
Strategy 100 [script_text is_script MAX_SCAN_BYTES SNIFF_BYTES].

(** The script a word names, with its bytes. *)
Definition script_of (env : PreExecEnv) (p : PreExecScanner) (token : str) : option (str * list N) :=
  if is_script_candidate token then
    path ← resolve env p token;
    bytes ← pe_read env path;
    if is_script token bytes then Some (path, bytes) else None
  else None.

Section Scan.
Context {UC : Unicode} {FL : Float} {DS : DebugStr} `{HashOrder} `{RegexFind}.

Definition preexec_new (threshold : Q) : PreExecScanner :=
  mkPreExec (detector_new (mkInjConfig true threshold MAX_SCAN_BYTES false)) [].

Definition set_workspace_root (p : PreExecScanner) (root : str) : PreExecScanner :=
  mkPreExec (px_detector p) (trim root).

Definition inspect (p : PreExecScanner) (path : str) (bytes : list N) : option PreExecHit :=
  let result := analyze (px_detector p) (script_text bytes) in
  if ir_is_injection result
  then Some (mkHit path (ir_score result) (ir_level result) (ir_matched_patterns result))
  else None.

(** The loop over the words; [scanned] counts the scripts read. *)
Fixpoint scan_go (env : PreExecEnv) (p : PreExecScanner) (scanned : nat) (tokens : list str)
    : option PreExecHit :=
  match tokens with
  | [] => None
  | token :: tokens =>
      if MAX_SCRIPTS_PER_COMMAND <=? scanned then None
      else
        match script_of env p token with
        | None => scan_go env p scanned tokens
        | Some (path, bytes) =>
            match inspect p path bytes with
            | Some hit => Some hit
            | None => scan_go env p (S scanned) tokens
            end
        end
  end.

Definition scan (env : PreExecEnv) (p : PreExecScanner) (command : str) : option PreExecHit :=
  scan_go env p 0 (tokenize command).

(** ** Lemmas *)

Lemma scan_go_spec env p scanned tokens :
  scan_go env p scanned tokens =
  first_some (λ pb, inspect p (fst pb) (snd pb))
    (take (MAX_SCRIPTS_PER_COMMAND - scanned) (omap (script_of env p) tokens)).
Proof.
  revert scanned. induction tokens as [|token tokens IH]; intros scanned; cbn [scan_go omap list_omap].
  { by rewrite take_nil. }
  destruct (Nat.leb_spec MAX_SCRIPTS_PER_COMMAND scanned) as [Hle|Hlt].
  { by replace (MAX_SCRIPTS_PER_COMMAND - scanned) with 0 by lia. }
  destruct (script_of env p token) as [[path bytes]|]; [|apply IH].
  destruct (MAX_SCRIPTS_PER_COMMAND - scanned) as [|k] eqn:E; [lia|]. cbn [take first_some fst snd].
  destruct (inspect p path bytes) as [hit|]; [done|]. cbn [or_else]. rewrite IH.
  by replace (MAX_SCRIPTS_PER_COMMAND - S scanned) with k by lia.
Qed.

(** ** Properties *)

(** Also: the scan of a command line is the verdict on the first flagged one of the
    first eight scripts that its words name. *)
Theorem scan_exact env p command :
  scan env p command =
  first_some (λ pb, inspect p (fst pb) (snd pb))
    (take MAX_SCRIPTS_PER_COMMAND (omap (script_of env p) (tokenize command))) ∧
  ∀ hit, scan env p command = Some hit →
    ∃ token bytes, token ∈ tokenize command ∧ script_of env p token = Some (hi_script hit, bytes) ∧
      ir_is_injection (analyze (px_detector p) (script_text bytes)) = true.
Proof.
  assert (scan env p command = first_some (λ pb, inspect p (fst pb) (snd pb))
    (take MAX_SCRIPTS_PER_COMMAND (omap (script_of env p) (tokenize command)))) as E
    by apply (scan_go_spec env p 0).
  split; [done|]. intros hit. rewrite E. intros ([path bytes] & Hin & Hi)%first_some_Some.
  cbn [fst snd] in Hi. unfold inspect in Hi.
  destruct (ir_is_injection _) eqn:Ei; [|done]. injection Hi as <-.
  apply elem_of_take in Hin as (i & Hin & _). apply list_elem_of_lookup_2, list_elem_of_omap in Hin as (token & Ht & Hs).
  by exists token, bytes.
Qed.

Local Open Scope N_scope.

Lemma byte_len_ascii_eq s : is_ascii s = true → byte_len s = length s.
Proof.
  unfold is_ascii, byte_len. induction s as [|c s IH]; [done|]. cbn. intros [Hc Hs]%andb_true_iff.
  rewrite (IH Hs). unfold len_utf8. unfold is_ascii_char in Hc. by rewrite Hc.
Qed.

(** Observed: a long script is not cut but skipped when the cut falls into a character:
    the half character becomes one of three bytes, and the text is over the limit of
    the detector, which flags nothing then, whatever the script says. *)
Theorem cut_character_hides threshold root body c rest path :
  is_ascii body = true → length body = N.to_nat (MAX_SCAN_BYTES - 1) → 128 <= c → scalar c →
  let p := set_workspace_root (preexec_new threshold) root in
  inspect p path (as_bytes (body ++ c :: rest)) = None.
Proof.
  intros Hb Hl Hc Hs. cbn zeta. unfold inspect.
  destruct (lossy_cut c Hc Hs) as (b & t & Hu & Hr).
  assert (as_bytes (body ++ c :: rest) = body ++ b :: (t ++ as_bytes rest)) as E.
  { rewrite <- (as_bytes_ascii body Hb) at 2. unfold as_bytes. rewrite fmap_app, join_app.
    f_equal. cbn [fmap list_fmap mjoin list_join]. by rewrite Hu. }
  assert (script_text (as_bytes (body ++ c :: rest)) = body ++ [REPLACEMENT]) as ->.
  { unfold script_text. rewrite E.
    replace (N.to_nat MAX_SCAN_BYTES) with (length body + 1)%nat by (rewrite Hl; unfold MAX_SCAN_BYTES; lia).
    rewrite take_app_add.
    change (take 1 (b :: t ++ as_bytes rest)) with [b]. by rewrite (lossy_ascii body [b] Hb), Hr. }
  rewrite analyze_oversize; [reflexivity|].
  rewrite byte_len_app, byte_len_ascii_eq, Hl by done. change (byte_len [REPLACEMENT]) with 3%nat.
  cbn [px_detector set_workspace_root preexec_new detector_new dt_config ij_max_input_length].
  rewrite Nat2N.inj_add, N2Nat.id. change (N.of_nat 3) with 3. unfold MAX_SCAN_BYTES. lia.
Qed.
End Scan.

(** ** Witnesses *)

#[local] Existing Instances ascii_unicode exact_float toy_debug map_order literal_engine literal_find.

Lemma replicate_ascii n c : is_ascii_char c = true → is_ascii (replicate n c) = true.
Proof. intros Hc. induction n as [|n IH]; [done|]. cbn. by rewrite Hc. Qed.

Lemma cut_character_hides_witness :
  let body := replicate (N.to_nat (MAX_SCAN_BYTES - 1)) (ch "a") in
  is_ascii body = true ∧ length body = N.to_nat (MAX_SCAN_BYTES - 1) ∧
  inspect (set_workspace_root (preexec_new (f100 70)) (lit "/w")) (lit "/w/x.sh") (as_bytes (body ++ 233%N :: []))
  = None.
Proof.
  cbn zeta. set (n := N.to_nat (MAX_SCAN_BYTES - 1)).
  assert (is_ascii (replicate n (ch "a")) = true) as Ha by (apply replicate_ascii; reflexivity).
  assert (length (replicate n (ch "a")) = n) as Hl by apply length_replicate.
  split; [exact Ha|]. split; [exact Hl|].
  apply (cut_character_hides (f100 70) (lit "/w") (replicate n (ch "a")) 233%N [] (lit "/w/x.sh") Ha Hl);
    [lia|apply (bool_decide_unpack _); vm_compute; exact I].
Defined.

(** A script of two words, the second of which names a file. *)
Definition demo_env : PreExecEnv :=
  mkPreExecEnv None (Some (lit "/home/u")) (λ path, if path =? lit "/w/run.sh" then Some (lit "#!/bin/sh") else None).

Example demo_resolve :
  script_of demo_env (set_workspace_root (preexec_new (f100 70)) (lit "/w/")) (lit "./run.sh")
  = Some (lit "/w/run.sh", lit "#!/bin/sh") ∧
  omap (script_of demo_env (set_workspace_root (preexec_new (f100 70)) (lit "/w"))) (tokenize (lit "bash 'run.sh' -x"))
  = [(lit "/w/run.sh", lit "#!/bin/sh")] ∧
  tokenize (lit "bash 'my run.sh'") = [lit "bash"; lit "my"; lit "run.sh"].
Proof. split_and!; vm_compute; reflexivity. Qed.
