(* ===== verification/CommandGuard.v ===== *)
(** * The command guard, layer 2 (nemesis-security/src/command.rs)

    A command is refused when its lower-case form or its normalised form (Matcher)
    matches an expression of the block list, defines a shell function that calls
    itself, matches an entry added at run time or, in strict mode, contains a
    keyword.  The regex crate is the class [RegexEngine]; a compiled expression is
    its source. *)
From S2P Require Import Prelude RustStr CommandArity Regex Matcher Utils.
Local Open Scope nb_scope.

(** ** Data *)

Inductive Severity := SevLow | SevMedium | SevHigh | SevCritical.
Inductive PlatformTag := PlatAll | PlatLinux | PlatWindows | PlatMacOS.
Inductive CommandCategory :=
| CatDestructive | CatNetwork | CatPrivilege | CatRecon | CatObfuscation | CatPersistence | CatExfiltration.

Record BlockEntry := mkBlockEntry {
  be_name : str;
  be_category : CommandCategory;
  be_severity : Severity;
  be_platform : PlatformTag;
  be_reason : str;
}.

Record GuardConfig := mkGuardConfig {
  gc_enabled : bool;
  gc_strict_mode : bool;
  gc_extra_patterns : list str;
}.

Record CommandGuard := mkCommandGuard {
  gu_config : GuardConfig;
  gu_extra_entries : list (str * str);
}.

Definition guard_config_default : GuardConfig := mkGuardConfig true false [].

Definition blocklist_table : list (string * string) := [
  ("rm_rf", "(?i)\brm\s+(\S+\s+)*-{1,2}[a-z]*[rf][a-z]*(\s|$)");
  ("del_force", "(?i)\bdel(\.exe)?\s+/[a-z]*[sfq]");
  ("remove_item_recurse", "(?i)\bremove-item\s+.*-recurse");
  ("rd_s", "(?i)\brd(\.exe)?\s+/[a-z]*[sfq]");
  ("erase_recursive", "(?i)\berase(\.exe)?\s+/[a-z]*[sfq]");
  ("format", "(?i)(\bformat\s+[a-z]:|\bmkfs)");
  ("dd", "(?i)\bdd\s.*(if|of)=");
  ("shutdown", "(?i)\b(shutdown|reboot|poweroff|halt)\b");
  ("wipefs", "(?i)\bwipefs\b");
  ("shred", "(?i)\bshred\b");
  ("truncate", "(?i)\btruncate\s+-s\s+0\b");
  ("srm", "(?i)\bsrm\b");
  ("catastrophic_pipe", "(?i):\(\)\s*\{[^}]*\}\s*;?\s*:");
  ("sudo", "(?i)\bsudo\b");
  ("chmod", "(?i)\bchmod\s+[0-7]{3,4}\b");
  ("chmod_recursive", "(?i)\bchmod\s+-[a-z]*r");
  ("chown", "(?i)\bchown\b");
  ("runas", "(?i)\brunas\b");
  ("su_switch", "(?i)\bsu\s+[-\w]*\b");
  ("pkexec", "(?i)\bpkexec\b");
  ("doas", "(?i)\bdoas\b");
  ("gosu", "(?i)\bgosu\b");
  ("pkill", "(?i)\bpkill\b");
  ("killall", "(?i)\bkillall\b");
  ("kill_9", "(?i)\bkill\s+-9\b");
  ("taskkill", "(?i)\btaskkill\b");
  ("nmap", "(?i)\bnmap\b");
  ("netcat_bind", "(?i)\bnc\s+.*-\b[l]\b");
  ("tcpdump", "(?i)\btcpdump\b");
  ("wireshark", "(?i)\b(tshark|wireshark)\b");
  ("curl_pipe_sh", "(?i)\bcurl\b.*\|\s*(sh|bash)");
  ("wget_pipe_sh", "(?i)\bwget\b.*\|\s*(sh|bash)");
  ("eval", "(?i)\beval\b");
  ("socat_shell", "(?i)\bsocat\b.*exec");
  ("powershell_encoded", "(?i)\b(powershell|pwsh)(\.exe)?\b.*\s-(enc\w*|ec\b)");
  ("cmd_c", "(?i)\bcmd(\.exe)?\s+/[ck]\b");
  ("reg_delete", "(?i)\breg(\.exe)?\s+(delete|add)\b");
  ("net_user", "(?i)\bnet(\.exe)?\s+(user|localgroup)\b");
  ("wmic", "(?i)\bwmic\b");
  ("bitsadmin", "(?i)\bbitsadmin\b");
  ("robocopy_mir", "(?i)\brobocopy(\.exe)?\b.*\s/mir\b");
  ("vssadmin_delete", "(?i)\bvssadmin(\.exe)?\s+delete\s+shadows");
  ("wevtutil_cl", "(?i)\bwevtutil(\.exe)?\s+(cl\b|clear-log\b)");
  ("diskpart", "(?i)\bdiskpart(\.exe)?\b");
  ("cipher_wipe", "(?i)\bcipher(\.exe)?\s+/w\b");
  ("schtasks_delete", "(?i)\bschtasks(\.exe)?\s+/delete\b");
  ("sc_delete", "(?i)\bsc(\.exe)?\s+delete\b");
  ("set_executionpolicy", "(?i)\bset-executionpolicy\b");
  ("clear_content", "(?i)\bclear-content\b");
  ("apt_remove", "(?i)\bapt(-get)?\s+(remove|purge)\b");
  ("yum_remove", "(?i)\byum\s+remove\b");
  ("dnf_remove", "(?i)\bdnf\s+remove\b");
  ("pip_uninstall", "(?i)\bpip\s+uninstall\b");
  ("mount_remount", "(?i)\bmount\s+-o\s+.*\bremount\b");
  ("fdisk", "(?i)\bfdisk\b");
  ("parted", "(?i)\bparted\b");
  ("find_delete", "(?i)\bfind\s+.*\s-delete(\s|$)");
  ("find_exec_rm", "(?i)\bfind\s+.*\s-exec\s+(rm|del)\b");
  ("base64_pipe", "(?i)base64\s+-d\s*\|\s*(sh|bash)");
  ("xxd_reverse", "(?i)xxd\s+-r\s*\|");
  ("hex_decode_exec", "(?i)echo\s+\\x[0-9a-f]+\s*\|\s*(sh|bash)");
  ("python_eval", "(?i)python[23]?\s+-c\s+(import|exec|eval|os\.system)")
]%string.

Definition metadata_table : list (string * CommandCategory * Severity * PlatformTag * string) := [
  ("rm_rf", CatDestructive, SevCritical, PlatLinux, "Recursive force delete");
  ("del_force", CatDestructive, SevCritical, PlatWindows, "Force delete files");
  ("remove_item_recurse", CatDestructive, SevCritical, PlatWindows, "PowerShell recursive delete");
  ("format", CatDestructive, SevCritical, PlatAll, "Disk format");
  ("dd", CatDestructive, SevCritical, PlatLinux, "Disk dump/overwrite");
  ("shutdown", CatDestructive, SevHigh, PlatAll, "System shutdown");
  ("wipefs", CatDestructive, SevCritical, PlatLinux, "Wipe filesystem signature");
  ("shred", CatDestructive, SevCritical, PlatLinux, "Secure file deletion");
  ("sudo", CatPrivilege, SevHigh, PlatLinux, "Privilege escalation");
  ("chmod", CatPrivilege, SevMedium, PlatLinux, "Permission change");
  ("chown", CatPrivilege, SevMedium, PlatLinux, "Ownership change");
  ("runas", CatPrivilege, SevHigh, PlatWindows, "Windows privilege escalation");
  ("pkexec", CatPrivilege, SevHigh, PlatLinux, "PolicyKit escalation");
  ("pkill", CatDestructive, SevHigh, PlatLinux, "Process kill by pattern");
  ("killall", CatDestructive, SevHigh, PlatLinux, "Kill all by name");
  ("kill_9", CatDestructive, SevHigh, PlatAll, "Force kill");
  ("taskkill", CatDestructive, SevHigh, PlatWindows, "Windows process kill");
  ("nmap", CatRecon, SevMedium, PlatAll, "Network scanning");
  ("netcat_bind", CatNetwork, SevHigh, PlatAll, "Netcat bind shell");
  ("tcpdump", CatRecon, SevMedium, PlatLinux, "Packet capture");
  ("curl_pipe_sh", CatNetwork, SevCritical, PlatAll, "Remote code execution");
  ("wget_pipe_sh", CatNetwork, SevCritical, PlatAll, "Remote code execution");
  ("eval", CatObfuscation, SevHigh, PlatAll, "Dynamic code execution");
  ("socat_shell", CatNetwork, SevCritical, PlatLinux, "Reverse shell");
  ("powershell_encoded", CatObfuscation, SevCritical, PlatWindows, "Encoded PowerShell");
  ("cmd_c", CatObfuscation, SevHigh, PlatWindows, "CMD execution");
  ("reg_delete", CatDestructive, SevHigh, PlatWindows, "Registry modification");
  ("net_user", CatPrivilege, SevCritical, PlatWindows, "User management");
  ("wmic", CatRecon, SevMedium, PlatWindows, "WMI command");
  ("bitsadmin", CatNetwork, SevHigh, PlatWindows, "Background file transfer");
  ("apt_remove", CatDestructive, SevHigh, PlatLinux, "Package removal");
  ("yum_remove", CatDestructive, SevHigh, PlatLinux, "Package removal");
  ("dnf_remove", CatDestructive, SevHigh, PlatLinux, "Package removal");
  ("mount_remount", CatPrivilege, SevHigh, PlatLinux, "Remount filesystem");
  ("fdisk", CatDestructive, SevCritical, PlatLinux, "Disk partitioning");
  ("parted", CatDestructive, SevCritical, PlatLinux, "Disk partitioning");
  ("base64_pipe", CatObfuscation, SevHigh, PlatAll, "Encoded command execution");
  ("python_eval", CatObfuscation, SevHigh, PlatAll, "Python code execution");
  ("rd_s", CatDestructive, SevCritical, PlatWindows, "Recursive directory delete (rd /s)");
  ("erase_recursive", CatDestructive, SevCritical, PlatWindows, "Recursive delete via erase alias");
  ("chmod_recursive", CatPrivilege, SevHigh, PlatLinux, "Recursive permission change");
  ("robocopy_mir", CatDestructive, SevCritical, PlatWindows, "Mirror copy (deletes destination extras)");
  ("vssadmin_delete", CatDestructive, SevCritical, PlatWindows, "Shadow copy deletion (ransomware staple)");
  ("wevtutil_cl", CatDestructive, SevHigh, PlatWindows, "Event log clearing");
  ("diskpart", CatDestructive, SevCritical, PlatWindows, "Disk partition manipulation");
  ("cipher_wipe", CatDestructive, SevCritical, PlatWindows, "Secure wipe free space (/w)");
  ("schtasks_delete", CatPersistence, SevHigh, PlatWindows, "Scheduled task deletion");
  ("sc_delete", CatPersistence, SevHigh, PlatWindows, "Service deletion");
  ("set_executionpolicy", CatObfuscation, SevHigh, PlatWindows, "Script execution policy change");
  ("clear_content", CatDestructive, SevMedium, PlatWindows, "File content truncation");
  ("find_delete", CatDestructive, SevCritical, PlatLinux, "Recursive find -delete");
  ("find_exec_rm", CatDestructive, SevCritical, PlatLinux, "find -exec rm batch delete");
  ("pip_uninstall", CatDestructive, SevHigh, PlatAll, "Package removal")
]%string.

Definition get_blocklist_metadata : list BlockEntry :=
  (λ '(name, category, severity, platform, reason),
     mkBlockEntry (lit name) category severity platform (lit reason)) <$> metadata_table.

Definition get_strict_keywords : list str := lit <$>
  ["rm -"; "del /"; "format "; "mkfs."; "dd if="; "shutdown"; "reboot"; "poweroff"; "halt"; "sudo ";
   "su -"; "runas "; "curl |"; "wget |"; "cmd /c"; "powershell -c"; "powershell -command";
   "powershell -e"; "pwsh -c"; "pwsh -command"; "bash -c"; "sh -c"; "zsh -c"; "python -c";
   "python3 -c"; "node -e"; "perl -e"; "ruby -e"; "eval "; "exec "]%string.

(** ** Functions that call themselves *)

Section SelfCalls.
Context {CC : CharClass}.

Definition is_word (c : char) : bool := is_alphanumeric c || N.eqb c c_under.

(** The word at the end of a text. *)
Definition word_suffix (before : str) : str := rev (take_while is_word (rev before)).

Definition fn_open : str := lit "(){".
Definition c_rbrace : char := ch "}".

(** One round of the loop, at an occurrence of [(){]. *)
Definition self_call_at (cmd : str) (pos : nat) : option str :=
  let name := word_suffix (take pos cmd) in
  if nonempty name then
    match split_at_char c_rbrace (drop pos cmd) with
    | Some (body, _) =>
        if bool_decide (name ∈ split_on (λ c, negb (is_word c)) body) then Some name else None
    | None => None
    end
  else None.

Fixpoint self_recursive_go (fuel : nat) (cmd : str) (search_from : nat) : option (option str) :=
  match fuel with
  | O => None
  | S fuel =>
      match find_str fn_open (drop search_from cmd) with
      | None => Some None
      | Some rel =>
          let pos := search_from + rel in
          match self_call_at cmd pos with
          | Some name => Some (Some name)
          | None => self_recursive_go fuel cmd (pos + 3)
          end
      end
  end.

(** Every round goes on by at least three characters. *)
Definition detect_self_recursive_function (cmd : str) : option str :=
  mjoin (self_recursive_go (S (length cmd)) cmd 0).
End SelfCalls.

(** ** The guard *)

(** The constructors stand for the messages of [GuardError::Blocked]. *)
Inductive Blocked :=
| DangerousPattern (name : str)
| ForkBomb (name : str)
| DynamicPattern (name : str)
| StrictKeyword (keyword : str).

Definition show_blocked (b : Blocked) : str :=
  lit "dangerous command blocked: " ++
  match b with
  | DangerousPattern name => lit "matches dangerous pattern: " ++ name
  | ForkBomb name => lit "fork bomb pattern: self-recursive function `" ++ name ++ lit "`"
  | DynamicPattern name => lit "matches dynamic pattern: " ++ name
  | StrictKeyword keyword => lit "strict mode: contains keyword '" ++ keyword ++ lit "'"
  end.

(** The error [invalid pattern ...]. *)
Inductive PatternError := bad_pattern (pattern : str).

Section Guard.
Context {UC : Unicode} {CC : CharClass} {RE : RegexEngine}.

Definition get_blocklist : list (str * str) :=
  compiled snd ((λ e : string * string, (lit (fst e), lit (snd e))) <$> blocklist_table).

Definition command_guard_new (enabled : bool) : CommandGuard := mkCommandGuard (mkGuardConfig enabled false []) [].

Definition compile_entries (patterns : list str) : list (str * str) :=
  compiled snd ((λ p, (p, p)) <$> patterns).

Definition guard_with_config (config : GuardConfig) : CommandGuard :=
  mkCommandGuard config (compile_entries (gc_extra_patterns config)).

Definition candidates (command : str) : list str := [to_lowercase command; normalize_exec_command command].

(** The first entry of a table that matches a candidate, candidate by candidate. *)
Definition first_match (entries : list (str * str)) (l : list str) : option str :=
  first_some (λ candidate, fst <$> List.find (λ e, regex_match (snd e) candidate) entries) l.

Definition first_keyword (keywords : list str) (l : list str) : option str :=
  first_some (λ candidate, List.find (λ k, contains k candidate) keywords) l.

Definition check (g : CommandGuard) (command : str) : result unit Blocked :=
  if negb (gc_enabled (gu_config g)) then Ok tt
  else
    let l := candidates command in
    match first_match get_blocklist l with
    | Some name => Err (DangerousPattern name)
    | None =>
        match detect_self_recursive_function (normalize_exec_command command) with
        | Some name => Err (ForkBomb name)
        | None =>
            match first_match (gu_extra_entries g) l with
            | Some name => Err (DynamicPattern name)
            | None =>
                match (if gc_strict_mode (gu_config g) then first_keyword get_strict_keywords l else None) with
                | Some keyword => Err (StrictKeyword keyword)
                | None => Ok tt
                end
            end
        end
    end.

Definition is_blocked (g : CommandGuard) (command : str) : bool := negb (is_ok (check g command)).

Definition add_entry (g : CommandGuard) (name pattern : str) : CommandGuard * result unit PatternError :=
  if compilesb pattern
  then (mkCommandGuard (gu_config g) (gu_extra_entries g ++ [(name, pattern)]), Ok tt)
  else (g, Err (bad_pattern pattern)).

Definition remove_entry (g : CommandGuard) (name : str) : CommandGuard * bool :=
  let entries := List.filter (λ e : str * str, fst e <>? name) (gu_extra_entries g) in
  (mkCommandGuard (gu_config g) entries, (length entries <? length (gu_extra_entries g))%nat).

Definition list_entries : list BlockEntry := get_blocklist_metadata.

Definition get_blocked_entry (name : str) : option BlockEntry :=
  List.find (λ e, be_name e =? name) get_blocklist_metadata.

Definition get_category (name : str) : option CommandCategory := be_category <$> get_blocked_entry name.

Definition simplify_command (command : str) : str :=
  let trimmed := trim command in
  let stripped := match find_str (lit " #") trimmed with
                  | Some pos => take pos trimmed
                  | None => match find_str (lit " //") trimmed with
                            | Some pos => take pos trimmed
                            | None => trimmed
                            end
                  end in
  normalize_exec_command stripped.

(** The entries are replaced when all patterns compile; the switches of the new
    configuration are not taken over. *)
Definition set_config (g : CommandGuard) (config : GuardConfig) : CommandGuard * result unit PatternError :=
  match List.find (λ p, negb (compilesb p)) (gc_extra_patterns config) with
  | Some p => (g, Err (bad_pattern p))
  | None => (mkCommandGuard (gu_config g) ((λ p, (p, p)) <$> gc_extra_patterns config), Ok tt)
  end.

(** ** Lemmas *)

Lemma first_some_None {A B} (f : A → option B) l : first_some f l = None ↔ Forall (λ x, f x = None) l.
Proof.
  induction l as [|x l IH]; cbn [first_some]; [by split|]. rewrite Forall_cons, <- IH.
  destruct (f x); simpl; split; (done || by intros []).
Qed.

Lemma find_None_iff {A} (f : A → bool) l : List.find f l = None ↔ ∀ x, x ∈ l → f x = false.
Proof.
  split.
  - intros H x Hx. by apply (find_none f l H), list_elem_of_In.
  - intros H. destruct (List.find f l) as [x|] eqn:E; [|done]. apply find_some in E as [Hx Hf].
    rewrite (H x) in Hf; [done|by apply list_elem_of_In].
Qed.

Definition clean (entries : list (str * str)) (l : list str) : Prop :=
  ∀ e t, e ∈ entries → t ∈ l → regex_match (snd e) t = false.

Lemma first_match_None entries l : first_match entries l = None ↔ clean entries l.
Proof.
  unfold first_match, clean. rewrite first_some_None, Forall_forall. split.
  - intros H e t He Ht. specialize (H t Ht). apply fmap_None in H. by apply (proj1 (find_None_iff _ _) H).
  - intros H t Ht. apply fmap_None, find_None_iff. intros e He. by apply H.
Qed.

Lemma first_keyword_None keywords l :
  first_keyword keywords l = None ↔ ∀ k t, k ∈ keywords → t ∈ l → contains k t = false.
Proof.
  unfold first_keyword. rewrite first_some_None, Forall_forall. split.
  - intros H k t Hk Ht. specialize (H t Ht). by apply (proj1 (find_None_iff _ _) H).
  - intros H t Ht. apply find_None_iff. intros k Hk. by apply H.
Qed.

(** Where a function definition of the text begins that calls itself. *)
Definition calls_itself (cmd : str) : Prop :=
  ∃ before mid rest, cmd = before ++ fn_open ++ mid ++ c_rbrace :: rest ∧ (c_rbrace ∉ mid) ∧
    word_suffix before ≠ [] ∧ word_suffix before ∈ split_on (λ c, negb (is_word c)) (fn_open ++ mid).

Lemma split_at_char_spec c s a b : split_at_char c s = Some (a, b) ↔ s = a ++ c :: b ∧ (c ∉ a).
Proof.
  split.
  - revert a. induction s as [|x s IH]; intros a; cbn; [done|]. destruct (N.eqb_spec x c) as [->|Hx].
    + intros [= <- <-]. split; [done|]. by apply not_elem_of_nil.
    + destruct (split_at_char c s) as [[a' b']|]; [|done]. intros [= <- <-].
      destruct (IH a' eq_refl) as [-> Ha]. split; [done|]. apply not_elem_of_cons. auto.
  - intros [-> Ha]. by apply split_at_char_app.
Qed.

Lemma self_call_at_spec before s :
  starts_with fn_open s = true →
  is_Some (self_call_at (before ++ s) (length before)) ↔
  ∃ mid rest, s = fn_open ++ mid ++ c_rbrace :: rest ∧ (c_rbrace ∉ mid) ∧
    word_suffix before ≠ [] ∧ word_suffix before ∈ split_on (λ c, negb (is_word c)) (fn_open ++ mid).
Proof.
  intros [t ->]%starts_with_iff. unfold self_call_at. rewrite take_app_length, drop_app_length.
  split.
  - destruct (nonempty (word_suffix before)) eqn:Hn; [|by intros []]. apply nonempty_true in Hn.
    destruct (split_at_char c_rbrace (fn_open ++ t)) as [[body rest]|] eqn:E; [|by intros []].
    apply split_at_char_spec in E as [E Hb]. case_bool_decide as Hin; [|by intros []]. intros _.
    destruct body as [|b0 [|b1 [|b2 mid]]]; try (simpl in E; discriminate).
    injection E as <- <- <- ->. exists mid, rest. split_and!; [done| |done|done].
    intros Hm. apply Hb. by do 3 right.
  - intros (mid & rest & E & Hm & Hn & Hin). apply app_inv_head in E as ->.
    apply nonempty_true in Hn. rewrite Hn.
    assert (split_at_char c_rbrace (fn_open ++ mid ++ c_rbrace :: rest) = Some (fn_open ++ mid, rest)) as ->.
    { apply split_at_char_spec. split; [by rewrite <- app_assoc|]. rewrite not_elem_of_app. split; [|done].
      apply (bool_decide_unpack _). vm_compute. exact I. }
    by rewrite bool_decide_true.
Qed.

Lemma find_fn_open s i :
  find_str fn_open s = Some i → ∃ a b, s = a ++ fn_open ++ b ∧ length a = i ∧
    ∀ a' b', s = a' ++ fn_open ++ b' → length a ≤ length a'.
Proof.
  revert i. induction s as [|c s IH]; intros i E.
  { apply find_str_Some in E as (a & b & Hab & Hl). by destruct a. }
  cbn [find_str] in E. destruct (starts_with fn_open (c :: s)) eqn:Hs.
  - injection E as <-. apply starts_with_iff in Hs as [t Ht]. exists [], t. split_and!; [done|done|]. simpl. lia.
  - destruct (find_str fn_open s) as [j|]; [|done]. injection E as <-.
    destruct (IH j eq_refl) as (a & b & -> & Hl & Hmin). exists (c :: a), b. split_and!; [done|simpl; lia|].
    intros [|c' a'] b' Hab.
    + exfalso. rewrite app_nil_l in Hab. rewrite Hab, starts_with_app in Hs. discriminate.
    + injection Hab as <- Hab. specialize (Hmin a' b' Hab). simpl. lia.
Qed.

(** Two occurrences of [(){] are at least three characters apart. *)
Lemma fn_open_apart a b a' b' :
  a ++ fn_open ++ b = a' ++ fn_open ++ b' → length a < length a' → length a + 3 ≤ length a'.
Proof.
  intros E Hl. destruct (decide (length a + 3 ≤ length a')) as [|Hn]; [done|]. exfalso.
  assert (∀ k, (fn_open ++ b) !! k = (a ++ fn_open ++ b) !! (length a + k)) as H1.
  { intros k. rewrite (lookup_app_r a) by lia. f_equal. lia. }
  assert (∀ k, (fn_open ++ b') !! k = (a ++ fn_open ++ b) !! (length a' + k)) as H2.
  { intros k. rewrite E, (lookup_app_r a') by lia. f_equal. lia. }
  assert (length a' = length a + 1 ∨ length a' = length a + 2) as [Ha|Ha] by lia.
  - specialize (H1 1). specialize (H2 0). rewrite Ha, Nat.add_0_r in H2. rewrite <- H1 in H2. discriminate.
  - specialize (H1 2). specialize (H2 0). rewrite Ha, Nat.add_0_r in H2. rewrite <- H1 in H2. discriminate.
Qed.

Lemma self_recursive_go_spec fuel cmd from :
  from ≤ length cmd → length cmd < from + fuel →
  (∀ a b, cmd = a ++ fn_open ++ b → length a < from → ¬ is_Some (self_call_at cmd (length a))) →
  ∃ r, self_recursive_go fuel cmd from = Some r ∧
    (is_Some r ↔ ∃ a b, cmd = a ++ fn_open ++ b ∧ is_Some (self_call_at cmd (length a))).
Proof.
  revert from. induction fuel as [|fuel IH]; intros from Hf Hlt Hno; [lia|]. cbn [self_recursive_go].
  destruct (find_str fn_open (drop from cmd)) as [rel|] eqn:E.
  - apply find_fn_open in E as (a & b & Hd & <- & Hmin).
    assert (cmd = (take from cmd ++ a) ++ fn_open ++ b) as Hc by (by rewrite <- app_assoc, <- Hd, take_drop).
    assert (from + length a = length (take from cmd ++ a)) as Hpos by (rewrite length_app, length_take; lia).
    rewrite Hpos. destruct (self_call_at cmd (length (take from cmd ++ a))) as [name|] eqn:Es.
    + exists (Some name). split; [done|]. split; [|by eauto]. intros _.
      exists (take from cmd ++ a), b. split; [done|]. by rewrite Es.
    + apply IH.
      * rewrite Hc at 2. rewrite !length_app. simpl. lia.
      * lia.
      * intros a' b' Hc' Hl. destruct (decide (length a' < from)) as [|Hge]; [by eapply Hno|].
        assert (a' = take from cmd ++ drop from a') as Ha'.
        { rewrite <- (take_drop from a') at 1. f_equal. rewrite Hc', take_app_le by lia. done. }
        assert (drop from cmd = drop from a' ++ fn_open ++ b') as Hd'.
        { rewrite Hc', drop_app_le by lia. done. }
        specialize (Hmin _ _ Hd').
        assert (length a' = from + length (drop from a')) as Hla by (rewrite length_drop; lia).
        destruct (decide (length a < length (drop from a'))) as [Hlt'|].
        { rewrite Hd in Hd'. pose proof (fn_open_apart _ _ _ _ Hd' Hlt'). lia. }
        replace (length a') with (length (take from cmd ++ a)) by lia. rewrite Es. by intros [].
  - exists None. split; [done|]. split; [by intros []|]. intros (a & b & Hc & Hs). exfalso.
    destruct (decide (length a < from)) as [|Hge]; [by eapply Hno|].
    assert (is_Some (find_str fn_open (drop from cmd))) as [? ?].
    { rewrite Hc, drop_app_le by lia. apply find_str_is_Some. }
    congruence.
Qed.

Lemma detect_iff cmd : is_Some (detect_self_recursive_function cmd) ↔ calls_itself cmd.
Proof.
  unfold detect_self_recursive_function, calls_itself.
  destruct (self_recursive_go_spec (S (length cmd)) cmd 0) as (r & -> & ->); [lia|lia|lia|].
  split.
  - intros (a & b & -> & Hs). apply self_call_at_spec in Hs as (mid & rest & E & ?); [|apply starts_with_app].
    exists a, mid, rest. by rewrite E.
  - intros (a & mid & rest & -> & ?). exists a, (mid ++ c_rbrace :: rest). split; [done|].
    apply self_call_at_spec; [apply starts_with_app|]. by exists mid, rest.
Qed.

Lemma guard_exact g command :
  check g command = Ok tt ↔
  gc_enabled (gu_config g) = false ∨
  (clean get_blocklist (candidates command) ∧ clean (gu_extra_entries g) (candidates command) ∧
   ¬ calls_itself (normalize_exec_command command) ∧
   (gc_strict_mode (gu_config g) = true →
    ∀ k t, k ∈ get_strict_keywords → t ∈ candidates command → contains k t = false)).
Proof.
  unfold check. destruct (gc_enabled (gu_config g)); cbn [negb]; [|by split; [left|]].
  rewrite <- !first_match_None, <- detect_iff, <- eq_None_not_Some, <- first_keyword_None.
  destruct (first_match get_blocklist (candidates command)).
  { split; [done|]. intros [?|(? & _)]; discriminate. }
  destruct (detect_self_recursive_function (normalize_exec_command command)).
  { split; [done|]. intros [?|(_ & _ & ? & _)]; discriminate. }
  destruct (first_match (gu_extra_entries g) (candidates command)).
  { split; [done|]. intros [?|(_ & ? & _)]; discriminate. }
  destruct (gc_strict_mode (gu_config g)); [|by split; [right|]].
  destruct (first_keyword get_strict_keywords (candidates command)).
  - split; [done|]. intros [?|(_ & _ & _ & Hk)]; [done|]. by specialize (Hk eq_refl).
  - split; [|done]. by right.
Qed.

(** ** Properties *)

(** Also: what the guard lets through: it is off, or neither form of the command matches
    an expression of the block list or an entry added at run time, its normalised
    form defines no function that calls itself, and in strict mode neither form
    contains a keyword; the search for such functions always ends. *)
Theorem guard_check_exact g command :
  check g command = Ok tt ↔
  gc_enabled (gu_config g) = false ∨
  (clean get_blocklist (candidates command) ∧ clean (gu_extra_entries g) (candidates command) ∧
   ¬ calls_itself (normalize_exec_command command) ∧
   (gc_strict_mode (gu_config g) = true →
    ∀ k t, k ∈ get_strict_keywords → t ∈ candidates command → contains k t = false)).
Proof. apply guard_exact. Qed.

(** Also: an entry added at run time refuses from then on what it matches and allows
    nothing that was refused before; a pattern that does not compile changes
    nothing. *)
Theorem add_entry_monotone g name pattern command :
  let '(g', r) := add_entry g name pattern in
  (r ≠ Ok tt → g' = g) ∧
  (is_blocked g command = true → is_blocked g' command = true) ∧
  (r = Ok tt → gc_enabled (gu_config g) = true → ∀ t, t ∈ candidates command →
   regex_match pattern t = true → is_blocked g' command = true).
Proof.
  unfold add_entry. destruct (compilesb pattern); [|by split_and!].
  set (g' := mkCommandGuard _ _).
  assert (∀ g, is_blocked g command = true ↔ check g command ≠ Ok tt) as Hb.
  { intros g0. unfold is_blocked. destruct (check g0 command) as [[]|]; by split. }
  assert (clean (gu_extra_entries g') (candidates command) →
          clean (gu_extra_entries g) (candidates command) ∧
          ∀ t, t ∈ candidates command → regex_match pattern t = false) as Hc.
  { intros Hc. split.
    - intros e t He Ht. apply Hc; [|done]. apply elem_of_app. by left.
    - intros t Ht. apply (Hc (name, pattern) t); [|done]. apply elem_of_app. right. by left. }
  split_and!; [done| |].
  - rewrite !Hb, !guard_exact. naive_solver.
  - intros _ He t Ht Hm. rewrite Hb, guard_exact. intros [Hoff|(_ & Hx & _)].
    + cbn in Hoff. congruence.
    + destruct (Hc Hx) as [_ Hp]. by rewrite (Hp t Ht) in Hm.
Qed.

(** Observed: [set_config] takes over the patterns of a configuration and not its
    switches: a guard that is on stays on, one that is not strict stays so. *)
Theorem set_config_keeps_switches g config :
  gu_config (fst (set_config g config)) = gu_config g.
Proof. unfold set_config. by destruct (List.find _ _). Qed.
End Guard.

(** The names of the block list that have no entry in the metadata. *)
Definition without_metadata : list string :=
  List.filter (λ n, negb (existsb (λ '(m, _, _, _, _), String.eqb m n) metadata_table))
    (fst <$> blocklist_table).

(** Observed: nine expressions of the block list have no metadata, so a command they
    refuse has no category; every entry of the metadata names an expression, and no
    name occurs twice in either table. *)
Theorem metadata_incomplete :
  without_metadata = ["truncate"; "srm"; "catastrophic_pipe"; "su_switch"; "doas"; "gosu"; "wireshark";
                      "xxd_reverse"; "hex_decode_exec"]%string ∧
  (∀ n, n ∈ without_metadata → get_category (lit n) = None) ∧
  Forall (λ e, be_name e ∈ (λ p : string * string, lit (fst p)) <$> blocklist_table) get_blocklist_metadata ∧
  NoDup (fst <$> blocklist_table) ∧ NoDup (be_name <$> get_blocklist_metadata).
Proof.
  assert (without_metadata = ["truncate"; "srm"; "catastrophic_pipe"; "su_switch"; "doas"; "gosu"; "wireshark";
                      "xxd_reverse"; "hex_decode_exec"]%string) as E by (vm_compute; reflexivity).
  split_and!; [done| | | |].
  - rewrite E. intros n Hn. rewrite !elem_of_cons in Hn.
    repeat (destruct Hn as [->|Hn]; [vm_compute; reflexivity|]). by apply elem_of_nil in Hn.
  - apply (bool_decide_unpack _). vm_compute. exact I.
  - apply (bool_decide_unpack _). vm_compute. exact I.
  - apply (bool_decide_unpack _). vm_compute. exact I.
Qed.

(** ** Runs *)

Section Runs.
#[local] Existing Instances ascii_unicode ascii_class literal_engine.

Example named_fork_bomb :
  check (command_guard_new true) (lit "bomb(){ bomb|bomb & };bomb") = Err (ForkBomb (lit "bomb")).
Proof. vm_compute. reflexivity. Qed.

Example quoted_entry :
  check (fst (add_entry (command_guard_new true) (lit "x") (lit "drop it"))) (lit "'DROP'  it now")
  = Err (DynamicPattern (lit "x")).
Proof. vm_compute. reflexivity. Qed.
End Runs.
