(* ===== verification/Credential.v ===== *)
(** * The credential scanner, layer 4 (nemesis-security/src/credential.rs)

    A table of regular expressions; what matches is reported with its ends and a
    masked form.  The regex crate is the class [RegexFind].  In the table a backtick
    stands for a double quote. *)
From S2P Require Import Prelude RustStr Regex Utils.
Local Open Scope nb_scope.

(** ** Data *)

Record CredentialMatch := mkCredMatch {
  cm_pattern_name : str;
  cm_redacted : str;
  cm_full_match_start : str;
  cm_full_match_end : str;
}.

Record CredentialResult := mkCredResult {
  cr_has_matches : bool;
  cr_matches : list CredentialMatch;
  cr_action : str;
  cr_summary : str;
}.

Inductive MaskMode := KeepPrefix | Fixed | KeyValue.

Record Scanner := mkScanner {
  sc_enabled : bool;
  sc_action : str;
  sc_mask_mode : MaskMode;
}.

Definition credential_table : list (string * string) := [
  ("aws_access_key", "AKIA[0-9A-Z]{16}");
  ("aws_secret_key", "(?i)aws_secret_access_key\s*[=:]\s*[A-Za-z0-9/+=]{40}");
  ("aws_session_token", "(?i)aws_session_token\s*[=:]\s*[A-Za-z0-9/+=]{100,}");
  ("gcp_service_account", "(?i)`type`\s*:\s*`service_account`");
  ("gcp_private_key_id", "(?i)`private_key_id`\s*:\s*`[a-f0-9]+`");
  ("azure_connection_string", "(?i)AccountName=[A-Za-z0-9]+;AccountKey=[A-Za-z0-9+/=]+");
  ("azure_tenant_id", "(?i)azure\s*tenant\s*(?:id)?\s*[=:]\s*[a-f0-9-]{36}");
  ("github_token", "gh[pousr]_[A-Za-z0-9_]{36,}");
  ("github_oauth", "(?i)github[_-]?oauth\s*[=:]\s*[a-f0-9]{40}");
  ("slack_token", "xox[baprs]-[0-9]{10,}-[A-Za-z0-9]{24,}");
  ("slack_webhook", "https://hooks\.slack\.com/services/T[A-Z0-9]+/B[A-Z0-9]+/[A-Za-z0-9]+");
  ("stripe_key", "(?:sk|pk)_(?:test|live)_[A-Za-z0-9]{24,}");
  ("sendgrid_key", "SG\.[A-Za-z0-9_-]{22}\.[A-Za-z0-9_-]{43}");
  ("twilio_sid", "AC[a-z0-9]{32}");
  ("mailgun_key", "key-[a-z0-9]{32}");
  ("private_key", "-----BEGIN\s+(?:RSA\s+)?PRIVATE\s+KEY-----");
  ("ec_private_key", "-----BEGIN\s+EC\s+PRIVATE\s+KEY-----");
  ("dsa_private_key", "-----BEGIN\s+DSA\s+PRIVATE\s+KEY-----");
  ("pgp_private_key", "-----BEGIN\s+PGP\s+PRIVATE\s+KEY\s+BLOCK-----");
  ("jwt_token", "eyJ[A-Za-z0-9_-]+\.eyJ[A-Za-z0-9_-]+\.[A-Za-z0-9_-]+");
  ("db_connection_mysql", "(?i)mysql://[^\s]+:[^\s]+@[^\s]+");
  ("db_connection_postgres", "(?i)postgres(ql)?://[^\s]+:[^\s]+@[^\s]+");
  ("db_connection_mongodb", "(?i)mongodb(\+srv)?://[^\s]+:[^\s]+@[^\s]+");
  ("db_connection_redis", "(?i)redis://:[^\s]+@[^\s]+");
  ("api_key_in_url", "(?i)[?&](?:api[_-]?key|token|secret|password)=([A-Za-z0-9_\-]{20,})");
  ("bearer_token", "(?i)Bearer\s+[A-Za-z0-9\-._~+/]+=*");
  ("basic_auth", "(?i)Basic\s+[A-Za-z0-9+/]+=*");
  ("secret_assignment", "(?i)(?:password|secret|token|api_key|apikey|private_key|access_key)\s*[=:]\s*['`][^'`]{8,}['`]");
  ("heroku_key", "(?i)heroku\s*[=:]\s*[a-f0-9-]{36}");
  ("netlify_token", "(?i)netlify[_-]?token\s*[=:]\s*[A-Za-z0-9_-]{40,}");
  ("discord_bot_token", "(?i)discord[_-]?bot[_-]?token\s*[=:]\s*[A-Za-z0-9._-]{50,}");
  ("npm_token", "//registry\.npmjs\.org/:_authToken=[A-Za-z0-9-]+")
]%string.

(** ** Operations *)

Definition scanner_new (enabled : bool) (action : str) : Scanner := mkScanner enabled action KeepPrefix.

Definition with_mask_mode (enabled : bool) (action : str) (mask_mode : MaskMode) : Scanner :=
  mkScanner enabled action mask_mode.

(** [&s[..floor_char_boundary(s, 4)]] and [&s[ceil_char_boundary(s, s.len() - 4)..]]. *)
Definition first_bytes (value : str) : str := byte_take value (floor_char_boundary value 4).
Definition last_bytes (value : str) : str :=
  match ceil_char_boundary value (byte_len value - 4) with
  | Some start => byte_drop value start
  | None => []
  end.

Definition mask_keep_prefix (value : str) : str :=
  if (8 <? byte_len value)%nat then first_bytes value ++ lit "..." ++ last_bytes value
  else lit "[REDACTED]".

Definition mask_value (s : Scanner) (value : str) : str :=
  match sc_mask_mode s with
  | KeepPrefix => mask_keep_prefix value
  | Fixed => lit "[REDACTED]"
  | KeyValue =>
      if (8 <? byte_len value)%nat then first_bytes value ++ lit "..." ++ last_bytes value
      else lit "[REDACTED]"
  end.

Definition credential_match (s : Scanner) (name full : str) : CredentialMatch :=
  mkCredMatch name (mask_value s full)
    (if (4 <? byte_len full)%nat then first_bytes full else full)
    (if (4 <? byte_len full)%nat then last_bytes full else []).

Definition set_action (s : Scanner) (action : str) : Scanner * result unit str :=
  if existsb (λ a, action =? lit a) ["block"; "redact"; "warn"]%string
  then (mkScanner (sc_enabled s) action (sc_mask_mode s), Ok tt)
  else (s, Err action).

Section Scanner.
Context `{RegexFind}.

Definition get_credential_patterns : list (str * str) :=
  compiled snd
    ((λ e : string * string, (lit (fst e), replace_char c_backtick [c_dquote] (lit (snd e))))
     <$> credential_table).

(** Texts of at most ten bytes are not looked at. *)
Definition scannable (s : Scanner) (content : str) : bool :=
  sc_enabled s && (10 <? byte_len content)%nat.

Definition scan_content (s : Scanner) (content : str) : CredentialResult :=
  if negb (scannable s content) then mkCredResult false [] (sc_action s) []
  else
    let matches := get_credential_patterns ≫= λ e,
      (λ m, credential_match s (fst e) (span_text content m)) <$> find_iter (snd e) content in
    let has_matches := match matches with [] => false | _ => true end in
    let summary := if has_matches then show_nat (length matches) ++ lit " credential(s) detected" else [] in
    mkCredResult has_matches matches (sc_action s) summary.

Definition scan_tool_output (s : Scanner) (tool_name output : str) : CredentialResult := scan_content s output.

(** The patterns one after the other, each on the text the last one left. *)
Definition redact_content (s : Scanner) (content : str) : str :=
  if negb (scannable s content) then content
  else foldl (λ result e, replace_spans result 0 (find_iter (snd e) result) (lit "[REDACTED_CREDENTIAL]"))
         content get_credential_patterns.

(** ** Properties *)

Lemma get_patterns_compile e : e ∈ get_credential_patterns → compiles (snd e).
Proof. intros He. exact (proj2 (elem_of_compiled snd _ e He)). Qed.

Lemma some_matches {A} (l : list A) :
  match l with [] => false | _ => true end = true ↔ ∃ x, x ∈ l.
Proof. destruct l as [|x l]; split; [done|by intros [? ?%elem_of_nil]|exists x; by left|done]. Qed.

(** Also: the scanner reports a text exactly if it is enabled, the text has more than
    ten bytes and one of its patterns matches; and the number of reports is the
    number of occurrences. *)
Theorem credential_scan_exact s content :
  (cr_has_matches (scan_content s content) = true ↔
   sc_enabled s = true ∧ (10 < byte_len content)%nat ∧
   ∃ e, e ∈ get_credential_patterns ∧ regex_match (snd e) content = true) ∧
  (scannable s content = true →
   length (cr_matches (scan_content s content))
   = sum_list ((λ e, length (find_iter (snd e) content)) <$> get_credential_patterns)).
Proof.
  unfold scan_content. destruct (scannable s content) eqn:E; cbn [negb].
  - unfold scannable in E. apply andb_true_iff in E as [He Hl]. apply Nat.ltb_lt in Hl.
    cbn [cr_has_matches cr_matches]. split.
    + rewrite some_matches. split.
      * intros (m & (e & (sp & -> & Hsp)%list_elem_of_fmap & Hp)%list_elem_of_bind).
        split_and!; [done|done|]. exists e. split; [done|].
        apply regex_match_found; [by apply get_patterns_compile|by exists sp].
      * intros (_ & _ & e & Hp & Hm). apply regex_match_found in Hm as [sp Hsp]; [|by apply get_patterns_compile].
        exists (credential_match s (fst e) (span_text content sp)). apply list_elem_of_bind.
        exists e. split; [|done]. apply list_elem_of_fmap. by exists sp.
    + intros _. rewrite length_bind. f_equal. apply list_fmap_ext. intros. apply length_fmap.
  - split; [|done]. split; [done|]. intros (He & Hl & _). unfold scannable in E. rewrite He in E.
    apply Nat.ltb_ge in E. lia.
Qed.
End Scanner.

(** ** What a masked value shows *)

Lemma first_bytes_spec value : byte_len (first_bytes value) ≤ 4 ∧ ∃ q, value = first_bytes value ++ q.
Proof.
  unfold first_bytes. destruct (byte_take_len value (floor_char_boundary value 4)) as [Hl Hq].
  pose proof (floor_le value 4). split; [lia|done].
Qed.

Lemma last_bytes_spec value : byte_len (last_bytes value) ≤ 4 ∧ ∃ p, value = p ++ last_bytes value.
Proof.
  unfold last_bytes. destruct (ceil_total value (byte_len value - 4)) as (c & -> & Hb & Hge & _).
  apply is_char_boundary_iff in Hb as (p & q & -> & <-). rewrite byte_drop_app. split; [|by exists p].
  rewrite byte_len_app in *. lia.
Qed.

(** Also: a masked value shows at most its first four and its last four bytes, cut at
    character boundaries. *)
Theorem mask_reveals s value :
  mask_value s value = lit "[REDACTED]" ∨
  ∃ a b, mask_value s value = a ++ lit "..." ++ b ∧ byte_len a ≤ 4 ∧ byte_len b ≤ 4 ∧
    (∃ q, value = a ++ q) ∧ (∃ p, value = p ++ b).
Proof.
  destruct (first_bytes_spec value) as [Ha Hq], (last_bytes_spec value) as [Hb Hp].
  unfold mask_value, mask_keep_prefix.
  destruct (sc_mask_mode s); [|by left|]; (destruct (8 <? byte_len value)%nat; [right|by left]);
    by exists (first_bytes value), (last_bytes value).
Qed.

(** Observed: a value of nine bytes is masked to eight of them. *)
Theorem mask_nine_bytes :
  mask_value (scanner_new true (lit "block")) (lit "hunter200") = lit "hunt...r200".
Proof. reflexivity. Qed.
