(* ===== verification/ShellBleed.v ===== *)
(** * The scan of scripts before they run (nemesis-security/src/shell_bleed.rs)

    A command names scripts; what is on the disk under their names is read: a literal
    credential stops the command, the name of a sensitive variable is reported after
    it.  [is_sensitive_env_name] is of nemesis-utils/src/env_sanitize.rs.  The files
    are the record [BleedEnv]; the captures of the regex crate are a class.  In the
    expression a backtick stands for a double quote. *)
From S2P Require Import Prelude RustStr Utf8 Regex Matcher HostPath VirusScan Credential.
Local Open Scope nb_scope.

(** ** Sensitive variables *)

Definition WHITELIST : list string :=
  ["PATH"; "PATHEXT"; "HOME"; "HOMEDRIVE"; "HOMEPATH"; "SYSTEMROOT"; "SYSTEMDRIVE"; "COMSPEC";
   "WINDIR"; "TMP"; "TEMP"; "PWD"; "LANG"; "TERM"]%string.

Definition BLACKLIST_SUBSTRINGS : list string := ["KEY"; "TOKEN"; "SECRET"; "PASSWORD"; "CREDENTIAL"]%string.

(** [str::to_uppercase], from the Unicode tables of the standard library. *)
Definition ascii_upper (c : char) : char := if is_ascii_lower c then (c - 32)%N else c.

Class UnicodeUpper := {
  to_uppercase : str → str;
  to_uppercase_ascii : ∀ s, is_ascii s = true → to_uppercase s = ascii_upper <$> s;
}.

Definition ascii_uppercase : UnicodeUpper :=
  {| to_uppercase := fmap ascii_upper; to_uppercase_ascii := λ s _, eq_refl |}.

Definition is_sensitive_env_name `{!UnicodeUpper} (name : str) : bool :=
  let upper := to_uppercase name in
  if existsb (λ w, lit w =? upper) WHITELIST then false
  else if starts_with (lit "NEMESISBOT_") upper then true
  else existsb (λ s, contains (lit s) upper) BLACKLIST_SUBSTRINGS.

(** ** Words of a command *)

Definition MAX_SCRIPT_BYTES : N := (1024 * 1024)%N.
Definition BLEED_MAX_SCRIPTS : nat := 8.

Definition SCRIPT_EXTS : list string :=
  ["py"; "sh"; "js"; "mjs"; "cjs"; "ts"; "ps1"; "bat"; "cmd"; "rb"; "pl"; "lua"]%string.

(** The loop of [tokenize_segment]: the words so far, the current word and the open
    quote. *)
Fixpoint tokenize_go (s : str) (cur : str) (quote : option char) : list str :=
  match s with
  | [] => if nonempty cur then [cur] else []
  | c :: s =>
      match quote with
      | Some q => if N.eqb c q then tokenize_go s cur None else tokenize_go s (cur ++ [c]) quote
      | None =>
          if N.eqb c c_dquote || N.eqb c c_squote then tokenize_go s cur (Some c)
          else if is_ws c then
            if nonempty cur then cur :: tokenize_go s [] None else tokenize_go s cur None
          else tokenize_go s (cur ++ [c]) None
      end
  end.

Definition tokenize_segment (segment : str) : list str := tokenize_go segment [] None.

(** [strip_prefix("./").unwrap_or(token)]. *)
Definition strip_dot_slash (token : str) : str := default token (strip_prefix (lit "./") token).

Definition bleed_candidate `{!Platform} (token : str) : bool :=
  if starts_with [c_dash] token then false
  else match path_extension (strip_dot_slash token) with
       | Some e => existsb (λ x, lit x =? (ascii_lower <$> e)) SCRIPT_EXTS
       | None => false
       end.

Definition segment_end (c : char) : bool :=
  N.eqb c c_semi || N.eqb c c_pipe || N.eqb c c_amp || N.eqb c c_nl.

Definition extract_script_tokens `{!Platform} (command : str) : list str :=
  let normalized := replace_str (lit "||") (lit ";") (replace_str (lit "&&") (lit ";") command) in
  split_on segment_end normalized ≫= λ segment, List.filter bleed_candidate (tokenize_segment segment).

Definition resolve_candidate (token base : str) : str :=
  let t := strip_dot_slash token in
  if path_is_absolute t then t else path_join base t.

(** ** What a scan finds *)

Record LiteralHit := mkLiteral {
  lh_script : str;
  lh_pattern : str;
  lh_masked : str;
}.

Record EnvRefHit := mkEnvRef {
  er_script : str;
  er_var : str;
}.

#[export] Instance EnvRefHit_eq_dec : EqDecision EnvRefHit.
Proof. solve_decision. Defined.

Record ScriptScanOutcome := mkOutcome {
  so_literals : list LiteralHit;
  so_env_refs : list EnvRefHit;
  so_scanned : list str;
  so_skipped : list str;
}.

Definition outcome_default : ScriptScanOutcome := mkOutcome [] [] [] [].

Definition has_literals (o : ScriptScanOutcome) : bool :=
  match so_literals o with [] => false | _ => true end.

(** The loops that collect what has not been seen. *)
Definition push_new (l : list str) (x : str) : list str := if bool_decide (x ∈ l) then l else l ++ [x].

Definition distinct (l : list str) : list str := foldl push_new [] l.

(** [iter_mut().find] on the counters of the patterns. *)
Fixpoint count_pattern (p : str) (counts : list (str * nat)) : list (str * nat) :=
  match counts with
  | [] => [(p, 1)]
  | (q, n) :: counts => if q =? p then (q, S n) :: counts else (q, n) :: count_pattern p counts
  end.

Definition pattern_counts (hits : list LiteralHit) : list (str * nat) :=
  foldl (λ counts h, count_pattern (lh_pattern h) counts) [] hits.

Definition summary_part (literals : list LiteralHit) (script : str) : str :=
  let counts := pattern_counts (List.filter (λ l, lh_script l =? script) literals) in
  script ++ lit ": " ++ join (ulit "、") ((λ pn, fst pn ++ ulit "×" ++ show_nat (snd pn)) <$> counts).

Definition literal_summary (o : ScriptScanOutcome) : str :=
  join (ulit "；") (summary_part (so_literals o) <$> distinct (lh_script <$> so_literals o)).

Definition advisory_note (o : ScriptScanOutcome) : option str :=
  match so_env_refs o with
  | [] => None
  | refs => Some (ulit "[脚本提示: " ++ join (ulit "、") (distinct (er_script <$> refs))
                  ++ ulit " 引用了敏感环境变量（" ++ join (ulit "、") (distinct (er_var <$> refs))
                  ++ ulit "）；已放行执行。请确认脚本来源可信，勿将其读取的环境变量值发送到外部。")
  end.

(** ** References to variables *)

Definition backticks (s : string) : str := replace_char c_backtick [c_dquote] (lit s).

Definition env_ref_regex : str := backticks "(?x)
\$\{([A-Za-z_][A-Za-z0-9_]*)\}
| \$ENV\{['`]?([A-Za-z_][A-Za-z0-9_]*)['`]?\}
| process\.env\.([A-Za-z_][A-Za-z0-9_]*)
| process\.env\s*\[\s*['`]([A-Za-z_][A-Za-z0-9_]*)['`]
| environ(?:\.get)?\s*\(\s*['`]([A-Za-z_][A-Za-z0-9_]*)['`]
| getenv\s*\(\s*['`]([A-Za-z_][A-Za-z0-9_]*)['`]
| (?:environ|ENV)\s*\[\s*['`]([A-Za-z_][A-Za-z0-9_]*)['`]\s*\]
| %([A-Za-z_][A-Za-z0-9_]*)%
| \$([A-Za-z_][A-Za-z0-9_]*)
".

(** [Regex::captures_iter]: for every match the spans of its groups but the whole,
    within the match. *)
Class RegexCaptures `{RegexFind} := {
  captures_iter : str → str → list (list (option (nat * nat)));
  captures_within : ∀ src s,
    Forall2 (λ m, Forall (λ g, match g with
                               | Some (a, b) => fst m ≤ a ∧ a ≤ b ∧ b ≤ snd m
                               | None => True
                               end)) (find_iter src s) (captures_iter src s);
}.

(** ** The scan *)

(** The canonical path, what is there (a file or not, and its length) and its bytes;
    an error is its text. *)
Record BleedEnv := mkBleedEnv {
  be_canonicalize : str → option str;
  be_metadata : str → result (bool * N) str;
  be_read : str → result (list N) str;
}.

Section Scan.
Context {UU : UnicodeUpper} {PF : Platform} `{RegexCaptures}.

(** [cap.iter().skip(1).flatten()] over all matches. *)
Definition referenced (content : str) : list str :=
  captures_iter env_ref_regex content ≫= λ cap, span_text content <$> omap id cap.

Definition push_ref (refs : list EnvRefHit) (r : EnvRefHit) : list EnvRefHit :=
  if existsb (λ e, (er_script e =? er_script r) && (er_var e =? er_var r)) refs then refs else refs ++ [r].

Definition env_refs_of (script content : str) (refs : list EnvRefHit) : list EnvRefHit :=
  foldl (λ refs name, if is_sensitive_env_name name then push_ref refs (mkEnvRef script name) else refs)
    refs (referenced content).

(** [replace_all(content, "\0")]. *)
Definition scrub (content : str) : str :=
  replace_spans content 0 (find_iter env_ref_regex content) [c_nul].

Definition literals_of (credential : option Scanner) (script content : str) : list LiteralHit :=
  match credential with
  | Some scanner =>
      (λ m, mkLiteral script (cm_pattern_name m) (cm_redacted m))
        <$> cr_matches (scan_content scanner (scrub content))
  | None => []
  end.

Definition scan_one_script (script content : str) (credential : option Scanner) (out : ScriptScanOutcome)
    : ScriptScanOutcome :=
  mkOutcome (so_literals out ++ literals_of credential script content)
    (env_refs_of script content (so_env_refs out)) (so_scanned out) (so_skipped out).

Definition skip (out : ScriptScanOutcome) (why : str) : ScriptScanOutcome :=
  mkOutcome (so_literals out) (so_env_refs out) (so_scanned out) (so_skipped out ++ [why]).

(** The bytes of a candidate, or why there are none. *)
Definition script_bytes (env : BleedEnv) (token path : str) : result (list N) str :=
  match be_metadata env path with
  | Err e => Err (token ++ ulit ": 不可访问（" ++ e ++ ulit "）")
  | Ok (is_file, len) =>
      if negb is_file then Err (token ++ ulit ": 非常规文件")
      else if (MAX_SCRIPT_BYTES <? len)%N then
        Err (token ++ ulit ": 超过 " ++ show_nat (N.to_nat MAX_SCRIPT_BYTES) ++ ulit " 字节上限")
      else match be_read env path with
           | Err e => Err (token ++ ulit ": 读取失败（" ++ e ++ ulit "）")
           | Ok bytes => Ok bytes
           end
  end.

(** What tells two candidates apart. *)
Definition script_key (env : BleedEnv) (path : str) : str := default path (be_canonicalize env path).

Fixpoint scan_tokens (env : BleedEnv) (base : str) (credential : option Scanner) (tokens : list str)
    (seen : gset str) (out : ScriptScanOutcome) : ScriptScanOutcome :=
  match tokens with
  | [] => out
  | token :: tokens =>
      if (BLEED_MAX_SCRIPTS <=? length (so_scanned out))%nat then
        skip out (ulit "（候选超过 " ++ show_nat BLEED_MAX_SCRIPTS ++ ulit " 个，其余未扫描）")
      else
        let path := resolve_candidate token base in
        let key := script_key env path in
        if bool_decide (key ∈ seen) then scan_tokens env base credential tokens seen out
        else
          let seen := {[ key ]} ∪ seen in
          match script_bytes env token path with
          | Err why => scan_tokens env base credential tokens seen (skip out why)
          | Ok bytes =>
              let out := scan_one_script token (from_utf8_lossy bytes) credential out in
              scan_tokens env base credential tokens seen
                (mkOutcome (so_literals out) (so_env_refs out) (so_scanned out ++ [token]) (so_skipped out))
          end
  end.

Definition scan_scripts_for_exec (env : BleedEnv) (command base : str) (credential : option Scanner)
    : ScriptScanOutcome :=
  scan_tokens env base credential (extract_script_tokens command) ∅ outcome_default.

(** ** What is scanned *)

(** The text of a candidate that can be read. *)
Definition script_content (env : BleedEnv) (base token : str) : option str :=
  match script_bytes env token (resolve_candidate token base) with
  | Ok bytes => Some (from_utf8_lossy bytes)
  | Err _ => None
  end.

Definition token_key (env : BleedEnv) (base token : str) : str := script_key env (resolve_candidate token base).

(** The outcome is that of the scanned words, each on its own text. *)
Definition findings_of (env : BleedEnv) (base : str) (credential : option Scanner) (token : str) : list LiteralHit :=
  match script_content env base token with
  | Some content => literals_of credential token content
  | None => []
  end.

Definition refs_into (env : BleedEnv) (base token : str) (refs : list EnvRefHit) : list EnvRefHit :=
  match script_content env base token with
  | Some content => env_refs_of token content refs
  | None => refs
  end.

(** The first word of every key. *)
Fixpoint fresh (env : BleedEnv) (base : str) (seen : gset str) (tokens : list str) : list str :=
  match tokens with
  | [] => []
  | t :: tokens =>
      let key := token_key env base t in
      if bool_decide (key ∈ seen) then fresh env base seen tokens
      else t :: fresh env base ({[ key ]} ∪ seen) tokens
  end.

Definition readable (env : BleedEnv) (base token : str) : bool := bool_decide (is_Some (script_content env base token)).

Definition scripts_of (env : BleedEnv) (base : str) (room : nat) (seen : gset str) (tokens : list str) : list str :=
  take room (List.filter (readable env base) (fresh env base seen tokens)).

Lemma fresh_keys env base tokens seen :
  NoDup (token_key env base <$> fresh env base seen tokens) ∧
  (∀ t, t ∈ fresh env base seen tokens → t ∈ tokens ∧ token_key env base t ∉ seen) ∧
  (∀ t, t ∈ tokens → token_key env base t ∈ seen ∨
     token_key env base t ∈ token_key env base <$> fresh env base seen tokens).
Proof.
  revert seen. induction tokens as [|t tokens IH]; intros seen; cbn [fresh].
  { split_and!; [constructor|by intros ? ?%elem_of_nil..]. }
  case_bool_decide as Hin.
  - destruct (IH seen) as (Hn & Hf & Hc). split_and!; [done| |].
    + intros x Hx. destruct (Hf x Hx). split; [by right|done].
    + intros x [->|Hx]%elem_of_cons; [by left|by apply Hc].
  - destruct (IH ({[ token_key env base t ]} ∪ seen)) as (Hn & Hf & Hc). rewrite fmap_cons. split_and!.
    + constructor; [|done]. intros (x & Hk & Hx)%list_elem_of_fmap. destruct (Hf x Hx) as [_ Hx']. set_solver.
    + intros x [->|Hx]%elem_of_cons; [split; [by left|done]|]. destruct (Hf x Hx). split; [by right|set_solver].
    + intros x [->|Hx]%elem_of_cons; [right; by left|]. destruct (Hc x Hx) as [Hk|?]; [|right; by right].
      apply elem_of_union in Hk as [Hk%elem_of_singleton|?]; [right; rewrite Hk; by left|by left].
Qed.

Lemma scan_tokens_eq env base credential tokens : ∀ seen out,
  let new := scripts_of env base (BLEED_MAX_SCRIPTS - length (so_scanned out)) seen tokens in
  let out' := scan_tokens env base credential tokens seen out in
  so_scanned out' = so_scanned out ++ new ∧
  so_literals out' = so_literals out ++ (new ≫= findings_of env base credential) ∧
  so_env_refs out' = foldl (λ refs t, refs_into env base t refs) (so_env_refs out) new.
Proof.
  induction tokens as [|t tokens IH]; intros seen out; unfold scripts_of; cbn [fresh scan_tokens]; cbn zeta.
  { cbn [List.filter]. rewrite take_nil. by rewrite !app_nil_r. }
  destruct (Nat.leb_spec BLEED_MAX_SCRIPTS (length (so_scanned out))) as [Hle|Hlt].
  { replace (_ - _)%nat with 0%nat by lia. rewrite take_0. by rewrite !app_nil_r. }
  fold (token_key env base t). case_bool_decide as Hin; [apply IH|].
  assert (readable env base t = match script_bytes env t (resolve_candidate t base) with Ok _ => true | Err _ => false end) as Hr.
  { unfold readable, script_content. destruct (script_bytes _ _ _); [by apply bool_decide_true|].
    apply bool_decide_false. by intros [? ?]. }
  cbn [List.filter]. rewrite Hr. destruct (script_bytes env t (resolve_candidate t base)) as [bytes|why] eqn:E.
  - destruct (BLEED_MAX_SCRIPTS - length (so_scanned out))%nat as [|room] eqn:Er; [lia|]. cbn [take].
    match goal with |- context [scan_tokens env base credential tokens ?s ?o] =>
      destruct (IH s o) as (-> & -> & ->) end.
    cbn [so_scanned so_literals so_env_refs scan_one_script]. rewrite length_app. cbn [length].
    replace (BLEED_MAX_SCRIPTS - (length (so_scanned out) + 1))%nat with room by lia.
    unfold scripts_of. rewrite <- !app_assoc. cbn [app mbind list_bind foldl].
    unfold findings_of at 2, refs_into at 3, script_content. by rewrite E.
  - match goal with |- context [scan_tokens env base credential tokens ?s ?o] =>
      destruct (IH s o) as (-> & -> & ->) end.
    done.
Qed.

Lemma filter_bool_sublist {A} (f : A → bool) (l : list A) : List.filter f l `sublist_of` l.
Proof. induction l as [|x l IH]; simpl; [constructor|]. destruct (f x); by constructor. Qed.

Lemma matches_reported scanner content :
  cr_has_matches (scan_content scanner content) = match cr_matches (scan_content scanner content) with [] => false | _ => true end.
Proof. unfold scan_content. by destruct (negb _). Qed.

Lemma literals_found credential t content :
  (∃ h, h ∈ literals_of credential t content) ↔
  ∃ scanner, credential = Some scanner ∧ cr_has_matches (scan_content scanner (scrub content)) = true.
Proof.
  destruct credential as [scanner|]; cbn [literals_of].
  - split.
    + intros (h & (m & _ & Hm)%list_elem_of_fmap). exists scanner. split; [done|].
      rewrite matches_reported. apply some_matches. by exists m.
    + intros (? & [= <-] & Hm). rewrite matches_reported in Hm. apply some_matches in Hm as [m Hm].
      eexists. apply list_elem_of_fmap. by exists m.
  - split; [by intros [? ?%elem_of_nil]|by intros (? & ? & _)].
Qed.

(** Also: the scan of a command reads, of its words that name scripts, the first eight that
    are readable and name different files, and no word twice; what it reports is what
    their texts give, in their order. *)
Theorem script_scan_exact env command base credential :
  let tokens := extract_script_tokens command in
  let o := scan_scripts_for_exec env command base credential in
  let scripts := scripts_of env base BLEED_MAX_SCRIPTS ∅ tokens in
  so_scanned o = scripts ∧
  so_literals o = scripts ≫= findings_of env base credential ∧
  so_env_refs o = foldl (λ refs t, refs_into env base t refs) [] scripts ∧
  NoDup (token_key env base <$> scripts) ∧
  (has_literals o = true ↔
   ∃ t scanner content, t ∈ scripts ∧ credential = Some scanner ∧ script_content env base t = Some content ∧
     cr_has_matches (scan_content scanner (scrub content)) = true).
Proof.
  cbn zeta. destruct (scan_tokens_eq env base credential (extract_script_tokens command) ∅ outcome_default)
    as (Hs & Hl & Hr).
  split_and!; [exact Hs|exact Hl|exact Hr| |].
  { unfold scripts_of. destruct (fresh_keys env base (extract_script_tokens command) ∅) as (Hn & _).
    eapply sublist_NoDup; [exact Hn|]. apply fmap_sublist. etrans; [apply sublist_take|apply filter_bool_sublist]. }
  unfold has_literals, scan_scripts_for_exec. rewrite Hl. cbn [outcome_default so_literals app].
  rewrite some_matches. split.
  - intros (h & (t & Hh & Ht)%list_elem_of_bind). unfold findings_of in Hh.
    destruct (script_content env base t) as [content|] eqn:E; [|by apply elem_of_nil in Hh].
    destruct (proj1 (literals_found credential t content)) as (scanner & Hc & Hm); [by exists h|].
    by exists t, scanner, content.
  - intros (t & scanner & content & Ht & Hc & E & Hm).
    destruct (proj2 (literals_found credential t content)) as [h Hh]; [by exists scanner|].
    exists h. apply list_elem_of_bind. exists t. split; [|done]. unfold findings_of. by rewrite E.
Qed.
End Scan.

(** ** Words and quotes *)

Lemma tokenize_go_plain s cur : Forall (λ c, (N.eqb c c_dquote || N.eqb c c_squote) = false) s →
  tokenize_go s cur None = List.filter nonempty
    (match split_on is_ws s with [] => [cur] | t :: ts => (cur ++ t) :: ts end).
Proof.
  revert cur. induction s as [|c s IH]; intros cur Hs; cbn [tokenize_go split_on].
  { cbn [List.filter]. by rewrite app_nil_r. }
  apply Forall_cons in Hs as [-> Hs]. destruct (is_ws c).
  - rewrite app_nil_r. cbn [List.filter]. destruct (nonempty cur) eqn:E.
    + rewrite IH by done. by destruct (split_on is_ws s).
    + destruct cur; [|done]. rewrite IH by done. by destruct (split_on is_ws s).
  - rewrite IH by done. destruct (split_on is_ws s); [done|]. by rewrite <- app_assoc.
Qed.

(** Also: without quotes the words of a command are those between white space. *)
Theorem tokenize_unquoted s :
  c_dquote ∉ s → c_squote ∉ s → tokenize_segment s = split_whitespace s.
Proof.
  intros Hd Hq. unfold tokenize_segment, split_whitespace. rewrite tokenize_go_plain.
  - by destruct (split_on is_ws s).
  - apply Forall_forall. intros c Hc. apply orb_false_iff. split; apply N.eqb_neq; by intros ->.
Qed.

Lemma tokenize_plain_witness :
  (c_dquote ∉ lit "bash a.sh") ∧ tokenize_segment (lit "bash a.sh") = [lit "bash"; lit "a.sh"].
Proof.
  assert (∀ c, bool_decide (c ∈ lit "bash a.sh") = false → c ∉ lit "bash a.sh") as Hn
    by (intros c; apply bool_decide_eq_false_1).
  split; [by apply Hn|].
  etrans; [apply (tokenize_unquoted (lit "bash a.sh")); by apply Hn|reflexivity].
Defined.

Lemma tokenize_go_quoted q w s cur : q ∉ w →
  tokenize_go (w ++ q :: s) cur (Some q) = tokenize_go s (cur ++ w) None.
Proof.
  revert cur. induction w as [|c w IH]; intros cur Hq; cbn [app tokenize_go].
  { by rewrite N.eqb_refl, app_nil_r. }
  apply not_elem_of_cons in Hq as [Hc Hq]. destruct (N.eqb_spec c q); [by subst|].
  rewrite IH by done. by rewrite <- app_assoc.
Qed.

(** ** Reports *)

Definition times (p : str) (hits : list LiteralHit) : nat := length (List.filter (λ h, lh_pattern h =? p) hits).

Lemma count_pattern_spec p counts : NoDup (fst <$> counts) →
  NoDup (fst <$> count_pattern p counts) ∧
  ∀ q n, (q, n) ∈ count_pattern p counts ↔
    (q ≠ p ∧ (q, n) ∈ counts) ∨
    (q = p ∧ ((∃ m, (p, m) ∈ counts ∧ n = S m) ∨ ((p ∉ fst <$> counts) ∧ n = 1%nat))).
Proof.
  induction counts as [|[r m] counts IH]; intros Hn; cbn [count_pattern].
  { split; [by repeat constructor; intros ?%elem_of_nil|]. intros q n. split.
    - intros [= -> ->]%list_elem_of_singleton. right. split; [done|]. right. split; [|done]. by intros ?%elem_of_nil.
    - intros [[_ ?%elem_of_nil]|(-> & [(m & ?%elem_of_nil & _)|[_ ->]])]; [done..|]. by left. }
  rewrite fmap_cons in Hn. apply NoDup_cons in Hn as [Hr Hn]. cbn [fst] in Hr. case_bool_decide as Hp.
  - subst r. split; [by rewrite fmap_cons; constructor|]. intros q n. rewrite !elem_of_cons. split.
    + intros [[= -> ->]|Hq]; [right; split; [done|]; left; exists m; split; [by left|done]|].
      left. split; [|by right]. intros ->. apply Hr, list_elem_of_fmap. by exists (p, n).
    + intros [(Hq & [[= ? ?]|?])|(-> & [(m' & Hm & ->)|[Hf _]])]; [done|by right| |].
      * left. apply elem_of_cons in Hm as [[= ->]|Hm]; [done|]. exfalso. apply Hr, list_elem_of_fmap. by exists (p, m').
      * exfalso. apply Hf. by left.
  - destruct (IH Hn) as [Hn' He]. split.
    + rewrite fmap_cons. constructor; [|done]. cbn [fst]. intros ([q n] & -> & Hq)%list_elem_of_fmap.
      apply He in Hq as [[_ Hq]|[Hq _]]; [|done]. apply Hr, list_elem_of_fmap. by exists (q, n).
    + intros q n. rewrite elem_of_cons, He, fmap_cons, not_elem_of_cons, elem_of_cons. cbn [fst]. split.
      * intros [[= -> ->]|[[? ?]|(-> & [(k & ? & ->)|[? ->]])]]; [left; split; [done|by left]|left; split; [done|by right]|right..].
        -- split; [done|]. left. exists k. split; [by right|done].
        -- split; [done|]. right. by split.
      * intros [(? & [[= -> ->]|?])|(-> & [(k & [[= ? ?]|?]%elem_of_cons & ->)|[[? ?] ->]])];
          [by left|right; by left|done|right; right; split; [done|]..].
        -- left. by exists k.
        -- by right.
Qed.

Lemma times_snoc p hits h : times p (hits ++ [h]) = (times p hits + if decide (lh_pattern h = p) then 1 else 0)%nat.
Proof.
  unfold times. rewrite List.filter_app, length_app. cbn [List.filter]. f_equal.
  case_bool_decide; destruct (decide _); done.
Qed.

(** Also: the counters of a report name every pattern that was hit once, with the number
    of its hits. *)
Theorem pattern_counts_exact hits :
  NoDup (fst <$> pattern_counts hits) ∧
  ∀ p n, (p, n) ∈ pattern_counts hits ↔ (0 < n)%nat ∧ n = times p hits.
Proof.
  unfold pattern_counts. induction hits as [|h hits IH] using rev_ind.
  { split; [constructor|]. intros p n. cbn. split; [by intros ?%elem_of_nil|]. intros [? ->]. lia. }
  rewrite foldl_app. cbn [foldl]. destruct IH as [Hn He].
  destruct (count_pattern_spec (lh_pattern h) _ Hn) as [Hn' He']. split; [done|].
  intros p n. rewrite He', times_snoc. destruct (decide (lh_pattern h = p)) as [<-|Hp].
  - assert (lh_pattern h ∉ fst <$> foldl (λ counts h, count_pattern (lh_pattern h) counts) [] hits ↔
            times (lh_pattern h) hits = 0%nat) as Hf.
    { split.
      - intros Hf. destruct (times (lh_pattern h) hits) as [|m] eqn:E; [done|]. exfalso. apply Hf, list_elem_of_fmap.
        exists (lh_pattern h, S m). split; [done|]. apply He. split; [lia|done].
      - intros Ht ([q m] & Hq & Hm)%list_elem_of_fmap. cbn in Hq. subst q. apply He in Hm. lia. }
    rewrite Hf. split.
    + intros [[? _]|(_ & [(m & Hm & ->)|[Ht ->]])]; [done| |lia]. apply He in Hm. lia.
    + intros [_ ->]. right. split; [done|]. destruct (times (lh_pattern h) hits) as [|m] eqn:E; [by right|].
      left. exists (S m). split; [apply He; lia|lia].
  - rewrite He, Nat.add_0_r. split; [intros [[_ ?]|[? _]]; [done|congruence]|]. intros ?. left. by split.
Qed.

(** An instance without groups, to run the model. *)
#[refine] Definition literal_captures : @RegexCaptures literal_engine literal_find :=
  {| captures_iter := λ src s, (λ _, []) <$> literal_spans src s |}.
Proof. intros src s. cbn. induction (literal_spans src s); by repeat constructor. Defined.
