(* ===== verification/AuditLog.v ===== *)
(** * The audit log file (nemesis-security/src/audit_log.rs)

    One line per event in a file per day.  The files are a map from paths to texts;
    what the operating system answers to the creation of the directory and to the
    operations on the file comes from outside, as do dates and times. *)
From S2P Require Import Prelude RustStr Utils.
Local Open Scope nb_scope.

(** ** State *)

Record AuditLogConfig := mkLogConfig {
  lc_audit_log_dir : str;
  lc_enabled : bool;
}.

(** The open file is the path it writes to. *)
Record AuditLogger := mkLogger {
  lg_config : AuditLogConfig;
  lg_log_file : option str;
  lg_log_file_path : option str;
}.

Abbreviation Files := (gmap str str).

(** Answers of the operating system; an error is its text. *)
Record LogIo := mkLogIo {
  io_create_dir : result unit str;
  io_open : result unit str;
  io_metadata : result unit str;
  io_write : result unit str;
}.

(** ** Sanitizing *)

Definition is_line_char (c : char) : bool := N.eqb c c_nl || N.eqb c c_cr || N.eqb c 9.

(** [replace(['\n', '\r', '\t'], " ")]. *)
Definition flatten (s : str) : str := (λ c, if is_line_char c then c_space else c) <$> s.

Definition sanitize_target (target : str) : str := truncate (flatten target) 200.
Definition sanitize_reason (reason : str) : str := truncate (flatten reason) 100.

Definition sanitize_csv (s : str) : str :=
  if contains_char c_dquote s || contains_char (ch ",") s || contains_char c_nl s
  then [c_dquote] ++ replace_char c_dquote [c_dquote; c_dquote] s ++ [c_dquote]
  else s.

(** ** The logger *)

Definition log_header : str :=
  lit "# NemesisBot Security Audit Log" ++ [c_nl] ++
  lit "# Format: TIMESTAMP | EVENT_ID | DECISION | OPERATION | USER | SOURCE | TARGET | DANGER | REASON | POLICY"
  ++ [c_nl] ++
  lit "# ==============================================================================================================" ++ [c_nl].

Definition logger_disabled : AuditLogger := mkLogger (mkLogConfig [] false) None None.

Definition log_file_name (date : str) : str := lit "security_audit_" ++ date ++ lit ".log".

(** [Path::join] on the names the program uses. *)
Definition log_path (dir date : str) : str := dir ++ [c_slash] ++ log_file_name date.

Definition init_log_file (io : LogIo) (date : str) (lg : AuditLogger) (files : Files)
    : Files * result AuditLogger str :=
  let dir := lc_audit_log_dir (lg_config lg) in
  if negb (nonempty dir) then (files, Err (lit "audit log directory not configured"))
  else
    match io_create_dir io with
    | Err e => (files, Err (lit "failed to create audit log directory: " ++ e))
    | Ok _ =>
        let path := log_path dir date in
        match io_open io with
        | Err e => (files, Err (lit "failed to open audit log file: " ++ e))
        | Ok _ =>
            let content := default [] (files !! path) in
            let files := <[path := content]> files in
            match io_metadata io with
            | Err e => (files, Err (lit "failed to stat file: " ++ e))
            | Ok _ =>
                let opened := mkLogger (lg_config lg) (Some path) (Some path) in
                if nonempty content then (files, Ok opened)
                else
                  match io_write io with
                  | Err e => (files, Err (lit "failed to write audit log header: " ++ e))
                  | Ok _ => (<[path := log_header]> files, Ok opened)
                  end
            end
        end
    end.

Definition logger_new (io : LogIo) (date : str) (config : AuditLogConfig) (files : Files)
    : Files * result AuditLogger str :=
  let lg := mkLogger config None None in
  if lc_enabled config then init_log_file io date lg files else (files, Ok lg).

(** The arguments of [log_event] and the time. *)
Record LogEvent := mkLogEvent {
  le_timestamp : str;
  le_event_id : str;
  le_decision : str;
  le_operation : str;
  le_user : str;
  le_source : str;
  le_target : str;
  le_danger_level : str;
  le_reason : str;
  le_policy_rule : str;
}.

Definition log_line (e : LogEvent) : str :=
  join (lit " | ") [le_timestamp e; le_event_id e; le_decision e; le_operation e; le_user e; le_source e;
                    sanitize_target (le_target e); le_danger_level e; sanitize_reason (le_reason e);
                    le_policy_rule e].

(** The file; the record for the tracing output is left out.  A write that fails is
    ignored. *)
Definition log_event (write_ok : bool) (lg : AuditLogger) (e : LogEvent) (files : Files) : Files :=
  if lc_enabled (lg_config lg) then
    match lg_log_file lg with
    | Some path =>
        if write_ok then <[path := default [] (files !! path) ++ log_line e ++ [c_nl]]> files else files
    | None => files
    end
  else files.

(** Copy the file, or write a line that says there is none. *)
Definition export_log (io : LogIo) (lg : AuditLogger) (destination : str) (files : Files)
    : Files * result unit str :=
  match io_create_dir io with
  | Err e => (files, Err (lit "failed to create export directory: " ++ e))
  | Ok _ =>
      match lg_log_file_path lg with
      | Some src =>
          match files !! src with
          | None => (files, Err (lit "failed to read audit log file"))
          | Some content =>
              match io_write io with
              | Err e => (files, Err (lit "failed to write exported audit log: " ++ e))
              | Ok _ => (<[destination := content]> files, Ok tt)
              end
          end
      | None =>
          match io_write io with
          | Err e => (files, Err (lit "failed to write empty export: " ++ e))
          | Ok _ => (<[destination := lit "# NemesisBot Security Audit Log (empty)" ++ [c_nl]]> files, Ok tt)
          end
      end
  end.

(** ** Lemmas *)

Lemma flatten_clean s c : c ∈ flatten s → is_line_char c = false.
Proof.
  intros (x & -> & _)%list_elem_of_fmap. destruct (is_line_char x) eqn:E; [done|exact E].
Qed.

Lemma elem_of_truncate c s n : c ∈ truncate s n → c ∈ s ∨ c ∈ ellipsis.
Proof.
  rewrite truncate_eq. destruct (byte_len s <=? n)%nat; [by left|].
  destruct (byte_take_len s (n - 3)) as [_ [q Hq]].
  rewrite elem_of_app. intros [Hc|Hc]; [left|by right]. rewrite Hq. apply elem_of_app. by left.
Qed.

Lemma ellipsis_clean : c_nl ∉ ellipsis.
Proof. apply (bool_decide_unpack _). vm_compute. exact I. Qed.

Lemma truncate_flat_clean s n : c_nl ∉ truncate (flatten s) n.
Proof. intros [Hc|Hc]%elem_of_truncate; [by apply flatten_clean in Hc|by apply ellipsis_clean]. Qed.

Lemma elem_of_join c sep l : c ∈ join sep l → c ∈ sep ∨ ∃ t, t ∈ l ∧ c ∈ t.
Proof.
  induction l as [|t l IH]; [by intros ?%elem_of_nil|]. destruct l as [|t' l].
  - intros Hc. right. exists t. split; [by left|done].
  - rewrite join_cons, !elem_of_app by done. intros [Hc|[Hc|Hc]].
    + right. exists t. split; [by left|done].
    + by left.
    + destruct (IH Hc) as [?|(t0 & ? & ?)]; [by left|]. right. exists t0. split; [by right|done].
Qed.

(** The fields that are written as they are. *)
Definition raw_fields (e : LogEvent) : list str :=
  [le_timestamp e; le_event_id e; le_decision e; le_operation e; le_user e; le_source e;
   le_danger_level e; le_policy_rule e].

Lemma log_line_clean e : Forall (λ f, c_nl ∉ f) (raw_fields e) → c_nl ∉ log_line e.
Proof.
  intros Hf [Hc|(t & Ht & Hc)]%elem_of_join.
  { assert (c_nl ∉ lit " | ") as Hn by (apply (bool_decide_unpack _); vm_compute; exact I). done. }
  rewrite Forall_forall in Hf. unfold raw_fields in Hf.
  repeat (apply elem_of_cons in Ht as [->|Ht]); try by apply elem_of_nil in Ht.
  all: first [by apply truncate_flat_clean in Hc|refine (Hf _ _ Hc); set_solver].
Qed.

Lemma count_nl_clean s : c_nl ∉ s → length (split_on (N.eqb c_nl) s) = 1.
Proof.
  induction s as [|c s IH]; [done|]. intros [Hc Hs]%not_elem_of_cons. cbn [split_on].
  destruct (N.eqb_spec c_nl c); [done|]. specialize (IH Hs).
  by destruct (split_on (N.eqb c_nl) s) as [|t [|]].
Qed.

Lemma split_on_length_app p a b :
  length (split_on p (a ++ b)) + 1 = length (split_on p a) + length (split_on p b).
Proof.
  assert (∀ s, split_on p s ≠ []) as Hne.
  { intros [|c s]; [done|]. cbn. destruct (p c); [done|]. by destruct (split_on p s). }
  induction a as [|c a IH]; [simpl; lia|]. cbn [split_on app].
  destruct (p c); [simpl; lia|]. pose proof (Hne (a ++ b)). pose proof (Hne a).
  destruct (split_on p (a ++ b)), (split_on p a); simpl in *; try done; lia.
Qed.

(** A reader of CSV: a field in quotes ends at a quote that is not doubled, any other
    at a comma or a line feed. *)
Fixpoint read_quoted (s : str) : option (str * str) :=
  match s with
  | [] => None
  | c :: s' =>
      if N.eqb c c_dquote then
        match s' with
        | d :: s'' => if N.eqb d c_dquote then prod_map (cons c_dquote) id <$> read_quoted s''
                      else Some ([], s')
        | [] => Some ([], [])
        end
      else prod_map (cons c) id <$> read_quoted s'
  end.

Definition field_end (c : char) : bool := N.eqb c (ch ",") || N.eqb c c_nl.

Fixpoint read_plain (s : str) : str * str :=
  match s with
  | [] => ([], [])
  | c :: s' => if field_end c then ([], s) else prod_map (cons c) id (read_plain s')
  end.

Definition read_field (s : str) : option (str * str) :=
  match s with
  | c :: s' => if N.eqb c c_dquote then read_quoted s' else Some (read_plain s)
  | [] => Some ([], [])
  end.

Lemma read_quoted_app s rest :
  (∀ c, head rest = Some c → c ≠ c_dquote) →
  read_quoted (replace_char c_dquote [c_dquote; c_dquote] s ++ c_dquote :: rest) = Some (s, rest).
Proof.
  intros Hr. induction s as [|c s IH].
  - change (read_quoted (c_dquote :: rest) = Some ([], rest)). cbn [read_quoted]. rewrite N.eqb_refl.
    destruct rest as [|d rest]; [done|]. specialize (Hr d eq_refl).
    by destruct (N.eqb_spec d c_dquote).
  - change (replace_char c_dquote [c_dquote; c_dquote] (c :: s)) with
      ((if N.eqb c c_dquote then [c_dquote; c_dquote] else [c]) ++ replace_char c_dquote [c_dquote; c_dquote] s).
    rewrite <- app_assoc. destruct (N.eqb_spec c c_dquote) as [->|Hc]; cbn [app read_quoted].
    + by rewrite !N.eqb_refl, IH.
    + apply N.eqb_neq in Hc. by rewrite Hc, IH.
Qed.

Lemma read_plain_app s rest :
  (∀ c, c ∈ s → field_end c = false) → (∀ c, head rest = Some c → field_end c = true) →
  read_plain (s ++ rest) = (s, rest).
Proof.
  intros Hs Hr. induction s as [|c s IH]; cbn.
  - destruct rest as [|d rest]; [done|]. cbn. by rewrite (Hr d eq_refl).
  - rewrite (Hs c) by by left. rewrite IH; [done|]. intros x Hx. apply Hs. by right.
Qed.

(** ** Properties *)

(** Also: an event with clean fields becomes one line: the text of the file grows by a
    line without line feeds and nothing else changes, in it the target takes at most
    200 bytes and the reason at most 100; without a file nothing is written. *)
Theorem log_event_one_line lg e files path :
  lc_enabled (lg_config lg) = true → lg_log_file lg = Some path →
  Forall (λ f, c_nl ∉ f) (raw_fields e) →
  let files' := log_event true lg e files in
  let old := default [] (files !! path) in
  files' !! path = Some (old ++ log_line e ++ [c_nl]) ∧
  length (split_on (N.eqb c_nl) (default [] (files' !! path))) = S (length (split_on (N.eqb c_nl) old)) ∧
  (∀ p, p ≠ path → files' !! p = files !! p) ∧
  byte_len (sanitize_target (le_target e)) ≤ 200 ∧ byte_len (sanitize_reason (le_reason e)) ≤ 100.
Proof.
  intros He Hp Hf. unfold log_event. rewrite He, Hp. split_and!.
  - by rewrite lookup_insert_eq.
  - rewrite lookup_insert_eq. set (old := default [] (files !! path)).
    change (length (split_on (N.eqb c_nl) (old ++ log_line e ++ [c_nl])) = S (length (split_on (N.eqb c_nl) old))).
    pose proof (split_on_length_app (N.eqb c_nl) old (log_line e ++ [c_nl])) as H1.
    pose proof (split_on_length_app (N.eqb c_nl) (log_line e) [c_nl]) as H2.
    rewrite (count_nl_clean _ (log_line_clean e Hf)) in H2.
    change (length (split_on (N.eqb c_nl) [c_nl])) with 2 in H2. lia.
  - intros p Hne. by rewrite lookup_insert_ne.
  - apply (truncate_spec (flatten (le_target e)) 200).
  - apply (truncate_spec (flatten (le_reason e)) 100).
Qed.

Lemma log_event_one_line_witness :
  let e := mkLogEvent (lit "t") (lit "evt-1") (lit "denied") (lit "file_read") (lit "u") (lit "cli")
             (lit "/etc/x" ++ [c_nl] ++ lit "y") (lit "HIGH") (lit "no") (lit "abac") in
  let lg := mkLogger (mkLogConfig (lit "/l") true) (Some (lit "/l/a")) (Some (lit "/l/a")) in
  log_event true lg e ∅ !! lit "/l/a"
  = Some (lit "t | evt-1 | denied | file_read | u | cli | /etc/x y | HIGH | no | abac" ++ [c_nl]) ∧
  log_event true lg e ∅ !! lit "/l/a" = Some (log_line e ++ [c_nl]).
Proof.
  split; [vm_compute; reflexivity|].
  exact (proj1 (log_event_one_line
    (mkLogger (mkLogConfig (lit "/l") true) (Some (lit "/l/a")) (Some (lit "/l/a")))
    (mkLogEvent (lit "t") (lit "evt-1") (lit "denied") (lit "file_read") (lit "u") (lit "cli")
       (lit "/etc/x" ++ [c_nl] ++ lit "y") (lit "HIGH") (lit "no") (lit "abac")) ∅ (lit "/l/a")
    eq_refl eq_refl ltac:(apply (bool_decide_unpack _); vm_compute; exact I))).
Defined.

(** Also: what [sanitize_csv] writes is read back as one field by a reader that follows
    RFC 4180, whatever the text and whatever field or line follows. *)
Theorem csv_roundtrip s rest :
  (∀ c, head rest = Some c → field_end c = true) →
  read_field (sanitize_csv s ++ rest) = Some (s, rest).
Proof.
  intros Hr. unfold sanitize_csv. destruct (_ || _) eqn:E.
  - rewrite <- !app_assoc. cbn [app read_field]. rewrite N.eqb_refl. apply read_quoted_app.
    intros c Hc ->. by specialize (Hr _ Hc).
  - rewrite !orb_false_iff, !contains_char_false in E. destruct E as [[Hq Hc] Hn].
    assert (read_plain (s ++ rest) = (s, rest)) as Hp.
    { apply read_plain_app; [|done]. intros c Hin. unfold field_end. apply orb_false_iff.
      split; apply N.eqb_neq; intros ->; done. }
    unfold read_field. destruct s as [|x s]; cbn [app] in *.
    + destruct rest as [|c rest]; [done|]. specialize (Hr c eq_refl).
      destruct (N.eqb_spec c c_dquote) as [->|]; [done|]. by rewrite Hp.
    + destruct (N.eqb_spec x c_dquote) as [->|]; [|by rewrite Hp]. exfalso. apply Hq. by left.
Qed.

Lemma csv_roundtrip_witness :
  sanitize_csv (lit "a,b") = [c_dquote] ++ lit "a,b" ++ [c_dquote] ∧
  read_field (sanitize_csv (lit "a,b") ++ lit ",next") = Some (lit "a,b", lit ",next").
Proof. split; [reflexivity|]. apply csv_roundtrip. intros c [= <-]. reflexivity. Defined.

(** Observed: the user is written as it is: a line feed in it ends the line, and what
    follows reads like an event of its own. *)
Theorem user_forges_line :
  let forged := lit "t | evt-9 | allowed | process_exec | root | cli | ls | CRITICAL | ok | abac" in
  let e := mkLogEvent (lit "t") (lit "evt-1") (lit "denied") (lit "file_read")
             (lit "eve" ++ [c_nl] ++ forged ++ [c_nl] ++ lit "x") (lit "cli") (lit "/f") (lit "HIGH")
             (lit "no") (lit "abac") in
  lines (log_line e) !! 1 = Some forged.
Proof. vm_compute. reflexivity. Qed.
