(* ===== verification/ApprovalRules.v ===== *)
(** * Approval memory (nemesis-security/src/approval_rules.rs)

    The "always allow" table: the pattern written for an approved operation, the
    test that applies a stored rule, the safety gate on danger levels, and the
    read-modify-write of the rules file.  The file itself is a value of
    [RulesFile]; parsing and the file system decide which. *)
From S2P Require Import Prelude RustStr CommandArity.
Local Open Scope nb_scope.

(** ** Rules *)

Record ApprovalRule := mkApprovalRule {
  ar_op : str;
  ar_pattern : str;
  ar_action : str;
  ar_created_at : str;
}.

#[export] Instance ApprovalRule_eq_dec : EqDecision ApprovalRule.
Proof. solve_decision. Defined.

(** Operations whose target is a command line. *)
Definition is_command_op (op : str) : bool :=
  (op =? lit "process_exec") || (op =? lit "process_spawn").

(** Operations that install code. *)
Definition is_install_op (op : str) : bool :=
  (op =? lit "plugins.install") || (op =? lit "skills.install").

Definition prefix_mark : str := [c_space; c_star].

(** The pattern remembered for an operation; the empty string is no rule. *)
Definition pattern_for (op target : str) : str :=
  let target := trim target in
  if target =? [] then []
  else if is_command_op op then
    if (1 <? length (command_segments target))%nat then []
    else
      let reduced := reduce_command target in
      if reduced =? [] then []
      else if ends_with prefix_mark reduced then reduced
      else reduced ++ prefix_mark
  else target.

(** May the table decide this operation at this danger level? *)
Definition rule_permitted_for (op risk : str) : bool :=
  if is_install_op op then false
  else (risk <>? lit "CRITICAL") || is_command_op op.

(** [prefix_hits]: the tokens of a segment, without its environment prefix,
    start with the tokens of the pattern. *)
Definition prefix_hits (prefix_tokens : list str) (seg : str) : bool :=
  tokens_prefix prefix_tokens (strip_env_tokens (tokenize_command seg)).

Definition matches_rule (rule_op rule_pattern op target : str) : bool :=
  if (rule_op <>? op) || (rule_pattern =? []) || (target =? []) then false
  else if rule_pattern =? lit "*" then false
  else match strip_suffix prefix_mark rule_pattern with
  | Some prefix =>
      let prefix_tokens := tokenize_command prefix in
      if prefix_tokens =? [] then false
      else if is_command_op rule_op then
        let segments := command_segments target in
        (segments <>? []) && forallb (prefix_hits prefix_tokens) segments
      else prefix_hits prefix_tokens target
  | None =>
      if is_command_op rule_op then
        tokenize_command rule_pattern =? strip_env_tokens (tokenize_command target)
      else rule_pattern =? target
  end.

Definition find_auto_allow_rule (rules : list ApprovalRule) (op target risk : str)
    : option ApprovalRule :=
  if negb (rule_permitted_for op risk) then None
  else List.find (λ r, (ar_action r =? lit "allow")
                       && matches_rule (ar_op r) (ar_pattern r) op target) rules.

(** ** The table *)

Definition same_key (op pattern : str) (r : ApprovalRule) : bool :=
  (ar_op r =? op) && (ar_pattern r =? pattern).

(** Refresh the first rule with this key. *)
Fixpoint refresh_first (now op pattern : str) (rules : list ApprovalRule)
    : option (list ApprovalRule) :=
  match rules with
  | [] => None
  | r :: rules =>
      if same_key op pattern r then
        Some (mkApprovalRule (ar_op r) (ar_pattern r) (ar_action r) now :: rules)
      else cons r <$> refresh_first now op pattern rules
  end.

(** [upsert_rule]: the new table and whether it changed; [now] is the clock. *)
Definition upsert_rule (now : str) (rules : list ApprovalRule) (op pattern : str)
    : list ApprovalRule * bool :=
  if pattern =? [] then (rules, false)
  else match refresh_first now op pattern rules with
  | Some rules' => (rules', true)
  | None => (rules ++ [mkApprovalRule op pattern (lit "allow") now], true)
  end.

(** ** The rules file *)

Inductive RulesFile :=
| Missing
| Malformed
| Rules (rules : list ApprovalRule).

Definition load_rules (f : RulesFile) : list ApprovalRule :=
  match f with
  | Rules rules => rules
  | Missing | Malformed => []
  end.

Definition compound_error : str :=
  lit "compound command cannot form a prefix rule (top-level `&&`/`||`/`;`/`|`); approve this instance without " ++ [c_dquote] ++ lit "always" ++ [c_dquote] ++ lit ", or split the command".

(** [write_outcome] is what the atomic write answers: an error leaves the file
    as it was. *)
Definition persist_auto_allow_rule (write_outcome : result unit str) (now : str)
    (f : RulesFile) (operation target risk_level : str)
    : RulesFile * result (option str) str :=
  if negb (rule_permitted_for operation risk_level) then (f, Ok None)
  else
    let pattern := pattern_for operation target in
    if pattern =? [] then
      if is_command_op operation && (1 <? length (command_segments (trim target)))%nat
      then (f, Err compound_error)
      else (f, Err (lit "cannot derive approval pattern from " ++ operation ++ lit " target"))
    else
      let stored := fst (upsert_rule now (load_rules f) operation pattern) in
      match write_outcome with
      | Err e => (f, Err e)
      | Ok _ => (Rules stored, Ok (Some pattern))
      end.

(** ** Patterns and tokens *)

Definition no_quote (s : str) : bool := forallb (λ c, negb (is_quote c)) s.

Lemma tok_foldl_no_quote s ts cur hc :
  no_quote s = true →
  ∃ ts' cur' hc', foldl tok_step (mkTok ts cur false false hc) s = mkTok ts' cur' false false hc'.
Proof.
  revert ts cur hc. induction s as [|c s IH]; intros ts cur hc H; simpl in *; [by do 3 eexists|].
  unfold no_quote in *. simpl in H. bool_simpl. unfold is_quote in *. bool_simpl.
  unfold tok_step. fold tok_step.
  rewrite (proj2 (N.eqb_neq c c_squote)), (proj2 (N.eqb_neq c c_dquote)) by done.
  simpl. repeat case_match; eauto.
Qed.

(** Appending the mark to an unquoted text appends one token. *)
Lemma tokenize_mark s :
  no_quote s = true → tokenize_command (s ++ prefix_mark) = tokenize_command s ++ [[c_star]].
Proof.
  intros H. unfold tokenize_command, tok_init. rewrite foldl_app.
  destruct (tok_foldl_no_quote s [] [] false H) as (ts & cur & hc & ->).
  unfold prefix_mark. cbn [foldl]. unfold tok_step, tok_finish. simpl.
  destruct (hc || nonempty cur) eqn:E; simpl; [done|].
  apply orb_false_iff in E as [-> E]. destruct cur; [done|discriminate].
Qed.

Lemma plain_no_quote t : plain t = true → no_quote t = true.
Proof.
  unfold plain, no_quote. intros H. bool_simpl. rewrite forallb_Forall_true in *.
  eapply Forall_impl; [done|]. intros c (_ & Hs & Hd)%plain_char_spec.
  unfold is_quote. by rewrite Hs, Hd.
Qed.

Lemma join_no_quote l : Forall (λ t, plain t = true) l → no_quote (join [c_space] l) = true.
Proof.
  induction 1 as [|t l Ht Hl IH]; [done|]. destruct l as [|t' l]; [by apply plain_no_quote|].
  rewrite join_cons by done. unfold no_quote in *. rewrite !forallb_app_iff.
  split_and!; [by apply plain_no_quote|done|done].
Qed.

Lemma tokens_prefix_iff key rest :
  tokens_prefix key rest = true ↔ key `prefix_of` rest.
Proof.
  revert rest. induction key as [|k key IH]; intros rest; simpl.
  - split; [intros _; apply prefix_nil|done].
  - destruct rest as [|t rest]; [split; [done|]; by intros ?%prefix_nil_not|].
    rewrite andb_true_iff, bool_decide_eq_true, IH. split.
    + intros [-> H]. by apply prefix_cons.
    + intros H. split; [by apply prefix_cons_inv_1 in H|by apply prefix_cons_inv_2 in H].
Qed.

(** The tokens a simple command is remembered by. *)
Definition command_tokens (t : str) : list str := strip_env_tokens (tokenize_command t).
Definition kept_tokens (t : str) : list str :=
  take (keep_count (command_tokens t)) (command_tokens t).

Lemma reduce_command_kept t :
  command_tokens t ≠ [] →
  reduce_command t = join [c_space] (kept_tokens t) ++
    (if (length (command_tokens t) <=? keep_count (command_tokens t))%nat then [] else prefix_mark).
Proof.
  unfold kept_tokens, command_tokens. intros H.
  destruct (strip_env_tokens (tokenize_command t)) as [|x xs] eqn:E; [done|].
  by rewrite (reduce_command_eq _ _ _ E).
Qed.

Lemma ends_with_app (a b : str) : ends_with b (a ++ b) = true.
Proof. apply ends_with_iff. eauto. Qed.

Lemma strip_suffix_app (a b : str) : strip_suffix b (a ++ b) = Some a.
Proof. by apply strip_suffix_Some. Qed.

(** A pattern written for a command whose kept tokens are plain reads back as a
    non-empty prefix of the tokens of that command. *)
Lemma pattern_for_tokens op t p :
  is_command_op op = true → pattern_for op t = p → p ≠ [] →
  Forall (λ x, plain x = true) (kept_tokens (trim t)) →
  ∃ pre, p = pre ++ prefix_mark ∧ tokenize_command pre ≠ [] ∧
         tokenize_command pre `prefix_of` kept_tokens (trim t).
Proof.
  intros Hop Hp Hne Hpl. unfold pattern_for in Hp. rewrite Hop in Hp.
  case_bool_decide; [by subst|]. destruct (1 <? _)%nat; [by subst|].
  case_bool_decide as Hred; [by subst|].
  assert (Hct : command_tokens (trim t) ≠ []).
  { intros E. apply Hred. unfold reduce_command. unfold command_tokens in E. by rewrite E. }
  pose proof (tokenize_join _ Hpl) as Hj. pose proof (join_no_quote _ Hpl) as Hq.
  assert (Hk : kept_tokens (trim t) ≠ []).
  { unfold kept_tokens. pose proof (keep_count_pos (command_tokens (trim t))).
    destruct (command_tokens (trim t)), (keep_count _); simpl; [done|done|lia|done]. }
  rewrite reduce_command_kept in Hp by done. clear Hne. subst p.
  destruct (_ <=? _)%nat.
  - rewrite app_nil_r. destruct (ends_with prefix_mark _) eqn:Ee; [|exists (join [c_space] (kept_tokens (trim t))); by rewrite Hj].
    apply ends_with_iff in Ee as [pre E]. exists pre. split; [done|].
    rewrite E in Hq, Hj. unfold no_quote in Hq. rewrite forallb_app_iff in Hq.
    rewrite tokenize_mark in Hj by apply Hq. split.
    + intros En. rewrite En in Hj. simpl in Hj.
      rewrite <- Hj in E. simpl in E. destruct pre as [|a [|b pre]]; discriminate.
    + rewrite <- Hj. by apply prefix_app_r.
  - rewrite ends_with_app. exists (join [c_space] (kept_tokens (trim t))). by rewrite Hj.
Qed.

Lemma matches_rule_prefix op pre t :
  t ≠ [] → tokenize_command pre ≠ [] → is_command_op op = true →
  matches_rule op (pre ++ prefix_mark) op t = true ↔
  command_segments t ≠ [] ∧
  Forall (λ seg, tokenize_command pre `prefix_of` command_tokens seg) (command_segments t).
Proof.
  intros Ht Hpre Hop. unfold matches_rule.
  rewrite !(bool_decide_eq_true_2 (op = op)), (bool_decide_eq_false_2 (t = [])) by done.
  rewrite (bool_decide_eq_false_2 (pre ++ prefix_mark = [])) by (intros ?%app_nil; naive_solver).
  rewrite (bool_decide_eq_false_2 (pre ++ prefix_mark = lit "*")) by (by intros E%(f_equal length); rewrite length_app in E; simpl in E; lia).
  simpl. rewrite strip_suffix_app, bool_decide_eq_false_2, Hop by done.
  rewrite andb_true_iff, negb_true_iff, bool_decide_eq_false, forallb_Forall_true.
  by setoid_rewrite tokens_prefix_iff.
Qed.

(** ** Table lemmas *)

Definition allow_only (rules : list ApprovalRule) : Prop :=
  Forall (λ r, ar_action r = lit "allow") rules.

Definition key (r : ApprovalRule) : str * str := (ar_op r, ar_pattern r).

Lemma same_key_iff op p r : same_key op p r = true ↔ key r = (op, p).
Proof.
  unfold same_key, key. rewrite andb_true_iff, !bool_decide_eq_true. split; [|by intros [= -> ->]].
  by intros [-> ->].
Qed.

Lemma refresh_first_spec now op p rules :
  match refresh_first now op p rules with
  | Some rules' =>
      key <$> rules' = key <$> rules ∧ ar_action <$> rules' = ar_action <$> rules ∧
      (op, p) ∈ key <$> rules ∧ ∃ r, r ∈ rules' ∧ key r = (op, p) ∧ ar_created_at r = now
  | None => (op, p) ∉ key <$> rules
  end.
Proof.
  induction rules as [|r rules IH]; simpl; [by apply not_elem_of_nil|].
  destruct (same_key op p r) eqn:E; simpl.
  - apply same_key_iff in E. rewrite <- E. split_and!; [done|done|by left|].
    exists (mkApprovalRule (ar_op r) (ar_pattern r) (ar_action r) now). split_and!; [by left|done|done].
  - destruct (refresh_first now op p rules) as [rules'|] eqn:Er; simpl.
    + destruct IH as (Hk & Ha & Hin & r' & ? & ? & ?).
      split_and!; [by f_equal|by f_equal|by right|]. exists r'. split_and!; [by right|done|done].
    + apply not_elem_of_cons. split; [|done]. intros Hk. symmetry in Hk.
      apply same_key_iff in Hk. congruence.
Qed.

Lemma allow_only_fmap rules : allow_only rules ↔ Forall (λ a, lit "allow" = a) (ar_action <$> rules).
Proof. unfold allow_only. rewrite Forall_fmap. apply Forall_iff. intros r. simpl. by split. Qed.

Lemma upsert_in now rules op p :
  p ≠ [] → allow_only rules →
  ∃ r, r ∈ fst (upsert_rule now rules op p) ∧ key r = (op, p) ∧ ar_action r = lit "allow".
Proof.
  intros Hp Ha. unfold upsert_rule. rewrite bool_decide_eq_false_2 by done.
  pose proof (refresh_first_spec now op p rules) as Hs. destruct (refresh_first _ _ _ _) as [rules'|].
  - destruct Hs as (_ & Hact & _ & r & Hr & Hk & _). exists r. split_and!; [done|done|].
    apply allow_only_fmap in Ha. rewrite <- Hact in Ha.
    apply allow_only_fmap in Ha. by eapply Forall_forall in Ha.
  - eexists. split_and!; [apply elem_of_app; right; by left|done|done].
Qed.

Lemma upsert_allow_only now rules op p :
  allow_only rules → allow_only (fst (upsert_rule now rules op p)).
Proof.
  intros Ha. unfold upsert_rule. case_bool_decide; [done|].
  pose proof (refresh_first_spec now op p rules) as Hs. destruct (refresh_first _ _ _ _) as [rules'|]; simpl.
  - destruct Hs as (_ & Hact & _). apply allow_only_fmap. rewrite Hact. by apply allow_only_fmap.
  - apply Forall_app. split; [done|]. by repeat constructor.
Qed.

Lemma find_auto_allow_intro rules op t risk r :
  rule_permitted_for op risk = true → r ∈ rules → ar_action r = lit "allow" →
  matches_rule (ar_op r) (ar_pattern r) op t = true →
  is_Some (find_auto_allow_rule rules op t risk).
Proof.
  intros Hp Hr Ha Hm. unfold find_auto_allow_rule. rewrite Hp. simpl.
  destruct (List.find _ rules) eqn:E; [by eexists|].
  apply list_elem_of_In in Hr. eapply find_none in E; [|done]. simpl in E.
  rewrite Hm, bool_decide_eq_true_2 in E by done. done.
Qed.

Lemma persist_ok w now f op t risk f' p :
  persist_auto_allow_rule w now f op t risk = (f', Ok (Some p)) →
  rule_permitted_for op risk = true ∧ pattern_for op t = p ∧ p ≠ [] ∧ w = Ok tt ∧
  f' = Rules (fst (upsert_rule now (load_rules f) op p)).
Proof.
  unfold persist_auto_allow_rule. destruct (rule_permitted_for op risk); simpl; [|done].
  case_bool_decide as Hp; [destruct (_ && _); done|].
  destruct w as [[]|]; [|done]. intros [= <- <-]. done.
Qed.

Lemma matches_rule_no_tokens op pre t :
  tokenize_command pre = [] → matches_rule op (pre ++ prefix_mark) op t = false.
Proof.
  intros H. unfold matches_rule. repeat case_match; try done;
    bool_simpl; simplify_eq; rewrite strip_suffix_app in *; by simplify_eq.
Qed.

Lemma matches_rule_inv rop p op t :
  matches_rule rop p op t = true →
  rop = op ∧ t ≠ [] ∧ p ≠ lit "*" ∧ p ≠ prefix_mark ∧
  (is_command_op op = true →
     tokenize_command p = command_tokens t ∨
     ∃ pre, p = pre ++ prefix_mark ∧ tokenize_command pre ≠ [] ∧ command_segments t ≠ [] ∧
       Forall (λ seg, tokenize_command pre `prefix_of` command_tokens seg) (command_segments t)).
Proof.
  intros H. pose proof H as H'. unfold matches_rule in H.
  destruct (_ || _) eqn:E; [done|]. bool_simpl. subst rop.
  case_bool_decide as Hb; [done|]. split_and!; [done|done|done| |].
  - intros ->. by rewrite (matches_rule_no_tokens _ [] t) in H' by done.
  - intros Hc. destruct (strip_suffix prefix_mark p) as [pre|] eqn:Es.
    + right. apply strip_suffix_Some in Es as ->. exists pre.
      destruct (decide (tokenize_command pre = [])) as [Ep|Ep];
        [by rewrite matches_rule_no_tokens in H'|].
      apply matches_rule_prefix in H' as [? ?]; done.
    + left. rewrite Hc in H. by apply bool_decide_eq_true in H.
Qed.

Lemma rule_permitted_inv op risk :
  rule_permitted_for op risk = true →
  is_install_op op = false ∧ (risk = lit "CRITICAL" → is_command_op op = true).
Proof.
  unfold rule_permitted_for. destruct (is_install_op op); [done|]. intros H. split; [done|].
  intros ->. by rewrite bool_decide_eq_true_2 in H.
Qed.

(** ** Properties *)

(** Also: what "always allow" writes is what it later reads: after the rule of a
    command is persisted, every command all of whose segments start with the
    remembered tokens is allowed without a question, and so is the command
    itself when it is one segment. *)
Theorem persist_then_find w now f op t risk f' p :
  is_command_op op = true → allow_only (load_rules f) →
  Forall (λ x, plain x = true) (kept_tokens (trim t)) →
  persist_auto_allow_rule w now f op t risk = (f', Ok (Some p)) →
  (∀ t', t' ≠ [] → command_segments t' ≠ [] →
     Forall (λ seg, kept_tokens (trim t) `prefix_of` command_tokens seg) (command_segments t') →
     is_Some (find_auto_allow_rule (load_rules f') op t' risk)) ∧
  (command_segments t = [trim t] → is_Some (find_auto_allow_rule (load_rules f') op t risk)).
Proof.
  intros Hop Ha Hpl (Hperm & Hp & Hne & _ & ->)%persist_ok.
  destruct (upsert_in now _ op p Hne Ha) as (r & Hr & Hk & Hact).
  destruct (pattern_for_tokens op t p Hop Hp Hne Hpl) as (pre & Epre & Hpre & Hpt).
  injection Hk as Hrop Hrp.
  assert (Hgen : ∀ t', t' ≠ [] → command_segments t' ≠ [] →
    Forall (λ seg, tokenize_command pre `prefix_of` command_tokens seg) (command_segments t') →
    is_Some (find_auto_allow_rule (load_rules (Rules (fst (upsert_rule now (load_rules f) op p)))) op t' risk)).
  { intros t' Ht Hs Hf. eapply find_auto_allow_intro; [done|exact Hr|done|].
    rewrite Hrop, Hrp, Epre. by apply matches_rule_prefix. }
  split.
  - intros t' Ht Hs Hf. apply Hgen; [done..|]. eapply Forall_impl; [exact Hf|].
    intros seg Hseg. simpl in Hseg. by etransitivity.
  - intros Hseg. apply Hgen.
    + intros ->. discriminate.
    + by rewrite Hseg.
    + rewrite Hseg. constructor; [|constructor]. etransitivity; [exact Hpt|apply prefix_take].
Qed.

(** Also: a remembered prefix covers a compound command exactly when it covers
    both of its parts. *)
Theorem rule_covers_compound op pre a sep b :
  is_command_op op = true →
  is_balanced a = true → is_balanced b = true → clean_end a = true → cuts sep b = true →
  command_segments a ≠ [] → command_segments b ≠ [] →
  matches_rule op (pre ++ prefix_mark) op (a ++ sep ++ b) = true ↔
  matches_rule op (pre ++ prefix_mark) op a = true ∧
  matches_rule op (pre ++ prefix_mark) op b = true.
Proof.
  intros Hop Ba Bb Ha Hc Sa Sb.
  assert (a ≠ []) by (by intros ->). assert (b ≠ []) by (by intros ->).
  assert (a ++ sep ++ b ≠ []) by (by destruct a).
  destruct (decide (tokenize_command pre = [])) as [Ep|Ep].
  { rewrite !matches_rule_no_tokens by done. naive_solver. }
  rewrite !matches_rule_prefix by done. rewrite !Forall_forall.
  setoid_rewrite (λ seg, elem_of_command_segments_cut seg a sep b Ba Bb Ha Hc).
  assert (command_segments (a ++ sep ++ b) ≠ []).
  { intros E. destruct (command_segments a) as [|s l] eqn:El; [done|].
    assert (s ∈ command_segments (a ++ sep ++ b)) as Hs
      by (apply elem_of_command_segments_cut; [done..|left; rewrite El; by left]).
    rewrite E in Hs. by apply elem_of_nil in Hs. }
  naive_solver.
Qed.

(** Also: what the table may decide: an allowing rule of the same operation, never
    an installation, nothing critical but a command line, and for a command line
    every segment, freed of its environment prefix, has the tokens the rule
    names; the patterns [*] and [ *] decide nothing. *)
Theorem find_auto_allow_sound rules op t risk r :
  find_auto_allow_rule rules op t risk = Some r →
  r ∈ rules ∧ ar_action r = lit "allow" ∧ ar_op r = op ∧ is_install_op op = false ∧
  (risk = lit "CRITICAL" → is_command_op op = true) ∧
  ar_pattern r ≠ lit "*" ∧ ar_pattern r ≠ prefix_mark ∧
  (is_command_op op = true →
     tokenize_command (ar_pattern r) = command_tokens t ∨
     ∃ pre, ar_pattern r = pre ++ prefix_mark ∧ tokenize_command pre ≠ [] ∧
       command_segments t ≠ [] ∧
       Forall (λ seg, tokenize_command pre `prefix_of` command_tokens seg) (command_segments t)).
Proof.
  unfold find_auto_allow_rule. destruct (rule_permitted_for op risk) eqn:Hp; [|done].
  intros [Hin Hm]%find_some. apply list_elem_of_In in Hin.
  apply andb_true_iff in Hm as [Hact Hm]. apply bool_decide_eq_true in Hact.
  destruct (matches_rule_inv _ _ _ _ Hm) as (Hop & Ht & Hb & Hps & Hcmd).
  apply rule_permitted_inv in Hp as [Hi Hr]. subst op. auto 10.
Qed.

(** Also: [upsert_rule] keeps the table a map from keys to allowing rules: keys
    stay unique, the key written is present, no other key comes or goes, and
    the empty pattern is never stored. *)
Theorem upsert_rule_invariant now rules op p :
  NoDup (key <$> rules) → allow_only rules →
  let '(rules', changed) := upsert_rule now rules op p in
  NoDup (key <$> rules') ∧ allow_only rules' ∧ changed = (p <>? []) ∧
  (p = [] → rules' = rules) ∧
  ∀ k, k ∈ key <$> rules' ↔ k ∈ key <$> rules ∨ p ≠ [] ∧ k = (op, p).
Proof.
  intros Hnd Ha. pose proof (upsert_allow_only now rules op p Ha) as Ha'.
  unfold upsert_rule in *. case_bool_decide as Hp; [naive_solver|].
  pose proof (refresh_first_spec now op p rules) as Hs. destruct (refresh_first _ _ _ _) as [rules'|].
  - destruct Hs as (Hk & _ & Hin & _). rewrite Hk. naive_solver.
  - rewrite fmap_app. change (key <$> [mkApprovalRule op p (lit "allow") now]) with [(op, p)].
    split_and!; [|done|done|done|].
    + apply NoDup_app. split_and!; [done| |apply NoDup_singleton].
      intros k Hk1 Hk%list_elem_of_singleton. by subst k.
    + intros k. rewrite elem_of_app, list_elem_of_singleton. naive_solver.
Qed.

(** Observed: a token that holds a blank loses its quotes when it is remembered: the
    rule written for the program [git push] (one quoted token) does not allow
    that command again, and allows the subcommand [push] of the program [git]. *)
Theorem quoted_token_rule :
  let cmd := [c_dquote] ++ lit "git push" ++ [c_dquote] ++ lit " --dry-run" in
  let op := lit "process_exec" in
  pattern_for op cmd = lit "git push *" ∧
  matches_rule op (pattern_for op cmd) op cmd = false ∧
  matches_rule op (pattern_for op cmd) op (lit "git push --force origin") = true.
Proof. split_and!; vm_compute; reflexivity. Qed.

(** ** Witnesses *)

Lemma persist_then_find_witness :
  is_Some (find_auto_allow_rule
    (load_rules (fst (persist_auto_allow_rule (Ok tt) (lit "now") Missing
       (lit "process_exec") (lit " cargo test --release") (lit "CRITICAL"))))
    (lit "process_exec") (lit "RUST_LOG=1 cargo test -p x && cargo test") (lit "CRITICAL")).
Proof.
  refine (proj1 (persist_then_find (Ok tt) (lit "now") Missing (lit "process_exec")
    (lit " cargo test --release") (lit "CRITICAL") _ (lit "cargo test *")
    eq_refl _ _ _) _ _ _ _).
  - by apply Forall_nil_2.
  - apply (bool_decide_unpack _). vm_compute. exact I.
  - vm_compute. reflexivity.
  - discriminate.
  - vm_compute. discriminate.
  - apply (bool_decide_unpack _). vm_compute. exact I.
Defined.

Lemma rule_covers_compound_witness :
  matches_rule (lit "process_exec") (lit "cd" ++ prefix_mark) (lit "process_exec")
    (lit "cd /tmp " ++ lit "&&" ++ lit " rm -rf y") ≠ true.
Proof.
  intros H. eapply rule_covers_compound in H; [|reflexivity..|discriminate|discriminate].
  destruct H as [_ H]. vm_compute in H. discriminate.
Defined.

Lemma find_auto_allow_sound_witness :
  ar_action (mkApprovalRule (lit "process_exec") (lit "cargo test *") (lit "allow") []) = lit "allow".
Proof.
  apply (find_auto_allow_sound
    [mkApprovalRule (lit "process_exec") (lit "cargo test *") (lit "allow") []]
    (lit "process_exec") (lit "cargo test") (lit "CRITICAL")
    (mkApprovalRule (lit "process_exec") (lit "cargo test *") (lit "allow") [])).
  vm_compute. reflexivity.
Defined.

Lemma upsert_rule_invariant_witness :
  NoDup (key <$> fst (upsert_rule (lit "t1")
     [mkApprovalRule (lit "file_write") (lit "/a") (lit "allow") (lit "t0")]
     (lit "file_write") (lit "/b"))).
Proof.
  apply (upsert_rule_invariant (lit "t1")
     [mkApprovalRule (lit "file_write") (lit "/a") (lit "allow") (lit "t0")]
     (lit "file_write") (lit "/b")).
  - apply NoDup_singleton.
  - by repeat constructor.
Defined.
