(* ===== verification/SecTypes.v ===== *)
(** * Security vocabulary (nemesis-security/src/types.rs)

    Operation types with their slugs and danger levels, permissions, the table of
    tool names (declared at run time, then built in), and the target of a tool
    invocation.  JSON arguments are seen through [Args]: [serde_json] is not
    modelled, only the two queries the code makes. *)
From stdpp Require Import finite.
From S2P Require Import Prelude RustStr Regex Matcher.
Local Open Scope nb_scope.

(** ** Operations *)

Inductive OperationType :=
| FileRead | FileWrite | FileDelete
| DirRead | DirCreate | DirDelete
| ProcessExec | ProcessSpawn | ProcessKill | ProcessSuspend
| NetworkDownload | NetworkUpload | NetworkRequest
| HardwareI2C | HardwareSPI | HardwareGPIO
| SystemShutdown | SystemReboot | SystemConfig | SystemService | SystemInstall
| RegistryRead | RegistryWrite | RegistryDelete
| Internal.

#[export] Instance OperationType_eq_dec : EqDecision OperationType.
Proof. solve_decision. Defined.

Definition all_operations : list OperationType :=
  [FileRead; FileWrite; FileDelete; DirRead; DirCreate; DirDelete;
   ProcessExec; ProcessSpawn; ProcessKill; ProcessSuspend;
   NetworkDownload; NetworkUpload; NetworkRequest;
   HardwareI2C; HardwareSPI; HardwareGPIO;
   SystemShutdown; SystemReboot; SystemConfig; SystemService; SystemInstall;
   RegistryRead; RegistryWrite; RegistryDelete; Internal].

#[export] Instance OperationType_finite : Finite OperationType.
Proof.
  refine {| enum := all_operations |}.
  - apply (bool_decide_unpack _). vm_compute. exact I.
  - intros []; apply (bool_decide_unpack _); vm_compute; exact I.
Defined.

(** [Display]. *)
Definition op_slug (op : OperationType) : str :=
  lit match op with
  | FileRead => "file_read"
  | FileWrite => "file_write"
  | FileDelete => "file_delete"
  | DirRead => "dir_read"
  | DirCreate => "dir_create"
  | DirDelete => "dir_delete"
  | ProcessExec => "process_exec"
  | ProcessSpawn => "process_spawn"
  | ProcessKill => "process_kill"
  | ProcessSuspend => "process_suspend"
  | NetworkDownload => "network_download"
  | NetworkUpload => "network_upload"
  | NetworkRequest => "network_request"
  | HardwareI2C => "hardware_i2c"
  | HardwareSPI => "hardware_spi"
  | HardwareGPIO => "hardware_gpio"
  | SystemShutdown => "system_shutdown"
  | SystemReboot => "system_reboot"
  | SystemConfig => "system_config"
  | SystemService => "system_service"
  | SystemInstall => "system_install"
  | RegistryRead => "registry_read"
  | RegistryWrite => "registry_write"
  | RegistryDelete => "registry_delete"
  | Internal => "internal"
  end%string.

Definition slug_table : list (str * OperationType) :=
  (λ '(s, op), (lit s, op)) <$>
  [ ("file_read", FileRead); ("file_write", FileWrite); ("file_delete", FileDelete);
    ("dir_read", DirRead); ("dir_create", DirCreate); ("dir_delete", DirDelete);
    ("process_exec", ProcessExec); ("process_spawn", ProcessSpawn);
    ("process_kill", ProcessKill); ("process_suspend", ProcessSuspend);
    ("network_download", NetworkDownload); ("network_upload", NetworkUpload);
    ("network_request", NetworkRequest);
    ("hardware_i2c", HardwareI2C); ("hardware_spi", HardwareSPI);
    ("hardware_gpio", HardwareGPIO);
    ("system_shutdown", SystemShutdown); ("system_reboot", SystemReboot);
    ("system_config", SystemConfig); ("system_service", SystemService);
    ("system_install", SystemInstall);
    ("registry_read", RegistryRead); ("registry_write", RegistryWrite);
    ("registry_delete", RegistryDelete); ("internal", Internal) ]%string.

(** First entry of an association list. *)
Definition assoc {A} (k : str) (l : list (str * A)) : option A :=
  snd <$> List.find (λ e, k =? fst e) l.

Definition operation_type_from_slug (slug : str) : option OperationType :=
  assoc slug slug_table.

(** ** Danger levels *)

Inductive DangerLevel := Low | Medium | High | Critical.

#[export] Instance DangerLevel_eq_dec : EqDecision DangerLevel.
Proof. solve_decision. Defined.

Definition danger_str (d : DangerLevel) : str :=
  lit match d with
  | Low => "LOW" | Medium => "MEDIUM" | High => "HIGH" | Critical => "CRITICAL"
  end%string.

(** The derived order. *)
Definition danger_rank (d : DangerLevel) : nat :=
  match d with Low => 0 | Medium => 1 | High => 2 | Critical => 3 end.

Definition get_danger_level (op : OperationType) : DangerLevel :=
  match op with
  | FileRead | DirRead | Internal => Low
  | NetworkDownload | NetworkRequest => Medium
  | FileWrite | FileDelete | DirCreate | DirDelete | ProcessSpawn => High
  | ProcessExec | ProcessKill | SystemShutdown | SystemReboot | SystemConfig
  | SystemService | SystemInstall | RegistryWrite | RegistryDelete => Critical
  | _ => Medium
  end.

(** Unknown slugs are critical. *)
Definition danger_level_of_slug (slug : str) : str :=
  match operation_type_from_slug slug with
  | Some op => danger_str (get_danger_level op)
  | None => lit "CRITICAL"
  end.

(** ** Rules, decisions, permissions *)

Record SecurityRule := mkRule {
  ru_pattern : str;
  ru_action : str;
  ru_comment : str;
}.

Inductive SecurityDecision := Allowed | Denied | RequireApproval.

#[export] Instance SecurityDecision_eq_dec : EqDecision SecurityDecision.
Proof. solve_decision. Defined.

Definition decision_str (d : SecurityDecision) : str :=
  lit match d with
  | Allowed => "allowed" | Denied => "denied" | RequireApproval => "require_approval"
  end%string.

Record Permission := mkPermission {
  pm_allowed_types : gmap OperationType bool;
  pm_allowed_targets : list str;
  pm_denied_targets : list str;
  pm_require_approval : gmap OperationType bool;
  pm_max_danger_level : DangerLevel;
}.

Definition permission_new : Permission := mkPermission ∅ [] [] ∅ Low.

Definition is_operation_allowed (p : Permission) (op : OperationType) : bool :=
  default false (pm_allowed_types p !! op).

Definition requires_approval (p : Permission) (op : OperationType) : bool :=
  default false (pm_require_approval p !! op).

Definition matches_pattern `{!RegexEngine} (target pattern : str) : bool :=
  match_pattern pattern target.

Definition is_target_denied `{!RegexEngine} (p : Permission) (target : str) : bool :=
  existsb (λ pattern, contains pattern target || matches_pattern target pattern)
    (pm_denied_targets p).

Definition is_target_allowed `{!RegexEngine} (p : Permission) (target : str) : bool :=
  existsb (λ pattern, contains pattern target || matches_pattern target pattern)
    (pm_allowed_targets p).

(** ** Tools *)

(** [DECLARED_TOOL_OPERATIONS]. *)
Abbreviation DeclaredOps := (gmap str OperationType).

Definition declare_tool_operation (d : DeclaredOps) (name : str) (op : OperationType) : DeclaredOps :=
  <[name := op]> d.

Definition undeclare_tool_operation (d : DeclaredOps) (name : str) : DeclaredOps :=
  delete name d.

(** [retain]: names that start with the prefix are dropped. *)
Definition undeclare_tool_operations_with_prefix (d : DeclaredOps) (prefix : str) : DeclaredOps :=
  filter (λ kv, starts_with prefix (fst kv) = false) d.

Definition declared_tool_operation (d : DeclaredOps) (name : str) : option OperationType := d !! name.

(** The arms of the built-in table. *)
Definition builtin_arms : list (list string * OperationType) :=
  [ (["read_file"; "file_exists"], FileRead);
    (["write_file"; "edit_file"; "append_file"; "multiedit"], FileWrite);
    (["delete_file"], FileDelete);
    (["list_directory"; "list_dir"], DirRead);
    (["create_directory"; "create_dir"], DirCreate);
    (["delete_directory"; "delete_dir"], DirDelete);
    (["exec"; "execute_command"; "shell"; "exec_async"; "background_start"; "cron";
      "run_script"; "run_checks"; "claude_code"; "codex_delegate"], ProcessExec);
    (["git"; "grep"], FileRead);
    (["spawn"], ProcessSpawn);
    (["desktop"], ProcessSpawn);
    (["kill"; "kill_process"], ProcessKill);
    (["download"; "install_skill"], NetworkDownload);
    (["upload"], NetworkUpload);
    (["http_request"; "web_request"; "web_fetch"; "web_search"; "cluster_rpc";
      "find_skills"], NetworkRequest);
    (["browser"; "mcp_discover"], NetworkRequest);
    (["screen_capture"], FileWrite);
    (["todowrite"], FileWrite);
    (["workflow_create"], FileWrite);
    (["generate_image"], NetworkRequest);
    (["lsp"], FileRead);
    (["i2c"], HardwareI2C);
    (["spi"], HardwareSPI);
    (["board_issue"], FileWrite);
    (["board_evidence_read"], FileRead);
    (["skill_manage"], FileWrite);
    (["complete_bootstrap"], FileDelete);
    (["memory_store"], FileWrite);
    (["memory_forget"], FileDelete);
    (["message"; "sleep"; "question"; "subagent"; "skills_list"; "skills_info";
      "cli_reference"; "history_search"; "mcp_list"; "workflow_run";
      "workflow_capabilities"; "memory_search"; "memory_list"; "background_output";
      "background_kill"], Internal) ]%string.

Definition builtin_tool (name : str) : option OperationType :=
  snd <$> List.find (λ arm, existsb (λ s, name =? lit s) (fst arm)) builtin_arms.

Definition tool_to_operation (d : DeclaredOps) (name : str) : option OperationType :=
  match declared_tool_operation d name with
  | Some op => Some op
  | None => builtin_tool name
  end.

(** The tool arguments: [args.get(key)] is [None] when the key is absent, and
    [Some v] with [v] the answer of [as_str] on the value found. *)
Definition Args := str → option (option str).

Definition as_str_or_empty (v : option (option str)) : str := default [] (mjoin v).

Definition one_of (name : str) (l : list string) : bool := existsb (λ s, name =? lit s) l.

Definition extract_target (tool_name : str) (args : Args) : str :=
  let get k := args (lit k) in
  if one_of tool_name ["read_file"; "write_file"; "edit_file"; "append_file";
                       "delete_file"; "board_evidence_read"]%string then as_str_or_empty (get "path"%string)
  else if one_of tool_name ["list_directory"; "list_dir"; "create_directory"; "create_dir";
                            "delete_directory"; "delete_dir"]%string then as_str_or_empty (get "path"%string)
  else if one_of tool_name ["exec"; "execute_command"; "spawn"; "shell"; "exec_async";
                            "background_start"]%string then as_str_or_empty (get "command"%string)
  else if one_of tool_name ["download"; "upload"; "http_request"; "web_request"; "web_fetch";
                            "web_search"; "find_skills"]%string then as_str_or_empty (get "url"%string)
  else if one_of tool_name ["cluster_rpc"]%string then as_str_or_empty (get "peer_id"%string)
  else if one_of tool_name ["cron"]%string then
    as_str_or_empty (or_else (get "command"%string) (get "message"%string))
  else if one_of tool_name ["screen_capture"]%string then
    as_str_or_empty (or_else (get "save_path"%string) (get "path"%string))
  else if one_of tool_name ["generate_image"]%string then as_str_or_empty (get "output"%string)
  else if one_of tool_name ["install_skill"]%string then
    as_str_or_empty (or_else (get "url"%string) (get "source"%string))
  else [].

Definition extract_url (tool_name : str) (args : Args) : str :=
  let get k := args (lit k) in
  if one_of tool_name ["download"; "upload"; "http_request"; "web_request"; "web_fetch";
                       "web_search"; "install_skill"; "find_skills"]%string
  then as_str_or_empty (or_else (get "url"%string) (get "source"%string))
  else [].

(** ** Lemmas *)

Lemma op_slug_in_table op : operation_type_from_slug (op_slug op) = Some op.
Proof. destruct op; vm_compute; reflexivity. Qed.

Lemma all_operations_complete op : op ∈ all_operations.
Proof. destruct op; apply (bool_decide_unpack _); vm_compute; exact I. Qed.

Lemma assoc_Some {A} k (l : list (str * A)) a : assoc k l = Some a → (k, a) ∈ l.
Proof.
  unfold assoc. destruct (List.find _ l) as [[k' a']|] eqn:E; [|done]. simpl. intros [= ->].
  apply find_some in E as [Hin Hk]. bool_simpl. simpl in Hk. subst. by apply list_elem_of_In.
Qed.

Lemma slug_table_slugs : Forall (λ e, fst e = op_slug (snd e)) slug_table.
Proof. apply (bool_decide_unpack _). vm_compute. exact I. Qed.

Lemma op_slug_inj op op' : op_slug op = op_slug op' → op = op'.
Proof. intros H. apply (f_equal operation_type_from_slug) in H. rewrite !op_slug_in_table in H. congruence. Qed.

Lemma undeclare_lookup d prefix name :
  undeclare_tool_operations_with_prefix d prefix !! name
  = if starts_with prefix name then None else d !! name.
Proof.
  unfold undeclare_tool_operations_with_prefix. destruct (starts_with prefix name) eqn:E.
  - apply map_lookup_filter_None. right. intros x _. simpl. congruence.
  - destruct (d !! name) as [op|] eqn:Ed.
    + by apply map_lookup_filter_Some.
    + apply map_lookup_filter_None. by left.
Qed.

(** ** Properties *)

(** Also: the slug is a faithful name: parsing a printed operation gives it back,
    a parsed slug is the printed form of its operation, and a slug that parses
    to nothing is treated as critical. *)
Theorem slug_roundtrip op slug :
  operation_type_from_slug (op_slug op) = Some op ∧
  (operation_type_from_slug slug = Some op → slug = op_slug op) ∧
  danger_level_of_slug (op_slug op) = danger_str (get_danger_level op) ∧
  (slug ∉ op_slug <$> all_operations → danger_level_of_slug slug = lit "CRITICAL").
Proof.
  split_and!.
  - apply op_slug_in_table.
  - intros H%assoc_Some. pose proof slug_table_slugs as Hall.
    rewrite Forall_forall in Hall. exact (Hall _ H).
  - unfold danger_level_of_slug. by rewrite op_slug_in_table.
  - intros Hn. unfold danger_level_of_slug. destruct (operation_type_from_slug slug) as [o|] eqn:E; [|done].
    exfalso. apply Hn. apply assoc_Some in E. pose proof slug_table_slugs as Hall.
    rewrite Forall_forall in Hall. apply Hall in E. simpl in E. subst slug.
    apply list_elem_of_fmap_2, all_operations_complete.
Qed.

(** Observed: unloading a family of tools by prefix falls back to the built-in table
    exactly for the names with the prefix and changes no other answer; a
    declaration overrides the built-in table. *)
Theorem undeclare_prefix_restores d prefix name op :
  tool_to_operation (undeclare_tool_operations_with_prefix d prefix) name
    = (if starts_with prefix name then builtin_tool name else tool_to_operation d name) ∧
  tool_to_operation (declare_tool_operation d name op) name = Some op ∧
  tool_to_operation (undeclare_tool_operation (declare_tool_operation d name op) name) name
    = builtin_tool name.
Proof.
  unfold tool_to_operation, declared_tool_operation. rewrite undeclare_lookup.
  unfold declare_tool_operation, undeclare_tool_operation. split_and!.
  - by destruct (starts_with prefix name).
  - by rewrite lookup_insert_eq.
  - by rewrite lookup_delete_eq.
Qed.

(** Observed: the batch editor is classified as a file write, but no argument of it
    ever becomes the audited target, so path rules see the empty target. *)
Theorem multiedit_target_gap (args : Args) :
  tool_to_operation ∅ (lit "multiedit") = Some FileWrite ∧
  get_danger_level FileWrite = High ∧
  extract_target (lit "edit_file") (λ k, if k =? lit "path" then Some (Some (lit "/etc/hosts")) else None)
    = lit "/etc/hosts" ∧
  extract_target (lit "multiedit") args = [].
Proof. split_and!; vm_compute; reflexivity. Qed.

(** ** Witnesses *)

Lemma slug_roundtrip_witness :
  danger_level_of_slug (lit "no_such_operation") = lit "CRITICAL" ∧
  lit "file_read" = op_slug FileRead.
Proof.
  pose proof (slug_roundtrip FileRead (lit "no_such_operation")) as (_ & _ & _ & H).
  split.
  - apply H. apply (bool_decide_unpack _). vm_compute. exact I.
  - apply (slug_roundtrip FileRead (lit "file_read")). reflexivity.
Defined.
