(* ===== verification/EditorAccess.v ===== *)
(** * Runtime permission switches (nemesis-security/src/editor_access.rs and
    approval_auto.rs)

    The two Full Access flags with the workspace roots, the short circuit they
    put in front of the rules, and the unattended-mode switch.  The flags are
    atomics written one after the other, so [set_flags] is also given as the
    sequence of its stores. *)
From S2P Require Import Prelude RustStr Matcher SecTypes.
Local Open Scope nb_scope.

(** ** State *)

Record EditorAccessState := mkEditor {
  ed_full_access : bool;
  ed_external_write : bool;
  ed_workspace_roots : list str;
}.

Definition editor_new : EditorAccessState := mkEditor false false [].

Definition WRITE_DELETE_OPS : list OperationType := [FileWrite; FileDelete; DirCreate; DirDelete].

(** One atomic store. *)
Inductive Store :=
| StoreFull (b : bool)
| StoreExternal (b : bool).

Definition apply_store (st : EditorAccessState) (s : Store) : EditorAccessState :=
  match s with
  | StoreFull b => mkEditor b (ed_external_write st) (ed_workspace_roots st)
  | StoreExternal b => mkEditor (ed_full_access st) b (ed_workspace_roots st)
  end.

(** The stores of [set_flags], in program order. *)
Definition set_flags_stores (full_access external_write : bool) : list Store :=
  let full := full_access || external_write in
  if full then [StoreFull true; StoreExternal external_write]
  else [StoreExternal false; StoreFull false].

Definition set_flags (st : EditorAccessState) (full_access external_write : bool)
    : EditorAccessState :=
  foldl apply_store st (set_flags_stores full_access external_write).

Definition snapshot (st : EditorAccessState) : bool * bool :=
  (ed_full_access st, ed_external_write st).

(** ** Paths *)

Section Paths.
Context {UC : Unicode}.

(** Lower case, forward slashes, no verbatim prefix. *)
Definition editor_normalize_path (p : str) : str :=
  let s := replace_char c_backslash [c_slash] (to_lowercase p) in
  match strip_prefix (lit "//?/unc/") s with
  | Some rest => lit "//" ++ rest
  | None => match strip_prefix (lit "//?/") s with
            | Some rest => rest
            | None => s
            end
  end.

Definition normalize_target (target : str) : option str :=
  let t := trim target in
  if t =? [] then None else Some (editor_normalize_path t).

(** Drive letter or leading slash. *)
Definition is_absolute_normalized (s : str) : bool :=
  bool_decide (as_bytes s !! 1 = Some c_colon) || starts_with [c_slash] s.

Definition normalize_root (r : str) : option str :=
  let r := trim r in
  if r =? [] then None
  else Some (trim_end_matches (N.eqb c_slash) (editor_normalize_path r)).

Definition set_workspace_roots (st : EditorAccessState) (roots : list str) : EditorAccessState :=
  mkEditor (ed_full_access st) (ed_external_write st) (omap normalize_root roots).

Definition is_inside_workspace (st : EditorAccessState) (norm : str) : bool :=
  if (norm =? [c_tilde]) || starts_with (lit "~/") norm
     || existsb (λ seg, seg =? lit "..") (split_on (N.eqb c_slash) norm) then false
  else if negb (is_absolute_normalized norm) then true
  else existsb (λ r, (norm =? r) || starts_with (r ++ [c_slash]) norm) (ed_workspace_roots st).

(** [Some] is the decision to take, [None] hands over to the rules. *)
Definition editor_evaluate (st : EditorAccessState) (op_type : OperationType) (target : str)
    : option (SecurityDecision * str * str) :=
  if negb (ed_full_access st) then None
  else if bool_decide (op_type ∈ WRITE_DELETE_OPS) then
    match normalize_target target with
    | None => None
    | Some norm =>
        if is_inside_workspace st norm then
          Some (Allowed,
                lit "editor full access: " ++ op_slug op_type ++ lit " inside workspace roots",
                lit "editor_access:full")
        else if ed_external_write st then
          Some (Allowed,
                lit "editor full access + external write: " ++ op_slug op_type
                ++ lit " outside workspace roots",
                lit "editor_access:full+ext")
        else None
    end
  else Some (Allowed,
             lit "editor full access: " ++ op_slug op_type ++ lit " allowed without approval",
             lit "editor_access:full").
End Paths.

(** ** Unattended mode (approval_auto.rs) *)

Record ApprovalAutoApproveState := mkAuto {
  aa_enabled : bool;
  aa_count : N;
}.

Definition auto_new (enabled : bool) : ApprovalAutoApproveState := mkAuto enabled 0.

Definition auto_set_enabled (st : ApprovalAutoApproveState) (v : bool) : ApprovalAutoApproveState :=
  mkAuto v (aa_count st).

(** [fetch_add] on an [AtomicU64] wraps. *)
Definition auto_bump (st : ApprovalAutoApproveState) : ApprovalAutoApproveState :=
  mkAuto (aa_enabled st) ((aa_count st + 1) mod 2 ^ 64).

(** ** Interleavings *)

(** All the orders in which two threads can issue their stores. *)
Inductive interleave {A} : list A → list A → list A → Prop :=
| il_nil : interleave [] [] []
| il_left x l1 l2 l : interleave l1 l2 l → interleave (x :: l1) l2 (x :: l)
| il_right x l1 l2 l : interleave l1 l2 l → interleave l1 (x :: l2) (x :: l).

(** The documented invariant: the second switch implies the first. *)
Definition flags_ok (st : EditorAccessState) : Prop :=
  ed_external_write st = true → ed_full_access st = true.

(** A path below a root, with the separator in between. *)
Definition under_root (root norm : str) : Prop :=
  norm = root ∨ ∃ rest, norm = root ++ c_slash :: rest.

(** ** Lemmas *)

Lemma set_flags_snapshot st f e :
  snapshot (set_flags st f e) = (f || e, e).
Proof. by destruct st, f, e. Qed.

Section Facts.
Context {UC : Unicode}.

Lemma is_inside_workspace_true st norm :
  is_inside_workspace st norm = true ↔
  norm ≠ [c_tilde] ∧ starts_with (lit "~/") norm = false ∧
  (lit ".." ∉ split_on (N.eqb c_slash) norm) ∧
  (is_absolute_normalized norm = false ∨
   ∃ root, root ∈ ed_workspace_roots st ∧ under_root root norm).
Proof.
  unfold is_inside_workspace.
  assert (Hdots : existsb (λ seg, seg =? lit "..") (split_on (N.eqb c_slash) norm) = true
                  ↔ lit ".." ∈ split_on (N.eqb c_slash) norm).
  { rewrite existsb_Exists_true, Exists_exists. split.
    - intros (x & Hx & E). apply bool_decide_eq_true in E. by subst.
    - intros H. eexists. split; [exact H|]. by apply bool_decide_eq_true. }
  assert (Hroot : existsb (λ r, (norm =? r) || starts_with (r ++ [c_slash]) norm) (ed_workspace_roots st) = true
                  ↔ ∃ root, root ∈ ed_workspace_roots st ∧ under_root root norm).
  { rewrite existsb_Exists_true, Exists_exists.
    assert (Hr : ∀ r, (norm =? r) || starts_with (r ++ [c_slash]) norm = true ↔ under_root r norm).
    { intros r. unfold under_root. rewrite orb_true_iff, bool_decide_eq_true, starts_with_iff.
      by setoid_rewrite <- (assoc_L (++) r [c_slash]). }
    by setoid_rewrite Hr. }
  destruct (decide (norm = [c_tilde])) as [E|E].
  { rewrite bool_decide_eq_true_2 by done. simpl. split; [done|]. tauto. }
  rewrite bool_decide_eq_false_2 by done.
  destruct (starts_with (lit "~/") norm); [simpl; split; [done|by intros (_ & ? & _)]|].
  destruct (existsb _ (split_on _ _)) eqn:Ed.
  { simpl. split; [done|]. tauto. }
  assert (lit ".." ∉ split_on (N.eqb c_slash) norm) by (intros H%Hdots; congruence).
  simpl. destruct (is_absolute_normalized norm); simpl.
  - rewrite Hroot. split; [tauto|]. intros (_ & _ & _ & [?|?]); done.
  - tauto.
Qed.

Lemma editor_evaluate_allowed st op target d r p :
  editor_evaluate st op target = Some (d, r, p) → d = Allowed.
Proof. unfold editor_evaluate. repeat case_match; congruence. Qed.

(** ** Properties *)

(** Also: when the short circuit answers at all it answers [Allowed]; it answers
    exactly when the first switch is on and the operation either does not write
    or delete, or has a target that is inside a workspace root or covered by the
    second switch.  Inside means: no [..] segment, no leading [~], and relative
    or below a root with a separator in between. *)
Theorem editor_evaluate_spec st op target :
  (is_Some (editor_evaluate st op target) ↔
   ed_full_access st = true ∧
   (op ∈ WRITE_DELETE_OPS →
    trim target ≠ [] ∧
    let norm := editor_normalize_path (trim target) in
    ed_external_write st = true ∨
    (norm ≠ [c_tilde] ∧ starts_with (lit "~/") norm = false ∧
     (lit ".." ∉ split_on (N.eqb c_slash) norm) ∧
     (is_absolute_normalized norm = false ∨
      ∃ root, root ∈ ed_workspace_roots st ∧ under_root root norm)))) ∧
  (∀ d r p, editor_evaluate st op target = Some (d, r, p) → d = Allowed).
Proof.
  split; [|intros; by eapply editor_evaluate_allowed].
  cbv zeta. rewrite <- is_inside_workspace_true.
  unfold editor_evaluate, normalize_target. destruct (ed_full_access st); simpl.
  2: { split; [by intros [? ?]|by intros [? _]]. }
  destruct (decide (op ∈ WRITE_DELETE_OPS)) as [Hw|Hw].
  2: { rewrite bool_decide_eq_false_2 by done. split; [done|by eexists]. }
  rewrite bool_decide_eq_true_2 by done.
  destruct (decide (trim target = [])) as [Ht|Ht].
  { rewrite bool_decide_eq_true_2 by done. split; [by intros [? ?]|]. intros [_ H]. by destruct (H Hw). }
  rewrite bool_decide_eq_false_2 by done.
  destruct (is_inside_workspace _ _) eqn:Ei; [split; [|by eexists]; intros _; auto|].
  destruct (ed_external_write st); [split; [|by eexists]; intros _; auto|].
  split; [by intros [? ?]|]. intros [_ H]. destruct (H Hw) as [_ [?|?]]; done.
Qed.
End Facts.

(** Also: with one writer, the state seen between any two stores of [set_flags]
    satisfies the invariant and never grants external writes that neither the
    old nor the new setting grants; the final state is the requested one. *)
Theorem set_flags_every_prefix st f e k :
  flags_ok st →
  let mid := foldl apply_store st (take k (set_flags_stores f e)) in
  flags_ok mid ∧ flags_ok (set_flags st f e) ∧
  snapshot (set_flags st f e) = (f || e, e) ∧
  (ed_external_write mid = true → ed_external_write st = true ∨ e = true).
Proof.
  intros Hok. rewrite set_flags_snapshot. unfold flags_ok, set_flags, set_flags_stores in *.
  destruct st as [fu ex roots], f, e, k as [|[|[|k]]]; simpl in *;
    split_and!; auto; try (intros; congruence).
Qed.

(** Observed: the stores of two concurrent calls can interleave so that the invariant
    is lost: after turning both switches on races with turning both off, the
    second switch is on while the first is off; the next call that enables only
    the first switch then passes through a state that grants external writes,
    although it asks for none. *)
Theorem set_flags_race :
  ∃ l, interleave (set_flags_stores true true) (set_flags_stores false false) l ∧
    let raced := foldl apply_store editor_new l in
    snapshot raced = (false, true) ∧
    snapshot (foldl apply_store raced (take 1 (set_flags_stores true false))) = (true, true) ∧
    is_Some (@editor_evaluate ascii_unicode
      (foldl apply_store raced (take 1 (set_flags_stores true false)))
      FileDelete (lit "/etc/passwd")).
Proof.
  exists [StoreFull true; StoreExternal false; StoreExternal true; StoreFull false].
  split; [apply il_left, il_right, il_left, il_right, il_nil|].
  cbv zeta. split_and!; [reflexivity|reflexivity|by eexists].
Qed.

(** ** Witnesses *)

Lemma set_flags_every_prefix_witness :
  flags_ok editor_new ∧
  flags_ok (foldl apply_store editor_new (take 1 (set_flags_stores true true))).
Proof. split; [done|]. apply (set_flags_every_prefix editor_new true true 1). done. Defined.

Lemma editor_evaluate_spec_witness :
  fst <$> (fst <$> @editor_evaluate ascii_unicode
    (set_flags (@set_workspace_roots ascii_unicode editor_new [lit "C:\Work\"]) true false)
    FileWrite (lit "c:\work\a.txt")) = Some Allowed ∧
  @editor_evaluate ascii_unicode
    (set_flags (@set_workspace_roots ascii_unicode editor_new [lit "C:\Work\"]) true false)
    FileWrite (lit "c:\workbench\a.txt") = None.
Proof.
  pose proof (proj2 (@editor_evaluate_spec ascii_unicode
    (set_flags (@set_workspace_roots ascii_unicode editor_new [lit "C:\Work\"]) true false)
    FileWrite (lit "c:\work\a.txt"))) as H.
  split; [|vm_compute; reflexivity].
  destruct (editor_evaluate _ _ _) as [[[d r] p]|] eqn:E.
  - by rewrite (H d r p eq_refl).
  - exfalso. vm_compute in E. discriminate.
Defined.
