(* ===== verification/HotReload.v ===== *)
(** * File hot reload (nemesis-config/src/hot_reload.rs)

    A cached value that is read again when the modification time of its file
    differs from the one recorded.  [load] stands for the caller's function from
    the file contents to the value; times are opaque. *)
From S2P Require Import Prelude.

(** What [metadata] and [load] see: the modification time, if there is one, and
    the contents. *)
Record FileState (C : Type) := mkFile {
  fs_content : C;
  fs_mtime : option N;
}.
Arguments mkFile {C} _ _.
Arguments fs_content {C} _.
Arguments fs_mtime {C} _.

Record HotReloader (T : Type) := mkHot {
  hr_mtime : option N;
  hr_state : T;
}.
Arguments mkHot {T} _ _.
Arguments hr_mtime {T} _.
Arguments hr_state {T} _.

Section HotReload.
Context {C T : Type} (load : C → T).

Definition hot_new (f : FileState C) : HotReloader T :=
  mkHot (fs_mtime f) (load (fs_content f)).

(** The new reloader and whether a reload happened. *)
Definition hot_check (h : HotReloader T) (f : FileState C) : HotReloader T * bool :=
  if decide (fs_mtime f = hr_mtime h) then (h, false)
  else (mkHot (fs_mtime f) (load (fs_content f)), true).

Definition hot_get (h : HotReloader T) : T := hr_state h.

(** The cache agrees with the file whenever it knows its time. *)
Definition coherent (h : HotReloader T) (f : FileState C) : Prop :=
  fs_mtime f = hr_mtime h → hr_state h = load (fs_content f).

Lemma hot_new_coherent f : coherent (hot_new f) f.
Proof. done. Qed.

Lemma hot_check_coherent h f : coherent h f → coherent (fst (hot_check h f)) f.
Proof. intros Hc. unfold hot_check. destruct (decide _); simpl; [done|]. by intros _. Qed.

Lemma hot_check_fresh h f : coherent h f → hot_get (fst (hot_check h f)) = load (fs_content f).
Proof. intros Hc. unfold hot_check, hot_get. destruct (decide _); simpl; [by apply Hc|done]. Qed.
End HotReload.
