(* ===== verification/Evaluate.v ===== *)
(** * Rule evaluation (nemesis-security/src/auditor.rs, first half)

    [evaluate_request]: self-destruct protection, the editor short circuit, the
    deny and ask passes, the scan of interpreter payloads, the allow pass, the
    posture for unknown commands and the default action, in that order. *)
From S2P Require Import Prelude RustStr CommandArity Regex Matcher SecTypes EditorAccess.
Local Open Scope nb_scope.

(** ** Requests and policy *)

Record OperationRequest := mkRequest {
  rq_id : str;
  rq_op_type : OperationType;
  rq_danger_level : DangerLevel;
  rq_user : str;
  rq_source : str;
  rq_target : str;
  rq_timestamp : option str;
  rq_approver : option str;
  rq_approved_at : option str;
  rq_denied_reason : option str;
  rq_force_approval : option str;
}.

(** [OperationRequest::default()]. *)
Definition request_default : OperationRequest :=
  mkRequest [] FileRead Low [] [] [] None None None None None.

#[export] Instance OperationRequest_eq_dec : EqDecision OperationRequest.
Proof. solve_decision. Defined.

(** The fields of [SecurityAuditor] that the evaluation reads. *)
Record PolicyState := mkPolicy {
  pl_rules : gmap OperationType (list SecurityRule);
  pl_default_action : str;
  pl_exec_unknown_policy : str;
  pl_protected_paths : list str;
  pl_self_destruct_exempt : str;
  pl_editor_access : option EditorAccessState;
}.

(** Decision, reason and policy of an evaluation. *)
Definition Verdict3 : Type := SecurityDecision * str * str.

(** ** Actions *)

Definition normalize_decision (action : str) : SecurityDecision :=
  if one_of action ["allow"; "allowed"]%string then Allowed
  else if one_of action ["deny"; "denied"]%string then Denied
  else if one_of action ["ask"; "require_approval"]%string then RequireApproval
  else Denied.

Definition action_bucket (action : str) : str :=
  if one_of action ["deny"; "denied"]%string then lit "deny"
  else if one_of action ["ask"; "require_approval"; "approval"; "pending"]%string then lit "ask"
  else if one_of action ["allow"; "allowed"]%string then lit "allow"
  else lit "deny".

(** ** Self-destruct protection *)

Definition DESTRUCTIVE_BINS : list str :=
  lit <$> ["rm"; "del"; "rd"; "erase"; "rmdir"; "deltree"; "rimraf"; "remove-item"]%string.

(** [t] continues [base] with a separator. *)
Definition strictly_below (base t : str) : bool := starts_with (base ++ [c_slash]) t.

Definition trim_slashes (s : str) : str := trim_end_matches (N.eqb c_slash) s.

(** The closure over the protected paths. *)
Definition protected_hit (exempt tt p : str) : bool :=
  let p := trim_slashes p in
  if nonempty exempt && strictly_below exempt tt then false
  else (p =? tt) || strictly_below tt p || strictly_below p tt.

Definition is_hit (protected : list str) (exempt t : str) : bool :=
  if (t =? [c_slash]) || (t =? [c_backslash]) then true
  else if starts_with [c_dash] t then false
  else if starts_with [c_slash] t && (length t <=? 2)%nat then false
  else
    let tt := trim_slashes (replace_char c_backslash [c_slash] t) in
    if tt =? [] then true
    else (tt =? lit ".") || (tt =? lit "..") || (tt =? lit "*") || (tt =? lit ".git")
         || starts_with [c_tilde] t || existsb (protected_hit exempt tt) protected.

Definition is_boundary (t : str) : bool := one_of t ["&&"; ";"; "||"; "|"; "&"]%string.

Definition is_recursive_flag (t : str) : bool :=
  (starts_with [c_dash] t && contains (lit "r") t)
  || (starts_with [c_slash] t && (length t =? 2)%nat && ends_with (lit "s") t).

Definition self_destruct_reason (target : str) : str :=
  lit "self-destruct protection: recursive delete targeting `" ++ target
  ++ lit "` (protected path / bot home / workspace root)".

(** The loop over the tokens. *)
Fixpoint self_destruct_go (protected : list str) (exempt : str) (tokens : list str) : option str :=
  match tokens with
  | [] => None
  | token :: rest =>
      if bool_decide (bin_key token ∈ DESTRUCTIVE_BINS) then
        let window := take_while (λ t, negb (is_boundary t)) rest in
        if existsb is_recursive_flag window then
          match List.find (is_hit protected exempt) window with
          | Some target => Some (self_destruct_reason target)
          | None => self_destruct_go protected exempt rest
          end
        else self_destruct_go protected exempt rest
      else self_destruct_go protected exempt rest
  end.

Definition detect_self_destruct (normalized : str) (protected : list str) (exempt : str) : option str :=
  self_destruct_go protected exempt (split_spaces normalized).

(** ** The evaluation *)

Definition INTERPRETER_DANGEROUS_STRUCTURES : list str :=
  lit <$> ["shutil.rmtree"; "rmsync"; "rmdirsync"; "removedirectory"; "deltree"]%string.

(** "manual confirmation needed", in the source's Chinese. *)
Definition needs_confirmation : str :=
  lit "(" ++ [38656; 35201; 20154; 24037; 30830; 35748]%N ++ lit ")".

Definition path_ops : list OperationType :=
  [FileRead; FileWrite; FileDelete; DirRead; DirCreate; DirDelete;
   RegistryRead; RegistryWrite; RegistryDelete].
Definition command_ops : list OperationType := [ProcessExec; ProcessSpawn; ProcessKill; ProcessSuspend].
Definition network_ops : list OperationType := [NetworkDownload; NetworkUpload; NetworkRequest].

Definition is_exec_or_spawn (op : OperationType) : bool :=
  bool_decide (op ∈ [ProcessExec; ProcessSpawn]).

(** [rule[i]]. *)
Definition rule_name (i : nat) : str := lit "rule[" ++ show_nat i ++ lit "]".

Section Evaluate.
Context {UC : Unicode} {RE : RegexEngine} {PF : Platform}.

Definition match_target_of (req : OperationRequest) : str :=
  if bool_decide (rq_op_type req ∈ command_ops) then normalize_exec_command (rq_target req)
  else rq_target req.

Definition rule_matches (req : OperationRequest) (bucket : str) (rule : SecurityRule) : bool :=
  let op := rq_op_type req in
  if bool_decide (op ∈ path_ops) then match_path_rule (ru_pattern rule) (rq_target req)
  else if bool_decide (op ∈ command_ops) then
    exec_rule_bucket_match bucket (ru_pattern rule) (match_target_of req)
      (exec_rule_segments (rq_target req))
  else if bool_decide (op ∈ network_ops) then
    match_domain_pattern (ru_pattern rule) (rq_target req)
  else (ru_pattern rule =? lit "*") || match_path_rule (ru_pattern rule) (rq_target req).

(** The rules of the operation; an absent or empty list is no rule. *)
Definition op_rules (pl : PolicyState) (op : OperationType) : list SecurityRule :=
  default [] (pl_rules pl !! op).

Definition in_bucket (want : str) (rule : SecurityRule) : bool := action_bucket (ru_action rule) =? want.

(** One pass over the rules of a bucket: the first match decides. *)
Definition scan_bucket (pl : PolicyState) (req : OperationRequest) (want : str) : option Verdict3 :=
  (λ '(i, rule), (normalize_decision (ru_action rule),
                  lit "rule matched: pattern=" ++ ru_pattern rule, rule_name i)) <$>
  find_idx (λ rule, in_bucket want rule && rule_matches req want rule)
    (op_rules pl (rq_op_type req)).

(** One pass over the rules of a bucket for the payload of an interpreter. *)
Definition payload_bucket (pl : PolicyState) (op : OperationType) (payload want : str)
    : option Verdict3 :=
  (λ '(i, rule), (normalize_decision (ru_action rule),
                  lit "interpreter payload matched rule: pattern=" ++ ru_pattern rule
                  ++ lit " (inner of wrapper)",
                  rule_name i ++ lit ":interpreter_inner")) <$>
  find_idx (λ rule, in_bucket want rule
                    && glob_contains (to_lowercase (ru_pattern rule)) payload)
    (op_rules pl op).

Definition payload_structure (payload : str) : option Verdict3 :=
  (λ structure, (RequireApproval,
                 lit "interpreter payload contains dangerous structure `" ++ structure
                 ++ lit "` " ++ needs_confirmation,
                 lit "interpreter_structure")) <$>
  List.find (λ structure, contains structure payload) INTERPRETER_DANGEROUS_STRUCTURES.

Definition payload_verdict (pl : PolicyState) (op : OperationType) (payload : str) : option Verdict3 :=
  or_else (payload_bucket pl op payload (lit "deny"))
    (or_else (payload_bucket pl op payload (lit "ask")) (payload_structure payload)).

Definition scan_payloads (pl : PolicyState) (req : OperationRequest) : option Verdict3 :=
  if rq_op_type req =? ProcessExec then
    first_some (payload_verdict pl (rq_op_type req))
      (extract_interpreter_payloads (match_target_of req))
  else None.

Definition scan_self_destruct (pl : PolicyState) (req : OperationRequest) : option Verdict3 :=
  if is_exec_or_spawn (rq_op_type req) then
    match pl_protected_paths pl with
    | [] => None
    | protected =>
        (λ reason, (Denied, reason, lit "self_destruct")) <$>
        detect_self_destruct (match_target_of req) protected (pl_self_destruct_exempt pl)
    end
  else None.

Definition scan_editor (pl : PolicyState) (req : OperationRequest) : option Verdict3 :=
  match pl_editor_access pl with
  | Some editor => editor_evaluate editor (rq_op_type req) (rq_target req)
  | None => None
  end.

Definition scan_unknown (pl : PolicyState) (req : OperationRequest) : option Verdict3 :=
  if is_exec_or_spawn (rq_op_type req) then
    let policy := pl_exec_unknown_policy pl in
    let name := lit "exec_unknown_policy" in
    let reason := lit "unknown command (no rule matched), exec_unknown_policy=" ++ policy in
    if policy =? lit "ask" then Some (RequireApproval, reason, name)
    else if policy =? lit "deny" then Some (Denied, reason, name)
    else if policy =? lit "allow" then Some (Allowed, reason, name)
    else None
  else None.

Definition default_verdict (pl : PolicyState) : Verdict3 :=
  (normalize_decision (pl_default_action pl), lit "no rules matched, using default action",
   lit "default").

Definition evaluate_request_inner (pl : PolicyState) (req : OperationRequest) : Verdict3 :=
  default (default_verdict pl)
    (or_else (scan_self_destruct pl req)
    (or_else (scan_editor pl req)
    (or_else (scan_bucket pl req (lit "deny"))
    (or_else (scan_bucket pl req (lit "ask"))
    (or_else (scan_payloads pl req)
    (or_else (scan_bucket pl req (lit "allow"))
             (scan_unknown pl req))))))).

(** [force_approval] trimmed, when it says something. *)
Definition forced_reason (req : OperationRequest) : option str :=
  match trim <$> rq_force_approval req with
  | Some [] | None => None
  | Some reason => Some reason
  end.

Definition evaluate_request (pl : PolicyState) (req : OperationRequest) : Verdict3 :=
  let inner := evaluate_request_inner pl req in
  let '(decision, _, _) := inner in
  match decision, forced_reason req with
  | Denied, _ | _, None => inner
  | _, Some reason => (RequireApproval, reason, lit "preexec_scan")
  end.
End Evaluate.

(** ** Lemmas *)

Lemma or_else_None {A} (a b : option A) : or_else a b = None ↔ a = None ∧ b = None.
Proof. destruct a; simpl; split; naive_solver. Qed.

Lemma one_of_Exists name l : one_of name l = true ↔ Exists (λ s, name = lit s) l.
Proof.
  unfold one_of. rewrite existsb_Exists_true, !Exists_exists.
  by setoid_rewrite bool_decide_eq_true.
Qed.

Lemma bucket_cases a :
  action_bucket a = lit "deny" ∨ action_bucket a = lit "ask" ∨ action_bucket a = lit "allow".
Proof. unfold action_bucket. repeat case_match; auto. Qed.

Lemma bucket_deny a : action_bucket a = lit "deny" → normalize_decision a = Denied.
Proof.
  unfold action_bucket, normalize_decision. intros H.
  destruct (one_of a ["deny"; "denied"]%string) eqn:Ed.
  - destruct (one_of a ["allow"; "allowed"]%string) eqn:Ea; [|done].
    apply one_of_Exists in Ed, Ea. rewrite !Exists_cons, !Exists_nil in *.
    destruct Ed as [->|[->|[]]], Ea as [Ea|[Ea|[]]]; discriminate.
  - destruct (one_of a ["ask"; "require_approval"; "approval"; "pending"]%string) eqn:Ek; [discriminate|].
    destruct (one_of a ["allow"; "allowed"]%string); [discriminate|].
    unfold one_of in *. simpl in *. bool_simpl. repeat case_bool_decide; try done; tauto.
Qed.

Lemma bucket_allow a : action_bucket a = lit "allow" → normalize_decision a = Allowed.
Proof.
  unfold action_bucket, normalize_decision.
  destruct (one_of a ["deny"; "denied"]%string); [discriminate|].
  destruct (one_of a ["ask"; "require_approval"; "approval"; "pending"]%string); [discriminate|].
  by destruct (one_of a ["allow"; "allowed"]%string).
Qed.

Lemma bucket_ask a : action_bucket a = lit "ask" → normalize_decision a ≠ Allowed.
Proof.
  unfold action_bucket, normalize_decision.
  destruct (one_of a ["deny"; "denied"]%string) eqn:Ed; [discriminate|].
  destruct (one_of a ["ask"; "require_approval"; "approval"; "pending"]%string) eqn:Ek.
  - intros _. destruct (one_of a ["allow"; "allowed"]%string) eqn:Ea; [|by case_match].
    apply one_of_Exists in Ek, Ea. rewrite !Exists_cons, !Exists_nil in *.
    destruct Ek as [->|[->|[->|[->|[]]]]], Ea as [Ea|[Ea|[]]]; discriminate.
  - by destruct (one_of a ["allow"; "allowed"]%string).
Qed.

Section Facts.
Context {UC : Unicode} {RE : RegexEngine} {PF : Platform}.

(** A matching rule of a bucket. *)
Definition bucket_rule (pl : PolicyState) (req : OperationRequest) (want : str) (rule : SecurityRule) : Prop :=
  rule ∈ op_rules pl (rq_op_type req) ∧ action_bucket (ru_action rule) = want ∧
  rule_matches req want rule = true.

Lemma scan_bucket_None pl req want :
  scan_bucket pl req want = None ↔ ∀ rule, ¬ bucket_rule pl req want rule.
Proof.
  unfold scan_bucket, bucket_rule. rewrite fmap_None, find_idx_None.
  apply forall_proper. intros rule. unfold in_bucket. split.
  - intros H (Hin & Hb & Hm). specialize (H Hin). rewrite Hm, bool_decide_eq_true_2 in H; done.
  - intros H Hin. apply andb_false_iff. destruct (rule_matches req want rule) eqn:Em; [left|by right].
    apply bool_decide_eq_false. tauto.
Qed.

Lemma scan_bucket_Some pl req want v :
  scan_bucket pl req want = Some v →
  ∃ rule, bucket_rule pl req want rule ∧ fst (fst v) = normalize_decision (ru_action rule).
Proof.
  unfold scan_bucket. intros ([i rule] & [Hl Hf]%find_idx_Some & ->)%fmap_Some.
  exists rule. simpl. split; [|done]. bool_simpl. unfold in_bucket in *. bool_simpl.
  split_and!; [by eapply list_elem_of_lookup_2|done|done].
Qed.

Lemma payload_bucket_not_allowed pl op payload want v :
  want ≠ lit "allow" → payload_bucket pl op payload want = Some v → fst (fst v) ≠ Allowed.
Proof.
  intros Hw. unfold payload_bucket. intros ([i rule] & [Hl Hf]%find_idx_Some & ->)%fmap_Some.
  bool_simpl. unfold in_bucket in *. bool_simpl. simpl.
  destruct (bucket_cases (ru_action rule)) as [E|[E|E]]; [| |congruence].
  - by rewrite bucket_deny.
  - by apply bucket_ask.
Qed.

Lemma payload_verdict_not_allowed pl op payload v :
  payload_verdict pl op payload = Some v → fst (fst v) ≠ Allowed.
Proof.
  unfold payload_verdict. rewrite !or_else_Some.
  intros [H|[_ [H|[_ H]]]]; try (by eapply payload_bucket_not_allowed in H).
  unfold payload_structure in H. apply fmap_Some in H as (s & _ & ->). done.
Qed.

Lemma scan_payloads_not_allowed pl req v : scan_payloads pl req = Some v → fst (fst v) ≠ Allowed.
Proof.
  unfold scan_payloads. case_bool_decide as Hop; [|done].
  intros (p & _ & H)%first_some_Some. by eapply payload_verdict_not_allowed.
Qed.

Lemma scan_self_destruct_denied pl req v : scan_self_destruct pl req = Some v → fst (fst v) = Denied.
Proof.
  unfold scan_self_destruct. destruct (is_exec_or_spawn _); [|done].
  destruct (pl_protected_paths pl); [done|]. by intros (r & _ & ->)%fmap_Some.
Qed.

Lemma evaluate_inner_cases pl req v :
  evaluate_request_inner pl req = v →
  scan_self_destruct pl req = Some v ∨
  scan_self_destruct pl req = None ∧
  (scan_editor pl req = Some v ∨
   scan_editor pl req = None ∧
   (scan_bucket pl req (lit "deny") = Some v ∨
    scan_bucket pl req (lit "deny") = None ∧
    (scan_bucket pl req (lit "ask") = Some v ∨
     scan_bucket pl req (lit "ask") = None ∧
     (scan_payloads pl req = Some v ∨
      scan_payloads pl req = None ∧
      (scan_bucket pl req (lit "allow") = Some v ∨
       scan_bucket pl req (lit "allow") = None ∧
       (scan_unknown pl req = Some v ∨
        scan_unknown pl req = None ∧ v = default_verdict pl)))))).
Proof.
  unfold evaluate_request_inner. intros <-.
  destruct (scan_self_destruct pl req); [by left|right; split; [done|]].
  destruct (scan_editor pl req); [by left|right; split; [done|]].
  destruct (scan_bucket pl req (lit "deny")); [by left|right; split; [done|]].
  destruct (scan_bucket pl req (lit "ask")); [by left|right; split; [done|]].
  destruct (scan_payloads pl req); [by left|right; split; [done|]].
  destruct (scan_bucket pl req (lit "allow")); [by left|right; split; [done|]].
  destruct (scan_unknown pl req); [by left|right; split; done].
Qed.

Lemma evaluate_request_eq pl req :
  fst (fst (evaluate_request pl req))
  = match fst (fst (evaluate_request_inner pl req)), forced_reason req with
    | Denied, _ => Denied
    | d, None => d
    | _, Some _ => RequireApproval
    end.
Proof.
  unfold evaluate_request. destruct (evaluate_request_inner pl req) as [[d r] p]. simpl.
  by destruct d, (forced_reason req).
Qed.
End Facts.

Lemma self_destruct_go_Some protected exempt tokens :
  is_Some (self_destruct_go protected exempt tokens) ↔
  ∃ pre token rest, tokens = pre ++ token :: rest ∧ bin_key token ∈ DESTRUCTIVE_BINS ∧
    let window := take_while (λ t, negb (is_boundary t)) rest in
    Exists (λ t, is_recursive_flag t = true) window ∧
    Exists (λ t, is_hit protected exempt t = true) window.
Proof.
  induction tokens as [|t ts IH]; simpl.
  - split; [by intros [? ?]|]. by intros ([] & ? & ? & ? & _).
  - assert (Hskip : ∀ P : Prop,
      (∃ pre token rest, t :: ts = pre ++ token :: rest ∧ bin_key token ∈ DESTRUCTIVE_BINS ∧
        let window := take_while (λ t, negb (is_boundary t)) rest in
        Exists (λ t, is_recursive_flag t = true) window ∧
        Exists (λ t, is_hit protected exempt t = true) window) ↔
      (bin_key t ∈ DESTRUCTIVE_BINS ∧
        let window := take_while (λ t, negb (is_boundary t)) ts in
        Exists (λ t, is_recursive_flag t = true) window ∧
        Exists (λ t, is_hit protected exempt t = true) window) ∨
      is_Some (self_destruct_go protected exempt ts)).
    { intros _. rewrite IH. split.
      - intros ([|x pre] & token & rest & E & Hb & Hw); simplify_eq/=; [by left|right; eauto 8].
      - intros [(Hb & Hw)|(pre & token & rest & -> & Hb & Hw)].
        + by exists [], t, ts.
        + by exists (t :: pre), token, rest. }
    rewrite (Hskip True). clear Hskip IH. cbv zeta.
    rewrite <- !existsb_Exists_true.
    destruct (bool_decide (bin_key t ∈ DESTRUCTIVE_BINS)) eqn:Eb; bool_simpl; [|tauto].
    destruct (existsb is_recursive_flag _); [|naive_solver].
    destruct (List.find _ _) as [x|] eqn:Ef.
    + apply find_some in Ef as [Hin Hx].
      assert (existsb (is_hit protected exempt) (take_while (λ t, negb (is_boundary t)) ts) = true)
        by (apply existsb_exists; eauto).
      split; [|by eexists]. intros _. by left.
    + assert (Hn : existsb (is_hit protected exempt) (take_while (λ t, negb (is_boundary t)) ts) = false).
      { apply not_true_iff_false. rewrite existsb_exists. intros (x & Hin & Hx).
        eapply find_none in Ef; [|exact Hin]. congruence. }
      rewrite Hn. naive_solver.
Qed.

(** ** Properties *)

Section Properties.
Context {UC : Unicode} {RE : RegexEngine} {PF : Platform}.

(** C2: what it takes to be allowed: nothing was forced to approval, the command
    is not self-destructive, and either the editor switch granted the operation
    or no deny or ask rule matches, no interpreter payload is suspicious, and an
    allow rule, the posture for unknown commands or the default action says so. *)
Theorem allowed_sound pl req r p :
  evaluate_request pl req = (Allowed, r, p) →
  forced_reason req = None ∧ scan_self_destruct pl req = None ∧
  (is_Some (scan_editor pl req) ∨
   (∀ rule, ¬ bucket_rule pl req (lit "deny") rule) ∧
   (∀ rule, ¬ bucket_rule pl req (lit "ask") rule) ∧
   scan_payloads pl req = None ∧
   ((∃ rule, bucket_rule pl req (lit "allow") rule) ∨
    is_exec_or_spawn (rq_op_type req) = true ∧ pl_exec_unknown_policy pl = lit "allow" ∨
    normalize_decision (pl_default_action pl) = Allowed)).
Proof.
  intros H. pose proof (evaluate_request_eq pl req) as E. rewrite H in E. cbn [fst] in E.
  destruct (evaluate_request_inner pl req) as [[d r'] p'] eqn:Ei. cbn [fst] in E.
  assert (d = Allowed ∧ forced_reason req = None) as [-> Hf]
    by (destruct d, (forced_reason req); split; congruence).
  split; [done|].
  apply evaluate_inner_cases in Ei as [Hs|[Hs Ei]]; [by apply scan_self_destruct_denied in Hs|].
  split; [done|]. destruct Ei as [He|[He Ei]]; [left; by eexists|right].
  destruct Ei as [Hd|[Hd Ei]].
  { apply scan_bucket_Some in Hd as (rule & (_ & Hb & _) & Hn). by rewrite bucket_deny in Hn. }
  destruct Ei as [Hk|[Hk Ei]].
  { apply scan_bucket_Some in Hk as (rule & (_ & Hb & _) & Hn). by apply bucket_ask in Hb. }
  destruct Ei as [Hp|[Hp Ei]]; [by apply scan_payloads_not_allowed in Hp|].
  split_and!; [by apply scan_bucket_None|by apply scan_bucket_None|done|].
  destruct Ei as [Ha|[_ [Hu|[_ Hdef]]]].
  - left. apply scan_bucket_Some in Ha as (rule & ? & _). by exists rule.
  - right; left. unfold scan_unknown in Hu. destruct (is_exec_or_spawn _); [|done].
    split; [done|]. repeat case_bool_decide; congruence.
  - right; right. by injection Hdef.
Qed.

(** Also: a matching deny rule decides against everything but the editor switch:
    whatever other rules, payloads and defaults say, wherever it stands in the
    list, and even for a request that asks for approval. *)
Theorem deny_rule_wins pl req rule :
  scan_editor pl req = None → bucket_rule pl req (lit "deny") rule →
  fst (fst (evaluate_request pl req)) = Denied.
Proof.
  intros He Hr. rewrite evaluate_request_eq.
  destruct (evaluate_request_inner pl req) as [[d r] p] eqn:Ei. cbn [fst].
  enough (d = Denied) as -> by done.
  apply evaluate_inner_cases in Ei as [Hs|[_ [Hed|[_ [Hd|[Hd _]]]]]].
  - by apply scan_self_destruct_denied in Hs.
  - congruence.
  - apply scan_bucket_Some in Hd as (rule' & (_ & Hb & _) & Hn). by rewrite bucket_deny in Hn.
  - rewrite scan_bucket_None in Hd. by destruct (Hd rule).
Qed.

(** Also: a recursive delete of a protected path is denied whatever the rules, the
    editor switches, the posture for unknown commands and [force_approval] are:
    in the blank-separated words of the normalised command there is a deleting
    program whose words up to the next operator word hold a recursive flag and a
    protected target. *)
Theorem self_destruct_always_denied pl req pre token rest :
  is_exec_or_spawn (rq_op_type req) = true → pl_protected_paths pl ≠ [] →
  split_spaces (match_target_of req) = pre ++ token :: rest →
  bin_key token ∈ DESTRUCTIVE_BINS →
  (let window := take_while (λ t, negb (is_boundary t)) rest in
   Exists (λ t, is_recursive_flag t = true) window ∧
   Exists (λ t, is_hit (pl_protected_paths pl) (pl_self_destruct_exempt pl) t = true) window) →
  ∃ reason, evaluate_request pl req = (Denied, reason, lit "self_destruct").
Proof.
  intros Hop Hp Ht Hb Hw.
  assert (is_Some (detect_self_destruct (match_target_of req) (pl_protected_paths pl)
                     (pl_self_destruct_exempt pl))) as [reason Hr].
  { unfold detect_self_destruct. apply self_destruct_go_Some. rewrite Ht. eauto 6. }
  exists reason. unfold evaluate_request, evaluate_request_inner, scan_self_destruct.
  rewrite Hop. destruct (pl_protected_paths pl) as [|x l]; [done|]. by rewrite Hr.
Qed.

(** Also: a forced request never passes on its own: what would be denied stays
    denied with the same reason, everything else waits for a human with the
    forced reason. *)
Theorem force_approval_upgrades pl req reason :
  forced_reason req = Some reason →
  evaluate_request pl req =
    (if bool_decide (fst (fst (evaluate_request_inner pl req)) = Denied)
     then evaluate_request_inner pl req
     else (RequireApproval, reason, lit "preexec_scan")).
Proof.
  intros Hf. unfold evaluate_request. rewrite Hf.
  destruct (evaluate_request_inner pl req) as [[d r] p]. by destruct d.
Qed.

(** Observed: the action words [approval] and [pending] put a rule into the ask pass
    but not into the decision: a rule that asks with these words denies. *)
Theorem approval_alias_denies pl req rule :
  ru_action rule = lit "approval" ∨ ru_action rule = lit "pending" →
  pl_rules pl !! rq_op_type req = Some [rule] →
  rule_matches req (lit "ask") rule = true →
  scan_self_destruct pl req = None → scan_editor pl req = None →
  action_bucket (ru_action rule) = lit "ask" ∧
  fst (fst (evaluate_request pl req)) = Denied.
Proof.
  intros Ha Hr Hm Hs He.
  assert (Hb : action_bucket (ru_action rule) = lit "ask") by (by destruct Ha as [->| ->]).
  split; [done|]. rewrite evaluate_request_eq.
  assert (Hin : ∀ want rule', bucket_rule pl req want rule' → rule' = rule).
  { intros want rule' (Hin & _). unfold op_rules in Hin. rewrite Hr in Hin.
    by apply list_elem_of_singleton in Hin. }
  assert (Hd : scan_bucket pl req (lit "deny") = None).
  { apply scan_bucket_None. intros rule' Hb'. pose proof (Hin _ _ Hb') as ->.
    destruct Hb' as (_ & Hb' & _). by rewrite Hb in Hb'. }
  unfold evaluate_request_inner. rewrite Hs, He, Hd. cbn [or_else].
  destruct (scan_bucket pl req (lit "ask")) as [v|] eqn:Ek.
  - apply scan_bucket_Some in Ek as (rule' & Hb' & Hv). pose proof (Hin _ _ Hb') as ->.
    change (default (default_verdict pl) _) with v. rewrite Hv. by destruct Ha as [->| ->].
  - rewrite scan_bucket_None in Ek. destruct (Ek rule). split_and!; [|done|done].
    unfold op_rules. rewrite Hr. by left.
Qed.
End Properties.

(** Observed: operators are recognised only as separate words: without a blank before
    the program name the recursive delete of the root is not detected. *)
Theorem self_destruct_gap_unspaced :
  detect_self_destruct (lit "true ; rm -rf /") [lit "/home/bot"] [] ≠ None ∧
  detect_self_destruct (lit "true;rm -rf /") [lit "/home/bot"] [] = None ∧
  command_segments (lit "true;rm -rf /") = [lit "true"; lit "rm -rf /"].
Proof. split_and!; [discriminate|reflexivity|reflexivity]. Qed.

(** ** Witnesses *)

Definition unix : Platform := {| cfg_windows := false |}.

Definition demo_policy : PolicyState :=
  mkPolicy {[ FileWrite := [mkRule (lit "/work/*") (lit "allow") [];
                            mkRule (lit "/work/secret") (lit "deny") []] ]}
    (lit "deny") (lit "ask") [lit "/home/bot"] [] None.

Definition demo_request (op : OperationType) (target : str) : OperationRequest :=
  mkRequest (lit "r1") op (get_danger_level op) (lit "u") (lit "cli") target None None None None None.

Lemma allowed_sound_witness :
  ∃ rule, @bucket_rule ascii_unicode fragment_engine unix demo_policy
            (demo_request FileWrite (lit "/work/a")) (lit "allow") rule.
Proof.
  destruct (@allowed_sound ascii_unicode fragment_engine unix demo_policy
    (demo_request FileWrite (lit "/work/a")) (lit "rule matched: pattern=/work/*") (lit "rule[0]"))
    as (_ & _ & [[? H]|(_ & _ & _ & [H|[[H _]|H]])]).
  - vm_compute. reflexivity.
  - discriminate H.
  - exact H.
  - discriminate H.
  - discriminate H.
Defined.

Lemma deny_rule_wins_witness :
  fst (fst (@evaluate_request ascii_unicode fragment_engine unix demo_policy
    (demo_request FileWrite (lit "/work/secret")))) = Denied.
Proof.
  apply (@deny_rule_wins ascii_unicode fragment_engine unix demo_policy
    (demo_request FileWrite (lit "/work/secret")) (mkRule (lit "/work/secret") (lit "deny") [])).
  - reflexivity.
  - split_and!; [apply list_elem_of_In; vm_compute; auto|reflexivity|vm_compute; reflexivity].
Defined.

Lemma self_destruct_always_denied_witness :
  ∃ reason, @evaluate_request ascii_unicode fragment_engine unix
    (mkPolicy ∅ (lit "allow") (lit "allow") [lit "/home/bot"] []
       (Some (mkEditor true true [])))
    (demo_request ProcessExec (lit "cd /tmp && sudo rm -rf /home")) = (Denied, reason, lit "self_destruct").
Proof.
  apply (@self_destruct_always_denied ascii_unicode fragment_engine unix _ _
    [lit "cd"; lit "/tmp"; lit "&&"; lit "sudo"] (lit "rm") [lit "-rf"; lit "/home"]).
  - reflexivity.
  - discriminate.
  - vm_compute. reflexivity.
  - apply (bool_decide_unpack _). vm_compute. exact I.
  - split; [apply Exists_cons_hd; reflexivity|apply Exists_cons_tl, Exists_cons_hd; reflexivity].
Defined.

Definition forced_demo : OperationRequest :=
  mkRequest (lit "r1") FileWrite High [] [] (lit "/work/a") None None None None (Some (lit " scan ")).

Lemma force_approval_upgrades_witness :
  @evaluate_request ascii_unicode fragment_engine unix demo_policy forced_demo
  = (RequireApproval, lit "scan", lit "preexec_scan").
Proof.
  rewrite (@force_approval_upgrades ascii_unicode fragment_engine unix demo_policy forced_demo
    (lit "scan") eq_refl).
  vm_compute. reflexivity.
Defined.

Lemma approval_alias_denies_witness :
  fst (fst (@evaluate_request ascii_unicode fragment_engine unix
    (mkPolicy {[ FileWrite := [mkRule (lit "/work/*") (lit "approval") []] ]} (lit "allow") [] [] [] None)
    (demo_request FileWrite (lit "/work/a")))) = Denied.
Proof.
  apply (@approval_alias_denies ascii_unicode fragment_engine unix
    (mkPolicy {[ FileWrite := [mkRule (lit "/work/*") (lit "approval") []] ]} (lit "allow") [] [] [] None)
    (demo_request FileWrite (lit "/work/a")) (mkRule (lit "/work/*") (lit "approval") [])).
  - by left.
  - vm_compute. reflexivity.
  - vm_compute. reflexivity.
  - reflexivity.
  - reflexivity.
Defined.
