(* ===== verification/Auditor.v ===== *)
(** * The auditor (nemesis-security/src/auditor.rs, second half)

    The state around the evaluation: counters, pending requests, the approval
    memory and unattended mode, the approval manager, the audit log.  A request
    that needs a human runs in two phases, before and after the answer of the
    approval manager; [request_permission_tracked] is their composition, what a
    call does when nobody interferes.  [AuditorRuns] has the steps of a call between
    which those of other calls come.  Time stamps, event ids,
    the approval manager and the files on disk come from outside. *)
From S2P Require Import Prelude RustStr CommandArity Regex Matcher ApprovalRules SecTypes.
From S2P Require Import EditorAccess HotReload Evaluate.
Local Open Scope nb_scope.

(** ** State *)

Record AuditorConfig := mkAuditorConfig {
  cf_enabled : bool;
  cf_approval_timeout_secs : N;
  cf_audit_log_file_enabled : bool;
  cf_audit_log_dir : option str;
  cf_default_action : str;
}.

Definition auditor_config_default : AuditorConfig :=
  mkAuditorConfig true 300 false None (lit "deny").

Record AuditEvent := mkEvent {
  ev_event_id : str;
  ev_request : OperationRequest;
  ev_decision : str;
  ev_reason : str;
  ev_timestamp : str;
  ev_policy_rule : str;
}.

Record ApprovalVerdict := mkVerdict {
  av_approved : bool;
  av_note : option str;
}.

Record ApprovalContext := mkCtx {
  cx_channel : str;
  cx_chat_id : str;
  cx_sender_id : str;
}.

(** What an approval manager is asked: request id, operation, target, risk
    level, reason and time limit. *)
Record ApprovalQuestion := mkQuestion {
  qu_request_id : str;
  qu_operation : str;
  qu_target : str;
  qu_risk_level : str;
  qu_reason : str;
  qu_timeout_secs : N;
}.

(** [ApprovalManager]: [mg_ask] is [request_approval_sync] when the context is
    [None] and [request_approval_sync_ctx] otherwise. *)
Record ApprovalManager := mkManager {
  mg_is_running : bool;
  mg_ask : ApprovalQuestion → option ApprovalContext → result ApprovalVerdict str;
}.

(** The log files by path; each line is one event. *)
Abbreviation LogFiles := (gmap str (list AuditEvent)).

Record SecurityAuditor := mkAuditor {
  au_policy : PolicyState;
  au_active_requests : gmap str OperationRequest;
  au_config : AuditorConfig;
  au_enabled : bool;
  au_total_events : Z;
  au_allowed_count : Z;
  au_denied_count : Z;
  au_approved_count : Z;
  au_pending_count : Z;
  au_approval_manager : option ApprovalManager;
  au_approval_rules : option (HotReloader (list ApprovalRule));
  au_rules_file : FileState RulesFile;
  au_log_file_path : option str;
  au_approval_auto : option ApprovalAutoApproveState;
  au_audit_jsonl : option (bool * str);
  au_log_files : LogFiles;
}.

(** [AtomicI64]: addition wraps to the signed 64-bit range. *)
Definition wrap64 (z : Z) : Z := (z + 2 ^ 63) mod 2 ^ 64 - 2 ^ 63.
Definition fetch_add (c : Z) : Z := wrap64 (c + 1).
Definition fetch_sub (c : Z) : Z := wrap64 (c - 1).

Definition auditor_new (config : AuditorConfig) (rules_file : FileState RulesFile) (files : LogFiles)
    : SecurityAuditor :=
  mkAuditor (mkPolicy ∅ (cf_default_action config) [] [] [] None) ∅ config (cf_enabled config)
    0 0 0 0 0 None None rules_file None None None files.

(** ** Field updates *)

Definition with_policy (st : SecurityAuditor) (f : PolicyState → PolicyState) : SecurityAuditor :=
  let '(mkAuditor p a c e t al d ap pe m r rf l au j fs) := st in
  mkAuditor (f p) a c e t al d ap pe m r rf l au j fs.
Definition with_active (st : SecurityAuditor) (f : gmap str OperationRequest → gmap str OperationRequest)
    : SecurityAuditor :=
  let '(mkAuditor p a c e t al d ap pe m r rf l au j fs) := st in
  mkAuditor p (f a) c e t al d ap pe m r rf l au j fs.
Definition with_enabled (st : SecurityAuditor) (b : bool) : SecurityAuditor :=
  let '(mkAuditor p a c e t al d ap pe m r rf l au j fs) := st in
  mkAuditor p a c b t al d ap pe m r rf l au j fs.
Definition with_total (st : SecurityAuditor) (f : Z → Z) : SecurityAuditor :=
  let '(mkAuditor p a c e t al d ap pe m r rf l au j fs) := st in
  mkAuditor p a c e (f t) al d ap pe m r rf l au j fs.
Definition with_allowed (st : SecurityAuditor) (f : Z → Z) : SecurityAuditor :=
  let '(mkAuditor p a c e t al d ap pe m r rf l au j fs) := st in
  mkAuditor p a c e t (f al) d ap pe m r rf l au j fs.
Definition with_denied (st : SecurityAuditor) (f : Z → Z) : SecurityAuditor :=
  let '(mkAuditor p a c e t al d ap pe m r rf l au j fs) := st in
  mkAuditor p a c e t al (f d) ap pe m r rf l au j fs.
Definition with_approved (st : SecurityAuditor) (f : Z → Z) : SecurityAuditor :=
  let '(mkAuditor p a c e t al d ap pe m r rf l au j fs) := st in
  mkAuditor p a c e t al d (f ap) pe m r rf l au j fs.
Definition with_pending (st : SecurityAuditor) (f : Z → Z) : SecurityAuditor :=
  let '(mkAuditor p a c e t al d ap pe m r rf l au j fs) := st in
  mkAuditor p a c e t al d ap (f pe) m r rf l au j fs.
Definition with_manager (st : SecurityAuditor) (m' : option ApprovalManager) : SecurityAuditor :=
  let '(mkAuditor p a c e t al d ap pe m r rf l au j fs) := st in
  mkAuditor p a c e t al d ap pe m' r rf l au j fs.
Definition with_hot (st : SecurityAuditor) (r' : option (HotReloader (list ApprovalRule)))
    : SecurityAuditor :=
  let '(mkAuditor p a c e t al d ap pe m r rf l au j fs) := st in
  mkAuditor p a c e t al d ap pe m r' rf l au j fs.
Definition with_rules_file (st : SecurityAuditor) (rf' : FileState RulesFile) : SecurityAuditor :=
  let '(mkAuditor p a c e t al d ap pe m r rf l au j fs) := st in
  mkAuditor p a c e t al d ap pe m r rf' l au j fs.
Definition with_log_path (st : SecurityAuditor) (l' : option str) : SecurityAuditor :=
  let '(mkAuditor p a c e t al d ap pe m r rf l au j fs) := st in
  mkAuditor p a c e t al d ap pe m r rf l' au j fs.
Definition with_auto (st : SecurityAuditor) (au' : option ApprovalAutoApproveState) : SecurityAuditor :=
  let '(mkAuditor p a c e t al d ap pe m r rf l au j fs) := st in
  mkAuditor p a c e t al d ap pe m r rf l au' j fs.
Definition with_jsonl (st : SecurityAuditor) (j' : option (bool * str)) : SecurityAuditor :=
  let '(mkAuditor p a c e t al d ap pe m r rf l au j fs) := st in
  mkAuditor p a c e t al d ap pe m r rf l au j' fs.
Definition with_files (st : SecurityAuditor) (fs' : LogFiles) : SecurityAuditor :=
  let '(mkAuditor p a c e t al d ap pe m r rf l au j fs) := st in
  mkAuditor p a c e t al d ap pe m r rf l au j fs'.

(** ** Audit log *)

(** The directory of the structured log. *)
Definition jsonl_dir (st : SecurityAuditor) : option str :=
  match au_audit_jsonl st with
  | Some (true, dir) => if nonempty dir then Some dir else None
  | Some (false, _) => None
  | None =>
      if cf_audit_log_file_enabled (au_config st) then
        match cf_audit_log_dir (au_config st) with
        | Some d => if nonempty d then Some d else None
        | None => None
        end
      else None
  end.

(** [Path::new(dir).join(audit.jsonl)] on the names the program uses. *)
Definition jsonl_path (dir : str) : str := dir ++ lit "/audit.jsonl".

Definition append_line (files : LogFiles) (path : str) (e : AuditEvent) : LogFiles :=
  <[path := default [] (files !! path) ++ [e]]> files.

(** [log_audit_event]: both sinks, when configured. *)
Definition log_audit_event (st : SecurityAuditor) (e : AuditEvent) : SecurityAuditor :=
  let files := au_log_files st in
  let files := match jsonl_dir st with
               | Some dir => append_line files (jsonl_path dir) e
               | None => files
               end in
  let files := match au_log_file_path st with
               | Some path => append_line files path e
               | None => files
               end in
  with_files st files.

(** ** Setters *)

Section Setters.
Context {UC : Unicode}.

Definition set_protected_paths (st : SecurityAuditor) (paths : list str) : SecurityAuditor :=
  let normalized := (λ p, to_lowercase (replace_char c_backslash [c_slash] p))
                    <$> List.filter (λ p, nonempty (trim p)) paths in
  with_policy st (λ p, mkPolicy (pl_rules p) (pl_default_action p) (pl_exec_unknown_policy p)
                         normalized (pl_self_destruct_exempt p) (pl_editor_access p)).

Definition set_self_destruct_exempt_path (st : SecurityAuditor) (path : str) : SecurityAuditor :=
  let normalized := to_lowercase (trim_slashes (replace_char c_backslash [c_slash] (trim path))) in
  with_policy st (λ p, mkPolicy (pl_rules p) (pl_default_action p) (pl_exec_unknown_policy p)
                         (pl_protected_paths p) normalized (pl_editor_access p)).

Definition set_exec_unknown_policy (st : SecurityAuditor) (policy : str) : SecurityAuditor :=
  with_policy st (λ p, mkPolicy (pl_rules p) (pl_default_action p) (to_lowercase policy)
                         (pl_protected_paths p) (pl_self_destruct_exempt p) (pl_editor_access p)).
End Setters.

Definition set_rules (st : SecurityAuditor) (op : OperationType) (rules : list SecurityRule)
    : SecurityAuditor :=
  with_policy st (λ p, mkPolicy (<[op := rules]> (pl_rules p)) (pl_default_action p)
                         (pl_exec_unknown_policy p) (pl_protected_paths p)
                         (pl_self_destruct_exempt p) (pl_editor_access p)).

Definition set_default_action (st : SecurityAuditor) (action : str) : SecurityAuditor :=
  with_policy st (λ p, mkPolicy (pl_rules p) action (pl_exec_unknown_policy p)
                         (pl_protected_paths p) (pl_self_destruct_exempt p) (pl_editor_access p)).

Definition set_editor_access (st : SecurityAuditor) (e : EditorAccessState) : SecurityAuditor :=
  with_policy st (λ p, mkPolicy (pl_rules p) (pl_default_action p) (pl_exec_unknown_policy p)
                         (pl_protected_paths p) (pl_self_destruct_exempt p) (Some e)).

Definition enable (st : SecurityAuditor) : SecurityAuditor := with_enabled st true.
Definition disable (st : SecurityAuditor) : SecurityAuditor := with_enabled st false.

(** [set_approval_rules] with a reloader on the rules file. *)
Definition set_approval_rules (st : SecurityAuditor) : SecurityAuditor :=
  with_hot st (Some (hot_new load_rules (au_rules_file st))).

Definition approval_auto_enabled (st : SecurityAuditor) : bool :=
  match au_approval_auto st with
  | Some s => aa_enabled s
  | None => false
  end.

(** ** Requests *)

(** What comes from outside during one call: the clock, the id of the event, the
    outcome of writing the rules file and its time stamp after the write. *)
Record CallEnv := mkEnv {
  en_now : str;
  en_event_id : str;
  en_write : result unit str;
  en_mtime : option N;
}.

(** The answer of [request_permission_tracked]: allowed, message, approval
    reference. *)
Definition Answer : Type := bool * option str * option str.

(** The first phase either ends the call or opens a dialog. *)
Inductive Begun :=
| Finished (a : Answer)
| AskManager (m : ApprovalManager) (q : ApprovalQuestion).

Definition mk_event (env : CallEnv) (req : OperationRequest) (decision reason policy : str) : AuditEvent :=
  mkEvent (en_event_id env) req decision reason (en_now env) policy.

Definition pending_message (req : OperationRequest) (reason : str) : str :=
  lit "approval required: " ++ reason ++ lit " (request ID: " ++ rq_id req ++ lit ")".

(** Nobody could be asked: store the request. *)
Definition store_pending (st : SecurityAuditor) (req : OperationRequest) (reason : str)
    : SecurityAuditor * Answer :=
  (with_active st (<[rq_id req := req]>), (false, Some (pending_message req reason), None)).

(** [persist_auto_allow_rule] on the file of the reloader. *)
Definition persist_cluster_rule (env : CallEnv) (st : SecurityAuditor) (req : OperationRequest)
    : SecurityAuditor :=
  match persist_auto_allow_rule (en_write env) (en_now env) (fs_content (au_rules_file st))
          (op_slug (rq_op_type req)) (rq_target req) (danger_str (rq_danger_level req)) with
  | (f, Ok (Some _)) => with_rules_file st (mkFile f (en_mtime env))
  | _ => st
  end.

(** [Security policy denied ... on '...' (...)]. *)
Definition on_target (intro : str) (req : OperationRequest) (reason : str) : str :=
  intro ++ op_slug (rq_op_type req) ++ lit " on '" ++ rq_target req ++ lit "' (" ++ reason ++ lit ")".

Definition with_note (base : str) (note : option str) : str :=
  match trim <$> note with
  | Some [] | None => base
  | Some n => base ++ lit ": " ++ n
  end.

Section Requests.
Context {UC : Unicode} {RE : RegexEngine} {PF : Platform}.

(** The approval memory: the reloader after its check and the rule found. *)
Definition consult_rules (st : SecurityAuditor) (req : OperationRequest)
    : SecurityAuditor * option ApprovalRule :=
  match rq_force_approval req, au_approval_rules st with
  | None, Some hot =>
      let hot := fst (hot_check load_rules hot (au_rules_file st)) in
      (with_hot st (Some hot),
       find_auto_allow_rule (hot_get hot) (op_slug (rq_op_type req)) (rq_target req)
         (danger_str (rq_danger_level req)))
  | _, _ => (st, None)
  end.

(** The part of a pending decision that no memory or switch settles. *)
Definition ask_or_store (env : CallEnv) (st : SecurityAuditor) (req : OperationRequest)
    (reason policy : str) : SecurityAuditor * Begun :=
  let st := log_audit_event st (mk_event env req (lit "pending") reason policy) in
  let st := with_pending st fetch_add in
  match au_approval_manager st with
  | Some mgr =>
      if mg_is_running mgr then
        (st, AskManager mgr
               (mkQuestion (rq_id req) (op_slug (rq_op_type req)) (rq_target req)
                  (danger_str (rq_danger_level req)) reason
                  (cf_approval_timeout_secs (au_config st))))
      else let '(st, a) := store_pending st req reason in (st, Finished a)
  | None => let '(st, a) := store_pending st req reason in (st, Finished a)
  end.

(** [RequireApproval]: memory, then unattended mode, then a human. *)
Definition settle_pending (env : CallEnv) (st : SecurityAuditor) (req : OperationRequest)
    (ctx : option ApprovalContext) (reason policy : str) : SecurityAuditor * Begun :=
  let '(st, found) := consult_rules st req in
  match found with
  | Some rule =>
      let st := with_allowed st fetch_add in
      let st := log_audit_event st (mk_event env req (lit "allowed")
                  (lit "auto allowed by approval rule (" ++ ar_op rule ++ [c_space]
                   ++ ar_pattern rule ++ lit ")")
                  (lit "auto_by_rule:" ++ ar_pattern rule)) in
      (st, Finished (true, None, None))
  | None =>
      if approval_auto_enabled st then
        let st := with_allowed st fetch_add in
        let st := with_auto st (auto_bump <$> au_approval_auto st) in
        let st := match ctx, au_approval_rules st with
                  | Some c, Some _ =>
                      if cx_channel c =? lit "cluster" then persist_cluster_rule env st req else st
                  | _, _ => st
                  end in
        let st := log_audit_event st (mk_event env req (lit "allowed")
                    (lit "auto approved by security.approvals.auto_approve (unattended mode)")
                    (lit "auto_by_config")) in
        (st, Finished (true, None, None))
      else ask_or_store env st req reason policy
  end.

(** The call up to the question to the approval manager, when nobody interferes; its
    accesses one by one are [AuditorRuns.call_step]. *)
Definition request_begin (env : CallEnv) (st : SecurityAuditor) (req : OperationRequest)
    (ctx : option ApprovalContext) : SecurityAuditor * Begun :=
  if negb (au_enabled st) then (st, Finished (true, None, None))
  else
    let st := with_total st fetch_add in
    let '(decision, reason, policy) := evaluate_request (au_policy st) req in
    match decision with
    | RequireApproval => settle_pending env st req ctx reason policy
    | Allowed =>
        let st := log_audit_event st (mk_event env req (lit "allowed") reason policy) in
        (with_allowed st fetch_add, Finished (true, None, None))
    | Denied =>
        let st := log_audit_event st (mk_event env req (lit "denied") reason policy) in
        (with_denied st fetch_add,
         Finished (false, Some (on_target (lit "Security policy denied ") req reason), None))
    end.

(** The call after the answer of the approval manager, likewise. *)
Definition request_finish (st : SecurityAuditor) (req : OperationRequest) (reason : str)
    (verdict : result ApprovalVerdict str) : SecurityAuditor * Answer :=
  match verdict with
  | Ok v =>
      if av_approved v then
        (with_approved (with_pending st fetch_sub) fetch_add, (true, None, Some (rq_id req)))
      else
        (with_denied (with_pending st fetch_sub) fetch_add,
         (false, Some (with_note (on_target (lit "User rejected ") req reason) (av_note v)), None))
  | Err _ => store_pending st req reason
  end.

Definition request_permission_tracked (env : CallEnv) (st : SecurityAuditor)
    (req : OperationRequest) (ctx : option ApprovalContext) : SecurityAuditor * Answer :=
  let '(st, b) := request_begin env st req ctx in
  match b with
  | Finished a => (st, a)
  | AskManager mgr q => request_finish st req (qu_reason q) (mg_ask mgr q ctx)
  end.

(** The third value is the id of the request. *)
Definition request_permission_with_ctx (env : CallEnv) (st : SecurityAuditor)
    (req : OperationRequest) (ctx : option ApprovalContext)
    : SecurityAuditor * (bool * option str * str) :=
  let '(st, (allowed, err, _)) := request_permission_tracked env st req ctx in
  (st, (allowed, err, rq_id req)).

Definition request_permission (env : CallEnv) (st : SecurityAuditor) (req : OperationRequest)
    : SecurityAuditor * (bool * option str * str) :=
  request_permission_with_ctx env st req None.
End Requests.

(** ** Pending requests *)

Definition not_found (request_id : str) : str := lit "request not found: " ++ request_id.

Definition approve_request (st : SecurityAuditor) (request_id approver : str)
    : SecurityAuditor * result unit str :=
  match au_active_requests st !! request_id with
  | Some _ =>
      let st := with_active st (delete request_id) in
      (with_approved (with_pending st fetch_sub) fetch_add, Ok tt)
  | None => (st, Err (not_found request_id))
  end.

Definition deny_request (st : SecurityAuditor) (request_id approver reason : str)
    : SecurityAuditor * result unit str :=
  match au_active_requests st !! request_id with
  | Some _ =>
      let st := with_active st (delete request_id) in
      (with_denied (with_pending st fetch_sub) fetch_add, Ok tt)
  | None => (st, Err (not_found request_id))
  end.

Definition pending_count (st : SecurityAuditor) : nat := size (au_active_requests st).

Definition get_pending_requests (st : SecurityAuditor) : list OperationRequest :=
  snd <$> map_to_list (au_active_requests st).

Definition statistics (st : SecurityAuditor) : gmap str Z :=
  list_to_map [(lit "total_events", au_total_events st); (lit "allowed", au_allowed_count st);
               (lit "denied", au_denied_count st); (lit "approved", au_approved_count st);
               (lit "pending", au_pending_count st)].

(** [close] only clears the stored requests. *)
Definition close (st : SecurityAuditor) : SecurityAuditor := with_active st (λ _, ∅).

(** ** Queries of the audit log *)

Record AuditFilter := mkFilter {
  fl_operation_type : option OperationType;
  fl_user : option str;
  fl_source : option str;
  fl_decision : option str;
  fl_start_time : option str;
  fl_end_time : option str;
}.

Definition filter_none : AuditFilter := mkFilter None None None None None None.

Definition opt_forall {A} (o : option A) (p : A → bool) : bool :=
  match o with
  | Some a => p a
  | None => true
  end.

Definition filter_is_empty (f : AuditFilter) : bool :=
  negb (bool_decide (is_Some (fl_operation_type f)) || bool_decide (is_Some (fl_user f))
        || bool_decide (is_Some (fl_source f)) || bool_decide (is_Some (fl_decision f))
        || bool_decide (is_Some (fl_start_time f)) || bool_decide (is_Some (fl_end_time f))).

Definition filter_matches (f : AuditFilter) (e : AuditEvent) : bool :=
  opt_forall (fl_operation_type f) (λ op, rq_op_type (ev_request e) =? op)
  && opt_forall (fl_user f) (λ u, rq_user (ev_request e) =? u)
  && opt_forall (fl_source f) (λ s, nonempty (rq_source (ev_request e))
                                    && contains s (rq_source (ev_request e)))
  && opt_forall (fl_decision f) (λ d, ev_decision e =? d)
  && opt_forall (fl_start_time f) (λ t, negb (str_lt (ev_timestamp e) t))
  && opt_forall (fl_end_time f) (λ t, negb (str_lt t (ev_timestamp e))).

Definition get_audit_log (st : SecurityAuditor) (f : AuditFilter) : list AuditEvent :=
  match jsonl_dir st with
  | None => []
  | Some dir =>
      List.filter (λ e, filter_is_empty f || filter_matches f e)
        (default [] (au_log_files st !! jsonl_path dir))
  end.

(** ** Counter lemmas *)

Definition counters (st : SecurityAuditor) : Z * Z * Z * Z * Z :=
  (au_total_events st, au_allowed_count st, au_denied_count st, au_approved_count st,
   au_pending_count st).

(** A line in the log leaves the rest of the state. *)
Lemma log_counters st e : counters (log_audit_event st e) = counters st.
Proof. by destruct st. Qed.
Lemma log_active st e : au_active_requests (log_audit_event st e) = au_active_requests st.
Proof. by destruct st. Qed.
Lemma log_enabled st e : au_enabled (log_audit_event st e) = au_enabled st.
Proof. by destruct st. Qed.
Lemma log_manager st e : au_approval_manager (log_audit_event st e) = au_approval_manager st.
Proof. by destruct st. Qed.

(** ** Log lemmas *)

(** Everything the log depends on. *)
Definition log_view (st : SecurityAuditor)
    : AuditorConfig * option (bool * str) * option str * LogFiles :=
  (au_config st, au_audit_jsonl st, au_log_file_path st, au_log_files st).

Lemma jsonl_dir_view st st' : log_view st = log_view st' → jsonl_dir st = jsonl_dir st'.
Proof. unfold log_view, jsonl_dir. by intros [= -> -> _ _]. Qed.

Lemma get_audit_log_view st st' f : log_view st = log_view st' → get_audit_log st f = get_audit_log st' f.
Proof.
  intros H. unfold get_audit_log. rewrite (jsonl_dir_view _ _ H).
  injection H as _ _ _ Hf. by rewrite Hf.
Qed.

Lemma filter_none_all l : List.filter (λ e, filter_is_empty filter_none || filter_matches filter_none e) l = l.
Proof. induction l as [|e l IH]; [done|]. cbn. by f_equal. Qed.

(** One event appends one line to what the query reads. *)
Lemma log_appends st e dir :
  jsonl_dir st = Some dir → au_log_file_path st ≠ Some (jsonl_path dir) →
  get_audit_log (log_audit_event st e) filter_none = get_audit_log st filter_none ++ [e].
Proof.
  intros Hd Hp.
  assert (Hd' : jsonl_dir (log_audit_event st e) = Some dir) by (rewrite <- Hd; by destruct st).
  unfold get_audit_log. rewrite Hd, Hd', !filter_none_all.
  unfold log_audit_event. rewrite Hd. destruct st as [? ? ? ? ? ? ? ? ? ? ? ? path]. simpl in *.
  destruct path as [path|]; unfold append_line.
  - rewrite lookup_insert_ne by congruence. by rewrite lookup_insert_eq.
  - by rewrite lookup_insert_eq.
Qed.

(** The log view changes by exactly this event. *)
Definition logged (st st' : SecurityAuditor) (e : AuditEvent) : Prop :=
  log_view st' = log_view (log_audit_event st e).

Lemma logged_intro st0 st e st' :
  log_view st0 = log_view st → log_view st' = log_view (log_audit_event st0 e) → logged st st' e.
Proof.
  intros H0 H. unfold logged. rewrite H. pose proof (jsonl_dir_view _ _ H0) as Hd.
  unfold log_audit_event. rewrite Hd. destruct st0, st. unfold log_view in *. simpl in *.
  by simplify_eq.
Qed.

Lemma logged_get st st' e dir :
  logged st st' e → jsonl_dir st = Some dir → au_log_file_path st ≠ Some (jsonl_path dir) →
  get_audit_log st' filter_none = get_audit_log st filter_none ++ [e].
Proof. intros Hl Hd Hp. rewrite (get_audit_log_view _ _ _ Hl). by apply log_appends with dir. Qed.

Section LogFacts.
Context {UC : Unicode} {RE : RegexEngine} {PF : Platform}.

Lemma consult_view st req : log_view (fst (consult_rules st req)) = log_view st.
Proof. unfold consult_rules. destruct (rq_force_approval req), (au_approval_rules st); by destruct st. Qed.

Lemma persist_view env st req : log_view (persist_cluster_rule env st req) = log_view st.
Proof. unfold persist_cluster_rule. destruct st. by repeat case_match. Qed.

Lemma finish_view st req reason v :
  log_view (fst (request_finish st req reason v)) = log_view st.
Proof.
  unfold request_finish, store_pending.
  destruct v as [v|]; [destruct (av_approved v)|]; by destruct st.
Qed.

Lemma ask_or_store_logged env st req reason policy :
  logged st (fst (ask_or_store env st req reason policy))
    (mk_event env req (lit "pending") reason policy).
Proof.
  unfold ask_or_store, store_pending, logged.
  destruct (au_approval_manager _) as [m|]; [destruct (mg_is_running m)|];
    by destruct (log_audit_event _ _).
Qed.

(** The decision of the event logged before an answer. *)
Definition event_decision (d : SecurityDecision) (b : Begun) : str :=
  match d, b with
  | Allowed, _ => lit "allowed"
  | Denied, _ => lit "denied"
  | RequireApproval, Finished (true, _, _) => lit "allowed"
  | RequireApproval, _ => lit "pending"
  end.

Lemma settle_pending_logged env st req ctx reason policy st' b :
  settle_pending env st req ctx reason policy = (st', b) →
  ∃ reason' policy', logged st st'
    (mk_event env req (event_decision RequireApproval b) reason' policy').
Proof.
  unfold settle_pending. pose proof (consult_view st req) as Hv.
  destruct (consult_rules st req) as [st1 found]. simpl in Hv. destruct found as [rule|].
  { intros [= <- <-]. do 2 eexists. eapply (logged_intro (with_allowed st1 fetch_add)); [|done].
    by destruct st1. }
  destruct (approval_auto_enabled st1).
  { intros [= <- <-]. do 2 eexists. eapply logged_intro; [|reflexivity].
    transitivity (log_view st1); [|done].
    destruct ctx as [c|]; [|by destruct st1]. destruct (au_approval_rules _); [|by destruct st1].
    destruct (_ =? _); [rewrite persist_view|]; by destruct st1. }
  intros H. pose proof (ask_or_store_logged env st1 req reason policy) as Hl.
  assert (Hb : event_decision RequireApproval b = lit "pending").
  { revert H. unfold ask_or_store, store_pending.
    destruct (au_approval_manager _) as [m|]; [destruct (mg_is_running m)|];
      by intros [= <- <-]. }
  rewrite H in Hl. rewrite Hb. do 2 eexists. by eapply logged_intro.
Qed.

Lemma request_begin_logged env st req ctx st' b :
  au_enabled st = true → request_begin env st req ctx = (st', b) →
  ∃ reason policy, logged st st'
    (mk_event env req (event_decision (fst (fst (evaluate_request (au_policy st) req))) b) reason policy).
Proof.
  intros He. unfold request_begin. rewrite He. simpl.
  replace (au_policy (with_total st fetch_add)) with (au_policy st) by (by destruct st).
  destruct (evaluate_request _ req) as [[[] reason] policy]; simpl.
  - intros [= <- <-]. exists reason, policy. eapply (logged_intro (with_total st fetch_add)); [by destruct st|].
    by destruct (log_audit_event _ _).
  - intros [= <- <-]. exists reason, policy. eapply (logged_intro (with_total st fetch_add)); [by destruct st|].
    by destruct (log_audit_event _ _).
  - intros (r & p & Hl)%settle_pending_logged. exists r, p.
    eapply logged_intro; [|exact Hl]. by destruct st.
Qed.

(** ** Who may answer yes *)

Definition manager_question (st : SecurityAuditor) (req : OperationRequest) (reason : str)
    : ApprovalQuestion :=
  mkQuestion (rq_id req) (op_slug (rq_op_type req)) (rq_target req)
    (danger_str (rq_danger_level req)) reason (cf_approval_timeout_secs (au_config st)).

Lemma consult_found st req rule :
  snd (consult_rules st req) = Some rule →
  rq_force_approval req = None ∧ ∃ hot, au_approval_rules st = Some hot ∧
    find_auto_allow_rule (hot_get (fst (hot_check load_rules hot (au_rules_file st))))
      (op_slug (rq_op_type req)) (rq_target req) (danger_str (rq_danger_level req)) = Some rule.
Proof.
  unfold consult_rules. destruct (rq_force_approval req), (au_approval_rules st); try done.
  simpl. eauto.
Qed.

Lemma ask_or_store_begun env st req reason policy st' b :
  ask_or_store env st req reason policy = (st', b) →
  match b with
  | Finished a => fst (fst a) = false ∧ snd a = None
  | AskManager m q => au_approval_manager st = Some m ∧ mg_is_running m = true ∧
                      q = manager_question st req reason
  end.
Proof.
  unfold ask_or_store, store_pending.
  replace (au_approval_manager (with_pending _ fetch_add)) with (au_approval_manager st) by (by destruct st).
  destruct (au_approval_manager st) as [m|]; [destruct (mg_is_running m) eqn:E|];
    intros [= <- <-]; try done. split_and!; [done|done|by destruct st].
Qed.

Lemma settle_pending_begun env st req ctx reason policy st' b :
  settle_pending env st req ctx reason policy = (st', b) →
  match b with
  | Finished (allowed, err, ref) =>
      ref = None ∧
      (allowed = true → err = None ∧
        ((∃ rule, snd (consult_rules st req) = Some rule) ∨ approval_auto_enabled st = true))
  | AskManager m q => au_approval_manager st = Some m ∧ mg_is_running m = true ∧
                      q = manager_question st req reason
  end.
Proof.
  unfold settle_pending. destruct (consult_rules st req) as [st1 found] eqn:Ec.
  assert (Hsame : approval_auto_enabled st1 = approval_auto_enabled st ∧
                  au_approval_manager st1 = au_approval_manager st ∧ au_config st1 = au_config st).
  { revert Ec. unfold consult_rules. destruct (rq_force_approval req), (au_approval_rules st);
      intros [= <- _]; by destruct st. }
  destruct Hsame as (Ha & Hm & Hc). destruct found as [rule|].
  { intros [= <- <-]. simpl. eauto. }
  rewrite Ha. destruct (approval_auto_enabled st).
  { intros [= <- <-]. simpl. auto. }
  intros H%ask_or_store_begun. destruct b as [[[al err] ref]|m q].
  - simpl in H. destruct H as [-> ->]. by split.
  - unfold manager_question in *. by rewrite Hm, Hc in H.
Qed.
End LogFacts.

Section RefFacts.
Context {UC : Unicode} {RE : RegexEngine} {PF : Platform}.

(** The first phase gives no approval reference and opens a dialog only for a
    decision that asks. *)
Lemma tracked_ref_none env st req ctx st1 b :
  request_begin env st req ctx = (st1, b) →
  match b with
  | Finished a => snd a = None
  | AskManager _ _ =>
      event_decision (fst (fst (evaluate_request (au_policy st) req))) b = lit "pending"
  end.
Proof.
  unfold request_begin. destruct (au_enabled st); simpl; [|by intros [= <- <-]].
  replace (au_policy (with_total st fetch_add)) with (au_policy st) by (by destruct st).
  destruct (evaluate_request _ req) as [[[] reason] policy]; simpl; try by intros [= <- <-].
  intros H%settle_pending_begun. destruct b as [[[al err] ref]|m q]; [by destruct H|done].
Qed.
End RefFacts.

(** ** Properties *)

Section Allowed.
Context {UC : Unicode} {RE : RegexEngine} {PF : Platform}.

Lemma tracked_allowed env st req ctx st' err ref :
  request_permission_tracked env st req ctx = (st', (true, err, ref)) →
  err = None ∧
  (au_enabled st = false ∧ ref = None ∧ st' = st ∨
   au_enabled st = true ∧ ∃ d reason policy,
     evaluate_request (au_policy st) req = (d, reason, policy) ∧
     (d = Allowed ∧ ref = None ∨
      d = RequireApproval ∧
      (ref = None ∧ rq_force_approval req = None ∧
         (∃ hot rule, au_approval_rules st = Some hot ∧
            find_auto_allow_rule (hot_get (fst (hot_check load_rules hot (au_rules_file st))))
              (op_slug (rq_op_type req)) (rq_target req) (danger_str (rq_danger_level req)) = Some rule) ∨
       ref = None ∧ approval_auto_enabled st = true ∨
       ref = Some (rq_id req) ∧ ∃ mgr v, au_approval_manager st = Some mgr ∧
         mg_is_running mgr = true ∧ mg_ask mgr (manager_question st req reason) ctx = Ok v ∧
         av_approved v = true))).
Proof.
  unfold request_permission_tracked, request_begin. intros H.
  destruct (au_enabled st); simpl in H; [|by simplify_eq; auto].
  replace (au_policy (with_total st fetch_add)) with (au_policy st) in H by (by destruct st).
  destruct (evaluate_request (au_policy st) req) as [[d reason] policy] eqn:Ee.
  enough (err = None ∧ (d = Allowed ∧ ref = None ∨ d = RequireApproval ∧ _)) as [? ?]
    by (split; [done|]; right; split; [done|]; eauto 8).
  destruct d; [by simplify_eq; auto|by simplify_eq|].
  destruct (settle_pending env (with_total st fetch_add) req ctx reason policy) as [st1 b] eqn:Es.
  apply settle_pending_begun in Es. destruct b as [[[al e] rf]|m q].
  - simplify_eq. destruct Es as [-> Hs]. destruct (Hs eq_refl) as [-> [[rule Hr]|Ha]].
    + split; [done|]. right. split; [done|]. left. apply consult_found in Hr as (Hf & hot & Hh & Hr).
      destruct st; simpl in *. eauto 8.
    + split; [done|]. right. split; [done|]. right; left. by destruct st.
  - destruct Es as (Hm & Hrun & ->).
    replace (au_approval_manager (with_total st fetch_add)) with (au_approval_manager st) in Hm by (by destruct st).
    replace (manager_question (with_total st fetch_add) req reason) with (manager_question st req reason) in H
      by (by destruct st).
    unfold request_finish, store_pending in H.
    destruct (mg_ask m (manager_question st req reason) ctx) as [v|] eqn:Ev; [|done].
    destruct (av_approved v) eqn:Ea; [|done]. simplify_eq. split; [done|]. right. split; [done|].
    right; right. eauto 8.
Qed.
End Allowed.

Section AuditorProperties.
Context {UC : Unicode} {RE : RegexEngine} {PF : Platform}.

(** C1: who can say yes.  An enabled auditor allows an operation only if the
    rules allow it, or the rules ask and a remembered rule covers a request that
    is not forced, or unattended mode is on, or the running approval manager
    approved exactly this request; only the last case yields an approval
    reference, the id of the request. *)
Theorem tracked_allowed_sound env st req ctx st' err ref :
  request_permission_tracked env st req ctx = (st', (true, err, ref)) →
  err = None ∧
  (au_enabled st = false ∧ ref = None ∧ st' = st ∨
   au_enabled st = true ∧ ∃ d reason policy,
     evaluate_request (au_policy st) req = (d, reason, policy) ∧
     (d = Allowed ∧ ref = None ∨
      d = RequireApproval ∧
      (ref = None ∧ rq_force_approval req = None ∧
         (∃ hot rule, au_approval_rules st = Some hot ∧
            find_auto_allow_rule (hot_get (fst (hot_check load_rules hot (au_rules_file st))))
              (op_slug (rq_op_type req)) (rq_target req) (danger_str (rq_danger_level req)) = Some rule) ∨
       ref = None ∧ approval_auto_enabled st = true ∨
       ref = Some (rq_id req) ∧ ∃ mgr v, au_approval_manager st = Some mgr ∧
         mg_is_running mgr = true ∧ mg_ask mgr (manager_question st req reason) ctx = Ok v ∧
         av_approved v = true))).
Proof. apply tracked_allowed. Qed.

(** Observed: with the structured log on, one call adds exactly one line to what the
    query returns, with the request and the decision taken before any dialog,
    and neither the answer of the dialog nor a later decision on the stored
    request adds another: [approved] never appears for these calls. *)
Theorem tracked_logs_once env st req ctx dir :
  au_enabled st = true → jsonl_dir st = Some dir →
  au_log_file_path st ≠ Some (jsonl_path dir) →
  let st' := fst (request_permission_tracked env st req ctx) in
  (∃ e, get_audit_log st' filter_none = get_audit_log st filter_none ++ [e] ∧
     ev_request e = req ∧ ev_event_id e = en_event_id env ∧ ev_timestamp e = en_now env ∧
     ev_decision e ∈ [lit "allowed"; lit "denied"; lit "pending"] ∧
     (∀ r, snd (snd (request_permission_tracked env st req ctx)) = Some r → ev_decision e = lit "pending")) ∧
  (∀ id who reason f,
     get_audit_log (fst (approve_request st' id who)) f = get_audit_log st' f ∧
     get_audit_log (fst (deny_request st' id who reason)) f = get_audit_log st' f).
Proof.
  intros He Hd Hp. cbv zeta. split.
  - unfold request_permission_tracked. destruct (request_begin env st req ctx) as [st1 b] eqn:Eb.
    pose proof (request_begin_logged _ _ _ _ _ _ He Eb) as (reason & policy & Hl).
    pose proof (tracked_ref_none env st req ctx st1 b Eb) as Hnone.
    exists (mk_event env req (event_decision (fst (fst (evaluate_request (au_policy st) req))) b)
              reason policy).
    split_and!; [|reflexivity|reflexivity|reflexivity| |].
    + rewrite <- (logged_get _ _ _ _ Hl Hd Hp). apply get_audit_log_view.
      destruct b as [a|m q]; [done|]. apply finish_view.
    + simpl. destruct (evaluate_request _ req) as [[[] ?] ?], b as [[[[] ?] ?]|]; simpl; set_solver.
    + intros r Hr. simpl. destruct b as [a|m q].
      * simpl in Hr. rewrite Hnone in Hr. done.
      * rewrite Hnone. done.
  - intros id who reason f. generalize (fst (request_permission_tracked env st req ctx)). intros s.
    unfold approve_request, deny_request. split; apply get_audit_log_view;
      destruct (au_active_requests s !! id); by destruct s.
Qed.

(** Observed: [close] drops the stored requests and keeps the pending counter, so
    after a close the counter reports a request nobody can decide any more. *)
Theorem close_leaks_pending env st req ctx :
  au_enabled st = true → au_approval_manager st = None → au_approval_rules st = None →
  au_approval_auto st = None → au_pending_count st = 0%Z →
  fst (fst (evaluate_request (au_policy st) req)) = RequireApproval →
  let st' := close (fst (request_permission_tracked env st req ctx)) in
  pending_count st' = 0 ∧ au_pending_count st' = 1%Z ∧
  ∀ id who reason, snd (approve_request st' id who) = Err (not_found id) ∧
                   snd (deny_request st' id who reason) = Err (not_found id).
Proof.
  intros He Hm Hr Ha Hp Hd. unfold request_permission_tracked, request_begin. rewrite He. simpl.
  replace (au_policy (with_total st fetch_add)) with (au_policy st) by (by destruct st).
  destruct (evaluate_request _ req) as [[d reason] policy]. simpl in Hd. subst d.
  destruct st as [p a c e t al d ap pe m r rf l au j fs]. simpl in *. subst.
  unfold settle_pending, consult_rules, ask_or_store, approval_auto_enabled. simpl.
  destruct (rq_force_approval req); simpl; (split_and!; [done|done|]);
    intros id who rs; unfold approve_request, deny_request; simpl; by rewrite lookup_empty.
Qed.

(** Observed: unattended mode answers before the forced approval is looked at: a
    request that was forced to a human is allowed without one. *)
Theorem forced_request_auto_approved env st req ctx :
  au_enabled st = true → approval_auto_enabled st = true →
  is_Some (forced_reason req) →
  fst (fst (evaluate_request_inner (au_policy st) req)) ≠ Denied →
  snd (request_permission_tracked env st req ctx) = (true, None, None).
Proof.
  intros He Ha [reason Hf] Hd. unfold request_permission_tracked, request_begin. rewrite He. simpl.
  replace (au_policy (with_total st fetch_add)) with (au_policy st) by (by destruct st).
  unfold evaluate_request. rewrite Hf.
  destruct (evaluate_request_inner (au_policy st) req) as [[d r] p]. simpl in Hd.
  assert (Hforce : is_Some (rq_force_approval req)).
  { unfold forced_reason in Hf. destruct (rq_force_approval req); [by eexists|done]. }
  destruct Hforce as [raw Hraw].
  assert (Hs : settle_pending env (with_total st fetch_add) req ctx reason (lit "preexec_scan") =
    settle_pending env (with_total st fetch_add) req ctx reason (lit "preexec_scan")) by done.
  unfold settle_pending at 2 in Hs. unfold consult_rules in Hs. rewrite Hraw in Hs.
  replace (approval_auto_enabled (with_total st fetch_add)) with true in Hs
    by (by destruct st).
  by destruct d; [rewrite Hs| |rewrite Hs].
Qed.
End AuditorProperties.

(** ** Witnesses *)

(** An auditor that asks by default and logs to [/logs]. *)
Definition demo_auditor : SecurityAuditor :=
  auditor_new (mkAuditorConfig true 300 true (Some (lit "/logs")) (lit "ask"))
    (mkFile Missing None) ∅.

Definition yes_manager : ApprovalManager :=
  mkManager true (λ q _, Ok (mkVerdict (qu_request_id q =? lit "r1") None)).

Definition demo_env : CallEnv := mkEnv (lit "now") (lit "e1") (Ok tt) (Some 7%N).

Definition demo_call (st : SecurityAuditor) : SecurityAuditor * Answer :=
  @request_permission_tracked ascii_unicode fragment_engine unix demo_env st
    (demo_request SystemConfig (lit "x")) None.

Lemma tracked_allowed_sound_witness :
  snd (demo_call (with_manager demo_auditor (Some yes_manager))) = (true, None, Some (lit "r1")) ∧
  ∃ mgr, au_approval_manager (with_manager demo_auditor (Some yes_manager)) = Some mgr ∧
         mg_is_running mgr = true.
Proof.
  split; [vm_compute; reflexivity|].
  destruct (@tracked_allowed_sound ascii_unicode fragment_engine unix demo_env
    (with_manager demo_auditor (Some yes_manager)) (demo_request SystemConfig (lit "x")) None
    (fst (demo_call (with_manager demo_auditor (Some yes_manager)))) None (Some (lit "r1")))
    as [_ [(H & _)|(_ & d & r & p & _ & [[_ H]|[_ [(H & _)|[[H _]|(_ & mgr & v & Hm & Hr & _)]]]])]].
  - vm_compute. reflexivity.
  - discriminate H.
  - discriminate H.
  - discriminate H.
  - discriminate H.
  - exists mgr. split; [exact Hm|exact Hr].
Defined.

Lemma tracked_logs_once_witness :
  ∃ e, get_audit_log (fst (demo_call demo_auditor)) filter_none = [e] ∧ ev_decision e = lit "pending".
Proof.
  destruct (@tracked_logs_once ascii_unicode fragment_engine unix demo_env demo_auditor
    (demo_request SystemConfig (lit "x")) None (lit "/logs") eq_refl eq_refl
    ltac:(discriminate)) as [(e & He & _) _].
  exists e. split; [exact He|].
  assert (E : map ev_decision (get_audit_log (fst (demo_call demo_auditor)) filter_none)
              = [lit "pending"]) by (vm_compute; reflexivity).
  unfold demo_call in E. rewrite He in E. injection E as E. exact E.
Defined.

Lemma close_leaks_pending_witness :
  au_pending_count (close (fst (demo_call demo_auditor))) = 1%Z.
Proof.
  apply (@close_leaks_pending ascii_unicode fragment_engine unix demo_env demo_auditor
    (demo_request SystemConfig (lit "x")) None); try reflexivity.
Defined.

Lemma forced_request_auto_approved_witness :
  snd (@request_permission_tracked ascii_unicode fragment_engine unix demo_env
    (with_auto demo_auditor (Some (auto_new true))) forced_demo None) = (true, None, None).
Proof.
  apply (@forced_request_auto_approved ascii_unicode fragment_engine unix demo_env
    (with_auto demo_auditor (Some (auto_new true))) forced_demo None).
  - reflexivity.
  - reflexivity.
  - by eexists.
  - vm_compute. discriminate.
Defined.
