(* ===== verification/AuditorRuns.v ===== *)
(** * Concurrent calls of the auditor (nemesis-security/src/auditor.rs)

    A call of [request_permission_tracked] holds no lock: the counters are atomics of
    their own, touched one at a time, and the calls of other tasks, the answers of
    humans, decisions on stored requests and configuration come between any two
    accesses.  [approve_request] and [deny_request] hold the lock of the stored
    requests from first to last, which keeps out the other users of the map, but not
    the counters' other users.  Here the calls are cut at every access to a counter or
    to the map, and at the readings of the switch, the policy, the memory and the
    manager; what is between them touches none of these.

    The evaluation reads the fields of the policy under a lock each: a step evaluates
    under an arbitrary [mv_policy], what was read, for it may be a mixture of several
    policies.  Likewise the answer of a dialog is whatever [mv_verdict] says. *)
From S2P Require Import Prelude RustStr CommandArity Regex Matcher ApprovalRules SecTypes.
From S2P Require Import EditorAccess HotReload Evaluate Auditor.
Local Open Scope nb_scope.

(** ** A call *)

(** Where a call is. *)
Inductive CallAt :=
| AtEntry
| AtCount
| AtEvaluate
| AtMemory (reason policy : str)
| AtMemoryAllow (rule : ApprovalRule)
| AtSwitch (reason policy : str)
| AtAutoAllow
| AtAutoBump
| AtAutoPersist
| AtLog (decision reason policy : str) (next : CallAt)
| AtAllow
| AtDeny (reason : str)
| AtPend (reason : str)
| AtManager (reason : str)
| AtDialog (mgr : ApprovalManager) (q : ApprovalQuestion)
| AtUnpend (reason : str) (v : ApprovalVerdict)
| AtSettle (reason : str) (v : ApprovalVerdict)
| AtStore (reason : str)
| Answered (a : Answer).

(** What a step is told from outside. *)
Record Move := mkMove {
  mv_env : CallEnv;
  mv_policy : PolicyState;
  mv_verdict : result ApprovalVerdict str;
}.

Section Steps.
Context {UC : Unicode} {RE : RegexEngine} {PF : Platform}.

(** The step after the evaluation. *)
Definition at_decision (req : OperationRequest) (decision : SecurityDecision) (reason policy : str) : CallAt :=
  match decision with
  | RequireApproval => AtMemory reason policy
  | Allowed => AtLog (lit "allowed") reason policy AtAllow
  | Denied => AtLog (lit "denied") reason policy (AtDeny reason)
  end.

(** The question to the manager, if one runs. *)
Definition at_manager (st : SecurityAuditor) (req : OperationRequest) (reason : str) : CallAt :=
  match au_approval_manager st with
  | Some mgr =>
      if mg_is_running mgr then
        AtDialog mgr (mkQuestion (rq_id req) (op_slug (rq_op_type req)) (rq_target req)
                        (danger_str (rq_danger_level req)) reason
                        (cf_approval_timeout_secs (au_config st)))
      else AtStore reason
  | None => AtStore reason
  end.

(** The next step of a call; [None] when it waits for the lock of the stored
    requests. *)
Definition call_step (mv : Move) (lock_free : bool) (st : SecurityAuditor) (req : OperationRequest)
    (ctx : option ApprovalContext) (c : CallAt) : option (SecurityAuditor * CallAt) :=
  match c with
  | AtEntry => Some (st, if au_enabled st then AtCount else Answered (true, None, None))
  | AtCount => Some (with_total st fetch_add, AtEvaluate)
  | AtEvaluate =>
      let '(decision, reason, policy) := evaluate_request (mv_policy mv) req in
      Some (st, at_decision req decision reason policy)
  | AtMemory reason policy =>
      let '(st, found) := consult_rules st req in
      Some (st, match found with Some rule => AtMemoryAllow rule | None => AtSwitch reason policy end)
  | AtMemoryAllow rule =>
      Some (with_allowed st fetch_add,
            AtLog (lit "allowed")
              (lit "auto allowed by approval rule (" ++ ar_op rule ++ [c_space] ++ ar_pattern rule ++ lit ")")
              (lit "auto_by_rule:" ++ ar_pattern rule) (Answered (true, None, None)))
  | AtSwitch reason policy =>
      Some (st, if approval_auto_enabled st then AtAutoAllow else AtLog (lit "pending") reason policy (AtPend reason))
  | AtAutoAllow => Some (with_allowed st fetch_add, AtAutoBump)
  | AtAutoBump => Some (with_auto st (auto_bump <$> au_approval_auto st), AtAutoPersist)
  | AtAutoPersist =>
      let st := match ctx, au_approval_rules st with
                | Some c, Some _ =>
                    if cx_channel c =? lit "cluster" then persist_cluster_rule (mv_env mv) st req else st
                | _, _ => st
                end in
      Some (st, AtLog (lit "allowed")
                  (lit "auto approved by security.approvals.auto_approve (unattended mode)")
                  (lit "auto_by_config") (Answered (true, None, None)))
  | AtLog decision reason policy next =>
      Some (log_audit_event st (mk_event (mv_env mv) req decision reason policy), next)
  | AtAllow => Some (with_allowed st fetch_add, Answered (true, None, None))
  | AtDeny reason =>
      Some (with_denied st fetch_add,
            Answered (false, Some (on_target (lit "Security policy denied ") req reason), None))
  | AtPend reason => Some (with_pending st fetch_add, AtManager reason)
  | AtManager reason => Some (st, at_manager st req reason)
  | AtDialog _ q =>
      Some (st, match mv_verdict mv with
                | Ok v => AtUnpend (qu_reason q) v
                | Err _ => AtStore (qu_reason q)
                end)
  | AtUnpend reason v => Some (with_pending st fetch_sub, AtSettle reason v)
  | AtSettle reason v =>
      Some (if av_approved v
            then (with_approved st fetch_add, Answered (true, None, Some (rq_id req)))
            else (with_denied st fetch_add,
                  Answered (false, Some (with_note (on_target (lit "User rejected ") req reason) (av_note v)), None)))
  | AtStore reason =>
      if lock_free then let '(st, a) := store_pending st req reason in Some (st, Answered a) else None
  | Answered a => Some (st, c)
  end.
End Steps.

(** ** A decision on a stored request *)

(** Where it is; between [Removed] and [Decided] it holds the lock of the stored
    requests. *)
Inductive DecideAt :=
| ToFind
| Removed
| ToTally
| Decided (r : result unit str).

(** [approve_request], or [deny_request] when [approve] is [false]. *)
Definition decide_step (lock_free : bool) (st : SecurityAuditor) (id : str) (approve : bool) (d : DecideAt)
    : option (SecurityAuditor * DecideAt) :=
  match d with
  | ToFind =>
      if lock_free then
        Some (match au_active_requests st !! id with
              | Some _ => (with_active st (delete id), Removed)
              | None => (st, Decided (Err (not_found id)))
              end)
      else None
  | Removed => Some (with_pending st fetch_sub, ToTally)
  | ToTally => Some (if approve then with_approved st fetch_add else with_denied st fetch_add, Decided (Ok tt))
  | Decided _ => Some (st, d)
  end.

(** ** Runs *)

Inductive Thread :=
| Call (req : OperationRequest) (ctx : option ApprovalContext) (c : CallAt)
| Deciding (id : str) (approve : bool) (d : DecideAt).

Record Office := mkOffice {
  of_auditor : SecurityAuditor;
  of_threads : list Thread;
}.

(** The thread holds the lock of the stored requests. *)
Definition holds (t : Thread) : bool :=
  match t with Deciding _ _ (Removed | ToTally) => true | _ => false end.

(** Configuration calls, and edits of the rules file by others. *)
Inductive Change :=
| SetProtected (l : list str)
| SetExempt (p : str)
| SetUnknown (p : str)
| SetRules (op : OperationType) (l : list SecurityRule)
| SetDefault (a : str)
| SetEditor (e : EditorAccessState)
| Enable
| Disable
| SetManager (m : ApprovalManager)
| SetApprovalRules
| EditFile (f : FileState RulesFile)
| SetLogFile (p : str)
| SetAuto (a : ApprovalAutoApproveState)
| SetJsonl (b : bool) (d : str).

Section Runs.
Context {UC : Unicode} {RE : RegexEngine} {PF : Platform}.

Definition change (st : SecurityAuditor) (c : Change) : SecurityAuditor :=
  match c with
  | SetProtected l => set_protected_paths st l
  | SetExempt p => set_self_destruct_exempt_path st p
  | SetUnknown p => set_exec_unknown_policy st p
  | SetRules op l => set_rules st op l
  | SetDefault a => set_default_action st a
  | SetEditor e => set_editor_access st e
  | Enable => enable st
  | Disable => disable st
  | SetManager m => with_manager st (Some m)
  | SetApprovalRules => set_approval_rules st
  | EditFile f => with_rules_file st f
  | SetLogFile p => with_log_path st (Some p)
  | SetAuto a => with_auto st (Some a)
  | SetJsonl b d => with_jsonl st (Some (b, d))
  end.

Inductive OfficeEvent :=
| Asks (req : OperationRequest) (ctx : option ApprovalContext)
| Decides (id : str) (approve : bool)
| Moves (i : nat) (mv : Move)
| Closes
| Changes (c : Change).

Definition thread_step (mv : Move) (lock_free : bool) (st : SecurityAuditor) (t : Thread)
    : option (SecurityAuditor * Thread) :=
  match t with
  | Call req ctx c => '(st, c) ← call_step mv lock_free st req ctx c; Some (st, Call req ctx c)
  | Deciding id approve d => '(st, d) ← decide_step lock_free st id approve d; Some (st, Deciding id approve d)
  end.

Definition lock_free (ts : list Thread) : bool := forallb (λ t, negb (holds t)) ts.

Definition office_step (o : Office) (e : OfficeEvent) : Office :=
  let '(mkOffice st ts) := o in
  match e with
  | Asks req ctx => mkOffice st (ts ++ [Call req ctx AtEntry])
  | Decides id approve => mkOffice st (ts ++ [Deciding id approve ToFind])
  | Moves i mv =>
      match ts !! i with
      | Some t =>
          match thread_step mv (lock_free ts) st t with
          | Some (st, t) => mkOffice st (<[i := t]> ts)
          | None => o
          end
      | None => o
      end
  | Closes => if lock_free ts then mkOffice (close st) ts else o
  | Changes c => mkOffice (change st c) ts
  end.

Fixpoint office_run (o : Office) (es : list OfficeEvent) : Office :=
  match es with
  | [] => o
  | e :: es => office_run (office_step o e) es
  end.

Definition opened (config : AuditorConfig) (file : FileState RulesFile) (files : LogFiles) : Office :=
  mkOffice (auditor_new config file files) [].
End Runs.

(** ** Accounts *)

(** What a call has counted in the total and in none of the others, or taken out of the
    pending ones and not yet put among the others. *)
Fixpoint call_owes (c : CallAt) : Z :=
  match c with
  | AtEvaluate | AtMemory _ _ | AtMemoryAllow _ | AtSwitch _ _ | AtAutoAllow | AtAllow | AtDeny _ | AtPend _
  | AtSettle _ _ => 1
  | AtLog _ _ _ next => call_owes next
  | _ => 0
  end.

Definition owes (t : Thread) : Z :=
  match t with
  | Call _ _ c => call_owes c
  | Deciding _ _ ToTally => 1
  | Deciding _ _ _ => 0
  end.

(** Counted as pending, and not among the stored requests. *)
Fixpoint call_pends (c : CallAt) : nat :=
  match c with
  | AtManager _ | AtDialog _ _ | AtUnpend _ _ | AtStore _ => 1
  | AtLog _ _ _ next => call_pends next
  | _ => 0
  end.

Definition pends (t : Thread) : nat :=
  match t with
  | Call _ _ c => call_pends c
  | Deciding _ _ Removed => 1
  | Deciding _ _ _ => 0
  end.

Definition owed (ts : list Thread) : Z := foldr (λ t n, (owes t + n)%Z) 0%Z ts.
Definition pending_threads (ts : list Thread) : nat := foldr (λ t n, pends t + n) 0 ts.

(** The ids of the calls without an answer yet. *)
Definition open_id (t : Thread) : option str :=
  match t with
  | Call _ _ (Answered _) | Deciding _ _ _ => None
  | Call req _ _ => Some (rq_id req)
  end.

(** Requests come with ids that are not in use, and the auditor is not closed. *)
Definition orderly_event (o : Office) (e : OfficeEvent) : Prop :=
  match e with
  | Asks req _ => au_active_requests (of_auditor o) !! rq_id req = None ∧ rq_id req ∉ omap open_id (of_threads o)
  | Closes => False
  | _ => True
  end.

Fixpoint orderly `{!Unicode, !RegexEngine, !Platform} (o : Office) (es : list OfficeEvent) : Prop :=
  match es with
  | [] => True
  | e :: es => orderly_event o e ∧ orderly (office_step o e) es
  end.

(** ** Wrapping *)

(** [a] and [b] are the same number to 64 bits. *)
Definition same64 (a b : Z) : Prop := ∃ k, (a = b + k * 2 ^ 64)%Z.

Lemma wrap64_same z : same64 (wrap64 z) z.
Proof.
  exists (- ((z + 2 ^ 63) / 2 ^ 64))%Z. unfold wrap64.
  pose proof (Z.div_mod (z + 2 ^ 63) (2 ^ 64)). lia.
Qed.

Lemma same64_wrap a b : same64 a b → wrap64 a = wrap64 b.
Proof.
  intros [k ->]. unfold wrap64. replace (b + k * 2 ^ 64 + 2 ^ 63)%Z with (b + 2 ^ 63 + k * 2 ^ 64)%Z by lia.
  by rewrite Z.mod_add by done.
Qed.

Lemma wrap64_idemp z : wrap64 (wrap64 z) = wrap64 z.
Proof. apply same64_wrap, wrap64_same. Qed.

#[export] Instance same64_equiv : Equivalence same64.
Proof.
  split.
  - intros a. exists 0%Z. lia.
  - intros a b [k ->]. exists (- k)%Z. lia.
  - intros a b c [k ->] [l ->]. exists (k + l)%Z. lia.
Qed.

#[export] Instance same64_add : Proper (same64 ==> same64 ==> same64) Z.add.
Proof. intros a b [k ->] c d [l ->]. exists (k + l)%Z. lia. Qed.

#[export] Instance same64_sub : Proper (same64 ==> same64 ==> same64) Z.sub.
Proof. intros a b [k ->] c d [l ->]. exists (k - l)%Z. lia. Qed.

Lemma fetch_add_same c : same64 (fetch_add c) (c + 1).
Proof. apply wrap64_same. Qed.
Lemma fetch_sub_same c : same64 (fetch_sub c) (c - 1).
Proof. apply wrap64_same. Qed.

(** ** What a step adds *)

(** The events that a counter other than the total has. *)
Definition tally (st : SecurityAuditor) : Z :=
  au_allowed_count st + au_denied_count st + au_approved_count st + au_pending_count st.

(** The invariant of a state whose threads owe [n]. *)
Definition books_ok (st : SecurityAuditor) (n : Z) : Prop :=
  wrap64 (au_total_events st) = au_total_events st ∧ same64 (au_total_events st) (tally st + n).

Lemma books_ok_same st st' n : counters st' = counters st → books_ok st n → books_ok st' n.
Proof. unfold counters, books_ok, tally. intros [= -> -> -> -> ->]. done. Qed.

Ltac count_one st :=
  destruct st; unfold books_ok, tally; cbn; intros [Hw Hs]; split; [first [exact Hw|apply wrap64_idemp]|];
  rewrite ?fetch_add_same, ?fetch_sub_same, Hs;
  match goal with |- same64 ?a ?b => replace b with a by lia end; reflexivity.

Lemma books_total st n : books_ok st n → books_ok (with_total st fetch_add) (n + 1).
Proof. count_one st. Qed.
Lemma books_allowed st n : books_ok st (n + 1) → books_ok (with_allowed st fetch_add) n.
Proof. count_one st. Qed.
Lemma books_denied st n : books_ok st (n + 1) → books_ok (with_denied st fetch_add) n.
Proof. count_one st. Qed.
Lemma books_approved st n : books_ok st (n + 1) → books_ok (with_approved st fetch_add) n.
Proof. count_one st. Qed.
Lemma books_pending st n : books_ok st (n + 1) → books_ok (with_pending st fetch_add) n.
Proof. count_one st. Qed.
Lemma books_unpend st n : books_ok st n → books_ok (with_pending st fetch_sub) (n + 1).
Proof. count_one st. Qed.

Section Invariants.
Context {UC : Unicode} {RE : RegexEngine} {PF : Platform}.

Lemma consult_same st req :
  counters (fst (consult_rules st req)) = counters st ∧
  au_active_requests (fst (consult_rules st req)) = au_active_requests st.
Proof.
  unfold consult_rules. destruct (rq_force_approval req), (au_approval_rules st); try done.
  by destruct st.
Qed.

Lemma persist_same env st req :
  counters (persist_cluster_rule env st req) = counters st ∧
  au_active_requests (persist_cluster_rule env st req) = au_active_requests st.
Proof. unfold persist_cluster_rule. destruct st. by repeat case_match. Qed.

Lemma change_same st c :
  counters (change st c) = counters st ∧ au_active_requests (change st c) = au_active_requests st.
Proof. destruct c; by destruct st. Qed.

Lemma decided_owes req d reason policy : call_owes (at_decision req d reason policy) = 1%Z.
Proof. by destruct d. Qed.

Lemma manager_owes st req reason : call_owes (at_manager st req reason) = 0%Z.
Proof. unfold at_manager. destruct (au_approval_manager st) as [mgr|]; [by destruct (mg_is_running mgr)|done]. Qed.

Lemma call_step_books mv lf st req ctx c st' c' n :
  call_step mv lf st req ctx c = Some (st', c') → books_ok st (call_owes c + n) → books_ok st' (call_owes c' + n).
Proof.
  destruct c as [| | |reason policy|rule|reason policy| | | |d reason policy next| |reason|reason|reason|mgr q
                |reason v|reason v|reason|a]; cbn [call_step]; intros H Hok.
  - simplify_eq. by destruct (au_enabled st').
  - simplify_eq. rewrite Z.add_comm. by apply books_total.
  - destruct (evaluate_request _ req) as [[d reason] policy]. simplify_eq. by rewrite decided_owes.
  - pose proof (consult_same st req) as [Hc _]. destruct (consult_rules st req) as [st1 found]. injection H as <- <-.
    destruct found; (eapply books_ok_same; [exact Hc|exact Hok]).
  - simplify_eq. apply books_allowed. by rewrite Z.add_0_l, Z.add_comm.
  - simplify_eq. by destruct (approval_auto_enabled st').
  - simplify_eq. apply books_allowed. by rewrite Z.add_0_l, Z.add_comm.
  - simplify_eq. eapply books_ok_same; [|exact Hok]. by destruct st.
  - simplify_eq. eapply books_ok_same; [|exact Hok]. destruct ctx as [cx|], (au_approval_rules st); try done.
    destruct (_ =? _); [apply persist_same|done].
  - simplify_eq. eapply books_ok_same; [apply log_counters|exact Hok].
  - simplify_eq. apply books_allowed. by rewrite Z.add_0_l, Z.add_comm.
  - simplify_eq. apply books_denied. by rewrite Z.add_0_l, Z.add_comm.
  - simplify_eq. apply books_pending. by rewrite Z.add_0_l, Z.add_comm.
  - simplify_eq. by rewrite manager_owes.
  - simplify_eq. by destruct (mv_verdict mv).
  - simplify_eq. cbn. rewrite Z.add_comm. by apply books_unpend.
  - destruct (av_approved v); simplify_eq; [apply books_approved|apply books_denied]; by rewrite Z.add_0_l, Z.add_comm.
  - destruct lf; [|done]. cbn in H. simplify_eq. eapply books_ok_same; [|exact Hok]. by destruct st.
  - by simplify_eq.
Qed.

Lemma decide_step_books lf st id approve d st' d' n :
  decide_step lf st id approve d = Some (st', d') →
  books_ok st (owes (Deciding id approve d) + n) → books_ok st' (owes (Deciding id approve d') + n).
Proof.
  destruct d; cbn [decide_step owes]; intros H Hok.
  - destruct lf; [|done]. destruct (_ !! id); simplify_eq; [|done]. eapply books_ok_same; [|exact Hok]. by destruct st.
  - simplify_eq. rewrite Z.add_comm. by apply books_unpend.
  - destruct approve; simplify_eq; [apply books_approved|apply books_denied]; by rewrite Z.add_0_l, Z.add_comm.
  - by simplify_eq.
Qed.

Lemma thread_step_books mv lf st t st' t' n :
  thread_step mv lf st t = Some (st', t') → books_ok st (owes t + n) → books_ok st' (owes t' + n).
Proof.
  destruct t as [req ctx c|id approve d]; cbn [thread_step]; intros H.
  - destruct (call_step _ _ _ _ _ _) as [[st1 c1]|] eqn:E; [|done]. cbn in H. simplify_eq. by eapply call_step_books.
  - destruct (decide_step _ _ _ _ _) as [[st1 d1]|] eqn:E; [|done]. cbn in H. simplify_eq. by eapply decide_step_books.
Qed.

Lemma owed_app a b : owed (a ++ b) = (owed a + owed b)%Z.
Proof. induction a as [|t a IH]; [done|]. unfold owed in *. cbn. lia. Qed.

(** The thread at [i] and the others. *)
Lemma insert_split (ts : list Thread) i t t' : ts !! i = Some t →
  ∃ a b, ts = a ++ t :: b ∧ <[i := t']> ts = a ++ t' :: b.
Proof.
  intros Hi. exists (take i ts), (drop (S i) ts). split; [by rewrite take_drop_middle|].
  apply insert_take_drop. by eapply lookup_lt_Some.
Qed.

Lemma office_step_books o e :
  books_ok (of_auditor o) (owed (of_threads o)) →
  books_ok (of_auditor (office_step o e)) (owed (of_threads (office_step o e))).
Proof.
  destruct o as [st ts]. destruct e as [req ctx|id approve|i mv| |c]; cbn; intros Hok.
  - rewrite owed_app. cbn. by rewrite !Z.add_0_r.
  - rewrite owed_app. cbn. by rewrite !Z.add_0_r.
  - destruct (ts !! i) as [t|] eqn:Hi; [|done]. destruct (thread_step _ _ st t) as [[st' t']|] eqn:Ht; [|done]. cbn.
    destruct (insert_split ts i t t' Hi) as (a & b & -> & ->). rewrite owed_app in Hok |- *. cbn in Hok |- *.
    fold (owed b) in Hok |- *. rewrite Z.add_comm, <- Z.add_assoc in Hok |- *. by eapply thread_step_books.
  - destruct (lock_free ts); [|done]. cbn. eapply books_ok_same; [|exact Hok]. by destruct st.
  - eapply books_ok_same; [apply change_same|exact Hok].
Qed.

Lemma office_run_books o es :
  books_ok (of_auditor o) (owed (of_threads o)) →
  books_ok (of_auditor (office_run o es)) (owed (of_threads (office_run o es))).
Proof. revert o. induction es as [|e es IH]; intros o Hok; [done|]. apply IH. by apply office_step_books. Qed.

(** What a step does to the stored requests and to those that are pending. *)
Inductive moved (st st' : SecurityAuditor) (t t' : Thread) : Prop :=
| mo_stays n : au_active_requests st' = au_active_requests st →
    au_pending_count st' = au_pending_count st → pends t = n → pends t' = n →
    (open_id t' = open_id t ∨ open_id t' = None) → moved st st' t t'
| mo_pends : au_active_requests st' = au_active_requests st →
    au_pending_count st' = fetch_add (au_pending_count st) → pends t = 0 → pends t' = 1 →
    open_id t' = open_id t → moved st st' t t'
| mo_settles : au_active_requests st' = au_active_requests st →
    au_pending_count st' = fetch_sub (au_pending_count st) → pends t = 1 → pends t' = 0 →
    open_id t' = open_id t → moved st st' t t'
| mo_stores req : au_active_requests st' = <[rq_id req := req]> (au_active_requests st) →
    au_pending_count st' = au_pending_count st → pends t = 1 → pends t' = 0 →
    open_id t = Some (rq_id req) → open_id t' = None → moved st st' t t'
| mo_removes id r : au_active_requests st !! id = Some r → au_active_requests st' = delete id (au_active_requests st) →
    au_pending_count st' = au_pending_count st → pends t = 0 → pends t' = 1 →
    open_id t' = open_id t → moved st st' t t'.

Lemma moved_same st st' req ctx c c' : counters st' = counters st → au_active_requests st' = au_active_requests st →
  call_pends c' = call_pends c → (∀ a, c ≠ Answered a) → moved st st' (Call req ctx c) (Call req ctx c').
Proof.
  intros [= _ _ _ _ Hp] Ha Hc Hn. eapply (mo_stays _ _ _ _ (call_pends c)); try done. cbn.
  destruct c; try (destruct c'; auto; fail). by destruct (Hn a).
Qed.

Lemma call_step_moved mv lf st req ctx c st' c' :
  call_step mv lf st req ctx c = Some (st', c') → moved st st' (Call req ctx c) (Call req ctx c').
Proof.
  destruct c as [| | |reason policy|rule|reason policy| | | |d reason policy next| |reason|reason|reason|mgr q
                |reason v|reason v|reason|a]; cbn [call_step]; intros H.
  - simplify_eq. apply moved_same; try done. by destruct (au_enabled st').
  - injection H as <- <-. eapply mo_stays; try done; [by destruct st..|by left].
  - destruct (evaluate_request _ req) as [[d reason] policy]. simplify_eq. apply moved_same; try done. by destruct d.
  - pose proof (consult_same st req) as [Hc Ha]. destruct (consult_rules st req) as [st1 found]. injection H as <- <-.
    apply moved_same; try done. by destruct found.
  - injection H as <- <-. eapply mo_stays; try done; [by destruct st..|by left].
  - simplify_eq. apply moved_same; try done. by destruct (approval_auto_enabled st').
  - injection H as <- <-. eapply mo_stays; try done; [by destruct st..|by left].
  - injection H as <- <-. by apply moved_same; destruct st.
  - injection H as <- <-. apply moved_same; [| |done|done];
      destruct ctx as [cx|], (au_approval_rules st); try done; (destruct (_ =? _); [apply persist_same|done]).
  - injection H as <- <-. apply moved_same; [apply log_counters|apply log_active|done|done].
  - injection H as <- <-. eapply mo_stays; try done; [by destruct st..|by right].
  - injection H as <- <-. eapply mo_stays; try done; [by destruct st..|by right].
  - injection H as <- <-. by apply mo_pends; destruct st.
  - injection H as <- <-. unfold at_manager. destruct (au_approval_manager st) as [mgr|]; [destruct (mg_is_running mgr)|]; by apply moved_same.
  - injection H as <- <-. by destruct (mv_verdict mv); apply moved_same.
  - injection H as <- <-. by apply mo_settles; destruct st.
  - destruct (av_approved v); injection H as <- <-; (eapply mo_stays; try done; [by destruct st..|by right]).
  - destruct lf; [|done]. cbn in H. injection H as <- <-. by eapply (mo_stores _ _ _ _ req); destruct st.
  - injection H as <- <-. by eapply mo_stays; auto.
Qed.

Lemma decide_step_moved lf st id approve d st' d' :
  decide_step lf st id approve d = Some (st', d') → moved st st' (Deciding id approve d) (Deciding id approve d').
Proof.
  destruct d; cbn [decide_step]; intros H.
  - destruct lf; [|done]. destruct (_ !! id) as [r|] eqn:E; injection H as <- <-; [|by eapply mo_stays; auto].
    eapply (mo_removes _ _ _ _ id r); try done; by destruct st.
  - injection H as <- <-. by apply mo_settles; destruct st.
  - destruct approve; injection H as <- <-; (eapply mo_stays; try done; [by destruct st..|by left]).
  - injection H as <- <-. by eapply mo_stays; auto.
Qed.

Lemma thread_step_moved mv lf st t st' t' : thread_step mv lf st t = Some (st', t') → moved st st' t t'.
Proof.
  destruct t as [req ctx c|id approve d]; cbn [thread_step]; intros H.
  - destruct (call_step _ _ _ _ _ _) as [[st1 c1]|] eqn:E; [|done]. injection H as <- <-. by eapply call_step_moved.
  - destruct (decide_step _ _ _ _ _) as [[st1 d1]|] eqn:E; [|done]. injection H as <- <-. by eapply decide_step_moved.
Qed.

(** The pending counter, and the ids of the stored requests and the open calls. *)
Definition pending_ok (st : SecurityAuditor) (ts : list Thread) : Prop :=
  au_pending_count st = wrap64 (Z.of_nat (size (au_active_requests st) + pending_threads ts)) ∧
  NoDup (omap open_id ts) ∧
  ∀ id, id ∈ omap open_id ts → au_active_requests st !! id = None.

Lemma pending_app a b : pending_threads (a ++ b) = pending_threads a + pending_threads b.
Proof. induction a as [|t a IH]; [done|]. unfold pending_threads in *. cbn. lia. Qed.

Lemma fetch_add_nat n : fetch_add (wrap64 (Z.of_nat n)) = wrap64 (Z.of_nat (S n)).
Proof. apply same64_wrap. rewrite wrap64_same. by replace (Z.of_nat n + 1)%Z with (Z.of_nat (S n)) by lia. Qed.

Lemma fetch_sub_nat n : fetch_sub (wrap64 (Z.of_nat (S n))) = wrap64 (Z.of_nat n).
Proof. apply same64_wrap. rewrite wrap64_same. by replace (Z.of_nat (S n) - 1)%Z with (Z.of_nat n) by lia. Qed.

(** The ids that are left when a thread moves. *)
Lemma open_ids_shrink a b t t' : (open_id t' = open_id t ∨ open_id t' = None) →
  omap open_id (a ++ t' :: b) ⊆+ omap open_id (a ++ t :: b).
Proof.
  intros Ht. rewrite !omap_app. apply submseteq_app; [done|]. cbn.
  destruct Ht as [-> | ->]; [done|]. destruct (open_id t); [by apply submseteq_cons|done].
Qed.

Lemma moved_pending st st' a t t' b : moved st st' t t' →
  pending_ok st (a ++ t :: b) → pending_ok st' (a ++ t' :: b).
Proof.
  intros Hm (Hp & Hn & Hd).
  assert (∀ u, pending_threads (a ++ u :: b) = pends u + pending_threads (a ++ b)) as Hu.
  { intros u. rewrite !pending_app. unfold pending_threads. cbn. lia. }
  assert (open_id t' = open_id t ∨ open_id t' = None) as Ho by (destruct Hm; auto).
  pose proof (open_ids_shrink a b t t' Ho) as Hs. unfold pending_ok. rewrite Hu in Hp |- *.
  assert (NoDup (omap open_id (a ++ t' :: b))) as Hn'.
  { destruct (submseteq_Permutation _ _ Hs) as [k Hk]. rewrite Hk in Hn. by apply NoDup_app in Hn as [? _]. }
  assert (∀ id, id ∈ omap open_id (a ++ t' :: b) → au_active_requests st !! id = None) as Hd'.
  { intros id Hid. apply Hd. by eapply elem_of_submseteq. }
  destruct Hm as [n Ha Hc H1 H2 _|Ha Hc H1 H2 _|Ha Hc H1 H2 _|req Ha Hc H1 H2 H3 H4|id r Hr Ha Hc H1 H2 _];
    rewrite ?Ha, Hc, Hp, H1, H2; split_and!; try done.
  - rewrite fetch_add_nat. do 2 f_equal. lia.
  - rewrite Nat.add_succ_r, fetch_sub_nat. done.
  - rewrite map_size_insert_None; [do 2 f_equal; lia|]. apply Hd. rewrite omap_app. cbn. rewrite H3. set_solver.
  - intros id Hid. rewrite lookup_insert_ne; [by apply Hd'|]. intros <-.
    rewrite omap_app in Hn, Hid. cbn in Hn, Hid. rewrite H3 in Hn. rewrite H4 in Hid.
    rewrite <- Permutation_middle in Hn. apply NoDup_cons in Hn as [Hn _]. set_solver.
  - rewrite map_size_delete_Some by by eexists. assert (size (au_active_requests st) ≠ 0); [|do 2 f_equal; lia].
    intros E%map_size_empty_inv. by rewrite E, lookup_empty in Hr.
  - intros id' Hid. apply lookup_delete_None. right. by apply Hd'.
Qed.

Lemma office_step_pending o e : orderly_event o e → pending_ok (of_auditor o) (of_threads o) →
  pending_ok (of_auditor (office_step o e)) (of_threads (office_step o e)).
Proof.
  destruct o as [st ts]. destruct e as [req ctx|id approve|i mv| |c]; cbn; intros He Hok.
  - destruct He as [H1 H2], Hok as (Hp & Hn & Hd). unfold pending_ok. rewrite pending_app, omap_app. cbn. split_and!.
    + rewrite Hp. do 2 f_equal. lia.
    + apply NoDup_app. split_and!; [done| |apply NoDup_singleton]. set_solver.
    + set_solver.
  - destruct Hok as (Hp & Hn & Hd). unfold pending_ok. rewrite pending_app, omap_app. cbn. rewrite app_nil_r.
    split_and!; [|done..]. rewrite Hp. do 2 f_equal. lia.
  - destruct (ts !! i) as [t|] eqn:Hi; [|done]. destruct (thread_step _ _ st t) as [[st' t']|] eqn:Ht; [|done]. cbn.
    destruct (insert_split ts i t t' Hi) as (a & b & -> & ->). apply thread_step_moved in Ht. by eapply moved_pending.
  - done.
  - destruct (change_same st c) as [[= _ _ _ _ Hp] Ha]. unfold pending_ok. by rewrite Hp, Ha.
Qed.

Lemma office_run_pending o es : orderly o es → pending_ok (of_auditor o) (of_threads o) →
  pending_ok (of_auditor (office_run o es)) (of_threads (office_run o es)).
Proof.
  revert o. induction es as [|e es IH]; intros o Ho Hok; [done|]. destruct Ho as [He Hes].
  apply IH; [done|]. by apply office_step_pending.
Qed.
End Invariants.

(** ** Properties *)

Section AuditorRunProperties.
Context {UC : Unicode} {RE : RegexEngine} {PF : Platform}.

(** A call that nobody interrupts, at most [fuel] steps of it. *)
Fixpoint alone (fuel : nat) (env : CallEnv) (st : SecurityAuditor) (req : OperationRequest)
    (ctx : option ApprovalContext) (c : CallAt) : SecurityAuditor * CallAt :=
  match fuel with
  | 0 => (st, c)
  | S fuel =>
      let verdict := match c with AtDialog mgr q => mg_ask mgr q ctx | _ => Err [] end in
      match call_step (mkMove env (au_policy st) verdict) true st req ctx c with
      | Some (st, c) => alone fuel env st req ctx c
      | None => (st, c)
      end
  end.

Lemma alone_S fuel env st req ctx c : alone (S fuel) env st req ctx c =
  match call_step (mkMove env (au_policy st) (match c with AtDialog mgr q => mg_ask mgr q ctx | _ => Err [] end))
          true st req ctx c with
  | Some (st, c) => alone fuel env st req ctx c
  | None => (st, c)
  end.
Proof. done. Qed.

Lemma alone_answered fuel env st req ctx a : alone fuel env st req ctx (Answered a) = (st, Answered a).
Proof. induction fuel; [done|]. by rewrite alone_S. Qed.

(** C32: the counters account for every event: at every moment of every
    interleaving of the steps of calls, decisions on stored requests, closing
    and reconfiguration, the total is, to 64 bits, the sum of allowed, denied,
    approved and pending and of one for every thread that is between two counters: a
    call that is in the total and not settled, or a request that is no longer pending
    and not yet approved or denied.  So when no thread is between two counters, the
    total is the sum of the four. *)
Theorem counters_reconcile config file files es :
  let o := office_run (opened config file files) es in
  let st := of_auditor o in
  let sum := (au_allowed_count st + au_denied_count st + au_approved_count st + au_pending_count st)%Z in
  au_total_events st = wrap64 (sum + owed (of_threads o)) ∧
  (Forall (λ t, owes t = 0%Z) (of_threads o) → au_total_events st = wrap64 sum).
Proof.
  intros o st sum. pose proof (office_run_books (opened config file files) es) as H. cbn in H.
  destruct H as [Hw Hs]; [split; [done|reflexivity]|]. fold o st in Hw, Hs.
  assert (au_total_events st = wrap64 (sum + owed (of_threads o))) as E by (rewrite <- Hw; by apply same64_wrap).
  split; [exact E|]. intros Hz. rewrite E. replace (owed (of_threads o)) with 0%Z; [by rewrite Z.add_0_r|].
  clear -Hz. induction Hz as [|t ts Ht _ IH]; [done|]. cbn. rewrite Ht. exact IH.
Qed.

(** Also: as long as ids are not reused and the auditor is not closed, the pending
    counter is, at every moment, the number of stored requests plus the number of
    requests that are pending in a call, or are just being taken out of the stored ones
    by a decision; and no call is open on an id that is stored. *)
Theorem pending_reconcile config file files es :
  let o := office_run (opened config file files) es in
  orderly (opened config file files) es →
  au_pending_count (of_auditor o)
    = wrap64 (Z.of_nat (pending_count (of_auditor o) + pending_threads (of_threads o))) ∧
  ∀ id, id ∈ omap open_id (of_threads o) → au_active_requests (of_auditor o) !! id = None.
Proof.
  intros o Ho. destruct (office_run_pending (opened config file files) es) as (H1 & _ & H3); [done| |by split].
  split_and!; [done|constructor|]. by intros id Hid%elem_of_nil.
Qed.

Ltac step := rewrite alone_S; cbn [call_step mv_policy mv_env mv_verdict].
Ltac answer := repeat step; by rewrite ?alone_answered.

(** Also: a call that nobody interrupts answers after at most eleven steps, and is
    [request_permission_tracked]. *)
Theorem uninterrupted_call env st req ctx :
  alone 11 env st req ctx AtEntry
  = let '(st', a) := request_permission_tracked env st req ctx in (st', Answered a).
Proof.
  unfold request_permission_tracked, request_begin. step.
  destruct (au_enabled st); cbn [negb]; [|answer]. step.
  set (st1 := with_total st fetch_add). step. replace (au_policy st1) with (au_policy st) by by destruct st.
  destruct (evaluate_request _ req) as [[[] reason] policy]; cbn [at_decision]; [answer..|].
  unfold settle_pending. step. destruct (consult_rules st1 req) as [st2 [rule|]]; [answer|].
  step. destruct (approval_auto_enabled st2); [answer|]. unfold ask_or_store. step. step. step.
  set (st3 := with_pending _ _). unfold at_manager.
  destruct (au_approval_manager st3) as [mgr|]; [destruct (mg_is_running mgr)|]; [|answer..].
  step. unfold request_finish. cbn [qu_reason]. destruct (mg_ask mgr _ ctx) as [v|e]; [|answer].
  step. step. destruct (av_approved v); answer.
Qed.

(** Also: so are the three steps of a decision [approve_request] and [deny_request]. *)
Theorem uninterrupted_decision st id who reason approve :
  (let next x := '(st, d) ← x; decide_step true st id approve d in
   next (next (decide_step true st id approve ToFind)))
  = let '(st', r) := if approve then approve_request st id who else deny_request st id who reason in
    Some (st', Decided r).
Proof. cbn. unfold approve_request, deny_request. destruct (_ !! id), approve; done. Qed.
End AuditorRunProperties.

(** ** Witnesses *)

Definition demo_config : AuditorConfig := mkAuditorConfig true 300 true (Some (lit "/logs")) (lit "ask").

Definition demo_move (o : Office) : Move := mkMove demo_env (au_policy (of_auditor o)) (Err []).

(** Two calls without a manager: the first is stored and then being approved, with the
    lock held; the second has been counted and waits for its policy. *)
Definition demo_events : list OfficeEvent :=
  let mv := mkMove demo_env (au_policy demo_auditor) (Err []) in
  [Asks (demo_request SystemConfig (lit "x")) None; Moves 0 mv; Moves 0 mv; Moves 0 mv; Moves 0 mv; Moves 0 mv; Moves 0 mv;
   Moves 0 mv; Moves 0 mv; Moves 0 mv; Decides (rq_id (demo_request SystemConfig (lit "x"))) true; Moves 1 mv; Moves 1 mv;
   Asks (demo_request SystemConfig (lit "y")) None; Moves 2 mv; Moves 2 mv].

Definition demo_office : Office :=
  @office_run ascii_unicode fragment_engine unix (opened demo_config (mkFile Missing None) ∅) demo_events.

Lemma counters_reconcile_witness :
  counters (of_auditor demo_office) = (2, 0, 0, 0, 0)%Z ∧ owed (of_threads demo_office) = 2%Z ∧
  au_total_events (of_auditor demo_office) = wrap64 (0 + 0 + 0 + 0 + 2)%Z.
Proof.
  split; [vm_compute; reflexivity|]. split; [vm_compute; reflexivity|].
  destruct (@counters_reconcile ascii_unicode fragment_engine unix demo_config (mkFile Missing None) ∅ demo_events) as [H _].
  exact H.
Defined.

Lemma pending_reconcile_witness :
  au_pending_count (of_auditor demo_office) = wrap64 (Z.of_nat (0 + 0)).
Proof.
  destruct (@pending_reconcile ascii_unicode fragment_engine unix demo_config (mkFile Missing None) ∅ demo_events) as [H _].
  - vm_compute. repeat split; try discriminate; intros H; inversion H.
  - exact H.
Defined.
