(* ===== verification/Escalation.v ===== *)
(** * Escalations to a human (nemesis-security/src/auditor.rs, guardian.rs)

    The three direct questions to the approval manager: a failed guardian, a
    guardian verdict that is not [allow], an exceeded rate limit.  Each fails
    closed, and records who decided. *)
From S2P Require Import Prelude RustStr CommandArity Regex Matcher ApprovalRules SecTypes.
From S2P Require Import EditorAccess HotReload Evaluate Auditor.
Local Open Scope nb_scope.

(** [JudgeVerdict]. *)
Record JudgeVerdict := mkJudge {
  jv_intent : str;
  jv_matches_rules : bool;
  jv_risk_level : str;
  jv_recommendation : str;
  jv_rationale : str;
}.

(** [{}] of a boolean. *)
Definition bool_str (b : bool) : str := if b then lit "true" else lit "false".

(** The fresh identifiers and the clock of one call. *)
Record EscalationEnv := mkEscEnv {
  es_request_uuid : str;
  es_event_uuid : str;
  es_now : str;
}.

(** The placeholder request of an escalation event. *)
Definition escalation_request (id : str) (danger : DangerLevel) (source tool : str) : OperationRequest :=
  mkRequest id ProcessExec danger [] source tool None None None None None.

(** [v.note.as_deref().map(str::trim).filter(|n| !n.is_empty())]. *)
Definition clean_note (note : option str) : option str :=
  match trim <$> note with
  | Some [] | None => None
  | Some n => Some n
  end.

(** The reason recorded for a verdict; [intro] names the escalation and
    [approved] its positive outcome. *)
Definition outcome_reason (intro approved : str) (v : ApprovalVerdict) : str :=
  if av_approved v then intro ++ approved
  else match clean_note (av_note v) with
       | Some n => intro ++ lit "user rejected: " ++ n
       | None => intro ++ lit "user rejected or approval timeout"
       end.

(** Record the outcome and hand it on. *)
Definition audit_outcome (env : EscalationEnv) (st : SecurityAuditor) (req : OperationRequest)
    (intro approved policy : str) (verdict : result ApprovalVerdict str)
    : SecurityAuditor * result ApprovalVerdict str :=
  match verdict with
  | Ok v =>
      (log_audit_event st
         (mkEvent (es_event_uuid env) req (if av_approved v then lit "approved" else lit "denied")
            (outcome_reason intro approved v) (es_now env) policy), Ok v)
  | Err e =>
      (log_audit_event st
         (mkEvent (es_event_uuid env) req (lit "denied")
            (intro ++ lit "approval unavailable: " ++ e) (es_now env) policy), Err e)
  end.

Definition escalation_question (st : SecurityAuditor) (request_id op tool risk reason : str)
    : ApprovalQuestion :=
  mkQuestion request_id op tool risk reason (cf_approval_timeout_secs (au_config st)).

Definition request_guardian_failure_approval (env : EscalationEnv) (st : SecurityAuditor)
    (tool reason : str) (ctx : option ApprovalContext)
    : SecurityAuditor * result ApprovalVerdict str :=
  match au_approval_manager st with
  | None => (st, Err (lit "guardian failed and no approval manager is available"))
  | Some mgr =>
      if negb (mg_is_running mgr) then
        (st, Err (lit "guardian failed and the approval manager is not running"))
      else
        let request_id := lit "guardian-" ++ es_request_uuid env in
        let verdict := mg_ask mgr (escalation_question st request_id (lit "guardian_review") tool
                                     (lit "CRITICAL") reason) ctx in
        audit_outcome env st
          (escalation_request request_id Critical (lit "guardian_failure_approval") tool)
          (lit "guardian judge failed (" ++ reason ++ lit "); ") (lit "user approved")
          (lit "guardian_failure_policy=ask") verdict
  end.

(** The event of a limit escalation that found nobody to ask. *)
Definition limit_unavailable (env : EscalationEnv) (st : SecurityAuditor) (tool reason what : str)
    : SecurityAuditor :=
  log_audit_event st
    (mkEvent (es_event_uuid env)
       (escalation_request (lit "limit-" ++ es_request_uuid env) High (lit "limit_review") tool)
       (lit "denied")
       (lit "rate limit exceeded (" ++ reason ++ lit "); fail-closed: " ++ what)
       (es_now env) (lit "security.limits")).

Definition request_limit_approval (env : EscalationEnv) (st : SecurityAuditor)
    (tool reason : str) (ctx : option ApprovalContext)
    : SecurityAuditor * result ApprovalVerdict str :=
  match au_approval_manager st with
  | None => (limit_unavailable env st tool reason (lit "no approval manager is available"),
             Err (lit "limit exceeded and no approval manager is available"))
  | Some mgr =>
      if negb (mg_is_running mgr) then
        (limit_unavailable env st tool reason (lit "the approval manager is not running"),
         Err (lit "limit exceeded and the approval manager is not running"))
      else
        let request_id := lit "limit-" ++ es_request_uuid env in
        let verdict := mg_ask mgr (escalation_question st request_id (lit "limit_review") tool
                                     (lit "HIGH") reason) ctx in
        audit_outcome env st (escalation_request request_id High (lit "limit_review") tool)
          (lit "rate limit exceeded (" ++ reason ++ lit "); ") (lit "user approved the override")
          (lit "security.limits") verdict
  end.

Section Guardian.
Context {UC : Unicode}.
(** [str::to_uppercase], from the Unicode tables. *)
Variable to_uppercase : str → str.

(** Only [allow] passes; anything else goes to a human. *)
Definition is_allow (v : JudgeVerdict) : bool :=
  to_lowercase (trim (jv_recommendation v)) =? lit "allow".

Definition request_guardian_verdict_approval (env : EscalationEnv) (st : SecurityAuditor)
    (tool risk mode : str) (verdict : JudgeVerdict) (ctx : option ApprovalContext)
    : SecurityAuditor * result ApprovalVerdict str :=
  match au_approval_manager st with
  | None => (st, Err (lit "guardian flagged the operation and no approval manager is available"))
  | Some mgr =>
      if negb (mg_is_running mgr) then
        (st, Err (lit "guardian flagged the operation and the approval manager is not running"))
      else
        let request_id := lit "guardian-" ++ es_request_uuid env in
        let reason := lit "Guardian (LLM audit) recommendation=" ++ jv_recommendation verdict
                      ++ lit " (matches_rules=" ++ bool_str (jv_matches_rules verdict) ++ lit "): "
                      ++ jv_rationale verdict in
        let d := to_uppercase (trim risk) in
        let danger := if d =? [] then lit "UNKNOWN" else d in
        let outcome := mg_ask mgr (escalation_question st request_id (lit "guardian_review") tool
                                     danger reason) ctx in
        audit_outcome env st
          (escalation_request request_id Critical (lit "guardian_verdict_approval") tool)
          (lit "guardian verdict (" ++ reason ++ lit "); ") (lit "user approved")
          (lit "guardian_mode=" ++ mode) outcome
  end.

Definition log_guardian_verdict (env : EscalationEnv) (st : SecurityAuditor) (tool mode : str)
    (verdict : JudgeVerdict) : SecurityAuditor :=
  log_audit_event st
    (mkEvent (es_event_uuid env)
       (escalation_request (es_request_uuid env) Critical (lit "guardian_review") tool)
       (if is_allow verdict then lit "allow" else lit "escalate")
       (lit "recommendation=" ++ jv_recommendation verdict
        ++ lit " matches_rules=" ++ bool_str (jv_matches_rules verdict)
        ++ lit " risk=" ++ jv_risk_level verdict ++ lit " intent=" ++ jv_intent verdict
        ++ lit " rationale=" ++ jv_rationale verdict)
       (es_now env) (lit "guardian_mode=" ++ mode)).
End Guardian.

(** ** Properties *)

(** The contract of an escalation: a positive answer is an answer of the running
    manager, and then exactly one event with that outcome is recorded. *)
Definition escalation_contract (st st' : SecurityAuditor) (dir : str)
    (answer : result ApprovalVerdict str) : Prop :=
  (∀ v, answer = Ok v → ∃ mgr q ctx, au_approval_manager st = Some mgr ∧
     mg_is_running mgr = true ∧ mg_ask mgr q ctx = Ok v) ∧
  (∀ v, answer = Ok v → ∃ e,
     get_audit_log st' filter_none = get_audit_log st filter_none ++ [e] ∧
     ev_decision e = if av_approved v then lit "approved" else lit "denied") ∧
  counters st' = counters st ∧ au_active_requests st' = au_active_requests st.

Lemma audit_outcome_contract env st req intro approved policy mgr q ctx dir :
  au_approval_manager st = Some mgr → mg_is_running mgr = true →
  jsonl_dir st = Some dir → au_log_file_path st ≠ Some (jsonl_path dir) →
  let '(st', answer) := audit_outcome env st req intro approved policy (mg_ask mgr q ctx) in
  escalation_contract st st' dir answer.
Proof.
  intros Hm Hr Hd Hp. unfold audit_outcome, escalation_contract.
  destruct (mg_ask mgr q ctx) as [v|e] eqn:E; rewrite log_counters, log_active; split_and!; try done.
  - intros v' [= <-]. eauto 6.
  - intros v' [= <-]. eexists. split; [by eapply log_appends|done].
Qed.

(** A positive answer of the limit escalation is one of the running manager. *)
Lemma request_limit_approval_answer env st tool reason ctx :
  match snd (request_limit_approval env st tool reason ctx) with
  | Ok v => ∃ mgr q, au_approval_manager st = Some mgr ∧ mg_is_running mgr = true ∧ mg_ask mgr q ctx = Ok v
  | Err _ => True
  end.
Proof.
  unfold request_limit_approval. destruct (au_approval_manager st) as [mgr|]; [|done].
  destruct (mg_is_running mgr) eqn:Er; [|done]. cbn.
  destruct (mg_ask mgr _ ctx) as [v|] eqn:E; cbn; [|done]. eauto.
Qed.

Lemma audit_outcome_pair (P : SecurityAuditor → result ApprovalVerdict str → Prop) r :
  (let '(st', answer) := r in P st' answer) → P (fst r) (snd r).
Proof. by destruct r. Qed.

(** Also: each of the three escalations fails closed: without a running approval
    manager the answer is an error, a positive answer is one the running manager
    gave, its outcome is recorded exactly once, and no counter or pending
    request changes. *)
Theorem escalations_fail_closed `{!Unicode} up env st tool reason risk mode jv ctx dir :
  jsonl_dir st = Some dir → au_log_file_path st ≠ Some (jsonl_path dir) →
  let f := request_guardian_failure_approval env st tool reason ctx in
  let l := request_limit_approval env st tool reason ctx in
  let g := request_guardian_verdict_approval up env st tool risk mode jv ctx in
  escalation_contract st (fst f) dir (snd f) ∧
  escalation_contract st (fst l) dir (snd l) ∧
  escalation_contract st (fst g) dir (snd g) ∧
  ((∀ mgr, au_approval_manager st = Some mgr → mg_is_running mgr = false) →
   is_ok (snd f) = false ∧ is_ok (snd l) = false ∧ is_ok (snd g) = false).
Proof.
  intros Hd Hp. unfold request_guardian_failure_approval, request_limit_approval,
    request_guardian_verdict_approval, limit_unavailable.
  destruct (au_approval_manager st) as [mgr|] eqn:Em; [destruct (mg_is_running mgr) eqn:Er|]; simpl.
  - split; [|split; [|split]].
    4: { intros Hno. specialize (Hno mgr eq_refl). congruence. }
    all: apply (audit_outcome_pair (λ st' answer, escalation_contract _ st' _ answer)); by apply audit_outcome_contract.
  - unfold escalation_contract. rewrite log_counters, log_active. by split_and!.
  - unfold escalation_contract. rewrite log_counters, log_active. by split_and!.
Qed.

(** ** Witnesses *)

Lemma escalations_fail_closed_witness :
  is_ok (snd (request_guardian_failure_approval (mkEscEnv [] [] []) demo_auditor (lit "exec") [] None)) = false.
Proof.
  refine (proj1 (proj2 (proj2 (proj2 (@escalations_fail_closed ascii_unicode id (mkEscEnv [] [] [])
    demo_auditor (lit "exec") [] [] [] (mkJudge [] false [] [] []) None (lit "/logs") eq_refl _))) _)).
  - discriminate.
  - intros mgr H. discriminate H.
Defined.
