(* ===== verification/Guardian.v ===== *)
(** * The guardian (nemesis-security/src/guardian.rs)

    What decides whether a call goes to the judge, a model that is asked about one
    command without context: the list of destructive shapes and their search at
    word boundaries; and the reading of its answer.  The verdict itself is in
    Escalation.  The text is in lower case and the terms are ASCII, so a boundary in
    bytes is one in characters. *)
From S2P Require Import Prelude RustStr Json SecTypes Evaluate Auditor Escalation.
Local Open Scope nb_scope.

(** ** The judge *)

Record JudgeRequest := mkJudgeRequest {
  jq_action : str;
  jq_risk_level : str;
  jq_command : str;
}.

(** [LlmJudge]: a call to a model. *)
Definition LlmJudge : Type := JudgeRequest → result JudgeVerdict str.

(** [serde_json::from_str::<JudgeVerdict>], with its error text. *)
Class VerdictJson := { verdict_from_str : str → result JudgeVerdict str }.

(** [str::rfind] of a character. *)
Fixpoint rfind (c : char) (s : str) : option nat :=
  match s with
  | [] => None
  | x :: s => match rfind c s with
              | Some i => Some (S i)
              | None => if N.eqb x c then Some 0 else None
              end
  end.

Definition parse_verdict `{!VerdictJson} (raw : str) : result JudgeVerdict str :=
  let body := trim raw in
  let body := trim (match strip_prefix (lit "```json") body with
                    | Some b => b
                    | None => default body (strip_prefix (lit "```") body)
                    end) in
  match find_str (lit "{") body with
  | None => Err (lit "no opening brace in verdict")
  | Some start =>
      match rfind (ch "}") body with
      | None => Err (lit "no closing brace in verdict")
      | Some end_ =>
          if (end_ <=? start)%nat then Err (lit "malformed verdict braces")
          else match verdict_from_str (take (S end_ - start) (drop start body)) with
               | Ok v => Ok v
               | Err e => Err (lit "invalid verdict JSON: " ++ e)
               end
      end
  end.

(** ** Destructive shapes *)

Definition DESTRUCTIVE_SHAPED_TERMS : list string :=
  ["rm"; "rmdir"; "deltree"; "rimraf"; "remove-item"; "del"; "erase"; "rd"; "unlink"; "shred";
   "truncate"; "format"; "mkfs"; "diskpart"; "dd"; "fdisk"; "cipher"; "vssadmin"; "wevtutil";
   "bcdedit"; "bootrec"; "wipefs"; "chmod"; "chown"; "icacls"; "cacls"; "attrib"; "takeown";
   "set-executionpolicy"; "taskkill"; "pkill"; "killall"; "shutdown"; "reboot"; "poweroff"; "halt";
   "systemctl"; "systemd"; "net stop"; "sc config"; "sc delete"; "curl"; "wget"; "iwr";
   "invoke-webrequest"; "invoke-expression"; "iex"; "base64"; "certutil"; "bitsadmin"; "nc";
   "netcat"; "powershell"; "| sh"; "| bash"; "|sh"; "|bash"; "eval"; "git push --force";
   "git push -f"; "git reset --hard"; "git clean"; "git filter-branch"; "git rebase";
   "git checkout --"; "git restore"; "reg add"; "reg delete"; "regedit"; "hklm"; "hkcu";
   "currentversion\run"; "schtasks"; "crontab"; "rc.local"; "startup"; "/etc/passwd";
   "/etc/shadow"; "authorized_keys"; "id_rsa"; ".ssh"; ".env"; ".aws"; "credentials"; ".npmrc";
   ".netrc"; ".git-credentials"; "lsass"; "sam"; "system32"; "syswow64"; "sudo"; "sudoers";
   "defender"; "firewall"; "netsh"; "ufw"; "iptables"; "drop table"; "drop database";
   "truncate table"; "drop schema"; "of=/dev/"; ">/dev/sd"; "mkswap"; ":(){"; "fork bomb"]%string.

(** The neighbours of an occurrence: none, or not alphanumeric. *)
Definition edge (c : option char) : bool :=
  match c with
  | None => true
  | Some c => negb (is_ascii_alnum c)
  end.

Definition char_before (text : str) (start : nat) : option char :=
  match start with
  | O => None
  | S k => text !! k
  end.

Fixpoint term_go (fuel : nat) (text term : str) (from : nat) : option bool :=
  match fuel with
  | O => None
  | S fuel =>
      match find_str term (drop from text) with
      | None => Some false
      | Some pos =>
          let start := from + pos in
          let end_ := start + length term in
          if edge (char_before text start) && edge (text !! end_) then Some true
          else term_go fuel text term (S start)
      end
  end.

(** Every round goes on by a character. *)
Definition term_present (text_lower term_lower : str) : bool :=
  default false (term_go (S (length text_lower)) text_lower term_lower 0).

Definition delete_tools : list string := ["delete_file"; "delete_directory"; "delete_dir"]%string.

(** The text that is searched: the command, or the whole text of the arguments. *)
Definition audited_text `{JsonNumbers} `{!JsonCodec} (args_json : str) : str :=
  default args_json (v ← json_from_str args_json; get_str (lit "command") v).

Definition shaped_text (text_lower : str) : bool :=
  existsb (λ t, term_present text_lower (lit t)) DESTRUCTIVE_SHAPED_TERMS.

Definition destructive_shaped `{JsonNumbers} `{!JsonCodec} `{!Unicode} (tool_name args_json : str) : bool :=
  one_of tool_name delete_tools || shaped_text (to_lowercase (audited_text args_json)).

(** ** Lemmas *)

(** An occurrence between edges. *)
Definition occurs_as_word (text term : str) : Prop :=
  ∃ a b, text = a ++ term ++ b ∧ edge (last a) = true ∧ edge (head b) = true.

Lemma char_before_app a b : char_before (a ++ b) (length a) = last a.
Proof.
  unfold char_before. destruct (length a) as [|k] eqn:E; [by apply nil_length_inv in E as ->|].
  rewrite lookup_app_l by lia. rewrite last_lookup, E. done.
Qed.

Lemma find_str_leftmost p s i :
  find_str p s = Some i → ∃ a b, s = a ++ p ++ b ∧ length a = i ∧
    ∀ a' b', s = a' ++ p ++ b' → length a ≤ length a'.
Proof.
  revert i. induction s as [|c s IH]; intros i E.
  - apply find_str_Some in E as (a & b & Hab & Hl). exists a, b. split_and!; [done|done|].
    intros a' b' Hab'. apply (f_equal length) in Hab, Hab'. rewrite !length_app in *. simpl in *. lia.
  - cbn [find_str] in E. destruct (starts_with p (c :: s)) eqn:Hs.
    + injection E as <-. apply starts_with_iff in Hs as [t Ht]. exists [], t. split_and!; [done|done|]. simpl. lia.
    + destruct (find_str p s) as [j|]; [|done]. injection E as <-.
      destruct (IH j eq_refl) as (a & b & -> & Hl & Hmin). exists (c :: a), b. split_and!; [done|simpl; lia|].
      intros [|c' a'] b' Hab.
      * exfalso. rewrite app_nil_l in Hab. rewrite Hab, starts_with_app in Hs. discriminate.
      * injection Hab as <- Hab. specialize (Hmin a' b' Hab). simpl. lia.
Qed.

Lemma term_go_spec fuel text term from :
  term ≠ [] → from ≤ length text → length text < from + fuel →
  (∀ a b, text = a ++ term ++ b → length a < from → ¬ (edge (last a) = true ∧ edge (head b) = true)) →
  ∃ r, term_go fuel text term from = Some r ∧ (r = true ↔ occurs_as_word text term).
Proof.
  intros Ht. assert (1 ≤ length term) by (destruct term; [done|simpl; lia]).
  revert from. induction fuel as [|fuel IH]; intros from Hf Hlt Hno; [lia|]. cbn [term_go].
  destruct (find_str term (drop from text)) as [pos|] eqn:E.
  - apply find_str_leftmost in E as (a & b & Hd & <- & Hmin).
    assert (text = (take from text ++ a) ++ term ++ b) as Hc by (by rewrite <- app_assoc, <- Hd, take_drop).
    assert (from + length a = length (take from text ++ a)) as Hpos by (rewrite length_app, length_take; lia).
    rewrite Hpos. set (pre := take from text ++ a) in *.
    assert (char_before text (length pre) = last pre) as -> by (rewrite Hc; apply char_before_app).
    assert (text !! (length pre + length term) = head b) as ->.
    { rewrite Hc, app_assoc, lookup_app_r by (rewrite length_app; lia).
      rewrite length_app, Nat.sub_diag. by destruct b. }
    assert (length text = length pre + (length term + length b)) as Hlen
      by (rewrite Hc at 1; rewrite !length_app; done).
    destruct (edge (last pre)) eqn:E1, (edge (head b)) eqn:E2; cbn [andb].
    { exists true. split; [done|]. split; [|done]. intros _. by exists pre, b. }
    all: apply IH; [lia|lia|].
    all: intros a' b' Hc' Hl [Ha' Hb'].
    all: destruct (decide (length a' < from)) as [|Hge]; [by eapply Hno|].
    all: assert (drop from text = drop from a' ++ term ++ b') as Hd' by (rewrite Hc', drop_app_le by lia; done).
    all: specialize (Hmin _ _ Hd'); rewrite length_drop in Hmin.
    all: assert (length a' = length pre) as Hla by lia.
    all: rewrite Hc in Hc'; apply app_inj_1 in Hc' as [<- Hc'']; [|lia]; apply app_inv_head in Hc'' as <-.
    all: congruence.
  - exists false. split; [done|]. split; [done|]. intros (a & b & Hc & Ha & Hb). exfalso.
    destruct (decide (length a < from)) as [|Hge]; [by eapply Hno|].
    assert (is_Some (find_str term (drop from text))) as [? ?].
    { rewrite Hc, drop_app_le by lia. apply find_str_is_Some. }
    congruence.
Qed.

Lemma term_present_iff text term : term ≠ [] → (term_present text term = true ↔ occurs_as_word text term).
Proof.
  intros Ht. unfold term_present.
  destruct (term_go_spec (S (length text)) text term 0 Ht) as (r & -> & Hr); [lia|lia|lia|done].
Qed.

(** ** Properties *)

(** Also: a call is of destructive shape exactly if its tool deletes, or one of the
    terms occurs in the lower-case text of its command with no letter or digit next
    to it on either side; the search always ends. *)
Theorem destructive_exact `{JsonNumbers} `{!JsonCodec} `{!Unicode} tool_name args_json :
  destructive_shaped tool_name args_json = true ↔
  (∃ t, t ∈ delete_tools ∧ tool_name = lit t) ∨
  ∃ t, t ∈ DESTRUCTIVE_SHAPED_TERMS ∧ occurs_as_word (to_lowercase (audited_text args_json)) (lit t).
Proof.
  unfold destructive_shaped, shaped_text, one_of.
  rewrite orb_true_iff, !existsb_Exists_true, !Exists_exists. f_equiv.
  - setoid_rewrite bool_decide_eq_true. done.
  - assert (∀ t, t ∈ DESTRUCTIVE_SHAPED_TERMS → lit t ≠ []) as Hne.
    { assert (Forall (λ t, lit t ≠ []) DESTRUCTIVE_SHAPED_TERMS) as Hall
        by (apply (bool_decide_unpack _); vm_compute; exact I).
      intros t Ht. rewrite Forall_forall in Hall. by apply Hall. }
    split; intros (t & Ht & Hn); exists t; (split; [done|]); apply term_present_iff; auto.
Qed.

(** Observed: terms that end or begin with punctuation need an edge there too: writing
    to a disk and piping into a shell are not of destructive shape when a letter
    follows or precedes. *)
Theorem edges_of_punctuation :
  shaped_text (lit "cat image >/dev/sda") = false ∧
  shaped_text (lit "cat image >/dev/sd") = true ∧
  shaped_text (lit "tee payload|sh") = false ∧
  shaped_text (lit "tee payload |sh") = true ∧
  shaped_text (lit "cp prod.env /tmp") = false.
Proof. vm_compute. done. Qed.
