(* ===== verification/Merkle.v ===== *)
(** * Merkle tree of the audit log (nemesis-security/src/merkle.rs)

    Leaves and inner nodes are hex digests; SHA-256 itself ([sha2]) is the class
    [Sha256], of which only the form of the digest is assumed.  Soundness is
    stated by extraction: two openings that disagree exhibit a collision. *)
From S2P Require Import Prelude RustStr.
Local Open Scope nb_scope.

Abbreviation bytes := (list N).

(** The hex digest of SHA-256: 64 ASCII characters. *)
Class Sha256 := {
  sha256_hex : list N → str;
  sha256_length : ∀ d, length (sha256_hex d) = 64;
  sha256_ascii : ∀ d, is_ascii (sha256_hex d) = true;
}.

(** Two different inputs with one digest. *)
Definition collision `{!Sha256} : Prop := ∃ x y, x ≠ y ∧ sha256_hex x = sha256_hex y.

(** ** Operations *)

Record ProofStep := mkStep {
  ps_hash : str;
  ps_direction : str;
}.

Record MerkleTree := mkTree {
  mt_leaves : list str;
  mt_root : str;
}.

Definition dir_left : str := lit "left".
Definition dir_right : str := lit "right".

Section Operations.
Context {SHA : Sha256}.

Definition sha256_pair_hex (a b : str) : str := sha256_hex (as_bytes a ++ as_bytes b).

(** One round of [rebuild_root]: pairs are hashed, an odd last node moves up. *)
Fixpoint next_level (level : list str) : list str :=
  match level with
  | a :: b :: rest => sha256_pair_hex a b :: next_level rest
  | _ => level
  end.

(** The [while] loop; every round at least halves, so the number of leaves is
    enough fuel. *)
Fixpoint root_loop (fuel : nat) (level : list str) : str :=
  match level with
  | [] => sha256_hex []
  | [r] => r
  | _ =>
      match fuel with
      | O => default [] (head level)
      | S fuel => root_loop fuel (next_level level)
      end
  end.

Definition rebuild_root (leaves : list str) : str := root_loop (length leaves) leaves.

Definition tree_new : MerkleTree := mkTree [] (sha256_hex []).

Definition add_leaf (t : MerkleTree) (data : bytes) : MerkleTree * str :=
  let leaf_hash := sha256_hex data in
  let leaves := mt_leaves t ++ [leaf_hash] in
  (mkTree leaves (rebuild_root leaves), leaf_hash).

(** The scan of one level by [build_proof]: [i] is the position of the first
    node of [level], [nlen] the length of [next] so far; the answer holds the
    steps to push and [next_idx], which starts at [0]. *)
Fixpoint proof_scan (level : list str) (i idx nlen : nat) (steps : list ProofStep) (next_idx : nat)
    : list ProofStep * nat :=
  match level with
  | a :: b :: rest =>
      if (i =? idx)%nat then
        proof_scan rest (i + 2) idx (nlen + 1) (steps ++ [mkStep b dir_right]) nlen
      else if (i + 1 =? idx)%nat then
        proof_scan rest (i + 2) idx (nlen + 1) (steps ++ [mkStep a dir_left]) nlen
      else proof_scan rest (i + 2) idx (nlen + 1) steps next_idx
  | [a] => (steps, if (i =? idx)%nat then nlen else next_idx)
  | [] => (steps, next_idx)
  end.

Fixpoint proof_loop (fuel : nat) (level : list str) (idx : nat) (steps : list ProofStep)
    : list ProofStep :=
  match level with
  | _ :: _ :: _ =>
      match fuel with
      | O => steps
      | S fuel =>
          let '(steps, idx) := proof_scan level 0 idx 0 steps 0 in
          proof_loop fuel (next_level level) idx steps
      end
  | _ => steps
  end.

Definition build_proof (leaves : list str) (leaf_index : nat) : list ProofStep :=
  proof_loop (length leaves) leaves leaf_index [].

Definition proof (t : MerkleTree) (leaf_index : nat) : result (list ProofStep) str :=
  let n := length (mt_leaves t) in
  if (n <=? leaf_index)%nat then
    Err (lit "index " ++ show_nat leaf_index ++ lit " out of range (0.." ++ show_nat n ++ lit ")")
  else if (n =? 1)%nat then Ok []
  else Ok (build_proof (mt_leaves t) leaf_index).

(** One round of the verifier; an unknown direction ends it. *)
Fixpoint fold_proof (current : str) (proof : list ProofStep) : option str :=
  match proof with
  | [] => Some current
  | step :: proof =>
      if ps_direction step =? dir_left then
        fold_proof (sha256_pair_hex (ps_hash step) current) proof
      else if ps_direction step =? dir_right then
        fold_proof (sha256_pair_hex current (ps_hash step)) proof
      else None
  end.

Definition verify_from_hash (leaf_hash : str) (proof : list ProofStep) (root : str) : bool :=
  match fold_proof leaf_hash proof with
  | Some current => current =? root
  | None => false
  end.

Definition verify (t : MerkleTree) (leaf_data : bytes) (proof : list ProofStep) : bool :=
  verify_from_hash (sha256_hex leaf_data) proof (mt_root t).

(** The tree after a list of insertions. *)
Definition tree_of (datas : list bytes) : MerkleTree :=
  foldl (λ t d, fst (add_leaf t d)) tree_new datas.
End Operations.

(** ** Lemmas *)

Section Facts.
Context {SHA : Sha256}.

(** Induction two nodes at a time. *)
Lemma pair_ind {A} (P : list A → Prop) :
  P [] → (∀ a, P [a]) → (∀ a b l, P l → P (a :: b :: l)) → ∀ l, P l.
Proof.
  intros H0 H1 H2 l. enough (P l ∧ ∀ a, P (a :: l)) by tauto.
  induction l as [|b l [IH1 IH2]]; auto.
Qed.

Lemma next_level_length l : length (next_level l) ≤ length l ∧ (2 ≤ length l → length (next_level l) < length l).
Proof.
  induction l as [|a|a b l [IH1 IH2]] using pair_ind; simpl; [lia|lia|].
  split; [lia|]. intros _. lia.
Qed.

(** Past the node nothing is pushed. *)
Lemma proof_scan_done level i idx nlen steps nidx :
  idx < i → proof_scan level i idx nlen steps nidx = (steps, nidx).
Proof.
  revert i nlen. induction level as [|a|a b l IH] using pair_ind; intros i nlen Hi; [done| |];
    cbn [proof_scan].
  - destruct (Nat.eqb_spec i idx); [lia|done].
  - destruct (Nat.eqb_spec i idx); [lia|]. destruct (Nat.eqb_spec (i + 1) idx); [lia|].
    apply IH. lia.
Qed.

(** The scan moves from a node to its parent: the step it pushes hashes the node
    into the parent, which is the node at the new index. *)
Lemma proof_scan_spec level i idx nlen steps nidx h :
  i ≤ idx → level !! (idx - i) = Some h →
  ∃ new k h', proof_scan level i idx nlen steps nidx = (steps ++ new, nlen + k) ∧
    next_level level !! k = Some h' ∧ length new ≤ 1 ∧ fold_proof h new = Some h'.
Proof.
  revert i nlen steps nidx. induction level as [|a|a b l IH] using pair_ind;
    intros i nlen steps nidx Hi Hl; [done| |].
  - simpl in *. destruct (idx - i) as [|n] eqn:E; [|done]. simplify_eq/=.
    replace (i =? idx)%nat with true by (symmetry; apply Nat.eqb_eq; lia).
    exists [], 0, h. rewrite app_nil_r, Nat.add_0_r. split_and!; (done || (simpl; lia)).
  - cbn [proof_scan next_level].
    destruct (Nat.eqb_spec i idx) as [->|Hne].
    { rewrite Nat.sub_diag in Hl. simplify_eq/=.
      exists [mkStep b dir_right], 0, (sha256_pair_hex h b).
      rewrite proof_scan_done by lia. rewrite Nat.add_0_r. split_and!; (done || (simpl; lia)). }
    destruct (Nat.eqb_spec (i + 1) idx) as [<-|Hne2].
    { replace (i + 1 - i) with 1 in Hl by lia. simplify_eq/=.
      exists [mkStep a dir_left], 0, (sha256_pair_hex a h).
      rewrite proof_scan_done by lia. rewrite Nat.add_0_r. split_and!; (done || (simpl; lia)). }
    replace (idx - i) with (S (S (idx - (i + 2)))) in Hl by lia. simpl in Hl.
    destruct (IH (i + 2) (nlen + 1) steps nidx ltac:(lia) Hl) as (new & k & h' & -> & Hk & Hn & Hf).
    exists new, (S k), h'. split_and!; [f_equal; lia|done|done|done].
Qed.

Lemma fold_proof_app h p q :
  fold_proof h (p ++ q) = match fold_proof h p with Some h' => fold_proof h' q | None => None end.
Proof.
  revert h. induction p as [|s p IH]; intros h; [done|]. cbn [fold_proof app].
  repeat case_bool_decide; auto.
Qed.

Lemma proof_loop_spec fuel level idx steps h :
  length level ≤ fuel → level !! idx = Some h →
  ∃ new, proof_loop fuel level idx steps = steps ++ new ∧
         fold_proof h new = Some (root_loop fuel level).
Proof.
  revert level idx steps h. induction fuel as [|fuel IH]; intros level idx steps h Hf Hl.
  { destruct level; [done|simpl in Hf; lia]. }
  destruct level as [|a [|b l]]; [done| |].
  - destruct idx; [|done]. simplify_eq/=. exists []. by rewrite app_nil_r.
  - cbn [proof_loop root_loop].
    destruct (proof_scan_spec (a :: b :: l) 0 idx 0 steps 0 h ltac:(lia)) as (new & k & h' & -> & Hk & _ & Hfp).
    { by rewrite Nat.sub_0_r. }
    pose proof (proj2 (next_level_length (a :: b :: l)) ltac:(simpl; lia)) as Hlen.
    destruct (IH (next_level (a :: b :: l)) (0 + k) (steps ++ new) h' ltac:(lia) Hk) as (new' & -> & Hfp').
    exists (new ++ new'). split; [by rewrite app_assoc|]. by rewrite fold_proof_app, Hfp.
Qed.

(** The proof is as long as the tree is high: every round halves the level. *)
Lemma root_loop_fuel fuel fuel' level :
  length level ≤ fuel → length level ≤ fuel' → root_loop fuel level = root_loop fuel' level.
Proof.
  revert fuel' level. induction fuel as [|fuel IH]; intros fuel' level Hf Hf'.
  { destruct level; [by destruct fuel'|simpl in Hf; lia]. }
  destruct level as [|a [|b l]]; [by destruct fuel'|by destruct fuel'|].
  destruct fuel' as [|fuel']; [simpl in Hf'; lia|]. cbn [root_loop].
  pose proof (proj2 (next_level_length (a :: b :: l)) ltac:(simpl; lia)). apply IH; lia.
Qed.

Lemma tree_of_spec datas :
  mt_leaves (tree_of datas) = sha256_hex <$> datas ∧
  mt_root (tree_of datas) = rebuild_root (sha256_hex <$> datas).
Proof.
  unfold tree_of. induction datas as [|d datas [IH1 IH2]] using rev_ind; [done|].
  rewrite foldl_app, fmap_app. set (t := foldl _ tree_new datas) in *. cbn [foldl].
  unfold add_leaf. cbn [fst mt_leaves mt_root]. by rewrite IH1.
Qed.

(** Digests have a fixed length, so the two halves of a hashed pair are
    determined by their concatenation. *)
Definition digest (h : str) : Prop := length h = 64 ∧ is_ascii h = true.

Lemma digest_sha d : digest (sha256_hex d).
Proof. split; [apply sha256_length|apply sha256_ascii]. Qed.

Lemma pair_inj_l a b a' b' :
  digest b → digest b' → as_bytes a ++ as_bytes b = as_bytes a' ++ as_bytes b' →
  as_bytes a = as_bytes a' ∧ b = b'.
Proof.
  intros [Hl Ha] [Hl' Ha']. rewrite (as_bytes_ascii b), (as_bytes_ascii b') by done.
  intros H. apply app_inj_2 in H; [done|congruence].
Qed.

Lemma pair_inj_r a b a' b' :
  digest a → digest a' → as_bytes a ++ as_bytes b = as_bytes a' ++ as_bytes b' →
  a = a' ∧ as_bytes b = as_bytes b'.
Proof.
  intros [Hl Ha] [Hl' Ha']. rewrite (as_bytes_ascii a), (as_bytes_ascii a') by done.
  intros H. apply app_inj_1 in H; [done|congruence].
Qed.

Lemma pair_collision a b a' b' :
  sha256_pair_hex a b = sha256_pair_hex a' b' →
  as_bytes a ++ as_bytes b = as_bytes a' ++ as_bytes b' ∨ collision.
Proof.
  intros H. destruct (decide (as_bytes a ++ as_bytes b = as_bytes a' ++ as_bytes b')) as [E|E]; [by left|].
  right. by exists (as_bytes a ++ as_bytes b), (as_bytes a' ++ as_bytes b').
Qed.

(** Same directions, same end: same siblings and same start. *)
Definition same_sibling (s s' : ProofStep) : Prop := as_bytes (ps_hash s) = as_bytes (ps_hash s').

Lemma fold_proof_binding p p' h h' r :
  ps_direction <$> p = ps_direction <$> p' → digest h → digest h' →
  fold_proof h p = Some r → fold_proof h' p' = Some r →
  h = h' ∧ Forall2 same_sibling p p' ∨ collision.
Proof.
  revert p' h h'. induction p as [|s p IH]; intros [|s' p'] h h' Hd Hh Hh' Hf Hf';
    try done; simpl in *.
  { left. split; [congruence|constructor]. }
  injection Hd as Hs Hd. rewrite <- Hs in Hf'.
  case_bool_decide as El; [|case_bool_decide as Er; [|done]];
    (edestruct IH as [[Heq Hall]|?]; [exact Hd|apply digest_sha|apply digest_sha|exact Hf|exact Hf'| |by right]);
    (apply pair_collision in Heq as [Heq|?]; [|by right]); left.
  - apply pair_inj_l in Heq as [? ?]; [|done..]. split; [done|by constructor].
  - apply pair_inj_r in Heq as [? ?]; [|done..]. split; [done|by constructor].
Qed.

(** ** Properties *)

(** Also: every leaf can be proved: after any sequence of insertions, the proof
    generated for a position verifies the data inserted there against the root,
    and a position out of range is an error. *)
Theorem merkle_proof_complete datas i :
  match datas !! i with
  | Some d => ∃ steps, proof (tree_of datas) i = Ok steps ∧ verify (tree_of datas) d steps = true
  | None => is_ok (proof (tree_of datas) i) = false
  end.
Proof.
  destruct (tree_of_spec datas) as [El Er]. unfold proof, verify, verify_from_hash. rewrite El, Er, length_fmap.
  destruct (datas !! i) as [d|] eqn:Ed.
  - pose proof (lookup_lt_Some _ _ _ Ed) as Hlt. rewrite (proj2 (Nat.leb_gt _ _) Hlt).
    destruct (Nat.eqb_spec (length datas) 1) as [E1|E1].
    + destruct datas as [|d' [|? ?]]; [done| |done]. destruct i; [|done]. simplify_eq/=.
      exists []. split; [done|]. by apply bool_decide_eq_true_2.
    + destruct (proof_loop_spec (length (sha256_hex <$> datas)) (sha256_hex <$> datas) i [] (sha256_hex d))
        as (new & Hp & Hf); [done|by rewrite list_lookup_fmap, Ed|].
      exists new. unfold build_proof. rewrite Hp. split; [done|].
      rewrite Hf. by apply bool_decide_eq_true_2.
  - apply lookup_ge_None_1 in Ed. by rewrite (proj2 (Nat.leb_le _ _) Ed).
Qed.

(** Also: an opening is binding: two proofs with the same directions that verify
    against one root are for the same leaf hash and have the same siblings, or
    they exhibit a collision of SHA-256. *)
Theorem merkle_binding root d d' p p' :
  ps_direction <$> p = ps_direction <$> p' →
  verify_from_hash (sha256_hex d) p root = true → verify_from_hash (sha256_hex d') p' root = true →
  (d = d' ∧ Forall2 same_sibling p p') ∨ collision.
Proof.
  unfold verify_from_hash. intros Hd Hv Hv'.
  destruct (fold_proof _ p) as [r|] eqn:E; [|done]. destruct (fold_proof _ p') as [r'|] eqn:E'; [|done].
  bool_simpl. subst.
  destruct (fold_proof_binding p p' _ _ root Hd (digest_sha d) (digest_sha d') E E')
    as [[Hh Hs]|?]; [|by right].
  destruct (decide (d = d')) as [->|Hne]; [by left|]. right. by exists d, d'.
Qed.

(** Observed: leaves and inner nodes are hashed alike: in a tree of two entries the 128
    bytes of the two leaf hashes verify as an entry, with the empty proof, though
    they are neither of the entries and are not in the list of leaves unless
    SHA-256 has a collision. *)
Theorem merkle_inner_node_as_leaf d1 d2 :
  let forged := as_bytes (sha256_hex d1) ++ as_bytes (sha256_hex d2) in
  verify (tree_of [d1; d2]) forged [] = true ∧
  (length d1 < 128 → length d2 < 128 →
   (forged ∉ [d1; d2]) ∧ (sha256_hex forged ∈ mt_leaves (tree_of [d1; d2]) → collision)).
Proof.
  set (forged := as_bytes (sha256_hex d1) ++ as_bytes (sha256_hex d2)). cbv zeta.
  assert (Hlen : length forged = 128).
  { unfold forged. rewrite !as_bytes_ascii by apply sha256_ascii. by rewrite length_app, !sha256_length. }
  split; [by apply bool_decide_eq_true_2|]. intros H1 H2.
  assert (Hn : forged ∉ [d1; d2]).
  { intros [E|[E|[]%elem_of_nil]%elem_of_cons]%elem_of_cons; rewrite E in Hlen; lia. }
  split; [done|]. intros [E|[E|[]%elem_of_nil]%elem_of_cons]%elem_of_cons.
  - exists forged, d1. split; [by intros E'; rewrite E' in Hlen; lia|done].
  - exists forged, d2. split; [by intros E'; rewrite E' in Hlen; lia|done].
Qed.
End Facts.

(** ** Witnesses *)

(** A stand-in digest of the right form: the first bytes as hex digits. *)
Definition toy_digit (n : N) : char := if (n <? 10)%N then (48 + n)%N else (87 + n)%N.
Definition toy_hex (d : list N) : str :=
  let h := mjoin ((λ b, [toy_digit ((b / 16) mod 16); toy_digit (b mod 16)]%N) <$> d) in
  take 64 (h ++ replicate 64 48%N).

Lemma toy_digit_ascii n : (n < 16)%N → is_ascii_char (toy_digit n) = true.
Proof. intros H. unfold toy_digit, is_ascii_char. destruct (N.ltb_spec n 10); apply N.ltb_lt; lia. Qed.

Lemma toy_hex_ascii d : is_ascii (toy_hex d) = true.
Proof.
  unfold toy_hex, is_ascii. rewrite forallb_Forall_true. apply Forall_take, Forall_app. split.
  - apply Forall_join. apply Forall_fmap. apply Forall_true. intros b. simpl.
    repeat constructor; apply toy_digit_ascii, N.mod_lt; done.
  - by apply Forall_replicate.
Qed.

Lemma toy_hex_length d : length (toy_hex d) = 64.
Proof. unfold toy_hex. rewrite length_take, length_app, length_replicate. lia. Qed.

Definition toy_sha : Sha256 :=
  {| sha256_hex := toy_hex; sha256_length := toy_hex_length; sha256_ascii := toy_hex_ascii |}.

Lemma merkle_binding_witness :
  let t := @tree_of toy_sha [[1%N]; [2%N]; [3%N]] in
  let p := [mkStep (toy_hex [2%N]) dir_right; mkStep (toy_hex [3%N]) dir_right] in
  @verify_from_hash toy_sha (toy_hex [1%N]) p (mt_root t) = true ∧
  (([1%N] = [1%N] ∧ Forall2 same_sibling p p) ∨ @collision toy_sha).
Proof.
  split; [vm_compute; reflexivity|].
  apply (@merkle_binding toy_sha (mt_root (@tree_of toy_sha [[1%N]; [2%N]; [3%N]])));
    [reflexivity|vm_compute; reflexivity|vm_compute; reflexivity].
Defined.

Lemma merkle_inner_node_as_leaf_witness :
  @verify toy_sha (@tree_of toy_sha [[1%N]; [2%N]])
    (as_bytes (toy_hex [1%N]) ++ as_bytes (toy_hex [2%N])) [] = true ∧
  (as_bytes (toy_hex [1%N]) ++ as_bytes (toy_hex [2%N]) ∉ [[1%N]; [2%N]]).
Proof.
  split; [apply (@merkle_inner_node_as_leaf toy_sha [1%N] [2%N])|].
  apply (proj2 (@merkle_inner_node_as_leaf toy_sha [1%N] [2%N])); simpl; lia.
Defined.
