(* ===== verification/Integrity.v ===== *)
(** * Audit hash chain (nemesis-security/src/integrity.rs)

    Events linked by the hash of their predecessor, stored in a main file and in
    numbered segment files of one directory.  A stored line is an event or, when
    it does not parse, [None].  SHA-256 is the class of [Merkle]. *)
From stdpp Require Import sorting.
From S2P Require Import Prelude RustStr Merkle.
Local Open Scope nb_scope.

(** ** Data *)

Record ChainEvent := mkChainEvent {
  ce_id : str;
  ce_timestamp : str;
  ce_operation : str;
  ce_tool_name : str;
  ce_user : str;
  ce_source : str;
  ce_target : str;
  ce_decision : str;
  ce_reason : str;
  ce_hash : str;
  ce_prev_hash : str;
  ce_sign : option str;
}.

(** The configuration; the storage path is given by its file stem and extension
    (with the dot) within one directory. *)
Record AuditChainConfig := mkChainConfig {
  cc_stem : str;
  cc_ext : str;
  cc_max_events_per_segment : N;
}.

Abbreviation Lines := (list (option ChainEvent)).

Record AuditChain := mkChain {
  ch_config : AuditChainConfig;
  ch_last_hash : str;
  ch_event_count : N;
  ch_segment_count : N;
  ch_total_events : N;
  ch_closed : bool;
  ch_files : gmap str Lines;
}.

Definition zero_hash : str := replicate 64 (ch "0").

(** A chain over the files found in its directory. *)
Definition chain_new (config : AuditChainConfig) (files : gmap str Lines) : AuditChain :=
  mkChain config zero_hash 0 1 0 false files.

(** [fetch_add] on [AtomicU64]. *)
Definition add64 (a b : N) : N := ((a + b) mod 2 ^ 64)%N.

(** [{:04}]. *)
Definition pad4 (n : N) : str :=
  let s := lit (pretty n) in replicate (4 - length s) (ch "0") ++ s.

Definition main_file (c : AuditChainConfig) : str := cc_stem c ++ cc_ext c.

Definition segment_file (c : AuditChainConfig) (seg : N) : str :=
  if N.eqb seg 1 then main_file c
  else cc_stem c ++ lit "_seg" ++ pad4 seg ++ cc_ext c.

Definition write_line (files : gmap str Lines) (name : str) (e : ChainEvent) : gmap str Lines :=
  <[name := default [] (files !! name) ++ [Some e]]> files.

(** What one call of [append] is given: the seven fields, the signature, and
    from outside the time, the id and whether the write succeeds. *)
Record AppendArgs := mkAppend {
  ap_operation : str;
  ap_tool_name : str;
  ap_user : str;
  ap_source : str;
  ap_target : str;
  ap_decision : str;
  ap_reason : str;
  ap_sign : option str;
  ap_timestamp : str;
  ap_id : str;
  ap_write_ok : bool;
}.

(** ** Operations *)

Section Operations.
Context {SHA : Sha256}.

(** The fields the hash covers, after the previous hash. *)
Definition covered (timestamp operation tool_name user target decision : str) : list N :=
  as_bytes timestamp ++ as_bytes operation ++ as_bytes tool_name ++ as_bytes user
  ++ as_bytes target ++ as_bytes decision.

Definition chain_hash (prev_hash timestamp operation tool_name user target decision : str) : str :=
  sha256_hex (as_bytes prev_hash ++ covered timestamp operation tool_name user target decision).

Definition rotate_segment (st : AuditChain) : AuditChain :=
  mkChain (ch_config st) (ch_last_hash st) 0 (add64 (ch_segment_count st) 1)
    (ch_total_events st) (ch_closed st) (ch_files st).

Definition append_with_sign (st : AuditChain) (a : AppendArgs) : AuditChain * result ChainEvent str :=
  if ch_closed st then (st, Err (lit "audit chain is closed"))
  else
    let prev_hash := ch_last_hash st in
    let hash := chain_hash prev_hash (ap_timestamp a) (ap_operation a) (ap_tool_name a)
                  (ap_user a) (ap_target a) (ap_decision a) in
    let event := mkChainEvent (ap_id a) (ap_timestamp a) (ap_operation a) (ap_tool_name a)
                   (ap_user a) (ap_source a) (ap_target a) (ap_decision a) (ap_reason a)
                   hash prev_hash (ap_sign a) in
    let count := add64 (ch_event_count st) 1 in
    let files := if ap_write_ok a
                 then write_line (ch_files st) (segment_file (ch_config st) (ch_segment_count st)) event
                 else ch_files st in
    let st := mkChain (ch_config st) hash count (ch_segment_count st)
                (add64 (ch_total_events st) 1) (ch_closed st) files in
    let st := if (cc_max_events_per_segment (ch_config st) <=? count)%N then rotate_segment st else st in
    (st, Ok event).

Definition event_hash (e : ChainEvent) : str :=
  chain_hash (ce_prev_hash e) (ce_timestamp e) (ce_operation e) (ce_tool_name e) (ce_user e)
    (ce_target e) (ce_decision e).

(** The loop of [verify_chain] from its second event on. *)
Fixpoint verify_from (prev : ChainEvent) (events : list ChainEvent) : bool :=
  match events with
  | [] => true
  | e :: events =>
      (ce_prev_hash e =? ce_hash prev) && (event_hash e =? ce_hash e) && verify_from e events
  end.

Definition verify_chain (events : list ChainEvent) : bool :=
  match events with
  | [] => true
  | e :: events => verify_from e events
  end.

(** The main file when it exists, then the sorted segment files. *)
Definition collect_segment_files (st : AuditChain) : list str :=
  let names := (map_to_list (ch_files st)).*1 in
  let main := main_file (ch_config st) in
  (if bool_decide (is_Some (ch_files st !! main)) then [main] else [])
  ++ merge_sort str_le
       (List.filter (λ n, starts_with (cc_stem (ch_config st)) n && contains (lit "_seg") n) names).

Definition file_events (st : AuditChain) (name : str) : list ChainEvent :=
  omap id (default [] (ch_files st !! name)).

(** All stored events in file order. *)
Definition stored_events (st : AuditChain) : list ChainEvent :=
  collect_segment_files st ≫= file_events st.

Definition get_event (st : AuditChain) (index : nat) : option ChainEvent := stored_events st !! index.

(** [read_events_range]: reading stops after [to] events. *)
Definition read_events_range (st : AuditChain) (from to : nat) : list ChainEvent :=
  let events := take to (stored_events st) in
  if (length events <=? from)%nat then [] else drop from events.

Definition verify_range (st : AuditChain) (from to : nat) : bool :=
  let events := read_events_range st from (to + 1) in
  if (length events <? 2)%nat then true else verify_chain events.

(** Startup: the last hash and the total are taken from the files. *)
Definition load_segments (st : AuditChain) : AuditChain * nat :=
  let events := stored_events st in
  match last events with
  | Some e =>
      (mkChain (ch_config st) (ce_hash e) (ch_event_count st) (ch_segment_count st)
         (N.of_nat (length events)) (ch_closed st) (ch_files st), length events)
  | None => (st, 0)
  end.

Definition write_lines (files : gmap str Lines) (name : str) (events : list ChainEvent)
    : gmap str Lines :=
  <[name := default [] (files !! name) ++ (Some <$> events)]> files.

(** [load_chain] on the parsed export; [open_ok] is the answer of opening the
    storage file for appending. *)
Definition load_chain (st : AuditChain) (parsed : result (list ChainEvent) str)
    (open_ok : result unit str) : AuditChain * result nat str :=
  match parsed with
  | Err e => (st, Err e)
  | Ok events =>
      if negb (verify_chain events) then (st, Err (lit "chain verification failed"))
      else
        let last_hash := match last events with Some e => ce_hash e | None => ch_last_hash st end in
        let st := mkChain (ch_config st) last_hash (ch_event_count st) (ch_segment_count st)
                    (add64 (ch_total_events st) (N.of_nat (length events))) (ch_closed st) (ch_files st) in
        match open_ok with
        | Err e => (st, Err e)
        | Ok _ =>
            (mkChain (ch_config st) (ch_last_hash st) (ch_event_count st) (ch_segment_count st)
               (ch_total_events st) (ch_closed st)
               (write_lines (ch_files st) (main_file (ch_config st)) events),
             Ok (length events))
        end
  end.

(** [export_chain] writes the stored events; the value written. *)
Definition export_chain (st : AuditChain) : list ChainEvent := stored_events st.

Definition chain_close (st : AuditChain) : AuditChain :=
  mkChain (ch_config st) (ch_last_hash st) (ch_event_count st) (ch_segment_count st)
    (ch_total_events st) true (ch_files st).

(** A sequence of appends and the events they return. *)
Fixpoint append_run (st : AuditChain) (args : list AppendArgs) : AuditChain * list ChainEvent :=
  match args with
  | [] => (st, [])
  | a :: args =>
      match append_with_sign st a with
      | (st, Ok e) => let '(st, es) := append_run st args in (st, e :: es)
      | (st, Err _) => append_run st args
      end
  end.
End Operations.

(** ** Lemmas *)

Section Facts.
Context {SHA : Sha256}.

(** An event that continues the hash [h]. *)
Definition continues (h : str) (e : ChainEvent) : Prop :=
  ce_prev_hash e = h ∧ ce_hash e = event_hash e.

Lemma append_open st a :
  ch_closed st = false →
  ∃ st' e, append_with_sign st a = (st', Ok e) ∧ continues (ch_last_hash st) e ∧
    ch_last_hash st' = ce_hash e ∧ ch_closed st' = false ∧ ch_config st' = ch_config st.
Proof.
  intros Ho. unfold append_with_sign. rewrite Ho. do 2 eexists. split; [done|].
  split; [done|]. by case_match.
Qed.

Lemma verify_from_cons prev e es :
  verify_from prev (e :: es) = true ↔ continues (ce_hash prev) e ∧ verify_from e es = true.
Proof.
  cbn [verify_from]. rewrite !andb_true_iff, !bool_decide_eq_true. unfold continues. split.
  - by intros [[-> ->] ?].
  - by intros [[-> ->] ?].
Qed.

Lemma verify_from_app prev es es' :
  verify_from prev (es ++ es') = true ↔
  verify_from prev es = true ∧ verify_from (default prev (last es)) es' = true.
Proof.
  revert prev. induction es as [|e es IH]; intros prev; [by split; [|intros [_ ?]]|].
  rewrite <- app_comm_cons, !verify_from_cons, IH, last_cons.
  destruct (last es); simpl; tauto.
Qed.

Lemma append_run_spec st args prev :
  ch_closed st = false → ch_last_hash st = ce_hash prev →
  let '(st', es) := append_run st args in
  length es = length args ∧ verify_from prev es = true ∧ ch_closed st' = false ∧
  ch_last_hash st' = ce_hash (default prev (last es)).
Proof.
  revert st prev. induction args as [|a args IH]; intros st prev Ho Hl; [done|].
  cbn [append_run]. destruct (append_open st a Ho) as (st1 & e & -> & Hc & Hl1 & Ho1 & _).
  specialize (IH st1 e Ho1 Hl1). destruct (append_run st1 args) as [st' es].
  destruct IH as (Hlen & Hv & Ho' & Hl'). split_and!; [by f_equal/=| |done|].
  - apply verify_from_cons. by rewrite <- Hl.
  - rewrite Hl', last_cons. by destruct (last es).
Qed.

(** ** Properties *)

(** Also: appending keeps the chain valid: the events returned by any sequence of
    appends to an open chain verify, and extend any verified list that ends in
    the hash the chain remembers. *)
Theorem append_run_verifies st args old :
  ch_closed st = false → verify_chain old = true →
  (∀ e, last old = Some e → ch_last_hash st = ce_hash e) →
  let '(st', es) := append_run st args in
  length es = length args ∧ verify_chain (old ++ es) = true ∧
  (∀ e, last (old ++ es) = Some e → ch_last_hash st' = ce_hash e).
Proof.
  intros Ho Hv Hl. destruct old as [|e0 old].
  - destruct args as [|a args]; [done|]. cbn [append_run].
    destruct (append_open st a Ho) as (st1 & e & -> & _ & Hl1 & Ho1 & _).
    pose proof (append_run_spec st1 args e Ho1 Hl1) as IH.
    destruct (append_run st1 args) as [st' es]. destruct IH as (Hlen & Hvf & _ & Hl').
    split_and!; [by f_equal/=|done|]. intros e'. rewrite app_nil_l, last_cons. intros He.
    rewrite Hl'. by destruct (last es); simplify_eq/=.
  - assert (Hlast : last (e0 :: old) = Some (default e0 (last old)))
      by (rewrite last_cons; by destruct (last old)).
    pose proof (append_run_spec st args (default e0 (last old)) Ho (Hl _ Hlast)) as IH.
    destruct (append_run st args) as [st' es]. destruct IH as (Hlen & Hvf & _ & Hl').
    split_and!; [done| |].
    + cbn [verify_chain app]. by apply verify_from_app.
    + intros e'. rewrite last_app, Hl'. destruct (last es); simpl; [by intros [= ->]|].
      rewrite Hlast. by intros [= ->].
Qed.

Lemma chain_hash_inv p1 c1 p2 c2 :
  digest p1 → digest p2 →
  sha256_hex (as_bytes p1 ++ c1) = sha256_hex (as_bytes p2 ++ c2) →
  p1 = p2 ∧ c1 = c2 ∨ collision.
Proof.
  intros [Hl1 Ha1] [Hl2 Ha2] H. rewrite (as_bytes_ascii p1), (as_bytes_ascii p2) in H by done.
  destruct (decide (p1 ++ c1 = p2 ++ c2)) as [E|E]; [left|right].
  - apply app_inj_1 in E; [done|congruence].
  - by exists (p1 ++ c1), (p2 ++ c2).
Qed.

Definition covered_fields (e : ChainEvent) : list N :=
  covered (ce_timestamp e) (ce_operation e) (ce_tool_name e) (ce_user e) (ce_target e) (ce_decision e).

(** Two events agree on everything the chain protects. *)
Definition same_protected (e e' : ChainEvent) : Prop :=
  ce_prev_hash e = ce_prev_hash e' ∧ covered_fields e = covered_fields e' ∧ ce_hash e = ce_hash e'.

Lemma verify_from_binding prev prev' es es' :
  length es = length es' → digest (ce_hash prev) → digest (ce_hash prev') →
  verify_from prev es = true → verify_from prev' es' = true →
  ce_hash (default prev (last es)) = ce_hash (default prev' (last es')) →
  (ce_hash prev = ce_hash prev' ∧ Forall2 same_protected es es') ∨ collision.
Proof.
  revert prev prev' es'. induction es as [|e es IH]; intros prev prev' [|e' es'] Hlen Hd Hd' Hv Hv' Hl;
    try done; [by left|].
  injection Hlen as Hlen. rewrite verify_from_cons in Hv, Hv'.
  destruct Hv as [[Hp Hh] Hv], Hv' as [[Hp' Hh'] Hv'].
  assert (He : digest (ce_hash e)) by (rewrite Hh; apply digest_sha).
  assert (He' : digest (ce_hash e')) by (rewrite Hh'; apply digest_sha).
  rewrite !last_cons in Hl.
  destruct (IH e e' es' Hlen He He' Hv Hv') as [[Heq Hall]|?]; [| |by right].
  { destruct (last es), (last es'); exact Hl. }
  assert (Hprev : digest (ce_prev_hash e)) by (by rewrite Hp).
  assert (Hprev' : digest (ce_prev_hash e')) by (by rewrite Hp').
  assert (Hheq := Heq). rewrite Hh, Hh' in Heq. unfold event_hash, chain_hash in Heq.
  destruct (chain_hash_inv _ _ _ _ Hprev Hprev' Heq) as [[Hpe Hc]|?]; [left|by right].
  split; [congruence|]. by constructor.
Qed.

(** Also: the chain is tamper evident for what it covers: two verifying lists of
    the same length that end in the same hash agree, from the second event on,
    on previous hash, hash and the covered bytes of every event, or SHA-256 has
    a collision. *)
Theorem verify_chain_binding e0 e0' es es' :
  length es = length es' → digest (ce_hash e0) → digest (ce_hash e0') →
  verify_chain (e0 :: es) = true → verify_chain (e0' :: es') = true →
  ce_hash <$> last (e0 :: es) = ce_hash <$> last (e0' :: es') →
  (ce_hash e0 = ce_hash e0' ∧ Forall2 same_protected es es') ∨ collision.
Proof.
  intros Hlen Hd Hd' Hv Hv' Hl. apply verify_from_binding; try done.
  rewrite !last_cons in Hl. destruct (last es), (last es'); by injection Hl.
Qed.

Lemma verify_from_same prev prev' es es' :
  ce_hash prev = ce_hash prev' → Forall2 same_protected es es' →
  verify_from prev es = verify_from prev' es'.
Proof.
  intros Hp Hs. revert prev prev' Hp. induction Hs as [|e e' es es' (Hpe & Hc & Hh) _ IH]; intros prev prev' Hp; [done|].
  cbn [verify_from]. rewrite Hpe, Hh, Hp, (IH e e' Hh). do 2 f_equal.
  unfold event_hash, chain_hash. unfold covered_fields in Hc. by rewrite Hpe, Hc.
Qed.

(** Observed: what the chain does not cover: the verifier answers the same whatever
    the first event says apart from its hash, and whatever id, source, reason and
    signature the other events carry; and, the covered fields being
    concatenated without separators, a character can move from one field to the
    next. *)
Theorem verify_chain_blind e0 e0' es es' :
  ce_hash e0 = ce_hash e0' → Forall2 same_protected es es' →
  verify_chain (e0 :: es) = verify_chain (e0' :: es') ∧
  (∀ id ts op tool user c source target dec reason prev h sign id' source' reason' sign',
     same_protected
       (mkChainEvent id ts op tool (c :: user) source target dec reason h prev sign)
       (mkChainEvent id' ts op (tool ++ [c]) user source' target dec reason' h prev sign')).
Proof.
  intros Hh Hs. split; [by apply verify_from_same|].
  intros. unfold same_protected, covered_fields, covered. simpl. split_and!; [done| |done].
  unfold as_bytes. rewrite !fmap_app, !join_app, fmap_cons. simpl. by rewrite <- !app_assoc.
Qed.
End Facts.

(** ** Restart *)

(** Two events, one per segment; then a new process loads the files and appends
    a third. *)
Definition restart_events `{!Sha256} (config : AuditChainConfig) (a1 a2 a3 : AppendArgs)
    : AuditChain :=
  let st1 := fst (append_with_sign (chain_new config ∅) a1) in
  let st2 := fst (append_with_sign st1 a2) in
  let st3 := fst (load_segments (chain_new config (ch_files st2))) in
  fst (append_with_sign st3 a3).

Definition demo_config : AuditChainConfig := mkChainConfig (lit "audit_chain") (lit ".jsonl") 1.

(** The event an append to this state records. *)
Definition event_of `{!Sha256} (prev_hash : str) (a : AppendArgs) : ChainEvent :=
  mkChainEvent (ap_id a) (ap_timestamp a) (ap_operation a) (ap_tool_name a) (ap_user a)
    (ap_source a) (ap_target a) (ap_decision a) (ap_reason a)
    (chain_hash prev_hash (ap_timestamp a) (ap_operation a) (ap_tool_name a) (ap_user a)
       (ap_target a) (ap_decision a)) prev_hash (ap_sign a).

(** One append with the event as a value. *)
Lemma append_eq `{!Sha256} config h count seg total files a :
  ap_write_ok a = true → (cc_max_events_per_segment config <=? add64 count 1)%N = true →
  fst (append_with_sign (mkChain config h count seg total false files) a)
  = let e := event_of h a in
    mkChain config (ce_hash e) 0 (add64 seg 1) (add64 total 1) false
      (write_line files (segment_file config seg) e).
Proof. intros Hw Hm. unfold append_with_sign. simpl. by rewrite Hw, Hm. Qed.

(** The order of the files depends on their names only. *)
Lemma restart_order (e1 e2 e3 : ChainEvent) h n c s t :
  let files := write_line (write_line (write_line ∅ (segment_file demo_config 1) e1)
                 (segment_file demo_config (add64 1 1)) e2) (segment_file demo_config 1) e3 in
  stored_events (mkChain demo_config h n c s t files) = [e1; e3; e2].
Proof. vm_compute. reflexivity. Qed.

Lemma restart_load (e1 e2 : ChainEvent) :
  load_segments (chain_new demo_config (write_line (write_line ∅ (segment_file demo_config 1) e1)
                 (segment_file demo_config (add64 1 1)) e2))
  = (mkChain demo_config (ce_hash e2) 0 1 2 false
       (write_line (write_line ∅ (segment_file demo_config 1) e1)
                 (segment_file demo_config (add64 1 1)) e2), 2).
Proof. vm_compute. reflexivity. Qed.

(** Observed: loading at startup restores the last hash but not the segment number, so
    after a restart of a chain with more than one segment the next event goes to
    the main file, before the events it follows: the stored order is first,
    third, second, and an untouched chain fails its own verification. *)
Theorem restart_breaks_order `{!Sha256} a1 a2 a3 :
  ap_write_ok a1 = true → ap_write_ok a2 = true → ap_write_ok a3 = true →
  let e1 := event_of zero_hash a1 in
  let e2 := event_of (ce_hash e1) a2 in
  let e3 := event_of (ce_hash e2) a3 in
  let st := restart_events demo_config a1 a2 a3 in
  verify_chain [e1; e2; e3] = true ∧ stored_events st = [e1; e3; e2] ∧
  (ce_hash e1 ≠ ce_hash e2 → verify_range st 0 2 = false).
Proof.
  intros H1 H2 H3. cbv zeta.
  assert (Hs : stored_events (restart_events demo_config a1 a2 a3)
    = [event_of zero_hash a1; event_of (ce_hash (event_of (ce_hash (event_of zero_hash a1)) a2)) a3;
       event_of (ce_hash (event_of zero_hash a1)) a2]).
  { unfold restart_events, chain_new at 2. cbv zeta.
    rewrite (append_eq _ _ _ _ _ _ a1), (append_eq _ _ _ _ _ _ a2) by (done || reflexivity).
    cbn [ch_files]. rewrite restart_load. cbn [fst].
    rewrite (append_eq _ _ _ _ _ _ a3) by (done || reflexivity). apply restart_order. }
  split_and!; [|exact Hs|].
  - cbn [verify_chain verify_from]. unfold event_hash, event_of. simpl.
    by rewrite !bool_decide_eq_true_2.
  - intros Hne. unfold verify_range, read_events_range. rewrite Hs. simpl.
    unfold event_of at 1 2. simpl. rewrite bool_decide_eq_false_2; [done|]. by intros E; apply Hne.
Qed.

(** Observed: importing an export does not replace the chain: the imported events are
    appended to the main file behind those already there. *)
Theorem load_chain_appends `{!Sha256} st events :
  verify_chain events = true →
  let '(st', r) := load_chain st (Ok events) (Ok tt) in
  r = Ok (length events) ∧
  file_events st' (main_file (ch_config st))
  = file_events st (main_file (ch_config st)) ++ events.
Proof.
  intros Hv. unfold load_chain. rewrite Hv. simpl. split; [done|].
  unfold file_events, write_lines. simpl. rewrite lookup_insert_eq. simpl.
  rewrite omap_app. f_equal. induction events as [|e es IH]; [done|]. simpl. f_equal.
  apply IH. cbn [verify_chain] in *. destruct es; [done|].
  apply verify_from_cons in Hv. apply Hv.
Qed.

(** ** Witnesses *)

Definition demo_append (n : N) : AppendArgs :=
  mkAppend (lit "exec") (lit "shell") (lit "u") (lit "cli") [n] (lit "allowed") [] None (lit "t") (lit "i") true.

Lemma append_run_verifies_witness :
  @verify_chain toy_sha (snd (@append_run toy_sha (chain_new demo_config ∅) [demo_append 97; demo_append 98])) = true.
Proof.
  pose proof (@append_run_verifies toy_sha (chain_new demo_config ∅) [demo_append 97; demo_append 98]
    [] eq_refl eq_refl ltac:(discriminate)) as H.
  destruct (@append_run toy_sha _ _) as [st1 es]. apply H.
Defined.

Definition demo_e1 : ChainEvent := @event_of toy_sha zero_hash (demo_append 97).
Definition demo_e2 : ChainEvent := @event_of toy_sha (ce_hash demo_e1) (demo_append 98).

Lemma verify_chain_binding_witness :
  @verify_chain toy_sha [demo_e1; demo_e2] = true ∧
  ((ce_hash demo_e1 = ce_hash demo_e1 ∧ Forall2 same_protected [demo_e2] [demo_e2]) ∨ @collision toy_sha).
Proof.
  split; [vm_compute; reflexivity|].
  apply (@verify_chain_binding toy_sha demo_e1 demo_e1 [demo_e2] [demo_e2]);
    [reflexivity|apply (@digest_sha toy_sha)|apply (@digest_sha toy_sha)|vm_compute; reflexivity
    |vm_compute; reflexivity|reflexivity].
Defined.

Lemma verify_chain_blind_witness :
  @verify_chain toy_sha
    [mkChainEvent [] [] [] [] [] [] (lit "forged") [] [] (ce_hash demo_e1) [] None; demo_e2] = true.
Proof.
  etransitivity; [apply (@verify_chain_blind toy_sha _ demo_e1 [demo_e2] [demo_e2] eq_refl);
    repeat constructor|vm_compute; reflexivity].
Defined.

Lemma restart_breaks_order_witness :
  length (@stored_events (@restart_events toy_sha demo_config (demo_append 97) (demo_append 98) (demo_append 99))) = 3.
Proof.
  rewrite (proj1 (proj2 (@restart_breaks_order toy_sha (demo_append 97) (demo_append 98) (demo_append 99)
    eq_refl eq_refl eq_refl))).
  reflexivity.
Defined.

Lemma load_chain_appends_witness :
  file_events (fst (@load_chain toy_sha (chain_new demo_config {[ lit "audit_chain.jsonl" := [Some demo_e1] ]})
    (Ok [demo_e1; demo_e2]) (Ok tt))) (lit "audit_chain.jsonl") = [demo_e1; demo_e1; demo_e2].
Proof.
  pose proof (@load_chain_appends toy_sha
    (chain_new demo_config {[ lit "audit_chain.jsonl" := [Some demo_e1] ]}) [demo_e1; demo_e2]
    ltac:(vm_compute; reflexivity)) as H.
  destruct (@load_chain toy_sha _ _ _) as [st1 r]. destruct H as [_ H]. exact H.
Defined.
