(* ===== verification/Ssrf.v ===== *)
(** * Server-side request forgery guard (nemesis-security/src/resolver.rs, ssrf.rs)

    Classification of addresses, URL checks, and the guard with its block list
    and its host allow list.  The [url] and [ipnet] crates, the parser and the
    printer of addresses and DNS are the operations of the class [Net]. *)
From S2P Require Import Prelude RustStr.
Local Open Scope nb_scope.

(** ** Addresses *)

Inductive IpAddr :=
| V4 (a b c d : N)
| V6 (segments : list N).

#[export] Instance IpAddr_eq_dec : EqDecision IpAddr.
Proof. solve_decision. Defined.

(** Octets below 256; eight segments below 65536. *)
Definition ip_ok (ip : IpAddr) : bool :=
  match ip with
  | V4 a b c d => forallb (λ x, (x <? 256)%N) [a; b; c; d]
  | V6 s => (length s =? 8)%nat && forallb (λ x, (x <? 65536)%N) s
  end.

(** Segment [i] of an address. *)
Definition seg (s : list N) (i : nat) : N := default 0%N (s !! i).

(** ** Classification (resolver.rs) *)

Definition is_private_ipv4 (a b c d : N) : bool :=
  (N.eqb a 10)
  || (N.eqb a 172 && (16 <=? b)%N && (b <=? 31)%N)
  || (N.eqb a 192 && N.eqb b 168)
  || (N.eqb a 192 && N.eqb b 0 && N.eqb c 2)
  || (N.eqb a 198 && N.eqb b 51 && N.eqb c 100)
  || (N.eqb a 203 && N.eqb b 0 && N.eqb c 113)
  || (N.eqb a 100 && (64 <=? b)%N && (b <=? 127)%N)
  || (N.eqb a 192 && N.eqb b 0 && N.eqb c 0)
  || (N.eqb a 192 && N.eqb b 88 && N.eqb c 99)
  || (N.eqb a 198 && (N.eqb b 18 || N.eqb b 19)).

Definition is_private_ipv6 (s : list N) : bool :=
  N.eqb (N.land (seg s 0) 65024) 64512
  || (N.eqb (seg s 0) 100 && N.eqb (seg s 1) 65435).

Definition is_private_ip (ip : IpAddr) : bool :=
  match ip with
  | V4 a b c d => is_private_ipv4 a b c d
  | V6 s => is_private_ipv6 s
  end.

(** [IpAddr::is_loopback] of the standard library. *)
Definition is_loopback_ip (ip : IpAddr) : bool :=
  match ip with
  | V4 a _ _ _ => N.eqb a 127
  | V6 s => s =? [0; 0; 0; 0; 0; 0; 0; 1]%N
  end.

Definition is_metadata_ip (ip : IpAddr) : bool :=
  match ip with
  | V4 a b c d => N.eqb a 169 && N.eqb b 254 && N.eqb c 169 && N.eqb d 254
  | V6 s => N.eqb (seg s 0) 64768 && N.eqb (seg s 1) 3778
            && forallb (N.eqb 0) (take 5 (drop 2 s)) && N.eqb (seg s 7) 596
  end.

Definition is_link_local_ip (ip : IpAddr) : bool :=
  match ip with
  | V4 a b _ _ => N.eqb a 169 && N.eqb b 254
  | V6 s => N.eqb (N.land (seg s 0) 65472) 65152
  end.

(** [IpAddr::is_unspecified] of the standard library. *)
Definition is_unspecified (ip : IpAddr) : bool :=
  match ip with
  | V4 a b c d => N.eqb a 0 && N.eqb b 0 && N.eqb c 0 && N.eqb d 0
  | V6 s => s =? replicate 8 0%N
  end.

Definition is_reserved_ip (ip : IpAddr) : bool :=
  if is_unspecified ip then true
  else match ip with
  | V4 a b c d =>
      N.eqb a 0 || (224 <=? a)%N
      || (N.eqb a 255 && N.eqb b 255 && N.eqb c 255 && N.eqb d 255)
  | V6 s => N.eqb (N.land (seg s 0) 65280) 65280
  end.

(** ** External operations *)

(** What the [url] crate reports about a parsed URL. *)
Record UrlView := mkUrlView {
  uv_scheme : str;
  uv_host : option str;
  uv_username : str;
  uv_password : option str;
  uv_port : option N;
  uv_path : str;
}.

Class Net := {
  url_parse : str → result UrlView str;
  parse_ip : str → option IpAddr;
  show_ip : IpAddr → str;
  to_socket_addrs : str → result (list IpAddr) str;
  IpNet : Type;
  ipnet_from_str : str → result IpNet str;
  ipnet_contains : IpNet → IpAddr → bool;
  ipnet_show : IpNet → str;
  parse_ip_ok : ∀ s ip, parse_ip s = Some ip → ip_ok ip = true;
}.

(** ** URLs (resolver.rs) *)

Inductive ResolverError :=
| EmptyUrl
| ParseError (e : str)
| NoHost
| UnsupportedScheme (s : str)
| EmbeddedCredentials
| ControlChars
| InvalidHost.

Definition show_resolver_error (e : ResolverError) : str :=
  match e with
  | EmptyUrl => lit "empty URL"
  | ParseError e => lit "failed to parse URL: " ++ e
  | NoHost => lit "URL has no host"
  | UnsupportedScheme s => lit "unsupported scheme: " ++ s
  | EmbeddedCredentials => lit "URLs with embedded credentials are not allowed"
  | ControlChars => lit "hostname contains control characters"
  | InvalidHost => lit "invalid hostname"
  end.

Record ParsedUrl := mkParsed {
  pu_scheme : str;
  pu_host : str;
  pu_port : option N;
  pu_path : str;
}.

Definition contains_control_chars (s : str) : bool :=
  existsb (λ c, (c <? 32)%N || N.eqb c 127) s.

Section Guard.
Context {UC : Unicode} {NET : Net}.

(** The port is a [u16] already, so its re-parse cannot fail. *)
Definition parse_url (raw_url : str) : result ParsedUrl ResolverError :=
  match raw_url with
  | [] => Err EmptyUrl
  | _ =>
      let to_parse := if contains (lit "://") raw_url then raw_url else lit "http://" ++ raw_url in
      match url_parse to_parse with
      | Err e => Err (ParseError e)
      | Ok parsed =>
          let host := default [] (uv_host parsed) in
          if host =? [] then Err NoHost
          else
            let scheme := to_lowercase (uv_scheme parsed) in
            if (scheme <>? lit "http") && (scheme <>? lit "https") then Err (UnsupportedScheme scheme)
            else if (uv_username parsed <>? []) || bool_decide (is_Some (uv_password parsed))
            then Err EmbeddedCredentials
            else if contains_control_chars host then Err ControlChars
            else if contains_char (ch "@") host || (host =? lit "[") || (host =? lit "]")
                    || (host =? lit "[]") then Err InvalidHost
            else Ok (mkParsed scheme host (uv_port parsed) (uv_path parsed))
      end
  end.

(** ** The guard (ssrf.rs) *)

Inductive SsrfError :=
| PrivateIp (m : str)
| Localhost (m : str)
| MetadataEndpoint (m : str)
| LinkLocal (m : str)
| ReservedIp (m : str)
| BlockedCidr (ip cidr : str)
| InvalidUrl (m : str)
| BlockedScheme (m : str)
| InvalidIp (m : str)
| DnsFailed (host reason : str)
| NoAddresses (host : str)
| ResolvesToBlocked (host ip reason : str)
| InvalidCidr (m : str).

Definition show_ssrf_error (e : SsrfError) : str :=
  match e with
  | PrivateIp m => lit "private IP address blocked: " ++ m
  | Localhost m => lit "localhost access blocked: " ++ m
  | MetadataEndpoint m => lit "metadata endpoint blocked: " ++ m
  | LinkLocal m => lit "link-local address blocked: " ++ m
  | ReservedIp m => lit "reserved IP address blocked: " ++ m
  | BlockedCidr ip cidr => lit "blocked CIDR: IP " ++ ip ++ lit " is in " ++ cidr
  | InvalidUrl m => lit "invalid URL: " ++ m
  | BlockedScheme m => lit "blocked scheme: " ++ m
  | InvalidIp m => lit "invalid IP address: " ++ m
  | DnsFailed host reason => lit "DNS resolution failed for " ++ host ++ lit ": " ++ reason
  | NoAddresses host => lit "no IP addresses found for " ++ host
  | ResolvesToBlocked host ip reason =>
      lit "host " ++ host ++ lit " resolves to blocked IP " ++ ip ++ lit ": " ++ reason
  | InvalidCidr m => lit "invalid CIDR: " ++ m
  end.

Record SsrfConfig := mkSsrfConfig {
  sc_enabled : bool;
  sc_blocked_cidrs : list str;
  sc_allowed_hosts : list str;
  sc_block_metadata : bool;
  sc_block_localhost : bool;
  sc_block_private_ips : bool;
  sc_max_redirects : nat;
}.

Definition ssrf_config_default : SsrfConfig := mkSsrfConfig true [] [] true true true 5.

Record Guard := mkGuard {
  gd_config : SsrfConfig;
  gd_blocked_nets : list IpNet;
  gd_allowed_set : gset str;
}.

Definition parse_cidr (cidr : str) : result IpNet SsrfError :=
  match ipnet_from_str cidr with
  | Ok net => Ok net
  | Err e => Err (InvalidCidr (cidr ++ lit ": " ++ e))
  end.

Fixpoint parse_cidrs (cidrs : list str) : result (list IpNet) SsrfError :=
  match cidrs with
  | [] => Ok []
  | cidr :: cidrs => net <-? parse_cidr cidr; nets <-? parse_cidrs cidrs; Ok (net :: nets)
  end.

Definition guard_new (config : SsrfConfig) : result Guard SsrfError :=
  blocked_nets <-? parse_cidrs (sc_blocked_cidrs config);
  Ok (mkGuard config blocked_nets (list_to_set (to_lowercase <$> sc_allowed_hosts config))).

Definition add_blocked_cidr (g : Guard) (cidr : str) : Guard * result unit SsrfError :=
  match parse_cidr cidr with
  | Ok net => (mkGuard (gd_config g) (gd_blocked_nets g ++ [net]) (gd_allowed_set g), Ok tt)
  | Err e => (g, Err e)
  end.

Definition add_allowed_host (g : Guard) (host : str) : Guard :=
  mkGuard (gd_config g) (gd_blocked_nets g) ({[to_lowercase host]} ∪ gd_allowed_set g).

Definition remove_allowed_host (g : Guard) (host : str) : Guard :=
  mkGuard (gd_config g) (gd_blocked_nets g) (gd_allowed_set g ∖ {[to_lowercase host]}).

Definition check_ip_locked (g : Guard) (ip : IpAddr) : result unit SsrfError :=
  let c := gd_config g in
  if sc_block_localhost c && is_loopback_ip ip then
    Err (Localhost (lit "loopback IP " ++ show_ip ip ++ lit " is blocked"))
  else if sc_block_metadata c && is_metadata_ip ip then
    Err (MetadataEndpoint (lit "cloud metadata IP " ++ show_ip ip ++ lit " is blocked"))
  else if sc_block_private_ips c && is_private_ip ip then
    Err (PrivateIp (lit "private IP " ++ show_ip ip ++ lit " is blocked"))
  else if is_link_local_ip ip then
    Err (LinkLocal (lit "link-local IP " ++ show_ip ip ++ lit " is blocked"))
  else if is_reserved_ip ip then
    Err (ReservedIp (lit "reserved IP " ++ show_ip ip ++ lit " is blocked"))
  else match List.find (λ net, ipnet_contains net ip) (gd_blocked_nets g) with
  | Some net => Err (BlockedCidr (show_ip ip) (ipnet_show net))
  | None => Ok tt
  end.

(** Brackets are removed when both are there; on the one-character host [[] the
    slice [1..0] panics, which [parse_url] excludes. *)
Definition strip_ipv6_brackets (host : str) : str :=
  if starts_with (lit "[") host && ends_with (lit "]") host
  then take (length host - 2) (drop 1 host) else host.

Definition resolve_host_dns (host : str) : result (list IpAddr) SsrfError :=
  let clean := strip_ipv6_brackets host in
  match parse_ip clean with
  | Some ip => Ok [ip]
  | None =>
      match to_socket_addrs (clean ++ lit ":0") with
      | Err e => Err (DnsFailed clean e)
      | Ok [] => Err (NoAddresses clean)
      | Ok addrs => Ok addrs
      end
  end.

(** The first address that is blocked decides. *)
Fixpoint check_all (g : Guard) (host : str) (ips : list IpAddr) : result unit SsrfError :=
  match ips with
  | [] => Ok tt
  | ip :: ips =>
      match check_ip_locked g ip with
      | Err e => Err (ResolvesToBlocked host (show_ip ip) (show_ssrf_error e))
      | Ok _ => check_all g host ips
      end
  end.

Definition resolve_and_validate_collect_locked (g : Guard) (host : str)
    : result (list IpAddr) SsrfError :=
  let host_lower := to_lowercase host in
  if sc_block_localhost (gd_config g)
     && ((host_lower =? lit "localhost") || ends_with (lit ".localhost") host_lower
         || (host_lower =? lit "localhost.localdomain")) then
    Err (Localhost (lit "localhost hostname " ++ host ++ lit " is blocked"))
  else match parse_ip host_lower with
  | Some ip => _ <-? check_ip_locked g ip; Ok [ip]
  | None =>
      let clean_host := strip_ipv6_brackets host in
      ips <-? resolve_host_dns clean_host;
      if ips =? [] then Err (NoAddresses host)
      else _ <-? check_all g host ips; Ok ips
  end.

Definition resolve_and_validate_locked (g : Guard) (host : str) : result unit SsrfError :=
  _ <-? resolve_and_validate_collect_locked g host; Ok tt.

Definition parse_or_invalid (url : str) : result ParsedUrl SsrfError :=
  match parse_url url with
  | Ok p => Ok p
  | Err e => Err (InvalidUrl (show_resolver_error e))
  end.

Definition on_allow_list (g : Guard) (host : str) : bool :=
  bool_decide (to_lowercase host ∈ gd_allowed_set g).

Definition validate_url (g : Guard) (url : str) : result unit SsrfError :=
  if negb (sc_enabled (gd_config g)) then Ok tt
  else
    parsed <-? parse_or_invalid url;
    if on_allow_list g (pu_host parsed) then Ok tt
    else
      let scheme := to_lowercase (pu_scheme parsed) in
      if (scheme <>? lit "http") && (scheme <>? lit "https") then Err (BlockedScheme scheme)
      else resolve_and_validate_locked g (pu_host parsed).

Definition resolve_and_validate (g : Guard) (raw_url : str) : result unit SsrfError :=
  if negb (sc_enabled (gd_config g)) then Ok tt
  else
    parsed <-? parse_or_invalid raw_url;
    if on_allow_list g (pu_host parsed) then Ok tt
    else resolve_and_validate_locked g (pu_host parsed).

Definition resolve_and_validate_collect (g : Guard) (raw_url : str) : result (list IpAddr) SsrfError :=
  if negb (sc_enabled (gd_config g)) then Ok []
  else
    parsed <-? parse_or_invalid raw_url;
    if on_allow_list g (pu_host parsed) then Ok []
    else
      let scheme := to_lowercase (pu_scheme parsed) in
      if (scheme <>? lit "http") && (scheme <>? lit "https") then Err (BlockedScheme scheme)
      else resolve_and_validate_collect_locked g (pu_host parsed).

Definition check_ip (g : Guard) (ip_str : str) : result unit SsrfError :=
  if negb (sc_enabled (gd_config g)) then Ok tt
  else match parse_ip ip_str with
  | None => Err (InvalidIp ip_str)
  | Some ip => check_ip_locked g ip
  end.
End Guard.

(** ** Address blocks *)

(** The number of an address, and membership in a block of [bits - len] free
    low bits. *)
Definition v4_num (a b c d : N) : N := (a * 2 ^ 24 + b * 2 ^ 16 + c * 2 ^ 8 + d)%N.
Definition v6_num (s : list N) : N := foldl (λ n x, n * 2 ^ 16 + x)%N 0%N s.

Definition in_block (bits base len n : N) : bool :=
  N.eqb (n / 2 ^ (bits - len)) (base / 2 ^ (bits - len)).

(** The blocked IPv4 blocks, as CIDRs. *)
Definition BLOCKED_V4 : list (N * N) :=
  [ (v4_num 127 0 0 0, 8); (v4_num 169 254 0 0, 16);
    (v4_num 10 0 0 0, 8); (v4_num 172 16 0 0, 12); (v4_num 192 168 0 0, 16);
    (v4_num 192 0 2 0, 24); (v4_num 198 51 100 0, 24); (v4_num 203 0 113 0, 24);
    (v4_num 100 64 0 0, 10); (v4_num 192 0 0 0, 24); (v4_num 192 88 99 0, 24);
    (v4_num 198 18 0 0, 15); (v4_num 0 0 0 0, 8); (v4_num 224 0 0 0, 3) ]%N.

(** The blocked IPv6 blocks. *)
Definition BLOCKED_V6 : list (N * N) :=
  [ (1, 128); (0, 128); (64512 * 2 ^ 112, 7); (100 * 2 ^ 112 + 65435 * 2 ^ 96, 32);
    (65152 * 2 ^ 112, 10); (65280 * 2 ^ 112, 8) ]%N.

Definition blocked (ip : IpAddr) : bool :=
  match ip with
  | V4 a b c d => existsb (λ '(base, len), in_block 32 base len (v4_num a b c d)) BLOCKED_V4
  | V6 s => existsb (λ '(base, len), in_block 128 base len (v6_num s)) BLOCKED_V6
  end.

(** ** Lemmas *)

Lemma div_block m k q r : (r < 2 ^ m → (q * 2 ^ m + r) / 2 ^ (m + k) = q / 2 ^ k)%N.
Proof.
  intros H. rewrite N.pow_add_r, <- N.Div0.div_div. f_equal.
  rewrite N.div_add_l by (apply N.pow_nonzero; done). rewrite (N.div_small r) by done. lia.
Qed.

Ltac octets :=
  repeat match goal with H : _ && _ = true |- _ => apply andb_true_iff in H as [? ?] end;
  repeat match goal with H : (_ <? _)%N = true |- _ => apply N.ltb_lt in H end.

Lemma v4_div8 a b c d : (b < 256 → c < 256 → d < 256 → v4_num a b c d / 2 ^ 24 = a)%N.
Proof.
  intros. unfold v4_num.
  replace (a * 2 ^ 24 + b * 2 ^ 16 + c * 2 ^ 8 + d)%N with (a * 2 ^ 24 + (b * 2 ^ 16 + c * 2 ^ 8 + d))%N by lia.
  pose proof (div_block 24 0 a (b * 2 ^ 16 + c * 2 ^ 8 + d)) as Hd.
  change (24 + 0)%N with 24%N in Hd. rewrite Hd by lia. apply N.div_1_r.
Qed.

Lemma v4_div16 a b c d : (c < 256 → d < 256 → v4_num a b c d / 2 ^ 16 = a * 256 + b)%N.
Proof.
  intros. unfold v4_num.
  replace (a * 2 ^ 24 + b * 2 ^ 16 + c * 2 ^ 8 + d)%N with ((a * 256 + b) * 2 ^ 16 + (c * 2 ^ 8 + d))%N by lia.
  pose proof (div_block 16 0 (a * 256 + b) (c * 2 ^ 8 + d)) as Hd.
  change (16 + 0)%N with 16%N in Hd. rewrite Hd by lia. apply N.div_1_r.
Qed.

Lemma v4_div24 a b c d : (d < 256 → v4_num a b c d / 2 ^ 8 = a * 65536 + b * 256 + c)%N.
Proof.
  intros. unfold v4_num.
  replace (a * 2 ^ 24 + b * 2 ^ 16 + c * 2 ^ 8 + d)%N with ((a * 65536 + b * 256 + c) * 2 ^ 8 + d)%N by lia.
  pose proof (div_block 8 0 (a * 65536 + b * 256 + c) d) as Hd.
  change (8 + 0)%N with 8%N in Hd. rewrite Hd by lia. apply N.div_1_r.
Qed.

(** Prefix lengths that do not end at an octet. *)
Lemma v4_div_pow m k a b c d :
  (v4_num a b c d / 2 ^ (m + k) = v4_num a b c d / 2 ^ m / 2 ^ k)%N.
Proof. by rewrite N.pow_add_r, N.Div0.div_div. Qed.

(** Name quotient and remainder. *)
Ltac divmod x m :=
  let H := fresh in pose proof (N.Div0.div_mod x m) as H;
  let H' := fresh in pose proof (N.mod_lt x m ltac:(done)) as H';
  generalize dependent (x / m)%N; generalize dependent (x mod m)%N; intros.
Ltac block_eq := apply eq_true_iff_eq; rewrite ?andb_true_iff, ?orb_true_iff, ?N.eqb_eq, ?N.leb_le.

(** Each block on octets. *)
Lemma blk16 a b x y : (b < 256 → y < 256 →
  N.eqb (a * 256 + b) (x * 256 + y) = N.eqb a x && N.eqb b y)%N.
Proof. intros. block_eq. lia. Qed.
Lemma blk24 a b c x y z : (b < 256 → c < 256 → y < 256 → z < 256 →
  N.eqb (a * 65536 + b * 256 + c) (x * 65536 + y * 256 + z) = N.eqb a x && N.eqb b y && N.eqb c z)%N.
Proof. intros. block_eq. lia. Qed.
Lemma blk12 a b : (b < 256 →
  N.eqb ((a * 256 + b) / 2 ^ 4) ((172 * 256 + 16) / 2 ^ 4) = N.eqb a 172 && (16 <=? b) && (b <=? 31))%N.
Proof. intros. change ((172 * 256 + 16) / 2 ^ 4)%N with 2753%N. change (2 ^ 4)%N with 16%N.
  block_eq. divmod (a * 256 + b)%N 16%N. split; intros; lia. Qed.
Lemma blk10 a b : (b < 256 →
  N.eqb ((a * 256 + b) / 2 ^ 6) ((100 * 256 + 64) / 2 ^ 6) = N.eqb a 100 && (64 <=? b) && (b <=? 127))%N.
Proof. intros. change ((100 * 256 + 64) / 2 ^ 6)%N with 401%N. change (2 ^ 6)%N with 64%N.
  block_eq. divmod (a * 256 + b)%N 64%N. split; intros; lia. Qed.
Lemma blk15 a b : (b < 256 →
  N.eqb ((a * 256 + b) / 2 ^ 1) ((198 * 256 + 18) / 2 ^ 1) = N.eqb a 198 && (N.eqb b 18 || N.eqb b 19))%N.
Proof. intros. change ((198 * 256 + 18) / 2 ^ 1)%N with 25353%N. change (2 ^ 1)%N with 2%N.
  block_eq. divmod (a * 256 + b)%N 2%N. split; intros; lia. Qed.
Lemma blk3 a : (a < 256 → N.eqb (a / 2 ^ 5) (224 / 2 ^ 5) = (224 <=? a))%N.
Proof. intros. change (224 / 2 ^ 5)%N with 7%N. change (2 ^ 5)%N with 32%N.
  block_eq. divmod a 32%N. split; intros; lia. Qed.

Lemma reserved_v4 a b c d : is_reserved_ip (V4 a b c d) = N.eqb a 0 || (224 <=? a)%N.
Proof.
  unfold is_reserved_ip, is_unspecified. destruct (N.eqb_spec a 0) as [->|]; simpl; [by repeat case_match|].
  destruct (N.eqb_spec a 255) as [->|]; [done|]. by rewrite orb_false_r.
Qed.

Lemma in_block_v4 m len base n q :
  (32 - len = m → n / 2 ^ m = q → in_block 32 base len n = N.eqb q (base / 2 ^ m))%N.
Proof. intros <- <-. done. Qed.

Lemma v4_blocked_eq a b c d :
  ip_ok (V4 a b c d) = true →
  blocked (V4 a b c d)
  = is_loopback_ip (V4 a b c d) || is_private_ip (V4 a b c d) || is_link_local_ip (V4 a b c d)
    || is_reserved_ip (V4 a b c d).
Proof.
  intros H. cbn [ip_ok forallb] in H. octets. rewrite reserved_v4.
  assert (E8 : ∀ x, in_block 32 (v4_num x 0 0 0) 8 (v4_num a b c d) = N.eqb a x).
  { intros x. unfold in_block. change (32 - 8)%N with 24%N. by rewrite !v4_div8 by lia. }
  assert (E16 : ∀ x y, (y < 256)%N → in_block 32 (v4_num x y 0 0) 16 (v4_num a b c d) = N.eqb a x && N.eqb b y).
  { intros x y Hy. unfold in_block. change (32 - 16)%N with 16%N. rewrite !v4_div16 by lia. apply blk16; lia. }
  assert (E24 : ∀ x y z, (y < 256)%N → (z < 256)%N →
    in_block 32 (v4_num x y z 0) 24 (v4_num a b c d) = N.eqb a x && N.eqb b y && N.eqb c z).
  { intros x y z Hy Hz. unfold in_block. change (32 - 24)%N with 8%N. rewrite !v4_div24 by lia. apply blk24; lia. }
  assert (E12 : in_block 32 (v4_num 172 16 0 0) 12 (v4_num a b c d) = N.eqb a 172 && (16 <=? b)%N && (b <=? 31)%N).
  { unfold in_block. change (32 - 12)%N with (16 + 4)%N. rewrite !v4_div_pow, !v4_div16 by lia. apply blk12; lia. }
  assert (E10 : in_block 32 (v4_num 100 64 0 0) 10 (v4_num a b c d) = N.eqb a 100 && (64 <=? b)%N && (b <=? 127)%N).
  { unfold in_block. change (32 - 10)%N with (16 + 6)%N. rewrite !v4_div_pow, !v4_div16 by lia. apply blk10; lia. }
  assert (E15 : in_block 32 (v4_num 198 18 0 0) 15 (v4_num a b c d) = N.eqb a 198 && (N.eqb b 18 || N.eqb b 19)).
  { unfold in_block. change (32 - 15)%N with (16 + 1)%N. rewrite !v4_div_pow, !v4_div16 by lia. apply blk15; lia. }
  assert (E3 : in_block 32 (v4_num 224 0 0 0) 3 (v4_num a b c d) = (224 <=? a)%N).
  { unfold in_block. change (32 - 3)%N with (24 + 5)%N. rewrite !v4_div_pow, !v4_div8 by lia. apply blk3; lia. }
  unfold blocked, BLOCKED_V4. cbn [existsb].
  rewrite !E8, !E16, !E24, E12, E10, E15, E3 by lia.
  cbn [is_loopback_ip is_private_ip is_link_local_ip]. unfold is_private_ipv4.
  apply eq_true_iff_eq. rewrite orb_false_r, !orb_true_iff, !(andb_true_iff (N.eqb a 198)), !orb_true_iff. tauto.
Qed.

(** Masking the high bits of a number is dropping its low bits. *)
Lemma land_high m k x :
  (x < 2 ^ (m + k))%N → N.land x (N.shiftl (N.ones m) k) = N.shiftl (N.shiftr x k) k.
Proof.
  intros Hx. apply N.bits_inj. intros n. rewrite N.land_spec.
  destruct (N.lt_ge_cases n k) as [Hn|Hn].
  - by rewrite !N.shiftl_spec_low, andb_false_r by done.
  - rewrite !N.shiftl_spec_high, N.shiftr_spec by lia. replace (n - k + k)%N with n by lia.
    destruct (N.lt_ge_cases (n - k) m) as [Hm|Hm].
    + by rewrite N.ones_spec_low, andb_true_r.
    + rewrite N.ones_spec_high, andb_false_r by done. symmetry.
      destruct (N.eq_dec x 0) as [->|H0]; [apply N.bits_0|].
      apply N.bits_above_log2. apply N.log2_lt_pow2; [lia|].
      eapply N.lt_le_trans; [exact Hx|]. apply N.pow_le_mono_r; lia.
Qed.

Lemma land_block m k x q :
  (m + k = 16)%N → (x < 65536)%N →
  N.eqb (N.land x (N.shiftl (N.ones m) k)) (N.shiftl q k) = N.eqb (x / 2 ^ k) q.
Proof.
  intros Hmk Hx. rewrite land_high by (by rewrite Hmk). apply eq_true_iff_eq.
  rewrite !N.eqb_eq, <- N.shiftr_div_pow2, !N.shiftl_mul_pow2.
  rewrite N.mul_cancel_r by (apply N.pow_nonzero; done). done.
Qed.

Lemma mask_eq x : (x < 65536)%N →
  N.eqb (N.land x 65024) 64512 = N.eqb (x / 2 ^ 9) 126 ∧
  N.eqb (N.land x 65472) 65152 = N.eqb (x / 2 ^ 6) 1018 ∧
  N.eqb (N.land x 65280) 65280 = N.eqb (x / 2 ^ 8) 255.
Proof.
  intros H. split_and!; [apply (land_block 7 9 x 126)|apply (land_block 10 6 x 1018)
                         |apply (land_block 8 8 x 255)]; done.
Qed.

(** An address as its first two segments and the rest. *)
Lemma v6_split s0 s1 s2 s3 s4 s5 s6 s7 :
  (s1 < 65536 → s2 < 65536 → s3 < 65536 → s4 < 65536 → s5 < 65536 → s6 < 65536 → s7 < 65536 →
   v6_num [s0; s1; s2; s3; s4; s5; s6; s7] / 2 ^ 112 = s0 ∧
   v6_num [s0; s1; s2; s3; s4; s5; s6; s7] / 2 ^ 96 = s0 * 65536 + s1)%N.
Proof.
  intros. set (r := (v6_num [s2; s3; s4; s5; s6; s7])%N).
  assert (Hr : (r < 2 ^ 96)%N) by (unfold r, v6_num; cbn [foldl]; lia).
  assert (E : v6_num [s0; s1; s2; s3; s4; s5; s6; s7] = ((s0 * 65536 + s1) * 2 ^ 96 + r)%N)
    by (unfold r, v6_num; cbn [foldl]; lia).
  rewrite E. split.
  - replace ((s0 * 65536 + s1) * 2 ^ 96 + r)%N with (s0 * 2 ^ 112 + (s1 * 2 ^ 96 + r))%N by lia.
    pose proof (div_block 112 0 s0 (s1 * 2 ^ 96 + r)) as Hd. change (112 + 0)%N with 112%N in Hd.
    rewrite Hd by lia. apply N.div_1_r.
  - pose proof (div_block 96 0 (s0 * 65536 + s1) r) as Hd. change (96 + 0)%N with 96%N in Hd.
    rewrite Hd by lia. apply N.div_1_r.
Qed.

Lemma v6_small s0 s1 s2 s3 s4 s5 s6 s7 k :
  (s1 < 65536 → s2 < 65536 → s3 < 65536 → s4 < 65536 → s5 < 65536 → s6 < 65536 → s7 < 65536 →
   k < 65536 →
   N.eqb (v6_num [s0; s1; s2; s3; s4; s5; s6; s7]) k
   = bool_decide ([s0; s1; s2; s3; s4; s5; s6; s7] = [0; 0; 0; 0; 0; 0; 0; k]))%N.
Proof.
  intros. apply eq_true_iff_eq. rewrite N.eqb_eq, bool_decide_eq_true.
  unfold v6_num. cbn [foldl]. split.
  - intros E. repeat f_equal; lia.
  - intros [= -> -> -> -> -> -> -> ->]. lia.
Qed.

Lemma v6_segments s :
  ip_ok (V6 s) = true → ∃ s0 s1 s2 s3 s4 s5 s6 s7, s = [s0; s1; s2; s3; s4; s5; s6; s7] ∧
  (s0 < 65536 ∧ s1 < 65536 ∧ s2 < 65536 ∧ s3 < 65536 ∧ s4 < 65536 ∧ s5 < 65536 ∧ s6 < 65536 ∧ s7 < 65536)%N.
Proof.
  cbn [ip_ok]. rewrite andb_true_iff. intros [Hl Hf]. apply Nat.eqb_eq in Hl.
  do 8 (destruct s as [|? s]; [done|]). destruct s; [|done]. cbn [forallb] in Hf. octets.
  do 8 eexists. split; [done|]. by split_and!.
Qed.

Lemma v6_blocked_eq s :
  ip_ok (V6 s) = true →
  blocked (V6 s)
  = is_loopback_ip (V6 s) || is_private_ip (V6 s) || is_link_local_ip (V6 s) || is_reserved_ip (V6 s).
Proof.
  intros (s0 & s1 & s2 & s3 & s4 & s5 & s6 & s7 & -> & H0 & H1 & H2 & H3 & H4 & H5 & H6 & H7)%v6_segments.
  destruct (v6_split s0 s1 s2 s3 s4 s5 s6 s7 H1 H2 H3 H4 H5 H6 H7) as [E0 E1].
  destruct (mask_eq s0 H0) as (M1 & M2 & M3).
  unfold blocked, BLOCKED_V6, in_block. cbn [existsb].
  set (n := v6_num _) in *.
  change (128 - 128)%N with 0%N. change (128 - 7)%N with (112 + 9)%N. change (128 - 32)%N with 96%N.
  change (128 - 10)%N with (112 + 6)%N. change (128 - 8)%N with (112 + 8)%N.
  rewrite !(N.pow_add_r 2 112), <- !N.Div0.div_div, E0, E1, N.pow_0_r, !N.div_1_r.
  replace (64512 * 2 ^ 112 / 2 ^ 112 / 2 ^ 9)%N with 126%N by (vm_compute; reflexivity).
  replace (65152 * 2 ^ 112 / 2 ^ 112 / 2 ^ 6)%N with 1018%N by (vm_compute; reflexivity).
  replace (65280 * 2 ^ 112 / 2 ^ 112 / 2 ^ 8)%N with 255%N by (vm_compute; reflexivity).
  replace ((100 * 2 ^ 112 + 65435 * 2 ^ 96) / 2 ^ 96)%N with (100 * 65536 + 65435)%N by (vm_compute; reflexivity).
  unfold n. rewrite !v6_small by lia.
  cbn [is_loopback_ip is_private_ip is_link_local_ip is_reserved_ip is_unspecified].
  unfold is_private_ipv6, is_reserved_ip. cbn [is_unspecified].
  change (seg [s0; s1; s2; s3; s4; s5; s6; s7] 0) with s0.
  change (seg [s0; s1; s2; s3; s4; s5; s6; s7] 1) with s1.
  rewrite M1, M2, M3.
  assert (E : N.eqb (s0 * 65536 + s1) (100 * 65536 + 65435) = N.eqb s0 100 && N.eqb s1 65435).
  { apply eq_true_iff_eq. rewrite andb_true_iff, !N.eqb_eq. lia. }
  rewrite E. change (replicate 8 0%N) with [0; 0; 0; 0; 0; 0; 0; 0]%N.
  case_bool_decide; case_bool_decide; simpl; rewrite ?orb_true_r, ?orb_false_r, ?orb_assoc; try done.
Qed.

(** ** Properties *)

Section Properties.
Context {UC : Unicode} {NET : Net}.

(** The switches a block list of the guard depends on are on. *)
Definition strict_guard (g : Guard) : Prop :=
  sc_block_localhost (gd_config g) = true ∧ sc_block_metadata (gd_config g) = true ∧
  sc_block_private_ips (gd_config g) = true.

Lemma metadata_blocked ip : ip_ok ip = true → is_metadata_ip ip = true →
  is_private_ip ip || is_link_local_ip ip = true.
Proof.
  destruct ip as [a b c d|s]; cbn [is_metadata_ip is_private_ip is_link_local_ip].
  - intros _ H. octets. apply orb_true_iff. right. by rewrite H, H2.
  - intros _ H. octets. bool_simpl. unfold is_private_ipv6. by rewrite H.
Qed.

(** Also: with the default switches an address passes exactly when it lies in none
    of the listed blocks (loopback, link-local with the metadata address, private,
    carrier-grade, test, benchmark and protocol ranges, current network, multicast
    and reserved) and in none of the configured ones. *)
Theorem check_ip_spec g ip :
  strict_guard g → ip_ok ip = true →
  check_ip_locked g ip = Ok tt ↔
  blocked ip = false ∧ Forall (λ net, ipnet_contains net ip = false) (gd_blocked_nets g).
Proof.
  intros (Hl & Hm & Hp) Hok. pose proof (metadata_blocked ip Hok) as Hmeta.
  assert (Hb : blocked ip = is_loopback_ip ip || is_private_ip ip || is_link_local_ip ip || is_reserved_ip ip)
    by (destruct ip; [by apply v4_blocked_eq|by apply v6_blocked_eq]).
  rewrite Hb. unfold check_ip_locked. rewrite Hl, Hm, Hp. cbn [andb].
  destruct (is_loopback_ip ip); [naive_solver|]. destruct (is_metadata_ip ip).
  { specialize (Hmeta eq_refl). destruct (is_private_ip ip); [naive_solver|].
    destruct (is_link_local_ip ip); naive_solver. }
  destruct (is_private_ip ip); [naive_solver|]. destruct (is_link_local_ip ip); [naive_solver|].
  destruct (is_reserved_ip ip); [naive_solver|]. cbn [orb].
  rewrite Forall_forall. destruct (List.find _ _) as [net|] eqn:Ef.
  - apply find_some in Ef as [Hin Hc]. apply list_elem_of_In in Hin. split; [done|].
    intros [_ Hall]. rewrite (Hall _ Hin) in Hc. done.
  - split; [|done]. intros _. split; [done|]. intros net Hin%list_elem_of_In.
    by apply (find_none _ _ Ef).
Qed.

Lemma check_all_ok g host ips :
  check_all g host ips = Ok tt → Forall (λ ip, check_ip_locked g ip = Ok tt) ips.
Proof.
  induction ips as [|ip ips IH]; [constructor|]. cbn [check_all].
  destruct (check_ip_locked g ip) as [[]|] eqn:E; [|done]. intros H. constructor; auto.
Qed.

Lemma collect_ok g host ips :
  resolve_and_validate_collect_locked g host = Ok ips →
  ips ≠ [] ∧ Forall (λ ip, check_ip_locked g ip = Ok tt) ips.
Proof.
  unfold resolve_and_validate_collect_locked. destruct (_ && _); [done|].
  destruct (parse_ip _) as [ip|].
  - destruct (check_ip_locked g ip) as [[]|] eqn:E; [|done]. cbn [res_bind]. intros [= <-].
    split; [done|]. by constructor.
  - destruct (resolve_host_dns _) as [l|]; [|done]. cbn [res_bind]. case_bool_decide; [done|].
    destruct (check_all g host l) as [[]|] eqn:E; [|done]. cbn [res_bind]. intros [= <-].
    split; [done|]. by eapply check_all_ok.
Qed.

(** Also: an accepted URL is either on the allow list or resolves, to at least one
    address, all of which passed the check; the list handed back for pinning is
    that list of checked addresses, and it is empty only for a disabled guard or
    an allow-listed host. *)
Theorem validate_url_sound g url :
  sc_enabled (gd_config g) = true →
  (validate_url g url = Ok tt → ∃ p, parse_url url = Ok p ∧
     (to_lowercase (pu_host p) ∈ gd_allowed_set g ∨
      ∃ ips, resolve_and_validate_collect_locked g (pu_host p) = Ok ips ∧ ips ≠ [] ∧
        Forall (λ ip, check_ip_locked g ip = Ok tt) ips)) ∧
  (∀ ips, resolve_and_validate_collect g url = Ok ips →
     Forall (λ ip, check_ip_locked g ip = Ok tt) ips ∧ validate_url g url = Ok tt ∧
     (ips = [] → ∃ p, parse_url url = Ok p ∧ to_lowercase (pu_host p) ∈ gd_allowed_set g)).
Proof.
  intros He. unfold validate_url, resolve_and_validate_collect, resolve_and_validate_locked,
    parse_or_invalid, on_allow_list. rewrite He. cbn [negb].
  destruct (parse_url url) as [p|]; cbn [res_bind]; [|done].
  case_bool_decide as Ha.
  - split; [intros _; eauto|]. intros ips [= <-]. split_and!; [constructor|done|eauto].
  - destruct (_ && _); [done|].
    destruct (resolve_and_validate_collect_locked g (pu_host p)) as [ips|] eqn:Ec; [|done].
    pose proof (collect_ok _ _ _ Ec) as [Hne Hall]. split.
    + intros _. eauto 8.
    + intros ips' [= <-]. split_and!; [done|done|]. by intros ->.
Qed.

(** Observed: an IPv4-mapped IPv6 address is classified by its IPv6 form only: the
    mapped form of any IPv4 address whatever, loopback, metadata and private
    ones included, passes a guard without configured blocks. *)
Theorem mapped_address_passes g a b c d :
  gd_blocked_nets g = [] →
  check_ip_locked g (V6 [0; 0; 0; 0; 0; 65535; a * 256 + b; c * 256 + d]%N) = Ok tt.
Proof.
  intros Hn. unfold check_ip_locked. rewrite Hn.
  cbn [is_loopback_ip is_metadata_ip is_private_ip is_link_local_ip is_reserved_ip is_unspecified].
  rewrite !bool_decide_eq_false_2 by (intros E; discriminate E).
  rewrite !andb_false_r.
  repeat match goal with |- context [if ?x then _ else _] =>
    let b := eval vm_compute in x in change x with b end.
  by repeat case_match.
Qed.
End Properties.

(** ** Witnesses *)

(** A network with two names, [ok.test] at 8.8.8.8 and [in.test] at 10.0.0.1. *)
Definition toy_url (u : str) : result UrlView str :=
  match strip_prefix (lit "http://") u with
  | Some host => Ok (mkUrlView (lit "http") (Some host) [] None None (lit "/"))
  | None => Err (lit "bad url")
  end.

Definition toy_parse_ip (s : str) : option IpAddr :=
  if s =? lit "10.0.0.1" then Some (V4 10 0 0 1) else None.

Lemma toy_parse_ip_ok s ip : toy_parse_ip s = Some ip → ip_ok ip = true.
Proof. unfold toy_parse_ip. case_bool_decide; [|done]. by intros [= <-]. Qed.

Definition toy_dns (s : str) : result (list IpAddr) str :=
  if s =? lit "ok.test:0" then Ok [V4 8 8 8 8]
  else if s =? lit "in.test:0" then Ok [V4 8 8 8 8; V4 10 0 0 1]
  else Err (lit "nxdomain").

Definition toy_net : Net :=
  {| url_parse := toy_url; parse_ip := toy_parse_ip; show_ip := λ _, lit "ip";
     to_socket_addrs := toy_dns; IpNet := IpAddr; ipnet_from_str := λ _, Ok (V4 9 9 9 9);
     ipnet_contains := λ net ip, net =? ip; ipnet_show := λ _, lit "net";
     parse_ip_ok := toy_parse_ip_ok |}.

Definition toy_guard : @Guard toy_net := @mkGuard toy_net ssrf_config_default [V4 9 9 9 9] ∅.

Lemma check_ip_spec_witness :
  @check_ip_locked toy_net toy_guard (V4 100 128 0 1) = Ok tt ∧
  blocked (V4 100 127 0 1) = true.
Proof.
  split; [|vm_compute; reflexivity].
  apply (@check_ip_spec toy_net toy_guard (V4 100 128 0 1)); [repeat split|reflexivity|].
  split; [vm_compute; reflexivity|]. constructor; [vm_compute; reflexivity|constructor].
Defined.

Lemma validate_url_sound_witness :
  @validate_url ascii_unicode toy_net toy_guard (lit "http://ok.test") = Ok tt ∧
  Forall (λ ip, @check_ip_locked toy_net toy_guard ip = Ok tt) [V4 8 8 8 8] ∧
  @validate_url ascii_unicode toy_net toy_guard (lit "http://in.test") ≠ Ok tt.
Proof.
  pose proof (proj2 (@validate_url_sound ascii_unicode toy_net toy_guard (lit "http://ok.test") eq_refl)
    [V4 8 8 8 8] ltac:(vm_compute; reflexivity)) as (H1 & H2 & _).
  split; [exact H2|]. split; [exact H1|vm_compute; discriminate].
Defined.

Lemma mapped_address_passes_witness :
  @check_ip_locked toy_net (@mkGuard toy_net ssrf_config_default [] ∅)
    (V6 [0; 0; 0; 0; 0; 65535; 169 * 256 + 254; 169 * 256 + 254]%N) = Ok tt ∧
  blocked (V4 169 254 169 254) = true.
Proof. split; [apply (@mapped_address_passes toy_net); reflexivity|vm_compute; reflexivity]. Defined.
