(* ===== verification/Pipeline.v ===== *)
(** * The security pipeline (nemesis-security/src/pipeline.rs)

    One tool call through the layers, in the order of the code: injection, command
    guard, scan of scripts, rules and approval, credentials, data loss, SSRF, virus
    scan, audit chain.  A layer is a step on the plugin and the cell for the approval
    reference that passes or refuses; the first refusal ends the call.  The layers are
    those of the other files.  The build has the [scanner] feature.  From outside come
    the clock, ids, the outcome of writes and the files a command names ([ExecIo]). *)
From Stdlib Require Import QArith.
From S2P Require Import Prelude RustStr Json F64 Regex Matcher VirusScan Classifier Injection PreExec CommandGuard Credential Dlp AuditLog ApprovalRules SecTypes EditorAccess HotReload Evaluate Auditor Escalation Guardian Merkle Integrity Ssrf.
Local Open Scope nb_scope.

(** ** Calls and refusals (types.rs) *)

Record DenyInfo := mkDeny {
  di_layer : str;
  di_policy : str;
  di_summary : str;
  di_suggestion : option str;
}.

Definition suggestions : list (string * string) :=
  [ ("injection", "重新表述请求，避免指令样文本");
    ("command", "拆分命令或改用更安全的等价操作");
    ("abac", "等待批准或请管理员调整策略");
    ("credential", "从参数移除密钥，改用环境变量/凭据引用");
    ("dlp", "脱敏后重试");
    ("ssrf", "使用公网可达的 URL");
    ("virus", "更换文件来源") ]%string.

Definition layer_suggestion (layer : str) : option str :=
  assoc layer ((λ e : string * string, (lit (fst e), ulit (snd e))) <$> suggestions).

Definition deny_info (layer policy : string) (summary : str) : DenyInfo :=
  mkDeny (lit layer) (lit policy) summary (layer_suggestion (lit layer)).

(** ** Configuration *)

(** The path of the audit chain is given by its stem and its extension. *)
Record SecurityPluginConfig := mkPluginConfig {
  pc_enabled : bool;
  pc_injection_enabled : bool;
  pc_injection_threshold : Q;
  pc_command_guard_enabled : bool;
  pc_credential_enabled : bool;
  pc_dlp_enabled : bool;
  pc_dlp_action : str;
  pc_dlp_enabled_rules : list str;
  pc_dlp_low_confidence_action : str;
  pc_dlp_inbound_action : str;
  pc_ssrf_enabled : bool;
  pc_ssrf_allowed_hosts : list str;
  pc_audit_chain_enabled : bool;
  pc_audit_chain_path : option (str * str);
  pc_audit_log_enabled : bool;
  pc_audit_log_dir : option str;
  pc_default_action : str;
  pc_approval_timeout_secs : N;
  pc_log_all_operations : bool;
  pc_preexec_scan_enabled : bool;
  pc_file_rules : list SecurityRule;
  pc_dir_rules : list SecurityRule;
  pc_process_rules : list SecurityRule;
  pc_network_rules : list SecurityRule;
  pc_hardware_rules : list SecurityRule;
  pc_registry_rules : list SecurityRule;
}.

Definition plugin_config_default `{!Float} : SecurityPluginConfig :=
  mkPluginConfig true true (f100 70) true true true (lit "block") [] (lit "log") (lit "log")
    true [] false None false None (lit "deny") 300 true true [] [] [] [] [] [].

(** The rules of the configuration and the operations they are registered for, in the
    order of [register_rules]. *)
Definition rule_groups (c : SecurityPluginConfig) : list (list SecurityRule * list OperationType) :=
  [ (pc_file_rules c, [FileRead; FileWrite; FileDelete]);
    (pc_dir_rules c, [DirRead; DirCreate; DirDelete]);
    (pc_process_rules c, [ProcessExec; ProcessSpawn; ProcessKill; ProcessSuspend]);
    (pc_network_rules c, [NetworkRequest; NetworkDownload; NetworkUpload]);
    (pc_hardware_rules c, [HardwareI2C; HardwareSPI; HardwareGPIO]);
    (pc_registry_rules c, [RegistryRead; RegistryWrite; RegistryDelete]) ].

Definition register_group (st : SecurityAuditor) (g : list SecurityRule * list OperationType)
    : SecurityAuditor :=
  match fst g with
  | [] => st
  | rules => foldl (λ st op, set_rules st op rules) st (snd g)
  end.

(** The calls of [register_rules] on the auditor. *)
Definition register_groups (c : SecurityPluginConfig) (st : SecurityAuditor) : SecurityAuditor :=
  foldl register_group st (rule_groups c).

Declare Scope step_scope.
Delimit Scope step_scope with step.

(** ** State *)

Section Pipeline.
Context {UC : Unicode} {CC : CharClass} {FL : Float} {DS : DebugStr} {PF : Platform}.
Context `{HashOrder} `{RegexFind} `{JsonNumbers} {NET : Net} {SHA : Sha256}.

Record SecurityPlugin := mkPlugin {
  sp_config : SecurityPluginConfig;
  sp_auditor : SecurityAuditor;
  sp_injection_detector : option Detector;
  sp_command_guard : option CommandGuard;
  sp_credential_scanner : option Scanner;
  sp_dlp_engine : option DlpEngine;
  sp_ssrf_guard : option Guard;
  sp_scan_chain : ScanChain;
  sp_audit_chain : option AuditChain;
  sp_audit_logger : option AuditLogger;
  sp_log_files : gmap str str;
  sp_enabled : bool;
  sp_config_path : option str;
  sp_judge : option LlmJudge;
  sp_guardian_failure_policy : str;
  sp_guardian_mode : str;
  sp_preexec : option PreExecScanner;
}.

Record ToolInvocation := mkInvocation {
  iv_tool_name : str;
  iv_args : Value;
  iv_user : str;
  iv_source : str;
  iv_metadata : gmap str str;
}.

(** Time, event id and outcome of one line of the log file. *)
Record LogStamp := mkStamp {
  ls_timestamp : str;
  ls_event_id : str;
  ls_write_ok : bool;
}.

(** What one call sees of the outside.  A call writes at most one line per policy. *)
Record ExecIo := mkExecIo {
  xi_declared : DeclaredOps;
  xi_request_id : str;
  xi_now : str;
  xi_auditor : CallEnv;
  xi_preexec : PreExecEnv;
  xi_stamp : string → LogStamp;
  xi_chain_timestamp : str;
  xi_chain_id : str;
  xi_chain_write_ok : bool;
}.

(** The setters of the fields a call changes. *)
Definition with_auditor (p : SecurityPlugin) (a : SecurityAuditor) : SecurityPlugin :=
  mkPlugin (sp_config p) a (sp_injection_detector p) (sp_command_guard p) (sp_credential_scanner p)
    (sp_dlp_engine p) (sp_ssrf_guard p) (sp_scan_chain p) (sp_audit_chain p) (sp_audit_logger p)
    (sp_log_files p) (sp_enabled p) (sp_config_path p) (sp_judge p) (sp_guardian_failure_policy p)
    (sp_guardian_mode p) (sp_preexec p).

Definition with_log_files (p : SecurityPlugin) (files : gmap str str) : SecurityPlugin :=
  mkPlugin (sp_config p) (sp_auditor p) (sp_injection_detector p) (sp_command_guard p)
    (sp_credential_scanner p) (sp_dlp_engine p) (sp_ssrf_guard p) (sp_scan_chain p) (sp_audit_chain p)
    (sp_audit_logger p) files (sp_enabled p) (sp_config_path p) (sp_judge p)
    (sp_guardian_failure_policy p) (sp_guardian_mode p) (sp_preexec p).

Definition with_audit_chain (p : SecurityPlugin) (c : option AuditChain) : SecurityPlugin :=
  mkPlugin (sp_config p) (sp_auditor p) (sp_injection_detector p) (sp_command_guard p)
    (sp_credential_scanner p) (sp_dlp_engine p) (sp_ssrf_guard p) (sp_scan_chain p) c
    (sp_audit_logger p) (sp_log_files p) (sp_enabled p) (sp_config_path p) (sp_judge p)
    (sp_guardian_failure_policy p) (sp_guardian_mode p) (sp_preexec p).

Definition with_logger (p : SecurityPlugin) (lg : option AuditLogger) : SecurityPlugin :=
  mkPlugin (sp_config p) (sp_auditor p) (sp_injection_detector p) (sp_command_guard p)
    (sp_credential_scanner p) (sp_dlp_engine p) (sp_ssrf_guard p) (sp_scan_chain p) (sp_audit_chain p)
    lg (sp_log_files p) (sp_enabled p) (sp_config_path p) (sp_judge p)
    (sp_guardian_failure_policy p) (sp_guardian_mode p) (sp_preexec p).

Definition with_scan_chain (p : SecurityPlugin) (c : ScanChain) : SecurityPlugin :=
  mkPlugin (sp_config p) (sp_auditor p) (sp_injection_detector p) (sp_command_guard p)
    (sp_credential_scanner p) (sp_dlp_engine p) (sp_ssrf_guard p) c (sp_audit_chain p)
    (sp_audit_logger p) (sp_log_files p) (sp_enabled p) (sp_config_path p) (sp_judge p)
    (sp_guardian_failure_policy p) (sp_guardian_mode p) (sp_preexec p).

(** The switches and references behind locks of their own. *)
Definition with_switches (p : SecurityPlugin) (enabled : bool) (path : option str)
    (judge : option LlmJudge) (policy mode : str) (px : option PreExecScanner) : SecurityPlugin :=
  mkPlugin (sp_config p) (sp_auditor p) (sp_injection_detector p) (sp_command_guard p)
    (sp_credential_scanner p) (sp_dlp_engine p) (sp_ssrf_guard p) (sp_scan_chain p) (sp_audit_chain p)
    (sp_audit_logger p) (sp_log_files p) enabled path judge policy mode px.

(** ** Construction *)

(** What [new] finds: the rules file and logs of the auditor, the files of the audit
    chain, the answers to opening the log file, its date and the files there. *)
Record InitEnv := mkInit {
  in_rules_file : FileState RulesFile;
  in_auditor_files : LogFiles;
  in_chain_files : gmap str Lines;
  in_io : LogIo;
  in_date : str;
  in_log_files : gmap str str;
}.

(** [from_enabled_with_allowlist]; a default configuration has no ranges to parse, so
    its [expect] does not fail. *)
Definition from_enabled_with_allowlist (enabled : bool) (allowed_hosts : list str) : option Guard :=
  let c := ssrf_config_default in
  match guard_new (mkSsrfConfig enabled (sc_blocked_cidrs c) allowed_hosts (sc_block_metadata c)
                     (sc_block_localhost c) (sc_block_private_ips c) (sc_max_redirects c)) with
  | Ok g => Some g
  | Err _ => None
  end.

(** [AuditLogger::new] on the directory, when both are configured. *)
Definition open_logger (e : InitEnv) (c : SecurityPluginConfig) : gmap str str * option AuditLogger :=
  match pc_audit_log_dir c with
  | Some dir =>
      if pc_audit_log_enabled c then
        match logger_new (in_io e) (in_date e) (mkLogConfig dir true) (in_log_files e) with
        | (files, Ok lg) => (files, Some lg)
        | (files, Err _) => (files, None)
        end
      else (in_log_files e, None)
  | None => (in_log_files e, None)
  end.

Definition when {A} (b : bool) (x : A) : option A := if b then Some x else None.

Definition plugin_new (e : InitEnv) (c : SecurityPluginConfig) : SecurityPlugin :=
  let auditor_config := mkAuditorConfig (pc_enabled c) (pc_approval_timeout_secs c)
    (cf_audit_log_file_enabled auditor_config_default) (cf_audit_log_dir auditor_config_default)
    (pc_default_action c) in
  let auditor := auditor_new auditor_config (in_rules_file e) (in_auditor_files e) in
  let '(files, logger) := open_logger e c in
  let '(stem, ext) := default (lit "audit_chain", lit ".jsonl") (pc_audit_chain_path c) in
  mkPlugin c (register_groups c auditor)
    (when (pc_injection_enabled c) (detector_new (mkInjConfig true (pc_injection_threshold c) 100000 false)))
    (when (pc_command_guard_enabled c) (command_guard_new true))
    (when (pc_credential_enabled c) (scanner_new true (lit "block")))
    (when (pc_dlp_enabled c)
       (with_config (mkDlpConfig true (pc_dlp_action c) [] (pc_dlp_enabled_rules c) 0
                       (pc_dlp_low_confidence_action c))))
    (if pc_ssrf_enabled c then from_enabled_with_allowlist true (pc_ssrf_allowed_hosts c) else None)
    (add_engine (scan_chain_new scan_config_default) stub_scanner)
    (when (pc_audit_chain_enabled c) (chain_new (mkChainConfig stem ext 100000) (in_chain_files e)))
    logger files (pc_enabled c) None None [] []
    (when (pc_preexec_scan_enabled c) (preexec_new (pc_injection_threshold c))).

Definition init_with_path (e : InitEnv) (c : SecurityPluginConfig) (config_path : str) : SecurityPlugin :=
  let p := plugin_new e c in
  with_switches p (sp_enabled p) (Some config_path) (sp_judge p) (sp_guardian_failure_policy p)
    (sp_guardian_mode p) (sp_preexec p).

Definition register_rules (p : SecurityPlugin) : SecurityPlugin :=
  with_auditor p (register_groups (sp_config p) (sp_auditor p)).

Definition plugin_set_rules (p : SecurityPlugin) (op : OperationType) (rules : list SecurityRule)
    : SecurityPlugin := with_auditor p (set_rules (sp_auditor p) op rules).

Definition init_audit_log_file (io : LogIo) (date : str) (p : SecurityPlugin) (dir : str)
    : SecurityPlugin * result unit str :=
  match logger_new io date (mkLogConfig dir true) (sp_log_files p) with
  | (files, Ok lg) => (with_logger (with_log_files p files) (Some lg), Ok tt)
  | (files, Err e) => (with_log_files p files, Err e)
  end.

Definition cleanup (p : SecurityPlugin) : SecurityPlugin * result unit str := (with_logger p None, Ok tt).

Definition set_judge (p : SecurityPlugin) (judge : LlmJudge) : SecurityPlugin :=
  with_switches p (sp_enabled p) (sp_config_path p) (Some judge) (sp_guardian_failure_policy p)
    (sp_guardian_mode p) (sp_preexec p).

Definition set_guardian_failure_policy (p : SecurityPlugin) (policy : str) : SecurityPlugin :=
  with_switches p (sp_enabled p) (sp_config_path p) (sp_judge p) (to_lowercase (trim policy))
    (sp_guardian_mode p) (sp_preexec p).

Definition set_guardian_mode (p : SecurityPlugin) (mode : str) : SecurityPlugin :=
  with_switches p (sp_enabled p) (sp_config_path p) (sp_judge p) (sp_guardian_failure_policy p)
    (to_lowercase (trim mode)) (sp_preexec p).

Definition set_preexec_workspace_root (p : SecurityPlugin) (root : str) : SecurityPlugin :=
  with_switches p (sp_enabled p) (sp_config_path p) (sp_judge p) (sp_guardian_failure_policy p)
    (sp_guardian_mode p) ((λ s, set_workspace_root s root) <$> sp_preexec p).

Definition plugin_set_enabled (p : SecurityPlugin) (enabled : bool) : SecurityPlugin :=
  with_switches p enabled (sp_config_path p) (sp_judge p) (sp_guardian_failure_policy p)
    (sp_guardian_mode p) (sp_preexec p).

Definition init_scanner_chain (p : SecurityPlugin) (enabled : bool) : SecurityPlugin :=
  with_scan_chain p (VirusScan.set_enabled (sp_scan_chain p) enabled).

(** Starting the engines changes nothing of the chain, whatever it answers. *)
Definition init_scanner_from_config (make_clamav : Value → VirusScanner) (p : SecurityPlugin)
    (full : ScannerFullConfig) : SecurityPlugin :=
  let c := load_from_full_config make_clamav (clear_engines (sp_scan_chain p)) full in
  with_scan_chain p (if (engine_count c =? 0)%nat then c else VirusScan.set_enabled c true).

(** ** Reloading *)

Inductive ReloadError :=
| NoConfigPath
| ConfigNotFound (path : str)
| ReadFailed (error : str)
| ParseFailed
| RootNotObject.

(** [exists_] and [read] are the answers of the file system about the path.  The layers
    in the file are only traced. *)
Definition reload_config `{!JsonCodec} (exists_ : bool) (read : result str str) (p : SecurityPlugin)
    : SecurityPlugin * result unit ReloadError :=
  match sp_config_path p with
  | None => (p, Err NoConfigPath)
  | Some path =>
      if negb exists_ then (p, Err (ConfigNotFound path))
      else
        match read with
        | Err e => (p, Err (ReadFailed e))
        | Ok data =>
            match json_from_str data with
            | None => (p, Err ParseFailed)
            | Some v =>
                match as_object v with
                | None => (p, Err RootNotObject)
                | Some o =>
                    let enabled := default (pc_enabled (sp_config p)) (member (lit "enabled") o ≫= as_bool) in
                    let action := default (pc_default_action (sp_config p))
                                    (member (lit "default_action") o ≫= as_str) in
                    let p := plugin_set_enabled p enabled in
                    let p := with_auditor p (set_default_action (sp_auditor p) action) in
                    (register_rules p, Ok tt)
                end
            end
        end
  end.

(** ** Operations of tools *)

(** A tool without an entry counts as the execution of a process. *)
Definition effective_tool_operation (d : DeclaredOps) (tool_name : str) : OperationType :=
  default ProcessExec (tool_to_operation d tool_name).

Definition danger_of (op : OperationType) : str := danger_str (get_danger_level op).

Definition is_critical_tool (d : DeclaredOps) (tool_name : str) : bool :=
  match tool_to_operation d tool_name with
  | Some op => danger_of op =? lit "CRITICAL"
  | None => true
  end.

Definition is_high_tool (d : DeclaredOps) (tool_name : str) : bool :=
  match tool_to_operation d tool_name with
  | Some op => danger_of op =? lit "HIGH"
  | None => false
  end.

Definition tool_danger_level (d : DeclaredOps) (tool_name : str) : str :=
  danger_of (effective_tool_operation d tool_name).

(** The slug in the metadata, when it names an operation, and the tables otherwise. *)
Definition invocation_operation (d : DeclaredOps) (inv : ToolInvocation) : OperationType :=
  default (effective_tool_operation d (iv_tool_name inv))
    (iv_metadata inv !! lit "override_op_type" ≫= operation_type_from_slug).

Definition args_of (v : Value) : Args := λ k, as_str <$> json_get k v.

Definition target_of (inv : ToolInvocation) : str := extract_target (iv_tool_name inv) (args_of (iv_args inv)).

Definition starts_process (op : OperationType) : bool :=
  match op with ProcessExec | ProcessSpawn => true | _ => false end.

(** ** Steps *)

(** The plugin and the cell for the approval reference. *)
Record Run := mkRun {
  rn_plugin : SecurityPlugin;
  rn_slot : option str;
}.

Definition Step (A : Type) : Type := Run → Run * result A DenyInfo.

Definition pass {A} (x : A) : Step A := λ r, (r, Ok x).

Definition step_bind {A B} (m : Step A) (k : A → Step B) : Step B := λ r,
  match m r with
  | (r, Ok x) => k x r
  | (r, Err d) => (r, Err d)
  end.

(** A step that looks at the plugin. *)
Definition looking {A} (k : SecurityPlugin → Step A) : Step A := λ r, k (rn_plugin r) r.

Definition change (f : SecurityPlugin → SecurityPlugin) : Step unit := λ r,
  (mkRun (f (rn_plugin r)) (rn_slot r), Ok tt).

Definition refuse {A} (d : DenyInfo) : Step A := λ r, (r, Err d).

#[local] Notation "x <- m ; k" := (step_bind m (λ x, k))
  (at level 20, m at level 100, k at level 200, right associativity) : step_scope.
#[local] Notation "m ;; k" := (step_bind m (λ _, k)) (at level 100, k at level 200, right associativity) : step_scope.
Open Scope step_scope.

(** ** The log file *)

(** One line of the log file. *)
Definition log_line_of (io : ExecIo) (inv : ToolInvocation) (decision : string) (target : str)
    (danger reason : str) (policy : string) : LogEvent :=
  mkLogEvent (ls_timestamp (xi_stamp io policy)) (ls_event_id (xi_stamp io policy)) (lit decision)
    (op_slug (invocation_operation (xi_declared io) inv)) (iv_user inv) (iv_source inv) target danger
    reason (lit policy).

Definition plugin_log (io : ExecIo) (inv : ToolInvocation) (decision : string) (target danger reason : str)
    (policy : string) (p : SecurityPlugin) : SecurityPlugin :=
  match sp_audit_logger p with
  | None => p
  | Some lg => with_log_files p (log_event (ls_write_ok (xi_stamp io policy)) lg
                                   (log_line_of io inv decision target danger reason policy)
                                   (sp_log_files p))
  end.

Section Call.
Variable io : ExecIo.
Variable inv : ToolInvocation.

Definition op : OperationType := invocation_operation (xi_declared io) inv.
Definition target : str := target_of inv.

Definition note (decision : string) (danger reason : str) (policy : string) : Step unit :=
  change (plugin_log io inv decision target danger reason policy).

(** Log the refusal and refuse. *)
Definition deny {A} (tgt danger reason : str) (policy layer : string) (summary : str) : Step A :=
  change (plugin_log io inv "denied" tgt danger reason policy);;
  refuse (deny_info layer policy summary).

(** ** Layers *)

Definition injection_layer : Step unit := looking (λ p,
  match sp_injection_detector p with
  | None => pass tt
  | Some detector =>
      let result := Injection.analyze_tool_input detector (iv_tool_name inv) (iv_args inv) in
      if ir_is_injection result then
        deny target (ir_level result)
          (lit "injection detected (score: " ++ fmt2 (ir_score result) ++ lit ")") "injection_detector"
          "injection"
          (lit "operation blocked: potential prompt injection detected (score: " ++ fmt2 (ir_score result)
           ++ lit ", level: " ++ ir_level result ++ lit ")")
      else pass tt
  end).

Definition command_layer : Step unit := looking (λ p,
  match sp_command_guard p with
  | None => pass tt
  | Some guard =>
      if starts_process op && nonempty target then
        match CommandGuard.check guard target with
        | Ok _ => pass tt
        | Err e => deny target (lit "HIGH") (lit "command guard: " ++ show_blocked e) "command_guard"
                     "command" (lit "operation blocked by command guard: " ++ show_blocked e)
        end
      else pass tt
  end).

Definition preexec_hit (p : SecurityPlugin) : option PreExecHit :=
  scanner ← sp_preexec p;
  if starts_process op && nonempty target then PreExec.scan (xi_preexec io) scanner target else None.

Definition preexec_reason (hit : PreExecHit) : str :=
  lit "pre-exec script scan: suspicious content in `" ++ hi_script hit ++ lit "` (score: "
  ++ fmt2 (hi_score hit) ++ lit ", level: " ++ hi_level hit ++ lit ", matched: "
  ++ join (lit " | ") (take 3 (hi_matched hit)) ++ lit ")".

(** The scan of scripts never refuses; its reason makes the next layer ask. *)
Definition preexec_layer : Step (option str) := looking (λ p,
  match preexec_hit p with
  | None => pass None
  | Some hit =>
      note "warn" (lit "HIGH") (preexec_reason hit) "preexec_scan";;
      pass (Some (preexec_reason hit))
  end).

Definition override_force : option str :=
  s ← iv_metadata inv !! lit "override_force_approval";
  if nonempty (trim s) then Some (trim s) else None.

Definition merge_force (a b : option str) : option str :=
  match a, b with
  | Some a, Some b => Some (a ++ lit "; " ++ b)
  | _, _ => or_else a b
  end.

Definition request_of (preexec_force : option str) : OperationRequest :=
  mkRequest (xi_request_id io) op (get_danger_level op) (iv_user inv) (iv_source inv) target
    (Some (xi_now io)) None None None (merge_force preexec_force override_force).

Definition approval_ctx : ApprovalContext :=
  mkCtx (iv_source inv) (default [] (iv_metadata inv !! lit "approval_chat_id"))
    (default [] (iv_metadata inv !! lit "approval_sender_id")).

Definition ask_auditor (p : SecurityPlugin) (preexec_force : option str) : SecurityAuditor * Answer :=
  request_permission_tracked (xi_auditor io) (sp_auditor p) (request_of preexec_force) (Some approval_ctx).

Definition abac_layer (preexec_force : option str) : Step unit := λ r,
  let '(auditor, (allowed, err, approval_id)) := ask_auditor (rn_plugin r) preexec_force in
  let r := mkRun (with_auditor (rn_plugin r) auditor) approval_id in
  if allowed then (r, Ok tt)
  else
    let reason := default (lit "denied by policy") err in
    deny target (danger_of op) reason "abac" "abac" reason r.

(** The strings among the members of the arguments. *)
Definition member_strings (v : Value) : list str := omap (λ m, as_str (snd m)) (default [] (as_object v)).

Definition leak_in (scanner : Scanner) (s : str) : option CredentialResult :=
  if (10 <? byte_len s)%nat then
    let result := Credential.scan_content scanner s in
    if cr_has_matches result && (cr_action result =? lit "block") then Some result else None
  else None.

Definition credential_layer : Step unit := looking (λ p,
  match sp_credential_scanner p ≫= λ scanner, first_some (leak_in scanner) (member_strings (iv_args inv)) with
  | None => pass tt
  | Some result =>
      deny target (lit "CRITICAL") (lit "credential leak: " ++ cr_summary result) "credential_scanner"
        "credential"
        (lit "operation blocked: potential credential leak detected (" ++ cr_summary result ++ lit ")")
  end).

(** Whether the matches block: writes to local storage are blocked by other matches than
    those of low confidence only, unless the configuration says otherwise. *)
Definition dlp_block (c : SecurityPluginConfig) (result : DlpResult) : bool :=
  let inbound := match op with FileWrite | DirCreate => true | _ => false end in
  if dr_should_block result && inbound && (pc_dlp_inbound_action c <>? lit "block")
  then existsb (λ m, blocks m && negb (bool_decide (dm_confidence m = DlpLow))) (dr_matches result)
  else dr_should_block result.

Definition dlp_layer : Step unit := looking (λ p,
  match sp_dlp_engine p with
  | None => pass tt
  | Some engine =>
      let result := Dlp.scan_tool_input engine (iv_tool_name inv) (iv_args inv) in
      if dr_has_matches result then
        if dlp_block (sp_config p) result then
          deny target (lit "HIGH") (lit "DLP: " ++ dr_summary result) "dlp_engine" "dlp"
            (lit "operation blocked by DLP: sensitive data detected (" ++ dr_summary result ++ lit ")")
        else note "allowed" (lit "MEDIUM") (lit "DLP (non-blocking): " ++ dr_summary result) "dlp_engine"
      else pass tt
  end).

Definition url_of : str := extract_url (iv_tool_name inv) (args_of (iv_args inv)).

Definition ssrf_layer : Step unit := looking (λ p,
  match sp_ssrf_guard p with
  | None => pass tt
  | Some guard =>
      if nonempty url_of then
        match Ssrf.validate_url guard url_of with
        | Ok _ => pass tt
        | Err e => deny url_of (lit "HIGH") (lit "SSRF: " ++ show_ssrf_error e) "ssrf_guard" "ssrf"
                     (lit "operation blocked by SSRF guard: " ++ show_ssrf_error e)
        end
      else pass tt
  end).

Definition threat_in (place : str) (result : ScanChainResult) : option str :=
  if cr_blocked result
  then Some (lit "operation blocked by virus scanner: threat detected in " ++ place
             ++ lit " (engine: " ++ cr_engine result ++ lit ")")
  else None.

(** The paths of the arguments, then their contents. *)
Definition virus_threat (chain : ScanChain) : option str :=
  if negb (sx_enabled chain) || (engine_count chain =? 0)%nat then None
  else
    or_else
      (first_some (λ path, threat_in path (VirusScan.scan_file chain path))
         (extract_paths_from_args chain (iv_tool_name inv) (iv_args inv)))
      (first_some (λ key, content ← filled (iv_args inv) key;
                          threat_in (lit key) (VirusScan.scan_content chain (as_bytes content)))
         content_keys).

Definition virus_layer : Step unit := looking (λ p,
  match virus_threat (sp_scan_chain p) with
  | None => pass tt
  | Some summary => deny target (lit "CRITICAL") summary "virus_scanner" "virus" summary
  end).

Definition chain_entry : AppendArgs :=
  mkAppend (op_slug op) (iv_tool_name inv) (iv_user inv) (iv_source inv) target (lit "allowed")
    (lit "passed all security layers") None (xi_chain_timestamp io) (xi_chain_id io) (xi_chain_write_ok io).

(** An error of the chain is ignored. *)
Definition chain_layer : Step unit :=
  change (λ p, with_audit_chain p ((λ c, fst (append_with_sign c chain_entry)) <$> sp_audit_chain p)).

Definition allowed_line : Step unit := looking (λ p,
  if pc_log_all_operations (sp_config p)
  then note "allowed" (danger_of op) (lit "passed all security layers") "pipeline"
  else pass tt).

(** ** The call *)

Definition layers : Step unit :=
  injection_layer;;
  command_layer;;
  forced <- preexec_layer;
  abac_layer forced;;
  credential_layer;;
  dlp_layer;;
  ssrf_layer;;
  virus_layer;;
  chain_layer;;
  allowed_line.

(** The answer of [execute_tracked]: allowed, the refusal and the approval reference. *)
Definition execute_tracked (p : SecurityPlugin) : SecurityPlugin * (bool * option DenyInfo * option str) :=
  if negb (sp_enabled p) then (p, (true, None, None))
  else
    match layers (mkRun p None) with
    | (r, Ok _) => (rn_plugin r, (true, None, rn_slot r))
    | (r, Err d) => (rn_plugin r, (false, Some d, rn_slot r))
    end.

Definition execute (p : SecurityPlugin) : SecurityPlugin * (bool * option DenyInfo) :=
  let '(p, (allowed, deny, _)) := execute_tracked p in (p, (allowed, deny)).
End Call.

(** ** The guardian *)

Definition guardian_should_review_with_danger `{!JsonCodec} (p : SecurityPlugin) (tool_name args_json danger : str)
    : bool :=
  let critical := danger =? lit "CRITICAL" in
  let mode := to_lowercase (trim (sp_guardian_mode p)) in
  if mode =? lit "critical" then critical
  else if mode =? lit "high" then
    (critical || (danger =? lit "HIGH")) && destructive_shaped tool_name args_json
  else false.

Definition guardian_should_review `{!JsonCodec} (d : DeclaredOps) (p : SecurityPlugin)
    (tool_name args_json : str) : bool :=
  guardian_should_review_with_danger p tool_name args_json (tool_danger_level d tool_name).

(** ** Other entries *)

Definition append_direct_audit_event (p : SecurityPlugin) (a : AppendArgs) : SecurityPlugin * option ChainEvent :=
  match sp_audit_chain p with
  | None => (p, None)
  | Some c =>
      match append_with_sign c a with
      | (c, Ok e) => (with_audit_chain p (Some c), Some e)
      | (c, Err _) => (with_audit_chain p (Some c), None)
      end
  end.

(** Arguments that are not JSON count as null. *)
Definition scan_invocation `{!JsonCodec} (p : SecurityPlugin) (tool_name args : str) : bool :=
  negb (fst (scan_tool_invocation (sp_scan_chain p) tool_name (default VNull (json_from_str args)))).

End Pipeline.

(** ** The contract *)

Section Contract.
Context {UC : Unicode} {CC : CharClass} {FL : Float} {DS : DebugStr} {PF : Platform}.
Context `{HashOrder} `{RegexFind} `{JsonNumbers} {NET : Net} {SHA : Sha256}.
Variable io : ExecIo.
Variable inv : ToolInvocation.

(** What each layer objects to, on the plugin before the call. *)
Definition injection_objects (p : SecurityPlugin) : bool :=
  match sp_injection_detector p with
  | Some d => ir_is_injection (Injection.analyze_tool_input d (iv_tool_name inv) (iv_args inv))
  | None => false
  end.

Definition command_objects (p : SecurityPlugin) : bool :=
  match sp_command_guard p with
  | Some g => starts_process (op io inv) && nonempty (target inv) && CommandGuard.is_blocked g (target inv)
  | None => false
  end.

Definition forced_by_scan (p : SecurityPlugin) : option str := preexec_reason <$> preexec_hit io inv p.

Definition abac_answer (p : SecurityPlugin) : SecurityAuditor * Answer :=
  ask_auditor io inv p (forced_by_scan p).

Definition abac_objects (p : SecurityPlugin) : bool := negb (fst (fst (snd (abac_answer p)))).

Definition credential_objects (p : SecurityPlugin) : bool :=
  match sp_credential_scanner p with
  | Some s => existsb (λ t, bool_decide (is_Some (leak_in s t))) (member_strings (iv_args inv))
  | None => false
  end.

Definition dlp_objects (p : SecurityPlugin) : bool :=
  match sp_dlp_engine p with
  | Some e => let result := Dlp.scan_tool_input e (iv_tool_name inv) (iv_args inv) in
              dr_has_matches result && dlp_block io inv (sp_config p) result
  | None => false
  end.

Definition ssrf_objects (p : SecurityPlugin) : bool :=
  match sp_ssrf_guard p with
  | Some g => nonempty (url_of inv) && negb (is_ok (Ssrf.validate_url g (url_of inv)))
  | None => false
  end.

Definition virus_objects (p : SecurityPlugin) : bool :=
  bool_decide (is_Some (virus_threat inv (sp_scan_chain p))).

(** The objections in the order of the layers. *)
Definition objections (p : SecurityPlugin) : list (string * bool) :=
  [ ("injection", injection_objects p); ("command", command_objects p); ("abac", abac_objects p);
    ("credential", credential_objects p); ("dlp", dlp_objects p); ("ssrf", ssrf_objects p);
    ("virus", virus_objects p) ]%string.

Definition objecting (p : SecurityPlugin) : option string := fst <$> List.find snd (objections p).

(** ** Lemmas *)

#[local] Notation "x <- m ; k" := (step_bind m (λ x, k))
  (at level 20, m at level 100, k at level 200, right associativity) : step_scope.
#[local] Notation "m ;; k" := (step_bind m (λ _, k)) (at level 100, k at level 200, right associativity) : step_scope.
Open Scope step_scope.

(** A layer that refuses on [objects], with a line in the log file, and otherwise changes
    no more than that file. *)
Definition checks (L : Step unit) (layer : string) (objects : SecurityPlugin → bool) : Prop :=
  ∀ r,
    if objects (rn_plugin r)
    then ∃ tgt danger reason policy summary,
           L r = (mkRun (plugin_log io inv "denied" tgt danger reason policy (rn_plugin r)) (rn_slot r),
                  Err (deny_info layer policy summary))
    else ∃ files, L r = (mkRun (with_log_files (rn_plugin r) files) (rn_slot r), Ok tt).

Lemma no_log (r : Run) : r = mkRun (with_log_files (rn_plugin r) (sp_log_files (rn_plugin r))) (rn_slot r).
Proof. by destruct r as [[] ?]. Qed.

Lemma plugin_log_files decision tgt danger reason policy p :
  ∃ files, plugin_log io inv decision tgt danger reason policy p = with_log_files p files.
Proof.
  unfold plugin_log. destruct (sp_audit_logger p); [by eexists|].
  exists (sp_log_files p). by destruct p.
Qed.

Lemma note_spec decision danger reason policy r :
  ∃ files, note io inv decision danger reason policy r
           = (mkRun (with_log_files (rn_plugin r) files) (rn_slot r), Ok tt).
Proof.
  unfold note, change.
  destruct (plugin_log_files decision (target inv) danger reason policy (rn_plugin r)) as [files ->]. by exists files.
Qed.

Lemma pass_checks r : ∃ files, pass tt r = (mkRun (with_log_files (rn_plugin r) files) (rn_slot r), Ok tt).
Proof. exists (sp_log_files (rn_plugin r)). unfold pass. by rewrite <- no_log. Qed.

Lemma deny_checks tgt danger reason policy layer summary r :
  ∃ tgt' danger' reason' policy' summary', deny (A:=unit) io inv tgt danger reason policy layer summary r
    = (mkRun (plugin_log io inv "denied" tgt' danger' reason' policy' (rn_plugin r)) (rn_slot r),
       Err (deny_info layer policy' summary')).
Proof. by repeat eexists. Qed.

Lemma injection_checks : checks (injection_layer io inv) "injection" injection_objects.
Proof.
  intros r. unfold injection_layer, looking, injection_objects. cbv zeta.
  destruct (sp_injection_detector (rn_plugin r)); [|apply pass_checks].
  destruct (ir_is_injection _); [apply deny_checks|apply pass_checks].
Qed.

Lemma command_checks : checks (command_layer io inv) "command" command_objects.
Proof.
  intros r. unfold command_layer, looking, command_objects, CommandGuard.is_blocked. cbv zeta.
  destruct (sp_command_guard (rn_plugin r)) as [g|]; [|apply pass_checks].
  destruct (starts_process _ && _); [|apply pass_checks].
  destruct (CommandGuard.check g (target inv)); [apply pass_checks|apply deny_checks].
Qed.

Lemma find_first_some {A B} (f : A → option B) (l : list A) :
  existsb (λ x, bool_decide (is_Some (f x))) l = bool_decide (is_Some (first_some f l)).
Proof.
  induction l as [|x l IH]; [done|]. simpl. rewrite IH.
  by destruct (f x).
Qed.

Lemma credential_checks : checks (credential_layer io inv) "credential" credential_objects.
Proof.
  intros r. unfold credential_layer, looking, credential_objects. cbv zeta.
  destruct (sp_credential_scanner (rn_plugin r)) as [s|]; simpl; [|apply pass_checks].
  rewrite find_first_some. destruct (first_some _ _); [apply deny_checks|apply pass_checks].
Qed.

Lemma dlp_checks : checks (dlp_layer io inv) "dlp" dlp_objects.
Proof.
  intros r. unfold dlp_layer, looking, dlp_objects. cbv zeta.
  destruct (sp_dlp_engine (rn_plugin r)) as [e|]; [|apply pass_checks].
  destruct (dr_has_matches _); [|apply pass_checks].
  destruct (dlp_block _ _ _ _); [apply deny_checks|apply note_spec].
Qed.

Lemma ssrf_checks : checks (ssrf_layer io inv) "ssrf" ssrf_objects.
Proof.
  intros r. unfold ssrf_layer, looking, ssrf_objects. cbv zeta.
  destruct (sp_ssrf_guard (rn_plugin r)) as [g|]; [|apply pass_checks].
  destruct (nonempty _); [|apply pass_checks].
  destruct (Ssrf.validate_url g (url_of inv)); [apply pass_checks|apply deny_checks].
Qed.

Lemma virus_checks : checks (virus_layer io inv) "virus" virus_objects.
Proof.
  intros r. unfold virus_layer, looking, virus_objects. cbv zeta.
  destruct (virus_threat inv _); [apply deny_checks|apply pass_checks].
Qed.

(** The plugin after the question to the auditor, and the reference it gave. *)
Definition asked (p : SecurityPlugin) : SecurityPlugin := with_auditor p (fst (abac_answer p)).
Definition reference (p : SecurityPlugin) : option str := snd (snd (abac_answer p)).

(** The layers before the auditor. *)
Definition early (layer : string) : bool := bool_decide (layer ∈ ["injection"; "command"]%string).

Definition reached (layer : string) (p : SecurityPlugin) : SecurityPlugin := if early layer then p else asked p.
Definition reached_slot (layer : string) (p : SecurityPlugin) : option str :=
  if early layer then None else reference p.

(** The audit chain after an allowed call. *)
Definition recorded (p : SecurityPlugin) : option AuditChain :=
  (λ c, fst (append_with_sign c (chain_entry io inv))) <$> sp_audit_chain p.

(** How a run of layers ends: with the first objection, or with the entry in the chain. *)
Definition ends (p : SecurityPlugin) (answer : Run * result unit DenyInfo) (o : option string) : Prop :=
  ∃ files,
    match o with
    | Some layer => ∃ tgt danger reason policy summary,
        answer = (mkRun (plugin_log io inv "denied" tgt danger reason policy
                           (with_log_files (reached layer p) files)) (reached_slot layer p),
                  Err (deny_info layer policy summary))
    | None => answer = (mkRun (with_audit_chain (with_log_files (asked p) files) (recorded p)) (reference p), Ok tt)
    end.

(** One layer in front of the others. *)
Lemma checks_cons L layer objects k p0 p slot rest o :
  checks L layer objects →
  (∀ files, reached layer p0 = p ∧ reached_slot layer p0 = slot ∧ objects (with_log_files p files) = objects p0) →
  (∀ files, ends p0 (k tt (mkRun (with_log_files p files) slot)) o) →
  o = (fst <$> List.find snd rest) →
  ∀ files, ends p0 (step_bind L k (mkRun (with_log_files p files) slot))
             (fst <$> List.find snd ((layer, objects p0) :: rest)).
Proof.
  intros HL Hp Hk -> files. pose proof (HL (mkRun (with_log_files p files) slot)) as H'.
  cbn [rn_plugin rn_slot] in H'. destruct (Hp files) as (Hr & Hs & Ho). rewrite Ho in H'.
  unfold step_bind. cbn [List.find snd]. destruct (objects p0).
  - destruct H' as (tgt & danger & reason & policy & summary & ->).
    exists files, tgt, danger, reason, policy, summary. simpl. by rewrite Hr, Hs.
  - destruct H' as [files' ->]. exact (Hk files').
Qed.

Lemma last_layers p files :
  ends p ((chain_layer io inv;; allowed_line io inv) (mkRun (with_log_files (asked p) files) (reference p))) None.
Proof.
  unfold chain_layer, step_bind, change, allowed_line, looking. cbn [rn_plugin rn_slot].
  set (q := with_audit_chain _ _).
  assert (∃ files', (if pc_log_all_operations (sp_config q)
    then note io inv "allowed" (danger_of (op io inv)) (lit "passed all security layers") "pipeline"
    else pass tt) (mkRun q (reference p)) = (mkRun (with_log_files q files') (reference p), Ok tt)) as [files' ->].
  { destruct (pc_log_all_operations (sp_config q)); [apply note_spec|apply pass_checks]. }
  by exists files'.
Qed.

Lemma late_layers p files :
  ends p ((credential_layer io inv;; dlp_layer io inv;; ssrf_layer io inv;; virus_layer io inv;;
           chain_layer io inv;; allowed_line io inv)
            (mkRun (with_log_files (asked p) files) (reference p)))
    (fst <$> List.find snd
       [ ("credential", credential_objects p); ("dlp", dlp_objects p); ("ssrf", ssrf_objects p);
         ("virus", virus_objects p) ]%string).
Proof.
  revert files. eapply (checks_cons _ _ _ _ p (asked p)); [apply credential_checks|done| |reflexivity].
  eapply (checks_cons _ _ _ _ p (asked p)); [apply dlp_checks|done| |reflexivity].
  eapply (checks_cons _ _ _ _ p (asked p)); [apply ssrf_checks|done| |reflexivity].
  eapply (checks_cons _ _ _ _ p (asked p) _ []); [apply virus_checks|done| |reflexivity].
  apply last_layers.
Qed.

Lemma abac_step p files :
  abac_layer io inv (forced_by_scan p) (mkRun (with_log_files p files) None)
  = (let r := mkRun (with_log_files (asked p) files) (reference p) in
     if abac_objects p
     then let reason := default (lit "denied by policy") (snd (fst (snd (abac_answer p)))) in
          (mkRun (plugin_log io inv "denied" (target inv) (danger_of (op io inv)) reason "abac" (rn_plugin r))
             (rn_slot r), Err (deny_info "abac" "abac" reason))
     else (r, Ok tt)).
Proof.
  unfold abac_layer, abac_objects, reference, asked.
  replace (ask_auditor io inv (rn_plugin (mkRun (with_log_files p files) None)) (forced_by_scan p))
    with (abac_answer p) by done.
  by destruct (abac_answer p) as [auditor [[[] err] ref]].
Qed.

Lemma preexec_step p files :
  ∃ files', preexec_layer io inv (mkRun (with_log_files p files) None)
  = (mkRun (with_log_files p files') None, Ok (forced_by_scan p)).
Proof.
  unfold preexec_layer, looking, forced_by_scan. cbn [rn_plugin].
  replace (preexec_hit io inv (with_log_files p files)) with (preexec_hit io inv p) by done.
  destruct (preexec_hit io inv p) as [hit|]; [|by exists files]. unfold step_bind.
  destruct (note_spec "warn" (lit "HIGH") (preexec_reason hit) "preexec_scan"
              (mkRun (with_log_files p files) None)) as [files' ->]. by exists files'.
Qed.

Lemma middle_layers p files :
  ends p ((forced <- preexec_layer io inv;
           (abac_layer io inv forced;; credential_layer io inv;; dlp_layer io inv;; ssrf_layer io inv;;
            virus_layer io inv;; chain_layer io inv;; allowed_line io inv))
            (mkRun (with_log_files p files) None))
    (fst <$> List.find snd (drop 2 (objections p))).
Proof.
  unfold step_bind at 1. destruct (preexec_step p files) as [files1 ->].
  unfold step_bind at 1. rewrite abac_step. cbv zeta.
  unfold objections. cbn [drop List.find snd]. destruct (abac_objects p); [|apply late_layers].
  exists files1. by repeat eexists.
Qed.

Lemma layers_end p : ends p (layers io inv (mkRun p None)) (objecting p).
Proof.
  assert (mkRun p None = mkRun (with_log_files p (sp_log_files p)) None) as -> by (by destruct p).
  unfold layers, objecting, objections. generalize (sp_log_files p).
  eapply (checks_cons _ _ _ _ p p); [apply injection_checks|done| |reflexivity].
  eapply (checks_cons _ _ _ _ p p); [apply command_checks|done| |reflexivity].
  apply middle_layers.
Qed.
End Contract.

Section Calls.
Context {UC : Unicode} {CC : CharClass} {FL : Float} {DS : DebugStr} {PF : Platform}.
Context `{HashOrder} `{RegexFind} `{JsonNumbers} {NET : Net} {SHA : Sha256}.

Lemma execute_off io inv p : sp_enabled p = false → execute_tracked io inv p = (p, (true, None, None)).
Proof. unfold execute_tracked. by intros ->. Qed.

Lemma execute_passes io inv p :
  sp_enabled p = true → objecting io inv p = None →
  ∃ files, execute_tracked io inv p
           = (with_audit_chain (with_log_files (asked io inv p) files) (recorded io inv p),
              (true, None, reference io inv p)).
Proof.
  intros He Ho. unfold execute_tracked. rewrite He. simpl.
  destruct (layers_end io inv p) as [files Hl]. rewrite Ho in Hl. rewrite Hl. by exists files.
Qed.

Lemma execute_refuses io inv p layer :
  sp_enabled p = true → objecting io inv p = Some layer →
  ∃ files tgt danger reason policy summary,
    execute_tracked io inv p
    = (plugin_log io inv "denied" tgt danger reason policy (with_log_files (reached io inv layer p) files),
       (false, Some (deny_info layer policy summary), reached_slot io inv layer p)).
Proof.
  intros He Ho. unfold execute_tracked. rewrite He. simpl.
  destruct (layers_end io inv p) as [files Hl]. rewrite Ho in Hl.
  destruct Hl as (tgt & danger & reason & policy & summary & ->). by repeat eexists.
Qed.

(** What a call keeps: the switch, the logger and the audit chain up to the entry of an
    allowed call. *)
Lemma execute_keeps io inv p :
  let '(p', (allowed, _, _)) := execute_tracked io inv p in
  sp_enabled p' = sp_enabled p ∧
  sp_audit_chain p' = if sp_enabled p && allowed then recorded io inv p else sp_audit_chain p.
Proof.
  destruct (sp_enabled p) eqn:He; [|by rewrite execute_off].
  destruct (objecting io inv p) as [layer|] eqn:Ho.
  - destruct (execute_refuses io inv p layer He Ho) as (files & tgt & danger & reason & policy & summary & ->).
    destruct (plugin_log_files io inv "denied" tgt danger reason policy
                (with_log_files (reached io inv layer p) files)) as [files' ->].
    unfold reached. by destruct (early layer).
  - destruct (execute_passes io inv p He Ho) as [files ->]. done.
Qed.

(** A sequence of calls and their answers. *)
Fixpoint run_calls (p : SecurityPlugin) (calls : list (ExecIo * ToolInvocation))
    : SecurityPlugin * list (bool * option DenyInfo * option str) :=
  match calls with
  | [] => (p, [])
  | (io, inv) :: calls =>
      let '(p, a) := execute_tracked io inv p in
      let '(p, answers) := run_calls p calls in
      (p, a :: answers)
  end.

(** The entries of the calls that were allowed. *)
Fixpoint allowed_entries (calls : list (ExecIo * ToolInvocation))
    (answers : list (bool * option DenyInfo * option str)) : list AppendArgs :=
  match calls, answers with
  | (io, inv) :: calls, (allowed, _, _) :: answers =>
      if (allowed : bool) then chain_entry io inv :: allowed_entries calls answers
      else allowed_entries calls answers
  | _, _ => []
  end.

Lemma append_run_cons c a args :
  ch_closed c = false →
  fst (append_run c (a :: args)) = fst (append_run (fst (append_with_sign c a)) args) ∧
  ch_closed (fst (append_with_sign c a)) = false.
Proof.
  intros Ho. destruct (append_open c a Ho) as (c' & e & E & _ & _ & Hc & _).
  cbn [append_run]. rewrite E. simpl. by destruct (append_run c' args).
Qed.

Lemma run_calls_chain calls : ∀ p c,
  sp_enabled p = true → sp_audit_chain p = Some c → ch_closed c = false →
  let '(p', answers) := run_calls p calls in
  sp_audit_chain p' = Some (fst (append_run c (allowed_entries calls answers))).
Proof.
  induction calls as [|[io inv] calls IH]; intros p c He Hc Ho; [done|].
  pose proof (execute_keeps io inv p) as Hk. cbn [run_calls].
  destruct (execute_tracked io inv p) as [p1 [[allowed d] ref]]. destruct Hk as [He1 Hc1].
  rewrite He in He1, Hc1. simpl in Hc1. unfold recorded in Hc1. rewrite Hc in Hc1.
  destruct (append_run_cons c (chain_entry io inv) [] Ho) as [_ Ho1].
  destruct allowed; simpl in Hc1.
  - specialize (IH p1 _ He1 Hc1 Ho1). destruct (run_calls p1 calls) as [p2 answers]. rewrite IH.
    cbn [allowed_entries]. by rewrite (proj1 (append_run_cons c _ _ Ho)).
  - specialize (IH p1 _ He1 Hc1 Ho). by destruct (run_calls p1 calls).
Qed.

(** *** Forced approval *)

Lemma trim_head c s : is_ws c = false → ∃ s', trim (c :: s) = c :: s'.
Proof.
  intros Hc. unfold trim, trim_start. simpl. rewrite Hc.
  destruct (trim_end_matches_prefix is_ws (c :: s)) as (a & E & Ha). unfold trim_end.
  destruct (trim_end_matches is_ws (c :: s)) as [|x s'].
  - simpl in E. subst a. simpl in Ha. by rewrite Hc in Ha.
  - simpl in E. injection E as -> _. by exists s'.
Qed.

Lemma scan_forces io inv hit :
  is_Some (forced_reason (request_of io inv (Some (preexec_reason hit)))).
Proof.
  unfold forced_reason, request_of. cbn [rq_force_approval].
  assert (∃ s, merge_force (Some (preexec_reason hit)) (override_force inv) = Some (ch "p" :: s)) as [s ->]
    by (destruct (override_force inv); simpl; eexists; reflexivity).
  destruct (trim_head (ch "p") s eq_refl) as [s' E]. cbn [fmap option_fmap option_map]. rewrite E. by eexists.
Qed.

(** A forced request that is not denied asks for the forced reason. *)
Lemma forced_asks pl req reason d r policy :
  forced_reason req = Some reason → evaluate_request pl req = (d, r, policy) → d ≠ Denied →
  d = RequireApproval ∧ r = reason.
Proof.
  unfold evaluate_request. intros ->. destruct (evaluate_request_inner pl req) as [[[] ?] ?]; intros; by simplify_eq.
Qed.
End Calls.

(** ** Properties *)

Section Properties.
Context {UC : Unicode} {CC : CharClass} {FL : Float} {DS : DebugStr} {PF : Platform}.
Context `{HashOrder} `{RegexFind} `{JsonNumbers} {NET : Net} {SHA : Sha256}.

(** C3: the pipeline implements its contract.  An enabled plugin allows a call exactly
    when no layer objects to it, and otherwise refuses it in the name of the first layer
    that objects, with the suggestion of that layer; a disabled plugin allows everything
    and changes nothing. *)
Theorem execute_refines io inv p :
  let '(p', (allowed, deny, ref)) := execute_tracked io inv p in
  if sp_enabled p then
    match objecting io inv p with
    | None => allowed = true ∧ deny = None
    | Some layer => allowed = false ∧ ∃ d, deny = Some d ∧ di_layer d = lit layer ∧
                      di_suggestion d = layer_suggestion (lit layer) ∧ is_Some (di_suggestion d)
    end
  else p' = p ∧ allowed = true ∧ deny = None ∧ ref = None.
Proof.
  destruct (sp_enabled p) eqn:He; [|by rewrite execute_off].
  destruct (objecting io inv p) as [layer|] eqn:Ho.
  - destruct (execute_refuses io inv p layer He Ho) as (files & tgt & danger & reason & policy & summary & ->).
    split; [done|]. eexists. split; [done|]. split_and!; [done..|].
    unfold objecting in Ho. apply fmap_Some in Ho as ([l b] & Hl & ->). apply List.find_some in Hl as [Hl _].
    simpl in Hl. decompose [or] Hl; simplify_eq; try done; by eexists.
  - by destruct (execute_passes io inv p He Ho) as [files ->].
Qed.

(** C4: the audit chain is the record of the allowed calls.  Over any sequence of calls on
    an enabled plugin with an open chain, the chain receives one entry per allowed call,
    in order and with its decision, nothing for a refused one, and the events verify from
    the last one before. *)
Theorem calls_recorded p c calls prev :
  sp_enabled p = true → sp_audit_chain p = Some c → ch_closed c = false → ch_last_hash c = ce_hash prev →
  let '(p', answers) := run_calls p calls in
  let '(c', events) := append_run c (allowed_entries calls answers) in
  sp_audit_chain p' = Some c' ∧ ch_closed c' = false ∧
  length events = length (List.filter (λ a : bool * option DenyInfo * option str, fst (fst a)) answers) ∧
  verify_from prev events = true.
Proof.
  intros He Hc Ho Hl. pose proof (run_calls_chain calls p c He Hc Ho) as Hrun.
  destruct (run_calls p calls) as [p' answers] eqn:Er.
  pose proof (append_run_spec c (allowed_entries calls answers) prev Ho Hl) as Hs.
  destruct (append_run c (allowed_entries calls answers)) as [c' events].
  destruct Hs as (Hlen & Hv & Hc' & _). split_and!; [done..| |done]. rewrite Hlen.
  clear - Er. revert p p' answers Er. induction calls as [|[io inv] calls IH]; intros p p' answers; simpl.
  { by intros [= _ <-]. }
  destruct (execute_tracked io inv p) as [p1 [[allowed d] ref]].
  destruct (run_calls p1 calls) as [p2 answers'] eqn:Er. intros [= _ <-]. simpl.
  destruct allowed; simpl; erewrite IH; eauto.
Qed.

(** C5: a suspicious script needs a human.  When the scan of scripts finds something and
    unattended mode is off, an allowed call was approved: a running approval manager was
    asked about this request, for the forced reason, and said yes; the reference is the
    id of the request. *)
Theorem script_needs_human io inv p p' deny ref hit :
  sp_enabled p = true → au_enabled (sp_auditor p) = true → approval_auto_enabled (sp_auditor p) = false →
  preexec_hit io inv p = Some hit →
  execute_tracked io inv p = (p', (true, deny, ref)) →
  let req := request_of io inv (Some (preexec_reason hit)) in
  ref = Some (xi_request_id io) ∧
  ∃ mgr v reason, au_approval_manager (sp_auditor p) = Some mgr ∧ mg_is_running mgr = true ∧
    forced_reason req = Some reason ∧
    mg_ask mgr (manager_question (sp_auditor p) req reason) (Some (approval_ctx inv)) = Ok v ∧
    av_approved v = true.
Proof.
  intros He Hae Hauto Hhit Hx. cbv zeta. set (req := request_of io inv _).
  destruct (objecting io inv p) as [layer|] eqn:Ho.
  { destruct (execute_refuses io inv p layer He Ho) as (files & tgt & danger & r & policy & summary & E).
    by rewrite E in Hx. }
  destruct (execute_passes io inv p He Ho) as [files E]. rewrite E in Hx. injection Hx as _ _ <-.
  assert (Ha : fst (fst (snd (abac_answer io inv p))) = true).
  { unfold objecting, objections in Ho. cbn [List.find snd] in Ho.
    destruct (injection_objects inv p); [done|]. destruct (command_objects io inv p); [done|].
    destruct (abac_objects io inv p) eqn:Eo; [done|]. by apply negb_false_iff in Eo. }
  unfold reference. assert (Ef : forced_by_scan io inv p = Some (preexec_reason hit))
    by (unfold forced_by_scan; by rewrite Hhit).
  unfold abac_answer, ask_auditor in *. rewrite Ef in *. fold req in Ha |- *.
  destruct (request_permission_tracked _ _ req _) as [st' [[al err] ref]] eqn:Ep. simpl in Ha |- *. subst al.
  apply tracked_allowed in Ep as (_ & [(? & _)|(_ & d & r & pol & Ed & Hd)]); [congruence|].
  destruct (scan_forces io inv hit) as [reason Hf]. fold req in Hf.
  destruct (forced_asks _ _ _ _ _ _ Hf Ed) as [-> ->]; [by destruct Hd as [[-> _]|[-> _]]|].
  destruct Hd as [[? _]|[_ [(_ & Hn & _)|[(_ & Ha')|(-> & mgr & v & Hm & Hrun & Hask & Hv)]]]]; [done| | |].
  - unfold req in Hn. cbn [rq_force_approval request_of] in Hn. by destruct (override_force inv).
  - by rewrite Hauto in Ha'.
  - split; [done|]. by exists mgr, v, reason.
Qed.

(** C6: a refusal leaves its line.  With a log file that is open and written to, a call
    that is refused ends with a line that says so, under the policy that refused it and
    the name of the caller. *)
Theorem refusal_logged io inv p p' d ref lg path :
  sp_audit_logger p = Some lg → lc_enabled (lg_config lg) = true → lg_log_file lg = Some path →
  (∀ policy, ls_write_ok (xi_stamp io policy) = true) →
  execute_tracked io inv p = (p', (false, Some d, ref)) →
  ∃ before e, sp_log_files p' !! path = Some (before ++ log_line e ++ [c_nl]) ∧
    le_decision e = lit "denied" ∧ le_policy_rule e = di_policy d ∧ le_user e = iv_user inv ∧
    le_operation e = op_slug (op io inv).
Proof.
  intros Hlg Hen Hf Hw Hx. destruct (sp_enabled p) eqn:He; [|by rewrite execute_off in Hx].
  destruct (objecting io inv p) as [layer|] eqn:Ho.
  2: { destruct (execute_passes io inv p He Ho) as [files E]. by rewrite E in Hx. }
  destruct (execute_refuses io inv p layer He Ho) as (files & tgt & danger & r & policy & summary & E).
  rewrite E in Hx. injection Hx as <- <- _. unfold plugin_log.
  assert (sp_audit_logger (with_log_files (reached io inv layer p) files) = Some lg) as ->
    by (unfold reached; by destruct (early layer)).
  cbn [sp_log_files with_log_files]. unfold log_event. rewrite Hen, Hf, Hw.
  rewrite lookup_insert_eq. eexists _, (log_line_of io inv "denied" tgt danger r policy). by split.
Qed.

(** Also: which calls go to the judge.  Nothing in other modes; in the critical mode the
    calls of critical tools, in the high mode those of high and critical tools with a
    destructive shape; a tool without an entry counts as critical. *)
Theorem guardian_scope `{!JsonCodec} d p tool_name args_json :
  let mode := to_lowercase (trim (sp_guardian_mode p)) in
  guardian_should_review d p tool_name args_json = true ↔
  (mode = lit "critical" ∧ is_critical_tool d tool_name = true) ∨
  (mode = lit "high" ∧ (is_critical_tool d tool_name = true ∨ is_high_tool d tool_name = true) ∧
   destructive_shaped tool_name args_json = true).
Proof.
  cbv zeta. unfold guardian_should_review, guardian_should_review_with_danger, tool_danger_level,
    effective_tool_operation, is_critical_tool, is_high_tool.
  set (mode := to_lowercase _). clearbody mode.
  assert (Hne : lit "critical" ≠ lit "high") by done.
  destruct (bool_decide_reflect (mode = lit "critical")) as [E1|E1],
    (bool_decide_reflect (mode = lit "high")) as [E2|E2]; try congruence;
    destruct (tool_to_operation d tool_name) as [o|]; cbn [default];
    rewrite ?andb_true_iff, ?orb_true_iff; naive_solver.
Qed.

(** Observed: the command guard and the scan of scripts look at the target of a call, and
    several tools that start processes have none: the interpreter and the script of
    [run_script], among others, are seen by neither, and the rules judge an empty target. *)
Theorem process_tools_without_target io inv p :
  iv_tool_name inv ∈ lit <$> ["run_script"; "run_checks"; "claude_code"; "codex_delegate"]%string →
  xi_declared io !! iv_tool_name inv = None → iv_metadata inv !! lit "override_op_type" = None →
  op io inv = ProcessExec ∧ command_objects io inv p = false ∧ preexec_hit io inv p = None ∧
  ∀ forced, rq_target (request_of io inv forced) = [].
Proof.
  rewrite !fmap_cons, fmap_nil, !elem_of_cons, elem_of_nil. intros Ht Hd Hm.
  assert (Et : target inv = []).
  { unfold target, target_of. by destruct Ht as [->|[->|[->|[->|[]]]]]. }
  split_and!.
  - unfold op, invocation_operation, effective_tool_operation, tool_to_operation, declared_tool_operation.
    rewrite Hm, Hd. by destruct Ht as [->|[->|[->|[->|[]]]]].
  - unfold command_objects. rewrite Et. destruct (sp_command_guard p); [|done]. by rewrite andb_false_r.
  - unfold preexec_hit. rewrite Et. destruct (sp_preexec p); simpl; [|done]. by rewrite andb_false_r.
  - intros forced. exact Et.
Qed.

(** Observed: a reload changes the switch, the default action and the rules, and no
    layer: the detectors, the guards, the scanner, the chain and the log stay as they
    were built, whatever the file says about them. *)
Theorem reload_keeps_layers `{!JsonCodec} exists_ read p p' answer :
  reload_config exists_ read p = (p', answer) →
  sp_injection_detector p' = sp_injection_detector p ∧ sp_command_guard p' = sp_command_guard p ∧
  sp_credential_scanner p' = sp_credential_scanner p ∧ sp_dlp_engine p' = sp_dlp_engine p ∧
  sp_ssrf_guard p' = sp_ssrf_guard p ∧ sp_scan_chain p' = sp_scan_chain p ∧
  sp_audit_chain p' = sp_audit_chain p ∧ sp_audit_logger p' = sp_audit_logger p ∧
  sp_preexec p' = sp_preexec p ∧ sp_config p' = sp_config p.
Proof.
  unfold reload_config, register_rules, plugin_set_enabled, with_switches, with_auditor. intros Hr.
  repeat case_match; by simplify_eq.
Qed.
End Properties.

(** ** Witnesses *)

Section Runs.
#[local] Existing Instances ascii_unicode ascii_class exact_float toy_debug unix map_order literal_engine literal_find unit_numbers toy_net toy_sha toy_json.

(** No layer but the rules, the scan of scripts when asked for, the chain and the log. *)
Definition demo_plugin_config (action : str) (scan : bool) : SecurityPluginConfig :=
  mkPluginConfig true false 0 false false false (lit "block") [] (lit "log") (lit "log") false [] true None
    true (Some (lit "/logs")) action 300 true scan [] [] [] [] [] [].

Definition demo_init : InitEnv :=
  mkInit (mkFile Missing None) ∅ ∅ (mkLogIo (Ok tt) (Ok tt) (Ok tt) (Ok tt)) (lit "2026-01-01") ∅.

Definition demo_plugin (action : str) (scan : bool) : SecurityPlugin :=
  let p := plugin_new demo_init (demo_plugin_config action scan) in
  with_auditor p (with_manager (sp_auditor p) (Some yes_manager)).

(** A file that is a script. *)
Definition demo_io : ExecIo :=
  mkExecIo ∅ (lit "r1") (lit "now") Auditor.demo_env
    (mkPreExecEnv None None (λ path, if path =? lit "/w/x.sh" then Some (lit "#!/bin/sh") else None))
    (λ policy, mkStamp (lit "now") (lit "evt-1") true) (lit "now") (lit "c1") true.

Definition demo_call (tool : string) (args : list (str * Value)) : ToolInvocation :=
  mkInvocation (lit tool) (VObject args) (lit "user") (lit "cli") ∅.

Definition demo_exec : ToolInvocation := demo_call "exec" [(lit "command", VString (lit "bash /w/x.sh"))].
Definition demo_script : ToolInvocation :=
  demo_call "run_script" [(lit "interpreter", VString (lit "bash")); (lit "script", VString (lit "rm -rf /"))].

Lemma calls_recorded_witness :
  let '(p', answers) := run_calls (demo_plugin (lit "allow") false) [(demo_io, demo_exec); (demo_io, demo_exec)] in
  answers = [(true, None, None); (true, None, None)] ∧
  verify_from demo_e1 (snd (append_run (mkChain Integrity.demo_config (ce_hash demo_e1) 1 0 1 false ∅)
    (allowed_entries [(demo_io, demo_exec); (demo_io, demo_exec)] answers))) = true.
Proof.
  set (c := mkChain Integrity.demo_config (ce_hash demo_e1) 1 0 1 false ∅).
  pose proof (calls_recorded (with_audit_chain (demo_plugin (lit "allow") false) (Some c)) c
    [(demo_io, demo_exec); (demo_io, demo_exec)] demo_e1 eq_refl eq_refl eq_refl eq_refl) as Hr.
  assert (Ha : snd (run_calls (with_audit_chain (demo_plugin (lit "allow") false) (Some c))
                      [(demo_io, demo_exec); (demo_io, demo_exec)]) = [(true, None, None); (true, None, None)])
    by (vm_compute; reflexivity).
  assert (Hb : snd (run_calls (demo_plugin (lit "allow") false)
                      [(demo_io, demo_exec); (demo_io, demo_exec)]) = [(true, None, None); (true, None, None)])
    by (vm_compute; reflexivity).
  destruct (run_calls (with_audit_chain _ _) _) as [p1 a1]. destruct (run_calls (demo_plugin _ _) _) as [p2 a2].
  simpl in Ha, Hb. subst a1 a2. split; [reflexivity|].
  destruct (append_run c (allowed_entries _ _)) as [c' events]. apply Hr.
Defined.

Lemma script_needs_human_witness :
  snd (execute_tracked demo_io demo_exec (demo_plugin (lit "allow") true)) = (true, None, Some (lit "r1")).
Proof.
  destruct (preexec_hit demo_io demo_exec (demo_plugin (lit "allow") true)) as [hit|] eqn:Eh;
    [|vm_compute in Eh; discriminate].
  assert (He : fst (snd (execute_tracked demo_io demo_exec (demo_plugin (lit "allow") true))) = (true, None))
    by (vm_compute; reflexivity).
  destruct (execute_tracked demo_io demo_exec (demo_plugin (lit "allow") true)) as [p' [[al d] ref]] eqn:Ex.
  injection He as -> ->.
  destruct (script_needs_human demo_io demo_exec (demo_plugin (lit "allow") true) p' None ref hit
    eq_refl eq_refl eq_refl Eh Ex) as [-> _]. reflexivity.
Defined.

Lemma refusal_logged_witness :
  ∃ before e, sp_log_files (fst (execute_tracked demo_io demo_exec (demo_plugin (lit "deny") false)))
                !! lit "/logs/security_audit_2026-01-01.log" = Some (before ++ log_line e ++ [c_nl]) ∧
    le_policy_rule e = lit "abac".
Proof.
  destruct (execute_tracked demo_io demo_exec (demo_plugin (lit "deny") false)) as [p' [[al d] ref]] eqn:Ex.
  assert (Ha : match d with Some d => al = false ∧ di_policy d = lit "abac" | None => False end).
  { replace d with (snd (fst (snd (execute_tracked demo_io demo_exec (demo_plugin (lit "deny") false)))))
      by (by rewrite Ex).
    replace al with (fst (fst (snd (execute_tracked demo_io demo_exec (demo_plugin (lit "deny") false)))))
      by (by rewrite Ex). vm_compute. split; reflexivity. }
  destruct d as [d|]; [|destruct Ha]. destruct Ha as [-> Hp].
  edestruct (refusal_logged demo_io demo_exec (demo_plugin (lit "deny") false) p' d ref) as (before & e & H1 & _ & H2 & _);
    [reflexivity|reflexivity|reflexivity|reflexivity|exact Ex|].
  exists before, e. simpl. split; [exact H1|by rewrite H2].
Defined.

Lemma process_tools_without_target_witness :
  op demo_io demo_script = ProcessExec ∧
  command_objects demo_io demo_script (plugin_new demo_init plugin_config_default) = false.
Proof.
  destruct (process_tools_without_target demo_io demo_script (plugin_new demo_init plugin_config_default)
    ltac:(left) eq_refl eq_refl) as (H1 & H2 & _). split; assumption.
Defined.

Lemma reload_keeps_layers_witness :
  let p := init_with_path demo_init plugin_config_default (lit "c.json") in
  let text := json_to_string (VObject [(lit "enabled", VBool false)]) in
  sp_enabled (fst (reload_config true (Ok text) p)) = false ∧
  sp_command_guard (fst (reload_config true (Ok text) p)) = sp_command_guard p.
Proof.
  cbv zeta. split; [vm_compute; reflexivity|].
  destruct (reload_config true (Ok (json_to_string (VObject [(lit "enabled", VBool false)])))
    (init_with_path demo_init plugin_config_default (lit "c.json"))) as [p' a] eqn:E.
  apply (reload_keeps_layers _ _ _ _ _ E).
Defined.
End Runs.
