(* ===== verification/WfGraph.v ===== *)
(** * The workflow graph (nemesis-workflow/src/scheduler.rs, parser.rs, types.rs)

    The definition of a workflow, its topological sort into execution levels and
    its validation.  A [HashMap] is a [gmap]; where the source iterates over one
    the order is that of the class [HashOrder].  An error message is a constructor
    of an inductive type that carries what the message prints. *)
From S2P Require Import Prelude RustStr.
Local Open Scope nb_scope.

(** ** Data *)

(** [serde_json::Value] travels through the workflow; the graph does not look at
    it. *)
Record NodeDef (Value : Type) := mkNode {
  nd_id : str;
  nd_node_type : str;
  nd_config : gmap str Value;
  nd_depends_on : list str;
  nd_retry_count : nat;
  nd_timeout : option str;
  nd_is_terminal : bool;
}.
Arguments mkNode {Value} _ _ _ _ _ _ _.
Arguments nd_id {Value} _.
Arguments nd_node_type {Value} _.
Arguments nd_config {Value} _.
Arguments nd_depends_on {Value} _.
Arguments nd_retry_count {Value} _.
Arguments nd_timeout {Value} _.
Arguments nd_is_terminal {Value} _.

Record Edge := mkEdge {
  ed_from_node : str;
  ed_to_node : str;
  ed_condition : option str;
}.

Record TriggerConfig (Value : Type) := mkTrigger {
  tr_trigger_type : str;
  tr_config : gmap str Value;
}.
Arguments mkTrigger {Value} _ _.
Arguments tr_trigger_type {Value} _.
Arguments tr_config {Value} _.

Record Workflow (Value : Type) := mkWorkflow {
  wf_name : str;
  wf_description : str;
  wf_version : str;
  wf_triggers : list (TriggerConfig Value);
  wf_nodes : list (NodeDef Value);
  wf_edges : list Edge;
  wf_variables : gmap str str;
  wf_metadata : gmap str str;
}.
Arguments mkWorkflow {Value} _ _ _ _ _ _ _ _.
Arguments wf_name {Value} _.
Arguments wf_triggers {Value} _.
Arguments wf_nodes {Value} _.
Arguments wf_edges {Value} _.
Arguments wf_variables {Value} _.

(** ** Topological sort *)

Inductive TopoError := CycleDetected.

#[global] Instance TopoError_eq_dec : EqDecision TopoError.
Proof. solve_decision. Defined.

Abbreviation degrees := (gmap str nat) (only parsing).
Abbreviation adjacency := (gmap str (list str)) (only parsing).

(** [adjacency.entry(from).or_default().push(to);
    *in_degree.entry(to).or_insert(0) += 1]. *)
Definition add_arc (st : adjacency * degrees) (from to : str) : adjacency * degrees :=
  (<[from := default [] (st.1 !! from) ++ [to]]> st.1,
   <[to := S (default 0 (st.2 !! to))]> st.2).

Definition add_edges (edges : list Edge) (st : adjacency * degrees) : adjacency * degrees :=
  foldl (λ st e, add_arc st (ed_from_node e) (ed_to_node e)) st edges.

Definition add_depends {V : Type} (nodes : list (NodeDef V)) (st : adjacency * degrees)
    : adjacency * degrees :=
  foldl (λ st n, foldl (λ st dep, add_arc st dep (nd_id n)) st (nd_depends_on n)) st nodes.

Definition init_degrees {V : Type} (nodes : list (NodeDef V)) : degrees :=
  foldl (λ m n, <[nd_id n := 0]> m) ∅ nodes.

Definition node_ids {V : Type} (nodes : list (NodeDef V)) : gset str :=
  foldl (λ s n, {[nd_id n]} ∪ s) ∅ nodes.

(** [*deg -= 1] on a [usize]: [None] is the overflow panic. *)
Definition usize_dec (n : nat) : option nat :=
  match n with
  | O => None
  | S n => Some n
  end.

(** One neighbour of a visited node; the second component is [next_queue]. *)
Definition relax (st : degrees * list str) (neighbor : str) : option (degrees * list str) :=
  match st.1 !! neighbor with
  | Some deg =>
      deg' ← usize_dec deg;
      Some (<[neighbor := deg']> st.1, if decide (deg' = 0) then st.2 ++ [neighbor] else st.2)
  | None => Some st
  end.

Fixpoint relax_all (st : degrees * list str) (neighbors : list str)
    : option (degrees * list str) :=
  match neighbors with
  | [] => Some st
  | nb :: neighbors => st' ← relax st nb; relax_all st' neighbors
  end.

(** [for id in &queue]. *)
Fixpoint visit_queue (adj : adjacency) (st : degrees * list str) (queue : list str)
    : option (degrees * list str) :=
  match queue with
  | [] => Some st
  | id :: queue =>
      st' ← match adj !! id with
            | Some neighbors => relax_all st neighbors
            | None => Some st
            end;
      visit_queue adj st' queue
  end.

(** [while !queue.is_empty()]: the levels and the number of visited nodes. *)
Fixpoint kahn (fuel : nat) (adj : adjacency) (deg : degrees) (queue : list str)
    (levels : list (list str)) (visited : nat) : option (list (list str) * nat) :=
  match queue, fuel with
  | [], _ => Some (levels, visited)
  | _, O => None
  | _, S fuel =>
      st ← visit_queue adj (deg, []) queue;
      kahn fuel adj st.1 st.2 (levels ++ [queue]) (visited + length queue)
  end.

(** [None] is a panic or a loop that does not end; [topological_sort_total] shows
    that it does not happen. *)
Definition topological_sort `{HashOrder} {V : Type} (nodes : list (NodeDef V)) (edges : list Edge)
    : option (result (list (list str)) TopoError) :=
  let st := add_depends nodes (add_edges edges (∅, init_degrees nodes)) in
  let queue := (filter (λ kv, kv.2 = 0) (hash_iter st.2)).*1 in
  r ← kahn (S (size st.2)) st.1 st.2 queue [] 0;
  Some (if decide (r.2 = size (node_ids nodes)) then Ok r.1 else Err CycleDetected).

(** ** Validation (parser.rs) *)

Inductive ValidateError :=
| MissingName
| NoNodes (name : str)
| NodeMissingId (name : str)
| DuplicateNodeId (id name : str)
| EdgeFromUnknown (i : nat) (id : str)
| EdgeToUnknown (i : nat) (id : str)
| DependsOnUnknown (id dep : str)
| GraphError (name : str) (e : TopoError)
| TriggerUnknown (i : nat) (trigger_type : str).

Fixpoint check_node_ids {V : Type} (name : str) (node_ids : gset str) (nodes : list (NodeDef V))
    : result (gset str) ValidateError :=
  match nodes with
  | [] => Ok node_ids
  | n :: nodes =>
      if decide (nd_id n = []) then Err (NodeMissingId name)
      else if decide (nd_id n ∈ node_ids) then Err (DuplicateNodeId (nd_id n) name)
      else check_node_ids name ({[nd_id n]} ∪ node_ids) nodes
  end.

Fixpoint check_edges (node_ids : gset str) (i : nat) (edges : list Edge)
    : result unit ValidateError :=
  match edges with
  | [] => Ok tt
  | e :: edges =>
      if decide (ed_from_node e ∉ node_ids) then Err (EdgeFromUnknown i (ed_from_node e))
      else if decide (ed_to_node e ∉ node_ids) then Err (EdgeToUnknown i (ed_to_node e))
      else check_edges node_ids (S i) edges
  end.

Fixpoint check_deps (node_ids : gset str) (id : str) (deps : list str)
    : result unit ValidateError :=
  match deps with
  | [] => Ok tt
  | dep :: deps =>
      if decide (dep ∉ node_ids) then Err (DependsOnUnknown id dep)
      else check_deps node_ids id deps
  end.

Fixpoint check_depends_on {V : Type} (node_ids : gset str) (nodes : list (NodeDef V))
    : result unit ValidateError :=
  match nodes with
  | [] => Ok tt
  | n :: nodes =>
      _ <-? check_deps node_ids (nd_id n) (nd_depends_on n);
      check_depends_on node_ids nodes
  end.

Definition known_trigger (t : str) : bool :=
  (t =? lit "cron") || (t =? lit "webhook") || (t =? lit "event") || (t =? lit "message").

Fixpoint check_triggers {V : Type} (i : nat) (triggers : list (TriggerConfig V))
    : result unit ValidateError :=
  match triggers with
  | [] => Ok tt
  | t :: triggers =>
      if known_trigger (tr_trigger_type t) then check_triggers (S i) triggers
      else Err (TriggerUnknown i (tr_trigger_type t))
  end.

(** [None] as for [topological_sort]. *)
Definition validate `{HashOrder} {V : Type} (wf : Workflow V) : option (result unit ValidateError) :=
  if decide (wf_name wf = []) then Some (Err MissingName)
  else if decide (wf_nodes wf = []) then Some (Err (NoNodes (wf_name wf)))
  else
    match
      ids <-? check_node_ids (wf_name wf) ∅ (wf_nodes wf);
      _ <-? check_edges ids 0 (wf_edges wf);
      check_depends_on ids (wf_nodes wf)
    with
    | Err e => Some (Err e)
    | Ok _ =>
        sorted ← topological_sort (wf_nodes wf) (wf_edges wf);
        match sorted with
        | Err e => Some (Err (GraphError (wf_name wf) e))
        | Ok _ => Some (check_triggers 0 (wf_triggers wf))
        end
    end.

(** ** The arcs of the graph *)

(** Every edge, then every dependency: [u -> v] when [v] waits for [u]. *)
Definition arcs {V : Type} (nodes : list (NodeDef V)) (edges : list Edge) : list (str * str) :=
  ((λ e, (ed_from_node e, ed_to_node e)) <$> edges) ++
  (nodes ≫= λ n, (λ dep, (dep, nd_id n)) <$> nd_depends_on n).

Definition add_arcs (l : list (str * str)) (st : adjacency * degrees) : adjacency * degrees :=
  foldl (λ st a, add_arc st a.1 a.2) st l.

(** The arcs into [v] from nodes outside [D]. *)
Definition pending (l : list (str * str)) (D : list str) (v : str) : nat :=
  length (filter (λ a, (a.1 ∉ D) ∧ a.2 = v) l).

Definition occ (l : list str) (v : str) : nat := length (filter (λ x, x = v) l).

Definition succs (l : list (str * str)) (u : str) : list str := (filter (λ a, a.1 = u) l).*2.

Lemma add_arcs_app l1 l2 st : add_arcs (l1 ++ l2) st = add_arcs l2 (add_arcs l1 st).
Proof. apply foldl_app. Qed.

Lemma add_edges_arcs edges st :
  add_edges edges st = add_arcs ((λ e, (ed_from_node e, ed_to_node e)) <$> edges) st.
Proof. unfold add_edges, add_arcs. by rewrite foldl_fmap. Qed.

Lemma add_depends_arcs {V : Type} (nodes : list (NodeDef V)) st :
  add_depends nodes st =
  add_arcs (nodes ≫= λ n, (λ dep, (dep, nd_id n)) <$> nd_depends_on n) st.
Proof.
  revert st. induction nodes as [|n nodes IH]; intros st; [done|].
  cbn [mbind list_bind add_depends foldl]. rewrite add_arcs_app. unfold add_depends in IH.
  rewrite IH. f_equal. unfold add_arcs. by rewrite foldl_fmap.
Qed.

Lemma add_all_arcs {V : Type} (nodes : list (NodeDef V)) edges st :
  add_depends nodes (add_edges edges st) = add_arcs (arcs nodes edges) st.
Proof. unfold arcs. by rewrite add_depends_arcs, add_edges_arcs, add_arcs_app. Qed.

Lemma succs_cons a l u : succs (a :: l) u = (if decide (a.1 = u) then [a.2] else []) ++ succs l u.
Proof. unfold succs. rewrite filter_cons. by destruct (decide _). Qed.

Lemma occ_cons x l v : occ (x :: l) v = (if decide (x = v) then 1 else 0) + occ l v.
Proof. unfold occ. rewrite filter_cons. by destruct (decide _). Qed.

Lemma occ_app l1 l2 v : occ (l1 ++ l2) v = occ l1 v + occ l2 v.
Proof. unfold occ. by rewrite filter_app, length_app. Qed.

Lemma occ_pos l v : 0 < occ l v ↔ v ∈ l.
Proof.
  induction l as [|x l IH]; [split; [unfold occ; simpl; lia|by intros ?%elem_of_nil]|].
  rewrite occ_cons, elem_of_cons, <-IH. destruct (decide (x = v)) as [->|Hne].
  - split; [intros _; by left|lia].
  - split; [intros ?; right; lia|]. intros [->|?]; [done|lia].
Qed.

Lemma add_arcs_adj l st u :
  default [] ((add_arcs l st).1 !! u) = default [] (st.1 !! u) ++ succs l u.
Proof.
  revert st. induction l as [|a l IH]; intros st; simpl.
  { by rewrite app_nil_r. }
  change (default [] ((add_arcs l (add_arc st a.1 a.2)).1 !! u) = default [] (st.1 !! u) ++ succs (a :: l) u).
  rewrite IH, succs_cons, app_assoc. f_equal. unfold add_arc; simpl.
  destruct (decide (a.1 = u)) as [<-|Hne].
  - by rewrite lookup_insert_eq.
  - by rewrite lookup_insert_ne, app_nil_r.
Qed.

(** The in-degrees count the arcs; their domain is that of the start and every
    target. *)
Lemma add_arcs_deg l st v n :
  (add_arcs l st).2 !! v = Some n ↔
  n = default 0 (st.2 !! v) + occ l.*2 v ∧ (is_Some (st.2 !! v) ∨ v ∈ l.*2).
Proof.
  revert st. induction l as [|a l IH]; intros st.
  { simpl. change (occ [] v) with 0. rewrite Nat.add_0_r. split.
    - intros E. rewrite E. split; [done|]. left. by exists n.
    - intros [-> [[m E]|?%elem_of_nil]]; [by rewrite E|done]. }
  change (add_arcs (a :: l) st) with (add_arcs l (add_arc st a.1 a.2)).
  rewrite IH. cbn [fmap list_fmap]. rewrite occ_cons, elem_of_cons.
  unfold add_arc; cbn [fst snd]. destruct (decide (a.2 = v)) as [<-|Hne].
  - rewrite lookup_insert_eq. cbn [default from_option id]. split.
    + intros [-> _]. split; [lia|]. right. by left.
    + intros [-> _]. split; [lia|]. left. by eexists.
  - rewrite lookup_insert_ne by done. split.
    + intros [-> H]. split; [lia|]. naive_solver.
    + intros [-> H]. split; [lia|]. naive_solver.
Qed.

Lemma init_degrees_lookup {V : Type} (nodes : list (NodeDef V)) v :
  init_degrees nodes !! v = if decide (v ∈ nd_id <$> nodes) then Some 0 else None.
Proof.
  unfold init_degrees.
  assert (∀ m : degrees, foldl (λ m n, <[nd_id n := 0]> m) m nodes !! v =
    if decide (v ∈ nd_id <$> nodes) then Some 0 else m !! v) as Hg; [|by rewrite Hg].
  induction nodes as [|n nodes IH]; intros m; simpl.
  { done. }
  rewrite IH. destruct (decide (v ∈ nd_id <$> nodes)) as [Hv|Hv].
  - rewrite decide_True; [done|by right].
  - destruct (decide (v = nd_id n)) as [->|Hne].
    + rewrite lookup_insert_eq, decide_True; [done|by left].
    + rewrite lookup_insert_ne by done. rewrite decide_False; [done|].
      by intros [?|?]%elem_of_cons.
Qed.

Lemma elem_of_node_ids {V : Type} (nodes : list (NodeDef V)) v :
  v ∈ node_ids nodes ↔ v ∈ nd_id <$> nodes.
Proof.
  unfold node_ids.
  assert (∀ s : gset str, v ∈ foldl (λ s n, {[nd_id n]} ∪ s) s nodes ↔
    v ∈ s ∨ v ∈ nd_id <$> nodes) as Hg; [|rewrite Hg; set_solver].
  induction nodes as [|n nodes IH]; intros s; simpl; [set_solver|].
  rewrite IH. set_solver.
Qed.

(** ** One round of the sort *)

Lemma relax_all_app st l1 l2 :
  relax_all st (l1 ++ l2) = (st' ← relax_all st l1; relax_all st' l2).
Proof.
  revert st. induction l1 as [|x l1 IH]; intros st; [done|].
  simpl. destruct (relax st x) as [st'|]; [apply IH|done].
Qed.

Lemma visit_queue_relax adj st queue :
  visit_queue adj st queue = relax_all st (queue ≫= λ id, default [] (adj !! id)).
Proof.
  revert st. induction queue as [|id queue IH]; intros st; [done|].
  cbn [mbind list_bind visit_queue]. rewrite relax_all_app.
  destruct (adj !! id) as [nbs|]; simpl; [|apply IH].
  destruct (relax_all st nbs) as [st'|]; [apply IH|done].
Qed.

(** As long as the degrees are large enough nothing overflows, and the nodes
    queued are those whose degree drops to zero. *)
Lemma relax_all_spec nbs deg nq :
  (∀ v n, deg !! v = Some n → occ nbs v ≤ n) →
  ∃ deg' nq', relax_all (deg, nq) nbs = Some (deg', nq ++ nq') ∧
    (∀ v, deg' !! v = (λ n, n - occ nbs v) <$> deg !! v) ∧ NoDup nq' ∧
    (∀ v, v ∈ nq' ↔ ∃ n, deg !! v = Some n ∧ 0 < n ∧ occ nbs v = n).
Proof.
  revert deg nq. induction nbs as [|x nbs IH]; intros deg nq Hle.
  { exists deg, []. rewrite app_nil_r. split_and!; [done| |by constructor|].
    - intros v. destruct (deg !! v); simpl; [|done]. f_equal. unfold occ; simpl; lia.
    - intros v. split; [by intros ?%elem_of_nil|]. intros (n & _ & Hn & <-). unfold occ in Hn.
      simpl in Hn. lia. }
  cbn [relax_all]. unfold relax; cbn [fst snd].
  destruct (deg !! x) as [d|] eqn:Hx; cbn [mbind option_bind].
  2: { destruct (IH deg nq) as (deg' & nq' & Hr & Hd & Hnd & Hin).
       { intros v n Hv. specialize (Hle v n Hv). rewrite occ_cons in Hle. lia. }
       exists deg', nq'. split_and!; try done.
       - intros v. rewrite Hd, occ_cons. destruct (decide (x = v)) as [<-|]; [by rewrite Hx|done].
       - intros v. rewrite Hin, occ_cons. destruct (decide (x = v)) as [<-|]; [|done].
         rewrite Hx. naive_solver. }
  pose proof (Hle x d Hx) as Hd1. rewrite occ_cons, decide_True in Hd1 by done.
  destruct d as [|d]; [lia|]. cbn [usize_dec mbind option_bind].
  destruct (IH (<[x:=d]> deg) (if decide (d = 0) then nq ++ [x] else nq))
    as (deg' & nq' & Hr & Hd & Hnd & Hin).
  { intros v n. destruct (decide (x = v)) as [<-|Hne].
    - rewrite lookup_insert_eq. intros [= <-]. lia.
    - rewrite lookup_insert_ne by done. intros Hv. specialize (Hle v n Hv).
      rewrite occ_cons in Hle. lia. }
  exists deg', ((if decide (d = 0) then [x] else []) ++ nq'). split_and!.
  - rewrite Hr, app_assoc. by destruct (decide (d = 0)); rewrite ?app_nil_r.
  - intros v. rewrite Hd, occ_cons. destruct (decide (x = v)) as [<-|Hne].
    + by rewrite lookup_insert_eq, Hx.
    + by rewrite lookup_insert_ne.
  - destruct (decide (d = 0)) as [->|]; [|done]. simpl. constructor; [|done].
    rewrite Hin, lookup_insert_eq. intros (n & [= <-] & ? & _). lia.
  - intros v. rewrite elem_of_app, Hin, occ_cons. destruct (decide (x = v)) as [<-|Hne].
    + rewrite lookup_insert_eq, Hx. destruct (decide (d = 0)) as [->|Hd0].
      * split; [|intros _; left; by left]. intros _. exists 1. repeat split; lia.
      * split.
        -- intros [?%elem_of_nil|(n & [= <-] & ? & ?)]; [done|]. exists (S d). repeat split; lia.
        -- intros (n & [= <-] & _ & ?). right. exists d. repeat split; lia.
    + rewrite lookup_insert_ne by done. destruct (decide (d = 0)); [|set_solver].
      rewrite list_elem_of_singleton. naive_solver.
Qed.

Lemma pending_cons a l D v :
  pending (a :: l) D v = (if decide ((a.1 ∉ D) ∧ a.2 = v) then 1 else 0) + pending l D v.
Proof. unfold pending. rewrite filter_cons. by destruct (decide _). Qed.

Lemma pending_nil l v : pending l [] v = occ l.*2 v.
Proof.
  induction l as [|a l IH]; [done|]. cbn [fmap list_fmap]. rewrite pending_cons, occ_cons, IH.
  f_equal. destruct (decide (a.2 = v)).
  - rewrite decide_True; [done|]. split; [apply not_elem_of_nil|done].
  - rewrite decide_False; naive_solver.
Qed.

Lemma pending_pos l D v : 0 < pending l D v ↔ ∃ u, (u, v) ∈ l ∧ u ∉ D.
Proof.
  unfold pending. split.
  - destruct (filter _ l) as [|[u w] r] eqn:E; simpl; [lia|]. intros _.
    assert ((u, w) ∈ filter (λ a, (a.1 ∉ D) ∧ a.2 = v) l) as H by (rewrite E; by left).
    apply list_elem_of_filter in H as [[Hu <-] Hl]. by exists u.
  - intros (u & Hl & Hu).
    assert ((u, v) ∈ filter (λ a, (a.1 ∉ D) ∧ a.2 = v) l) as H by by apply list_elem_of_filter.
    destruct (filter _ l); [by apply elem_of_nil in H|simpl; lia].
Qed.

(** Visiting [u] releases the arcs that leave it. *)
Lemma pending_visit1 l D u v :
  u ∉ D → pending l D v = occ (succs l u) v + pending l (D ++ [u]) v.
Proof.
  intros Hu. induction l as [|a l IH]; [done|].
  rewrite !pending_cons, succs_cons, occ_app, IH.
  destruct (decide (a.1 = u)) as [<-|Hne].
  - rewrite (decide_False (P := (a.1 ∉ D ++ [a.1]) ∧ a.2 = v)).
    2: { intros [Hn _]. apply Hn, elem_of_app. right. by left. }
    rewrite occ_cons. change (occ [] v) with 0. destruct (decide (a.2 = v)).
    + rewrite decide_True by done. lia.
    + rewrite decide_False by naive_solver. lia.
  - change (occ [] v) with 0.
    assert (a.1 ∈ D ++ [u] ↔ a.1 ∈ D) as HD.
    { rewrite elem_of_app, list_elem_of_singleton. naive_solver. }
    destruct (decide ((a.1 ∉ D) ∧ a.2 = v)) as [Hp|Hp].
    + rewrite decide_True by (by rewrite HD). lia.
    + rewrite decide_False by (by rewrite HD). lia.
Qed.

Lemma pending_visit l q D v :
  NoDup (D ++ q) → pending l D v = occ (q ≫= succs l) v + pending l (D ++ q) v.
Proof.
  revert D. induction q as [|u q IH]; intros D Hnd.
  { rewrite app_nil_r. done. }
  cbn [mbind list_bind]. rewrite (pending_visit1 l D u v).
  2: { apply NoDup_app in Hnd as (_ & Hd & _). intros Hu. apply (Hd u Hu). by left. }
  rewrite occ_app, <-Nat.add_assoc. f_equal.
  replace (D ++ u :: q) with ((D ++ [u]) ++ q) in * by (by rewrite <-app_assoc).
  by apply IH.
Qed.

(** ** The invariant of the loop *)

(** Abstract specification of the levels over the keys [K] and the arcs [l]: each
    level holds exactly the keys not yet placed that wait for nothing but keys of
    earlier levels. *)
Definition layered (K : gset str) (l : list (str * str)) (levels : list (list str)) : Prop :=
  NoDup (concat levels) ∧
  ∀ i lv, levels !! i = Some lv →
    lv ≠ [] ∧ ∀ v, v ∈ lv ↔
      v ∈ K ∧ (v ∉ concat (take i levels)) ∧ pending l (concat (take i levels)) v = 0.

(** Nothing more can be placed. *)
Definition exhausted (K : gset str) (l : list (str * str)) (D : list str) : Prop :=
  ∀ v, v ∈ K → pending l D v = 0 → v ∈ D.

(** The state of the loop after the keys [D] were visited, with queue [q]. *)
Record loop_inv (K : gset str) (l : list (str * str)) (D q : list str) (deg : degrees) := {
  li_nodup : NoDup (D ++ q);
  li_deg : ∀ v, deg !! v = if decide (v ∈ K) then Some (pending l D v) else None;
  li_mem : ∀ v, v ∈ D ++ q ↔ v ∈ K ∧ pending l D v = 0;
}.

Lemma elem_of_concat {A} (x : A) (ll : list (list A)) :
  x ∈ concat ll ↔ ∃ i lv, ll !! i = Some lv ∧ x ∈ lv.
Proof.
  induction ll as [|lv ll IH]; simpl.
  - split; [by intros ?%elem_of_nil|]. by intros (i & lv & ? & _).
  - rewrite elem_of_app, IH. split.
    + intros [H|(i & lv' & H & Hx)]; [by exists 0, lv|by exists (S i), lv'].
    + intros ([|i] & lv' & H & Hx); simpl in H; [left; by simplify_eq|right; by exists i, lv'].
Qed.

Section Loop.
Context (K : gset str) (l : list (str * str)) (adj : adjacency).
Hypothesis adj_succs : ∀ u, default [] (adj !! u) = succs l u.

Lemma loop_step D q deg :
  loop_inv K l D q deg →
  ∃ deg' q', visit_queue adj (deg, []) q = Some (deg', q') ∧ loop_inv K l (D ++ q) q' deg'.
Proof.
  intros [Hnd Hdeg Hmem].
  assert ((q ≫= λ id, default [] (adj !! id)) = (q ≫= succs l)) as Hadj.
  { clear -adj_succs. induction q as [|u q IH]; [done|]. cbn [mbind list_bind].
    by rewrite adj_succs, IH. }
  destruct (relax_all_spec (q ≫= succs l) deg []) as (deg' & q' & Hr & Hd & Hq & Hin).
  { intros v n. rewrite Hdeg. destruct (decide (v ∈ K)); [|done]. intros [= <-].
    rewrite (pending_visit l q D v Hnd). lia. }
  exists deg', q'. rewrite visit_queue_relax, Hadj. split; [done|].
  assert (∀ v, v ∈ q' ↔ v ∈ K ∧ 0 < pending l D v ∧ pending l (D ++ q) v = 0) as Hin'.
  { intros v. rewrite Hin, Hdeg. pose proof (pending_visit l q D v Hnd).
    destruct (decide (v ∈ K)); [|naive_solver]. split.
    - intros (n & [= <-] & ? & ?). repeat split; [done|done|lia].
    - intros (_ & ? & ?). eexists. repeat split; [done|lia]. }
  assert (∀ v, v ∈ D ++ q → pending l (D ++ q) v = 0) as H0.
  { intros v [_ Hv]%Hmem. rewrite (pending_visit l q D v Hnd) in Hv. lia. }
  split.
  - apply NoDup_app. split_and!; [done| |done].
    intros v [_ Hv]%Hmem (_ & Hv' & _)%Hin'. lia.
  - intros v. rewrite Hd, Hdeg. destruct (decide (v ∈ K)); [|done].
    simpl. f_equal. rewrite (pending_visit l q D v Hnd). lia.
  - intros v. rewrite elem_of_app, Hin'. split.
    + intros [Hv|(? & _ & ?)]; [|done]. split; [by apply Hmem in Hv as []|by apply H0].
    + intros [HK Hv]. destruct (decide (0 < pending l D v)); [by right|].
      left. apply Hmem. split; [done|lia].
Qed.

Lemma layered_snoc levels q deg :
  layered K l levels → loop_inv K l (concat levels) q deg → q ≠ [] →
  layered K l (levels ++ [q]).
Proof.
  intros [Hnd Hl] [Hnd' _ Hmem] Hq. split.
  { by rewrite concat_app, concat_cons, concat_nil, app_nil_r. }
  intros i lv Hi. apply lookup_app_Some in Hi as [Hi|[Hge Hi]].
  - rewrite take_app_le by (apply lookup_lt_Some in Hi; lia). by apply Hl.
  - apply list_lookup_singleton_Some in Hi as [Hi <-].
    assert (i = length levels) as -> by lia. rewrite take_app_length. split; [done|].
    intros v. specialize (Hmem v). rewrite elem_of_app in Hmem. split.
    + intros Hv. destruct (proj1 Hmem) as [HK Hp]; [by right|].
      split_and!; [done| |done]. apply NoDup_app in Hnd' as (_ & Hd & _).
      intros Hc. by apply (Hd v).
    + intros (HK & Hc & Hp). destruct (proj2 Hmem (conj HK Hp)); [done|done].
Qed.

(** Enough fuel: a round places at least one key, and there are [size K]. *)
Lemma kahn_spec fuel deg q levels :
  layered K l levels → loop_inv K l (concat levels) q deg →
  size K < fuel + length (concat levels) →
  ∃ levels', kahn fuel adj deg q levels (length (concat levels)) =
      Some (levels', length (concat levels')) ∧
    layered K l levels' ∧ exhausted K l (concat levels').
Proof.
  revert deg q levels. induction fuel as [|fuel IH]; intros deg q levels Hl Hinv Hf.
  all: destruct q as [|x q].
  1, 3: exists levels; split_and!; [done|done|];
    intros v HK Hv; rewrite <-(app_nil_r (concat levels)); by apply (li_mem _ _ _ _ _ Hinv).
  - exfalso. assert (length (concat levels) ≤ size K) as Hle; [|lia].
    destruct Hinv as [Hnd _ Hmem].
    assert (size (list_to_set (concat levels) : gset str) = length (concat levels)) as <-
      by (apply size_list_to_set; by apply NoDup_app in Hnd as []).
    apply subseteq_size. intros v. rewrite elem_of_list_to_set. intros Hv.
    apply Hmem. apply elem_of_app. by left.
  - set (qq := x :: q) in *. cbn [kahn]. unfold qq at 1.
    destruct (loop_step _ _ _ Hinv) as (deg' & q' & Hv & Hinv').
    fold qq. rewrite Hv. cbn [mbind option_bind fst snd].
    assert (concat (levels ++ [qq]) = concat levels ++ qq) as Hc
      by (by rewrite concat_app, concat_cons, concat_nil, app_nil_r).
    rewrite <-length_app, <-Hc. apply IH.
    + by eapply layered_snoc.
    + by rewrite Hc.
    + rewrite Hc, length_app. unfold qq; simpl. lia.
Qed.
End Loop.

(** The keys of the in-degree map: the nodes and every target. *)
Definition graph_keys {V : Type} (nodes : list (NodeDef V)) (edges : list Edge) : gset str :=
  node_ids nodes ∪ list_to_set (arcs nodes edges).*2.

(** The sort always ends, without overflow, with levels that meet the
    specification; the test that follows decides the answer. *)
Lemma topological_sort_layers `{HashOrder} {V : Type} (nodes : list (NodeDef V)) edges :
  ∃ levels,
    topological_sort nodes edges = Some
      (if decide (length (concat levels) = size (node_ids nodes)) then Ok levels
       else Err CycleDetected) ∧
    layered (graph_keys nodes edges) (arcs nodes edges) levels ∧
    exhausted (graph_keys nodes edges) (arcs nodes edges) (concat levels).
Proof.
  unfold topological_sort. rewrite add_all_arcs.
  set (l := arcs nodes edges). set (st := add_arcs l (∅, init_degrees nodes)).
  set (K := graph_keys nodes edges).
  assert (∀ v, st.2 !! v = if decide (v ∈ K) then Some (pending l [] v) else None) as Hdeg.
  { intros v. apply option_eq. intros n. unfold st. rewrite add_arcs_deg. cbn [snd].
    rewrite init_degrees_lookup, pending_nil.
    assert (default 0 (if decide (v ∈ nd_id <$> nodes) then Some 0 else None) = 0) as ->
      by (by destruct (decide _)).
    assert (v ∈ K ↔ (v ∈ nd_id <$> nodes) ∨ v ∈ l.*2) as HK.
    { unfold K, graph_keys. by rewrite elem_of_union, elem_of_node_ids, elem_of_list_to_set. }
    assert (is_Some (if decide (v ∈ nd_id <$> nodes) then Some 0 else None) ↔
      v ∈ nd_id <$> nodes) as ->.
    { destruct (decide (v ∈ nd_id <$> nodes)); split; done. }
    rewrite <-HK. destruct (decide (v ∈ K)); naive_solver. }
  assert (size K = size st.2) as Hsz.
  { rewrite <-size_dom. f_equal. apply set_eq. intros v. rewrite elem_of_dom, Hdeg.
    destruct (decide (v ∈ K)); split; done. }
  set (q := (filter _ (hash_iter st.2)).*1).
  destruct (kahn_spec K l st.1) with (fuel := S (size st.2)) (deg := st.2) (q := q)
    (levels := [] : list (list str)) as (levels & Hk & Hl & He).
  - intros u. unfold st. by rewrite add_arcs_adj.
  - split; [constructor|]. intros i lv Hi. by rewrite lookup_nil in Hi.
  - split; [|done|].
    + simpl. unfold q. apply (sublist_NoDup _ _ (NoDup_hash_iter st.2)).
      apply fmap_sublist. apply sublist_filter.
    + intros v. simpl. unfold q. rewrite list_elem_of_fmap. split.
      * intros ([k n] & -> & [Hn Hkn%elem_of_hash_iter]%list_elem_of_filter).
        cbn [fst snd] in *. rewrite Hdeg in Hkn. destruct (decide (k ∈ K)); naive_solver.
      * intros [HK Hp]. exists (v, 0). split; [done|]. apply list_elem_of_filter.
        split; [done|]. apply elem_of_hash_iter. rewrite Hdeg, decide_True by done. by f_equal.
  - simpl. lia.
  - exists levels. change (length (concat [])) with 0 in Hk. rewrite Hk. by split.
Qed.

(** ** The order of the levels *)

Definition arc_of (l : list (str * str)) (u v : str) : Prop := (u, v) ∈ l.

(** No node waits for itself, directly or through others. *)
Definition acyclic (l : list (str * str)) : Prop := ∀ v, ¬ tc (arc_of l) v v.

(** Every edge and every dependency joins defined nodes. *)
Definition closed {V : Type} (nodes : list (NodeDef V)) (edges : list Edge) : Prop :=
  ∀ u v, (u, v) ∈ arcs nodes edges → u ∈ node_ids nodes ∧ v ∈ node_ids nodes.

Definition in_level (levels : list (list str)) (i : nat) (v : str) : Prop :=
  ∃ lv, levels !! i = Some lv ∧ v ∈ lv.

Lemma in_level_concat levels v : v ∈ concat levels ↔ ∃ i, in_level levels i v.
Proof. rewrite elem_of_concat. unfold in_level. naive_solver. Qed.

Lemma elem_of_concat_take levels i v :
  v ∈ concat (take i levels) ↔ ∃ k, k < i ∧ in_level levels k v.
Proof.
  rewrite elem_of_concat. unfold in_level. split.
  - intros (k & lv & Hk & Hv). apply lookup_take_Some in Hk as [Hk Hlt]. by exists k; eauto.
  - intros (k & Hlt & lv & Hk & Hv). exists k, lv. by rewrite lookup_take_Some.
Qed.

Lemma tc_flip {A : Type} (R : relation A) x y : tc (flip R) x y → tc R y x.
Proof. induction 1 as [a b Hab|a b c Hab _ IH]; [by apply tc_once|by eapply tc_r]. Qed.

Section Layers.
Context (K : gset str) (l : list (str * str)) (levels : list (list str)).
Hypothesis Hl : layered K l levels.

Lemma layered_iff i v :
  i < length levels →
  in_level levels i v ↔
  v ∈ K ∧ (v ∉ concat (take i levels)) ∧ pending l (concat (take i levels)) v = 0.
Proof.
  intros [lv Hi]%lookup_lt_is_Some_2. unfold in_level. rewrite Hi.
  rewrite <-(proj2 (proj2 Hl i lv Hi) v). naive_solver.
Qed.

Lemma in_level_lt i v : in_level levels i v → i < length levels.
Proof. intros (lv & Hi & _). by apply lookup_lt_Some in Hi. Qed.

Lemma in_level_key i v : in_level levels i v → v ∈ K.
Proof. intros Hv. pose proof (in_level_lt _ _ Hv). by apply layered_iff in Hv as []. Qed.

(** A node stands in one level only. *)
Lemma in_level_inj i j v : in_level levels i v → in_level levels j v → i = j.
Proof.
  assert (∀ i j, i < j → in_level levels i v → in_level levels j v → False) as Hno.
  { clear i j. intros i j Hlt Hi Hj. pose proof (in_level_lt _ _ Hj).
    apply layered_iff in Hj as (_ & Hn & _); [|done]. apply Hn, elem_of_concat_take. eauto. }
  intros Hi Hj. destruct (lt_eq_lt_dec i j) as [[?|?]|?]; [|done|]; exfalso; eauto.
Qed.

(** The source of an arc stands in an earlier level than its target. *)
Lemma layered_arc j u v :
  (u, v) ∈ l → in_level levels j v → ∃ i, i < j ∧ in_level levels i u.
Proof.
  intros Ha Hj. pose proof (in_level_lt _ _ Hj). apply layered_iff in Hj as (_ & _ & Hp); [|done].
  apply elem_of_concat_take. destruct (decide (u ∈ concat (take j levels))) as [|Hn]; [done|].
  assert (0 < pending l (concat (take j levels)) v) as Hpos by (apply pending_pos; eauto). lia.
Qed.

(** Levels are as early as possible: a node waits for one of the level before. *)
Lemma layered_tight i v :
  in_level levels (S i) v → ∃ u, (u, v) ∈ l ∧ in_level levels i u.
Proof.
  intros Hv. pose proof (in_level_lt _ _ Hv). apply layered_iff in Hv as (HK & Hn & Hp); [|done].
  destruct (decide (0 < pending l (concat (take i levels)) v)) as [Hpos|Hz].
  - apply pending_pos in Hpos as (u & Ha & Hu). exists u. split; [done|].
    destruct (decide (u ∈ concat (take (S i) levels))) as [Hin|Hout].
    + apply elem_of_concat_take in Hin as (k & Hk & Hin).
      destruct (decide (k = i)) as [->|Hne]; [done|]. exfalso. apply Hu, elem_of_concat_take.
      exists k. split; [lia|done].
    + assert (0 < pending l (concat (take (S i) levels)) v) as Hp' by (apply pending_pos; eauto). lia.
  - exfalso. apply Hn, elem_of_concat_take. exists i. split; [lia|].
    apply layered_iff; [lia|]. split_and!; [done| |lia].
    intros (k & ? & ?)%elem_of_concat_take. apply Hn, elem_of_concat_take. exists k. split; [lia|done].
Qed.

Lemma layered_tc u v :
  (∀ u v, (u, v) ∈ l → v ∈ concat levels) →
  tc (arc_of l) u v → ∃ i j, i < j ∧ in_level levels i u ∧ in_level levels j v.
Proof.
  intros Hall. induction 1 as [u v Ha|u v w Ha _ IH].
  - destruct (proj1 (in_level_concat _ _) (Hall _ _ Ha)) as [j Hj].
    destruct (layered_arc j u v Ha Hj) as (i & ? & ?). by exists i, j.
  - destruct IH as (i & j & Hlt & Hi & Hj). destruct (layered_arc i u v Ha Hi) as (k & ? & ?).
    exists k, j. split; [lia|done].
Qed.

Lemma layered_acyclic : (∀ u v, (u, v) ∈ l → v ∈ concat levels) → acyclic l.
Proof.
  intros Hall v Hv. destruct (layered_tc v v Hall Hv) as (i & j & Hlt & Hi & Hj).
  pose proof (in_level_inj _ _ _ Hi Hj). lia.
Qed.

(** If a key is left out of exhausted levels, the arcs have a cycle. *)
Lemma exhausted_acyclic :
  exhausted K l (concat levels) → acyclic l → (∀ u v, (u, v) ∈ l → u ∈ K) →
  ∀ v, v ∈ K → v ∈ concat levels.
Proof.
  intros He Hac Hsrc v. assert (sn (flip (arc_of l)) v) as Hsn.
  { apply tc_finite_sn.
    - intros x Hx. by apply (Hac x), tc_flip.
    - exists (l.*1). intros y Hy. apply list_elem_of_fmap.
      assert (∃ w, (y, w) ∈ l) as [w Hw]; [|by exists (y, w)].
      induction Hy as [a b Hab|a b c Hab _ IH]; [by exists a|done]. }
  induction Hsn as [v _ IH]. intros HK. apply He; [done|].
  destruct (decide (0 < pending l (concat levels) v)) as [Hpos|]; [|lia].
  apply pending_pos in Hpos as (u & Ha & Hu). destruct Hu. apply IH; [done|eauto].
Qed.
End Layers.

(** What the answer of the sort means, whatever the graph. *)
Definition sorted_levels (l : list (str * str)) (ids : gset str) (levels : list (list str))
    : Prop :=
  concat levels ≡ₚ elements ids ∧
  (∀ u v j, (u, v) ∈ l → in_level levels j v → ∃ i, i < j ∧ in_level levels i u) ∧
  (∀ v i, in_level levels (S i) v → ∃ u, (u, v) ∈ l ∧ in_level levels i u).

Lemma graph_keys_closed {V : Type} (nodes : list (NodeDef V)) edges :
  closed nodes edges → graph_keys nodes edges = node_ids nodes.
Proof.
  intros Hc. apply set_eq. intros v. unfold graph_keys.
  rewrite elem_of_union, elem_of_list_to_set. split; [|by left].
  intros [?|([u w] & -> & ?%Hc)%list_elem_of_fmap]; naive_solver.
Qed.

Lemma concat_full (ids : gset str) levels :
  NoDup (concat levels) → (∀ v, v ∈ concat levels → v ∈ ids) →
  (length (concat levels) = size ids ↔ ∀ v, v ∈ ids → v ∈ concat levels) ∧
  (length (concat levels) = size ids → concat levels ≡ₚ elements ids).
Proof.
  intros Hnd Hsub. set (s := list_to_set (concat levels) : gset str).
  assert (size s = length (concat levels)) as <- by (by apply size_list_to_set).
  assert (s ⊆ ids) as Hs by (intros v ?%elem_of_list_to_set; auto).
  assert (size s = size ids → s = ids) as Heq.
  { intros He. apply set_subseteq_size_eq; [done|lia]. }
  split.
  - split.
    + intros <-%Heq v. unfold s. by rewrite elem_of_list_to_set.
    + intros Hall. f_equal. apply set_eq. intros v. unfold s. rewrite elem_of_list_to_set.
      naive_solver.
  - intros <-%Heq. unfold s. by rewrite elements_list_to_set.
Qed.

Lemma topological_sort_answer `{HashOrder} {V : Type} (nodes : list (NodeDef V)) edges
    (Hc : closed nodes edges) :
  match topological_sort nodes edges with
  | Some (Ok levels) =>
      acyclic (arcs nodes edges) ∧ sorted_levels (arcs nodes edges) (node_ids nodes) levels
  | Some (Err CycleDetected) => ¬ acyclic (arcs nodes edges)
  | None => False
  end.
Proof.
  destruct (topological_sort_layers nodes edges) as (levels & -> & Hl & He).
  rewrite graph_keys_closed in Hl, He by done.
  destruct (concat_full (node_ids nodes) levels) as [Hfull Hperm].
  { by destruct Hl. }
  { intros v [i Hv]%in_level_concat. by eapply in_level_key. }
  destruct (decide _) as [Heq|Hne].
  - pose proof (proj1 Hfull Heq) as Hin. split; [|split_and!].
    + eapply layered_acyclic; [done|]. intros u v [_ ?]%Hc. auto.
    + auto.
    + intros u v j. by eapply layered_arc.
    + intros v i. by eapply layered_tight.
  - intros Hac. apply Hne, Hfull. eapply exhausted_acyclic; [done|done|].
    by intros u v []%Hc.
Qed.

(** C33: On a graph whose edges and dependencies join defined nodes the sort always
    answers.  The answer is Ok exactly when the graph has no cycle; the levels then
    hold every node exactly once, every edge and dependency leads from an earlier
    to a later level, and no node could be moved to an earlier level. *)
Theorem topological_sort_spec `{HashOrder} {V : Type} (nodes : list (NodeDef V)) edges
    (Hc : closed nodes edges) :
  match topological_sort nodes edges with
  | Some (Ok levels) =>
      acyclic (arcs nodes edges) ∧ sorted_levels (arcs nodes edges) (node_ids nodes) levels
  | Some (Err CycleDetected) => ¬ acyclic (arcs nodes edges)
  | None => False
  end.
Proof. by apply topological_sort_answer. Qed.

Lemma concat_perm {A : Type} (l1 l2 : list (list A)) :
  Forall2 (≡ₚ) l1 l2 → concat l1 ≡ₚ concat l2.
Proof. induction 1 as [|a b x y Hab _ IH]; [done|]. simpl. by rewrite Hab, IH. Qed.

Lemma pending_perm l D D' v : D ≡ₚ D' → pending l D v = pending l D' v.
Proof. intros HD. unfold pending. f_equal. apply list_filter_iff. intros a. by rewrite HD. Qed.

#[global] Instance pending_proper l : Proper ((≡ₚ) ==> eq ==> eq) (pending l).
Proof. intros D D' HD v _ <-. by apply pending_perm. Qed.

Lemma NoDup_level {A : Type} (ll : list (list A)) i lv :
  NoDup (concat ll) → ll !! i = Some lv → NoDup lv.
Proof.
  intros Hnd Hlv. rewrite <-(take_drop_middle _ _ _ Hlv), concat_app, concat_cons in Hnd.
  by apply NoDup_app in Hnd as (_ & _ & [? _]%NoDup_app).
Qed.

Lemma layered_prefix K l levels1 levels2 i :
  layered K l levels1 → layered K l levels2 → exhausted K l (concat levels1) →
  i ≤ length levels2 →
  i ≤ length levels1 ∧ Forall2 (≡ₚ) (take i levels1) (take i levels2).
Proof.
  intros H1 H2 He. induction i as [|i IH]; intros Hi; [split; [lia|]; by constructor|].
  destruct IH as [Hle Hf]; [lia|].
  assert (concat (take i levels1) ≡ₚ concat (take i levels2)) as Hc.
  { by apply concat_perm. }
  destruct (lookup_lt_is_Some_2 levels2 i) as [lv2 Hl2]; [lia|].
  destruct (proj2 H2 i lv2 Hl2) as [Hne2 Hin2].
  assert (i < length levels1) as Hlt.
  { destruct (decide (i < length levels1)) as [|Hge]; [done|]. exfalso.
    destruct lv2 as [|v lv2]; [done|]. destruct (proj1 (Hin2 v)) as (HK & Hn & Hp0); [by left|].
    apply Hn. rewrite <-Hc. rewrite take_ge by lia. apply He; [done|].
    rewrite <-Hp0, <-Hc. by rewrite take_ge by lia. }
  split; [lia|]. destruct (lookup_lt_is_Some_2 levels1 i) as [lv1 Hl1]; [lia|].
  destruct (proj2 H1 i lv1 Hl1) as [_ Hin1].
  rewrite (take_S_r _ _ _ Hl1), (take_S_r _ _ _ Hl2). apply Forall2_app; [done|].
  constructor; [|by constructor].
  apply NoDup_Permutation.
  - exact (NoDup_level _ _ _ (proj1 H1) Hl1).
  - exact (NoDup_level _ _ _ (proj1 H2) Hl2).
  - intros v. by rewrite Hin1, Hin2, Hc.
Qed.

(** Also: The levels do not depend on the iteration order of the hash map: with two
    orders the answers agree, and level by level they hold the same nodes. *)
Theorem levels_order_independent {V : Type} (o1 o2 : HashOrder) (nodes : list (NodeDef V)) edges :
  match @topological_sort o1 V nodes edges, @topological_sort o2 V nodes edges with
  | Some (Ok levels1), Some (Ok levels2) => Forall2 (≡ₚ) levels1 levels2
  | Some (Err _), Some (Err _) => True
  | _, _ => False
  end.
Proof.
  destruct (@topological_sort_layers o1 V nodes edges) as (lv1 & -> & Hl1 & He1).
  destruct (@topological_sort_layers o2 V nodes edges) as (lv2 & -> & Hl2 & He2).
  destruct (layered_prefix _ _ lv1 lv2 (length lv2) Hl1 Hl2 He1 (le_n _)) as [Hle Hf].
  destruct (layered_prefix _ _ lv2 lv1 (length lv1) Hl2 Hl1 He2 (le_n _)) as [Hge _].
  rewrite firstn_all, take_ge in Hf by lia.
  assert (concat lv1 ≡ₚ concat lv2) as Hc.
  { by apply concat_perm. }
  rewrite (Permutation_length Hc). by destruct (decide _).
Qed.

(** ** Validation *)

Lemma check_node_ids_ok {V : Type} name (nodes : list (NodeDef V)) ids ids' :
  check_node_ids name ids nodes = Ok ids' ↔
  ids' = ids ∪ node_ids nodes ∧ NoDup (nd_id <$> nodes) ∧
  (∀ n, n ∈ nodes → nd_id n ≠ [] ∧ nd_id n ∉ ids).
Proof.
  revert ids. induction nodes as [|n nodes IH]; intros ids.
  { unfold node_ids; simpl. rewrite (right_id_L ∅ (∪)). split.
    - intros [= ->]. split_and!; [done|constructor|]. by intros n ?%elem_of_nil.
    - by intros (-> & _ & _). }
  cbn [check_node_ids fmap list_fmap]. rewrite NoDup_cons.
  assert (node_ids (n :: nodes) = {[nd_id n]} ∪ node_ids nodes) as ->.
  { apply set_eq. intros v. rewrite elem_of_union, !elem_of_node_ids. cbn [fmap list_fmap].
    rewrite elem_of_cons. set_solver. }
  setoid_rewrite elem_of_cons.
  destruct (decide (nd_id n = [])) as [Hn|Hn]; [naive_solver|].
  destruct (decide (nd_id n ∈ ids)) as [Hi|Hi]; [naive_solver|]. rewrite IH. split.
  - intros (-> & Hnd & Hall). split_and!; [set_solver| |done|].
    + intros (m & Hm & Hin)%list_elem_of_fmap. apply Hall in Hin as [_ Hin].
      apply Hin, elem_of_union. left. by apply elem_of_singleton.
    + intros m [->|Hm]; [done|]. apply Hall in Hm as [? Hm]. split; [done|].
      intros ?. by apply Hm, elem_of_union_r.
  - intros (-> & [Hnin Hnd] & Hall). split_and!; [set_solver|done|]. intros m Hm.
    destruct (Hall m (or_intror Hm)) as [Hm1 Hm2]. split; [done|].
    rewrite elem_of_union, elem_of_singleton. intros [E|?]; [|done].
    apply Hnin. rewrite <-E. by apply list_elem_of_fmap_2.
Qed.

Lemma check_edges_ok ids i edges :
  check_edges ids i edges = Ok tt ↔
  ∀ e, e ∈ edges → ed_from_node e ∈ ids ∧ ed_to_node e ∈ ids.
Proof.
  revert i. induction edges as [|e edges IH]; intros i; simpl.
  { split; [intros _ e He; by apply elem_of_nil in He|done]. }
  setoid_rewrite elem_of_cons.
  destruct (decide (ed_from_node e ∉ ids)); [naive_solver|].
  destruct (decide (ed_to_node e ∉ ids)); [naive_solver|].
  rewrite IH. split; [|naive_solver].
  intros Hall e' [->|He]; [|auto]. split; by apply dec_stable.
Qed.

Lemma check_deps_ok ids id deps :
  check_deps ids id deps = Ok tt ↔ ∀ d, d ∈ deps → d ∈ ids.
Proof.
  induction deps as [|d deps IH]; simpl.
  { split; [intros _ e He; by apply elem_of_nil in He|done]. }
  setoid_rewrite elem_of_cons. destruct (decide (d ∉ ids)); [naive_solver|].
  rewrite IH. split; [|naive_solver]. intros Hall d' [->|Hd]; [by apply dec_stable|auto].
Qed.

Lemma check_depends_on_ok {V : Type} ids (nodes : list (NodeDef V)) :
  check_depends_on ids nodes = Ok tt ↔
  ∀ n d, n ∈ nodes → d ∈ nd_depends_on n → d ∈ ids.
Proof.
  induction nodes as [|n nodes IH]; simpl.
  { split; [intros _ e d He; by apply elem_of_nil in He|done]. }
  setoid_rewrite elem_of_cons.
  destruct (check_deps ids (nd_id n) (nd_depends_on n)) as [[]|e] eqn:E; simpl.
  - rewrite IH. rewrite check_deps_ok in E. naive_solver.
  - split; [done|]. intros Hall.
    assert (check_deps ids (nd_id n) (nd_depends_on n) = Ok tt); [|congruence].
    apply check_deps_ok. naive_solver.
Qed.

Lemma check_triggers_ok {V : Type} i (triggers : list (TriggerConfig V)) :
  check_triggers i triggers = Ok tt ↔
  ∀ t, t ∈ triggers → known_trigger (tr_trigger_type t) = true.
Proof.
  revert i. induction triggers as [|t triggers IH]; intros i; simpl.
  { split; [intros _ e He; by apply elem_of_nil in He|done]. }
  setoid_rewrite elem_of_cons. destruct (known_trigger (tr_trigger_type t)) eqn:E.
  - rewrite IH. split; [|naive_solver]. by intros Hall t' [->|?]; auto.
  - split; [done|]. intros Hall. specialize (Hall t (or_introl eq_refl)). congruence.
Qed.

Lemma closed_iff {V : Type} (nodes : list (NodeDef V)) edges :
  closed nodes edges ↔
  (∀ e, e ∈ edges → ed_from_node e ∈ node_ids nodes ∧ ed_to_node e ∈ node_ids nodes) ∧
  (∀ n d, n ∈ nodes → d ∈ nd_depends_on n → d ∈ node_ids nodes).
Proof.
  unfold closed, arcs. setoid_rewrite elem_of_app. setoid_rewrite list_elem_of_bind.
  setoid_rewrite list_elem_of_fmap. split.
  - intros Hc. split; [|naive_solver]. intros e He. apply Hc. left. by exists e.
  - intros [He Hd] u v [(e & [= -> ->] & Hin)|(n & (d & [= -> ->] & Hdn) & Hn)]; [by apply He|].
    split; [by eapply Hd|]. apply elem_of_node_ids. by apply list_elem_of_fmap_2.
Qed.

(** What [validate] promises to the engine, which registers only workflows it
    accepts. *)
Record well_formed {V : Type} (wf : Workflow V) : Prop := {
  wff_name : wf_name wf ≠ [];
  wff_nodes : wf_nodes wf ≠ [];
  wff_unique : NoDup (nd_id <$> wf_nodes wf);
  wff_ids : ∀ n, n ∈ wf_nodes wf → nd_id n ≠ [];
  wff_closed : closed (wf_nodes wf) (wf_edges wf);
  wff_acyclic : acyclic (arcs (wf_nodes wf) (wf_edges wf));
  wff_triggers : ∀ t, t ∈ wf_triggers wf → known_trigger (tr_trigger_type t) = true;
}.

Lemma validate_wf `{HashOrder} {V : Type} (wf : Workflow V) :
  is_Some (validate wf) ∧ (validate wf = Some (Ok tt) ↔ well_formed wf).
Proof.
  unfold validate.
  destruct (decide (wf_name wf = [])) as [|Hname]; [split; [done|]; split; [done|by intros []]|].
  destruct (decide (wf_nodes wf = [])) as [|Hnodes]; [split; [done|]; split; [done|by intros []]|].
  destruct (check_node_ids _ _ _) as [ids|e] eqn:Hids; simpl.
  2: { split; [done|]. split; [done|]. intros [].
       assert (check_node_ids (wf_name wf) ∅ (wf_nodes wf) = Ok (∅ ∪ node_ids (wf_nodes wf)))
         as E; [|congruence].
       apply check_node_ids_ok. split_and!; [done|done|]. set_solver. }
  apply check_node_ids_ok in Hids as (-> & Hnd & Hne). rewrite (left_id_L ∅ (∪)).
  pose proof (check_edges_ok (node_ids (wf_nodes wf)) 0 (wf_edges wf)) as Hedges.
  destruct (check_edges _ _ _) as [[]|e]; simpl.
  2: { split; [done|]. split; [done|]. intros []. exfalso.
       assert (Err e = Ok tt); [|done]. by apply Hedges, closed_iff. }
  pose proof (check_depends_on_ok (node_ids (wf_nodes wf)) (wf_nodes wf)) as Hdeps.
  destruct (check_depends_on _ _) as [[]|e].
  2: { split; [done|]. split; [done|]. intros []. exfalso.
       assert (Err e = Ok tt); [|done]. apply Hdeps. by apply (closed_iff (wf_nodes wf) (wf_edges wf)). }
  assert (closed (wf_nodes wf) (wf_edges wf)) as Hc by (apply closed_iff; naive_solver).
  pose proof (topological_sort_answer (wf_nodes wf) (wf_edges wf) Hc) as Hs.
  destruct (topological_sort _ _) as [[lv|[]]|]; simpl; [|split; [done|]; split; [done|by intros []]|done].
  split; [done|]. split.
  - intros [= Ht]. rewrite check_triggers_ok in Ht. split; naive_solver.
  - intros []. f_equal. by apply check_triggers_ok.
Qed.

Lemma validate_ok `{HashOrder} {V : Type} (wf : Workflow V) :
  validate wf = Some (Ok tt) → well_formed wf.
Proof. apply validate_wf. Qed.

(** Also: Validation always answers, and accepts exactly the well-formed workflows:
    a name, at least one node, unique and nonempty node ids, edges and dependencies
    between defined nodes only, no cycle, known trigger types. *)
Theorem validate_iff `{HashOrder} {V : Type} (wf : Workflow V) :
  is_Some (validate wf) ∧ (validate wf = Some (Ok tt) ↔ well_formed wf).
Proof. apply validate_wf. Qed.

(** ** Witnesses and observations *)

#[local] Existing Instance map_order.

Definition plain_node (id : str) (deps : list str) : NodeDef unit :=
  mkNode id (lit "delay") ∅ deps 0 None false.

(** a before b (edge), b before c (dependency), a before d. *)
Definition demo_nodes : list (NodeDef unit) :=
  [plain_node (lit "a") []; plain_node (lit "b") []; plain_node (lit "c") [lit "b"];
   plain_node (lit "d") []].
Definition demo_edges : list Edge :=
  [mkEdge (lit "a") (lit "b") None; mkEdge (lit "a") (lit "d") None].

Example demo_sorted :
  topological_sort demo_nodes demo_edges =
  Some (Ok [[lit "a"]; [lit "b"; lit "d"]; [lit "c"]]).
Proof. reflexivity. Qed.

Lemma topological_sort_spec_witness :
  closed demo_nodes demo_edges ∧
  acyclic (arcs demo_nodes demo_edges) ∧
  sorted_levels (arcs demo_nodes demo_edges) (node_ids demo_nodes)
    [[lit "a"]; [lit "b"; lit "d"]; [lit "c"]].
Proof.
  assert (closed demo_nodes demo_edges) as Hc.
  { intros u v Hin.
    repeat (apply elem_of_cons in Hin as [[= -> ->]|Hin];
      [split; apply (bool_decide_unpack _); vm_compute; exact I|]).
    by apply elem_of_nil in Hin. }
  split; [exact Hc|]. exact (topological_sort_spec demo_nodes demo_edges Hc).
Defined.

(** Observed: an edge to an undefined node is counted among the visited nodes, so an
    acyclic graph is reported as a cycle; with a node that waits for itself the
    counts agree, and the answer is Ok without that node. *)
Theorem dangling_edge_miscounted :
  topological_sort [plain_node (lit "a") []] [mkEdge (lit "a") (lit "ghost") None]
    = Some (Err CycleDetected) ∧
  topological_sort [plain_node (lit "a") []; plain_node (lit "b") []]
      [mkEdge (lit "b") (lit "b") None; mkEdge (lit "a") (lit "ghost") None]
    = Some (Ok [[lit "a"]; [lit "ghost"]]).
Proof. split; reflexivity. Qed.
