(* ===== verification/WfContext.v ===== *)
(** * Workflow context, templates and conditions (nemesis-workflow/src/context.rs,
      nodes.rs, and the context builder of scheduler.rs)

    What a node sees of the execution so far: variables, node results and input,
    merged into one flat map; the [{{name}}] templates resolved against it, and the
    conditions of condition nodes and conditional edges.  JSON values are those of
    Json.v. *)
From S2P Require Import Prelude RustStr Json WfGraph.
Local Open Scope nb_scope.

(** ** Execution state and context *)

Inductive ExecutionState := Pending | Running | Completed | Failed | Cancelled | Waiting.

#[global] Instance ExecutionState_eq_dec : EqDecision ExecutionState.
Proof. solve_decision. Defined.

Record NodeResult `{JsonNumbers} := mkNodeResult {
  nr_node_id : str;
  nr_output : Value;
  nr_error : option str;
  nr_state : ExecutionState;
  nr_started_at : N;
  nr_ended_at : N;
  nr_metadata : gmap str Value;
}.
Arguments mkNodeResult {_} _ _ _ _ _ _ _.

Record WorkflowContext `{JsonNumbers} := mkWfCtx {
  wc_variables : gmap str Value;
  wc_node_results : gmap str NodeResult;
  wc_input : gmap str Value;
}.
Arguments mkWfCtx {_} _ _ _.

Section Context_ops.
Context `{JsonNumbers}.

Definition wf_ctx_new (input : gmap str Value) : WorkflowContext := mkWfCtx ∅ ∅ input.

Definition set_var (c : WorkflowContext) (key : str) (v : Value) : WorkflowContext :=
  mkWfCtx (<[key := v]> (wc_variables c)) (wc_node_results c) (wc_input c).

Definition get_var (c : WorkflowContext) (key : str) : option Value := wc_variables c !! key.

Definition set_node_result (c : WorkflowContext) (id : str) (r : NodeResult) : WorkflowContext :=
  mkWfCtx (wc_variables c) (<[id := r]> (wc_node_results c)) (wc_input c).

Definition get_node_result (c : WorkflowContext) (id : str) : option NodeResult :=
  wc_node_results c !! id.

(** [value_to_string]: unlike [plain_text] it renders null as the empty string. *)
Definition value_to_string `{!JsonText} (v : Value) : str :=
  match v with
  | VString s => s
  | VNull => []
  | other => json_text other
  end.

Definition get_var_str `{!JsonText} (c : WorkflowContext) (key : str) : option str :=
  match get_var c key with
  | Some (VString s) => Some s
  | Some other => Some (value_to_string other)
  | None => None
  end.
End Context_ops.

(** ** The flat context of the node executors *)

Section Build.
Context `{JsonNumbers} `{HashOrder}.

Abbreviation ExecCtx := (gmap str Value) (only parsing).

(** One entry with the fields of an object laid out as [key.field]. *)
Definition insert_flat (ctx : ExecCtx) (kv : str * Value) : ExecCtx :=
  let ctx' :=
    match as_object kv.2 with
    | Some obj => foldl (λ c fv, <[kv.1 ++ lit "." ++ fv.1 := fv.2]> c) ctx obj
    | None => ctx
    end in
  <[kv.1 := kv.2]> ctx'.

Definition build_executor_context (w : WorkflowContext) : ExecCtx :=
  let ctx := foldl insert_flat ∅ (hash_iter (wc_input w)) in
  let ctx := foldl (λ c kv, <[kv.1 := kv.2]> c) ctx (hash_iter (wc_variables w)) in
  foldl (λ c kr, insert_flat c (kr.1, nr_output kr.2)) ctx (hash_iter (wc_node_results w)).
End Build.

(** ** Templates *)

Section Templates.
Context `{JsonText} `{HashOrder}.

Definition placeholder (k : str) : str := lit "{{" ++ k ++ lit "}}".

(** [resolve_prompt_template]. *)
Definition resolve_prompt_template (template : str) (context : gmap str Value) : str :=
  foldl (λ out kv, replace_str (placeholder kv.1) (plain_text kv.2) out)
    template (hash_iter context).

Definition placeholder_ref (inner : str) : str * option str :=
  match split_once (lit ".") inner with
  | Some (head, field) => (trim head, Some (trim field))
  | None => (trim inner, None)
  end.

(** Every step drops at least two characters ([placeholder_refs_fuel]). *)
Fixpoint placeholder_refs_from (fuel : nat) (rest : str) : list (str * option str) :=
  match fuel with
  | O => []
  | S fuel =>
      match find_str (lit "{{") rest with
      | None => []
      | Some start =>
          let after := drop (start + 2) rest in
          match find_str (lit "}}") after with
          | None => []
          | Some e =>
              let inner := trim (take e after) in
              (if nonempty inner then [placeholder_ref inner] else []) ++
              placeholder_refs_from fuel (drop (e + 2) after)
          end
      end
  end.

Definition placeholder_refs (cond : str) : list (str * option str) :=
  placeholder_refs_from (S (length cond)) cond.
End Templates.

(** ** Conditions *)

Inductive CmpOp := OpGe | OpLe | OpEq | OpNe | OpGt | OpLt.

#[global] Instance CmpOp_eq_dec : EqDecision CmpOp.
Proof. solve_decision. Defined.

Definition op_text (op : CmpOp) : str :=
  match op with
  | OpGe => lit ">="
  | OpLe => lit "<="
  | OpEq => lit "=="
  | OpNe => lit "!="
  | OpGt => lit ">"
  | OpLt => lit "<"
  end.

(** Longest first. *)
Definition all_ops : list CmpOp := [OpGe; OpLe; OpEq; OpNe; OpGt; OpLt].

(** A comparison given what [partial_cmp] answers. *)
Definition op_holds (op : CmpOp) (c : option comparison) : bool :=
  match op, c with
  | OpGe, Some (Gt | Eq) => true
  | OpLe, Some (Lt | Eq) => true
  | OpEq, Some Eq => true
  | OpNe, Some Eq => false
  | OpNe, _ => true
  | OpGt, Some Gt => true
  | OpLt, Some Lt => true
  | _, _ => false
  end.

Definition str_cmp (a b : str) : comparison :=
  if a =? b then Eq else if str_lt a b then Lt else Gt.

Section Conditions.
Context `{JsonText} `{HashOrder} `{Unicode}.

Definition is_truthy_str (s : str) : bool :=
  let t := trim s in
  nonempty t && negb (ascii_lower <$> t =? lit "false") && (t <>? lit "0") && (t <>? lit "0.0").

Definition is_truthy (v : Value) : bool :=
  match v with
  | VNull => false
  | VBool b => b
  | VNumber n => match num_as_f64 n with Some x => f64_nonzero x | None => false end
  | VString s => nonempty s
  | VArray a => match a with [] => false | _ => true end
  | VObject o => match o with [] => false | _ => true end
  end.

(** Both ends are the same quote, and there are two of them. *)
Definition is_quoted (s : str) : bool :=
  match s, last s with
  | c :: _ :: _, Some d => (N.eqb c c_dquote && N.eqb d c_dquote) || (N.eqb c c_squote && N.eqb d c_squote)
  | _, _ => false
  end.

Definition resolve_operand (s : str) (context : gmap str Value) : Value :=
  let trimmed := trim s in
  if negb (nonempty trimmed) then VNull
  else if is_quoted trimmed then VString (take (length trimmed - 2) (drop 1 trimmed))
  else match context !! trimmed with
  | Some v => v
  | None =>
      match parse_f64 trimmed ≫= num_from_f64 with
      | Some n => VNumber n
      | None =>
          if trimmed =? lit "true" then VBool true
          else if trimmed =? lit "false" then VBool false
          else if trimmed =? lit "null" then VNull
          else VString trimmed
      end
  end.

Definition compare_values (left right : str) (op : CmpOp) (context : gmap str Value) : bool :=
  let lv := resolve_operand left context in
  let rv := resolve_operand right context in
  match as_f64 lv, as_f64 rv with
  | Some a, Some b => op_holds op (f64_partial_cmp a b)
  | _, _ => op_holds op (Some (str_cmp (plain_text lv) (plain_text rv)))
  end.

(** The first operator that occurs, with the two sides. *)
Fixpoint split_op (ops : list CmpOp) (s : str) : option (CmpOp * str * str) :=
  match ops with
  | [] => None
  | op :: ops =>
      match split_once (op_text op) s with
      | Some (l, r) => Some (op, l, r)
      | None => split_op ops s
      end
  end.

(** Step 2: the literal truth values. *)
Definition literal_bool (s : str) : option bool :=
  let t := to_lowercase s in
  if (t =? lit "true") || (t =? lit "yes") || (t =? lit "1") then Some true
  else if (t =? lit "false") || (t =? lit "no") || (t =? lit "0") then Some false
  else None.

(** [evaluate_condition]: after a leading exclamation mark the function calls itself
    on what follows, which is resolved again; [None] is a recursion deeper than
    [fuel]. *)
Fixpoint evaluate_condition (fuel : nat) (condition : str) (context : gmap str Value)
    : option bool :=
  match fuel with
  | O => None
  | S fuel =>
      let condition := trim condition in
      if negb (nonempty condition) then Some false
      else
        let resolved := trim (resolve_prompt_template condition context) in
        match strip_prefix (lit "!") resolved with
        | Some rest => negb <$> evaluate_condition fuel rest context
        | None =>
            match literal_bool resolved with
            | Some b => Some b
            | None =>
                match split_op all_ops resolved with
                | Some (op, l, r) => Some (compare_values (trim l) (trim r) op context)
                | None =>
                    match context !! resolved with
                    | Some v => Some (is_truthy v)
                    | None => Some (is_truthy_str resolved)
                    end
                end
            end
        end
  end.

(** [ConditionNodeExecutor::execute]; [now] and [ended] are its two clock
    readings. *)
Definition condition_node_execute (fuel : nat) (now ended : N) (node : NodeDef Value)
    (context : gmap str Value) : option NodeResult :=
  let condition := default (lit "false") (nd_config node !! lit "condition" ≫= as_str) in
  r ← evaluate_condition fuel condition context;
  Some (mkNodeResult (nd_id node) (VObject [(lit "condition_result", VBool r)]) None Completed
          now ended ∅).
End Conditions.

(** ** Lemmas on replacement *)

Lemma contains_cons_false (p : str) c s :
  contains p (c :: s) = false ↔ starts_with p (c :: s) = false ∧ contains p s = false.
Proof.
  unfold contains. cbn [find_str]. destruct (starts_with p (c :: s)); [naive_solver|].
  destruct (find_str p s); naive_solver.
Qed.

Lemma contains_false_app (p a s : str) : contains p (a ++ s) = false → contains p s = false.
Proof.
  induction a as [|c a IH]; [done|]. cbn [app]. rewrite contains_cons_false. naive_solver.
Qed.

(** Contrapositive form: a part contains no more than the whole. *)
Lemma contains_false_part (p a s b : str) :
  contains p (a ++ s ++ b) = false → contains p s = false.
Proof.
  intros Hf%contains_false_app. destruct (contains p s) eqn:E; [|done].
  apply contains_iff in E as (x & y & ->). rewrite <-Hf. symmetry. apply contains_iff.
  exists x, (y ++ b). by rewrite <-!app_assoc.
Qed.

Lemma replace_str_absent (p r s : str) : contains p s = false → replace_str p r s = s.
Proof.
  unfold replace_str. induction s as [|c s IH]; [done|].
  rewrite contains_cons_false. intros [Hs Hc]. cbn [replace_str_aux]. by rewrite Hs, IH.
Qed.

(** Characters that do not start the pattern pass through. *)
Lemma replace_str_skip (p r w s : str) c p' :
  p = c :: p' → c ∉ w → replace_str p r (w ++ s) = w ++ replace_str p r s.
Proof.
  intros -> Hc. unfold replace_str. induction w as [|d w IH]; [done|].
  rewrite not_elem_of_cons in Hc. destruct Hc as [Hne Hc]. cbn [app replace_str_aux starts_with].
  assert (N.eqb c d = false) as -> by (by apply N.eqb_neq). cbn [andb]. by rewrite IH.
Qed.

Lemma replace_str_here (p r s : str) :
  p ≠ [] → replace_str p r (p ++ s) = r ++ replace_str p r s.
Proof.
  destruct p as [|c p]; [done|]. intros _. unfold replace_str. cbn [app replace_str_aux].
  pose proof (starts_with_app (c :: p) s) as Hsw. cbn [app] in Hsw. rewrite Hsw. f_equal.
  cbn [length]. replace (S (length p) - 1) with (length p) by lia.
  generalize (c :: p) as q; intros q. clear. induction p as [|d p IH]; [done|]. exact IH.
Qed.

Lemma starts_with_app_r (p p' s w : str) z :
  p = p' ++ [z] → z ∉ w → starts_with p (s ++ w) = starts_with p s.
Proof.
  intros -> Hz. apply eq_true_iff_eq. rewrite !starts_with_iff. split; intros [t Ht].
  - rewrite <-app_assoc in Ht. destruct (decide (length (p' ++ [z]) ≤ length s)) as [Hle|Hgt].
    + exists (drop (length (p' ++ [z])) s).
      rewrite <-(take_drop (length (p' ++ [z])) s) at 1. f_equal.
      rewrite <-(take_app_le s w) by done. rewrite Ht, app_assoc. by rewrite take_app_length.
    + exfalso. apply Hz. rewrite length_app in Hgt. cbn [length] in Hgt.
      assert (drop (length s) (s ++ w) !! (length p' - length s) = Some z) as Hl.
      { rewrite Ht, lookup_drop. replace (length s + (length p' - length s)) with (length p') by lia.
        by rewrite lookup_app_r, Nat.sub_diag by done. }
      rewrite drop_app_length in Hl. by eapply list_elem_of_lookup_2.
  - exists (t ++ w). by rewrite Ht, app_assoc.
Qed.

(** So do characters after the end of the pattern. *)
Lemma replace_str_suffix (p r s w : str) c p1 z p2 :
  p = c :: p1 → p = p2 ++ [z] → c ∉ w → z ∉ w →
  replace_str p r (s ++ w) = replace_str p r s ++ w.
Proof.
  intros Hc Hz Hcw Hzw. unfold replace_str.
  assert (∀ k, k ≤ length s → replace_str_aux p r (s ++ w) k = replace_str_aux p r s k ++ w)
    as Hg; [|apply Hg; lia].
  induction s as [|d s IH]; intros k Hk.
  - assert (k = 0) as -> by (simpl in Hk; lia). cbn [app].
    pose proof (replace_str_skip p r w [] c p1 Hc Hcw) as Hs. unfold replace_str in Hs.
    rewrite !app_nil_r in Hs. by rewrite Hs.
  - cbn [app replace_str_aux]. destruct k as [|k].
    + change (d :: s ++ w) with ((d :: s) ++ w). rewrite (starts_with_app_r p p2 (d :: s) w z Hz Hzw).
      destruct (starts_with p (d :: s)) eqn:E.
      * rewrite IH; [by rewrite app_assoc|].
        apply starts_with_iff in E as [t Ht].
        assert (length (d :: s) = length p + length t) as Hlen by (by rewrite Ht, length_app).
        simpl in Hlen. lia.
      * rewrite IH by lia. done.
    + apply IH. simpl in Hk. lia.
Qed.

Section Template_lemmas.
Context `{JsonText} `{HashOrder}.

Lemma placeholder_contains k s : contains (lit "{{") s = false → contains (placeholder k) s = false.
Proof.
  intros Hf. destruct (contains (placeholder k) s) eqn:E; [|done].
  apply contains_iff in E as (a & b & ->). rewrite <-Hf. symmetry. apply contains_iff.
  exists a, (k ++ lit "}}" ++ b). unfold placeholder. by rewrite <-!app_assoc.
Qed.

(** Text without an opening pair of braces is left alone. *)
Lemma resolve_plain s ctx :
  contains (lit "{{") s = false → resolve_prompt_template s ctx = s.
Proof.
  intros Hf. unfold resolve_prompt_template. induction (hash_iter ctx) as [|kv l IH]; [done|].
  cbn [foldl]. by rewrite replace_str_absent by by apply placeholder_contains.
Qed.

Lemma resolve_blank w1 w2 s ctx :
  forallb is_ws w1 = true → forallb is_ws w2 = true →
  resolve_prompt_template (w1 ++ s ++ w2) ctx = w1 ++ resolve_prompt_template s ctx ++ w2.
Proof.
  intros Hw1 Hw2. unfold resolve_prompt_template.
  assert (∀ c w, forallb is_ws w = true → is_ws c = false → c ∉ w) as Hno.
  { intros c w Hw Hc Hin. rewrite forallb_Forall_true, Forall_forall in Hw.
    rewrite Hw in Hc; done. }
  revert s. induction (hash_iter ctx) as [|kv l IH]; intros s; [done|]. cbn [foldl].
  rewrite (replace_str_skip _ _ w1 _ 123%N (lit "{" ++ kv.1 ++ lit "}}")); [|done|by apply Hno].
  rewrite (replace_str_suffix _ _ s w2 123%N (lit "{" ++ kv.1 ++ lit "}}") 125%N
    (lit "{{" ++ kv.1 ++ lit "}")); [apply IH|done| |by apply Hno|by apply Hno].
  unfold placeholder. by rewrite <-!app_assoc.
Qed.

Lemma trim_parts s :
  ∃ w1 w2, s = w1 ++ trim s ++ w2 ∧ forallb is_ws w1 = true ∧ forallb is_ws w2 = true.
Proof.
  destruct (trim_start_matches_suffix is_ws s) as (w1 & Hs & Hw1).
  destruct (trim_start_matches_suffix is_ws (rev (trim_start s))) as (w2 & Hr & Hw2).
  exists w1, (rev w2). split_and!; [|done|].
  - unfold trim, trim_end, trim_end_matches. rewrite Hs at 1. f_equal.
    fold (trim_start s). rewrite <-(rev_involutive (trim_start s)) at 1.
    rewrite Hr at 1. by rewrite rev_app_distr.
  - rewrite forallb_forall in *. intros x Hx%in_rev. by apply Hw2.
Qed.

Lemma contains_trim p s : contains p s = false → contains p (trim s) = false.
Proof.
  intros Hf. destruct (trim_parts s) as (w1 & w2 & Hs & _). rewrite Hs in Hf.
  by apply contains_false_part in Hf.
Qed.

Lemma length_trim s : length (trim s) ≤ length s.
Proof.
  destruct (trim_parts s) as (w1 & w2 & Hs & _). rewrite Hs at 2. rewrite !length_app. lia.
Qed.

(** Trimming the condition first makes no difference. *)
Lemma resolve_trim s ctx :
  ∃ w1 w2, resolve_prompt_template s ctx = w1 ++ resolve_prompt_template (trim s) ctx ++ w2.
Proof.
  destruct (trim_parts s) as (w1 & w2 & Hs & Hw1 & Hw2). exists w1, w2.
  rewrite Hs at 1. by apply resolve_blank.
Qed.
End Template_lemmas.

Lemma placeholder_refs_fuel fuel fuel' rest :
  length rest < fuel → length rest < fuel' →
  placeholder_refs_from fuel rest = placeholder_refs_from fuel' rest.
Proof.
  revert fuel' rest. induction fuel as [|fuel IH]; intros [|fuel'] rest Hf Hf'; try lia.
  cbn [placeholder_refs_from]. destruct (find_str (lit "{{") rest) as [i|] eqn:Hi; [|done].
  destruct (find_str (lit "}}") (drop (i + 2) rest)) as [e|] eqn:He; [|done].
  assert (length (drop (e + 2) (drop (i + 2) rest)) < length rest) as Hlt.
  { apply find_str_Some in Hi as (a & b & -> & <-). rewrite !length_drop, !length_app.
    change (length (lit "{{")) with 2. lia. }
  f_equal. apply IH; lia.
Qed.

(** ** Termination of the evaluation *)

Section Condition_lemmas.
Context `{JsonText} `{HashOrder} `{Unicode}.

Lemma evaluate_step_some fuel condition ctx :
  (∀ rest, trim (resolve_prompt_template (trim condition) ctx) = lit "!" ++ rest →
     is_Some (evaluate_condition fuel rest ctx)) →
  is_Some (evaluate_condition (S fuel) condition ctx).
Proof.
  intros Hrest. cbn [evaluate_condition].
  destruct (negb (nonempty (trim condition))); [by eexists|].
  destruct (strip_prefix _ _) as [rest|] eqn:E.
  - apply strip_prefix_Some in E. destruct (Hrest rest E) as [b ->]. by eexists.
  - destruct (literal_bool _); [by eexists|].
    destruct (split_op _ _) as [[[op l] r]|]; [by eexists|].
    destruct (ctx !! _); by eexists.
Qed.

Lemma evaluate_plain_total fuel s ctx :
  contains (lit "{{") s = false → length s < fuel → is_Some (evaluate_condition fuel s ctx).
Proof.
  revert s. induction fuel as [|fuel IH]; intros s Hf Hl; [lia|].
  apply evaluate_step_some. intros rest E.
  apply contains_trim in Hf. rewrite resolve_plain in E by done.
  pose proof (contains_trim _ _ Hf) as Hf2. rewrite E in Hf2.
  pose proof (length_trim s). pose proof (length_trim (trim s)) as Hl2.
  rewrite E in Hl2. rewrite length_app in Hl2. cbn [lit length] in Hl2.
  apply IH; [by apply contains_false_app in Hf2|lia].
Qed.

Lemma evaluate_resolved_total s ctx :
  contains (lit "{{") (resolve_prompt_template s ctx) = false →
  is_Some (evaluate_condition (S (S (length (resolve_prompt_template s ctx)))) s ctx).
Proof.
  destruct (resolve_trim s ctx) as (w1 & w2 & E). rewrite E. intros Hf%contains_false_part.
  apply evaluate_step_some. intros rest Hr.
  pose proof (contains_trim _ _ Hf) as Hf2.
  pose proof (length_trim (resolve_prompt_template (trim s) ctx)) as Hl.
  rewrite Hr in Hf2, Hl. apply contains_false_app in Hf2.
  apply evaluate_plain_total; [done|]. rewrite length_app in Hl. rewrite !length_app.
  cbn [lit length] in Hl. lia.
Qed.
End Condition_lemmas.

(** ** What the flat context holds *)

Definition dot_free (k : str) : Prop := c_dot ∉ k.

Lemma dot_key_inj (a b f g : str) :
  dot_free a → dot_free b → a ++ lit "." ++ f = b ++ lit "." ++ g → a = b ∧ f = g.
Proof.
  unfold dot_free. revert b. induction a as [|x a IH]; intros [|y b] Ha Hb E; cbn in E.
  - by simplify_eq.
  - simplify_eq. destruct Hb. by left.
  - simplify_eq. destruct Ha. by left.
  - simplify_eq. rewrite not_elem_of_cons in Ha, Hb.
    destruct (IH b) as [-> ->]; [naive_solver|naive_solver|done|done].
Qed.

Lemma dot_key_not_free (a f : str) : ¬ dot_free (a ++ lit "." ++ f).
Proof. intros Hd. apply Hd. apply elem_of_app. right. by left. Qed.

Section Flat.
Context `{JsonNumbers}.

Abbreviation ExecCtx := (gmap str Value) (only parsing).

Definition flat (l : list (str * Value)) : ExecCtx := foldl insert_flat ∅ l.

Definition fields_of (v : Value) : list (str * Value) := default [] (as_object v).

(** The keys that an entry writes. *)
Definition writes (kv : str * Value) (k : str) : Prop :=
  k = kv.1 ∨ ∃ f, f ∈ (fields_of kv.2).*1 ∧ k = kv.1 ++ lit "." ++ f.

Definition insert_fields (id : str) (ctx : ExecCtx) (obj : list (str * Value)) : ExecCtx :=
  foldl (λ c fv, <[id ++ lit "." ++ fv.1 := fv.2]> c) ctx obj.

Lemma insert_flat_eq ctx kv :
  insert_flat ctx kv = <[kv.1 := kv.2]> (insert_fields kv.1 ctx (fields_of kv.2)).
Proof. unfold insert_flat, fields_of. by destruct (as_object kv.2). Qed.

Lemma insert_fields_union id obj c1 c2 :
  insert_fields id (c1 ∪ c2) obj = insert_fields id c1 obj ∪ c2.
Proof.
  revert c1. unfold insert_fields. induction obj as [|fv obj IH]; intros c1; [done|].
  cbn [foldl]. by rewrite insert_union_l, IH.
Qed.

Lemma insert_flat_union kv c1 c2 : insert_flat (c1 ∪ c2) kv = insert_flat c1 kv ∪ c2.
Proof. by rewrite !insert_flat_eq, insert_fields_union, insert_union_l. Qed.

Lemma foldl_insert_flat l ctx : foldl insert_flat ctx l = flat l ∪ ctx.
Proof.
  unfold flat. rewrite <-(left_id_L ∅ (∪) ctx) at 1. generalize (∅ : ExecCtx) as c.
  induction l as [|kv l IH]; intros c; [done|]. cbn [foldl]. by rewrite insert_flat_union, IH.
Qed.

Lemma flat_snoc l kv : flat (l ++ [kv]) = insert_flat (flat l) kv.
Proof. unfold flat. by rewrite foldl_app. Qed.

Lemma insert_fields_other id obj ctx k :
  (∀ f, f ∈ obj.*1 → k ≠ id ++ lit "." ++ f) → insert_fields id ctx obj !! k = ctx !! k.
Proof.
  revert ctx. unfold insert_fields. induction obj as [|fv obj IH]; intros ctx Hne; [done|].
  cbn [foldl]. rewrite IH.
  - rewrite lookup_insert_ne; [done|]. intros E. apply (Hne fv.1); [by left|done].
  - intros f Hf. apply Hne. by right.
Qed.

Lemma insert_fields_field id obj ctx f x :
  NoDup obj.*1 → (f, x) ∈ obj → insert_fields id ctx obj !! (id ++ lit "." ++ f) = Some x.
Proof.
  revert ctx. induction obj as [|fv obj IH]; intros ctx; [by intros _ ?%elem_of_nil|].
  cbn [fmap list_fmap]. intros [Hn Hnd]%NoDup_cons [<-|Hin]%elem_of_cons.
  - change (insert_fields id ctx ((f, x) :: obj))
      with (insert_fields id (<[id ++ lit "." ++ f := x]> ctx) obj).
    rewrite insert_fields_other; [by rewrite lookup_insert_eq|].
    intros g Hg E. apply app_inv_head, app_inv_head in E. by subst.
  - by apply IH.
Qed.

Lemma flat_unwritten l k : (∀ kv, kv ∈ l → ¬ writes kv k) → flat l !! k = None.
Proof.
  induction l as [|kv l IH] using rev_ind; [done|]. intros Hno. rewrite flat_snoc, insert_flat_eq.
  assert (¬ writes kv k) as Hkv by (apply Hno, elem_of_app; right; by left).
  rewrite lookup_insert_ne by (intros E; apply Hkv; by left).
  rewrite insert_fields_other by (intros f Hf E; apply Hkv; right; by exists f).
  apply IH. intros kv' Hin. apply Hno, elem_of_app. by left.
Qed.

Lemma flat_key l id v :
  NoDup l.*1 → (∀ k, k ∈ l.*1 → dot_free k) → (id, v) ∈ l → flat l !! id = Some v.
Proof.
  induction l as [|kv l IH] using rev_ind; [by intros _ _ ?%elem_of_nil|].
  rewrite fmap_app, flat_snoc, insert_flat_eq. intros (Hnd & Hd & _)%NoDup_app Hdf Hin.
  assert (dot_free id) as Hid.
  { apply Hdf. rewrite <-fmap_app. by apply (list_elem_of_fmap_2 fst _ (id, v)). }
  apply elem_of_app in Hin as [Hin|Hin].
  - assert (id ∈ l.*1) as Hl by (by apply (list_elem_of_fmap_2 fst _ (id, v))).
    rewrite lookup_insert_ne by (intros E; apply (Hd id Hl); rewrite <-E; by left).
    rewrite insert_fields_other; [apply IH; [done| |done]|].
    + intros k Hk. apply Hdf, elem_of_app. by left.
    + intros f _ ->. by apply dot_key_not_free in Hid.
  - apply list_elem_of_singleton in Hin as <-. by rewrite lookup_insert_eq.
Qed.

Lemma flat_field l id v f x :
  NoDup l.*1 → (∀ k, k ∈ l.*1 → dot_free k) → (id, v) ∈ l →
  NoDup (fields_of v).*1 → (f, x) ∈ fields_of v →
  flat l !! (id ++ lit "." ++ f) = Some x.
Proof.
  induction l as [|kv l IH] using rev_ind; [by intros _ _ ?%elem_of_nil|].
  rewrite fmap_app, flat_snoc, insert_flat_eq. intros (Hnd & Hd & _)%NoDup_app Hdf Hin Hfd Hf.
  assert (dot_free kv.1) as Hkv.
  { apply Hdf. apply elem_of_app. right. by left. }
  assert (dot_free id) as Hid.
  { apply Hdf. rewrite <-fmap_app. by apply (list_elem_of_fmap_2 fst _ (id, v)). }
  rewrite lookup_insert_ne by (intros E; rewrite E in Hkv; by apply dot_key_not_free in Hkv).
  apply elem_of_app in Hin as [Hin|Hin].
  - assert (id ∈ l.*1) as Hl by (by apply (list_elem_of_fmap_2 fst _ (id, v))).
    rewrite insert_fields_other; [apply IH; try done|].
    + intros k Hk. apply Hdf, elem_of_app. by left.
    + intros g _ [E _]%dot_key_inj; [|done|done]. apply (Hd id Hl). rewrite E. by left.
  - apply list_elem_of_singleton in Hin as <-. by apply insert_fields_field.
Qed.
End Flat.

Section Context_theorems.
Context `{JsonNumbers} `{HashOrder}.

Definition outputs (w : WorkflowContext) : gmap str Value := nr_output <$> wc_node_results w.

Lemma foldl_insert_map {A : Type} (m ctx : gmap str A) :
  foldl (λ c kv, <[kv.1 := kv.2]> c) ctx (hash_iter m) = m ∪ ctx.
Proof.
  assert (∀ l : list (str * A), NoDup l.*1 →
    foldl (λ c kv, <[kv.1 := kv.2]> c) ctx l = list_to_map l ∪ ctx) as Hg.
  { intros l. revert ctx. induction l as [|[k v] l IH]; intros ctx Hnd.
    - by rewrite list_to_map_nil, (left_id_L ∅ (∪)).
    - cbn [fmap list_fmap fst] in Hnd. apply NoDup_cons in Hnd as [Hk Hnd].
      cbn [foldl fst snd]. rewrite IH by done. rewrite list_to_map_cons.
      rewrite <-insert_union_l. rewrite insert_union_r; [done|].
      by apply not_elem_of_list_to_map. }
  rewrite Hg by apply NoDup_hash_iter. f_equal. rewrite <-(list_to_map_to_list m).
  apply list_to_map_proper; [|by rewrite list_to_map_to_list, hash_iter_perm].
  apply NoDup_hash_iter.
Qed.

Lemma build_layers w :
  build_executor_context w =
  flat ((λ kr, (kr.1, nr_output kr.2)) <$> hash_iter (wc_node_results w)) ∪
  (wc_variables w ∪ flat (hash_iter (wc_input w))).
Proof.
  unfold build_executor_context. rewrite foldl_insert_map.
  rewrite <-(foldl_fmap insert_flat). by rewrite foldl_insert_flat.
Qed.

Lemma outputs_iter w id v :
  (id, v) ∈ ((λ kr, (kr.1, nr_output kr.2)) <$> hash_iter (wc_node_results w)) ↔
  ∃ r, wc_node_results w !! id = Some r ∧ v = nr_output r.
Proof.
  rewrite list_elem_of_fmap. split.
  - intros ([k r] & [= -> ->] & Hin%elem_of_hash_iter). by exists r.
  - intros (r & Hr & ->). exists (id, r). split; [done|]. by apply elem_of_hash_iter.
Qed.

Lemma outputs_keys w :
  ((λ kr, (kr.1, nr_output kr.2)) <$> hash_iter (wc_node_results w)).*1 =
  (hash_iter (wc_node_results w)).*1.
Proof. by rewrite <-list_fmap_compose. Qed.

(** Also: The flat context gives node results precedence over variables and variables
    over input, whatever the iteration order of the maps: when no node id has a dot,
    every finished node's output is found under its id and every field of an object
    output under id.field; a variable is found under its name unless a node result
    writes that key; an input entry likewise, unless a variable or a result does. *)
Theorem executor_context_precedence (w : WorkflowContext)
    (Hids : ∀ id r, wc_node_results w !! id = Some r →
       dot_free id ∧ NoDup (fields_of (nr_output r)).*1)
    (Hin : ∀ k v, wc_input w !! k = Some v → dot_free k) :
  let ctx := build_executor_context w in
  let unwritten k := ∀ id r, wc_node_results w !! id = Some r → ¬ writes (id, nr_output r) k in
  (∀ id r, wc_node_results w !! id = Some r →
     ctx !! id = Some (nr_output r) ∧
     ∀ f x, (f, x) ∈ fields_of (nr_output r) → ctx !! (id ++ lit "." ++ f) = Some x) ∧
  (∀ k v, wc_variables w !! k = Some v → unwritten k → ctx !! k = Some v) ∧
  (∀ k v, wc_input w !! k = Some v → wc_variables w !! k = None → unwritten k →
     ctx !! k = Some v).
Proof.
  cbn zeta. rewrite build_layers.
  set (l := (λ kr, (kr.1, nr_output kr.2)) <$> hash_iter (wc_node_results w)).
  assert (NoDup l.*1) as Hnd by (unfold l; rewrite outputs_keys; apply NoDup_hash_iter).
  assert (∀ k, k ∈ l.*1 → dot_free k) as Hdf.
  { intros k ([id v] & -> & (r & Hr & _)%outputs_iter)%list_elem_of_fmap. by apply Hids in Hr as []. }
  assert (∀ k, (∀ id r, wc_node_results w !! id = Some r → ¬ writes (id, nr_output r) k) →
    flat l !! k = None) as Hun.
  { intros k Hk. apply flat_unwritten. intros [id v] (r & Hr & ->)%outputs_iter. by eapply Hk. }
  split_and!.
  - intros id r Hr. assert ((id, nr_output r) ∈ l) as Hl by (apply outputs_iter; by exists r).
    split; [|intros f x Hf]; apply lookup_union_Some_l.
    + by apply flat_key.
    + eapply flat_field; try done. by apply Hids in Hr as [].
  - intros k v Hv Hk. rewrite lookup_union_r by auto. by apply lookup_union_Some_l.
  - intros k v Hv Hvar Hk. rewrite lookup_union_r by auto. rewrite lookup_union_r by done.
    apply flat_key; [apply NoDup_hash_iter| |by apply elem_of_hash_iter].
    intros k' ([k2 v2] & -> & Hk2%elem_of_hash_iter)%list_elem_of_fmap. by eapply Hin.
Qed.
End Context_theorems.

(** ** What a comparison means *)

(** A word: ASCII, without blanks, quotes, braces or operator characters. *)
Definition word_char (c : char) : bool :=
  is_ascii_char c && negb (is_ws c) && negb (N.eqb c c_dquote)
  && negb (contains_char c (lit "<>=!{}'")).

Definition word (t : str) : bool := nonempty t && forallb word_char t.

Lemma word_not_in t c : word t = true → word_char c = false → c ∉ t.
Proof.
  unfold word. intros Hw Hc Hin. bool_simpl.
  match goal with H : forallb _ _ = true |- _ => rewrite forallb_Forall_true, Forall_forall in H;
    rewrite H in Hc; done end.
Qed.

Lemma word_no_ws t c : word t = true → c ∈ t → is_ws c = false.
Proof.
  unfold word. intros Hw Hin. bool_simpl.
  match goal with H : forallb _ _ = true |- _ =>
    rewrite forallb_Forall_true, Forall_forall in H; specialize (H c Hin); unfold word_char in H end.
  by bool_simpl.
Qed.

Lemma word_ascii t : word t = true → is_ascii t = true.
Proof.
  unfold word, is_ascii. intros Hw. bool_simpl. rewrite forallb_forall in *. intros x Hx.
  match goal with H : ∀ x, _ |- _ => specialize (H x Hx); unfold word_char in H end. by bool_simpl.
Qed.

Lemma word_nonempty t : word t = true → nonempty t = true.
Proof. unfold word. intros ?. by bool_simpl. Qed.

Lemma trim_start_not_ws c s : is_ws c = false → trim_start (c :: s) = c :: s.
Proof. intros Hc. unfold trim_start. cbn [trim_start_matches]. by rewrite Hc. Qed.

Lemma trim_start_word t s : word t = true → trim_start (t ++ s) = t ++ s.
Proof.
  intros Hw. pose proof (word_nonempty _ Hw). destruct t as [|c t]; [done|].
  apply trim_start_not_ws. eapply word_no_ws; [done|by left].
Qed.

Lemma trim_end_word t s w :
  word t = true → forallb is_ws w = true → trim_end (s ++ t ++ w) = s ++ t.
Proof.
  intros Hw Hws. unfold trim_end, trim_end_matches. rewrite !rev_app_distr, <-app_assoc.
  rewrite trim_start_matches_app.
  2: { rewrite forallb_forall in *. intros x Hx%in_rev. by apply Hws. }
  pose proof (word_nonempty _ Hw). destruct t as [|c t] using rev_ind; [done|].
  rewrite rev_app_distr. cbn [rev app]. fold (trim_start (c :: rev t ++ rev s)).
  rewrite trim_start_not_ws; [cbn [rev]; by rewrite rev_app_distr, !rev_involutive, <-app_assoc|].
  eapply word_no_ws; [done|]. apply elem_of_app. right. by left.
Qed.

Lemma trim_words t1 s t2 :
  word t1 = true → word t2 = true → trim (t1 ++ s ++ t2) = t1 ++ s ++ t2.
Proof.
  intros H1 H2. unfold trim. rewrite trim_start_word by done.
  rewrite <-(app_nil_r t2), app_assoc. rewrite (trim_end_word t2 (t1 ++ s) []) by done.
  by rewrite app_nil_r, <-app_assoc.
Qed.

Lemma trim_word t : word t = true → trim t = t.
Proof.
  intros Hw. unfold trim. pose proof (trim_start_word t [] Hw) as E. rewrite app_nil_r in E.
  rewrite E. pose proof (trim_end_word t [] [] Hw eq_refl) as E2. cbn [app] in E2.
  by rewrite app_nil_r in E2.
Qed.

Lemma trim_word_blank t w : word t = true → forallb is_ws w = true → trim (t ++ w) = t.
Proof.
  intros Hw Hws. unfold trim. rewrite trim_start_word by done.
  by apply (trim_end_word t [] w).
Qed.

Lemma trim_blank_word t w : word t = true → forallb is_ws w = true → trim (w ++ t) = t.
Proof.
  intros Hw Hws. unfold trim, trim_start. rewrite trim_start_matches_app by done.
  fold (trim_start t). exact (trim_word t Hw).
Qed.

Lemma find_str_skip (p s t : str) c p' :
  p = c :: p' → c ∉ s → find_str p (s ++ t) = (λ i, length s + i)%nat <$> find_str p t.
Proof.
  intros -> Hc. induction s as [|d s IH]; cbn [app].
  - by destruct (find_str (c :: p') t).
  - rewrite not_elem_of_cons in Hc. destruct Hc as [Hne Hc]. cbn [find_str starts_with].
    assert (N.eqb c d = false) as -> by (by apply N.eqb_neq). cbn [andb].
    rewrite IH by done. by destruct (find_str (c :: p') t).
Qed.

Lemma find_str_word (p t : str) c p' :
  p = c :: p' → word t = true → word_char c = false → find_str p t = None.
Proof.
  intros Hp Hw Hc. rewrite <-(app_nil_r t). rewrite (find_str_skip p t [] c p') by (done || by eapply word_not_in).
  by subst.
Qed.

Lemma split_op_word v w op :
  word v = true → word w = true →
  split_op all_ops (v ++ lit " " ++ op_text op ++ lit " " ++ w) =
  Some (op, v ++ lit " ", lit " " ++ w).
Proof.
  intros Hv Hw.
  assert (∀ op', split_once (op_text op') (v ++ lit " " ++ op_text op ++ lit " " ++ w) =
    match find_str (op_text op') (lit " " ++ op_text op ++ lit " " ++ w) with
    | Some i => Some (v ++ take i (lit " " ++ op_text op ++ lit " " ++ w),
        drop (i + length (op_text op')) (lit " " ++ op_text op ++ lit " " ++ w))
    | None => None
    end) as Hs.
  { intros op'. unfold split_once.
    assert (∃ c p', op_text op' = c :: p' ∧ word_char c = false) as (c & p' & Hp & Hc)
      by (destruct op'; eexists _, _; split; reflexivity).
    rewrite (find_str_skip _ v _ c p' Hp) by (by eapply word_not_in).
    destruct (find_str _ (lit " " ++ _)) as [i|]; [|done]. cbn [fmap option_fmap option_map].
    by rewrite take_app_add, <-Nat.add_assoc, drop_app_add. }
  unfold all_ops. cbn [split_op]. rewrite !Hs.
  assert (∀ p, word_char (hd 0%N p) = false → p ≠ [] → find_str p w = None) as Hf.
  { intros [|c p] Hc Hne; [done|]. by eapply find_str_word. }
  pose proof (Hf (op_text OpGe) eq_refl) as Hge. pose proof (Hf (op_text OpLe) eq_refl) as Hle.
  pose proof (Hf (op_text OpEq) eq_refl) as Heq. pose proof (Hf (op_text OpNe) eq_refl) as Hne.
  pose proof (Hf (op_text OpGt) eq_refl) as Hgt. pose proof (Hf (op_text OpLt) eq_refl) as Hlt.
  destruct op; cbn -[is_ws N.of_nat] in *.
  all: rewrite ?Hge, ?Hle, ?Heq, ?Hne, ?Hgt, ?Hlt by done; cbn.
  all: try done.
Qed.

(** No closing or opening brace. *)
Definition brace_free (s : str) : Prop := (123%N ∉ s) ∧ (125%N ∉ s).

Lemma word_brace_free t : word t = true → brace_free t.
Proof. intros Hw. split; by eapply word_not_in. Qed.

(** In a text with one placeholder only that placeholder occurs. *)
Lemma placeholder_only k k' rest :
  brace_free k → brace_free rest → contains (placeholder k') (placeholder k ++ rest) = true → k' = k.
Proof.
  intros [Hk1 Hk2] [Hr1 Hr2] (a & b & E)%contains_iff. unfold placeholder in E.
  rewrite <-!app_assoc in E.
  change (lit "{{") with [123%N; 123%N] in E. change (lit "}}") with [125%N; 125%N] in E.
  cbn [app] in E.
  destruct a as [|x [|y a]]; cbn [app] in E.
  - injection E as E. clear Hk1 Hr1. revert k Hk2 E. induction k' as [|c k' IH]; intros [|d k] Hk2 E.
    + done.
    + injection E as -> _. destruct Hk2. by left.
    + cbn in E. injection E as <- E. destruct k' as [|c' k']; cbn in E.
      * injection E as ->. destruct Hr2. by left.
      * injection E as <- E. destruct Hr2. rewrite E.
        apply elem_of_app. right. by left.
    + cbn in E. injection E as -> E. rewrite not_elem_of_cons in Hk2. f_equal.
      apply (IH k); naive_solver.
  - injection E as _ E. destruct k as [|z k]; cbn in E; injection E as E1 E; [done|].
    destruct Hk1. rewrite <-E1. by left.
  - injection E as _ _ E. exfalso. assert (123%N ∈ k ++ 125%N :: 125%N :: rest) as Hin.
    { rewrite E. apply elem_of_app. right. by left. }
    rewrite elem_of_app, !elem_of_cons in Hin. naive_solver.
Qed.

Lemma brace_free_open s : brace_free s → contains (lit "{{") s = false.
Proof.
  intros [Hs _]. destruct (contains (lit "{{") s) eqn:E; [|done].
  apply contains_iff in E as (a & b & ->). destruct Hs. apply elem_of_app. right. by left.
Qed.

Section Compare.
Context `{JsonText} `{HashOrder} `{Unicode}.

(** A placeholder in front of brace-free text is replaced by its value, in whatever
    order the entries of the context come. *)
Lemma resolve_placeholder k v rest ctx :
  ctx !! k = Some v → brace_free k → brace_free rest → brace_free (plain_text v) →
  resolve_prompt_template (placeholder k ++ rest) ctx = plain_text v ++ rest.
Proof.
  intros Hk Hbk Hbr Hbv. unfold resolve_prompt_template.
  assert (∀ l s, contains (lit "{{") s = false →
    foldl (λ out kv, replace_str (placeholder kv.1) (plain_text kv.2) out) s l = s) as Hdone.
  { induction l as [|kv l IH]; intros s Hs; [done|]. cbn [foldl].
    rewrite replace_str_absent by by apply placeholder_contains. by apply IH. }
  assert ((k, v) ∈ hash_iter ctx) as Hin by by apply elem_of_hash_iter.
  pose proof (NoDup_hash_iter ctx) as Hnd.
  induction (hash_iter ctx) as [|[k' v'] l IH]; [by apply elem_of_nil in Hin|].
  cbn [foldl fst snd]. rewrite fmap_cons in Hnd. apply NoDup_cons in Hnd as [Hn Hnd].
  cbn [fst] in Hn.
  destruct (decide (k' = k)) as [->|Hne].
  - assert (v' = v) as ->.
    { apply elem_of_cons in Hin as [[= ->]|Hin]; [done|]. destruct Hn.
      by apply (list_elem_of_fmap_2 fst _ (k, v)). }
    rewrite replace_str_here by done. rewrite replace_str_absent.
    + apply Hdone. apply brace_free_open. destruct Hbr, Hbv. split; rewrite elem_of_app; naive_solver.
    + by apply placeholder_contains, brace_free_open.
  - rewrite replace_str_absent.
    + apply IH; [|done]. by apply elem_of_cons in Hin as [[= ->]|?].
    + destruct (contains _ _) eqn:E; [|done]. by apply placeholder_only in E.
Qed.

Lemma operand_text t ctx :
  word t = true → ctx !! t = None →
  resolve_operand t ctx =
  match parse_f64 t ≫= num_from_f64 with
  | Some n => VNumber n
  | None =>
      if t =? lit "true" then VBool true else if t =? lit "false" then VBool false
      else if t =? lit "null" then VNull else VString t
  end.
Proof.
  intros Hw Hctx. unfold resolve_operand. rewrite trim_word by done.
  rewrite (word_nonempty _ Hw). cbn [negb].
  assert (is_quoted t = false) as ->; [|by rewrite Hctx].
  destruct t as [|c [|d t]]; try done. unfold is_quoted.
  assert (N.eqb c c_dquote = false) as ->.
  { apply N.eqb_neq. intros ->. eapply (word_not_in _ c_dquote); [done|done|by left]. }
  assert (N.eqb c c_squote = false) as ->.
  { apply N.eqb_neq. intros ->. eapply (word_not_in _ c_squote); [done|done|by left]. }
  by destruct (last _).
Qed.

Lemma operand_not_number t ctx :
  word t = true → ctx !! t = None → parse_f64 t ≫= num_from_f64 = None →
  as_f64 (resolve_operand t ctx) = None ∧ plain_text (resolve_operand t ctx) = t.
Proof.
  intros Hw Hctx Hp. rewrite operand_text, Hp by done.
  destruct (decide (t = lit "true")) as [->|Ht].
  { split; [done|exact (json_text_bool true)]. }
  destruct (decide (t = lit "false")) as [->|Hf].
  { split; [done|exact (json_text_bool false)]. }
  destruct (decide (t = lit "null")) as [->|Hn].
  { split; [done|exact json_text_null]. }
  by rewrite !bool_decide_false by done.
Qed.

Lemma literal_bool_blank s : is_ascii s = true → c_space ∈ s → literal_bool s = None.
Proof.
  intros Ha Hs. unfold literal_bool. rewrite to_lowercase_ascii by done.
  assert (∀ t : str, c_space ∉ t → ascii_lower <$> s ≠ t) as Hne.
  { intros t Ht <-. apply Ht. by apply (list_elem_of_fmap_2 ascii_lower s c_space). }
  rewrite !bool_decide_false; [done|..]; apply Hne; by apply (bool_decide_unpack _).
Qed.

Lemma evaluate_word_comparison fuel k v w op ctx :
  ctx !! k = Some (VString v) → brace_free k → word v = true → word w = true →
  evaluate_condition (S fuel) (placeholder k ++ lit " " ++ op_text op ++ lit " " ++ w) ctx =
  Some (compare_values v w op ctx).
Proof.
  intros Hk Hbk Hv Hw. cbn [evaluate_condition].
  assert (trim (placeholder k ++ lit " " ++ op_text op ++ lit " " ++ w) =
    placeholder k ++ lit " " ++ op_text op ++ lit " " ++ w) as ->.
  { unfold trim. unfold placeholder at 1. cbn [lit app].
    rewrite trim_start_not_ws by done.
    pose proof (trim_end_word w (placeholder k ++ lit " " ++ op_text op ++ lit " ") []) as E.
    rewrite app_nil_r in E. unfold placeholder in *. rewrite <-!app_assoc in *. by apply E. }
  assert (nonempty (placeholder k ++ lit " " ++ op_text op ++ lit " " ++ w) = true) as -> by done.
  cbn [negb].
  rewrite (resolve_placeholder k (VString v)); [|done|done| |by apply word_brace_free].
  2: { destruct (word_brace_free w Hw). split; rewrite !elem_of_app; destruct op; set_solver. }
  cbn [plain_text].
  assert (trim (v ++ lit " " ++ op_text op ++ lit " " ++ w) =
    v ++ lit " " ++ op_text op ++ lit " " ++ w) as ->.
  { pose proof (trim_words v (lit " " ++ op_text op ++ lit " ") w Hv Hw) as E.
    by rewrite <-!app_assoc in E. }
  destruct (strip_prefix (lit "!") _) as [rest|] eqn:E.
  { apply strip_prefix_Some in E. exfalso. pose proof (word_nonempty _ Hv).
    destruct v as [|c v]; [done|]. injection E as -> _.
    eapply (word_not_in _ 33%N); [exact Hv|done|by left]. }
  rewrite literal_bool_blank, split_op_word; [|done|done| |].
  2: { unfold is_ascii. rewrite !forallb_app. apply word_ascii in Hv, Hw. unfold is_ascii in *.
       rewrite Hv, Hw. by destruct op. }
  2: { apply elem_of_app. right. by left. }
  by rewrite trim_word_blank, trim_blank_word by done.
Qed.

(** Also: A condition that compares a template with a word means the comparison: with
    the value of the key a word as well (ASCII, without blanks, quotes, braces or
    operator characters) and neither side the name of a context entry, the two are
    compared as numbers when both parse as such, and as strings, in the order of
    their characters, when neither does; for every operator, whatever else the
    context holds and in whatever order it is visited. *)
Theorem condition_compares (fuel : nat) (k v w : str) (op : CmpOp) (ctx : gmap str Value)
    (Hk : ctx !! k = Some (VString v)) (Hbk : brace_free k)
    (Hv : word v = true) (Hw : word w = true)
    (Hcv : ctx !! v = None) (Hcw : ctx !! w = None) :
  evaluate_condition (S fuel) (placeholder k ++ lit " " ++ op_text op ++ lit " " ++ w) ctx =
  match parse_f64 v ≫= num_from_f64, parse_f64 w ≫= num_from_f64 with
  | Some m, Some n =>
      match num_as_f64 m, num_as_f64 n with
      | Some a, Some b => Some (op_holds op (f64_partial_cmp a b))
      | _, _ => Some (op_holds op (Some (str_cmp (json_text (VNumber m)) (json_text (VNumber n)))))
      end
  | None, None => Some (op_holds op (Some (str_cmp v w)))
  | Some m, None => Some (op_holds op (Some (str_cmp (json_text (VNumber m)) w)))
  | None, Some n => Some (op_holds op (Some (str_cmp v (json_text (VNumber n)))))
  end.
Proof.
  rewrite (evaluate_word_comparison fuel k v w op ctx) by done. unfold compare_values. cbn zeta.
  destruct (parse_f64 v ≫= num_from_f64) as [m|] eqn:Em.
  - destruct (parse_f64 w ≫= num_from_f64) as [n|] eqn:En.
    + rewrite (operand_text v), (operand_text w), Em, En by done. cbn [as_f64 plain_text].
      by destruct (num_as_f64 m), (num_as_f64 n).
    + rewrite (operand_text v), Em by done. cbn [plain_text].
      destruct (operand_not_number w ctx Hw Hcw En) as [E1 E2]. rewrite E1, E2. cbn [as_f64].
      by destruct (num_as_f64 m).
  - destruct (operand_not_number v ctx Hv Hcv Em) as [E3 E4]. rewrite E3, E4.
    destruct (parse_f64 w ≫= num_from_f64) as [n|] eqn:En.
    + by rewrite (operand_text w), En by done.
    + destruct (operand_not_number w ctx Hw Hcw En) as [E1 E2]. by rewrite E2.
Qed.

Lemma hash_iter_singleton {A : Type} (k : str) (v : A) : hash_iter {[k := v]} = [(k, v)].
Proof.
  pose proof (hash_iter_perm ({[k := v]} : gmap str A)) as Hp.
  rewrite map_to_list_singleton in Hp. by apply Permutation_singleton_r in Hp.
Qed.

(** Observed: The text of a value becomes part of the expression: a value that carries an
    operator decides the condition.  Whatever the author compares the key with for
    equality, this value passes. *)
Theorem condition_value_injection (fuel : nat) (w : str) (Hw : word w = true) :
  evaluate_condition (S fuel) (placeholder (lit "x") ++ lit " == " ++ w)
    {[lit "x" := VString (lit "'' <= z")]} = Some true.
Proof.
  cbn [evaluate_condition].
  assert (trim (placeholder (lit "x") ++ lit " == " ++ w) = placeholder (lit "x") ++ lit " == " ++ w) as ->.
  { unfold trim. change (trim_start (placeholder (lit "x") ++ lit " == " ++ w))
      with (placeholder (lit "x") ++ lit " == " ++ w).
    pose proof (trim_end_word w (placeholder (lit "x") ++ lit " == ") [] Hw eq_refl) as E.
    rewrite app_nil_r in E. by rewrite app_assoc, E. }
  change (negb (nonempty (placeholder (lit "x") ++ lit " == " ++ w))) with false. cbn iota.
  destruct (word_brace_free w Hw) as [Hw1 Hw2].
  rewrite (resolve_placeholder _ (VString (lit "'' <= z"))); [|by rewrite lookup_singleton_eq| | |].
  2: { split; by apply (bool_decide_unpack _). }
  2: { split; intros [Hin|?]%elem_of_app; try done; revert Hin; by apply (bool_decide_unpack _). }
  2: { split; by apply (bool_decide_unpack _). }
  cbn [plain_text].
  change (lit "'' <= z" ++ lit " == " ++ w) with (lit "'' <= z == " ++ w).
  assert (trim (lit "'' <= z == " ++ w) = lit "'' <= z == " ++ w) as ->.
  { unfold trim. change (trim_start (lit "'' <= z == " ++ w)) with (lit "'' <= z == " ++ w).
    pose proof (trim_end_word w (lit "'' <= z == ") [] Hw eq_refl) as E.
    by rewrite app_nil_r in E. }
  change (strip_prefix (lit "!") (lit "'' <= z == " ++ w)) with (@None str). cbn iota.
  rewrite literal_bool_blank.
  2: { unfold is_ascii. rewrite forallb_app. by rewrite (word_ascii _ Hw : forallb _ _ = true). }
  2: { apply elem_of_app. left. by apply (bool_decide_unpack _). }
  assert (split_op all_ops (lit "'' <= z == " ++ w) = Some (OpLe, lit "'' ", lit " z == " ++ w)) as ->.
  { unfold all_ops. cbn [split_op]. unfold split_once at 1.
    rewrite (find_str_skip (op_text OpGe) (lit "'' <= z == ") w 62%N (lit "="))
      by (done || by apply (bool_decide_unpack _)).
    by rewrite (find_str_word (op_text OpGe) w 62%N (lit "=")). }
  f_equal. unfold compare_values. cbn zeta.
  assert (∀ c, resolve_operand (trim (lit "'' ")) c = VString []) as -> by done.
  cbn [as_f64 plain_text]. unfold str_cmp. by case_bool_decide; [|destruct (plain_text _)].
Qed.
End Compare.

(** ** Unbounded recursion *)

Section Recursion.
Context `{JsonText} `{HashOrder} `{Unicode}.

(** Observed: No depth is enough for a condition whose value reintroduces its own
    placeholder behind an exclamation mark: each evaluation of the template asks for
    another one.  Conditional edges are guarded against it; a condition node is
    not. *)
Theorem condition_recursion_unbounded (fuel : nat) (now ended : N) (name : str) :
  condition_node_execute fuel now ended
    (mkNode name (lit "condition") {[lit "condition" := VString (lit "{{x}}")]} [] 0 None false)
    {[lit "x" := VString (lit "!{{x}}")]} = None.
Proof.
  unfold condition_node_execute. cbn [nd_config]. rewrite lookup_singleton_eq.
  cbn [mbind option_bind as_str default from_option id].
  assert (∀ fuel, evaluate_condition fuel (lit "{{x}}") {[lit "x" := VString (lit "!{{x}}")]} = None)
    as Hno; [|by rewrite Hno].
  clear fuel. induction fuel as [|fuel IH]; [done|]. cbn [evaluate_condition].
  change (trim (lit "{{x}}")) with (lit "{{x}}").
  assert (resolve_prompt_template (lit "{{x}}") {[lit "x" := VString (lit "!{{x}}")]} = lit "!{{x}}")
    as ->.
  { unfold resolve_prompt_template. by rewrite hash_iter_singleton. }
  change (trim (lit "!{{x}}")) with (lit "!{{x}}").
  change (strip_prefix (lit "!") (lit "!{{x}}")) with (Some (lit "{{x}}")). cbv iota beta.
  by rewrite IH.
Qed.
End Recursion.

(** ** Witnesses *)

(** Integers for numbers, a rough JSON text. *)
Definition toy_numbers : JsonNumbers := {|
  num := Z; f64 := Z;
  num_as_f64 n := Some n; num_from_f64 x := Some x;
  parse_f64 s := if nonempty s && forallb is_ascii_digit s
                 then Some (foldl (λ n c, n * 10 + Z.of_N (c - 48))%Z 0%Z s) else None;
  f64_partial_cmp a b := Some (a ?= b)%Z;
  f64_nonzero x := negb (Z.eqb x 0);
|}.

Definition toy_text : @JsonText toy_numbers :=
  @Build_JsonText toy_numbers
    (λ v, match v with
          | VNull => lit "null"
          | VBool b => lit (if b then "true" else "false")
          | VNumber n => lit (pretty n)
          | VString s => lit "'" ++ s ++ lit "'"
          | VArray _ => lit "[]"
          | VObject _ => lit "{}"
          end) eq_refl (λ b, eq_refl).

Lemma condition_compares_witness :
  @evaluate_condition toy_numbers toy_text map_order ascii_unicode 1
    (placeholder (lit "count") ++ lit " " ++ op_text OpGt ++ lit " " ++ lit "5")
    {[lit "count" := VString (lit "12")]} = Some true.
Proof.
  assert (brace_free (lit "count")) as Hb by (split; by apply (bool_decide_unpack _)).
  exact (@condition_compares toy_numbers toy_text map_order ascii_unicode 0 (lit "count")
    (lit "12") (lit "5") OpGt {[lit "count" := VString (lit "12")]} eq_refl
    Hb eq_refl eq_refl eq_refl eq_refl).
Defined.

Lemma condition_value_injection_witness :
  @evaluate_condition toy_numbers toy_text map_order ascii_unicode 1
    (placeholder (lit "x") ++ lit " == " ++ lit "approved")
    {[lit "x" := VString (lit "'' <= z")]} = Some true.
Proof.
  exact (@condition_value_injection toy_numbers toy_text map_order ascii_unicode 0
    (lit "approved") eq_refl).
Defined.

Definition demo_result (id : str) (out : @Value toy_numbers) : @NodeResult toy_numbers :=
  mkNodeResult id out None Completed 0 0 ∅.

(** A variable named like a field of a node, and an input entry. *)
Definition demo_ctx : @WorkflowContext toy_numbers :=
  mkWfCtx {[lit "a.body" := VNull; lit "v" := VBool true]}
    {[lit "a" := demo_result (lit "a") (VObject [(lit "body", VString (lit "hi"))])]}
    {[lit "v" := VNull; lit "q" := VString (lit "in")]}.

Lemma executor_context_precedence_witness :
  let ctx := @build_executor_context toy_numbers map_order demo_ctx in
  ctx !! lit "a.body" = Some (VString (lit "hi")) ∧
  ctx !! lit "v" = Some (VBool true) ∧ ctx !! lit "q" = Some (VString (lit "in")).
Proof.
  assert (∀ id r, wc_node_results demo_ctx !! id = Some r →
    id = lit "a" ∧ r = demo_result (lit "a") (VObject [(lit "body", VString (lit "hi"))])) as Hr.
  { intros id r E. unfold demo_ctx in E. cbn [wc_node_results] in E. by apply lookup_singleton_Some in E as [<- <-]. }
  assert (∀ k v, wc_input demo_ctx !! k = Some v → k = lit "v" ∨ k = lit "q") as Hi.
  { intros k v E. unfold demo_ctx in E. cbn [wc_input] in E. apply lookup_insert_Some in E as [[<- _]|[_ E]]; [by left|].
    apply lookup_singleton_Some in E as [<- _]. by right. }
  destruct (@executor_context_precedence toy_numbers map_order demo_ctx) as (H1 & H2 & H3).
  - intros id r [-> ->]%Hr. split; [|apply NoDup_singleton]. by apply (bool_decide_unpack _).
  - intros k v [-> | ->]%Hi; by apply (bool_decide_unpack _).
  - cbn zeta. split; [|split].
    + apply (proj2 (H1 (lit "a") _ eq_refl) (lit "body")). by left.
    + apply H2; [done|]. intros id r [-> ->]%Hr [E|(f & Hf & E)]; [done|].
      apply list_elem_of_singleton in Hf as ->. done.
    + apply H3; [done|done|]. intros id r [-> ->]%Hr [E|(f & Hf & E)]; [done|].
      apply list_elem_of_singleton in Hf as ->. done.
Defined.
