(* ===== verification/Scheduler.v ===== *)
(** * The workflow scheduler (nemesis-workflow/src/scheduler.rs)

    Level by level execution of a workflow: conditional edges, the nodes of a level
    as concurrent tasks with retry and time limit, the results merged in order,
    cancellation and the stop at a node that waits for a human.

    The tasks of a level share nothing: each gets a copy of the context taken
    before the level, so a task is a function from that copy to its outcome.  What
    the executor of a node returns at each attempt, and the points at which the
    cancellation token is seen triggered, come from outside.  A run records the
    tasks it spawned and the calls of the progress hook. *)
From S2P Require Import Prelude RustStr Json WfGraph WfContext.
Local Open Scope nb_scope.

(** ** Durations (types.rs) *)

Definition u64_max : N := 18446744073709551615.

Definition dec_value (s : str) : N := foldl (λ n c, n * 10 + (c - 48))%N 0%N s.

(** [str::parse::<u64>]: digits after at most one plus sign, no overflow. *)
Definition parse_u64 (s : str) : option N :=
  let digits := match strip_prefix (lit "+") s with Some d => d | None => s end in
  if nonempty digits && forallb is_ascii_digit digits && (dec_value digits <=? u64_max)%N
  then Some (dec_value digits) else None.

(** Multiplication of [u64] in a build without overflow checks. *)
Definition u64_mul (a b : N) : N := ((a * b) mod (u64_max + 1))%N.

(** The duration in seconds. *)
Definition parse_duration (s : str) : option N :=
  let s := trim s in
  if negb (nonempty s) then None
  else match parse_u64 s with
  | Some secs => Some secs
  | None =>
      match strip_suffix (lit "s") s with
      | Some num_str => parse_u64 num_str
      | None =>
          match strip_suffix (lit "m") s with
          | Some num_str => (λ mins, u64_mul mins 60) <$> parse_u64 num_str
          | None =>
              match strip_suffix (lit "h") s with
              | Some num_str => (λ hours, u64_mul hours 3600) <$> parse_u64 num_str
              | None => None
              end
          end
      end
  end.

Definition timeout_duration {V : Type} (n : NodeDef V) : option N :=
  nd_timeout n ≫= parse_duration.

(** ** Outcomes *)

Inductive ScheduleOutcome := SchedCompleted | SchedCancelled.

Inductive NodeError := NodeTimedOut (id : str) (limit : N) | NodeErr (msg : str).

Inductive SchedError :=
| SchedGraph (e : TopoError)
| NodeNotFound (id : str)
| NoExecutor (node_type id : str)
| NodeExecutionFailed (id : str) (err : NodeError)
| NoNodeResult (id : str)
| NodeTaskPanicked
| ConditionUnresolvable (id cond : str).

Section Scheduler.
Context `{JsonText} `{HashOrder} `{Unicode}.

Abbreviation ExecCtx := (gmap str Value) (only parsing).

(** ** One task: attempts with backoff *)

(** How an attempt ends when it is given the time it needs. *)
Inductive Attempt :=
| AttemptCancelled
| AttemptPanicked
| AttemptReturned (r : result NodeResult str).

(** What a task meets from outside: the token before attempt [k], the attempt
    itself, whether it takes longer than a limit in seconds, and the token during
    the backoff after it. *)
Record TaskEnv := mkTask {
  te_cancelled : nat → bool;
  te_attempt : nat → Attempt;
  te_exceeds : nat → N → bool;
  te_cancel_backoff : nat → bool;
}.

Inductive TaskOutcome :=
| Joined (last_result : option NodeResult) (last_error : option NodeError)
| JoinError.

(** An attempt under the time limit of the node; the token is looked at first. *)
Inductive AttemptEnd :=
| EndCancelled
| EndPanicked
| EndResult (r : result NodeResult NodeError).

Definition limit_exceeded (node : NodeDef Value) (env : TaskEnv) (k : nat) : option N :=
  dur ← timeout_duration node;
  if te_exceeds env k dur then Some dur else None.

Definition timed_attempt (node : NodeDef Value) (env : TaskEnv) (k : nat) : AttemptEnd :=
  match te_attempt env k, limit_exceeded node env k with
  | AttemptCancelled, _ => EndCancelled
  | _, Some dur => EndResult (Err (NodeTimedOut (nd_id node) dur))
  | AttemptPanicked, None => EndPanicked
  | AttemptReturned (Ok r), None => EndResult (Ok r)
  | AttemptReturned (Err e), None => EndResult (Err (NodeErr e))
  end.

(** The attempts from [k] on, [more] of them still allowed. *)
Fixpoint run_attempts (node : NodeDef Value) (env : TaskEnv) (more k : nat)
    (last_result : option NodeResult) (last_error : option NodeError) : TaskOutcome :=
  match more with
  | O => Joined last_result last_error
  | S more =>
      if te_cancelled env k then Joined last_result last_error
      else
        let again lr le :=
          if (k <? nd_retry_count node)%nat && te_cancel_backoff env k then Joined lr le
          else run_attempts node env more (S k) lr le in
        match timed_attempt node env k with
        | EndCancelled => Joined last_result last_error
        | EndPanicked => JoinError
        | EndResult (Ok r) =>
            if nr_state r <>? Failed then Joined (Some r) None
            else again (Some r) (NodeErr <$> nr_error r)
        | EndResult (Err e) => again last_result (Some e)
        end
  end.

Definition run_task (node : NodeDef Value) (env : TaskEnv) : TaskOutcome :=
  run_attempts node env (S (nd_retry_count node)) 0 None None.

(** The registry: the executor of a node type. *)
Definition Executors := str → option (NodeDef Value → ExecCtx → WorkflowContext → TaskEnv).

(** ** Conditional edges *)

Definition cond_edges_of (edges : list Edge) : gmap str (list Edge) :=
  foldl (λ m e,
    match ed_condition e with
    | Some _ => <[ed_to_node e := default [] (m !! ed_to_node e) ++ [e]]> m
    | None => m
    end) ∅ edges.

Definition completed_ids (w : WorkflowContext) : gset str :=
  dom (filter (λ kr, nr_state kr.2 = Completed) (wc_node_results w)).

(** The loop of [eval_edge_conditions]; the fuel covers one recursive call for each
    character of the resolved condition. *)
Fixpoint eval_conditions (node_id : str) (w : WorkflowContext) (ctx : ExecCtx)
    (edges : list Edge) : option (result bool SchedError) :=
  match edges with
  | [] => Some (Ok true)
  | e :: edges =>
      match ed_condition e with
      | None => eval_conditions node_id w ctx edges
      | Some cond =>
          let resolved := resolve_prompt_template cond ctx in
          if contains (lit "{{") resolved then
            let completed := completed_ids w in
            if existsb (λ hf, bool_decide (hf.1 ∈ completed)) (placeholder_refs cond)
            then Some (Err (ConditionUnresolvable node_id cond))
            else Some (Ok false)
          else
            b ← evaluate_condition (S (S (length resolved))) cond ctx;
            if b : bool then eval_conditions node_id w ctx edges else Some (Ok false)
      end
  end.

Definition eval_edge_conditions (node_id : str) (cond_edges : gmap str (list Edge))
    (w : WorkflowContext) : option (result bool SchedError) :=
  match cond_edges !! node_id with
  | None => Some (Ok true)
  | Some edges => eval_conditions node_id w (build_executor_context w) edges
  end.

(** The nodes of a level that run now. *)
Fixpoint runnable_nodes (skip : gset str) (cond_edges : gmap str (list Edge))
    (w : WorkflowContext) (level : list str) : option (result (list str) SchedError) :=
  match level with
  | [] => Some (Ok [])
  | id :: level =>
      if decide (id ∈ skip) then runnable_nodes skip cond_edges w level
      else
        r ← eval_edge_conditions id cond_edges w;
        match r with
        | Err e => Some (Err e)
        | Ok false => runnable_nodes skip cond_edges w level
        | Ok true =>
            rest ← runnable_nodes skip cond_edges w level;
            Some (ids <-? rest; Ok (id :: ids))
        end
  end.

(** ** Spawning and collecting a level *)

Inductive SchedEvent :=
| Spawned (level : nat) (id : str) (w : WorkflowContext)
| LevelCompleted (level : nat) (w : WorkflowContext).

Definition node_map_of (nodes : list (NodeDef Value)) : gmap str (NodeDef Value) :=
  foldl (λ m n, <[nd_id n := n]> m) ∅ nodes.

(** The tasks spawned so far are recorded even when a later node of the level makes
    the call return an error. *)
Fixpoint spawn_all (i : nat) (node_map : gmap str (NodeDef Value)) (executors : Executors)
    (ctx : ExecCtx) (w : WorkflowContext) (runnable : list str)
    : list SchedEvent * result (list (str * TaskOutcome)) SchedError :=
  match runnable with
  | [] => ([], Ok [])
  | id :: runnable =>
      match node_map !! id with
      | None => ([], Err (NodeNotFound id))
      | Some node =>
          match executors (nd_node_type node) with
          | None => ([], Err (NoExecutor (nd_node_type node) id))
          | Some executor =>
              let handle := (nd_id node, run_task node (executor node ctx w)) in
              let (evs, rest) := spawn_all i node_map executors ctx w runnable in
              (Spawned i id w :: evs, hs <-? rest; Ok (handle :: hs))
          end
      end
  end.

(** The output fields as variables [id.field], then the result. *)
Definition store_result (w : WorkflowContext) (id : str) (r : NodeResult) : WorkflowContext :=
  let w' :=
    match as_object (nr_output r) with
    | Some obj => foldl (λ w fv, set_var w (id ++ lit "." ++ fv.1) fv.2) w obj
    | None => w
    end in
  set_node_result w' id r.

(** The token while the handles of a level are joined, and after a join. *)
Record CancelView := mkCancel {
  cv_level : nat → bool;
  cv_join : nat → nat → bool;
  cv_joined : nat → nat → bool;
}.

(** [Some] result: the scheduler returns. *)
Fixpoint collect (cancel : CancelView) (i j : nat) (handles : list (str * TaskOutcome))
    (w : WorkflowContext) : WorkflowContext * option (result ScheduleOutcome SchedError) :=
  match handles with
  | [] => (w, None)
  | (id, t) :: handles =>
      if cv_join cancel i j then (w, Some (Ok SchedCancelled))
      else
        match t with
        | Joined (Some r) None => collect cancel i (S j) handles (store_result w id r)
        | Joined _ (Some err) => (w, Some (Err (NodeExecutionFailed id err)))
        | Joined None None =>
            (w, Some (if cv_joined cancel i j then Ok SchedCancelled else Err (NoNodeResult id)))
        | JoinError =>
            (w, Some (if cv_joined cancel i j then Ok SchedCancelled else Err NodeTaskPanicked))
        end
  end.

Definition any_waiting (w : WorkflowContext) : bool :=
  existsb (λ kr, nr_state kr.2 =? Waiting) (hash_iter (wc_node_results w)).

Record SchedRun := mkRun {
  sr_result : result ScheduleOutcome SchedError;
  sr_ctx : WorkflowContext;
  sr_trace : list SchedEvent;
}.

(** What the scheduler is given, apart from the context. *)
Record SchedInput := mkSched {
  si_nodes : list (NodeDef Value);
  si_edges : list Edge;
  si_executors : Executors;
  si_skip : gset str;
  si_cancel : CancelView;
  si_hook : bool;
}.

(** One level: the events, the context and, if the scheduler returns, its
    result. *)
Definition run_level (s : SchedInput) (i : nat) (level : list str) (w : WorkflowContext)
    : option (list SchedEvent * WorkflowContext * option (result ScheduleOutcome SchedError)) :=
  if cv_level (si_cancel s) i then Some ([], w, Some (Ok SchedCancelled))
  else
    rn ← runnable_nodes (si_skip s) (cond_edges_of (si_edges s)) w level;
    match rn with
    | Err e => Some ([], w, Some (Err e))
    | Ok [] => Some ([], w, None)
    | Ok runnable =>
        let (evs, hs) := spawn_all i (node_map_of (si_nodes s)) (si_executors s)
                           (build_executor_context w) w runnable in
        match hs with
        | Err e => Some (evs, w, Some (Err e))
        | Ok handles =>
            match collect (si_cancel s) i 0 handles w with
            | (w', Some r) => Some (evs, w', Some r)
            | (w', None) =>
                let evs' := if si_hook s then evs ++ [LevelCompleted i w'] else evs in
                Some (evs', w', if any_waiting w' then Some (Ok SchedCompleted) else None)
            end
        end
    end.

Fixpoint run_levels (s : SchedInput) (i : nat) (levels : list (list str))
    (w : WorkflowContext) : option SchedRun :=
  match levels with
  | [] => Some (mkRun (Ok SchedCompleted) w [])
  | level :: levels =>
      lv ← run_level s i level w;
      match lv with
      | (evs, w', Some r) => Some (mkRun r w' evs)
      | (evs, w', None) =>
          run ← run_levels s (S i) levels w';
          Some (mkRun (sr_result run) (sr_ctx run) (evs ++ sr_trace run))
      end
  end.

(** [schedule_inner]; [None] would be a panic or an endless evaluation
    ([schedule_total]). *)
Definition schedule_inner (s : SchedInput) (w : WorkflowContext) : option SchedRun :=
  sorted ← topological_sort (si_nodes s) (si_edges s);
  match sorted with
  | Err e => Some (mkRun (Err (SchedGraph e)) w [])
  | Ok levels => run_levels s 0 levels w
  end.

(** The four entry points differ in the set of nodes to skip and the hook. *)
Definition schedule nodes edges executors w cancel : option SchedRun :=
  schedule_inner (mkSched nodes edges executors ∅ cancel false) w.
Definition schedule_with_hook nodes edges executors w cancel : option SchedRun :=
  schedule_inner (mkSched nodes edges executors ∅ cancel true) w.
Definition schedule_resume nodes edges executors w completed cancel : option SchedRun :=
  schedule_inner (mkSched nodes edges executors completed cancel false) w.
Definition schedule_resume_with_hook nodes edges executors w completed cancel
    : option SchedRun :=
  schedule_inner (mkSched nodes edges executors completed cancel true) w.
End Scheduler.

(** ** Lemmas on the parts of a level *)

Section Lemmas.
Context `{JsonText} `{HashOrder} `{Unicode}.

Lemma eval_conditions_total id w ctx edges : is_Some (eval_conditions id w ctx edges).
Proof.
  induction edges as [|e edges IH]; cbn [eval_conditions]; [by eexists|].
  destruct (ed_condition e) as [cond|]; [|done].
  destruct (contains _ _) eqn:Hc; [destruct (existsb _ _); by eexists|].
  destruct (evaluate_resolved_total _ _ Hc) as [b ->]. cbn [mbind option_bind].
  by destruct b; [|eexists].
Qed.

Lemma eval_edge_conditions_total id ce w : is_Some (eval_edge_conditions id ce w).
Proof.
  unfold eval_edge_conditions. destruct (ce !! id); [apply eval_conditions_total|by eexists].
Qed.

Lemma runnable_nodes_total skip ce w level : is_Some (runnable_nodes skip ce w level).
Proof.
  induction level as [|id level IH]; cbn [runnable_nodes]; [by eexists|].
  destruct (decide _); [done|]. destruct (eval_edge_conditions_total id ce w) as [r ->].
  cbn [mbind option_bind]. destruct r as [[]|e]; [|done|by eexists].
  destruct IH as [rest ->]. by eexists.
Qed.

(** Every node of the level is skipped, runs, or has a condition that is false. *)
Lemma runnable_nodes_spec skip ce w level ids :
  runnable_nodes skip ce w level = Some (Ok ids) →
  ids `sublist_of` level ∧
  (∀ u, u ∈ ids → (u ∉ skip) ∧ eval_edge_conditions u ce w = Some (Ok true)) ∧
  (∀ u, u ∈ level → u ∈ skip ∨ u ∈ ids ∨ eval_edge_conditions u ce w = Some (Ok false)).
Proof.
  revert ids. induction level as [|id level IH]; intros ids; cbn [runnable_nodes].
  { intros [= <-]. split; [done|]. split; by intros u ?%elem_of_nil. }
  destruct (decide (id ∈ skip)) as [Hs|Hs].
  { intros (Hsub & Hin & Hall)%IH. split; [by constructor|]. split; [done|].
    intros u [->|Hu]%elem_of_cons; [by left|auto]. }
  destruct (eval_edge_conditions id ce w) as [[[]|e]|] eqn:Ee; cbn [mbind option_bind]; try done.
  - destruct (runnable_nodes skip ce w level) as [[rest|e]|]; cbn; try done.
    intros [= <-]. destruct (IH rest eq_refl) as (Hsub & Hin & Hall).
    split; [by constructor|]. split.
    + intros u [->|Hu]%elem_of_cons; [done|auto].
    + intros u [->|Hu]%elem_of_cons; [right; left; by left|].
      destruct (Hall u Hu) as [?|[?|?]]; [by left|right; left; by right|by right; right].
  - intros (Hsub & Hin & Hall)%IH. split; [by constructor|]. split; [done|].
    intros u [->|Hu]%elem_of_cons; [by right; right|auto].
Qed.

Lemma node_map_of_lookup (nodes : list (NodeDef Value)) v n :
  node_map_of nodes !! v = Some n → nd_id n = v ∧ n ∈ nodes.
Proof.
  unfold node_map_of.
  assert (∀ m : gmap str (NodeDef Value),
    foldl (λ m n, <[nd_id n := n]> m) m nodes !! v = Some n →
    m !! v = Some n ∨ (nd_id n = v ∧ n ∈ nodes)) as Hg.
  { induction nodes as [|n' nodes IH]; intros m; [by left|]. cbn [foldl].
    intros [[[<- <-]|[_ Hm]]%lookup_insert_Some|[? ?]]%IH;
      [right; split; [done|by left]|by left|right; split; [done|by right]]. }
  intros [E|?]%Hg; [by rewrite lookup_empty in E|done].
Qed.

Lemma node_map_of_is_Some (nodes : list (NodeDef Value)) v :
  v ∈ nd_id <$> nodes → is_Some (node_map_of nodes !! v).
Proof.
  unfold node_map_of.
  assert (∀ m : gmap str (NodeDef Value), is_Some (m !! v) ∨ v ∈ nd_id <$> nodes →
    is_Some (foldl (λ m n, <[nd_id n := n]> m) m nodes !! v)) as Hg; [|by auto].
  induction nodes as [|n nodes IH]; intros m; cbn [foldl fmap list_fmap].
  { intros [?|?%elem_of_nil]; done. }
  intros Hm. apply IH. destruct (decide (nd_id n = v)) as [<-|Hne].
  - left. rewrite lookup_insert_eq. by eexists.
  - rewrite lookup_insert_ne by done. rewrite elem_of_cons in Hm. naive_solver.
Qed.

(** The ids of the spawned tasks. *)
Definition spawned_ids (evs : list SchedEvent) : list str :=
  omap (λ e, match e with Spawned _ id _ => Some id | LevelCompleted _ _ => None end) evs.

Lemma spawn_all_spec i nm ex ctx w runnable evs hs :
  (∀ v n, nm !! v = Some n → nd_id n = v) →
  spawn_all i nm ex ctx w runnable = (evs, hs) →
  spawned_ids evs `sublist_of` runnable ∧
  (∀ e, e ∈ evs → ∃ id, e = Spawned i id w ∧ id ∈ runnable) ∧
  (∀ handles, hs = Ok handles → handles.*1 = runnable ∧
     ∀ id, id ∈ runnable → Spawned i id w ∈ evs).
Proof.
  intros Hnm. revert evs hs. induction runnable as [|id runnable IH]; intros evs hs; cbn [spawn_all].
  { intros [= <- <-]. split; [done|]. split; [by intros e ?%elem_of_nil|].
    intros handles [= <-]. split; [done|]. by intros id ?%elem_of_nil. }
  assert (∀ err : SchedError, ([], Err err) = (evs, hs) →
    spawned_ids evs `sublist_of` (id :: runnable) ∧
    (∀ e, e ∈ evs → ∃ id', e = Spawned i id' w ∧ id' ∈ id :: runnable) ∧
    (∀ handles, hs = Ok handles → handles.*1 = id :: runnable ∧
       ∀ id', id' ∈ id :: runnable → Spawned i id' w ∈ evs)) as Herr.
  { intros err [= <- <-]. split; [apply sublist_nil_l|]. split; [by intros e ?%elem_of_nil|done]. }
  destruct (nm !! id) as [node|] eqn:Hn; [|by apply Herr].
  destruct (ex (nd_node_type node)) as [executor|]; [|by apply Herr]. clear Herr.
  destruct (spawn_all i nm ex ctx w runnable) as [evs' rest].
  destruct (IH evs' rest eq_refl) as (Hsub & Hin & Hok). intros [= <- <-]. split_and!.
  - cbn. by constructor.
  - intros e [->|He]%elem_of_cons; [exists id; split; [done|by left]|].
    destruct (Hin e He) as (id' & -> & ?). exists id'. split; [done|by right].
  - intros handles. destruct rest as [hs'|]; cbn [res_bind]; [|done]. intros [= <-].
    destruct (Hok hs' eq_refl) as [Hfst Hall]. split.
    + cbn. by rewrite Hfst, (Hnm _ _ Hn).
    + intros id' [->|Hid]%elem_of_cons; [by left|right; auto].
Qed.

(** ** What storing results preserves *)

Lemma store_result_results w id r :
  wc_node_results (store_result w id r) = <[id := r]> (wc_node_results w).
Proof.
  unfold store_result. cbn [set_node_result wc_node_results]. f_equal.
  destruct (as_object (nr_output r)) as [obj|]; [|done].
  revert w. induction obj as [|fv obj IH]; intros w; [done|]. cbn [foldl]. by rewrite IH.
Qed.

Lemma collect_mono cancel i j handles w w' r u :
  collect cancel i j handles w = (w', r) → is_Some (wc_node_results w !! u) →
  is_Some (wc_node_results w' !! u).
Proof.
  revert j w. induction handles as [|[id t] handles IH]; intros j w; cbn [collect].
  { by intros [= <- <-]. }
  destruct (cv_join cancel i j); [by intros [= <- <-]|].
  destruct t as [[nr|] [e|]|]; try by intros [= <- <-].
  intros Hc Hu. eapply IH; [exact Hc|]. rewrite store_result_results.
  destruct (decide (id = u)) as [<-|Hne]; [rewrite lookup_insert_eq; by eexists|].
  by rewrite lookup_insert_ne.
Qed.

Lemma collect_all cancel i j handles w w' u :
  collect cancel i j handles w = (w', None) → u ∈ handles.*1 →
  is_Some (wc_node_results w' !! u).
Proof.
  revert j w. induction handles as [|[id t] handles IH]; intros j w; cbn [collect].
  { by intros _ ?%elem_of_nil. }
  destruct (cv_join cancel i j); [done|]. destruct t as [[nr|] [e|]|]; try done.
  intros Hc Hu. cbn [fmap list_fmap fst] in Hu. apply elem_of_cons in Hu as [->|Hu].
  - eapply collect_mono; [exact Hc|]. rewrite store_result_results, lookup_insert_eq. by eexists.
  - by eapply IH.
Qed.

Lemma collect_return cancel i j handles w w' r :
  collect cancel i j handles w = (w', Some r) → r ≠ Ok SchedCompleted.
Proof.
  revert j w. induction handles as [|[id t] handles IH]; intros j w; cbn [collect]; [done|].
  destruct (cv_join cancel i j); [by intros [= _ <-]|].
  destruct t as [[nr|] [e|]|]; try by intros [= _ <-].
  - apply IH.
  - intros [= _ <-]. by destruct (cv_joined cancel i j).
  - intros [= _ <-]. by destruct (cv_joined cancel i j).
Qed.

Lemma any_waiting_false w u r :
  any_waiting w = false → wc_node_results w !! u = Some r → nr_state r ≠ Waiting.
Proof.
  unfold any_waiting. intros Hf Hu Hw. apply not_true_iff_false in Hf. apply Hf.
  apply existsb_Exists_true, Exists_exists. exists (u, r).
  split; [by apply elem_of_hash_iter|]. by apply bool_decide_eq_true.
Qed.
End Lemmas.

(** ** The run of the scheduler *)

Section Runs.
Context `{JsonText} `{HashOrder} `{Unicode}.
Context (s : SchedInput).

(** The node has a result, and does not wait for a human. *)
Definition settled (w : WorkflowContext) (u : str) : Prop :=
  ∃ r, wc_node_results w !! u = Some r ∧ nr_state r ≠ Waiting.

(** The levels that a run enters, each with the context it begins with. *)
Fixpoint entered (i : nat) (levels : list (list str)) (w : WorkflowContext) : list (list str * WorkflowContext) :=
  match levels with
  | [] => []
  | level :: levels =>
      (level, w) :: match run_level s i level w with
                    | Some (_, w', None) => entered (S i) levels w'
                    | _ => []
                    end
  end.

Lemma entered_level i levels w k level wk : entered i levels w !! k = Some (level, wk) → levels !! k = Some level.
Proof.
  revert i w k. induction levels as [|lv levels IH]; intros i w k; [done|]. cbn [entered].
  destruct k as [|k]; [by intros [= -> _]|]. cbn. destruct (run_level s i lv w) as [[[? w'] [?|]]|]; [done| |done]. apply IH.
Qed.

(** The node was left out: one of its conditional edges was false in the context with
    which its level began. *)
Definition left_out (levels : list (list str * WorkflowContext)) (u : str) : Prop :=
  ∃ level wu, (level, wu) ∈ levels ∧ u ∈ level ∧
    eval_edge_conditions u (cond_edges_of (si_edges s)) wu = Some (Ok false).

(** What became of a node by the time the context was [w]: it was to be skipped, it
    ran and its result is there, or it was left out. *)
Definition handled (levels : list (list str * WorkflowContext)) (trace : list SchedEvent) (w : WorkflowContext) (u : str) : Prop :=
  u ∈ si_skip s ∨
  (∃ i wu, Spawned i u wu ∈ trace ∧ settled w u) ∨
  left_out levels u.

Lemma handled_mono levels levels' trace trace' w w' u :
  levels ⊆ levels' → trace ⊆ trace' → (settled w u → settled w' u) →
  handled levels trace w u → handled levels' trace' w' u.
Proof.
  intros Hl Ht Hs [?|[(i & wu & Hin & ?)|(lv & wu & Hin & ?)]]; [by left|right; left|right; right].
  - exists i, wu. split; [by apply Ht|auto].
  - exists lv, wu. split; [by apply Hl|done].
Qed.

(** The context after a level still has the results, and if the scheduler goes on
    after it ran something, none of them waits. *)
Lemma run_level_results i level w evs w' r :
  run_level s i level w = Some (evs, w', r) →
  (∀ u, is_Some (wc_node_results w !! u) → is_Some (wc_node_results w' !! u)) ∧
  (r = None → w' = w ∨ any_waiting w' = false) ∧
  (r = Some (Ok SchedCompleted) → any_waiting w' = true).
Proof.
  unfold run_level. destruct (cv_level _ i); [by intros [= <- <- <-]|].
  destruct (runnable_nodes _ _ w level) as [[[|v rs]|e]|]; cbn [mbind option_bind]; try done.
  1, 3: intros [= <- <- <-]; split; [done|split; [by left|done]].
  destruct (spawn_all _ _ _ _ w (v :: rs)) as [es [hs|e]].
  2: { intros [= <- <- <-]. done. }
  destruct (collect (si_cancel s) i 0 hs w) as [wc [rr|]] eqn:Hc; intros [= <- <- <-].
  - split; [intros u; by eapply collect_mono|]. split; [done|].
    intros [= ->]. by apply collect_return in Hc.
  - split; [intros u; by eapply collect_mono|].
    destruct (any_waiting wc) eqn:Hw; split; try done. intros _. by right.
Qed.

Lemma run_level_settled i level w evs w' u :
  run_level s i level w = Some (evs, w', None) → settled w u → settled w' u.
Proof.
  intros (Hm & Hn & _)%run_level_results (r & Hr & Hst).
  destruct (Hn eq_refl) as [->|Hw]; [by exists r|].
  destruct (Hm u) as [r' Hr']; [by eexists|]. exists r'. split; [done|].
  by eapply any_waiting_false.
Qed.

Lemma spawned_ids_hook evs i w (b : bool) :
  spawned_ids (if b then evs ++ [LevelCompleted i w] else evs) = spawned_ids evs.
Proof.
  destruct b; [|done]. unfold spawned_ids. rewrite omap_app. apply app_nil_r.
Qed.

Lemma elem_of_hook evs i w j v wv (b : bool) :
  Spawned j v wv ∈ (if b then evs ++ [LevelCompleted i w] else evs) ↔ Spawned j v wv ∈ evs.
Proof. destruct b; [|done]. rewrite elem_of_app, list_elem_of_singleton. naive_solver. Qed.

(** The tasks a level spawns, and, when the scheduler goes on, what became of each
    node of the level. *)
Lemma run_level_spec i level w evs w' r :
  run_level s i level w = Some (evs, w', r) →
  spawned_ids evs `sublist_of` level ∧
  (∀ j v wv, Spawned j v wv ∈ evs → j = i ∧ wv = w ∧ v ∈ level ∧ (v ∉ si_skip s) ∧
     eval_edge_conditions v (cond_edges_of (si_edges s)) wv = Some (Ok true)) ∧
  (r = None → ∀ u, u ∈ level → handled [(level, w)] evs w' u).
Proof.
  intros Hrun. pose proof (run_level_results _ _ _ _ _ _ Hrun) as (_ & Hres & _). revert Hrun.
  unfold run_level. destruct (cv_level _ i).
  { intros [= <- <- <-]. split; [apply sublist_nil_l|]. split; [by intros j v wv ?%elem_of_nil|done]. }
  destruct (runnable_nodes _ _ w level) as [[rs|e]|] eqn:Hrn; cbn [mbind option_bind]; try done.
  2: { intros [= <- <- <-]. split; [apply sublist_nil_l|]. split; [by intros j v wv ?%elem_of_nil|done]. }
  apply runnable_nodes_spec in Hrn as (Hsub & Hin & Hall).
  assert (∀ trace w2, (∀ u, u ∈ rs → ∃ i wu, Spawned i u wu ∈ trace ∧ settled w2 u) →
    ∀ u, u ∈ level → handled [(level, w)] trace w2 u) as Hhand.
  { intros trace w2 Hrs u Hu. destruct (Hall u Hu) as [?|[?|?]]; [by left|right; left; auto|].
    right; right. exists level, w. split; [by left|done]. }
  destruct rs as [|v rs].
  { intros [= <- <- <-]. split; [apply sublist_nil_l|]. split; [by intros j v wv ?%elem_of_nil|].
    intros _. apply Hhand. by intros u ?%elem_of_nil. }
  set (rn := v :: rs) in *.
  destruct (spawn_all _ _ _ _ w rn) as [es hs] eqn:Hsp.
  destruct (spawn_all_spec _ _ _ _ _ _ _ _ (λ v n E, proj1 (node_map_of_lookup _ v n E)) Hsp)
    as (Hsub' & Hev & Hok).
  assert (spawned_ids es `sublist_of` level) as Hsl by (by etrans).
  assert (∀ j u wv, Spawned j u wv ∈ es → j = i ∧ wv = w ∧ u ∈ level ∧ (u ∉ si_skip s) ∧
    eval_edge_conditions u (cond_edges_of (si_edges s)) wv = Some (Ok true)) as Hsp'.
  { intros j u wv He. destruct (Hev _ He) as (id & [= -> -> ->] & Hid).
    split; [done|]. split; [done|]. split; [by eapply elem_of_sublist|]. by apply Hin. }
  destruct hs as [hs|e].
  2: { intros [= <- <- <-]. done. }
  destruct (Hok hs eq_refl) as [Hfst Hspn].
  destruct (collect (si_cancel s) i 0 hs w) as [wc [rr|]] eqn:Hc; intros [= <- <- <-]; [done|].
  rewrite spawned_ids_hook. setoid_rewrite elem_of_hook. split; [done|]. split; [done|].
  intros Hw u Hu. eapply handled_mono; [done| | |apply (Hhand es wc); [|exact Hu]].
  - destruct (si_hook s); [|done]. intros e He. apply elem_of_app. by left.
  - done.
  - intros u' Hu'. exists i, w. split; [by apply Hspn|].
    destruct (collect_all _ _ _ _ _ _ u' Hc) as [r Hr]; [by rewrite Hfst|].
    exists r. split; [done|]. destruct (any_waiting wc) eqn:Ew; [done|].
    by eapply any_waiting_false.
Qed.

Lemma sublist_elem_of_app {A : Type} (x : A) l1 l2 : x ∈ l1 → x ∈ l1 ++ l2.
Proof. intros ?. apply elem_of_app. by left. Qed.

(** Results that are there when the levels start are there later on. *)
Lemma run_levels_settled i levels w run u :
  run_levels s i levels w = Some run → settled w u →
  (∀ j v wv, Spawned j v wv ∈ sr_trace run → settled wv u) ∧
  (any_waiting (sr_ctx run) = false → settled (sr_ctx run) u).
Proof.
  revert i w run. induction levels as [|level levels IH]; intros i w run; cbn [run_levels].
  { intros [= <-] Hu. split; [by intros j v wv ?%elem_of_nil|done]. }
  destruct (run_level s i level w) as [[[evs w'] [r|]]|] eqn:Hl; cbn [mbind option_bind]; try done.
  - intros [= <-] Hu. cbn [sr_trace sr_ctx].
    destruct (run_level_spec _ _ _ _ _ _ Hl) as (_ & Hsp & _).
    destruct (run_level_results _ _ _ _ _ _ Hl) as (Hm & _ & _). split.
    + intros j v wv (_ & -> & _)%Hsp. done.
    + intros Hw. destruct Hu as (r0 & Hr0 & _). destruct (Hm u) as [r1 Hr1]; [by eexists|].
      exists r1. split; [done|]. by eapply any_waiting_false.
  - destruct (run_levels s (S i) levels w') as [run'|] eqn:Hr; cbn [mbind option_bind]; [|done].
    intros [= <-] Hu. cbn [sr_trace sr_ctx].
    destruct (run_level_spec _ _ _ _ _ _ Hl) as (_ & Hsp & _).
    destruct (IH _ _ _ Hr (run_level_settled _ _ _ _ _ _ Hl Hu)) as [Ht Hf].
    split; [|done]. intros j v wv [(_ & -> & _)%Hsp|?]%elem_of_app; [done|by eapply Ht].
Qed.

(** The whole run: which tasks are spawned when, and what became of the nodes of
    earlier levels. *)
Lemma run_levels_spec i levels w run :
  run_levels s i levels w = Some run →
  spawned_ids (sr_trace run) `sublist_of` concat levels ∧
  (∀ j v wv, Spawned j v wv ∈ sr_trace run →
     i ≤ j ∧ in_level levels (j - i) v ∧ (v ∉ si_skip s) ∧
     eval_edge_conditions v (cond_edges_of (si_edges s)) wv = Some (Ok true) ∧
     ∀ k u, k < j - i → in_level levels k u → handled (entered i levels w) (sr_trace run) wv u) ∧
  (sr_result run = Ok SchedCompleted → any_waiting (sr_ctx run) = false →
     ∀ u, u ∈ concat levels → handled (entered i levels w) (sr_trace run) (sr_ctx run) u).
Proof.
  revert i w run. induction levels as [|level levels IH]; intros i w run; cbn [run_levels].
  { intros [= <-]. split; [done|]. split; [by intros j v wv ?%elem_of_nil|].
    intros _ _ u. by intros ?%elem_of_nil. }
  cbn [entered]. destruct (run_level s i level w) as [[[evs w'] r]|] eqn:Hl; cbn [mbind option_bind]; [|done].
  destruct (run_level_spec _ _ _ _ _ _ Hl) as (Hsub & Hsp & Hh).
  assert (∀ j v wv, Spawned j v wv ∈ evs → i ≤ j ∧ in_level (level :: levels) (j - i) v ∧
    (v ∉ si_skip s) ∧ eval_edge_conditions v (cond_edges_of (si_edges s)) wv = Some (Ok true) ∧ j - i = 0) as Hhead.
  { intros j v wv (-> & -> & Hv & Hs & He)%Hsp. rewrite Nat.sub_diag. split_and!; [lia| |done|done|done].
    by exists level. }
  destruct r as [r|].
  { intros [= <-]. cbn [sr_trace sr_ctx sr_result]. split.
    { cbn [concat]. by apply sublist_inserts_r. }
    split.
    - intros j v wv (Hj & Hin & Hs & He & Hz)%Hhead. split_and!; try done. intros k u Hk. lia.
    - intros -> Hw. destruct (run_level_results _ _ _ _ _ _ Hl) as (_ & _ & Hc).
      rewrite Hc in Hw; done. }
  destruct (run_levels s (S i) levels w') as [run'|] eqn:Hr; cbn [mbind option_bind]; [|done].
  intros [= <-]. cbn [sr_trace sr_ctx sr_result].
  destruct (IH _ _ _ Hr) as (Hsub' & Hsp' & Hfin). set (ent := entered (S i) levels w') in *.
  assert (∀ u w2, u ∈ level → (settled w' u → settled w2 u) → handled ((level, w) :: ent) (evs ++ sr_trace run') w2 u) as Hfirst.
  { intros u w2 Hu Hset. eapply handled_mono; [..|exact Hset|by apply Hh].
    - intros e ->%list_elem_of_singleton. by left.
    - intros e ?. by apply sublist_elem_of_app. }
  assert (∀ u w2, handled ent (sr_trace run') w2 u → handled ((level, w) :: ent) (evs ++ sr_trace run') w2 u) as Hlater.
  { intros u w2 Hu. eapply handled_mono; [..|done|exact Hu]; [by right|]. intros e ?. apply elem_of_app. by right. }
  split; [|split].
  - unfold spawned_ids in *. rewrite omap_app. cbn [concat]. by apply sublist_app.
  - intros j v wv [He|He]%elem_of_app.
    + apply Hhead in He as (Hj & Hin & Hs & He & Hz). split_and!; try done. intros k u Hk. lia.
    + destruct (Hsp' j v wv He) as (Hj & Hin & Hs & Hev & Hk).
      replace (j - i) with (S (j - S i)) by lia. split_and!; [lia|done..|].
      intros [|k] u Hlt (lv & Hlv & Hu); cbn in Hlv.
      * injection Hlv as <-. apply Hfirst; [done|]. intros Hset.
        destruct (run_levels_settled _ _ _ _ _ Hr Hset) as [Ht _]. by eapply Ht.
      * apply Hlater, (Hk k u); [lia|by exists lv].
  - intros Hres Hw u [Hu|Hu]%elem_of_app.
    + apply Hfirst; [done|]. intros Hset. destruct (run_levels_settled _ _ _ _ _ Hr Hset) as [_ Hf]. auto.
    + by apply Hlater, Hfin.
Qed.
End Runs.

(** ** Properties of the scheduler *)

Section Properties.
Context `{JsonText} `{HashOrder} `{Unicode}.

Lemma run_level_total (s : SchedInput) i level w : is_Some (run_level s i level w).
Proof.
  unfold run_level. destruct (cv_level _ i); [by eexists|].
  destruct (runnable_nodes_total (si_skip s) (cond_edges_of (si_edges s)) w level) as [rn ->].
  cbn [mbind option_bind]. destruct rn as [[|v rs]|e]; [by eexists| |by eexists].
  destruct (spawn_all _ _ _ _ w (v :: rs)) as [es [hs|e]]; [|by eexists].
  destruct (collect _ _ _ _ _) as [wc [rr|]]; by eexists.
Qed.

Lemma run_levels_total (s : SchedInput) i levels w : is_Some (run_levels s i levels w).
Proof.
  revert i w. induction levels as [|level levels IH]; intros i w; cbn [run_levels]; [by eexists|].
  destruct (run_level_total s i level w) as [[[evs w'] [r|]] ->]; cbn [mbind option_bind];
    [by eexists|].
  destruct (IH (S i) w') as [run ->]. by eexists.
Qed.

(** Also: The scheduler always comes to a result: the sort ends, the arithmetic on the
    degrees does not overflow, and every conditional edge is evaluated in finitely
    many steps, because a condition with an unresolved template is decided before
    the recursive evaluation is reached. *)
Theorem schedule_total (s : SchedInput) (w : WorkflowContext) : is_Some (schedule_inner s w).
Proof.
  unfold schedule_inner.
  destruct (topological_sort_layers (si_nodes s) (si_edges s)) as (levels & -> & _).
  cbn [mbind option_bind]. destruct (decide _); [apply run_levels_total|by eexists].
Qed.

(** A node is in one level. *)
Lemma in_one_level (levels : list (list str)) j k u :
  NoDup (concat levels) → in_level levels j u → in_level levels k u → j = k.
Proof.
  intros Hnd Hj Hk.
  assert (∀ a b, a < b → in_level levels a u → in_level levels b u → False) as Hno.
  { intros a b Hab (la & Hla & Hua) (lb & Hlb & Hub).
    rewrite <-(take_drop_middle levels b lb Hlb), concat_app, concat_cons in Hnd.
    apply NoDup_app in Hnd as (_ & Hd & _). apply (Hd u).
    - apply elem_of_concat_take. exists a. split; [done|by exists la].
    - apply elem_of_app. by left. }
  destruct (decide (j = k)) as [|Hne]; [done|]. exfalso.
  destruct (decide (j < k)); [by apply (Hno j k)|apply (Hno k j); [lia|done|done]].
Qed.

(** What the levels of a run are. *)
Lemma schedule_levels (s : SchedInput) w run :
  closed (si_nodes s) (si_edges s) → schedule_inner s w = Some run →
  (∃ levels, topological_sort (si_nodes s) (si_edges s) = Some (Ok levels) ∧ run_levels s 0 levels w = Some run ∧
     acyclic (arcs (si_nodes s) (si_edges s)) ∧
     sorted_levels (arcs (si_nodes s) (si_edges s)) (node_ids (si_nodes s)) levels) ∨
  run = mkRun (Err (SchedGraph CycleDetected)) w [].
Proof.
  intros Hc. unfold schedule_inner.
  pose proof (topological_sort_answer (si_nodes s) (si_edges s) Hc) as Hs.
  destruct (topological_sort _ _) as [[levels|[]]|]; cbn [mbind option_bind]; [| |done].
  - intros Hr. left. exists levels. destruct Hs. by split_and!.
  - intros [= <-]. by right.
Qed.

(** The level [j] of a run has the node [u] and begins with the context [wu]. *)
Definition begins (s : SchedInput) (w : WorkflowContext) (j : nat) (u : str) (wu : WorkflowContext) : Prop :=
  ∃ levels level, topological_sort (si_nodes s) (si_edges s) = Some (Ok levels) ∧
    entered s 0 levels w !! j = Some (level, wu) ∧ u ∈ level.

(** C34: No node starts before its dependencies are dealt with.  In a run over a
    graph whose edges join defined nodes, a task is spawned at most once per node,
    only for defined nodes and never for a node to skip; and when it is spawned, its own
    conditional edges are true in the context it is given, and each node it depends on,
    by an edge or [depends_on], was to be skipped, or has run at an earlier level and has
    a result in that context that is not waiting for a human, or was left out at an
    earlier level by a conditional edge that was false in the context with which that
    level of the run began. *)
Theorem schedule_respects_dependencies (s : SchedInput) (w : WorkflowContext) (run : SchedRun)
    (Hc : closed (si_nodes s) (si_edges s)) (Hrun : schedule_inner s w = Some run) :
  NoDup (spawned_ids (sr_trace run)) ∧
  ∀ i v wv, Spawned i v wv ∈ sr_trace run →
    v ∈ node_ids (si_nodes s) ∧ (v ∉ si_skip s) ∧
    eval_edge_conditions v (cond_edges_of (si_edges s)) wv = Some (Ok true) ∧
    ∀ u, (u, v) ∈ arcs (si_nodes s) (si_edges s) →
      u ∈ si_skip s ∨
      (∃ j wu, j < i ∧ Spawned j u wu ∈ sr_trace run ∧ settled wv u) ∨
      (∃ j wu, j < i ∧ begins s w j u wu ∧ eval_edge_conditions u (cond_edges_of (si_edges s)) wu = Some (Ok false)).
Proof.
  destruct (schedule_levels s w run Hc Hrun) as [(levels & Ht & Hr & _ & Hs)| ->].
  2: { split; [constructor|]. by intros i v wv ?%elem_of_nil. }
  destruct Hs as (Hperm & Hord & _).
  destruct (run_levels_spec s 0 levels w run Hr) as (Hsub & Hsp & _).
  assert (NoDup (concat levels)) as Hnd by (rewrite Hperm; apply NoDup_elements).
  split; [by eapply sublist_NoDup|]. intros i v wv Hv.
  destruct (Hsp i v wv Hv) as (_ & Hlv & Hskip & Hev & Hh). rewrite Nat.sub_0_r in *.
  split_and!; [|done|done|].
  - apply elem_of_elements. rewrite <-Hperm. apply in_level_concat. by exists i.
  - intros u Ha. destruct (Hord u v i Ha Hlv) as (k & Hk & Hu).
    destruct (Hh k u Hk Hu) as [?|[(j & wu & Hj & Hset)|(level & wu & Hin & Hul & He)]]; [by left|right; left|right; right].
    + exists j, wu. split_and!; [|done|done]. destruct (Hsp j u wu Hj) as (_ & Hlj & _). rewrite Nat.sub_0_r in Hlj.
      by rewrite (in_one_level levels j k u Hnd Hlj Hu).
    + apply list_elem_of_lookup in Hin as [j Hj]. exists j, wu. split_and!; [|by exists levels, level|done].
      apply entered_level in Hj as Hlj. by rewrite (in_one_level levels j k u Hnd ltac:(by exists level) Hu).
Qed.

(** Also: When the scheduler reports completion and no node waits for a human, nothing
    was forgotten: every node of the workflow was to be skipped, or ran and has its
    result in the final context, or was left out by a false condition. *)
Theorem schedule_complete (s : SchedInput) (w : WorkflowContext) (run : SchedRun)
    (Hc : closed (si_nodes s) (si_edges s)) (Hrun : schedule_inner s w = Some run)
    (Hok : sr_result run = Ok SchedCompleted) (Hw : any_waiting (sr_ctx run) = false) :
  ∃ levels, topological_sort (si_nodes s) (si_edges s) = Some (Ok levels) ∧
    ∀ u, u ∈ node_ids (si_nodes s) → handled s (entered s 0 levels w) (sr_trace run) (sr_ctx run) u.
Proof.
  destruct (schedule_levels s w run Hc Hrun) as [(levels & Ht & Hr & _ & Hs & _)| ->]; [|done]. exists levels. split; [done|].
  intros u Hu. destruct (run_levels_spec s 0 levels w run Hr) as (_ & _ & Hfin). apply Hfin; [done|done|].
  rewrite Hs. by apply elem_of_elements.
Qed.

Lemma spawn_all_no_missing i nm ex ctx w runnable evs e :
  (∀ v, v ∈ runnable → is_Some (nm !! v)) →
  spawn_all i nm ex ctx w runnable = (evs, Err e) → ∃ ty id, e = NoExecutor ty id.
Proof.
  revert evs e. induction runnable as [|id runnable IH]; intros evs e Hin; cbn [spawn_all]; [done|].
  destruct (Hin id) as [node ->]; [by left|].
  destruct (ex (nd_node_type node)) as [executor|]; [|intros [= _ <-]; eauto].
  destruct (spawn_all i nm ex ctx w runnable) as [evs' [hs|e']]; cbn [res_bind]; [done|].
  intros [= _ <-]. eapply IH; [|done]. intros v Hv. apply Hin. by right.
Qed.

Definition structural (e : SchedError) : Prop :=
  match e with
  | SchedGraph _ | NodeNotFound _ => True
  | _ => False
  end.

Lemma eval_edge_conditions_error id ce w e :
  eval_edge_conditions id ce w = Some (Err e) → ¬ structural e.
Proof.
  unfold eval_edge_conditions. destruct (ce !! id) as [edges|]; [|done].
  generalize (build_executor_context w) as ctx. intros ctx.
  induction edges as [|ed edges IH]; cbn [eval_conditions]; [done|].
  destruct (ed_condition ed) as [cond|]; [|done].
  destruct (contains _ _); [destruct (existsb _ _); [by intros [= <-] []|done]|].
  destruct (evaluate_condition _ _ _) as [[]|]; cbn [mbind option_bind]; done.
Qed.

Lemma runnable_nodes_error skip ce w level e :
  runnable_nodes skip ce w level = Some (Err e) → ¬ structural e.
Proof.
  induction level as [|id level IH]; cbn [runnable_nodes]; [done|].
  destruct (decide _); [done|].
  destruct (eval_edge_conditions id ce w) as [[[]|e']|] eqn:E; cbn [mbind option_bind]; try done.
  - destruct (runnable_nodes skip ce w level) as [[rest|e']|]; cbn; done.
  - intros [= <-]. by eapply eval_edge_conditions_error.
Qed.

Lemma collect_error cancel i j handles w w' e :
  collect cancel i j handles w = (w', Some (Err e)) → ¬ structural e.
Proof.
  revert j w. induction handles as [|[id t] handles IH]; intros j w; cbn [collect]; [done|].
  destruct (cv_join cancel i j); [done|].
  destruct t as [[nr|] [err|]|]; try by intros [= _ <-] [].
  - apply IH.
  - destruct (cv_joined cancel i j); [done|]. by intros [= _ <-] [].
  - destruct (cv_joined cancel i j); [done|]. by intros [= _ <-] [].
Qed.

Lemma run_level_error (s : SchedInput) i level w evs w' e :
  (∀ v, v ∈ level → v ∈ node_ids (si_nodes s)) →
  run_level s i level w = Some (evs, w', Some (Err e)) → ¬ structural e.
Proof.
  intros Hin. unfold run_level. destruct (cv_level _ i); [done|].
  destruct (runnable_nodes _ _ w level) as [[rs|e']|] eqn:Hrn; cbn [mbind option_bind]; try done.
  2: { intros [= _ _ <-]. by eapply runnable_nodes_error. }
  apply runnable_nodes_spec in Hrn as (Hsub & _). destruct rs as [|v rs]; [done|].
  set (rn := v :: rs) in *. destruct (spawn_all _ _ _ _ w rn) as [es [hs|e']] eqn:Hsp.
  - destruct (collect _ _ _ _ _) as [wc [rr|]] eqn:Hcol.
    + intros [= _ _ ->]. by eapply collect_error.
    + intros [= _ _ Hr]. by destruct (any_waiting wc).
  - intros [= _ _ <-]. apply spawn_all_no_missing in Hsp as (ty & id & ->); [by intros []|].
    intros u Hu. apply node_map_of_is_Some, elem_of_node_ids, Hin. by eapply elem_of_sublist.
Qed.

Lemma run_levels_error (s : SchedInput) i levels w run e :
  (∀ v, v ∈ concat levels → v ∈ node_ids (si_nodes s)) →
  run_levels s i levels w = Some run → sr_result run = Err e → ¬ structural e.
Proof.
  revert i w run. induction levels as [|level levels IH]; intros i w run Hin; cbn [run_levels].
  { by intros [= <-]. }
  destruct (run_level s i level w) as [[[evs w'] [r|]]|] eqn:Hl; cbn [mbind option_bind]; [| |done].
  - intros [= <-]. cbn [sr_result]. intros ->. eapply run_level_error; [|exact Hl].
    intros v Hv. apply Hin. cbn [concat]. apply elem_of_app. by left.
  - destruct (run_levels s (S i) levels w') as [run'|] eqn:Hr; cbn [mbind option_bind]; [|done].
    intros [= <-]. cbn [sr_result]. eapply IH; [|exact Hr].
    intros v Hv. apply Hin. cbn [concat]. apply elem_of_app. by right.
Qed.

(** Also: A workflow that passed validation never fails for its structure: whatever the
    executors, the nodes to skip, the cancellation and the context, the scheduler
    reports neither a cycle nor an unknown node. *)
Theorem validated_workflow_schedules (wf : Workflow Value) executors skip cancel hook w run
    (Hv : validate wf = Some (Ok tt))
    (Hrun : schedule_inner (mkSched (wf_nodes wf) (wf_edges wf) executors skip cancel hook) w
            = Some run) :
  ∀ e, sr_result run = Err e → ¬ structural e.
Proof.
  intros e He. apply validate_ok in Hv as [_ _ _ _ Hc Hac _].
  set (s := mkSched _ _ _ _ _ _) in *. revert Hrun. unfold schedule_inner.
  pose proof (topological_sort_answer (si_nodes s) (si_edges s) Hc) as Hs.
  destruct (topological_sort _ _) as [[levels|[]]|]; cbn [mbind option_bind]; [|done|done].
  destruct Hs as (_ & Hperm & _). intros Hr. eapply run_levels_error; [|exact Hr|done].
  intros v Hvv. rewrite Hperm in Hvv. by apply elem_of_elements.
Qed.

(** ** Retry *)

(** The attempt fails, with this error. *)
Definition fails_with (node : NodeDef Value) (env : TaskEnv) (k : nat) (le : option NodeError)
    : Prop :=
  (∃ e, timed_attempt node env k = EndResult (Err e) ∧ le = Some e) ∨
  (∃ r, timed_attempt node env k = EndResult (Ok r) ∧ nr_state r = Failed ∧
        le = NodeErr <$> nr_error r).

Definition succeeds_with (node : NodeDef Value) (env : TaskEnv) (k : nat) (r : NodeResult)
    : Prop :=
  timed_attempt node env k = EndResult (Ok r) ∧ nr_state r ≠ Failed.

Lemma run_attempts_fail node env more k lr le le' :
  te_cancelled env k = false → te_cancel_backoff env k = false → fails_with node env k le' →
  ∃ lr', run_attempts node env (S more) k lr le = run_attempts node env more (S k) lr' le'.
Proof.
  intros Hc Hb Hf. cbn [run_attempts]. rewrite Hc, Hb, andb_false_r.
  destruct Hf as [(e & -> & ->)|(r & -> & Hst & ->)]; [by exists lr|].
  exists (Some r). by rewrite (bool_decide_true (nr_state r = Failed)).
Qed.

(** Also: A node is tried once and up to retry_count times more.  While the token is
    not triggered, the first attempt that succeeds gives the task its result,
    however the attempts before it failed or timed out; when all retry_count + 1
    attempts fail, the task carries the error of the last one. *)
Theorem retry_spec (node : NodeDef Value) (env : TaskEnv)
    (Hquiet : ∀ k, te_cancelled env k = false ∧ te_cancel_backoff env k = false) :
  (∀ k r, k ≤ nd_retry_count node → succeeds_with node env k r →
     (∀ j, j < k → ∃ le, fails_with node env j le) →
     run_task node env = Joined (Some r) None) ∧
  (∀ errs, (∀ j, j ≤ nd_retry_count node → fails_with node env j (errs j)) →
     ∃ lr, run_task node env = Joined lr (errs (nd_retry_count node))).
Proof.
  unfold run_task. split.
  - intros k r Hk [Hs Hst] Hf.
    assert (∀ d lr le, d ≤ k →
      run_attempts node env (S (nd_retry_count node) - (k - d)) (k - d) lr le =
      Joined (Some r) None) as Hg.
    { induction d as [|d IH]; intros lr le Hd.
      - rewrite Nat.sub_0_r. replace (S (nd_retry_count node) - k)
          with (S (nd_retry_count node - k)) by lia.
        cbn [run_attempts]. destruct (Hquiet k) as [-> _]. rewrite Hs.
        by rewrite (bool_decide_false (nr_state r = Failed)).
      - destruct (Hf (k - S d)) as [le' Hle]; [lia|]. destruct (Hquiet (k - S d)) as [Hc Hb].
        replace (S (nd_retry_count node) - (k - S d))
          with (S (S (nd_retry_count node) - (k - d))) by lia.
        destruct (run_attempts_fail node env (S (nd_retry_count node) - (k - d)) (k - S d) lr le le'
          Hc Hb Hle) as [lr' ->].
        replace (S (k - S d)) with (k - d) by lia. apply IH. lia. }
    specialize (Hg k None None (le_n k)). by rewrite Nat.sub_diag, Nat.sub_0_r in Hg.
  - intros errs Hf. set (n := nd_retry_count node) in *.
    assert (∀ d lr le, d ≤ n →
      ∃ lr', run_attempts node env (S d) (n - d) lr le = Joined lr' (errs n)) as Hg.
    { induction d as [|d IH]; intros lr le Hd.
      - rewrite Nat.sub_0_r. destruct (Hquiet n) as [Hc Hb].
        destruct (run_attempts_fail node env 0 n lr le _ Hc Hb (Hf n (le_n n))) as [lr' ->].
        by exists lr'.
      - destruct (Hquiet (n - S d)) as [Hc Hb].
        destruct (run_attempts_fail node env (S d) (n - S d) lr le _ Hc Hb (Hf (n - S d) ltac:(lia)))
          as [lr' ->].
        replace (S (n - S d)) with (n - d) by lia. apply IH. lia. }
    destruct (Hg n None None (le_n n)) as [lr Hlr]. rewrite Nat.sub_diag in Hlr. by exists lr.
Qed.
End Properties.

(** ** Witnesses *)

#[local] Existing Instance toy_numbers.
#[local] Existing Instance toy_text.
#[local] Existing Instance map_order.
#[local] Existing Instance ascii_unicode.

Definition demo_node (id : str) (retries : nat) : NodeDef Value :=
  mkNode id (lit "delay") ∅ [] retries (Some (lit "2s")) false.

(** a before b and c, the edge to c conditional, c before d. *)
Definition flow_nodes : list (NodeDef Value) :=
  [demo_node (lit "a") 1; demo_node (lit "b") 0; demo_node (lit "c") 0; demo_node (lit "d") 0].
Definition flow_edges : list Edge :=
  [mkEdge (lit "a") (lit "b") None;
   mkEdge (lit "a") (lit "c") (Some (lit "{{a.go}} == no"));
   mkEdge (lit "c") (lit "d") None].

Definition ok_result (id : str) : NodeResult :=
  mkNodeResult id (VObject [(lit "go", VString (lit "yes"))]) None Completed 0 0 ∅.

(** The first attempt takes too long, the second succeeds. *)
Definition flow_task (node : NodeDef Value) : TaskEnv :=
  mkTask (λ _, false) (λ _, AttemptReturned (Ok (ok_result (nd_id node))))
    (λ k _, (k =? 0)%nat && (0 <? nd_retry_count node)%nat) (λ _, false).

Definition quiet : CancelView := mkCancel (λ _, false) (λ _ _, false) (λ _ _, false).

Definition flow_input : SchedInput :=
  mkSched flow_nodes flow_edges (λ _, Some (λ node _ _, flow_task node)) ∅ quiet true.

Example flow_runs :
  (λ run, spawned_ids (sr_trace run)) <$> schedule_inner flow_input (wf_ctx_new ∅) =
  Some [lit "a"; lit "b"; lit "d"].
Proof. vm_compute. reflexivity. Qed.

Lemma flow_closed : closed (si_nodes flow_input) (si_edges flow_input).
Proof.
  apply closed_iff. split.
  - intros e He. cbn [si_edges flow_input flow_edges] in He.
    repeat (apply elem_of_cons in He as [->|He];
      [split; apply (bool_decide_unpack _); vm_compute; exact I|]).
    by apply elem_of_nil in He.
  - intros n d Hn Hd. cbn [si_nodes flow_input flow_nodes] in Hn.
    repeat (apply elem_of_cons in Hn as [->|Hn]; [by apply elem_of_nil in Hd|]).
    by apply elem_of_nil in Hn.
Qed.

Lemma schedule_respects_dependencies_witness :
  ∃ run, schedule_inner flow_input (wf_ctx_new ∅) = Some run ∧
    NoDup (spawned_ids (sr_trace run)) ∧
    ∀ i v wv, Spawned i v wv ∈ sr_trace run → v ∈ node_ids flow_nodes.
Proof.
  destruct (schedule_inner flow_input (wf_ctx_new ∅)) as [run|] eqn:E.
  - exists run. split; [done|].
    destruct (schedule_respects_dependencies flow_input (wf_ctx_new ∅) run flow_closed E)
      as [Hnd Hall].
    split; [exact Hnd|]. intros i v wv Hv. by destruct (Hall i v wv Hv) as [? _].
  - exfalso. vm_compute in E. discriminate.
Defined.

Lemma schedule_complete_witness :
  ∃ run levels, schedule_inner flow_input (wf_ctx_new ∅) = Some run ∧
    ∀ u, u ∈ node_ids flow_nodes → handled flow_input (entered flow_input 0 levels (wf_ctx_new ∅)) (sr_trace run) (sr_ctx run) u.
Proof.
  assert ((λ run, any_waiting (sr_ctx run)) <$>
    schedule_inner flow_input (wf_ctx_new ∅) = Some false) as Hc by (vm_compute; reflexivity).
  assert ((λ run, match sr_result run with Ok SchedCompleted => true | _ => false end) <$>
    schedule_inner flow_input (wf_ctx_new ∅) = Some true) as Hr by (vm_compute; reflexivity).
  destruct (schedule_inner flow_input (wf_ctx_new ∅)) as [run|] eqn:E; [|done].
  injection Hc as Hw. injection Hr as Hr.
  destruct (schedule_complete flow_input (wf_ctx_new ∅) run flow_closed E) as (levels & _ & Hu); [|exact Hw|].
  - by destruct (sr_result run) as [[]|].
  - exists run, levels. split; [reflexivity|exact Hu].
Defined.

Definition flow_workflow : Workflow Value :=
  mkWorkflow (lit "flow") [] (lit "1.0.0") [mkTrigger (lit "cron") ∅] flow_nodes flow_edges ∅ ∅.

Lemma validated_workflow_schedules_witness :
  ∃ run, validate flow_workflow = Some (Ok tt) ∧
    schedule_inner flow_input (wf_ctx_new ∅) = Some run ∧
    ∀ e, sr_result run = Err e → ¬ structural e.
Proof.
  assert (validate flow_workflow = Some (Ok tt)) as Hv by (vm_compute; reflexivity).
  destruct (schedule_inner flow_input (wf_ctx_new ∅)) as [run|] eqn:E.
  - exists run. split; [done|]. split; [done|].
    exact (validated_workflow_schedules flow_workflow _ _ _ _ _ run Hv E).
  - exfalso. vm_compute in E. discriminate.
Defined.

Lemma retry_spec_witness :
  run_task (demo_node (lit "a") 1) (flow_task (demo_node (lit "a") 1)) =
  Joined (Some (ok_result (lit "a"))) None.
Proof.
  refine (proj1 (retry_spec (demo_node (lit "a") 1) (flow_task (demo_node (lit "a") 1)) _) 1 _ _ _ _).
  - intros k. split; reflexivity.
  - cbn. lia.
  - split; [reflexivity|discriminate].
  - intros j Hj. replace j with 0 by lia. exists (Some (NodeTimedOut (lit "a") 2)).
    left. exists (NodeTimedOut (lit "a") 2). split; reflexivity.
Defined.

(** ** Observations *)

(** Observed: a node whose only predecessor was left out by its condition still
    runs. *)
Theorem dropped_branch_goes_on :
  (λ run, spawned_ids (sr_trace run)) <$> schedule_inner flow_input (wf_ctx_new ∅) =
    Some [lit "a"; lit "b"; lit "d"] ∧
  (λ e, ed_from_node e) <$> filter (λ e, ed_to_node e = lit "d") flow_edges = [lit "c"].
Proof. split; vm_compute; reflexivity. Qed.

(** Observed: a result in state Failed without an error message ends the retries like
    a success, and the run goes on. *)
Theorem failed_without_message_accepted (node : NodeDef Value) (env : TaskEnv) (r : NodeResult)
    (Hr : nd_retry_count node = 0) (Hc : te_cancelled env 0 = false)
    (He : timed_attempt node env 0 = EndResult (Ok r))
    (Hs : nr_state r = Failed) (Hm : nr_error r = None) :
  run_task node env = Joined (Some r) None.
Proof.
  unfold run_task. rewrite Hr. cbn [run_attempts]. rewrite Hc, He.
  rewrite (bool_decide_true (nr_state r = Failed)) by done. rewrite Hr, Hm. done.
Qed.

(** Observed: the minutes and hours of a limit are multiplied modulo 2^64 in a build
    without overflow checks: some 584 billion years become 44 seconds. *)
Theorem duration_wraps :
  parse_duration (lit "307445734561825861m") = Some 44%N ∧
  parse_duration (lit "5m") = Some 300%N ∧ parse_duration (lit "1h") = Some 3600%N.
Proof. split_and!; vm_compute; reflexivity. Qed.
