(* ===== verification/Frame.v ===== *)
(** * Frames of the cluster transport (nemesis-cluster/src/rpc_types.rs,
    transport/frame.rs, transport/conn.rs)

    The length-prefixed codec, its batch and stream forms, the authenticated
    encryption layout, and the read and write loops of a connection.  AES-GCM and
    the JSON text of a message are the classes [Aead] and [WireCodec]. *)
From S2P Require Import Prelude RustStr Merkle.
Local Open Scope nb_scope.

(** The width of [usize] on the target; the crate is built for 64-bit machines
    and for 32-bit Android. *)
Class Target := {
  usize_max : N;
  usize_ge_u32 : (2 ^ 32 - 1 ≤ usize_max)%N;
}.

Definition len (b : bytes) : N := N.of_nat (length b).

(** A buffer that the target can hold. *)
Definition addressable {TG : Target} (b : bytes) : Prop := (len b ≤ usize_max)%N.

Definition is_byte (b : N) : Prop := (b < 256)%N.

(** ** Big-endian 32-bit integers *)

(** [n as u32]. *)
Definition as_u32 (n : N) : N := (n mod 2 ^ 32)%N.

Definition to_be_bytes (n : N) : bytes :=
  [(n / 2 ^ 24) mod 256; (n / 2 ^ 16) mod 256; (n / 2 ^ 8) mod 256; n mod 256]%N.

Definition from_be_bytes (b0 b1 b2 b3 : N) : N :=
  (b0 * 2 ^ 24 + b1 * 2 ^ 16 + b2 * 2 ^ 8 + b3)%N.

Lemma from_to_be n : (n < 2 ^ 32)%N →
  ∃ b0 b1 b2 b3, to_be_bytes n = [b0; b1; b2; b3] ∧ from_be_bytes b0 b1 b2 b3 = n.
Proof.
  intros Hn. do 4 eexists. split; [reflexivity|]. unfold from_be_bytes.
  change (2 ^ 24)%N with (256 * 65536)%N. change (2 ^ 16)%N with (256 * 256)%N.
  change (2 ^ 8)%N with 256%N. change (2 ^ 32)%N with (256 * 16777216)%N in Hn.
  rewrite <- !N.Div0.div_div.
  assert (n / 256 / 65536 < 256)%N.
  { rewrite N.Div0.div_div. apply N.Div0.div_lt_upper_bound. lia. }
  rewrite (N.mod_small (n / 256 / 65536)) by done.
  pose proof (N.div_mod' n 256). pose proof (N.div_mod' (n / 256) 256).
  pose proof (N.div_mod' (n / 256 / 256) 256).
  replace (n / 256 / 65536)%N with (n / 256 / 256 / 256)%N by (rewrite !N.Div0.div_div; f_equal; lia).
  lia.
Qed.

Lemma to_from_be b0 b1 b2 b3 :
  is_byte b0 → is_byte b1 → is_byte b2 → is_byte b3 →
  to_be_bytes (from_be_bytes b0 b1 b2 b3) = [b0; b1; b2; b3].
Proof.
  unfold is_byte, to_be_bytes, from_be_bytes. intros.
  assert (E3 : ((b0 * 2 ^ 24 + b1 * 2 ^ 16 + b2 * 2 ^ 8 + b3) / 2 ^ 8 = b0 * 2 ^ 16 + b1 * 2 ^ 8 + b2)%N).
  { symmetry. apply (N.div_unique _ _ _ b3); lia. }
  assert (E2 : ((b0 * 2 ^ 24 + b1 * 2 ^ 16 + b2 * 2 ^ 8 + b3) / 2 ^ 16 = b0 * 2 ^ 8 + b1)%N).
  { symmetry. apply (N.div_unique _ _ _ (b2 * 2 ^ 8 + b3)); lia. }
  assert (E1 : ((b0 * 2 ^ 24 + b1 * 2 ^ 16 + b2 * 2 ^ 8 + b3) / 2 ^ 24 = b0)%N).
  { symmetry. apply (N.div_unique _ _ _ (b1 * 2 ^ 16 + b2 * 2 ^ 8 + b3)); lia. }
  rewrite E1, E2, E3. repeat f_equal.
  - by apply N.mod_small.
  - symmetry. apply (N.mod_unique _ _ b0); lia.
  - symmetry. apply (N.mod_unique _ _ (b0 * 2 ^ 8 + b1)); lia.
  - symmetry. apply (N.mod_unique _ _ (b0 * 2 ^ 16 + b1 * 2 ^ 8 + b2)); lia.
Qed.

Lemma from_be_bound b0 b1 b2 b3 :
  is_byte b0 → is_byte b1 → is_byte b2 → is_byte b3 → (from_be_bytes b0 b1 b2 b3 < 2 ^ 32)%N.
Proof. unfold is_byte, from_be_bytes. lia. Qed.

(** ** One frame (rpc_types.rs) *)

Record Frame := mkFrame { fr_data : bytes }.

#[export] Instance Frame_eq_dec : EqDecision Frame.
Proof. solve_decision. Defined.

Definition HEADER_SIZE : nat := 4.

Definition encode (f : Frame) : bytes := to_be_bytes (as_u32 (len (fr_data f))) ++ fr_data f.

(** The frame and the bytes consumed. *)
Definition decode {TG : Target} (buf : bytes) : option (Frame * nat) :=
  match buf with
  | b0 :: b1 :: b2 :: b3 :: _ =>
      let n := from_be_bytes b0 b1 b2 b3 in
      let total := (N.of_nat HEADER_SIZE + n)%N in
      (* [checked_add] *)
      if (usize_max <? total)%N then None
      else if (len buf <? total)%N then None
      else Some (mkFrame (take (N.to_nat n) (drop HEADER_SIZE buf)), N.to_nat total)
  | _ => None
  end.

(** ** Batches (frame.rs) *)

Definition encode_batch (frames : list Frame) : bytes := mjoin (encode <$> frames).

(** The loop of [decode_all]; every round consumes at least a header. *)
Fixpoint decode_all_loop {TG : Target} (fuel : nat) (buf : bytes) (frames : list Frame) (offset : nat)
    : list Frame * nat :=
  match fuel with
  | O => (frames, offset)
  | S fuel =>
      if (offset <? length buf)%nat then
        match decode (drop offset buf) with
        | Some (f, consumed) => decode_all_loop fuel buf (frames ++ [f]) (offset + consumed)
        | None => (frames, offset)
        end
      else (frames, offset)
  end.

Definition decode_all {TG : Target} (buf : bytes) : list Frame * nat :=
  decode_all_loop (S (length buf)) buf [] 0.

(** ** Readers and writers (frame.rs) *)

Definition MAX_FRAME_SIZE : N := (16 * 1024 * 1024)%N.

Inductive FrameError :=
| PayloadTooLarge (n : N)      (* InvalidData, "Frame payload too large" *)
| FrameTooLarge (n : N)        (* InvalidData, "Frame too large" *)
| UnexpectedEof.

#[export] Instance FrameError_eq_dec : EqDecision FrameError.
Proof. solve_decision. Defined.

Definition validate_frame_size (data : bytes) : result unit FrameError :=
  if (MAX_FRAME_SIZE <? len data)%N then Err (PayloadTooLarge (len data)) else Ok tt.

(** A writer is what was written to it so far. *)
Definition write_frame (w : bytes) (data : bytes) : result bytes FrameError :=
  match validate_frame_size data with
  | Err e => Err e
  | Ok _ => Ok (w ++ to_be_bytes (as_u32 (len data)) ++ data)
  end.

(** A reader is what is left to read; [read_exact] fails at the end of input. *)
Definition read_exact (n : N) (r : bytes) : result (bytes * bytes) FrameError :=
  if (len r <? n)%N then Err UnexpectedEof
  else Ok (take (N.to_nat n) r, drop (N.to_nat n) r).

Definition header_len (h : bytes) : N :=
  match h with
  | [b0; b1; b2; b3] => from_be_bytes b0 b1 b2 b3
  | _ => 0%N
  end.

Definition read_frame (r : bytes) : result (bytes * bytes) FrameError :=
  (h <-? read_exact 4 r;
   let n := header_len (fst h) in
   if (MAX_FRAME_SIZE <? n)%N then Err (FrameTooLarge n)
   else read_exact n (snd h))%nb.

(** ** Authenticated encryption of payloads (frame.rs) *)

Definition NONCE_SIZE : nat := 12.
Definition TAG_SIZE : nat := 16.

(** AES-256-GCM ([aes-gcm]): sealing appends a tag of 16 bytes, cannot fail below
    the limit of the mode (2^36 bytes), and opening what was sealed under the same
    key and nonce gives it back. *)
Class Aead := {
  aes_seal : bytes → bytes → bytes → option bytes;
  aes_open : bytes → bytes → bytes → option bytes;
  aes_seal_total : ∀ k n p, (len p ≤ 2 ^ 36)%N → is_Some (aes_seal k n p);
  aes_seal_length : ∀ k n p c, aes_seal k n p = Some c → length c = (length p + TAG_SIZE)%nat;
  aes_open_seal : ∀ k n p c, aes_seal k n p = Some c → aes_open k n c = Some p;
}.

Inductive AeadError :=
| EncryptFailed
| EncryptedTooShort (n : N)
| DecryptFailed.

(** [nonce] is what the random generator returned. *)
Definition encrypt_frame {AE : Aead} (nonce : bytes) (payload key : bytes) : result bytes AeadError :=
  match aes_seal key nonce payload with
  | None => Err EncryptFailed
  | Some ct => Ok (nonce ++ ct)
  end.

Definition decrypt_frame {AE : Aead} (data key : bytes) : result bytes AeadError :=
  if (length data <? NONCE_SIZE + TAG_SIZE)%nat then Err (EncryptedTooShort (len data))
  else
    match aes_open key (take NONCE_SIZE data) (drop NONCE_SIZE data) with
    | None => Err DecryptFailed
    | Some p => Ok p
    end.

(** ** Messages and the loops of a connection (conn.rs) *)

Record WireMessage (V : Type) := mkWire {
  wm_version : str;
  wm_id : str;
  wm_type : str;
  wm_from : str;
  wm_to : str;
  wm_action : str;
  wm_payload : V;
  wm_timestamp : Z;
  wm_error : str;
}.
Arguments mkWire {V} _ _ _ _ _ _ _ _ _.
Arguments wm_version {V} _.
Arguments wm_id {V} _.
Arguments wm_type {V} _.
Arguments wm_from {V} _.
Arguments wm_to {V} _.
Arguments wm_action {V} _.
Arguments wm_payload {V} _.
Arguments wm_timestamp {V} _.
Arguments wm_error {V} _.

Definition WIRE_VERSION : str := lit "1.0".

Section Messages.
Context {V : Type} (null : V).

(** The id (clock and random number) and the time are arguments. *)
Definition new_request (id : str) (now : Z) (from to action : str) (payload : V) : WireMessage V :=
  mkWire WIRE_VERSION id (lit "request") from to action payload now [].

Definition new_response (now : Z) (r : WireMessage V) (payload : V) : WireMessage V :=
  mkWire (wm_version r) (wm_id r) (lit "response") (wm_to r) (wm_from r) (wm_action r) payload now [].

Definition new_error (now : Z) (r : WireMessage V) (error : str) : WireMessage V :=
  mkWire (wm_version r) (wm_id r) (lit "error") (wm_to r) (wm_from r) (wm_action r) null now error.

Definition new_heartbeat (id : str) (now : Z) (from : str) : WireMessage V :=
  mkWire WIRE_VERSION id (lit "heartbeat") from from (lit "heartbeat") null now [].

Inductive MissingField := MissingVersion | MissingId | MissingFrom | MissingTo | MissingAction.

Definition validate_message (m : WireMessage V) : result unit MissingField :=
  if negb (nonempty (wm_version m)) then Err MissingVersion
  else if negb (nonempty (wm_id m)) then Err MissingId
  else if negb (nonempty (wm_from m)) then Err MissingFrom
  else if negb (nonempty (wm_to m)) then Err MissingTo
  else if negb (nonempty (wm_action m)) then Err MissingAction
  else Ok tt.

Definition is_heartbeat (m : WireMessage V) : bool := (wm_type m =? lit "heartbeat")%nb.
End Messages.

(** The JSON text of a message ([serde_json]): reading what was written gives it
    back. *)
Class WireCodec := {
  Payload : Type;
  to_bytes : WireMessage Payload → option bytes;
  from_bytes : bytes → option (WireMessage Payload);
  from_to_bytes : ∀ m b, to_bytes m = Some b → from_bytes b = Some m;
}.

(** What the outside does in one round of the read loop: [close] was called, no
    frame arrived in time, and how many messages the consumer took meanwhile. *)
Record Poll := mkPoll {
  pl_closed : bool;
  pl_timeout : bool;
  pl_drain : nat;
}.

(** The receive channel, what [receive] has returned, and the counter. *)
Record RecvState (M : Type) := mkRecv {
  rs_taken : list M;
  rs_queue : list M;
  rs_dropped : N;
}.
Arguments mkRecv {M} _ _ _.
Arguments rs_taken {M} _.
Arguments rs_queue {M} _.
Arguments rs_dropped {M} _.

(** [receive], [n] times, as long as something is queued. *)
Definition drain {M} (n : nat) (s : RecvState M) : RecvState M :=
  mkRecv (rs_taken s ++ take n (rs_queue s)) (drop n (rs_queue s)) (rs_dropped s).

(** [try_send] on a channel of capacity [cap], counting a refusal. *)
Definition try_send {M} (cap : nat) (m : M) (s : RecvState M) : RecvState M :=
  if (length (rs_queue s) <? cap)%nat
  then mkRecv (rs_taken s) (rs_queue s ++ [m]) (rs_dropped s)
  else mkRecv (rs_taken s) (rs_queue s) ((rs_dropped s + 1) mod 2 ^ 64)%N.

Inductive LoopExit :=
| ExitClosed
| ExitIdle
| ExitDecrypt
| ExitRead (e : FrameError).

Section Loops.
Context {AE : Aead} {WC : WireCodec}.

Definition on_plaintext (cap : nat) (plaintext : bytes) (s : RecvState (WireMessage Payload))
    : RecvState (WireMessage Payload) :=
  match from_bytes plaintext with
  | Some m => if is_heartbeat m then s else try_send cap m s
  | None => s
  end.

(** The read task; every round consumes at least a header. *)
Fixpoint read_loop (fuel i : nat) (key : option bytes) (cap : nat) (poll : nat → Poll)
    (r : bytes) (s : RecvState (WireMessage Payload)) : RecvState (WireMessage Payload) * LoopExit :=
  match fuel with
  | O => (s, ExitClosed)
  | S fuel =>
      let s := drain (pl_drain (poll i)) s in
      if pl_closed (poll i) then (s, ExitClosed)
      else if pl_timeout (poll i) then (s, ExitIdle)
      else match read_frame r with
           | Err e => (s, ExitRead e)
           | Ok (ciphertext, r) =>
               match key with
               | Some k =>
                   match decrypt_frame ciphertext k with
                   | Err _ => (s, ExitDecrypt)
                   | Ok pt => read_loop fuel (S i) key cap poll r (on_plaintext cap pt s)
                   end
               | None => read_loop fuel (S i) key cap poll r (on_plaintext cap ciphertext s)
               end
           end
  end.

Definition read_task (key : option bytes) (cap : nat) (poll : nat → Poll) (r : bytes) :=
  read_loop (S (length r)) 0 key cap poll r (mkRecv [] [] 0%N).

Definition seal_payload (key : option bytes) (nonce : bytes) (data : bytes) : result bytes AeadError :=
  match key with
  | Some k => encrypt_frame nonce data k
  | None => Ok data
  end.

(** The write task on the queued payloads, with the nonces it draws: what is
    written, and what is left in the queue when it stops. *)
Fixpoint write_loop (key : option bytes) (w : bytes) (queue : list (bytes * bytes))
    : bytes * list (bytes * bytes) :=
  match queue with
  | [] => (w, [])
  | (nonce, data) :: rest =>
      match seal_payload key nonce data with
      | Err _ => (w, rest)
      | Ok wire =>
          match write_frame w wire with
          | Err _ => (w, rest)
          | Ok w => write_loop key w rest
          end
      end
  end.
End Loops.

(** ** Actions of a request (rpc_types.rs) *)

Inductive KnownAction := PeerChat | PeerChatCallback | ForgeShare | Ping | Status.

Inductive ActionType :=
| Known (k : KnownAction)
| CustomAction (s : str).

#[export] Instance KnownAction_eq_dec : EqDecision KnownAction.
Proof. solve_decision. Defined.
#[export] Instance ActionType_eq_dec : EqDecision ActionType.
Proof. solve_decision. Defined.

(** [as_str], which is also what [Serialize] writes. *)
Definition action_as_str (a : ActionType) : str :=
  match a with
  | Known PeerChat => lit "PeerChat"
  | Known PeerChatCallback => lit "PeerChatCallback"
  | Known ForgeShare => lit "ForgeShare"
  | Known Ping => lit "Ping"
  | Known Status => lit "Status"
  | CustomAction s => s
  end.

Definition action_deserialize (s : str) : ActionType :=
  (if s =? lit "PeerChat" then Known PeerChat
   else if s =? lit "PeerChatCallback" then Known PeerChatCallback
   else if s =? lit "ForgeShare" then Known ForgeShare
   else if s =? lit "Ping" then Known Ping
   else if s =? lit "Status" then Known Status
   else CustomAction s)%nb.

Record RPCRequest (V : Type) := mkRPCRequest {
  rq_id : str;
  rq_action : ActionType;
  rq_payload : V;
  rq_source : str;
  rq_target : option str;
}.
Arguments mkRPCRequest {V} _ _ _ _ _.
Arguments rq_id {V} _.
Arguments rq_action {V} _.
Arguments rq_payload {V} _.
Arguments rq_source {V} _.
Arguments rq_target {V} _.

(** The name that [encode_request] writes. *)
Definition wire_action (a : ActionType) : str :=
  match a with
  | Known PeerChat => lit "peer_chat"
  | Known PeerChatCallback => lit "peer_chat_callback"
  | Known ForgeShare => lit "forge_share"
  | Known Ping => lit "ping"
  | Known Status => lit "status"
  | CustomAction s => s
  end.

Definition request_message {V} (now : Z) (req : RPCRequest V) : WireMessage V :=
  mkWire WIRE_VERSION (rq_id req) (lit "request") (rq_source req) (default [] (rq_target req))
    (wire_action (rq_action req)) (rq_payload req) now [].

Definition encode_request {WC : WireCodec} (now : Z) (req : RPCRequest Payload) : option bytes :=
  (λ b, encode (mkFrame b)) <$> to_bytes (request_message now req).

Record RPCResponse (V : Type) := mkRPCResponse {
  rp_id : str;
  rp_result : option V;
  rp_error : option str;
}.
Arguments mkRPCResponse {V} _ _ _.
Arguments rp_id {V} _.
Arguments rp_result {V} _.
Arguments rp_error {V} _.

(** [fallback] reads a plain [RPCResponse] ([serde_json]). *)
Definition decode_response {WC : WireCodec} (fallback : bytes → option (RPCResponse Payload)) (data : bytes)
    : option (RPCResponse Payload) :=
  match from_bytes data with
  | Some wire =>
      Some (mkRPCResponse (wm_id wire) (Some (wm_payload wire))
              (if nonempty (wm_error wire) then Some (wm_error wire) else None))
  | None => fallback data
  end.

(** ** Decoding one frame *)

Lemma len_app a b : len (a ++ b) = (len a + len b)%N.
Proof. unfold len. rewrite length_app. lia. Qed.

Lemma to_be_bytes_length n : length (to_be_bytes n) = 4%nat.
Proof. done. Qed.

Lemma to_be_bytes_byte n : Forall is_byte (to_be_bytes n).
Proof. repeat constructor; unfold is_byte; apply N.mod_lt; lia. Qed.

Lemma as_u32_small n : (n < 2 ^ 32)%N → as_u32 n = n.
Proof. apply N.mod_small. Qed.

Section Codec.
Context {TG : Target}.

(** The frame that a successful decoding saw: header, payload, and nothing of
    what follows. *)
Lemma decode_inv buf f n :
  decode buf = Some (f, n) →
  ∃ b0 b1 b2 b3 rest,
    buf = b0 :: b1 :: b2 :: b3 :: fr_data f ++ rest ∧
    from_be_bytes b0 b1 b2 b3 = len (fr_data f) ∧ n = (HEADER_SIZE + length (fr_data f))%nat ∧
    (len (fr_data f) + 4 ≤ usize_max)%N.
Proof.
  unfold decode. destruct buf as [|b0 [|b1 [|b2 [|b3 buf]]]]; try done.
  set (k := from_be_bytes b0 b1 b2 b3).
  destruct (N.ltb_spec usize_max (N.of_nat HEADER_SIZE + k)) as [Hu|Hu]; [done|].
  destruct (N.ltb_spec (len (b0 :: b1 :: b2 :: b3 :: buf)) (N.of_nat HEADER_SIZE + k)) as [Hl|Hl]; [done|].
  intros [= <- <-]. unfold len, HEADER_SIZE in *. cbn [length fr_data drop] in *.
  exists b0, b1, b2, b3, (drop (N.to_nat k) buf). rewrite drop_0, take_drop.
  assert (length (take (N.to_nat k) buf) = N.to_nat k) as -> by (rewrite length_take; lia).
  repeat split; lia.
Qed.

Lemma decode_complete b0 b1 b2 b3 data rest :
  from_be_bytes b0 b1 b2 b3 = len data → (len data + 4 ≤ usize_max)%N →
  decode (b0 :: b1 :: b2 :: b3 :: data ++ rest) = Some (mkFrame data, (HEADER_SIZE + length data)%nat).
Proof.
  intros Hk Hu. unfold decode. rewrite Hk. unfold len, HEADER_SIZE in *.
  destruct (N.ltb_spec usize_max (N.of_nat 4 + N.of_nat (length data))) as [|_]; [lia|].
  destruct (N.ltb_spec (N.of_nat (length (b0 :: b1 :: b2 :: b3 :: data ++ rest)))
              (N.of_nat 4 + N.of_nat (length data))) as [Hl|_].
  { cbn [length] in Hl. rewrite length_app in Hl. lia. }
  cbn [drop]. rewrite drop_0, Nat2N.id, take_app_length. do 2 f_equal. lia.
Qed.

(** More input does not change a frame that was complete. *)
Lemma decode_app a b x : decode a = Some x → decode (a ++ b) = Some x.
Proof.
  destruct x as [f n]. intros (b0 & b1 & b2 & b3 & rest & -> & Hk & -> & Hu)%decode_inv.
  rewrite <- !app_comm_cons, <- app_assoc. destruct f. by apply decode_complete.
Qed.

Lemma decode_consumed buf f n : decode buf = Some (f, n) → (HEADER_SIZE ≤ n ≤ length buf)%nat.
Proof.
  intros (b0 & b1 & b2 & b3 & rest & -> & _ & -> & _)%decode_inv.
  unfold HEADER_SIZE. cbn [length]. rewrite length_app. lia.
Qed.

Lemma encode_cons f :
  (len (fr_data f) < 2 ^ 32)%N →
  ∃ b0 b1 b2 b3, encode f = b0 :: b1 :: b2 :: b3 :: fr_data f ∧
    from_be_bytes b0 b1 b2 b3 = len (fr_data f).
Proof.
  intros Hf. destruct (from_to_be _ Hf) as (b0 & b1 & b2 & b3 & E & Hb).
  exists b0, b1, b2, b3. split; [|done]. unfold encode. by rewrite as_u32_small, E.
Qed.

Lemma decode_encode f rest :
  (len (fr_data f) < 2 ^ 32)%N → addressable (encode f ++ rest) →
  decode (encode f ++ rest) = Some (f, length (encode f)).
Proof.
  intros Hf Ha. destruct (encode_cons _ Hf) as (b0 & b1 & b2 & b3 & E & Hb).
  rewrite E in *. rewrite <- !app_comm_cons. rewrite decode_complete; [by destruct f|done|].
  unfold addressable in Ha. rewrite len_app in Ha. unfold len in *. cbn [length] in Ha. lia.
Qed.

(** ** Decoding a stream *)

(** The reference: [framed buf fs rest] when [buf] is the frames [fs] followed by
    [rest], of which no frame is complete. *)
Inductive framed : bytes → list Frame → bytes → Prop :=
| framed_stop buf : decode buf = None → framed buf [] buf
| framed_step buf f n fs rest :
    decode buf = Some (f, n) → framed (drop n buf) fs rest → framed buf (f :: fs) rest.

Lemma framed_det buf fs rest fs' rest' :
  framed buf fs rest → framed buf fs' rest' → fs = fs' ∧ rest = rest'.
Proof.
  intros Hf. revert fs' rest'. induction Hf as [buf E|buf f n fs rest E Hf IH]; intros fs' rest' Hf'.
  - inversion Hf'; subst; [done|congruence].
  - inversion Hf' as [? E'|? f' n' fs1 ? E' Hf1]; subst; [congruence|].
    rewrite E in E'. injection E' as <- <-. by destruct (IH _ _ Hf1) as [-> ->].
Qed.

(** Frames found so far stay when the stream goes on. *)
Lemma framed_app a fs rest b fs' rest' :
  framed a fs rest → framed (rest ++ b) fs' rest' → framed (a ++ b) (fs ++ fs') rest'.
Proof.
  intros Hf Hf'. induction Hf as [buf E|buf f n fs rest E Hf IH]; [done|].
  cbn [app]. eapply framed_step; [by apply decode_app|].
  apply decode_consumed in E as Hn. rewrite drop_app_le by lia. by apply IH.
Qed.

Lemma decode_all_loop_spec fuel buf frames offset :
  (offset ≤ length buf)%nat → (length buf - offset < fuel)%nat →
  ∃ fs n, decode_all_loop fuel buf frames offset = (frames ++ fs, n) ∧
    (offset ≤ n ≤ length buf)%nat ∧ framed (drop offset buf) fs (drop n buf).
Proof.
  revert frames offset. induction fuel as [|fuel IH]; intros frames offset Ho Hfuel; [lia|].
  cbn [decode_all_loop]. destruct (Nat.ltb_spec offset (length buf)) as [Hlt|Hge].
  - destruct (decode (drop offset buf)) as [[f c]|] eqn:E.
    + pose proof (decode_consumed _ _ _ E) as Hc. rewrite length_drop in Hc. unfold HEADER_SIZE in Hc.
      destruct (IH (frames ++ [f]) (offset + c)%nat) as (fs & n & -> & Hn & Hfs); [lia|lia|].
      exists (f :: fs), n. rewrite <- app_assoc. split; [done|]. split; [lia|].
      eapply framed_step; [done|]. by rewrite drop_drop.
    + exists [], offset. rewrite app_nil_r. repeat split; auto. by constructor.
  - exists [], offset. rewrite app_nil_r. repeat split; auto. constructor.
    rewrite drop_ge by lia. done.
Qed.

Lemma decode_all_framed buf :
  ∃ fs n, decode_all buf = (fs, n) ∧ (n ≤ length buf)%nat ∧ framed buf fs (drop n buf).
Proof.
  destruct (decode_all_loop_spec (S (length buf)) buf [] 0) as (fs & n & E & Hn & Hf); [lia|lia|].
  exists fs, n. by repeat split; [|lia|].
Qed.

Lemma framed_decode_all buf fs rest :
  framed buf fs rest → ∃ n, decode_all buf = (fs, n) ∧ drop n buf = rest ∧ (n ≤ length buf)%nat.
Proof.
  intros Hf. destruct (decode_all_framed buf) as (fs' & n & E & Hn & Hf').
  destruct (framed_det _ _ _ _ _ Hf Hf') as [-> ->]. by exists n.
Qed.

Lemma encode_batch_cons f frames : encode_batch (f :: frames) = encode f ++ encode_batch frames.
Proof. done. Qed.

Lemma framed_batch frames rest :
  Forall (λ f, len (fr_data f) < 2 ^ 32)%N frames → addressable (encode_batch frames ++ rest) →
  decode rest = None → framed (encode_batch frames ++ rest) frames rest.
Proof.
  intros Hf Ha Hr. induction Hf as [|f frames Hf _ IH]; [by constructor|].
  rewrite encode_batch_cons, <- app_assoc in Ha |- *.
  eapply framed_step.
  - by apply decode_encode.
  - rewrite drop_app_length. apply IH. unfold addressable in *. rewrite len_app in Ha. lia.
Qed.

End Codec.

(** ** Readers and writers *)

Lemma read_exact_app a b : read_exact (len a) (a ++ b) = Ok (a, b).
Proof.
  unfold read_exact. rewrite len_app. destruct (N.ltb_spec (len a + len b) (len a)); [lia|].
  unfold len. by rewrite Nat2N.id, take_app_length, drop_app_length.
Qed.

Lemma read_exact_Ok n r a b : read_exact n r = Ok (a, b) → r = a ++ b ∧ len a = n.
Proof.
  unfold read_exact. destruct (N.ltb_spec (len r) n); [done|]. intros [= <- <-].
  rewrite take_drop. split; [done|]. unfold len in *. rewrite length_take. lia.
Qed.

Lemma header_of data :
  (len data < 2 ^ 32)%N → header_len (to_be_bytes (as_u32 (len data))) = len data.
Proof.
  intros Hd. rewrite as_u32_small by done. by destruct (from_to_be _ Hd) as (b0 & b1 & b2 & b3 & -> & E).
Qed.

(** What [write_frame] puts on the wire, [read_frame] takes off it. *)
Lemma write_read_frame data :
  (len data ≤ MAX_FRAME_SIZE)%N →
  ∃ enc, (∀ w, write_frame w data = Ok (w ++ enc)) ∧ (4 ≤ length enc)%nat ∧
    ∀ rest, read_frame (enc ++ rest) = Ok (data, rest).
Proof.
  intros Hd. exists (to_be_bytes (as_u32 (len data)) ++ data). split; [|split].
  - intros w. unfold write_frame, validate_frame_size.
    destruct (N.ltb_spec MAX_FRAME_SIZE (len data)); [lia|done].
  - rewrite length_app, to_be_bytes_length. lia.
  - intros rest. rewrite <- app_assoc. unfold read_frame.
    change 4%N with (len (to_be_bytes (as_u32 (len data)))) at 1. rewrite read_exact_app.
    cbn [res_bind fst snd]. rewrite header_of by (unfold MAX_FRAME_SIZE in Hd; lia).
    destruct (N.ltb_spec MAX_FRAME_SIZE (len data)); [lia|]. apply read_exact_app.
Qed.

Lemma write_frame_Err w data :
  (MAX_FRAME_SIZE < len data)%N → write_frame w data = Err (PayloadTooLarge (len data)).
Proof.
  intros Hd. unfold write_frame, validate_frame_size.
  destruct (N.ltb_spec MAX_FRAME_SIZE (len data)); [done|lia].
Qed.

(** What a reader hands out: a header, a payload within the limit, and the rest. *)
Lemma read_frame_inv r data rest :
  read_frame r = Ok (data, rest) →
  ∃ h, r = h ++ data ++ rest ∧ length h = 4%nat ∧ header_len h = len data ∧ (len data ≤ MAX_FRAME_SIZE)%N.
Proof.
  unfold read_frame. destruct (read_exact 4 r) as [[h r1]|e] eqn:Eh; [|done]. cbn [res_bind fst snd].
  apply read_exact_Ok in Eh as [-> Eh].
  destruct (N.ltb_spec MAX_FRAME_SIZE (header_len h)) as [|Hm]; [done|]. intros [-> Ed]%read_exact_Ok.
  exists h. unfold len in Eh. repeat split; auto with lia.
Qed.

(** ** Encryption *)

Section Sealed.
Context {AE : Aead}.

Lemma encrypt_decrypt nonce payload key :
  length nonce = NONCE_SIZE → (len payload ≤ 2 ^ 36)%N →
  ∃ data, encrypt_frame nonce payload key = Ok data ∧ decrypt_frame data key = Ok payload ∧
    length data = (length payload + NONCE_SIZE + TAG_SIZE)%nat.
Proof.
  intros Hn Hp. destruct (aes_seal_total key nonce payload Hp) as [ct E]. exists (nonce ++ ct).
  unfold encrypt_frame. rewrite E. apply aes_seal_length in E as Hl. split; [done|].
  rewrite length_app, Hl, Hn. split; [|lia]. unfold decrypt_frame.
  rewrite length_app, Hl, Hn. destruct (Nat.ltb_spec (NONCE_SIZE + (length payload + TAG_SIZE)) (NONCE_SIZE + TAG_SIZE)); [lia|].
  rewrite <- Hn, take_app_length, drop_app_length. by rewrite (aes_open_seal _ _ _ _ E).
Qed.

(** ** A connection *)

Context {WC : WireCodec}.
Abbreviation msg := (WireMessage Payload).

Definition overhead (key : option bytes) : N :=
  match key with
  | Some _ => 28%N
  | None => 0%N
  end.

(** A message, with the nonce drawn for it and its text, small enough to be sent. *)
Definition sendable (key : option bytes) (x : msg * (bytes * bytes)) : Prop :=
  to_bytes (fst x) = Some (snd (snd x)) ∧ length (fst (snd x)) = NONCE_SIZE ∧
  (len (snd (snd x)) + overhead key ≤ MAX_FRAME_SIZE)%N.

Definition quiet (poll : nat → Poll) : Prop := ∀ i, pl_closed (poll i) = false ∧ pl_timeout (poll i) = false.

Definition on_message (cap : nat) (m : msg) (s : RecvState msg) : RecvState msg :=
  if is_heartbeat m then s else try_send cap m s.

(** What the read task does with messages that all arrive. *)
Fixpoint deliver (i cap : nat) (poll : nat → Poll) (ms : list msg) (s : RecvState msg) : RecvState msg :=
  let s := drain (pl_drain (poll i)) s in
  match ms with
  | [] => s
  | m :: ms => deliver (S i) cap poll ms (on_message cap m s)
  end.

Lemma send_one key x :
  sendable key x →
  ∃ enc, (4 ≤ length enc)%nat ∧
    (∀ w q, write_loop key w (snd x :: q) = write_loop key (w ++ enc) q) ∧
    ∀ fuel i cap poll rest s, quiet poll →
      read_loop (S fuel) i key cap poll (enc ++ rest) s =
      read_loop fuel (S i) key cap poll rest (on_message cap (fst x) (drain (pl_drain (poll i)) s)).
Proof.
  destruct x as [m [nonce b]]. intros (Hb & Hn & Hlen). cbn [fst snd] in *.
  apply from_to_bytes in Hb as Hm.
  destruct key as [k|]; cbn [overhead] in Hlen.
  - destruct (encrypt_decrypt nonce b k) as (data & He & Hdec & Hdl); [done|unfold MAX_FRAME_SIZE in *; lia|].
    destruct (write_read_frame data) as (enc & Hw & Henc & Hr).
    { unfold len, NONCE_SIZE, TAG_SIZE in *. lia. }
    exists enc. split; [done|]. split.
    + intros w q. cbn [write_loop seal_payload]. by rewrite He, Hw.
    + intros fuel i cap poll rest s Hq. destruct (Hq i) as [Hc Ht]. cbn [read_loop].
      rewrite Hc, Ht, Hr, Hdec. unfold on_plaintext. by rewrite Hm.
  - destruct (write_read_frame b) as (enc & Hw & Henc & Hr); [lia|].
    exists enc. split; [done|]. split.
    + intros w q. cbn [write_loop seal_payload]. by rewrite Hw.
    + intros fuel i cap poll rest s Hq. destruct (Hq i) as [Hc Ht]. cbn [read_loop].
      rewrite Hc, Ht, Hr. unfold on_plaintext. by rewrite Hm.
Qed.

Lemma send_all key xs :
  Forall (sendable key) xs →
  ∃ enc, (∀ w, write_loop key w (snd <$> xs) = (w ++ enc, [])) ∧
    ∀ fuel i cap poll s, quiet poll → (length enc < fuel)%nat →
      read_loop fuel i key cap poll enc s = (deliver i cap poll (fst <$> xs) s, ExitRead UnexpectedEof).
Proof.
  induction 1 as [|x xs Hx _ (enc & Hw & Hr)].
  - exists []. split; [intros w; by rewrite app_nil_r|].
    intros [|fuel] i cap poll s Hq Hf; [cbn in Hf; lia|]. destruct (Hq i) as [Hc Ht].
    cbn [read_loop fmap list_fmap deliver]. by rewrite Hc, Ht.
  - destruct (send_one key x Hx) as (e & He & Hwe & Hre). exists (e ++ enc). split.
    + intros w. rewrite fmap_cons, Hwe, Hw. by rewrite app_assoc.
    + intros [|fuel] i cap poll s Hq Hf; [lia|]. rewrite length_app in Hf.
      rewrite Hre, Hr by (done || lia). done.
Qed.

(** ** What the receive channel keeps *)

Definition held (s : RecvState msg) : list msg := rs_taken s ++ rs_queue s.

Lemma held_drain n s : held (drain n s) = held s.
Proof. unfold held, drain. cbn. by rewrite <- app_assoc, take_drop. Qed.

Definition payload_messages (ms : list msg) : list msg := List.filter (λ m, negb (is_heartbeat m)) ms.

Lemma deliver_accounts ms i cap poll s :
  ∃ kept, held (deliver i cap poll ms s) = held s ++ kept ∧
    sublist kept (payload_messages ms) ∧
    ((rs_dropped s < 2 ^ 64)%N →
     rs_dropped (deliver i cap poll ms s) =
     ((rs_dropped s + N.of_nat (length (payload_messages ms) - length kept)) mod 2 ^ 64)%N).
Proof.
  revert i s. induction ms as [|m ms IH]; intros i s; cbn [deliver].
  - exists []. rewrite held_drain, app_nil_r. split; [done|]. split; [constructor|].
    intros Hs. cbn. rewrite N.add_0_r. symmetry. by apply N.mod_small.
  - unfold on_message. cbn [payload_messages List.filter]. destruct (is_heartbeat m); cbn [negb].
    { destruct (IH (S i) (drain (pl_drain (poll i)) s)) as (kept & E & Hs & Hd).
      exists kept. rewrite E, held_drain. done. }
    set (s0 := drain (pl_drain (poll i)) s). unfold try_send.
    destruct (Nat.ltb_spec (length (rs_queue s0)) cap) as [Hc|Hc].
    + destruct (IH (S i) (mkRecv (rs_taken s0) (rs_queue s0 ++ [m]) (rs_dropped s0))) as (kept & E & Hs & Hd).
      exists (m :: kept). rewrite E. split; [|split].
      * unfold held. cbn. rewrite app_assoc, <- app_assoc. cbn [app]. f_equal. apply (held_drain (pl_drain (poll i)) s).
      * by constructor.
      * intros Hb. rewrite Hd by done. done.
    + destruct (IH (S i) (mkRecv (rs_taken s0) (rs_queue s0) ((rs_dropped s0 + 1) mod 2 ^ 64)%N)) as (kept & E & Hs & Hd).
      exists kept. rewrite E. split; [|split].
      * unfold held. cbn. f_equal. apply (held_drain (pl_drain (poll i)) s).
      * by constructor.
      * intros Hb. rewrite Hd by (apply N.mod_lt; lia). cbn [rs_dropped length].
        change (rs_dropped s0) with (rs_dropped s). rewrite N.Div0.add_mod_idemp_l. f_equal.
        apply sublist_length in Hs. fold (payload_messages ms). lia.
Qed.

(** A consumer that takes a message per round leaves room for the next. *)
Lemma deliver_keeps_up ms i cap poll s :
  (1 ≤ cap)%nat → (∀ i, 1 ≤ pl_drain (poll i))%nat → (length (rs_queue s) ≤ 1)%nat →
  held (deliver i cap poll ms s) = held s ++ payload_messages ms.
Proof.
  intros Hcap Hd. revert i s. induction ms as [|m ms IH]; intros i s Hs; cbn [deliver].
  - by rewrite held_drain, app_nil_r.
  - assert (length (rs_queue (drain (pl_drain (poll i)) s)) = 0)%nat as H0.
    { cbn. rewrite length_drop. specialize (Hd i). lia. }
    unfold on_message. cbn [payload_messages List.filter]. destruct (is_heartbeat m); cbn [negb].
    + rewrite IH by lia. by rewrite held_drain.
    + unfold try_send. destruct (Nat.ltb_spec (length (rs_queue (drain (pl_drain (poll i)) s))) cap); [|lia].
      rewrite IH by (cbn [rs_queue]; rewrite length_app; cbn [length]; lia).
      unfold held at 1. cbn [rs_taken rs_queue]. rewrite app_assoc, <- app_assoc.
      change (rs_taken (drain (pl_drain (poll i)) s) ++ rs_queue (drain (pl_drain (poll i)) s))
        with (held (drain (pl_drain (poll i)) s)). by rewrite held_drain.
Qed.

End Sealed.

(** ** Properties *)

(** Also: A batch of frames (each below the 4 GiB that the header can say), followed
    by an incomplete frame, decodes to exactly these frames, and the count of
    consumed bytes points at the incomplete one. *)
Theorem frame_stream_roundtrip {TG : Target} frames tail :
  Forall (λ f, len (fr_data f) < 2 ^ 32)%N frames → addressable (encode_batch frames ++ tail) →
  decode tail = None →
  decode_all (encode_batch frames ++ tail) = (frames, length (encode_batch frames)).
Proof.
  intros Hf Ha Ht. destruct (framed_decode_all _ _ _ (framed_batch _ _ Hf Ha Ht)) as (n & E & Hn & Hl).
  rewrite E. f_equal. apply (f_equal length) in Hn. rewrite length_drop, length_app in *. lia.
Qed.

(** Also: A stream may be cut anywhere: decoding what has arrived, keeping the bytes
    that were not consumed and decoding again when more has come finds the same
    frames and consumes the same bytes as decoding everything at once. *)
Theorem decode_all_streaming {TG : Target} a b :
  let '(fs, n) := decode_all a in
  let '(fs', n') := decode_all (drop n a ++ b) in
  decode_all (a ++ b) = (fs ++ fs', (n + n')%nat).
Proof.
  destruct (decode_all_framed a) as (fs & n & Ea & Hn & Ha). rewrite Ea.
  destruct (decode_all_framed (drop n a ++ b)) as (fs' & n' & Eb & Hn' & Hb). rewrite Eb.
  destruct (framed_decode_all _ _ _ (framed_app _ _ _ _ _ _ Ha Hb)) as (k & E & Hk & Hl).
  rewrite E. f_equal. apply (f_equal length) in Hk.
  rewrite !length_drop, !length_app, !length_drop in *. lia.
Qed.

(** Also: What decoding accepts is what encoding produces: on a buffer of bytes the
    bytes it consumed are the encoding of the frame it returned, so a frame has no
    second form on the wire; and a target with 32-bit [usize] decodes every buffer
    it can hold as a 64-bit one does. *)
Theorem decode_canonical (T1 T2 : Target) buf :
  Forall is_byte buf → @addressable T1 buf → @addressable T2 buf →
  @decode T1 buf = @decode T2 buf ∧
  ∀ f n, @decode T1 buf = Some (f, n) → encode f = take n buf.
Proof.
  intros Hb Ha1 Ha2. split.
  - unfold decode. unfold addressable in *. destruct buf as [|b0 [|b1 [|b2 [|b3 buf]]]]; try done.
    set (total := (N.of_nat HEADER_SIZE + from_be_bytes b0 b1 b2 b3)%N).
    destruct (N.ltb_spec (len (b0 :: b1 :: b2 :: b3 :: buf)) total);
      destruct (N.ltb_spec (@usize_max T1) total); destruct (N.ltb_spec (@usize_max T2) total); done || lia.
  - intros f n Hd. apply decode_inv in Hd as (b0 & b1 & b2 & b3 & rest & -> & Hk & -> & _).
    rewrite !Forall_cons in Hb. destruct Hb as (? & ? & ? & ? & _).
    unfold encode, as_u32. rewrite <- Hk, N.mod_small by by apply from_be_bound.
    rewrite to_from_be by done. unfold HEADER_SIZE. cbn [Nat.add take].
    by rewrite take_app_length.
Qed.

(** Also: Reader and writer agree on the limit of 16 MiB: a payload is written
    exactly if it is within the limit, what was written is read back and leaves the
    rest of the stream alone, and no stream makes the reader hand out more than the
    limit or read on after a header above it. *)
Theorem frame_limit data w r :
  (is_ok (write_frame w data) = true ↔ (len data ≤ MAX_FRAME_SIZE)%N) ∧
  (∀ w', write_frame w data = Ok w' → ∃ enc, w' = w ++ enc ∧ read_frame (enc ++ r) = Ok (data, r)) ∧
  (∀ d rest, read_frame r = Ok (d, rest) →
     (len d ≤ MAX_FRAME_SIZE)%N ∧ length r = (HEADER_SIZE + length d + length rest)%nat) ∧
  (∀ h, length h = HEADER_SIZE → (MAX_FRAME_SIZE < header_len h)%N →
     read_frame (h ++ r) = Err (FrameTooLarge (header_len h))).
Proof.
  split; [|split; [|split]].
  - destruct (N.le_gt_cases (len data) MAX_FRAME_SIZE) as [Hle|Hgt].
    + destruct (write_read_frame data Hle) as (enc & He & _). by rewrite He.
    + rewrite write_frame_Err by done. split; [done|lia].
  - intros w' Hw. destruct (N.le_gt_cases (len data) MAX_FRAME_SIZE) as [Hle|Hgt].
    + destruct (write_read_frame data Hle) as (enc & He & _ & Hr). rewrite He in Hw. injection Hw as <-.
      by exists enc.
    + by rewrite write_frame_Err in Hw.
  - intros d rest (h & -> & Hh & _ & Hd)%read_frame_inv. split; [done|].
    rewrite !length_app, Hh. unfold HEADER_SIZE. lia.
  - intros h Hh Hm. unfold read_frame. replace 4%N with (len h) by (unfold len; by rewrite Hh).
    rewrite read_exact_app. cbn [res_bind fst]. by rewrite (proj2 (N.ltb_lt _ _) Hm).
Qed.

(** Also: Messages put on a connection arrive.  When both ends have the same key (or
    none) and the messages fit, the writer sends them all; the reader parses
    exactly these messages, keeps heartbeats to itself, and offers the others in
    order to the channel.  Each is then received, queued or counted as dropped, and
    none is dropped if the consumer takes one per round. *)
Theorem channel_delivers {AE : Aead} {WC : WireCodec} key cap poll xs :
  Forall (sendable key) xs → quiet poll → (N.of_nat (length xs) < 2 ^ 64)%N →
  ∃ wire s,
    write_loop key [] (snd <$> xs) = (wire, []) ∧
    read_task key cap poll wire = (s, ExitRead UnexpectedEof) ∧
    sublist (held s) (payload_messages (fst <$> xs)) ∧
    N.of_nat (length (payload_messages (fst <$> xs))) = (N.of_nat (length (held s)) + rs_dropped s)%N ∧
    ((1 ≤ cap)%nat → (∀ i, 1 ≤ pl_drain (poll i))%nat → held s = payload_messages (fst <$> xs)).
Proof.
  intros Hxs Hq Hlen. destruct (send_all key xs Hxs) as (wire & Hw & Hr).
  exists wire, (deliver 0 cap poll (fst <$> xs) (mkRecv [] [] 0%N)).
  split; [apply Hw|]. split; [apply Hr; [done|lia]|].
  destruct (deliver_accounts (fst <$> xs) 0 cap poll (mkRecv [] [] 0%N)) as (kept & E & Hs & Hd).
  cbn [held rs_taken rs_queue app] in E. rewrite E. split; [done|].
  assert (length (payload_messages (fst <$> xs)) ≤ length xs)%nat as Hpl.
  { unfold payload_messages. rewrite <- (length_fmap fst xs). apply List.filter_length_le. }
  apply sublist_length in Hs. split.
  - rewrite Hd by (cbn; lia). cbn [rs_dropped]. rewrite N.mod_small by lia. lia.
  - intros Hcap Hdr. rewrite <- E, deliver_keeps_up; [done..|cbn; lia].
Qed.

(** Observed: A length of 4 GiB or more does not fit the header: [encode] writes it
    modulo 2^32, so the frame does not come back. *)
Theorem encode_truncates {TG : Target} f rest f' n :
  (2 ^ 32 ≤ len (fr_data f))%N → decode (encode f ++ rest) = Some (f', n) →
  len (fr_data f') = (len (fr_data f) mod 2 ^ 32)%N ∧ f' ≠ f.
Proof.
  intros Hl. unfold encode. set (k := as_u32 (len (fr_data f))).
  assert (k < 2 ^ 32)%N as Hk by (apply N.mod_lt; lia).
  destruct (from_to_be k Hk) as (b0 & b1 & b2 & b3 & -> & Hb).
  intros (c0 & c1 & c2 & c3 & r & E & Hc & _)%decode_inv. injection E as <- <- <- <- _.
  rewrite Hb in Hc. split; [done|]. intros ->. unfold k in Hk. lia.
Qed.

(** Observed: A message that exceeds the limit with its nonce and tag ends the
    write loop; what is queued behind it is never written. *)
Theorem oversize_stops_writer {AE : Aead} key w nonce data rest :
  length nonce = NONCE_SIZE → (MAX_FRAME_SIZE < len data + overhead key)%N → (len data ≤ 2 ^ 36)%N →
  write_loop key w ((nonce, data) :: rest) = (w, rest).
Proof.
  intros Hn Hl Hmax. destruct key as [k|]; cbn [overhead] in Hl; cbn [write_loop seal_payload].
  - destruct (encrypt_decrypt nonce data k Hn Hmax) as (ct & -> & _ & Hc).
    rewrite write_frame_Err; [done|]. unfold len, NONCE_SIZE, TAG_SIZE in *. lia.
  - rewrite write_frame_Err; [done|lia].
Qed.

(** Also: An action survives being written and read exactly if it is not a custom
    action with the name of a known one; the names that [encode_request] writes for
    the known actions are others, so they are read back as custom actions. *)
Theorem action_roundtrip a :
  (action_deserialize (action_as_str a) = a ↔ ∀ k, a ≠ CustomAction (action_as_str (Known k))) ∧
  ∀ k, action_deserialize (wire_action (Known k)) = CustomAction (wire_action (Known k)).
Proof.
  split; [|by intros []]. destruct a as [[]|s]; [split; [by intros _ []|done]..|]. cbn [action_as_str].
  unfold action_deserialize. split.
  - intros H k. repeat case_bool_decide; try done. intros [= ->]. by destruct k.
  - intros H. repeat case_bool_decide; subst; try done.
    + by destruct (H PeerChat).
    + by destruct (H PeerChatCallback).
    + by destruct (H ForgeShare).
    + by destruct (H Ping).
    + by destruct (H Status).
Qed.

(** ** Witnesses *)

Definition target64 : Target.
Proof. refine {| usize_max := 2 ^ 64 - 1 |}. abstract lia. Defined.

Definition target32 : Target.
Proof. refine {| usize_max := 2 ^ 32 - 1 |}. abstract lia. Defined.

(** A stand-in cipher with a tag that depends on the key. *)
Definition toy_tag (k : bytes) : bytes := take TAG_SIZE (k ++ repeat 0%N TAG_SIZE).

Lemma toy_tag_length k : length (toy_tag k) = TAG_SIZE.
Proof. unfold toy_tag. rewrite length_take, length_app, repeat_length. lia. Qed.

Definition toy_aead : Aead.
Proof.
  refine {|
    aes_seal k n p := Some (p ++ toy_tag k);
    aes_open k n c :=
      let m := (length c - TAG_SIZE)%nat in
      if bool_decide (drop m c = toy_tag k) then Some (take m c) else None |}.
  - abstract (intros; by eexists).
  - abstract (intros k n p c [= <-]; by rewrite length_app, toy_tag_length).
  - abstract (intros k n p c E; injection E as <-; cbv zeta; rewrite length_app, toy_tag_length, Nat.add_sub,
      (drop_app_length p), (take_app_length p), bool_decide_true by reflexivity; reflexivity).
Defined.

Definition msg_a : WireMessage unit := new_request (lit "1") 0 (lit "a") (lit "b") (lit "ping") tt.
Definition msg_hb : WireMessage unit := new_heartbeat tt (lit "hb") 0 (lit "a").

#[export] Instance WireMessage_eq_dec {V} `{!EqDecision V} : EqDecision (WireMessage V).
Proof. solve_decision. Defined.

(** A codec that knows these two messages. *)
Definition toy_codec : WireCodec.
Proof.
  refine {|
    Payload := unit;
    to_bytes m := if bool_decide (m = msg_a) then Some [1%N]
                  else if bool_decide (m = msg_hb) then Some [2%N] else None;
    from_bytes b := if bool_decide (b = [1%N]) then Some msg_a
                    else if bool_decide (b = [2%N]) then Some msg_hb else None |}.
  abstract (intros m b; repeat case_bool_decide; intros E; subst; try done; injection E as <-; done).
Defined.

Lemma frame_stream_roundtrip_witness :
  decode_all (TG := target64) (encode_batch [mkFrame [1%N; 2%N]; mkFrame []] ++ [0%N; 0%N]) =
  ([mkFrame [1%N; 2%N]; mkFrame []], 10%nat).
Proof.
  apply (frame_stream_roundtrip (TG := target64) [mkFrame [1%N; 2%N]; mkFrame []] [0%N; 0%N]).
  - repeat constructor.
  - vm_compute. discriminate.
  - reflexivity.
Defined.

Lemma decode_canonical_witness :
  decode (TG := target32) [0%N; 0%N; 0%N; 1%N; 7%N] = decode (TG := target64) [0%N; 0%N; 0%N; 1%N; 7%N].
Proof.
  apply (decode_canonical target32 target64 [0%N; 0%N; 0%N; 1%N; 7%N]).
  - repeat constructor; vm_compute; reflexivity.
  - vm_compute. discriminate.
  - vm_compute. discriminate.
Defined.

Lemma channel_delivers_witness :
  ∃ wire s,
    write_loop (AE := toy_aead) (Some [9%N]) [] (snd <$> [(msg_a, (repeat 3%N 12, [1%N])); (msg_hb, (repeat 4%N 12, [2%N]))]) = (wire, []) ∧
    read_task (AE := toy_aead) (WC := toy_codec) (Some [9%N]) 4 (λ _, mkPoll false false 1) wire = (s, ExitRead UnexpectedEof) ∧
    held (WC := toy_codec) s = [msg_a].
Proof.
  destruct (channel_delivers (AE := toy_aead) (WC := toy_codec) (Some [9%N]) 4 (λ _, mkPoll false false 1)
    [(msg_a, (repeat 3%N 12, [1%N])); (msg_hb, (repeat 4%N 12, [2%N]))]) as (wire & s & Hw & Hr & _ & _ & Hall).
  - repeat constructor; vm_compute; discriminate.
  - by intros i.
  - vm_compute. reflexivity.
  - exists wire, s. split; [exact Hw|]. split; [exact Hr|]. rewrite Hall; [reflexivity|lia|]. intros i. cbn. lia.
Defined.

Lemma frame_limit_witness :
  (len [7%N] ≤ MAX_FRAME_SIZE)%N ∧ length [0%N; 0%N; 0%N; 1%N; 7%N; 8%N] = (HEADER_SIZE + 1 + 1)%nat.
Proof.
  destruct (frame_limit [7%N] [] [0%N; 0%N; 0%N; 1%N; 7%N; 8%N]) as (_ & _ & Hr & _).
  apply (Hr [7%N] [8%N]). reflexivity.
Defined.
