(* ===== verification/Sanitize.v ===== *)
(** * Path segments from untrusted ids (nemesis-utils/src/sanitize.rs)

    Task, transfer and session ids become names of files and directories through
    this one function. *)
From S2P Require Import Prelude RustStr.
Local Open Scope nb_scope.

(** ** Operations *)

Definition out_ends_alnum (out : str) : bool :=
  match last out with
  | Some p => is_ascii_alnum p
  | None => false
  end.

(** One round of the loop over [chars()]. *)
Definition sanitize_step (out : str) (c : char) : str :=
  let ok := is_ascii_alnum c || N.eqb c c_dash || N.eqb c c_under
            || (N.eqb c c_dot && out_ends_alnum out) in
  out ++ [if ok then c else c_under].

Definition sanitize_chars (raw : str) : str := fold_left sanitize_step raw [].

(** FNV-1a, 64 bits, [wrapping_mul]. *)
Definition fnv1a64 (b : list N) : N :=
  fold_left (λ h x, (N.lxor h x * 0x100000001b3) mod 2 ^ 64)%N b 0xcbf29ce484222325%N.

(** [{:016x}]. *)
Fixpoint hex_digits (k : nat) (n : N) : str :=
  match k with
  | O => []
  | S k => hex_digits k (n / 16)%N ++ [hex_digit (n mod 16)%N]
  end.

Definition hex16 (n : N) : str := hex_digits 16 n.

Definition is_lower_hex (b : N) : bool := is_ascii_digit b || ((97 <=? b) && (b <=? 102))%N.

Definition is_hash_suffix_form (out : str) : bool :=
  let b := as_bytes out in
  (length b =? 78)%nat && bool_decide (take 2 (drop 60 b) = [c_under; c_under])
  && forallb is_lower_hex (drop 62 b).

Definition sanitize_path_segment (raw : str) : str :=
  let out := sanitize_chars raw in
  let out := if bool_decide (out = []) || bool_decide (out = [c_dot]) || bool_decide (out = [c_dot; c_dot])
             then out ++ [c_under] else out in
  let trimmed := trim_end_matches (N.eqb c_dot) out in
  if (length out <=? 80)%nat && negb (is_hash_suffix_form trimmed) then trimmed
  else take 60 out ++ [c_under; c_under] ++ hex16 (fnv1a64 (as_bytes out)).

(** ** What the loop produces *)

Definition segment_char (c : char) : bool :=
  is_ascii_alnum c || N.eqb c c_dash || N.eqb c c_under || N.eqb c c_dot.

(** Characters of the white list, and a dot only after a letter or digit. *)
Fixpoint segment_from (prev_alnum : bool) (s : str) : bool :=
  match s with
  | [] => true
  | c :: s =>
      segment_char c && (negb (N.eqb c c_dot) || prev_alnum) && segment_from (is_ascii_alnum c) s
  end.

Definition segment (s : str) : bool := segment_from false s.

Lemma segment_from_app p s c :
  segment_from p (s ++ [c]) =
  segment_from p s && (segment_char c && (negb (N.eqb c c_dot) || match last s with Some x => is_ascii_alnum x | None => p end)).
Proof.
  revert p. induction s as [|x s IH]; intros p; [cbn; by rewrite !andb_true_r|].
  cbn [app segment_from]. rewrite IH, last_cons. destruct (last s); by rewrite !andb_assoc.
Qed.

Lemma sanitize_step_segment out c :
  segment out = true → segment (sanitize_step out c) = true.
Proof.
  intros Ho. unfold sanitize_step, segment in *. rewrite segment_from_app, Ho. cbn [andb].
  change (match last out with Some x => is_ascii_alnum x | None => false end) with (out_ends_alnum out).
  unfold segment_char.
  destruct (is_ascii_alnum c) eqn:Ha.
  { cbn [orb]. rewrite Ha. cbn [orb andb]. destruct (N.eqb_spec c c_dot) as [->|]; [done|done]. }
  destruct (N.eqb_spec c c_dash) as [->|]; [done|]. destruct (N.eqb_spec c c_under) as [->|]; [done|].
  destruct (N.eqb_spec c c_dot) as [->|]; cbn [orb andb]; [|done]. by destruct (out_ends_alnum out).
Qed.

Lemma sanitize_chars_spec raw :
  segment (sanitize_chars raw) = true ∧ length (sanitize_chars raw) = length raw.
Proof.
  unfold sanitize_chars. change (length raw) with (length ([] : str) + length raw)%nat.
  assert (segment [] = true) as H0 by done. revert H0. generalize ([] : str).
  induction raw as [|c raw IH]; intros out Ho; cbn [fold_left length]; [by rewrite Nat.add_0_r|].
  destruct (IH _ (sanitize_step_segment out c Ho)) as [-> ->]. split; [done|].
  unfold sanitize_step. rewrite length_app. cbn [length]. lia.
Qed.

Lemma sanitize_chars_id raw : segment raw = true → sanitize_chars raw = raw.
Proof.
  unfold sanitize_chars. intros H. change raw with ([] ++ raw) in H at 1. change raw with ([] ++ raw) at 2.
  revert H. generalize ([] : str) as out.
  induction raw as [|c raw IH]; intros out H; cbn [fold_left]; [by rewrite app_nil_r|].
  replace (out ++ c :: raw) with ((out ++ [c]) ++ raw) in * by by rewrite <- app_assoc.
  assert (sanitize_step out c = out ++ [c]) as ->; [|by apply IH].
  assert (segment (out ++ [c]) = true) as Hc.
  { clear -H. unfold segment in *. revert H. generalize (out ++ [c]) false. clear out c.
    intros s. induction s as [|x s IH]; intros p H; [done|]. cbn in *. bool_simpl.
    rewrite H, H1. cbn. by apply IH. }
  unfold segment in Hc. rewrite segment_from_app in Hc. bool_simpl.
  unfold sanitize_step. f_equal. f_equal. unfold segment_char in *.
  change (match last out with Some x => is_ascii_alnum x | None => false end) with (out_ends_alnum out) in *.
  destruct (is_ascii_alnum c); [done|]. destruct (N.eqb c c_dash); [done|].
  destruct (N.eqb c c_under); [done|]. cbn [orb andb] in *. destruct (N.eqb_spec c c_dot) as [->|]; [|done].
  cbn in *. by destruct (out_ends_alnum out).
Qed.

Lemma segment_char_ascii c : segment_char c = true → is_ascii_char c = true.
Proof.
  unfold segment_char, is_ascii_alnum, is_ascii_alpha, is_ascii_upper, is_ascii_lower, is_ascii_digit, is_ascii_char.
  change c_dash with 45%N. change c_under with 95%N. change c_dot with 46%N.
  intros H. apply N.ltb_lt. rewrite !orb_true_iff, !andb_true_iff, !N.leb_le, !N.eqb_eq in H. lia.
Qed.

Lemma segment_chars p s : segment_from p s = true → forallb segment_char s = true.
Proof.
  revert p. induction s as [|c s IH]; intros p H; [done|]. cbn in *. bool_simpl.
  rewrite H. cbn. eauto.
Qed.

Lemma segment_ascii s : segment s = true → is_ascii s = true.
Proof.
  intros H%segment_chars. unfold is_ascii. rewrite forallb_Forall_true in *.
  eapply Forall_impl; [done|]. intros c. apply segment_char_ascii.
Qed.

Lemma segment_prefix a b : segment (a ++ b) = true → segment a = true.
Proof.
  unfold segment. generalize false. induction a as [|c a IH]; intros p H; [done|].
  cbn in *. bool_simpl. rewrite H, H1. cbn. by eapply IH.
Qed.

Lemma segment_from_true p s : segment_from p s = true → segment_from true s = true.
Proof. destruct s as [|c s]; [done|]. cbn. intros H. bool_simpl. by rewrite H, orb_true_r, H0. Qed.

Lemma segment_from_cat p a b :
  segment_from p a = true → segment_from false b = true → segment_from p (a ++ b) = true.
Proof.
  revert p. induction a as [|c a IH]; intros p Ha Hb; cbn in *.
  - destruct p; [by eapply segment_from_true|done].
  - apply andb_true_iff in Ha as [[-> ->]%andb_true_iff Ha]. cbn. by apply IH.
Qed.

Lemma segment_no_dots s a b : segment s = true → s ≠ a ++ [c_dot; c_dot] ++ b.
Proof.
  unfold segment. intros H ->. revert H. generalize false.
  induction a as [|c a IH]; intros p H; cbn in H; bool_simpl; [done|]. by eapply IH.
Qed.

Lemma segment_head s : segment s = true → head s ≠ Some c_dot.
Proof. destruct s as [|c s]; [done|]. cbn. intros H [= ->]. by bool_simpl. Qed.

(** ** The hash suffix *)

Lemma hex_digit_lower d : (d < 16)%N → is_lower_hex (hex_digit d) = true.
Proof.
  intros Hd. unfold hex_digit, is_lower_hex, is_ascii_digit.
  destruct (N.ltb_spec d 10); rewrite orb_true_iff, !andb_true_iff, !N.leb_le; lia.
Qed.

Lemma hex_digit_inj d e : (d < 16)%N → (e < 16)%N → hex_digit d = hex_digit e → d = e.
Proof. unfold hex_digit. destruct (N.ltb_spec d 10), (N.ltb_spec e 10); lia. Qed.

Lemma hex_digits_length k n : length (hex_digits k n) = k.
Proof. revert n. induction k as [|k IH]; intros n; cbn; [done|]. rewrite length_app, IH. cbn. lia. Qed.

Lemma hex_digits_lower k n : forallb is_lower_hex (hex_digits k n) = true.
Proof.
  revert n. induction k as [|k IH]; intros n; cbn; [done|].
  rewrite forallb_app, IH. cbn. rewrite hex_digit_lower; [done|]. apply N.mod_lt. lia.
Qed.

Lemma hex_digits_inj k n m :
  (n < 16 ^ N.of_nat k)%N → (m < 16 ^ N.of_nat k)%N → hex_digits k n = hex_digits k m → n = m.
Proof.
  revert n m. induction k as [|k IH]; intros n m Hn Hm H; [cbn in *; lia|].
  cbn [hex_digits] in H. apply app_inj_2 in H as [Hq Hr]; [|done]. injection Hr as Hr.
  rewrite Nat2N.inj_succ, N.pow_succ_r' in Hn, Hm.
  apply IH in Hq; [|apply N.Div0.div_lt_upper_bound; lia..].
  apply hex_digit_inj in Hr; [|apply N.mod_lt; lia..].
  rewrite (N.div_mod' n 16), (N.div_mod' m 16). congruence.
Qed.

Lemma fnv1a64_bound b : (fnv1a64 b < 2 ^ 64)%N.
Proof.
  unfold fnv1a64. assert (0xcbf29ce484222325 < 2 ^ 64)%N as H by done. revert H.
  generalize 0xcbf29ce484222325%N. induction b as [|x b IH]; intros h Hh; cbn [fold_left]; [done|].
  apply IH. apply N.mod_lt. lia.
Qed.

Lemma hex16_inj n m : (n < 2 ^ 64)%N → (m < 2 ^ 64)%N → hex16 n = hex16 m → n = m.
Proof. intros Hn Hm. by apply hex_digits_inj. Qed.

Lemma lower_hex_segment s : forallb is_lower_hex s = true → segment s = true.
Proof.
  unfold segment. generalize false. induction s as [|c s IH]; intros p H; [done|]. cbn in *. bool_simpl.
  assert (is_ascii_alnum c = true ∧ c ≠ c_dot) as [Ha Hd].
  { unfold is_lower_hex, is_ascii_alnum, is_ascii_alpha, is_ascii_upper, is_ascii_lower, is_ascii_digit in *.
    change c_dot with 46%N. rewrite !orb_true_iff, !andb_true_iff, !N.leb_le in *. lia. }
  unfold segment_char. rewrite Ha, (proj2 (N.eqb_neq _ _) Hd). cbn. by apply IH.
Qed.

(** ** The whole function *)

(** The characters before the length is looked at. *)
Definition base (raw : str) : str :=
  if bool_decide (raw = []) then [c_under] else sanitize_chars raw.

Lemma base_spec raw : segment (base raw) = true ∧ base raw ≠ [].
Proof.
  unfold base. case_bool_decide as H; [done|]. destruct (sanitize_chars_spec raw) as [Hs Hl].
  split; [done|]. intros E. rewrite E in Hl. by destruct raw.
Qed.

Lemma sanitize_unfold raw :
  sanitize_path_segment raw =
  let t := trim_end_matches (N.eqb c_dot) (base raw) in
  if (length (base raw) <=? 80)%nat && negb (is_hash_suffix_form t) then t
  else take 60 (base raw) ++ [c_under; c_under] ++ hex16 (fnv1a64 (as_bytes (base raw))).
Proof.
  unfold sanitize_path_segment. destruct (sanitize_chars_spec raw) as [Hs Hl].
  set (out := sanitize_chars raw) in *.
  assert ((if bool_decide (out = []) || bool_decide (out = [c_dot]) || bool_decide (out = [c_dot; c_dot])
           then out ++ [c_under] else out) = base raw) as ->; [|done].
  unfold base. fold out. rewrite (bool_decide_false (out = [c_dot])) by by intros E; rewrite E in Hs.
  rewrite (bool_decide_false (out = [c_dot; c_dot])) by by intros E; rewrite E in Hs.
  rewrite !orb_false_r. repeat case_bool_decide; subst; try done.
  rewrite H in Hl. by destruct raw.
Qed.

Lemma trimmed_spec raw :
  let t := trim_end_matches (N.eqb c_dot) (base raw) in
  segment t = true ∧ t ≠ [] ∧ last t ≠ Some c_dot ∧ length t ≤ length (base raw).
Proof.
  cbv zeta. destruct (base_spec raw) as [Hs Hn].
  destruct (trim_end_matches_prefix (N.eqb c_dot) (base raw)) as (a & E & Ha).
  set (t := trim_end_matches (N.eqb c_dot) (base raw)) in *.
  split; [rewrite E in Hs; by apply segment_prefix in Hs|]. split; [|split].
  - intros Ht. rewrite Ht in E. cbn [app] in E. apply segment_head in Hs. rewrite E in Hs.
    destruct a as [|c a]; [by rewrite E in Hn|]. cbn in *. bool_simpl. by subst.
  - intros Hl. apply trim_end_matches_last in Hl. done.
  - rewrite E, length_app. lia.
Qed.

Lemma hash_form_length t : segment t = true → is_hash_suffix_form t = true → length t = 78.
Proof.
  intros Hs. unfold is_hash_suffix_form. rewrite as_bytes_ascii by by apply segment_ascii.
  intros H. bool_simpl. by apply Nat.eqb_eq in H.
Qed.

Lemma hashed_form out :
  segment out = true → 60 ≤ length out → ∀ h,
  let r := take 60 out ++ [c_under; c_under] ++ hex16 h in
  segment r = true ∧ length r = 78 ∧ last r ≠ Some c_dot ∧ is_hash_suffix_form r = true.
Proof.
  intros Hs Hl h. cbv zeta.
  assert (segment (take 60 out ++ [c_under; c_under] ++ hex16 h) = true) as Hr.
  { apply segment_from_cat; [by rewrite <- (take_drop 60 out) in Hs; apply segment_prefix in Hs|].
    apply (segment_from_cat false [c_under; c_under]); [done|]. apply lower_hex_segment, hex_digits_lower. }
  assert (length (take 60 out) = 60) as Ht by (rewrite length_take; lia).
  assert (length (hex16 h) = 16) as Hx by apply hex_digits_length.
  split; [done|]. split; [rewrite !length_app, Ht, Hx; done|]. split.
  - rewrite !last_app. destruct (last (hex16 h)) as [c|] eqn:E; [|apply last_None in E; by rewrite E in Hx].
    intros [= ->]. apply last_Some in E as [l E]. pose proof (hex_digits_lower 16 h) as H.
    unfold hex16 in E. rewrite E, forallb_app in H. by bool_simpl.
  - unfold is_hash_suffix_form. rewrite as_bytes_ascii by by apply segment_ascii.
    rewrite !length_app, Ht, Hx. rewrite (drop_app_length' _ _ 60) by done.
    replace 62 with (60 + 2) by done. rewrite <- drop_drop, (drop_app_length' _ _ 60) by done.
    cbn [app take drop]. rewrite bool_decide_true by done. apply hex_digits_lower.
Qed.

(** ** Properties *)

(** C37: Whatever the id is, the result is one ordinary name of a file: 1 to 80
    characters of the white list, no [..] in it, no dot at either end. *)
Theorem sanitize_safe raw :
  let r := sanitize_path_segment raw in
  1 ≤ length r ≤ 80 ∧ (∀ c, c ∈ r → segment_char c = true) ∧
  head r ≠ Some c_dot ∧ last r ≠ Some c_dot ∧ ∀ a b, r ≠ a ++ [c_dot; c_dot] ++ b.
Proof.
  cbv zeta. destruct (base_spec raw) as [Hs _]. destruct (trimmed_spec raw) as (Ht & Hn & Hlast & Hl).
  assert (let r := sanitize_path_segment raw in segment r = true ∧ 1 ≤ length r ≤ 80 ∧ last r ≠ Some c_dot)
    as (Hr & Hlen & Hlr).
  { rewrite sanitize_unfold. cbv zeta. set (t := trim_end_matches (N.eqb c_dot) (base raw)) in *.
    destruct ((length (base raw) <=? 80)%nat && negb (is_hash_suffix_form t)) eqn:E.
    - bool_simpl. split; [done|]. split; [|done]. destruct t; [done|]. cbn [length] in *. lia.
    - destruct (hashed_form (base raw) Hs) with (fnv1a64 (as_bytes (base raw))) as (Hh & Hhl & Hhd & _).
      + apply andb_false_iff in E as [E|E]; [apply Nat.leb_gt in E; lia|].
        apply negb_false_iff in E. apply hash_form_length in E; [lia|done].
      + split; [done|]. split; [|done]. rewrite Hhl. lia. }
  split; [done|]. split; [|split; [by apply segment_head|split; [done|]]].
  - intros c Hc. apply segment_chars in Hr. rewrite forallb_Forall_true, Forall_forall in Hr. by apply Hr.
  - intros a b. by apply segment_no_dots.
Qed.

(** Also: Two ids get the same name only if they agree after the white list and the
    trimming, or if their replaced texts collide under FNV-1a: a name in the hashed
    form never comes from an id that is kept as it is. *)
Theorem sanitize_collision a b :
  sanitize_path_segment a = sanitize_path_segment b →
  trim_end_matches (N.eqb c_dot) (base a) = trim_end_matches (N.eqb c_dot) (base b) ∨
  (take 60 (base a) = take 60 (base b) ∧ fnv1a64 (as_bytes (base a)) = fnv1a64 (as_bytes (base b))).
Proof.
  assert (∀ raw, let t := trim_end_matches (N.eqb c_dot) (base raw) in
    (is_hash_suffix_form (sanitize_path_segment raw) = false ∧ sanitize_path_segment raw = t) ∨
    (is_hash_suffix_form (sanitize_path_segment raw) = true ∧ length (take 60 (base raw)) = 60 ∧
     sanitize_path_segment raw = take 60 (base raw) ++ [c_under; c_under] ++ hex16 (fnv1a64 (as_bytes (base raw)))))
    as Hcase.
  { intros raw. cbv zeta. destruct (base_spec raw) as [Hs _]. destruct (trimmed_spec raw) as (Ht & _ & _ & Hl).
    rewrite sanitize_unfold. cbv zeta. set (t := trim_end_matches (N.eqb c_dot) (base raw)) in *.
    destruct ((length (base raw) <=? 80)%nat && negb (is_hash_suffix_form t)) eqn:E.
    - left. bool_simpl. done.
    - right. assert (60 ≤ length (base raw)) as Hb.
      { apply andb_false_iff in E as [E|E]; [apply Nat.leb_gt in E; lia|].
        apply negb_false_iff in E. apply hash_form_length in E; [lia|done]. }
      destruct (hashed_form _ Hs Hb (fnv1a64 (as_bytes (base raw)))) as (_ & _ & _ & Hf).
      rewrite length_take. repeat split; [done|lia]. }
  intros E. destruct (Hcase a) as [[Ha Ea]|(Ha & La & Ea)], (Hcase b) as [[Hb Eb]|(Hb & Lb & Eb)].
  - left. congruence.
  - rewrite E, Hb in Ha. done.
  - rewrite E, Hb in Ha. done.
  - right. rewrite Ea, Eb in E. apply app_inj_1 in E as [E1 E]; [|congruence]. split; [done|].
    apply app_inj_1 in E as [_ E]; [|done]. apply hex16_inj in E; [done|apply fnv1a64_bound..].
Qed.

(** Also: Names that are already safe stay as they are. *)
Theorem sanitize_identity s :
  segment s = true → s ≠ [] → last s ≠ Some c_dot → length s ≤ 80 → is_hash_suffix_form s = false →
  sanitize_path_segment s = s.
Proof.
  intros Hs Hn Hl H80 Hf. rewrite sanitize_unfold. cbv zeta.
  assert (base s = s) as Hb by (unfold base; rewrite bool_decide_false by done; by apply sanitize_chars_id).
  assert (trim_end_matches (N.eqb c_dot) s = s) as Ht.
  { destruct (trim_end_matches_prefix (N.eqb c_dot) s) as (a & E & Ha).
    destruct a as [|x a _] using rev_ind; [by rewrite app_nil_r in E|].
    rewrite forallb_app in Ha. cbn in Ha. bool_simpl. subst. by rewrite E, app_assoc, last_snoc in Hl. }
  rewrite Hb, Ht, Hf, (proj2 (Nat.leb_le _ _) H80). done.
Qed.

(** Observed: A name that was hashed is hashed again when it is passed through the
    function a second time. *)
Theorem sanitize_not_idempotent :
  let s := sanitize_path_segment (repeat (ch "a") 81) in sanitize_path_segment s ≠ s.
Proof. vm_compute. discriminate. Qed.

Lemma sanitize_collision_witness :
  let a := lit "agent:main" in let b := lit "agent/main" in
  sanitize_path_segment a = sanitize_path_segment b ∧
  (trim_end_matches (N.eqb c_dot) (base a) = trim_end_matches (N.eqb c_dot) (base b) ∨
   (take 60 (base a) = take 60 (base b) ∧ fnv1a64 (as_bytes (base a)) = fnv1a64 (as_bytes (base b)))).
Proof. split; [reflexivity|]. apply (sanitize_collision (lit "agent:main") (lit "agent/main")). reflexivity. Defined.

Lemma sanitize_identity_witness : sanitize_path_segment (lit "task_1.v-2") = lit "task_1.v-2".
Proof. apply sanitize_identity; [reflexivity|discriminate|discriminate|vm_compute; lia|reflexivity]. Defined.
