(* ===== verification/Transfer.v ===== *)
(** * Chunked file transfer, receiving side (nemesis-cluster/src/transfer.rs)

    The path fence, the plan that cuts the files of a manifest into chunks, and the
    sink: staging, resumption, assembly, verification and landing.  A directory of
    the inbox is a map; the tree that a transfer lands is a map from the components
    of a path to the bytes of a file, and writing into it fails where a file stands
    in the place of a directory.  File operations succeed, except that the outcome
    of writing a chunk is an argument.  A request is one operation here; what its accesses
    to the disk are, and how those of several requests interleave, is in [TransferRuns].
    SHA-256 is [Merkle.Sha256]; base64 is the
    class [Base64]. *)
From S2P Require Import Prelude RustStr Merkle Frame Sanitize.
Local Open Scope nb_scope.

(** The base64 engine: decoding what was encoded gives it back. *)
Class Base64 := {
  b64_encode : bytes → str;
  b64_decode : str → option bytes;
  b64_decode_encode : ∀ d, b64_decode (b64_encode d) = Some d;
}.

(** ** Sizes *)

Definition u64_max : N := (2 ^ 64 - 1)%N.

(** [n as usize] for a [u64]. *)
Definition as_usize {TG : Target} (n : N) : N := (n mod (usize_max + 1))%N.

(** [u64::saturating_add], [usize::saturating_add]. *)
Definition sat_add (max a b : N) : N := N.min max (a + b)%N.

(** [u64::div_ceil]. *)
Definition div_ceil (a b : N) : N := (if a mod b =? 0 then a / b else a / b + 1)%N.

Definition DEFAULT_CHUNK_BYTES : N := (1024 * 1024)%N.

Definition resolve_chunk_bytes (raw : option N) : N :=
  match raw with
  | Some n => if ((4096 <=? n) && (n <=? 8 * 1024 * 1024))%N then n else DEFAULT_CHUNK_BYTES
  | None => DEFAULT_CHUNK_BYTES
  end.

(** ** The path fence *)

Definition c_digit (b : N) : bool := is_ascii_digit b.

Fixpoint digits_prefix (b : list N) : nat :=
  match b with
  | x :: b => if c_digit x then S (digits_prefix b) else 0
  | [] => 0
  end.

(** [~], a digit, then digits up to the end or to a dot. *)
Definition short_name_at (b : list N) : bool :=
  match b with
  | x :: d :: after =>
      N.eqb x c_tilde && c_digit d
      && ((digits_prefix after =? length after)%nat
          || bool_decide (after !! digits_prefix after = Some c_dot))
  | _ => false
  end.

(** Some position from 1 on. *)
Fixpoint some_suffix (p : list N → bool) (b : list N) : bool :=
  p b || match b with
         | [] => false
         | _ :: b => some_suffix p b
         end.

Definition is_short_name (comp : str) : bool := some_suffix short_name_at (drop 1 (as_bytes comp)).

Inductive PathError :=
| PathEmpty
| PathBackslash
| PathColon
| PathAbsolute
| PathNotNormal     (* [..], a leading [.] *)
| PathShortName.

#[export] Instance PathError_eq_dec : EqDecision PathError.
Proof. solve_decision. Defined.

(** [Path::components] of a relative path: empty pieces and every [.] but a leading
    one are skipped. *)
Inductive Component := CurDir | ParentDir | Normal (s : str).

Definition component (first : bool) (s : str) : option Component :=
  if bool_decide (s = []) then None
  else if bool_decide (s = [c_dot]) then (if first then Some CurDir else None)
  else if bool_decide (s = [c_dot; c_dot]) then Some ParentDir
  else Some (Normal s).

Definition components (t : str) : list Component :=
  match split_on (N.eqb c_slash) t with
  | [] => []
  | s :: rest => option_list (component true s) ++ omap (component false) rest
  end.

Fixpoint check_components (l : list Component) : result (list str) PathError :=
  match l with
  | [] => Ok []
  | Normal s :: l =>
      if is_short_name s then Err PathShortName
      else match check_components l with
           | Ok cs => Ok (s :: cs)
           | Err e => Err e
           end
  | _ :: _ => Err PathNotNormal
  end.

(** The result is the path the file system sees: its components. *)
Definition safe_relative_path (rel : str) : result (list str) PathError :=
  let t := trim rel in
  if bool_decide (t = []) then Err PathEmpty
  else if contains_char c_backslash t then Err PathBackslash
  else if contains_char c_colon t then Err PathColon
  else if bool_decide (head t = Some c_slash) then Err PathAbsolute
  else check_components (components t).

(** ** Manifests and plans *)

Record TransferFileEntry := mkEntry {
  fe_path : str;
  fe_size : N;
  fe_sha256 : str;
}.

Record TransferBegin := mkBegin {
  tb_transfer_id : str;
  tb_task_id : str;
  tb_kind : str;
  tb_source_node : str;
  tb_total_bytes : N;
  tb_chunk_size : N;
  tb_chunk_count : N;
  tb_files : list TransferFileEntry;
  tb_content_hash : str;
}.

#[export] Instance TransferFileEntry_eq_dec : EqDecision TransferFileEntry.
Proof. solve_decision. Defined.
#[export] Instance TransferBegin_eq_dec : EqDecision TransferBegin.
Proof. solve_decision. Defined.

(** The lines [path:size:sha256]. *)
Definition content_hash {SHA : Sha256} (files : list TransferFileEntry) : str :=
  sha256_hex (as_bytes (mjoin ((λ f,
    fe_path f ++ [c_colon] ++ lit (pretty (fe_size f)) ++ [c_colon] ++ fe_sha256 f ++ [c_nl]) <$> files))).

Section Plan.
Context {TG : Target}.

(** The [while off < f.size] loop of one file; [None] when the fuel is used up. *)
Fixpoint plan_file (fuel : nat) (idx : nat) (size chunk off : N) : option (list (nat * N * N)) :=
  if (off <? size)%N then
    match fuel with
    | O => None
    | S fuel =>
        let len := N.min (as_usize (size - off)) chunk in
        cons (idx, off, len) <$> plan_file fuel idx size chunk (off + len)
    end
  else Some [].

(** Enough rounds if every round advances by a chunk. *)
Definition plan_fuel (size chunk : N) : nat := N.to_nat (size / chunk) + 1.

Fixpoint plan_from (idx : nat) (files : list TransferFileEntry) (chunk : N) : option (list (nat * N * N)) :=
  match files with
  | [] => Some []
  | f :: files =>
      p ← plan_file (plan_fuel (fe_size f) chunk) idx (fe_size f) chunk 0;
      q ← plan_from (S idx) files chunk;
      Some (p ++ q)
  end.

(** [None]: the assertion fails or the loop does not end. *)
Definition plan_chunks (files : list TransferFileEntry) (chunk : N) : option (list (nat * N * N)) :=
  if (chunk =? 0)%N then None else plan_from 0 files chunk.

Definition chunk_count (files : list TransferFileEntry) (chunk : N) : N :=
  fold_left (sat_add usize_max) ((λ f, as_usize (div_ceil (fe_size f) chunk)) <$> files) 0%N.

Inductive ManifestError :=
| ManifestEmptyId
| ManifestChunkSize
| ManifestPath (e : PathError)
| ManifestTotal
| ManifestCount
| ManifestHash.

(** The loop over the files, with the running total. *)
Fixpoint validate_files (files : list TransferFileEntry) (total : N) : result N ManifestError :=
  match files with
  | [] => Ok total
  | f :: files =>
      match safe_relative_path (fe_path f) with
      | Err e => Err (ManifestPath e)
      | Ok _ => validate_files files (sat_add u64_max total (fe_size f))
      end
  end.

Definition validate_manifest (req : TransferBegin) : result unit ManifestError :=
  if bool_decide (tb_transfer_id req = []) || bool_decide (tb_task_id req = []) then Err ManifestEmptyId
  else if (tb_chunk_size req =? 0)%N then Err ManifestChunkSize
  else match validate_files (tb_files req) 0%N with
       | Err e => Err e
       | Ok total =>
           if negb (total =? tb_total_bytes req)%N then Err ManifestTotal
           else if negb (chunk_count (tb_files req) (tb_chunk_size req) =? tb_chunk_count req)%N
           then Err ManifestCount
           else if bool_decide (tb_content_hash req = []) then Err ManifestHash
           else Ok tt
       end.
End Plan.

(** ** Trees of files *)

Abbreviation path := (list str) (only parsing).
Abbreviation tree := (gmap (list str) bytes) (only parsing).

(** A file at a proper prefix of [p], or [p] a proper prefix of a file: then [p]
    cannot be a file. *)
Definition proper_prefix (p q : path) : bool :=
  (length p <? length q)%nat && bool_decide (take (length p) q = p).

Definition blocked (t : tree) (p : path) : bool :=
  existsb (λ q, proper_prefix q p || proper_prefix p q) (fst <$> map_to_list t).

(** [seek] past the end and [write_all] leave zeros in between. *)
Definition write_at (old : bytes) (off : nat) (data : bytes) : bytes :=
  take off (old ++ repeat 0%N (off - length old)) ++ data ++ drop (off + length data) old.

(** [create_dir_all] of the parent, then opening without truncation and writing. *)
Definition fs_write_at (t : tree) (p : path) (off : nat) (data : bytes) : option tree :=
  if blocked t p then None
  else Some (<[p := write_at (default [] (t !! p)) off data]> t).

(** [fs::write], which truncates. *)
Definition fs_write (t : tree) (p : path) (data : bytes) : option tree :=
  if blocked t p then None else Some (<[p := data]> t).

(** ** The sink *)

Record DedupEntry := mkDedup {
  de_content_hash : str;
  de_landed_at : str;
  de_file_count : nat;
  de_total_bytes : N;
}.

Record EndReply := mkEndReply {
  er_file_count : nat;
  er_total_bytes : N;
}.

(** [.staging/<id>/]: the manifest and the chunk files. *)
Record Staging := mkStaging {
  sg_manifest : option TransferBegin;
  sg_chunks : gmap N bytes;
}.

(** [inbox/<task>/]: [files/], [manifest.json] and [landed.json]. *)
Record Landed := mkLanded {
  ld_files : tree;
  ld_manifest : TransferBegin;
}.

Record Sink := mkSink {
  sk_max_bytes : N;
  sk_dedup : gmap str DedupEntry;
  sk_staging : gmap str Staging;
  sk_inbox : gmap str Landed;
  sk_done : gmap str EndReply;
}.

Definition sanitize_transfer_id (id : str) : str :=
  if bool_decide (id = []) then lit "transfer" else sanitize_path_segment id.

Definition safe_task_file_name (task_id : str) : str := sanitize_path_segment task_id.

Definition set_staging (k : str) (v : option Staging) (s : Sink) : Sink :=
  mkSink (sk_max_bytes s) (sk_dedup s) (partial_alter (λ _, v) k (sk_staging s)) (sk_inbox s) (sk_done s).

Inductive BeginReply :=
| BeginOverLimit
| BeginError (e : ManifestError)
| BeginDedup
| BeginOk (have : list N).

(** The numbers of the plan that have a chunk file. *)
Definition list_received_chunks (chunks : gmap N bytes) (chunk_count : N) : list N :=
  List.filter (λ q, bool_decide (is_Some (chunks !! q))) (N.of_nat <$> seq 0 (N.to_nat chunk_count)).

Inductive WriteOutcome :=
| WriteOk
| WriteFailOpen
| WriteFailAfter (n : nat).   (* the file was created, [n] bytes got into it *)

Record TransferChunk := mkChunk {
  tc_transfer_id : str;
  tc_seq : N;
  tc_total : N;
  tc_data_b64 : str;
  tc_sha256 : str;
}.

Inductive ChunkError :=
| ChunkBase64
| ChunkSha
| ChunkNoStaging
| ChunkNoManifest
| ChunkSeq
| ChunkSize
| ChunkWrite.

Inductive EndError :=
| EndNoStaging
| EndNoManifest
| EndPlan                 (* [plan_chunks] does not return *)
| EndPath (e : PathError)
| EndWrite                (* a file in the place of a directory, or the converse *)
| EndChunkMissing (seq : nat)
| EndChunkLength (seq : nat)
| EndFileMissing
| EndFileSize
| EndFileSha.

#[export] Instance EndError_eq_dec : EqDecision EndError.
Proof. solve_decision. Defined.

Section Sink.
Context {TG : Target} {SHA : Sha256} {B64 : Base64}.

Definition begin (req : TransferBegin) (s : Sink) : Sink * BeginReply :=
  let limit := sk_max_bytes s in
  if ((0 <? limit) && (limit <? tb_total_bytes req))%N then (s, BeginOverLimit)
  else match validate_manifest req with
  | Err e => (s, BeginError e)
  | Ok _ =>
      let dedup :=
        match sk_dedup s !! tb_task_id req with
        | Some entry =>
            bool_decide (de_content_hash entry = tb_content_hash req)
            && bool_decide (is_Some (sk_inbox s !! safe_task_file_name (tb_task_id req)))
        | None => false
        end in
      if dedup then (s, BeginDedup)
      else
        let k := sanitize_transfer_id (tb_transfer_id req) in
        let resume :=
          match sk_staging s !! k with
          | Some (mkStaging (Some m) chunks) =>
              if bool_decide (tb_content_hash m = tb_content_hash req) then Some chunks else None
          | _ => None
          end in
        match resume with
        | Some chunks =>
            (set_staging k (Some (mkStaging (Some req) chunks)) s,
             BeginOk (list_received_chunks chunks (tb_chunk_count req)))
        | None => (set_staging k (Some (mkStaging (Some req) ∅)) s, BeginOk [])
        end
  end.

Definition chunk (w : WriteOutcome) (req : TransferChunk) (s : Sink) : Sink * result unit ChunkError :=
  match b64_decode (tc_data_b64 req) with
  | None => (s, Err ChunkBase64)
  | Some data =>
      if negb (bool_decide (sha256_hex data = tc_sha256 req)) then (s, Err ChunkSha)
      else
        let k := sanitize_transfer_id (tc_transfer_id req) in
        match sk_staging s !! k with
        | None => (s, Err ChunkNoStaging)
        | Some (mkStaging None _) => (s, Err ChunkNoManifest)
        | Some (mkStaging (Some m) chunks) =>
            if (tb_chunk_count m <=? tc_seq req)%N then (s, Err ChunkSeq)
            else if (tb_chunk_size m <? len data)%N then (s, Err ChunkSize)
            else
              let put d := set_staging k (Some (mkStaging (Some m) (<[tc_seq req := d]> chunks))) s in
              match w with
              | WriteOk => (put data, Ok tt)
              | WriteFailOpen => (s, Err ChunkWrite)
              | WriteFailAfter n => (put (take n data), Err ChunkWrite)
              end
        end
  end.

(** The empty files, which have no chunk. *)
Fixpoint make_empty (files : list TransferFileEntry) (t : tree) : result tree EndError :=
  match files with
  | [] => Ok t
  | f :: files =>
      if (fe_size f =? 0)%N then
        match safe_relative_path (fe_path f) with
        | Err e => Err (EndPath e)
        | Ok p =>
            match fs_write t p [] with
            | None => Err EndWrite
            | Some t => make_empty files t
            end
        end
      else make_empty files t
  end.

(** The loop over the plan; [seq] counts from 0. *)
Fixpoint assemble (files : list TransferFileEntry) (chunks : gmap N bytes)
    (plan : list (nat * N * N)) (seq : nat) (t : tree) : result tree EndError :=
  match plan with
  | [] => Ok t
  | (idx, off, n) :: plan =>
      match chunks !! N.of_nat seq with
      | None => Err (EndChunkMissing seq)
      | Some data =>
          if negb (len data =? n)%N then Err (EndChunkLength seq)
          else match files !! idx with
               | None => Err EndPlan    (* out of range: the plan is of these files *)
               | Some f =>
                   match safe_relative_path (fe_path f) with
                   | Err e => Err (EndPath e)
                   | Ok p =>
                       match fs_write_at t p (N.to_nat off) data with
                       | None => Err EndWrite
                       | Some t => assemble files chunks plan (S seq) t
                       end
                   end
               end
      end
  end.

(** Verification of the assembled files. *)
Fixpoint verify_files (files : list TransferFileEntry) (t : tree) : result unit EndError :=
  match files with
  | [] => Ok tt
  | f :: files =>
      match safe_relative_path (fe_path f) with
      | Err e => Err (EndPath e)
      | Ok p =>
          match t !! p with
          | None => Err EndFileMissing
          | Some d =>
              if negb (len d =? fe_size f)%N then Err EndFileSize
              else if negb (bool_decide (sha256_hex d = fe_sha256 f)) then Err EndFileSha
              else verify_files files t
          end
      end
  end.

Definition land (k : str) (m : TransferBegin) (now : str) (t : tree) (s : Sink) : Sink :=
  mkSink (sk_max_bytes s)
    (<[tb_task_id m := mkDedup (tb_content_hash m) now (length (tb_files m)) (tb_total_bytes m)]> (sk_dedup s))
    (delete k (sk_staging s))
    (<[safe_task_file_name (tb_task_id m) := mkLanded t m]> (sk_inbox s))
    (<[k := mkEndReply (length (tb_files m)) (tb_total_bytes m)]> (sk_done s)).

(** The files of a staging directory, assembled and verified. *)
Definition assembled (m : TransferBegin) (chunks : gmap N bytes) : result tree EndError :=
  match plan_chunks (tb_files m) (tb_chunk_size m) with
  | None => Err EndPlan
  | Some plan =>
      (t <-? make_empty (tb_files m) ∅;
       t <-? assemble (tb_files m) chunks plan 0 t;
       _ <-? verify_files (tb_files m) t;
       Ok t)%nb
  end.

(** [end]; [now] is the time that goes into the receipt. *)
Definition end_transfer (now : str) (transfer_id : str) (s : Sink) : Sink * result EndReply EndError :=
  let k := sanitize_transfer_id transfer_id in
  match sk_staging s !! k with
  | None =>
      match sk_done s !! k with
      | Some reply => (s, Ok reply)
      | None => (s, Err EndNoStaging)
      end
  | Some (mkStaging None _) => (s, Err EndNoManifest)
  | Some (mkStaging (Some m) chunks) =>
      match assembled m chunks with
      | Err e => (s, Err e)
      | Ok t => (land k m now t s, Ok (mkEndReply (length (tb_files m)) (tb_total_bytes m)))
      end
  end.

(** ** Steps of a sink *)

(** Requests of any peer, each served from its start to its end before the next, and what
    the host does: the limit is refreshed, old staging directories are swept, and the
    board moves an inbox directory away.  That requests are served at the same time is
    modelled in [TransferRuns]. *)
Inductive SinkEvent :=
| EvBegin (req : TransferBegin)
| EvChunk (w : WriteOutcome) (req : TransferChunk)
| EvEnd (now : str) (transfer_id : str)
| EvSetMax (n : N)
| EvSweep (k : str)
| EvIngest (k : str).

Definition sink_step (s : Sink) (e : SinkEvent) : Sink :=
  match e with
  | EvBegin req => fst (begin req s)
  | EvChunk w req => fst (chunk w req s)
  | EvEnd now id => fst (end_transfer now id s)
  | EvSetMax n => mkSink n (sk_dedup s) (sk_staging s) (sk_inbox s) (sk_done s)
  | EvSweep k => set_staging k None s
  | EvIngest k => mkSink (sk_max_bytes s) (sk_dedup s) (sk_staging s) (delete k (sk_inbox s)) (sk_done s)
  end.

Definition new_sink (max_bytes : N) (dedup : gmap str DedupEntry) : Sink :=
  mkSink max_bytes dedup ∅ ∅ ∅.

Definition sink_run (s : Sink) (es : list SinkEvent) : Sink := fold_left sink_step es s.
End Sink.

(** ** The path fence keeps inside *)

(** An ordinary component: no name of a directory but the one it stands in. *)
Definition inside (s : str) : Prop :=
  s ≠ [] ∧ s ≠ [c_dot] ∧ s ≠ [c_dot; c_dot] ∧ (c_slash ∉ s) ∧ (c_backslash ∉ s) ∧ (c_colon ∉ s).

Lemma split_on_elem p (t s : str) c : s ∈ split_on p t → c ∈ s → c ∈ t ∧ p c = false.
Proof.
  revert s. induction t as [|x t IH]; intros s Hs Hc; cbn in Hs.
  - apply list_elem_of_singleton in Hs as ->. by apply elem_of_nil in Hc.
  - destruct (p x) eqn:E.
    + apply elem_of_cons in Hs as [->|Hs]; [by apply elem_of_nil in Hc|].
      destruct (IH s Hs Hc). split; [by right|done].
    + destruct (split_on p t) as [|u us] eqn:Et.
      * apply list_elem_of_singleton in Hs as ->. apply list_elem_of_singleton in Hc as ->. split; [by left|done].
      * apply elem_of_cons in Hs as [->|Hs].
        -- apply elem_of_cons in Hc as [->|Hc]; [split; [by left|done]|].
           destruct (IH u) as [? ?]; [by left|done|]. split; [by right|done].
        -- destruct (IH s) as [? ?]; [by right|done|]. split; [by right|done].
Qed.

Lemma components_inside t s :
  contains_char c_backslash t = false → contains_char c_colon t = false →
  Normal s ∈ components t → inside s.
Proof.
  intros Hb Hc. apply contains_char_false in Hb, Hc.
  assert (∀ first x, component first x = Some (Normal s) → x = s ∧ s ≠ [] ∧ s ≠ [c_dot] ∧ s ≠ [c_dot; c_dot]) as Hn.
  { intros first x. unfold component. repeat case_bool_decide; try done; [by destruct first|].
    by intros [= ->]. }
  assert (s ∈ split_on (N.eqb c_slash) t → s ≠ [] → s ≠ [c_dot] → s ≠ [c_dot; c_dot] → inside s) as Hin.
  { intros Hs H1 H2 H3. repeat split; try done.
    - intros Hx. destruct (split_on_elem _ _ _ _ Hs Hx) as [_ E]. done.
    - intros Hx. by destruct (split_on_elem _ _ _ _ Hs Hx).
    - intros Hx. by destruct (split_on_elem _ _ _ _ Hs Hx). }
  unfold components. destruct (split_on (N.eqb c_slash) t) as [|x rest]; [by intros ?%elem_of_nil|].
  rewrite elem_of_app. intros [H|H].
  - destruct (component true x) as [k|] eqn:E; cbn in H; [|by apply elem_of_nil in H].
    apply list_elem_of_singleton in H as <-. apply Hn in E as (-> & ? & ? & ?). apply Hin; [by left|done..].
  - apply list_elem_of_omap in H as (y & Hy & E). apply Hn in E as (-> & ? & ? & ?). apply Hin; [by right|done..].
Qed.

Lemma check_components_Ok l cs :
  check_components l = Ok cs → l = Normal <$> cs ∧ Forall (λ s, is_short_name s = false) cs.
Proof.
  revert cs. induction l as [|[| |s] l IH]; intros cs H; cbn in H; try done.
  - by injection H as <-.
  - destruct (is_short_name s) eqn:Es; [done|]. destruct (check_components l) as [cs'|]; [|done].
    injection H as <-. destruct (IH cs') as [-> ?]; [done|]. by split; [|constructor].
Qed.

(** A path without a leading separator has a component. *)
Lemma components_nonempty t : t ≠ [] → head t ≠ Some c_slash → components t ≠ [].
Proof.
  intros Hn Hh. unfold components. destruct t as [|x t]; [done|]. cbn [split_on].
  destruct (N.eqb_spec c_slash x) as [<-|Hx]; [done|].
  assert (∀ u, component true (x :: u) ≠ None) as Hc.
  { intros u. unfold component. repeat case_bool_decide; done. }
  destruct (split_on (N.eqb c_slash) t) as [|u us].
  - specialize (Hc []). by destruct (component true [x]).
  - specialize (Hc u). by destruct (component true (x :: u)).
Qed.

Lemma safe_relative_path_Ok rel cs :
  safe_relative_path rel = Ok cs → cs ≠ [] ∧ Forall inside cs ∧ Forall (λ s, is_short_name s = false) cs.
Proof.
  unfold safe_relative_path. set (t := trim rel).
  case_bool_decide as Ht; [done|]. destruct (contains_char c_backslash t) eqn:Hb; [done|].
  destruct (contains_char c_colon t) eqn:Hc; [done|]. case_bool_decide as Hh; [done|].
  intros H. apply check_components_Ok in H as [E Hs]. split; [|split; [|done]].
  - intros ->. by apply (components_nonempty t) in E.
  - apply Forall_forall. intros s Hs'. eapply components_inside; [done..|]. rewrite E. by apply list_elem_of_fmap_2.
Qed.

(** ** Plans *)

Lemma div_ceil_lt size chunk k :
  (0 < chunk)%N → (k * chunk < size)%N ↔ (k < div_ceil size chunk)%N.
Proof.
  intros Hc. unfold div_ceil. pose proof (N.div_mod' size chunk) as E.
  pose proof (N.mod_lt size chunk ltac:(lia)) as Hr.
  set (q := (size / chunk)%N) in *. set (r := (size mod chunk)%N) in *.
  destruct (N.le_gt_cases k q) as [Hk|Hk].
  - pose proof (N.mul_le_mono_r k q chunk Hk). destruct (N.eqb_spec r 0) as [H0|H0].
    + rewrite E, H0, N.add_0_r, (N.mul_comm chunk q). symmetry. apply N.mul_lt_mono_pos_r. lia.
    + split; lia.
  - pose proof (N.mul_le_mono_r (q + 1) k chunk ltac:(lia)). destruct (N.eqb_spec r 0); split; lia.
Qed.

Lemma div_ceil_le size chunk : (0 < chunk)%N → (div_ceil size chunk ≤ size)%N.
Proof.
  intros Hc. unfold div_ceil. pose proof (N.div_mod' size chunk) as E.
  set (q := (size / chunk)%N) in *. set (r := (size mod chunk)%N) in *.
  pose proof (N.mul_le_mono_r 1 chunk q ltac:(lia)). destruct (N.eqb_spec r 0); lia.
Qed.

(** The chunks of one file, from the [k]th on. *)
Definition file_chunk (idx : nat) (size chunk : N) (j : nat) : nat * N * N :=
  (idx, (N.of_nat j * chunk)%N, N.min chunk (size - N.of_nat j * chunk)%N).

Definition file_chunks (idx : nat) (size chunk : N) : list (nat * N * N) :=
  file_chunk idx size chunk <$> seq 0 (N.to_nat (div_ceil size chunk)).

(** The plan that the comment of the source describes. *)
Fixpoint reference_plan (idx : nat) (files : list TransferFileEntry) (chunk : N) : list (nat * N * N) :=
  match files with
  | [] => []
  | f :: files => file_chunks idx (fe_size f) chunk ++ reference_plan (S idx) files chunk
  end.

(** The sum of the chunk counts, without a bound. *)
Definition total_chunks (files : list TransferFileEntry) (chunk : N) : N :=
  foldr (λ f n, div_ceil (fe_size f) chunk + n)%N 0%N files.

Lemma reference_plan_length idx files chunk :
  N.of_nat (length (reference_plan idx files chunk)) = total_chunks files chunk.
Proof.
  revert idx. induction files as [|f files IH]; intros idx; cbn; [done|].
  unfold file_chunks. rewrite length_app, length_fmap, length_seq, Nat2N.inj_add, IH, N2Nat.id. done.
Qed.

Section PlanSpec.
Context {TG : Target}.

Definition is_64bit : Prop := (u64_max ≤ usize_max)%N.
Definition u64 (n : N) : Prop := (n ≤ u64_max)%N.

Lemma as_usize_id n : is_64bit → u64 n → as_usize n = n.
Proof. unfold is_64bit, u64, as_usize. intros. apply N.mod_small. lia. Qed.

Lemma plan_file_spec fuel idx size chunk k :
  is_64bit → u64 size → (0 < chunk)%N →
  (N.to_nat (div_ceil size chunk) - k ≤ fuel)%nat →
  plan_file fuel idx size chunk (N.of_nat k * chunk) =
  Some (file_chunk idx size chunk <$> seq k (N.to_nat (div_ceil size chunk) - k)).
Proof.
  intros H64 Hs Hc. revert k. induction fuel as [|fuel IH]; intros k Hf;
    pose proof (div_ceil_lt size chunk (N.of_nat k) Hc) as Hk; cbn [plan_file];
    destruct (N.ltb_spec (N.of_nat k * chunk) size) as [Hlt|Hge].
  - apply Hk in Hlt. lia.
  - replace (N.to_nat (div_ceil size chunk) - k)%nat with 0%nat by lia. done.
  - replace (N.to_nat (div_ceil size chunk) - k)%nat with (S (N.to_nat (div_ceil size chunk) - S k))%nat
      by (apply Hk in Hlt; lia).
    cbn [seq fmap list_fmap]. rewrite as_usize_id by (done || unfold u64 in *; lia).
    assert (plan_file fuel idx size chunk (N.of_nat k * chunk + N.min (size - N.of_nat k * chunk) chunk) =
      Some (file_chunk idx size chunk <$> seq (S k) (N.to_nat (div_ceil size chunk) - S k))) as ->.
    { destruct (N.le_gt_cases chunk (size - N.of_nat k * chunk)) as [Hle|Hgt].
      - rewrite N.min_r by done. rewrite <- IH by lia. f_equal. lia.
      - replace (N.of_nat k * chunk + N.min (size - N.of_nat k * chunk) chunk)%N with size by lia.
        pose proof (div_ceil_lt size chunk (N.of_nat (S k)) Hc) as Hk'.
        replace (N.to_nat (div_ceil size chunk) - S k)%nat with 0%nat by lia.
        destruct fuel; cbn [plan_file]; by rewrite N.ltb_irrefl. }
    cbn. unfold file_chunk at 2. by rewrite N.min_comm.
  - replace (N.to_nat (div_ceil size chunk) - k)%nat with 0%nat by lia. done.
Qed.

Lemma plan_from_spec idx files chunk :
  is_64bit → Forall (λ f, u64 (fe_size f)) files → (0 < chunk)%N →
  plan_from idx files chunk = Some (reference_plan idx files chunk).
Proof.
  intros H64 Hf Hc. revert idx. induction Hf as [|f files Hs _ IH]; intros idx; cbn [plan_from reference_plan]; [done|].
  pose proof (plan_file_spec (plan_fuel (fe_size f) chunk) idx (fe_size f) chunk 0 H64 Hs Hc) as E.
  change (N.of_nat 0) with 0%N in E. rewrite N.mul_0_l in E. rewrite E; [|unfold plan_fuel, div_ceil; generalize (fe_size f / chunk)%N; intros q; destruct (N.eqb _ _); lia].
  cbn. rewrite IH. cbn. by rewrite Nat.sub_0_r.
Qed.

Lemma plan_chunks_eq files chunk :
  is_64bit → Forall (λ f, u64 (fe_size f)) files → (0 < chunk)%N →
  plan_chunks files chunk = Some (reference_plan 0 files chunk).
Proof.
  intros H64 Hf Hc. unfold plan_chunks. rewrite (proj2 (N.eqb_neq chunk 0)) by lia. by apply plan_from_spec.
Qed.

Lemma sat_fold max l a :
  (a ≤ max)%N → fold_left (sat_add max) l a = N.min max (a + foldr N.add 0 l)%N.
Proof.
  revert a. induction l as [|x l IH]; intros a Ha; cbn [fold_left foldr]; [lia|].
  rewrite IH by (unfold sat_add; lia). unfold sat_add. lia.
Qed.

Lemma chunk_count_eq files chunk :
  is_64bit → Forall (λ f, u64 (fe_size f)) files → (0 < chunk)%N →
  chunk_count files chunk = N.min usize_max (total_chunks files chunk).
Proof.
  intros H64 Hf Hc. unfold chunk_count. rewrite sat_fold by lia. f_equal.
  rewrite N.add_0_l. induction Hf as [|f files Hs _ IH]; cbn; [done|]. rewrite IH.
  rewrite as_usize_id; [done..|]. pose proof (div_ceil_le (fe_size f) chunk Hc). unfold u64 in *. lia.
Qed.
End PlanSpec.

(** ** What the sink lets in *)

Definition total_size (files : list TransferFileEntry) : N := foldr (λ f n, fe_size f + n)%N 0%N files.

Section SinkSpec.
Context {TG : Target} {SHA : Sha256} {B64 : Base64}.

Lemma validate_files_Ok files total total' :
  (total ≤ u64_max)%N → validate_files files total = Ok total' →
  total' = N.min u64_max (total + total_size files)%N ∧
  Forall (λ f, is_ok (safe_relative_path (fe_path f)) = true) files.
Proof.
  revert total. induction files as [|f files IH]; intros total Ht H; cbn [validate_files] in H.
  - injection H as <-. cbn. split; [lia|constructor].
  - destruct (safe_relative_path (fe_path f)) eqn:E; [|done].
    apply IH in H as [-> Hf]; [|unfold sat_add; lia].
    change (total_size (f :: files)) with (fe_size f + total_size files)%N. split; [unfold sat_add; lia|].
    constructor; [by rewrite E|done].
Qed.

Lemma validate_manifest_Ok m :
  validate_manifest m = Ok tt →
  tb_task_id m ≠ [] ∧ tb_transfer_id m ≠ [] ∧ tb_content_hash m ≠ [] ∧ (0 < tb_chunk_size m)%N ∧
  tb_total_bytes m = N.min u64_max (total_size (tb_files m)) ∧
  tb_chunk_count m = chunk_count (tb_files m) (tb_chunk_size m) ∧
  Forall (λ f, is_ok (safe_relative_path (fe_path f)) = true) (tb_files m).
Proof.
  unfold validate_manifest. destruct (bool_decide _ || bool_decide _) eqn:Ei; [done|].
  destruct (N.eqb_spec (tb_chunk_size m) 0); [done|].
  destruct (validate_files (tb_files m) 0) as [total|] eqn:Ev; [|done].
  destruct (N.eqb_spec total (tb_total_bytes m)) as [Ht|]; [|done]. cbn [negb].
  destruct (N.eqb_spec (chunk_count (tb_files m) (tb_chunk_size m)) (tb_chunk_count m)); [|done]. cbn [negb].
  destruct (bool_decide (tb_content_hash m = [])) eqn:Eh; [done|]. intros _. apply validate_files_Ok in Ev as [Et Hf]; [|unfold u64_max; lia].
  rewrite N.add_0_l in Et. bool_simpl. repeat split; first [done|congruence|lia].
Qed.

Lemma lookup_set_staging k v s k' :
  sk_staging (set_staging k v s) !! k' = if bool_decide (k = k') then v else sk_staging s !! k'.
Proof.
  unfold set_staging. cbn [sk_staging]. case_bool_decide as H.
  - subst. by rewrite lookup_partial_alter_eq.
  - by rewrite lookup_partial_alter_ne.
Qed.

(** ** What is landed *)

(** Every listed file is there with its size and digest, and nothing else is. *)
Definition landed_ok (l : Landed) : Prop :=
  (∀ f, f ∈ tb_files (ld_manifest l) →
     ∃ p d, safe_relative_path (fe_path f) = Ok p ∧ ld_files l !! p = Some d ∧
       len d = fe_size f ∧ sha256_hex d = fe_sha256 f) ∧
  (∀ p, is_Some (ld_files l !! p) → ∃ f, f ∈ tb_files (ld_manifest l) ∧ safe_relative_path (fe_path f) = Ok p).

Lemma verify_files_Ok files t :
  verify_files files t = Ok tt →
  ∀ f, f ∈ files → ∃ p d, safe_relative_path (fe_path f) = Ok p ∧ t !! p = Some d ∧
    len d = fe_size f ∧ sha256_hex d = fe_sha256 f.
Proof.
  induction files as [|f files IH]; intros H g Hg; [by apply elem_of_nil in Hg|]. cbn in H.
  destruct (safe_relative_path (fe_path f)) as [p|] eqn:Ep; [|done].
  destruct (t !! p) as [d|] eqn:Ed; [|done].
  destruct (N.eqb_spec (len d) (fe_size f)); [|done]. cbn [negb] in H.
  case_bool_decide; [|done]. cbn [negb] in H.
  apply elem_of_cons in Hg as [->|Hg]; [by exists p, d|by apply IH].
Qed.

(** The paths of a tree all come from the list of files. *)
Definition listed (files : list TransferFileEntry) (t : tree) : Prop :=
  ∀ p, is_Some (t !! p) → ∃ f, f ∈ files ∧ safe_relative_path (fe_path f) = Ok p.

Lemma listed_insert files t f p d :
  listed files t → f ∈ files → safe_relative_path (fe_path f) = Ok p → listed files (<[p := d]> t).
Proof.
  intros Ht Hf Hp q [x Hq]. apply lookup_insert_Some in Hq as [[<- _]|[_ Hq]]; [by exists f|].
  apply Ht. by exists x.
Qed.

Lemma make_empty_listed files all t t' :
  (∀ f, f ∈ files → f ∈ all) → listed all t → make_empty files t = Ok t' → listed all t'.
Proof.
  revert t. induction files as [|f files IH]; intros t Hall Ht H; cbn in H; [by injection H as <-|].
  assert (∀ g, g ∈ files → g ∈ all) as Hall' by (intros g Hg; apply Hall; by right).
  destruct (fe_size f =? 0)%N; [|by eapply IH].
  destruct (safe_relative_path (fe_path f)) as [p|] eqn:Ep; [|done].
  unfold fs_write in H. destruct (blocked t p); [done|].
  eapply IH in H; [done..|]. eapply listed_insert; [done| |done]. apply Hall. by left.
Qed.

Lemma assemble_listed files chunks plan seq t t' :
  listed files t → assemble files chunks plan seq t = Ok t' → listed files t'.
Proof.
  revert seq t. induction plan as [|[[idx off] n] plan IH]; intros seq t Ht H; cbn in H; [by injection H as <-|].
  destruct (chunks !! N.of_nat seq) as [data|]; [|done].
  destruct (len data =? n)%N; [|done]. cbn [negb] in H.
  destruct (files !! idx) as [f|] eqn:Ef; [|done].
  destruct (safe_relative_path (fe_path f)) as [p|] eqn:Ep; [|done].
  unfold fs_write_at in H. destruct (blocked t p); [done|].
  eapply IH in H; [done|]. eapply listed_insert; [done| |done]. by eapply list_elem_of_lookup_2.
Qed.

Lemma assembled_ok m chunks t : assembled m chunks = Ok t → landed_ok (mkLanded t m).
Proof.
  unfold assembled. destruct (plan_chunks _ _) as [plan|]; [|done].
  destruct (make_empty (tb_files m) ∅) as [t1|] eqn:E1; [|done]. cbn [res_bind].
  destruct (assemble _ _ _ _ _) as [t2|] eqn:E2; [|done]. cbn [res_bind].
  destruct (verify_files (tb_files m) t2) as [[]|] eqn:E3; [|done]. cbn [res_bind]. intros [= <-].
  split; cbn [ld_files ld_manifest]; [by apply verify_files_Ok|].
  eapply assemble_listed; [|done]. eapply make_empty_listed; [done| |done].
  intros p [x Hx]. by rewrite lookup_empty in Hx.
Qed.

(** ** The invariant *)

Definition sink_inv (s : Sink) : Prop :=
  (∀ k g, sk_staging s !! k = Some g → ∃ m, sg_manifest g = Some m ∧ validate_manifest m = Ok tt) ∧
  (∀ k l, sk_inbox s !! k = Some l → k = safe_task_file_name (tb_task_id (ld_manifest l)) ∧ landed_ok l).

Lemma inv_set_staging k g s :
  sink_inv s →
  match g with
  | Some g => ∃ m, sg_manifest g = Some m ∧ validate_manifest m = Ok tt
  | None => True
  end →
  sink_inv (set_staging k g s).
Proof.
  intros [Hs Hi] Hg. split; [|done]. intros k' g'. rewrite lookup_set_staging.
  case_bool_decide; [|apply Hs]. by intros ->.
Qed.

Lemma begin_inv req s : sink_inv s → sink_inv (fst (begin req s)).
Proof.
  intros Hinv. unfold begin. destruct ((0 <? sk_max_bytes s) && _)%N; [done|].
  destruct (validate_manifest req) as [[]|] eqn:Ev; [|done].
  match goal with |- context [if ?b then (s, BeginDedup) else _] => destruct b end; [done|].
  match goal with |- context [match ?o with Some _ => _ | None => _ end] => destruct o end;
    (apply inv_set_staging; [done|by exists req]).
Qed.

Lemma chunk_inv w req s : sink_inv s → sink_inv (fst (chunk w req s)).
Proof.
  intros Hinv. unfold chunk. destruct (b64_decode _) as [data|]; [|done].
  case_bool_decide; [|done]. cbn [negb].
  destruct (sk_staging s !! _) as [[[m|] chunks]|] eqn:E; [|done..].
  destruct (tb_chunk_count m <=? tc_seq req)%N; [done|]. destruct (tb_chunk_size m <? len data)%N; [done|].
  destruct (proj1 Hinv _ _ E) as (m' & [= <-] & Hm).
  destruct w; [|done|]; (apply inv_set_staging; [done|by exists m]).
Qed.

Lemma end_inv now id s : sink_inv s → sink_inv (fst (end_transfer now id s)).
Proof.
  intros Hinv. unfold end_transfer. destruct (sk_staging s !! _) as [[[m|] chunks]|] eqn:E; [|done|by destruct (sk_done s !! _)].
  destruct (assembled m chunks) as [t|] eqn:Ea; [|done]. destruct Hinv as [Hs Hi]. split; cbn.
  - intros k g [_ Hg]%lookup_delete_Some. by eapply Hs.
  - intros k l [[<- <-]|[_ Hl]]%lookup_insert_Some; [|by apply Hi]. split; [done|]. by apply assembled_ok in Ea.
Qed.

Lemma sink_step_inv s e : sink_inv s → sink_inv (sink_step s e).
Proof.
  intros Hinv. destruct e; cbn.
  - by apply begin_inv.
  - by apply chunk_inv.
  - by apply end_inv.
  - done.
  - by apply inv_set_staging.
  - destruct Hinv as [Hs Hi]. split; [done|]. cbn. intros k' l [_ Hl]%lookup_delete_Some. by apply Hi.
Qed.

Lemma sink_run_inv s es : sink_inv s → sink_inv (sink_run s es).
Proof. revert s. induction es as [|e es IH]; intros s Hs; [done|]. apply IH. by apply sink_step_inv. Qed.

Lemma new_sink_inv max dedup : sink_inv (new_sink max dedup).
Proof. split; cbn; intros k g; by rewrite lookup_empty. Qed.
End SinkSpec.

(** ** Reassembly *)

(** The files of a sender: paths and contents. *)
Abbreviation source := (list (str * bytes)) (only parsing).

Definition comps_of (p : str) : path :=
  match safe_relative_path p with
  | Ok c => c
  | Err _ => []
  end.

Definition keyed (x : str * bytes) : path * bytes := (comps_of (fst x), snd x).

(** The paths pass the fence, no two are the same file, and none is a directory of
    another, as for the files of one directory. *)
Definition source_ok (src : source) : Prop :=
  Forall (λ x, is_ok (safe_relative_path (fst x)) = true ∧ (len (snd x) ≤ u64_max)%N) src ∧
  NoDup (fst ∘ keyed <$> src) ∧
  ∀ x y, x ∈ src → y ∈ src → proper_prefix (comps_of (fst x)) (comps_of (fst y)) = false.

Definition source_tree (src : source) : tree := list_to_map (keyed <$> src).

Definition slice (d : bytes) (off n : N) : bytes := take (N.to_nat n) (drop (N.to_nat off) d).

(** The data of the chunks of a plan. *)
Definition chunk_data (src : source) (c : nat * N * N) : bytes :=
  let '(idx, off, n) := c in
  match src !! idx with
  | Some x => slice (snd x) off n
  | None => []
  end.

Definition entry_of {SHA : Sha256} (x : str * bytes) : TransferFileEntry :=
  mkEntry (fst x) (len (snd x)) (sha256_hex (snd x)).

(** Chunk files [seq], [seq + 1], ... hold the data of [plan]. *)
Definition holds (src : source) (chunks : gmap N bytes) (plan : list (nat * N * N)) (seq : nat) : Prop :=
  ∀ j c, plan !! j = Some c → chunks !! N.of_nat (seq + j) = Some (chunk_data src c).

Lemma holds_cons src chunks c plan seq :
  holds src chunks (c :: plan) seq ↔
  chunks !! N.of_nat seq = Some (chunk_data src c) ∧ holds src chunks plan (S seq).
Proof.
  split.
  - intros H. split; [rewrite <- (H 0 c eq_refl); f_equal; lia|].
    intros j c' Hj. rewrite <- (H (S j) c' Hj). f_equal. lia.
  - intros [H0 H] [|j] c' Hj; cbn in Hj.
    + injection Hj as <-. rewrite <- H0. f_equal. lia.
    + rewrite <- (H j c' Hj). f_equal. lia.
Qed.

Lemma holds_app src chunks p q seq :
  holds src chunks (p ++ q) seq → holds src chunks p seq ∧ holds src chunks q (seq + length p).
Proof.
  intros H. split; intros j c Hj.
  - apply H. by apply lookup_app_l_Some.
  - rewrite <- Nat.add_assoc. apply H. by rewrite lookup_app_r, Nat.add_comm, Nat.add_sub by lia.
Qed.

Lemma blocked_false t p :
  blocked t p = false ↔ ∀ q, is_Some (t !! q) → proper_prefix q p = false ∧ proper_prefix p q = false.
Proof.
  unfold blocked. rewrite <- not_true_iff_false, existsb_Exists_true, Exists_exists. split.
  - intros H q [d Hq]. apply orb_false_iff, not_true_iff_false. intros Hpq. apply H. exists q. split; [|done].
    apply list_elem_of_fmap. exists (q, d). split; [done|]. by apply elem_of_map_to_list.
  - intros H (q & Hq & Hpq). apply list_elem_of_fmap in Hq as ([q' d] & -> & Hq).
    apply elem_of_map_to_list in Hq. destruct (H q') as [E1 E2]; [by exists d|]. cbn in Hpq. by rewrite E1, E2 in Hpq.
Qed.

Lemma proper_prefix_refl p : proper_prefix p p = false.
Proof. unfold proper_prefix. by rewrite Nat.ltb_irrefl. Qed.

Lemma write_next d off n :
  (off ≤ length d)%nat → write_at (take off d) off (take n (drop off d)) = take (off + n) d.
Proof.
  intros Ho. unfold write_at.
  assert (length (take off d) = off) as Hl by (rewrite length_take; lia).
  rewrite Hl, Nat.sub_diag. cbn [repeat]. rewrite app_nil_r, take_take, Nat.min_id.
  rewrite (drop_ge (take off d)) by lia. rewrite app_nil_r. apply take_take_drop.
Qed.

Section Reassembly.
Context {TG : Target} {SHA : Sha256}.
Variables (src : source) (cs : N) (chunks : gmap N bytes).
Hypothesis Hcs : (0 < cs)%N.

Abbreviation files := (entry_of <$> src).

Lemma slice_step (d : bytes) k :
  (N.of_nat k * cs < len d)%N →
  write_at (take (N.to_nat (N.of_nat k * cs)) d) (N.to_nat (N.of_nat k * cs))
    (slice d (N.of_nat k * cs) (N.min cs (len d - N.of_nat k * cs))) =
  take (N.to_nat (N.of_nat (S k) * cs)) d.
Proof.
  intros Hk. unfold len in *. unfold slice. rewrite write_next by lia.
  destruct (N.le_gt_cases cs (N.of_nat (length d) - N.of_nat k * cs)).
  - f_equal. lia.
  - rewrite !take_ge by lia. done.
Qed.

(** One chunk of a file whose first [k] chunks are in place. *)
Lemma assemble_one idx x plan k seq t :
  src !! idx = Some x → is_ok (safe_relative_path (fst x)) = true →
  (N.of_nat k * cs < len (snd x))%N →
  blocked t (comps_of (fst x)) = false →
  default [] (t !! comps_of (fst x)) = take (N.to_nat (N.of_nat k * cs)) (snd x) →
  chunks !! N.of_nat seq = Some (chunk_data src (file_chunk idx (len (snd x)) cs k)) →
  assemble files chunks (file_chunk idx (len (snd x)) cs k :: plan) seq t =
  assemble files chunks plan (S seq) (<[comps_of (fst x) := take (N.to_nat (N.of_nat (S k) * cs)) (snd x)]> t).
Proof.
  intros Hx Hp Hlt Hb Ht Hc. unfold file_chunk at 1. cbn [assemble]. rewrite Hc.
  unfold chunk_data, file_chunk. rewrite Hx.
  rewrite (proj2 (N.eqb_eq _ _)) by (unfold slice, len in *; rewrite length_take, length_drop; lia).
  cbn [negb]. rewrite list_lookup_fmap, Hx. cbn [fmap option_fmap option_map entry_of fe_path].
  unfold comps_of in Hb, Ht |- *. destruct (safe_relative_path (fst x)) as [p|]; [|done].
  unfold fs_write_at. by rewrite Hb, Ht, slice_step.
Qed.

(** The chunks of one file, from the [k]th on. *)
Lemma assemble_file idx x rest n : ∀ k seq t,
  src !! idx = Some x → is_ok (safe_relative_path (fst x)) = true →
  (k + S n)%nat = N.to_nat (div_ceil (len (snd x)) cs) →
  blocked t (comps_of (fst x)) = false →
  default [] (t !! comps_of (fst x)) = take (N.to_nat (N.of_nat k * cs)) (snd x) →
  holds src chunks (file_chunk idx (len (snd x)) cs <$> List.seq k (S n)) seq →
  assemble files chunks ((file_chunk idx (len (snd x)) cs <$> List.seq k (S n)) ++ rest) seq t =
  assemble files chunks rest (seq + S n) (<[comps_of (fst x) := snd x]> t).
Proof.
  induction n as [|n IH]; intros k seq t Hx Hp Hn Hb Ht Hh;
    pose proof (div_ceil_lt (len (snd x)) cs (N.of_nat k) Hcs) as Hk;
    pose proof (div_ceil_lt (len (snd x)) cs (N.of_nat (S k)) Hcs) as Hk'.
  - cbn [List.seq fmap list_fmap app] in *. apply holds_cons in Hh as [H0 _].
    rewrite assemble_one by (done || (apply Hk; lia)).
    rewrite Nat.add_1_r. do 2 f_equal. apply take_ge. unfold len in *. lia.
  - change (List.seq k (S (S n))) with (k :: List.seq (S k) (S n)) in *.
    rewrite fmap_cons in *. apply holds_cons in Hh as [H0 Hh]. rewrite <- app_comm_cons.
    rewrite assemble_one by (done || (apply Hk; lia)).
    rewrite (IH (S k) (S seq)); [|done|done|lia| | |done].
    + rewrite insert_insert_eq. f_equal. lia.
    + apply blocked_false. intros q [y Hq]. apply lookup_insert_Some in Hq as [[<- _]|[_ Hq]].
      * by rewrite proper_prefix_refl.
      * rewrite blocked_false in Hb. apply Hb. by exists y.
    + by rewrite lookup_insert_eq.
Qed.

Definition ins (t : tree) (x : path * bytes) : tree := <[fst x := snd x]> t.

Definition nonempties (s : source) : list (path * bytes) := filter (λ x, snd x ≠ []) (keyed <$> s).
Definition empties (s : source) : list (path * bytes) := filter (λ x, snd x = []) (keyed <$> s).

(** A tree that holds files of the source only blocks none of them. *)
Definition within (t : tree) : Prop := ∀ q, is_Some (t !! q) → ∃ x, x ∈ src ∧ q = comps_of (fst x).

Hypothesis Hsrc : source_ok src.

Lemma within_unblocked t x : within t → x ∈ src → blocked t (comps_of (fst x)) = false.
Proof.
  intros Hw Hx. apply blocked_false. intros q Hq. destruct (Hw q Hq) as (y & Hy & ->).
  split; by apply Hsrc.
Qed.

Lemma within_insert t x d : within t → x ∈ src → within (<[comps_of (fst x) := d]> t).
Proof.
  intros Hw Hx q [y Hq]. apply lookup_insert_Some in Hq as [[<- _]|[_ Hq]]; [by exists x|].
  apply Hw. by exists y.
Qed.

Lemma make_empty_spec s t :
  (∀ x, x ∈ s → x ∈ src) → within t →
  make_empty (entry_of <$> s) t = Ok (foldl ins t (empties s)) ∧ within (foldl ins t (empties s)).
Proof.
  revert t. induction s as [|x s IH]; intros t Hs Hw; [done|].
  assert (x ∈ src) as Hx by (apply Hs; by left).
  cbn [fmap list_fmap make_empty entry_of fe_size fe_path]. unfold empties. rewrite fmap_cons, filter_cons.
  destruct (N.eqb_spec (len (snd x)) 0) as [E|E].
  - assert (snd x = []) as Ex by (destruct (snd x); [done|unfold len in E; cbn in E; lia]).
    rewrite decide_True by done. cbn [foldl].
    destruct (proj1 (Forall_forall _ _) (proj1 Hsrc) x Hx) as [Hp _].
    pose proof (within_unblocked t x Hw Hx) as Hb.
    pose proof (within_insert t x [] Hw Hx) as Hwi.
    unfold ins at 2 4, keyed. cbn [fst snd]. rewrite Ex. unfold comps_of in Hb, Hwi |- *.
    destruct (safe_relative_path (fst x)) as [p|]; [|done]. unfold fs_write. rewrite Hb.
    apply IH; [|done]. intros y Hy. apply Hs. by right.
  - rewrite decide_False by (cbn; intros Ex; rewrite Ex in E; by cbn in E).
    apply IH; [|done]. intros y Hy. apply Hs. by right.
Qed.

Lemma assemble_spec pre s : ∀ t seq,
  src = pre ++ s → within t → (∀ x, x ∈ s → snd x ≠ [] → t !! comps_of (fst x) = None) →
  holds src chunks (reference_plan (length pre) (entry_of <$> s) cs) seq →
  assemble files chunks (reference_plan (length pre) (entry_of <$> s) cs) seq t =
  Ok (foldl ins t (nonempties s)).
Proof.
  revert pre. induction s as [|x s IH]; intros pre t seq E Hw Ht Hh; [done|].
  assert (x ∈ src) as Hx by (rewrite E, elem_of_app; right; by left).
  assert (src !! length pre = Some x) as Hl by (rewrite E; by apply list_lookup_middle).
  destruct (proj1 (Forall_forall _ _) (proj1 Hsrc) x Hx) as [Hp _].
  assert (∀ y, y ∈ s → comps_of (fst y) ≠ comps_of (fst x)) as Hfresh.
  { intros y Hy Ey. destruct Hsrc as (_ & Hnd & _). rewrite E, fmap_app, fmap_cons in Hnd.
    apply NoDup_app in Hnd as (_ & _ & Hnd). apply NoDup_cons in Hnd as [Hnd _]. apply Hnd.
    apply list_elem_of_fmap. exists y. by split. }
  assert (∀ t seq, within t → (∀ y, y ∈ s → snd y ≠ [] → t !! comps_of (fst y) = None) →
    holds src chunks (reference_plan (S (length pre)) (entry_of <$> s) cs) seq →
    assemble files chunks (reference_plan (S (length pre)) (entry_of <$> s) cs) seq t =
    Ok (foldl ins t (nonempties s))) as IH'.
  { intros t' seq' Hw' Ht' Hh'. specialize (IH (pre ++ [x])). rewrite length_app in IH.
    cbn [length] in IH. rewrite Nat.add_1_r in IH. apply IH; [by rewrite <- app_assoc|done..]. }
  cbn [fmap list_fmap reference_plan entry_of fe_size] in *. unfold file_chunks in *.
  unfold nonempties. rewrite fmap_cons, filter_cons.
  destruct (decide (snd x = [])) as [Ex|Ex].
  - rewrite decide_False by (intros Hne; by apply Hne). rewrite Ex in *.
    change (div_ceil (len []) cs) with (div_ceil 0 cs) in *.
    assert (div_ceil 0 cs = 0%N) as Ez by (unfold div_ceil; by rewrite N.Div0.mod_0_l, N.Div0.div_0_l).
    rewrite Ez in *. cbn [N.to_nat List.seq fmap list_fmap app] in *. apply IH'; [done| |done].
    intros y Hy. apply Ht. by right.
  - rewrite decide_True by done. cbn [foldl]. change (ins t (keyed x)) with (<[comps_of (fst x) := snd x]> t).
    pose proof (div_ceil_lt (len (snd x)) cs 0 Hcs) as Hpos.
    assert (0 < len (snd x))%N by (destruct (snd x); [done|unfold len; cbn; lia]).
    destruct (N.to_nat (div_ceil (len (snd x)) cs)) as [|n] eqn:En; [lia|].
    apply holds_app in Hh as [Hh1 Hh2]. rewrite length_fmap, length_seq in Hh2.
    rewrite (assemble_file (length pre) x _ n 0 seq t); try done.
    + apply IH'; [by apply within_insert| |done].
      intros y Hy Hne. rewrite lookup_insert_ne by (intros Eq; by apply (Hfresh y Hy)). apply Ht; [by right|done].
    + by apply within_unblocked.
    + rewrite (Ht x) by (done || by left). done.
Qed.

Lemma foldl_ins t l : NoDup (fst <$> l) → foldl ins t l = list_to_map l ∪ t.
Proof.
  revert t. induction l as [|[p d] l IH]; intros t Hnd; cbn [foldl].
  - by rewrite list_to_map_nil, (left_id_L ∅ (∪)).
  - rewrite fmap_cons in Hnd. apply NoDup_cons in Hnd as [Hp Hnd]. rewrite IH by done.
    unfold ins. cbn [fst snd]. rewrite list_to_map_cons, <- insert_union_l, <- insert_union_r; [done|].
    by apply not_elem_of_list_to_map.
Qed.

Lemma sorted_tree : foldl ins (foldl ins ∅ (empties src)) (nonempties src) = source_tree src.
Proof.
  destruct Hsrc as (_ & Hnd & _). rewrite list_fmap_compose in Hnd.
  assert (∀ P `{∀ x, Decision (P x)}, NoDup (fst <$> filter P (keyed <$> src))) as Hf.
  { intros P HP. eapply sublist_NoDup; [done|]. apply fmap_sublist, sublist_filter. }
  rewrite !foldl_ins by apply Hf. rewrite (right_id_L ∅ (∪)). unfold source_tree.
  assert (nonempties src ++ empties src ≡ₚ keyed <$> src) as Hperm.
  { etrans; [apply Permutation_app_comm|]. apply (filter_app_complement (λ x, snd x = [])). }
  rewrite <- list_to_map_app. apply list_to_map_proper; [|done]. by rewrite Hperm.
Qed.

Lemma verify_source s t :
  (∀ x, x ∈ s → is_ok (safe_relative_path (fst x)) = true ∧ t !! comps_of (fst x) = Some (snd x)) →
  verify_files (entry_of <$> s) t = Ok tt.
Proof.
  induction s as [|x s IH]; intros H; [done|]. cbn [fmap list_fmap verify_files entry_of fe_path fe_size fe_sha256].
  destruct (H x) as [Hp Hd]; [by left|]. unfold comps_of in Hd.
  destruct (safe_relative_path (fst x)) as [p|]; [|done]. rewrite Hd, N.eqb_refl, bool_decide_true by done.
  cbn [negb]. apply IH. intros y Hy. apply H. by right.
Qed.

Lemma source_tree_lookup x : x ∈ src → source_tree src !! comps_of (fst x) = Some (snd x).
Proof.
  intros Hx. destruct Hsrc as (_ & Hnd & _). rewrite list_fmap_compose in Hnd.
  apply elem_of_list_to_map_1; [done|]. apply list_elem_of_fmap. by exists x.
Qed.

Lemma reassemble m :
  is_64bit → tb_files m = files → tb_chunk_size m = cs →
  holds src chunks (reference_plan 0 files cs) 0 →
  assembled m chunks = Ok (source_tree src).
Proof.
  intros H64 Ef Ec Hh. unfold assembled. rewrite Ef, Ec, plan_chunks_eq; [|done| |done].
  2: { apply Forall_fmap. eapply Forall_impl; [apply Hsrc|]. intros x [_ Hx]. done. }
  assert (within ∅) as H0 by (intros q [y Hq]; by rewrite lookup_empty in Hq).
  destruct (make_empty_spec src ∅) as [-> Hw]; [done..|]. cbn [res_bind].
  rewrite (assemble_spec [] src); [|done..| |done].
  - cbn [res_bind]. rewrite sorted_tree, verify_source; [done|].
    intros x Hx. split; [|by apply source_tree_lookup].
    by apply (proj1 (Forall_forall _ _) (proj1 Hsrc) x Hx).
  - intros x Hx Hne. rewrite foldl_ins.
    2: { eapply sublist_NoDup; [|apply fmap_sublist, sublist_filter]. rewrite <- list_fmap_compose. apply Hsrc. }
    rewrite (right_id_L ∅ (∪)). apply not_elem_of_list_to_map. intros Hin.
    apply list_elem_of_fmap in Hin as ([p d] & Ep & Hin). apply list_elem_of_filter in Hin as [Ed Hin].
    cbn in Ep, Ed. subst. destruct Hsrc as (_ & Hnd & _). rewrite list_fmap_compose in Hnd.
    apply (elem_of_list_to_map_1 (M := gmap path)) in Hin; [|done].
    change (source_tree src !! comps_of (fst x) = Some []) in Hin.
    rewrite source_tree_lookup in Hin by done. congruence.
Qed.
End Reassembly.

(** ** Properties *)

(** Also: On a 64-bit target the plan exists (the loop ends) and is the one described:
    per file, in order, the chunks at the multiples of the chunk size, the last one
    cut at the end of the file, none for an empty file; and the count that both
    sides compare is its length. *)
Theorem plan_chunks_spec {TG : Target} files chunk :
  is_64bit → Forall (λ f, u64 (fe_size f)) files → (0 < chunk)%N →
  plan_chunks files chunk = Some (reference_plan 0 files chunk) ∧
  chunk_count files chunk = N.min usize_max (N.of_nat (length (reference_plan 0 files chunk))).
Proof.
  intros H64 Hf Hc. split; [by apply plan_chunks_eq|]. by rewrite reference_plan_length, chunk_count_eq.
Qed.

(** Also: Cutting and reassembling give the files back: when the chunk files hold the
    pieces of the sources that the plan names, in whatever order they came,
    assembly succeeds, verification included, and the tree is exactly the sources. *)
Theorem reassembly_exact {TG : Target} {SHA : Sha256} src m chunks plan :
  is_64bit → source_ok src → tb_files m = entry_of <$> src → (0 < tb_chunk_size m)%N →
  plan_chunks (tb_files m) (tb_chunk_size m) = Some plan → holds src chunks plan 0 →
  assembled m chunks = Ok (source_tree src).
Proof.
  intros H64 Hs Hf Hc Hp Hh. apply (reassemble src (tb_chunk_size m) chunks); try done.
  rewrite plan_chunks_eq in Hp; [|done| |done]; [rewrite Hf in Hp; by injection Hp as <-|].
  rewrite Hf. apply Forall_fmap. eapply Forall_impl; [apply Hs|]. by intros x [_ Hx].
Qed.

(** Also: Whatever requests peers send, served one after another, in any order and with any
    failures of writing chunks, every entry of the inbox is complete and verified: it stands under the
    sanitized name of its task, every file of its manifest is there with the
    declared size and digest, and every file it has is one of the manifest, at a
    path of ordinary components, so inside the directory. *)
Theorem inbox_verified {TG : Target} {SHA : Sha256} {B64 : Base64} max dedup es k l :
  sk_inbox (sink_run (new_sink max dedup) es) !! k = Some l →
  k = sanitize_path_segment (tb_task_id (ld_manifest l)) ∧
  (∀ f, f ∈ tb_files (ld_manifest l) →
     ∃ p d, safe_relative_path (fe_path f) = Ok p ∧ ld_files l !! p = Some d ∧
       len d = fe_size f ∧ sha256_hex d = fe_sha256 f) ∧
  (∀ p, is_Some (ld_files l !! p) → p ≠ [] ∧ Forall inside p ∧
     ∃ f, f ∈ tb_files (ld_manifest l) ∧ safe_relative_path (fe_path f) = Ok p).
Proof.
  intros Hl. destruct (sink_run_inv _ es (new_sink_inv max dedup)) as [_ Hi].
  destruct (Hi k l Hl) as (Hk & Hf & Hp). split; [done|]. split; [done|].
  intros p Hd. destruct (Hp p Hd) as (f & Hin & Hs).
  destruct (safe_relative_path_Ok _ _ Hs) as (Hne & Hins & _). repeat split; [done..|by exists f].
Qed.

(** Also: What [begin] admits is bounded by the limit: with a limit below 2^64 - 1 in
    force, the sizes of the files add up to the declared total, without wrapping,
    and stay within the limit; chunks have a positive size and their declared number
    is that of the plan; every path passes the fence. *)
Theorem begin_admits {TG : Target} {SHA : Sha256} {B64 : Base64} req s s' have :
  begin req s = (s', BeginOk have) → (0 < sk_max_bytes s < u64_max)%N →
  total_size (tb_files req) = tb_total_bytes req ∧ (tb_total_bytes req ≤ sk_max_bytes s)%N ∧
  (0 < tb_chunk_size req)%N ∧ tb_chunk_count req = chunk_count (tb_files req) (tb_chunk_size req) ∧
  Forall (λ f, is_ok (safe_relative_path (fe_path f)) = true) (tb_files req) ∧
  (is_64bit → N.of_nat (length have) ≤ total_chunks (tb_files req) (tb_chunk_size req))%N.
Proof.
  intros Hb Hlim. unfold begin in Hb.
  destruct ((0 <? sk_max_bytes s) && (sk_max_bytes s <? tb_total_bytes req))%N eqn:El; [done|].
  destruct (validate_manifest req) as [[]|] eqn:Ev; [|done].
  apply validate_manifest_Ok in Ev as (_ & _ & _ & Hc & Ht & Hn & Hf).
  assert (tb_total_bytes req ≤ sk_max_bytes s)%N.
  { apply andb_false_iff in El as [E|E]; [apply N.ltb_ge in E; lia|by apply N.ltb_ge in E]. }
  assert (total_size (tb_files req) = tb_total_bytes req) as Hts by lia.
  repeat split; try done. intros H64.
  assert (tb_chunk_count req ≤ total_chunks (tb_files req) (tb_chunk_size req))%N as Hle.
  { rewrite Hn, chunk_count_eq; [lia|done| |done].
    apply Forall_forall. intros f Hin. unfold u64. transitivity (total_size (tb_files req)); [|lia].
    clear -Hin. induction (tb_files req) as [|g files IH]; [by apply elem_of_nil in Hin|].
    change (total_size (g :: files)) with (fe_size g + total_size files)%N.
    apply elem_of_cons in Hin as [->|Hin]; [lia|]. specialize (IH Hin). lia. }
  match type of Hb with (if ?b then _ else _) = _ => destruct b; [done|] end.
  match type of Hb with match ?o with Some _ => _ | None => _ end = _ => destruct o as [chunks|] end;
    injection Hb as _ <-; [|cbn; lia].
  unfold list_received_chunks. etrans; [|exact Hle].
  pose proof (List.filter_length_le (λ q, bool_decide (is_Some (chunks !! q))) (N.of_nat <$> seq 0 (N.to_nat (tb_chunk_count req)))) as Hl.
  rewrite length_fmap, length_seq in Hl. lia.
Qed.

(** Also: A refused request changes nothing, except a chunk whose file could not be
    written; and an [end] whose answer was lost can be sent again: it gets the same
    answer and the sink stays as it is. *)
Theorem refusals_and_replay {TG : Target} {SHA : Sha256} {B64 : Base64} s :
  (∀ req s' e, begin req s = (s', BeginError e) → s' = s) ∧
  (∀ w req s' e, chunk w req s = (s', Err e) → e ≠ ChunkWrite → s' = s) ∧
  (∀ now id s' e, end_transfer now id s = (s', Err e) → s' = s) ∧
  (∀ now now' id s' r, end_transfer now id s = (s', Ok r) → end_transfer now' id s' = (s', Ok r)).
Proof.
  split; [|split; [|split]].
  - intros req s' e. unfold begin. repeat break_match; try done; by intros [= <- _].
  - intros w req s' e. unfold chunk. repeat break_match; try done; intros [= <- <-]; done.
  - intros now id s' e. unfold end_transfer. repeat break_match; try done; by intros [= <- _].
  - intros now now' id s' r. unfold end_transfer.
    destruct (sk_staging s !! _) as [[[m|] chunks]|] eqn:E; [|done|].
    + destruct (assembled m chunks) as [t|]; [|done]. intros [= <- <-]. cbn [sk_staging sk_done land].
      by rewrite lookup_delete_eq, lookup_insert_eq.
    + destruct (sk_done s !! _) as [r'|] eqn:Ed; [|done]. intros [= <- <-]. by rewrite E, Ed.
Qed.

(** Observed: On a 32-bit target [f.size - off] is cut to 32 bits: where a multiple
    of 4 GiB is left of a file, the loop of [plan_chunks] appends empty chunks for
    ever. *)
Theorem plan_stalls_32bit {TG : Target} idx size chunk fuel :
  usize_max = (2 ^ 32 - 1)%N → (0 < size)%N → (size mod 2 ^ 32 = 0)%N →
  plan_file fuel idx size chunk 0 = None.
Proof.
  intros H32 Hs Hm. induction fuel as [|fuel IH]; cbn [plan_file];
    rewrite (proj2 (N.ltb_lt 0 size)) by done; [done|].
  unfold as_usize. rewrite H32, N.sub_0_r. change (2 ^ 32 - 1 + 1)%N with (2 ^ 32)%N.
  by rewrite Hm, N.min_0_l, N.add_0_l, IH.
Qed.

(** Observed: The declared chunk size bounds a chunk, but nothing bounds the
    declared chunk size: under a limit of one byte a peer can still store any data
    as the chunk of a file of one byte. *)
Theorem chunk_size_unbounded {TG : Target} {SHA : Sha256} {B64 : Base64} data :
  ∃ req, tb_total_bytes req = 1%N ∧
    let s := fst (begin req (new_sink 1 ∅)) in
    snd (begin req (new_sink 1 ∅)) = BeginOk [] ∧
    snd (chunk WriteOk (mkChunk (lit "t") 0 1 (b64_encode data) (sha256_hex data)) s) = Ok tt.
Proof.
  exists (mkBegin (lit "t") (lit "t") [] [] 1 (N.max 1 (len data)) 1 [mkEntry (lit "a") 1 []] (lit "h")).
  split; [done|]. cbv zeta.
  set (req := mkBegin _ _ _ _ _ _ _ _ _).
  assert (chunk_count (tb_files req) (tb_chunk_size req) = 1%N) as Hc.
  { cbn. unfold sat_add, as_usize, div_ceil. pose proof usize_ge_u32.
    destruct (N.eqb_spec (1 mod N.max 1 (len data)) 0) as [E|E].
    - assert (N.max 1 (len data) = 1%N) as ->.
      { destruct (N.le_gt_cases (N.max 1 (len data)) 1); [lia|]. rewrite N.mod_small in E by lia. done. }
      rewrite N.div_1_r, N.mod_small by lia. lia.
    - assert (1 < N.max 1 (len data))%N.
      { destruct (N.le_gt_cases (N.max 1 (len data)) 1); [|done].
        replace (N.max 1 (len data)) with 1%N in E by lia. done. }
      rewrite N.div_small, N.add_0_l, N.mod_small by lia. lia. }
  assert (validate_manifest req = Ok tt) as Hv.
  { unfold validate_manifest. rewrite Hc. cbn [tb_transfer_id tb_task_id tb_files tb_chunk_size req].
    rewrite bool_decide_false, bool_decide_false by done. cbn [orb].
    rewrite (proj2 (N.eqb_neq _ _)) by lia. reflexivity. }
  assert (begin req (new_sink 1 ∅) =
    (set_staging (sanitize_transfer_id (lit "t")) (Some (mkStaging (Some req) ∅)) (new_sink 1 ∅), BeginOk [])) as Hb.
  { unfold begin. rewrite Hv. reflexivity. }
  rewrite Hb. split; [done|]. cbn [fst]. unfold chunk. cbn [tc_data_b64 tc_sha256 tc_transfer_id].
  rewrite b64_decode_encode, bool_decide_true by done. cbn [negb].
  rewrite lookup_set_staging, bool_decide_true by done. cbn [tb_chunk_count tb_chunk_size req tc_seq].
  rewrite (proj2 (N.ltb_ge _ (len data))) by lia. done.
Qed.

(** ** Witnesses *)

Definition toy_b64 : Base64.
Proof. refine {| b64_encode d := d; b64_decode s := Some s |}. abstract done. Defined.

#[local] Existing Instance target64.
#[local] Existing Instance toy_sha.
#[local] Existing Instance toy_b64.

Definition demo_source : list (str * bytes) := [(lit "a/b", [1; 2; 3; 4; 5]%N); (lit "c", [])].

Definition demo_begin : TransferBegin :=
  mkBegin (lit "t1") (lit "task") [] (lit "n") 5 2 3 (entry_of <$> demo_source) (lit "h").

Definition demo_chunk (seq : N) (d : bytes) : TransferChunk :=
  mkChunk (lit "t1") seq 3 (b64_encode d) (sha256_hex d).

(** Chunks out of order, one repeated. *)
Definition demo_events : list SinkEvent :=
  [EvBegin demo_begin; EvChunk WriteOk (demo_chunk 2 [5%N]); EvChunk WriteOk (demo_chunk 0 [1; 2]%N);
   EvChunk WriteOk (demo_chunk 0 [1; 2]%N); EvChunk WriteOk (demo_chunk 1 [3; 4]%N); EvEnd [] (lit "t1")].

Lemma demo_source_ok : source_ok demo_source.
Proof.
  split; [|split].
  - repeat constructor; vm_compute; discriminate.
  - apply (bool_decide_unpack _). vm_compute. exact I.
  - assert (Forall (λ x, Forall (λ y, proper_prefix (comps_of (fst x)) (comps_of (fst y)) = false) demo_source) demo_source) as H
      by repeat constructor.
    intros x y Hx Hy. rewrite Forall_forall in H. specialize (H x Hx). rewrite Forall_forall in H. by apply H.
Qed.

Lemma plan_chunks_spec_witness :
  plan_chunks [mkEntry [] 5 []; mkEntry [] 0 []; mkEntry [] 4 []] 2 =
  Some [(0, 0%N, 2%N); (0, 2%N, 2%N); (0, 4%N, 1%N); (2, 0%N, 2%N); (2, 2%N, 2%N)].
Proof.
  rewrite (proj1 (plan_chunks_spec (TG := target64) [mkEntry [] 5 []; mkEntry [] 0 []; mkEntry [] 4 []] 2
    ltac:(vm_compute; discriminate) ltac:(repeat constructor; vm_compute; discriminate) ltac:(lia))).
  reflexivity.
Defined.

Lemma reassembly_exact_witness :
  let chunks : gmap N bytes := <[2%N := [5%N]]> (<[0%N := [1; 2]%N]> (<[1%N := [3; 4]%N]> ∅)) in
  assembled demo_begin chunks = Ok (source_tree demo_source) ∧
  source_tree demo_source !! [lit "a"; lit "b"] = Some [1; 2; 3; 4; 5]%N.
Proof.
  split; [|reflexivity].
  apply (reassembly_exact demo_source demo_begin _ (reference_plan 0 (tb_files demo_begin) 2)).
  - vm_compute. discriminate.
  - exact demo_source_ok.
  - reflexivity.
  - cbn. lia.
  - reflexivity.
  - intros [|[|[|j]]] c Hc; cbn in Hc; try (injection Hc as <-; reflexivity). by destruct j.
Defined.

Lemma inbox_verified_witness :
  ∃ l, sk_inbox (sink_run (new_sink 100 ∅) demo_events) !! lit "task" = Some l ∧
    lit "task" = sanitize_path_segment (tb_task_id (ld_manifest l)) ∧
    ld_files l !! [lit "a"; lit "b"] = Some [1; 2; 3; 4; 5]%N.
Proof.
  destruct (sk_inbox (sink_run (new_sink 100 ∅) demo_events) !! lit "task") as [l|] eqn:E;
    [|vm_compute in E; discriminate].
  exists l. split; [reflexivity|].
  split; [exact (proj1 (inbox_verified 100 ∅ demo_events (lit "task") l E))|].
  vm_compute in E. injection E as <-. reflexivity.
Defined.

Lemma begin_admits_witness :
  ∃ s' have, begin demo_begin (new_sink 100 ∅) = (s', BeginOk have) ∧ total_size (tb_files demo_begin) = 5%N.
Proof.
  destruct (begin demo_begin (new_sink 100 ∅)) as [s' r] eqn:E.
  assert (r = BeginOk []) as -> by (vm_compute in E; by injection E).
  exists s', []. split; [reflexivity|].
  exact (proj1 (begin_admits demo_begin (new_sink 100 ∅) s' [] E ltac:(split; vm_compute; reflexivity))).
Defined.

Lemma refusals_and_replay_witness :
  let s := sink_run (new_sink 100 ∅) (take 5 demo_events) in
  let s' := fst (end_transfer [] (lit "t1") s) in
  end_transfer [] (lit "t1") s' = (s', Ok (mkEndReply 2 5)).
Proof.
  cbv zeta. destruct (refusals_and_replay (sink_run (new_sink 100 ∅) (take 5 demo_events))) as (_ & _ & _ & H).
  apply (H [] [] (lit "t1")). vm_compute. reflexivity.
Defined.

(** Observed: Two tasks whose sanitized names agree share a directory of the inbox,
    and deduplication looks only at whether the directory is there: after the
    second task has replaced the first one's files, the first one's transfer is
    still answered as already delivered. *)
Theorem dedup_after_replacement :
  let mk task d hash := mkBegin (task ++ hash) task [] [] 0 1 0 [mkEntry d 0 (sha256_hex [])] hash in
  let a := mk (lit "a:b") (lit "first") (lit "h1") in
  let b := mk (lit "a_b") (lit "second") (lit "h2") in
  let s := sink_run (new_sink 100 ∅)
    [EvBegin a; EvEnd [] (tb_transfer_id a); EvBegin b; EvEnd [] (tb_transfer_id b)] in
  snd (begin a s) = BeginDedup ∧
  (∃ l, sk_inbox s = {[ lit "a_b" := l ]} ∧ ld_files l !! [lit "first"] = None).
Proof.
  cbv zeta. split; [vm_compute; reflexivity|]. eexists. split; [vm_compute; reflexivity|]. reflexivity.
Qed.
