(* ===== verification/TransferRuns.v ===== *)
(** * Transfers served at the same time (nemesis-cluster/src/transfer.rs, rpc/server.rs)

    A request of the transfer channel as the accesses to the disk it makes one after the
    other, for connections are served at the same time and the sink holds no lock; runs
    in which the accesses of any number of requests interleave, with the sweeping of
    staging directories, the taking of inbox directories and restarts of the process in
    between; and that a request which is served alone is the operation of [Transfer]. *)
From S2P Require Import Prelude RustStr Merkle Frame Sanitize Transfer.
Local Open Scope nb_scope.

Abbreviation tree := (gmap (list str) bytes) (only parsing).

(** A directory of the inbox: [files/], [manifest.json], and whether [landed.json] is there. *)
Record InboxDir := mkDir {
  id_files : tree;
  id_manifest : option TransferBegin;
  id_receipt : bool;
}.

(** What requests share: the sink, and the directory [out/files] of a staging directory. *)
Record Disk := mkDisk {
  dk_max : N;
  dk_dedup : gmap str DedupEntry;
  dk_staging : gmap str Staging;
  dk_outs : gmap str tree;
  dk_inbox : gmap str InboxDir;
  dk_done : gmap str EndReply;
}.

Definition with_staging (D : Disk) (k : str) (g : option Staging) : Disk :=
  mkDisk (dk_max D) (dk_dedup D) (partial_alter (λ _, g) k (dk_staging D)) (dk_outs D) (dk_inbox D) (dk_done D).

Definition with_out (D : Disk) (k : str) (t : option tree) : Disk :=
  mkDisk (dk_max D) (dk_dedup D) (dk_staging D) (partial_alter (λ _, t) k (dk_outs D)) (dk_inbox D) (dk_done D).

Definition with_inbox (D : Disk) (d : str) (i : option InboxDir) : Disk :=
  mkDisk (dk_max D) (dk_dedup D) (dk_staging D) (dk_outs D) (partial_alter (λ _, i) d (dk_inbox D)) (dk_done D).

(** A staging directory goes with all it holds. *)
Definition remove_staging (D : Disk) (k : str) : Disk := with_out (with_staging D k None) k None.

(** [create_dir_all] of a staging directory. *)
Definition create_staging (D : Disk) (k : str) : Disk :=
  with_staging D k (Some (default (mkStaging None ∅) (dk_staging D !! k))).

(** [write_staging_manifest] into a staging directory, and into one of the inbox. *)
Definition write_staging_manifest (D : Disk) (k : str) (m : TransferBegin) : Disk :=
  with_staging D k (Some (mkStaging (Some m) (default ∅ (sg_chunks <$> dk_staging D !! k)))).

Definition write_landed_manifest (D : Disk) (d : str) (m : TransferBegin) : Disk :=
  let dir := default (mkDir ∅ None false) (dk_inbox D !! d) in
  with_inbox D d (Some (mkDir (id_files dir) (Some m) (id_receipt dir))).

Inductive Answer :=
| AnsBegin (r : BeginReply)
| AnsChunk (r : result unit ChunkError)
| AnsEnd (r : result EndReply EndError).

(** Where a request is: what it does next. *)
Inductive Phase :=
| PhBegin (req : TransferBegin)
| PhDedup (req : TransferBegin)
| PhProbe (req : TransferBegin)
| PhResume (req : TransferBegin)
| PhList (req : TransferBegin)
| PhClear (req : TransferBegin)
| PhCreate (req : TransferBegin)
| PhManifest (req : TransferBegin)
| PhChunk (w : WriteOutcome) (req : TransferChunk)
| PhChunkRead (w : WriteOutcome) (req : TransferChunk) (data : bytes)
| PhPut (w : WriteOutcome) (req : TransferChunk) (data : bytes)
| PhEnd (now transfer_id : str)
| PhReplay (k : str)
| PhEndRead (now k : str)
| PhOut (now k : str) (m : TransferBegin)
| PhEmpty (now k : str) (m : TransferBegin) (plan : list (nat * N * N)) (files : list TransferFileEntry)
| PhChunks (now k : str) (m : TransferBegin) (plan : list (nat * N * N)) (seq : nat)
| PhVerify (now k : str) (m : TransferBegin) (files : list TransferFileEntry)
| PhOld (now k : str) (m : TransferBegin)
| PhRename (now k : str) (m : TransferBegin)
| PhLanded (now k : str) (m : TransferBegin)
| PhReceipt (now k : str) (m : TransferBegin)
| PhIndex (now k : str) (m : TransferBegin)
| PhUnstage (k : str) (m : TransferBegin)
| PhDone (k : str) (m : TransferBegin)
| Answered (a : Answer).

Section Serving.
Context {TG : Target} {SHA : Sha256} {B64 : Base64}.

Definition inbox_key (m : TransferBegin) : str := safe_task_file_name (tb_task_id m).

Definition reply_of (m : TransferBegin) : EndReply := mkEndReply (length (tb_files m)) (tb_total_bytes m).

(** The accesses of [begin]. *)
Definition begin_step (D : Disk) (p : Phase) : Disk * Phase :=
  match p with
  | PhBegin req =>
      let limit := dk_max D in
      if ((0 <? limit) && (limit <? tb_total_bytes req))%N then (D, Answered (AnsBegin BeginOverLimit))
      else match validate_manifest req with
           | Err e => (D, Answered (AnsBegin (BeginError e)))
           | Ok _ => (D, PhDedup req)
           end
  | PhDedup req =>
      let landed := match dk_inbox D !! inbox_key req with Some dir => id_receipt dir | None => false end in
      match dk_dedup D !! tb_task_id req with
      | Some entry =>
          if bool_decide (de_content_hash entry = tb_content_hash req) && landed
          then (D, Answered (AnsBegin BeginDedup)) else (D, PhProbe req)
      | None => (D, PhProbe req)
      end
  | PhProbe req =>
      match dk_staging D !! sanitize_transfer_id (tb_transfer_id req) ≫= sg_manifest with
      | Some m => if bool_decide (tb_content_hash m = tb_content_hash req) then (D, PhResume req) else (D, PhClear req)
      | None => (D, PhClear req)
      end
  | PhResume req => (write_staging_manifest D (sanitize_transfer_id (tb_transfer_id req)) req, PhList req)
  | PhList req =>
      let chunks := default ∅ (sg_chunks <$> dk_staging D !! sanitize_transfer_id (tb_transfer_id req)) in
      (D, Answered (AnsBegin (BeginOk (list_received_chunks chunks (tb_chunk_count req)))))
  | PhClear req => (remove_staging D (sanitize_transfer_id (tb_transfer_id req)), PhCreate req)
  | PhCreate req => (create_staging D (sanitize_transfer_id (tb_transfer_id req)), PhManifest req)
  | PhManifest req =>
      (write_staging_manifest D (sanitize_transfer_id (tb_transfer_id req)) req, Answered (AnsBegin (BeginOk [])))
  | _ => (D, p)
  end.

(** Those of [chunk]. *)
Definition chunk_step (D : Disk) (p : Phase) : Disk * Phase :=
  let fail e := (D, Answered (AnsChunk (Err e))) in
  match p with
  | PhChunk w req =>
      match b64_decode (tc_data_b64 req) with
      | None => fail ChunkBase64
      | Some data =>
          if negb (bool_decide (sha256_hex data = tc_sha256 req)) then fail ChunkSha
          else match dk_staging D !! sanitize_transfer_id (tc_transfer_id req) with
               | None => fail ChunkNoStaging
               | Some _ => (D, PhChunkRead w req data)
               end
      end
  | PhChunkRead w req data =>
      match dk_staging D !! sanitize_transfer_id (tc_transfer_id req) ≫= sg_manifest with
      | None => fail ChunkNoManifest
      | Some m =>
          if (tb_chunk_count m <=? tc_seq req)%N then fail ChunkSeq
          else if (tb_chunk_size m <? len data)%N then fail ChunkSize
          else (D, PhPut w req data)
      end
  | PhPut w req data =>
      let k := sanitize_transfer_id (tc_transfer_id req) in
      match dk_staging D !! k with
      | None => fail ChunkWrite
      | Some (mkStaging m chunks) =>
          let put d := with_staging D k (Some (mkStaging m (<[tc_seq req := d]> chunks))) in
          match w with
          | WriteOk => (put data, Answered (AnsChunk (Ok tt)))
          | WriteFailOpen => fail ChunkWrite
          | WriteFailAfter n => (put (take n data), Answered (AnsChunk (Err ChunkWrite)))
          end
      end
  | _ => (D, p)
  end.

(** Those of [end]: a file of the tree at a time. *)
Definition end_step (D : Disk) (p : Phase) : Disk * Phase :=
  let fail e := (D, Answered (AnsEnd (Err e))) in
  match p with
  | PhEnd now id =>
      let k := sanitize_transfer_id id in
      match dk_staging D !! k with
      | None => (D, PhReplay k)
      | Some _ => (D, PhEndRead now k)
      end
  | PhReplay k =>
      match dk_done D !! k with
      | Some reply => (D, Answered (AnsEnd (Ok reply)))
      | None => fail EndNoStaging
      end
  | PhEndRead now k =>
      match dk_staging D !! k ≫= sg_manifest with
      | None => fail EndNoManifest
      | Some m => (D, PhOut now k m)
      end
  | PhOut now k m =>
      let D := with_out (create_staging D k) k (Some ∅) in
      match plan_chunks (tb_files m) (tb_chunk_size m) with
      | None => (D, Answered (AnsEnd (Err EndPlan)))
      | Some plan => (D, PhEmpty now k m plan (tb_files m))
      end
  | PhEmpty now k m plan [] => (D, PhChunks now k m plan 0)
  | PhEmpty now k m plan (f :: files) =>
      match make_empty [f] (default ∅ (dk_outs D !! k)) with
      | Err e => fail e
      | Ok t => (with_out D k (Some t), PhEmpty now k m plan files)
      end
  | PhChunks now k m [] seq => (D, PhVerify now k m (tb_files m))
  | PhChunks now k m (c :: plan) seq =>
      let chunks := default ∅ (sg_chunks <$> dk_staging D !! k) in
      match assemble (tb_files m) chunks [c] seq (default ∅ (dk_outs D !! k)) with
      | Err e => fail e
      | Ok t => (with_out D k (Some t), PhChunks now k m plan (S seq))
      end
  | PhVerify now k m [] => (D, PhOld now k m)
  | PhVerify now k m (f :: files) =>
      match verify_files [f] (default ∅ (dk_outs D !! k)) with
      | Err e => fail e
      | Ok _ => (D, PhVerify now k m files)
      end
  | PhOld now k m => (with_inbox D (inbox_key m) None, PhRename now k m)
  | PhRename now k m =>
      match dk_outs D !! k with
      | None => fail EndWrite
      | Some t =>
          (* a directory that is there is copied into *)
          let dir := default (mkDir ∅ None false) (dk_inbox D !! inbox_key m) in
          (with_inbox (with_out D k None) (inbox_key m) (Some (mkDir (t ∪ id_files dir) (id_manifest dir) (id_receipt dir))),
           PhLanded now k m)
      end
  | PhLanded now k m => (write_landed_manifest D (inbox_key m) m, PhReceipt now k m)
  | PhReceipt now k m =>
      match dk_inbox D !! inbox_key m with
      | None => fail EndWrite
      | Some dir => (with_inbox D (inbox_key m) (Some (mkDir (id_files dir) (id_manifest dir) true)), PhIndex now k m)
      end
  | PhIndex now k m =>
      (mkDisk (dk_max D)
         (<[tb_task_id m := mkDedup (tb_content_hash m) now (length (tb_files m)) (tb_total_bytes m)]> (dk_dedup D))
         (dk_staging D) (dk_outs D) (dk_inbox D) (dk_done D), PhUnstage k m)
  | PhUnstage k m => (remove_staging D k, PhDone k m)
  | PhDone k m =>
      (mkDisk (dk_max D) (dk_dedup D) (dk_staging D) (dk_outs D) (dk_inbox D) (<[k := reply_of m]> (dk_done D)),
       Answered (AnsEnd (Ok (reply_of m))))
  | _ => (D, p)
  end.

Definition phase_step (D : Disk) (p : Phase) : Disk * Phase :=
  match p with
  | PhBegin _ | PhDedup _ | PhProbe _ | PhResume _ | PhList _ | PhClear _ | PhCreate _ | PhManifest _ => begin_step D p
  | PhChunk _ _ | PhChunkRead _ _ _ | PhPut _ _ _ => chunk_step D p
  | _ => end_step D p
  end.

(** ** Runs *)

(** The requests under way, each with its connection. *)
Record Server := mkServer {
  sv_disk : Disk;
  sv_requests : list Phase;
}.

Inductive Request :=
| ReqBegin (req : TransferBegin)
| ReqChunk (w : WriteOutcome) (req : TransferChunk)
| ReqEnd (now transfer_id : str).

Definition arrived (r : Request) : Phase :=
  match r with
  | ReqBegin req => PhBegin req
  | ReqChunk w req => PhChunk w req
  | ReqEnd now id => PhEnd now id
  end.

(** A restart ends every request where it is, and reads the index that was saved. *)
Inductive ServerEvent :=
| Arrives (r : Request)
| Moves (i : nat)
| SetsMax (n : N)
| Sweeps (k : str)
| Ingests (d : str)
| Restarts (saved : gmap str DedupEntry).

Definition server_step (S : Server) (e : ServerEvent) : Server :=
  let D := sv_disk S in
  match e with
  | Arrives r => mkServer D (sv_requests S ++ [arrived r])
  | Moves i =>
      match sv_requests S !! i with
      | Some p => let '(D, p) := phase_step D p in mkServer D (<[i := p]> (sv_requests S))
      | None => S
      end
  | SetsMax n => mkServer (mkDisk n (dk_dedup D) (dk_staging D) (dk_outs D) (dk_inbox D) (dk_done D)) (sv_requests S)
  | Sweeps k => mkServer (remove_staging D k) (sv_requests S)
  | Ingests d => mkServer (with_inbox D d None) (sv_requests S)
  | Restarts saved => mkServer (mkDisk (dk_max D) saved (dk_staging D) (dk_outs D) (dk_inbox D) (dk_done D)) []
  end.

Fixpoint server_run (S : Server) (es : list ServerEvent) : Server :=
  match es with
  | [] => S
  | e :: es => server_run (server_step S e) es
  end.

(** The transfer whose directory [out] a request is at. *)
Definition out_of (p : Phase) : option str :=
  match p with
  | PhClear req => Some (sanitize_transfer_id (tb_transfer_id req))
  | PhOut _ k _ | PhEmpty _ k _ _ _ | PhChunks _ k _ _ _ | PhVerify _ k _ _ | PhOld _ k _ | PhRename _ k _
  | PhUnstage k _ => Some k
  | _ => None
  end.

(** The directory of the inbox that a request is landing in. *)
Definition landing_in (p : Phase) : option str :=
  match p with
  | PhOld _ _ m | PhRename _ _ m | PhLanded _ _ m | PhReceipt _ _ m => Some (inbox_key m)
  | _ => None
  end.

Definition disjoint (a b : option str) : Prop := ∀ k, a = Some k → b ≠ Some k.

(** No two requests are at the same directory [out], or landing in the same directory. *)
Definition apart (l : list Phase) : Prop :=
  ∀ i j p q, l !! i = Some p → l !! j = Some q → i ≠ j →
    disjoint (out_of p) (out_of q) ∧ disjoint (landing_in p) (landing_in q).

(** The host leaves alone what a request is at. *)
Definition host_apart (l : list Phase) (e : ServerEvent) : Prop :=
  match e with
  | Sweeps k => ∀ p, p ∈ l → out_of p ≠ Some k
  | Ingests d => ∀ p, p ∈ l → landing_in p ≠ Some d
  | _ => True
  end.

Fixpoint served_apart (S : Server) (es : list ServerEvent) : Prop :=
  apart (sv_requests S) ∧
  match es with
  | [] => True
  | e :: es => host_apart (sv_requests S) e ∧ served_apart (server_step S e) es
  end.
End Serving.

(** ** The invariant of runs *)

Section RunSpec.
Context {TG : Target} {SHA : Sha256} {B64 : Base64}.

Definition files_verified (m : TransferBegin) (t : tree) : Prop := landed_ok (mkLanded t m).

(** What holds of the disk where a request is. *)
Definition phase_ok (D : Disk) (p : Phase) : Prop :=
  match p with
  | PhEmpty _ k m _ files => (∀ f, f ∈ files → f ∈ tb_files m) ∧ ∃ t, dk_outs D !! k = Some t ∧ listed (tb_files m) t
  | PhChunks _ k m _ _ => ∃ t, dk_outs D !! k = Some t ∧ listed (tb_files m) t
  | PhVerify _ k m files => ∃ t pre, dk_outs D !! k = Some t ∧ listed (tb_files m) t ∧
      tb_files m = pre ++ files ∧ verify_files pre t = Ok tt
  | PhOld _ k m => ∃ t, dk_outs D !! k = Some t ∧ files_verified m t
  | PhRename _ k m => (∃ t, dk_outs D !! k = Some t ∧ files_verified m t) ∧ dk_inbox D !! inbox_key m = None
  | PhLanded _ k m => ∃ t, dk_inbox D !! inbox_key m = Some (mkDir t None false) ∧ files_verified m t
  | PhReceipt _ k m => ∃ t, dk_inbox D !! inbox_key m = Some (mkDir t (Some m) false) ∧ files_verified m t
  | _ => True
  end.

Definition dir_ok (d : str) (dir : InboxDir) : Prop :=
  id_receipt dir = true → ∃ m, id_manifest dir = Some m ∧ d = inbox_key m ∧ files_verified m (id_files dir).

Definition server_inv (S : Server) : Prop :=
  (∀ d dir, dk_inbox (sv_disk S) !! d = Some dir → dir_ok d dir) ∧
  ∀ p, p ∈ sv_requests S → phase_ok (sv_disk S) p.

(** What a phase depends on. *)
Lemma phase_ok_frame D D' p :
  phase_ok D p → (∀ k, out_of p = Some k → dk_outs D' !! k = dk_outs D !! k) →
  (∀ d, landing_in p = Some d → dk_inbox D' !! d = dk_inbox D !! d) → phase_ok D' p.
Proof. intros Hp Ho Hi. destruct p; cbn in *; rewrite ?(Ho _ eq_refl), ?(Hi _ eq_refl); exact Hp. Qed.

Lemma verify_files_app a b t : verify_files a t = Ok tt → verify_files (a ++ b) t = verify_files b t.
Proof.
  induction a as [|f a IH]; intros Ha; [done|]. cbn in Ha |- *. destruct (safe_relative_path (fe_path f)) as [p|]; [|done].
  destruct (t !! p); [|done]. destruct (negb _); [done|]. destruct (negb _); [done|]. by apply IH.
Qed.

Lemma inbox_with_staging D k g : dk_inbox (with_staging D k g) = dk_inbox D. Proof. done. Qed.
Lemma inbox_with_out D k t : dk_inbox (with_out D k t) = dk_inbox D. Proof. done. Qed.
Lemma outs_with_staging D k g : dk_outs (with_staging D k g) = dk_outs D. Proof. done. Qed.
Lemma outs_with_inbox D d i : dk_outs (with_inbox D d i) = dk_outs D. Proof. done. Qed.

(** A step changes only what its request is at. *)
Lemma phase_step_frame D p D' p' : phase_step D p = (D', p') →
  (∀ k, out_of p ≠ Some k → dk_outs D' !! k = dk_outs D !! k) ∧
  ∀ d, landing_in p ≠ Some d → dk_inbox D' !! d = dk_inbox D !! d.
Proof.
  intros Hs. split; intros x Hx; destruct p; cbn in Hs, Hx;
    repeat (break_match_in Hs; try done); simplify_eq; cbn;
    rewrite ?lookup_partial_alter_ne by congruence; done.
Qed.

Lemma make_empty_one f m t t' : f ∈ tb_files m → listed (tb_files m) t → make_empty [f] t = Ok t' → listed (tb_files m) t'.
Proof. intros Hf Ht Hm. eapply make_empty_listed; [|exact Ht|exact Hm]. by intros g ->%list_elem_of_singleton. Qed.

(** Its own step takes a request to a phase whose condition holds, and leaves the inbox in
    order. *)
Lemma phase_step_ok D p D' p' :
  (∀ d dir, dk_inbox D !! d = Some dir → dir_ok d dir) → phase_ok D p → phase_step D p = (D', p') →
  (∀ d dir, dk_inbox D' !! d = Some dir → dir_ok d dir) ∧ phase_ok D' p'.
Proof.
  intros Hd Hp Hs.
  assert (∀ i m, (∀ dir, i = Some dir → dir_ok (inbox_key m) dir) →
    ∀ d dir, partial_alter (λ _, i) (inbox_key m) (dk_inbox D) !! d = Some dir → dir_ok d dir) as Hset.
  { intros i m Hi d dir. destruct (decide (d = inbox_key m)) as [->|Hne].
    - rewrite lookup_partial_alter_eq. apply Hi.
    - rewrite lookup_partial_alter_ne by done. apply Hd. }
  destruct p; cbn -[make_empty assemble verify_files default] in Hs; try (repeat (break_match_in Hs; try done); simplify_eq; (split; [exact Hd|exact I])).
  - repeat break_match_in Hs; simplify_eq; (split; [exact Hd|]); [|exact I]. split; [done|]. exists ∅. cbn.
    rewrite lookup_partial_alter_eq. split; [done|]. intros q [x Hx]. by rewrite lookup_empty in Hx.
  - destruct Hp as (Hf & t & Ht & Hl). destruct files as [|f files]; [simplify_eq; split; [exact Hd|by exists t]|].
    rewrite Ht in Hs. change (default ∅ (Some t)) with t in Hs. destruct (make_empty [f] t) as [t'|e] eqn:E; simplify_eq; (split; [exact Hd|]); [|exact I].
    split; [intros g Hg; apply Hf; by right|]. exists t'. cbn. rewrite lookup_partial_alter_eq. split; [done|].
    eapply make_empty_one; [|exact Hl|exact E]. apply Hf. by left.
  - destruct Hp as (t & Ht & Hl). destruct plan as [|c plan].
    { simplify_eq. split; [exact Hd|]. by exists t, []. }
    rewrite Ht in Hs. change (default ∅ (Some t)) with t in Hs. destruct (assemble _ _ [c] seq t) as [t'|e] eqn:E; simplify_eq; (split; [exact Hd|]); [|exact I].
    exists t'. cbn. rewrite lookup_partial_alter_eq. split; [done|]. by eapply assemble_listed.
  - destruct Hp as (t & pre & Ht & Hl & Hf & Hv). destruct files as [|f files].
    { simplify_eq. split; [exact Hd|]. exists t. split; [done|]. rewrite app_nil_r in Hf.
      split; cbn [ld_manifest ld_files]; [rewrite Hf; by apply verify_files_Ok|exact Hl]. }
    rewrite Ht in Hs. change (default ∅ (Some t)) with t in Hs. destruct (verify_files [f] t) as [[]|e] eqn:E; simplify_eq; (split; [exact Hd|]); [|exact I].
    exists t, (pre ++ [f]). rewrite <- app_assoc. split_and!; [done..|]. by rewrite verify_files_app.
  - destruct Hp as (t & Ht & Hv). simplify_eq. split; [by apply Hset|]. cbn. split; [by exists t|]. by rewrite lookup_partial_alter_eq.
  - destruct Hp as ((t & Ht & Hv) & Hn). rewrite Ht, Hn in Hs. cbn in Hs. rewrite map_union_empty in Hs. simplify_eq.
    split; [apply Hset; by intros dir [= <-]|]. exists t. cbn. by rewrite lookup_partial_alter_eq.
  - destruct Hp as (t & Hi & Hv). unfold write_landed_manifest in Hs. rewrite Hi in Hs. cbn in Hs. simplify_eq.
    split; [apply Hset; by intros dir [= <-]|]. exists t. cbn. by rewrite lookup_partial_alter_eq.
  - destruct Hp as (t & Hi & Hv). rewrite Hi in Hs. cbn in Hs. simplify_eq. split; [|exact I].
    apply Hset. intros dir [= <-] _. by exists m.
Qed.

Lemma server_step_inv S e :
  apart (sv_requests S) → host_apart (sv_requests S) e → server_inv S → server_inv (server_step S e).
Proof.
  intros Ha Hh [Hd Hp]. destruct e as [r|i|n|k|d|saved]; cbn [server_step].
  - split; [exact Hd|]. intros p [Hin| ->%list_elem_of_singleton]%elem_of_app; [by apply Hp|by destruct r].
  - destruct (sv_requests S !! i) as [p|] eqn:Hi; [|done]. destruct (phase_step (sv_disk S) p) as [D p'] eqn:Hs.
    destruct (phase_step_ok _ _ _ _ Hd (Hp p (list_elem_of_lookup_2 _ _ _ Hi)) Hs) as [Hd' Hp'].
    destruct (phase_step_frame _ _ _ _ Hs) as [Ho Hl]. split; [exact Hd'|]. intros q (j & Hj)%list_elem_of_lookup.
    apply list_lookup_insert_Some in Hj as [(_ & <- & _)|[Hne Hj]]; [exact Hp'|].
    destruct (Ha j i q p Hj Hi) as [Hdo Hdl]; [done|].
    eapply phase_ok_frame; [by eapply Hp, list_elem_of_lookup_2|intros k Hk; apply Ho, (Hdo k Hk)|intros x Hx; apply Hl, (Hdl x Hx)].
  - split; [exact Hd|]. intros p Hin. eapply phase_ok_frame; [by apply Hp|done..].
  - split; [exact Hd|]. intros p Hin. eapply phase_ok_frame; [by apply Hp| |done]. intros k' Hk'. cbn.
    apply lookup_partial_alter_ne. intros <-. by apply (Hh p Hin).
  - split.
    + cbn. intros d' dir Hl. destruct (decide (d' = d)) as [->|Hne].
      * by rewrite lookup_partial_alter_eq in Hl.
      * rewrite lookup_partial_alter_ne in Hl by done. by apply Hd.
    + intros p Hin. eapply phase_ok_frame; [by apply Hp|done|]. intros d' Hd'. cbn. apply lookup_partial_alter_ne. intros <-. by apply (Hh p Hin).
  - split; [exact Hd|]. by intros p ?%elem_of_nil.
Qed.

Lemma server_run_inv S es : served_apart S es → server_inv S → server_inv (server_run S es).
Proof.
  revert S. induction es as [|e es IH]; intros S [Ha Hs] Hi; [done|]. destruct Hs as [Hh Hs]. cbn [server_run].
  apply IH; [done|]. by apply server_step_inv.
Qed.
End RunSpec.

(** ** A request that is served alone *)

Section Alone.
Context {TG : Target} {SHA : Sha256} {B64 : Base64}.

(** The sink that a disk is: of the inbox what has its receipt. *)
Definition complete (dir : InboxDir) : option Landed :=
  if id_receipt dir then mkLanded (id_files dir) <$> id_manifest dir else None.

Definition view (D : Disk) : Sink :=
  mkSink (dk_max D) (dk_dedup D) (dk_staging D) (omap complete (dk_inbox D)) (dk_done D).

(** The operation that a request asks for. *)
Definition operation (r : Request) (s : Sink) : Sink * Answer :=
  match r with
  | ReqBegin req => let '(s, a) := begin req s in (s, AnsBegin a)
  | ReqChunk w req => let '(s, a) := chunk w req s in (s, AnsChunk a)
  | ReqEnd now id => let '(s, a) := end_transfer now id s in (s, AnsEnd a)
  end.

Definition moves (x y : Disk * Phase) : Prop := phase_step (fst x) (snd x) = y.

Lemma moves_l x y z : phase_step (fst x) (snd x) = y → rtc moves y z → rtc moves x z.
Proof. intros Hm. by apply rtc_l. Qed.

Lemma with_out_twice D k a b : with_out (with_out D k a) k b = with_out D k b.
Proof.
  unfold with_out. cbn. f_equal. apply map_eq. intros i. destruct (decide (i = k)) as [->|Hne].
  - by rewrite !lookup_partial_alter_eq.
  - by rewrite !lookup_partial_alter_ne.
Qed.

Lemma view_with_out D k t : view (with_out D k t) = view D. Proof. done. Qed.

Lemma out_with_out D k t : dk_outs (with_out D k t) !! k = t.
Proof. cbn. by rewrite lookup_partial_alter_eq. Qed.

Lemma make_empty_cons f files t :
  make_empty (f :: files) t = match make_empty [f] t with Ok t => make_empty files t | Err e => Err e end.
Proof. cbn. destruct (fe_size f =? 0)%N; [|done]. destruct (safe_relative_path _); [|done]. by destruct (fs_write _ _ _). Qed.

Lemma assemble_cons files chunks c plan seq t :
  assemble files chunks (c :: plan) seq t
  = match assemble files chunks [c] seq t with Ok t => assemble files chunks plan (S seq) t | Err e => Err e end.
Proof. destruct c as [[idx off] n]. cbn. by repeat break_match. Qed.

Lemma verify_cons f files t :
  verify_files (f :: files) t = match verify_files [f] t with Ok _ => verify_files files t | Err e => Err e end.
Proof. cbn. by repeat break_match. Qed.

Lemma empty_moves now k m plan files D t :
  match make_empty files t with
  | Ok t' => rtc moves (with_out D k (Some t), PhEmpty now k m plan files) (with_out D k (Some t'), PhChunks now k m plan 0)
  | Err e => ∃ t', rtc moves (with_out D k (Some t), PhEmpty now k m plan files)
                     (with_out D k (Some t'), Answered (AnsEnd (Err e)))
  end.
Proof.
  revert t. induction files as [|f files IH]; intros t; [by apply rtc_once|]. rewrite make_empty_cons.
  assert (phase_step (with_out D k (Some t)) (PhEmpty now k m plan (f :: files)) = match make_empty [f] t with
    | Ok t' => (with_out D k (Some t'), PhEmpty now k m plan files)
    | Err e => (with_out D k (Some t), Answered (AnsEnd (Err e))) end) as Hs.
  { cbn [phase_step end_step]. rewrite out_with_out. change (default ∅ (Some t)) with t.
    destruct (make_empty [f] t); [by rewrite with_out_twice|done]. }
  destruct (make_empty [f] t) as [t1|e]; [|exists t; by apply rtc_once].
  specialize (IH t1). destruct (make_empty files t1) as [t2|e]; [by eapply moves_l|].
  destruct IH as [t' IH]. exists t'. by eapply moves_l.
Qed.

Lemma chunk_moves now k m chunks plan seq D t :
  sg_chunks <$> dk_staging D !! k = Some chunks →
  match assemble (tb_files m) chunks plan seq t with
  | Ok t' => rtc moves (with_out D k (Some t), PhChunks now k m plan seq) (with_out D k (Some t'), PhVerify now k m (tb_files m))
  | Err e => ∃ t', rtc moves (with_out D k (Some t), PhChunks now k m plan seq)
                     (with_out D k (Some t'), Answered (AnsEnd (Err e)))
  end.
Proof.
  intros Hc. revert t seq. induction plan as [|c plan IH]; intros t seq; [by apply rtc_once|]. rewrite assemble_cons.
  assert (phase_step (with_out D k (Some t)) (PhChunks now k m (c :: plan) seq) = match assemble (tb_files m) chunks [c] seq t with
    | Ok t' => (with_out D k (Some t'), PhChunks now k m plan (S seq))
    | Err e => (with_out D k (Some t), Answered (AnsEnd (Err e))) end) as Hs.
  { cbn [phase_step end_step]. rewrite out_with_out. change (dk_staging (with_out D k (Some t))) with (dk_staging D). rewrite Hc.
    change (default ∅ (Some t)) with t. change (default ∅ (Some chunks)) with chunks.
    destruct (assemble _ _ [c] seq t); [by rewrite with_out_twice|done]. }
  destruct (assemble (tb_files m) chunks [c] seq t) as [t1|e]; [|exists t; by apply rtc_once].
  specialize (IH t1 (S seq)). destruct (assemble (tb_files m) chunks plan (S seq) t1) as [t2|e]; [by eapply moves_l|].
  destruct IH as [t' IH]. exists t'. by eapply moves_l.
Qed.

Lemma verify_moves now k m files D t : dk_outs D !! k = Some t →
  rtc moves (D, PhVerify now k m files)
    (D, match verify_files files t with Ok _ => PhOld now k m | Err e => Answered (AnsEnd (Err e)) end).
Proof.
  intros Ht. induction files as [|f files IH]; [by apply rtc_once|]. rewrite verify_cons.
  assert (phase_step D (PhVerify now k m (f :: files)) = (D, match verify_files [f] t with
    | Ok _ => PhVerify now k m files | Err e => Answered (AnsEnd (Err e)) end)) as Hs.
  { cbn [phase_step end_step]. rewrite Ht. change (default ∅ (Some t)) with t. by destruct (verify_files [f] t). }
  destruct (verify_files [f] t) as [u|e]; [by eapply moves_l|by apply rtc_once].
Qed.

(** From the verified files to the answer. *)
Lemma land_moves now k m D t : dk_outs D !! k = Some t →
  ∃ D', rtc moves (D, PhOld now k m) (D', Answered (AnsEnd (Ok (reply_of m)))) ∧
    view D' = land k m now t (view D).
Proof.
  intros Ht. eexists. split.
  - eapply moves_l; [reflexivity|]. eapply moves_l.
    { cbn [phase_step end_step fst snd]. change (dk_outs (with_inbox D (inbox_key m) None)) with (dk_outs D). rewrite Ht.
      cbn [dk_inbox with_inbox]. rewrite lookup_partial_alter_eq. reflexivity. }
    do 2 (eapply moves_l; [cbn [phase_step end_step fst snd];
      unfold write_landed_manifest; cbn [dk_inbox with_inbox]; rewrite lookup_partial_alter_eq; reflexivity|]).
    do 3 (eapply moves_l; [reflexivity|]). apply rtc_refl.
  - unfold view, land. cbn. f_equal.
    apply map_eq. intros d. rewrite lookup_omap. destruct (decide (d = inbox_key m)) as [->|Hne].
    + rewrite !lookup_partial_alter_eq, map_union_empty. unfold inbox_key. by rewrite lookup_insert_eq.
    + rewrite !lookup_partial_alter_ne by done. rewrite lookup_insert_ne by (intros E; by apply Hne). by rewrite lookup_omap.
Qed.

Lemma end_alone D now id :
  ∃ D' r, rtc moves (D, PhEnd now id) (D', Answered (AnsEnd r)) ∧ end_transfer now id (view D) = (view D', r).
Proof.
  unfold end_transfer. cbv zeta. set (k := sanitize_transfer_id id). change (sk_staging (view D)) with (dk_staging D).
  change (sk_done (view D)) with (dk_done D). destruct (dk_staging D !! k) as [[[m|] chunks]|] eqn:Hk.
  - assert (rtc moves (D, PhEnd now id) (D, PhOut now k m)) as Hread.
    { eapply moves_l; [cbn; fold k; by rewrite Hk|]. eapply moves_l; [cbn; by rewrite Hk|]. apply rtc_refl. }
    assert (create_staging D k = D) as Hc.
    { unfold create_staging, with_staging. rewrite Hk. change (default (mkStaging None ∅) (Some (mkStaging (Some m) chunks))) with (mkStaging (Some m) chunks). rewrite <- Hk, partial_alter_self. by destruct D. }
    unfold assembled. destruct (plan_chunks (tb_files m) (tb_chunk_size m)) as [plan|] eqn:Ep.
    2: { exists (with_out D k (Some ∅)), (Err EndPlan). split; [|done]. etrans; [exact Hread|]. apply rtc_once. unfold moves. cbn.
         by rewrite Hc, Ep. }
    assert (rtc moves (D, PhEnd now id) (with_out D k (Some ∅), PhEmpty now k m plan (tb_files m))) as Hout.
    { etrans; [exact Hread|]. apply rtc_once. unfold moves. cbn. by rewrite Hc, Ep. }
    pose proof (empty_moves now k m plan (tb_files m) D ∅) as He. destruct (make_empty (tb_files m) ∅) as [t1|e]; cbn [res_bind].
    2: { destruct He as [t' He]. exists (with_out D k (Some t')), (Err e). split; [by etrans|done]. }
    pose proof (chunk_moves now k m chunks plan 0 D t1 ltac:(by rewrite Hk)) as Ha.
    destruct (assemble (tb_files m) chunks plan 0 t1) as [t2|e]; cbn [res_bind].
    2: { destruct Ha as [t' Ha]. exists (with_out D k (Some t')), (Err e). split; [etrans; [exact Hout|by etrans]|done]. }
    pose proof (verify_moves now k m (tb_files m) (with_out D k (Some t2)) t2 (out_with_out _ _ _)) as Hv.
    destruct (verify_files (tb_files m) t2) as [u|e]; cbn [res_bind].
    2: { exists (with_out D k (Some t2)), (Err e). split; [etrans; [exact Hout|etrans; [exact He|by etrans]]|done]. }
    destruct (land_moves now k m (with_out D k (Some t2)) t2 (out_with_out _ _ _)) as (D' & Hl & Hview).
    exists D', (Ok (reply_of m)). split; [|by rewrite Hview].
    etrans; [exact Hout|etrans; [exact He|etrans; [exact Ha|by etrans]]].
  - exists D, (Err EndNoManifest). split; [|done]. eapply moves_l; [cbn; fold k; by rewrite Hk|]. apply rtc_once. unfold moves. cbn. by rewrite Hk.
  - destruct (dk_done D !! k) as [reply|] eqn:Hd.
    + exists D, (Ok reply). split; [|done]. eapply moves_l; [cbn; fold k; by rewrite Hk|]. apply rtc_once. unfold moves. cbn. by rewrite Hd.
    + exists D, (Err EndNoStaging). split; [|done]. eapply moves_l; [cbn; fold k; by rewrite Hk|]. apply rtc_once. unfold moves. cbn. by rewrite Hd.
Qed.

Lemma chunk_alone D w req :
  ∃ D' r, rtc moves (D, PhChunk w req) (D', Answered (AnsChunk r)) ∧ chunk w req (view D) = (view D', r).
Proof.
  unfold chunk. cbv zeta. change (sk_staging (view D)) with (dk_staging D).
  assert (∀ p D' r, phase_step D p = (D', Answered (AnsChunk r)) → rtc moves (D, p) (D', Answered (AnsChunk r))) as Hone.
  { intros p D' r Hs. by apply rtc_once. }
  destruct (b64_decode (tc_data_b64 req)) as [data|] eqn:Eb.
  2: { exists D, (Err ChunkBase64). split; [|done]. apply Hone. cbn. by rewrite Eb. }
  destruct (negb (bool_decide (sha256_hex data = tc_sha256 req))) eqn:Es.
  { exists D, (Err ChunkSha). split; [|done]. apply Hone. cbn. by rewrite Eb, Es. }
  set (k := sanitize_transfer_id (tc_transfer_id req)). destruct (dk_staging D !! k) as [g|] eqn:Hk.
  2: { exists D, (Err ChunkNoStaging). split; [|done]. apply Hone. cbn. rewrite Eb, Es. fold k. by rewrite Hk. }
  assert (moves (D, PhChunk w req) (D, PhChunkRead w req data)) as H1.
  { unfold moves. cbn. rewrite Eb, Es. fold k. by rewrite Hk. }
  assert (∀ D' r, phase_step D (PhChunkRead w req data) = (D', Answered (AnsChunk r)) →
    rtc moves (D, PhChunk w req) (D', Answered (AnsChunk r))) as Htwo by (intros D' r Hs; eapply rtc_l; [exact H1|by apply Hone]).
  destruct g as [[m|] chunks].
  2: { exists D, (Err ChunkNoManifest). split; [|done]. apply Htwo. cbn. fold k. by rewrite Hk. }
  destruct (tb_chunk_count m <=? tc_seq req)%N eqn:Ec.
  { exists D, (Err ChunkSeq). split; [|done]. apply Htwo. cbn. fold k. rewrite Hk. cbn. by rewrite Ec. }
  destruct (tb_chunk_size m <? len data)%N eqn:Ez.
  { exists D, (Err ChunkSize). split; [|done]. apply Htwo. cbn. fold k. rewrite Hk. cbn. by rewrite Ec, Ez. }
  assert (rtc moves (D, PhChunk w req) (D, PhPut w req data)) as H3.
  { eapply rtc_l; [exact H1|]. apply rtc_once. unfold moves. cbn. fold k. rewrite Hk. cbn. by rewrite Ec, Ez. }
  assert (∀ D' r, phase_step D (PhPut w req data) = (D', Answered (AnsChunk r)) →
    rtc moves (D, PhChunk w req) (D', Answered (AnsChunk r))) as Hthree by (intros D' r Hs; etrans; [exact H3|by apply Hone]).
  destruct w as [| |n].
  - eexists _, (Ok tt). split; [apply Hthree; cbn; fold k; rewrite Hk; reflexivity|done].
  - eexists D, (Err ChunkWrite). split; [apply Hthree; cbn; fold k; by rewrite Hk|done].
  - eexists _, (Err ChunkWrite). split; [apply Hthree; cbn; fold k; rewrite Hk; reflexivity|done].
Qed.

Lemma fresh_moves D req : let k := sanitize_transfer_id (tb_transfer_id req) in
  rtc moves (D, PhClear req) (with_out (with_staging D k (Some (mkStaging (Some req) ∅))) k None, Answered (AnsBegin (BeginOk []))).
Proof.
  intros k. do 2 (eapply moves_l; [reflexivity|]). eapply moves_l; [|apply rtc_refl]. cbn. fold k. f_equal.
  unfold write_staging_manifest, create_staging, remove_staging, with_staging, with_out. cbn. rewrite !lookup_partial_alter_eq. cbn.
  f_equal. apply map_eq. intros i. destruct (decide (i = k)) as [->|Hne].
  - by rewrite !lookup_partial_alter_eq.
  - by rewrite !lookup_partial_alter_ne.
Qed.

(** The receipt that [begin] looks for. *)
Lemma receipt_seen D d : (∀ d dir, dk_inbox D !! d = Some dir → id_receipt dir = true → is_Some (id_manifest dir)) →
  bool_decide (is_Some (omap complete (dk_inbox D) !! d)) = match dk_inbox D !! d with Some dir => id_receipt dir | None => false end.
Proof.
  intros Hi. rewrite lookup_omap. destruct (dk_inbox D !! d) as [dir|] eqn:Ed; cbn; [|done].
  unfold complete. destruct (id_receipt dir) eqn:Er; [|by apply bool_decide_eq_false; intros [? ?]].
  destruct (Hi _ _ Ed Er) as [m ->]. apply bool_decide_eq_true. by eexists.
Qed.

Lemma begin_alone D req :
  (∀ d dir, dk_inbox D !! d = Some dir → id_receipt dir = true → is_Some (id_manifest dir)) →
  ∃ D' r, rtc moves (D, PhBegin req) (D', Answered (AnsBegin r)) ∧ begin req (view D) = (view D', r).
Proof.
  intros Hi. unfold begin. cbv zeta. change (sk_max_bytes (view D)) with (dk_max D). change (sk_dedup (view D)) with (dk_dedup D).
  change (sk_staging (view D)) with (dk_staging D). change (sk_inbox (view D)) with (omap complete (dk_inbox D)).
  set (k := sanitize_transfer_id (tb_transfer_id req)).
  destruct ((0 <? dk_max D) && (dk_max D <? tb_total_bytes req))%N eqn:El.
  { exists D, BeginOverLimit. split; [|done]. apply rtc_once. unfold moves. cbn. by rewrite El. }
  destruct (validate_manifest req) as [u|e] eqn:Ev.
  2: { exists D, (BeginError e). split; [|done]. apply rtc_once. unfold moves. cbn. by rewrite El, Ev. }
  assert (moves (D, PhBegin req) (D, PhDedup req)) as H1 by (unfold moves; cbn; by rewrite El, Ev).
  set (landed := match dk_inbox D !! inbox_key req with Some dir => id_receipt dir | None => false end).
  assert (bool_decide (is_Some (omap complete (dk_inbox D) !! safe_task_file_name (tb_task_id req))) = landed) as ->.
  { by apply receipt_seen. }
  set (dedup := match dk_dedup D !! tb_task_id req with
                | Some entry => bool_decide (de_content_hash entry = tb_content_hash req) && landed | None => false end).
  assert (phase_step D (PhDedup req) = (D, if dedup then Answered (AnsBegin BeginDedup) else PhProbe req)) as H2.
  { subst dedup landed. cbn [phase_step begin_step]. by repeat case_match. }
  destruct dedup.
  { exists D, BeginDedup. split; [|done]. eapply rtc_l; [exact H1|]. by apply rtc_once. }
  assert (rtc moves (D, PhBegin req) (D, PhProbe req)) as H3 by (eapply rtc_l; [exact H1|by apply rtc_once]).
  clearbody landed. clear H1 H2.
  assert (phase_step D (PhProbe req) = (D, match dk_staging D !! k ≫= sg_manifest with
    | Some m => if bool_decide (tb_content_hash m = tb_content_hash req) then PhResume req else PhClear req
    | None => PhClear req end)) as H4.
  { cbn. fold k. destruct (dk_staging D !! k ≫= sg_manifest); [|done]. by destruct (bool_decide _). }
  pose proof (fresh_moves D req) as Hfresh. fold k in Hfresh.
  assert (∀ b : bool, phase_step D (PhProbe req) = (D, if b then PhResume req else PhClear req) →
    (b = true → ∃ m chunks, dk_staging D !! k = Some (mkStaging (Some m) chunks)) →
    ∃ D' r, rtc moves (D, PhBegin req) (D', Answered (AnsBegin r)) ∧
      (view D', r) = (if b then let chunks := default ∅ (sg_chunks <$> dk_staging D !! k) in
          (set_staging k (Some (mkStaging (Some req) chunks)) (view D), BeginOk (list_received_chunks chunks (tb_chunk_count req)))
        else (set_staging k (Some (mkStaging (Some req) ∅)) (view D), BeginOk []))) as Hb.
  { intros [|] Hs Hr.
    - destruct (Hr eq_refl) as (m & chunks & Hk). rewrite Hk. exists (with_staging D k (Some (mkStaging (Some req) chunks))), (BeginOk (list_received_chunks chunks (tb_chunk_count req))).
      split; [|reflexivity]. etrans; [exact H3|].
      eapply moves_l; [exact Hs|]. eapply moves_l; [cbn; fold k; unfold write_staging_manifest; rewrite Hk; reflexivity|].
      eapply moves_l; [cbn; fold k; cbn; rewrite lookup_partial_alter_eq; reflexivity|]. apply rtc_refl.
    - eexists _, _. split; [etrans; [exact H3|eapply moves_l; [exact Hs|exact Hfresh]]|]. done. }
  destruct (dk_staging D !! k) as [[[m|] chunks]|] eqn:Hk; cbn [mbind option_bind sg_manifest] in H4.
  - destruct (bool_decide (tb_content_hash m = tb_content_hash req)).
    + destruct (Hb true H4) as (D' & r & Hm & He); [by intros _; exists m, chunks|]. exists D', r. split; [exact Hm|]. by rewrite He.
    + destruct (Hb false H4) as (D' & r & Hm & He); [done|]. exists D', r. split; [exact Hm|]. by rewrite He.
  - destruct (Hb false H4) as (D' & r & Hm & He); [done|]. exists D', r. split; [exact Hm|]. by rewrite He.
  - destruct (Hb false H4) as (D' & r & Hm & He); [done|]. exists D', r. split; [exact Hm|]. by rewrite He.
Qed.

(** Also: a request that is served alone comes to an end, and is the operation of the
    sink: the same answer, and the same staging, inbox, index and marks. *)
Theorem served_alone D r :
  (∀ d dir, dk_inbox D !! d = Some dir → id_receipt dir = true → is_Some (id_manifest dir)) →
  ∃ D' a, rtc moves (D, arrived r) (D', Answered a) ∧ operation r (view D) = (view D', a).
Proof.
  intros Hi. destruct r as [req|w req|now id]; cbn [arrived operation].
  - destruct (begin_alone D req Hi) as (D' & r & Hm & He). exists D', (AnsBegin r). by rewrite He.
  - destruct (chunk_alone D w req) as (D' & r & Hm & He). exists D', (AnsChunk r). by rewrite He.
  - destruct (end_alone D now id) as (D' & r & Hm & He). exists D', (AnsEnd r). by rewrite He.
Qed.
End Alone.

(** ** Properties *)

Section Properties.
Context {TG : Target} {SHA : Sha256} {B64 : Base64}.

(** C35: whatever requests peers send, and however the accesses to the disk of those that
    are served at the same time interleave, with failures of writing chunks, sweepings,
    takings and restarts in between: every directory of the inbox that has its receipt is
    complete and verified.  It stands under the sanitized name of its task, every file of
    its manifest is there with the declared size and digest, and every file it has is one
    of the manifest, at a path of ordinary components, so inside the directory.  This is
    so if at no time two requests assemble in the same staging directory, a begin that
    starts afresh and an end that clears it included, or land in the same directory of
    the inbox, and the host does not take away what one of them is at. *)
Theorem served_inbox_verified D es d dir :
  dk_inbox D = ∅ → served_apart (mkServer D []) es →
  dk_inbox (sv_disk (server_run (mkServer D []) es)) !! d = Some dir → id_receipt dir = true →
  ∃ m, id_manifest dir = Some m ∧ d = sanitize_path_segment (tb_task_id m) ∧
    (∀ f, f ∈ tb_files m →
       ∃ p data, safe_relative_path (fe_path f) = Ok p ∧ id_files dir !! p = Some data ∧
         len data = fe_size f ∧ sha256_hex data = fe_sha256 f) ∧
    (∀ p, is_Some (id_files dir !! p) → p ≠ [] ∧ Forall inside p ∧
       ∃ f, f ∈ tb_files m ∧ safe_relative_path (fe_path f) = Ok p).
Proof.
  intros Hnil Hs Hd Hr.
  destruct (server_run_inv _ _ Hs) as [Hok _].
  { split; [|by intros p ?%elem_of_nil]. cbn. rewrite Hnil. intros x i Hx. by rewrite lookup_empty in Hx. }
  destruct (Hok _ _ Hd Hr) as (m & Hm & -> & Hf & Hp). exists m. split_and!; [done..|].
  intros p Hin. destruct (Hp p Hin) as (f & Hff & Hsafe).
  destruct (safe_relative_path_Ok _ _ Hsafe) as (Hne & Hins & _). split_and!; [done..|by exists f].
Qed.
End Properties.

(** ** Runs *)

Section Demo.
#[local] Existing Instance target64.
#[local] Existing Instance toy_sha.
#[local] Existing Instance toy_b64.

Definition disjointb (a b : option str) : bool :=
  match a, b with Some x, Some y => negb (x =? y) | _, _ => true end.

Definition apartb (l : list Phase) : bool :=
  forallb (λ i, forallb (λ j,
    (i =? j)%nat || match l !! i, l !! j with
                    | Some p, Some q => disjointb (out_of p) (out_of q) && disjointb (landing_in p) (landing_in q)
                    | _, _ => true
                    end) (seq 0 (length l))) (seq 0 (length l)).

Definition from_peers (e : ServerEvent) : bool := match e with Arrives _ | Moves _ => true | _ => false end.

Fixpoint served_apartb (S : Server) (es : list ServerEvent) : bool :=
  apartb (sv_requests S) && match es with
                            | [] => true
                            | e :: es => from_peers e && served_apartb (server_step S e) es
                            end.

Lemma apartb_apart l : apartb l = true → apart l.
Proof.
  unfold apartb. intros Ha i j p q Hi Hj Hne. rewrite forallb_forall in Ha.
  specialize (Ha i ltac:(apply in_seq; apply lookup_lt_Some in Hi; lia)). rewrite forallb_forall in Ha.
  specialize (Ha j ltac:(apply in_seq; apply lookup_lt_Some in Hj; lia)). rewrite (proj2 (Nat.eqb_neq _ _) Hne), Hi, Hj in Ha.
  assert (∀ a b, disjointb a b = true → disjoint a b) as Hd.
  { intros a b Hab k -> ->. cbn in Hab. by rewrite bool_decide_true in Hab. }
  apply andb_true_iff in Ha as [? ?]. split; by apply Hd.
Qed.

Lemma served_apartb_apart S es : served_apartb S es = true → served_apart S es.
Proof.
  revert S. induction es as [|e es IH]; intros S [Ha He]%andb_true_iff; (split; [by apply apartb_apart|]); [done|].
  apply andb_true_iff in He as [Hp He]. split; [by destruct e|by apply IH].
Qed.

Definition fresh : Server := mkServer (mkDisk 100 ∅ ∅ ∅ ∅ ∅) [].

Definition times (n i : nat) : list ServerEvent := repeat (Moves i) n.

(** Two transfers of one file each, of two tasks. *)
Definition one_file (id task : string) : TransferBegin :=
  mkBegin (lit id) (lit task) [] (lit "n") 2 2 1 [mkEntry (lit "f") 2 (sha256_hex [7; 8]%N)] (lit "h").

Definition its_chunk (id : string) : TransferChunk :=
  mkChunk (lit id) 0 1 (b64_encode [7; 8]%N) (sha256_hex [7; 8]%N).

(** Their requests move in turns. *)
Definition side_by_side : list ServerEvent :=
  [Arrives (ReqBegin (one_file "t1" "a")); Arrives (ReqBegin (one_file "t2" "b"))] ++ mjoin (repeat [Moves 0; Moves 1] 6)
  ++ [Arrives (ReqChunk WriteOk (its_chunk "t1")); Arrives (ReqChunk WriteOk (its_chunk "t2"))] ++ mjoin (repeat [Moves 2; Moves 3] 3)
  ++ [Arrives (ReqEnd [] (lit "t1")); Arrives (ReqEnd [] (lit "t2"))] ++ mjoin (repeat [Moves 4; Moves 5] 20).

Lemma served_inbox_verified_witness :
  ∃ dir m, dk_inbox (sv_disk (server_run fresh side_by_side)) !! lit "a" = Some dir ∧ id_manifest dir = Some m ∧
    lit "a" = sanitize_path_segment (tb_task_id m) ∧ id_files dir !! [lit "f"] = Some [7; 8]%N.
Proof.
  assert (Hd : (λ dir, (id_receipt dir, id_files dir !! [lit "f"])) <$> dk_inbox (sv_disk (server_run fresh side_by_side)) !! lit "a"
    = Some (true, Some [7; 8]%N)) by (vm_compute; reflexivity).
  assert (Hs : served_apart fresh side_by_side) by (apply served_apartb_apart; vm_compute; reflexivity).
  destruct (dk_inbox (sv_disk (server_run fresh side_by_side)) !! lit "a") as [dir|] eqn:E; [|discriminate Hd].
  injection Hd as Hr Hf.
  destruct (served_inbox_verified (sv_disk fresh) side_by_side (lit "a") dir eq_refl Hs E Hr) as (m & Hm & Hk & _).
  exists dir, m. split; [reflexivity|]. split; [exact Hm|]. split; [exact Hk|exact Hf].
Defined.

(** The transfer of [Transfer.demo_source], staged; then two ends of it, the second of
    which clears what the first has verified before the first one lands it. *)
Definition staged : list ServerEvent :=
  [Arrives (ReqBegin demo_begin)] ++ times 6 0
  ++ [Arrives (ReqChunk WriteOk (demo_chunk 0 [1; 2]%N))] ++ times 3 1
  ++ [Arrives (ReqChunk WriteOk (demo_chunk 1 [3; 4]%N))] ++ times 3 2
  ++ [Arrives (ReqChunk WriteOk (demo_chunk 2 [5]%N))] ++ times 3 3.

Definition ends_overlap : list ServerEvent :=
  staged ++ [Arrives (ReqEnd [] (lit "t1")); Arrives (ReqEnd [] (lit "t1"))] ++ times 14 4 ++ times 3 5 ++ times 6 4 ++ times 20 5.

(** Observed: an end that is sent again while the first is still served clears the files
    that the first has verified; the first lands the empty directory, with its manifest
    and receipt, and answers that all is there. *)
Theorem overlapping_ends_land_partial :
  let S := server_run fresh ends_overlap in
  dk_inbox (sv_disk S) !! lit "task" = Some (mkDir ∅ (Some demo_begin) true) ∧
  sv_requests S !! 4%nat = Some (Answered (AnsEnd (Ok (mkEndReply 2 5)))) ∧
  served_apartb fresh ends_overlap = false.
Proof. vm_compute. split_and!; reflexivity. Qed.

Lemma served_alone_witness :
  ∃ D' a, rtc moves (sv_disk (server_run fresh staged), PhEnd [] (lit "t1")) (D', Answered a) ∧
    a = AnsEnd (Ok (mkEndReply 2 5)) ∧ is_Some (sk_inbox (view D') !! lit "task").
Proof.
  destruct (served_alone (sv_disk (server_run fresh staged)) (ReqEnd [] (lit "t1"))) as (D' & a & Hm & He).
  - assert (Hg : ∀ D, dk_inbox D = ∅ → ∀ d dir, dk_inbox D !! d = Some dir → id_receipt dir = true → is_Some (id_manifest dir)).
    { intros D Hn d dir Hd. rewrite Hn in Hd. by rewrite lookup_empty in Hd. }
    apply Hg. vm_compute. reflexivity.
  - exists D', a. split; [exact Hm|].
    assert (Ho : (λ x, (bool_decide (is_Some (sk_inbox (fst x) !! lit "task")), snd x))
      (operation (ReqEnd [] (lit "t1")) (view (sv_disk (server_run fresh staged)))) = (true, AnsEnd (Ok (mkEndReply 2 5)))).
    { vm_compute. reflexivity. }
    rewrite He in Ho. cbv beta in Ho. injection Ho as Hi Ha. split; [exact Ha|]. by apply bool_decide_eq_true in Hi.
Defined.
End Demo.
