(* ===== verification/Outbox.v ===== *)
(** * Chunked file transfer, sending side (nemesis-cluster/src/outbox.rs)

    The push of a directory, over a transport that may lose requests and answers,
    against the sink of [Transfer]; and the entries of the outbox that drive it.
    The files of the directory are a list of paths and contents
    ([collect_dir_files] reads them from disk). *)
From S2P Require Import Prelude RustStr Merkle Frame Sanitize Transfer.
Local Open Scope nb_scope.

(** ** Files that are not sent (transfer.rs) *)

(** The part after the last separator ([rsplit('/').next()]). *)
Definition last_segment (rel : str) : str := default rel (last (split_on (N.eqb c_slash) rel)).

Definition is_noise_dir (rel : str) : bool :=
  existsb (λ s, bool_decide (last_segment rel = lit s))
    [".git"; "__pycache__"; "node_modules"; ".pytest_cache"; ".mypy_cache"; ".ruff_cache"; ".tox"; ".venv";
     "venv"]%string.

Definition is_noise_file (rel : str) : bool :=
  existsb (λ s, bool_decide (last_segment rel = lit s)) [".git"; ".DS_Store"; "Thumbs.db"]%string
  || ends_with (lit ".pyc") (last_segment rel) || ends_with (lit ".pyo") (last_segment rel).

(** ** The transport *)

(** What happens to one call: requests of others that the sink handles before it,
    the outcome of writing a chunk file, and whether request and answer get
    through. *)
Inductive Fate := Delivers | RequestLost | AnswerLost.

Record Call := mkCall {
  c_before : list SinkEvent;
  c_write : WriteOutcome;
  c_fate : Fate;
}.

(** The sink and the calls to come; when the list is used up, calls succeed. *)
Record World := mkWorld {
  w_sink : Sink;
  w_net : list Call;
}.

Inductive PushError :=
| PushTransport
| PushBegin (e : ManifestError)
| PushPlan
| PushChunk (e : ChunkError)
| PushEnd (e : EndError).

Inductive PushDirOutcome :=
| PushDelivered
| PushNothingToSend
| PushOverlimit (total limit : N).

Definition source_total (src : list (str * bytes)) : N := foldr (λ x n, len (snd x) + n)%N 0%N src.

Section Push.
Context {TG : Target} {SHA : Sha256} {B64 : Base64}.

(** A call: the answer, or an error of the transport. *)
Definition call {R} (f : WriteOutcome → Sink → Sink * R) (w : World) : World * option R :=
  match w_net w with
  | [] => let '(s, r) := f WriteOk (w_sink w) in (mkWorld s [], Some r)
  | c :: net =>
      let s := sink_run (w_sink w) (c_before c) in
      match c_fate c with
      | RequestLost => (mkWorld s net, None)
      | AnswerLost => (mkWorld (fst (f (c_write c) s)) net, None)
      | Delivers => let '(s, r) := f (c_write c) s in (mkWorld s net, Some r)
      end
  end.

Definition transfer_id (task : str) (hash : str) (chunk : N) : str :=
  sanitize_transfer_id task ++ [c_dash] ++ take 12 hash ++ [c_dash] ++ lit (pretty chunk).

Definition begin_of (task kind node : str) (src : list (str * bytes)) (chunk : N) : TransferBegin :=
  let files := entry_of <$> src in
  let hash := content_hash files in
  mkBegin (transfer_id task hash chunk) task kind node (source_total src) chunk (chunk_count files chunk)
    files hash.

Definition chunk_request (m : TransferBegin) (total : nat) (seq : nat) (data : bytes) : TransferChunk :=
  mkChunk (tb_transfer_id m) (N.of_nat seq) (N.of_nat total) (b64_encode data) (sha256_hex data).

(** The chunks of one file that the peer does not have. *)
Fixpoint push_seqs (m : TransferBegin) (src : list (str * bytes)) (plan : list (nat * N * N))
    (have : list N) (seqs : list nat) (w : World) : World * result unit PushError :=
  match seqs with
  | [] => (w, Ok tt)
  | seq :: seqs =>
      if bool_decide (N.of_nat seq ∈ have) then push_seqs m src plan have seqs w
      else match plan !! seq with
           | None => (w, Err PushPlan)     (* out of range: [seqs] are positions of the plan *)
           | Some c =>
               let req := chunk_request m (length plan) seq (chunk_data src c) in
               match call (λ wr s, chunk wr req s) w with
               | (w, None) => (w, Err PushTransport)
               | (w, Some (Err e)) => (w, Err (PushChunk e))
               | (w, Some (Ok _)) => push_seqs m src plan have seqs w
               end
           end
  end.

(** The loop over the files; a file of which everything is there is not opened. *)
Fixpoint push_files (m : TransferBegin) (src : list (str * bytes)) (plan : list (nat * N * N))
    (have : list N) (idxs : list nat) (w : World) : World * result unit PushError :=
  match idxs with
  | [] => (w, Ok tt)
  | idx :: idxs =>
      let seqs := List.filter (λ s, match plan !! s with
                                    | Some (i, _, _) => bool_decide (i = idx)
                                    | None => false
                                    end) (seq 0 (length plan)) in
      if forallb (λ s, bool_decide (N.of_nat s ∈ have)) seqs then push_files m src plan have idxs w
      else match push_seqs m src plan have seqs w with
           | (w, Err e) => (w, Err e)
           | (w, Ok _) => push_files m src plan have idxs w
           end
  end.

(** After [begin] was answered with [have]. *)
Definition push_data (now : str) (m : TransferBegin) (src : list (str * bytes)) (have : list N) (w : World)
    : World * result PushDirOutcome PushError :=
  match plan_chunks (tb_files m) (tb_chunk_size m) with
  | None => (w, Err PushPlan)
  | Some plan =>
      match push_files m src plan have (seq 0 (length (tb_files m))) w with
      | (w, Err e) => (w, Err e)
      | (w, Ok _) =>
          match call (λ _ s, end_transfer now (tb_transfer_id m) s) w with
          | (w, None) => (w, Err PushTransport)
          | (w, Some (Err e)) => (w, Err (PushEnd e))
          | (w, Some (Ok _)) => (w, Ok PushDelivered)
          end
      end
  end.

Definition push_transfer_dir (now task kind node : str) (src : list (str * bytes)) (chunk max_bytes : N)
    (w : World) : World * result PushDirOutcome PushError :=
  if bool_decide (src = []) then (w, Ok PushNothingToSend)
  else
    let total := source_total src in
    if ((0 <? max_bytes) && (max_bytes <? total))%N then (w, Ok (PushOverlimit total max_bytes))
    else
      let m := begin_of task kind node src chunk in
      match call (λ _ s, begin m s) w with
      | (w, None) => (w, Err PushTransport)
      | (w, Some BeginDedup) => (w, Ok PushDelivered)
      | (w, Some BeginOverLimit) => (w, Ok (PushOverlimit total 0))
      | (w, Some (BeginError e)) => (w, Err (PushBegin e))
      | (w, Some (BeginOk have)) => push_data now m src have w
      end.
End Push.

(** ** Entries of the outbox *)

(** Times are seconds; [parse_rfc3339] and [to_rfc3339] are chrono's. *)
Class Rfc3339 := {
  parse_rfc3339 : str → option Z;
  to_rfc3339 : Z → str;
  parse_to_rfc3339 : ∀ t, parse_rfc3339 (to_rfc3339 t) = Some t;
}.

Definition st_pending : str := lit "pending".
Definition st_pushing : str := lit "pushing".
Definition st_over_limit : str := lit "over_limit".
Definition st_dead : str := lit "dead".

Record OutboxEntry := mkOutboxEntry {
  oe_task_id : str;
  oe_source_node : str;
  oe_state : str;
  oe_created_at : str;
  oe_attempts : N;
  oe_total_bytes : N;
  oe_next_retry_at : option str;
}.

Definition u32_max : N := (2 ^ 32 - 1)%N.

Definition PUSH_BACKOFF_BASE_SECS : N := 15.
Definition PUSH_BACKOFF_CAP_SECS : N := 600.
Definition DEAD_LETTER_AGE_SECS : Z := (7 * 24 * 3600)%Z.
Definition DEAD_LETTER_MAX_ATTEMPTS : N := 1000.

(** [saturating_sub], [min], shift, [saturating_mul], cap. *)
Definition push_backoff_secs (attempts : N) : N :=
  let shift := N.min (attempts - 1) 6 in
  N.min (N.min u64_max (PUSH_BACKOFF_BASE_SECS * N.shiftl 1 shift)) PUSH_BACKOFF_CAP_SECS.

Section Entries.
Context {RF : Rfc3339}.

Definition entry_age_secs (now : Z) (e : OutboxEntry) : option Z :=
  (λ c, (now - c)%Z) <$> parse_rfc3339 (oe_created_at e).

Definition dead_letter_age_due (now : Z) (e : OutboxEntry) : bool :=
  match entry_age_secs now e with
  | Some age => (DEAD_LETTER_AGE_SECS <=? age)%Z
  | None => false
  end.

Definition with_state (s : str) (e : OutboxEntry) : OutboxEntry :=
  mkOutboxEntry (oe_task_id e) (oe_source_node e) s (oe_created_at e) (oe_attempts e) (oe_total_bytes e)
    (oe_next_retry_at e).

(** The window of the last failure is still open. *)
Definition in_backoff (now : Z) (e : OutboxEntry) : bool :=
  match oe_next_retry_at e with
  | Some next =>
      match parse_rfc3339 next with
      | Some next => (now <? next)%Z
      | None => false
      end
  | None => false
  end.

Definition fail_entry (now : Z) (e : OutboxEntry) : OutboxEntry :=
  let attempts := sat_add u32_max (oe_attempts e) 1 in
  mkOutboxEntry (oe_task_id e) (oe_source_node e) st_pending (oe_created_at e) attempts (oe_total_bytes e)
    (Some (to_rfc3339 (now + Z.of_N (push_backoff_secs attempts))%Z)).

Definition dead_entry (e : OutboxEntry) : OutboxEntry :=
  mkOutboxEntry (oe_task_id e) (oe_source_node e) st_dead (oe_created_at e) (oe_attempts e) (oe_total_bytes e) None.

(** One entry in one round of [process_once]: [push] is the outcome of the attempt,
    if it comes to one; [None] when the entry and its files are deleted. *)
Definition process_entry (now : Z) (online : str → bool)
    (push : OutboxEntry → result PushDirOutcome PushError) (e : OutboxEntry) : option OutboxEntry :=
  if negb (bool_decide (oe_state e = st_pending)) then Some e
  else if (DEAD_LETTER_MAX_ATTEMPTS <=? oe_attempts e)%N || dead_letter_age_due now e then Some (dead_entry e)
  else if in_backoff now e then Some e
  else if negb (online (oe_source_node e)) then Some e
  else match push (with_state st_pushing e) with
       | Ok PushDelivered | Ok PushNothingToSend => None
       | Ok (PushOverlimit _ _) => Some (with_state st_over_limit e)
       | Err _ => Some (fail_entry now e)
       end.

(** [sweep_startup], its part on entries. *)
Definition rearm_entry (limit : N) (e : OutboxEntry) : OutboxEntry :=
  if bool_decide (oe_state e = st_pushing)
     || (bool_decide (oe_state e = st_over_limit) && ((limit =? 0)%N || (oe_total_bytes e <=? limit)%N))
  then with_state st_pending e else e.

(** [replay_dead_letter_entry]. *)
Definition replay_dead_letter_entry (now : Z) (e : OutboxEntry) : result OutboxEntry str :=
  if negb (bool_decide (oe_state e = st_dead)) then Err (oe_state e)
  else Ok (mkOutboxEntry (oe_task_id e) (oe_source_node e) st_pending (to_rfc3339 now) 0 (oe_total_bytes e) None).

(** Directory names of execution records. *)
Definition task_dir_matches (dir_name task_id : str) : bool :=
  ends_with ([c_under] ++ task_id) dir_name || ends_with ([c_under] ++ sanitize_transfer_id task_id) dir_name.
End Entries.

(** ** Requests of others *)

(** The staging directory that an event may touch. *)
Definition event_key (e : SinkEvent) : option str :=
  match e with
  | EvBegin req => Some (sanitize_transfer_id (tb_transfer_id req))
  | EvChunk _ req => Some (sanitize_transfer_id (tc_transfer_id req))
  | EvEnd _ id => Some (sanitize_transfer_id id)
  | EvSweep k => Some k
  | EvSetMax _ | EvIngest _ => None
  end.

Definition elsewhere (k : str) (e : SinkEvent) : Prop := event_key e ≠ Some k.

Section PushSpec.
Context {TG : Target} {SHA : Sha256} {B64 : Base64}.

Lemma set_staging_ne k k' v s : k ≠ k' → sk_staging (set_staging k v s) !! k' = sk_staging s !! k'.
Proof. intros H. by rewrite lookup_set_staging, bool_decide_false. Qed.

Lemma elsewhere_step k s e : elsewhere k e → sk_staging (sink_step s e) !! k = sk_staging s !! k.
Proof.
  unfold elsewhere. destruct e as [req|w req|now id|n|k'|k']; cbn [event_key sink_step]; intros H; try done;
    try (assert (∀ x y : str, Some x ≠ Some y → x ≠ y) as Hne by congruence; apply Hne in H).
  - unfold begin. repeat break_match; try done; cbn [fst]; by apply set_staging_ne.
  - unfold chunk. repeat break_match; try done; cbn [fst]; by apply set_staging_ne.
  - unfold end_transfer. repeat break_match; try done. cbn. by apply lookup_delete_ne.
  - by apply set_staging_ne.
Qed.

Lemma elsewhere_run k s es : Forall (elsewhere k) es → sk_staging (sink_run s es) !! k = sk_staging s !! k.
Proof.
  unfold sink_run. intros H. revert s. induction H as [|e es He _ IH]; intros s; cbn [fold_left]; [done|].
  by rewrite IH, elsewhere_step.
Qed.

(** ** One transfer *)

Variables (now : str) (m : TransferBegin) (src : list (str * bytes)).

Abbreviation key := (sanitize_transfer_id (tb_transfer_id m)).
Abbreviation plan := (reference_plan 0 (tb_files m) (tb_chunk_size m)).

(** The manifest is the sender's, for these files. *)
Record honest : Prop := {
  h_64 : is_64bit;
  h_src : source_ok src;
  h_total : (source_total src ≤ u64_max)%N;
  h_files : tb_files m = entry_of <$> src;
  h_chunk : (0 < tb_chunk_size m)%N;
  h_valid : validate_manifest m = Ok tt;
}.

Definition honest_chunks (chunks : gmap N bytes) : Prop :=
  ∀ q d, chunks !! q = Some d → ∃ c, plan !! N.to_nat q = Some c ∧ d = chunk_data src c.

(** The staging directory of the transfer is absent, or holds its manifest and
    pieces of its files. *)
Definition own (s : Sink) : Prop :=
  match sk_staging s !! key with
  | None => True
  | Some g => sg_manifest g = Some m ∧ honest_chunks (sg_chunks g)
  end.

(** Others stay away from the directory, and a chunk is written in full or not at
    all. *)
Definition clean_call (c : Call) : Prop :=
  Forall (elsewhere key) (c_before c) ∧ ∀ n, c_write c ≠ WriteFailAfter n.

Definition apart_call (c : Call) : Prop := Forall (elsewhere key) (c_before c).

Lemma own_same s s' : sk_staging s' !! key = sk_staging s !! key → own s → own s'.
Proof. unfold own. by intros ->. Qed.

Lemma own_set v s :
  match v with
  | None => True
  | Some g => sg_manifest g = Some m ∧ honest_chunks (sg_chunks g)
  end → own (set_staging key v s).
Proof. unfold own. by rewrite lookup_set_staging, bool_decide_true. Qed.

Lemma own_begin s : own s → own (fst (begin m s)).
Proof.
  intros Ho. unfold begin. destruct ((0 <? sk_max_bytes s) && _)%N; [done|].
  destruct (validate_manifest m) as [[]|]; [|done].
  match goal with |- context [if ?b then (s, BeginDedup) else _] => destruct b end; [done|].
  unfold own in Ho. destruct (sk_staging s !! key) as [[[m'|] chunks]|] eqn:E; cbn [sg_manifest sg_chunks] in Ho.
  - destruct Ho as [[= ->] Hc]. rewrite bool_decide_true by done. by apply own_set.
  - by destruct Ho.
  - apply own_set. split; [done|]. intros q d Hq. cbn in Hq. by rewrite lookup_empty in Hq.
Qed.

Lemma own_chunk w seq c total s :
  (∀ n, w ≠ WriteFailAfter n) → plan !! seq = Some c → own s →
  own (fst (chunk w (chunk_request m total seq (chunk_data src c)) s)).
Proof.
  intros Hw Hc Ho. unfold chunk, chunk_request. cbn [tc_data_b64 tc_sha256 tc_transfer_id tc_seq].
  rewrite b64_decode_encode, bool_decide_true by done. cbn [negb].
  unfold own in Ho. destruct (sk_staging s !! key) as [[[m'|] chunks]|] eqn:E; cbn [sg_manifest sg_chunks] in Ho;
    [| by destruct Ho | unfold own; cbn [fst]; by rewrite E].
  destruct Ho as [[= ->] Hh].
  assert (own s) as Hs by (unfold own; rewrite E; done).
  repeat break_match; cbn [fst]; try done; [|by destruct (Hw n)].
  apply own_set. split; [done|]. cbn. intros q d [[<- <-]|[_ Hq]]%lookup_insert_Some; [|by apply Hh].
  exists c. by rewrite Nat2N.id.
Qed.

Lemma own_end s : own s → own (fst (end_transfer now (tb_transfer_id m) s)).
Proof.
  intros Ho. unfold end_transfer.
  destruct (sk_staging s !! key) as [[[m'|] chunks]|] eqn:E; [|done|by destruct (sk_done s !! _)].
  destruct (assembled m' chunks); [|done]. unfold own. cbn. by rewrite lookup_delete_eq.
Qed.

(** What holds of every call holds of a push. *)
Section Invariant.
Variables (P : Sink → Prop) (good : Call → Prop).
Hypothesis P_before : ∀ c s, good c → P s → P (sink_run s (c_before c)).
Hypothesis P_begin : ∀ s, P s → P (fst (begin m s)).
Hypothesis P_chunk : ∀ w seq c total s, (w = WriteOk ∨ ∃ cl, good cl ∧ c_write cl = w) → plan !! seq = Some c →
  P s → P (fst (chunk w (chunk_request m total seq (chunk_data src c)) s)).
Hypothesis P_end : ∀ s, P s → P (fst (end_transfer now (tb_transfer_id m) s)).

Definition P_world (w : World) : Prop := P (w_sink w) ∧ Forall good (w_net w).

Lemma P_call {R} (f : WriteOutcome → Sink → Sink * R) w w' r :
  (∀ wr s, (wr = WriteOk ∨ ∃ cl, good cl ∧ c_write cl = wr) → P s → P (fst (f wr s))) →
  P_world w → call f w = (w', r) → P_world w'.
Proof.
  intros Hf [HP Hg]. unfold call. destruct (w_net w) as [|c net].
  - destruct (f WriteOk (w_sink w)) as [s r'] eqn:E. intros [= <- _]. split; [|done].
    specialize (Hf WriteOk (w_sink w) (or_introl eq_refl) HP). by rewrite E in Hf.
  - apply Forall_cons in Hg as [Hc Hg]. pose proof (P_before _ _ Hc HP) as HP'.
    assert (P (fst (f (c_write c) (sink_run (w_sink w) (c_before c))))) as Hfs by (apply Hf; [right; by exists c|done]).
    destruct (c_fate c).
    + destruct (f (c_write c) _) as [s r'] eqn:E. intros [= <- _]. by split.
    + intros [= <- _]. by split.
    + intros [= <- _]. by split.
Qed.

Lemma P_push_seqs have seqs w w' r :
  P_world w → push_seqs m src plan have seqs w = (w', r) → P_world w'.
Proof.
  revert w. induction seqs as [|seq seqs IH]; intros w Hw H; cbn [push_seqs] in H; [by injection H as <- _|].
  destruct (bool_decide _); [by eapply IH|]. destruct (plan !! seq) as [c|] eqn:Ec; [|by injection H as <- _].
  destruct (call _ w) as [w1 r1] eqn:E. assert (P_world w1) as Hw1.
  { eapply P_call; [|exact Hw|exact E]. intros wr s Hwr Hs. by apply P_chunk. }
  destruct r1 as [[[]|e]|]; [by eapply IH|by injection H as <- _..].
Qed.

Lemma P_push_files have idxs w w' r :
  P_world w → push_files m src plan have idxs w = (w', r) → P_world w'.
Proof.
  revert w. induction idxs as [|idx idxs IH]; intros w Hw H; cbn [push_files] in H; [by injection H as <- _|].
  match type of H with (if ?b then _ else _) = _ => destruct b; [by eapply IH|] end.
  match type of H with (match push_seqs _ _ _ _ ?l _ with _ => _ end) = _ =>
    destruct (push_seqs m src plan have l w) as [w1 r1] eqn:E end.
  apply P_push_seqs in E; [|done]. destruct r1 as [[]|e]; [by eapply IH|by injection H as <- _].
Qed.

Lemma P_push_data have w w' r :
  honest → P_world w → push_data now m src have w = (w', r) → P_world w'.
Proof.
  intros Hh Hw. unfold push_data. destruct (plan_chunks _ _) as [p|] eqn:Ep; [|by intros [= <- _]].
  assert (p = plan) as ->.
  { destruct Hh. rewrite plan_chunks_eq in Ep; [by injection Ep|done| |done]. rewrite h_files0.
    apply Forall_fmap. eapply Forall_impl; [apply h_src0|]. by intros x [_ Hx]. }
  destruct (push_files _ _ _ _ _ _) as [w1 r1] eqn:E. apply P_push_files in E; [|done].
  destruct r1 as [[]|e]; [|by intros [= <- _]].
  destruct (call _ w1) as [w2 r2] eqn:E2. assert (P_world w2) as Hw2.
  { eapply P_call; [|exact E|exact E2]. intros wr s _ Hs. by apply P_end. }
  destruct r2 as [[|]|]; by intros [= <- _].
Qed.
End Invariant.
End PushSpec.

(** ** A reliable attempt *)

Lemma reference_plan_entry files cs : ∀ idx0 c,
  c ∈ reference_plan idx0 files cs → (c.1.1 < idx0 + length files)%nat ∧ (c.2 ≤ cs)%N.
Proof.
  induction files as [|f files IH]; intros idx0 c Hc; cbn in Hc; [by apply elem_of_nil in Hc|].
  apply elem_of_app in Hc as [Hc|Hc].
  - apply list_elem_of_fmap in Hc as (j & -> & _). cbn. lia.
  - apply IH in Hc. cbn [length]. lia.
Qed.

Lemma source_total_size {SHA : Sha256} src : total_size (entry_of <$> src) = source_total src.
Proof.
  induction src as [|x src IH]; [done|].
  change (len (snd x) + total_size (entry_of <$> src) = len (snd x) + source_total src)%N. by rewrite IH.
Qed.

Lemma total_chunks_le files cs : (0 < cs)%N → (total_chunks files cs ≤ total_size files)%N.
Proof.
  intros Hc. induction files as [|f files IH]; [done|].
  change (div_ceil (fe_size f) cs + total_chunks files cs ≤ fe_size f + total_size files)%N.
  pose proof (div_ceil_le (fe_size f) cs Hc). lia.
Qed.

Lemma source_u64 {SHA : Sha256} src : source_ok src → Forall (λ f, u64 (fe_size f)) (entry_of <$> src).
Proof. intros Hs. apply Forall_fmap. eapply Forall_impl; [apply Hs|]. by intros x [_ Hx]. Qed.

Section Reliable.
Context {TG : Target} {SHA : Sha256} {B64 : Base64}.
Variables (now : str) (m : TransferBegin) (src : list (str * bytes)).

Abbreviation key := (sanitize_transfer_id (tb_transfer_id m)).
Abbreviation plan := (reference_plan 0 (tb_files m) (tb_chunk_size m)).

Hypothesis Hm : honest m src.

Lemma honest_count : tb_chunk_count m = N.of_nat (length plan).
Proof.
  destruct Hm as [H64 Hs Ht Hf Hc Hv]. apply validate_manifest_Ok in Hv as (_ & _ & _ & _ & _ & -> & _).
  rewrite chunk_count_eq; [|done|by rewrite Hf; apply source_u64|done]. rewrite reference_plan_length.
  pose proof (total_chunks_le (tb_files m) (tb_chunk_size m) Hc) as Hle. rewrite Hf, source_total_size, <- Hf in Hle.
  unfold is_64bit in H64. lia.
Qed.

(** The staging directory with the manifest and these chunk files. *)
Definition staged (chunks : gmap N bytes) (w : World) : Prop :=
  w_net w = [] ∧ sk_staging (w_sink w) !! key = Some (mkStaging (Some m) chunks) ∧ honest_chunks m src chunks.

Definition grows (a b : gmap N bytes) : Prop := ∀ q, is_Some (a !! q) → is_Some (b !! q).

Lemma chunk_accepted chunks w seq c :
  staged chunks w → plan !! seq = Some c →
  ∃ w', call (λ wr s, chunk wr (chunk_request m (length plan) seq (chunk_data src c)) s) w = (w', Some (Ok tt)) ∧
    staged (<[N.of_nat seq := chunk_data src c]> chunks) w'.
Proof.
  intros (Hn & Hk & Hh) Hc. unfold call. rewrite Hn. unfold chunk, chunk_request.
  cbn [tc_data_b64 tc_sha256 tc_transfer_id tc_seq]. rewrite b64_decode_encode, bool_decide_true by done. cbn [negb].
  rewrite Hk, honest_count. pose proof (lookup_lt_Some _ _ _ Hc) as Hlt.
  destruct (N.leb_spec (N.of_nat (length plan)) (N.of_nat seq)); [lia|].
  destruct (reference_plan_entry _ _ _ _ (list_elem_of_lookup_2 _ _ _ Hc)) as [_ Hs].
  destruct (N.ltb_spec (tb_chunk_size m) (len (chunk_data src c))) as [Hbad|_].
  { destruct c as [[idx off] n]. cbn in Hbad, Hs. destruct (src !! idx); [|unfold len in Hbad; cbn in Hbad; lia].
    unfold slice, len in Hbad. rewrite length_take in Hbad. lia. }
  eexists. split; [reflexivity|]. split; [done|]. cbn [w_sink]. rewrite lookup_set_staging, bool_decide_true by done.
  split; [done|]. intros q d [[<- <-]|[_ Hq]]%lookup_insert_Some; [|by apply Hh]. exists c. by rewrite Nat2N.id.
Qed.

Lemma push_seqs_reliable have seqs : ∀ chunks w,
  staged chunks w → Forall (λ s, s < length plan)%nat seqs →
  (∀ s, N.of_nat s ∈ have → is_Some (chunks !! N.of_nat s)) →
  ∃ w' chunks', push_seqs m src plan have seqs w = (w', Ok tt) ∧ staged chunks' w' ∧ grows chunks chunks' ∧
    ∀ s, s ∈ seqs → is_Some (chunks' !! N.of_nat s).
Proof.
  induction seqs as [|s seqs IH]; intros chunks w Hw Hlt Hhave; cbn [push_seqs].
  - exists w, chunks. split; [done|]. split; [done|]. split; [by intros q|]. intros s Hs. by apply elem_of_nil in Hs.
  - apply Forall_cons in Hlt as [Hs Hlt]. case_bool_decide as Hin.
    + destruct (IH chunks w Hw Hlt Hhave) as (w' & chunks' & E & Hst & Hg & Hall).
      exists w', chunks'. split; [done|]. split; [done|]. split; [done|].
      intros q [->|Hq]%elem_of_cons; [by apply Hg, Hhave|by apply Hall].
    + apply lookup_lt_is_Some in Hs as [c Hc]. rewrite Hc.
      destruct (chunk_accepted chunks w s c Hw Hc) as (w1 & -> & Hst1).
      destruct (IH _ w1 Hst1 Hlt) as (w' & chunks' & E & Hst & Hg & Hall).
      { intros q Hq. apply lookup_insert_is_Some'. right. by apply Hhave. }
      exists w', chunks'. split; [done|]. split; [done|]. split.
      * intros q Hq. apply Hg, lookup_insert_is_Some'. by right.
      * intros q [->|Hq]%elem_of_cons; [|by apply Hall]. apply Hg, lookup_insert_is_Some'. by left.
Qed.

Definition file_seqs (idx : nat) : list nat :=
  List.filter (λ s, match plan !! s with
                    | Some (i, _, _) => bool_decide (i = idx)
                    | None => false
                    end) (seq 0 (length plan)).

Lemma elem_file_seqs idx s : s ∈ file_seqs idx ↔ ∃ c, plan !! s = Some c ∧ c.1.1 = idx.
Proof.
  unfold file_seqs. rewrite list_elem_of_In, filter_In, <- list_elem_of_In, elem_of_seq. split.
  - intros [_ H]. destruct (plan !! s) as [[[i o] n]|]; [|done]. exists (i, o, n). by bool_simpl.
  - intros ([[i o] n] & Hc & <-). apply lookup_lt_Some in Hc as Hlt. split; [lia|]. rewrite Hc. by apply bool_decide_eq_true.
Qed.

Lemma push_files_reliable have idxs : ∀ chunks w,
  staged chunks w → (∀ s, N.of_nat s ∈ have → is_Some (chunks !! N.of_nat s)) →
  ∃ w' chunks', push_files m src plan have idxs w = (w', Ok tt) ∧ staged chunks' w' ∧ grows chunks chunks' ∧
    ∀ s c, plan !! s = Some c → c.1.1 ∈ idxs → is_Some (chunks' !! N.of_nat s).
Proof.
  induction idxs as [|idx idxs IH]; intros chunks w Hw Hhave; cbn [push_files].
  - exists w, chunks. split; [done|]. split; [done|]. split; [by intros q|]. intros s c _ Hs. by apply elem_of_nil in Hs.
  - fold (file_seqs idx).
    assert (∃ w1 chunks1, (if forallb (λ s, bool_decide (N.of_nat s ∈ have)) (file_seqs idx) then push_files m src plan have idxs w
       else match push_seqs m src plan have (file_seqs idx) w with
            | (w, Ok _) => push_files m src plan have idxs w
            | (w, Err e) => (w, Err e) end) = push_files m src plan have idxs w1 ∧ staged chunks1 w1 ∧ grows chunks chunks1 ∧
       ∀ s, s ∈ file_seqs idx → is_Some (chunks1 !! N.of_nat s)) as (w1 & chunks1 & E1 & Hst1 & Hg1 & Hall1).
    { destruct (forallb _ _) eqn:Ef.
      - exists w, chunks. split; [done|]. split; [done|]. split; [by intros q|]. intros s Hs. apply Hhave.
        rewrite forallb_Forall_true, Forall_forall in Ef. specialize (Ef s Hs). by bool_simpl.
      - destruct (push_seqs_reliable have (file_seqs idx) chunks w Hw) as (w1 & chunks1 & E & Hrest).
        + apply Forall_forall. intros s (c & Hc & _)%elem_file_seqs. by eapply lookup_lt_Some.
        + done.
        + exists w1, chunks1. by rewrite E. }
    rewrite E1. destruct (IH chunks1 w1 Hst1) as (w' & chunks' & E & Hst & Hg & Hall).
    { intros s Hs. by apply Hg1, Hhave. }
    exists w', chunks'. split; [done|]. split; [done|]. split; [by intros q Hq; apply Hg, Hg1|].
    intros s c Hc Hin. apply elem_of_cons in Hin as [Hidx|Hin]; [|by eapply Hall].
    apply Hg, Hall1, elem_file_seqs. by exists c.
Qed.

(** With the manifest staged and no more interference, the push goes through. *)
Lemma push_data_reliable have chunks w :
  staged chunks w → (∀ s, N.of_nat s ∈ have → is_Some (chunks !! N.of_nat s)) →
  ∃ w', push_data now m src have w = (w', Ok PushDelivered) ∧
    sk_inbox (w_sink w') !! safe_task_file_name (tb_task_id m) = Some (mkLanded (source_tree src) m).
Proof.
  intros Hw Hhave. unfold push_data. pose proof Hm as [H64 Hs _ Hf Hc _].
  rewrite plan_chunks_eq; [|done|by rewrite Hf; apply source_u64|done].
  destruct (push_files_reliable have (seq 0 (length (tb_files m))) chunks w Hw Hhave)
    as (w1 & chunks1 & -> & (Hn & Hk & Hh) & _ & Hall).
  assert (assembled m chunks1 = Ok (source_tree src)) as Ha.
  { apply (reassemble src (tb_chunk_size m) chunks1); try done. rewrite <- Hf. intros j c Hj. cbn [Nat.add].
    destruct (Hall j c Hj) as [d Hd].
    { apply elem_of_seq. destruct (reference_plan_entry _ _ _ _ (list_elem_of_lookup_2 _ _ _ Hj)). lia. }
    destruct (Hh _ _ Hd) as (c' & Hc' & ->). rewrite Nat2N.id, Hj in Hc'. injection Hc' as <-. done. }
  unfold call. rewrite Hn. unfold end_transfer. rewrite Hk, Ha.
  eexists. split; [reflexivity|]. cbn. by rewrite lookup_insert_eq.
Qed.
End Reliable.

(** ** The whole push *)

(** A directory that can be sent. *)
Record sendable_source (task : str) (src : list (str * bytes)) (chunk : N) : Prop := {
  ss_files : src ≠ [];
  ss_task : task ≠ [];
  ss_ok : source_ok src;
  ss_total : (source_total src ≤ u64_max)%N;
  ss_chunk : (0 < chunk)%N;
}.

Section Whole.
Context {TG : Target} {SHA : Sha256} {B64 : Base64}.

Lemma validate_files_source src : ∀ total,
  Forall (λ x, is_ok (safe_relative_path (fst x)) = true) src →
  (total + source_total src ≤ u64_max)%N →
  validate_files (entry_of <$> src) total = Ok (total + source_total src)%N.
Proof.
  induction src as [|x src IH]; intros total Hp Ht.
  - cbn. by rewrite N.add_0_r.
  - apply Forall_cons in Hp as [Hx Hp].
    change (source_total (x :: src)) with (len (snd x) + source_total src)%N in *.
    cbn [fmap list_fmap validate_files entry_of fe_path fe_size].
    destruct (safe_relative_path (fst x)); [|done]. unfold sat_add. rewrite N.min_r by lia.
    rewrite IH by (done || lia). f_equal. lia.
Qed.

Lemma begin_of_honest task kind node src chunk :
  is_64bit → sendable_source task src chunk → honest (begin_of task kind node src chunk) src.
Proof.
  intros H64 [Hf Ht Hs Hsum Hc]. split; try done. unfold validate_manifest, begin_of. cbn.
  rewrite bool_decide_false by (unfold transfer_id; destruct (sanitize_transfer_id task); done).
  rewrite bool_decide_false by done. cbn [orb]. rewrite (proj2 (N.eqb_neq _ _)) by lia.
  rewrite validate_files_source; [|eapply Forall_impl; [apply Hs|]; by intros x [? _]|lia].
  rewrite N.add_0_l, !N.eqb_refl. cbn [negb]. rewrite bool_decide_false; [done|].
  intros E. apply (f_equal length) in E. unfold content_hash in E. by rewrite sha256_length in E.
Qed.

(** What a verified landing with the manifest of a source holds: the source, or the
    digest has a collision. *)
Lemma landed_source src m t :
  source_ok src → tb_files m = entry_of <$> src → landed_ok (mkLanded t m) →
  t = source_tree src ∨ collision.
Proof.
  intros Hs Hf [Hfiles Honly]. cbn [ld_files ld_manifest] in *. rewrite Hf in *.
  assert (∀ x, x ∈ src → ∃ d, t !! comps_of (fst x) = Some d ∧ sha256_hex d = sha256_hex (snd x)) as Hx.
  { intros x Hx. destruct (Hfiles (entry_of x)) as (p & d & Hp & Hd & _ & Hsha); [by apply list_elem_of_fmap_2|].
    exists d. unfold comps_of. cbn [entry_of fe_path fe_sha256] in *. by rewrite Hp. }
  destruct (decide (Forall (λ x, t !! comps_of (fst x) = Some (snd x)) src)) as [Hall|Hex].
  - left. apply map_eq. intros p. destruct (t !! p) as [d|] eqn:Ed.
    + destruct (Honly p) as (f & Hin & Hp); [by exists d|]. apply list_elem_of_fmap in Hin as (x & -> & Hin).
      cbn in Hp. assert (p = comps_of (fst x)) as -> by (unfold comps_of; by rewrite Hp).
      rewrite source_tree_lookup by done. rewrite Forall_forall in Hall. rewrite (Hall x Hin) in Ed. done.
    + destruct (source_tree src !! p) as [d|] eqn:E; [|done].
      apply elem_of_list_to_map_2, list_elem_of_fmap in E as (x & E & Hin). injection E as -> ->.
      rewrite Forall_forall in Hall. by rewrite (Hall x Hin) in Ed.
  - right. apply not_Forall_Exists, Exists_exists in Hex as (x & Hin & Hne); [|intros x; apply _]. destruct (Hx x Hin) as (d & Hd & Hsha).
    exists d, (snd x). split; [|done]. intros ->. by apply Hne.
Qed.

(** The state after [begin] said ok: our manifest is staged. *)
Definition manifested (m : TransferBegin) (s : Sink) : Prop :=
  ∃ chunks, sk_staging s !! sanitize_transfer_id (tb_transfer_id m) = Some (mkStaging (Some m) chunks).

Lemma begin_ok_manifested m s s' have : begin m s = (s', BeginOk have) → manifested m s'.
Proof.
  unfold begin. repeat break_match; try done; intros [= <- _];
    (eexists; rewrite lookup_set_staging, bool_decide_true by done; reflexivity).
Qed.

Lemma chunk_manifested m w seq total d s :
  manifested m s → manifested m (fst (chunk w (chunk_request m total seq d) s)).
Proof.
  intros [chunks Hk]. unfold chunk, chunk_request. cbn [tc_data_b64 tc_sha256 tc_transfer_id tc_seq].
  rewrite Hk. repeat break_match; cbn [fst]; try (by exists chunks);
    (eexists; rewrite lookup_set_staging, bool_decide_true by done; reflexivity).
Qed.

Lemma call_answer {R} (f : WriteOutcome → Sink → Sink * R) w w' r :
  call f w = (w', Some r) →
  ∃ es wr, f wr (sink_run (w_sink w) es) = (w_sink w', r) ∧
    (∀ P, Forall P (concat (c_before <$> w_net w)) → Forall P es ∧ Forall P (concat (c_before <$> w_net w'))).
Proof.
  unfold call. destruct (w_net w) as [|c net].
  - destruct (f WriteOk (w_sink w)) as [s r'] eqn:E. intros [= <- <-]. exists [], WriteOk. split; [done|].
    intros P _. by split.
  - destruct (c_fate c); [|done..]. destruct (f (c_write c) _) as [s r'] eqn:E. intros [= <- <-].
    exists (c_before c), (c_write c). split; [done|]. intros P HP. cbn in HP. by apply Forall_app in HP.
Qed.

Lemma end_answer now m w w' r :
  manifested m (w_sink w) → Forall (apart_call m) (w_net w) →
  call (λ _ s, end_transfer now (tb_transfer_id m) s) w = (w', Some (Ok r)) →
  ∃ t, sk_inbox (w_sink w') !! safe_task_file_name (tb_task_id m) = Some (mkLanded t m) ∧ landed_ok (mkLanded t m).
Proof.
  intros [chunks Hk] Hn H. apply call_answer in H as (es & _ & H & Hes).
  destruct (Hes (elsewhere (sanitize_transfer_id (tb_transfer_id m)))) as [He _].
  { apply Forall_concat, Forall_fmap. by eapply Forall_impl. }
  unfold end_transfer in H. rewrite elsewhere_run, Hk in H by done.
  destruct (assembled m chunks) as [t|] eqn:Ea; [|done]. injection H as <- _.
  exists t. split; [cbn; by rewrite lookup_insert_eq|by apply assembled_ok in Ea].
Qed.

Lemma push_data_integrity now m src have w w' :
  honest m src → manifested m (w_sink w) → Forall (apart_call m) (w_net w) →
  push_data now m src have w = (w', Ok PushDelivered) →
  ∃ t, sk_inbox (w_sink w') !! safe_task_file_name (tb_task_id m) = Some (mkLanded t m) ∧
    (t = source_tree src ∨ collision).
Proof.
  intros Hm Hst Hn. unfold push_data. destruct (plan_chunks _ _) as [p|] eqn:Ep; [|done].
  assert (p = reference_plan 0 (tb_files m) (tb_chunk_size m)) as ->.
  { destruct Hm. rewrite plan_chunks_eq in Ep; [by injection Ep|done| |done]. rewrite h_files0. by apply source_u64. }
  destruct (push_files _ _ _ _ _ _) as [w1 r1] eqn:E1.
  assert (P_world (manifested m) (apart_call m) w1) as [Hst1 Hn1].
  { eapply (P_push_files m src (manifested m) (apart_call m)); [| |by split|exact E1].
    - intros c s Hc [chunks Hk]. exists chunks. by rewrite elsewhere_run.
    - intros wr seq c total s _ _. apply chunk_manifested. }
  destruct r1 as [[]|]; [|done].
  destruct (call _ w1) as [w2 [[r|]|]] eqn:E2; [|done..]. intros [= <-].
  destruct (end_answer now m w1 w2 r Hst1 Hn1 E2) as (t & Ht & Hok). exists t. split; [done|].
  destruct Hm. by apply (landed_source src m t).
Qed.
End Whole.

Section Theorems.
Context {TG : Target} {SHA : Sha256} {B64 : Base64}.

(** A whole attempt keeps the staging directory clean. *)
Lemma push_own now task kind node src chunk max_bytes w w' r :
  let m := begin_of task kind node src chunk in
  is_64bit → sendable_source task src chunk → own m src (w_sink w) → Forall (clean_call m) (w_net w) →
  push_transfer_dir now task kind node src chunk max_bytes w = (w', r) → own m src (w_sink w').
Proof.
  intros m H64 Hs Ho Hn. unfold push_transfer_dir. destruct (bool_decide (src = [])); [by intros [= <- _]|].
  destruct ((0 <? max_bytes) && _)%N; [by intros [= <- _]|]. fold m.
  assert (∀ c s, clean_call m c → own m src s → own m src (sink_run s (c_before c))) as Hb.
  { intros c s [Hc _] Hos. eapply own_same; [|exact Hos]. by apply elsewhere_run. }
  assert (∀ w seq c total s, (w = WriteOk ∨ ∃ cl, clean_call m cl ∧ c_write cl = w) →
    reference_plan 0 (tb_files m) (tb_chunk_size m) !! seq = Some c →
    own m src s → own m src (fst (Transfer.chunk w (chunk_request m total seq (chunk_data src c)) s))) as Hc.
  { intros wr seq c total s Hwr Hc Hos. apply own_chunk; [|done..].
    intros n ->. destruct Hwr as [?|(cl & [_ Hcl] & E)]; [done|by eapply Hcl]. }
  destruct (call _ w) as [w1 r1] eqn:E1.
  assert (P_world (own m src) (clean_call m) w1) as Hw1.
  { eapply (P_call (own m src)); [exact Hb| |by split|exact E1]. intros wr s _. apply own_begin. }
  destruct r1 as [[|e| |have]|]; try (intros [= <- _]; apply Hw1).
  intros E2. eapply (P_push_data now m src (own m src) (clean_call m)) in E2;
    [apply E2|exact Hb|exact Hc|intros s; apply own_end|by apply begin_of_honest|exact Hw1].
Qed.

(** Attempts one after the other, each over a transport of its own, whatever their
    outcomes. *)
Fixpoint attempts (now task kind node : str) (src : list (str * bytes)) (chunk max_bytes : N)
    (nets : list (list Call)) (s : Sink) : Sink :=
  match nets with
  | [] => s
  | net :: nets =>
      attempts now task kind node src chunk max_bytes nets
        (w_sink (fst (push_transfer_dir now task kind node src chunk max_bytes (mkWorld s net))))
  end.

Lemma attempts_own now task kind node src chunk max_bytes nets : ∀ s,
  is_64bit → sendable_source task src chunk → own (begin_of task kind node src chunk) src s →
  Forall (Forall (clean_call (begin_of task kind node src chunk))) nets →
  own (begin_of task kind node src chunk) src (attempts now task kind node src chunk max_bytes nets s).
Proof.
  induction nets as [|net nets IH]; intros s H64 Hs Ho Hn; [done|]. cbn [attempts].
  apply Forall_cons in Hn as [Hn1 Hn]. apply IH; [done..| |done].
  destruct (push_transfer_dir now task kind node src chunk max_bytes (mkWorld s net)) as [w' r] eqn:E.
  by eapply push_own in E.
Qed.

(** Also: End to end: when a push reports the directory as delivered, then the inbox
    of the peer holds, under the name of the task, exactly the files of the
    directory with their contents, unless SHA-256 has a collision or the peer
    answered that it has a directory with this content hash already.  Requests and
    answers may have been lost, chunk files written in part, and any requests of
    others served in between, as long as they are about other transfers. *)
Theorem push_integrity now task kind node src chunk max_bytes w w' :
  let m := begin_of task kind node src chunk in
  is_64bit → sendable_source task src chunk → Forall (apart_call m) (w_net w) →
  push_transfer_dir now task kind node src chunk max_bytes w = (w', Ok PushDelivered) →
  (∃ t, sk_inbox (w_sink w') !! safe_task_file_name task = Some (mkLanded t m) ∧
     (t = source_tree src ∨ collision)) ∨
  (∃ e, sk_dedup (w_sink w') !! task = Some e ∧ de_content_hash e = content_hash (entry_of <$> src) ∧
     is_Some (sk_inbox (w_sink w') !! safe_task_file_name task)).
Proof.
  intros m H64 Hs Hn. pose proof (begin_of_honest task kind node src chunk H64 Hs) as Hm. fold m in Hm.
  unfold push_transfer_dir. destruct (bool_decide (src = [])); [done|].
  destruct ((0 <? max_bytes) && _)%N; [done|]. fold m.
  destruct (call _ w) as [w1 [[|e| |have]|]] eqn:E1; try done; apply call_answer in E1 as (es & _ & E1 & Hes).
  - intros [= <-]. right. revert E1. unfold begin. repeat break_match; try done. intros [= <-].
    bool_simpl. eauto.
  - intros E2. left. eapply (push_data_integrity now m src have w1 w'); [done| | |done].
    + by eapply begin_ok_manifested.
    + apply (Forall_fmap c_before (Forall (elsewhere _))), Forall_concat, Hes, Forall_concat, Forall_fmap. done.
Qed.

(** C36: Interrupted transfers are taken up where they stopped: after any number of
    attempts, however they ended and whatever was lost, an attempt over a transport
    that works delivers, and the inbox then holds exactly the files of the
    directory (or the peer had them already).  Chunk files must have been written
    in full or not at all, the limit must admit the directory, and others must have
    left the staging directory of the transfer alone. *)
Theorem push_resumes now task kind node src chunk max_bytes nets s0 :
  let m := begin_of task kind node src chunk in
  let s := attempts now task kind node src chunk max_bytes nets s0 in
  is_64bit → sendable_source task src chunk → own m src s0 → Forall (Forall (clean_call m)) nets →
  (max_bytes = 0 ∨ source_total src ≤ max_bytes)%N → (sk_max_bytes s = 0 ∨ source_total src ≤ sk_max_bytes s)%N →
  ∃ w', push_transfer_dir now task kind node src chunk max_bytes (mkWorld s []) = (w', Ok PushDelivered) ∧
    (snd (begin m s) = BeginDedup ∨
     sk_inbox (w_sink w') !! safe_task_file_name task = Some (mkLanded (source_tree src) m)).
Proof.
  intros m s H64 Hs Ho Hn Hmax Hlim. pose proof (begin_of_honest task kind node src chunk H64 Hs) as Hm. fold m in Hm.
  pose proof (attempts_own now task kind node src chunk max_bytes nets s0 H64 Hs Ho Hn) as Hos. fold m s in Hos.
  unfold push_transfer_dir. rewrite bool_decide_false by apply Hs.
  assert (((0 <? max_bytes) && (max_bytes <? source_total src))%N = false) as ->.
  { apply andb_false_iff. rewrite !N.ltb_ge. lia. }
  fold m. unfold call. cbn [w_net w_sink]. pose proof (own_begin m src s Hos) as Hob.
  assert (((0 <? sk_max_bytes s) && (sk_max_bytes s <? tb_total_bytes m))%N = false) as Hl.
  { apply andb_false_iff. rewrite !N.ltb_ge. cbn. lia. }
  destruct (begin m s) as [s1 r] eqn:Eb. pose proof Eb as Eb'. unfold begin in Eb. rewrite Hl, (h_valid _ _ Hm) in Eb.
  match type of Eb with (if ?b then _ else _) = _ => destruct b end.
  { injection Eb as <- <-. eexists. split; [reflexivity|]. by left. }
  assert (∃ have, r = BeginOk have ∧ ∃ chunks, sk_staging s1 !! sanitize_transfer_id (tb_transfer_id m) = Some (mkStaging (Some m) chunks) ∧
    ∀ q, N.of_nat q ∈ have → is_Some (chunks !! N.of_nat q)) as (have & -> & chunks & Hk & Hhave).
  { match type of Eb with match ?o with Some _ => _ | None => _ end = _ => destruct o as [chunks|] end;
      injection Eb as <- <-; eexists; (split; [reflexivity|]); eexists;
      (split; [rewrite lookup_set_staging, bool_decide_true by done; reflexivity|]).
    - intros q Hq. unfold list_received_chunks in Hq. rewrite list_elem_of_In, filter_In in Hq.
      destruct Hq as [_ Hq]. by apply bool_decide_eq_true in Hq.
    - intros q Hq. by apply elem_of_nil in Hq. }
  cbn [fst] in Hob. unfold own in Hob. rewrite Hk in Hob.
  destruct (push_data_reliable now m src Hm have chunks (mkWorld s1 [])) as (w' & E & Hi).
  - split; [done|]. split; [done|]. apply Hob.
  - done.
  - exists w'. rewrite E. split; [done|]. by right.
Qed.
End Theorems.

(** ** Entries *)

Lemma push_backoff_bounds a : (15 ≤ push_backoff_secs a ≤ 600)%N.
Proof.
  unfold push_backoff_secs, PUSH_BACKOFF_BASE_SECS, PUSH_BACKOFF_CAP_SECS, u64_max.
  rewrite N.shiftl_1_l. pose proof (N.pow_le_mono_r 2 0 (N.min (a - 1) 6)). cbn in *. lia.
Qed.

Section EntrySpec.
Context {RF : Rfc3339}.

(** Also: The outbox loses nothing: a round deletes an entry only after its push
    reported delivery or an empty directory; every other outcome keeps the entry,
    with its task and peer, as it was or in a state that says what happened, and
    the states that wait for somebody (dead, over the limit) are never pushed. *)
Theorem entry_kept now online push e :
  match process_entry now online push e with
  | None =>
      oe_state e = st_pending ∧ online (oe_source_node e) = true ∧
      (push (with_state st_pushing e) = Ok PushDelivered ∨ push (with_state st_pushing e) = Ok PushNothingToSend)
  | Some e' =>
      oe_task_id e' = oe_task_id e ∧ oe_source_node e' = oe_source_node e ∧ oe_created_at e' = oe_created_at e ∧
      (oe_state e ≠ st_pending → e' = e) ∧
      (oe_state e = st_pending → e' = e ∨
        (oe_state e' = st_dead ∧ (DEAD_LETTER_MAX_ATTEMPTS ≤ oe_attempts e ∨ dead_letter_age_due now e = true)%N) ∨
        (∃ t l, oe_state e' = st_over_limit ∧ push (with_state st_pushing e) = Ok (PushOverlimit t l)) ∨
        (∃ err, oe_state e' = st_pending ∧ push (with_state st_pushing e) = Err err))
  end.
Proof.
  unfold process_entry. case_bool_decide as Hp; cbn [negb]; [|by repeat split].
  destruct ((DEAD_LETTER_MAX_ATTEMPTS <=? oe_attempts e)%N || dead_letter_age_due now e) eqn:Ed.
  { repeat split; [done|]. intros _. right; left. split; [done|].
    apply orb_true_iff in Ed as [Ed|Ed]; [left; by apply N.leb_le in Ed|by right]. }
  destruct (in_backoff now e); [repeat split; intros _; by left|].
  destruct (online (oe_source_node e)) eqn:Eo; cbn [negb]; [|repeat split; intros _; by left].
  destruct (push (with_state st_pushing e)) as [[| |t l]|err] eqn:E.
  - repeat split; try done. by left.
  - repeat split; try done. by right.
  - repeat split; [done|]. intros _. right; right; left. by exists t, l.
  - repeat split; [done|]. intros _. right; right; right. by exists err.
Qed.

(** Rounds at which the peer cannot be reached by a push. *)
Fixpoint rounds (times : list Z) (online : str → bool) (push : OutboxEntry → result PushDirOutcome PushError)
    (e : OutboxEntry) : option OutboxEntry :=
  match times with
  | [] => Some e
  | t :: times => e ← process_entry t online push e; rounds times online push e
  end.

(** Also: A failure is followed by a pause of 15 seconds to 10 minutes that does not
    shrink while failures go on; and an entry that keeps failing, at whatever
    times it is tried, never gets its counter past 1000, where it is parked as dead
    instead of being pushed again. *)
Theorem retries_bounded now e times online push e' :
  (∀ x, ∃ err, push x = Err err) → (oe_attempts e ≤ DEAD_LETTER_MAX_ATTEMPTS)%N →
  rounds times online push e = Some e' →
  (15 ≤ push_backoff_secs (oe_attempts e) ≤ 600)%N ∧
  (push_backoff_secs (oe_attempts e) ≤ push_backoff_secs (oe_attempts e'))%N ∧
  (oe_attempts e ≤ oe_attempts e' ≤ DEAD_LETTER_MAX_ATTEMPTS)%N ∧
  (oe_state e' = st_pending → oe_attempts e' = DEAD_LETTER_MAX_ATTEMPTS →
   process_entry now online push e' = Some (dead_entry e')).
Proof.
  intros Hfail Hle Hr.
  assert (oe_attempts e ≤ oe_attempts e' ≤ DEAD_LETTER_MAX_ATTEMPTS)%N as Ha.
  { revert e Hle Hr. induction times as [|t times IH]; intros e Hle Hr; cbn [rounds] in Hr.
    - injection Hr as <-. lia.
    - destruct (process_entry t online push e) as [e1|] eqn:E; [|done]. cbn in Hr.
      assert (oe_attempts e ≤ oe_attempts e1 ≤ DEAD_LETTER_MAX_ATTEMPTS)%N as H1.
      { revert E. unfold process_entry. destruct (negb _); [intros [= <-]; lia|].
        destruct (N.leb_spec DEAD_LETTER_MAX_ATTEMPTS (oe_attempts e)) as [|Hlt]; cbn [orb].
        { intros [= <-]. cbn. lia. }
        destruct (dead_letter_age_due t e); [intros [= <-]; cbn; lia|].
        destruct (in_backoff t e); [intros [= <-]; lia|]. destruct (negb _); [intros [= <-]; lia|].
        destruct (Hfail (with_state st_pushing e)) as [err ->]. intros [= <-].
        cbn. unfold sat_add, u32_max, DEAD_LETTER_MAX_ATTEMPTS in *. lia. }
      specialize (IH e1 (proj2 H1) Hr). lia. }
  split; [apply push_backoff_bounds|]. split; [|split; [done|]].
  - unfold push_backoff_secs. rewrite !N.shiftl_1_l.
    assert (N.min (oe_attempts e - 1) 6 ≤ N.min (oe_attempts e' - 1) 6)%N as Hm by lia.
    apply (N.pow_le_mono_r 2) in Hm; [|done]. unfold PUSH_BACKOFF_BASE_SECS, PUSH_BACKOFF_CAP_SECS. lia.
  - intros Hp Hmax. unfold process_entry. rewrite bool_decide_true by done. cbn [negb].
    by rewrite Hmax, N.leb_refl.
Qed.

(** Observed: A dead entry is put back by hand with a fresh age and no attempts, and
    is then pushed in the next round. *)
Theorem replay_revives now online push e e' :
  replay_dead_letter_entry now e = Ok e' → online (oe_source_node e) = true →
  oe_state e = st_dead ∧
  process_entry now online push e' =
    match push (with_state st_pushing e') with
    | Ok PushDelivered | Ok PushNothingToSend => None
    | Ok (PushOverlimit _ _) => Some (with_state st_over_limit e')
    | Err _ => Some (fail_entry now e')
    end.
Proof.
  unfold replay_dead_letter_entry. case_bool_decide as Hd; [|done]. cbn [negb]. intros [= <-] Ho. split; [done|].
  unfold process_entry, dead_letter_age_due, entry_age_secs. cbn. rewrite parse_to_rfc3339. cbn.
  rewrite Z.sub_diag. by rewrite Ho.
Qed.
End EntrySpec.

(** ** Witnesses and runs *)

#[local] Existing Instance target64.
#[local] Existing Instance toy_sha.
#[local] Existing Instance toy_b64.

Lemma demo_sendable : sendable_source (lit "task") demo_source 2.
Proof. split; [done|done|apply demo_source_ok|vm_compute; discriminate|lia]. Qed.

Definition demo_push (w : World) : World * result PushDirOutcome PushError :=
  push_transfer_dir [] (lit "task") (lit "k") (lit "n") demo_source 2 100 w.

Definition demo_m : TransferBegin := begin_of (lit "task") (lit "k") (lit "n") demo_source 2.

(** The answer to [begin] comes, a chunk of another transfer is served, the second
    chunk is lost on the way. *)
Definition demo_net : list Call :=
  [mkCall [] WriteOk Delivers; mkCall [EvChunk WriteOk (demo_chunk 0 [9%N])] WriteOk Delivers;
   mkCall [] WriteOk RequestLost].

Lemma push_integrity_witness :
  ∃ w', demo_push (mkWorld (new_sink 100 ∅) []) = (w', Ok PushDelivered) ∧
    ((∃ t, sk_inbox (w_sink w') !! safe_task_file_name (lit "task") = Some (mkLanded t demo_m) ∧
        (t = source_tree demo_source ∨ collision)) ∨
     (∃ e, sk_dedup (w_sink w') !! lit "task" = Some e ∧ de_content_hash e = content_hash (entry_of <$> demo_source) ∧
        is_Some (sk_inbox (w_sink w') !! safe_task_file_name (lit "task")))).
Proof.
  destruct (demo_push (mkWorld (new_sink 100 ∅) [])) as [w' r] eqn:E.
  assert (r = Ok PushDelivered) as -> by (vm_compute in E; by injection E).
  exists w'. split; [reflexivity|].
  apply (push_integrity [] (lit "task") (lit "k") (lit "n") demo_source 2 100 (mkWorld (new_sink 100 ∅) []) w').
  - vm_compute. discriminate.
  - exact demo_sendable.
  - constructor.
  - exact E.
Defined.

Lemma push_resumes_witness :
  let s := attempts [] (lit "task") (lit "k") (lit "n") demo_source 2 100 [demo_net] (new_sink 100 ∅) in
  ∃ w', demo_push (mkWorld s []) = (w', Ok PushDelivered) ∧
    (snd (begin demo_m s) = BeginDedup ∨
     sk_inbox (w_sink w') !! safe_task_file_name (lit "task") = Some (mkLanded (source_tree demo_source) demo_m)).
Proof.
  apply (push_resumes [] (lit "task") (lit "k") (lit "n") demo_source 2 100 [demo_net] (new_sink 100 ∅)).
  - vm_compute. discriminate.
  - exact demo_sendable.
  - vm_compute. exact I.
  - repeat constructor; vm_compute; try discriminate; intros n Hn; discriminate.
  - right. vm_compute. discriminate.
  - right. vm_compute. discriminate.
Defined.

(** Observed: A chunk file that was written in part (the disk was full) counts as
    received: [begin] lists it, the sender skips it, and [end] refuses it.  The
    transfer never goes through again, however often it is tried and however well
    the transport works. *)
Theorem partial_chunk_wedges :
  let w1 := fst (demo_push (mkWorld (new_sink 100 ∅)
    [mkCall [] WriteOk Delivers; mkCall [] (WriteFailAfter 1) Delivers])) in
  snd (demo_push (mkWorld (new_sink 100 ∅)
    [mkCall [] WriteOk Delivers; mkCall [] (WriteFailAfter 1) Delivers])) = Err (PushChunk ChunkWrite) ∧
  ∀ n, let s := Nat.iter n (λ s, w_sink (fst (demo_push (mkWorld s [])))) (w_sink w1) in
    snd (demo_push (mkWorld s [])) = Err (PushEnd (EndChunkLength 0)).
Proof.
  cbv zeta. split; [vm_compute; reflexivity|].
  set (s1 := w_sink _).
  set (s2 := w_sink (fst (demo_push (mkWorld s1 [])))).
  assert (demo_push (mkWorld s2 []) = (mkWorld s2 [], Err (PushEnd (EndChunkLength 0)))) as Hfix
    by (vm_compute; reflexivity).
  intros [|n]; [vm_compute; reflexivity|].
  assert (Nat.iter (S n) (λ s, w_sink (fst (demo_push (mkWorld s [])))) s1 = s2) as ->; [|by rewrite Hfix].
  induction n as [|n IH]; [done|]. rewrite Nat.iter_succ, IH, Hfix. done.
Qed.

(** Observed: The fence trims the path, the sender does not: a file whose name ends
    with a blank lands under the name without it, and next to a file of that name
    the transfer cannot succeed. *)
Theorem padded_name_lands_elsewhere :
  let land src := sk_inbox (w_sink (fst (push_transfer_dir [] (lit "t") [] [] src 2 0 (mkWorld (new_sink 0 ∅) [])))) in
  safe_relative_path (lit "a ") = safe_relative_path (lit "a") ∧
  (∃ l, land [(lit "a ", [1%N])] !! lit "t" = Some l ∧ ld_files l = {[ [lit "a"] := [1%N] ]}) ∧
  snd (push_transfer_dir [] (lit "t") [] [] [(lit "a", [1%N]); (lit "a ", [2%N])] 2 0
    (mkWorld (new_sink 0 ∅) [])) = Err (PushEnd EndFileSha).
Proof.
  cbv zeta. split; [reflexivity|]. split; [|vm_compute; reflexivity].
  eexists. split; vm_compute; reflexivity.
Qed.

Definition toy_rfc3339 : Rfc3339.
Proof.
  refine {| parse_rfc3339 s := match s with [0%N; n] => Some (Z.of_N n) | [1%N; n] => Some (- Z.of_N n)%Z | _ => None end;
            to_rfc3339 t := if (0 <=? t)%Z then [0%N; Z.to_N t] else [1%N; Z.to_N (- t)] |}.
  abstract (intros t; destruct (Z.leb_spec 0 t); f_equal; lia).
Defined.

Lemma retries_bounded_witness :
  let e := mkOutboxEntry (lit "t") (lit "n") st_pending ([0%N; 0%N]) 999 1 None in
  let online := λ _ : str, true in
  let push := λ _ : OutboxEntry, (Err PushTransport : result PushDirOutcome PushError) in
  let e' := @fail_entry toy_rfc3339 5 e in
  @rounds toy_rfc3339 [5%Z] online push e = Some e' ∧
  (15 ≤ push_backoff_secs (oe_attempts e) ≤ 600)%N ∧
  @process_entry toy_rfc3339 1000 online push e' = Some (dead_entry e').
Proof.
  cbv zeta. split; [reflexivity|].
  destruct (@retries_bounded toy_rfc3339 1000 (mkOutboxEntry (lit "t") (lit "n") st_pending ([0%N; 0%N]) 999 1 None) [5%Z]
    (λ _, true) (λ _, Err PushTransport)
    (@fail_entry toy_rfc3339 5 (mkOutboxEntry (lit "t") (lit "n") st_pending ([0%N; 0%N]) 999 1 None))) as (H1 & _ & _ & H4).
  - intros x. by exists PushTransport.
  - vm_compute. discriminate.
  - reflexivity.
  - split; [exact H1|]. apply H4; reflexivity.
Defined.
