(* ===== verification/RingBuffer.v ===== *)
(** * Ring buffer (nemesis-agent/src/ringbuffer.rs)

    The circular buffer refines a list that keeps its last [size] elements.  The
    locks make every operation atomic, so an operation is a function on the state. *)
From S2P Require Import Prelude.
Local Open Scope nb_scope.

(** ** Operations *)

Record RingBuffer (T : Type) := mkRing {
  rb_buf : list (option T);
  rb_size : nat;
  rb_head : nat;
  rb_count : nat;
}.
Arguments mkRing {T} _ _ _ _.
Arguments rb_buf {T} _.
Arguments rb_size {T} _.
Arguments rb_head {T} _.
Arguments rb_count {T} _.

Section Operations.
Context {T : Type}.

Definition ring_new (size : nat) : RingBuffer T :=
  let size := if (size =? 0)%nat then 1 else size in
  mkRing (replicate size None) size 0 0.

(** [None]: the index is out of bounds, a panic. *)
Definition ring_push (item : T) (r : RingBuffer T) : option (RingBuffer T) :=
  if (rb_head r <? length (rb_buf r))%nat then
    Some (mkRing (<[rb_head r := Some item]> (rb_buf r)) (rb_size r)
            ((rb_head r + 1) mod rb_size r)
            (if (rb_count r <? rb_size r)%nat then rb_count r + 1 else rb_count r))
  else None.

(** The loop of [get_all] and [get_last]: the slots at [base + i], empty ones left
    out. *)
Fixpoint read_slots (r : RingBuffer T) (base : nat) (idxs : list nat) : option (list T) :=
  match idxs with
  | [] => Some []
  | i :: idxs =>
      match rb_buf r !! ((base + i) mod rb_size r) with
      | None => None
      | Some slot =>
          rest ← read_slots r base idxs;
          Some (match slot with
                | Some v => v :: rest
                | None => rest
                end)
      end
  end.

Definition ring_get_all (r : RingBuffer T) : option (list T) :=
  if (rb_count r =? 0)%nat then Some []
  else read_slots r (rb_size r + rb_head r - rb_count r) (seq 0 (rb_count r)).

Definition ring_get_last (n : nat) (r : RingBuffer T) : option (list T) :=
  if (n =? 0)%nat then Some []
  else if (rb_count r =? 0)%nat then Some []
  else
    let n := n `min` rb_count r in
    let start_idx := rb_count r - n in
    read_slots r (rb_size r + rb_head r - rb_count r + start_idx) (seq 0 n).

Definition ring_len (r : RingBuffer T) : nat := rb_count r.

Definition ring_is_empty (r : RingBuffer T) : bool := (ring_len r =? 0)%nat.

Definition ring_clear (r : RingBuffer T) : RingBuffer T :=
  mkRing ((λ _, None) <$> rb_buf r) (rb_size r) 0 0.

Inductive RingOp := RPush (x : T) | RClear.

Definition ring_step (r : RingBuffer T) (op : RingOp) : option (RingBuffer T) :=
  match op with
  | RPush x => ring_push x r
  | RClear => Some (ring_clear r)
  end.

Fixpoint ring_run (r : RingBuffer T) (ops : list RingOp) : option (RingBuffer T) :=
  match ops with
  | [] => Some r
  | op :: ops => r ← ring_step r op; ring_run r ops
  end.

(** ** The specification: a list that forgets its oldest elements *)

Definition last_n {A} (n : nat) (l : list A) : list A := drop (length l - n) l.

Definition spec_step (size : nat) (l : list T) (op : RingOp) : list T :=
  match op with
  | RPush x => last_n size (l ++ [x])
  | RClear => []
  end.

Definition spec_run (size : nat) (l : list T) (ops : list RingOp) : list T :=
  fold_left (spec_step size) ops l.

(** ** The representation *)

(** The slot of the [i]th oldest element. *)
Definition slot (r : RingBuffer T) (i : nat) : nat := (rb_size r + rb_head r - rb_count r + i) mod rb_size r.

Record represents (r : RingBuffer T) (l : list T) : Prop := {
  rp_size : 0 < rb_size r;
  rp_buf : length (rb_buf r) = rb_size r;
  rp_head : rb_head r < rb_size r;
  rp_count : rb_count r = length l;
  rp_bound : length l ≤ rb_size r;
  rp_slots : ∀ i x, l !! i = Some x → rb_buf r !! slot r i = Some (Some x);
}.

Lemma mod_wrap x n : x < 2 * n → x mod n = if (x <? n)%nat then x else x - n.
Proof.
  intros Hx. destruct (Nat.ltb_spec x n); [by apply Nat.mod_small|].
  symmetry. apply (Nat.mod_unique _ _ 1); lia.
Qed.

(** The case distinction on wrapping, for indices below twice the size. *)
Ltac wrap :=
  repeat match goal with
  | |- context [(?a + 1) mod ?n] => rewrite (mod_wrap (a + 1) n) by lia; destruct (Nat.ltb_spec (a + 1) n)
  end;
  repeat (rewrite mod_wrap by lia);
  repeat match goal with
  | |- context [(?a <? ?b)%nat] => destruct (Nat.ltb_spec a b)
  end.

Lemma slot_bound r l i : represents r l → slot r i < rb_size r.
Proof. intros H. apply Nat.mod_upper_bound. destruct H. lia. Qed.

Lemma new_represents size : represents (ring_new size) [].
Proof.
  unfold ring_new. split; cbn; try done.
  - destruct (Nat.eqb_spec size 0); lia.
  - apply length_replicate.
  - destruct (Nat.eqb_spec size 0); lia.
  - lia.
Qed.

Lemma clear_represents r l : represents r l → represents (ring_clear r) [].
Proof.
  intros [Hs Hb Hh Hc Hl _]. split; cbn; try done; [by rewrite length_fmap|lia].
Qed.

Lemma push_represents x r l :
  represents r l → ∃ r', ring_push x r = Some r' ∧ represents r' (last_n (rb_size r) (l ++ [x])) ∧ rb_size r' = rb_size r.
Proof.
  intros [Hs Hb Hh Hc Hl Hsl]. unfold ring_push. rewrite Hb, (proj2 (Nat.ltb_lt _ _) Hh).
  eexists. split; [reflexivity|]. split; [|done]. unfold slot in Hsl. unfold last_n. rewrite length_app. cbn [length].
  destruct (Nat.ltb_spec (rb_count r) (rb_size r)) as [Hlt|Hge].
  - replace (length l + 1 - rb_size r) with 0 by lia. rewrite drop_0. split; cbn; try done.
    + by rewrite length_insert.
    + apply Nat.mod_upper_bound. lia.
    + rewrite length_app. cbn. lia.
    + rewrite length_app. cbn. lia.
    + intros i y Hi. unfold slot. cbn. apply lookup_app_Some in Hi as [Hi|[Hge Hi]].
      * apply lookup_lt_Some in Hi as Hil. specialize (Hsl i y Hi). rewrite list_lookup_insert_ne.
        -- rewrite <- Hsl. f_equal. wrap; lia.
        -- wrap; lia.
      * destruct (i - length l) as [|k] eqn:Ei; [|done]. injection Hi as <-.
        rewrite <- (list_lookup_insert_eq (rb_buf r) (rb_head r) (Some x)) by lia. f_equal. wrap; lia.
  - replace (length l + 1 - rb_size r) with 1 by lia. split; cbn; try done.
    + by rewrite length_insert.
    + apply Nat.mod_upper_bound. lia.
    + rewrite length_drop, length_app. cbn. lia.
    + rewrite length_drop, length_app. cbn. lia.
    + intros i y Hi. unfold slot. cbn. rewrite lookup_drop in Hi. apply lookup_app_Some in Hi as [Hi|[Hge' Hi]].
      * apply lookup_lt_Some in Hi as Hil. specialize (Hsl (1 + i) y Hi). rewrite list_lookup_insert_ne.
        -- rewrite <- Hsl. f_equal. wrap; lia.
        -- wrap; lia.
      * destruct (1 + i - length l) as [|k] eqn:Ei; [|done]. injection Hi as <-.
        rewrite <- (list_lookup_insert_eq (rb_buf r) (rb_head r) (Some x)) by lia. f_equal. wrap; lia.
Qed.

Lemma run_represents ops : ∀ r l,
  represents r l →
  ∃ r', ring_run r ops = Some r' ∧ represents r' (spec_run (rb_size r) l ops) ∧ rb_size r' = rb_size r.
Proof.
  induction ops as [|op ops IH]; intros r l H; cbn [ring_run spec_run fold_left]; [by exists r|].
  destruct op as [x|]; cbn [ring_step spec_step].
  - destruct (push_represents x r l H) as (r1 & -> & H1 & E1). cbn. destruct (IH r1 _ H1) as (r' & -> & H' & E').
    exists r'. rewrite E1 in H', E'. done.
  - cbn. destruct (IH (ring_clear r) [] (clear_represents r l H)) as (r' & -> & H' & E'). by exists r'.
Qed.

(** Reading [n] slots from the [k]th element on. *)
Lemma read_represents r l k n :
  represents r l → k + n ≤ length l →
  read_slots r (rb_size r + rb_head r - rb_count r + k) (seq 0 n) = Some (take n (drop k l)).
Proof.
  intros H. assert (∀ i n, k + i + n ≤ length l →
    read_slots r (rb_size r + rb_head r - rb_count r + k) (seq i n) = Some (take n (drop (k + i) l))) as Hgen.
  { clear n. intros i n. revert i. induction n as [|n IH]; intros i Hi; [by rewrite take_0|].
    destruct (lookup_lt_is_Some_2 l (k + i)) as [x Hx]; [lia|]. cbn [seq read_slots].
    assert ((rb_size r + rb_head r - rb_count r + k + i) mod rb_size r = slot r (k + i)) as ->
      by (unfold slot; f_equal; lia).
    rewrite (rp_slots _ _ H _ _ Hx), IH by lia. cbn.
    rewrite (drop_S l x (k + i)), Nat.add_succ_r by done. done. }
  intros Hk. rewrite Hgen by lia. by rewrite Nat.add_0_r.
Qed.
End Operations.
Arguments RingOp : clear implicits.

(** ** Properties *)

(** Also: The circular buffer refines the list: from a new buffer no sequence of
    pushes and clears indexes out of bounds, and after it the reads give what the
    last pushes left, at most [size] elements, oldest first: [get_all] the whole
    list, [get_last n] its last [n] elements, [len] its length. *)
Theorem ring_refines_list {T} size (ops : list (RingOp T)) n :
  let cap := if (size =? 0)%nat then 1 else size in
  let l := spec_run cap [] ops in
  ∃ r, ring_run (ring_new size) ops = Some r ∧
    ring_get_all r = Some l ∧ ring_get_last n r = Some (last_n n l) ∧ ring_len r = length l ∧
    ring_is_empty r = bool_decide (l = []) ∧ length l ≤ cap.
Proof.
  intros cap l. destruct (run_represents ops (ring_new size) [] (new_represents size)) as (r & E & H & Es).
  change (rb_size (ring_new size)) with cap in *. fold l in H. exists r. split; [done|].
  pose proof H as [Hs Hb Hh Hc Hl Hsl]. unfold ring_get_all, ring_get_last, ring_is_empty, ring_len. rewrite Hc.
  assert (∀ k m, k + m ≤ length l → read_slots r (rb_size r + rb_head r - length l + k) (seq 0 m) = Some (take m (drop k l)))
    as Hread by (intros k m Hk; rewrite <- Hc; by apply read_represents).
  destruct (Nat.eqb_spec (length l) 0) as [H0|H0].
  - apply length_zero_iff_nil in H0. rewrite H0. unfold last_n. rewrite drop_nil. destruct (n =? 0)%nat; repeat split; cbn; lia.
  - rewrite <- (Nat.add_0_r (rb_size r + rb_head r - length l)) at 1. rewrite Hread by lia.
    rewrite drop_0, take_ge by lia. split; [done|]. split; [|split; [done|split; [|lia]]].
    + unfold last_n. destruct (Nat.eqb_spec n 0) as [->|Hn]; [by rewrite Nat.sub_0_r, drop_all|].
      rewrite Hread by lia. rewrite take_ge by (rewrite length_drop; lia).
      by replace (length l - n `min` length l) with (length l - n) by lia.
    + symmetry. apply bool_decide_false. intros E0. by rewrite E0 in H0.
Qed.
