(* ===== verification/Window.v ===== *)
(** * Sliding windows

    What the rate limits of the agent ([Limits]) and the quotas of the board
    ([Board]) share: times are integers, a time counts at [now] while it is less
    than [w] old, and an event is let through while fewer than [max] count.  The
    bound on every window follows from the test at the events alone
    ([spaced_window]); pruning a queue does not change what later tests see
    ([recent_recent], [pop_old_recent]). *)
From S2P Require Import Prelude.
From Stdlib Require Import Sorted.
Local Open Scope Z_scope.

(** The times that count at [now]. *)
Definition recent (w now : Z) (l : list Z) : list Z := List.filter (λ t, now - t <? w) l.

(** The times in the window of length [w] that starts at [a]. *)
Definition in_window (w a : Z) (l : list Z) : list Z := List.filter (λ t, (a <=? t) && (t <? a + w)) l.

(** Each event of the list, oldest first, was let through by the test. *)
Definition spaced (w : Z) (max : nat) (l : list Z) : Prop :=
  ∀ pre t post, l = pre ++ t :: post → (length (recent w t pre) < max)%nat.

(** ** Bounds *)

Lemma filter_length_mono {A} (f g : A → bool) l :
  (∀ x, x ∈ l → f x = true → g x = true) → (length (List.filter f l) ≤ length (List.filter g l))%nat.
Proof.
  induction l as [|x l IH]; intros H; cbn; [lia|].
  specialize (IH (λ y Hy, H y (list_elem_of_further _ _ _ Hy))).
  destruct (f x) eqn:Hf; [rewrite (H x) by (done || by left); cbn; lia|]. destruct (g x); cbn; lia.
Qed.

Lemma spaced_window w max l a : spaced w max l → (length (in_window w a l) ≤ max)%nat.
Proof.
  intros Hs.
  assert (∀ post pre, l = pre ++ post → (∀ t, t ∈ post → ¬ (a ≤ t < a + w)) → (length (in_window w a pre) ≤ max)%nat →
    (length (in_window w a l) ≤ max)%nat) as Hpost.
  { intros post pre -> Hno Hle. unfold in_window in *. rewrite List.filter_app, length_app.
    assert (List.filter (λ t, (a <=? t) && (t <? a + w)) post = []) as ->; [|cbn; lia].
    clear Hle Hs. induction post as [|t post IH]; [done|]. cbn.
    destruct ((a <=? t) && (t <? a + w)) eqn:E; [|apply IH; intros u Hu; apply Hno; by right].
    apply andb_true_iff in E as [E1 E2]. exfalso. apply (Hno t); [by left|]. lia. }
  assert (∀ pre post, l = pre ++ post → (∀ t, t ∈ post → ¬ (a ≤ t < a + w)) →
    (length (in_window w a l) ≤ max)%nat) as Hall; [|apply (Hall l []); [by rewrite app_nil_r|]; intros t Ht; by apply elem_of_nil in Ht].
  intros pre. induction pre as [|t pre IH] using rev_ind; intros post E Hno.
  - apply (Hpost post []); [done|done|cbn; lia].
  - destruct (decide (a ≤ t < a + w)) as [Hin|Hout].
    + apply (Hpost post (pre ++ [t])); [done|done|]. unfold in_window. rewrite List.filter_app, length_app. cbn.
      assert (length (recent w t pre) < max)%nat as Hr by (apply (Hs pre t post); by rewrite E, <- app_assoc).
      assert (length (in_window w a pre) ≤ length (recent w t pre))%nat.
      { unfold in_window. apply filter_length_mono. intros x _ Hx. apply andb_true_iff in Hx as [H1 H2]. lia. }
      fold (in_window w a pre). destruct ((a <=? t) && (t <? a + w)); cbn; lia.
    + apply (IH (t :: post)); [by rewrite E, <- app_assoc|]. intros u [->|Hu]%elem_of_cons; [done|by apply Hno].
Qed.

Lemma spaced_nil w max : spaced w max [].
Proof. intros pre t post E. by destruct pre. Qed.

Lemma spaced_snoc w max l t : spaced w max l → (length (recent w t l) < max)%nat → spaced w max (l ++ [t]).
Proof.
  intros Hs Ht pre u post E. destruct post as [|v post _] using rev_ind.
  - apply app_inj_tail in E as [-> ->]. done.
  - rewrite app_comm_cons, app_assoc in E. apply app_inj_tail in E as [-> ->]. by eapply Hs.
Qed.

(** ** Pruning *)

Lemma recent_recent w now now' l : now ≤ now' → recent w now' (recent w now l) = recent w now' l.
Proof.
  intros Hn. unfold recent. induction l as [|t l IH]; cbn; [done|].
  destruct (Z.ltb_spec (now - t) w) as [H|H]; cbn; rewrite IH; [done|].
  destruct (Z.ltb_spec (now' - t) w); [lia|done].
Qed.

Lemma recent_app w now a b : recent w now (a ++ b) = recent w now a ++ recent w now b.
Proof. apply List.filter_app. Qed.

Lemma recent_length w now l : (length (recent w now l) ≤ length l)%nat.
Proof. apply List.filter_length_le. Qed.

Lemma recent_later w now now' l : now ≤ now' → (length (recent w now' l) ≤ length (recent w now l))%nat.
Proof. intros Hn. apply filter_length_mono. intros x _ Hx. lia. Qed.

(** The loop that pops from the front while the front is too old. *)
Fixpoint pop_old (w now : Z) (q : list Z) : list Z :=
  match q with
  | [] => []
  | t :: q' => if now - t <? w then q else pop_old w now q'
  end.

(** On a queue in order of time it is a filter. *)
Lemma pop_old_recent w now q : Sorted.StronglySorted Z.le q → pop_old w now q = recent w now q.
Proof.
  induction 1 as [|t q Hq IH Ht]; [done|]. cbn. destruct (Z.ltb_spec (now - t) w) as [H|H]; [|done].
  f_equal. unfold recent. clear IH Hq. induction Ht as [|u q Hu _ IH]; [done|]. cbn.
  destruct (Z.ltb_spec (now - u) w); [by rewrite <- IH|lia].
Qed.

Lemma StronglySorted_filter (f : Z → bool) l : Sorted.StronglySorted Z.le l → Sorted.StronglySorted Z.le (List.filter f l).
Proof.
  induction 1 as [|t l Hl IH Ht]; cbn; [constructor|]. destruct (f t); [|done]. constructor; [done|].
  apply List.Forall_forall. intros x [Hx _]%List.filter_In. revert Ht. rewrite List.Forall_forall. by intros Ht; apply Ht.
Qed.

Lemma StronglySorted_snoc l t :
  Sorted.StronglySorted Z.le l → Forall (λ x, x ≤ t) l → Sorted.StronglySorted Z.le (l ++ [t]).
Proof.
  induction 1 as [|u l Hl IH Hu]; intros Hf; cbn; [repeat constructor|]. apply Forall_cons in Hf as [Hut Hf].
  constructor; [by apply IH|]. apply Forall_app. by split; [|repeat constructor].
Qed.

(** For times up to now, what counts is a window. *)
Lemma recent_window w now l : Forall (λ t, t ≤ now) l → recent w now l = in_window w (now - w + 1) l.
Proof.
  intros Hl. unfold recent, in_window. induction Hl as [|t l Ht _ IH]; cbn; [done|].
  rewrite IH. destruct (Z.ltb_spec (now - t) w), (Z.leb_spec (now - w + 1) t), (Z.ltb_spec t (now - w + 1 + w)); cbn; done || lia.
Qed.
