(* ===== verification/Limits.v ===== *)
(** * Declared rate limits of tools

    [nemesis-agent/src/loop/limits.rs]: the rules and the sliding windows of the
    process, and the gate in front of every tool call
    ([loop/tool_dispatch.rs], lines 393-458) that asks a human when a limit is
    reached ([Escalation.request_limit_approval]).

    The two statics are the fields of [Limits]; an operation holds both locks
    from its first read to its last write, so an interleaving of calls is a
    sequence of operations ([limit_run]).  [Instant]s are nanoseconds that the
    caller passes in, in the order in which the lock was taken. *)
From S2P Require Import Prelude RustStr Window Auditor Escalation.
From Stdlib Require Import Sorted.
Local Open Scope Z_scope.

(** ** State *)

Record LimitRule := mkLimit { lr_max : Z; lr_window_secs : Z }.

Record Limits := mkLimits { lm_rules : gmap str LimitRule; lm_counters : gmap str (list Z) }.

Record OverLimit := mkOver { ol_category : str; ol_count : Z; ol_max : Z; ol_window_secs : Z }.

Definition set_rules (st : Limits) (rules : gmap str LimitRule) : Limits := mkLimits rules (lm_counters st).

Definition clear_all (st : Limits) : Limits := mkLimits ∅ ∅.

Definition denial_message (o : OverLimit) : str :=
  ulit "⛔ RATE LIMIT EXCEEDED [layer:limits|category:" ++ ol_category o ++ ulit "] 窗口 "
  ++ lit (pretty (ol_window_secs o)) ++ ulit "s 内已 " ++ lit (pretty (ol_count o)) ++ ulit " 次（上限 "
  ++ lit (pretty (ol_max o))
  ++ ulit "）——工具未执行。不要立即重试；告知用户可等待窗口过后重试，或在 security.limits 调整/批准该类别。".

(** [Duration::from_secs], in nanoseconds. *)
Definition from_secs (s : Z) : Z := s * 1000000000.

(** [Instant::duration_since] saturates at zero. *)
Definition duration_since (now t : Z) : Z := Z.max 0 (now - t).

(** ** Operations *)

(** [while let Some(front)]: expired entries leave at the front. *)
Fixpoint pop_expired (now window : Z) (q : list Z) : list Z :=
  match q with
  | [] => []
  | front :: q' => if window <? duration_since now front then pop_expired now window q' else q
  end.

(** The loop over the categories; [entry().or_default()] creates the queue. *)
Fixpoint check_categories (rules : gmap str LimitRule) (now : Z) (cats : list str)
    (counters : gmap str (list Z)) : gmap str (list Z) * option OverLimit :=
  match cats with
  | [] => (counters, None)
  | category :: cats =>
      match rules !! category with
      | None => check_categories rules now cats counters
      | Some rule =>
          let q := pop_expired now (from_secs (lr_window_secs rule)) (default [] (counters !! category)) in
          let counters := <[category := q]> counters in
          if lr_max rule <=? Z.of_nat (length q) then
            (counters, Some (mkOver category (Z.of_nat (length q) mod 2 ^ 32) (lr_max rule) (lr_window_secs rule)))
          else check_categories rules now cats counters
      end
  end.

Definition check_limit (now : Z) (cats : list str) (st : Limits) : Limits * option OverLimit :=
  let '(counters, over) := check_categories (lm_rules st) now cats (lm_counters st) in
  (mkLimits (lm_rules st) counters, over).

Fixpoint push_categories (rules : gmap str LimitRule) (now : Z) (cats : list str)
    (counters : gmap str (list Z)) : gmap str (list Z) :=
  match cats with
  | [] => counters
  | category :: cats =>
      push_categories rules now cats
        (match rules !! category with
         | None => counters
         | Some _ => <[category := default [] (counters !! category) ++ [now]]> counters
         end)
  end.

Definition record (now : Z) (cats : list str) (st : Limits) : Limits :=
  mkLimits (lm_rules st) (push_categories (lm_rules st) now cats (lm_counters st)).

Definition check_and_record (now : Z) (cats : list str) (st : Limits) : Limits * option OverLimit :=
  match cats with
  | [] => (st, None)
  | _ =>
      let '(counters, over) := check_categories (lm_rules st) now cats (lm_counters st) in
      (mkLimits (lm_rules st)
         (match over with None => push_categories (lm_rules st) now cats counters | Some _ => counters end), over)
  end.

(** The gate of [tool_dispatch.rs]: [None] goes on to the security pipeline,
    [Some] is the tool's answer.  The human may take any time: [later] is the
    instant at which an approved call is recorded. *)
Definition limit_gate (env : EscalationEnv) (now later : Z) (tool : str) (cats : list str)
    (ctx : option ApprovalContext) (st : Limits) (au : SecurityAuditor)
    : Limits * SecurityAuditor * option str :=
  let '(st, over) := check_and_record now cats st in
  match over with
  | None => (st, au, None)
  | Some over =>
      let '(au, answer) := request_limit_approval env au tool (denial_message over) ctx in
      match answer with
      | Ok av =>
          if av_approved av then (record later cats st, au, None)
          else
            let note := match av_note av with
                        | Some n => if bool_decide (trim n = []) then [] else ulit "用户备注: " ++ trim n
                        | None => []
                        end in
            (st, au, Some (ulit "⛔ RATE LIMIT — USER REJECTED [layer:limits|category:" ++ ol_category over ++ ulit "] "
                           ++ denial_message over
                           ++ ulit "。用户拒绝了本次超限放行。Do NOT retry. Inform the user." ++ note))
      | Err e =>
          (st, au, Some (ulit "⛔ RATE LIMIT — NO APPROVAL CHANNEL [layer:limits|category:" ++ ol_category over
                         ++ ulit "] " ++ denial_message over
                         ++ ulit "。无可用审批通道，fail-closed 拒绝。Do NOT retry. Inform the user."))
      end
  end.

(** ** Runs *)

Inductive LimitOp :=
| OpCheck (now : Z) (cats : list str)
| OpRecord (now : Z) (cats : list str)
| OpCheckAndRecord (now : Z) (cats : list str).

Definition op_now (o : LimitOp) : Z :=
  match o with OpCheck n _ | OpRecord n _ | OpCheckAndRecord n _ => n end.

(** The state after an operation, and whether it let a call of [c] through. *)
Definition limit_step (c : str) (st : Limits) (o : LimitOp) : Limits * bool :=
  match o with
  | OpCheck now cats => (fst (check_limit now cats st), false)
  | OpRecord now cats => (record now cats st, false)
  | OpCheckAndRecord now cats =>
      let '(st', over) := check_and_record now cats st in
      (st', match over with None => bool_decide (c ∈ cats) | Some _ => false end)
  end.

(** The times at which calls of [c] were let through without a human. *)
Fixpoint let_through (c : str) (st : Limits) (ops : list LimitOp) : list Z :=
  match ops with
  | [] => []
  | o :: ops =>
      let '(st', passed) := limit_step c st o in
      (if passed then [op_now o] else []) ++ let_through c st' ops
  end.

(** ** Lemmas *)

(** A call of [c] counts at [now] while it is at most [window_secs] old. *)
Definition span (r : LimitRule) : Z := from_secs (lr_window_secs r) + 1.

Definition calls (st : Limits) (c : str) : list Z := default [] (lm_counters st !! c).

Definition used (st : Limits) (c : str) (r : LimitRule) (now : Z) : Z :=
  Z.of_nat (length (recent (span r) now (calls st c))).

Definition ordered (now : Z) (q : list Z) : Prop := StronglySorted Z.le q ∧ Forall (λ t, t ≤ now) q.

(** The windows are those of [u64] rules, the queues in order of time. *)
Definition rules_ok (rules : gmap str LimitRule) : Prop := ∀ c r, rules !! c = Some r → 0 ≤ lr_window_secs r.

Definition counters_ok (now : Z) (m : gmap str (list Z)) : Prop := ∀ c, ordered now (default [] (m !! c)).

Definition limits_ok (now : Z) (st : Limits) : Prop := rules_ok (lm_rules st) ∧ counters_ok now (lm_counters st).

Lemma ordered_later now now' q : now ≤ now' → ordered now q → ordered now' q.
Proof. intros Hn [Hs Hf]. split; [done|]. eapply Forall_impl; [exact Hf|]. cbn. lia. Qed.

Lemma ordered_recent now w n q : ordered now q → ordered now (recent w n q).
Proof.
  intros [Hs Hf]. split; [by apply StronglySorted_filter|].
  apply Forall_forall. intros x Hx. rewrite Forall_forall in Hf. apply Hf.
  apply list_elem_of_In. apply list_elem_of_In in Hx. by apply List.filter_In in Hx as [? _].
Qed.

Lemma ordered_snoc now q : ordered now q → ordered now (q ++ [now]).
Proof.
  intros [Hs Hf]. split; [by apply StronglySorted_snoc|]. apply Forall_app. split; [done|]. by repeat constructor.
Qed.

Lemma pop_expired_old now window q : 0 ≤ window → pop_expired now window q = pop_old (window + 1) now q.
Proof.
  intros Hw. induction q as [|t q IH]; cbn; [done|]. unfold duration_since.
  destruct (Z.ltb_spec window (Z.max 0 (now - t))), (Z.ltb_spec (now - t) (window + 1)); try lia; done.
Qed.

Lemma pop_expired_recent now r q : 0 ≤ lr_window_secs r → ordered now q →
  pop_expired now (from_secs (lr_window_secs r)) q = recent (span r) now q.
Proof.
  intros Hw [Hs _]. rewrite pop_expired_old by (unfold from_secs; lia). by apply pop_old_recent.
Qed.

(** Pruning is invisible to every later test. *)
Definition same_later (rules : gmap str LimitRule) (now : Z) (m m' : gmap str (list Z)) : Prop :=
  ∀ c r later, rules !! c = Some r → now ≤ later →
    recent (span r) later (default [] (m' !! c)) = recent (span r) later (default [] (m !! c)).

Lemma same_later_trans rules now m1 m2 m3 :
  same_later rules now m1 m2 → same_later rules now m2 m3 → same_later rules now m1 m3.
Proof. intros H1 H2 c r later Hr Hl. by rewrite (H2 c r) , (H1 c r). Qed.

Lemma prune_same_later rules now m c r : rules !! c = Some r →
  same_later rules now m (<[c := recent (span r) now (default [] (m !! c))]> m).
Proof.
  intros Hr c' r' later Hr' Hl. destruct (decide (c = c')) as [->|Hn].
  - rewrite lookup_insert_eq. assert (r' = r) as -> by congruence. cbn. by apply recent_recent.
  - by rewrite lookup_insert_ne.
Qed.

Lemma counters_ok_insert now m c q : counters_ok now m → ordered now q → counters_ok now (<[c := q]> m).
Proof.
  intros Hm Hq c'. destruct (decide (c = c')) as [->|Hn]; [by rewrite lookup_insert_eq|by rewrite lookup_insert_ne].
Qed.

(** The loop of the check: what it prunes and when it answers. *)
Lemma check_categories_spec rules now cats m : rules_ok rules → counters_ok now m →
  let '(m', over) := check_categories rules now cats m in
  counters_ok now m' ∧ same_later rules now m m' ∧
  match over with
  | None => ∀ c r, c ∈ cats → rules !! c = Some r → Z.of_nat (length (recent (span r) now (default [] (m !! c)))) < lr_max r
  | Some o => ∃ r, ol_category o ∈ cats ∧ rules !! ol_category o = Some r ∧
      let n := Z.of_nat (length (recent (span r) now (default [] (m !! ol_category o)))) in
      lr_max r ≤ n ∧ o = mkOver (ol_category o) (n mod 2 ^ 32) (lr_max r) (lr_window_secs r)
  end.
Proof.
  intros Hr. revert m. induction cats as [|c cats IH]; intros m Hm; cbn.
  { split; [done|]. split; [by intros ? ?|]. intros ? ? []%elem_of_nil. }
  destruct (rules !! c) as [r|] eqn:Ec.
  2: { specialize (IH m Hm). destruct (check_categories rules now cats m) as [m' [o|]].
       - destruct IH as (? & ? & r & ? & ?). split; [done|]. split; [done|]. exists r. split; [by right|done].
       - destruct IH as (? & ? & IH). split; [done|]. split; [done|].
         intros c' r [->|H']%elem_of_cons Hr'; [congruence|by apply IH]. }
  rewrite pop_expired_recent; [|by eapply Hr|apply Hm].
  set (q := recent (span r) now (default [] (m !! c))).
  assert (counters_ok now (<[c := q]> m)) as Hm' by (apply counters_ok_insert; [done|by apply ordered_recent]).
  pose proof (prune_same_later rules now m c r Ec) as Hsame. fold q in Hsame.
  destruct (Z.leb_spec (lr_max r) (Z.of_nat (length q))) as [Hle|Hlt].
  { split; [done|]. split; [done|]. exists r. cbn. split; [by left|]. done. }
  specialize (IH _ Hm'). destruct (check_categories rules now cats (<[c:=q]> m)) as [m' over].
  destruct IH as (H1 & H2 & H3). split; [done|]. split; [by eapply same_later_trans|]. destruct over as [o|].
  - destruct H3 as (r' & Hin & Hr' & H3). exists r'. split; [by right|]. split; [done|].
    by rewrite <- (Hsame _ r' now Hr' (Z.le_refl _)).
  - intros c' r' [->|Hin]%elem_of_cons Hr'.
    + assert (r' = r) as -> by congruence. done.
    + rewrite <- (Hsame _ r' now Hr' (Z.le_refl _)). by apply H3.
Qed.

(** How often a category is named: a call with a duplicate is counted twice. *)
Definition named (c : str) (cats : list str) : nat := length (filter (.= c) cats).

Lemma named_cons c d cats : named c (d :: cats) = if decide (d = c) then S (named c cats) else named c cats.
Proof. unfold named. rewrite filter_cons. by destruct (decide (d = c)). Qed.

Lemma push_categories_spec rules now cats m c : counters_ok now m →
  counters_ok now (push_categories rules now cats m) ∧
  default [] (push_categories rules now cats m !! c) =
    default [] (m !! c) ++ match rules !! c with Some _ => replicate (named c cats) now | None => [] end.
Proof.
  revert m. induction cats as [|d cats IH]; intros m Hm; cbn -[named].
  { split; [done|]. destruct (rules !! c); by rewrite app_nil_r. }
  assert (counters_ok now (match rules !! d with Some _ => <[d := default [] (m !! d) ++ [now]]> m | None => m end)) as Hm'.
  { destruct (rules !! d); [|done]. apply counters_ok_insert; [done|]. by apply ordered_snoc. }
  destruct (IH _ Hm') as [H1 H2]. split; [done|]. rewrite H2. clear IH H1 H2.
  rewrite named_cons. destruct (decide (d = c)) as [->|Hn].
  - destruct (rules !! c) eqn:E; [|done]. rewrite lookup_insert_eq. cbn. by rewrite <- app_assoc.
  - destruct (rules !! d) eqn:E; [|done]. by rewrite lookup_insert_ne.
Qed.

Lemma named_elem c cats : c ∈ cats → (0 < named c cats)%nat.
Proof.
  intros Hc. unfold named. assert (c ∈ filter (.= c) cats) as H by (by apply list_elem_of_filter).
  destruct (filter (.= c) cats); [by apply elem_of_nil in H|cbn; lia].
Qed.

Lemma recent_replicate w later n now :
  length (recent w later (replicate n now)) = if later - now <? w then n else 0%nat.
Proof.
  unfold recent. induction n as [|n IH]; cbn; [by destruct (_ <? _)|]. destruct (later - now <? w); cbn; by rewrite IH.
Qed.

Lemma record_used now cats st c r : limits_ok now st → lm_rules st !! c = Some r →
  limits_ok now (record now cats st) ∧
  (∀ later, used (record now cats st) c r later =
     used st c r later + if later - now <? span r then Z.of_nat (named c cats) else 0).
Proof.
  intros [Hr Hc] Ec. destruct (push_categories_spec (lm_rules st) now cats (lm_counters st) c Hc) as [H1 H2].
  split; [by split|]. intros later. unfold used, calls. cbn. rewrite H2, Ec, recent_app, length_app. rewrite recent_replicate.
  destruct (_ <? _); lia.
Qed.

Lemma limits_ok_later now now' st : now ≤ now' → limits_ok now st → limits_ok now' st.
Proof. intros Hn [Hr Hc]. split; [done|]. intros c. by eapply ordered_later. Qed.

(** What a call of [check_and_record] does to the usage it is asked about. *)
Lemma check_and_record_used now cats st c r : limits_ok now st → lm_rules st !! c = Some r →
  let '(st', over) := check_and_record now cats st in
  lm_rules st' = lm_rules st ∧ limits_ok now st' ∧
  match over with
  | None =>
      (c ∈ cats → used st c r now < lr_max r) ∧
      (∀ later, now ≤ later → used st' c r later =
         used st c r later + if later - now <? span r then Z.of_nat (named c cats) else 0)
  | Some o =>
      (∃ r, ol_category o ∈ cats ∧ lm_rules st !! ol_category o = Some r ∧ lr_max r ≤ used st (ol_category o) r now ∧
         o = mkOver (ol_category o) (used st (ol_category o) r now mod 2 ^ 32) (lr_max r) (lr_window_secs r)) ∧
      (∀ later, now ≤ later → used st' c r later = used st c r later)
  end.
Proof.
  intros Hok Ec. pose proof Hok as [Hr Hc]. unfold check_and_record.
  destruct cats as [|d cats].
  { split; [done|]. split; [done|]. split; [by intros H%elem_of_nil|]. intros later Hl. unfold named. cbn.
    destruct (_ <? _); lia. }
  pose proof (check_categories_spec (lm_rules st) now (d :: cats) (lm_counters st) Hr Hc) as H.
  destruct (check_categories _ _ _ _) as [m' over]. destruct H as (H1 & H2 & H3). split; [done|].
  assert (limits_ok now (mkLimits (lm_rules st) m')) as Hm by (by split).
  assert (∀ later, now ≤ later → used (mkLimits (lm_rules st) m') c r later = used st c r later) as Hu.
  { intros later Hl. unfold used, calls. cbn. by rewrite (H2 c r later). }
  destruct over as [o|]; [split; [exact Hm|]; split; [exact H3|exact Hu]|]. fold (record now (d :: cats) (mkLimits (lm_rules st) m')).
  destruct (record_used now (d :: cats) (mkLimits (lm_rules st) m') c r Hm Ec) as [K1 K2].
  split; [done|]. split; [intros Hin; by apply (H3 c r)|]. intros later Hl. by rewrite <- Hu by done.
Qed.

(** ** Properties *)

(** What a run has let through is never more than what the queue counts. *)
Definition covered (now : Z) (st : Limits) (c : str) (r : LimitRule) (past : list Z) : Prop :=
  ∀ later, now ≤ later → Z.of_nat (length (recent (span r) later past)) ≤ used st c r later.

Lemma limit_step_covered c st o now r past :
  limits_ok now st → now ≤ op_now o → lm_rules st !! c = Some r → covered now st c r past →
  spaced (span r) (Z.to_nat (lr_max r)) past →
  let '(st', passed) := limit_step c st o in
  let past' := past ++ (if passed then [op_now o] else []) in
  lm_rules st' = lm_rules st ∧ limits_ok (op_now o) st' ∧ covered (op_now o) st' c r past' ∧
  spaced (span r) (Z.to_nat (lr_max r)) past'.
Proof.
  intros Hok Hle Ec Hcov Hsp. apply (limits_ok_later _ _ _ Hle) in Hok.
  assert (covered (op_now o) st c r past) as Hcov' by (intros later Hl; apply Hcov; lia). clear Hcov.
  destruct o as [n cats|n cats|n cats]; cbn in *.
  - unfold check_limit. pose proof (check_categories_spec (lm_rules st) n cats (lm_counters st)) as H.
    destruct Hok as [Hr Hc]. specialize (H Hr Hc). destruct (check_categories _ _ _ _) as [m' over].
    destruct H as (H1 & H2 & _). rewrite app_nil_r. cbn. split; [done|]. split; [by split|]. split; [|done].
    intros later Hl. unfold used, calls. cbn. rewrite (H2 c r later) by done. by apply Hcov'.
  - rewrite app_nil_r. destruct (record_used n cats st c r Hok Ec) as [H1 H2]. split; [done|]. split; [done|].
    split; [|done]. intros later Hl. rewrite H2. specialize (Hcov' later Hl). destruct (_ <? _); lia.
  - pose proof (check_and_record_used n cats st c r Hok Ec) as H. destruct (check_and_record n cats st) as [st' over].
    destruct H as (H1 & H2 & H3). split; [done|]. split; [done|]. destruct over as [ov|].
    { destruct H3 as [_ H3]. rewrite app_nil_r. split; [|done]. intros later Hl. rewrite H3 by done. by apply Hcov'. }
    destruct H3 as [H3 H4]. destruct (bool_decide (c ∈ cats)) eqn:Hin; cbn.
    + apply bool_decide_eq_true in Hin. split.
      * intros later Hl. rewrite H4 by done. rewrite recent_app, length_app. cbn.
        specialize (Hcov' later Hl). pose proof (named_elem c cats Hin). destruct (_ <? _); cbn; lia.
      * apply spaced_snoc; [done|]. specialize (H3 Hin). specialize (Hcov' n (Z.le_refl _)). lia.
    + rewrite app_nil_r. split; [|done]. intros later Hl. rewrite H4 by done. specialize (Hcov' later Hl).
      destruct (_ <? _); lia.
Qed.

Lemma run_spaced c r ops : ∀ st now past,
  limits_ok now st → Forall (λ o, now ≤ op_now o) ops → StronglySorted Z.le (op_now <$> ops) →
  lm_rules st !! c = Some r → covered now st c r past → spaced (span r) (Z.to_nat (lr_max r)) past →
  spaced (span r) (Z.to_nat (lr_max r)) (past ++ let_through c st ops).
Proof.
  induction ops as [|o ops IH]; intros st now past Hok Hnow Hs Ec Hcov Hsp; cbn; [by rewrite app_nil_r|].
  apply Forall_cons in Hnow as [Hn Hnow]. cbn in Hs. apply StronglySorted_inv in Hs as [Hs Ho].
  pose proof (limit_step_covered c st o now r past Hok Hn Ec Hcov Hsp) as H.
  destruct (limit_step c st o) as [st' passed]. destruct H as (H1 & H2 & H3 & H4). rewrite app_assoc.
  apply (IH st' (op_now o)); [done| |done|by rewrite H1|done|done].
  clear -Ho. induction ops as [|o' ops IH]; [done|]. cbn in Ho. apply Forall_cons in Ho as [? ?]. constructor; auto.
Qed.

Lemma window_bound rules c r ops a :
  rules_ok rules → rules !! c = Some r → 0 ≤ lr_max r → StronglySorted Z.le (op_now <$> ops) →
  Z.of_nat (length (List.filter (λ t, (a <=? t) && (t <=? a + from_secs (lr_window_secs r)))
                      (let_through c (mkLimits rules ∅) ops))) ≤ lr_max r.
Proof.
  intros Hr Ec Hmax Hs.
  assert (length (in_window (span r) a (let_through c (mkLimits rules ∅) ops)) ≤ Z.to_nat (lr_max r))%nat as H.
  { apply spaced_window. destruct ops as [|o ops]; [apply spaced_nil|].
    apply (run_spaced c r (o :: ops) (mkLimits rules ∅) (op_now o) []).
    - split; [done|]. intros c'. cbn. rewrite lookup_empty. by repeat constructor.
    - constructor; [lia|]. cbn in Hs. apply StronglySorted_inv in Hs as [_ Ho]. clear -Ho.
      induction ops as [|o' ops IH]; [done|]. cbn in Ho. apply Forall_cons in Ho as [? ?]. constructor; auto.
    - done.
    - done.
    - intros later _. unfold used. cbn. lia.
    - apply spaced_nil. }
  assert (∀ l, length (List.filter (λ t, (a <=? t) && (t <=? a + from_secs (lr_window_secs r))) l) =
               length (in_window (span r) a l)) as Heq; [|rewrite Heq; lia].
  intros l. unfold in_window, span. f_equal. apply List.filter_ext. intros t. f_equal.
  destruct (Z.leb_spec t (a + from_secs (lr_window_secs r))), (Z.ltb_spec t (a + (from_secs (lr_window_secs r) + 1))); lia.
Qed.

(** Also: however checks, records and combined calls of the tools interleave on
    the shared counters, at most [max] calls of a limited category pass without
    a human in any closed window of [window_secs] seconds. *)
Theorem limit_bound rules c r ops a :
  rules_ok rules → rules !! c = Some r → 0 ≤ lr_max r → StronglySorted Z.le (op_now <$> ops) →
  Z.of_nat (length (List.filter (λ t, (a <=? t) && (t <=? a + from_secs (lr_window_secs r)))
                      (let_through c (mkLimits rules ∅) ops))) ≤ lr_max r.
Proof. apply window_bound. Qed.

(** Also: the gate of a tool call lets it on to the security pipeline exactly when
    every limited category it names is below its maximum, or when the running
    approval manager approves; an approved call counts like any other, and a
    refused one leaves the usage of every category as it was. *)
Theorem limit_gate_spec env now later tool cats ctx st au c r :
  limits_ok now st → now ≤ later → lm_rules st !! c = Some r →
  let '(st', au', answer) := limit_gate env now later tool cats ctx st au in
  let below := ∀ d rd, d ∈ cats → lm_rules st !! d = Some rd → used st d rd now < lr_max rd in
  let count t w := if t - w <? span r then Z.of_nat (named c cats) else 0 in
  lm_rules st' = lm_rules st ∧ limits_ok later st' ∧
  match answer with
  | None =>
      (below ∧ au' = au ∧ ∀ t, later ≤ t → used st' c r t = used st c r t + count t now) ∨
      (¬ below ∧ (∃ mgr q v, au_approval_manager au = Some mgr ∧ mg_is_running mgr = true ∧
                    mg_ask mgr q ctx = Ok v ∧ av_approved v = true) ∧
       ∀ t, later ≤ t → used st' c r t = used st c r t + count t later)
  | Some _ => ¬ below ∧ ∀ t, now ≤ t → used st' c r t = used st c r t
  end.
Proof.
  intros Hok Hle Ec. unfold limit_gate.
  pose proof (check_and_record_used now cats st c r Hok Ec) as H.
  pose proof (λ d rd Hd, check_and_record_used now cats st d rd Hok Hd) as Hall.
  destruct (check_and_record now cats st) as [st1 over]. destruct H as (H1 & H2 & H3).
  destruct over as [o|].
  - destruct H3 as [(rd & Hd1 & Hd2 & Hd3 & _) H3].
    assert (¬ ∀ d rd, d ∈ cats → lm_rules st !! d = Some rd → used st d rd now < lr_max rd) as Hnot.
    { intros Hb. specialize (Hb _ _ Hd1 Hd2). lia. }
    pose proof (request_limit_approval_answer env au tool (denial_message o) ctx) as Ha.
    destruct (request_limit_approval _ _ _ _ _) as [au1 [av|e]]; cbn in Ha.
    + destruct Ha as (mgr & q & Hm1 & Hm2 & Hm3). destruct (av_approved av) eqn:Ev; cbn.
      * destruct (record_used later cats st1 c r) as [K1 K2]; [by eapply limits_ok_later|by rewrite H1|].
        split; [done|]. split; [done|]. right. split; [done|]. split; [by exists mgr, q, av|].
        intros t Ht. rewrite K2, H3 by lia. done.
      * split; [done|]. split; [by eapply limits_ok_later|]. done.
    + split; [done|]. split; [by eapply limits_ok_later|]. done.
  - destruct H3 as [_ H3]. split; [done|]. split; [by eapply limits_ok_later|]. left.
    split; [|split; [done|]]; [|intros t Ht; rewrite H3 by lia; done].
    intros d rd Hin Hd. by apply (Hall d rd Hd).
Qed.

(** ** Witnesses *)

Definition demo_rules : gmap str LimitRule := {[ lit "exec" := mkLimit 2 60 ]}.

Definition demo_ops : list LimitOp :=
  [OpCheckAndRecord 0 [lit "exec"]; OpCheckAndRecord 1000 [lit "exec"]; OpCheckAndRecord 60000000000 [lit "exec"];
   OpCheckAndRecord 60000000001 [lit "exec"]].

Lemma demo_rules_ok : rules_ok demo_rules.
Proof. unfold demo_rules. intros c r H. apply lookup_singleton_Some in H as [_ <-]. cbn. lia. Qed.

(** The third call comes while both others count, the fourth after the first. *)
Lemma limit_bound_witness :
  let_through (lit "exec") (mkLimits demo_rules ∅) demo_ops = [0; 1000; 60000000001] ∧
  Z.of_nat (length (List.filter (λ t, (0 <=? t) && (t <=? 0 + from_secs 60))
                      (let_through (lit "exec") (mkLimits demo_rules ∅) demo_ops))) ≤ 2.
Proof.
  split; [by vm_compute|].
  refine (limit_bound demo_rules (lit "exec") (mkLimit 2 60) demo_ops 0 demo_rules_ok _ _ _).
  - by vm_compute.
  - cbn. lia.
  - cbn. repeat constructor; lia.
Defined.

Lemma limit_gate_spec_witness :
  let '(st', _, answer) := limit_gate (mkEscEnv [] [] []) 5 7 (lit "exec") [lit "exec"] None (mkLimits demo_rules ∅) demo_auditor in
  answer = None ∧ used st' (lit "exec") (mkLimit 2 60) 7 = 1 ∧ lm_rules st' = demo_rules.
Proof.
  pose proof (limit_gate_spec (mkEscEnv [] [] []) 5 7 (lit "exec") [lit "exec"] None (mkLimits demo_rules ∅)
    demo_auditor (lit "exec") (mkLimit 2 60)) as H.
  split; [by vm_compute|]. split; [by vm_compute|]. apply H.
  - split; [exact demo_rules_ok|]. intros c. cbn. rewrite lookup_empty. by repeat constructor.
  - lia.
  - by vm_compute.
Defined.
