(* ===== verification/EditReplace.v ===== *)
(** * Fuzzy replacement of a block of lines (nemesis-agent/src/loop_tools/edit_replacers.rs)

    When the text to replace does not occur as it is, five levels look for a block of
    lines that is nearly it; the first with a candidate decides.  Offsets are counted in
    characters, at the places where the source counts bytes; the limits on the size of a
    span are in bytes as there.  An index out of range panics: [None]. *)
From stdpp Require Import strings sorting.
From S2P Require Import Prelude RustStr Utils F64.
Local Open Scope nb_scope.

(** ** Lines *)

Record FileLine := mkFileLine {
  fl_start : nat;
  fl_term_end : nat;
  fl_term : str;
  fl_text : str;
}.

(** A line that a newline ends, read backwards in [acc]. *)
Definition ended_line (start : nat) (acc : str) : FileLine :=
  let term_end := (start + length acc + 1)%nat in
  match acc with
  | c :: rest => if N.eqb c c_cr then mkFileLine start term_end [c_cr; c_nl] (rev rest)
                 else mkFileLine start term_end [c_nl] (rev acc)
  | [] => mkFileLine start term_end [c_nl] []
  end.

Fixpoint line_infos_from (start : nat) (acc : str) (s : str) : list FileLine :=
  match s with
  | [] => match acc with
          | [] => []
          | _ => [mkFileLine start (start + length acc) [] (rev acc)]
          end
  | c :: s => if N.eqb c c_nl then ended_line start acc :: line_infos_from (start + length acc + 1) [] s
              else line_infos_from start (c :: acc) s
  end.

Definition line_infos (content : str) : list FileLine := line_infos_from 0 [] content.

Fixpoint leading_ws (s : str) : str :=
  match s with
  | c :: s => if is_ws c then c :: leading_ws s else []
  | [] => []
  end.

Definition is_blank (s : str) : bool := negb (nonempty (trim s)).

(** What follows the blanks. *)
Definition after_ws (s : str) : str := drop (length (leading_ws s)) s.

Definition span_limit (old_text : str) : nat := (byte_len old_text * 4 + 1024)%nat.

(** ** Levels *)

Inductive Level := LineTrimmed | BlockAnchor | WhitespaceNormalized | IndentationFlexible | TrimmedBoundary.

#[export] Instance Level_eq_dec : EqDecision Level.
Proof. solve_decision. Defined.

Definition level_name (l : Level) : str :=
  lit match l with
      | LineTrimmed => "line-trimmed"
      | BlockAnchor => "block-anchor"
      | WhitespaceNormalized => "whitespace-normalized"
      | IndentationFlexible => "indentation-flexible"
      | TrimmedBoundary => "trimmed-boundary"
      end.

Record FuzzyMatch := mkFuzzy {
  fm_content : str;
  fm_level : Level;
}.

Inductive CascadeError := Ambiguous (msg : str) | NoMatch (span_note : option str).

Inductive LevelOutcome :=
| LevelMatch (content : str)
| NoCandidate
| Disproportionate (span_bytes limit : nat).

Definition show_starts (l : list nat) : str := lit "[" ++ join (lit ", ") (show_nat <$> l) ++ lit "]".

Definition ambiguous (level : Level) (start_lines : list nat) : str :=
  lit "old_text matched " ++ show_nat (length start_lines) ++ lit " times via " ++ level_name level
  ++ lit " matching (at lines " ++ show_starts start_lines
  ++ lit "); add surrounding context to make it unambiguous".

(** The text between two lines. *)
Definition span_text (content : str) (first last : FileLine) : str :=
  take (fl_term_end last - fl_start first) (drop (fl_start first) content).

Definition splice_span (content : str) (lines : list FileLine) (first last : nat) (new_lines : list str) : option str :=
  f ← lines !! first;
  l ← lines !! last;
  let text := join (fl_term f) new_lines in
  let text := match new_lines with
              | [] => text
              | _ => if nonempty (fl_term l) then text ++ fl_term l else text
              end in
  Some (take (fl_start f) content ++ text ++ drop (fl_term_end l) content).

(** Candidates: the first line and the bytes of the span. *)
Definition within (limit : nat) (cands : list (nat * nat)) : list nat :=
  fst <$> List.filter (λ c, (snd c <=? limit)%nat) cands.

Definition accept_unique_spans (level : Level) (cands : list (nat * nat)) (old_text : str)
    (build : nat → option (result LevelOutcome str)) : option (result LevelOutcome str) :=
  let limit := span_limit old_text in
  match within limit cands with
  | [] =>
      Some (Ok match snd <$> List.filter (λ c, negb (snd c <=? limit)%nat) cands with
               | [] => NoCandidate
               | b :: bs => Disproportionate (foldl max b bs) limit
               end)
  | [i] => build i
  | starts => Some (Err (ambiguous level (S <$> starts)))
  end.

Definition block_holds (lines : list FileLine) (i block_len : nat) (pred : FileLine → nat → bool) : bool :=
  forallb (λ k, match lines !! (i + k)%nat with Some fl => pred fl k | None => false end) (seq 0 block_len).

(** The bytes of [block_len] lines from [i] on. *)
Definition span_bytes (content : str) (lines : list FileLine) (i last : nat) : nat :=
  match lines !! i, lines !! last with
  | Some f, Some l => byte_len (span_text content f l)
  | _, _ => 0
  end.

Definition same_count_candidates (content : str) (lines : list FileLine) (block_len : nat)
    (pred : FileLine → nat → bool) : list (nat * nat) :=
  if (block_len =? 0)%nat || (length lines <? block_len)%nat then []
  else
    (λ i, (i, span_bytes content lines i (i + block_len - 1))) <$>
      List.filter (λ i, block_holds lines i block_len pred) (seq 0 (S (length lines - block_len))).

(** The match that puts [new_lines] for the lines from [first] to [last]. *)
Definition matched (content : str) (lines : list FileLine) (first last : nat) (new_lines : option (list str))
    : option (result LevelOutcome str) :=
  new_lines ← new_lines;
  content ← splice_span content lines first last new_lines;
  Some (Ok (LevelMatch content)).

(** *** Lines up to blanks at both ends *)

(** The new lines with the indentation of the lines they come to stand on. *)
Fixpoint reindented (lines : list FileLine) (i : nat) (new_lines : list str) : option (list str) :=
  match new_lines with
  | [] => Some []
  | l :: new_lines =>
      fl ← lines !! i;
      rest ← reindented lines (S i) new_lines;
      Some ((leading_ws (fl_text fl) ++ trim_start l) :: rest)
  end.

Definition line_trimmed (content old_text new_text : str) : option (result LevelOutcome str) :=
  let old_lines := lines old_text in
  let infos := line_infos content in
  let cands := same_count_candidates content infos (length old_lines)
                 (λ fl k, bool_decide (Some (trim (fl_text fl)) = trim <$> old_lines !! k)) in
  accept_unique_spans LineTrimmed cands old_text (λ i,
    matched content infos i (i + length old_lines - 1) (reindented infos i (lines new_text))).

(** *** First and last line as anchors *)

Section Similarity.
Context {FL : Float}.

Definition count_char (counts : gmap N nat) (c : char) : gmap N nat :=
  <[c := S (default 0%nat (counts !! c))]> counts.

Definition visible (s : str) : str := List.filter (λ c, negb (is_ws c)) s.

(** Take a character out of the counts, if it is there. *)
Definition take_char (st : gmap N nat * nat) (c : char) : gmap N nat * nat :=
  match fst st !! c with
  | Some (S n) => (<[c := n]> (fst st), S (snd st))
  | _ => st
  end.

Definition char_similarity (a b : str) : QArith_base.Q :=
  match a, b with
  | [], [] => of_usize 1
  | [], _ | _, [] => of_usize 0
  | _, _ =>
      let counts := foldl count_char ∅ (visible a) in
      let na := length (visible a) in
      let nb := length (visible b) in
      let inter := snd (foldl take_char (counts, 0%nat) (visible b)) in
      if (na + nb =? 0)%nat then of_usize 1
      else fdiv (fmul (of_usize 2) (of_usize inter)) (of_usize (na + nb))
  end.

Definition BLOCK_ANCHOR_SIMILARITY : QArith_base.Q := f100 65.

(** The lines strictly between two. *)
Definition middle {A} (l : list A) (i j : nat) : list A := take (j - S i) (drop (S i) l).

Definition text_at (infos : list FileLine) (i : nat) : option str := fl_text <$> infos !! i.

(** The pairs of anchors, in the order of both loops. *)
Definition anchor_pairs (infos : list FileLine) (first_anchor last_anchor old_mid : str) : list (nat * nat) :=
  let n := length infos in
  List.filter (λ p,
      bool_decide (trim <$> text_at infos (fst p) = Some first_anchor)
      && bool_decide (trim <$> text_at infos (snd p) = Some last_anchor)
      && fle BLOCK_ANCHOR_SIMILARITY
           (char_similarity (join [c_nl] (fl_text <$> middle infos (fst p) (snd p))) old_mid))
    (seq 0 n ≫= λ i, (λ j, (i, j)) <$> seq (S i) (n - S i)).

Definition block_anchor (content old_text new_text : str) : option (result LevelOutcome str) :=
  let old_lines := lines old_text in
  match head old_lines, last old_lines with
  | Some first_line, Some last_line =>
      if (length old_lines <? 2)%nat then Some (Ok NoCandidate)
      else
        let first_anchor := trim first_line in
        let last_anchor := trim last_line in
        if negb (nonempty first_anchor) || negb (nonempty last_anchor) then Some (Ok NoCandidate)
        else
          let infos := line_infos content in
          let cands := anchor_pairs infos first_anchor last_anchor
                         (join [c_nl] (middle old_lines 0 (length old_lines - 1))) in
          let spanned := (λ p, (fst p, span_bytes content infos (fst p) (snd p))) <$> cands in
          accept_unique_spans BlockAnchor spanned old_text (λ idx,
            p ← cands !! idx;
            matched content infos (fst p) (snd p) (Some (lines new_text)))
  | _, _ => Some (Ok NoCandidate)
  end.
End Similarity.

(** *** Lines up to the length of blanks *)

Fixpoint fold_ws (in_ws : bool) (s : str) : str :=
  match s with
  | [] => []
  | c :: s => if is_ws c then (if in_ws then fold_ws true s else c_space :: fold_ws true s)
              else c :: fold_ws false s
  end.

Definition normalize_ws (s : str) : str := trim (fold_ws false s).

Definition whitespace_normalized (content old_text new_text : str) : option (result LevelOutcome str) :=
  let old_lines := lines old_text in
  let infos := line_infos content in
  let cands := same_count_candidates content infos (length old_lines)
                 (λ fl k, bool_decide (Some (normalize_ws (fl_text fl)) = normalize_ws <$> old_lines !! k)) in
  accept_unique_spans WhitespaceNormalized cands old_text (λ i,
    matched content infos i (i + length old_lines - 1) (Some (lines new_text))).

(** *** Lines up to a common indentation *)

Inductive IndentDelta := Add (extra : str) | Strip (miss : str).

Definition delta_of_pair (f_ws o_ws : str) : IndentDelta :=
  if (byte_len o_ws <=? byte_len f_ws)%nat && starts_with o_ws f_ws then Add (drop (length o_ws) f_ws)
  else Strip (drop (length f_ws) o_ws).

Definition same_delta (delta : IndentDelta) (f_ws o_ws : str) : bool :=
  match delta with
  | Add extra => (byte_len f_ws =? byte_len o_ws + byte_len extra)%nat && starts_with o_ws f_ws
  | Strip miss => (byte_len o_ws =? byte_len f_ws + byte_len miss)%nat && starts_with f_ws o_ws
  end.

Definition shifted_line (delta : IndentDelta) (f o : str) : bool :=
  match is_blank o, is_blank f with
  | true, true => true
  | false, false => same_delta delta (leading_ws f) (leading_ws o) && bool_decide (after_ws f = after_ws o)
  | _, _ => false
  end.

(** The shift between two lines, if one indentation begins the other. *)
Definition delta_between (f o : str) : option IndentDelta :=
  let f_ws := leading_ws f in
  let o_ws := leading_ws o in
  if starts_with o_ws f_ws || starts_with f_ws o_ws then Some (delta_of_pair f_ws o_ws) else None.

Definition shift_line (delta : IndentDelta) (l : str) : str :=
  if is_blank l then l
  else
    match delta with
    | Add extra => extra ++ l
    | Strip miss =>
        let ws := leading_ws l in
        if (byte_len miss <=? byte_len ws)%nat && starts_with miss ws then drop (length miss) l else l
    end.

(** Whether the block at [i] is the old one, shifted as its first line with text is. *)
Definition shifted_block (infos : list FileLine) (old_lines : list str) (k0 i : nat) : bool :=
  match text_at infos (i + k0) ≫= λ f, old_lines !! k0 ≫= λ o, delta_between f o with
  | Some delta =>
      block_holds infos i (length old_lines)
        (λ fl k, match old_lines !! k with Some o => shifted_line delta (fl_text fl) o | None => false end)
  | None => false
  end.

Definition indentation_flexible (content old_text new_text : str) : option (result LevelOutcome str) :=
  let old_lines := lines old_text in
  let infos := line_infos content in
  match fst <$> find_idx (λ l, negb (is_blank l)) old_lines with
  | None => Some (Ok NoCandidate)
  | Some k0 =>
      let starts := if (length infos <? length old_lines)%nat then []
                    else List.filter (shifted_block infos old_lines k0) (seq 0 (S (length infos - length old_lines))) in
      let cands := (λ i, (i, span_bytes content infos i (i + length old_lines - 1))) <$> starts in
      accept_unique_spans IndentationFlexible cands old_text (λ i,
        f ← text_at infos (i + k0);
        o ← old_lines !! k0;
        matched content infos i (i + length old_lines - 1)
          (Some (shift_line (delta_of_pair (leading_ws f) (leading_ws o)) <$> lines new_text)))
  end.

(** *** Lines without the blank ones around *)

Fixpoint drop_blank (l : list str) : list str :=
  match l with
  | x :: l' => if is_blank x then drop_blank l' else l
  | [] => []
  end.

(** The lines from the first to the last with text. *)
Definition core_lines (l : list str) : list str := rev (drop_blank (rev (drop_blank l))).

Definition trimmed_boundary (content old_text new_text : str) : option (result LevelOutcome str) :=
  match core_lines (lines old_text) with
  | [] => Some (Ok NoCandidate)
  | core =>
      let infos := line_infos content in
      let cands := same_count_candidates content infos (length core)
                     (λ fl k, bool_decide (Some (fl_text fl) = core !! k)) in
      accept_unique_spans TrimmedBoundary cands old_text (λ i,
        matched content infos i (i + length core - 1) (Some (lines new_text)))
  end.

(** ** The cascade *)

Section Cascade.
Context {FL : Float}.

Definition run_level (level : Level) : str → str → str → option (result LevelOutcome str) :=
  match level with
  | LineTrimmed => line_trimmed
  | BlockAnchor => block_anchor
  | WhitespaceNormalized => whitespace_normalized
  | IndentationFlexible => indentation_flexible
  | TrimmedBoundary => trimmed_boundary
  end.

Definition all_levels : list Level :=
  [LineTrimmed; BlockAnchor; WhitespaceNormalized; IndentationFlexible; TrimmedBoundary].

Definition span_note (b l : nat) : str :=
  lit "Note: a fuzzy candidate was rejected as disproportionate (matched span " ++ show_nat b
  ++ lit " bytes > limit " ++ show_nat l ++ lit " bytes)." ++ [c_nl].

Fixpoint try_levels (levels : list Level) (content old_text new_text : str) (disproportion : option (nat * nat))
    : option (result FuzzyMatch CascadeError) :=
  match levels with
  | [] => Some (Err (NoMatch ((λ d, span_note (fst d) (snd d)) <$> disproportion)))
  | level :: levels =>
      outcome ← run_level level content old_text new_text;
      match outcome with
      | Err msg => Some (Err (Ambiguous msg))
      | Ok (LevelMatch content) => Some (Ok (mkFuzzy content level))
      | Ok NoCandidate => try_levels levels content old_text new_text disproportion
      | Ok (Disproportionate b l) => try_levels levels content old_text new_text (Some (b, l))
      end
  end.

Definition cascade_replace (content old_text new_text : str) : option (result FuzzyMatch CascadeError) :=
  if negb (nonempty (trim old_text)) then Some (Err (NoMatch None))
  else try_levels all_levels content old_text new_text None.
End Cascade.

(** ** Lines and spans *)

Definition full (fl : FileLine) : str := fl_text fl ++ fl_term fl.

Definition full_text (infos : list FileLine) : str := infos ≫= full.

Fixpoint laid_out (start : nat) (infos : list FileLine) : Prop :=
  match infos with
  | [] => True
  | fl :: infos => fl_start fl = start ∧ fl_term_end fl = (start + length (full fl))%nat ∧ laid_out (fl_term_end fl) infos
  end.

Lemma ended_line_spec start acc :
  full (ended_line start acc) = rev acc ++ [c_nl] ∧ fl_start (ended_line start acc) = start ∧
  fl_term_end (ended_line start acc) = (start + length acc + 1)%nat.
Proof.
  destruct acc as [|c acc]; [done|]. unfold ended_line, full. destruct (N.eqb_spec c c_cr) as [->|]; [|done].
  cbn [fl_text fl_term]. split_and!; [|done..]. cbn [rev]. by rewrite <- app_assoc.
Qed.

Lemma line_infos_from_spec s start acc :
  full_text (line_infos_from start acc s) = rev acc ++ s ∧ laid_out start (line_infos_from start acc s).
Proof.
  revert start acc. induction s as [|c s IH]; intros start acc; cbn [line_infos_from].
  - destruct acc as [|c acc]; [done|]. unfold full_text. cbn [mbind list_bind]. unfold full. cbn [fl_text fl_term].
    rewrite !app_nil_r. split; [done|]. cbn [laid_out fl_start fl_term_end fl_text fl_term]. unfold full. cbn [fl_text fl_term].
    by rewrite app_nil_r, length_rev.
  - destruct (N.eqb_spec c c_nl) as [->|].
    + destruct (ended_line_spec start acc) as (Hf & Hs & He). destruct (IH (start + length acc + 1)%nat []) as [Ht Hl].
      unfold full_text in *. cbn [mbind list_bind laid_out]. rewrite Ht, Hf, Hs, He, length_app, length_rev. cbn [length].
      rewrite <- app_assoc. split_and!; [done|done|lia|done].
    + destruct (IH start (c :: acc)) as [-> ?]. split; [|done]. cbn [rev]. by rewrite <- app_assoc.
Qed.

Lemma line_infos_text content : full_text (line_infos content) = content.
Proof. apply (line_infos_from_spec content 0 []). Qed.

Lemma full_text_app a b : full_text (a ++ b) = full_text a ++ full_text b.
Proof. apply bind_app. Qed.

Lemma laid_out_lookup infos start i fl :
  laid_out start infos → infos !! i = Some fl →
  fl_start fl = (start + length (full_text (take i infos)))%nat ∧
  fl_term_end fl = (start + length (full_text (take (S i) infos)))%nat.
Proof.
  revert start i. induction infos as [|x infos IH]; intros start i Hl Hi; [done|].
  destruct Hl as (Hs & He & Hl). destruct i as [|i].
  - injection Hi as ->. unfold full_text. cbn. rewrite app_nil_r. split; lia.
  - destruct (IH _ _ Hl Hi) as [-> ->]. rewrite He. unfold full_text. cbn. rewrite !length_app. split; lia.
Qed.

Lemma line_infos_lookup content i fl :
  line_infos content !! i = Some fl →
  fl_start fl = length (full_text (take i (line_infos content))) ∧
  fl_term_end fl = length (full_text (take (S i) (line_infos content))).
Proof. intros Hi. destruct (laid_out_lookup (line_infos content) 0 i fl) as [-> ->]; [apply (line_infos_from_spec content 0 [])|done..]. Qed.

(** The lines of a span. *)
Definition block (infos : list FileLine) (p : nat * nat) : list FileLine := take (S (snd p) - fst p) (drop (fst p) infos).

Lemma take_block infos p : (fst p ≤ S (snd p))%nat → take (S (snd p)) infos = take (fst p) infos ++ block infos p.
Proof.
  intros Hp. unfold block. rewrite take_take_drop.
  by replace (fst p + (S (snd p) - fst p))%nat with (S (snd p)) by lia.
Qed.

Lemma before_span content i :
  take (length (full_text (take i (line_infos content)))) content = full_text (take i (line_infos content)).
Proof.
  rewrite <- (line_infos_text content) at 2. rewrite <- (take_drop i (line_infos content)) at 2.
  by rewrite full_text_app, take_app_length.
Qed.

Lemma after_span content i :
  drop (length (full_text (take i (line_infos content)))) content = full_text (drop i (line_infos content)).
Proof.
  rewrite <- (line_infos_text content) at 2. rewrite <- (take_drop i (line_infos content)) at 2.
  by rewrite full_text_app, drop_app_length.
Qed.

Lemma span_block content p f l :
  (fst p ≤ snd p)%nat → line_infos content !! fst p = Some f → line_infos content !! snd p = Some l →
  span_text content f l = full_text (block (line_infos content) p).
Proof.
  intros Hp Hf Hl. apply line_infos_lookup in Hf as [Hs _]. apply line_infos_lookup in Hl as [_ He].
  unfold span_text. rewrite Hs, He, after_span, take_block, full_text_app, length_app by lia.
  replace (length (full_text (take (fst p) (line_infos content))) + length (full_text (block (line_infos content) p))
    - length (full_text (take (fst p) (line_infos content))))%nat
    with (length (full_text (block (line_infos content) p))) by lia.
  rewrite <- (take_drop (S (snd p) - fst p) (drop (fst p) (line_infos content))).
  fold (block (line_infos content) p). by rewrite full_text_app, take_app_length.
Qed.

(** What takes the place of a block of lines. *)
Definition respliced (blk : list FileLine) (new_lines : list str) : str :=
  match head blk, last blk with
  | Some f, Some l =>
      join (fl_term f) new_lines ++ match new_lines with [] => [] | _ => fl_term l end
  | _, _ => []
  end.

Definition spliced (content : str) (p : nat * nat) (new_lines : list str) : str :=
  let infos := line_infos content in
  full_text (take (fst p) infos) ++ respliced (block infos p) new_lines ++ full_text (drop (S (snd p)) infos).

Lemma block_ends infos p f l :
  (fst p ≤ snd p)%nat → infos !! fst p = Some f → infos !! snd p = Some l →
  head (block infos p) = Some f ∧ last (block infos p) = Some l.
Proof.
  intros Hp Hf Hl. unfold block. split.
  - rewrite head_lookup, lookup_take_lt, lookup_drop by lia. by rewrite Nat.add_0_r.
  - assert (snd p < length infos)%nat as Hn by by eapply lookup_lt_Some.
    rewrite last_lookup, length_take, length_drop. rewrite lookup_take_lt, lookup_drop by lia.
    rewrite <- Hl. f_equal. lia.
Qed.

Lemma splice_span_spec content p new_lines :
  (fst p ≤ snd p)%nat → (snd p < length (line_infos content))%nat →
  splice_span content (line_infos content) (fst p) (snd p) new_lines = Some (spliced content p new_lines).
Proof.
  intros Hp Hn. unfold splice_span, spliced. cbv zeta.
  destruct (lookup_lt_is_Some_2 (line_infos content) (fst p)) as [f Hf]; [lia|].
  destruct (lookup_lt_is_Some_2 (line_infos content) (snd p)) as [l Hl]; [lia|].
  unfold respliced. destruct (block_ends _ p f l Hp Hf Hl) as [-> ->]. rewrite Hf, Hl. cbn [mbind option_bind].
  apply line_infos_lookup in Hf as [-> _]. apply line_infos_lookup in Hl as [_ ->].
  rewrite before_span, after_span. do 3 f_equal.
  destruct new_lines as [|x xs]; [by rewrite app_nil_r|]. destruct (fl_term l); [by rewrite app_nil_r|done].
Qed.

(** ** What a level accepts *)

Definition cand_of (content : str) (infos : list FileLine) (p : nat * nat) : nat * nat :=
  (fst p, span_bytes content infos (fst p) (snd p)).

Definition in_file (infos : list FileLine) (p : nat * nat) : Prop := (fst p ≤ snd p < length infos)%nat.

(** The candidates that are small enough. *)
Definition fitting (infos : list FileLine) (old_text : str) (pairs : list (nat * nat)) : list (nat * nat) :=
  List.filter (λ p, (byte_len (full_text (block infos p)) <=? span_limit old_text)%nat) pairs.

Lemma within_fitting content old_text pairs :
  Forall (in_file (line_infos content)) pairs →
  within (span_limit old_text) (cand_of content (line_infos content) <$> pairs)
  = fst <$> fitting (line_infos content) old_text pairs.
Proof.
  unfold within, fitting. induction 1 as [|p pairs [Hp Hn] _ IH]; [done|]. cbn [fmap list_fmap List.filter].
  assert (snd (cand_of content (line_infos content) p) = byte_len (full_text (block (line_infos content) p))) as ->.
  { unfold cand_of, span_bytes. cbn [snd].
    destruct (lookup_lt_is_Some_2 (line_infos content) (fst p)) as [f Hf]; [lia|].
    destruct (lookup_lt_is_Some_2 (line_infos content) (snd p)) as [l Hl]; [lia|].
    by rewrite Hf, Hl, (span_block content p f l). }
  destruct (_ <=? _)%nat; cbn [fmap list_fmap]; by rewrite <- IH.
Qed.

(** A construction that gives a match or panics. *)
Definition only_matches (build : nat → option (result LevelOutcome str)) : Prop :=
  ∀ i, build i = None ∨ ∃ c, build i = Some (Ok (LevelMatch c)).

Lemma matched_only content infos i j new_lines :
  matched content infos i j new_lines = None ∨ ∃ c, matched content infos i j new_lines = Some (Ok (LevelMatch c)).
Proof.
  unfold matched. destruct new_lines as [n|]; [|by left]. cbn. destruct (splice_span _ _ _ _ _); cbn; [right; by eexists|by left].
Qed.

Lemma accept_spec level cands old_text build : only_matches build →
  match accept_unique_spans level cands old_text build with
  | None => ∃ i, within (span_limit old_text) cands = [i] ∧ build i = None
  | Some (Ok (LevelMatch c)) => ∃ i, within (span_limit old_text) cands = [i] ∧ build i = Some (Ok (LevelMatch c))
  | Some (Ok _) => within (span_limit old_text) cands = []
  | Some (Err _) => (2 ≤ length (within (span_limit old_text) cands))%nat
  end.
Proof.
  intros Hb. unfold accept_unique_spans. destruct (within _ cands) as [|i [|j starts]] eqn:E; cbn [length]; [|..|lia].
  - by destruct (snd <$> _).
  - destruct (Hb i) as [Hi|[c Hi]]; rewrite Hi; by exists i.
Qed.

(** *** Blocks of as many lines *)

Lemma block_length infos p : in_file infos p → length (block infos p) = (S (snd p) - fst p)%nat.
Proof. intros [Hp Hn]. unfold block. rewrite length_take, length_drop. lia. Qed.

Lemma block_lookup infos p k : (k < S (snd p) - fst p)%nat → block infos p !! k = infos !! (fst p + k)%nat.
Proof. intros Hk. unfold block. by rewrite lookup_take_lt, lookup_drop. Qed.

Lemma block_holds_iff infos i m pred :
  block_holds infos i m pred = true ↔
  ∀ k, (k < m)%nat → ∃ fl, infos !! (i + k)%nat = Some fl ∧ pred fl k = true.
Proof.
  unfold block_holds. rewrite forallb_forall. setoid_rewrite in_seq. split.
  - intros H k Hk. specialize (H k ltac:(lia)). destruct (infos !! (i + k)%nat) as [fl|]; [by exists fl|done].
  - intros H k Hk. destruct (H k) as (fl & -> & Hp); [lia|done].
Qed.

Definition same_pairs (infos : list FileLine) (m : nat) (pred : FileLine → nat → bool) : list (nat * nat) :=
  if (m =? 0)%nat || (length infos <? m)%nat then []
  else (λ i, (i, (i + m - 1)%nat)) <$> List.filter (λ i, block_holds infos i m pred) (seq 0 (S (length infos - m))).

Lemma same_count_pairs content infos m pred :
  same_count_candidates content infos m pred = cand_of content infos <$> same_pairs infos m pred.
Proof.
  unfold same_count_candidates, same_pairs. destruct (_ || _); [done|]. by rewrite <- list_fmap_compose.
Qed.

Lemma same_pairs_holds infos m pred p :
  p ∈ same_pairs infos m pred ↔
  in_file infos p ∧ (snd p = fst p + m - 1)%nat ∧ m ≠ 0%nat ∧ block_holds infos (fst p) m pred = true.
Proof.
  unfold same_pairs. destruct (Nat.eqb_spec m 0) as [->|Hm]; cbn [orb].
  { rewrite elem_of_nil. split; [done|]. by intros (_ & _ & ? & _). }
  destruct (Nat.ltb_spec (length infos) m) as [Hn|Hn].
  { rewrite elem_of_nil. split; [done|]. intros ([? ?] & ? & ? & _). lia. }
  rewrite list_elem_of_fmap. setoid_rewrite list_elem_of_In. setoid_rewrite filter_In. setoid_rewrite in_seq. split.
  - intros (i & -> & Hi & Hh). unfold in_file. cbn [fst snd]. split_and!; [lia..|done].
  - intros ([Hp Hl] & He & _ & Hh). exists (fst p). split; [destruct p; cbn in *; by subst|]. split; [lia|done].
Qed.

Lemma same_pairs_NoDup infos m pred : NoDup (same_pairs infos m pred).
Proof.
  unfold same_pairs. destruct (_ || _); [constructor|]. apply NoDup_fmap_2; [by intros i j [= ->]|].
  apply NoDup_ListNoDup, List.NoDup_filter, seq_NoDup.
Qed.

Lemma same_pairs_ext infos m f g p :
  (∀ fl k, f fl k = g fl k) → p ∈ same_pairs infos m f ↔ p ∈ same_pairs infos m g.
Proof. intros H. rewrite !same_pairs_holds, !block_holds_iff. by setoid_rewrite H. Qed.

(** Lines that are equal up to [f]. *)
Lemma same_pairs_iff {A} `{EqDecision A} (f : str → A) infos old p :
  p ∈ same_pairs infos (length old) (λ fl k, bool_decide (Some (f (fl_text fl)) = f <$> old !! k)) ↔
  in_file infos p ∧ f ∘ fl_text <$> block infos p = f <$> old.
Proof.
  rewrite same_pairs_holds, block_holds_iff. split.
  - intros (Hp & He & Hm & Hh). split; [done|]. apply list_eq. intros k. rewrite !list_lookup_fmap.
    destruct (decide (k < length old)%nat) as [Hk|Hk].
    + destruct Hp. rewrite block_lookup by lia. destruct (Hh k Hk) as (fl & -> & Hd). by apply bool_decide_eq_true in Hd.
    + rewrite !lookup_ge_None_2; [done|lia|rewrite block_length by done; lia].
  - intros [Hp He]. assert (length (block infos p) = length old) as Hl.
    { apply (f_equal length) in He. by rewrite !length_fmap in He. }
    rewrite block_length in Hl by done. split; [done|]. destruct Hp as [Hp Hn]. split_and!; [lia..|].
    intros k Hk. destruct (lookup_lt_is_Some_2 infos (fst p + k)) as [fl Hfl]; [lia|]. exists fl. split; [done|].
    apply bool_decide_eq_true. apply (f_equal (.!! k)) in He. rewrite !list_lookup_fmap, block_lookup, Hfl in He by lia.
    exact He.
Qed.

(** *** Anchors *)

Section Levels.
Context {FL : Float}.

Lemma anchor_pairs_iff infos fa la mid p :
  p ∈ anchor_pairs infos fa la mid ↔
  (fst p < snd p < length infos)%nat ∧ trim <$> text_at infos (fst p) = Some fa ∧ trim <$> text_at infos (snd p) = Some la ∧
  fle BLOCK_ANCHOR_SIMILARITY (char_similarity (join [c_nl] (fl_text <$> middle infos (fst p) (snd p))) mid) = true.
Proof.
  unfold anchor_pairs. rewrite list_elem_of_In, filter_In, <- list_elem_of_In, !andb_true_iff, !bool_decide_eq_true.
  assert (p ∈ (seq 0 (length infos) ≫= λ i, (λ j, (i, j)) <$> seq (S i) (length infos - S i)) ↔ (fst p < snd p < length infos)%nat) as ->.
  { rewrite list_elem_of_bind. setoid_rewrite list_elem_of_fmap. setoid_rewrite elem_of_seq. split.
    - intros (i & (j & -> & Hj) & Hi). cbn. lia.
    - intros Hp. exists (fst p). split; [|lia]. exists (snd p). split; [by destruct p|lia]. }
  tauto.
Qed.

Lemma anchor_pairs_NoDup infos fa la mid : NoDup (anchor_pairs infos fa la mid).
Proof.
  unfold anchor_pairs. apply NoDup_ListNoDup, List.NoDup_filter, NoDup_ListNoDup, NoDup_bind.
  - intros i j p _ _ (? & -> & _)%list_elem_of_fmap (? & [= ->] & _)%list_elem_of_fmap. done.
  - intros i _. apply NoDup_fmap_2; [by intros ? ? [=]|]. apply NoDup_seq.
  - apply NoDup_seq.
Qed.

(** The order of blocks: by the first line, then by the last. *)
Definition block_before (p q : nat * nat) : Prop := (fst p < fst q ∨ fst p = fst q ∧ snd p < snd q)%nat.

#[export] Instance block_before_order : StrictOrder block_before.
Proof.
  split.
  - intros p [?|[_ ?]]; lia.
  - intros p q r. unfold block_before. lia.
Qed.




(** Whether lines are such as a level looks for. *)
Definition fits (level : Level) (old_text : str) (texts : list str) : Prop :=
  match level with
  | LineTrimmed => trim <$> texts = trim <$> lines old_text
  | WhitespaceNormalized => normalize_ws <$> texts = normalize_ws <$> lines old_text
  | TrimmedBoundary => texts = core_lines (lines old_text)
  | BlockAnchor =>
      ∃ o1 om o2 f1 fm f2, lines old_text = o1 :: om ++ [o2] ∧ texts = f1 :: fm ++ [f2] ∧
        trim f1 = trim o1 ∧ trim f2 = trim o2 ∧ trim o1 ≠ [] ∧ trim o2 ≠ [] ∧
        fle BLOCK_ANCHOR_SIMILARITY (char_similarity (join [c_nl] fm) (join [c_nl] om)) = true
  | IndentationFlexible =>
      ∃ k0 f o delta, fst <$> find_idx (λ l, negb (is_blank l)) (lines old_text) = Some k0 ∧
        texts !! k0 = Some f ∧ lines old_text !! k0 = Some o ∧ delta_between f o = Some delta ∧
        Forall2 (λ f o, shifted_line delta f o = true) texts (lines old_text)
  end.

(** The blocks a level looks for, with their first and last lines. *)
Definition eligible (level : Level) (content old_text : str) (p : nat * nat) : Prop :=
  in_file (line_infos content) p ∧ fits level old_text (fl_text <$> block (line_infos content) p) ∧
  (byte_len (full_text (block (line_infos content) p)) ≤ span_limit old_text)%nat.

(** The pairs that a level enumerates. *)
Definition pairs_of (level : Level) (content old_text : str) : list (nat * nat) :=
  let infos := line_infos content in
  let old := lines old_text in
  match level with
  | LineTrimmed => same_pairs infos (length old) (λ fl k, bool_decide (Some (trim (fl_text fl)) = trim <$> old !! k))
  | WhitespaceNormalized =>
      same_pairs infos (length old) (λ fl k, bool_decide (Some (normalize_ws (fl_text fl)) = normalize_ws <$> old !! k))
  | TrimmedBoundary =>
      same_pairs infos (length (core_lines old)) (λ fl k, bool_decide (Some (fl_text fl) = core_lines old !! k))
  | BlockAnchor =>
      match head old, last old with
      | Some o1, Some o2 =>
          if (length old <? 2)%nat || negb (nonempty (trim o1)) || negb (nonempty (trim o2)) then []
          else anchor_pairs infos (trim o1) (trim o2) (join [c_nl] (middle old 0 (length old - 1)))
      | _, _ => []
      end
  | IndentationFlexible =>
      match fst <$> find_idx (λ l, negb (is_blank l)) old with
      | None => []
      | Some k0 =>
          (λ i, (i, (i + length old - 1)%nat)) <$>
            (if (length infos <? length old)%nat then []
             else List.filter (shifted_block infos old k0) (seq 0 (S (length infos - length old))))
      end
  end.

Definition built (level : Level) (content old_text new_text : str) (i : nat) : option (result LevelOutcome str) :=
  let infos := line_infos content in
  let old := lines old_text in
  match level with
  | LineTrimmed => matched content infos i (i + length old - 1) (reindented infos i (lines new_text))
  | WhitespaceNormalized => matched content infos i (i + length old - 1) (Some (lines new_text))
  | TrimmedBoundary => matched content infos i (i + length (core_lines old) - 1) (Some (lines new_text))
  | BlockAnchor =>
      p ← pairs_of BlockAnchor content old_text !! i; matched content infos (fst p) (snd p) (Some (lines new_text))
  | IndentationFlexible =>
      k0 ← fst <$> find_idx (λ l, negb (is_blank l)) old;
      f ← text_at infos (i + k0);
      o ← old !! k0;
      matched content infos i (i + length old - 1)
        (Some (shift_line (delta_of_pair (leading_ws f) (leading_ws o)) <$> lines new_text))
  end.

Lemma accept_none level old_text build : accept_unique_spans level [] old_text build = Some (Ok NoCandidate).
Proof. done. Qed.

Lemma run_level_accepts level content old_text new_text :
  run_level level content old_text new_text
  = accept_unique_spans level (cand_of content (line_infos content) <$> pairs_of level content old_text) old_text
      (built level content old_text new_text).
Proof.
  destruct level; cbn [run_level].
  - unfold line_trimmed. cbv zeta. by rewrite same_count_pairs.
  - unfold block_anchor. cbv zeta. unfold built, pairs_of. destruct (head (lines old_text)) as [o1|]; [|done].
    destruct (last (lines old_text)) as [o2|]; [|done]. destruct (_ <? 2)%nat; [done|]. cbn [orb].
    destruct (negb (nonempty (trim o1)) || negb (nonempty (trim o2))); done.
  - unfold whitespace_normalized. cbv zeta. by rewrite same_count_pairs.
  - unfold indentation_flexible. cbv zeta. unfold built, pairs_of.
    destruct (fst <$> find_idx _ _) as [k0|]; [|done]. by rewrite <- list_fmap_compose.
  - unfold trimmed_boundary. destruct (core_lines (lines old_text)) as [|c core] eqn:E.
    + unfold pairs_of. by rewrite E.
    + cbv zeta. rewrite same_count_pairs. unfold pairs_of, built. by rewrite E.
Qed.

Lemma built_only level content old_text new_text : only_matches (built level content old_text new_text).
Proof.
  intros i. destruct level; unfold built; try apply matched_only.
  - destruct (pairs_of _ _ _ !! i); cbn [mbind option_bind]; [apply matched_only|by left].
  - destruct (fst <$> find_idx _ _); cbn [mbind option_bind]; [|by left]. destruct (text_at _ _); cbn [mbind option_bind]; [|by left].
    destruct (_ !! _); cbn [mbind option_bind]; [apply matched_only|by left].
Qed.

Lemma ends_middle {A} (l : list A) i j x y :
  (i < j)%nat → l !! i = Some x → l !! j = Some y → take (S j - i) (drop i l) = x :: middle l i j ++ [y].
Proof.
  intros Hij Hx Hy. rewrite (drop_S l x i) by done. replace (S j - i)%nat with (S (S (j - S i))) by lia.
  cbn [take]. f_equal. unfold middle. apply take_S_r. rewrite lookup_drop, <- Hy. f_equal. lia.
Qed.

Lemma two_ends {A} (l : list A) x m y : l = x :: m ++ [y] →
  l !! 0%nat = Some x ∧ l !! (length l - 1)%nat = Some y ∧ middle l 0 (length l - 1) = m ∧ (2 ≤ length l)%nat.
Proof.
  intros ->. cbn [length]. rewrite length_app. cbn [length]. replace (S (length m + 1) - 1)%nat with (S (length m)) by lia.
  split_and!; [done| |unfold middle; cbn [drop]; rewrite Nat.sub_succ, Nat.sub_0_r; apply take_app_length|lia].
  change ((m ++ [y]) !! length m = Some y). by apply list_lookup_middle.
Qed.

Lemma anchor_fits content old_text p :
  p ∈ pairs_of BlockAnchor content old_text ↔
  in_file (line_infos content) p ∧ fits BlockAnchor old_text (fl_text <$> block (line_infos content) p).
Proof.
  unfold pairs_of, fits. split.
  - destruct (lines old_text) as [|o1 rest] eqn:E; [by intros ?%elem_of_nil|]. rewrite <- E. rewrite E at 1. cbn [head].
    destruct (last (lines old_text)) as [o2|] eqn:El; [|by intros ?%elem_of_nil].
    destruct (Nat.ltb_spec (length (lines old_text)) 2) as [|Hlen]; [by intros ?%elem_of_nil|]. cbn [orb].
    destruct (nonempty (trim o1)) eqn:Ea; [|by intros ?%elem_of_nil].
    destruct (nonempty (trim o2)) eqn:Eb; [|by intros ?%elem_of_nil]. cbn [orb negb].
    rewrite anchor_pairs_iff. intros (Hp & Hf & Hl & Hs). unfold text_at in Hf, Hl.
    destruct (line_infos content !! fst p) as [f|] eqn:Ef; [|done].
    destruct (line_infos content !! snd p) as [l|] eqn:Eg; [|done]. injection Hf as Hf. injection Hl as Hl.
    split; [split; lia|]. exists o1, (middle (lines old_text) 0 (length (lines old_text) - 1)), o2,
      (fl_text f), (fl_text <$> middle (line_infos content) (fst p) (snd p)), (fl_text l).
    split_and!; [| |done|done|by apply nonempty_true|by apply nonempty_true|done].
    + rewrite last_lookup in El. rewrite <- (ends_middle (lines old_text) 0 (length (lines old_text) - 1)); [|lia|by rewrite E|].
      * replace (S (length (lines old_text) - 1) - 0)%nat with (length (lines old_text)) by lia. cbn [drop]. by rewrite firstn_all.
      * rewrite <- El. f_equal. lia.
    + unfold block. by rewrite (ends_middle _ _ _ f l), fmap_cons, fmap_app by (done || lia).
  - intros ([Hp Hn] & o1 & om & o2 & f1 & fm & f2 & Ho & Ht & H1 & H2 & Ha & Hb & Hs).
    destruct (two_ends _ _ _ _ Ho) as (_ & Hlast & Hmid & Hlen).
    assert (last (lines old_text) = Some o2) as -> by (rewrite last_lookup, <- Hlast; f_equal; lia).
    rewrite Hmid. replace (head (lines old_text)) with (Some o1) by by rewrite Ho.
    destruct (Nat.ltb_spec (length (lines old_text)) 2); [lia|]. cbn [orb].
    apply nonempty_true in Ha, Hb. rewrite Ha, Hb. cbn [orb negb]. apply anchor_pairs_iff.
    pose proof (f_equal length Ht) as Hl. rewrite length_fmap, block_length in Hl by done. cbn [length] in Hl. rewrite length_app in Hl.
    cbn [length] in Hl. destruct (lookup_lt_is_Some_2 (line_infos content) (fst p)) as [f Hf]; [lia|].
    destruct (lookup_lt_is_Some_2 (line_infos content) (snd p)) as [l Hg]; [lia|].
    unfold block in Ht. rewrite (ends_middle _ _ _ f l), fmap_cons, fmap_app in Ht by (done || lia).
    injection Ht as Ht1 Ht. apply app_inj_tail in Ht as [Htm Ht2]. unfold text_at. rewrite Hf, Hg, Htm. cbn.
    rewrite Ht1, Ht2, H1, H2. split_and!; [lia|lia|done..].
Qed.

Lemma indent_fits content old_text p :
  p ∈ pairs_of IndentationFlexible content old_text ↔
  in_file (line_infos content) p ∧ fits IndentationFlexible old_text (fl_text <$> block (line_infos content) p).
Proof.
  unfold pairs_of, fits. destruct (find_idx _ _) as [[k0 o0]|] eqn:Ek; cbn [fmap option_fmap option_map fst].
  2: { rewrite elem_of_nil. split; [done|]. by intros (_ & ? & ? & ? & ? & ? & _). }
  apply find_idx_Some in Ek as [Hk0 _]. assert (k0 < length (lines old_text))%nat as Hk by by eapply lookup_lt_Some.
  set (old := lines old_text) in *. set (infos := line_infos content) in *.
  assert (∀ i, in_file infos (i, (i + length old - 1)%nat) →
    shifted_block infos old k0 i = true ↔
    ∃ f o delta, (fl_text <$> block infos (i, (i + length old - 1)%nat)) !! k0 = Some f ∧ old !! k0 = Some o ∧
      delta_between f o = Some delta ∧
      Forall2 (λ f o, shifted_line delta f o = true) (fl_text <$> block infos (i, (i + length old - 1)%nat)) old) as Hshift.
  { intros i [Hp Hn]. cbn [fst snd] in *. unfold shifted_block, text_at. rewrite list_lookup_fmap, block_lookup by (cbn; lia).
    cbn [fst]. destruct (lookup_lt_is_Some_2 infos (i + k0)) as [f ->]; [lia|].
    destruct (lookup_lt_is_Some_2 old k0) as [o ->]; [done|]. cbn [fmap option_fmap option_map mbind option_bind].
    destruct (delta_between (fl_text f) o) as [delta|] eqn:Ed; [|split; [done|intros (? & ? & ? & [= <-] & [= <-] & ? & _); congruence]].
    rewrite block_holds_iff. split.
    - intros Hh. exists (fl_text f), o, delta. split_and!; [done..|]. apply Forall2_same_length_lookup. split.
      { rewrite length_fmap, block_length by (split; cbn; lia). cbn. lia. }
      intros k x y Hx Hy. rewrite list_lookup_fmap, block_lookup in Hx by (cbn; apply lookup_lt_Some in Hy; lia). cbn [fst] in Hx.
      destruct (Hh k) as (fl & Hfl & Hs); [by eapply lookup_lt_Some|]. rewrite Hfl in Hx. injection Hx as <-. by rewrite Hy in Hs.
    - intros (f' & o' & delta' & [= <-] & [= <-] & Ed' & Hall) k Hlt. rewrite Ed in Ed'. injection Ed' as <-.
      destruct (lookup_lt_is_Some_2 old k) as [y Hy]; [done|]. destruct (lookup_lt_is_Some_2 infos (i + k)) as [fl Hfl]; [lia|].
      exists fl. split; [done|]. rewrite Hy. apply (Forall2_lookup_lr _ _ _ k _ _ Hall); [|exact Hy].
      rewrite list_lookup_fmap, block_lookup by (cbn; lia). cbn [fst]. by rewrite Hfl. }
  split.
  - intros (i & -> & Hi)%list_elem_of_fmap. destruct (Nat.ltb_spec (length infos) (length old)); [by apply elem_of_nil in Hi|].
    apply list_elem_of_In, filter_In in Hi as [Hi Hs]. apply in_seq in Hi.
    assert (in_file infos (i, (i + length old - 1)%nat)) as Hin by (split; cbn; lia). split; [done|].
    apply Hshift in Hs as (f & o & delta & ? & ? & ? & ?); [|done]. by exists k0, f, o, delta.
  - intros (Hin & k & f & o & delta & [= <-] & Hf & Ho & Hd & Hall). pose proof (Forall2_length _ _ _ Hall) as Hl.
    rewrite length_fmap, block_length in Hl by done. destruct p as [i j]. destruct Hin as [Hp Hn]. cbn [fst snd] in *.
    assert (j = i + length old - 1)%nat as -> by lia. apply list_elem_of_fmap. exists i. split; [done|].
    destruct (Nat.ltb_spec (length infos) (length old)); [lia|]. apply list_elem_of_In, filter_In. split; [apply in_seq; lia|].
    apply Hshift; [by split|]. by exists f, o, delta.
Qed.

Lemma pairs_fit level content old_text p :
  p ∈ pairs_of level content old_text ↔
  in_file (line_infos content) p ∧ fits level old_text (fl_text <$> block (line_infos content) p).
Proof.
  destruct level; [|apply anchor_fits| |apply indent_fits|]; unfold pairs_of, fits; rewrite ?list_fmap_compose.
  - by rewrite (same_pairs_iff trim), list_fmap_compose.
  - by rewrite (same_pairs_iff normalize_ws), list_fmap_compose.
  - rewrite <- (list_fmap_id (core_lines _)) at 2. rewrite <- (same_pairs_iff id).
    apply same_pairs_ext. intros fl k. by destruct (core_lines _ !! k).
Qed.

Lemma pairs_NoDup level content old_text : NoDup (pairs_of level content old_text).
Proof.
  destruct level; unfold pairs_of; try apply same_pairs_NoDup.
  - destruct (head (lines old_text)), (last (lines old_text)); try constructor. destruct (_ || _); [constructor|]. apply anchor_pairs_NoDup.
  - destruct (find_idx _ _); cbn [fmap option_fmap option_map]; [|constructor]. apply NoDup_fmap_2; [by intros ? ? [=]|].
    destruct (_ <? _)%nat; [constructor|]. apply NoDup_ListNoDup, List.NoDup_filter, seq_NoDup.
Qed.

Lemma fitting_eligible level content old_text p :
  p ∈ fitting (line_infos content) old_text (pairs_of level content old_text) ↔ eligible level content old_text p.
Proof.
  unfold fitting, eligible. rewrite list_elem_of_In, filter_In, <- list_elem_of_In, pairs_fit, Nat.leb_le. tauto.
Qed.

(** A block that is the only one a level looks for. *)
Definition the_only (level : Level) (content old_text : str) (p : nat * nat) : Prop :=
  eligible level content old_text p ∧ ∀ q, eligible level content old_text q → q = p.

Definition nothing_for (level : Level) (content old_text : str) : Prop := ∀ p, ¬ eligible level content old_text p.

Lemma level_outcome_spec level content old_text new_text :
  match run_level level content old_text new_text with
  | None => ∃ p, the_only level content old_text p ∧ built level content old_text new_text (fst p) = None
  | Some (Ok (LevelMatch c)) =>
      ∃ p, the_only level content old_text p ∧ built level content old_text new_text (fst p) = Some (Ok (LevelMatch c))
  | Some (Ok _) => nothing_for level content old_text
  | Some (Err _) => ∃ p q, p ≠ q ∧ eligible level content old_text p ∧ eligible level content old_text q
  end.
Proof.
  rewrite run_level_accepts.
  assert (Forall (in_file (line_infos content)) (pairs_of level content old_text)) as Hin.
  { apply Forall_forall. intros p Hp. by apply pairs_fit in Hp as [? _]. }
  pose proof (accept_spec level (cand_of content (line_infos content) <$> pairs_of level content old_text) old_text _
    (built_only level content old_text new_text)) as Ha.
  rewrite within_fitting in Ha by done. pose proof (fitting_eligible level content old_text) as He.
  assert (NoDup (fitting (line_infos content) old_text (pairs_of level content old_text))) as Hnd.
  { apply NoDup_ListNoDup, List.NoDup_filter, NoDup_ListNoDup, pairs_NoDup. }
  destruct (fitting _ _ _) as [|p [|q l]]; cbn [fmap list_fmap length] in Ha.
  - assert (nothing_for level content old_text) as Hn by (intros p Hp; apply He in Hp; by apply elem_of_nil in Hp).
    destruct (accept_unique_spans _ _ _ _) as [[[]|]|]; try done; try (by destruct Ha as (? & ? & _)). lia.
  - assert (the_only level content old_text p) as Ho.
    { split; [apply He; left|]. intros q Hq. by apply He, list_elem_of_singleton in Hq. }
    destruct (accept_unique_spans _ _ _ _) as [[[]|]|]; try done; [|cbn in Ha; lia|];
      destruct Ha as (i & [= <-] & Hb); by exists p.
  - assert (∃ p q, p ≠ q ∧ eligible level content old_text p ∧ eligible level content old_text q) as Hpq.
    { exists p, q. apply NoDup_cons in Hnd as [Hp _]. split_and!; [|apply He; by left|apply He; right; left].
      intros ->. apply Hp. left. }
    destruct (accept_unique_spans _ _ _ _) as [[[]|]|]; try done; by destruct Ha as (? & ? & _).
Qed.




(** ** The level of indentations *)




(** ** What the cascade does *)




(** The lines a level puts. *)
Definition put_lines (level : Level) (content new_text : str) (p : nat * nat) : option (list str) :=
  match level with
  | LineTrimmed => reindented (line_infos content) (fst p) (lines new_text)
  | _ => Some (lines new_text)
  end.

Lemma matched_spec content p new_lines :
  in_file (line_infos content) p →
  matched content (line_infos content) (fst p) (snd p) new_lines
  = (λ ls, Ok (LevelMatch (spliced content p ls))) <$> new_lines.
Proof.
  intros [Hp Hn]. unfold matched. destruct new_lines as [ls|]; [|done]. cbn [mbind option_bind].
  by rewrite splice_span_spec.
Qed.

Lemma fits_length level old_text texts :
  fits level old_text texts →
  match level with
  | BlockAnchor => True
  | TrimmedBoundary => length texts = length (core_lines (lines old_text))
  | _ => length texts = length (lines old_text)
  end.
Proof.
  destruct level; unfold fits; [|done|..].
  - intros He. apply (f_equal length) in He. by rewrite !length_fmap in He.
  - intros He. apply (f_equal length) in He. by rewrite !length_fmap in He.
  - intros (? & ? & ? & ? & _ & _ & _ & _ & Hall). by apply Forall2_length in Hall.
  - by intros ->.
Qed.

Lemma built_spec level content old_text new_text p :
  eligible level content old_text p → level ≠ BlockAnchor → level ≠ IndentationFlexible →
  built level content old_text new_text (fst p)
  = (λ ls, Ok (LevelMatch (spliced content p ls))) <$> put_lines level content new_text p.
Proof.
  intros (Hp & Hf & _) Ha Hi. rewrite <- matched_spec by done. apply fits_length in Hf.
  rewrite length_fmap, block_length in Hf by done. destruct Hp as [Hp _]. destruct level; try done; cbn [built put_lines]; f_equal; lia.
Qed.






Lemma reindented_None infos i new_lines :
  reindented infos i new_lines = None ↔ new_lines ≠ [] ∧ (length infos < i + length new_lines)%nat.
Proof.
  revert i. induction new_lines as [|l new_lines IH]; intros i; cbn [reindented]; [split; [done|by intros [? _]]|].
  cbn [length]. destruct (infos !! i) as [fl|] eqn:E; cbn [mbind option_bind].
  - apply lookup_lt_Some in E. specialize (IH (S i)). destruct (reindented infos (S i) new_lines) as [r|]; cbn [mbind option_bind].
    + split; [done|]. intros [_ Hl]. destruct new_lines as [|l' new_lines]; [cbn in Hl; lia|].
      assert (Some r = None) by (apply IH; split; [done|cbn in *; lia]). done.
    + split; [|done]. intros _. split; [done|]. destruct (proj1 IH eq_refl). lia.
  - apply lookup_ge_None in E. split; [|done]. intros _. split; [done|]. lia.
Qed.



(** ** Where it panics *)

(** Observed: a block that is found by its lines up to blanks at both ends panics when it
    is replaced by more lines than the file has from there on, for the new lines take
    their indentation from the lines that stood there. *)
Theorem longer_replacement_panics content old_text new_text p :
  trim old_text ≠ [] → the_only LineTrimmed content old_text p →
  (length (line_infos content) < fst p + length (lines new_text))%nat →
  cascade_replace content old_text new_text = None.
Proof.
  intros Ht Hp Hl. unfold cascade_replace. apply nonempty_true in Ht. rewrite Ht. cbn [negb try_levels all_levels].
  assert (built LineTrimmed content old_text new_text (fst p) = None) as Hb.
  { rewrite built_spec by (done || apply Hp). unfold put_lines. destruct Hp as [[[? ?] _] _].
    rewrite (proj2 (reindented_None _ _ _)); [done|]. split; [|done]. intros E. rewrite E in Hl. cbn in Hl. lia. }
  pose proof (level_outcome_spec LineTrimmed content old_text new_text) as Hr.
  destruct (run_level LineTrimmed content old_text new_text) as [[[c| |b lim]|msg]|]; [..|done].
  - destruct Hr as (q & [Hq _] & Hc). apply Hp in Hq as ->. congruence.
  - exfalso. by apply (Hr p), Hp.
  - exfalso. by apply (Hr p), Hp.
  - exfalso. destruct Hr as (q & q' & Hne & Hq & Hq'). apply Hne. by rewrite (proj2 Hp q Hq), (proj2 Hp q' Hq').
Qed.

(** Observed: a block that is found by its anchors is replaced only if it begins at the
    first line; otherwise the number of its first line is taken as its place in the list
    of candidates, and the edit panics. *)
Theorem anchored_block_panics content old_text new_text p :
  pairs_of BlockAnchor content old_text = [p] →
  (byte_len (full_text (block (line_infos content) p)) ≤ span_limit old_text)%nat →
  block_anchor content old_text new_text
  = if (fst p =? 0)%nat then Some (Ok (LevelMatch (spliced content p (lines new_text)))) else None.
Proof.
  intros Hp Hb. change (block_anchor content old_text new_text) with (run_level BlockAnchor content old_text new_text).
  rewrite run_level_accepts. unfold accept_unique_spans.
  assert (p ∈ pairs_of BlockAnchor content old_text) as Hin by (rewrite Hp; left). apply pairs_fit in Hin as [Hin _].
  rewrite within_fitting by (rewrite Hp; by apply Forall_singleton). unfold fitting. rewrite Hp. cbn [List.filter].
  apply Nat.leb_le in Hb. rewrite Hb. cbn [fmap list_fmap built]. rewrite Hp.
  destruct (fst p) as [|i] eqn:Ei; [|done]. change ([p] !! 0%nat) with (Some p). cbn [mbind option_bind].
  by rewrite matched_spec.
Qed.
End Levels.

(** ** Witnesses *)

Section Edits.
#[local] Existing Instance exact_float.

(** The last line of a file becomes two. *)
Lemma longer_replacement_panics_witness :
  cascade_replace (lit "  last" ++ [c_nl]) (lit "last ") (lit "one" ++ [c_nl] ++ lit "two") = None.
Proof.
  apply (longer_replacement_panics _ _ _ (0, 0)%nat).
  - vm_compute. discriminate.
  - split.
    + split_and!; [vm_compute; lia|vm_compute; reflexivity|vm_compute; lia].
    + intros [i j] [[H1 H2] _]. cbn [fst snd] in *. vm_compute in H2. f_equal; lia.
  - vm_compute. lia.
Defined.

Definition demo_file : str :=
  lit "head" ++ [c_nl] ++ lit "begin" ++ [c_nl] ++ lit "  some text" ++ [c_nl] ++ lit "end" ++ [c_nl].

Definition demo_old : str := lit "begin" ++ [c_nl] ++ lit "  some texts" ++ [c_nl] ++ lit "end".

Lemma anchored_block_panics_witness : block_anchor demo_file demo_old (lit "x") = None.
Proof.
  apply (anchored_block_panics demo_file demo_old (lit "x") (1, 3)%nat).
  - vm_compute. reflexivity.
  - vm_compute. lia.
Defined.
End Edits.
