(* ===== verification/EditHint.v ===== *)
(** * What an edit tells the model (nemesis-agent/src/loop_tools/edit_hint.rs and the
      distance of args_validator.rs)

    Hints when a text is not found, the lines of an ambiguous one, and the difference
    that a successful edit made. *)
From stdpp Require Import sorting strings.
From S2P Require Import Prelude RustStr Utils.
Local Open Scope nb_scope.

(** ** Edit distance *)

(** One row of the table: [x] is the character of the row, [left] its last cell, [prev]
    the rest of the row before, [b] the characters of the columns. *)
Fixpoint row_from (x : char) (left : nat) (prev : list nat) (b : str) : list nat :=
  match prev, b with
  | diag :: (up :: _) as prev, y :: b =>
      let cost := if N.eqb x y then 0%nat else 1%nat in
      let cell := min (min (up + 1) (left + 1)) (diag + cost) in
      cell :: row_from x cell prev b
  | _, _ => []
  end.

Definition next_row (x : char) (i : nat) (prev : list nat) (b : str) : list nat := i :: row_from x i prev b.

(** The rows from the [i]-th on. *)
Fixpoint rows (i : nat) (prev : list nat) (a b : str) : list nat :=
  match a with
  | [] => prev
  | x :: a => rows (S i) (next_row x i prev b) a b
  end.

Definition edit_distance (a b : str) : nat :=
  if (length a =? 0)%nat then length b
  else if (length b =? 0)%nat then length a
  else default 0%nat (rows 1 (seq 0 (S (length b))) a b !! length b).

(** ** Hints *)

Definition preview_line (line : str) (max_chars : nat) : str :=
  let t := trim_end line in
  if (length t <=? max_chars)%nat then t else take max_chars t ++ ulit "…".

(** [{:>5}]. *)
Definition pad5 (n : nat) : str := let s := show_nat n in replicate (5 - length s) c_space ++ s.

(** The lines from [start] to [stop] with their numbers. *)
Definition show_lines (ls : list str) (start stop : nat) : str :=
  mjoin (imap (λ i line, pad5 (start + i + 1) ++ lit " | " ++ preview_line line 200 ++ [c_nl])
           (take (stop - start) (drop start ls))).

Definition numbered_preview (content : str) : str :=
  let ls := lines content in
  let total := length ls in
  if (60 <? total)%nat then
    show_lines ls 0 30
    ++ lit "  ... (" ++ show_nat (total - 45) ++ lit " more lines) ..." ++ [c_nl]
    ++ show_lines ls (total - 15) total
  else show_lines ls 0 total.

Definition c_crlf : str := [c_cr; c_nl].

Definition normalize_line_endings_and_trailing (s : str) : str :=
  join [c_nl] (trim_end <$> split_on (N.eqb c_nl) (replace_str c_crlf [c_nl] s)).

(** A line that is near: the distance, its number, its text. *)
Definition Near : Type := nat * nat * str.

Definition near_le (a b : Near) : Prop :=
  (fst (fst a) < fst (fst b))%nat ∨ (fst (fst a) = fst (fst b) ∧ (snd (fst a) ≤ snd (fst b))%nat).

#[export] Instance near_le_dec a b : Decision (near_le a b).
Proof. unfold near_le. apply _. Defined.

Definition near_lines (content old_first : str) : list Near :=
  let max_dist := max 3 (length old_first / 3) in
  let cands := imap (λ i l, (edit_distance old_first (trim l), S i, trim l)) (lines content) in
  take 3 (merge_sort near_le
    (List.filter (λ c, nonempty (snd c) && (fst (fst c) <=? max_dist)%nat) cands)).

Definition show_near (c : Near) : str :=
  lit "  - line " ++ show_nat (snd (fst c)) ++ lit ": " ++ preview_line (snd c) 120
  ++ lit " (edit distance " ++ show_nat (fst (fst c)) ++ lit ")".

Definition crlf_hint (content old_text : str) : list str :=
  if contains_char c_nl old_text && contains (replace_str c_crlf [c_nl] old_text) (replace_str c_crlf [c_nl] content) then
    [lit "Hint: the file uses CRLF line endings and your old_text matches after normalizing line endings. Retry with a shorter fragment that stays on one line, or copy the text exactly including its line endings."]
  else [].

Definition trailing_hint (content old_text : str) : list str :=
  if contains (normalize_line_endings_and_trailing old_text) (normalize_line_endings_and_trailing content) then
    [ulit "Hint: your old_text matches only after trimming trailing whitespace. Some lines have trailing spaces — copy the text exactly as-is, or match a shorter unique fragment."]
  else [].

Definition near_hint (content old_text : str) : list str :=
  let old_first := trim (default [] (head (lines old_text))) in
  if nonempty old_first then
    match near_lines content old_first with
    | [] => []
    | cands => [lit "Closest matching lines in the file:" ++ [c_nl] ++ join [c_nl] (show_near <$> cands)]
    end
  else [].

Definition build_not_found_hint (content old_text : str) : str :=
  let hints := match crlf_hint content old_text with
               | [] => trailing_hint content old_text
               | hints => hints
               end ++ near_hint content old_text in
  (hints ≫= λ h, h ++ [c_nl])
  ++ [c_nl] ++ lit "File content preview (match exactly, including whitespace):" ++ [c_nl]
  ++ numbered_preview content.

(** ** Occurrences *)

(** [match_indices]: the places of the occurrences, left to right, without overlap. *)
Fixpoint match_indices_from (i skip : nat) (p s : str) : list nat :=
  match s with
  | [] => match skip, p with O, [] => [i] | _, _ => [] end
  | _ :: s' =>
      match skip with
      | S k => match_indices_from (S i) k p s'
      | O => if starts_with p s then i :: match_indices_from (S i) (length p - 1) p s'
             else match_indices_from (S i) 0 p s'
      end
  end.

Definition match_indices (p s : str) : list nat := match_indices_from 0 0 p s.

Definition line_of (content : str) (i : nat) : nat :=
  S (length (List.filter (N.eqb c_nl) (take i content))).

Definition match_line_numbers (content needle : str) : list nat := line_of content <$> match_indices needle content.

(** ** The difference *)

Fixpoint common_prefix (a b : list str) : nat :=
  match a, b with
  | x :: a, y :: b => if x =? y then S (common_prefix a b) else 0
  | _, _ => 0
  end.

Definition DIFF_MAX_BYTES : nat := 4096.
Definition DIFF_CONTEXT : nat := 3.

(** The lines before, deleted, added and after. *)
Definition hunk (old_lines new_lines : list str) : list str * list str * list str * list str :=
  let p := common_prefix old_lines new_lines in
  let s := common_prefix (rev (drop p old_lines)) (rev (drop p new_lines)) in
  let o := length old_lines in
  let n := length new_lines in
  (take p old_lines, take (o - s - p) (drop p old_lines), take (n - s - p) (drop p new_lines), drop (o - s) old_lines).

Definition marked (mark : char) (ls : list str) : str := ls ≫= λ l, mark :: l ++ [c_nl].

Definition unified_diff (path old new : str) : str :=
  let '(before, del, add, after) := hunk (lines old) (lines new) in
  match del, add with
  | [], [] => []
  | _, _ =>
      let head_ctx := min (length before) DIFF_CONTEXT in
      let tail_ctx := min (length after) DIFF_CONTEXT in
      let cs := (length before - head_ctx)%nat in
      let header := lit "--- a/" ++ path ++ [c_nl] ++ lit "+++ b/" ++ path ++ [c_nl] in
      let out :=
        header ++ lit "@@ -" ++ show_nat (cs + 1) ++ lit "," ++ show_nat (head_ctx + length del + tail_ctx)
        ++ lit " +" ++ show_nat (cs + 1) ++ lit "," ++ show_nat (head_ctx + length add + tail_ctx) ++ lit " @@" ++ [c_nl]
        ++ marked c_space (drop cs before) ++ marked c_dash del ++ marked (ch "+") add
        ++ marked c_space (take tail_ctx after) in
      if (DIFF_MAX_BYTES <? byte_len out)%nat then
        header ++ lit "+" ++ show_nat (length add) ++ lit " / -" ++ show_nat (length del)
        ++ lit " lines (diff truncated: " ++ show_nat (byte_len out) ++ lit " bytes > " ++ show_nat DIFF_MAX_BYTES
        ++ lit "; read the file for full content)"
      else out
  end.

(** ** The distance is Levenshtein's *)

(** By the definition: the fewest insertions, deletions and replacements. *)
Fixpoint lev (a : str) : str → nat :=
  match a with
  | [] => λ b, length b
  | x :: a' =>
      fix inner (b : str) : nat :=
        match b with
        | [] => S (length a')
        | y :: b' => min (min (S (lev a' b)) (S (inner b'))) (lev a' b' + if N.eqb x y then 0 else 1)
        end
  end%nat.

(** The table holds the distances of the beginnings: the row of [a], backwards. *)
Definition lev_row (a : str) (b : str) : list nat := (λ j, lev a (rev (take j b))) <$> seq 0 (S (length b)).

Lemma lev_cons x a y b :
  lev (x :: a) (y :: b) = min (min (S (lev a (y :: b))) (S (lev (x :: a) b))) (lev a b + if N.eqb x y then 0 else 1)%nat.
Proof. done. Qed.

Lemma lev_nil_r a : lev a [] = length a.
Proof. by destruct a. Qed.

Lemma row_from_cons x left diag up rest y b :
  let cell := min (min (S up) (S left)) (diag + if N.eqb x y then 0 else 1)%nat in
  row_from x left (diag :: up :: rest) (y :: b) = cell :: row_from x cell (up :: rest) b.
Proof. cbv zeta. cbn [row_from]. by rewrite !Nat.add_1_r. Qed.

Lemma row_from_spec x a b0 b :
  row_from x (lev (x :: a) (rev b0)) ((λ j, lev a (rev (take j (b0 ++ b)))) <$> seq (length b0) (S (length b))) b
  = (λ j, lev (x :: a) (rev (take j (b0 ++ b)))) <$> seq (S (length b0)) (length b).
Proof.
  revert b0. induction b as [|y b IH]; intros b0; [done|].
  assert (take (length b0) (b0 ++ y :: b) = b0) as Ht0 by apply take_app_length.
  assert (take (S (length b0)) (b0 ++ y :: b) = b0 ++ [y]) as Ht1.
  { change (b0 ++ y :: b) with (b0 ++ [y] ++ b). rewrite app_assoc. rewrite take_app_length'; [done|].
    rewrite length_app. cbn. lia. }
  cbn [length seq fmap list_fmap]. rewrite Ht0, Ht1, rev_app_distr. cbn [rev app].
  rewrite row_from_cons. cbv zeta. rewrite lev_cons. f_equal.
  specialize (IH (b0 ++ [y])). rewrite rev_app_distr in IH. cbn [rev app] in IH. rewrite lev_cons in IH.
  rewrite length_app, <- app_assoc in IH. cbn [length app seq fmap list_fmap] in IH. rewrite Nat.add_1_r in IH.
  rewrite Ht1, rev_app_distr in IH. exact IH.
Qed.

Lemma next_row_spec x a b : next_row x (S (length a)) (lev_row a b) b = lev_row (x :: a) b.
Proof. unfold next_row, lev_row. cbn [seq fmap list_fmap]. f_equal. apply (row_from_spec x a [] b). Qed.

Lemma rows_spec a done b : rows (S (length done)) (lev_row (rev done) b) a b = lev_row (rev (done ++ a)) b.
Proof.
  revert done. induction a as [|x a IH]; intros done; [by rewrite app_nil_r|]. cbn [rows].
  rewrite <- (length_rev done), next_row_spec. specialize (IH (done ++ [x])).
  rewrite length_app, rev_app_distr, <- app_assoc in IH. cbn [length rev app] in IH. rewrite Nat.add_1_r in IH.
  by rewrite length_rev.
Qed.

Lemma edit_distance_lev a b : edit_distance a b = lev (rev a) (rev b).
Proof.
  unfold edit_distance. destruct (Nat.eqb_spec (length a) 0) as [->%nil_length_inv|Ha]; [cbn; by rewrite length_rev|].
  destruct (Nat.eqb_spec (length b) 0) as [->%nil_length_inv|Hb]; [cbn [rev]; by rewrite lev_nil_r, length_rev|].
  assert (seq 0 (S (length b)) = lev_row [] b) as ->.
  { unfold lev_row. cbn [lev]. apply list_eq. intros j. rewrite list_lookup_fmap.
    destruct (decide (j < S (length b))%nat) as [Hj|Hj].
    - rewrite lookup_seq_lt by done. cbn. rewrite length_rev, length_take. f_equal. lia.
    - by rewrite !lookup_ge_None_2 by (rewrite length_seq; lia). }
  pose proof (rows_spec a [] b) as Hrows. cbn [length rev app] in Hrows. rewrite Hrows. unfold lev_row. rewrite list_lookup_fmap, lookup_seq_lt by lia. cbn [fmap option_fmap option_map default].
  unfold id. by rewrite Nat.add_0_l, firstn_all.
Qed.

(** A script turns a text into another with so many edits. *)
Inductive Script : str → str → nat → Prop :=
| script_nil : Script [] [] 0
| script_keep c a b n : Script a b n → Script (c :: a) (c :: b) n
| script_replace c d a b n : Script a b n → Script (c :: a) (d :: b) (S n)
| script_insert d a b n : Script a b n → Script a (d :: b) (S n)
| script_delete c a b n : Script a b n → Script (c :: a) b (S n).

#[local] Hint Constructors Script : core.

Lemma script_app a b n a' b' m : Script a b n → Script a' b' m → Script (a ++ a') (b ++ b') (n + m).
Proof. induction 1; intros Hs; cbn; auto. Qed.

Lemma script_rev a b n : Script a b n → Script (rev a) (rev b) n.
Proof.
  induction 1 as [|c a b n _ IH|c d a b n _ IH|d a b n _ IH|c a b n _ IH]; cbn [rev]; [done|..].
  - rewrite <- (Nat.add_0_r n). apply script_app; auto.
  - rewrite <- Nat.add_1_r. apply script_app; auto.
  - rewrite <- Nat.add_1_r, <- (app_nil_r (rev a)). apply script_app; auto.
  - rewrite <- Nat.add_1_r, <- (app_nil_r (rev b)). apply script_app; auto.
Qed.

Lemma script_lev a b : Script a b (lev a b).
Proof.
  revert b. induction a as [|x a IHa]; intros b.
  { cbn [lev]. induction b; cbn [length]; auto. }
  induction b as [|y b IHb]; [cbn; apply script_delete; rewrite <- (lev_nil_r a); apply IHa|].
  rewrite lev_cons. destruct (Nat.min_spec (min (S (lev a (y :: b))) (S (lev (x :: a) b))) (lev a b + if N.eqb x y then 0 else 1)) as [[_ ->]|[_ ->]].
  - destruct (Nat.min_spec (S (lev a (y :: b))) (S (lev (x :: a) b))) as [[_ ->]|[_ ->]]; auto.
  - destruct (N.eqb_spec x y) as [->|]; [rewrite Nat.add_0_r|rewrite Nat.add_1_r]; auto.
Qed.

Lemma lev_step x a b : (lev (x :: a) b ≤ S (lev a b))%nat.
Proof. destruct b as [|y b]; [cbn; by rewrite lev_nil_r|]. rewrite lev_cons. lia. Qed.

Lemma lev_insert y a b : (lev a (y :: b) ≤ S (lev a b))%nat.
Proof. destruct a as [|x a]; [cbn; lia|]. rewrite lev_cons. lia. Qed.

Lemma lev_least a b n : Script a b n → (lev a b ≤ n)%nat.
Proof.
  induction 1 as [|c a b n _ IH|c d a b n _ IH|d a b n _ IH|c a b n _ IH]; [done|..].
  - rewrite lev_cons, N.eqb_refl. lia.
  - rewrite lev_cons. destruct (N.eqb c d); lia.
  - pose proof (lev_insert d a b). lia.
  - pose proof (lev_step c a b). lia.
Qed.

(** Also: the distance by which near lines are found is the least number of characters to
    insert, delete and replace that makes one text of the other. *)
Theorem edit_distance_least a b :
  Script a b (edit_distance a b) ∧ ∀ n, Script a b n → (edit_distance a b ≤ n)%nat.
Proof.
  rewrite edit_distance_lev. split.
  - rewrite <- (rev_involutive a), <- (rev_involutive b) at 1. apply script_rev, script_lev.
  - intros n Hs. by apply lev_least, script_rev.
Qed.

(** ** The difference is one *)

Lemma common_prefix_spec a b :
  take (common_prefix a b) a = take (common_prefix a b) b ∧
  (common_prefix a b ≤ length a)%nat ∧ (common_prefix a b ≤ length b)%nat ∧
  ∀ x y, a !! common_prefix a b = Some x → b !! common_prefix a b = Some y → x ≠ y.
Proof.
  revert b. induction a as [|x a IH]; intros [|y b]; cbn [common_prefix]; try (split_and!; [done|cbn; lia..|done]).
  destruct (bool_decide_reflect (x = y)) as [->|Hne].
  - destruct (IH b) as (Ht & H1 & H2 & Hn). cbn [take length]. rewrite Ht. split_and!; [done|lia|lia|]. exact Hn.
  - split_and!; [done|cbn; lia..|]. by intros ? ? [= <-] [= <-].
Qed.

Lemma rev_take {A} (l : list A) s : (s ≤ length l)%nat → rev (take s (rev l)) = drop (length l - s) l.
Proof.
  intros Hs. pose proof (skipn_rev (length l - s) (rev l)) as H. rewrite rev_involutive, length_rev in H.
  rewrite H. by replace (length l - (length l - s))%nat with s by lia.
Qed.

Lemma hunk_spec old new :
  let '(before, del, add, after) := hunk old new in
  old = before ++ del ++ after ∧ new = before ++ add ++ after ∧
  ∀ x y, head del = Some x → head add = Some y → x ≠ y.
Proof.
  unfold hunk. cbv zeta. destruct (common_prefix_spec old new) as (Ht & Hlo & Hln & Hne). set (p := common_prefix old new) in *.
  destruct (common_prefix_spec (rev (drop p old)) (rev (drop p new))) as (Hs & Hs1 & Hs2 & _).
  set (s := common_prefix (rev (drop p old)) (rev (drop p new))) in *. rewrite !length_rev in Hs1, Hs2.
  rewrite !length_drop in Hs1, Hs2. apply (f_equal (@rev str)) in Hs. rewrite !rev_take, !length_drop, !drop_drop in Hs by (rewrite length_drop; lia).
  replace (p + (length old - p - s))%nat with (length old - s)%nat in Hs by lia.
  replace (p + (length new - p - s))%nat with (length new - s)%nat in Hs by lia.
  assert (∀ l : list str, (p ≤ length l)%nat → (s ≤ length l - p)%nat →
    l = take p l ++ take (length l - s - p) (drop p l) ++ drop (length l - s) l) as Hsplit.
  { intros l Hp Hl. rewrite <- (take_drop p l) at 1. f_equal. rewrite <- (take_drop (length l - s - p) (drop p l)) at 1.
    f_equal. rewrite drop_drop. f_equal. lia. }
  split_and!; [by apply Hsplit|rewrite Ht, Hs; by apply Hsplit|].
  intros x y Hx Hy. apply Hne; [clear Hy|clear Hx].
  - rewrite head_lookup in Hx. apply lookup_take_Some in Hx as [Hx _]. rewrite lookup_drop, Nat.add_0_r in Hx. done.
  - rewrite head_lookup in Hy. apply lookup_take_Some in Hy as [Hy _]. rewrite lookup_drop, Nat.add_0_r in Hy. done.
Qed.

Lemma unified_diff_nil path old new : unified_diff path old new = [] ↔ lines old = lines new.
Proof.
  unfold unified_diff. pose proof (hunk_spec (lines old) (lines new)) as Hh.
  destruct (hunk (lines old) (lines new)) as [[[before del] add] after]. destruct Hh as (Ho & Hn & Hd).
  split.
  - destruct del as [|x del], add as [|y add]; [intros _; by rewrite Ho, Hn|..];
      (cbv zeta; destruct (_ <? _)%nat; intros [=]).
  - intros He. rewrite Ho, Hn in He. apply app_inv_head in He. apply app_inv_tail in He. subst add.
    destruct del as [|x del]; [done|]. by destruct (Hd x x).
Qed.

(** Also: the hunk that is shown is a difference: the lines before and after it are the
    same, those deleted and added begin with different ones, and nothing is shown only
    if all lines are the same. *)
Theorem diff_exact path old new :
  (let '(before, del, add, after) := hunk (lines old) (lines new) in
   lines old = before ++ del ++ after ∧ lines new = before ++ add ++ after ∧
   ∀ x y, head del = Some x → head add = Some y → x ≠ y) ∧
  (unified_diff path old new = [] ↔ lines old = lines new).
Proof. split; [apply hunk_spec|apply unified_diff_nil]. Qed.

(** Observed: an edit that changes only the end of a line shows no difference. *)
Theorem line_ends_not_shown path a b :
  c_nl ∉ a → last a ≠ Some c_cr → unified_diff path (a ++ c_crlf ++ b) (a ++ [c_nl] ++ b) = [].
Proof. intros Hn Hr. apply unified_diff_nil. cbn [app c_crlf]. by rewrite lines_cons_crlf, lines_cons. Qed.
