(* ===== verification/ArgsValidator.v ===== *)
(** * The arguments of a tool call (nemesis-agent/src/args_validator.rs)

    The check of a call's arguments against the schema of the tool: what is reported,
    which misspelt names are mended, and what the loop goes on with. *)
From Stdlib Require Import Sorted.
From stdpp Require Import sorting strings.
From S2P Require Import Prelude RustStr Json EditHint.
Local Open Scope nb_scope.

(** Equality and kind of numbers, and the text of a reader's error. *)
Class JsonChecks `{JsonNumbers} := {
  num_eqb : num → num → bool;
  num_is_integer : num → bool;
  json_error : str → str;
}.

(** Outcome of a check; the schema violations. *)
Inductive Outcome :=
| Valid
| Fixed (args : str)
| Invalid (message : str) (class : string).

Inductive Violation :=
| UnknownField (field : str) (suggestion : option str)
| MissingRequired (field : str)
| WrongType (field expected got : str)
| NotInEnum (field : str) (allowed : list str).

Definition violation_message (v : Violation) : str :=
  match v with
  | UnknownField field (Some s) => lit "unknown field '" ++ field ++ lit "' (did you mean '" ++ s ++ lit "'?)"
  | UnknownField field None => lit "unknown field '" ++ field ++ lit "'"
  | MissingRequired field => lit "missing required field '" ++ field ++ lit "'"
  | WrongType field expected got =>
      lit "field '" ++ field ++ lit "' should be " ++ expected ++ lit ", got " ++ got
  | NotInEnum field allowed =>
      lit "field '" ++ field ++ lit "' must be one of: " ++ join (lit " | ") allowed
  end.

Definition is_unknown_field (v : Violation) : bool :=
  match v with UnknownField _ _ => true | _ => false end.

Section Validator.
Context {UC : Unicode} `{JsonNumbers} `{!JsonChecks} `{!JsonCodec}.

(** ** Values *)

(** [Value == Value]. *)
Fixpoint value_eqb (a b : Value) : bool :=
  match a, b with
  | VNull, VNull => true
  | VBool x, VBool y => Bool.eqb x y
  | VNumber x, VNumber y => num_eqb x y
  | VString x, VString y => x =? y
  | VArray x, VArray y =>
      (fix go x y := match x, y with
                     | [], [] => true
                     | a :: x, b :: y => value_eqb a b && go x y
                     | _, _ => false
                     end) x y
  | VObject x, VObject y =>
      (fix go x y := match x, y with
                     | [], [] => true
                     | (k, a) :: x, (k', b) :: y => (k =? k') && value_eqb a b && go x y
                     | _, _ => false
                     end) x y
  | _, _ => false
  end.

Definition type_name (v : Value) : string :=
  match v with
  | VNull => "null"
  | VBool _ => "boolean"
  | VNumber _ => "number"
  | VString _ => "string"
  | VArray _ => "array"
  | VObject _ => "object"
  end%string.

Definition type_matches (expected : str) (v : Value) : bool :=
  if expected =? lit "string" then match v with VString _ => true | _ => false end
  else if expected =? lit "integer" then match v with VNumber n => num_is_integer n | _ => false end
  else if expected =? lit "number" then match v with VNumber _ => true | _ => false end
  else if expected =? lit "boolean" then match v with VBool _ => true | _ => false end
  else if expected =? lit "array" then match v with VArray _ => true | _ => false end
  else if expected =? lit "object" then match v with VObject _ => true | _ => false end
  else if expected =? lit "null" then match v with VNull => true | _ => false end
  else true.

(** ** The schema *)

Definition properties (schema : Value) : option (list (str * Value)) := json_get (lit "properties") schema ≫= as_object.

(** The properties that are enforced: none when none are declared. *)
Definition declared_props (schema : Value) : option (list (str * Value)) :=
  match properties schema with
  | Some ((_ :: _) as p) => Some p
  | _ => None
  end.

Definition required_fields (schema : Value) : list str :=
  match json_get (lit "required") schema ≫= as_array with
  | Some arr => omap as_str arr
  | None => []
  end.

Definition nearest_step (lower : str) (max_dist : nat) (best : option (str * nat)) (n : str) : option (str * nat) :=
  let d := edit_distance (to_lowercase n) lower in
  if (d <=? max_dist)%nat && match best with None => true | Some (_, bd) => (d <? bd)%nat end then Some (n, d) else best.

Definition nearest_field (names : list str) (field : str) (max_dist : nat) : option str :=
  fst <$> foldl (nearest_step (to_lowercase field) max_dist) None names.

Definition check_declared (key : str) (prop_schema val : Value) : list Violation :=
  match json_get (lit "type") prop_schema ≫= as_str with
  | Some exp => if type_matches exp val then [] else [WrongType key exp (lit (type_name val))]
  | None => []
  end ++
  match json_get (lit "enum") prop_schema ≫= as_array with
  | Some allowed => if existsb (λ a, value_eqb a val) allowed then [] else [NotInEnum key (omap as_str allowed)]
  | None => []
  end.

Definition check_member (props : list (str * Value)) (m : str * Value) : list Violation :=
  match member (fst m) props with
  | None => match nearest_field props.*1 (fst m) 2 with
            | Some s => [UnknownField (fst m) (Some s)]
            | None => []
            end
  | Some prop_schema => check_declared (fst m) prop_schema (snd m)
  end.

Definition check_required (args : list (str * Value)) (req : str) : list Violation :=
  match member req args with
  | Some _ => []
  | None => [MissingRequired req]
  end.

Definition validate (schema args : Value) : list Violation :=
  match declared_props schema with
  | None => []
  | Some props =>
      match as_object args with
      | None =>
          if bool_decide (json_get (lit "type") schema ≫= as_str = Some (lit "object"))
          then [WrongType (lit "<root>") (lit "object") (lit (type_name args))] else []
      | Some o => (o ≫= check_member props) ++ (required_fields schema ≫= check_required o)
      end
  end.

(** ** Mending names *)

Definition dist_le (a b : str * nat) : Prop := (snd a ≤ snd b)%nat.

#[export] Instance dist_le_dec a b : Decision (dist_le a b).
Proof. unfold dist_le. apply _. Defined.

#[export] Instance dist_le_trans : Transitive dist_le.
Proof. intros a b c. unfold dist_le. lia. Qed.

#[export] Instance dist_le_total : Total dist_le.
Proof. intros a b. unfold dist_le. lia. Qed.

Definition candidates (props : list (str * Value)) (key : str) : list (str * nat) :=
  merge_sort dist_le
    (List.filter (λ c, (snd c <=? 2)%nat) ((λ p, (p, edit_distance p key)) <$> props.*1)).

(** The one property that a name is meant to be. *)
Definition target_of (props : list (str * Value)) (key : str) : option str :=
  match candidates props key with
  | [] => None
  | ((target, min_d) :: _) as cs =>
      if (1 <? length (List.filter (λ c, snd c =? min_d)%nat cs))%nat then None else Some target
  end.

(** The renamings so far, their targets in [used]. *)
Fixpoint renames_from (props args : list (str * Value)) (rename : list (str * str)) : option (list (str * str)) :=
  match args with
  | [] => Some rename
  | (key, _) :: args =>
      match member key props with
      | Some _ => renames_from props args rename
      | None =>
          target ← target_of props key;
          if bool_decide (target ∈ rename.*2) then None else renames_from props args (rename ++ [(key, target)])
      end
  end.

Definition renamed (rename : list (str * str)) (key : str) : str :=
  match List.find (λ r, fst r =? key) rename with
  | Some r => snd r
  | None => key
  end.

Definition rebuild (rename : list (str * str)) (args : list (str * Value)) : list (str * Value) :=
  foldl (λ fixed m, insert_member (renamed rename (fst m)) (snd m) fixed) [] args.

Definition try_autofix (schema args : Value) : option Value :=
  props ← properties schema;
  o ← as_object args;
  rename ← renames_from props o [];
  match rename with
  | [] => None
  | _ => Some (VObject (rebuild rename o))
  end.

(** ** The check *)

Definition format_violations (schema : Value) (vs : list Violation) : str :=
  let parts := merge_sort str_le (violation_message <$> vs) in
  lit "Tool argument validation failed: " ++ join (lit "; ") parts ++ lit ". "
  ++ (if existsb is_unknown_field vs then
        match properties schema with
        | Some ((_ :: _) as props) => lit "Accepted fields: " ++ join (lit ", ") props.*1 ++ lit "."
        | _ => []
        end
      else []).

Definition check (schema : Value) (args_json : str) : Outcome :=
  match json_from_str args_json with
  | None =>
      Invalid (lit "Arguments are not valid JSON (" ++ json_error args_json
               ++ lit "). Please resend valid JSON arguments.") "A"
  | Some args =>
      match validate schema args with
      | [] => Valid
      | violations =>
          match try_autofix schema args with
          | Some fixed => match validate schema fixed with
                          | [] => Fixed (json_to_string fixed)
                          | _ => Invalid (format_violations schema violations) "B"
                          end
          | None => Invalid (format_violations schema violations) "B"
          end
      end
  end.

(** ** What conforming means *)

Definition declared_ok (prop_schema val : Value) : Prop :=
  (∀ exp, json_get (lit "type") prop_schema ≫= as_str = Some exp → type_matches exp val = true) ∧
  ∀ allowed, json_get (lit "enum") prop_schema ≫= as_array = Some allowed →
    ∃ a, a ∈ allowed ∧ value_eqb a val = true.

(** No declared name is within two edits, capitals aside. *)
Definition far_from_all (props : list (str * Value)) (key : str) : Prop :=
  ∀ p, p ∈ props.*1 → (2 < edit_distance (to_lowercase p) (to_lowercase key))%nat.

Definition Conforms (schema args : Value) : Prop :=
  match declared_props schema, as_object args with
  | None, _ => True
  | Some _, None => json_get (lit "type") schema ≫= as_str ≠ Some (lit "object")
  | Some props, Some o =>
      (∀ k v, (k, v) ∈ o → match member k props with
                           | Some prop_schema => declared_ok prop_schema v
                           | None => far_from_all props k
                           end) ∧
      ∀ r, r ∈ required_fields schema → is_Some (member r o)
  end.

Lemma and_iff (A A' B B' : Prop) : (A ↔ A') → (B ↔ B') → A ∧ B ↔ A' ∧ B'.
Proof. tauto. Qed.

Lemma check_declared_nil key p v : check_declared key p v = [] ↔ declared_ok p v.
Proof.
  unfold check_declared, declared_ok. rewrite app_nil. apply and_iff.
  - destruct (json_get _ p ≫= as_str) as [exp|]; [|done]. destruct (type_matches exp v) eqn:E.
    + split; [by intros _ ? [= <-]|done].
    + split; [done|]. intros Ht. by rewrite (Ht exp eq_refl) in E.
  - destruct (json_get _ p ≫= as_array) as [allowed|]; [|done]. destruct (existsb _ allowed) eqn:E.
    + split; [|done]. intros _ ? [= <-]. apply existsb_exists in E as (a & Ha & Hv). exists a.
      by rewrite list_elem_of_In.
    + split; [done|]. intros Hex. destruct (Hex allowed eq_refl) as (a & Ha & Hv). exfalso.
      rewrite <- not_true_iff_false in E. apply E, existsb_exists. exists a. by rewrite <- list_elem_of_In.
Qed.

Lemma nearest_fold lower d names best :
  foldl (nearest_step lower d) best names = None ↔
  best = None ∧ ∀ p, p ∈ names → (d < edit_distance (to_lowercase p) lower)%nat.
Proof.
  revert best. induction names as [|n names IH]; intros best; cbn [foldl].
  - split; [intros ->; split; [done|by intros ? ?%elem_of_nil]|by intros [? _]].
  - rewrite IH. unfold nearest_step. cbv zeta. destruct (Nat.leb_spec (edit_distance (to_lowercase n) lower) d) as [Hd|Hd]; cbn [andb].
    + split; [|intros [-> Hf]; specialize (Hf n ltac:(constructor)); lia].
      intros [Hs _]. destruct best as [[b bd]|]; [|done]. by destruct (_ <? bd)%nat.
    + split; intros [-> Hf]; (split; [done|]); intros p Hp; [|apply Hf; by constructor].
      apply elem_of_cons in Hp as [->|Hp]; [done|by apply Hf].
Qed.

Lemma check_member_nil props k v :
  check_member props (k, v) = [] ↔
  match member k props with Some p => declared_ok p v | None => far_from_all props k end.
Proof.
  unfold check_member. cbn [fst snd]. destruct (member k props) as [p|]; [apply check_declared_nil|].
  unfold nearest_field, far_from_all. pose proof (nearest_fold (to_lowercase k) 2 props.*1 None) as Hn.
  destruct (foldl _ None props.*1) as [[s d]|]; cbn [fmap option_fmap option_map fst]; split; try done; intros Hx.
  - exfalso. destruct Hn as [_ Hn]. discriminate (Hn (conj eq_refl Hx)).
  - by apply Hn.
Qed.

Lemma bind_nil {A B} (f : A → list B) l : l ≫= f = [] ↔ ∀ x, x ∈ l → f x = [].
Proof.
  induction l as [|x l IH]; cbn [mbind list_bind]; [split; [by intros _ ? ?%elem_of_nil|done]|]. rewrite app_nil, IH. split.
  - intros [Hx Hl] y [->|Hy]%elem_of_cons; [done|by apply Hl].
  - intros Hf. split; [apply Hf; by constructor|intros y Hy; apply Hf; by constructor].
Qed.

Lemma validate_nil schema args : validate schema args = [] ↔ Conforms schema args.
Proof.
  unfold validate, Conforms. destruct (declared_props schema) as [props|]; [|done].
  destruct (as_object args) as [o|].
  - rewrite app_nil, !bind_nil. apply and_iff.
    + split; [intros Hm k v Hin|intros Hm [k v] Hin]; apply check_member_nil; [by apply Hm|by apply Hm].
    + unfold check_required. split; intros Hr r Hin; specialize (Hr r Hin); destruct (member r o); done.
  - case_bool_decide; split; done.
Qed.

(** ** What mending is *)

(** The one declared name that a name is meant to be: at most two edits away, and all the
    others farther. *)
Definition nearest (props : list (str * Value)) (key t : str) : Prop :=
  (edit_distance t key ≤ 2)%nat ∧
  ∃ l1 l2, props.*1 = l1 ++ t :: l2 ∧ (∀ p, p ∈ l1 ++ l2 → (edit_distance t key < edit_distance p key)%nat).

(** The names of the arguments that are not declared. *)
Definition undeclared (props o : list (str * Value)) : list str :=
  List.filter (λ k, negb (bool_decide (is_Some (member k props)))) o.*1.

(** A renaming mends: it gives every undeclared name, of which there are some, the one
    declared name it is meant to be, and no two of them the same. *)
Definition Mending (props o : list (str * Value)) (rename : list (str * str)) : Prop :=
  undeclared props o ≠ [] ∧ rename.*1 = undeclared props o ∧
  Forall (λ r, nearest props (fst r) (snd r)) rename ∧ NoDup rename.*2.

(** What a name becomes. *)
Definition becomes (rename : list (str * str)) (k k' : str) : Prop :=
  (k, k') ∈ rename ∨ ((k ∉ rename.*1) ∧ k' = k).

(** The mended arguments: under every name the value of the last member that gets it. *)
Definition mends (props o o' : list (str * Value)) : Prop :=
  ∃ rename, Mending props o rename ∧ sorted_members o' ∧
    ∀ k' v, member k' o' = Some v ↔
      ∃ o1 k o2, o = o1 ++ (k, v) :: o2 ∧ becomes rename k k' ∧ ∀ k2, k2 ∈ o2.*1 → ¬ becomes rename k2 k'.

(** ** The code mends so *)

Lemma filter_map {A B} (f : B → bool) (g : A → B) l : List.filter f (g <$> l) = g <$> List.filter (f ∘ g) l.
Proof. induction l as [|x l IH]; [done|]. cbn. destruct (f (g x)); cbn; by rewrite IH. Qed.

Lemma filter_none {A} (f : A → bool) l : (∀ x, x ∈ l → f x = false) → List.filter f l = [].
Proof.
  induction l as [|x l IH]; intros Hf; [done|]. cbn. rewrite (Hf x) by by left. apply IH. intros y Hy. apply Hf. by right.
Qed.

Lemma filter_one {A} (f : A → bool) l x : List.filter f l = [x] ↔
  ∃ l1 l2, l = l1 ++ x :: l2 ∧ f x = true ∧ ∀ y, y ∈ l1 ++ l2 → f y = false.
Proof.
  split.
  - induction l as [|y l IH]; [done|]. cbn. destruct (f y) eqn:E.
    + intros [= -> Hl]. exists [], l. split_and!; [done..|]. intros z Hz. destruct (f z) eqn:Ez; [|done].
      assert (z ∈ List.filter f l) as Hin by (by apply list_elem_of_In, filter_In; rewrite <- list_elem_of_In).
      rewrite Hl in Hin. by apply elem_of_nil in Hin.
    + intros (l1 & l2 & -> & Hx & Hf)%IH. exists (y :: l1), l2. split_and!; [done..|]. cbn. by intros z [->|Hz]%elem_of_cons; [|apply Hf].
  - intros (l1 & l2 & -> & Hx & Hf). rewrite List.filter_app. cbn. rewrite Hx.
    rewrite !filter_none; [done|..]; intros y Hy; apply Hf, elem_of_app; auto.
Qed.

Lemma candidates_spec props key c : c ∈ candidates props key ↔
  (snd c ≤ 2)%nat ∧ fst c ∈ props.*1 ∧ snd c = edit_distance (fst c) key.
Proof.
  unfold candidates. rewrite merge_sort_Permutation, list_elem_of_In, filter_In, <- list_elem_of_In, Nat.leb_le.
  rewrite list_elem_of_fmap. split.
  - by intros [(p & -> & Hp) Hd].
  - destruct c as [p d]. cbn. intros (Hd & Hp & ->). split; [by exists p|done].
Qed.

(** How many candidates are at a distance. *)
Lemma candidates_at props key d : (d ≤ 2)%nat →
  length (List.filter (λ c, snd c =? d)%nat (candidates props key))
  = length (List.filter (λ p, edit_distance p key =? d)%nat props.*1).
Proof.
  intros Hd. unfold candidates. set (l := List.filter _ (_ <$> props.*1)).
  assert (∀ f : str * nat → bool, ∀ l1 l2, l1 ≡ₚ l2 → length (List.filter f l1) = length (List.filter f l2)) as Hperm.
  { intros f l1 l2. induction 1 as [|x l1 l2 _ IH|x y l1|]; cbn; [done| | |congruence].
    - destruct (f x); cbn; by rewrite IH.
    - destruct (f x), (f y); done. }
  rewrite (Hperm _ _ l) by apply merge_sort_Permutation. subst l. clear Hperm. induction props.*1 as [|p ps IH]; [done|].
  rewrite fmap_cons. cbn [List.filter snd].
  destruct (Nat.leb_spec (edit_distance p key) 2); cbn [List.filter snd].
  - destruct (edit_distance p key =? d)%nat; cbn [length]; by rewrite IH.
  - destruct (Nat.eqb_spec (edit_distance p key) d); [lia|apply IH].
Qed.

Lemma candidates_head props key t d cs : candidates props key = (t, d) :: cs →
  t ∈ props.*1 ∧ d = edit_distance t key ∧ (d ≤ 2)%nat ∧ ∀ p, p ∈ props.*1 → (d ≤ edit_distance p key)%nat.
Proof.
  intros E. assert ((t, d) ∈ candidates props key) as Ht by (rewrite E; by left).
  apply candidates_spec in Ht as (Hd & Hin & He). cbn [fst snd] in *. split_and!; [done..|]. intros p Hp.
  destruct (decide (edit_distance p key ≤ 2)%nat) as [Hc|]; [|lia].
  assert ((p, edit_distance p key) ∈ candidates props key) as Hpc by (by apply candidates_spec).
  assert (StronglySorted dist_le (candidates props key)) as Hs by apply (StronglySorted_merge_sort _).
  rewrite E in Hs, Hpc. apply StronglySorted_inv in Hs as [_ Hall]. rewrite Forall_forall in Hall.
  apply elem_of_cons in Hpc as [[= -> ->]|Hpc]; [done|]. by specialize (Hall _ Hpc).
Qed.

Lemma target_of_spec props key t : target_of props key = Some t ↔ nearest props key t.
Proof.
  unfold target_of, nearest. destruct (candidates props key) as [|[t' d] cs] eqn:E.
  { split; [done|]. intros (Hd & l1 & l2 & Hp & _). exfalso.
    assert ((t, edit_distance t key) ∈ candidates props key) as Hin.
    { apply candidates_spec. split_and!; [done| |done]. cbn. rewrite Hp. apply elem_of_app. right. by left. }
    rewrite E in Hin. by apply elem_of_nil in Hin. }
  destruct (candidates_head _ _ _ _ _ E) as (Hin & -> & Hd & Hmin). rewrite <- E, candidates_at by done.
  set (f := λ p, (edit_distance p key =? edit_distance t' key)%nat).
  assert (t' ∈ List.filter f props.*1) as Hf.
  { apply list_elem_of_In, filter_In. rewrite <- list_elem_of_In. split; [done|]. apply Nat.eqb_refl. }
  destruct (Nat.ltb_spec 1 (length (List.filter f props.*1))) as [Hl|Hl]; (split; [|intros (_ & l1 & l2 & Hp & Hlt)]).
  - done.
  - exfalso. assert (List.filter f props.*1 = [t]) as Ho; [|by rewrite Ho in Hl; cbn in Hl; lia].
    assert (t = t') as ->.
    { rewrite Hp in Hin. apply elem_of_app in Hin. rewrite elem_of_cons in Hin. assert (t' = t ∨ t' ∈ l1 ++ l2) as [|Hin'] by (rewrite elem_of_app; tauto); [done|].
      specialize (Hlt _ Hin'). assert (t ∈ props.*1) as Ht by (rewrite Hp; apply elem_of_app; right; by left). specialize (Hmin _ Ht). lia. }
    apply filter_one. exists l1, l2. split_and!; [done|apply Nat.eqb_refl|]. intros y Hy. specialize (Hlt _ Hy). apply Nat.eqb_neq. lia.
  - intros [= ->]. split; [done|]. assert (List.filter f props.*1 = [t]) as (l1 & l2 & Hp & _ & Hn)%filter_one.
    { destruct (List.filter f props.*1) as [|x [|y r]]; [by apply elem_of_nil in Hf|by apply list_elem_of_singleton in Hf as ->|cbn in Hl; lia]. }
    exists l1, l2. split; [done|]. intros p Hpin. specialize (Hn _ Hpin). apply Nat.eqb_neq in Hn.
    assert (p ∈ props.*1) as Hp' by (rewrite Hp; apply elem_of_app; rewrite elem_of_cons; apply elem_of_app in Hpin; tauto).
    specialize (Hmin _ Hp'). lia.
  - f_equal. rewrite Hp in Hin. apply elem_of_app in Hin. rewrite elem_of_cons in Hin.
    assert (t' = t ∨ t' ∈ l1 ++ l2) as [|Hin'] by (rewrite elem_of_app; tauto); [done|].
    specialize (Hlt _ Hin'). assert (t ∈ props.*1) as Ht by (rewrite Hp; apply elem_of_app; right; by left). specialize (Hmin _ Ht). lia.
Qed.

Lemma renames_spec props args rename rename' : NoDup rename.*2 →
  renames_from props args rename = Some rename' ↔
  ∃ new, rename' = rename ++ new ∧ new.*1 = undeclared props args ∧
    Forall (λ r, nearest props (fst r) (snd r)) new ∧ NoDup (rename ++ new).*2.
Proof.
  revert rename. induction args as [|[key v] args IH]; intros rename Hnd; cbn [renames_from].
  { split.
    - intros [= <-]. exists []. by rewrite app_nil_r.
    - intros (new & -> & Hnew & _). apply fmap_nil_inv in Hnew as ->. by rewrite app_nil_r. }
  unfold undeclared. rewrite fmap_cons. cbn [List.filter fst].
  destruct (member key props) as [x|] eqn:Em.
  { rewrite bool_decide_true by by exists x. by apply IH. }
  rewrite bool_decide_false by by intros [? ?]. cbn [negb].
  destruct (target_of props key) as [t|] eqn:Et; cbn [mbind option_bind].
  2: { split; [done|]. intros ([|[k t] new] & -> & [= -> _] & [Hn _]%Forall_cons & _). apply target_of_spec in Hn. cbn [fst snd] in Hn. by rewrite Et in Hn. }
  case_bool_decide as Hin.
  - split; [done|]. intros ([|[k t'] new] & -> & [= -> _] & [Hn _]%Forall_cons & Hd). apply target_of_spec in Hn. cbn [fst snd] in Hn.
    rewrite Et in Hn. injection Hn as ->. rewrite fmap_app in Hd. apply NoDup_app in Hd as (_ & Hd & _). exfalso. apply (Hd _ Hin). by left.
  - rewrite IH.
    2: { rewrite fmap_app. apply NoDup_app. split_and!; [done| |apply NoDup_singleton]. by intros x Hx ->%list_elem_of_singleton. }
    split.
    + intros (new & -> & Hk & Hf & Hd). exists ((key, t) :: new). rewrite <- app_assoc in Hd |- *. split_and!; [done| | |done].
      * cbn. by rewrite Hk.
      * constructor; [by apply target_of_spec|done].
    + intros ([|[k t'] new] & -> & Hk & Hf & Hd); [done|]. cbn in Hk. injection Hk as -> Hk. apply Forall_cons in Hf as [Hn Hf].
      apply target_of_spec in Hn. cbn [fst snd] in Hn. rewrite Et in Hn. injection Hn as ->. exists new. rewrite <- app_assoc. by split_and!.
Qed.

Lemma renames_mending props o rename : undeclared props o ≠ [] → renames_from props o [] = Some rename ↔ Mending props o rename.
Proof.
  intros Hu. rewrite renames_spec by constructor. unfold Mending. split.
  - by intros (new & -> & ? & ? & ?).
  - intros (_ & ? & ? & ?). by exists rename.
Qed.

Lemma renamed_becomes rename k k' : NoDup rename.*1 → renamed rename k = k' ↔ becomes rename k k'.
Proof.
  intros Hnd. unfold renamed, becomes. induction rename as [|[k1 t1] rs IH]; cbn [List.find fst snd].
  { split; [intros <-; right; split; [by intros ?%elem_of_nil|done]|by intros [?%elem_of_nil|[_ ->]]]. }
  rewrite fmap_cons in Hnd |- *. apply NoDup_cons in Hnd as [Hk1 Hnd]. rewrite !elem_of_cons. case_bool_decide as Hk; cbn [fst snd] in *.
  - subst k1. split; [intros <-; by left; left|]. intros [[[= ->]|Hin]|[Hn _]]; [done| |tauto].
    exfalso. apply Hk1. apply (list_elem_of_fmap_2 fst _ _ Hin).
  - rewrite (IH Hnd). split.
    + intros [Hin|[Hn ->]]; [by left; right|right]. split; [|done]. intros [->|Hin]; done.
    + intros [[[= -> ->]|Hin]|[Hn ->]]; [done|by left|right]. split; [|done]. intros Hin. apply Hn. by right.
Qed.

Lemma rebuild_snoc rename o m :
  rebuild rename (o ++ [m]) = insert_member (renamed rename (fst m)) (snd m) (rebuild rename o).
Proof. unfold rebuild. by rewrite foldl_app. Qed.

Lemma rebuild_member rename o k' v : member k' (rebuild rename o) = Some v ↔
  ∃ o1 k o2, o = o1 ++ (k, v) :: o2 ∧ renamed rename k = k' ∧ ∀ k2, k2 ∈ o2.*1 → renamed rename k2 ≠ k'.
Proof.
  induction o as [|[k x] o IH] using rev_ind.
  { split; [done|]. intros ([|] & ? & ? & ? & _); done. }
  rewrite rebuild_snoc. cbn [fst snd]. destruct (decide (k' = renamed rename k)) as [->|Hne].
  - rewrite member_insert. split.
    + intros [= ->]. exists o, k, []. split_and!; [done..|]. by intros ? ?%elem_of_nil.
    + intros (o1 & k1 & o2 & He & Hk1 & Ho2). destruct o2 as [|m2 o2 _] using rev_ind.
      * apply app_inj_tail in He as [_ [= _ ->]]. done.
      * rewrite app_comm_cons, app_assoc in He. apply app_inj_tail in He as [_ <-]. exfalso. apply (Ho2 k); [|done].
        rewrite fmap_app. apply elem_of_app. right. by left.
  - rewrite member_insert_ne by done. rewrite IH. split; intros (o1 & k1 & o2 & He & Hk1 & Ho2).
    + subst o. exists o1, k1, (o2 ++ [(k, x)]). rewrite <- app_assoc. split_and!; [done..|]. intros k2. rewrite fmap_app.
      intros [Hin| ->%list_elem_of_singleton]%elem_of_app; [by apply Ho2|done].
    + destruct o2 as [|m2 o2 _] using rev_ind; [apply app_inj_tail in He as [_ [= -> _]]; done|].
      rewrite app_comm_cons, app_assoc in He. apply app_inj_tail in He as [-> _]. exists o1, k1, o2. split_and!; [done..|].
      intros k2 Hk2. apply Ho2. rewrite fmap_app. apply elem_of_app. by left.
Qed.

Lemma rebuild_canonical rename o : canonical (VObject o) → canonical (VObject (rebuild rename o)).
Proof.
  rewrite !canonical_object. intros [_ Ho]. induction o as [|[k x] o IH] using rev_ind.
  - split; constructor.
  - apply Forall_app in Ho as [Ho [Hx _]%Forall_cons]. destruct (IH Ho) as [Hs Hf]. rewrite rebuild_snoc.
    split; [by apply insert_member_sorted|by apply insert_member_Forall].
Qed.

Definition member_before (m m' : str * Value) : Prop := str_lt (fst m) (fst m') = true.

#[export] Instance member_before_order : StrictOrder member_before.
Proof.
  split.
  - intros [k v] Hlt. unfold member_before in Hlt. pose proof (str_lt_trichotomy k k) as Ht. cbn in Hlt. rewrite Hlt in Ht. naive_solver.
  - intros m1 m2 m3. unfold member_before. apply str_lt_trans.
Qed.

Lemma sorted_members_NoDup o : sorted_members o → NoDup o.*1.
Proof.
  induction 1 as [|m o Ho IH Hm]; [constructor|]. cbn [fmap list_fmap]. constructor; [|done].
  intros (m' & He & Hin)%list_elem_of_fmap. rewrite Forall_forall in Hm. specialize (Hm _ Hin).
  rewrite He in Hm. by apply (irreflexivity member_before m').
Qed.

Lemma member_elem o k v : NoDup o.*1 → member k o = Some v ↔ (k, v) ∈ o.
Proof.
  induction o as [|[k1 v1] o IH]; cbn [member]; [by rewrite elem_of_nil|]. rewrite fmap_cons. intros [Hk Hnd]%NoDup_cons.
  rewrite elem_of_cons. case_bool_decide as E.
  - subst k1. split; [intros [= ->]; by left|]. intros [[= ->]|Hin]; [done|]. exfalso. apply Hk. apply (list_elem_of_fmap_2 fst _ _ Hin).
  - rewrite IH by done. split; [by right|]. by intros [[= -> _]|].
Qed.

Lemma sorted_members_ext o1 o2 : sorted_members o1 → sorted_members o2 →
  (∀ k v, member k o1 = Some v ↔ member k o2 = Some v) → o1 = o2.
Proof.
  intros Ho1 Ho2 He. apply (strictly_sorted_unique member_before); [done..|]. intros [k v].
  rewrite <- !member_elem by by apply sorted_members_NoDup. apply He.
Qed.

(** The code mends exactly what can be mended, and in the only way. *)
Lemma autofix_spec schema o fixed : canonical (VObject o) →
  try_autofix schema (VObject o) = Some fixed ↔
  ∃ props o', properties schema = Some props ∧ fixed = VObject o' ∧ mends props o o'.
Proof.
  intros Hc. pose proof Hc as [Hs _]%canonical_object. apply sorted_members_NoDup in Hs as Hnd.
  unfold try_autofix. destruct (properties schema) as [props|]; cbn [mbind option_bind as_object];
    [|split; [done|by intros (? & ? & ? & _)]].
  assert (∀ rename k k', Mending props o rename → renamed rename k = k' ↔ becomes rename k k') as Hb.
  { intros rename k k' (_ & Hr & _). apply renamed_becomes. rewrite Hr. unfold undeclared.
    apply NoDup_ListNoDup, List.NoDup_filter, NoDup_ListNoDup, Hnd. }
  assert (∀ rename o', Mending props o rename → sorted_members o' ∧ (∀ k' v, member k' o' = Some v ↔
    ∃ o1 k o2, o = o1 ++ (k, v) :: o2 ∧ becomes rename k k' ∧ ∀ k2, k2 ∈ o2.*1 → ¬ becomes rename k2 k') ↔
    o' = rebuild rename o) as Ho'.
  { intros rename o' Hm. pose proof (rebuild_canonical rename o Hc) as [Hsr _]%canonical_object.
    assert (∀ k' v, member k' (rebuild rename o) = Some v ↔
      ∃ o1 k o2, o = o1 ++ (k, v) :: o2 ∧ becomes rename k k' ∧ ∀ k2, k2 ∈ o2.*1 → ¬ becomes rename k2 k') as Hmem.
    { intros k' v. rewrite rebuild_member. by setoid_rewrite <- (Hb rename _ _ Hm). }
    split; [|by intros ->]. intros [Hso Hme]. apply sorted_members_ext; [done..|]. intros k v. by rewrite Hme, Hmem. }
  split.
  - destruct (renames_from props o []) as [rename|] eqn:Er; [|done]. cbn [mbind option_bind].
    destruct rename as [|r rename]; [done|]. intros [= <-]. exists props, (rebuild (r :: rename) o). split_and!; [done..|].
    assert (Mending props o (r :: rename)) as Hm.
    { apply renames_mending; [|done]. apply renames_spec in Er as (new & Heq & Hn & _); [|constructor]. cbn [app] in Heq. by rewrite <- Hn, <- Heq. }
    exists (r :: rename). split; [done|]. by apply Ho'.
  - intros (props' & o' & [= <-] & -> & rename & Hm & Hr). apply Ho' in Hr as ->; [|done].
    rewrite (proj2 (renames_mending props o rename (proj1 Hm)) Hm). cbn [mbind option_bind].
    destruct rename; [|done]. destruct Hm as (Hu & Hr & _). by rewrite <- Hr in Hu.
Qed.

(** The mended arguments can be written and read back. *)
Lemma autofix_canonical schema o fixed : canonical (VObject o) →
  try_autofix schema (VObject o) = Some fixed → canonical fixed.
Proof.
  intros Hc. unfold try_autofix. destruct (properties schema) as [props|]; [|done]. cbn [mbind option_bind as_object].
  destruct (renames_from props o []) as [rename|]; [|done]. intros Hf.
  assert (fixed = VObject (rebuild rename o)) as -> by (destruct rename; by inversion Hf). by apply rebuild_canonical.
Qed.

(** C29: what the check of a call's arguments lets through conforms to the schema of the
    tool.  It says valid exactly of JSON that conforms; of the JSON that does not, it mends
    what can be mended so that it conforms: some names are not declared, each of them has
    one nearest declared name, at most two edits away, and no two have the same; then what
    goes to the tool is JSON that has under every name the value of the last member that
    gets it.  It refuses everything else, as class A what is not JSON and as class B the
    rest, which no such mending makes conform. *)
Theorem argument_check_exact schema args :
  match check schema args with
  | Valid => ∃ v, json_from_str args = Some v ∧ Conforms schema v
  | Fixed s => ∃ props o o', properties schema = Some props ∧
      json_from_str args = Some (VObject o) ∧ ¬ Conforms schema (VObject o) ∧
      json_from_str s = Some (VObject o') ∧ Conforms schema (VObject o') ∧ mends props o o'
  | Invalid _ class =>
      (class = "A" ∧ json_from_str args = None) ∨
      (class = "B" ∧ ∃ v, json_from_str args = Some v ∧ ¬ Conforms schema v ∧
        ∀ props o o', properties schema = Some props → v = VObject o → mends props o o' → ¬ Conforms schema (VObject o'))
  end%string.
Proof.
  unfold check. destruct (json_from_str args) as [v|] eqn:Ea; [|by left]. pose proof (json_from_canonical _ _ Ea) as Hcan.
  pose proof (validate_nil schema v) as Hv. destruct (validate schema v) as [|x vs]; [exists v; split; [done|by apply Hv]|].
  assert (¬ Conforms schema v) as Hn by (by intros ?%Hv). clear Hv.
  assert (∀ props o o', properties schema = Some props → v = VObject o → mends props o o' → try_autofix schema v = Some (VObject o')) as Hfix.
  { intros props o o' Hp -> Hm. apply autofix_spec; [done|]. by exists props, o'. }
  destruct (try_autofix schema v) as [fixed|] eqn:Ef.
  2: { right. split; [done|]. exists v. split_and!; [done..|]. intros props o o' Hp Ho Hm. by specialize (Hfix props o o' Hp Ho Hm). }
  pose proof (validate_nil schema fixed) as Hv. destruct (validate schema fixed) as [|y ys] eqn:Ey.
  2: { right. split; [done|]. exists v. split_and!; [done..|]. intros props o o' Hp Ho Hm.
       specialize (Hfix props o o' Hp Ho Hm) as [= ->]. by intros ?%Hv. }
  destruct v as [| | | | |o]; try (unfold try_autofix in Ef; by destruct (properties schema)).
  apply autofix_spec in Ef as Hs; [|done]. destruct Hs as (props & o' & Hp & -> & Hm).
  exists props, o, o'. split_and!; [done..| |by apply Hv|done]. apply json_roundtrip.
  assert (VObject o' = VObject (rebuild (default [] (renames_from props o [])) o)) as ->; [|by apply rebuild_canonical].
  unfold try_autofix in Ef. rewrite Hp in Ef. cbn [mbind option_bind as_object] in Ef.
  destruct (renames_from props o []) as [[|r rs]|]; try done. by injection Ef as <-.
Qed.
End Validator.

(** ** Runs *)

Section Runs.
#[local] Existing Instance ascii_unicode.
#[local] Existing Instance unit_numbers.
#[local] Existing Instance toy_json.

Definition unit_checks : JsonChecks := {| num_eqb := λ _ _, true; num_is_integer := λ _, true; json_error := λ _, [] |}.
#[local] Existing Instance unit_checks.

Definition field (name ty : string) : str * Value := (lit name, VObject [(lit "type", VString (lit ty))]).

Definition schema_of (fields : list (str * Value)) (required : list string) : Value :=
  VObject [(lit "properties", VObject fields); (lit "required", VArray (VString ∘ lit <$> required)); (lit "type", VString (lit "object"))].

Definition file_schema : Value := schema_of [field "content" "string"; field "path" "string"] ["content"; "path"].

Definition checked_value (o : Outcome) : option Value :=
  match o with
  | Fixed s => json_from_str s
  | _ => None
  end.

(** Observed: a misspelt name takes the value of the right one.  The arguments name the
    file under [path] and have a stray [paths]; the call is mended, and goes on with the
    value of [paths] as its [path]. *)
Theorem mending_overwrites :
  let args := VObject [(lit "content", VString (lit "text")); (lit "path", VString (lit "a.txt")); (lit "paths", VString (lit "b.txt"))] in
  checked_value (check file_schema (json_to_string args))
  = Some (VObject [(lit "content", VString (lit "text")); (lit "path", VString (lit "b.txt"))]).
Proof. vm_compute. reflexivity. Qed.

(** Observed: one stray name stops the mending of another.  [contnt] alone is mended; next
    to a name that the validation ignores it is refused. *)
Theorem stray_stops_mending :
  let args extra := VObject ((lit "contnt", VString (lit "text")) :: extra ++ [(lit "path", VString (lit "a.txt"))]) in
  checked_value (check file_schema (json_to_string (args [])))
  = Some (VObject [(lit "content", VString (lit "text")); (lit "path", VString (lit "a.txt"))]) ∧
  validate file_schema (VObject [(lit "content", VString []); (lit "encoding", VString []); (lit "path", VString [])]) = [] ∧
  ∃ m, check file_schema (json_to_string (args [(lit "encoding", VString (lit "utf-8"))])) = Invalid m "B".
Proof. split_and!; [vm_compute; reflexivity..|]. eexists. vm_compute. reflexivity. Qed.

(** Observed: where the declared name is short any other short name is taken for it. *)
Theorem short_names_collide :
  checked_value (check (schema_of [field "q" "string"] ["q"]) (json_to_string (VObject [(lit "id", VString (lit "7"))])))
  = Some (VObject [(lit "q", VString (lit "7"))]).
Proof. vm_compute. reflexivity. Qed.
End Runs.
