(* ===== verification/TurnGuard.v ===== *)
(** * Guards of a turn (nemesis-agent/src/turn_guard.rs)

    The counters by which a turn notices that the model is stuck: failures that repeat,
    writes and reads that repeat, answers that repeat or are empty.  The specification
    at the end reads every answer of a guard off the history of what it was told. *)
From Stdlib Require Import QArith.
From stdpp Require Import strings.
From S2P Require Import Prelude RustStr F64 Json.
Local Open Scope nb_scope.

Definition ALTERNATING_LOOP_THRESHOLD : nat := 3.
Definition ALTERNATING_LOOP_HARD_STOP : nat := 6.
Definition ESCALATION_MARKER : str := ulit "检测到循环无法打破：".
Definition STORM_THRESHOLD : nat := 3.
Definition REPEAT_SUCCESS_THRESHOLD : nat := 2.
Definition READ_REPEAT_NUDGE_THRESHOLD : nat := 3.
Definition MAX_EMPTY_FINAL_RETRIES : nat := 3.
Definition RECEIPT_RING_CAP : nat := 32.
Definition RECEIPT_MISSING_MARKER : str := c_nul :: lit "receipt-missing: success claimed without execution proof".

Definition WRITE_LIKE_TOOLS : list string :=
  ["edit_file"; "write_file"; "create_file"; "save_file"; "patch_file"; "multiedit"]%string.

Inductive FinalAnswerVerdict :=
| AcceptAnswer
| RetryWithNudge (nudge : str)
| GiveUp (notice : str).

(** The guard.  Its counters are 32 bits wide and count calls of one turn. *)
Record TurnGuard := mkGuard {
  tg_fail_freq : gmap str nat;
  tg_storm_sig : option str;
  tg_storm_count : nat;
  tg_success_counts : gmap str nat;
  tg_read_success_counts : gmap str nat;
  tg_empty_final_count : nat;
  tg_last_content : option str;
  tg_repeat_text_count : nat;
  tg_receipts : list (str * N);
  tg_had_writes : bool;
}.

Definition guard_new : TurnGuard := mkGuard ∅ None 0 ∅ ∅ 0 None 0 [] false.

(** ** Signatures *)

(** [trim_start_matches] of a text: all its copies at the front are dropped. *)
Fixpoint trim_start_text_from (fuel : nat) (p s : str) : str :=
  match fuel with
  | O => s
  | S fuel => match strip_prefix p s with
              | Some s' => trim_start_text_from fuel p s'
              | None => s
              end
  end.

Definition trim_start_text (p s : str) : str := trim_start_text_from (length s) p s.

Definition meaningful_line (l : str) : option str :=
  let s := trim (trim_start_text (lit "stderr:") (trim_start_text (lit "stdout:") l)) in
  if negb (nonempty s) || starts_with (lit "Exit code:") s then None else Some s.

Definition error_signature (tool error : str) : str :=
  let stripped := trim (trim_start_text (lit "Tool error:") (trim_start_text (lit "Error:") error)) in
  let meaningful :=
    match omap meaningful_line (lines stripped) with
    | s :: _ => s
    | [] => trim (default stripped (head (lines stripped)))
    end in
  tool ++ [c_nul] ++ take 120 meaningful.

Definition tool_result_indicates_error (result : str) : bool :=
  starts_with (lit "Error:") result || starts_with (lit "Tool error:") result
  || starts_with (lit "Exit code:") result.

Definition is_write_like_tool (name : str) : bool := existsb (λ t, lit t =? name) WRITE_LIKE_TOOLS.

(** [split('\x00').next()]. *)
Definition sig_tool (sig : str) : str := default (lit "tool") (head (split_on (N.eqb c_nul) sig)).

(** ** Failures *)

Definition with_failures (g : TurnGuard) (freq : gmap str nat) (sig : option str) (count : nat) : TurnGuard :=
  mkGuard freq sig count (tg_success_counts g) (tg_read_success_counts g) (tg_empty_final_count g)
    (tg_last_content g) (tg_repeat_text_count g) (tg_receipts g) (tg_had_writes g).

(** [entry(k).or_insert(0)], counted up by one. *)
Definition count_of (m : gmap str nat) (k : str) : nat := default 0%nat (m !! k).
Definition bump (m : gmap str nat) (k : str) : gmap str nat := <[k := S (count_of m k)]> m.

Definition alternating_text (tool : str) (count : nat) : str :=
  [c_nl] ++ lit "[loop guard] " ++ tool ++ ulit " 在本任务中已 " ++ show_nat count
  ++ ulit " 次报相同错误。中间的修改并没有消除这个错误——根因可能在别处。请换方向：检查依赖配置 / 构建配置 / 环境依赖是否正确安装，或换一条完全不同的实现路径；若实在无法解决，请在最终答复里说明阻塞点。".

Definition storm_text (tool : str) (count : nat) : str :=
  [c_nl] ++ lit "[loop guard] " ++ tool ++ ulit " 已连续 " ++ show_nat count
  ++ ulit " 次以完全相同的方式失败，且中间没有任何其他有效操作。换个说法重发同样没用。请换工具、换思路，或在最终答复里说明阻塞点。".

Definition unproven_text (tool : str) : str :=
  [c_nl] ++ ulit "[loop guard] 工具 '" ++ tool
  ++ ulit "' 的结果声称成功，但本回合没有对应的执行收据（可能未真实执行）。请确认操作确实已执行（重新调用工具核实），不要在未执行的情况下宣称完成。".

Definition nudge_from (threshold count : nat) (text : nat → str) : option str :=
  if (threshold <=? count)%nat then Some (text count) else None.

Definition record_tool_outcome (g : TurnGuard) (tool : str) (error : option str) : TurnGuard * option str :=
  match error with
  | None => (with_failures g (tg_fail_freq g) None 0, None)
  | Some error =>
      let sig := error_signature tool error in
      let freq := bump (tg_fail_freq g) sig in
      let alt_nudge := nudge_from ALTERNATING_LOOP_THRESHOLD (count_of freq sig) (alternating_text tool) in
      if bool_decide (tg_storm_sig g = Some sig) then
        let count := S (tg_storm_count g) in
        (with_failures g freq (Some sig) count,
         match nudge_from STORM_THRESHOLD count (storm_text tool) with
         | Some nudge => Some nudge
         | None => alt_nudge
         end)
      else (with_failures g freq (Some sig) 1, alt_nudge)
  end.

Definition with_receipts (g : TurnGuard) (receipts : list (str * N)) : TurnGuard :=
  mkGuard (tg_fail_freq g) (tg_storm_sig g) (tg_storm_count g) (tg_success_counts g) (tg_read_success_counts g)
    (tg_empty_final_count g) (tg_last_content g) (tg_repeat_text_count g) receipts (tg_had_writes g).

(** Pushed at the back; the oldest go as long as there are too many. *)
Fixpoint pop_front_to (cap : nat) (l : list (str * N)) : list (str * N) :=
  match l with
  | [] => []
  | _ :: l' => if (cap <? length l)%nat then pop_front_to cap l' else l
  end.

Definition record_receipt (g : TurnGuard) (receipt : str) (ts_ms : N) : TurnGuard :=
  with_receipts g (pop_front_to RECEIPT_RING_CAP (tg_receipts g ++ [(receipt, ts_ms)])).

Definition receipt_count (g : TurnGuard) : nat := length (tg_receipts g).

Definition record_tool_outcome_verified (g : TurnGuard) (tool : str) (error : option str) (receipt : option (str * N))
    : TurnGuard * option str :=
  let g := match receipt with Some (r, ts) => record_receipt g r ts | None => g end in
  match error, receipt with
  | None, None =>
      let sig := error_signature tool RECEIPT_MISSING_MARKER in
      (with_failures g (bump (tg_fail_freq g) sig) (tg_storm_sig g) (tg_storm_count g), Some (unproven_text tool))
  | _, _ => record_tool_outcome g tool error
  end.

Definition escalation_message (sig : str) (count : nat) : str :=
  ESCALATION_MARKER ++ sig_tool sig ++ ulit " 在本任务中已 " ++ show_nat count
  ++ ulit " 次报相同错误，多次提示后仍未改变方向。已停止本轮以避免空耗，已完成的工作已保存。请人工介入，或换一种思路后重试。".

Definition escalating_signature `{HashOrder} (g : TurnGuard) : option (str * nat) :=
  List.find (λ e, (ALTERNATING_LOOP_HARD_STOP <=? snd e)%nat) (hash_iter (tg_fail_freq g)).

Definition escalation_check `{HashOrder} (g : TurnGuard) : option str :=
  e ← escalating_signature g;
  Some (escalation_message (fst e) (snd e)).

Definition clear_signature (g : TurnGuard) (sig : str) : TurnGuard :=
  with_failures g (delete sig (tg_fail_freq g)) (tg_storm_sig g) (tg_storm_count g).

(** ** Repeated successes *)

Definition write_text (tool : str) (count : nat) : str :=
  [c_nl] ++ lit "[loop guard] " ++ tool ++ ulit " 已在本任务中以相同参数成功 " ++ show_nat count
  ++ ulit " 次。重复同样的写操作没有意义。请确认结果（读回 / 测试），或换下一步操作，或在最终答复里收尾。".

Definition read_text (tool : str) (count : nat) : str :=
  [c_nl] ++ lit "[loop guard] " ++ tool ++ ulit " 已在本任务中以相同参数查询 " ++ show_nat count
  ++ ulit " 次，每次结果都一样。重复查询不会带来新信息。请重读上一次的结果并基于它行动、调整查询参数或搜索范围，或在最终答复里收尾。".

Definition with_successes (g : TurnGuard) (writes reads : gmap str nat) (had_writes : bool) : TurnGuard :=
  mkGuard (tg_fail_freq g) (tg_storm_sig g) (tg_storm_count g) writes reads (tg_empty_final_count g)
    (tg_last_content g) (tg_repeat_text_count g) (tg_receipts g) had_writes.

Section Successes.
Context `{JsonNumbers} `{!JsonCodec}.

Definition canonical_args (args : str) : str :=
  match json_from_str args with
  | Some v => json_to_string v
  | None => join [c_space] (split_whitespace args)
  end.

Definition success_signature (tool args : str) : str := tool ++ [c_nul] ++ canonical_args args.

Definition record_write_success (g : TurnGuard) (tool args : str) : TurnGuard * option str :=
  if negb (is_write_like_tool tool) then (g, None)
  else
    let sig := success_signature tool args in
    let writes := bump (tg_success_counts g) sig in
    (with_successes g writes (tg_read_success_counts g) true,
     nudge_from (S REPEAT_SUCCESS_THRESHOLD) (count_of writes sig) (write_text tool)).

Definition record_read_success (g : TurnGuard) (tool args : str) : TurnGuard * option str :=
  if is_write_like_tool tool then (g, None)
  else
    let sig := success_signature tool args in
    let reads := bump (tg_read_success_counts g) sig in
    (with_successes g (tg_success_counts g) reads (tg_had_writes g),
     nudge_from READ_REPEAT_NUDGE_THRESHOLD (count_of reads sig) (read_text tool)).
End Successes.

(** ** Texts *)

(** Windows of [n] characters. *)
Fixpoint windows (n : nat) (s : str) : list str :=
  match s with
  | [] => []
  | _ :: s' => if (length s <? n)%nat then [] else take n s :: windows n s'
  end.

Definition shingles (s : str) (n : nat) : list str :=
  if (length s <? n)%nat then [s] else windows n s.

Definition repetition_text : str :=
  [c_nl] ++ ulit "[loop guard] 你连续两轮给出了几乎相同的内容（相似度 ≥80%）。请给出新信息、新角度，或直接收尾。".

Definition with_text (g : TurnGuard) (count : nat) (content : str) : TurnGuard :=
  mkGuard (tg_fail_freq g) (tg_storm_sig g) (tg_storm_count g) (tg_success_counts g) (tg_read_success_counts g)
    (tg_empty_final_count g) (Some content) count (tg_receipts g) (tg_had_writes g).

Section Similarity.
Context {FL : Float}.

Definition TEXT_REPETITION_SIM_THRESHOLD : Q := f100 80.

Definition similarity (a b : str) : Q :=
  let sa : gset str := list_to_set (shingles a 4) in
  let sb : gset str := list_to_set (shingles b 4) in
  if bool_decide (sa = ∅) && bool_decide (sb = ∅) then 1
  else if (size (sa ∪ sb) =? 0)%nat then 0
  else fdiv (of_usize (size (sa ∩ sb))) (of_usize (size (sa ∪ sb))).

Definition too_similar (last : option str) (content : str) : bool :=
  match last with
  | Some prev => fle TEXT_REPETITION_SIM_THRESHOLD (similarity prev content)
  | None => false
  end.

Definition check_text_repetition (g : TurnGuard) (content : str) : TurnGuard * option str :=
  if negb (nonempty (trim content)) then (g, None)
  else if too_similar (tg_last_content g) content then
    let count := S (tg_repeat_text_count g) in
    let g := with_text g count content in
    if (1 <=? count)%nat then (g, Some repetition_text) else (g, None)
  else (with_text g 0 content, None).
End Similarity.

Definition with_empty_finals (g : TurnGuard) (count : nat) : TurnGuard :=
  mkGuard (tg_fail_freq g) (tg_storm_sig g) (tg_storm_count g) (tg_success_counts g) (tg_read_success_counts g)
    count (tg_last_content g) (tg_repeat_text_count g) (tg_receipts g) (tg_had_writes g).

Definition GIVE_UP_NOTICE : str := ulit "（模型多次未给出有效答复，已停止重试。请重试或换一种问法。）".
Definition EMPTY_NUDGE : str := ulit "你的上一条回复没有可见正文。请直接给出实际答复。".

Definition check_final_answer (g : TurnGuard) (text : str) : TurnGuard * FinalAnswerVerdict :=
  if nonempty (trim text) then (g, AcceptAnswer)
  else
    let count := S (tg_empty_final_count g) in
    (with_empty_finals g count,
     if (MAX_EMPTY_FINAL_RETRIES <=? count)%nat then GiveUp GIVE_UP_NOTICE else RetryWithNudge EMPTY_NUDGE).

(** ** The guard read off its history *)

Section History.
Context `{JsonNumbers} `{!JsonCodec} {FL : Float}.

(** What a guard is told. *)
Inductive GuardOp :=
| OpOutcome (tool : str) (error : option str) (receipt : option (str * N))
| OpClear (sig : str)
| OpWrite (tool args : str)
| OpRead (tool args : str)
| OpText (content : str)
| OpFinal (text : str).

Inductive GuardAnswer :=
| Nudge (nudge : option str)
| Verdict (v : FinalAnswerVerdict).

Definition guard_step (g : TurnGuard) (op : GuardOp) : TurnGuard * GuardAnswer :=
  match op with
  | OpOutcome tool error receipt => prod_map id Nudge (record_tool_outcome_verified g tool error receipt)
  | OpClear sig => (clear_signature g sig, Nudge None)
  | OpWrite tool args => prod_map id Nudge (record_write_success g tool args)
  | OpRead tool args => prod_map id Nudge (record_read_success g tool args)
  | OpText content => prod_map id Nudge (check_text_repetition g content)
  | OpFinal text => prod_map id Verdict (check_final_answer g text)
  end.

Fixpoint guard_run (g : TurnGuard) (ops : list GuardOp) : TurnGuard * list GuardAnswer :=
  match ops with
  | [] => (g, [])
  | op :: ops => let '(g, a) := guard_step g op in let '(g, l) := guard_run g ops in (g, a :: l)
  end.

(** The failure that an outcome counts as: a success without a receipt is one. *)
Definition failure_of (op : GuardOp) : option str :=
  match op with
  | OpOutcome tool (Some error) _ => Some (error_signature tool error)
  | OpOutcome tool None None => Some (error_signature tool RECEIPT_MISSING_MARKER)
  | _ => None
  end.

(** A history has its latest part first.  Failures of a kind since it was last cleared. *)
Fixpoint failures (sig : str) (h : list GuardOp) : nat :=
  match h with
  | [] => 0
  | OpClear s :: h => if s =? sig then 0 else failures sig h
  | op :: h => if bool_decide (failure_of op = Some sig) then S (failures sig h) else failures sig h
  end.

(** The run of a kind that the guard against storms counts: the latest failures of the
    kind, up to another failure or a success with a receipt.  A success without a receipt
    neither counts nor ends the run. *)
Fixpoint streak (sig : str) (h : list GuardOp) : nat :=
  match h with
  | [] => 0
  | OpOutcome tool (Some error) _ :: h => if error_signature tool error =? sig then S (streak sig h) else 0
  | OpOutcome _ None (Some _) :: _ => 0
  | _ :: h => streak sig h
  end.

Definition writes_of (sig : str) (op : GuardOp) : bool :=
  match op with OpWrite tool args => is_write_like_tool tool && (success_signature tool args =? sig) | _ => false end.

Definition reads_of (sig : str) (op : GuardOp) : bool :=
  match op with OpRead tool args => negb (is_write_like_tool tool) && (success_signature tool args =? sig) | _ => false end.

Definition told (p : GuardOp → bool) (h : list GuardOp) : nat := length (List.filter p h).

Definition is_write (op : GuardOp) : bool := match op with OpWrite tool _ => is_write_like_tool tool | _ => false end.

Definition is_empty_final (op : GuardOp) : bool :=
  match op with OpFinal text => negb (nonempty (trim text)) | _ => false end.

Fixpoint last_text (h : list GuardOp) : option str :=
  match h with
  | [] => None
  | OpText content :: h => if nonempty (trim content) then Some content else last_text h
  | _ :: h => last_text h
  end.

Definition receipt_of_op (op : GuardOp) : option (str * N) :=
  match op with OpOutcome _ _ receipt => receipt | _ => None end.

(** The answer after the history [h]. *)
Definition spec_answer (h : list GuardOp) (op : GuardOp) : GuardAnswer :=
  match op with
  | OpOutcome tool (Some error) _ =>
      let sig := error_signature tool error in
      Nudge (match nudge_from STORM_THRESHOLD (streak sig (op :: h)) (storm_text tool) with
             | Some nudge => Some nudge
             | None => nudge_from ALTERNATING_LOOP_THRESHOLD (failures sig (op :: h)) (alternating_text tool)
             end)
  | OpOutcome tool None None => Nudge (Some (unproven_text tool))
  | OpOutcome _ None (Some _) | OpClear _ => Nudge None
  | OpWrite tool args =>
      let sig := success_signature tool args in
      Nudge (if is_write_like_tool tool then nudge_from 3 (told (writes_of sig) (op :: h)) (write_text tool) else None)
  | OpRead tool args =>
      let sig := success_signature tool args in
      Nudge (if is_write_like_tool tool then None else nudge_from 3 (told (reads_of sig) (op :: h)) (read_text tool))
  | OpText content =>
      Nudge (if nonempty (trim content) && too_similar (last_text h) content then Some repetition_text else None)
  | OpFinal text =>
      Verdict (if nonempty (trim text) then AcceptAnswer
               else if (told is_empty_final h <? 2)%nat then RetryWithNudge EMPTY_NUDGE else GiveUp GIVE_UP_NOTICE)
  end.

Fixpoint spec_run (h : list GuardOp) (ops : list GuardOp) : list GuardAnswer :=
  match ops with
  | [] => []
  | op :: ops => spec_answer h op :: spec_run (op :: h) ops
  end.

(** What the guard holds after a history. *)
Record Holds (h : list GuardOp) (g : TurnGuard) : Prop := {
  holds_failures : ∀ sig, count_of (tg_fail_freq g) sig = failures sig h;
  holds_storm : ∀ sig, streak sig h = if bool_decide (tg_storm_sig g = Some sig) then tg_storm_count g else 0;
  holds_writes : ∀ sig, count_of (tg_success_counts g) sig = told (writes_of sig) h;
  holds_reads : ∀ sig, count_of (tg_read_success_counts g) sig = told (reads_of sig) h;
  holds_finals : tg_empty_final_count g = told is_empty_final h;
  holds_text : tg_last_content g = last_text h;
  holds_receipts : tg_receipts g = rev (take RECEIPT_RING_CAP (omap receipt_of_op h));
  holds_had_writes : tg_had_writes g = existsb is_write h;
}.

Lemma count_bump m k k' : count_of (bump m k) k' = if k =? k' then S (count_of m k') else count_of m k'.
Proof.
  unfold bump, count_of at 1. case_bool_decide as Hk; [subst; by rewrite lookup_insert_eq|].
  by rewrite lookup_insert_ne.
Qed.

Lemma told_cons p op h : told p (op :: h) = if p op then S (told p h) else told p h.
Proof. unfold told. cbn [List.filter]. by destruct (p op). Qed.

Lemma pop_front_spec cap l : pop_front_to cap l = drop (length l - cap) l.
Proof.
  induction l as [|x l IH]; [done|]. cbn [pop_front_to]. destruct (Nat.ltb_spec cap (length (x :: l))) as [Hl|Hl].
  - rewrite IH. replace (length (x :: l) - cap)%nat with (S (length l - cap)) by (cbn [length] in *; lia). done.
  - by replace (length (x :: l) - cap)%nat with 0%nat by lia.
Qed.

Lemma ring_push (l : list (str * N)) x cap : (0 < cap)%nat →
  pop_front_to cap (rev (take cap l) ++ [x]) = rev (take cap (x :: l)).
Proof.
  intros Hc. rewrite pop_front_spec. change (rev (take cap l) ++ [x]) with (rev (x :: take cap l)).
  rewrite length_rev, skipn_rev. f_equal. cbn [length]. rewrite length_take. destruct cap as [|cap]; [lia|].
  destruct (Nat.le_gt_cases (length l) (S cap)) as [Hle|Hgt].
  - rewrite (take_ge l) by lia. rewrite Nat.min_r by lia. cbn [take length].
    destruct (decide (length l = S cap)) as [He|He].
    + rewrite He. replace (S (S cap) - (S (S cap) - S cap))%nat with (S cap) by lia. done.
    + replace (S (length l) - (S (length l) - S cap))%nat with (S (length l)) by lia.
      rewrite (take_ge l) by lia. cbn [take]. by rewrite !take_ge by lia.
  - rewrite Nat.min_l by lia. replace (S (S cap) - (S (S cap) - S cap))%nat with (S cap) by lia.
    cbn [take]. by rewrite take_take, Nat.min_l by lia.
Qed.

Lemma holds_new : Holds [] guard_new.
Proof. by split. Qed.

Lemma holds_receipt h g tool error r ts : Holds h g →
  tg_receipts (record_receipt g r ts) = rev (take RECEIPT_RING_CAP (omap receipt_of_op (OpOutcome tool error (Some (r, ts)) :: h))).
Proof.
  intros []. cbn [record_receipt with_receipts tg_receipts]. rewrite holds_receipts0.
  change (omap receipt_of_op (OpOutcome tool error (Some (r, ts)) :: h)) with ((r, ts) :: omap receipt_of_op h).
  apply ring_push. unfold RECEIPT_RING_CAP. lia.
Qed.

(** A failure with its text: both counters move. *)
Lemma record_failure_spec h g tool error receipt :
  (∀ sig, count_of (tg_fail_freq g) sig = failures sig h) →
  (∀ sig, streak sig h = if bool_decide (tg_storm_sig g = Some sig) then tg_storm_count g else 0) →
  let op := OpOutcome tool (Some error) receipt in
  let '(g', a) := record_tool_outcome g tool (Some error) in
  Nudge a = spec_answer h op ∧
  (∀ sig, count_of (tg_fail_freq g') sig = failures sig (op :: h)) ∧
  ∀ sig, streak sig (op :: h) = if bool_decide (tg_storm_sig g' = Some sig) then tg_storm_count g' else 0.
Proof.
  intros Hf Hs. cbn zeta. unfold record_tool_outcome. set (sig := error_signature tool error).
  assert (∀ s, count_of (bump (tg_fail_freq g) sig) s = failures s (OpOutcome tool (Some error) receipt :: h)) as Hf'.
  { intros s. rewrite count_bump, Hf. cbn [failures failure_of]. fold sig.
    destruct (decide (sig = s)) as [->|Hn]; [by rewrite !bool_decide_true|]. by rewrite !bool_decide_false by congruence. }
  assert (∀ s, streak s (OpOutcome tool (Some error) receipt :: h) = if sig =? s then S (streak s h) else 0) as Hst by (intros s; reflexivity).
  unfold spec_answer. fold sig. rewrite <- Hf', Hst, (bool_decide_true (sig = sig)) by done. specialize (Hs sig) as Hsig.
  case_bool_decide as Hc; cbn -[bump count_of failures streak]; (split_and!; [|done|]).
  - rewrite Hsig. by destruct (nudge_from STORM_THRESHOLD _ _).
  - intros s. rewrite Hst. destruct (decide (sig = s)) as [<-|Hn].
    + rewrite !bool_decide_true by done. by rewrite Hsig.
    + by rewrite !bool_decide_false by congruence.
  - rewrite Hsig. cbn. done.
  - intros s. rewrite Hst. destruct (decide (sig = s)) as [<-|Hn].
    + rewrite !bool_decide_true by done. by rewrite Hsig.
    + by rewrite !bool_decide_false by congruence.
Qed.

Lemma outcome_spec h g tool error receipt : Holds h g →
  Holds (OpOutcome tool error receipt :: h) (fst (guard_step g (OpOutcome tool error receipt))) ∧
  snd (guard_step g (OpOutcome tool error receipt)) = spec_answer h (OpOutcome tool error receipt).
Proof.
  intros Hh. cbn [guard_step]. unfold record_tool_outcome_verified.
  assert (∀ r, tg_receipts (match r with Some (r, ts) => record_receipt g r ts | None => g end)
    = rev (take RECEIPT_RING_CAP (omap receipt_of_op (OpOutcome tool error r :: h)))) as Hr.
  { intros [[r ts]|]; [by apply holds_receipt|apply Hh]. }
  specialize (Hr receipt).
  set (g1 := match receipt with Some (r, ts) => record_receipt g r ts | None => g end) in *.
  assert (g1 = with_receipts g (tg_receipts g1)) as Hg1 by (subst g1; destruct receipt as [[r ts]|]; by destruct g).
  destruct Hh. destruct error as [error|].
  - pose proof (record_failure_spec h g1 tool error receipt) as Hspec. cbn zeta in Hspec.
    destruct (record_tool_outcome g1 tool (Some error)) as [g' a] eqn:E. cbn [prod_map fst snd].
    destruct Hspec as (Ha & Hf & Hs); [by rewrite Hg1|by rewrite Hg1|]. split; [|done].
    assert (∃ f s c, g' = with_failures g1 f s c) as (f & s & c & ->).
    { unfold record_tool_outcome in E. destruct (bool_decide _); injection E as <- _; eauto. }
    split; try done; rewrite Hg1; done.
  - destruct receipt as [[r ts]|]; cbn [record_tool_outcome prod_map fst snd]; (split; [|done]); rewrite Hg1; split; try done.
    intros sig. cbn. rewrite count_bump, holds_failures0. cbn [failures failure_of].
    set (s := error_signature _ _). destruct (decide (s = sig)) as [->|Hn]; [by rewrite !bool_decide_true|].
    by rewrite !bool_decide_false by congruence.
Qed.

Lemma clear_spec h g sig : Holds h g → Holds (OpClear sig :: h) (clear_signature g sig).
Proof.
  intros []. split; try done. intros s. cbn [failures]. cbn. unfold count_of. case_bool_decide as Hs.
  - subst. by rewrite lookup_delete_eq.
  - rewrite lookup_delete_ne by done. apply holds_failures0.
Qed.

(** A successful call counts one among those of its kind. *)
Lemma counted (m : gmap str nat) (p : str → GuardOp → bool) sig op h :
  (∀ s, count_of m s = told (p s) h) → (∀ s, p s op = bool_decide (sig = s)) →
  ∀ s, count_of (bump m sig) s = told (p s) (op :: h).
Proof. intros Hm Hp s. rewrite count_bump, told_cons, Hp, Hm. by case_bool_decide. Qed.

Lemma write_spec h g tool args (op := OpWrite tool args) : Holds h g →
  Holds (op :: h) (fst (guard_step g op)) ∧ snd (guard_step g op) = spec_answer h op.
Proof.
  intros Hh. subst op. cbn [guard_step spec_answer]. unfold record_write_success.
  destruct (is_write_like_tool tool) eqn:Hw; cbn [negb prod_map fst snd].
  - pose proof (counted _ writes_of (success_signature tool args) (OpWrite tool args) h (holds_writes _ _ Hh)) as Hc.
    specialize (Hc ltac:(intros s; cbn [writes_of]; by rewrite Hw)). destruct Hh. split.
    + split; try done. cbn [existsb is_write]. by rewrite Hw.
    + by rewrite <- Hc.
  - destruct Hh. split; [|done]. split; try done; [|cbn [existsb is_write]; by rewrite Hw].
    intros s. rewrite told_cons. cbn [writes_of]. by rewrite Hw.
Qed.

Lemma read_spec h g tool args (op := OpRead tool args) : Holds h g →
  Holds (op :: h) (fst (guard_step g op)) ∧ snd (guard_step g op) = spec_answer h op.
Proof.
  intros Hh. subst op. cbn [guard_step spec_answer]. unfold record_read_success.
  destruct (is_write_like_tool tool) eqn:Hw; cbn [prod_map fst snd].
  - destruct Hh. split; [|done]. split; try done. intros s. rewrite told_cons. cbn [reads_of]. by rewrite Hw.
  - pose proof (counted _ reads_of (success_signature tool args) (OpRead tool args) h (holds_reads _ _ Hh)) as Hc.
    specialize (Hc ltac:(intros s; cbn [reads_of]; by rewrite Hw)). destruct Hh. split; [by split|]. by rewrite <- Hc.
Qed.

Lemma text_spec h g content : Holds h g →
  Holds (OpText content :: h) (fst (guard_step g (OpText content))) ∧
  snd (guard_step g (OpText content)) = spec_answer h (OpText content).
Proof.
  intros []. cbn [guard_step spec_answer]. unfold check_text_repetition. destruct (nonempty (trim content)) eqn:Ht; cbn [negb andb].
  - rewrite <- holds_text0. destruct (too_similar (tg_last_content g) content); cbn [Nat.leb prod_map fst snd];
      (split; [split; try done; cbn; by rewrite Ht|done]).
  - cbn [prod_map fst snd]. split; [|done]. split; try done. cbn. by rewrite Ht.
Qed.

Lemma final_spec h g text : Holds h g →
  Holds (OpFinal text :: h) (fst (guard_step g (OpFinal text))) ∧
  snd (guard_step g (OpFinal text)) = spec_answer h (OpFinal text).
Proof.
  intros []. cbn [guard_step spec_answer]. unfold check_final_answer. destruct (nonempty (trim text)) eqn:Ht; cbn [prod_map fst snd].
  - split; [|done]. split; try done. rewrite told_cons. cbn [is_empty_final]. by rewrite Ht.
  - split; [split; try done; rewrite told_cons; cbn [is_empty_final]; rewrite Ht; cbn; by rewrite holds_finals0|].
    rewrite holds_finals0. unfold MAX_EMPTY_FINAL_RETRIES. cbn [id]. f_equal.
    destruct (Nat.leb_spec 3 (S (told is_empty_final h))), (Nat.ltb_spec (told is_empty_final h) 2); (lia || done).
Qed.

Lemma guard_step_spec h g op : Holds h g →
  Holds (op :: h) (fst (guard_step g op)) ∧ snd (guard_step g op) = spec_answer h op.
Proof.
  intros Hh. destruct op; [by apply outcome_spec|split; [by apply clear_spec|done]|by apply write_spec|by apply read_spec|
    by apply text_spec|by apply final_spec].
Qed.

Lemma guard_run_spec ops h g : Holds h g → snd (guard_run g ops) = spec_run h ops.
Proof.
  revert h g. induction ops as [|op ops IH]; intros h g Hh; [done|]. cbn [guard_run spec_run].
  destruct (guard_step_spec h g op Hh) as [Hh' Ha]. destruct (guard_step g op) as [g' a]. cbn [fst snd] in *.
  specialize (IH _ _ Hh'). destruct (guard_run g' ops) as [g'' l]. cbn [snd] in *. by rewrite Ha, IH.
Qed.

(** C30: every answer of the guards of a turn is read off the history of the turn.  After
    any sequence of outcomes, cleared failures, successful writes and reads, contents and
    final answers, a failure is answered by the nudge of the run of its kind when that has
    three, a run that another failure and a success with a receipt end and a success
    without one does not touch; else by the nudge of all of its kind since it was last
    cleared when those are three, whatever succeeded in between; a success without a
    receipt by a nudge, and it counts as a failure of a kind of its own among all, never
    in a run; the third write and the third read with the same arguments by
    theirs; a content that is near the last by one; and of the empty final answers the
    third gives up. *)
Theorem guard_answers_exact ops : snd (guard_run guard_new ops) = spec_run [] ops.
Proof. apply guard_run_spec, holds_new. Qed.

(** Observed: a success without a receipt counts as a failure of its kind, but the run that
    the guard against storms keeps is left as it was: it is neither counted there nor does
    it end a run. *)
Theorem unproven_outside_storms g tool :
  let g' := fst (record_tool_outcome_verified g tool None None) in
  tg_fail_freq g' = bump (tg_fail_freq g) (error_signature tool RECEIPT_MISSING_MARKER) ∧
  tg_storm_sig g' = tg_storm_sig g ∧ tg_storm_count g' = tg_storm_count g.
Proof. done. Qed.

(** Observed: so three failures of a kind with successes of their tool between them, which
    have no receipt, are answered as three in a row with nothing in between. *)
Theorem storm_across_unproven tool error :
  let fails := OpOutcome tool (Some error) None in
  let unproven := OpOutcome tool None None in
  last (snd (guard_run guard_new [fails; unproven; fails; unproven; fails])) = Some (Nudge (Some (storm_text tool 3))).
Proof.
  cbv zeta. rewrite (guard_run_spec _ [] guard_new holds_new).
  cbn -[error_signature failures alternating_text storm_text nudge_from unproven_text].
  by rewrite !bool_decide_true by done.
Qed.
End History.
