(* ===== verification/Turns.v ===== *)
(** * The turns of a conversation (nemesis-agent/src/types.rs, instance.rs, prune.rs,
      interrupt_replay.rs, loop/compact.rs)

    The history of an instance and its operations, the bounded form in which the model
    sees a tool result, the repair of calls and results that are not paired, and the
    projection of the history that every request to the model starts from. *)
From stdpp Require Import strings.
From S2P Require Import Prelude RustStr Json ToolGates.
Local Open Scope nb_scope.

Record ConversationTurn := mkTurn {
  tu_role : str;
  tu_content : str;
  tu_tool_calls : list ToolCallInfo;
  tu_tool_call_id : option str;
  tu_timestamp : str;
  tu_reasoning_content : option str;
  tu_tool_name : option str;
  tu_tool_result_projection : option str;
  tu_image_refs : list str;
}.

Definition r_system : str := lit "system".
Definition r_user : str := lit "user".
Definition r_assistant : str := lit "assistant".
Definition r_tool : str := lit "tool".

Definition plain_turn (role content now : str) : ConversationTurn :=
  mkTurn role content [] None now None None None [].

Definition with_content (t : ConversationTurn) (content : str) : ConversationTurn :=
  mkTurn (tu_role t) content (tu_tool_calls t) (tu_tool_call_id t) (tu_timestamp t) (tu_reasoning_content t)
    (tu_tool_name t) (tu_tool_result_projection t) (tu_image_refs t).

Definition is_role (role : str) (t : ConversationTurn) : bool := tu_role t =? role.

(** ** The history of an instance *)

Definition History : Type := list ConversationTurn.

(** [AgentInstance::new]: the configured system prompt comes first. *)
Definition instance_new (system_prompt : option str) (now : str) : History :=
  match system_prompt with
  | Some prompt => [plain_turn r_system prompt now]
  | None => []
  end.

Definition add_user_message (content now : str) (h : History) : History := h ++ [plain_turn r_user content now].

Definition add_user_message_with_images (content now : str) (image_refs : list str) (h : History) : History :=
  h ++ [mkTurn r_user content [] None now None None None image_refs].

Definition add_assistant_message (content : str) (tool_calls : list ToolCallInfo) (reasoning : option str) (now : str)
    (h : History) : History :=
  h ++ [mkTurn r_assistant content tool_calls None now reasoning None None []].

Definition tool_turn (id content now : str) (name projection : option str) : ConversationTurn :=
  mkTurn r_tool content [] (Some id) now None name projection [].

Definition add_tool_result (id content now : str) (h : History) : History := h ++ [tool_turn id content now None None].

Definition add_tool_result_projected (id original name : str) (projection : option str) (now : str) (h : History)
    : History :=
  h ++ [tool_turn id original now (Some name) projection].

Definition answers (id : str) (t : ConversationTurn) : bool :=
  is_role r_tool t && bool_decide (tu_tool_call_id t = Some id).

Definition with_result (t : ConversationTurn) (content now : str) : ConversationTurn :=
  mkTurn (tu_role t) content (tu_tool_calls t) (tu_tool_call_id t) now (tu_reasoning_content t)
    (tu_tool_name t) (tu_tool_result_projection t) (tu_image_refs t).

(** The last matching result gets the content, the ones before it go. *)
Fixpoint replace_last (id content now : str) (h : History) : History :=
  match h with
  | [] => []
  | t :: h =>
      if answers id t then
        if existsb (answers id) h then replace_last id content now h else with_result t content now :: h
      else t :: replace_last id content now h
  end.

Definition replace_tool_result (id content now : str) (h : History) : History :=
  if existsb (answers id) h then replace_last id content now h
  else h ++ [tool_turn id content now None None].

Definition clear_history (h : History) : History :=
  match List.find (is_role r_system) h with
  | Some sp => [sp]
  | None => []
  end.

Definition compress_history (now : str) (h : History) : History :=
  if (length h <=? 2)%nat then h
  else
    let non_system := List.filter (λ t, negb (is_role r_system t)) h in
    match non_system with
    | [] => h
    | _ =>
        let keep_count := max (length non_system / 2) 1 in
        option_list (List.find (is_role r_system) h)
        ++ [plain_turn r_system (lit "[Session compressed at " ++ now ++ lit "]") now]
        ++ drop (length non_system - keep_count) non_system
    end.

Definition set_history (new_history : History) (h : History) : History :=
  match h with
  | sp :: _ =>
      if is_role r_system sp then
        match new_history with
        | t :: _ => if is_role r_system t then new_history else sp :: new_history
        | [] => [sp]
        end
      else new_history
  | [] => new_history
  end.

Definition truncate_to (keep_last : nat) (h : History) : History := drop (length h - keep_last) h.

Definition message_count (h : History) : nat := length (List.filter (λ t, negb (is_role r_system t)) h).

(** ** Pruning *)

Definition MAX_TOOL_RESULT_INLINE_CHARS : nat := N.to_nat 8192.
Definition PRUNE_HEAD_CHARS : nat := N.to_nat 3600.
Definition PRUNE_TAIL_CHARS : nat := N.to_nat 3600.

Definition SUBAGENT_HINT_SUFFIX : str :=
  ulit "也可派子代理（spawn 工具）读取该内容并只回传相关摘要，避免主会话占用上下文。".

Definition prune_marker (tool_name : str) (total_chars omitted : nat) (hint : str) : str :=
  [c_nl] ++ ulit "[结果过长已截断：" ++ tool_name ++ ulit " 共 " ++ show_nat total_chars
  ++ ulit " 字符，中间省略约 " ++ show_nat omitted
  ++ ulit " 字符。截断后内容不可从历史恢复；如需完整输出请缩小范围重试该工具（如指定更精确的路径/模式或 offset/limit）。"
  ++ hint ++ lit "]" ++ [c_nl] ++ lit "...".

Definition prune_tool_result (result tool_name : str) (hint_subagent : bool) : option str :=
  let total_chars := length result in
  if (total_chars <=? MAX_TOOL_RESULT_INLINE_CHARS)%nat then None
  else
    let omitted := (total_chars - PRUNE_HEAD_CHARS - PRUNE_TAIL_CHARS)%nat in
    let head := take PRUNE_HEAD_CHARS result in
    let tail := drop (total_chars - PRUNE_TAIL_CHARS) result in
    let hint := if hint_subagent then SUBAGENT_HINT_SUFFIX else [] in
    Some (head ++ prune_marker tool_name total_chars omitted hint ++ tail).

Definition model_facing_content (t : ConversationTurn) : str :=
  if negb (is_role r_tool t) then tu_content t
  else match tu_tool_result_projection t with
       | Some projection => projection
       | None => default (tu_content t) (prune_tool_result (tu_content t) (default r_tool (tu_tool_name t)) false)
       end.

(** ** Insertions behind their messages *)

Section Insertions.
Context {M : Type}.

(** What is to stand behind a message, given the messages that follow it. *)
Variable missing : M → list M → list M.

(** [Vec::insert]. *)
Definition vec_insert (at_ : nat) (x : M) (l : list M) : list M := take at_ l ++ x :: drop at_ l.

Fixpoint collect_insertions (i : nat) (msgs : list M) : list (nat * M) :=
  match msgs with
  | [] => []
  | m :: rest => ((λ x, (S i, x)) <$> missing m rest) ++ collect_insertions (S i) rest
  end.

Definition apply_insertions (ins : list (nat * M)) (msgs : list M) : list M :=
  foldl (λ l p, vec_insert (fst p) (snd p) l) msgs (rev ins).

Fixpoint fill_in (msgs : list M) : list M :=
  match msgs with
  | [] => []
  | m :: rest => m :: missing m rest ++ fill_in rest
  end.

Lemma apply_insertions_app a b l : apply_insertions (a ++ b) l = apply_insertions a (apply_insertions b l).
Proof. unfold apply_insertions. by rewrite rev_app_distr, foldl_app. Qed.

Lemma apply_same (p xs l : list M) : apply_insertions ((λ x, (length p, x)) <$> xs) (p ++ l) = p ++ xs ++ l.
Proof.
  induction xs as [|x xs IH]; [done|].
  change ((λ x, (length p, x)) <$> x :: xs) with ([(length p, x)] ++ ((λ x, (length p, x)) <$> xs)).
  rewrite apply_insertions_app, IH. unfold apply_insertions, vec_insert. cbn [rev app foldl fst snd].
  by rewrite take_app_length, drop_app_length.
Qed.

(** Back to front, the insertions land where they belong, in the order of their calls. *)
Lemma apply_collected pre msgs :
  apply_insertions (collect_insertions (length pre) msgs) (pre ++ msgs) = pre ++ fill_in msgs.
Proof.
  revert pre. induction msgs as [|m rest IH]; intros pre; [done|]. cbn [collect_insertions fill_in].
  rewrite apply_insertions_app. specialize (IH (pre ++ [m])). rewrite length_app in IH. cbn [length] in IH.
  rewrite Nat.add_1_r, <- !app_assoc in IH. cbn [app] in IH. rewrite IH.
  change (pre ++ m :: fill_in rest) with (pre ++ [m] ++ fill_in rest). rewrite app_assoc.
  replace (S (length pre)) with (length (pre ++ [m])) by (rewrite length_app; cbn; lia).
  rewrite apply_same, <- app_assoc. done.
Qed.
End Insertions.

(** ** Repair of calls and results *)

Definition TOOL_OUTCOME_UNKNOWN : str := lit "TOOL_OUTCOME_UNKNOWN".

Definition TOOL_OUTCOME_UNKNOWN_TEXT : str :=
  ulit "该工具调用没有记录到结果，其执行结果未知。请根据操作性质决定：仅在操作是只读或幂等时可以直接重试；若可能有副作用（写文件、执行命令、发送消息等），请先验证外部状态（读回文件 / 检查输出）或询问用户，不要盲目重试。".

(** The call that a tool message answers. *)
Definition tool_id (t : ConversationTurn) : option str :=
  if is_role r_tool t then tu_tool_call_id t else None.

(** The calls that an assistant message makes. *)
Definition call_ids (t : ConversationTurn) : list str :=
  if is_role r_assistant t then tc_id <$> tu_tool_calls t else [].

(** Of the tool messages for one call the last is kept. *)
Fixpoint keep_last_results (h : History) : History :=
  match h with
  | [] => []
  | t :: h =>
      match tool_id t with
      | Some id => if existsb (λ t', bool_decide (tool_id t' = Some id)) h then keep_last_results h
                   else t :: keep_last_results h
      | None => t :: keep_last_results h
      end
  end.

(** Tool messages without a call before them go. *)
Fixpoint retain_answers (seen : gset str) (h : History) : History :=
  match h with
  | [] => []
  | t :: h =>
      let keep := if is_role r_tool t then match tu_tool_call_id t with
                                           | Some id => bool_decide (id ∈ seen)
                                           | None => false
                                           end
                  else true in
      let rest := retain_answers (seen ∪ list_to_set (call_ids t)) h in
      if keep then t :: rest else rest
  end.

Definition unknown_result (a : ConversationTurn) (tc : ToolCallInfo) : ConversationTurn :=
  mkTurn r_tool (lit "[" ++ TOOL_OUTCOME_UNKNOWN ++ lit "] " ++ TOOL_OUTCOME_UNKNOWN_TEXT) [] (Some (tc_id tc))
    (tu_timestamp a) None (Some (tc_name tc)) None [].

(** The results to synthesize behind a message. *)
Definition missing_results (a : ConversationTurn) (rest : History) : History :=
  match call_ids a with
  | [] => []
  | ids =>
      let found : gset str := list_to_set (List.filter (λ id, bool_decide (id ∈ ids)) (omap tool_id rest)) in
      if (size found <? length ids)%nat then
        unknown_result a <$> List.filter (λ tc, negb (bool_decide (tc_id tc ∈ found))) (tu_tool_calls a)
      else []
  end.

Definition repair_tool_message_pairs (h : History) : History :=
  let h := retain_answers ∅ (keep_last_results h) in
  apply_insertions (collect_insertions missing_results 0 h) h.

(** ** The projection for a request *)

Definition summary_block (text : str) : str :=
  [c_nl; c_nl] ++ lit "## Summary of Previous Conversation" ++ [c_nl; c_nl] ++ text.

Definition fold_summary (text : str) (covers_up_to : nat) (now : str) (h : History) : History :=
  let c_idx := min covers_up_to (length h) in
  let tail_start := min (max c_idx 1) (length h) in
  match h with
  | t :: _ => if is_role r_system t then with_content t (tu_content t ++ summary_block text)
              else plain_turn r_system (summary_block text) now
  | [] => plain_turn r_system (summary_block text) now
  end :: drop tail_start h.

Definition fold_result (t : ConversationTurn) : ConversationTurn :=
  if is_role r_tool t then with_content t (model_facing_content t) else t.

Definition project_history_for_request (h : History) (summary : option (str * nat)) (now : str) : History :=
  let turns := match summary with
               | Some (text, covers_up_to) => fold_summary text covers_up_to now h
               | None => h
               end in
  repair_tool_message_pairs (fold_result <$> turns).

(** ** The boundary of a summary *)

(** Backed off as long as the tail would begin with a result. *)
Fixpoint tool_safe_boundary (h : History) (new_c : nat) : nat :=
  match new_c with
  | O => O
  | S c => match h !! new_c with
           | Some t => if is_role r_tool t then tool_safe_boundary h c else new_c
           | None => new_c
           end
  end.

(** The least start of a tail whose estimate stays within the budget; the last message
    is kept whatever its size. *)
Fixpoint budget_boundary_from (estimate : ConversationTurn → nat) (rev_h : History) (first : bool) (acc budget : nat) : nat :=
  match rev_h with
  | [] => 0
  | t :: rest =>
      let tokens := estimate t in
      if (budget <? acc + tokens)%nat && negb first then length rev_h
      else budget_boundary_from estimate rest false (acc + tokens) budget
  end.

Definition token_budget_boundary (estimate : ConversationTurn → nat) (h : History) (budget_tokens : nat) : nat :=
  budget_boundary_from estimate (rev h) true 0 budget_tokens.

(** ** What is paired *)

Definition non_tool (t : ConversationTurn) : bool := negb (is_role r_tool t).

(** Every tool message answers a call made before it. *)
Fixpoint backed_by (seen : gset str) (h : History) : Prop :=
  match h with
  | [] => True
  | t :: h =>
      (is_role r_tool t = true → ∃ id, tu_tool_call_id t = Some id ∧ id ∈ seen) ∧
      backed_by (seen ∪ list_to_set (call_ids t)) h
  end.

Definition Backed (h : History) : Prop := backed_by ∅ h.

(** Every call is answered after it. *)
Fixpoint Answered (h : History) : Prop :=
  match h with
  | [] => True
  | a :: h => (∀ id, id ∈ call_ids a → ∃ t, t ∈ h ∧ tool_id t = Some id) ∧ Answered h
  end.

(** No call is answered twice. *)
Definition results_of (h : History) : list str := omap tool_id h.

Definition OneResult (h : History) : Prop := NoDup (results_of h).

Definition all_calls (h : History) : list str := h ≫= call_ids.

Lemma tool_id_Some t id : tool_id t = Some id ↔ is_role r_tool t = true ∧ tu_tool_call_id t = Some id.
Proof. unfold tool_id. destruct (is_role r_tool t); naive_solver. Qed.

Lemma tool_no_calls t : is_role r_tool t = true → call_ids t = [].
Proof. unfold call_ids, is_role. case_bool_decide as E; [|done]. intros _. by rewrite E. Qed.

Definition answered_in (h : History) (id : str) : bool := existsb (λ t, bool_decide (tool_id t = Some id)) h.

Lemma answered_in_true h id : answered_in h id = true ↔ ∃ t, t ∈ h ∧ tool_id t = Some id.
Proof.
  unfold answered_in. rewrite existsb_exists. split; intros (t & Ht & Hid); exists t;
    (split; [by apply list_elem_of_In|by apply bool_decide_eq_true in Hid || apply bool_decide_eq_true]).
Qed.

Lemma elem_of_omap_tool (h : History) id : id ∈ (omap tool_id h : list str) ↔ ∃ t, t ∈ h ∧ tool_id t = Some id.
Proof. rewrite list_elem_of_omap. naive_solver. Qed.

Lemma missing_eq a rest : missing_results a rest =
  if is_role r_assistant a then
    unknown_result a <$> List.filter (λ tc, negb (answered_in rest (tc_id tc))) (tu_tool_calls a)
  else [].
Proof.
  unfold missing_results, call_ids. destruct (is_role r_assistant a); [|done].
  set (calls := tu_tool_calls a). destruct (tc_id <$> calls) as [|i l] eqn:E.
  { subst calls. by destruct (tu_tool_calls a). }
  rewrite <- E. clear i l E. set (found := list_to_set _ : gset str).
  assert (∀ tc, tc ∈ calls → bool_decide (tc_id tc ∈ found) = answered_in rest (tc_id tc)) as Hf.
  { intros tc Htc. apply eq_true_iff_eq. rewrite bool_decide_eq_true, answered_in_true. subst found.
    rewrite elem_of_list_to_set, list_elem_of_In, filter_In, <- list_elem_of_In, elem_of_omap_tool, bool_decide_eq_true.
    split; [by intros [? _]|]. intros Ht. split; [done|]. by apply list_elem_of_fmap_2. }
  assert (List.filter (λ tc, negb (bool_decide (tc_id tc ∈ found))) calls
    = List.filter (λ tc, negb (answered_in rest (tc_id tc))) calls) as ->.
  { apply filter_ext_in. intros tc Htc. f_equal. apply Hf. by apply list_elem_of_In. }
  destruct (Nat.ltb_spec (size found) (length (tc_id <$> calls))) as [|Hge]; [done|].
  assert (List.filter (λ tc, negb (answered_in rest (tc_id tc))) calls = []) as ->; [|done].
  destruct (List.filter _ calls) as [|tc g] eqn:Eg; [done|]. exfalso.
  assert (In tc (List.filter (λ tc, negb (answered_in rest (tc_id tc))) calls)) as Hin by (rewrite Eg; by left).
  apply filter_In in Hin as [Hin Hna]. apply list_elem_of_In in Hin.
  assert (size (found ∪ {[ tc_id tc ]}) ≤ length (tc_id <$> calls))%nat as Hs.
  { unfold size, set_size. cbn. apply submseteq_length, NoDup_submseteq; [apply NoDup_elements|].
    intros x. rewrite elem_of_elements, elem_of_union, elem_of_singleton. intros [Hx| ->]; [|by apply list_elem_of_fmap_2].
    subst found. rewrite elem_of_list_to_set, list_elem_of_In, filter_In, bool_decide_eq_true in Hx. apply Hx. }
  rewrite size_union, size_singleton in Hs; [lia|]. apply disjoint_singleton_r. intros Hx.
  apply negb_true_iff in Hna. rewrite <- (Hf _ Hin), bool_decide_true in Hna; done.
Qed.

Lemma missing_elem a rest x : x ∈ missing_results a rest ↔
  is_role r_assistant a = true ∧ ∃ tc, tc ∈ tu_tool_calls a ∧ x = unknown_result a tc ∧
    ∀ t, t ∈ rest → tool_id t ≠ Some (tc_id tc).
Proof.
  rewrite missing_eq. destruct (is_role r_assistant a); [|split; [by intros ?%elem_of_nil|by intros [? _]]].
  rewrite list_elem_of_fmap. split.
  - intros (tc & -> & [Hin Hna]%list_elem_of_In%filter_In). split; [done|]. exists tc. split_and!; [by apply list_elem_of_In|done|].
    intros t Ht Hid. apply negb_true_iff, not_true_iff_false in Hna. apply Hna, answered_in_true. by exists t.
  - intros [_ (tc & Hin & -> & Hna)]. exists tc. split; [done|]. apply list_elem_of_In, filter_In. split; [by apply list_elem_of_In|].
    apply negb_true_iff, not_true_iff_false. intros (t & Ht & Hid)%answered_in_true. by apply (Hna t).
Qed.

Lemma repair_fill h : repair_tool_message_pairs h = fill_in missing_results (retain_answers ∅ (keep_last_results h)).
Proof. unfold repair_tool_message_pairs. apply (apply_collected missing_results [] _). Qed.

(** ** What the passes keep *)

Lemma keep_last_sub h : keep_last_results h `sublist_of` h.
Proof.
  induction h as [|t h IH]; [done|]. cbn [keep_last_results]. destruct (tool_id t); [destruct (existsb _ h)|]; by constructor.
Qed.

Lemma retain_sub seen h : retain_answers seen h `sublist_of` h.
Proof. revert seen. induction h as [|t h IH]; intros seen; [done|]. cbn [retain_answers]. destruct (if is_role _ _ then _ else _); by constructor. Qed.

Lemma filter_tool t l : is_role r_tool t = true → List.filter non_tool (t :: l) = List.filter non_tool l.
Proof. intros Er. cbn [List.filter]. unfold non_tool at 1. by rewrite Er. Qed.

Lemma filter_other t l : is_role r_tool t = false → List.filter non_tool (t :: l) = t :: List.filter non_tool l.
Proof. intros Er. cbn [List.filter]. unfold non_tool at 1. by rewrite Er. Qed.

Lemma keep_last_non_tool h : List.filter non_tool (keep_last_results h) = List.filter non_tool h.
Proof.
  induction h as [|t h IH]; [done|]. cbn [keep_last_results]. unfold tool_id. destruct (is_role r_tool t) eqn:Er.
  - rewrite filter_tool by done. destruct (tu_tool_call_id t); [destruct (existsb _ h)|]; by rewrite ?filter_tool.
  - rewrite !filter_other by done. by rewrite IH.
Qed.

Lemma retain_non_tool seen h : List.filter non_tool (retain_answers seen h) = List.filter non_tool h.
Proof.
  revert seen. induction h as [|t h IH]; intros seen; [done|]. cbn [retain_answers]. destruct (is_role r_tool t) eqn:Er.
  - rewrite filter_tool by done. destruct (match tu_tool_call_id t with Some _ => _ | None => _ end); by rewrite ?filter_tool.
  - rewrite !filter_other by done. by rewrite IH.
Qed.

Lemma missing_tools a rest : Forall (λ t, is_role r_tool t = true) (missing_results a rest).
Proof. apply Forall_forall. intros x (_ & tc & _ & -> & _)%missing_elem. done. Qed.

Lemma tools_filtered l : Forall (λ t, is_role r_tool t = true) l → List.filter non_tool l = [].
Proof. induction 1 as [|t l Ht _ IH]; [done|]. by rewrite filter_tool. Qed.

Lemma fill_non_tool h : List.filter non_tool (fill_in missing_results h) = List.filter non_tool h.
Proof.
  induction h as [|a h IH]; [done|]. cbn [fill_in]. destruct (is_role r_tool a) eqn:Er.
  - rewrite !filter_tool by done. by rewrite List.filter_app, IH, (tools_filtered _ (missing_tools a h)).
  - rewrite !filter_other by done. by rewrite List.filter_app, IH, (tools_filtered _ (missing_tools a h)).
Qed.

Lemma calls_non_tool h : all_calls h = all_calls (List.filter non_tool h).
Proof.
  unfold all_calls. induction h as [|t h IH]; [done|]. destruct (is_role r_tool t) eqn:Er.
  - rewrite filter_tool by done. cbn [mbind list_bind]. by rewrite (tool_no_calls _ Er).
  - rewrite filter_other by done. cbn [mbind list_bind]. by f_equal.
Qed.

Lemma kept_calls h : all_calls (retain_answers ∅ (keep_last_results h)) = all_calls h.
Proof. by rewrite calls_non_tool, retain_non_tool, keep_last_non_tool, <- calls_non_tool. Qed.

Lemma elem_of_fill h t : t ∈ h → t ∈ fill_in missing_results h.
Proof.
  induction h as [|a h IH]; [done|]. cbn [fill_in]. intros [->|Ht]%elem_of_cons; [constructor|]. constructor.
  apply elem_of_app. right. by apply IH.
Qed.

(** ** What they establish *)

Lemma retain_backed seen h : backed_by seen (retain_answers seen h).
Proof.
  revert seen. induction h as [|t h IH]; intros seen; [done|]. cbn [retain_answers].
  destruct (is_role r_tool t) eqn:Er.
  - rewrite (tool_no_calls _ Er). replace (seen ∪ list_to_set []) with seen by set_solver.
    destruct (tu_tool_call_id t) as [id|] eqn:Ei; [|apply IH]. case_bool_decide; [|apply IH]. cbn [backed_by].
    rewrite (tool_no_calls _ Er). replace (seen ∪ list_to_set []) with seen by set_solver. split; [eauto|apply IH].
  - cbn [backed_by]. split; [by rewrite Er|apply IH].
Qed.

Lemma backed_tools seen l h :
  Forall (λ t, is_role r_tool t = true ∧ ∃ id, tu_tool_call_id t = Some id ∧ id ∈ seen) l → backed_by seen h →
  backed_by seen (l ++ h).
Proof.
  intros Hl Hh. induction Hl as [|t l (Ht & Hid) _ IH]; [done|]. cbn [app backed_by]. split; [done|].
  rewrite (tool_no_calls _ Ht). by replace (seen ∪ list_to_set []) with seen by set_solver.
Qed.

Lemma fill_backed seen h : backed_by seen h → backed_by seen (fill_in missing_results h).
Proof.
  revert seen. induction h as [|a h IH]; intros seen; [done|]. cbn [fill_in backed_by]. intros [Ha Hh]. split; [done|].
  apply backed_tools; [|by apply IH]. apply Forall_forall. intros x (Hr & tc & Htc & -> & _)%missing_elem. split; [done|].
  exists (tc_id tc). split; [done|]. apply elem_of_union_r, elem_of_list_to_set. unfold call_ids. rewrite Hr.
  by apply list_elem_of_fmap_2.
Qed.

Lemma answered_tools l h : Forall (λ t, is_role r_tool t = true) l → Answered h → Answered (l ++ h).
Proof.
  intros Hl Hh. induction Hl as [|t l Ht _ IH]; [done|]. cbn [app Answered]. split; [|done].
  rewrite (tool_no_calls _ Ht). by intros id ?%elem_of_nil.
Qed.

Lemma fill_answered h : Answered (fill_in missing_results h).
Proof.
  induction h as [|a h IH]; [done|]. cbn [fill_in Answered]. split; [|apply answered_tools; [apply missing_tools|done]].
  intros id Hid. destruct (answered_in h id) eqn:E.
  - apply answered_in_true in E as (t & Ht & Hi). exists t. split; [|done]. apply elem_of_app. right. by apply elem_of_fill.
  - unfold call_ids in Hid. destruct (is_role r_assistant a) eqn:Er; [|by apply elem_of_nil in Hid].
    apply list_elem_of_fmap in Hid as (tc & -> & Htc). exists (unknown_result a tc). split; [|done]. apply elem_of_app. left.
    apply missing_elem. split; [done|]. exists tc. split_and!; [done..|]. intros t Ht Hi.
    rewrite <- not_true_iff_false in E. apply E, answered_in_true. eauto.
Qed.

Lemma results_cons t h : results_of (t :: h) = option_list (tool_id t) ++ results_of h.
Proof. unfold results_of. cbn. by destruct (tool_id t). Qed.

Lemma results_app a b : results_of (a ++ b) = results_of a ++ results_of b.
Proof. apply omap_app. Qed.

Lemma keep_last_one h : OneResult (keep_last_results h).
Proof.
  unfold OneResult. induction h as [|t h IH]; [constructor|]. cbn [keep_last_results].
  destruct (tool_id t) as [id|] eqn:E; [|by rewrite results_cons, E]. destruct (existsb _ h) eqn:Ex; [done|].
  rewrite results_cons, E. cbn [option_list app]. constructor; [|done].
  intros (t' & Ht & Hid)%elem_of_omap_tool. rewrite <- not_true_iff_false in Ex. apply Ex, answered_in_true. exists t'.
  split; [|done]. eapply elem_of_sublist; [done|apply keep_last_sub].
Qed.

Lemma sublist_results h h' : h `sublist_of` h' → results_of h `sublist_of` results_of h'.
Proof. unfold results_of. induction 1 as [|t h h' _ IH|t h h' _ IH]; [done|..]; cbn; destruct (tool_id t); (done || by constructor). Qed.

Lemma results_missing a rest : results_of (missing_results a rest) `sublist_of` call_ids a.
Proof.
  rewrite missing_eq. unfold call_ids. destruct (is_role r_assistant a); [|apply sublist_nil_l].
  induction (tu_tool_calls a) as [|tc l IH]; [done|]. cbn [List.filter]. destruct (negb _); cbn [fmap list_fmap].
  - rewrite results_cons. cbn. by constructor.
  - by constructor.
Qed.

(** Where no id is used for two calls, no call gets two results. *)
Lemma fill_one seen h : backed_by seen h → OneResult h → NoDup (all_calls h) → (∀ id, id ∈ seen → id ∉ all_calls h) →
  OneResult (fill_in missing_results h) ∧
  ∀ id, id ∈ results_of (fill_in missing_results h) → id ∈ results_of h ∨ id ∈ all_calls h.
Proof.
  unfold OneResult. revert seen. induction h as [|a h IH]; intros seen; [split; [constructor|by left]|].
  cbn [backed_by fill_in]. change (all_calls (a :: h)) with (call_ids a ++ all_calls h). rewrite !results_cons, results_app.
  intros [Ha Hh] Hone [Hca [Hdis Hch]]%NoDup_app Hseen.
  apply NoDup_app in Hone as (Hta & Hth & Hone).
  destruct (IH _ Hh Hone Hch) as [IH1 IH2].
  { intros id [Hid|Hid%elem_of_list_to_set]%elem_of_union; [|by apply Hdis].
    intros Hc. apply (Hseen id Hid). apply elem_of_app. by right. }
  split.
  - apply NoDup_app. split_and!; [done| |].
    + intros id Hid [Hm|Hf]%elem_of_app.
      * destruct (tool_id a) as [ida|] eqn:E; [|by apply elem_of_nil in Hid]. apply tool_id_Some in E as [Er _].
        eapply elem_of_sublist in Hm; [|apply results_missing]. rewrite (tool_no_calls _ Er) in Hm. by apply elem_of_nil in Hm.
      * destruct (tool_id a) as [ida|] eqn:E; [|by apply elem_of_nil in Hid]. apply list_elem_of_singleton in Hid as ->.
        apply IH2 in Hf as [Hf|Hf]; [by apply (Hth ida); [constructor|]|].
        apply tool_id_Some in E as [Er Ei]. destruct (Ha Er) as (id & Hid & Hs). rewrite Ei in Hid. injection Hid as <-.
        apply (Hseen ida Hs). apply elem_of_app. by right.
    + apply NoDup_app. split_and!; [by eapply sublist_NoDup; [|apply results_missing]| |done].
      intros id Hm Hf. apply elem_of_omap_tool in Hm as (x & Hx & Hid).
      apply missing_elem in Hx as (Hr & tc & Htc & -> & Hna). cbn in Hid. injection Hid as <-.
      apply IH2 in Hf as [(t & Ht & Hi)%elem_of_omap_tool|Hf]; [by apply (Hna t)|].
      apply (Hdis (tc_id tc)); [|done]. unfold call_ids. rewrite Hr. by apply list_elem_of_fmap_2.
  - intros id. rewrite !elem_of_app. intros [Hid|[Hid|Hid]]; [auto| |destruct (IH2 _ Hid); auto].
    right. left. eapply elem_of_sublist; [done|apply results_missing].
Qed.

(** ** What is paired stays as it is *)

Lemma keep_last_same h : OneResult h → keep_last_results h = h.
Proof.
  unfold OneResult. induction h as [|t h IH]; [done|]. cbn [keep_last_results]. rewrite results_cons.
  intros (_ & Hd & Hn)%NoDup_app. rewrite (IH Hn). destruct (tool_id t) as [id|]; [|done].
  destruct (existsb _ h) eqn:E; [|done]. apply answered_in_true in E. exfalso.
  apply (Hd id); [by constructor|]. by apply elem_of_omap_tool.
Qed.

Lemma retain_same seen h : backed_by seen h → retain_answers seen h = h.
Proof.
  revert seen. induction h as [|t h IH]; intros seen; [done|]. cbn [backed_by retain_answers]. intros [Ht Hh].
  rewrite (IH _ Hh). destruct (is_role r_tool t); [|done]. destruct Ht as (id & -> & Hid); [done|]. by rewrite bool_decide_true.
Qed.

Lemma fill_same h : Answered h → fill_in missing_results h = h.
Proof.
  induction h as [|a h IH]; [done|]. cbn [Answered fill_in]. intros [Ha Hh]. rewrite (IH Hh).
  destruct (missing_results a h) as [|x l] eqn:E; [done|]. exfalso.
  assert (x ∈ missing_results a h) as Hx by (rewrite E; constructor). apply missing_elem in Hx as (Hr & tc & Htc & _ & Hna).
  destruct (Ha (tc_id tc)) as (t & Ht & Hid); [|by apply (Hna t)]. unfold call_ids. rewrite Hr. by apply list_elem_of_fmap_2.
Qed.

Lemma repair_paired h : OneResult h → Backed h → Answered h → repair_tool_message_pairs h = h.
Proof. intros Ho Hb Ha. rewrite repair_fill, keep_last_same, retain_same, fill_same; done. Qed.

(** ** Nothing is lost or made up *)

Lemma keep_last_app pre x : ∃ pre', keep_last_results (pre ++ x) = pre' ++ keep_last_results x ∧
  List.filter non_tool pre' = List.filter non_tool pre.
Proof.
  induction pre as [|t pre (pre' & He & Hf)]; [by exists []|]. cbn [app keep_last_results].
  destruct (tool_id t) as [id|] eqn:E.
  - apply tool_id_Some in E as [Er _]. rewrite (filter_tool t) by done. destruct (existsb _ _); [by exists pre'|].
    exists (t :: pre'). by rewrite filter_tool, He.
  - exists (t :: pre'). rewrite He. split; [done|]. destruct (is_role r_tool t) eqn:Er; [by rewrite !filter_tool|].
    rewrite !filter_other by done. by rewrite Hf.
Qed.

Lemma retain_app seen a b : retain_answers seen (a ++ b)
  = retain_answers seen a ++ retain_answers (seen ∪ list_to_set (all_calls a)) b.
Proof.
  revert seen. induction a as [|t a IH]; intros seen; cbn [app retain_answers].
  - f_equal. set_solver.
  - rewrite IH. replace (seen ∪ list_to_set (call_ids t) ∪ list_to_set (all_calls a))
      with (seen ∪ list_to_set (all_calls (t :: a)) : gset str); [by destruct (if is_role _ _ then _ else _)|].
    unfold all_calls. cbn [mbind list_bind]. rewrite list_to_set_app_L. set_solver.
Qed.

(** The last result of a call that is made before it is kept. *)
Lemma result_kept pre t post id :
  tool_id t = Some id → (∀ t', t' ∈ post → tool_id t' ≠ Some id) → id ∈ all_calls pre →
  t ∈ repair_tool_message_pairs (pre ++ t :: post).
Proof.
  intros Hid Hlast Hcall. rewrite repair_fill. apply elem_of_fill. destruct (keep_last_app pre (t :: post)) as (pre' & -> & Hf).
  cbn [keep_last_results]. rewrite Hid. destruct (existsb _ post) eqn:E.
  { apply answered_in_true in E as (t' & Ht' & Hid'). by destruct (Hlast t'). }
  rewrite retain_app. apply elem_of_app. right. cbn [retain_answers]. apply tool_id_Some in Hid as [-> ->].
  rewrite bool_decide_true; [constructor|]. apply elem_of_union_r, elem_of_list_to_set.
  by rewrite calls_non_tool, Hf, <- calls_non_tool.
Qed.

Lemma keep_last_answered h id : answered_in h id = true → answered_in (keep_last_results h) id = true.
Proof.
  rewrite !answered_in_true. induction h as [|t h IH]; [by intros (? & ?%elem_of_nil & _)|].
  cbn [keep_last_results]. intros (t' & Hin & Hid). destruct (answered_in h id) eqn:Ea.
  - apply answered_in_true, IH in Ea as (t2 & Ht2 & Hid2). exists t2. split; [|done].
    destruct (tool_id t); [destruct (existsb _ h)|]; by try constructor.
  - apply elem_of_cons in Hin as [->|Hin].
    + rewrite Hid. unfold answered_in in Ea. rewrite Ea. exists t. split; [constructor|done].
    + rewrite <- not_true_iff_false in Ea. destruct Ea. apply answered_in_true. eauto.
Qed.

Lemma retain_answered seen h id : id ∈ seen → answered_in h id = true → answered_in (retain_answers seen h) id = true.
Proof.
  rewrite !answered_in_true. revert seen. induction h as [|t h IH]; intros seen Hs; [by intros (? & ?%elem_of_nil & _)|].
  intros (t' & [->|Hin]%elem_of_cons & Hid); cbn [retain_answers].
  - apply tool_id_Some in Hid as [Hr Hi]. rewrite Hr, Hi, bool_decide_true by done. exists t.
    split; [constructor|by apply tool_id_Some].
  - destruct (IH (seen ∪ list_to_set (call_ids t))) as (t2 & Ht2 & Hid2); [set_solver|eauto|]. exists t2. split; [|done].
    destruct (if is_role _ _ then _ else _); [by constructor|done].
Qed.

(** What the repair adds says of a call that no result follows that its outcome is unknown. *)
Lemma repair_origin seen h t : t ∈ fill_in missing_results (retain_answers seen (keep_last_results h)) →
  t ∈ h ∨ ∃ pre a post tc, h = pre ++ a :: post ∧ is_role r_assistant a = true ∧ tc ∈ tu_tool_calls a ∧
    t = unknown_result a tc ∧ ∀ t', t' ∈ post → tool_id t' ≠ Some (tc_id tc).
Proof.
  revert seen. induction h as [|t0 h IH]; intros seen; [by intros ?%elem_of_nil|]. cbn [keep_last_results].
  assert (∀ seen, t ∈ fill_in missing_results (retain_answers seen (keep_last_results h)) →
    t ∈ t0 :: h ∨ ∃ pre a post tc, t0 :: h = pre ++ a :: post ∧ is_role r_assistant a = true ∧ tc ∈ tu_tool_calls a ∧
      t = unknown_result a tc ∧ ∀ t', t' ∈ post → tool_id t' ≠ Some (tc_id tc)) as Hrest.
  { intros seen' [Ht|(pre & a & post & tc & -> & Hx)]%IH; [left; by constructor|]. right. by exists (t0 :: pre), a, post, tc. }
  assert (∀ seen, t ∈ fill_in missing_results (t0 :: retain_answers (seen ∪ list_to_set (call_ids t0)) (keep_last_results h)) →
    t ∈ t0 :: h ∨ ∃ pre a post tc, t0 :: h = pre ++ a :: post ∧ is_role r_assistant a = true ∧ tc ∈ tu_tool_calls a ∧
      t = unknown_result a tc ∧ ∀ t', t' ∈ post → tool_id t' ≠ Some (tc_id tc)) as Hkept.
  { intros seen'. cbn [fill_in]. intros [->|[Hm|Hf]%elem_of_app]%elem_of_cons; [left; constructor| |by eapply Hrest].
    apply missing_elem in Hm as (Hr & tc & Htc & -> & Hna). right. exists [], t0, h, tc. split_and!; [done..|].
    intros t' Ht' Hid. assert (answered_in (retain_answers (seen' ∪ list_to_set (call_ids t0)) (keep_last_results h)) (tc_id tc) = true)
      as (t2 & Ht2 & Hid2)%answered_in_true; [|by apply (Hna t2)].
    apply retain_answered.
    - apply elem_of_union_r, elem_of_list_to_set. unfold call_ids. rewrite Hr. by apply list_elem_of_fmap_2.
    - apply keep_last_answered, answered_in_true. eauto. }
  assert (t ∈ fill_in missing_results (retain_answers seen (t0 :: keep_last_results h)) →
    t ∈ t0 :: h ∨ ∃ pre a post tc, t0 :: h = pre ++ a :: post ∧ is_role r_assistant a = true ∧ tc ∈ tu_tool_calls a ∧
      t = unknown_result a tc ∧ ∀ t', t' ∈ post → tool_id t' ≠ Some (tc_id tc)) as Hcons.
  { cbn [retain_answers]. destruct (if is_role _ _ then _ else _); [apply Hkept|apply Hrest]. }
  destruct (tool_id t0) as [id|]; [|done]. destruct (existsb _ h); [apply Hrest|done].
Qed.

(** C31: whatever the history, after the repair every result stands behind the call it
    answers and every call is answered behind it; where no id is used for two calls no
    call has two results.  Everything but the results is left as it was; the last result
    of a call that was made before it is kept; and what is added states of a call that no
    result follows that its outcome is unknown.  A history that is paired is left alone. *)
Theorem repair_pairs h (r := repair_tool_message_pairs h) :
  (Backed r ∧ Answered r ∧ (NoDup (all_calls h) → OneResult r)) ∧
  List.filter non_tool r = List.filter non_tool h ∧
  (∀ pre t post id, h = pre ++ t :: post → tool_id t = Some id →
    (∀ t', t' ∈ post → tool_id t' ≠ Some id) → id ∈ all_calls pre → t ∈ r) ∧
  (∀ t, t ∈ r → t ∈ h ∨ ∃ pre a post tc, h = pre ++ a :: post ∧ is_role r_assistant a = true ∧ tc ∈ tu_tool_calls a ∧
    t = unknown_result a tc ∧ ∀ t', t' ∈ post → tool_id t' ≠ Some (tc_id tc)) ∧
  (OneResult h → Backed h → Answered h → r = h).
Proof.
  subst r. split_and!.
  - rewrite repair_fill. apply fill_backed, retain_backed.
  - rewrite repair_fill. apply fill_answered.
  - intros Hn. rewrite repair_fill. apply (fill_one ∅).
    + apply retain_backed.
    + unfold OneResult. eapply sublist_NoDup; [apply (keep_last_one h)|apply sublist_results, retain_sub].
    + by rewrite kept_calls.
    + by intros id ?%elem_of_empty.
  - by rewrite repair_fill, fill_non_tool, retain_non_tool, keep_last_non_tool.
  - intros pre t post id ->. apply result_kept.
  - intros t. rewrite repair_fill. apply repair_origin.
  - apply repair_paired.
Qed.

(** ** The projection *)

Lemma fold_result_role role t : is_role role (fold_result t) = is_role role t.
Proof. unfold fold_result. by destruct (is_role r_tool t). Qed.

Lemma fold_result_other t : is_role r_tool t = false → fold_result t = t.
Proof. unfold fold_result. by intros ->. Qed.

Lemma fold_result_id t : tool_id (fold_result t) = tool_id t.
Proof. unfold tool_id. rewrite fold_result_role. unfold fold_result. by destruct (is_role r_tool t) eqn:E. Qed.

Lemma fold_result_calls t : call_ids (fold_result t) = call_ids t.
Proof. unfold call_ids. rewrite fold_result_role. unfold fold_result. by destruct (is_role r_tool t). Qed.

Lemma folded_non_tool h : List.filter non_tool (fold_result <$> h) = List.filter non_tool h.
Proof.
  induction h as [|t h IH]; [done|]. cbn [fmap list_fmap]. destruct (is_role r_tool t) eqn:E.
  - by rewrite !filter_tool by (by rewrite ?fold_result_role).
  - rewrite !filter_other by (by rewrite ?fold_result_role). by rewrite fold_result_other, IH.
Qed.

Lemma folded_backed seen h : backed_by seen (fold_result <$> h) ↔ backed_by seen h.
Proof.
  revert seen. induction h as [|t h IH]; intros seen; [done|]. cbn [fmap list_fmap backed_by].
  rewrite fold_result_role, fold_result_calls. fold (fold_result <$> h). rewrite IH. unfold fold_result.
  by destruct (is_role r_tool t).
Qed.

Lemma folded_results h : results_of (fold_result <$> h) = results_of h.
Proof. induction h as [|t h IH]; [done|]. cbn [fmap list_fmap]. by rewrite !results_cons, fold_result_id, <- IH. Qed.

Lemma folded_answered h : Answered (fold_result <$> h) ↔ Answered h.
Proof.
  induction h as [|t h IH]; [done|]. cbn [fmap list_fmap Answered]. rewrite fold_result_calls. fold (fold_result <$> h).
  rewrite IH. assert (∀ id, (∃ x, x ∈ fold_result <$> h ∧ tool_id x = Some id) ↔ ∃ x, x ∈ h ∧ tool_id x = Some id) as Hex.
  { intros id. rewrite <- !elem_of_omap_tool. fold (results_of (fold_result <$> h)) (results_of h). by rewrite folded_results. }
  split; intros [Hc Ha]; (split; [|done]); intros id Hid; apply Hex; by apply Hc.
Qed.

(** Results stand right behind the message with their call. *)
Fixpoint contiguous (cur : list str) (h : History) : Prop :=
  match h with
  | [] => True
  | t :: h => if is_role r_tool t then (∃ id, tu_tool_call_id t = Some id ∧ id ∈ cur) ∧ contiguous cur h
              else contiguous (call_ids t) h
  end.

Definition Contiguous (h : History) : Prop := contiguous [] h.

Lemma contiguous_backed cur seen h : contiguous cur h → (∀ id, id ∈ cur → id ∈ seen) → backed_by seen h.
Proof.
  revert cur seen. induction h as [|t h IH]; intros cur seen; [done|]. cbn [contiguous backed_by].
  destruct (is_role r_tool t) eqn:E.
  - intros [(id & Hi & Hin) Hc] Hs. split; [eauto|]. apply (IH cur); [done|]. intros i Hi'. apply elem_of_union_l. by apply Hs.
  - intros Hc Hs. split; [done|]. apply (IH (call_ids t)); [done|]. intros i Hi. by apply elem_of_union_r, elem_of_list_to_set.
Qed.

Lemma contiguous_drop cur h n : contiguous cur h →
  match h !! n with Some t => is_role r_tool t = false | None => True end → contiguous [] (drop n h).
Proof.
  revert cur n. induction h as [|t h IH]; intros cur n; [by rewrite drop_nil|]. destruct n as [|n]; cbn [lookup list_lookup drop].
  - cbn [contiguous]. intros Hc E. by rewrite E in *.
  - cbn [contiguous]. destruct (is_role r_tool t); [intros [_ Hc]|intros Hc]; by eapply IH.
Qed.

(** The boundary is not in front of a result, unless it is the beginning. *)
Lemma boundary_spec h c : (tool_safe_boundary h c ≤ c)%nat ∧
  (tool_safe_boundary h c = 0%nat ∨
   match h !! tool_safe_boundary h c with Some t => is_role r_tool t = false | None => True end) ∧
  ∀ i, (tool_safe_boundary h c < i ≤ c)%nat → ∃ t, h !! i = Some t ∧ is_role r_tool t = true.
Proof.
  induction c as [|c (IH1 & IH2 & IH3)]; cbn [tool_safe_boundary]; [split_and!; [lia|by left|intros i; lia]|].
  destruct (h !! S c) as [t|] eqn:El; [|split_and!; [lia|right; by rewrite El|intros i; lia]].
  destruct (is_role r_tool t) eqn:Er; [|split_and!; [lia|right; by rewrite El|intros i; lia]].
  split_and!; [lia|done|]. intros i Hi. destruct (decide (i = S c)) as [->|]; [by exists t|]. apply IH3. lia.
Qed.

Lemma answered_drop h n : Answered h → Answered (drop n h).
Proof. revert n. induction h as [|t h IH]; intros [|n]; try done. intros [_ Ha]. by apply IH. Qed.

Lemma one_drop h n : OneResult h → OneResult (drop n h).
Proof. unfold OneResult. intros Hn. eapply sublist_NoDup; [exact Hn|apply sublist_results, sublist_drop]. Qed.

(** The message that carries the summary. *)
Definition summary_head (text now : str) (h : History) : ConversationTurn :=
  match h with
  | t :: _ => if is_role r_system t then with_content t (tu_content t ++ summary_block text)
              else plain_turn r_system (summary_block text) now
  | [] => plain_turn r_system (summary_block text) now
  end.

Lemma summary_head_system text now h : is_role r_system (summary_head text now h) = true.
Proof. unfold summary_head. destruct h as [|t h]; [done|]. by destruct (is_role r_system t) eqn:E. Qed.

Lemma system_inert t : is_role r_system t = true → tool_id t = None ∧ call_ids t = [] ∧ is_role r_tool t = false.
Proof. unfold tool_id, call_ids, is_role. case_bool_decide as E; [|done]. by rewrite E. Qed.

(** Also: a summary that covers a prefix of the history hides nothing else.  Where the
    results stand behind their calls, every call is answered and none twice, and the
    boundary has been backed off, the request is the summary with the turns from the
    boundary on, tool results in the form the model may see, and nothing is dropped or
    made up. *)
Theorem compaction_hides_the_prefix_only h c text now :
  Contiguous h → Answered h → OneResult h → (1 ≤ tool_safe_boundary h c)%nat → (c ≤ length h)%nat →
  project_history_for_request h (Some (text, tool_safe_boundary h c)) now
  = summary_head text now h :: (fold_result <$> drop (tool_safe_boundary h c) h).
Proof.
  intros Hc Ha Ho Hb Hl. destruct (boundary_spec h c) as (Hle & [|Hnt] & _); [lia|]. set (b := tool_safe_boundary h c) in *.
  unfold project_history_for_request, fold_summary. rewrite (Nat.min_l b) by lia. rewrite Nat.max_l by lia.
  rewrite Nat.min_l by lia. fold (summary_head text now h). cbn [fmap list_fmap].
  destruct (system_inert _ (summary_head_system text now h)) as (Hi & Hcalls & Hr). rewrite fold_result_other by done.
  fold (fold_result <$> drop b h). apply repair_paired.
  - unfold OneResult. rewrite results_cons, Hi, folded_results. by apply one_drop.
  - unfold Backed. cbn [backed_by]. split; [by rewrite Hr|]. rewrite Hcalls. apply folded_backed.
    apply (contiguous_backed []); [by eapply contiguous_drop|]. by intros id ?%elem_of_nil.
  - cbn [Answered]. rewrite Hcalls. split; [by intros id ?%elem_of_nil|]. by apply folded_answered, answered_drop.
Qed.

(** Also: whatever the history and the summary, a request is paired, and no message but
    results is dropped from the part that is sent. *)
Theorem request_is_paired h summary now (r := project_history_for_request h summary now) :
  Backed r ∧ Answered r ∧
  List.filter non_tool r = match summary with
                           | None => List.filter non_tool h
                           | Some (text, c) => summary_head text now h :: List.filter non_tool (drop (max c 1) h)
                           end.
Proof.
  destruct (repair_pairs (fold_result <$> match summary with Some (text, c) => fold_summary text c now h | None => h end))
    as ((Hb & Ha & _) & Hf & _). subst r. unfold project_history_for_request. cbv zeta. split_and!; [done..|]. etrans; [exact Hf|].
  rewrite folded_non_tool. destruct summary as [[text c]|]; [|done]. unfold fold_summary. fold (summary_head text now h).
  rewrite filter_other by apply system_inert, summary_head_system. do 2 f_equal.
  destruct (decide (max c 1 ≤ length h)%nat).
  - f_equal. lia.
  - rewrite !drop_ge by lia. done.
Qed.

(** ** The budget of the tail *)

Lemma budget_from_spec est l first acc budget (n := budget_boundary_from est l first acc budget) :
  (n ≤ length l)%nat ∧
  (first = false → (acc ≤ budget)%nat → (acc + sum_list_with est (take (length l - n) l) ≤ budget)%nat) ∧
  (first = true → l ≠ [] → (n < length l)%nat ∧
    (length l - n = 1 ∨ acc + sum_list_with est (take (length l - n) l) ≤ budget)%nat) ∧
  (first = false → ∀ t, l !! (length l - n)%nat = Some t → (budget < acc + sum_list_with est (take (S (length l - n)) l))%nat).
Proof.
  subst n. revert first acc. induction l as [|t l IH]; intros first acc; cbn [budget_boundary_from]; [cbn; split_and!; [lia|intros; lia|done|done]|].
  destruct (Nat.ltb_spec budget (acc + est t)) as [Hlt|Hge]; destruct first; cbn [andb negb].
  - destruct (IH false (acc + est t)%nat) as (Hn & _ & _ & Hm). split_and!; [cbn; lia|done| |done]. intros _ _.
    cbn [length]. split; [lia|]. left. destruct l as [|t' l']; [done|].
    cbn [budget_boundary_from andb negb]. destruct (Nat.ltb_spec budget (acc + est t + est t')); cbn [length andb negb]; lia.
  - cbn [length]. rewrite Nat.sub_diag. split_and!; [lia| |done|].
    + intros _ Ha. cbn. lia.
    + intros _ t' _. cbn. lia.
  - destruct (IH false (acc + est t)%nat) as (Hn & Hf & _ & _). split_and!; [cbn; lia|done| |done]. intros _ _.
    cbn [length]. rewrite Nat.sub_succ_l by lia. split; [lia|]. right. cbn [take sum_list_with foldr]. specialize (Hf eq_refl ltac:(lia)). cbn. lia.
  - destruct (IH false (acc + est t)%nat) as (Hn & Hf & _ & Hm). cbn [length]. rewrite Nat.sub_succ_l by lia. split_and!; [lia| |done|].
    + intros _ Ha. cbn [take]. specialize (Hf eq_refl ltac:(lia)). cbn. lia.
    + intros _ t' Hl. cbn in Hl. specialize (Hm eq_refl t' Hl). cbn [take] in *. cbn in *. lia.
Qed.

Lemma sum_list_rev (est : ConversationTurn → nat) l : sum_list_with est (rev l) = sum_list_with est l.
Proof. induction l as [|x l IH]; [done|]. cbn [rev]. rewrite sum_list_with_app, IH. cbn. lia. Qed.

Lemma take_rev_drop {A} (l : list A) n : (n ≤ length l)%nat → take (length l - n) (rev l) = rev (drop n l).
Proof. intros Hn. pose proof (skipn_rev n l) as H. pose proof (firstn_rev (length l - n) l) as H2. rewrite H2. f_equal. f_equal. lia. Qed.

(** Also: the tail that is kept has the last message, and it is within the budget unless it
    is that message alone. *)
Theorem budget_boundary_spec est h budget (b := token_budget_boundary est h budget) : h ≠ [] →
  (b < length h)%nat ∧ (length h - b = 1 ∨ sum_list_with est (drop b h) ≤ budget)%nat.
Proof.
  intros Hne. subst b. unfold token_budget_boundary.
  destruct (budget_from_spec est (rev h) true 0 budget) as (Hn & _ & Ht & _). rewrite length_rev in *.
  destruct (Ht eq_refl) as [Hlt Hs]; [by intros Hr; apply Hne; rewrite <- (rev_involutive h), Hr|]. split; [done|].
  destruct Hs as [Hs|Hs]; [by left|right]. by rewrite take_rev_drop, sum_list_rev in Hs by lia.
Qed.

(** ** Pruned results *)

Lemma pruned_length result tool hint p : prune_tool_result result tool hint = Some p →
  length p = (PRUNE_HEAD_CHARS + PRUNE_TAIL_CHARS
    + length (prune_marker tool (length result) (length result - PRUNE_HEAD_CHARS - PRUNE_TAIL_CHARS)
                (if hint then SUBAGENT_HINT_SUFFIX else [])))%nat.
Proof.
  unfold prune_tool_result. cbv zeta. destruct (Nat.leb_spec (length result) MAX_TOOL_RESULT_INLINE_CHARS) as [|Hgt]; [done|].
  intros <-%(inj Some). assert (PRUNE_HEAD_CHARS + PRUNE_TAIL_CHARS ≤ MAX_TOOL_RESULT_INLINE_CHARS)%nat as Hb.
  { apply Nat.leb_le. vm_compute. reflexivity. }
  rewrite !length_app, length_take, length_drop. lia.
Qed.

(** ** Interrupted calls (interrupt_replay.rs) *)

Record LlmMessage := mkMessage {
  lm_role : str;
  lm_content : str;
  lm_tool_calls : option (list ToolCallInfo);
  lm_tool_call_id : option str;
  lm_reasoning_content : option str;
  lm_images : list str;
}.

Definition INTERRUPTED_STATUS : str := lit "interrupted".
Definition INTERRUPTED_NOTE : str := ulit "进程中断，工具未完成，效果未知，请勿假设其效果".

Definition message_answers (id : str) (m : LlmMessage) : bool :=
  (lm_role m =? r_tool) && bool_decide (lm_tool_call_id m = Some id).

Section Interrupted.
Context `{JsonNumbers} `{!JsonCodec}.

Definition interrupted_tool_result_content (tool_call_id tool_name : str) : str :=
  lit "[" ++ TOOL_OUTCOME_UNKNOWN ++ lit "] "
  ++ json_to_string (VObject [(lit "note", VString INTERRUPTED_NOTE); (lit "status", VString INTERRUPTED_STATUS);
                              (lit "tool", VString tool_name); (lit "tool_call_id", VString tool_call_id)]).

Definition interrupted_message (tc : ToolCallInfo) : LlmMessage :=
  mkMessage r_tool (interrupted_tool_result_content (tc_id tc) (tc_name tc)) None (Some (tc_id tc)) None [].

Fixpoint pending_from (pending : list str) (messages : list LlmMessage) : list str :=
  match messages with
  | [] => pending
  | m :: rest =>
      pending_from
        (foldl (λ pending tc, if negb (existsb (message_answers (tc_id tc)) rest) && negb (bool_decide (tc_id tc ∈ pending))
                              then pending ++ [tc_id tc] else pending)
               pending (default [] (lm_tool_calls m)))
        rest
  end.

Definition find_pending_tool_calls (messages : list LlmMessage) : list str := pending_from [] messages.

Definition pending_calls (m : LlmMessage) (rest : list LlmMessage) : list ToolCallInfo :=
  List.filter (λ tc, negb (existsb (message_answers (tc_id tc)) rest)) (default [] (lm_tool_calls m)).

Fixpoint synthesized_ids (messages : list LlmMessage) : list str :=
  match messages with
  | [] => []
  | m :: rest => (tc_id <$> pending_calls m rest) ++ synthesized_ids rest
  end.

Definition interrupted_results (m : LlmMessage) (rest : list LlmMessage) : list LlmMessage :=
  interrupted_message <$> pending_calls m rest.

Definition synthesize_interrupted_results (messages : list LlmMessage) : list LlmMessage * list str :=
  (apply_insertions (collect_insertions interrupted_results 0 messages) messages, synthesized_ids messages).

Lemma synthesized_fill messages : fst (synthesize_interrupted_results messages) = fill_in interrupted_results messages.
Proof. apply (apply_collected interrupted_results [] messages). Qed.

Lemma message_elem_fill ms m : m ∈ ms → m ∈ fill_in interrupted_results ms.
Proof.
  induction ms as [|a ms IH]; [done|]. cbn [fill_in]. intros [->|Hm]%elem_of_cons; [constructor|]. constructor.
  apply elem_of_app. right. by apply IH.
Qed.

Lemma existsb_app_r {A} (f : A → bool) a b : existsb f b = true → existsb f (a ++ b) = true.
Proof. rewrite existsb_app. intros ->. by rewrite orb_true_r. Qed.

Lemma answered_fill id ms : existsb (message_answers id) ms = true → existsb (message_answers id) (fill_in interrupted_results ms) = true.
Proof.
  rewrite !existsb_exists. intros (m & Hm & Ha). exists m. split; [|done]. apply list_elem_of_In, message_elem_fill. by apply list_elem_of_In.
Qed.

(** No call is pending when each is answered behind its message. *)
Fixpoint none_pending (messages : list LlmMessage) : Prop :=
  match messages with
  | [] => True
  | m :: rest => (∀ tc, tc ∈ default [] (lm_tool_calls m) → existsb (message_answers (tc_id tc)) rest = true) ∧ none_pending rest
  end.

Lemma none_pending_app l rest : Forall (λ m, lm_tool_calls m = None) l → none_pending rest → none_pending (l ++ rest).
Proof.
  intros Hl Hr. induction Hl as [|m l Hm _ IH]; [done|]. cbn [app none_pending]. rewrite Hm. split; [by intros ? ?%elem_of_nil|done].
Qed.

Lemma none_pending_nil pending messages : none_pending messages → pending_from pending messages = pending.
Proof.
  revert pending. induction messages as [|m rest IH]; intros pending; [done|]. cbn [none_pending pending_from]. intros [Hm Hr].
  rewrite IH by done. revert pending. induction (default [] (lm_tool_calls m)) as [|tc l IHl]; intros pending; [done|].
  cbn [foldl]. rewrite (Hm tc) by constructor. cbn [negb andb]. apply IHl. intros tc' Htc'. apply Hm. by constructor.
Qed.

(** Also: after the synthesis no call of the messages is pending, the messages are there in
    their order, and what is added are results marked as interrupted. *)
Theorem nothing_pending messages (r := synthesize_interrupted_results messages) :
  find_pending_tool_calls (fst r) = [] ∧ messages `sublist_of` fst r ∧
  ∀ m, m ∈ fst r → m ∈ messages ∨ ∃ tc, m = interrupted_message tc ∧ tc_id tc ∈ snd r.
Proof.
  subst r. rewrite synthesized_fill. split_and!.
  - apply none_pending_nil. induction messages as [|m rest IH]; [done|]. cbn [fill_in none_pending]. split.
    + intros tc Htc. destruct (existsb (message_answers (tc_id tc)) rest) eqn:E.
      * by apply existsb_app_r, answered_fill.
      * rewrite existsb_app. apply orb_true_iff. left. apply existsb_exists. exists (interrupted_message tc). split.
        -- apply list_elem_of_In. apply list_elem_of_fmap_2. apply list_elem_of_In, filter_In. split; [by apply list_elem_of_In|]. by rewrite E.
        -- unfold message_answers. cbn. by rewrite !bool_decide_true.
    + apply none_pending_app; [|done]. apply Forall_fmap, Forall_forall. done.
  - induction messages as [|m rest IH]; [done|]. cbn [fill_in]. constructor. by apply sublist_inserts_l.
  - cbn [snd synthesize_interrupted_results]. induction messages as [|m rest IH]; [by intros ? ?%elem_of_nil|]. cbn [fill_in synthesized_ids].
    intros x [->|[Hx|Hx]%elem_of_app]%elem_of_cons; [left; constructor| |].
    + apply list_elem_of_fmap in Hx as (tc & -> & Htc). right. exists tc. split; [done|]. apply elem_of_app. left. by apply list_elem_of_fmap_2.
    + apply IH in Hx as [Hx|(tc & -> & Htc)]; [left; by constructor|]. right. exists tc. split; [done|]. apply elem_of_app. by right.
Qed.

(** [merge_real_tool_result] of loop_continuation.rs: the first message of the call is
    replaced where it is a placeholder. *)
Fixpoint merge_into (real : LlmMessage) (tool_call_id : str) (messages : list LlmMessage) : option (list LlmMessage) :=
  match messages with
  | [] => None
  | m :: rest =>
      if message_answers tool_call_id m then
        if starts_with (lit "[" ++ TOOL_OUTCOME_UNKNOWN ++ lit "]") (lm_content m) then Some (real :: rest) else Some (m :: rest)
      else cons m <$> merge_into real tool_call_id rest
  end.

Definition merge_real_tool_result (messages : list LlmMessage) (tool_call_id content : str) : list LlmMessage :=
  let real := mkMessage r_tool content None (Some tool_call_id) None [] in
  default (messages ++ [real]) (merge_into real tool_call_id messages).

(** Also: a second result for a call changes nothing once a first that is not marked
    unknown has come. *)
Theorem first_result_stays messages id content content' :
  starts_with (lit "[" ++ TOOL_OUTCOME_UNKNOWN ++ lit "]") content = false →
  merge_real_tool_result (merge_real_tool_result messages id content) id content' = merge_real_tool_result messages id content.
Proof.
  intros Hc. unfold merge_real_tool_result. set (real := mkMessage r_tool content _ _ _ _). set (real' := mkMessage r_tool content' _ _ _ _).
  assert (message_answers id real = true) as Ha by (unfold message_answers; cbn; by rewrite !bool_decide_true).
  assert (∀ l, merge_into real id l = None → merge_into real' id (l ++ [real]) = Some (l ++ [real])) as Hpush.
  { induction l as [|m l IH]; cbn [app merge_into].
    { rewrite Ha. change (lm_content real) with content. by rewrite Hc. }
    destruct (message_answers id m).
    - by destruct (starts_with _ (lm_content m)).
    - destruct (merge_into real id l); [done|]. intros _. by rewrite IH. }
  assert (∀ l l', merge_into real id l = Some l' → merge_into real' id l' = Some l') as Hin.
  { induction l as [|m l IH]; intros l'; cbn [merge_into]; [done|]. destruct (message_answers id m) eqn:Em.
    - destruct (starts_with _ (lm_content m)) eqn:Es; intros <-%(inj Some); cbn [merge_into]; [|by rewrite Em, Es].
      rewrite Ha. change (lm_content real) with content. by rewrite Hc.
    - destruct (merge_into real id l) as [l1|]; [|done]. intros [= <-]. cbn [merge_into]. rewrite Em. by rewrite (IH l1). }
  destruct (merge_into real id messages) as [l'|] eqn:E.
  - change (default (messages ++ [real]) (Some l')) with l'. by rewrite (Hin _ _ E).
  - change (default (messages ++ [real]) None) with (messages ++ [real]). by rewrite Hpush.
Qed.
End Interrupted.

(** The phases of a restored snapshot. *)
Inductive RestorePhase := Checkpoint | Restored | Confirmed.

#[export] Instance restore_phase_dec : EqDecision RestorePhase.
Proof. solve_decision. Defined.

Definition legal_transition (from to : RestorePhase) : bool :=
  match from, to with
  | Checkpoint, Restored | Restored, Confirmed | Checkpoint, Confirmed => true
  | _, _ => false
  end.

Definition phase_name (p : RestorePhase) : str :=
  lit match p with Checkpoint => "Checkpoint" | Restored => "Restored" | Confirmed => "Confirmed" end.

Definition validate_restore_transition (from to : RestorePhase) : result unit str :=
  if legal_transition from to then Ok tt
  else Err (ulit "非法快照恢复相位转移 " ++ phase_name from ++ ulit " → " ++ phase_name to
            ++ ulit "（合法链 checkpoint→restored→confirmed；仅未中断的存活快照允许 checkpoint→confirmed 直达）").

(** ** Runs *)

Section Runs.
Definition now0 : str := lit "t".
Definition call_turn (ids : list string) : ConversationTurn :=
  mkTurn r_assistant [] ((λ id, mkCall (lit id) (lit "read_file") (lit "{}")) <$> ids) None now0 None None None [].
Definition result_turn (id content : string) : ConversationTurn := tool_turn (lit id) (lit content) now0 (Some (lit "read_file")) None.

Definition demo_history : History :=
  [plain_turn r_system (lit "prompt") now0; plain_turn r_user (lit "q") now0; call_turn ["a"; "b"]; result_turn "a" "1";
   result_turn "b" "2"; plain_turn r_user (lit "next") now0; call_turn ["c"]; result_turn "c" "3"].

Fixpoint contiguous_b (cur : list str) (h : History) : bool :=
  match h with
  | [] => true
  | t :: h => if is_role r_tool t then
                match tu_tool_call_id t with Some id => bool_decide (id ∈ cur) | None => false end && contiguous_b cur h
              else contiguous_b (call_ids t) h
  end.

Lemma contiguous_b_sound cur h : contiguous_b cur h = true → contiguous cur h.
Proof.
  revert cur. induction h as [|t h IH]; intros cur; [done|]. cbn [contiguous contiguous_b]. destruct (is_role r_tool t); [|apply IH].
  intros [Hid Hh]%andb_true_iff. split; [|by apply IH]. destruct (tu_tool_call_id t) as [id|]; [|done].
  apply bool_decide_eq_true in Hid. by exists id.
Qed.

Fixpoint answered_b (h : History) : bool :=
  match h with
  | [] => true
  | a :: h => forallb (answered_in h) (call_ids a) && answered_b h
  end.

Lemma answered_b_sound h : answered_b h = true → Answered h.
Proof.
  induction h as [|a h IH]; [done|]. cbn [Answered answered_b]. intros [Ha Hh]%andb_true_iff. split; [|by apply IH].
  intros id Hid. rewrite forallb_forall in Ha. by apply answered_in_true, Ha, list_elem_of_In.
Qed.

(** The boundary asked for lies between a call and its results. *)
Lemma compaction_hides_the_prefix_only_witness :
  (Contiguous demo_history ∧ Answered demo_history ∧ OneResult demo_history ∧
   (1 ≤ tool_safe_boundary demo_history 4)%nat ∧ (4 ≤ length demo_history)%nat) ∧
  tool_safe_boundary demo_history 4 = 2%nat ∧
  project_history_for_request demo_history (Some (lit "s", tool_safe_boundary demo_history 4)) now0
  = summary_head (lit "s") now0 demo_history :: (fold_result <$> drop (tool_safe_boundary demo_history 4) demo_history).
Proof.
  assert (Contiguous demo_history) as H1.
  { unfold Contiguous. apply contiguous_b_sound. vm_compute. reflexivity. }
  assert (Answered demo_history) as H2 by (apply answered_b_sound; vm_compute; reflexivity).
  assert (OneResult demo_history) as H3 by (apply (bool_decide_unpack _); vm_compute; exact I).
  assert (1 ≤ tool_safe_boundary demo_history 4)%nat as H4 by (apply Nat.leb_le; vm_compute; reflexivity).
  assert (4 ≤ length demo_history)%nat as H5 by (apply Nat.leb_le; vm_compute; reflexivity).
  assert (tool_safe_boundary demo_history 4 = 2%nat) as H6 by (vm_compute; reflexivity).
  exact (conj (conj H1 (conj H2 (conj H3 (conj H4 H5))))
    (conj H6 (compaction_hides_the_prefix_only demo_history 4 (lit "s") now0 H1 H2 H3 H4 H5))).
Defined.

(** Observed: an id that is used for two calls costs the first its result.  Both calls are
    answered; the repair keeps the later result only, and the first call is followed by
    the next question. *)
Theorem reused_id_loses_a_result :
  let h := [call_turn ["call_0"]; result_turn "call_0" "first"; plain_turn r_user (lit "next") now0;
            call_turn ["call_0"]; result_turn "call_0" "second"] in
  repair_tool_message_pairs h
  = [call_turn ["call_0"]; plain_turn r_user (lit "next") now0; call_turn ["call_0"]; result_turn "call_0" "second"].
Proof. vm_compute. reflexivity. Qed.

(** Observed: unanswered calls with one id get one result each, so that the request has
    two for the id. *)
Theorem reused_id_answered_twice :
  results_of (repair_tool_message_pairs [call_turn ["call_0"]; call_turn ["call_0"]]) = [lit "call_0"; lit "call_0"].
Proof. vm_compute. reflexivity. Qed.
End Runs.
