(* ===== verification/EditTools.v ===== *)
(** * The tools that edit files (nemesis-agent/src/loop_tools.rs)

    [edit_file] and [multiedit]: their arguments, the fence of the workspace, how one
    replacement is decided (exactly, everywhere, or by the cascade of EditReplace.v), the
    batch that is applied in memory first, and the receipts (EditHint.v).  The files are a
    map from the components of real paths to texts; where a path leads, the operating
    system says.  A panic is [None]. *)
From stdpp Require Import strings.
From S2P Require Import Prelude RustStr Utils F64 Json HostPath ShellBleed EditReplace EditHint.
Local Open Scope nb_scope.

(** ** Data *)

Inductive FileChangeKind := FcCreate | FcModify | FcDelete.

Record FileChange := mkFileChange {
  fc_path : str;
  fc_kind : FileChangeKind;
}.

Record WorkspaceBoundary := mkBoundary {
  wb_root : str;
  wb_restrict : bool;
}.

Record MultiEditEntry := mkEntry {
  me_path : str;
  me_old_text : str;
  me_new_text : str;
  me_replace_all : bool;
}.

Record EditOutcome := mkOutcome {
  eo_new_content : str;
  eo_occurrences : nat;
  eo_cascade_level : option Level;
}.

#[local] Notation Files := (gmap (list str) str).

(** The operating system: the real path of what exists, and how reading what is no
    readable text and writing fail, with what a failed write leaves of the file; and the
    message of the JSON parser. *)
Record EditIo := mkEditIo {
  ei_canonicalize : list str → option (list str);
  ei_read_error : list str → str;
  ei_write : list str → option (str * option str);
  ei_json_error : str → str;
}.

(** ** The fence *)

Section Fence.
Variable io : EditIo.

Definition validate_workspace_path (path : str) (boundary : WorkspaceBoundary) : result str str :=
  let canonical := if path_is_absolute path then path else path_join (wb_root boundary) path in
  if negb (wb_restrict boundary) then Ok canonical
  else
    let resolved := canonicalize_for_compare (ei_canonicalize io) canonical in
    let ws := canonicalize_for_compare (ei_canonicalize io) (wb_root boundary) in
    if bool_decide (ws `prefix_of` resolved) then Ok canonical
    else Err (lit "access denied: path '" ++ path ++ lit "' is outside the workspace").

Definition resolve_tool_path (path : str) (boundary : option WorkspaceBoundary) : result str str :=
  match boundary with
  | Some b => validate_workspace_path path b
  | None => Ok path
  end.

(** Where a path leads. *)
Definition locate (path : str) : option (list str) := ei_canonicalize io (components path).
End Fence.

(** ** Arguments *)

Section Arguments.
Context `{JsonNumbers} `{!JsonCodec}.
Variable io : EditIo.

Definition required {A} (msg : str) (o : option A) : result A str :=
  match o with
  | Some x => Ok x
  | None => Err msg
  end.

Definition replace_all_of (v : Value) : bool := default false (json_get (lit "replace_all") v ≫= as_bool).

(** The three texts of an entry; [msg] is what is said of a missing field. *)
Definition entry_of (msg : string → str) (v : Value) : result MultiEditEntry str :=
  match required (msg "path"%string) (get_str (lit "path") v) with
  | Err e => Err e
  | Ok path =>
      match required (msg "old_text"%string) (get_str (lit "old_text") v) with
      | Err e => Err e
      | Ok old_text =>
          match required (msg "new_text"%string) (get_str (lit "new_text") v) with
          | Err e => Err e
          | Ok new_text => Ok (mkEntry path old_text new_text (replace_all_of v))
          end
      end
  end.

Definition extract_edit_args (args : str) : result MultiEditEntry str :=
  match json_from_str args with
  | None => Err (lit "Invalid JSON arguments: " ++ ei_json_error io args)
  | Some v => entry_of (λ k, lit "Missing '" ++ lit k ++ lit "' field") v
  end.

Fixpoint entries_from (i : nat) (arr : list Value) : result (list MultiEditEntry) str :=
  match arr with
  | [] => Ok []
  | v :: arr =>
      match entry_of (λ k, lit "edits[" ++ show_nat i ++ lit "]: missing string field '" ++ lit k ++ lit "'") v with
      | Err e => Err e
      | Ok x => match entries_from (S i) arr with
                | Err e => Err e
                | Ok l => Ok (x :: l)
                end
      end
  end.

Definition extract_multiedit_args (args : str) : result (list MultiEditEntry) str :=
  match json_from_str args with
  | None => Err (lit "Invalid JSON args: " ++ ei_json_error io args)
  | Some v =>
      match json_get (lit "edits") v ≫= as_array with
      | None => Err (lit "Missing 'edits' field (must be a non-empty array)")
      | Some [] => Err (lit "'edits' must be a non-empty array")
      | Some arr => entries_from 0 arr
      end
  end.

Definition edit_preview (args : str) : option FileChange :=
  match extract_edit_args args with
  | Ok e => Some (mkFileChange (me_path e) FcModify)
  | Err _ => None
  end.

Definition multiedit_preview_all (args : str) : list FileChange :=
  match extract_multiedit_args args with
  | Ok l => (λ p, mkFileChange p FcModify) <$> distinct (me_path <$> l)
  | Err _ => []
  end.
End Arguments.

(** ** One replacement *)

Section Edits.
Context {FL : Float}.

(** [str::replace]. *)
Definition replace_every (p r s : str) : str :=
  match p with
  | [] => r ++ (s ≫= λ c, c :: r)
  | _ => replace_str p r s
  end.

(** [replacen] with one replacement. *)
Definition replace_first (p r s : str) : str :=
  match find_str p s with
  | Some i => take i s ++ r ++ drop (i + length p) s
  | None => s
  end.

Definition apply_edit_to_content (content old_text new_text : str) (replace_all : bool) (path_disp : str)
    : option (result EditOutcome str) :=
  let count := length (match_indices old_text content) in
  if (1 <? count)%nat && negb replace_all then
    Some (Err (lit "old_text appears " ++ show_nat count ++ lit " times in " ++ path_disp ++ lit " (at lines "
               ++ show_starts (match_line_numbers content old_text)
               ++ lit "). Provide more surrounding context to make it unique, or use replace_all=true to replace every occurrence"))
  else if (count =? 0)%nat then
    let not_found := lit "old_text not found in " ++ path_disp ++ lit ". " in
    if replace_all then Some (Err (not_found ++ build_not_found_hint content old_text))
    else
      match cascade_replace content old_text new_text with
      | None => None
      | Some (Ok m) => Some (Ok (mkOutcome (fm_content m) 0 (Some (fm_level m))))
      | Some (Err (Ambiguous msg)) => Some (Err msg)
      | Some (Err (NoMatch note)) =>
          Some (Err (not_found ++ default [] note ++ build_not_found_hint content old_text))
      end
  else
    Some (Ok (mkOutcome (if replace_all then replace_every old_text new_text content
                         else replace_first old_text new_text content) count None)).

Definition apply_entry (content : str) (e : MultiEditEntry) (path_disp : str) : option (result EditOutcome str) :=
  apply_edit_to_content content (me_old_text e) (me_new_text e) (me_replace_all e) path_disp.

(** ** [edit_file] *)

Section Tools.
Variable io : EditIo.
Variable boundary : option WorkspaceBoundary.

(** [exists] and [read_to_string]. *)
Definition read_file_at (files : Files) (path : str) (unreadable : str → str) : result (list str * str) str :=
  match locate io path with
  | None => Err (lit "File not found: " ++ path)
  | Some at_ => match files !! at_ with
                | Some content => Ok (at_, content)
                | None => Err (unreadable (ei_read_error io at_))
                end
  end.

Definition write_file_at (files : Files) (at_ : list str) (content : str) : Files * result unit str :=
  match ei_write io at_ with
  | None => (<[at_ := content]> files, Ok tt)
  | Some (err, Some left_over) => (<[at_ := left_over]> files, Err err)
  | Some (err, None) => (delete at_ files, Err err)
  end.

(** The edit of one file: its path, its text before, and the outcome. *)
Definition edit_one (files : Files) (e : MultiEditEntry) : Files * option (result (str * str * EditOutcome) str) :=
  match resolve_tool_path io (me_path e) boundary with
  | Err m => (files, Some (Err m))
  | Ok path =>
      match read_file_at files path (λ err, lit "Failed to read file: " ++ err) with
      | Err m => (files, Some (Err m))
      | Ok (at_, content) =>
          match apply_entry content e path with
          | None => (files, None)
          | Some (Err m) => (files, Some (Err m))
          | Some (Ok outcome) =>
              match write_file_at files at_ (eo_new_content outcome) with
              | (files, Err err) => (files, Some (Err (lit "Failed to write file: " ++ err)))
              | (files, Ok _) => (files, Some (Ok (path, content, outcome)))
              end
          end
      end
  end.

Definition fenced (diff : str) : str := [c_nl] ++ lit "```diff" ++ [c_nl] ++ diff ++ lit "```".

Definition edit_receipt (replace_all : bool) (path content : str) (outcome : EditOutcome) : str :=
  let header := lit "File edited: " ++ path ++
    match eo_cascade_level outcome with
    | Some level => lit " (matched via " ++ level_name level ++ lit ")"
    | None => if replace_all then lit " (" ++ show_nat (eo_occurrences outcome) ++ lit " occurrences replaced)" else []
    end in
  match unified_diff path content (eo_new_content outcome) with
  | [] => header
  | diff => header ++ fenced diff
  end.

(** ** [multiedit] *)

Record MemFile := mkMem {
  mf_path : str;
  mf_at : list str;
  mf_original : str;
  mf_current : str;
  mf_edits_applied : nat;
  mf_levels : list Level;
}.

(** Equality of [PathBuf]s. *)
Definition path_eq (a b : str) : bool := bool_decide (components a = components b).

(** The file of a path among those in memory, or read. *)
Definition load (files : Files) (mem : list MemFile) (path : str) : result (nat * list MemFile) str :=
  match fst <$> find_idx (λ f, path_eq (mf_path f) path) mem with
  | Some i => Ok (i, mem)
  | None =>
      match read_file_at files path (λ err, lit "Failed to read " ++ path ++ lit ": " ++ err) with
      | Err m => Err m
      | Ok (at_, content) => Ok (length mem, mem ++ [mkMem path at_ content content 0 []])
      end
  end.

Definition updated (f : MemFile) (outcome : EditOutcome) : MemFile :=
  mkMem (mf_path f) (mf_at f) (mf_original f) (eo_new_content outcome) (S (mf_edits_applied f))
    (mf_levels f ++ option_list (eo_cascade_level outcome)).

Definition ok_status (i : nat) (e : MultiEditEntry) : str :=
  lit "  " ++ show_nat (S i) ++ lit ". " ++ me_path e ++ ulit " — ok".

Definition failed_status (i : nat) (e : MultiEditEntry) (m : str) : str :=
  lit "  " ++ show_nat (S i) ++ lit ". " ++ me_path e ++ ulit " — FAILED: " ++ m.

Definition aborted (total i : nat) (e : MultiEditEntry) (statuses : list str) (m : str) : str :=
  lit "multiedit aborted at edit " ++ show_nat (S i) ++ lit "/" ++ show_nat total ++ lit ": " ++ m ++ [c_nl; c_nl]
  ++ lit "No files were modified. Edit status:" ++ [c_nl] ++ join [c_nl] (statuses ++ [failed_status i e m]).

(** One entry of the batch, in memory. *)
Definition apply_in_memory (files : Files) (mem : list MemFile) (e : MultiEditEntry) : option (result (list MemFile) str) :=
  match resolve_tool_path io (me_path e) boundary with
  | Err m => Some (Err m)
  | Ok path =>
      match load files mem path with
      | Err m => Some (Err m)
      | Ok (i, mem) =>
          f ← mem !! i;
          outcome ← apply_entry (mf_current f) e (mf_path f);
          Some (match outcome with
                | Err m => Err m
                | Ok outcome => Ok (<[i := updated f outcome]> mem)
                end)
      end
  end.

Fixpoint apply_all (files : Files) (total i : nat) (statuses : list str) (mem : list MemFile)
    (edits : list MultiEditEntry) : option (result (list MemFile) str) :=
  match edits with
  | [] => Some (Ok mem)
  | e :: edits =>
      r ← apply_in_memory files mem e;
      match r with
      | Err m => Some (Err (aborted total i e statuses m))
      | Ok mem => apply_all files total (S i) (statuses ++ [ok_status i e]) mem edits
      end
  end.

(** Write what has changed. *)
Fixpoint write_all (files : Files) (written : list str) (mem : list MemFile) : Files * result unit str :=
  match mem with
  | [] => (files, Ok tt)
  | f :: mem =>
      if mf_current f =? mf_original f then write_all files written mem
      else
        match write_file_at files (mf_at f) (mf_current f) with
        | (files, Ok _) => write_all files (written ++ [mf_path f]) mem
        | (files, Err err) =>
            (files, Err (lit "multiedit write failed on " ++ mf_path f ++ lit ": " ++ err ++ lit ". Files already written: "
                         ++ match written with [] => lit "(none)" | _ => join (lit ", ") written end))
        end
  end.

Definition file_receipt (f : MemFile) : str :=
  [c_nl; c_nl] ++ ulit "── " ++ mf_path f ++ lit " (" ++ show_nat (mf_edits_applied f) ++ lit " edit(s)"
  ++ match mf_levels f with
     | [] => []
     | levels => lit ", matched via " ++ join (lit ", ") (level_name <$> levels)
     end ++ lit ")"
  ++ match unified_diff (mf_path f) (mf_original f) (mf_current f) with
     | [] => [c_nl] ++ lit "(no change)"
     | diff => fenced diff
     end.

Definition multiedit_receipt (total : nat) (mem : list MemFile) : str :=
  lit "Multiedit complete: " ++ show_nat total ++ lit " edit(s) across " ++ show_nat (length mem) ++ lit " file(s)."
  ++ (mem ≫= file_receipt).

Definition multiedit (files : Files) (edits : list MultiEditEntry) : Files * option (result str str) :=
  let total := length edits in
  match apply_all files total 0 [] [] edits with
  | None => (files, None)
  | Some (Err m) => (files, Some (Err m))
  | Some (Ok mem) =>
      match write_all files [] mem with
      | (files, Err m) => (files, Some (Err m))
      | (files, Ok _) => (files, Some (Ok (multiedit_receipt total mem)))
      end
  end.
End Tools.
End Edits.

(** ** The tools on their arguments *)

Section Execute.
Context {FL : Float} `{JsonNumbers} `{!JsonCodec}.

Definition edit_file_execute (io : EditIo) (boundary : option WorkspaceBoundary) (args : str) (files : Files)
    : Files * option (result str str) :=
  match extract_edit_args io args with
  | Err m => (files, Some (Err m))
  | Ok e =>
      match edit_one io boundary files e with
      | (files, None) => (files, None)
      | (files, Some (Err m)) => (files, Some (Err m))
      | (files, Some (Ok (path, content, outcome))) =>
          (files, Some (Ok (edit_receipt (me_replace_all e) path content outcome)))
      end
  end.

Definition multiedit_execute (io : EditIo) (boundary : option WorkspaceBoundary) (args : str) (files : Files)
    : Files * option (result str str) :=
  match extract_multiedit_args io args with
  | Err m => (files, Some (Err m))
  | Ok edits => multiedit io boundary files edits
  end.
End Execute.

(** ** A batch is its edits one after the other, all or none *)

Section Batch.
Context {FL : Float}.
Variable io : EditIo.
Variable boundary : option WorkspaceBoundary.

Inductive RunEnd := AllDone | FailedAt (i : nat) | PanickedAt (i : nat).

(** The entries as edits of their own, up to the first that fails. *)
Fixpoint edit_each (files : Files) (i : nat) (edits : list MultiEditEntry) : Files * RunEnd :=
  match edits with
  | [] => (files, AllDone)
  | e :: edits =>
      match edit_one io boundary files e with
      | (files, None) => (files, PanickedAt i)
      | (files, Some (Err _)) => (files, FailedAt i)
      | (files, Some (Ok _)) => edit_each files (S i) edits
      end
  end.

Definition resolves (e : MultiEditEntry) (path : str) : Prop := resolve_tool_path io (me_path e) boundary = Ok path.

(** Two entries for a file spell its path alike. *)
Definition no_aliases (edits : list MultiEditEntry) : Prop :=
  ∀ e e' p p' r, e ∈ edits → e' ∈ edits → resolves e p → resolves e' p' →
    locate io p = Some r → locate io p' = Some r → path_eq p p' = true.

(** How the path is shown does not matter to the edit. *)
Lemma apply_entry_disp content e d d' :
  match apply_entry content e d, apply_entry content e d' with
  | Some (Ok o), Some (Ok o') => o = o'
  | Some (Err _), Some (Err _) => True
  | None, None => True
  | _, _ => False
  end.
Proof.
  unfold apply_entry, apply_edit_to_content. cbv zeta. destruct (_ && _); [done|]. destruct (_ =? _)%nat; [|done].
  destruct (me_replace_all e); [done|]. by destruct (cascade_replace _ _ _) as [[m|[msg|note]]|].
Qed.

(** What the files in memory are to the files after the edits so far. *)
Record tracks (edits : list MultiEditEntry) (files now : Files) (mem : list MemFile) : Prop := {
  tr_current : ∀ f, f ∈ mem → now !! mf_at f = Some (mf_current f);
  tr_original : ∀ f, f ∈ mem → files !! mf_at f = Some (mf_original f);
  tr_located : ∀ f, f ∈ mem → locate io (mf_path f) = Some (mf_at f) ∧ ∃ e, e ∈ edits ∧ resolves e (mf_path f);
  tr_distinct : NoDup (mf_at <$> mem);
  tr_others : ∀ a, a ∉ mf_at <$> mem → now !! a = files !! a;
}.

Lemma tracks_nil edits files : tracks edits files files [].
Proof. split; try (by intros ? ?%elem_of_nil); [constructor|done]. Qed.

(** Reading a file into memory. *)
Lemma load_spec edits files now mem e path unreadable :
  no_aliases edits → tracks edits files now mem → e ∈ edits → resolves e path →
  match load io files mem path, read_file_at io now path unreadable with
  | Ok (i, mem'), Ok (at_, content) =>
      tracks edits files now mem' ∧ ∃ f, mem' !! i = Some f ∧ mf_at f = at_ ∧ mf_current f = content
  | Err _, Err _ => True
  | _, _ => False
  end.
Proof.
  intros Hna Ht He Hp. unfold load. destruct (find_idx _ mem) as [[i f]|] eqn:Ef; cbn [fmap option_fmap option_map fst].
  - apply find_idx_Some in Ef as [Hi Heq%bool_decide_eq_true]. assert (f ∈ mem) as Hf by by eapply list_elem_of_lookup_2.
    unfold read_file_at, locate. rewrite <- Heq. destruct (tr_located _ _ _ _ Ht f Hf) as [Hl _]. unfold locate in Hl. rewrite Hl.
    rewrite (tr_current _ _ _ _ Ht f Hf). split; [done|]. by exists f.
  - rewrite find_idx_None in Ef. unfold read_file_at. destruct (locate io path) as [r|] eqn:El; [|done].
    assert (r ∉ mf_at <$> mem) as Hr.
    { intros (f & -> & Hf)%list_elem_of_fmap. destruct (tr_located _ _ _ _ Ht f Hf) as [Hl (e' & He' & Hp')].
      specialize (Hna e' e _ _ _ He' He Hp' Hp Hl El). by rewrite (Ef f Hf) in Hna. }
    rewrite (tr_others _ _ _ _ Ht r Hr). destruct (files !! r) as [content|] eqn:Ec; [|done].
    split; [|eexists; split; [by apply list_lookup_middle|done]].
    destruct Ht as [Hc Ho Hlo Hd Hot].
    split; try (intros f [Hf|Hf%list_elem_of_singleton]%elem_of_app; [by auto|subst f]); cbn [mf_at mf_current mf_original mf_path].
    + by rewrite Hot.
    + done.
    + split; [done|]. by exists e.
    + rewrite fmap_app. apply NoDup_app. split_and!; [done| |apply NoDup_singleton].
      intros x Hx Hx'. apply list_elem_of_singleton in Hx' as ->. done.
    + intros a Ha. apply Hot. intros Hin. apply Ha. rewrite fmap_app. apply elem_of_app. by left.
Qed.

(** An edit in memory. *)
Lemma tracks_update edits files now mem i f outcome :
  tracks edits files now mem → mem !! i = Some f →
  tracks edits files (<[mf_at f := eo_new_content outcome]> now) (<[i := updated f outcome]> mem).
Proof.
  intros [Hc Ho Hlo Hd Hot] Hi. assert (f ∈ mem) as Hf by by eapply list_elem_of_lookup_2.
  assert (mf_at <$> <[i := updated f outcome]> mem = mf_at <$> mem) as Hat.
  { rewrite list_fmap_insert. apply list_insert_id. by rewrite list_lookup_fmap, Hi. }
  assert (∀ g, g ∈ <[i := updated f outcome]> mem → g = updated f outcome ∨ (g ∈ mem ∧ mf_at g ≠ mf_at f)) as Hel.
  { intros g (j & Hj)%list_elem_of_lookup. apply list_lookup_insert_Some in Hj as [(<- & <- & _)|[Hij Hj]]; [by left|right].
    split; [by eapply list_elem_of_lookup_2|]. intros He. apply Hij. eapply NoDup_lookup; [exact Hd| |].
    - by rewrite list_lookup_fmap, Hi.
    - rewrite list_lookup_fmap, Hj. cbn. by rewrite He. }
  split.
  - intros g [->|[Hg Hne]]%Hel; [apply lookup_insert_eq|]. rewrite lookup_insert_ne by done. auto.
  - intros g [->|[Hg _]]%Hel; [cbn; auto|auto].
  - intros g [->|[Hg _]]%Hel; [cbn; auto|auto].
  - by rewrite Hat.
  - intros a Ha. rewrite Hat in Ha. rewrite lookup_insert_ne; [auto|]. intros <-. apply Ha, list_elem_of_fmap. by exists f.
Qed.

Lemma step_agrees edits files now mem e :
  no_aliases edits → tracks edits files now mem → e ∈ edits → (∀ a, ei_write io a = None) →
  match apply_in_memory io boundary files mem e, edit_one io boundary now e with
  | None, (_, None) => True
  | Some (Err _), (_, Some (Err _)) => True
  | Some (Ok mem'), (now', Some (Ok _)) => tracks edits files now' mem'
  | _, _ => False
  end.
Proof.
  intros Hna Ht He Hw. unfold apply_in_memory, edit_one.
  destruct (resolve_tool_path io (me_path e) boundary) as [path|m] eqn:Ep; [|done].
  pose proof (load_spec edits files now mem e path (λ err, lit "Failed to read file: " ++ err) Hna Ht He Ep) as Hload.
  destruct (load io files mem path) as [[i mem']|m1], (read_file_at io now path _) as [[at_ content]|m2]; try done.
  destruct Hload as (Ht' & f & Hi & Hat & Hc). rewrite Hi. cbn [mbind option_bind].
  pose proof (apply_entry_disp content e (mf_path f) path) as Hd. rewrite Hc.
  destruct (apply_entry content e (mf_path f)) as [[o|m1]|], (apply_entry content e path) as [[o'|m2]|]; try done.
  subst o'. unfold write_file_at. rewrite Hw. cbn [mbind option_bind]. rewrite <- Hat. by apply tracks_update.
Qed.

Lemma batch_agrees edits files total :
  no_aliases edits → (∀ a, ei_write io a = None) →
  ∀ rest i statuses now mem, (∀ e, e ∈ rest → e ∈ edits) → tracks edits files now mem →
  match apply_all io boundary files total i statuses mem rest, edit_each now i rest with
  | None, (_, PanickedAt _) => True
  | Some (Ok mem'), (now', AllDone) => tracks edits files now' mem'
  | Some (Err msg), (_, FailedAt k) =>
      ∃ j e statuses m, k = (i + j)%nat ∧ rest !! j = Some e ∧ msg = aborted total k e statuses m
  | _, _ => False
  end.
Proof.
  intros Hna Hw. induction rest as [|e rest IH]; intros i statuses now mem Hin Ht; cbn [apply_all edit_each]; [done|].
  pose proof (step_agrees edits files now mem e Hna Ht (Hin e ltac:(left)) Hw) as Hs.
  destruct (apply_in_memory io boundary files mem e) as [[mem'|m]|], (edit_one io boundary now e) as [now' [[r|m']|]];
    cbn [mbind option_bind]; try done.
  - specialize (IH (S i) (statuses ++ [ok_status i e]) now' mem' ltac:(intros x Hx; apply Hin; by right) Hs).
    destruct (apply_all _ _ _ _ _ _ _ _) as [[mem2|msg]|], (edit_each now' (S i) rest) as [now2 []]; try done.
    destruct IH as (j & e' & st & m & -> & Hj & ->). exists (S j), e', st, m. split_and!; [lia|done|done].
  - exists 0%nat, e, statuses, m. split_and!; [lia|done|done].
Qed.

Lemma write_all_flushes edits files now mem written :
  (∀ a, ei_write io a = None) → tracks edits files now mem → write_all io files written mem = (now, Ok tt).
Proof.
  intros Hw [Hc Ho _ Hd Hot]. revert files written Ho Hd Hot. induction mem as [|f mem IH]; intros files written Ho Hd Hot.
  { cbn [write_all]. f_equal. apply map_eq. intros a. symmetry. apply Hot. by intros ?%elem_of_nil. }
  cbn [write_all]. rewrite fmap_cons in Hd. apply NoDup_cons in Hd as [Hf Hd].
  assert (now !! mf_at f = Some (mf_current f)) as Hcf by (apply Hc; left).
  assert (files !! mf_at f = Some (mf_original f)) as Hof by (apply Ho; left).
  assert (∀ g, g ∈ mem → mf_at g ≠ mf_at f) as Hne.
  { intros g Hg E. apply Hf. rewrite <- E. apply list_elem_of_fmap. by exists g. }
  destruct (bool_decide_reflect (mf_current f = mf_original f)) as [E|E].
  - apply IH; [intros g Hg; apply Hc; by right|intros g Hg; apply Ho; by right|done|].
    intros a Ha. destruct (decide (a = mf_at f)) as [->|Hn]; [congruence|]. apply Hot. rewrite fmap_cons, not_elem_of_cons. done.
  - unfold write_file_at. rewrite Hw. apply IH; [intros g Hg; apply Hc; by right| |done|].
    + intros g Hg. rewrite lookup_insert_ne by by apply not_eq_sym, Hne. apply Ho. by right.
    + intros a Ha. destruct (decide (a = mf_at f)) as [->|Hn]; [by rewrite lookup_insert_eq|].
      rewrite lookup_insert_ne by done. apply Hot. rewrite fmap_cons, not_elem_of_cons. done.
Qed.

(** C26: a batch does what its edits do one after the other, or nothing: where each of them
    would succeed the files are the same in the end; where one would fail, the batch
    fails at that entry and no file is changed; where one would panic, it panics before
    any file is changed.  The writes do not fail, and a file is always spelled alike. *)
Theorem batch_is_sequence files edits :
  no_aliases edits → (∀ a, ei_write io a = None) →
  match edit_each files 0 edits with
  | (files', AllDone) => ∃ receipt, multiedit io boundary files edits = (files', Some (Ok receipt))
  | (_, FailedAt i) => ∃ e statuses m, edits !! i = Some e ∧
      multiedit io boundary files edits = (files, Some (Err (aborted (length edits) i e statuses m)))
  | (_, PanickedAt _) => multiedit io boundary files edits = (files, None)
  end.
Proof.
  intros Hna Hw. pose proof (batch_agrees edits files (length edits) Hna Hw edits 0 [] files [] ltac:(done) (tracks_nil edits files)) as Hb.
  unfold multiedit. destruct (apply_all _ _ _ _ _ _ _ _) as [[mem|msg]|], (edit_each files 0 edits) as [files' []]; try done.
  - rewrite (write_all_flushes edits files files' mem [] Hw Hb). by eexists.
  - destruct Hb as (j & e & st & m & -> & Hj & ->). by exists e, st, m.
Qed.
End Batch.

(** ** Edits stay in the workspace *)

Section Confined.
Context {FL : Float}.
Variable io : EditIo.
Variable b : WorkspaceBoundary.
Hypothesis restricted : wb_restrict b = true.

Definition inside (at_ : list str) : Prop :=
  canonicalize_for_compare (ei_canonicalize io) (wb_root b) `prefix_of` at_.

(** Only files of the workspace differ. *)
Definition confined (files files' : Files) : Prop := ∀ a, ¬ inside a → files' !! a = files !! a.

Lemma resolve_inside p path r :
  resolve_tool_path io p (Some b) = Ok path → locate io path = Some r → inside r.
Proof.
  cbn [resolve_tool_path]. unfold validate_workspace_path. rewrite restricted. cbn [negb]. intros Hv Hl.
  destruct (bool_decide_reflect (canonicalize_for_compare (ei_canonicalize io) (wb_root b) `prefix_of`
    canonicalize_for_compare (ei_canonicalize io) (if path_is_absolute p then p else path_join (wb_root b) p))) as [Hpre|]; [|done].
  injection Hv as <-. unfold inside. unfold locate in Hl. unfold canonicalize_for_compare in Hpre at 2. by rewrite Hl in Hpre.
Qed.

Lemma write_confined files files0 at_ content :
  inside at_ → confined files0 files → confined files0 (fst (write_file_at io files at_ content)).
Proof.
  intros Hin Hc a Ha. unfold write_file_at. assert (at_ ≠ a) as Hne by by intros ->.
  destruct (ei_write io at_) as [[err [l|]]|]; cbn [fst]; rewrite ?lookup_insert_ne, ?lookup_delete_ne by done; auto.
Qed.

Lemma edit_one_confined files e : confined files (fst (edit_one io (Some b) files e)).
Proof.
  unfold edit_one. destruct (resolve_tool_path io (me_path e) (Some b)) as [path|m] eqn:Ep; [|done].
  unfold read_file_at. destruct (locate io path) as [r|] eqn:El; [|done]. destruct (files !! r) as [content|]; [|done].
  destruct (apply_entry content e path) as [[o|m]|]; [|done..].
  pose proof (write_confined files files r (eo_new_content o) (resolve_inside _ _ _ Ep El) ltac:(done)) as Hw.
  by destruct (write_file_at io files r _) as [files' [[]|err]].
Qed.

Definition all_inside (mem : list MemFile) : Prop := Forall (λ f, inside (mf_at f)) mem.

Lemma apply_in_memory_inside files mem e mem' :
  all_inside mem → apply_in_memory io (Some b) files mem e = Some (Ok mem') → all_inside mem'.
Proof.
  intros Hm. unfold apply_in_memory. destruct (resolve_tool_path io (me_path e) (Some b)) as [path|m] eqn:Ep; [|done].
  unfold load, read_file_at.
  assert (∀ i mem2, all_inside mem2 →
    (f ← mem2 !! i; outcome ← apply_entry (mf_current f) e (mf_path f);
     Some (match outcome with Err m => Err m | Ok outcome => Ok (<[i := updated f outcome]> mem2) end)) = Some (Ok mem') →
    all_inside mem') as Hstep.
  { intros i mem2 H2 Hs. destruct (mem2 !! i) as [f|] eqn:Ef; cbn [mbind option_bind] in Hs; [|done].
    destruct (apply_entry _ _ _) as [[o|m]|]; cbn [mbind option_bind] in Hs; [|done..]. injection Hs as <-.
    apply Forall_insert; [done|]. cbn. unfold all_inside in H2. rewrite Forall_lookup in H2. by eapply H2. }
  destruct (fst <$> find_idx _ mem) as [i|]; [by apply Hstep|].
  destruct (locate io path) as [r|] eqn:El; [|done]. destruct (files !! r) as [content|]; [|done]. apply Hstep.
  apply Forall_app. split; [done|]. apply Forall_singleton. by eapply resolve_inside.
Qed.

Lemma apply_all_inside files total edits i statuses mem mem' :
  all_inside mem → apply_all io (Some b) files total i statuses mem edits = Some (Ok mem') → all_inside mem'.
Proof.
  revert i statuses mem. induction edits as [|e edits IH]; intros i statuses mem Hm Ha; cbn [apply_all] in Ha; [by injection Ha as <-|].
  destruct (apply_in_memory _ _ _ _ _) as [[mem2|m]|] eqn:E; cbn [mbind option_bind] in Ha; [|done..].
  eapply IH; [|exact Ha]. by eapply apply_in_memory_inside.
Qed.

Lemma write_all_confined files0 mem files written :
  all_inside mem → confined files0 files → confined files0 (fst (write_all io files written mem)).
Proof.
  intros Hm. revert files written. induction Hm as [|f mem Hf _ IH]; intros files written Hc; [done|]. cbn [write_all].
  destruct (_ =? _); [by apply IH|]. pose proof (write_confined files files0 (mf_at f) (mf_current f) Hf Hc) as Hw.
  destruct (write_file_at io files _ _) as [files' [[]|err]]; [|done]. by apply IH.
Qed.

(** C27: within a restricted workspace neither tool changes a file outside of it, wherever
    the links and dots of the paths lead, and also when a write fails halfway. *)
Theorem edits_confined `{JsonNumbers} `{!JsonCodec} args files :
  confined files (fst (edit_file_execute io (Some b) args files)) ∧
  confined files (fst (multiedit_execute io (Some b) args files)).
Proof.
  split.
  - unfold edit_file_execute. destruct (extract_edit_args io args) as [e|m]; [|done].
    pose proof (edit_one_confined files e) as Hc. by destruct (edit_one _ _ _ _) as [files' [[[[path content] o]|m]|]].
  - unfold multiedit_execute. destruct (extract_multiedit_args io args) as [edits|m]; [|done]. unfold multiedit.
    destruct (apply_all _ _ _ _ _ _ _ _) as [[mem|m]|] eqn:E; [|done..].
    pose proof (write_all_confined files mem files [] (apply_all_inside _ _ _ _ _ _ _ (Forall_nil_2 _) E) ltac:(done)) as Hc.
    by destruct (write_all _ _ _ _) as [files' [[]|m]].
Qed.
End Confined.

(** ** Exact replacements *)

Lemma match_indices_skip p s i k :
  (k ≤ length s)%nat → match_indices_from i k p s = match_indices_from (i + k) 0 p (drop k s).
Proof.
  revert i k. induction s as [|c s IH]; intros i [|k] Hk; cbn [length] in Hk; try lia; cbn [drop];
    rewrite ?Nat.add_0_r; [done..|]. cbn [match_indices_from]. rewrite IH by lia. f_equal. lia.
Qed.

Lemma replace_str_aux_skip p r s k : replace_str_aux p r s k = replace_str_aux p r (drop k s) 0.
Proof. revert k. induction s as [|c s IH]; intros [|k]; try done. cbn [replace_str_aux drop]. apply IH. Qed.

Lemma replace_first_cons p r c s : starts_with p (c :: s) = false → replace_first p r (c :: s) = c :: replace_first p r s.
Proof.
  intros Hs. unfold replace_first. cbn [find_str]. rewrite Hs. by destruct (find_str p s) as [i|].
Qed.

Lemma replace_first_here p r t : replace_first p r (p ++ t) = r ++ t.
Proof.
  unfold replace_first. assert (find_str p (p ++ t) = Some 0%nat) as ->.
  { pose proof (starts_with_app p t) as Hs. destruct (p ++ t); cbn [find_str]; by rewrite Hs. }
  cbn. by rewrite drop_app_length.
Qed.

(** What lies between the occurrences. *)
Lemma pieces_between p s i : p ≠ [] →
  ∃ ps, length ps = S (length (match_indices_from i 0 p s)) ∧ s = join p ps ∧ Forall (λ t, contains p t = false) ps ∧
    (∀ r, replace_str_aux p r s 0 = join r ps) ∧
    ∀ r, replace_first p r s = match ps with t :: ((_ :: _) as rest) => t ++ r ++ join p rest | _ => s end.
Proof.
  intros Hp. revert i. induction s as [s IH] using (induction_ltof1 _ length). unfold ltof in IH. intros i.
  destruct s as [|c s].
  { exists [[]]. assert (contains p [] = false) as Hc by (destruct p; done). split_and!; [by destruct p|done|by repeat constructor|done|].
    intros r. unfold replace_first. unfold contains in Hc. by destruct (find_str p []). }
  destruct (starts_with p (c :: s)) eqn:E.
  - pose proof E as [t Ht]%starts_with_iff. assert (length p ≠ 0)%nat as Hlp by (by destruct p).
    assert (length (c :: s) = length p + length t)%nat as Hlen by by rewrite Ht, length_app.
    assert (drop (length p - 1) s = t) as Hdrop.
    { change s with (drop 1 (c :: s)). rewrite drop_drop, Ht. replace (1 + (length p - 1))%nat with (length p) by lia. apply drop_app_length. }
    destruct (IH t ltac:(lia) (S i + (length p - 1))%nat) as (ps & Hl & Hj & Hf & Hr & _). exists ([] :: ps).
    destruct ps as [|t0 ps]; [done|]. cbn [match_indices_from replace_str_aux]. rewrite E.
    cbn [length] in *. rewrite match_indices_skip by lia. rewrite Hdrop, Hl.
    split_and!; [done|by rewrite Ht, Hj|constructor; [by destruct p|done]| |].
    + intros r. by rewrite replace_str_aux_skip, Hdrop, Hr.
    + intros r. by rewrite Ht, replace_first_here, Hj.
  - destruct (IH s ltac:(cbn; lia) (S i)) as (ps & Hl & Hj & Hf & Hr & H1). destruct ps as [|t0 ps]; [done|].
    apply Forall_cons in Hf as [Ht0 Hf]. exists ((c :: t0) :: ps). cbn [match_indices_from replace_str_aux]. rewrite E.
    assert (∀ r, join r ((c :: t0) :: ps) = c :: join r (t0 :: ps)) as Hjoin by (intros r; by destruct ps).
    split_and!; [done|by rewrite Hjoin, <- Hj| | |].
    + constructor; [|done]. apply not_true_iff_false. intros (a & b & Hab)%contains_iff. destruct a as [|x a].
      * assert (starts_with p (c :: s) = true); [|congruence]. apply starts_with_iff. rewrite Hj, <- Hjoin.
        destruct ps as [|t1 ps]; cbn [join]; rewrite Hab; [by exists b|eexists; cbn [app]; by rewrite <- app_assoc].
      * injection Hab as -> Hab. assert (contains p t0 = true); [|congruence]. apply contains_iff. by exists a, b.
    + intros r. by rewrite Hr, Hjoin.
    + intros r. rewrite replace_first_cons by done. rewrite H1. by destruct ps.
Qed.

(** Also: a replacement without the cascade: the text is cut at the occurrences, of which
    there is one unless all are to be replaced, and put together with the new text; to
    be refused, or to be left to the cascade, means to occur twice or not at all. *)
Theorem apply_edit_exact {FL : Float} content old_text new_text replace_all path_disp :
  old_text ≠ [] →
  match apply_edit_to_content content old_text new_text replace_all path_disp with
  | Some (Ok o) =>
      match eo_cascade_level o with
      | None => ∃ ps, length ps = S (eo_occurrences o) ∧ Forall (λ t, contains old_text t = false) ps ∧
          content = join old_text ps ∧ eo_new_content o = join new_text ps ∧
          eo_occurrences o ≠ 0%nat ∧ (replace_all = false → eo_occurrences o = 1%nat)
      | Some level => contains old_text content = false ∧ replace_all = false ∧
          cascade_replace content old_text new_text = Some (Ok (mkFuzzy (eo_new_content o) level))
      end
  | Some (Err _) =>
      contains old_text content = false ∨
      (replace_all = false ∧ ∃ a b c, content = a ++ old_text ++ b ++ old_text ++ c)
  | None => contains old_text content = false ∧ replace_all = false ∧ cascade_replace content old_text new_text = None
  end.
Proof.
  intros Hp. destruct (pieces_between old_text content 0 Hp) as (ps & Hl & Hj & Hf & Hr & H1).
  fold (match_indices old_text content) in Hl. unfold apply_edit_to_content. cbv zeta.
  assert (length (match_indices old_text content) = 0%nat → contains old_text content = false) as Hnone.
  { intros E. rewrite E in Hl. destruct ps as [|t [|]]; try done. apply Forall_cons in Hf as [Hf _]. cbn [join] in Hj. rewrite Hj. exact Hf. }
  destruct (Nat.ltb_spec 1 (length (match_indices old_text content))) as [Hgt|Hle]; cbn [andb].
  - destruct replace_all; cbn [negb].
    + destruct (Nat.eqb_spec (length (match_indices old_text content)) 0); [lia|]. cbn [eo_cascade_level eo_new_content eo_occurrences].
      exists ps. split_and!; [done..| |lia|done]. destruct old_text; [done|]. apply Hr.
    + right. split; [done|]. destruct ps as [|t1 [|t2 [|t3 ps]]]; cbn in Hl; try lia.
      destruct ps as [|t4 ps]; rewrite Hj; cbn [join]; rewrite <- ?app_assoc; by eexists _, _, _.
  - destruct (Nat.eqb_spec (length (match_indices old_text content)) 0) as [E|E].
    + destruct replace_all; [left; auto|]. destruct (cascade_replace content old_text new_text) as [[m|[msg|note]]|] eqn:Ec; auto.
      cbn [eo_cascade_level eo_new_content]. split_and!; [auto|done|]. by destruct m.
    + cbn [eo_cascade_level eo_new_content eo_occurrences]. exists ps. split_and!; [done..| |done|lia].
      destruct replace_all; [destruct old_text; [done|apply Hr]|]. rewrite H1.
      assert (length (match_indices old_text content) = 1%nat) as E1 by lia. rewrite E1 in Hl.
      by destruct ps as [|t1 [|t2 [|]]].
Qed.

(** ** Witnesses *)

Section Runs.
#[local] Existing Instances exact_float unit_numbers toy_json.

(** Every path leads into the root, wherever it says. *)
Definition demo_place (cs : list str) : option (list str) :=
  Some (lit "/" :: List.filter (λ c, negb (existsb (λ d, d =? c) [c_curdir; c_rootdir])) cs).

Definition demo_edit_io : EditIo := mkEditIo demo_place (λ _, []) (λ _, None) (λ _, []).

Definition demo_at (name : string) : list str := [lit "/"; lit name].

Definition demo_files : Files := {[ demo_at "a" := lit "one two"; demo_at "b" := lit "three" ]}.

Definition entry (path old_text new_text : string) : MultiEditEntry := mkEntry (lit path) (lit old_text) (lit new_text) false.

Definition demo_edits : list MultiEditEntry := [entry "a" "one" "1"; entry "b" "three" "3"; entry "a" "two" "2"].

Lemma batch_is_sequence_witness :
  ∃ receipt, multiedit demo_edit_io None demo_files demo_edits
    = ({[ demo_at "a" := lit "1 2"; demo_at "b" := lit "3" ]}, Some (Ok receipt)).
Proof.
  assert (Hna : no_aliases demo_edit_io None demo_edits).
  { intros e e' p p' r He He' [= <-] [= <-]. apply list_elem_of_In in He, He'.
    cbn [In demo_edits] in He, He'.
    destruct He as [<-|[<-|[<-|[]]]], He' as [<-|[<-|[<-|[]]]]; vm_compute; congruence. }
  pose proof (batch_is_sequence demo_edit_io None demo_files demo_edits Hna (λ _, eq_refl)) as Hb.
  assert (He : edit_each demo_edit_io None demo_files 0 demo_edits
    = ({[ demo_at "a" := lit "1 2"; demo_at "b" := lit "3" ]}, AllDone)).
  { vm_compute. reflexivity. }
  rewrite He in Hb. exact Hb.
Defined.

(** Observed: two spellings of one file are two files in memory, and the edits under the
    first spelling are lost, though each of the two alone would be made. *)
Theorem aliased_edits_lose_one :
  let edits := [entry "a" "one" "1"; entry "./a" "two" "2"] in
  fst (multiedit demo_edit_io None demo_files edits) !! demo_at "a" = Some (lit "one 2") ∧
  fst (edit_each demo_edit_io None demo_files 0 edits) !! demo_at "a" = Some (lit "1 2").
Proof. vm_compute. split; reflexivity. Qed.

(** Observed: occurrences that overlap count once; the text is replaced at the first of
    them as if it were the only one. *)
Theorem overlapping_counts_once disp :
  apply_edit_to_content (lit "aaa") (lit "aa") (lit "b") false disp = Some (Ok (mkOutcome (lit "ba") 1 None)).
Proof. reflexivity. Qed.

Definition demo_boundary : WorkspaceBoundary := mkBoundary (lit "/w") true.

Definition demo_args : str :=
  json_to_string (VObject [(lit "path", VString (lit "/a")); (lit "old_text", VString (lit "one"));
                           (lit "new_text", VString (lit "1"))]).

Lemma edits_confined_witness :
  fst (edit_file_execute demo_edit_io (Some demo_boundary) demo_args demo_files) !! demo_at "a" = Some (lit "one two").
Proof.
  destruct (edits_confined demo_edit_io demo_boundary eq_refl demo_args demo_files) as [He _].
  rewrite He; [vm_compute; reflexivity|].
  unfold inside. intros Hp. apply (bool_decide_pack _) in Hp. vm_compute in Hp. exact Hp.
Defined.

Lemma apply_edit_exact_witness :
  ∃ ps, length ps = 2 ∧ lit "one two" = join (lit "one") ps ∧ lit "1 two" = join (lit "1") ps.
Proof.
  assert (Hne : lit "one" ≠ []) by discriminate.
  pose proof (apply_edit_exact (lit "one two") (lit "one") (lit "1") false [] Hne) as Ha.
  assert (He : apply_edit_to_content (lit "one two") (lit "one") (lit "1") false []
    = Some (Ok (mkOutcome (lit "1 two") 1 None))) by (vm_compute; reflexivity).
  rewrite He in Ha. destruct Ha as (ps & Hl & _ & Hj & Hn & _). exists ps. split; [exact Hl|]. split; [exact Hj|exact Hn].
Defined.
End Runs.
