(* ===== verification/Checkpoint.v ===== *)
(** * The safety net of edits (nemesis-agent/src/checkpoint.rs)

    Before a tool changes a file, its old content is put into the checkpoint of the turn; in a
    workspace with a git repository the tree of the whole workspace is recorded when a turn
    begins.  A rewind gives the files back as they were when a turn began.  At the end of a
    turn the hashes of its files are sealed, so that a rewind can tell changes from outside.

    A disk is a map from the components of paths to bytes.  What a repository makes of the
    tracked files of the workspace is a hash ([ShadowGit]); checkpoints are written and read
    by value. *)
From stdpp Require Import strings.
From Stdlib Require Import Sorted.
From S2P Require Import Prelude RustStr HostPath Utf8 EditTools Merkle.
Local Open Scope nb_scope.

(** ** Data *)

Abbreviation Disk := (gmap (list str) (list N)).

Record FileSnap := mkSnap { sn_path : str; sn_content : option str }.

Record FileFingerprint := mkPrint { fp_path : str; fp_hash : option str }.

Record CheckpointConflict := mkConflict { cc_path : str; cc_expected_hash : str; cc_current_hash : str }.

Record CheckpointConflictReport := mkReport {
  cr_conflicts : list CheckpointConflict;
  cr_unchecked_paths : list str;
}.

Record Checkpoint := mkCheckpoint {
  cp_turn : nat;
  cp_time : str;
  cp_prompt : str;
  cp_files : list FileSnap;
  cp_paths : list str;
  cp_tree : option str;
  cp_after : list FileFingerprint;
  cp_sealed : bool;
}.

Record CheckpointMeta := mkMeta { cm_turn : nat; cm_time : str; cm_prompt : str; cm_paths : list str }.

Record CheckpointBase := mkBase { cb_turn : nat; cb_tree : option str; cb_content : option str }.

Inductive CheckpointBackend := BackendGit | BackendJson.

(** Paths below the root of the workspace with their contents. *)
Abbreviation Tree := (gmap (list str) (list N)).

(** The repository at the side: which files it takes, and the names of trees. *)
Class ShadowGit := {
  tracked : list str → bool;
  tree_hex : Tree → str;
  tree_hex_inj :: Inj (=) (=) tree_hex;
}.

(** The turn files on the disk, if the store has a directory; the objects of the repository,
    if there is one. *)
Record CheckpointStore := mkStore {
  cs_dir : option (gmap nat Checkpoint);
  cs_root : str;
  cs_git : option (gmap str Tree);
  cs_done : list Checkpoint;
  cs_cur : option Checkpoint;
  cs_seen : gset str;
}.

Definition with_dir (st : CheckpointStore) (d : option (gmap nat Checkpoint)) : CheckpointStore :=
  mkStore d (cs_root st) (cs_git st) (cs_done st) (cs_cur st) (cs_seen st).
Definition with_objects (st : CheckpointStore) (g : option (gmap str Tree)) : CheckpointStore :=
  mkStore (cs_dir st) (cs_root st) g (cs_done st) (cs_cur st) (cs_seen st).
Definition with_index (st : CheckpointStore) (done : list Checkpoint) (cur : option Checkpoint) (seen : gset str) : CheckpointStore :=
  mkStore (cs_dir st) (cs_root st) (cs_git st) done cur seen.

Definition cp_with_file (c : Checkpoint) (f : FileSnap) : Checkpoint :=
  mkCheckpoint (cp_turn c) (cp_time c) (cp_prompt c) (cp_files c ++ [f]) (cp_paths c ++ [sn_path f]) (cp_tree c) (cp_after c) (cp_sealed c).
Definition cp_with_seal (c : Checkpoint) (after : list FileFingerprint) : Checkpoint :=
  mkCheckpoint (cp_turn c) (cp_time c) (cp_prompt c) (cp_files c) (cp_paths c) (cp_tree c) after true.

(** What fails of the operating system and the repository, and the time. *)
Record CheckIo := mkCheckIo {
  ci_read : list str → bool;
  ci_write : list str → bool;
  ci_remove : list str → bool;
  ci_persist : bool;
  ci_tree : bool;
  ci_checkout : bool;
  ci_now : str;
}.

(** ** Paths and contents *)

Definition TWO_DOTS : str := [c_dot; c_dot].

Definition safe_path (root p : str) : option (list str) :=
  if contains TWO_DOTS p then None else Some (components (path_join root p)).

Definition path_inside_root (root p : str) : bool :=
  if contains TWO_DOTS p then false
  else if path_is_absolute p then path_starts_with p root else true.

(** [read_to_string] succeeds on text. *)
Definition read_text (bytes : list N) : option str :=
  let s := from_utf8_lossy bytes in if as_bytes s =? bytes then Some s else None.

Definition rel_text (rel : list str) : str := join [c_slash] rel.

(** The declared paths of a checkpoint; those of old files are the paths of the contents. *)
Definition declared_paths (c : Checkpoint) : list str :=
  match cp_paths c with [] => sn_path <$> cp_files c | paths => paths end.

(** [sort_by_key(|c| c.turn)], which is stable. *)
Fixpoint insert_turn (c : Checkpoint) (l : list Checkpoint) : list Checkpoint :=
  match l with
  | [] => [c]
  | x :: l' => if (cp_turn c <=? cp_turn x)%nat then c :: l else x :: insert_turn c l'
  end.
Definition by_turn (l : list Checkpoint) : list Checkpoint := foldr insert_turn [] l.

Definition index (st : CheckpointStore) : list Checkpoint := cs_done st ++ match cs_cur st with Some c => [c] | None => [] end.
Definition all_checkpoints (st : CheckpointStore) : list Checkpoint := by_turn (index st).

Section Store.
Context {SG : ShadowGit} {SH : Sha256} (io : CheckIo).

(** ** The tree of the workspace *)

Definition below (root : str) (a : list str) : option (list str) :=
  let r := components root in
  if bool_decide (take (length r) a = r) then Some (drop (length r) a) else None.

Definition workspace_tree (root : str) (disk : Disk) : Tree :=
  list_to_map (omap (λ kv, rel ← below root kv.1; if tracked rel then Some (rel, kv.2) else None) (map_to_list disk)).

(** The tree is written and named, if that works. *)
Definition write_current_tree (st : CheckpointStore) (disk : Disk) : CheckpointStore * option str :=
  match cs_git st with
  | Some objects =>
      if ci_tree io then
        let t := workspace_tree (cs_root st) disk in
        (with_objects st (Some (<[tree_hex t := t]> objects)), Some (tree_hex t))
      else (st, None)
  | None => (st, None)
  end.

(** ** Writing and reading checkpoints *)

Definition persist (st : CheckpointStore) (c : Checkpoint) : CheckpointStore :=
  match cs_dir st with
  | Some d => if ci_persist io then with_dir st (Some (<[cp_turn c := c]> d)) else st
  | None => st
  end.

Definition load (st : CheckpointStore) : CheckpointStore :=
  match cs_dir st with
  | Some d => with_index st (by_turn (cs_done st ++ (map_to_list d).*2)) (cs_cur st) (cs_seen st)
  | None => st
  end.

Definition build (dir : option (gmap nat Checkpoint)) (root : str) (git : option (gmap str Tree)) : CheckpointStore :=
  load (mkStore dir root git [] None ∅).

Definition backend (st : CheckpointStore) : CheckpointBackend :=
  match cs_git st with Some _ => BackendGit | None => BackendJson end.

(** ** Seals *)

Definition hash_on_disk (st : CheckpointStore) (disk : Disk) (path : str) : option str :=
  at_ ← safe_path (cs_root st) path;
  bytes ← disk !! at_;
  if ci_read io at_ then Some (sha256_hex bytes) else None.

Definition is_turn (turn : nat) (c : Checkpoint) : bool := (cp_turn c =? turn)%nat.

Fixpoint update_first (f : Checkpoint → bool) (g : Checkpoint → Checkpoint) (l : list Checkpoint) : list Checkpoint :=
  match l with
  | [] => []
  | c :: l => if f c then g c :: l else c :: update_first f g l
  end.

Definition seal_turn (st : CheckpointStore) (disk : Disk) (turn : nat) : CheckpointStore :=
  let in_cur := match cs_cur st with Some c => if is_turn turn c then Some c else None | None => None end in
  match or_else (List.find (is_turn turn) (cs_done st)) in_cur with
  | None => st
  | Some c =>
      if cp_sealed c then st
      else
        let hashed := (λ p, mkPrint p (hash_on_disk st disk p)) <$> declared_paths c in
        let '(st', target) :=
          match in_cur with
          | Some c' => (with_index st (cs_done st) (Some (cp_with_seal c' hashed)) (cs_seen st), Some (cp_with_seal c' hashed))
          | None =>
              (with_index st (update_first (is_turn turn) (λ c, cp_with_seal c hashed) (cs_done st)) (cs_cur st) (cs_seen st),
               (λ c, cp_with_seal c hashed) <$> List.find (is_turn turn) (cs_done st))
          end in
        match target with
        | None => st'
        | Some snap =>
            let already_on_disk := match cs_dir st' with Some d => bool_decide (is_Some (d !! cp_turn snap)) | None => false end in
            if already_on_disk || negb (bool_decide (cp_paths snap = [])) then persist st' snap else st'
        end
  end.

(** ** A turn begins, a file is about to change *)

Definition begin (st : CheckpointStore) (disk : Disk) (turn : nat) (prompt : str) : CheckpointStore :=
  let st := match cs_cur st with
            | Some c => if cp_sealed c then st else seal_turn st disk (cp_turn c)
            | None => st
            end in
  let '(st, tree) := write_current_tree st disk in
  let c := mkCheckpoint turn (ci_now io) prompt [] [] tree [] false in
  let prev := cs_cur st in
  let done := cs_done st ++ match prev with Some p => [p] | None => [] end in
  let prev_tree := or_else (prev ≫= cp_tree) (last done ≫= cp_tree) in
  let changed := bool_decide (is_Some tree) && (bool_decide (prev_tree = None) || negb (bool_decide (prev_tree = tree))) in
  let st := with_index st done (Some c) ∅ in
  if changed then persist st c else st.

Definition old_content (st : CheckpointStore) (disk : Disk) (change : FileChange) : option str :=
  if bool_decide (is_Some (cs_git st)) && path_inside_root (cs_root st) (fc_path change) then None
  else
    match fc_kind change with
    | FcCreate => None
    | FcModify | FcDelete =>
        at_ ← safe_path (cs_root st) (fc_path change);
        bytes ← disk !! at_;
        if ci_read io at_ then read_text bytes else None
    end.

Definition snapshot (st : CheckpointStore) (disk : Disk) (change : FileChange) : CheckpointStore :=
  let p := fc_path change in
  if p =? [] then st
  else
    match cs_cur st with
    | None => st
    | Some c =>
        if bool_decide (p ∈ cs_seen st) then st
        else
          let c := cp_with_file c (mkSnap p (old_content st disk change)) in
          persist (with_index st (cs_done st) (Some c) ({[ p ]} ∪ cs_seen st)) c
    end.

(** ** Trees of the index *)

Definition tree_hex_at_or_before (st : CheckpointStore) (bound : nat) : option str :=
  last (omap cp_tree (List.filter (λ c, (cp_turn c <=? bound)%nat) (all_checkpoints st))).

(** The bound is [usize::MAX]; turns are below it. *)
Definition latest_tree_hex (st : CheckpointStore) : option str := last (omap cp_tree (all_checkpoints st)).

Definition tree_hex_before (st : CheckpointStore) (from_turn : nat) : option str := tree_hex_at_or_before st (from_turn - 1).

Definition current_tree_hex (st : CheckpointStore) (disk : Disk) : CheckpointStore * option str := write_current_tree st disk.

(** ** Conflicts with changes from outside *)

(** Each path with the last checkpoint that declares it: whether it is sealed, and with what. *)
Definition declare (c : Checkpoint) (acc : list (str * bool * option str)) (p : str) : list (str * bool * option str) :=
  let hash := List.find (λ f, fp_path f =? p) (cp_after c) ≫= fp_hash in
  if existsb (λ e, e.1.1 =? p) acc
  then (λ e, if e.1.1 =? p then (e.1.1, cp_sealed c, hash) else e) <$> acc
  else acc ++ [(p, cp_sealed c, hash)].

Definition last_declared (l : list Checkpoint) : list (str * bool * option str) :=
  foldl (λ acc c, foldl (declare c) acc (declared_paths c)) [] l.

Definition check_declared (st : CheckpointStore) (disk : Disk) (r : CheckpointConflictReport) (e : str * bool * option str) : CheckpointConflictReport :=
  let unchecked := mkReport (cr_conflicts r) (cr_unchecked_paths r ++ [e.1.1]) in
  match e with
  | (path, sealed, sealed_hash) =>
      if negb sealed then unchecked
      else
        match sealed_hash with
        | None => unchecked
        | Some expected =>
            let cur := hash_on_disk st disk path in
            if bool_decide (cur = Some expected) then r
            else mkReport (cr_conflicts r ++ [mkConflict path expected (default [] cur)]) (cr_unchecked_paths r)
        end
  end.

Definition has_dots (rel : list str) : bool := existsb (λ seg, existsb (λ t, t =? TWO_DOTS) (split_on (N.eqb c_backslash) seg)) rel.

(** Paths in which the workspace differs from the target and the last tree of a turn does not. *)
Definition tree_diff_unchecked (target reference cur : Tree) (excluded : gset str) : list str :=
  rel_text <$> List.filter (λ rel,
    negb (bool_decide (target !! rel = cur !! rel)) && negb (has_dots rel) && negb (bool_decide (rel_text rel ∈ excluded))
    && bool_decide (target !! rel = reference !! rel)) (elements (dom target ∪ dom cur)).

Definition conflict_scan (st : CheckpointStore) (disk : Disk) (from_turn : nat) : CheckpointStore * CheckpointConflictReport :=
  let later := List.filter (λ c, (from_turn <=? cp_turn c)%nat) (all_checkpoints st) in
  let declared := last_declared later in
  let report := foldl (check_declared st disk) (mkReport [] []) declared in
  match cs_git st, tree_hex_at_or_before st from_turn, latest_tree_hex st with
  | Some _, Some target_hex, Some reference_hex =>
      if bool_decide (later = []) then (st, report)
      else
        let '(st, cur_hex) := write_current_tree st disk in
        match cs_git st ≫= lookup target_hex, cs_git st ≫= lookup reference_hex, cur_hex with
        | Some target, Some reference, Some _ =>
            let excluded := list_to_set ((λ e, e.1.1) <$> declared) ∪ list_to_set (cc_path <$> cr_conflicts report) in
            let extra := tree_diff_unchecked target reference (workspace_tree (cs_root st) disk) excluded in
            (st, mkReport (cr_conflicts report)
                   (foldl (λ acc p, if bool_decide (p ∈ acc) then acc else acc ++ [p]) (cr_unchecked_paths report) extra))
        | _, _, _ => (st, report)
        end
  | _, _, _ => (st, report)
  end.

(** ** Restoring *)

(** One content: written, or the file removed. *)
Definition restore_one (root : str) (acc : Disk * list str * list str) (s : str * option str) : Disk * list str * list str :=
  let '(disk, written, deleted) := acc in
  match safe_path root s.1 with
  | None => acc
  | Some at_ =>
      match s.2 with
      | None =>
          if bool_decide (is_Some (disk !! at_)) && ci_remove io at_ then (delete at_ disk, written, deleted ++ [s.1]) else acc
      | Some body => if ci_write io at_ then (<[at_ := as_bytes body]> disk, written ++ [s.1], deleted) else acc
      end
  end.

Definition hybrid_restore (root : str) (disk : Disk) (hybrid : list (str * option str)) : Disk * list str * list str :=
  foldl (restore_one root) (disk, [], []) hybrid.

Definition to_checkout (target cur : Tree) : list (list str) :=
  List.filter (λ rel, negb (bool_decide (target !! rel = cur !! rel))) (map_to_list target).*1.
Definition to_remove (target cur : Tree) : list (list str) :=
  List.filter (λ rel, bool_decide (target !! rel = None)) (map_to_list cur).*1.

Definition checkout (r : list str) (target : Tree) (disk : Disk) (rel : list str) : Disk :=
  match target !! rel with Some bytes => <[r ++ rel := bytes]> disk | None => disk end.

Definition remove_rel (r : list str) (acc : Disk * list str) (rel : list str) : Disk * list str :=
  let '(disk, deleted) := acc in
  if has_dots rel then acc
  else if bool_decide (is_Some (disk !! (r ++ rel))) && ci_remove io (r ++ rel) then (delete (r ++ rel) disk, deleted ++ [rel_text rel]) else acc.

Definition git_restore (st : CheckpointStore) (disk : Disk) (target_hex : str) : CheckpointStore * Disk * list str * list str :=
  let '(st', cur_hex) := write_current_tree st disk in
  match cur_hex, cs_git st' with
  | Some _, Some objects =>
      match objects !! target_hex with
      | None => (st', disk, [], [])
      | Some target =>
          let r := components (cs_root st) in
          let cur := workspace_tree (cs_root st) disk in
          let written := if ci_checkout io then to_checkout target cur else [] in
          let disk := foldl (checkout r target) disk written in
          let '(disk, deleted) := foldl (remove_rel r) (disk, []) (to_remove target cur) in
          (st', disk, rel_text <$> written, deleted)
      end
  | _, _ => (st', disk, [], [])
  end.

(** The contents that the checkpoints hold themselves, the earliest of each path. *)
Definition hybrid_one (st : CheckpointStore) (c : Checkpoint) (acc : list (str * option str)) (f : FileSnap) : list (str * option str) :=
  if (bool_decide (is_Some (cs_git st)) || bool_decide (is_Some (cp_tree c))) && bool_decide (sn_content f = None) && path_inside_root (cs_root st) (sn_path f)
  then acc
  else if existsb (λ e, e.1 =? sn_path f) acc then acc
  else acc ++ [(sn_path f, sn_content f)].

Definition hybrid_of (st : CheckpointStore) (l : list Checkpoint) : list (str * option str) :=
  foldl (λ acc c, foldl (hybrid_one st c) acc (cp_files c)) [] l.

Definition restore_code (st : CheckpointStore) (disk : Disk) (from_turn : nat) : CheckpointStore * Disk * list str * list str :=
  let later := List.filter (λ c, (from_turn <=? cp_turn c)%nat) (all_checkpoints st) in
  let hybrid := hybrid_of st later in
  let target := if bool_decide (later = []) then None else tree_hex_at_or_before st from_turn in
  match target with
  | None => let '(disk, w, d) := hybrid_restore (cs_root st) disk hybrid in (st, disk, w, d)
  | Some hex =>
      let '(st, disk, w, d) := match cs_git st with Some _ => git_restore st disk hex | None => (st, disk, [], []) end in
      let '(disk, hw, hd) := hybrid_restore (cs_root st) disk hybrid in
      (st, disk, w ++ hw, d ++ hd)
  end.

Definition restore_to_tree (st : CheckpointStore) (disk : Disk) (hex : str) : CheckpointStore * Disk * result (list str * list str) str :=
  match cs_git st with
  | None => (st, disk, Err (ulit "影子库不可用（JSON 形态），无法按 tree 恢复文件"))
  | Some _ => let '(st, disk, w, d) := git_restore st disk hex in (st, disk, Ok (w, d))
  end.

(** ** The rest of the index *)

Definition list_meta (st : CheckpointStore) : list CheckpointMeta :=
  (λ c, mkMeta (cp_turn c) (cp_time c) (cp_prompt c) (declared_paths c)) <$> all_checkpoints st.

Definition truncate_from (st : CheckpointStore) (from_turn : nat) : CheckpointStore :=
  let keep c := (cp_turn c <? from_turn)%nat in
  let gone := match cs_cur st with Some c => negb (keep c) | None => false end in
  mkStore ((λ d, filter (λ kv, kv.1 < from_turn)%nat d) <$> cs_dir st) (cs_root st) (cs_git st)
    (List.filter keep (cs_done st)) (if gone then None else cs_cur st) (if gone then ∅ else cs_seen st).

Definition base_for_path (st : CheckpointStore) (path : str) : option CheckpointBase :=
  (λ c, mkBase (cp_turn c) (cp_tree c) (List.find (λ f, sn_path f =? path) (cp_files c) ≫= sn_content)) <$>
  List.find (λ c, existsb (λ p, p =? path) (cp_paths c) || existsb (λ f, sn_path f =? path) (cp_files c)) (all_checkpoints st).

(** ** Runs *)

(** What happens between two rewinds: turns begin and are sealed, tools change files they have
    declared, and anything else changes the disk. *)
Inductive Act :=
| ABegin (turn : nat) (prompt : str)
| ASeal (turn : nat)
| AEdit (change : FileChange) (now : option (list N))
| AOutside (disk : Disk).

Definition edited (root : str) (disk : Disk) (change : FileChange) (now : option (list N)) : Disk :=
  match safe_path root (fc_path change) with Some at_ => partial_alter (λ _, now) at_ disk | None => disk end.

Definition act (s : CheckpointStore * Disk) (a : Act) : CheckpointStore * Disk :=
  let '(st, disk) := s in
  match a with
  | ABegin turn prompt => (begin st disk turn prompt, disk)
  | ASeal turn => (seal_turn st disk turn, disk)
  | AEdit change now => (snapshot st disk change, edited (cs_root st) disk change now)
  | AOutside disk => (st, disk)
  end.

Definition run (s : CheckpointStore * Disk) (acts : list Act) : CheckpointStore * Disk := foldl act s acts.

(** Turns are numbered upwards. *)
Fixpoint ascending (top : nat) (acts : list Act) : Prop :=
  match acts with
  | [] => True
  | ABegin turn _ :: acts => (top < turn)%nat ∧ ascending turn acts
  | _ :: acts => ascending top acts
  end.

(** A change that is what it says it is: a new file is not there yet, an old one is text, and
    its path, one of [names], leads somewhere. *)
Definition honest (root : str) (names : list str) (disk : Disk) (change : FileChange) : Prop :=
  fc_path change ≠ [] ∧ fc_path change ∈ names ∧ ∃ at_, safe_path root (fc_path change) = Some at_ ∧
  match fc_kind change with
  | FcCreate => disk !! at_ = None
  | _ => ∀ bytes, disk !! at_ = Some bytes → is_Some (read_text bytes)
  end.

Fixpoint all_honest (root : str) (names : list str) (disk : Disk) (acts : list Act) : Prop :=
  match acts with
  | [] => True
  | AEdit change now :: acts => honest root names disk change ∧ all_honest root names (edited root disk change now) acts
  | AOutside _ :: _ => False
  | _ :: acts => all_honest root names disk acts
  end.

Definition one_spelling (root : str) (names : list str) : Prop :=
  ∀ p q, p ∈ names → q ∈ names → safe_path root p = safe_path root q → p = q.

Record faultless : Prop := {
  fl_read : ∀ a, ci_read io a = true;
  fl_write : ∀ a, ci_write io a = true;
  fl_remove : ∀ a, ci_remove io a = true;
  fl_tree : ci_tree io = true;
  fl_checkout : ci_checkout io = true;
}.

(** ** Sorting *)

Definition turns (l : list Checkpoint) : list nat := cp_turn <$> l.

Lemma insert_turn_app c a b : Forall (λ x, (cp_turn c ≤ cp_turn x)%nat) b → insert_turn c (a ++ b) = insert_turn c a ++ b.
Proof.
  intros Hb. induction a as [|x a IH].
  - destruct b as [|x b]; [done|]. apply Forall_cons in Hb as [Hx _]. simpl. by rewrite (proj2 (Nat.leb_le _ _) Hx).
  - simpl. destruct (_ <=? _)%nat; [done|]. by rewrite IH.
Qed.

Lemma insert_turn_perm c l : insert_turn c l ≡ₚ c :: l.
Proof. induction l as [|x l IH]; [done|]. simpl. destruct (_ <=? _)%nat; [done|]. rewrite IH. apply Permutation_swap. Qed.

Lemma by_turn_perm l : by_turn l ≡ₚ l.
Proof. induction l as [|c l IH]; [done|]. simpl. by rewrite insert_turn_perm, IH. Qed.

Lemma by_turn_sorted l : StronglySorted lt (turns l) → by_turn l = l.
Proof.
  unfold by_turn, turns. induction l as [|c l IH]; [done|]. rewrite fmap_cons. intros [Hs Hc]%StronglySorted_inv. cbn [foldr]. rewrite IH by done.
  apply (insert_turn_app c [] l). rewrite Forall_fmap in Hc. eapply Forall_impl; [exact Hc|]. simpl. lia.
Qed.

Lemma by_turn_app a b : (∀ x y, x ∈ a → y ∈ b → (cp_turn x ≤ cp_turn y)%nat) → by_turn (a ++ b) = by_turn a ++ by_turn b.
Proof.
  intros H. unfold by_turn. induction a as [|c a IH]; [done|]. cbn [app foldr]. rewrite IH by (intros; apply H; set_solver).
  apply insert_turn_app, Forall_forall. intros y Hy. apply H; [left|]. unfold by_turn in *. by rewrite (by_turn_perm b) in Hy.
Qed.

(** Old checkpoints, and those of the turns from [turn] on. *)
Record since (turn : nat) (old later : list Checkpoint) (st : CheckpointStore) : Prop := {
  si_old : Forall (λ t, t < turn)%nat (turns old);
  si_later : Forall (λ t, turn ≤ t)%nat (turns later);
  si_sorted : StronglySorted lt (turns later);
  si_index : index st = old ++ later;
}.

Lemma since_all turn old later st : since turn old later st → all_checkpoints st = by_turn old ++ later.
Proof.
  intros [Ho Hl Hs Hd]. unfold turns in Ho, Hl. rewrite Forall_fmap, Forall_forall in Ho, Hl. unfold all_checkpoints.
  rewrite Hd, by_turn_app, (by_turn_sorted later); [done..|].
  intros x y Hx Hy. specialize (Ho x Hx). specialize (Hl y Hy). simpl in *. lia.
Qed.

Lemma filter_all_true {A} (f : A → bool) l : Forall (λ x, f x = true) l → List.filter f l = l.
Proof. induction 1 as [|x l Hx _ IH]; [done|]. simpl. by rewrite Hx, IH. Qed.

Lemma filter_all_false {A} (f : A → bool) l : Forall (λ x, f x = false) l → List.filter f l = [].
Proof. induction 1 as [|x l Hx _ IH]; [done|]. simpl. by rewrite Hx. Qed.

Lemma since_later turn old later st : since turn old later st →
  List.filter (λ c, (turn <=? cp_turn c)%nat) (all_checkpoints st) = later.
Proof.
  intros H. rewrite (since_all _ _ _ _ H), List.filter_app, filter_all_false, filter_all_true; [done|..].
  - pose proof (si_later _ _ _ _ H) as Hl. unfold turns in Hl. rewrite Forall_fmap in Hl. eapply Forall_impl; [exact Hl|]. intros c. apply Nat.leb_le.
  - rewrite by_turn_perm. pose proof (si_old _ _ _ _ H) as Hl. unfold turns in Hl. rewrite Forall_fmap in Hl.
    eapply Forall_impl; [exact Hl|]. intros c. apply Nat.leb_gt.
Qed.

(** ** What the operations leave alone *)

(** A checkpoint but for its seal. *)
Definition core (c : Checkpoint) : nat * option str * list FileSnap := (cp_turn c, cp_tree c, cp_files c).

Record same_index (st st' : CheckpointStore) : Prop := {
  sx_index : core <$> index st' = core <$> index st;
  sx_cur : is_Some (cs_cur st) → is_Some (cs_cur st');
  sx_root : cs_root st' = cs_root st;
  sx_git : cs_git st' = cs_git st;
  sx_seen : cs_seen st' = cs_seen st;
}.

Lemma same_persist st c : same_index st (persist st c).
Proof. unfold persist. destruct (cs_dir st); [destruct (ci_persist io)|]; by constructor. Qed.

#[local] Instance same_index_trans : Transitive same_index.
Proof. intros a b c [] []. constructor; [congruence|tauto|congruence..]. Qed.

#[local] Instance same_index_refl : Reflexive same_index.
Proof. by constructor. Qed.

Lemma update_core f g l : (∀ c, core (g c) = core c) → core <$> update_first f g l = core <$> l.
Proof. intros H. induction l as [|c l IH]; [done|]. simpl. destruct (f c); rewrite !fmap_cons; [by rewrite H|by rewrite IH]. Qed.

Lemma same_seal st disk turn : same_index st (seal_turn st disk turn).
Proof.
  unfold seal_turn. set (in_cur := match cs_cur st with Some c => if is_turn turn c then Some c else None | None => None end).
  destruct (or_else _ in_cur) as [c|]; [|done]. destruct (cp_sealed c); [done|]. set (hashed := _ <$> _).
  assert (∀ st1 target, same_index st st1 → same_index st match target with
            | Some snap => if match cs_dir st1 with Some d => bool_decide (is_Some (d !! cp_turn snap)) | None => false end || negb (bool_decide (cp_paths snap = []))
                           then persist st1 snap else st1
            | None => st1 end) as Hw.
  { intros st1 [snap|] H; [|done]. destruct (_ || _); [|done]. etransitivity; [exact H|apply same_persist]. }
  destruct in_cur as [c'|] eqn:E; cbv beta iota zeta; (apply (Hw _ (Some _)) || apply Hw); constructor; try done; unfold index; cbn [with_index cs_done cs_cur]; rewrite !fmap_app.
  - f_equal. subst in_cur. destruct (cs_cur st) as [c0|]; [|done]. by destruct (is_turn turn c0); simplify_eq.
  - by rewrite update_core.
Qed.

Lemma write_tree_same st disk : let '(st', hex) := write_current_tree st disk in
  index st' = index st ∧ cs_root st' = cs_root st ∧ cs_cur st' = cs_cur st ∧ cs_seen st' = cs_seen st ∧ cs_done st' = cs_done st ∧ cs_dir st' = cs_dir st.
Proof. unfold write_current_tree. destruct (cs_git st); [destruct (ci_tree io)|]; done. Qed.

(** A turn that begins is put behind all others. *)
Lemma begin_index st disk turn prompt :
  let st' := begin st disk turn prompt in
  ∃ c, core <$> cs_done st' = core <$> index st ∧ cs_cur st' = Some c ∧ cp_turn c = turn ∧ cp_files c = [] ∧ cs_root st' = cs_root st ∧ cs_seen st' = ∅ ∧
    cs_git st' = cs_git (write_current_tree st disk).1 ∧ cp_tree c = (write_current_tree st disk).2.
Proof.
  cbv zeta. unfold begin. set (st1 := match cs_cur st with Some c => if cp_sealed c then st else seal_turn st disk (cp_turn c) | None => st end).
  assert (same_index st st1) as [Hx Hc Hr Hg Hs].
  { unfold st1. destruct (cs_cur st) as [c|]; [|done]. destruct (cp_sealed c); [done|apply same_seal]. }
  assert (cs_git (write_current_tree st1 disk).1 = cs_git (write_current_tree st disk).1 ∧ (write_current_tree st1 disk).2 = (write_current_tree st disk).2) as [<- <-].
  { unfold write_current_tree. rewrite Hg, Hr. destruct (cs_git st) as [objects|] eqn:E; [destruct (ci_tree io)|]; simpl; by rewrite ?Hg, ?E. }
  pose proof (write_tree_same st1 disk) as Hw. destruct (write_current_tree st1 disk) as [st2 tree]. destruct Hw as (Hi & Hr2 & Hcur & _ & Hd & _). cbn [fst snd].
  set (c := mkCheckpoint turn (ci_now io) prompt [] [] tree [] false). set (st3 := with_index st2 _ (Some c) ∅).
  assert (core <$> cs_done st3 = core <$> index st) as H3 by (by rewrite <-Hx, <-Hi).
  exists c. destruct (bool_decide (is_Some tree) && _).
  - unfold persist. destruct (cs_dir st3); [destruct (ci_persist io)|]; cbn; split_and!; try done; by rewrite Hr2, Hr.
  - split_and!; try done. cbn. by rewrite Hr2, Hr.
Qed.

(** The first change of a path in a turn is recorded, a later one is not. *)
Lemma snapshot_index st disk change c : cs_cur st = Some c → fc_path change ≠ [] →
  let st' := snapshot st disk change in
  cs_root st' = cs_root st ∧ cs_git st' = cs_git st ∧
  if bool_decide (fc_path change ∈ cs_seen st) then st' = st
  else cs_done st' = cs_done st ∧ cs_seen st' = {[ fc_path change ]} ∪ cs_seen st ∧
       cs_cur st' = Some (cp_with_file c (mkSnap (fc_path change) (old_content st disk change))).
Proof.
  intros Hc Hp. unfold snapshot. rewrite (bool_decide_false (fc_path change = [])) by done. rewrite Hc.
  destruct (bool_decide (_ ∈ _)); [done|]. cbv zeta. unfold persist. destruct (cs_dir _); [destruct (ci_persist io)|]; done.
Qed.
(** ** Turns and seals keep the parts *)

(** A list of checkpoints is split as another with the same cores. *)
Lemma core_split (l old later : list Checkpoint) : core <$> l = core <$> (old ++ later) →
  ∃ old' later', l = old' ++ later' ∧ core <$> old' = core <$> old ∧ core <$> later' = core <$> later.
Proof.
  rewrite fmap_app. intros H. exists (take (length old) l), (drop (length old) l). rewrite take_drop. split; [done|].
  assert (length old = length (core <$> old)) as E by (by rewrite length_fmap).
  by rewrite fmap_take, fmap_drop, H, E, take_app_length, drop_app_length.
Qed.

(** What is read off the cores is the same for lists with the same cores. *)
Lemma core_part {A} (f : Checkpoint → A) (g : nat * option str * list FileSnap → A) (l l' : list Checkpoint) :
  (∀ c, f c = g (core c)) → core <$> l = core <$> l' → f <$> l = f <$> l'.
Proof. intros Hf H. assert (∀ l, f <$> l = g <$> (core <$> l)) as E by (intros; rewrite <-list_fmap_compose; by apply list_fmap_ext). by rewrite !E, H. Qed.

Lemma core_turns (l l' : list Checkpoint) : core <$> l = core <$> l' → turns l = turns l'.
Proof. by apply (core_part cp_turn (λ x, x.1.1)). Qed.

Lemma core_trees (l l' : list Checkpoint) : core <$> l = core <$> l' → cp_tree <$> l = cp_tree <$> l'.
Proof. by apply (core_part cp_tree (λ x, x.1.2)). Qed.

Definition snaps (l : list Checkpoint) : list FileSnap := mjoin (cp_files <$> l).

Lemma core_snaps l l' : core <$> l = core <$> l' → snaps l = snaps l'.
Proof. intros H. unfold snaps. by rewrite (core_part cp_files (λ x, x.2) _ _ (λ _, eq_refl) H). Qed.

Lemma snaps_app l l' : snaps (l ++ l') = snaps l ++ snaps l'.
Proof. unfold snaps. by rewrite fmap_app, join_app. Qed.

Lemma snaps_cur l c f : snaps (l ++ [cp_with_file c f]) = snaps (l ++ [c]) ++ [f].
Proof. rewrite !snaps_app. unfold snaps at 2 4. simpl. by rewrite !app_nil_r, app_assoc. Qed.

Lemma since_same turn old later st st' : since turn old later st → core <$> index st' = core <$> index st →
  ∃ old' later', since turn old' later' st' ∧ core <$> later' = core <$> later.
Proof.
  intros [Ho Hl Hs Hi] H. rewrite Hi in H. apply core_split in H as (old' & later' & E & Eo & El). exists old', later'. split; [|done].
  constructor; [by rewrite (core_turns _ _ Eo)|by rewrite (core_turns _ _ El)..|done].
Qed.

Lemma sorted_snoc l (c : nat) : StronglySorted lt l → Forall (λ t, t < c)%nat l → StronglySorted lt (l ++ [c]).
Proof.
  induction l as [|t l IH]; intros Hs Hf; [by repeat constructor|].
  apply StronglySorted_inv in Hs as [Hs Ht]. apply Forall_cons in Hf as [Hc Hf]. cbn. constructor; [by apply IH|].
  apply Forall_app. split; [done|by constructor].
Qed.

Lemma turns_snoc l c : turns (l ++ [c]) = turns l ++ [cp_turn c].
Proof. unfold turns. by rewrite fmap_app. Qed.

(** A new turn is later than all that is there. *)
Lemma since_begin turn old later st disk t prompt : since turn old later st → (turn ≤ t)%nat → Forall (λ x, x < t)%nat (turns later) →
  ∃ old' later' c, since turn old' (later' ++ [c]) (begin st disk t prompt) ∧ core <$> later' = core <$> later ∧ cs_cur (begin st disk t prompt) = Some c ∧
    cp_turn c = t ∧ cp_files c = [] ∧ cp_tree c = (write_current_tree st disk).2.
Proof.
  intros [Ho Hl Hs Hi] Ht Hf. destruct (begin_index st disk t prompt) as (c & Hx & Hc & Hct & Hcf & _ & _ & _ & Htree).
  set (st' := begin st disk t prompt) in *. rewrite Hi in Hx. destruct (core_split _ _ _ Hx) as (old' & later' & E & Eo & El).
  exists old', later', c. split; [|done]. constructor; rewrite ?turns_snoc, ?(core_turns _ _ El), ?(core_turns _ _ Eo), ?Hct; try done.
  - apply Forall_app. split; [done|by constructor].
  - by apply sorted_snoc.
  - unfold index. by rewrite Hc, E, app_assoc.
Qed.

(** A change of a file ends up in the last checkpoint. *)
Lemma since_cur turn old later st c : since turn old later st → cs_cur st = Some c → later ≠ [] → ∃ l, later = l ++ [c] ∧ cs_done st = old ++ l.
Proof.
  intros [_ _ _ Hi] Hc Hne. destruct (exists_last Hne) as (l & c' & ->). exists l. unfold index in Hi. rewrite Hc, app_assoc in Hi.
  apply app_inj_tail in Hi as [-> ->]. done.
Qed.

Lemma since_file turn old l c st st' f : since turn old (l ++ [c]) st → cs_done st = old ++ l → cs_done st' = cs_done st →
  cs_cur st' = Some (cp_with_file c f) → since turn old (l ++ [cp_with_file c f]) st'.
Proof.
  intros [Ho Hl Hs _] Hd Hd' Hc. constructor; try done.
  - by rewrite turns_snoc in *.
  - by rewrite turns_snoc in *.
  - unfold index. by rewrite Hc, Hd', Hd, app_assoc.
Qed.
(** ** Rewinding from contents *)

Lemma read_text_bytes bytes s : read_text bytes = Some s → as_bytes s = bytes.
Proof. unfold read_text. case_bool_decide as H; [|done]. by intros [= <-]. Qed.

Definition names_path (p : str) (s : FileSnap) : bool := sn_path s =? p.

Lemma find_app {A} (f : A → bool) (l l' : list A) :
  List.find f (l ++ l') = match List.find f l with Some x => Some x | None => List.find f l' end.
Proof. induction l as [|x l IH]; [done|]. simpl. by destruct (f x). Qed.

Section Contents.
Variables (root : str) (names : list str) (disk0 : Disk) (turn : nat).

(** Of each path the earliest content since the turn began is that of its beginning, and what
    no content covers is as it was. *)
Record contents (later : list Checkpoint) (st : CheckpointStore) (disk : Disk) : Prop := {
  ct_git : cs_git st = None;
  ct_root : cs_root st = root;
  ct_open : later ≠ [] ∧ is_Some (cs_cur st);
  ct_trees : Forall (λ t, t = None) (cp_tree <$> later);
  ct_names : ∀ s, s ∈ snaps later → sn_path s ∈ names ∧ is_Some (safe_path root (sn_path s));
  ct_first : ∀ p s, List.find (names_path p) (snaps later) = Some s → ∀ a, safe_path root p = Some a → disk0 !! a = as_bytes <$> sn_content s;
  ct_rest : ∀ a, disk !! a = disk0 !! a ∨ ∃ s, s ∈ snaps later ∧ safe_path root (sn_path s) = Some a;
  ct_seen : ∀ p, p ∈ cs_seen st → ∃ s, s ∈ snaps later ∧ sn_path s = p;
}.

Lemma contents_same later later' st st' disk : contents later st disk → core <$> later' = core <$> later → same_index st st' → contents later' st' disk.
Proof.
  intros [H1 H2 [H3 H3'] H4 H5 H6 H7 H8] El [_ Hc Hr Hg Hs].
  constructor; rewrite ?(core_snaps _ _ El), ?(core_trees _ _ El), ?Hg, ?Hr, ?Hs; try done; [|done..].
  split; [|by apply Hc]. intros ->. by destruct later.
Qed.

Lemma contents_begin later c st disk t prompt : contents later st disk → cp_files c = [] → cp_tree c = (write_current_tree st disk).2 →
  cs_cur (begin st disk t prompt) = Some c → contents (later ++ [c]) (begin st disk t prompt) disk.
Proof.
  intros [H1 H2 [H3 H3'] H4 H5 H6 H7 H8] Hf Ht Hc. destruct (begin_index st disk t prompt) as (c' & _ & Hc' & _ & _ & Hr & Hs & Hg & _).
  unfold write_current_tree in Ht, Hg. rewrite H1 in Ht, Hg. simpl in Ht, Hg.
  assert (snaps (later ++ [c]) = snaps later) as E by (rewrite snaps_app; unfold snaps at 2; simpl; by rewrite Hf, !app_nil_r).
  constructor; rewrite ?E, ?Hg, ?Hr, ?Hs, ?Hc; try done; [split; [by destruct later|done]|].
  rewrite fmap_app. apply Forall_app. split; [done|]. by constructor.
Qed.

Lemma old_content_json st disk change a : faultless → cs_git st = None → honest root names disk change → cs_root st = root →
  safe_path root (fc_path change) = Some a → disk !! a = as_bytes <$> old_content st disk change.
Proof.
  intros Hf Hg (_ & _ & a' & Ha' & Hk) Hr Ha. rewrite Ha in Ha'. injection Ha' as <-. unfold old_content. rewrite Hg, Hr, Ha. simpl.
  destruct (fc_kind change); [done|..]; (destruct (disk !! a) as [bytes|]; [|done]); simpl; rewrite (fl_read Hf);
    destruct (Hk bytes eq_refl) as [s E]; rewrite E; simpl; by rewrite (read_text_bytes _ _ E).
Qed.

Lemma contents_edit later st disk change now : faultless → one_spelling root names → honest root names disk change →
  (∃ old, since turn old later st) → contents later st disk →
  ∃ old' later', since turn old' later' (snapshot st disk change) ∧ turns later' = turns later ∧
    contents later' (snapshot st disk change) (edited root disk change now).
Proof.
  intros Hf Hone Hh [old Hsi] Hct. pose proof Hh as (Hne & Hin & a & Ha & _). pose proof Hct as [H1 H2 [H3 [c Hc]] H4 H5 H6 H7 H8].
  destruct (since_cur _ _ _ _ _ Hsi Hc H3) as (l & -> & Hd).
  destruct (snapshot_index st disk change c Hc Hne) as (Hr & Hg & Hx). unfold edited. rewrite Ha.
  assert (∀ ss : list FileSnap, (∃ s, s ∈ ss ∧ sn_path s = fc_path change) →
            (∀ b, disk !! b = disk0 !! b ∨ ∃ s, s ∈ ss ∧ safe_path root (sn_path s) = Some b) →
            ∀ b, partial_alter (λ _, now) a disk !! b = disk0 !! b ∨ ∃ s, s ∈ ss ∧ safe_path root (sn_path s) = Some b) as Hrest.
  { intros ss (s & Hs & E) Hold b. destruct (decide (b = a)) as [->|Hba]; [right; exists s; by rewrite E|].
    rewrite lookup_partial_alter_ne by done. apply Hold. }
  case_bool_decide as Hseen.
  - rewrite Hx. exists old, (l ++ [c]). split; [done|]. split; [done|]. constructor; try done. by apply Hrest; [apply H8|].
  - destruct Hx as (Hd' & Hs' & Hc'). set (s := mkSnap (fc_path change) (old_content st disk change)) in *.
    exists old, (l ++ [cp_with_file c s]). split; [by eapply since_file|]. split; [by rewrite !turns_snoc|].
    pose proof (snaps_cur l c s) as E.
    constructor; rewrite ?E, ?Hg, ?Hr, ?Hc'; try done.
    + split; [by destruct l|done].
    + rewrite fmap_app in *. exact H4.
    + intros s' [Hs1|Hs1]%elem_of_app; [by apply H5|]. apply list_elem_of_singleton in Hs1 as ->. split; [exact Hin|by exists a].
    + intros p s' Hp b Hb. rewrite find_app in Hp. destruct (List.find (names_path p) (snaps (l ++ [c]))) as [s1|] eqn:Es; [simplify_eq; by apply (H6 p s' Es)|].
      simpl in Hp. unfold names_path in Hp at 1. case_bool_decide as Ep; [|done]. injection Hp as <-. cbn [sn_path s] in Ep. subst p. rewrite Ha in Hb. injection Hb as <-.
      destruct (H7 a) as [<-|(s1 & Hs1 & Hs1a)]; [by apply old_content_json|exfalso].
      destruct (H5 s1 Hs1) as [Hn _]. assert (sn_path s1 = fc_path change) as E1 by (apply Hone; congruence).
      eapply find_none in Es; [|by apply list_elem_of_In]. unfold names_path in Es. by rewrite bool_decide_true in Es.
    + apply Hrest; [exists s; split; [set_solver|done]|]. intros b. destruct (H7 b) as [|(s1 & Hs1 & Hb)]; [by left|right]. exists s1. set_solver.
    + rewrite Hs'. intros p [->%elem_of_singleton|Hp]%elem_of_union; [exists s; set_solver|]. destruct (H8 p Hp) as (s1 & Hs1 & <-). exists s1. set_solver.
Qed.

(** *** A whole run *)

Record stage (top : nat) (st : CheckpointStore) (disk : Disk) (old later : list Checkpoint) : Prop := {
  sg_since : since turn old later st;
  sg_contents : contents later st disk;
  sg_top : Forall (λ t, t ≤ top)%nat (turns later);
  sg_low : (turn ≤ top)%nat;
}.

Definition staged (top : nat) (st : CheckpointStore) (disk : Disk) : Prop := ∃ old later, stage top st disk old later.

Lemma staged_begin top st disk t prompt : staged top st disk → (top < t)%nat → staged t (begin st disk t prompt) disk.
Proof.
  intros (old & later & [Hs Hc Ht Hl]) H.
  assert (Forall (λ x, x < t)%nat (turns later)) as Hf by (eapply Forall_impl; [exact Ht|simpl; lia]).
  destruct (since_begin _ _ _ _ disk t prompt Hs ltac:(lia) Hf) as (old' & later' & c & Hs' & El & Hcur & Hct & Hcf & Htree).
  exists old', (later' ++ [c]). constructor; [done| | |lia].
  - apply contents_begin; try done. eapply contents_same; [exact Hc|exact El|reflexivity].
  - rewrite turns_snoc, (core_turns _ _ El), Hct. apply Forall_app. split; [|by constructor].
    eapply Forall_impl; [exact Hf|simpl; lia].
Qed.

Lemma staged_seal top st disk t : staged top st disk → staged top (seal_turn st disk t) disk.
Proof.
  intros (old & later & [Hs Hc Ht Hl]). destruct (since_same _ _ _ _ _ Hs (sx_index _ _ (same_seal st disk t))) as (old' & later' & Hs' & El).
  exists old', later'. constructor; [done| |by rewrite (core_turns _ _ El)|done]. by eapply contents_same; [exact Hc|exact El|apply same_seal].
Qed.

Lemma staged_edit top st disk change now : faultless → one_spelling root names → honest root names disk change →
  staged top st disk → staged top (snapshot st disk change) (edited root disk change now).
Proof.
  intros Hf Ho Hh (old & later & [Hs Hc Ht Hl]).
  destruct (contents_edit _ _ _ _ now Hf Ho Hh ltac:(by exists old) Hc) as (old' & later' & Hs' & El & Hc').
  exists old', later'. constructor; [done..|by rewrite El|done].
Qed.

Lemma staged_first st prompt : cs_git st = None → cs_root st = root → Forall (λ t, t < turn)%nat (turns (index st)) →
  staged turn (begin st disk0 turn prompt) disk0.
Proof.
  intros Hg Hr Hold.
  assert (since turn (index st) [] st) as Hs by (constructor; [done|constructor|constructor|by rewrite app_nil_r]).
  destruct (since_begin _ _ _ _ disk0 turn prompt Hs ltac:(lia) ltac:(by constructor)) as (old' & later' & c & Hs' & El & Hcur & Hct & Hcf & Htree).
  destruct later'; [|done]. exists old', [c]. unfold write_current_tree in Htree. rewrite Hg in Htree.
  destruct (begin_index st disk0 turn prompt) as (c' & _ & Hc' & _ & _ & Hr' & Hsn & Hg' & _). unfold write_current_tree in Hg'. rewrite Hg in Hg'.
  assert (snaps [c] = []) as E by (unfold snaps; cbn; by rewrite Hcf).
  constructor; [done| |constructor; [by rewrite Hct|constructor]|lia].
  constructor; rewrite ?E; try done.
  all: first [by rewrite Hg' | by rewrite Hr' | by constructor | (by left) | (split; [done|by exists c]) | rewrite Hsn; by intros ? ?%not_elem_of_empty | by intros ? ?%elem_of_nil | idtac].
Qed.

Lemma staged_run acts top st disk : faultless → one_spelling root names → ascending top acts → all_honest root names disk acts →
  staged top st disk → ∃ top', staged top' (run (st, disk) acts).1 (run (st, disk) acts).2.
Proof.
  intros Hf Ho. revert top st disk. induction acts as [|[t prompt|t|change now|other] acts IH]; intros top st disk Ha Hh Hst; [by exists top|..]; cbn in Ha, Hh |- *.
  - destruct Ha as [Ht Ha]. apply (IH t); [done..|]. by eapply staged_begin.
  - by apply (IH top), staged_seal.
  - destruct Hh as [Hc Hh]. assert (cs_root st = root) as Hr by (by destruct Hst as (? & ? & [_ [] _ _])). rewrite Hr.
    apply (IH top); [done..|]. by apply staged_edit.
  - done.
Qed.

(** *** The contents that are given back *)

Lemma find_snoc {A} (f : A → bool) l x : List.find f (l ++ [x]) = match List.find f l with Some y => Some y | None => if f x then Some x else None end.
Proof. by rewrite find_app. Qed.

Definition keep_first (acc : list (str * option str)) (f : FileSnap) : list (str * option str) :=
  if existsb (λ e, e.1 =? sn_path f) acc then acc else acc ++ [(sn_path f, sn_content f)].

(** Without a repository the contents to give back are the earliest of each path. *)
Lemma hybrid_firsts (ss : list FileSnap) :
  let h := foldl keep_first [] ss in
  (∀ e, e ∈ h → ∃ s, List.find (names_path e.1) ss = Some s ∧ sn_content s = e.2) ∧ (∀ s, s ∈ ss → ∃ e, e ∈ h ∧ e.1 = sn_path s).
Proof.
  cbv zeta. induction ss as [|f ss [IH1 IH2]] using rev_ind; [split; intros ? H; by apply elem_of_nil in H|].
  rewrite foldl_snoc. set (h := foldl keep_first [] ss) in *. clearbody h.
  assert (∀ e, e ∈ h → ∃ s, List.find (names_path e.1) (ss ++ [f]) = Some s ∧ sn_content s = e.2) as Hold.
  { intros e He. destruct (IH1 e He) as (s & Hs & Hc). exists s. by rewrite find_snoc, Hs. }
  unfold keep_first. destruct (existsb _ h) eqn:Ex.
  - split; [done|]. intros s [Hs| ->%list_elem_of_singleton]%elem_of_app; [by apply IH2|].
    apply existsb_exists in Ex as (e & He%list_elem_of_In & Ee). exists e. split; [done|by apply bool_decide_eq_true in Ee].
  - split.
    + intros e [He| ->%list_elem_of_singleton]%elem_of_app; [by apply Hold|]. exists f. split; [|done]. rewrite find_snoc. cbn [fst].
      destruct (List.find (names_path (sn_path f)) ss) as [s|] eqn:Es; [exfalso|unfold names_path; by rewrite bool_decide_true].
      apply find_some in Es as [Hs%list_elem_of_In Hn%bool_decide_eq_true]. destruct (IH2 s Hs) as (e & He & Ee).
      assert (existsb (λ e, e.1 =? sn_path f) h = true) as C; [|congruence].
      apply existsb_exists. exists e. split; [by apply list_elem_of_In|]. apply bool_decide_eq_true. congruence.
    + intros s [Hs| ->%list_elem_of_singleton]%elem_of_app; [|exists (sn_path f, sn_content f); set_solver].
      destruct (IH2 s Hs) as (e & He & Ee). exists e. set_solver.
Qed.

Lemma hybrid_json st later : cs_git st = None → Forall (λ t, t = None) (cp_tree <$> later) →
  hybrid_of st later = foldl keep_first [] (snaps later).
Proof.
  intros Hg. unfold hybrid_of. generalize (@nil (str * option str)). induction later as [|c l IH]; intros acc Ht; [done|].
  apply Forall_cons in Ht as [Hc Ht]. unfold snaps in *. cbn [foldl fmap list_fmap mjoin list_join]. rewrite foldl_app, <-(IH _ Ht).
  f_equal. generalize acc. induction (cp_files c) as [|f fs IHf]; intros acc'; [done|]. cbn [foldl]. rewrite IHf. f_equal.
  unfold hybrid_one. by rewrite Hg, Hc.
Qed.

Lemma restored (v : option (list N)) (a : list str) (h : list (str * option str)) acc : faultless →
  (∀ e, e ∈ h → safe_path root e.1 = Some a → as_bytes <$> e.2 = v) →
  (acc.1.1 !! a = v ∨ ∃ e, e ∈ h ∧ safe_path root e.1 = Some a) → (foldl (restore_one root) acc h).1.1 !! a = v.
Proof.
  intros Hf. revert acc. induction h as [|e h IH]; intros [[disk w] d] Hv Hor; [destruct Hor as [?|(? & ?%elem_of_nil & _)]; done|].
  cbn [foldl]. apply IH; [intros; apply Hv; [by right|done]|].
  destruct (decide (safe_path root e.1 = Some a)) as [Ea|Ea].
  - left. specialize (Hv e ltac:(left) Ea). unfold restore_one. rewrite Ea. destruct e as [q [body|]]; cbn in *.
    + rewrite (fl_write Hf). cbn. by rewrite lookup_insert_eq.
    + rewrite (fl_remove Hf), andb_true_r. case_bool_decide as Hd; cbn; [by rewrite lookup_delete_eq|]. rewrite <-Hv. by apply eq_None_not_Some.
  - destruct Hor as [H|(e' & He & Ha)]; [left|right].
    + unfold restore_one. destruct (safe_path root e.1) as [b|] eqn:Eb; [|done]. assert (b ≠ a) by congruence. destruct (e.2); [|destruct (_ && _)];
        rewrite ?(fl_write Hf); cbn in *; rewrite ?lookup_insert_ne, ?lookup_delete_ne by done; done.
    + apply elem_of_cons in He as [->|He]; [done|]. by exists e'.
Qed.

Lemma contents_restored top st disk : faultless → staged top st disk → (restore_code st disk turn).1.1.2 = disk0.
Proof.
  intros Hf (old & later & [Hs [H1 H2 [H3 _] H4 H5 H6 H7 H8] _ _]). unfold restore_code. rewrite (since_later _ _ _ _ Hs), bool_decide_false by done.
  rewrite hybrid_json by done. destruct (hybrid_firsts (snaps later)) as [Hh1 Hh2]. cbv zeta in Hh1, Hh2. set (h := foldl _ [] (snaps later)) in *.
  assert ((foldl (restore_one root) (disk, [], []) h).1.1 = disk0) as E.
  { apply map_eq. intros a. apply restored; [done|..].
    - intros e He Ha. destruct (Hh1 e He) as (s & Hfind & <-). by rewrite (H6 _ _ Hfind a Ha).
    - destruct (H7 a) as [|(s & Hin & Ha)]; [by left|right]. destruct (Hh2 s Hin) as (e & He & Ee). exists e. by rewrite Ee. }
  destruct (tree_hex_at_or_before st turn); rewrite ?H1; unfold hybrid_restore; rewrite H2;
    destruct (foldl (restore_one root) _ h) as [[disk' w] d]; exact E.
Qed.
End Contents.

(** C23: A rewind is the inverse of what happened since the turn began: in a workspace without a
    repository, after any number of later turns, seals and changes of files that were declared
    before they were made, restoring to the turn gives back the disk of its beginning, byte for
    byte, with new files removed and deleted ones written again. *)
Theorem rewind_restores root names st disk turn prompt acts : faultless → cs_git st = None → cs_root st = root →
  Forall (λ t, t < turn)%nat (turns (index st)) → one_spelling root names → ascending turn acts → all_honest root names disk acts →
  let '(st', disk') := run (st, disk) (ABegin turn prompt :: acts) in (restore_code st' disk' turn).1.1.2 = disk.
Proof.
  intros Hf Hg Hr Hold Ho Ha Hh. cbn [run foldl act]. fold (run (begin st disk turn prompt, disk) acts).
  destruct (staged_run root names disk turn acts turn _ disk Hf Ho Ha Hh (staged_first root names disk turn st prompt Hg Hr Hold)) as [top Hst].
  destruct (run _ acts) as [st' disk']. by eapply contents_restored.
Qed.
(** ** Rewinding from trees *)

Lemma below_Some root a rel : below root a = Some rel ↔ a = components root ++ rel.
Proof.
  unfold below. split.
  - case_bool_decide as H; [|done]. intros [= <-]. rewrite <-H at 1. by rewrite take_drop.
  - intros ->. by rewrite take_app_length, drop_app_length, bool_decide_true.
Qed.

Lemma NoDup_omap_fst {A B C D} (f : A * B → option (C * D)) (l : list (A * B)) : NoDup l.*1 →
  (∀ x y u v, f x = Some u → f y = Some v → u.1 = v.1 → x.1 = y.1) → NoDup (omap f l).*1.
Proof.
  intros Hl Hinj. induction l as [|x l IH]; [constructor|]. rewrite fmap_cons in Hl. apply NoDup_cons in Hl as [Hx Hl]. cbn [omap list_omap].
  destruct (f x) as [u|] eqn:E; [|by apply IH]. rewrite fmap_cons. constructor; [|by apply IH].
  intros (v & Huv & (y & Hy & Ey)%list_elem_of_omap)%list_elem_of_fmap. apply Hx, list_elem_of_fmap. exists y. split; [|done]. by eapply Hinj.
Qed.

(** The tree of the workspace holds its tracked files. *)
Lemma tree_lookup root disk rel : workspace_tree root disk !! rel = if tracked rel then disk !! (components root ++ rel) else None.
Proof.
  apply option_eq. intros bytes. unfold workspace_tree. rewrite <-elem_of_list_to_map.
  - rewrite list_elem_of_omap. split.
    + intros ([a b] & Hin & E). cbn in E. destruct (below root a) as [r|] eqn:Eb; [|done]. cbn in E. apply below_Some in Eb as ->.
      destruct (tracked r) eqn:Et; [|done]. injection E as <- <-. rewrite Et. by apply elem_of_map_to_list.
    + destruct (tracked rel) eqn:Et; [|done]. intros H. exists (components root ++ rel, bytes). split; [by apply elem_of_map_to_list|].
      cbn. rewrite (proj2 (below_Some root _ rel) eq_refl). cbn. by rewrite Et.
  - apply NoDup_omap_fst; [apply NoDup_fst_map_to_list|]. intros [a b] [a' b'] u v Hu Hv E. cbn in *.
    destruct (below root a) as [r|] eqn:Ea, (below root a') as [r'|] eqn:Ea'; cbn in Hu, Hv; [|done..].
    apply below_Some in Ea as ->. apply below_Some in Ea' as ->. destruct (tracked r), (tracked r'); [|done..]. simplify_eq. cbn in E. by subst.
Qed.

Lemma checkout_lookup (r : list str) (t : Tree) (l : list (list str)) (disk : Disk) (a : list str) (v : option (list N)) :
  (∀ rel, rel ∈ l → a = r ++ rel → t !! rel = None ∨ t !! rel = v) →
  (disk !! a = v ∨ ∃ rel, rel ∈ l ∧ a = r ++ rel ∧ t !! rel = v ∧ is_Some v) → foldl (checkout r t) disk l !! a = v.
Proof.
  revert disk. induction l as [|rel l IH]; intros disk Hv Hor; [destruct Hor as [?|(? & ?%elem_of_nil & _)]; done|].
  cbn [foldl]. apply IH; [intros; apply Hv; [by right|done]|].
  unfold checkout. destruct (decide (a = r ++ rel)) as [->|Ha].
  - destruct (Hv rel ltac:(left) eq_refl) as [E|E]; destruct (t !! rel) as [b|] eqn:Et; try done.
    + destruct Hor as [?|(rel' & [->|Hin]%elem_of_cons & Ha & Hr & [b Hb])]; [by left|congruence|right; exists rel'; eauto].
    + left. by rewrite lookup_insert_eq.
    + destruct Hor as [?|(rel' & [->|Hin]%elem_of_cons & Ha & Hr & [b Hb])]; [by left|congruence|right; exists rel'; eauto].
  - destruct Hor as [H|(rel' & [->|Hin]%elem_of_cons & Ha' & Hr)]; [|done|right; by exists rel'].
    left. destruct (t !! rel); [|done]. by rewrite lookup_insert_ne.
Qed.

Lemma remove_lookup (r : list str) (l : list (list str)) (acc : Disk * list str) (a : list str) (v : option (list N)) : faultless →
  (∀ rel, rel ∈ l → a = r ++ rel → has_dots rel = false → v = None) →
  (acc.1 !! a = v ∨ ∃ rel, rel ∈ l ∧ a = r ++ rel ∧ has_dots rel = false) → (foldl (remove_rel r) acc l).1 !! a = v.
Proof.
  intros Hf. revert acc. induction l as [|rel l IH]; intros [disk w] Hv Hor; [destruct Hor as [?|(? & ?%elem_of_nil & _)]; done|].
  cbn [foldl]. apply IH; [intros; eapply Hv; [by right|done..]|].
  unfold remove_rel. destruct (decide (a = r ++ rel)) as [->|Ha].
  - destruct (has_dots rel) eqn:Ed.
    + destruct Hor as [?|(rel' & [->|Hin]%elem_of_cons & Ha & Hd)]; [by left|congruence|right; by exists rel'].
    + rewrite (Hv rel ltac:(left) eq_refl Ed), (fl_remove Hf), andb_true_r. left. case_bool_decide as Hs; cbn; [by rewrite lookup_delete_eq|].
      by apply eq_None_not_Some.
  - destruct Hor as [H|(rel' & [->|Hin]%elem_of_cons & Ha' & Hd)]; [|done|right; by exists rel'].
    left. destruct (has_dots rel); [done|]. destruct (_ && _); cbn in *; [by rewrite lookup_delete_ne|done].
Qed.

Lemma to_checkout_spec (t cur : Tree) rel : rel ∈ to_checkout t cur ↔ is_Some (t !! rel) ∧ t !! rel ≠ cur !! rel.
Proof.
  unfold to_checkout. rewrite list_elem_of_In, filter_In, <-list_elem_of_In, list_elem_of_fmap, negb_true_iff, bool_decide_eq_false.
  split; intros [Hd Hne]; (split; [|done]).
  - destruct Hd as ([k b] & -> & Hin). apply elem_of_map_to_list in Hin. by exists b.
  - destruct Hd as [b Hb]. exists (rel, b). split; [done|]. by apply elem_of_map_to_list.
Qed.

Lemma to_remove_spec (t cur : Tree) rel : rel ∈ to_remove t cur ↔ is_Some (cur !! rel) ∧ t !! rel = None.
Proof.
  unfold to_remove. rewrite list_elem_of_In, filter_In, <-list_elem_of_In, list_elem_of_fmap, bool_decide_eq_true.
  split; intros [Hd Hne]; (split; [|done]).
  - destruct Hd as ([k b] & -> & Hin). apply elem_of_map_to_list in Hin. by exists b.
  - destruct Hd as [b Hb]. exists (rel, b). split; [done|]. by apply elem_of_map_to_list.
Qed.

(** The repository knows a tree. *)
Definition knows (st : CheckpointStore) (t : Tree) : Prop := ∃ objects, cs_git st = Some objects ∧ objects !! tree_hex t = Some t.

Lemma write_tree_git st disk objects : ci_tree io = true → cs_git st = Some objects →
  write_current_tree st disk = (with_objects st (Some (<[tree_hex (workspace_tree (cs_root st) disk) := workspace_tree (cs_root st) disk]> objects)),
    Some (tree_hex (workspace_tree (cs_root st) disk))).
Proof. intros Hf Hg. unfold write_current_tree. by rewrite Hg, Hf. Qed.

Lemma insert_knows (objects : gmap str Tree) t u : objects !! tree_hex t = Some t → <[tree_hex u := u]> objects !! tree_hex t = Some t.
Proof.
  intros H. destruct (decide (tree_hex u = tree_hex t)) as [E|E]; [|by rewrite lookup_insert_ne].
  apply (inj tree_hex) in E as ->. by rewrite lookup_insert_eq.
Qed.

Lemma write_tree_knows st disk t : ci_tree io = true → knows st t → knows (write_current_tree st disk).1 t.
Proof. intros Hf (objects & Hg & Ht). rewrite (write_tree_git _ _ objects) by done. eexists. split; [done|]. by apply insert_knows. Qed.

(** Restoring a known tree gives its files back, and leaves what is outside of the workspace. *)
Lemma git_restored st disk t : faultless → knows st t →
  let '(st', disk', _, _) := git_restore st disk (tree_hex t) in
  cs_root st' = cs_root st ∧
  (∀ rel, tracked rel = true → has_dots rel = false → disk' !! (components (cs_root st) ++ rel) = t !! rel) ∧
  (∀ a, below (cs_root st) a = None → disk' !! a = disk !! a).
Proof.
  intros Hf (objects & Hg & Ht). unfold git_restore. rewrite (write_tree_git _ _ objects) by first [done|apply Hf]. cbn [with_objects cs_git cs_root].
  rewrite insert_knows by done. rewrite (fl_checkout Hf). set (r := components (cs_root st)). set (cur := workspace_tree (cs_root st) disk).
  pose proof (remove_lookup r (to_remove t cur) (foldl (checkout r t) disk (to_checkout t cur), []) ) as Hrm.
  destruct (foldl (remove_rel r) _ (to_remove t cur)) as [disk' deleted] eqn:E. cbn [fst] in *. split_and!; [done| |].
  - intros rel Htr Hd. apply Hrm; [done|..].
    + intros rel' Hin ?%app_inv_head _. subst rel'. by apply to_remove_spec in Hin as [_ ?].
    + assert (cur !! rel = disk !! (r ++ rel)) as Hcur by (unfold cur; by rewrite tree_lookup, Htr).
      destruct (t !! rel) as [b|] eqn:Et.
      * left. apply checkout_lookup; [intros rel' Hin ?%app_inv_head; subst rel'; by right|].
        destruct (decide (cur !! rel = Some b)) as [Ec|Ec]; [left; congruence|right]. exists rel. split_and!; try done. apply to_checkout_spec. rewrite Et. split; [done|congruence].
      * destruct (cur !! rel) as [b|] eqn:Ec; [right; exists rel; split_and!; [|done..]; apply to_remove_spec; by rewrite Ec|left].
        apply checkout_lookup; [intros rel' Hin ?%app_inv_head; subst rel'; by left|left; done].
  - intros a Ha.
    assert (∀ rel, a ≠ r ++ rel) as Hn by (intros rel Hr; unfold r in Hr; apply below_Some in Hr; congruence).
    apply Hrm; [done|by intros rel _ ?%Hn|left]. apply checkout_lookup; [by intros rel _ ?%Hn|by left].
Qed.

(** *** A whole run *)

Section Trees.
Variables (root : str) (turn : nat) (t0 : Tree).

Definition marks (l : list Checkpoint) : list (nat * option str) := (λ c, (cp_turn c, cp_tree c)) <$> l.

Lemma core_marks l l' : core <$> l = core <$> l' → marks l = marks l'.
Proof. by apply (core_part (λ c, (cp_turn c, cp_tree c)) (λ x, x.1)). Qed.

(** The first checkpoint of the turn has the tree, and later ones hold contents of files
    outside of the workspace only. *)
Record recorded (later : list Checkpoint) (st : CheckpointStore) : Prop := {
  rc_knows : knows st t0;
  rc_root : cs_root st = root;
  rc_tree : head (marks later) = Some (turn, Some (tree_hex t0));
  rc_snaps : ∀ s, s ∈ snaps later → sn_content s = None ∨ path_inside_root root (sn_path s) = false;
}.

Definition going (top : nat) (st : CheckpointStore) : Prop :=
  ∃ old later, since turn old later st ∧ recorded later st ∧ Forall (λ t, t ≤ top)%nat (turns later) ∧ (turn ≤ top)%nat.

Lemma head_marks_snoc later c : is_Some (head (marks later)) → head (marks (later ++ [c])) = head (marks later).
Proof. destruct later; [by intros []|done]. Qed.

Lemma going_begin top st disk t prompt : faultless → going top st → (top < t)%nat → going t (begin st disk t prompt).
Proof.
  intros Hf (old & later & Hs & [Hk Hr Ht Hn] & Htop & Hlow) H.
  assert (Forall (λ x, x < t)%nat (turns later)) as Hlt by (eapply Forall_impl; [exact Htop|simpl; lia]).
  destruct (since_begin _ _ _ _ disk t prompt Hs ltac:(lia) Hlt) as (old' & later' & c & Hs' & El & Hcur & Hct & Hcf & Htree).
  destruct (begin_index st disk t prompt) as (_ & _ & _ & _ & _ & Hr' & _ & Hg' & _).
  exists old', (later' ++ [c]). split_and!; [done| | |lia].
  - constructor.
    + destruct (write_tree_knows st disk t0 (fl_tree Hf) Hk) as (objects & Hg & Ho). exists objects. by rewrite Hg'.
    + by rewrite Hr'.
    + rewrite head_marks_snoc, (core_marks _ _ El); [done|]. rewrite (core_marks _ _ El), Ht. by eexists.
    + assert (snaps (later' ++ [c]) = snaps later) as -> by (rewrite snaps_app, (core_snaps _ _ El); unfold snaps at 2; simpl; by rewrite Hcf, !app_nil_r). done.
  - rewrite turns_snoc, (core_turns _ _ El), Hct. apply Forall_app. split; [|by constructor]. eapply Forall_impl; [exact Hlt|simpl; lia].
Qed.

Lemma going_seal top st disk t : going top st → going top (seal_turn st disk t).
Proof.
  intros (old & later & Hs & [Hk Hr Ht Hn] & Htop & Hlow). pose proof (same_seal st disk t) as [Hx Hc Hr' Hg' Hs'].
  destruct (since_same _ _ _ _ _ Hs Hx) as (old' & later' & Hsi & El). exists old', later'. split_and!; [done| |by rewrite (core_turns _ _ El)|done].
  constructor; [|by rewrite Hr'|by rewrite (core_marks _ _ El)|by rewrite (core_snaps _ _ El)].
  destruct Hk as (objects & Hg & Ho). exists objects. by rewrite Hg'.
Qed.

Lemma old_content_git st disk change : is_Some (cs_git st) → cs_root st = root →
  old_content st disk change = None ∨ path_inside_root root (fc_path change) = false.
Proof.
  intros Hg Hr. unfold old_content. rewrite bool_decide_true, Hr by done. destruct (path_inside_root root (fc_path change)); [by left|by right].
Qed.

Lemma going_snapshot top st disk change : going top st → going top (snapshot st disk change).
Proof.
  intros Hgo. pose proof Hgo as (old & later & Hs & [Hk Hr Ht Hn] & Htop & Hlow).
  destruct (decide (fc_path change = [])) as [Ep|Ep]; [unfold snapshot; by rewrite bool_decide_true|].
  destruct (cs_cur st) as [c|] eqn:Ec; [|unfold snapshot; rewrite bool_decide_false by done; by rewrite Ec].
  destruct (snapshot_index st disk change c Ec Ep) as (Hr' & Hg' & Hx). case_bool_decide as Hseen; [by rewrite Hx|].
  destruct Hx as (Hd & _ & Hc). destruct (since_cur _ _ _ _ _ Hs Ec) as (l & -> & Hl); [by intros ->|].
  set (s := mkSnap _ _) in *. exists old, (l ++ [cp_with_file c s]). split_and!; [by eapply since_file| |by rewrite turns_snoc in *|done].
  constructor.
  - destruct Hk as (objects & Hg & Ho). exists objects. by rewrite Hg'.
  - by rewrite Hr'.
  - unfold marks in *. by rewrite fmap_app in *.
  - rewrite snaps_cur. intros s' [Hin| ->%list_elem_of_singleton]%elem_of_app; [by apply Hn|].
    apply old_content_git; [|done]. destruct Hk as (objects & -> & _). by eexists.
Qed.

Lemma going_run acts top st disk : faultless → ascending top acts → going top st → ∃ top', going top' (run (st, disk) acts).1.
Proof.
  intros Hf. revert top st disk. induction acts as [|[t prompt|t|change now|other] acts IH]; intros top st disk Ha Hgo; [by exists top|..]; cbn in Ha |- *.
  - destruct Ha as [Ht Ha]. apply (IH t); [done|]. by eapply going_begin.
  - by apply (IH top), going_seal.
  - by apply (IH top), going_snapshot.
  - by apply (IH top).
Qed.

(** The tree to go back to is that of the turn. *)
Lemma target_is_turn old later st : since turn old later st → recorded later st → tree_hex_at_or_before st turn = Some (tree_hex t0).
Proof.
  intros Hs [_ _ Ht _]. unfold tree_hex_at_or_before. rewrite (since_all _ _ _ _ Hs), List.filter_app.
  destruct Hs as [_ _ Hso _]. destruct later as [|c later]; [done|]. cbn in Ht. injection Ht as Hct Htr.
  unfold turns in Hso. rewrite fmap_cons in Hso. apply StronglySorted_inv in Hso as [_ Hc]. cbn [List.filter].
  rewrite (proj2 (Nat.leb_le _ _)) by lia. rewrite (filter_all_false _ later).
  - assert (omap cp_tree [c] = [tree_hex t0]) as E by (cbn; by rewrite Htr). rewrite omap_app, E. by rewrite last_snoc.
  - rewrite Forall_fmap in Hc. eapply Forall_impl; [exact Hc|]. intros x Hx. apply Nat.leb_gt. simpl in Hx. lia.
Qed.

(** Contents are given back for paths outside of the workspace only. *)
Lemma hybrid_outside later st : recorded later st → ∀ e, e ∈ hybrid_of st later → path_inside_root root e.1 = false.
Proof.
  intros [(objects & Hg & _) Hr _ Hn]. unfold hybrid_of.
  assert (∀ fs c acc, (∀ s, s ∈ fs → sn_content s = None ∨ path_inside_root root (sn_path s) = false) →
            (∀ e, e ∈ acc → path_inside_root root e.1 = false) → ∀ e, e ∈ foldl (hybrid_one st c) acc fs → path_inside_root root e.1 = false) as Hin.
  { induction fs as [|f fs IH]; intros c acc Hfs Hacc; [done|]. cbn [foldl]. apply IH; [intros; apply Hfs; by right|].
    unfold hybrid_one. rewrite Hg, Hr. cbn. specialize (Hfs f ltac:(left)).
    destruct (bool_decide (sn_content f = None) && path_inside_root root (sn_path f)) eqn:Ek; [done|]. destruct (existsb _ acc); [done|].
    intros e [He| ->%list_elem_of_singleton]%elem_of_app; [by apply Hacc|]. cbn. destruct Hfs as [Hf|Hf]; [|done]. by rewrite bool_decide_true in Ek by done. }
  assert (∀ acc, (∀ e, e ∈ acc → path_inside_root root e.1 = false) →
    ∀ e, e ∈ foldl (λ acc c, foldl (hybrid_one st c) acc (cp_files c)) acc later → path_inside_root root e.1 = false) as Hall; [|by apply Hall; intros e ?%elem_of_nil].
  clear -Hin Hn. induction later as [|c l IH]; intros acc Hacc; [done|]. cbn [foldl]. apply IH.
  - intros s Hs. apply Hn. unfold snaps in *. cbn. apply elem_of_app. by right.
  - apply Hin; [|done]. intros s Hs. apply Hn. unfold snaps. cbn. apply elem_of_app. by left.
Qed.

Lemma outside_below p a : path_inside_root root p = false → safe_path root p = Some a → below root a = None.
Proof.
  unfold path_inside_root, safe_path. destruct (contains TWO_DOTS p); [done|]. destruct (path_is_absolute p) eqn:Ep; [|done].
  intros Hs [= <-]. rewrite path_join_absolute by done. destruct (below root (components p)) as [rel|] eqn:Eb; [|done].
  apply below_Some in Eb. apply bool_decide_eq_false in Hs. destruct Hs. rewrite Eb. by apply prefix_app_r.
Qed.

Lemma going_first st disk prompt objects : faultless → cs_git st = Some objects → cs_root st = root → Forall (λ t, t < turn)%nat (turns (index st)) →
  workspace_tree root disk = t0 → going turn (begin st disk turn prompt).
Proof.
  intros Hf Hg Hr Hold Ht0.
  assert (since turn (index st) [] st) as Hs by (constructor; [done|constructor|constructor|by rewrite app_nil_r]).
  destruct (since_begin _ _ _ _ disk turn prompt Hs ltac:(lia) ltac:(by constructor)) as (old' & later' & c & Hs' & El & _ & Hct & Hcf & Htree).
  destruct later'; [|done]. destruct (begin_index st disk turn prompt) as (_ & _ & _ & _ & _ & Hr' & _ & Hg' & _).
  rewrite (write_tree_git _ _ objects) in Htree, Hg' by first [done|apply Hf]. rewrite Hr, Ht0 in Htree, Hg'. cbn in Htree, Hg'.
  exists old', [c]. split_and!; [done| |constructor; [by rewrite Hct|constructor]|lia]. constructor.
  - eexists. split; [exact Hg'|]. by rewrite lookup_insert_eq.
  - by rewrite Hr'.
  - cbn. by rewrite Hct, Htree.
  - unfold snaps. cbn. rewrite Hcf. by intros s ?%elem_of_nil.
Qed.

Lemma going_restored top st disk : faultless → going top st → ∀ rel, tracked rel = true → has_dots rel = false →
  (restore_code st disk turn).1.1.2 !! (components root ++ rel) = t0 !! rel.
Proof.
  intros Hf (old & later & Hs & Hrec & _ & _) rel Htr Hd. unfold restore_code. rewrite (since_later _ _ _ _ Hs).
  rewrite bool_decide_false by (intros ->; by destruct Hrec). rewrite (target_is_turn _ _ _ Hs Hrec).
  pose proof (hybrid_outside _ _ Hrec) as Hout. destruct Hrec as [Hk Hr _ _]. pose proof (git_restored st disk t0 Hf Hk) as Hg. destruct Hk as (objects & Hgit & _).
  rewrite Hgit. destruct (git_restore st disk (tree_hex t0)) as [[[st' disk'] w] d]. destruct Hg as (Hr' & Hg & _). specialize (Hg rel Htr Hd). rewrite Hr in Hr', Hg.
  pose proof (restored root (t0 !! rel) (components root ++ rel) (hybrid_of st later) (disk', [], []) Hf) as Hh.
  unfold hybrid_restore. rewrite Hr'. destruct (foldl _ _ (hybrid_of st later)) as [[disk2 hw] hd] eqn:E. cbn in Hh |- *. apply Hh; [|by left].
  intros e He Hp. pose proof (outside_below _ _ (Hout e He) Hp) as Hb. pose proof (proj2 (below_Some root _ rel) eq_refl). congruence.
Qed.
End Trees.

(** C24: In a workspace with a repository a rewind undoes everything: after any number of later
    turns, and whatever tools, commands and others made of the disk, restoring to the turn
    gives back every file the repository takes as it was when the turn began, and removes the
    files that came since. *)
Theorem git_rewind_restores root st disk objects turn prompt acts : faultless → cs_git st = Some objects → cs_root st = root →
  Forall (λ t, t < turn)%nat (turns (index st)) → ascending turn acts →
  let '(st', disk') := run (st, disk) (ABegin turn prompt :: acts) in
  ∀ rel, tracked rel = true → has_dots rel = false →
    (restore_code st' disk' turn).1.1.2 !! (components root ++ rel) = disk !! (components root ++ rel).
Proof.
  intros Hf Hg Hr Hold Ha. cbn [run foldl act]. fold (run (begin st disk turn prompt, disk) acts).
  pose proof (going_first root turn _ st disk prompt objects Hf Hg Hr Hold eq_refl) as Hgo.
  destruct (going_run root turn _ acts turn _ disk Hf Ha Hgo) as [top Htop]. destruct (run _ acts) as [st' disk'].
  intros rel Htr Hd. pose proof (going_restored root turn _ top st' disk' Hf Htop rel Htr Hd) as ->. by rewrite tree_lookup, Htr.
Qed.

(** ** Conflicts *)

Definition declares (p : str) (c : Checkpoint) : bool := bool_decide (p ∈ declared_paths c).

Definition sealed_hash (c : Checkpoint) (p : str) : option str := List.find (λ f, fp_path f =? p) (cp_after c) ≫= fp_hash.

Definition entry_of_path (c : Checkpoint) (p : str) : str * bool * option str := (p, cp_sealed c, sealed_hash c p).

(** The last checkpoint that declares a path. *)
Definition last_with (p : str) (l : list Checkpoint) : option Checkpoint := last (List.filter (declares p) l).

Lemma declare_spec c acc p e : e ∈ declare c acc p ↔ e = entry_of_path c p ∨ (e.1.1 ≠ p ∧ e ∈ acc).
Proof.
  unfold declare. destruct (existsb _ acc) eqn:Ex.
  - apply existsb_exists in Ex as (x & Hx%list_elem_of_In & Ep%bool_decide_eq_true). rewrite list_elem_of_fmap. split.
    + intros (y & -> & Hy). case_bool_decide as E; [left; by rewrite <-E|by right].
    + intros [->|[Hne He]]; [exists x|exists e]; (split; [|done]); [by rewrite bool_decide_true, Ep|by rewrite bool_decide_false].
  - rewrite elem_of_app, list_elem_of_singleton. split.
    + intros [He| ->]; [right; split; [intros Ep|done]|by left].
      assert (existsb (λ e, e.1.1 =? p) acc = true); [|congruence]. apply existsb_exists. exists e. split; [by apply list_elem_of_In|by apply bool_decide_eq_true].
    + intros [->|[_ He]]; [by right|by left].
Qed.

Lemma declares_fold c ps acc e : e ∈ foldl (declare c) acc ps ↔ (e.1.1 ∈ ps ∧ e = entry_of_path c e.1.1) ∨ ((e.1.1 ∉ ps) ∧ e ∈ acc).
Proof.
  induction ps as [|p ps IH] using rev_ind; [cbn; set_solver|]. rewrite foldl_snoc, declare_spec, IH, elem_of_app, list_elem_of_singleton. split.
  - intros [->|[Hne [[Hin He]|[Hin He]]]]; [left; by split; [right|]|left; by split; [left|]|right]. split; [by intros [?|?]|done].
  - intros [[[Hin|Hp] He]|[Hin He]].
    + destruct (decide (e.1.1 = p)) as [<-|Hne]; [by left|right]. by split; [|left].
    + left. by rewrite <-Hp.
    + right. split; [intros Hp; apply Hin; by right|right]. split; [intros Hp; apply Hin; by left|done].
Qed.

Lemma last_with_snoc p l c : last_with p (l ++ [c]) = if declares p c then Some c else last_with p l.
Proof. unfold last_with. rewrite List.filter_app. cbn. destruct (declares p c); [by rewrite last_snoc|by rewrite app_nil_r]. Qed.

Lemma last_declared_spec l e : e ∈ last_declared l ↔ ∃ c, last_with e.1.1 l = Some c ∧ e = entry_of_path c e.1.1.
Proof.
  unfold last_declared. induction l as [|c l IH] using rev_ind; [cbn; rewrite elem_of_nil; split; [done|by intros (? & ? & _)]|].
  rewrite foldl_snoc, declares_fold, IH, last_with_snoc. unfold declares. case_bool_decide as Hd; split.
  - intros [[_ He]|[? _]]; [|done]. by exists c.
  - intros (c' & [= <-] & He). by left.
  - intros [[? _]|[_ He]]; done.
  - intros He. by right.
Qed.

Lemma check_declared_conflicts st disk es r x : x ∈ cr_conflicts (foldl (check_declared st disk) r es) ↔
  x ∈ cr_conflicts r ∨ ∃ p h, (p, true, Some h) ∈ es ∧ hash_on_disk st disk p ≠ Some h ∧ x = mkConflict p h (default [] (hash_on_disk st disk p)).
Proof.
  revert r. induction es as [|[[p sealed] h] es IH]; intros r; [cbn; split; [by left|intros [?|(? & ? & ?%elem_of_nil & _)]; done]|].
  cbn [foldl]. rewrite IH. clear IH.
  assert (x ∈ cr_conflicts (check_declared st disk r (p, sealed, h)) ↔ x ∈ cr_conflicts r ∨
    ∃ h', sealed = true ∧ h = Some h' ∧ hash_on_disk st disk p ≠ Some h' ∧ x = mkConflict p h' (default [] (hash_on_disk st disk p))) as ->.
  { unfold check_declared. destruct sealed; cbn; [|naive_solver]. destruct h as [h|]; cbn; [|naive_solver].
    case_bool_decide as E; cbn; rewrite ?elem_of_app, ?list_elem_of_singleton; naive_solver. }
  setoid_rewrite elem_of_cons. naive_solver.
Qed.

Lemma scan_conflicts st disk from_turn :
  cr_conflicts (conflict_scan st disk from_turn).2 =
  cr_conflicts (foldl (check_declared st disk) (mkReport [] []) (last_declared (List.filter (λ c, (from_turn <=? cp_turn c)%nat) (all_checkpoints st)))).
Proof.
  unfold conflict_scan. destruct (cs_git st); [|done]. destruct (tree_hex_at_or_before st from_turn); [|done]. destruct (latest_tree_hex st); [|done].
  case_bool_decide; [done|]. destruct (write_current_tree st disk) as [st' hex]. destruct (cs_git st' ≫= _); [|done]. destruct (cs_git st' ≫= _); [|done]. by destruct hex.
Qed.

(** C25: Changes from outside are found exactly: a file is reported as a conflict when, and only
    when, the last turn to declare it, among those that the rewind would undo, was sealed with
    a hash and the file on the disk has another one now, or is gone. *)
Theorem conflicts_exact st disk from_turn x :
  x ∈ cr_conflicts (conflict_scan st disk from_turn).2 ↔
  ∃ c p h, last_with p (List.filter (λ c, (from_turn <=? cp_turn c)%nat) (all_checkpoints st)) = Some c ∧
    cp_sealed c = true ∧ sealed_hash c p = Some h ∧ hash_on_disk st disk p ≠ Some h ∧
    x = mkConflict p h (default [] (hash_on_disk st disk p)).
Proof.
  rewrite scan_conflicts, check_declared_conflicts. setoid_rewrite last_declared_spec. cbn. unfold entry_of_path. split.
  - intros [?%elem_of_nil|(p & h & (c & Hc & [= Hs Hh]) & Hne & ->)]; [done|]. exists c, p, h. naive_solver.
  - intros (c & p & h & Hc & Hs & Hh & Hne & ->). right. exists p, h. split; [exists c; by rewrite Hs, Hh|done].
Qed.
End Store.

(** ** Particular runs *)

Definition demo_io : CheckIo := mkCheckIo (λ _, true) (λ _, true) (λ _, true) true true true (lit "now").

(** A repository that leaves [.env] out, and names a tree by its number. *)
Definition demo_git : ShadowGit.
Proof.
  refine {| tracked := λ rel, negb (bool_decide (rel = [lit ".env"])); tree_hex := λ t, [Npos (encode t)] |}.
  intros t t' [= E]. by apply (inj encode).
Defined.

Definition demo_root : str := lit "/w".
Definition at_name (s : string) : list str := [lit "/"; lit "w"; lit s].
Definition demo_disk : Disk := <[at_name "a.txt" := as_bytes (lit "old")]> (<[at_name "p.png" := [255%N]]> (<[at_name ".env" := as_bytes (lit "KEY")]> ∅)).

#[local] Existing Instances demo_git toy_sha.

Definition json_store : CheckpointStore := mkStore (Some ∅) demo_root None [] None ∅.
Definition git_store : CheckpointStore := mkStore (Some ∅) demo_root (Some ∅) [] None ∅.

Definition modify (s : string) : FileChange := mkFileChange (lit s) FcModify.
Definition after_rewind (st : CheckpointStore) (acts : list Act) : Disk :=
  let '(st', disk') := run demo_io (st, demo_disk) (ABegin 1 (lit "go") :: acts) in (restore_code demo_io st' disk' 1).1.1.2.

Definition demo_acts : list Act :=
  [AEdit (modify "a.txt") (Some (as_bytes (lit "new"))); AEdit (mkFileChange (lit "b.txt") FcCreate) (Some []); ASeal 1;
   ABegin 2 (lit "on"); AEdit (mkFileChange (lit "a.txt") FcDelete) None].

Lemma demo_faultless : faultless demo_io.
Proof. by constructor. Qed.

Lemma rewind_restores_witness : after_rewind json_store demo_acts = demo_disk.
Proof.
  apply (rewind_restores demo_io demo_root [lit "a.txt"; lit "b.txt"] json_store demo_disk 1 (lit "go") demo_acts);
    [constructor; reflexivity|reflexivity|reflexivity|constructor| |cbn; lia|].
  - intros p q Hp Hq E. repeat (apply elem_of_cons in Hp as [->|Hp] || (by apply elem_of_nil in Hp));
      repeat (apply elem_of_cons in Hq as [->|Hq] || (by apply elem_of_nil in Hq)); first [reflexivity|vm_compute in E; discriminate E].
  - split; [|split; [|split; [|done]]].
    + refine (conj _ (conj _ (ex_intro _ (at_name "a.txt") (conj eq_refl _)))); [done|by left|].
      intros bytes Hb. vm_compute in Hb. injection Hb as <-. vm_compute. by eexists.
    + refine (conj _ (conj _ (ex_intro _ (at_name "b.txt") (conj eq_refl _)))); [done|by right; left|by vm_compute].
    + refine (conj _ (conj _ (ex_intro _ (at_name "a.txt") (conj eq_refl _)))); [done|by left|].
      intros bytes Hb. vm_compute in Hb. injection Hb as <-. vm_compute. by eexists.
Defined.

Lemma git_rewind_restores_witness :
  after_rewind git_store [AEdit (modify "a.txt") None; AOutside (<[at_name "new" := []]> ∅)] !! at_name "a.txt" = Some (as_bytes (lit "old")).
Proof.
  pose proof (git_rewind_restores demo_io demo_root git_store demo_disk ∅ 1 (lit "go") [AEdit (modify "a.txt") None; AOutside (<[at_name "new" := []]> ∅)]
    demo_faultless eq_refl eq_refl (Forall_nil_2 _) I) as H. unfold after_rewind. destruct (run _ _ _) as [st' disk'].
  etransitivity; [by apply (H [lit "a.txt"])|by vm_compute].
Defined.

(** Observed: An old file that is not text has no recorded content, so that the rewind of its change
    takes it for a file that was not there, and removes it. *)
Theorem binary_file_removed : after_rewind json_store [AEdit (modify "p.png") (Some [1%N])] !! at_name "p.png" = None.
Proof. by vm_compute. Qed.

(** Observed: With a repository no contents are kept for files in the workspace; a declared change of
    a file that the repository leaves out stays. *)
Theorem left_out_file_stays :
  after_rewind git_store [AEdit (modify ".env") (Some (as_bytes (lit "LOST")))] !! at_name ".env" = Some (as_bytes (lit "LOST")) ∧
  after_rewind json_store [AEdit (modify ".env") (Some (as_bytes (lit "LOST")))] !! at_name ".env" = Some (as_bytes (lit "KEY")).
Proof. by split; vm_compute. Qed.

(** Observed: A name with two dots in a row counts as a way out of the workspace, and its file is not
    given back. *)
Theorem dotted_name_stays :
  after_rewind json_store [AEdit (mkFileChange (lit "v1..v2") FcCreate) None; AOutside (<[at_name "v1..v2" := []]> demo_disk)] !! at_name "v1..v2" = Some [].
Proof. by vm_compute. Qed.

(** Observed: Turns are numbered from 0 in each process, and the store loads those of the last one;
    a rewind then writes the content that the file had in the earlier process. *)
Theorem restart_rewinds_too_far :
  let old := mkCheckpoint 1 [] [] [mkSnap (lit "a.txt") (Some (lit "ancient"))] [lit "a.txt"] None [] true in
  after_rewind (build (Some {[1 := old]}) demo_root None) [AEdit (modify "a.txt") (Some (as_bytes (lit "new")))] !! at_name "a.txt" = Some (as_bytes (lit "ancient")).
Proof. by vm_compute. Qed.

(** Observed: A file that a turn deleted is not compared: it is reported as unchecked, whether it is
    still gone or has come back from outside. *)
Theorem deleted_file_unchecked :
  let acts := [ABegin 1 (lit "go"); AEdit (mkFileChange (lit "a.txt") FcDelete) None; ASeal 1] in
  let scan acts := let '(st, disk) := run demo_io (json_store, demo_disk) acts in (conflict_scan demo_io st disk 1).2 in
  scan acts = mkReport [] [lit "a.txt"] ∧ scan (acts ++ [AOutside demo_disk]) = mkReport [] [lit "a.txt"].
Proof. by split; vm_compute. Qed.

(** Observed: The latest tree before turn 0 is that of turn 0. *)
Theorem before_the_first_turn :
  let st := (run demo_io (git_store, demo_disk) [ABegin 0 (lit "go")]).1 in
  tree_hex_before st 0 = Some (tree_hex (workspace_tree demo_root demo_disk)) ∧ tree_hex_before (truncate_from st 0) 0 = None.
Proof. by split; vm_compute. Qed.
