(* ===== verification/TurnWal.v ===== *)
(** * The log of turns (nemesis-agent/src/turn_wal.rs)

    The file that holds a line when a tool call is admitted, started and finished, its
    one older generation, and the recovery at the next start: calls without an end are
    marked as interrupted and taken up.  The operating system answers from outside
    ([WalIo]): a write may end in the middle of a line.  Contents are texts; the JSON of
    a line is the class [WalJson]. *)
From stdpp Require Import sorting.
From S2P Require Import Prelude RustStr Utils HostPath.
Local Open Scope nb_scope.

(** ** Data *)

Definition ARGS_PREVIEW_MAX_CHARS : nat := 200.
Definition DEFAULT_MAX_BYTES : N := (8 * 1024 * 1024)%N.
Definition DEFAULT_TTL_SECS : N := (7 * 24 * 3600)%N.

Inductive WalState := WalAdmitted | WalStarted | WalFinished | WalInterrupted.

Definition state_str (s : WalState) : str :=
  lit match s with
      | WalAdmitted => "admitted"
      | WalStarted => "started"
      | WalFinished => "finished"
      | WalInterrupted => "interrupted"
      end.

(** [match rec.state.as_str()]. *)
Definition state_of (s : str) : option WalState :=
  if s =? state_str WalAdmitted then Some WalAdmitted
  else if s =? state_str WalStarted then Some WalStarted
  else if s =? state_str WalFinished then Some WalFinished
  else if s =? state_str WalInterrupted then Some WalInterrupted
  else None.

Record WalRecord := mkWalRecord {
  wr_ts_ms : N;
  wr_session_key : str;
  wr_channel : str;
  wr_chat_id : str;
  wr_user : str;
  wr_call_id : str;
  wr_tool : str;
  wr_args_preview : str;
  wr_state : str;
  wr_ok : option bool;
}.

#[export] Instance WalRecord_eq_dec : EqDecision WalRecord.
Proof. solve_decision. Defined.

Record WalCall := mkWalCall {
  wc_session_key : str;
  wc_channel : str;
  wc_chat_id : str;
  wc_user : str;
  wc_call_id : str;
  wc_tool : str;
}.

Definition truncate_chars (s : str) (max : nat) : str :=
  if (length s <=? max)%nat then s else take max s ++ ulit "…".

Definition call_id_for (now_ms raw_id tool : str) : str :=
  if nonempty (trim raw_id) then raw_id else now_ms ++ [c_dash] ++ tool.

(** [serde_json] of a record: one line, read back, and no part of it is a record. *)
Class WalJson := {
  wal_to_string : WalRecord → str;
  wal_from_str : str → option WalRecord;
  wal_roundtrip : ∀ r, wal_from_str (wal_to_string r) = Some r;
  wal_one_line : ∀ r, c_nl ∉ wal_to_string r;
  wal_trimmed : ∀ r, trim (wal_to_string r) = wal_to_string r ∧ wal_to_string r ≠ [] ∧ last (wal_to_string r) ≠ Some c_cr;
  wal_torn : ∀ r k, (k < length (wal_to_string r))%nat → wal_from_str (trim (take k (wal_to_string r))) = None;
}.

(** The files and the handle. *)
Record TurnWal := mkTurnWal {
  tw_current : option str;
  tw_old : option str;
  tw_open : bool;
  tw_max_bytes : N;
  tw_ttl_secs : N;
}.

(** How the operating system answers one operation: the removal of the old generation,
    the renaming, the opening of the new file, and how many characters of a line are
    written, if not all. *)
Record WalIo := mkWalIo {
  wi_remove : bool;
  wi_rename : bool;
  wi_open : bool;
  wi_written : option nat;
}.

Definition good_io : WalIo := mkWalIo true true true None.

(** ** Logging *)

Section Wal.
Context `{WalJson}.

Definition open_wal (current : option str) (old : option str) : TurnWal :=
  mkTurnWal (Some (default [] current)) old true DEFAULT_MAX_BYTES DEFAULT_TTL_SECS.

Definition len_of (contents : option str) : N := N.of_nat (byte_len (default [] contents)).

(** The state and whether it was an error. *)
Definition maybe_rotate (io : WalIo) (w : TurnWal) (incoming : N) : TurnWal * bool :=
  if (len_of (tw_current w) + incoming <=? tw_max_bytes w)%N then (w, true)
  else
    let old := if wi_remove io then None else tw_old w in
    if wi_rename io then
      if wi_open io
      then (mkTurnWal (Some []) (tw_current w) true (tw_max_bytes w) (tw_ttl_secs w), true)
      else (mkTurnWal None (tw_current w) false (tw_max_bytes w) (tw_ttl_secs w), false)
    else (mkTurnWal (tw_current w) old false (tw_max_bytes w) (tw_ttl_secs w), false).

(** Write a line through the handle. *)
Definition write_line (io : WalIo) (w : TurnWal) (line : str) : TurnWal :=
  if tw_open w then
    let text := line ++ [c_nl] in
    let text := match wi_written io with Some k => take k text | None => text end in
    mkTurnWal (Some (default [] (tw_current w) ++ text)) (tw_old w) true (tw_max_bytes w) (tw_ttl_secs w)
  else w.

Definition append_record (io : WalIo) (w : TurnWal) (rec : WalRecord) : TurnWal :=
  let line := wal_to_string rec in
  let '(w, _) := maybe_rotate io w (N.of_nat (byte_len line) + 1) in
  write_line io w line.

Definition logged_record (now : N) (call : WalCall) (state : WalState) (args_preview : str) (ok : option bool)
    : WalRecord :=
  mkWalRecord now (wc_session_key call) (wc_channel call) (wc_chat_id call) (wc_user call) (wc_call_id call)
    (wc_tool call) (truncate_chars args_preview ARGS_PREVIEW_MAX_CHARS) (state_str state) ok.

Definition wal_log (io : WalIo) (now : N) (w : TurnWal) (call : WalCall) (state : WalState) (args_preview : str)
    (ok : option bool) : TurnWal :=
  append_record io w (logged_record now call state args_preview ok).

(** ** Recovery *)

(** The records of a file and the number of bad lines. *)
Definition read_file (contents : option str) : list WalRecord * nat :=
  match contents with
  | None => ([], 0%nat)
  | Some text =>
      let lines := List.filter nonempty (trim <$> lines text) in
      (omap wal_from_str lines, length (List.filter (λ l, match wal_from_str l with Some _ => false | None => true end) lines))
  end.

Definition read_all (w : TurnWal) : list WalRecord * nat :=
  let '(a, m) := read_file (tw_old w) in
  let '(b, n) := read_file (tw_current w) in (a ++ b, (m + n)%nat).

(** The loop over the records: the open calls with their last record, and those with
    an end. *)
Definition scan_record (st : gmap str WalRecord * gset str) (rec : WalRecord) : gmap str WalRecord * gset str :=
  let '(open_calls, finished) := st in
  match state_of (wr_state rec) with
  | Some WalFinished | Some WalInterrupted => (open_calls, {[ wr_call_id rec ]} ∪ finished)
  | Some WalAdmitted | Some WalStarted => (<[wr_call_id rec := rec]> open_calls, finished)
  | None => st
  end.

Definition scan_records (records : list WalRecord) : gmap str WalRecord * gset str := foldl scan_record (∅, ∅) records.

(** The order of the open calls: by time, then by id. *)
Definition wal_le (a b : str * WalRecord) : Prop :=
  (wr_ts_ms (snd a) < wr_ts_ms (snd b))%N ∨ (wr_ts_ms (snd a) = wr_ts_ms (snd b) ∧ str_lt (fst b) (fst a) = false).

#[export] Instance wal_le_dec a b : Decision (wal_le a b).
Proof. unfold wal_le. apply _. Defined.

Definition open_list (open_calls : gmap str WalRecord) : list (str * WalRecord) :=
  merge_sort wal_le (map_to_list open_calls).

Definition ttl_cutoff (now ttl_secs : N) : N := (now - ttl_secs * 1000)%N.

(** The open calls that are taken up. *)
Definition unfinished (cutoff : N) (st : gmap str WalRecord * gset str) : list WalRecord :=
  snd <$> List.filter (λ c, negb (bool_decide (fst c ∈ snd st)) && negb (wr_ts_ms (snd c) <? cutoff)%N) (open_list (fst st)).

Definition interrupted_record (now : N) (rec : WalRecord) : WalRecord :=
  mkWalRecord now (wr_session_key rec) (wr_channel rec) (wr_chat_id rec) (wr_user rec) (wr_call_id rec) (wr_tool rec)
    (wr_args_preview rec) (state_str WalInterrupted) (Some false).

(** The records that stay: the interruptions found and those just added. *)
Definition drained (records appended : list WalRecord) : list WalRecord :=
  List.filter (λ r, wr_state r =? state_str WalInterrupted) records ++ appended.

Definition drained_text (l : list WalRecord) : str := l ≫= λ r, wal_to_string r ++ [c_nl].

(** How rewriting the file ends: as it should, or with what it leaves. *)
Inductive Rewrite := RewriteOk (reopened : bool) | RewriteFailed (left_over : option str).

(** [io] answers the line appended for a record, [rewrite] the rewriting of the file, [remove] the
    removal of the old one. *)
Definition recover_and_finalize (io : WalRecord → WalIo) (rewrite : Rewrite) (remove : bool) (now : N) (w : TurnWal)
    : TurnWal * list WalRecord :=
  let '(records, _) := read_all w in
  let candidates := unfinished (ttl_cutoff now (tw_ttl_secs w)) (scan_records records) in
  let appended := interrupted_record now <$> candidates in
  let w := foldl (λ w rec, append_record (io rec) w rec) w appended in
  let '(current, handle) := match rewrite with
                            | RewriteOk reopened => (Some (drained_text (drained records appended)), reopened)
                            | RewriteFailed left_over => (left_over, false)
                            end in
  let old := if remove then None else tw_old w in
  (mkTurnWal current old handle (tw_max_bytes w) (tw_ttl_secs w), candidates).

(** ** Reading what was written *)

Definition lines_text (l : list WalRecord) : str := l ≫= λ r, wal_to_string r ++ [c_nl].

Lemma lines_text_cons r l rest : lines_text (r :: l) ++ rest = wal_to_string r ++ c_nl :: lines_text l ++ rest.
Proof. unfold lines_text. cbn [mbind list_bind]. by rewrite <- !app_assoc. Qed.

Lemma lines_written l rest : lines (lines_text l ++ rest) = (wal_to_string <$> l) ++ lines rest.
Proof.
  induction l as [|r l IH]; [done|]. rewrite lines_text_cons. destruct (wal_trimmed r) as (_ & _ & Hcr).
  rewrite lines_cons by (try apply wal_one_line; done). by rewrite IH.
Qed.

Lemma read_written l rest :
  fst (read_file (Some (lines_text l ++ rest))) = l ++ fst (read_file (Some rest)).
Proof.
  unfold read_file. cbv zeta. cbn [fst]. rewrite lines_written, fmap_app, List.filter_app, omap_app. f_equal.
  induction l as [|r l IH]; [done|]. cbn [fmap list_fmap List.filter]. destruct (wal_trimmed r) as (Ht & Hne & _).
  rewrite Ht. destruct (nonempty (wal_to_string r)) eqn:E; [|by destruct (wal_to_string r)].
  cbn [omap list_omap]. rewrite wal_roundtrip. f_equal. exact IH.
Qed.

Lemma read_lines l : fst (read_file (Some (lines_text l))) = l.
Proof. rewrite <- (app_nil_r (lines_text l)), read_written. cbn. apply app_nil_r. Qed.

(** What is read when the end is missing: whole records. *)
Lemma torn_read l m :
  ∃ n, fst (read_file (Some (take m (lines_text l)))) = take n l.
Proof.
  revert m. induction l as [|r l IH]; intros m; [exists 0%nat; by destruct m|].
  replace (lines_text (r :: l)) with (lines_text [r] ++ lines_text l) by by unfold lines_text; rewrite <- bind_app.
  destruct (decide (length (lines_text [r]) ≤ m)%nat) as [Hm|Hm].
  - rewrite take_app_ge by lia. rewrite read_written. destruct (IH (m - length (lines_text [r]))%nat) as [n ->].
    by exists (S n).
  - rewrite take_app_le by lia. clear IH. unfold lines_text in *. cbn [mbind list_bind] in *. rewrite app_nil_r in *.
    rewrite length_app in Hm. cbn [length] in Hm. rewrite take_app_le by lia.
    set (s := take m (wal_to_string r)).
    assert (Forall (λ c, N.eqb c_nl c = false) s) as Hnl.
    { apply Forall_take, Forall_forall. intros c Hc. apply N.eqb_neq. intros <-. by apply (wal_one_line r). }
    unfold read_file. cbv zeta. cbn [fst]. unfold lines. rewrite split_on_none by done. cbn [lines_of].
    case_bool_decide as Hs; [by exists 0%nat|]. cbn [fmap list_fmap List.filter].
    destruct (decide (m < length (wal_to_string r))%nat) as [Hlt|Hge].
    + exists 0%nat. destruct (nonempty (trim s)); [|done]. cbn [omap list_omap]. subst s. by rewrite wal_torn.
    + exists 1%nat. subst s. rewrite take_ge by lia. destruct (wal_trimmed r) as (-> & Hne & _).
      destruct (wal_to_string r) eqn:E; [done|]. cbn [nonempty omap list_omap]. by rewrite <- E, wal_roundtrip.
Qed.

(** A line that fits is appended. *)
Lemma append_written io w r :
  wi_written io = None → tw_open w = true →
  (len_of (tw_current w) + N.of_nat (byte_len (lines_text [r])) <= tw_max_bytes w)%N →
  append_record io w r
  = mkTurnWal (Some (default [] (tw_current w) ++ lines_text [r])) (tw_old w) true (tw_max_bytes w) (tw_ttl_secs w).
Proof.
  unfold lines_text. cbn [mbind list_bind]. rewrite app_nil_r, byte_len_app. intros Hio Ho Hb.
  unfold append_record, maybe_rotate, write_line.
  assert ((len_of (tw_current w) + (N.of_nat (byte_len (wal_to_string r)) + 1) <=? tw_max_bytes w)%N = true) as ->;
    [|by rewrite Ho, Hio].
  apply N.leb_le. cbn in Hb. lia.
Qed.

(** ** What a recovery takes up *)

Definition opens (r : WalRecord) : bool :=
  match state_of (wr_state r) with Some (WalAdmitted | WalStarted) => true | _ => false end.

Definition ends_call (r : WalRecord) : bool :=
  match state_of (wr_state r) with Some (WalFinished | WalInterrupted) => true | _ => false end.

(** The last opening record of a call. *)
Definition last_open (records : list WalRecord) (id : str) : option WalRecord :=
  last (List.filter (λ r, opens r && (wr_call_id r =? id)) records).

Definition ended (records : list WalRecord) (id : str) : Prop :=
  ∃ r, r ∈ records ∧ ends_call r = true ∧ wr_call_id r = id.

Lemma scan_records_spec records :
  (∀ id, fst (scan_records records) !! id = last_open records id) ∧
  (∀ id, id ∈ snd (scan_records records) ↔ ended records id).
Proof.
  unfold scan_records. induction records as [|r records [IH1 IH2]] using rev_ind.
  { split; intros id; [apply lookup_empty|]. split; [by intros ?%elem_of_empty|by intros (? & ?%elem_of_nil & _)]. }
  rewrite foldl_app. cbn [foldl]. destruct (foldl scan_record (∅, ∅) records) as [m f]. cbn [fst snd] in *.
  assert (∀ id, last_open (records ++ [r]) id = if opens r && (wr_call_id r =? id) then Some r else last_open records id) as Hl.
  { intros id. unfold last_open. rewrite List.filter_app. cbn [List.filter].
    destruct (opens r && _); [by rewrite last_snoc|by rewrite app_nil_r]. }
  assert (∀ id, ended (records ++ [r]) id ↔ ended records id ∨ (ends_call r = true ∧ wr_call_id r = id)) as He.
  { intros id. unfold ended. setoid_rewrite elem_of_app. setoid_rewrite list_elem_of_singleton. split.
    - intros (x & [?| ->] & ? & ?); [left; by exists x|by right].
    - intros [(x & ? & ? & ?)|[? ?]]; [exists x|exists r]; auto. }
  split; intros id; [rewrite Hl|rewrite He, <- IH2]; unfold scan_record, opens, ends_call;
    destruct (state_of (wr_state r)) as [[]|]; cbn [fst snd andb];
    try (rewrite <- IH1); try done; try (split; [by left|by intros [?|[? _]]]);
    try (case_bool_decide as Hid; [subst id; by rewrite lookup_insert_eq|by rewrite lookup_insert_ne by done]);
    (rewrite elem_of_union, elem_of_singleton; split; [intros [->|?]; [by right|by left]|intros [?|[_ ->]]; [by right|by left]]).
Qed.

Lemma open_list_elem m id r : (id, r) ∈ open_list m ↔ m !! id = Some r.
Proof. unfold open_list. rewrite merge_sort_Permutation. apply elem_of_map_to_list. Qed.

Lemma unfinished_elem cutoff records r :
  r ∈ unfinished cutoff (scan_records records) ↔
  last_open records (wr_call_id r) = Some r ∧ ¬ ended records (wr_call_id r) ∧ (cutoff ≤ wr_ts_ms r)%N.
Proof.
  destruct (scan_records_spec records) as [H1 H2]. unfold unfinished. rewrite list_elem_of_fmap.
  assert (∀ id r, fst (scan_records records) !! id = Some r → wr_call_id r = id) as Hid.
  { intros id x Hx. rewrite H1 in Hx. apply last_Some_elem_of, list_elem_of_In, filter_In in Hx as [_ Hx].
    apply andb_true_iff in Hx as [_ Hx]. by apply bool_decide_eq_true in Hx. }
  setoid_rewrite list_elem_of_In. setoid_rewrite filter_In. setoid_rewrite <- list_elem_of_In. split.
  - intros ([id x] & -> & Hin & Hf). apply open_list_elem in Hin. cbn [fst snd] in *.
    pose proof (Hid _ _ Hin) as <-. apply andb_true_iff in Hf as [Hf Hc]. rewrite <- H1, <- H2.
    apply negb_true_iff, bool_decide_eq_false in Hf. apply negb_true_iff, N.ltb_ge in Hc. done.
  - intros (Hl & He & Hc). exists (wr_call_id r, r). split; [done|]. cbn [fst snd]. split.
    + apply open_list_elem. by rewrite H1.
    + rewrite bool_decide_false by by rewrite H2. apply N.ltb_ge in Hc. by rewrite Hc.
Qed.

#[export] Instance wal_le_total : Total wal_le.
Proof.
  intros [a r] [b q]. unfold wal_le. cbn [fst snd]. destruct (N.lt_trichotomy (wr_ts_ms r) (wr_ts_ms q)) as [?|[E|?]].
  - left. by left.
  - rewrite E. destruct (str_le_total a b) as [?|?]; [left|right]; right; split; done.
  - right. by left.
Qed.

#[export] Instance wal_le_trans : Transitive wal_le.
Proof.
  intros [a r] [b q] [c s]. unfold wal_le. cbn [fst snd]. intros [?|[E1 H1]] [?|[E2 H2]]; [left; lia..|].
  right. split; [lia|]. exact (str_le_trans a b c H1 H2).
Qed.

Lemma strongly_sorted_filter {A} (R : A → A → Prop) f l : StronglySorted R l → StronglySorted R (List.filter f l).
Proof.
  induction 1 as [|x l Hl IH Hx]; [constructor|]. cbn. destruct (f x); [|done]. constructor; [done|].
  rewrite Forall_forall in Hx |- *. intros y Hy. apply Hx. apply list_elem_of_In, filter_In in Hy as [Hy _].
  by apply list_elem_of_In.
Qed.

Lemma unfinished_sorted cutoff records :
  StronglySorted (λ a b, wr_ts_ms a ≤ wr_ts_ms b)%N (unfinished cutoff (scan_records records)).
Proof.
  unfold unfinished, open_list. eapply (StronglySorted_fmap snd wal_le); [|apply strongly_sorted_filter, StronglySorted_merge_sort; apply _].
  intros [a r] [b q] [?|[? _]]; cbn [fst snd] in *; lia.
Qed.

Lemma open_list_nil m : m = ∅ → open_list m = [].
Proof. intros ->. unfold open_list. by rewrite map_to_list_empty. Qed.

Lemma open_list_keys m : NoDup (fst <$> open_list m).
Proof. unfold open_list. rewrite merge_sort_Permutation. apply NoDup_fst_map_to_list. Qed.

Lemma list_filter_sublist {A} (f : A → bool) (l : list A) : sublist (List.filter f l) l.
Proof. induction l as [|x l IH]; [constructor|]. cbn. destruct (f x); by constructor. Qed.

Lemma unfinished_ids cutoff records : NoDup (wr_call_id <$> unfinished cutoff (scan_records records)).
Proof.
  destruct (scan_records_spec records) as [Hs _]. unfold unfinished.
  set (l := List.filter _ _).
  assert (sublist l (open_list (fst (scan_records records)))) as Hl by apply list_filter_sublist.
  replace (wr_call_id <$> (snd <$> l)) with (fst <$> l).
  { eapply sublist_NoDup; [|by apply fmap_sublist]. apply open_list_keys. }
  clear -Hl Hs.
  assert (Forall (λ c, fst c = wr_call_id (snd c)) l) as Hf.
  { apply Forall_forall. intros [id r] Hin. eapply elem_of_sublist in Hin; [|exact Hl].
    apply open_list_elem in Hin. rewrite Hs in Hin. apply last_Some_elem_of, list_elem_of_In, filter_In in Hin as [_ Hx].
    apply andb_true_iff in Hx as [_ Hx]. by apply bool_decide_eq_true in Hx. }
  clear Hl. induction Hf as [|x l Hx _ IH]; [done|]. cbn. by rewrite Hx, IH.
Qed.

Lemma scan_only_interrupted l :
  Forall (λ r, wr_state r = state_str WalInterrupted) l → fst (scan_records l) = ∅.
Proof.
  intros Hl. apply map_eq. intros id. rewrite (proj1 (scan_records_spec _)), lookup_empty. unfold last_open.
  assert (Forall (λ r, opens r = false) l) as Ho.
  { eapply Forall_impl; [exact Hl|]. intros r Hr. unfold opens. by rewrite Hr. }
  clear Hl. induction Ho as [|r l Hr _ IH]; [done|]. cbn. by rewrite Hr.
Qed.

Lemma drained_interrupted records appended :
  Forall (λ r, wr_state r = state_str WalInterrupted) appended →
  Forall (λ r, wr_state r = state_str WalInterrupted) (drained records appended).
Proof.
  intros Ha. apply Forall_app. split; [|done]. apply Forall_forall. intros r Hr.
  apply list_elem_of_In, filter_In in Hr as [_ Hr]. by apply bool_decide_eq_true in Hr.
Qed.

Lemma append_keeps io w rec :
  tw_ttl_secs (append_record io w rec) = tw_ttl_secs w ∧ tw_max_bytes (append_record io w rec) = tw_max_bytes w.
Proof.
  unfold append_record, maybe_rotate, write_line.
  destruct (_ <=? _)%N; [by destruct (tw_open w)|]. destruct (wi_rename io); [|done]. by destruct (wi_open io).
Qed.

Lemma appends_keep io l w : tw_ttl_secs (foldl (λ w rec, append_record (io rec) w rec) w l) = tw_ttl_secs w.
Proof.
  revert w. induction l as [|r l IH]; intros w; [done|]. cbn [foldl]. rewrite IH. apply append_keeps.
Qed.

Lemma recover_candidates io rewrite remove now w :
  snd (recover_and_finalize io rewrite remove now w)
  = unfinished (ttl_cutoff now (tw_ttl_secs w)) (scan_records (fst (read_all w))).
Proof. unfold recover_and_finalize. destruct (read_all w). by destruct rewrite. Qed.

(** C21: a recovery takes up exactly the calls that were admitted or started, have no end
    in the files and are young enough, each with its last record, in the order of time;
    and once the file is rewritten nothing is taken up again. *)
Theorem recovery_exact io rewrite remove now w :
  let '(w', candidates) := recover_and_finalize io rewrite remove now w in
  let records := fst (read_all w) in
  (∀ r, r ∈ candidates ↔
     last_open records (wr_call_id r) = Some r ∧ ¬ ended records (wr_call_id r) ∧
     (ttl_cutoff now (tw_ttl_secs w) ≤ wr_ts_ms r)%N) ∧
  NoDup (wr_call_id <$> candidates) ∧
  StronglySorted (λ a b, wr_ts_ms a ≤ wr_ts_ms b)%N candidates ∧
  (rewrite = RewriteOk true → remove = true →
   ∀ io' rewrite' remove' later, snd (recover_and_finalize io' rewrite' remove' later w') = []).
Proof.
  destruct (recover_and_finalize io rewrite remove now w) as [w' candidates] eqn:E. cbn zeta.
  unfold recover_and_finalize in E. destruct (read_all w) as [records bad]. cbn [fst].
  assert (candidates = unfinished (ttl_cutoff now (tw_ttl_secs w)) (scan_records records)) as ->.
  { destruct rewrite; by injection E as <- <-. }
  split_and!; [apply unfinished_elem|apply unfinished_ids|apply unfinished_sorted|].
  intros -> -> io' rewrite' remove' later. injection E as <-.
  set (appended := interrupted_record now <$> _).
  assert (Forall (λ r, wr_state r = state_str WalInterrupted) (drained records appended)) as Hd.
  { apply drained_interrupted. unfold appended. apply Forall_fmap, Forall_forall. done. }
  unfold recover_and_finalize, read_all. cbn [tw_old tw_current tw_ttl_secs].
  change (drained_text (drained records appended)) with (lines_text (drained records appended)).
  pose proof (read_lines (drained records appended)) as Hread.
  destruct (read_file (Some (lines_text (drained records appended)))) as [b n]. cbn [fst read_file] in *. subst b.
  cbn [app]. assert (∀ cutoff, unfinished cutoff (scan_records (drained records appended)) = []) as Hu.
  { intros cutoff. unfold unfinished. by rewrite open_list_nil by by apply scan_only_interrupted. }
  rewrite Hu. by destruct rewrite'.
Qed.

(** Observed: an end counts for every call of its id, also for one that comes later or
    belongs to another session: a call whose id was used before is not taken up. *)
Theorem reused_id_not_recovered io rewrite remove now w before after r :
  fst (read_all w) = before ++ r :: after → ends_call r = true →
  ∀ c, c ∈ snd (recover_and_finalize io rewrite remove now w) → wr_call_id c ≠ wr_call_id r.
Proof.
  intros Hr He c Hc Hid. rewrite recover_candidates in Hc. apply unfinished_elem in Hc as (_ & Hn & _). apply Hn. exists r. rewrite Hr. split_and!; [|done|done].
  rewrite elem_of_app. right. by left.
Qed.

(** Observed: when the file cannot be renamed the line is not written, and no line after
    it, though the comment says that it is tried: the handle stays closed. *)
Theorem failed_rotation_ends_the_log io w rec :
  wi_rename io = false → (tw_max_bytes w < len_of (tw_current w) + (N.of_nat (byte_len (wal_to_string rec)) + 1))%N →
  tw_current (append_record io w rec) = tw_current w ∧ tw_open (append_record io w rec) = false.
Proof.
  intros Hr Hb. unfold append_record, maybe_rotate. apply N.leb_gt in Hb. rewrite Hb, Hr. done.
Qed.
End Wal.
