(* ===== verification/Dispatch.v ===== *)
(** * The dispatch of a tool call (nemesis-agent/src/loop/tool_dispatch.rs)

    [handle_tool_call_at_depth]: from the emergency stop over the gates, the limits, the
    security pipeline, the scan of scripts and the guardian to the hooks, the tool
    itself and what is done with its output (loop/output_rescan.rs,
    loop/credential_injection.rs, hooks.rs, turn_wal.rs, nemesis-config/src/vault_ref.rs).

    A tool and a hook are what their methods answer at the time of the call ([Tool],
    [ToolHook]); what the rest of the program sees happen is the list of events.  An
    asynchronous computation is its events with its answer; a wrapping hook gets the
    inner part as a function and may run it any number of times.  When the watchdog
    stops a call, the events up to then stay. *)
From Stdlib Require Import Sorted.
From stdpp Require Import strings.
From S2P Require Import Prelude RustStr Utils Regex F64 Matcher Json SecTypes Auditor Escalation Guardian Merkle Ssrf VirusScan Classifier Injection Credential Dlp HostPath ShellBleed Limits Pipeline ToolGates EditReplace EditHint TurnGuard EditTools TurnWal.
Local Open Scope nb_scope.

(** ** Tools, hooks and events *)

(** The receipt of a refused connector operation. *)
Record Receipt := mkReceipt {
  re_workspace : str;
  re_connector : str;
  re_op : str;
  re_risk : str;
  re_class : str;
  re_args_digest : str;
  re_summary : str;
  re_session_key : str;
}.

Record Experience := mkExperience {
  ex_tool_name : str;
  ex_input_summary : str;
  ex_output_summary : str;
  ex_success : bool;
  ex_session_key : str;
}.

(** What happens, in its order. *)
Inductive Event :=
| EvWal (call : WalCall) (state : WalState) (arguments : str) (ok : option bool)
| EvSetContext (tool channel chat_id : str) (depth : nat)
| EvFileChange (session_key : str) (change : FileChange)
| EvSnapshot (change : FileChange)
| EvExecute (tool args : str) (context : RequestContext)
| EvFormat (path : str)
| EvReceipt (receipt : Receipt)
| EvExperience (experience : Experience).

(** A computation that makes things happen. *)
Definition Eff (A : Type) : Type := list Event * A.

Definition done_with {A} (x : A) : Eff A := ([], x).
Definition then_do {A B} (m : Eff A) (k : A → Eff B) : Eff B := (fst m ++ fst (k (snd m)), snd (k (snd m))).
Definition emit (e : Event) : Eff unit := ([e], tt).

Fixpoint each {A} (f : A → Eff unit) (l : list A) : Eff unit :=
  match l with
  | [] => done_with tt
  | x :: l => then_do (f x) (λ _, each f l)
  end.

Record HookToolCall := mkHookCall {
  hc_name : str;
  hc_arguments : str;
  hc_channel : str;
  hc_chat_id : str;
  hc_session_key : str;
}.

Inductive HookDecision := HookAllow | HookBlock (reason : str).
Inductive PostHookAction := Continue | Replace (new : str).

Record ToolHook := mkHook {
  hk_scope : option str;
  hk_pre_tool_use : HookToolCall → HookDecision;
  hk_around_tool_use : HookToolCall → (HookToolCall → Eff str) → Eff str;
  hk_post_tool_use : HookToolCall → str → PostHookAction;
  hk_post_tool_use_failure : HookToolCall → str → PostHookAction;
}.

(** The methods of the trait that a hook need not write. *)
Definition tool_error (err : str) : str := lit "Tool error: " ++ err.

Definition hook_defaults : ToolHook :=
  mkHook None (λ _, HookAllow) (λ call next, next call) (λ _ _, Continue) (λ _ _, Continue).

Definition default_failure (post : HookToolCall → str → PostHookAction) (call : HookToolCall) (err : str)
    : PostHookAction := post call (tool_error err).

Fixpoint run_pre_hooks (hooks : list ToolHook) (call : HookToolCall) : option str :=
  match hooks with
  | [] => None
  | hook :: hooks => match hk_pre_tool_use hook call with
                     | HookAllow => run_pre_hooks hooks call
                     | HookBlock reason => Some reason
                     end
  end.

Definition replaced (current : str) (a : PostHookAction) : str :=
  match a with
  | Continue => current
  | Replace new => new
  end.

Definition run_post_hooks (hooks : list ToolHook) (call : HookToolCall) (result : str) : str :=
  foldl (λ current hook, replaced current (hk_post_tool_use hook call current)) result hooks.

Definition run_post_failure_hooks (hooks : list ToolHook) (call : HookToolCall) (err : str) : str :=
  foldl (λ current hook, replaced current (hk_post_tool_use_failure hook call err)) (tool_error err) hooks.

(** The trait [Tool]. *)
Record Tool := mkTool {
  tl_execute : str → RequestContext → result str str;
  tl_preview_all : str → list FileChange;
  tl_credential_arg_keys : list str;
  tl_limit_categories : list str;
  tl_min_tier : option str;
  tl_operation_override : str → option OperationOverride;
}.

(** ** Results *)

Definition is_enforcing (action : str) : bool := (action =? lit "block") || (action =? lit "redact").

Section Rescan.
Context `{RegexFind}.

(** The output and the notes so far. *)
Definition rescan_credential (scanner : Scanner) (tool_name : str) (r : str * list str) : str * list str :=
  let found := Credential.scan_tool_output scanner tool_name (fst r) in
  if negb (Credential.cr_has_matches found) || negb (is_enforcing (sc_action scanner)) then r
  else (Credential.redact_content scanner (fst r),
        snd r ++ [ulit "[输出已脱敏: 检测到疑似凭据 " ++ show_nat (length (cr_matches found))
                  ++ ulit " 处，已遮蔽为 [REDACTED_CREDENTIAL]]"]).

Definition rescan_dlp (engine : DlpEngine) (tool_name : str) (r : str * list str) : str * list str :=
  let found := Dlp.scan_tool_output engine tool_name (fst r) in
  if negb (dr_has_matches found) || negb (existsb (λ m, is_enforcing (dm_effective_action m)) (dr_matches found)) then r
  else (Dlp.redact_content engine (fst r),
        snd r ++ [ulit "[输出已脱敏: DLP 检测到敏感信息 " ++ show_nat (length (dr_matches found)) ++ ulit " 处，已遮蔽]"]).

Definition rescan_pair (credential : option Scanner) (dlp : option DlpEngine) (tool_name result : str) : str :=
  if negb (nonempty result) then result
  else
    let r := (result, []) in
    let r := match credential with Some scanner => rescan_credential scanner tool_name r | None => r end in
    let r := match dlp with Some engine => rescan_dlp engine tool_name r | None => r end in
    match snd r with
    | [] => fst r
    | notes => fst r ++ [c_nl] ++ join [c_nl] notes
    end.
End Rescan.

(** ** Credentials at the last moment *)

Section Aliases.
Context `{JsonNumbers} `{!JsonCodec}.

(** [resolve_vault_reference] with the global resolver. *)
Definition resolve_vault_reference (resolver : option (str → result str str)) (value : str)
    : option (result str str) :=
  match strip_prefix (lit "vault:") value with
  | None => None
  | Some alias =>
      Some (if negb (nonempty alias) then
              Err (ulit "vault: 引用别名为空——写作 vault:<alias>（如 vault:openai-main），或用 `nemesisbot vault set <alias>` 先写入")
            else match resolver with
                 | Some r => r alias
                 | None => Err (ulit "检测到 vault:" ++ alias
                                ++ ulit " 引用，但本进程未安装 vault 解析器（security feature 未启用，或非完整 nemesisbot 构建）")
                 end)
  end.

Definition resolve_slot_value (resolver : option (str → result str str)) (field slot : str) : result str str :=
  match resolve_vault_reference resolver slot with
  | None => Ok slot
  | Some (Ok secret) => Ok secret
  | Some (Err e) =>
      Err (ulit "⛔ CREDENTIAL REFERENCE FAILED [layer:credential|field:" ++ field ++ ulit "] " ++ e
           ++ ulit "。工具未执行。不要重试同一别名；若别名正确，请让用户运行 `nemesisbot vault set <alias>` 写入后再试。")
  end.

(** The loop over the members of an object in a slot. *)
Fixpoint resolve_leaves (resolver : option (str → result str str)) (key : str) (o : list (str * Value))
    : result (list (str * Value)) str :=
  match o with
  | [] => Ok []
  | (k, leaf) :: o =>
      match leaf with
      | VString s =>
          match resolve_slot_value resolver (key ++ [c_dot] ++ k) s with
          | Err e => Err e
          | Ok s => match resolve_leaves resolver key o with
                    | Err e => Err e
                    | Ok o => Ok ((k, VString s) :: o)
                    end
          end
      | other => match resolve_leaves resolver key o with
                 | Err e => Err e
                 | Ok o => Ok ((k, other) :: o)
                 end
      end
  end.

Definition resolve_slot (resolver : option (str → result str str)) (key : str) (slot : Value) : result Value str :=
  match slot with
  | VString s => match resolve_slot_value resolver key s with
                 | Ok s => Ok (VString s)
                 | Err e => Err e
                 end
  | VObject inner => match resolve_leaves resolver key inner with
                     | Ok inner => Ok (VObject inner)
                     | Err e => Err e
                     end
  | other => Ok other
  end.

Fixpoint resolve_slots (resolver : option (str → result str str)) (keys : list str) (v : Value) : result Value str :=
  match keys with
  | [] => Ok v
  | key :: keys =>
      match json_get key v with
      | None => resolve_slots resolver keys v
      | Some slot => match resolve_slot resolver key slot with
                     | Ok slot => resolve_slots resolver keys (set_member key slot v)
                     | Err e => Err e
                     end
      end
  end.

Definition inject_credential_aliases (resolver : option (str → result str str)) (tool : Tool) (args : str)
    : result str str :=
  match tl_credential_arg_keys tool with
  | [] => Ok args
  | keys =>
      match json_from_str args with
      | Some (VObject o) => match resolve_slots resolver keys (VObject o) with
                            | Ok v => Ok (json_to_string v)
                            | Err e => Err e
                            end
      | _ => Ok args
      end
  end.
End Aliases.

(** ** The loop *)

Declare Scope gate_scope.
Delimit Scope gate_scope with gate.

Section Dispatch.
Context {UC : Unicode} {UU : UnicodeUpper} {CC : CharClass} {FL : Float} {DS : DebugStr} {PF : Platform}.
Context `{HashOrder} `{RegexCaptures} `{JsonNumbers} `{!JsonCodec} `{!JsonU64} {NET : Net} {SHA : Sha256}.

(** What a dispatch reads of the loop: the emergency stop, the text of the configuration
    file, the registered tools, the tier and mode, the root of the workspace, the
    sessions, the hooks, and whether a log of turns, a store of checkpoints and an
    enabled forge are there. *)
Record LoopConfig := mkLoopConfig {
  lc_estop_engaged : bool;
  lc_config_file : option str;
  lc_tools : gmap str Tool;
  lc_tier : ModelTier;
  lc_mode : AgentMode;
  lc_workspace_root : option str;
  lc_session_store : option (str → list HistoryMessage);
  lc_tool_hooks : list ToolHook;
  lc_turn_wal : bool;
  lc_checkpoint_store : bool;
  lc_forge_enabled : bool;
  lc_vault_resolver : option (str → result str str);
}.

(** What it changes. *)
Record Loop := mkLoop {
  lp_security : option SecurityPlugin;
  lp_limits : Limits;
  lp_events : list Event;
}.

(** What one call sees of the outside: the identifiers and clocks of its parts, the files,
    the formatter (the output with what it notes), and how many events of the execution
    were over when the watchdog fired, if it did. *)
Record DispatchIo := mkDispatchIo {
  dp_exec : ExecIo;
  dp_limit_env : EscalationEnv;
  dp_limit_now : Z;
  dp_limit_later : Z;
  dp_guardian_log : EscalationEnv;
  dp_guardian_ask : EscalationEnv;
  dp_bleed : BleedEnv;
  dp_current_dir : option str;
  dp_canonicalize : list str → option (list str);
  dp_format_on_save : str → str → str;
  dp_now_ms : str;
  dp_interrupted : option nat;
}.

Definition with_security (lp : Loop) (p : SecurityPlugin) : Loop := mkLoop (Some p) (lp_limits lp) (lp_events lp).
Definition with_limits (lp : Loop) (l : Limits) : Loop := mkLoop (lp_security lp) l (lp_events lp).
Definition with_events (lp : Loop) (l : list Event) : Loop := mkLoop (lp_security lp) (lp_limits lp) l.

(** A part of the dispatch: it goes on, or its text is the answer. *)
Definition Gate (A : Type) : Type := Loop → Loop * result A str.

Definition go_on {A} (x : A) : Gate A := λ lp, (lp, Ok x).
Definition answer {A} (text : str) : Gate A := λ lp, (lp, Err text).
Definition refuse_if (o : option str) : Gate unit :=
  match o with
  | Some text => answer text
  | None => go_on tt
  end.
Definition gate_bind {A B} (m : Gate A) (k : A → Gate B) : Gate B := λ lp,
  match m lp with
  | (lp, Ok x) => k x lp
  | (lp, Err text) => (lp, Err text)
  end.
Definition effect {A} (m : Eff A) : Gate A := λ lp, (with_events lp (lp_events lp ++ fst m), Ok (snd m)).

#[local] Notation "x <- m ; k" := (gate_bind m (λ x, k))
  (at level 20, m at level 100, k at level 200, right associativity) : gate_scope.
#[local] Notation "m ;; k" := (gate_bind m (λ _, k)) (at level 100, k at level 200, right associativity) : gate_scope.
Open Scope gate_scope.

Section Call.
Variable cfg : LoopConfig.
Variable io : DispatchIo.
Variable call : ToolCallInfo.
Variable context : RequestContext.
Variable depth : nat.

Definition name : str := tc_name call.
Definition tool : option Tool := lc_tools cfg !! name.
Definition op_override : option OperationOverride := tool ≫= λ t, tl_operation_override t (tc_arguments call).
Definition declared : DeclaredOps := xi_declared (dp_exec io).

(** ** The gates in front of the security pipeline *)

Definition hidden_refusal : option str :=
  if tool_name_matches_hidden (current_hidden_tools (lc_config_file cfg)) name then
    Some (lit "Error: Tool '" ++ name
          ++ lit "' is hidden by configuration (agents.hidden_tools) and cannot be executed. Inform the user; do NOT retry unless they un-hide it.")
  else None.

Definition min_tier_refusal : option str :=
  match tool ≫= tl_min_tier with
  | Some min =>
      if (active_tier_rank (lc_tier cfg) <? plugin_min_tier_rank min)%nat then
        Some (lit "Error: Tool '" ++ name ++ lit "' requires model tier '" ++ min
              ++ lit "' or above; the active model's tier is lower. Inform the user; they can switch models via /model.")
      else None
  | None => None
  end.

Definition role_refusal : option str :=
  if name =? lit "spawn" then check_spawn_role (lc_config_file cfg) (lc_tier cfg) (tc_arguments call) else None.

Definition plan_refusal : option str :=
  if plan_mode_refuses (dp_canonicalize io) (lc_workspace_root cfg) declared (lc_mode cfg) call op_override then
    Some (lit "Plan mode: file modifications are denied. Present your plan as text, or ask the user to switch with /build. (Exception: write_file under <workspace>/plans/ is allowed for saving the plan itself.)")
  else None.

(** ** The security pipeline *)

Definition limit_ctx : ApprovalContext := mkCtx (rc_channel context) (rc_chat_id context) (rc_user context).
Definition guardian_ctx : ApprovalContext := mkCtx (rc_channel context) (rc_chat_id context) [].

Definition limit_categories : list str := default [] (tl_limit_categories <$> tool).

(** The plugin, which is there. *)
Definition with_plugin {A} (k : SecurityPlugin → Gate A) (otherwise : Gate A) : Gate A := λ lp,
  match lp_security lp with
  | Some p => k p lp
  | None => otherwise lp
  end.

Definition put_plugin (p : SecurityPlugin) : Gate unit := λ lp, (with_security lp p, Ok tt).
Definition put_auditor (p : SecurityPlugin) (a : SecurityAuditor) : Gate unit := put_plugin (with_auditor p a).

Definition limits_gate (p : SecurityPlugin) : Gate unit := λ lp,
  let '(limits, auditor, refused) :=
    limit_gate (dp_limit_env io) (dp_limit_now io) (dp_limit_later io) name limit_categories (Some limit_ctx)
      (lp_limits lp) (sp_auditor p) in
  (put_auditor p auditor;; refuse_if refused) (with_limits lp limits).

(** [as_deref().map(str::trim).filter(non-empty)]. *)
Definition trimmed (s : option str) : option str := clean_note s.

Definition invocation_metadata : gmap str str :=
  let m := <[lit "approval_sender_id" := rc_user context]> {[lit "approval_chat_id" := rc_chat_id context]} in
  match op_override with
  | None => m
  | Some ov =>
      let m := <[lit "override_op_type" := ov_op_type ov]> m in
      let m := match trimmed (ov_force_approval ov) with
               | Some fa => <[lit "override_force_approval" := fa]> m
               | None => m
               end in
      match trimmed (ov_receipt_ctx ov) with
      | Some rc => <[lit "connector_receipt_ctx" := rc]> m
      | None => m
      end
  end.

Definition invocation : ToolInvocation :=
  mkInvocation name (default VNull (json_from_str (tc_arguments call))) [] (rc_channel context) invocation_metadata.

(** [from_str::<ConnectorReceiptCtx>]: all members are texts (a member given twice, which
    serde refuses, is not looked for). *)
Definition receipt_of (ctx_raw : str) (info : DenyInfo) : option Receipt :=
  v ← json_from_str ctx_raw;
  let get k := get_str (lit k) v in
  workspace ← get "workspace"%string;
  connector ← get "connector"%string;
  op ← get "op"%string;
  risk ← get "risk"%string;
  class ← get "class"%string;
  args_digest ← get "args_digest"%string;
  Some (mkReceipt workspace connector op risk class args_digest
          (ulit "操作被拒绝（" ++ di_layer info ++ lit ": " ++ di_summary info ++ ulit "）") (rc_session_key context)).

Definition unknown_deny : DenyInfo :=
  mkDeny (lit "unknown") (lit "security_pipeline") (lit "operation denied by security policy") None.

Definition blocked_text (info : DenyInfo) : str :=
  ulit "⛔ SECURITY BLOCKED [layer:" ++ di_layer info ++ lit "|policy:" ++ di_policy info ++ lit "] " ++ di_summary info
  ++ [c_nl] ++ lit "Do NOT retry the same call unchanged. Inform the user that the operation was rejected."
  ++ match di_suggestion info with
     | Some s => [c_nl] ++ ulit "建议：" ++ s
     | None => []
     end.

Definition denied_receipt (info : DenyInfo) : Eff unit :=
  match invocation_metadata !! lit "connector_receipt_ctx" ≫= λ raw, receipt_of raw info with
  | Some r => emit (EvReceipt r)
  | None => done_with tt
  end.

(** The approval reference. *)
Definition pipeline_gate (p : SecurityPlugin) : Gate (option str) :=
  let '(p, (allowed, deny, tracked_ref)) := execute_tracked (dp_exec io) invocation p in
  put_plugin p;;
  if (allowed : bool) then go_on tracked_ref
  else
    let info := default unknown_deny deny in
    effect (denied_receipt info);;
    answer (blocked_text info).

(** ** The scan of scripts *)

Definition SCRIPT_SCAN_TOOLS : list string := ["exec"; "exec_async"; "background_start"]%string.

Definition pre_exec_script_scan (p : SecurityPlugin) (args_json : str) : option ScriptScanOutcome :=
  args ← json_from_str args_json;
  command ← get_str (lit "command") args;
  let dir := or_else (json_get (lit "cwd") args) (json_get (lit "working_dir") args) ≫= as_str in
  let base := default (default [c_dot] (dp_current_dir io)) dir in
  Some (scan_scripts_for_exec (dp_bleed io) command base (sp_credential_scanner p)).

Definition script_blocked_text (o : ScriptScanOutcome) : str :=
  ulit "⛔ SECURITY BLOCKED [layer:script_scan|policy:credential_in_script] " ++ literal_summary o ++ [c_nl]
  ++ lit "Do NOT retry the same call unchanged. Inform the user that the operation was rejected." ++ [c_nl]
  ++ ulit "建议：脚本文件内含明文凭据，请改用环境变量或凭据 vault 引用后重试。".

(** The note that follows the output. *)
Definition script_gate (p : SecurityPlugin) : Gate (option str) :=
  if named_in SCRIPT_SCAN_TOOLS name then
    match pre_exec_script_scan p (tc_arguments call) with
    | Some outcome => if has_literals outcome then answer (script_blocked_text outcome)
                      else go_on (advisory_note outcome)
    | None => go_on None
    end
  else go_on None.

(** ** The guardian *)

Definition guardian_danger : str :=
  match op_override with
  | Some ov => danger_level_of_slug (ov_op_type ov)
  | None => tool_danger_level declared name
  end.

Definition should_review (p : SecurityPlugin) : bool :=
  match op_override with
  | Some _ => guardian_should_review_with_danger p name (tc_arguments call) guardian_danger
  | None => guardian_should_review declared p name (tc_arguments call)
  end.

Definition judge_request : JudgeRequest := mkJudgeRequest name guardian_danger (tc_arguments call).

Definition note_line (av : ApprovalVerdict) : str :=
  match clean_note (av_note av) with
  | Some n => lit ": " ++ n
  | None => []
  end.

(** What a human said, with the answers for a no and for nobody to ask. *)
Definition human_gate (verdict : result ApprovalVerdict str) (rejected : str → str) (nobody : str → str) : Gate unit :=
  match verdict with
  | Ok av => if av_approved av then go_on tt else answer (rejected (note_line av))
  | Err e => answer (nobody e)
  end.

Definition flagged (p : SecurityPlugin) (v : JudgeVerdict) : str :=
  lit "[layer:guardian|policy:guardian_mode=" ++ sp_guardian_mode p
  ++ lit "] The safety judge flagged this operation (" ++ jv_recommendation v ++ lit ": " ++ jv_rationale v.

Definition verdict_gate (p : SecurityPlugin) (v : JudgeVerdict) : Gate unit :=
  let auditor := log_guardian_verdict (dp_guardian_log io) (sp_auditor p) name (sp_guardian_mode p) v in
  if is_allow v then put_auditor p auditor
  else
    let '(auditor, verdict) :=
      request_guardian_verdict_approval to_uppercase (dp_guardian_ask io) auditor name (jv_risk_level v)
        (sp_guardian_mode p) v (Some guardian_ctx) in
    put_auditor p auditor;;
    human_gate verdict
      (λ note, ulit "⛔ GUARDIAN FLAGGED — USER REJECTED " ++ flagged p v
               ++ lit ") and the user declined to approve. Do NOT retry. Inform the user." ++ note)
      (λ e, ulit "⛔ GUARDIAN FLAGGED " ++ flagged p v ++ lit ") and no approval channel is available (" ++ e
            ++ lit "). Fail-closed: operation denied. Do NOT retry. Inform the user.").

Definition unavailable (policy guardian_err : str) : str :=
  lit "[layer:guardian|policy:guardian_failure_policy=" ++ policy ++ lit "] Safety judge failed (" ++ guardian_err.

Definition failure_gate (p : SecurityPlugin) (guardian_err : str) : Gate unit :=
  let policy := sp_guardian_failure_policy p in
  if policy =? lit "allow" then go_on tt
  else if policy =? lit "ask" then
    let '(auditor, verdict) :=
      request_guardian_failure_approval (dp_guardian_ask io) (sp_auditor p) name
        (lit "Guardian (LLM safety judge) failed: " ++ guardian_err) (Some guardian_ctx) in
    put_auditor p auditor;;
    human_gate verdict
      (λ note, ulit "⛔ GUARDIAN UNAVAILABLE — USER REJECTED " ++ unavailable policy guardian_err
               ++ lit ") and the user declined to approve. Do NOT retry. Inform the user." ++ note)
      (λ e, ulit "⛔ GUARDIAN UNAVAILABLE " ++ unavailable policy guardian_err
            ++ lit ") and no approval channel is available (" ++ e
            ++ lit "). Fail-closed: operation denied. Do NOT retry. Inform the user.")
  else if policy =? lit "deny" then
    answer (ulit "⛔ GUARDIAN UNAVAILABLE — DENIED BY POLICY " ++ unavailable policy guardian_err
            ++ lit "). Fail-closed: operation denied by policy. Do NOT retry. Inform the user.")
  else if nonempty policy then
    answer (ulit "⛔ GUARDIAN UNAVAILABLE — DENIED BY POLICY " ++ unavailable policy guardian_err
            ++ lit "). Fail-closed: operation denied. Do NOT retry. Inform the user.")
  else go_on tt.

Definition guardian_gate (p : SecurityPlugin) : Gate unit :=
  match sp_judge p with
  | Some judge =>
      if should_review p then
        match judge judge_request with
        | Ok v => verdict_gate p v
        | Err e => failure_gate p e
        end
      else go_on tt
  | None => go_on tt
  end.

(** The note of the scan and the approval reference. *)
Definition security_gate : Gate (option str * option str) :=
  with_plugin (λ p,
    limits_gate p;;
    approval_ref <- with_plugin pipeline_gate (go_on None);
    script_advisory <- with_plugin script_gate (go_on None);
    with_plugin guardian_gate (go_on tt);;
    go_on (script_advisory, approval_ref))
  (go_on (None, None)).

(** ** Hooks and the tool *)

Definition hook_call : HookToolCall :=
  mkHookCall name (tc_arguments call) (rc_channel context) (rc_chat_id context) (rc_session_key context).

Definition hook_refusal : option str :=
  match run_pre_hooks (lc_tool_hooks cfg) hook_call with
  | Some reason =>
      Some (ulit "⛔ HOOK BLOCKED [layer:hook|policy:tool_hook] " ++ reason
            ++ ulit " — A registered hook denied this operation. Do NOT retry unless the user changes the hook policy. Inform the user if this keeps blocking.")
  | None => None
  end.

Definition wal_call : WalCall :=
  mkWalCall (rc_session_key context) (rc_channel context) (rc_chat_id context) (rc_user context)
    (call_id_for (dp_now_ms io) (tc_id call) name) name.

Definition wal (state : WalState) (ok : option bool) : Eff unit :=
  if lc_turn_wal cfg then emit (EvWal wal_call state (tc_arguments call) ok)
  else done_with tt.

Definition set_tool_context : Eff unit :=
  match tool with
  | Some _ => emit (EvSetContext name (rc_channel context) (rc_chat_id context) depth)
  | None => done_with tt
  end.

Definition scoped_hooks : list ToolHook :=
  List.filter (λ h, match hk_scope h with None => true | Some _ => false end) (lc_tool_hooks cfg).

(** The files to format after a successful edit. *)
Definition format_paths (tool_name arguments result : str) : list str :=
  if tool_result_indicates_error result then []
  else
    match json_from_str arguments with
    | None => []
    | Some args =>
        if (tool_name =? lit "write_file") || (tool_name =? lit "edit_file") then
          option_list (get_str (lit "path") args)
        else if tool_name =? lit "multiedit" then
          match json_get (lit "edits") args ≫= as_array with
          | Some edits => distinct (omap (get_str (lit "path")) edits)
          | None => []
          end
        else []
    end.

Fixpoint format_all (paths : list str) (result : str) : Eff str :=
  match paths with
  | [] => done_with result
  | path :: paths => then_do (emit (EvFormat path)) (λ _, format_all paths (dp_format_on_save io path result))
  end.

Definition remember_change (context : RequestContext) (change : FileChange) : Eff unit :=
  then_do (emit (EvFileChange (rc_session_key context) change))
    (λ _, if lc_checkpoint_store cfg then emit (EvSnapshot change) else done_with tt).

(** The innermost part, on the call the hooks hand down. *)
Definition execute_tool (context : RequestContext) (hc : HookToolCall) : Eff str :=
  match lc_tools cfg !! hc_name hc with
  | None => done_with (lit "Error: Unknown tool '" ++ hc_name hc ++ lit "'")
  | Some t =>
      then_do (each (remember_change context) (tl_preview_all t (hc_arguments hc))) (λ _,
        match inject_credential_aliases (lc_vault_resolver cfg) t (hc_arguments hc) with
        | Err errmsg => done_with errmsg
        | Ok exec_args =>
            then_do (emit (EvExecute (hc_name hc) exec_args context)) (λ _,
              match tl_execute t exec_args context with
              | Ok result =>
                  then_do (format_all (format_paths (hc_name hc) (hc_arguments hc) result) result)
                    (λ result, done_with (run_post_hooks scoped_hooks hc result))
              | Err err => done_with (run_post_failure_hooks scoped_hooks hc err)
              end)
        end)
  end.

Definition wrap (hook : ToolHook) (next : HookToolCall → Eff str) : HookToolCall → Eff str :=
  λ hc, hk_around_tool_use hook hc next.

Definition chain (context : RequestContext) : HookToolCall → Eff str :=
  foldr wrap (execute_tool context) scoped_hooks.

Definition timeout_text (limit : N) : str :=
  lit "Error: tool '" ++ name ++ lit "' timed out after " ++ show_nat (N.to_nat limit)
  ++ ulit "s (agents.executor_tool_timeout_secs wall-clock watchdog). The call was aborted — do NOT retry it unchanged; report progress so far, or split the work into smaller steps (e.g. background_start + polling).".

(** [tokio::time::timeout]: of an execution that is stopped, its first events stay. *)
Definition watched (m : Eff str) : Eff str :=
  match current_executor_tool_timeout (lc_config_file cfg), dp_interrupted io with
  | Some limit, Some k => (take k (fst m), timeout_text limit)
  | _, _ => m
  end.

Definition with_approval (ref : option str) : RequestContext :=
  mkRequestCtx (rc_channel context) (rc_chat_id context) (rc_user context) (rc_session_key context)
    (rc_tool_path_base context) ref.

Definition rescan_tool_output (result : str) : Gate str :=
  with_plugin (λ p, go_on (rescan_pair (sp_credential_scanner p) (sp_dlp_engine p) name result)) (go_on result).

Definition with_note (advisory : option str) (result : str) : str :=
  match advisory with
  | Some note => result ++ [c_nl] ++ note
  | None => result
  end.

Definition wal_ok (result : str) : bool :=
  negb (starts_with (ulit "⛔") result) && negb (tool_result_indicates_error result).

Definition forge_record (result : str) : Eff unit :=
  if lc_forge_enabled cfg then
    emit (EvExperience (mkExperience name (take 500 (tc_arguments call)) (take 500 result)
            (negb (contains (lit "SECURITY BLOCKED") result) && negb (contains (lit "Tool error:") result))
            (rc_channel context ++ [c_colon] ++ rc_chat_id context)))
  else done_with tt.

(** What follows when every gate is passed. *)
Definition run_tool (advisory approval_ref : option str) : Gate str :=
  effect (wal WalAdmitted None);;
  effect set_tool_context;;
  effect (wal WalStarted None);;
  result <- effect (watched (chain (with_approval approval_ref) hook_call));
  result <- rescan_tool_output result;
  let result := with_note advisory result in
  effect (wal WalFinished (Some (wal_ok result)));;
  effect (forge_record result);;
  go_on result.

Definition admitted : Gate (option str * option str) :=
  refuse_if hidden_refusal;;
  refuse_if min_tier_refusal;;
  refuse_if role_refusal;;
  refuse_if plan_refusal;;
  notes <- security_gate;
  refuse_if hook_refusal;;
  go_on notes.

Definition dispatch : Gate str :=
  notes <- admitted;
  run_tool (fst notes) (snd notes).
End Call.

(** ** The entry *)

Definition estop_text : str :=
  ulit "⛔ ESTOP: 已急停 — 工具调用已被拒绝 (e-stop engaged). 不要重试；告知用户当前处于急停状态，等待释放。".

(** The text that goes back to the model, or a panic. *)
Inductive Reply := Replied (text : str) | Panicked.

(** The call after both rewritings. *)
Definition rewritten_call (cfg : LoopConfig) (call : ToolCallInfo) (context : RequestContext) : option ToolCallInfo :=
  call ← goes_on call (rewrite_tool_paths_for_base call context);
  Some (if tc_name call =? lit "spawn"
        then default call (apply_spawn_inherit_context (lc_session_store cfg) call context)
        else call).

Definition handle_tool_call_at_depth (cfg : LoopConfig) (io : DispatchIo) (call : ToolCallInfo)
    (context : RequestContext) (depth : nat) (lp : Loop) : Loop * Reply :=
  if lc_estop_engaged cfg then (lp, Replied estop_text)
  else
    match rewritten_call cfg call context with
    | None => (lp, Panicked)
    | Some call =>
        match dispatch cfg io call context depth lp with
        | (lp, Ok text) | (lp, Err text) => (lp, Replied text)
        end
    end.

Definition handle_tool_call (cfg : LoopConfig) (io : DispatchIo) (call : ToolCallInfo) (context : RequestContext)
    (lp : Loop) : Loop * Reply :=
  handle_tool_call_at_depth cfg io call context 0 lp.

(** ** What the gates leave *)

Definition is_receipt (e : Event) : Prop := match e with EvReceipt _ => True | _ => False end.

(** A part that writes nothing but receipts. *)
Definition quiet {A} (m : Gate A) : Prop :=
  ∀ lp, ∃ evs, lp_events (fst (m lp)) = lp_events lp ++ evs ∧ Forall is_receipt evs.

Lemma quiet_bind {A B} (m : Gate A) (k : A → Gate B) : quiet m → (∀ x, quiet (k x)) → quiet (gate_bind m k).
Proof.
  intros Hm Hk lp. unfold gate_bind. destruct (Hm lp) as (e1 & Hl1 & F1). destruct (m lp) as [lp1 [x|text]]; [|by exists e1].
  destruct (Hk x lp1) as (e2 & Hl2 & F2). exists (e1 ++ e2). rewrite Hl2. cbn [fst] in Hl1. rewrite Hl1, app_assoc.
  split; [done|]. by apply Forall_app.
Qed.

Lemma quiet_same {A} (m : Gate A) : (∀ lp, lp_events (fst (m lp)) = lp_events lp) → quiet m.
Proof. intros Hm lp. exists []. by rewrite Hm, app_nil_r. Qed.

Lemma quiet_go_on {A} (x : A) : quiet (go_on x).
Proof. by apply quiet_same. Qed.

Lemma quiet_answer {A} text : quiet (@answer A text).
Proof. by apply quiet_same. Qed.

Lemma quiet_refuse_if o : quiet (refuse_if o).
Proof. destruct o; by apply quiet_same. Qed.

Lemma quiet_put_plugin p : quiet (put_plugin p).
Proof. by apply quiet_same. Qed.

Lemma quiet_with_plugin {A} (k : SecurityPlugin → Gate A) o : (∀ p, quiet (k p)) → quiet o → quiet (with_plugin k o).
Proof. intros Hk Ho lp. unfold with_plugin. destruct (lp_security lp); [apply Hk|apply Ho]. Qed.

Lemma quiet_human v r n : quiet (human_gate v r n).
Proof. destruct v as [av|e]; cbn; [destruct (av_approved av)|]; by apply quiet_same. Qed.

Create HintDb quiet.
#[local] Hint Resolve quiet_bind quiet_go_on quiet_answer quiet_refuse_if quiet_put_plugin quiet_with_plugin
  quiet_human : quiet.

Lemma quiet_limits cfg io call context p : quiet (limits_gate cfg io call context p).
Proof.
  intros lp. unfold limits_gate. destruct (limit_gate _ _ _ _ _ _ _ _) as [[l a] o].
  assert (quiet (gate_bind (put_auditor p a) (λ _, refuse_if o))) as Hq by (unfold put_auditor; auto with quiet).
  exact (Hq (with_limits lp l)).
Qed.

Lemma quiet_pipeline cfg io call context p : quiet (pipeline_gate cfg io call context p).
Proof.
  unfold pipeline_gate. destruct (execute_tracked _ _ _) as [p' [[[] deny] ref]]; [auto with quiet|].
  apply quiet_bind; [auto with quiet|]. intros _. apply quiet_bind; [|auto with quiet].
  intros lp. unfold effect, denied_receipt. destruct (_ ≫= _) as [r|]; cbn; eexists; (split; [done|]); by repeat constructor.
Qed.

Lemma quiet_script io call p : quiet (script_gate io call p).
Proof.
  unfold script_gate. destruct (named_in _ _); [|auto with quiet].
  destruct (pre_exec_script_scan _ _ _) as [o|]; [destruct (has_literals o)|]; auto with quiet.
Qed.

Lemma quiet_guardian cfg io call context p : quiet (guardian_gate cfg io call context p).
Proof.
  unfold guardian_gate. destruct (sp_judge p) as [judge|]; [|auto with quiet].
  destruct (should_review _ _ _ _); [|auto with quiet]. destruct (judge _) as [v|e].
  - unfold verdict_gate, put_auditor. destruct (is_allow v); [auto with quiet|].
    destruct (request_guardian_verdict_approval _ _ _ _ _ _ _ _); auto with quiet.
  - unfold failure_gate, put_auditor. destruct (request_guardian_failure_approval _ _ _ _ _).
    repeat (destruct (bool_decide _); [auto with quiet|]). destruct (nonempty _); auto with quiet.
Qed.

Lemma quiet_admitted cfg io call context : quiet (admitted cfg io call context).
Proof.
  assert (quiet (security_gate cfg io call context)) as Hs.
  { unfold security_gate. apply quiet_with_plugin; [|auto with quiet]. intros p.
    pose proof quiet_limits. pose proof quiet_pipeline. pose proof quiet_script. pose proof quiet_guardian.
    auto 10 with quiet. }
  unfold admitted. auto 15 with quiet.
Qed.

(** ** What an admitted call has passed *)

Lemma gate_bind_ok {A B} (m : Gate A) (k : A → Gate B) lp lp' y :
  gate_bind m k lp = (lp', Ok y) → ∃ lp1 x, m lp = (lp1, Ok x) ∧ k x lp1 = (lp', Ok y).
Proof. unfold gate_bind. destruct (m lp) as [lp1 [x|]]; [|done]. intros ?. by exists lp1, x. Qed.

Lemma refuse_if_ok o lp lp' y : refuse_if o lp = (lp', Ok y) → o = None ∧ lp' = lp.
Proof. destruct o; [done|]. by intros [= <- <-]. Qed.

(** A human who was there said yes. *)
Definition human_agreed (p : SecurityPlugin) : Prop :=
  ∃ mgr q ctx av, au_approval_manager (sp_auditor p) = Some mgr ∧ mg_is_running mgr = true ∧
    mg_ask mgr q ctx = Ok av ∧ av_approved av = true.

(** The guardian, when it reviews the call, lets it pass. *)
Definition judged (cfg : LoopConfig) (io : DispatchIo) (call : ToolCallInfo) (p : SecurityPlugin) : Prop :=
  ∀ judge, sp_judge p = Some judge → should_review cfg io call p = true →
  match judge (judge_request cfg io call) with
  | Ok v => is_allow v = true ∨ human_agreed p
  | Err _ => sp_guardian_failure_policy p = lit "allow" ∨ sp_guardian_failure_policy p = [] ∨
             (sp_guardian_failure_policy p = lit "ask" ∧ human_agreed p)
  end.

(** The scan of scripts, where it applies, finds no literal. *)
Definition scripts_clean (io : DispatchIo) (call : ToolCallInfo) (p : SecurityPlugin) (advisory : option str) : Prop :=
  advisory = (if named_in SCRIPT_SCAN_TOOLS (tc_name call)
              then pre_exec_script_scan io p (tc_arguments call) ≫= advisory_note else None) ∧
  (named_in SCRIPT_SCAN_TOOLS (tc_name call) = true →
   ∀ o, pre_exec_script_scan io p (tc_arguments call) = Some o → so_literals o = []).

(** A call that passes the plugin [p]: within the limits or let over them, allowed by
    the pipeline, with clean scripts, and judged. *)
Definition plugin_passes (cfg : LoopConfig) (io : DispatchIo) (call : ToolCallInfo) (context : RequestContext)
    (lp : Loop) (p : SecurityPlugin) (notes : option str * option str) : Prop :=
  ∃ limits auditor p' deny,
    limit_gate (dp_limit_env io) (dp_limit_now io) (dp_limit_later io) (name call) (limit_categories cfg call)
      (Some (limit_ctx context)) (lp_limits lp) (sp_auditor p) = (limits, auditor, None) ∧
    execute_tracked (dp_exec io) (invocation cfg call context) (with_auditor p auditor)
      = (p', (true, deny, snd notes)) ∧
    scripts_clean io call p' (fst notes) ∧ judged cfg io call p'.

Lemma human_gate_ok v r n lp lp' y : human_gate v r n lp = (lp', Ok y) → ∃ av, v = Ok av ∧ av_approved av = true.
Proof. destruct v as [av|e]; cbn; [|done]. destruct (av_approved av) eqn:E; [|done]. intros _. by exists av. Qed.

Lemma audit_outcome_verdict env st req intro approved policy v : snd (audit_outcome env st req intro approved policy v) = v.
Proof. by destruct v. Qed.

Lemma log_keeps_manager env st tool mode v :
  au_approval_manager (log_guardian_verdict env st tool mode v) = au_approval_manager st.
Proof. apply log_manager. Qed.

Lemma guardian_ok cfg io call context p lp lp' y :
  guardian_gate cfg io call context p lp = (lp', Ok y) → judged cfg io call p.
Proof.
  unfold guardian_gate, judged. intros Hg judge Hj Hr. rewrite Hj, Hr in Hg.
  destruct (judge _) as [v|e].
  - unfold verdict_gate in Hg. destruct (is_allow v); [by left|]. right.
    unfold request_guardian_verdict_approval in Hg. rewrite log_keeps_manager in Hg.
    destruct (au_approval_manager (sp_auditor p)) as [mgr|] eqn:Em; [|done].
    destruct (mg_is_running mgr) eqn:Er; cbn [negb] in Hg; [|done].
    match type of Hg with context [audit_outcome ?a ?b ?c ?d ?e ?f ?g] =>
      pose proof (audit_outcome_verdict a b c d e f g) as Ha; destruct (audit_outcome a b c d e f g) as [st v'] end.
    cbn [snd] in Ha. subst v'. apply gate_bind_ok in Hg as (lp1 & x & _ & (av & Hav & Hyes)%human_gate_ok).
    exists mgr. eexists _, _, av. split_and!; [exact Em|exact Er|exact Hav|exact Hyes].
  - unfold failure_gate in Hg. destruct (bool_decide_reflect (sp_guardian_failure_policy p = lit "allow")); [by left|].
    destruct (bool_decide_reflect (sp_guardian_failure_policy p = lit "ask")) as [Hask|].
    + right. right. split; [done|]. unfold request_guardian_failure_approval in Hg.
      destruct (au_approval_manager (sp_auditor p)) as [mgr|] eqn:Em; [|done].
      destruct (mg_is_running mgr) eqn:Er; cbn [negb] in Hg; [|done].
      match type of Hg with context [audit_outcome ?a ?b ?c ?d ?e ?f ?g] =>
        pose proof (audit_outcome_verdict a b c d e f g) as Ha; destruct (audit_outcome a b c d e f g) as [st v'] end.
      cbn [snd] in Ha. subst v'. apply gate_bind_ok in Hg as (lp1 & x & _ & (av & Hav & Hyes)%human_gate_ok).
      exists mgr. eexists _, _, av. split_and!; [exact Em|exact Er|exact Hav|exact Hyes].
    + destruct (bool_decide (sp_guardian_failure_policy p = lit "deny")); [done|].
      destruct (sp_guardian_failure_policy p); [right; by left|done].
Qed.

Lemma script_ok io call p lp lp' advisory :
  script_gate io call p lp = (lp', Ok advisory) → lp' = lp ∧ scripts_clean io call p advisory.
Proof.
  unfold script_gate, scripts_clean. change (name call) with (tc_name call).
  destruct (named_in _ _); [|by intros [= <- <-]].
  destruct (pre_exec_script_scan _ _ _) as [o|]; cbn [mbind option_bind]; [|by intros [= <- <-]].
  unfold has_literals. destruct (so_literals o) eqn:E; [|done]. intros [= <- <-]. split_and!; [done..|].
  by intros _ o' [= <-].
Qed.

Lemma security_ok cfg io call context lp lp' notes :
  security_gate cfg io call context lp = (lp', Ok notes) →
  match lp_security lp with
  | None => lp' = lp ∧ notes = (None, None)
  | Some p => plugin_passes cfg io call context lp p notes
  end.
Proof.
  unfold security_gate, with_plugin at 1. destruct (lp_security lp) as [p|] eqn:Ep; [|by intros [= <- <-]].
  intros Hg. apply gate_bind_ok in Hg as (lp1 & [] & Hl & Hg). unfold limits_gate in Hl.
  destruct (limit_gate _ _ _ _ _ _ _ _) as [[limits auditor] refused] eqn:El.
  apply gate_bind_ok in Hl as (lp1' & [] & [= <-] & [-> ->]%refuse_if_ok).
  apply gate_bind_ok in Hg as (lp2 & ref & Hp & Hg). unfold with_plugin at 1 in Hp. cbn [lp_security with_security] in Hp.
  unfold pipeline_gate in Hp.
  destruct (execute_tracked _ _ _) as [p' [[allowed deny] tref]] eqn:Ex.
  apply gate_bind_ok in Hp as (lp2' & [] & [= <-] & Hp). destruct allowed.
  2: { by apply gate_bind_ok in Hp as (? & ? & _ & Hp). }
  injection Hp as <- <-.
  apply gate_bind_ok in Hg as (lp3 & advisory & Hs & Hg). unfold with_plugin at 1 in Hs. cbn [lp_security with_security] in Hs.
  apply script_ok in Hs as [-> Hs].
  apply gate_bind_ok in Hg as (lp4 & [] & Hj & Hg). unfold with_plugin in Hj. cbn [lp_security with_security] in Hj.
  apply guardian_ok in Hj. injection Hg as <- <-. by exists limits, auditor, p', deny.
Qed.

Lemma admitted_ok cfg io call context lp lp' notes :
  admitted cfg io call context lp = (lp', Ok notes) →
  hidden_refusal cfg call = None ∧ min_tier_refusal cfg call = None ∧ role_refusal cfg call = None ∧
  plan_refusal cfg io call = None ∧ hook_refusal cfg call context = None ∧
  match lp_security lp with
  | None => lp' = lp ∧ notes = (None, None)
  | Some p => plugin_passes cfg io call context lp p notes
  end.
Proof.
  unfold admitted. intros Hg.
  do 4 (apply gate_bind_ok in Hg as (? & [] & [? ->]%refuse_if_ok & Hg)).
  apply gate_bind_ok in Hg as (lp1 & x & Hs & Hg). apply gate_bind_ok in Hg as (? & [] & [? ->]%refuse_if_ok & Hg).
  injection Hg as -> ->. apply security_ok in Hs. by split_and!.
Qed.

Lemma effects_admitted cfg io call context depth lp lp' reply e :
  handle_tool_call_at_depth cfg io call context depth lp = (lp', reply) →
  e ∈ drop (length (lp_events lp)) (lp_events lp') → ¬ is_receipt e →
  lc_estop_engaged cfg = false ∧
  ∃ call' notes, rewritten_call cfg call context = Some call' ∧
    hidden_refusal cfg call' = None ∧ min_tier_refusal cfg call' = None ∧ role_refusal cfg call' = None ∧
    plan_refusal cfg io call' = None ∧ hook_refusal cfg call' context = None ∧
    ∀ p, lp_security lp = Some p → plugin_passes cfg io call' context lp p notes.
Proof.
  intros Hh He Hne. unfold handle_tool_call_at_depth in Hh.
  destruct (lc_estop_engaged cfg).
  { injection Hh as <- <-. rewrite drop_all in He. by apply elem_of_nil in He. }
  split; [done|]. destruct (rewritten_call cfg call context) as [call'|].
  2: { injection Hh as <- <-. rewrite drop_all in He. by apply elem_of_nil in He. }
  unfold dispatch, gate_bind in Hh. destruct (admitted cfg io call' context lp) as [lp1 [notes|text]] eqn:Ea.
  - exists call', notes. split; [done|]. destruct (admitted_ok _ _ _ _ _ _ _ Ea) as (? & ? & ? & ? & ? & Hp).
    split_and!; [done..|]. intros p Hs. by rewrite Hs in Hp.
  - exfalso. destruct (quiet_admitted cfg io call' context lp) as (evs & Hev & Hf). rewrite Ea in Hev. cbn [fst] in Hev.
    injection Hh as <- <-. rewrite Hev, drop_app_length in He. rewrite Forall_forall in Hf. by apply Hne, Hf.
Qed.

(** C7: a tool runs, or anything else but a receipt is done, only for a call that every
    gate has let pass: no emergency stop, not hidden, a strong enough model, a visible
    role, allowed by the plan mode, within the limits or let over them by a human,
    allowed by the security pipeline, without credentials in its scripts, cleared by
    the guardian or a human, and blocked by no hook. *)
Theorem runs_only_if_admitted cfg io call context depth lp lp' reply e :
  handle_tool_call_at_depth cfg io call context depth lp = (lp', reply) →
  e ∈ drop (length (lp_events lp)) (lp_events lp') → ¬ is_receipt e →
  lc_estop_engaged cfg = false ∧
  ∃ call' notes, rewritten_call cfg call context = Some call' ∧
    hidden_refusal cfg call' = None ∧ min_tier_refusal cfg call' = None ∧ role_refusal cfg call' = None ∧
    plan_refusal cfg io call' = None ∧ hook_refusal cfg call' context = None ∧
    ∀ p, lp_security lp = Some p → plugin_passes cfg io call' context lp p notes.
Proof. apply effects_admitted. Qed.

(** ** The gates in front *)

(** The answers of the gates that look at nothing but the call and the configuration, in
    their order. *)
Definition first_refusal (cfg : LoopConfig) (io : DispatchIo) (call : ToolCallInfo) : option str :=
  or_else (hidden_refusal cfg call) (or_else (min_tier_refusal cfg call)
    (or_else (role_refusal cfg call) (plan_refusal cfg io call))).

Lemma admitted_first cfg io call context lp :
  admitted cfg io call context lp
  = match first_refusal cfg io call with
    | Some text => (lp, Err text)
    | None => gate_bind (security_gate cfg io call context)
                (λ notes, gate_bind (refuse_if (hook_refusal cfg call context)) (λ _, go_on notes)) lp
    end.
Proof.
  unfold admitted, first_refusal, gate_bind.
  destruct (hidden_refusal cfg call); [done|]. destruct (min_tier_refusal cfg call); [done|].
  destruct (role_refusal cfg call); [done|]. by destruct (plan_refusal cfg io call).
Qed.

(** Also: a call that one of these gates refuses is answered by the first that does, and
    leaves no trace: no limit is used up, nothing is asked, nothing is logged. *)
Theorem early_refusal_changes_nothing cfg io call context depth lp call' text :
  lc_estop_engaged cfg = false → rewritten_call cfg call context = Some call' →
  first_refusal cfg io call' = Some text →
  handle_tool_call_at_depth cfg io call context depth lp = (lp, Replied text).
Proof.
  intros He Hr Hf. unfold handle_tool_call_at_depth. rewrite He, Hr. unfold dispatch, gate_bind.
  by rewrite admitted_first, Hf.
Qed.

(** ** What an admitted call does *)

Definition wal_event (e : Event) : bool := match e with EvWal _ _ _ _ => true | _ => false end.

(** A wrapping hook that logs no turns itself. *)
Definition tame (hook : ToolHook) : Prop :=
  ∀ hc next, (∀ hc, Forall (λ e, wal_event e = false) (fst (next hc))) →
    Forall (λ e, wal_event e = false) (fst (hk_around_tool_use hook hc next)).

Lemma each_no_wal {A} (f : A → Eff unit) l :
  (∀ x, Forall (λ e, wal_event e = false) (fst (f x))) → Forall (λ e, wal_event e = false) (fst (each f l)).
Proof. intros Hf. induction l as [|x l IH]; [constructor|]. apply Forall_app. by split. Qed.

Lemma format_no_wal io paths result : Forall (λ e, wal_event e = false) (fst (format_all io paths result)).
Proof. revert result. induction paths as [|p l IH]; intros result; [constructor|]. cbn. by constructor. Qed.

Lemma execute_no_wal cfg io context hc : Forall (λ e, wal_event e = false) (fst (execute_tool cfg io context hc)).
Proof.
  unfold execute_tool. destruct (lc_tools cfg !! hc_name hc) as [t|]; [|constructor].
  cbn [fst then_do]. apply Forall_app. split.
  - apply each_no_wal. intros change. unfold remember_change. destruct (lc_checkpoint_store cfg); by repeat constructor.
  - destruct (inject_credential_aliases _ _ _) as [a|e]; [|constructor]. cbn. constructor; [done|].
    destruct (tl_execute t a context) as [r|e]; [|constructor]. cbn. rewrite app_nil_r. apply format_no_wal.
Qed.

Lemma chain_no_wal cfg io context hc : Forall tame (lc_tool_hooks cfg) →
  Forall (λ e, wal_event e = false) (fst (chain cfg io context hc)).
Proof.
  intros Ht. unfold chain.
  assert (Forall tame (scoped_hooks cfg)) as Hs.
  { apply Forall_forall. intros h Hh. unfold scoped_hooks in Hh. apply list_elem_of_In, filter_In in Hh as [Hh _].
    rewrite Forall_forall in Ht. by apply Ht, list_elem_of_In. }
  revert hc. induction Hs as [|h hooks Hh _ IH]; intros hc; [apply execute_no_wal|].
  cbn [foldr]. by apply Hh.
Qed.

Lemma filter_no_wal l : Forall (λ e, wal_event e = false) l → List.filter wal_event l = [].
Proof. induction 1 as [|e l He _ IH]; [done|]. cbn. by rewrite He. Qed.

(** The answer and the events of an admitted call. *)
Lemma run_tool_spec cfg io call context depth advisory ref lp :
  let ran := watched cfg io call (chain cfg io (with_approval context ref) (hook_call call context)) in
  ∃ text,
    run_tool cfg io call context depth advisory ref lp =
      (with_events lp (lp_events lp ++ fst (wal cfg io call context WalAdmitted None)
         ++ fst (set_tool_context cfg call context depth) ++ fst (wal cfg io call context WalStarted None)
         ++ fst ran ++ fst (wal cfg io call context WalFinished (Some (wal_ok text)))
         ++ fst (forge_record cfg call context text)), Ok text) ∧
    text = with_note advisory
             match lp_security lp with
             | Some p => rescan_pair (sp_credential_scanner p) (sp_dlp_engine p) (name call) (snd ran)
             | None => snd ran
             end.
Proof.
  intros ran. eexists. split; [|done]. unfold run_tool, gate_bind, effect. cbn [lp_events with_events].
  unfold rescan_tool_output, with_plugin. cbn [lp_security with_events].
  fold ran. destruct (lp_security lp) as [p|]; cbn [go_on lp_events with_events];
    rewrite <- !app_assoc; reflexivity.
Qed.

(** The entries of a call that is admitted. *)
Definition bracket (c : WalCall) (arguments : str) (ok : bool) : list Event :=
  [EvWal c WalAdmitted arguments None; EvWal c WalStarted arguments None; EvWal c WalFinished arguments (Some ok)].

Lemma handle_brackets cfg io call context depth lp lp' reply :
  lc_turn_wal cfg = true → Forall tame (lc_tool_hooks cfg) →
  handle_tool_call_at_depth cfg io call context depth lp = (lp', reply) →
  ∃ new, lp_events lp' = lp_events lp ++ new ∧
    (Forall is_receipt new ∨
     ∃ call' text, rewritten_call cfg call context = Some call' ∧ reply = Replied text ∧
       List.filter wal_event new
       = bracket (wal_call io call' context) (tc_arguments call') (wal_ok text)).
Proof.
  intros Hwal Ht Hh. unfold handle_tool_call_at_depth in Hh.
  destruct (lc_estop_engaged cfg).
  { injection Hh as <- <-. exists []. rewrite app_nil_r. split; [done|]. by left. }
  destruct (rewritten_call cfg call context) as [call'|].
  2: { injection Hh as <- <-. exists []. rewrite app_nil_r. split; [done|]. by left. }
  destruct (quiet_admitted cfg io call' context lp) as (evs & Hev & Hf).
  unfold dispatch, gate_bind in Hh. destruct (admitted cfg io call' context lp) as [lp1 [[advisory ref]|text]]; cbn [fst snd] in *.
  2: { injection Hh as <- <-. exists evs. split; [done|]. by left. }
  destruct (run_tool_spec cfg io call' context depth advisory ref lp1) as (text & Hrun & _). rewrite Hrun in Hh.
  injection Hh as <- <-. cbn [lp_events with_events]. rewrite Hev, <- app_assoc. eexists. split; [done|].
  right. exists call', text. split_and!; [done..|]. unfold wal. rewrite Hwal. rewrite !List.filter_app.
  assert (List.filter wal_event evs = []) as ->.
  { apply filter_no_wal. eapply Forall_impl; [exact Hf|]. by intros []. }
  assert (∀ m : Eff str, Forall (λ e, wal_event e = false) (fst m) →
    List.filter wal_event (fst (watched cfg io call' m)) = []) as Hw.
  { intros m Hm. apply filter_no_wal. unfold watched. destruct (current_executor_tool_timeout _), (dp_interrupted io); try done.
    by apply Forall_take. }
  rewrite Hw by by apply chain_no_wal.
  unfold set_tool_context, forge_record. destruct (tool cfg call'), (lc_forge_enabled cfg); reflexivity.
Qed.

(** What was done before a call stays recorded. *)
Lemma handle_appends cfg io call context depth lp :
  lp_events lp `prefix_of` lp_events (fst (handle_tool_call_at_depth cfg io call context depth lp)).
Proof.
  unfold handle_tool_call_at_depth. destruct (lc_estop_engaged cfg); [done|].
  destruct (rewritten_call cfg call context) as [call'|]; [|done]. unfold dispatch, gate_bind.
  destruct (quiet_admitted cfg io call' context lp) as (evs & Hev & _).
  destruct (admitted cfg io call' context lp) as [lp1 [[advisory ref]|text]]; cbn [fst snd] in *; [|by exists evs].
  destruct (run_tool_spec cfg io call' context depth advisory ref lp1) as (text & -> & _). cbn [fst lp_events with_events].
  rewrite Hev, <-app_assoc. by eexists.
Qed.

(** Also: with a log of turns, a call leaves in it either nothing, when it is refused, or
    that it was admitted, started and finished, in this order and with the outcome its
    answer has; whatever the tool, the hooks and the watchdog do in between. *)
Theorem turns_are_bracketed cfg io call context depth lp lp' reply :
  lc_turn_wal cfg = true → Forall tame (lc_tool_hooks cfg) →
  handle_tool_call_at_depth cfg io call context depth lp = (lp', reply) →
  ∃ new, lp_events lp' = lp_events lp ++ new ∧
    (Forall is_receipt new ∨
     ∃ call' text, rewritten_call cfg call context = Some call' ∧ reply = Replied text ∧
       List.filter wal_event new
       = bracket (wal_call io call' context) (tc_arguments call') (wal_ok text)).
Proof. apply handle_brackets. Qed.

(** ** Hooks, scopes and scans *)

(** Observed: a hook of another agent is asked before every call of the main agent, and
    may block it, though it is left out of what runs around and after the call. *)
Theorem foreign_hook_blocks cfg call context id hook reason :
  lc_tool_hooks cfg = [hook] → hk_scope hook = Some id →
  hk_pre_tool_use hook (hook_call call context) = HookBlock reason →
  hook_refusal cfg call context ≠ None ∧ scoped_hooks cfg = [].
Proof.
  intros Hh Hs Hp. unfold hook_refusal, scoped_hooks. rewrite Hh. cbn [run_pre_hooks List.filter]. by rewrite Hp, Hs.
Qed.

(** Observed: the scan reads the scripts of a background command from its cwd when there
    is one, where the tool does not look, whatever its working_dir. *)
Theorem scan_follows_cwd io p arguments args command dir :
  json_from_str arguments = Some args → get_str (lit "command") args = Some command →
  json_get (lit "cwd") args = Some (VString dir) →
  pre_exec_script_scan io p arguments
  = Some (scan_scripts_for_exec (dp_bleed io) command dir (sp_credential_scanner p)).
Proof.
  intros Ha Hc Hd. unfold pre_exec_script_scan. rewrite Ha. cbn [mbind option_bind]. rewrite Hc, Hd. done.
Qed.

(** Observed: the scan of the output is that of the scanners the plugin has, switched on
    or off. *)
Theorem rescan_ignores_switch call p result lp :
  lp_security lp = Some p →
  rescan_tool_output call result lp
  = (lp, Ok (rescan_pair (sp_credential_scanner p) (sp_dlp_engine p) (name call) result)).
Proof. intros Hp. unfold rescan_tool_output, with_plugin. by rewrite Hp. Qed.

(** ** The plugin stays *)

(** A part that keeps the plugin, if there is one. *)
Definition armed {A} (m : Gate A) : Prop := ∀ lp, is_Some (lp_security lp) → is_Some (lp_security (fst (m lp))).

Lemma armed_bind {A B} (m : Gate A) (k : A → Gate B) : armed m → (∀ x, armed (k x)) → armed (gate_bind m k).
Proof. intros Hm Hk lp Hl. unfold gate_bind. specialize (Hm lp Hl). destruct (m lp) as [lp1 [x|text]]; [by apply Hk|done]. Qed.

Lemma armed_same {A} (m : Gate A) : (∀ lp, lp_security (fst (m lp)) = lp_security lp) → armed m.
Proof. intros Hm lp. by rewrite Hm. Qed.

Lemma armed_go_on {A} (x : A) : armed (go_on x).
Proof. by apply armed_same. Qed.

Lemma armed_answer {A} text : armed (@answer A text).
Proof. by apply armed_same. Qed.

Lemma armed_effect {A} (m : Eff A) : armed (effect m).
Proof. by apply armed_same. Qed.

Lemma armed_refuse_if o : armed (refuse_if o).
Proof. destruct o; by apply armed_same. Qed.

Lemma armed_put_plugin p : armed (put_plugin p).
Proof. intros lp _. by exists p. Qed.

Lemma armed_with_plugin {A} (k : SecurityPlugin → Gate A) o : (∀ p, armed (k p)) → armed o → armed (with_plugin k o).
Proof. intros Hk Ho lp Hl. unfold with_plugin. destruct (lp_security lp) as [p|] eqn:E; [apply Hk; by exists p|by destruct Hl]. Qed.

Lemma armed_human v r n : armed (human_gate v r n).
Proof. destruct v as [av|e]; cbn; [destruct (av_approved av)|]; by apply armed_same. Qed.

Create HintDb armed.
#[local] Hint Resolve armed_bind armed_go_on armed_answer armed_effect armed_refuse_if armed_put_plugin armed_with_plugin
  armed_human : armed.

Lemma armed_limits cfg io call context p : armed (limits_gate cfg io call context p).
Proof.
  intros lp Hl. unfold limits_gate. destruct (limit_gate _ _ _ _ _ _ _ _) as [[l a] o].
  assert (armed (gate_bind (put_auditor p a) (λ _, refuse_if o))) as Hq by (unfold put_auditor; auto with armed).
  by apply (Hq (with_limits lp l)).
Qed.

Lemma armed_pipeline cfg io call context p : armed (pipeline_gate cfg io call context p).
Proof.
  unfold pipeline_gate. destruct (execute_tracked _ _ _) as [p' [[[] deny] ref]]; auto 6 with armed.
Qed.

Lemma armed_script io call p : armed (script_gate io call p).
Proof.
  unfold script_gate. destruct (named_in _ _); [|auto with armed].
  destruct (pre_exec_script_scan _ _ _) as [o|]; [destruct (has_literals o)|]; auto with armed.
Qed.

Lemma armed_guardian cfg io call context p : armed (guardian_gate cfg io call context p).
Proof.
  unfold guardian_gate. destruct (sp_judge p) as [judge|]; [|auto with armed].
  destruct (should_review _ _ _ _); [|auto with armed]. destruct (judge _) as [v|e].
  - unfold verdict_gate, put_auditor. destruct (is_allow v); [auto with armed|].
    destruct (request_guardian_verdict_approval _ _ _ _ _ _ _ _); auto with armed.
  - unfold failure_gate, put_auditor. destruct (request_guardian_failure_approval _ _ _ _ _).
    repeat (destruct (bool_decide _); [auto with armed|]). destruct (nonempty _); auto with armed.
Qed.

Lemma armed_admitted cfg io call context : armed (admitted cfg io call context).
Proof.
  assert (armed (security_gate cfg io call context)) as Hs.
  { unfold security_gate. apply armed_with_plugin; [|auto with armed]. intros p.
    pose proof armed_limits. pose proof armed_pipeline. pose proof armed_script. pose proof armed_guardian.
    auto 10 with armed. }
  unfold admitted. auto 15 with armed.
Qed.

Lemma handle_armed cfg io call context depth lp :
  is_Some (lp_security lp) → is_Some (lp_security (fst (handle_tool_call_at_depth cfg io call context depth lp))).
Proof.
  intros Hl. unfold handle_tool_call_at_depth. destruct (lc_estop_engaged cfg); [done|].
  destruct (rewritten_call cfg call context) as [call'|]; [|done]. unfold dispatch, gate_bind.
  pose proof (armed_admitted cfg io call' context lp Hl) as Ha.
  destruct (admitted cfg io call' context lp) as [lp1 [[advisory ref]|text]]; [|done]. cbn [fst snd] in *.
  destruct (run_tool_spec cfg io call' context depth advisory ref lp1) as (text & -> & _). done.
Qed.

(** ** Limits over many calls *)

(** What one pass through the gate of the limits does to the counters. *)
Definition gate_ops (env : EscalationEnv) (now later : Z) (tool : str) (cats : list str)
    (ctx : option ApprovalContext) (st : Limits) (au : SecurityAuditor) : list LimitOp :=
  OpCheckAndRecord now cats ::
    match snd (check_and_record now cats st) with
    | Some over =>
        match snd (request_limit_approval env au tool (denial_message over) ctx) with
        | Ok av => if av_approved av then [OpRecord later cats] else []
        | Err _ => []
        end
    | None => []
    end.

Definition run_ops (st : Limits) (ops : list LimitOp) : Limits := foldl (λ st o, fst (limit_step [] st o)) st ops.

Lemma limit_step_state c d st o : fst (limit_step c st o) = fst (limit_step d st o).
Proof. destruct o; [done..|]. cbn. by destruct (check_and_record now cats st). Qed.

Lemma limit_gate_ops env now later tool cats ctx st au :
  fst (fst (limit_gate env now later tool cats ctx st au)) = run_ops st (gate_ops env now later tool cats ctx st au).
Proof.
  unfold limit_gate, gate_ops, run_ops. cbn [foldl limit_step].
  destruct (check_and_record now cats st) as [st1 [over|]]; cbn [fst snd]; [|done].
  destruct (request_limit_approval _ _ _ _ _) as [au1 [av|e]]; cbn [snd]; [|done].
  by destruct (av_approved av).
Qed.

Lemma let_through_app c ops1 ops2 st :
  let_through c st (ops1 ++ ops2) = let_through c st ops1 ++ let_through c (run_ops st ops1) ops2.
Proof.
  revert st. induction ops1 as [|o ops1 IH]; intros st; [done|]. cbn [app let_through run_ops foldl].
  rewrite (limit_step_state [] c). destruct (limit_step c st o) as [st' passed]. cbn [fst]. rewrite IH. by rewrite app_assoc.
Qed.

(** A part that leaves the counters alone. *)
Definition steady {A} (m : Gate A) : Prop := ∀ lp, lp_limits (fst (m lp)) = lp_limits lp.

Lemma steady_bind {A B} (m : Gate A) (k : A → Gate B) : steady m → (∀ x, steady (k x)) → steady (gate_bind m k).
Proof.
  intros Hm Hk lp. unfold gate_bind. specialize (Hm lp). destruct (m lp) as [lp1 [x|text]]; [|done]. by rewrite Hk.
Qed.

Lemma steady_with_plugin {A} (k : SecurityPlugin → Gate A) o : (∀ p, steady (k p)) → steady o → steady (with_plugin k o).
Proof. intros Hk Ho lp. unfold with_plugin. destruct (lp_security lp); [apply Hk|apply Ho]. Qed.

Lemma steady_simple {A} (m : Gate A) : (∀ lp, lp_limits (fst (m lp)) = lp_limits lp) → steady m.
Proof. done. Qed.

Lemma steady_human v r n : steady (human_gate v r n).
Proof. destruct v as [av|e]; cbn; [destruct (av_approved av)|]; done. Qed.

Lemma steady_refuse_if o : steady (refuse_if o).
Proof. by destruct o. Qed.

Lemma steady_pipeline cfg io call context p : steady (pipeline_gate cfg io call context p).
Proof.
  unfold pipeline_gate. destruct (execute_tracked _ _ _) as [p' [[[] deny] ref]]; by repeat apply steady_bind.
Qed.

Lemma steady_script io call p : steady (script_gate io call p).
Proof.
  unfold script_gate. destruct (named_in _ _); [|done].
  destruct (pre_exec_script_scan _ _ _) as [o|]; [by destruct (has_literals o)|done].
Qed.

Lemma steady_guardian cfg io call context p : steady (guardian_gate cfg io call context p).
Proof.
  unfold guardian_gate. destruct (sp_judge p) as [judge|]; [|done].
  destruct (should_review _ _ _ _); [|done]. destruct (judge _) as [v|e].
  - unfold verdict_gate. destruct (is_allow v); [done|].
    destruct (request_guardian_verdict_approval _ _ _ _ _ _ _ _). apply steady_bind; [done|]. intros _. apply steady_human.
  - unfold failure_gate. destruct (request_guardian_failure_approval _ _ _ _ _) as [a v].
    destruct (bool_decide _); [done|]. destruct (bool_decide _).
    { apply steady_bind; [done|]. intros _. apply steady_human. }
    destruct (bool_decide _); [done|]. by destruct (nonempty _).
Qed.

Lemma steady_run_tool cfg io call context depth a b : steady (run_tool cfg io call context depth a b).
Proof.
  intros lp. destruct (run_tool_spec cfg io call context depth a b lp) as (text & -> & _). done.
Qed.

(** The operations a call makes on the counters. *)
Definition call_ops (cfg : LoopConfig) (io : DispatchIo) (call : ToolCallInfo) (context : RequestContext) (lp : Loop)
    : list LimitOp :=
  if lc_estop_engaged cfg then []
  else
    match rewritten_call cfg call context, lp_security lp with
    | Some call, Some p =>
        match first_refusal cfg io call with
        | Some _ => []
        | None => gate_ops (dp_limit_env io) (dp_limit_now io) (dp_limit_later io) (name call)
                    (limit_categories cfg call) (Some (limit_ctx context)) (lp_limits lp) (sp_auditor p)
        end
    | _, _ => []
    end.

Lemma security_limits cfg io call context lp :
  lp_limits (fst (security_gate cfg io call context lp))
  = match lp_security lp with
    | Some p => run_ops (lp_limits lp)
        (gate_ops (dp_limit_env io) (dp_limit_now io) (dp_limit_later io) (name call)
           (limit_categories cfg call) (Some (limit_ctx context)) (lp_limits lp) (sp_auditor p))
    | None => lp_limits lp
    end.
Proof.
  unfold security_gate, with_plugin at 1. destruct (lp_security lp) as [p|]; [|done].
  match goal with |- lp_limits (fst (gate_bind ?m ?k lp)) = _ =>
    assert (∀ x, steady (k x)) as Hk end.
  { intros _. apply steady_bind; [by apply steady_with_plugin; [apply steady_pipeline|]|]. intros ref.
    apply steady_bind; [by apply steady_with_plugin; [apply steady_script|]|]. intros adv.
    apply steady_bind; [by apply steady_with_plugin; [apply steady_guardian|]|done]. }
  rewrite <- limit_gate_ops. unfold gate_bind at 1. unfold limits_gate at 1.
  destruct (limit_gate _ _ _ _ _ _ _ _) as [[limits auditor] [text|]]; cbn [fst]; [done|].
  cbn [gate_bind put_auditor put_plugin refuse_if go_on]. by rewrite Hk.
Qed.

Lemma handle_limits cfg io call context depth lp :
  lp_limits (fst (handle_tool_call_at_depth cfg io call context depth lp))
  = run_ops (lp_limits lp) (call_ops cfg io call context lp).
Proof.
  unfold handle_tool_call_at_depth, call_ops. destruct (lc_estop_engaged cfg); [done|].
  destruct (rewritten_call cfg call context) as [call'|]; [|done].
  assert (lp_limits (fst (dispatch cfg io call' context depth lp)) = lp_limits (fst (admitted cfg io call' context lp))) as Hd.
  { unfold dispatch, gate_bind. destruct (admitted cfg io call' context lp) as [lp1 [n|]]; [|done]. apply steady_run_tool. }
  assert (lp_limits (fst match dispatch cfg io call' context depth lp with
            | (lp, Ok text) | (lp, Err text) => (lp, Replied text) end)
          = lp_limits (fst (dispatch cfg io call' context depth lp))) as ->.
  { by destruct (dispatch _ _ _ _ _ _) as [? []]. }
  rewrite Hd, admitted_first. destruct (first_refusal cfg io call'); [by destruct (lp_security lp)|].
  transitivity (lp_limits (fst (security_gate cfg io call' context lp))).
  - unfold gate_bind. destruct (security_gate cfg io call' context lp) as [lp1 [n|]]; [|done].
    by destruct (hook_refusal cfg call' context).
  - rewrite security_limits. by destruct (lp_security lp).
Qed.

(** Calls one after the other. *)
Record Served := mkServed {
  sv_cfg : LoopConfig;
  sv_io : DispatchIo;
  sv_call : ToolCallInfo;
  sv_context : RequestContext;
  sv_depth : nat;
}.

Definition serve_one (s : Served) (lp : Loop) : Loop :=
  fst (handle_tool_call_at_depth (sv_cfg s) (sv_io s) (sv_call s) (sv_context s) (sv_depth s) lp).

Definition served_ops (s : Served) (lp : Loop) : list LimitOp :=
  call_ops (sv_cfg s) (sv_io s) (sv_call s) (sv_context s) lp.

Fixpoint serve_ops (l : list Served) (lp : Loop) : list LimitOp :=
  match l with
  | [] => []
  | s :: l => served_ops s lp ++ serve_ops l (serve_one s lp)
  end.

(** Whether a call did more than to be refused. *)
Definition acts (e : Event) : bool := match e with EvReceipt _ => false | _ => true end.

Definition acted (s : Served) (lp : Loop) : bool :=
  existsb acts (drop (length (lp_events lp)) (lp_events (serve_one s lp))).

(** The call was over a limit when it came, and the human who was asked about exactly this
    overrun said yes. *)
Definition let_over (s : Served) (call : ToolCallInfo) (lp : Loop) : bool :=
  match lp_security lp, snd (check_and_record (dp_limit_now (sv_io s)) (limit_categories (sv_cfg s) call) (lp_limits lp)) with
  | Some p, Some over =>
      match au_approval_manager (sp_auditor p) with
      | Some mgr =>
          mg_is_running mgr &&
          match mg_ask mgr (escalation_question (sp_auditor p) (lit "limit-" ++ es_request_uuid (dp_limit_env (sv_io s)))
                              (lit "limit_review") (tc_name call) (lit "HIGH") (denial_message over))
                  (Some (limit_ctx (sv_context s))) with
          | Ok av => av_approved av
          | Err _ => false
          end
      | None => false
      end
  | _, _ => false
  end.

(** The time of a call of a tool of the category [c] that did something without a human who
    let it over the limit. *)
Definition unaided_one (c : str) (s : Served) (lp : Loop) : list Z :=
  match rewritten_call (sv_cfg s) (sv_call s) (sv_context s) with
  | Some call =>
      if bool_decide (c ∈ limit_categories (sv_cfg s) call) && acted s lp && negb (let_over s call lp)
      then [dp_limit_now (sv_io s)] else []
  | None => []
  end.

Fixpoint unaided (c : str) (l : list Served) (lp : Loop) : list Z :=
  match l with
  | [] => []
  | s :: l => unaided_one c s lp ++ unaided c l (serve_one s lp)
  end.

Lemma acted_admitted s lp :
  acted s lp = true →
  lc_estop_engaged (sv_cfg s) = false ∧
  ∀ call, rewritten_call (sv_cfg s) (sv_call s) (sv_context s) = Some call →
    first_refusal (sv_cfg s) (sv_io s) call = None.
Proof.
  intros Ha. unfold acted, serve_one, handle_tool_call_at_depth in Ha.
  destruct (lc_estop_engaged (sv_cfg s)); [cbn [fst] in Ha; by rewrite drop_all in Ha|]. split; [done|].
  intros call Hc. rewrite Hc in Ha. unfold dispatch, gate_bind in Ha. rewrite admitted_first in Ha.
  destruct (first_refusal _ _ _); [|done]. cbn [fst] in Ha. by rewrite drop_all in Ha.
Qed.

(** What acted passed the gate of the limits. *)
Lemma acted_within s lp call p : rewritten_call (sv_cfg s) (sv_call s) (sv_context s) = Some call → lp_security lp = Some p →
  acted s lp = true → let_over s call lp = false →
  snd (check_and_record (dp_limit_now (sv_io s)) (limit_categories (sv_cfg s) call) (lp_limits lp)) = None.
Proof.
  intros Hc Hp Ha Hl. unfold acted in Ha. apply existsb_exists in Ha as (e & He%list_elem_of_In & Hae).
  unfold serve_one in He. destruct (handle_tool_call_at_depth _ _ _ _ _ lp) as [lp' r] eqn:E.
  destruct (effects_admitted _ _ _ _ _ _ _ _ _ E He) as (_ & call' & notes & Hc' & _ & _ & _ & _ & _ & Hpass); [intros Hr; by destruct e|].
  rewrite Hc in Hc'. injection Hc' as <-. destruct (Hpass p Hp) as (limits & auditor & p' & deny & Hg & _).
  unfold limit_gate in Hg. unfold let_over in Hl. rewrite Hp in Hl. destruct (check_and_record _ _ _) as [st [over|]]; [|done]. exfalso.
  cbn [snd] in Hl. unfold request_limit_approval in Hg. destruct (au_approval_manager (sp_auditor p)) as [mgr|]; [|done].
  destruct (mg_is_running mgr); [|done]. cbn [negb andb] in Hg, Hl.
  match type of Hg with context [audit_outcome ?a ?b ?c ?d ?e ?f ?g] =>
    pose proof (audit_outcome_verdict a b c d e f g) as Hv; destruct (audit_outcome a b c d e f g) as [st' v'] end.
  cbn [snd] in Hv. subst v'. change (name call) with (tc_name call) in Hg. destruct (mg_ask mgr _ _) as [av|]; [|done]. by rewrite Hl in Hg.
Qed.

Lemma unaided_counted c s lp : is_Some (lp_security lp) → sublist (unaided_one c s lp) (let_through c (lp_limits lp) (served_ops s lp)).
Proof.
  intros [p Ep]. unfold unaided_one. destruct (rewritten_call _ _ _) as [call|] eqn:Ec; [|apply sublist_nil_l].
  destruct (bool_decide_reflect (c ∈ limit_categories (sv_cfg s) call)) as [Hin|]; [|apply sublist_nil_l].
  destruct (acted s lp) eqn:Ea; [|apply sublist_nil_l]. destruct (let_over s call lp) eqn:Eo; [apply sublist_nil_l|].
  cbn [andb negb]. pose proof (acted_within s lp call p Ec Ep Ea Eo) as Hw. apply acted_admitted in Ea as [He Hf]. specialize (Hf _ Ec).
  unfold served_ops, call_ops. rewrite He, Ec, Ep, Hf. unfold gate_ops. cbn [let_through limit_step].
  destruct (check_and_record _ _ _) as [st' o]. cbn [snd] in Hw. subst o.
  rewrite bool_decide_true by done. cbn [op_now app]. by constructor.
Qed.

Lemma unaided_all c l lp : is_Some (lp_security lp) → sublist (unaided c l lp) (let_through c (lp_limits lp) (serve_ops l lp)).
Proof.
  revert lp. induction l as [|s l IH]; intros lp Hl; [constructor|]. cbn [unaided serve_ops]. rewrite let_through_app.
  apply sublist_app; [by apply unaided_counted|]. specialize (IH (serve_one s lp) (handle_armed _ _ _ _ _ _ Hl)).
  unfold serve_one in IH at 2. rewrite handle_limits in IH. exact IH.
Qed.

Lemma filter_sublist_length {A} (f : A → bool) (l l' : list A) :
  sublist l l' → (length (List.filter f l) ≤ length (List.filter f l'))%nat.
Proof.
  induction 1 as [|x l l' _ IH|x l l' _ IH]; [done|..]; cbn; destruct (f x); cbn; lia.
Qed.

(** C19: however many calls are dispatched one after the other by a loop with a security
    plugin, of the tools of a limited category at most [max] do anything in any closed window
    of its length, but for those that were over the limit and that the human who was asked
    let over it. *)
Theorem runs_within_limits rules c r l lp a :
  is_Some (lp_security lp) →
  lp_limits lp = mkLimits rules ∅ → rules_ok rules → rules !! c = Some r → (0 ≤ lr_max r)%Z →
  StronglySorted Z.le (op_now <$> serve_ops l lp) →
  (Z.of_nat (length (List.filter (λ t, (a <=? t) && (t <=? a + from_secs (lr_window_secs r)))%Z (unaided c l lp)))
   ≤ lr_max r)%Z.
Proof.
  intros Hp Hl Hr Hc Hm Hs. pose proof (window_bound rules c r (serve_ops l lp) a Hr Hc Hm Hs) as Hb.
  pose proof (unaided_all c l lp Hp) as Hsub. rewrite Hl in Hsub.
  pose proof (filter_sublist_length (λ t, (a <=? t) && (t <=? a + from_secs (lr_window_secs r)))%Z _ _ Hsub). lia.
Qed.

(** ** Aliases of credentials *)

Lemma resolve_slots_other resolver keys v v' k :
  k ∉ keys → resolve_slots resolver keys v = Ok v' → json_get k v' = json_get k v.
Proof.
  revert v. induction keys as [|key keys IH]; intros v Hk Hr; cbn [resolve_slots] in Hr; [by injection Hr as ->|].
  apply not_elem_of_cons in Hk as [Hk Hks]. destruct (json_get key v) as [slot|]; [|by apply IH].
  destruct (resolve_slot resolver key slot) as [x|]; [|done]. rewrite (IH _ Hks Hr). by apply get_set_member_ne.
Qed.

(** Also: the tool sees its aliases resolved or does not run.  If one cannot be resolved
    the error is the result, and nothing is executed; and no member is touched that the
    tool does not declare. *)
Theorem aliases_resolved_or_not_run cfg io context hc t :
  lc_tools cfg !! hc_name hc = Some t →
  match inject_credential_aliases (lc_vault_resolver cfg) t (hc_arguments hc) with
  | Err e => snd (execute_tool cfg io context hc) = e ∧
             ∀ n a c, EvExecute n a c ∉ fst (execute_tool cfg io context hc)
  | Ok args => ∀ n a c, EvExecute n a c ∈ fst (execute_tool cfg io context hc) → n = hc_name hc ∧ a = args ∧ c = context
  end ∧
  ∀ o v k, json_from_str (hc_arguments hc) = Some (VObject o) → k ∉ tl_credential_arg_keys t →
    resolve_slots (lc_vault_resolver cfg) (tl_credential_arg_keys t) (VObject o) = Ok v →
    json_get k v = json_get k (VObject o).
Proof.
  intros Ht. split; [|intros o v k _; apply resolve_slots_other].
  assert (∀ l : list FileChange, ∀ n a c, EvExecute n a c ∉ fst (each (remember_change cfg context) l)) as Hp.
  { intros l n a c. induction l as [|x l IH]; [apply not_elem_of_nil|]. cbn [each then_do fst].
    rewrite not_elem_of_app. split; [|done]. unfold remember_change.
    destruct (lc_checkpoint_store cfg); cbn; rewrite !not_elem_of_cons; (split_and!; [done..|]); apply not_elem_of_nil. }
  assert (∀ paths r n a c, EvExecute n a c ∉ fst (format_all io paths r)) as Hfm.
  { intros paths. induction paths as [|p paths IH]; intros r n a c; [apply not_elem_of_nil|]. cbn.
    apply not_elem_of_cons. by split. }
  unfold execute_tool. rewrite Ht. cbn [then_do fst snd].
  destruct (inject_credential_aliases _ _ _) as [args|e]; cbn [fst snd done_with].
  - intros n a c. rewrite elem_of_app. intros [He|He]; [by apply Hp in He|]. cbn [then_do emit fst snd app] in He.
    apply elem_of_cons in He as [[= -> -> ->]|He]; [done|]. exfalso.
    destruct (tl_execute t args context); cbn in He; [|by apply elem_of_nil in He].
    rewrite app_nil_r in He. by apply Hfm in He.
  - split; [done|]. intros n a c. rewrite app_nil_r. apply Hp.
Qed.
End Dispatch.

(** ** Witnesses *)

Section Runs.
#[local] Existing Instances ascii_unicode ascii_uppercase ascii_class exact_float toy_debug unix map_order literal_engine literal_find literal_captures unit_numbers toy_net toy_sha toy_json.

Definition no_u64 : JsonU64 := {| num_as_u64 := λ _, None |}.
#[local] Existing Instance no_u64.

Definition demo_tool : Tool := mkTool (λ _ _, Ok (lit "done")) (λ _, []) [] [lit "exec"] None (λ _, None).

(** A hook that only looks. *)
Definition demo_config : LoopConfig :=
  mkLoopConfig false None {[ lit "exec" := demo_tool ]} Big BuildMode (Some (lit "/w")) None [hook_defaults]
    true false false None.

Definition demo_dispatch (now : Z) : DispatchIo :=
  mkDispatchIo demo_io (mkEscEnv [] [] []) now now (mkEscEnv [] [] []) (mkEscEnv [] [] [])
    (mkBleedEnv (λ _, None) (λ _, Err []) (λ _, Err [])) None (λ _, None) (λ _ r, r) (lit "0") None.

Definition demo_loop : Loop := mkLoop (Some (demo_plugin (lit "allow") false)) (mkLimits demo_rules ∅) [].

Definition demo_tool_call : ToolCallInfo := call_of "exec" [(lit "command", VString (lit "ls"))].

Definition demo_context : RequestContext := mkRequestCtx (lit "cli") (lit "c") (lit "u") (lit "s") None None.

Lemma runs_only_if_admitted_witness :
  ∃ args context,
    EvExecute (lit "exec") args context
      ∈ lp_events (fst (handle_tool_call_at_depth demo_config (demo_dispatch 0) demo_tool_call demo_context 0 demo_loop)) ∧
    hidden_refusal demo_config demo_tool_call = None ∧
    hook_refusal demo_config demo_tool_call demo_context = None.
Proof.
  destruct (handle_tool_call_at_depth demo_config (demo_dispatch 0) demo_tool_call demo_context 0 demo_loop)
    as [lp' reply] eqn:E.
  assert (Hin : nth_error (lp_events lp') 3 = Some (EvExecute (lit "exec") (tc_arguments demo_tool_call) demo_context)).
  { replace lp' with (fst (handle_tool_call_at_depth demo_config (demo_dispatch 0) demo_tool_call demo_context 0 demo_loop))
      by (by rewrite E). vm_compute. reflexivity. }
  apply nth_error_In, list_elem_of_In in Hin.
  destruct (runs_only_if_admitted demo_config (demo_dispatch 0) demo_tool_call demo_context 0 demo_loop lp' reply _
    E Hin id) as (_ & call' & notes & Hc & H1 & _ & _ & _ & H2 & _).
  injection Hc as <-. eexists _, _. split_and!; [exact Hin|exact H1|exact H2].
Defined.

Lemma turns_are_bracketed_witness :
  ∃ new, lp_events (fst (handle_tool_call_at_depth demo_config (demo_dispatch 0) demo_tool_call demo_context 0 demo_loop))
         = new ∧ length (List.filter wal_event new) = 3.
Proof.
  destruct (handle_tool_call_at_depth demo_config (demo_dispatch 0) demo_tool_call demo_context 0 demo_loop)
    as [lp' reply] eqn:E.
  destruct (turns_are_bracketed demo_config (demo_dispatch 0) demo_tool_call demo_context 0 demo_loop lp' reply)
    as (new & Hn & Hw).
  - reflexivity.
  - repeat constructor. intros hc next Hnext. apply Hnext.
  - exact E.
  - exists new. split; [exact Hn|]. destruct Hw as [Hr|(call' & text & _ & _ & Hf)]; [|by rewrite Hf].
    exfalso. assert (Hl : length (lp_events lp') = 5).
    { replace lp' with (fst (handle_tool_call_at_depth demo_config (demo_dispatch 0) demo_tool_call demo_context 0 demo_loop))
        by (by rewrite E). vm_compute. reflexivity. }
    assert (Hh : head (lp_events lp') ≠ None ∧ ∀ r, head (lp_events lp') ≠ Some (EvReceipt r)).
    { replace lp' with (fst (handle_tool_call_at_depth demo_config (demo_dispatch 0) demo_tool_call demo_context 0 demo_loop))
        by (by rewrite E). vm_compute. split; [discriminate|intros r; discriminate]. }
    rewrite Hn in Hh. destruct new as [|e new]; [by destruct Hh|]. apply Forall_cons in Hr as [Hr _].
    destruct e; try done. destruct Hh as [_ Hh]. by eapply Hh.
Defined.

Definition demo_served (now : Z) : Served := mkServed demo_config (demo_dispatch now) demo_tool_call demo_context 0.

(** Two calls run, a third within the minute is let through by the human. *)
Lemma runs_within_limits_witness :
  unaided (lit "exec") [demo_served 0; demo_served 1000; demo_served 2000] demo_loop = [0; 1000]%Z ∧
  (Z.of_nat (length (List.filter (λ t, (0 <=? t) && (t <=? 0 + from_secs 60))%Z
     (unaided (lit "exec") [demo_served 0; demo_served 1000; demo_served 2000] demo_loop))) ≤ 2)%Z.
Proof.
  split; [vm_compute; reflexivity|].
  apply (runs_within_limits demo_rules (lit "exec") (mkLimit 2 60) _ demo_loop 0 ltac:(by eexists) eq_refl demo_rules_ok).
  - vm_compute. reflexivity.
  - simpl. lia.
  - vm_compute. repeat constructor; discriminate.
Defined.

Lemma scan_follows_cwd_witness :
  pre_exec_script_scan (demo_dispatch 0) (demo_plugin (lit "allow") false)
    (json_to_string (VObject [(lit "command", VString (lit "bash x.sh")); (lit "cwd", VString (lit "/empty"));
                              (lit "working_dir", VString (lit "/w"))]))
  = Some (scan_scripts_for_exec (dp_bleed (demo_dispatch 0)) (lit "bash x.sh") (lit "/empty") None).
Proof.
  apply (scan_follows_cwd (demo_dispatch 0) (demo_plugin (lit "allow") false) _
    (VObject [(lit "command", VString (lit "bash x.sh")); (lit "cwd", VString (lit "/empty"));
              (lit "working_dir", VString (lit "/w"))])); vm_compute; reflexivity.
Defined.
End Runs.
