(* ===== verification/TurnRecovery.v ===== *)
(** * Turns, crashes and recovery

    The dispatch of tool calls (Dispatch.v) writing its log of turns (TurnWal.v), a crash
    that leaves any beginning of the file, and the recovery of the next start: what is
    taken up is the call that was running, and no other. *)
From stdpp Require Import strings sorting.
From S2P Require Import Prelude RustStr Utils Regex F64 Matcher Json Channel SecTypes Auditor Escalation Guardian Merkle Ssrf VirusScan Classifier Injection Credential Dlp HostPath ShellBleed Limits Pipeline ToolGates EditReplace EditHint EditTools TurnWal Dispatch.
Local Open Scope nb_scope.

(** ** Rounds *)

Section Rounds.
Context `{WalJson}.

(** The records of calls that run one after the other, with their ids. *)
Inductive Rounds : list str → list WalRecord → Prop :=
| rounds_nil : Rounds [] []
| rounds_call a s f ids l :
    opens a = true → opens s = true → ends_call f = true →
    wr_call_id s = wr_call_id a → wr_call_id f = wr_call_id a →
    Rounds ids l → Rounds (wr_call_id a :: ids) (a :: s :: f :: l).

(** Every call that was opened has an end. *)
Definition settled (records : list WalRecord) : Prop :=
  ∀ r, r ∈ records → opens r = true → ended records (wr_call_id r).

Lemma last_open_elem records id r :
  last_open records id = Some r → r ∈ records ∧ opens r = true ∧ wr_call_id r = id.
Proof.
  intros Hl. apply last_Some_elem_of, list_elem_of_In, filter_In in Hl as [Hin Hx].
  apply andb_true_iff in Hx as [Ho Hid]. apply bool_decide_eq_true in Hid. by apply list_elem_of_In in Hin.
Qed.

Lemma unfinished_settled cutoff records : settled records → unfinished cutoff (scan_records records) = [].
Proof.
  intros Hs. destruct (unfinished _ _) as [|r l] eqn:E; [done|]. exfalso.
  assert (r ∈ unfinished cutoff (scan_records records)) as Hin by (rewrite E; left).
  apply unfinished_elem in Hin as (Hl & Hn & _). apply last_open_elem in Hl as (Hin & Ho & _). by apply Hn, Hs.
Qed.

Lemma unfinished_running cutoff records r :
  opens r = true → (cutoff ≤ wr_ts_ms r)%N → ¬ ended records (wr_call_id r) →
  (∀ x, x ∈ records → opens x = true → wr_call_id x = wr_call_id r ∨ ended records (wr_call_id x)) →
  unfinished cutoff (scan_records (records ++ [r])) = [r].
Proof.
  intros Ho Hc Hn Hs.
  assert (∀ id, last_open (records ++ [r]) id = if wr_call_id r =? id then Some r else last_open records id) as Hlast.
  { intros id. unfold last_open. rewrite List.filter_app. cbn [List.filter]. rewrite Ho. cbn [andb].
    destruct (wr_call_id r =? id); [by rewrite last_snoc|by rewrite app_nil_r]. }
  assert (∀ id, ended (records ++ [r]) id ↔ ended records id) as Hended.
  { intros id. unfold ended. setoid_rewrite elem_of_app. setoid_rewrite list_elem_of_singleton. split.
    - intros (x & [Hx| ->] & He & Hid); [by exists x|]. exfalso. unfold opens in Ho. unfold ends_call in He.
      by destruct (state_of (wr_state r)) as [[]|].
    - intros (x & Hx & He & Hid). exists x. auto. }
  apply Permutation_singleton_r, NoDup_Permutation.
  - apply (NoDup_fmap_1 wr_call_id), unfinished_ids.
  - apply NoDup_singleton.
  - intros x. rewrite unfinished_elem, Hlast, Hended, list_elem_of_singleton. split.
    + intros (Hl & Hne & _). destruct (bool_decide_reflect (wr_call_id r = wr_call_id x)) as [|Hid]; [congruence|].
      apply last_open_elem in Hl as (Hin & Hox & _). by destruct (Hs _ Hin Hox) as [?|?].
    + intros ->. rewrite bool_decide_true by done. done.
Qed.

Definition running (records : list WalRecord) : list WalRecord := List.filter opens (option_list (last records)).

Lemma running_snoc records r : running (records ++ [r]) = if opens r then [r] else [].
Proof. unfold running. by rewrite last_snoc. Qed.

Lemma elem_of_running records r : r ∈ running records → r ∈ records ∧ opens r = true.
Proof.
  unfold running. rewrite list_elem_of_In, filter_In. intros [Hr Ho]. split; [|done].
  destruct (last records) as [x|] eqn:E; [|done]. destruct Hr as [<-|[]]. by apply last_Some_elem_of.
Qed.

Lemma settled_round base a s f :
  settled base → ends_call f = true → wr_call_id s = wr_call_id a → wr_call_id f = wr_call_id a →
  settled (base ++ [a; s; f]).
Proof.
  intros Hb Hf Hs Hid r Hr Ho. rewrite elem_of_app in Hr. destruct Hr as [Hr|Hr].
  - destruct (Hb _ Hr Ho) as (x & ? & ? & ?). exists x. rewrite elem_of_app. auto.
  - exists f. rewrite elem_of_app. split_and!; [right; set_solver|done|]. rewrite !elem_of_cons, elem_of_nil in Hr.
    destruct Hr as [->|[->|[->|[]]]]; congruence.
Qed.

Lemma rounds_prefix cutoff ids records :
  Rounds ids records → NoDup ids → Forall (λ r, cutoff ≤ wr_ts_ms r)%N records →
  ∀ base n, settled base → running base = [] → (∀ r, r ∈ base → wr_call_id r ∉ ids) →
  unfinished cutoff (scan_records (base ++ take n records)) = running (base ++ take n records).
Proof.
  induction 1 as [|a s f ids l Ha Hs Hf His Hif _ IH]; intros Hnd Hts base n Hb Hr Hfresh.
  { rewrite take_nil, app_nil_r, Hr. by apply unfinished_settled. }
  apply NoDup_cons in Hnd as [Hnew Hnd]. rewrite !Forall_cons in Hts. destruct Hts as (Hta & Hts & _ & Htl).
  assert (¬ ended base (wr_call_id a)) as Hne.
  { intros (x & Hx & _ & Hid). apply (Hfresh x Hx). rewrite Hid. left. }
  destruct n as [|[|[|n]]]; cbn [take].
  - rewrite app_nil_r, Hr. by apply unfinished_settled.
  - rewrite running_snoc, Ha. apply unfinished_running; [done..|].
    intros x Hx Hox. right. by apply Hb.
  - replace (base ++ [a; s]) with ((base ++ [a]) ++ [s]) by by rewrite <- app_assoc.
    rewrite running_snoc, Hs. apply unfinished_running; [done..| |].
    + rewrite His. intros (x & Hx & He & Hid). rewrite elem_of_app, list_elem_of_singleton in Hx. destruct Hx as [Hx| ->].
      * apply Hne. by exists x.
      * unfold opens in Ha. unfold ends_call in He. by destruct (state_of (wr_state a)) as [[]|].
    + intros x Hx Hox. rewrite elem_of_app, list_elem_of_singleton in Hx. destruct Hx as [Hx| ->]; [right|by left].
      destruct (Hb _ Hx Hox) as (y & ? & ? & ?). exists y. rewrite elem_of_app. auto.
  - replace (base ++ a :: s :: f :: take n l) with ((base ++ [a; s; f]) ++ take n l) by by rewrite <- app_assoc.
    apply IH; [done..|by apply settled_round| |].
    + change [a; s; f] with ([a; s] ++ [f]). rewrite app_assoc, running_snoc.
      unfold opens, ends_call in *. by destruct (state_of (wr_state f)) as [[]|].
    + intros r Hin. rewrite elem_of_app in Hin. destruct Hin as [Hin|Hin].
      * intros Hid. apply (Hfresh r Hin). by right.
      * rewrite !elem_of_cons, elem_of_nil in Hin. destruct Hin as [->|[->|[->|[]]]]; congruence.
Qed.
End Rounds.

(** ** The message that resumes a turn *)

Definition resumable (rec : WalRecord) : bool := starts_with (lit "agent:") (wr_session_key rec).

Definition resume_message (rec : WalRecord) : InboundMessage :=
  mkInbound (if nonempty (wr_channel rec) then wr_channel rec else lit "web") (lit "system") (wr_chat_id rec)
    (ulit "⟳ 系统续轮：上次进程在工具执行中被中断（tool=" ++ wr_tool rec ++ ulit "，args=" ++ wr_args_preview rec
     ++ ulit "）。该次调用的结果已丢失；请从中断处继续完成任务（必要时重新执行该工具）。")
    [] (wr_session_key rec) [] {[ lit "turn_wal_resume" := lit "1" ]} None.

(** What [recover_interrupted_turns] hands to the pump, in this order. *)
Definition recover_interrupted_turns (candidates : list WalRecord) : list InboundMessage :=
  resume_message <$> List.filter resumable candidates.

(** ** Calls, the log and a crash *)

Section Recovery.
Context {UC : Unicode} {UU : UnicodeUpper} {CC : CharClass} {FL : Float} {DS : DebugStr} {PF : Platform}.
Context `{HashOrder} `{RegexCaptures} `{JsonNumbers} `{!JsonCodec} `{!JsonU64} {NET : Net} {SHA : Sha256} {WJ : WalJson}.

Definition serve_all (l : list Served) (lp : Loop) : Loop := foldl (λ lp s, serve_one s lp) lp l.

(** The events of the log as its records, the [i]-th at its time. *)
Fixpoint entries (clock : nat → N) (i : nat) (evs : list Event) : list WalRecord :=
  match evs with
  | [] => []
  | EvWal c s a ok :: evs => logged_record (clock i) c s a ok :: entries clock (S i) evs
  | _ :: evs => entries clock i evs
  end.

Fixpoint log_events (io : nat → WalIo) (clock : nat → N) (i : nat) (w : TurnWal) (evs : list Event) : TurnWal :=
  match evs with
  | [] => w
  | EvWal c s a ok :: evs => log_events io clock (S i) (wal_log (io i) (clock i) w c s a ok) evs
  | _ :: evs => log_events io clock i w evs
  end.

(** The log at the next start, with the first [m] characters of the file. *)
Definition after_crash (m : nat) (w : TurnWal) : TurnWal := open_wal (take m <$> tw_current w) (tw_old w).

(** The id a call has in the log. *)
Definition served_id (s : Served) : str := call_id_for (dp_now_ms (sv_io s)) (tc_id (sv_call s)) (tc_name (sv_call s)).

(** Calls with the log on and with hooks that do not write to it. *)
Definition logs_turns (s : Served) : Prop := lc_turn_wal (sv_cfg s) = true ∧ Forall tame (lc_tool_hooks (sv_cfg s)).

Lemma entries_skip clock i evs : entries clock i (List.filter wal_event evs) = entries clock i evs.
Proof. revert i. induction evs as [|[] evs IH]; intros i; cbn; by rewrite ?IH. Qed.

Lemma entries_times clock i evs cutoff :
  (∀ j, (cutoff ≤ clock j)%N) → Forall (λ r, cutoff ≤ wr_ts_ms r)%N (entries clock i evs).
Proof. intros Hc. revert i. induction evs as [|[] evs IH]; intros i; cbn; try constructor; cbn; auto. Qed.

Lemma log_events_written io clock evs i w :
  (∀ j, wi_written (io j) = None) → tw_open w = true →
  (len_of (tw_current w) + N.of_nat (byte_len (lines_text (entries clock i evs))) <= tw_max_bytes w)%N →
  default [] (tw_current (log_events io clock i w evs))
    = default [] (tw_current w) ++ lines_text (entries clock i evs) ∧
  tw_old (log_events io clock i w evs) = tw_old w.
Proof.
  intros Hio. revert i w. induction evs as [|e evs IH]; intros i w Ho Hb; [by rewrite app_nil_r|].
  destruct e; try by apply IH. cbn [log_events entries] in *. unfold wal_log.
  change (lines_text (?r :: ?l)) with (lines_text ([r] ++ l)) in *. unfold lines_text in Hb |- *.
  rewrite bind_app in *. fold (lines_text (entries clock (S i) evs)) in *.
  match goal with |- context [append_record _ _ ?r] => fold (lines_text [r]) in * end.
  rewrite byte_len_app in Hb. rewrite append_written; [|done|done|lia].
  match goal with |- context [log_events _ _ _ ?w' _] => destruct (IH (S i) w') as [-> ->] end.
  - done.
  - unfold len_of in *. cbn [tw_current tw_max_bytes default] in *. unfold id in *. rewrite byte_len_app. lia.
  - cbn [tw_current tw_old default]. unfold id. by rewrite <- app_assoc.
Qed.

Lemma rewritten_keeps cfg call context call' :
  rewritten_call cfg call context = Some call' → tc_id call' = tc_id call ∧ tc_name call' = tc_name call.
Proof.
  unfold rewritten_call. intros Hr. destruct (goes_on call _) as [c1|] eqn:E; [|done]. cbn [mbind option_bind] in Hr.
  assert (tc_id c1 = tc_id call ∧ tc_name c1 = tc_name call) as Hkept.
  { unfold rewrite_tool_paths_for_base in E. cbv zeta in E.
    repeat match type of E with context [match ?x with _ => _ end] => destruct x end;
      cbn [goes_on] in E; try discriminate E; by injection E as <-. }
  injection Hr as <-. destruct (tc_name c1 =? _); [|exact Hkept].
  destruct (apply_spawn_inherit_context _ c1 context) as [c2|] eqn:E2; [|exact Hkept]. cbn [default]. unfold id. rewrite <- (proj1 Hkept), <- (proj2 Hkept).
  unfold apply_spawn_inherit_context in E2.
  destruct (json_from_str _) as [args|]; [|discriminate E2]. cbn [mbind option_bind] in E2.
  destruct (negb _); [discriminate E2|]. destruct (as_object args) as [o|]; [|discriminate E2]. cbn [mbind option_bind] in E2.
  destruct (get_str _ _) as [task|]; [|discriminate E2]. cbn [mbind option_bind] in E2. by injection E2 as <-.
Qed.

(** A call in the log: what was served, the call after its rewriting, and its outcome. *)
Definition Turn : Type := Served * ToolCallInfo * bool.

Definition turn_entries (t : Turn) : list Event :=
  let '(s, call, ok) := t in bracket (wal_call (sv_io s) call (sv_context s)) (tc_arguments call) ok.

Definition rewritten_turn (t : Turn) : Prop :=
  let '(s, call, _) := t in rewritten_call (sv_cfg s) (sv_call s) (sv_context s) = Some call.

Definition turn_call (t : Turn) : WalCall :=
  let '(s, call, _) := t in wal_call (sv_io s) call (sv_context s).

Definition logged_id (t : Turn) : str := wc_call_id (turn_call t).

Lemma serve_all_turns l lp :
  Forall logs_turns l →
  ∃ new (turns : list Turn), lp_events (serve_all l lp) = lp_events lp ++ new ∧
    sublist (fst ∘ fst <$> turns) l ∧ Forall rewritten_turn turns ∧
    List.filter wal_event new = turns ≫= turn_entries.
Proof.
  intros Hl. revert lp. induction Hl as [|s l [Hw Ht] _ IH]; intros lp.
  { exists [], []. rewrite app_nil_r. split_and!; done. }
  cbn [serve_all foldl]. destruct (IH (serve_one s lp)) as (new2 & turns & Hev & Hsub & Hrw & Hf).
  unfold serve_one in Hev. destruct (handle_tool_call_at_depth _ _ _ _ _ lp) as [lp1 reply] eqn:E.
  destruct (handle_brackets _ _ _ _ _ _ _ _ Hw Ht E) as (new1 & Hev1 & Hnew). cbn [fst] in *.
  exists (new1 ++ new2). unfold serve_all, serve_one in *. rewrite E. cbn [fst]. rewrite Hev, Hev1, <- app_assoc, List.filter_app, Hf.
  destruct Hnew as [Hr|(call & text & Hc & _ & Hb)].
  - exists turns. split_and!; [done|by constructor|done|].
    rewrite filter_no_wal; [done|]. eapply Forall_impl; [exact Hr|]. by intros [].
  - exists ((s, call, wal_ok text) :: turns). split_and!; [done|by constructor|by constructor|].
    rewrite Hb. done.
Qed.

Lemma turn_rounds clock i turns :
  Rounds (logged_id <$> turns) (entries clock i (turns ≫= turn_entries)).
Proof.
  revert i. induction turns as [|[[s call] ok] turns IH]; intros i; [constructor|].
  cbn [mbind list_bind turn_entries bracket app entries fmap list_fmap fst snd].
  by apply (rounds_call (logged_record _ _ _ _ _)).
Qed.

Lemma turn_id t : rewritten_turn t → logged_id t = served_id (fst (fst t)).
Proof.
  destruct t as [[s call] ok]. intros [Hi Hn]%rewritten_keeps. cbn. unfold served_id, name. by rewrite Hi, Hn.
Qed.

Lemma turn_ids l turns :
  sublist (fst ∘ fst <$> turns) l → Forall rewritten_turn turns → sublist (logged_id <$> turns) (served_id <$> l).
Proof.
  intros Hsub Hrw. transitivity (served_id <$> (fst ∘ fst <$> turns)); [|by apply fmap_sublist].
  rewrite <- list_fmap_compose. erewrite list_fmap_ext; [done|]. intros i t Ht. apply turn_id.
  rewrite Forall_forall in Hrw. apply Hrw. by eapply list_elem_of_lookup_2.
Qed.

Lemma entries_elem clock i evs r :
  r ∈ entries clock i evs → ∃ c st a ok now, EvWal c st a ok ∈ evs ∧ r = logged_record now c st a ok.
Proof.
  revert i. induction evs as [|e evs IH]; intros i Hr; [by apply elem_of_nil in Hr|].
  assert (∀ i, r ∈ entries clock i evs → ∃ c st a ok now, EvWal c st a ok ∈ e :: evs ∧ r = logged_record now c st a ok) as Htl.
  { intros j (c & st & a & ok & now & ? & ->)%IH. exists c, st, a, ok, now. split; [by right|done]. }
  destruct e; try by eapply Htl. cbn [entries] in Hr. apply elem_of_cons in Hr as [->|Hr]; [|by eapply Htl].
  eexists _, _, _, _, _. split; [left|done].
Qed.

Lemma interrupted_settled base :
  Forall (λ r, wr_state r = state_str WalInterrupted) base → settled base ∧ running base = [].
Proof.
  intros Hb. rewrite Forall_forall in Hb.
  assert (∀ r, r ∈ base → opens r = false) as Ho by (intros r Hr; unfold opens; by rewrite Hb).
  split; [intros r Hr Hor; by rewrite Ho in Hor|]. unfold running. destruct (last base) as [r|] eqn:E; [|done].
  apply last_Some_elem_of in E. cbn. by rewrite Ho.
Qed.

Lemma crashed_file io clock w base m evs :
  tw_open w = true → tw_old w = None → tw_current w = Some (lines_text base) → (∀ i, wi_written (io i) = None) →
  (N.of_nat (byte_len (lines_text (base ++ entries clock 0 evs))) <= tw_max_bytes w)%N →
  ∃ n, fst (read_all (after_crash m (log_events io clock 0 w evs))) = take n (base ++ entries clock 0 evs).
Proof.
  intros Ho Hold Hcur Hio Hb. unfold lines_text in Hb. rewrite bind_app in Hb. fold (lines_text base) in Hb.
  fold (lines_text (entries clock 0 evs)) in Hb.
  destruct (log_events_written io clock evs 0 w Hio Ho) as [Hc Hold'].
  { rewrite Hcur. unfold len_of. cbn [default]. unfold id. rewrite byte_len_app in Hb. lia. }
  destruct (torn_read (base ++ entries clock 0 evs) m) as [n Hn]. exists n. rewrite <- Hn. unfold lines_text.
  rewrite bind_app. fold (lines_text base) (lines_text (entries clock 0 evs)).
  rewrite Hcur in Hc. cbn [default] in Hc. unfold id in Hc. rewrite <- Hc.
  assert (∀ o : option str, default [] (take m <$> o) = take m (default [] o)) as Htake.
  { intros [x|]; [done|]. by destruct m. }
  unfold read_all, after_crash, open_wal. cbn [tw_old tw_current]. rewrite Hold', Hold, Htake.
  change (read_file None) with (@nil WalRecord, 0%nat). by destruct (read_file _).
Qed.

Lemma running_call l turns new clock r :
  sublist (fst ∘ fst <$> turns) l → Forall rewritten_turn turns →
  List.filter wal_event new = turns ≫= turn_entries → r ∈ entries clock 0 new →
  ∃ s, s ∈ l ∧ wr_call_id r = served_id s ∧ wr_session_key r = rc_session_key (sv_context s).
Proof.
  intros Hsub Hrw Hf Hr. rewrite <- entries_skip, Hf in Hr.
  apply entries_elem in Hr as (c & st & a & ok & now & Hin & ->).
  apply list_elem_of_bind in Hin as (t & Hev & Ht). exists (fst (fst t)).
  assert (c = turn_call t) as ->.
  { destruct t as [[s call] b]. unfold turn_entries, bracket in Hev. rewrite !elem_of_cons, elem_of_nil in Hev.
    unfold turn_call. naive_solver. }
  rewrite Forall_forall in Hrw. split_and!; [|by apply turn_id, Hrw|by destruct t as [[s call] b]].
  eapply elem_of_sublist; [|exact Hsub]. apply list_elem_of_fmap. by exists t.
Qed.

(** C20: however a crash cuts the log of calls that ran one after the other under distinct
    ids, what the next start reads is a beginning of what was logged, and what it takes up
    is the call whose last entry says that it was admitted or started, if the last entry
    says so: the call that was running, and never a call that had ended or had been taken
    up before.  At most one turn is resumed, in the session its call came from. *)
Theorem crash_takes_up_the_running_call l lp io clock w base m rio rewrite remove now :
  Forall logs_turns l → NoDup (served_id <$> l) → lp_events lp = [] →
  tw_open w = true → tw_old w = None → tw_current w = Some (lines_text base) →
  Forall (λ r, wr_state r = state_str WalInterrupted ∧ wr_call_id r ∉ served_id <$> l) base →
  (∀ i, wi_written (io i) = None) →
  (∀ i, (ttl_cutoff now DEFAULT_TTL_SECS ≤ clock i)%N) →
  let logged := base ++ entries clock 0 (lp_events (serve_all l lp)) in
  (N.of_nat (byte_len (lines_text logged)) <= tw_max_bytes w)%N →
  let crashed := after_crash m (log_events io clock 0 w (lp_events (serve_all l lp))) in
  let found := fst (read_all crashed) in
  let taken_up := snd (recover_and_finalize rio rewrite remove now crashed) in
  found `prefix_of` logged ∧ taken_up = running found ∧
  (length (recover_interrupted_turns taken_up) ≤ 1)%nat ∧
  ∀ msg, msg ∈ recover_interrupted_turns taken_up → ∃ s, s ∈ l ∧
    im_session_key msg = rc_session_key (sv_context s) ∧ starts_with (lit "agent:") (im_session_key msg) = true.
Proof.
  intros Hl Hnd Hlp Hopen Hold Hcur Hbase Hio Hclock logged Hfit crashed found taken_up.
  destruct (serve_all_turns l lp Hl) as (new & turns & Hev & Hsub & Hrw & Hf). rewrite Hlp in Hev. cbn [app] in Hev.
  assert (entries clock 0 (lp_events (serve_all l lp)) = entries clock 0 (turns ≫= turn_entries)) as Hes.
  { by rewrite Hev, <- entries_skip, Hf. }
  destruct (crashed_file io clock w base m _ Hopen Hold Hcur Hio Hfit) as [n Hn].
  fold crashed in Hn. fold found logged in Hn.
  assert (taken_up = running found) as Htaken.
  { unfold taken_up. rewrite recover_candidates. fold found. rewrite Hn. unfold logged. rewrite take_app, Hes.
    apply Forall_and in Hbase as [Hint Hfresh]. destruct (interrupted_settled (take n base)) as [Hs Hrun]; [by apply Forall_take|].
    eapply rounds_prefix; [apply turn_rounds| |by apply entries_times|done|done|].
    - by eapply sublist_NoDup; [exact Hnd|apply turn_ids].
    - intros r Hr Hid. rewrite Forall_forall in Hfresh. apply subseteq_take in Hr. apply (Hfresh r Hr).
      by eapply elem_of_sublist; [exact Hid|apply turn_ids]. }
  split_and!; [rewrite Hn; apply prefix_take|done| |].
  - rewrite Htaken. unfold recover_interrupted_turns, running. rewrite length_fmap.
    etrans; [apply List.filter_length_le|]. etrans; [apply List.filter_length_le|]. destruct (last found); cbn; lia.
  - intros msg Hm. apply list_elem_of_fmap in Hm as (r & -> & Hr). apply list_elem_of_In, filter_In in Hr as [Hr Hag].
    rewrite Htaken, Hn in Hr. apply list_elem_of_In, elem_of_running in Hr as [Hx Ho].
    apply subseteq_take, elem_of_app in Hx as [Hx|Hx].
    + rewrite Forall_forall in Hbase. destruct (Hbase _ Hx) as [Hi _]. unfold opens in Ho. by rewrite Hi in Ho.
    + rewrite Hev in Hx. destruct (running_call l turns new clock r Hsub Hrw Hf Hx) as (s & Hs & _ & Hk).
      exists s. by split_and!.
Qed.
End Recovery.

(** ** A coding of records *)

Definition record_fields (r : WalRecord) : list str :=
  [[wr_ts_ms r]; wr_session_key r; wr_channel r; wr_chat_id r; wr_user r; wr_call_id r; wr_tool r; wr_args_preview r;
   wr_state r; match wr_ok r with None => [] | Some b => [if b then 1%N else 0%N] end].

Definition record_of_fields (l : list str) : option WalRecord :=
  match l with
  | [[ts]; session; channel; chat; user; id; tool; args; state; ok] =>
      Some (mkWalRecord ts session channel chat user id tool args state
              match ok with [] => None | b :: _ => Some (N.eqb b 1) end)
  | _ => None
  end.

Fixpoint bits (p : positive) : str :=
  match p with
  | xH => [c_dot]
  | xO p => ch "0" :: bits p
  | xI p => ch "1" :: bits p
  end.

Fixpoint unbits (s : str) : option positive :=
  match s with
  | [] => None
  | c :: s =>
      if N.eqb c c_dot then match s with [] => Some xH | _ => None end
      else if N.eqb c (ch "0") then xO <$> unbits s
      else if N.eqb c (ch "1") then xI <$> unbits s
      else None
  end.

Definition bit_char (c : char) : Prop := c = ch "0" ∨ c = ch "1" ∨ c = c_dot.

Lemma unbits_bits p : unbits (bits p) = Some p.
Proof. induction p as [p IH|p IH|]; cbn; [by rewrite IH..|done]. Qed.

Lemma bits_chars p : Forall bit_char (bits p).
Proof. induction p; cbn; constructor; try done; unfold bit_char; auto. Qed.

Lemma unbits_torn p k : (k < length (bits p))%nat → unbits (take k (bits p)) = None.
Proof.
  revert k. induction p as [p IH|p IH|]; intros [|k] Hk; cbn in Hk; try done; cbn; try (rewrite IH by lia; done).
  lia.
Qed.

Lemma trim_bits s : Forall bit_char s → trim s = s.
Proof.
  assert (∀ s, Forall bit_char s → trim_start_matches is_ws s = s) as Ht.
  { intros x Hx. destruct Hx as [|c x [->|[->| ->]] _]; reflexivity. }
  intros Hs. unfold trim, trim_end, trim_end_matches, trim_start. rewrite (Ht s Hs).
  rewrite (Ht (rev s)) by by apply Forall_rev. apply rev_involutive.
Qed.

Definition bit_json : WalJson.
Proof.
  refine {| wal_to_string r := bits (encode (record_fields r));
            wal_from_str s := p ← unbits s; l ← decode p; record_of_fields l |}.
  - intros r. rewrite unbits_bits. cbn. rewrite decode_encode. cbn. by destruct r as [???????? ? [[]|]].
  - intros r Hin. pose proof (bits_chars (encode (record_fields r))) as Hf. rewrite Forall_forall in Hf.
    destruct (Hf _ Hin) as [?|[?|?]]; discriminate.
  - intros r. pose proof (bits_chars (encode (record_fields r))) as Hf. split_and!; [by apply trim_bits| |].
    + by destruct (encode (record_fields r)).
    + intros Hl. apply last_Some_elem_of in Hl. rewrite Forall_forall in Hf. destruct (Hf _ Hl) as [?|[?|?]]; discriminate.
  - intros r k Hk. rewrite trim_bits by by apply Forall_take, bits_chars. by rewrite unbits_torn.
Defined.

(** ** Witness *)

Section Runs.
#[local] Existing Instances ascii_unicode ascii_uppercase ascii_class exact_float toy_debug unix map_order literal_engine literal_find literal_captures unit_numbers toy_net toy_sha toy_json no_u64 bit_json.

Definition demo_turn (id : string) (now : Z) : Served :=
  mkServed demo_config (demo_dispatch now) (mkCall (lit id) (tc_name demo_tool_call) (tc_arguments demo_tool_call))
    demo_context 0.

Definition demo_turns : list Served := [demo_turn "a" 0; demo_turn "b" 1000].

Definition demo_log : TurnWal := open_wal None None.

(** The second call had started when the process died: its end is not in the file. *)
Definition demo_cut : nat :=
  length (lines_text (take 5 (entries (λ _, 0%N) 0 (lp_events (serve_all demo_turns demo_loop))))) + 3.

Lemma crash_takes_up_the_running_call_witness :
  let crashed := after_crash demo_cut
    (log_events (λ _, good_io) (λ _, 0%N) 0 demo_log (lp_events (serve_all demo_turns demo_loop))) in
  (λ r, (wr_call_id r, wr_state r)) <$> snd (recover_and_finalize (λ _, good_io) (RewriteOk true) true 0 crashed)
  = [(lit "b", lit "started")].
Proof.
  destruct (crash_takes_up_the_running_call demo_turns demo_loop (λ _, good_io) (λ _, 0%N) demo_log [] demo_cut
    (λ _, good_io) (RewriteOk true) true 0) as (_ & Ht & _).
  - assert (Hhook : ∀ id now, logs_turns (demo_turn id now)).
    { intros id now. split; [reflexivity|]. repeat constructor. intros hc next Hnext. apply Hnext. }
    by repeat (apply Forall_cons; split; [apply Hhook|]).
  - apply (bool_decide_unpack _). vm_compute. exact I.
  - reflexivity.
  - reflexivity.
  - reflexivity.
  - reflexivity.
  - constructor.
  - reflexivity.
  - intros i. vm_compute. discriminate.
  - vm_compute. discriminate.
  - cbv zeta in Ht |- *. rewrite Ht. vm_compute. reflexivity.
Defined.
End Runs.
