(* ===== verification/TokenBudget.v ===== *)
(** * Token budget of a session

    [nemesis-agent/src/token_budget.rs] (the ledger and the notices),
    [loop/token_budget.rs] (the check in front of every round),
    the accounting at the end of a round ([loop/observer.rs]
    [record_round_usage]) and the two statements of the usage store they rely on
    ([nemesis-data/src/usage_store.rs]: the insert of a request row and the sum
    over the rows of a session; SQLite's [SUM] fails on overflow).

    The ledger's mutex is held for one of its operations at a time, and the store takes
    one statement at a time; the end of a round is a statement and an operation, the
    check one or two operations, and between these those of other tasks come.  Reading
    the store to seed an entry happens under the mutex and is one step with it, for only
    the order of the reading and of the inserts matters.  Tokens are [u64]/[i64] in [Z]. *)
From S2P Require Import Prelude RustStr.
Local Open Scope Z_scope.

(** ** Machine integers *)

Definition u64_max : Z := 2 ^ 64 - 1.
Definition i64_max : Z := 2 ^ 63 - 1.

Definition saturating_add (a b : Z) : Z := Z.min u64_max (a + b).
Definition saturating_mul (a b : Z) : Z := Z.min u64_max (a * b).

(** ** Usage store *)

(** The columns of [request_logs] that the sums read. *)
Record RequestRow := mkRow {
  rw_session_key : str;
  rw_input_tokens : Z;
  rw_output_tokens : Z;
  rw_cache_read_tokens : Z;
}.

Abbreviation DataStore := (list RequestRow) (only parsing).

Definition insert_request_log (ds : DataStore) (r : RequestRow) : DataStore := ds ++ [r].

Definition session_rows (ds : DataStore) (key : str) : list RequestRow :=
  filter (λ r, rw_session_key r = key) ds.

Definition sum_column (f : RequestRow → Z) (rows : list RequestRow) : Z := foldr (λ r acc, f r + acc) 0 rows.

Definition in_i64 (x : Z) : bool := (- 2 ^ 63 <=? x) && (x <=? i64_max).

(** [COALESCE(SUM(input_tokens + cache_read_tokens), 0)] and the same for the
    output; [None] is an error of the query. *)
Definition aggregate_session_usage (ds : DataStore) (key : str) : option (Z * Z) :=
  let input := sum_column (λ r, rw_input_tokens r + rw_cache_read_tokens r) (session_rows ds key) in
  let output := sum_column rw_output_tokens (session_rows ds key) in
  if in_i64 input && in_i64 output then Some (input, output) else None.

(** ** Ledger *)

Definition SESSION_TOKEN_BUDGET_MARKER : str := ulit "💰 会话 token 预算耗尽".
Definition SESSION_BUDGET_MAX_ENTRIES : nat := 512.

Definition hard_stop_notice (used budget : Z) : str :=
  SESSION_TOKEN_BUDGET_MARKER ++ ulit "（" ++ lit (pretty used) ++ lit "/" ++ lit (pretty budget)
  ++ ulit "）：本会话累计 token 用量已达预算上限，已停止处理。已完成的工作已保存。".

Definition entry_reject_notice (used budget : Z) : str :=
  SESSION_TOKEN_BUDGET_MARKER ++ ulit "（" ++ lit (pretty used) ++ lit "/" ++ lit (pretty budget)
  ++ ulit "）：该会话累计 token 用量已达预算上限，任务未执行。请人工裁决（调大 agents.defaults.session_token_budget 或新建会话）。".

Record SessionBudgetEntry := mkBudgetEntry { be_total_tokens : Z; be_soft_noticed : bool }.

Abbreviation Ledger := (gmap str SessionBudgetEntry) (only parsing).

Definition seed_total (ds : option DataStore) (key : str) : option Z :=
  ds ← ds;
  '(input, output) ← aggregate_session_usage ds key;
  Some (saturating_add (Z.max 0 input) (Z.max 0 output)).

Definition insert_capped (m : Ledger) (key : str) (total : Z) : Ledger :=
  <[key := mkBudgetEntry total false]> (if (SESSION_BUDGET_MAX_ENTRIES <? size m)%nat then ∅ else m).

Definition record (ds : option DataStore) (key : str) (delta : Z) (m : Ledger) : Ledger :=
  match m !! key with
  | Some e => <[key := mkBudgetEntry (saturating_add (be_total_tokens e) delta) (be_soft_noticed e)]> m
  | None => insert_capped m key (default delta (seed_total ds key))
  end.

Definition current (ds : option DataStore) (key : str) (m : Ledger) : Ledger * Z :=
  match m !! key with
  | Some e => (m, be_total_tokens e)
  | None => let total := default 0 (seed_total ds key) in (insert_capped m key total, total)
  end.

(** [entry().or_default()]: a missing entry starts with a total of zero. *)
Definition soft_latch (key : str) (m : Ledger) : Ledger * bool :=
  let e := default (mkBudgetEntry 0 false) (m !! key) in
  (<[key := mkBudgetEntry (be_total_tokens e) true]> m, negb (be_soft_noticed e)).

(** ** Rounds of a session *)

Record UsageInfo := mkUsage {
  us_prompt_tokens : Z;
  us_completion_tokens : Z;
  us_cache_read_tokens : option Z;
  us_cached_tokens : option Z;
}.

Definition cache_read (u : UsageInfo) : Z :=
  default 0 (match us_cache_read_tokens u with Some c => Some c | None => us_cached_tokens u end).

Definition round_delta (u : UsageInfo) : Z :=
  saturating_add (saturating_add (Z.max 0 (us_prompt_tokens u)) (Z.max 0 (cache_read u)))
                 (Z.max 0 (us_completion_tokens u)).

(** The accounting of [record_round_usage]; [stored] says whether the insert
    succeeded (a failure is only logged). *)
Definition record_round_usage (budget : Z) (key : str) (usage : option UsageInfo) (stored : bool)
    (ds : option DataStore) (m : Ledger) : option DataStore * Ledger :=
  match usage with
  | None => (ds, m)
  | Some u =>
      let ds := if stored
                then (λ rows, insert_request_log rows
                        (mkRow key (us_prompt_tokens u) (us_completion_tokens u) (cache_read u))) <$> ds
                else ds in
      (ds, if 0 <? budget then record ds key (round_delta u) m else m)
  end.

Inductive BudgetCheck := Continue (soft : bool) | HardStop (notice : str).

(** The check at the head of a round; [Continue true] also forces one
    compression of the history. *)
Definition check_session_budget (budget : Z) (key : str) (ds : option DataStore) (m : Ledger) : Ledger * BudgetCheck :=
  if bool_decide (budget = 0) then (m, Continue false)
  else
    let '(m, used) := current ds key m in
    if budget <=? used then (m, HardStop (hard_stop_notice used budget))
    else if saturating_mul budget 3 <=? saturating_mul used 4 then
      let '(m, first) := soft_latch key m in (m, Continue first)
    else (m, Continue false).

Definition session_tokens_used (ds : option DataStore) (key : str) (m : Ledger) : Ledger * Z := current ds key m.

(** ** Runs *)

(** Where a task is: the end of a round, a check, or the query of the status. *)
Inductive BudgetTask :=
| ToInsert (key : str) (u : UsageInfo)
| ToRecord (key : str) (u : UsageInfo)
| Rounded
| ToCheck (key : str)
| ToLatch (key : str)
| Checked (c : BudgetCheck)
| ToReport (key : str)
| Reported (used : Z).

Record Books := mkBooks {
  bk_store : DataStore;
  bk_ledger : Ledger;
  bk_tasks : list BudgetTask;
}.

(** What the check does with what it has read. *)
Definition verdict (budget : Z) (key : str) (used : Z) : BudgetTask :=
  if budget <=? used then Checked (HardStop (hard_stop_notice used budget))
  else if saturating_mul budget 3 <=? saturating_mul used 4 then ToLatch key
  else Checked (Continue false).

Definition row_of (key : str) (u : UsageInfo) : RequestRow :=
  mkRow key (us_prompt_tokens u) (us_completion_tokens u) (cache_read u).

(** The next step of a task while the budget is [budget] and the store works. *)
Definition task_move (budget : Z) (ds : DataStore) (m : Ledger) (t : BudgetTask) : DataStore * Ledger * BudgetTask :=
  match t with
  | ToInsert key u => (insert_request_log ds (row_of key u), m, if 0 <? budget then ToRecord key u else Rounded)
  | ToRecord key u => (ds, record (Some ds) key (round_delta u) m, Rounded)
  | ToCheck key =>
      if bool_decide (budget = 0) then (ds, m, Checked (Continue false))
      else let '(m, used) := current (Some ds) key m in (ds, m, verdict budget key used)
  | ToLatch key => let '(m, first) := soft_latch key m in (ds, m, Checked (Continue first))
  | ToReport key => let '(m, used) := current (Some ds) key m in (ds, m, Reported used)
  | Rounded | Checked _ | Reported _ => (ds, m, t)
  end.

Inductive BudgetEvent :=
| RoundEnds (key : str) (u : UsageInfo)
| RoundStarts (key : str)
| StatusAsked (key : str)
| Moves (i : nat).

Definition books_step (budget : Z) (bk : Books) (e : BudgetEvent) : Books :=
  let begins t := mkBooks (bk_store bk) (bk_ledger bk) (bk_tasks bk ++ [t]) in
  match e with
  | RoundEnds key u => begins (ToInsert key u)
  | RoundStarts key => begins (ToCheck key)
  | StatusAsked key => begins (ToReport key)
  | Moves i =>
      match bk_tasks bk !! i with
      | Some t => let '(ds, m, t) := task_move budget (bk_store bk) (bk_ledger bk) t in mkBooks ds m (<[i := t]> (bk_tasks bk))
      | None => bk
      end
  end.

Fixpoint books_run (budget : Z) (bk : Books) (es : list BudgetEvent) : Books :=
  match es with
  | [] => bk
  | e :: es => books_run budget (books_step budget bk e) es
  end.

(** Nothing disturbs the accounts: an entry is not seeded while another task is between
    the row and the record of a round of the session, and it is still there when the
    latch is set. *)
Definition calm (bk : Books) (e : BudgetEvent) : Prop :=
  match e with
  | Moves i =>
      match bk_tasks bk !! i with
      | Some (ToRecord key _ | ToCheck key | ToReport key) =>
          bk_ledger bk !! key = None → ∀ j u, bk_tasks bk !! j = Some (ToRecord key u) → j = i
      | Some (ToLatch key) => is_Some (bk_ledger bk !! key)
      | _ => True
      end
  | _ => True
  end.

Fixpoint undisturbed (budget : Z) (bk : Books) (es : list BudgetEvent) : Prop :=
  match es with
  | [] => True
  | e :: es => calm bk e ∧ undisturbed budget (books_step budget bk e) es
  end.

(** ** Lemmas *)

(** The tokens of a session in the store. *)
Definition account (ds : DataStore) (key : str) : Z :=
  sum_column (λ r, rw_input_tokens r + rw_cache_read_tokens r + rw_output_tokens r) (session_rows ds key).





(** The tokens of a session that are in the store and not yet in the ledger. *)
Definition weight (key : str) (t : BudgetTask) : Z :=
  match t with ToRecord k u => if bool_decide (k = key) then round_delta u else 0 | _ => 0 end.

Definition unrecorded (key : str) (tasks : list BudgetTask) : Z := foldr (λ t n, weight key t + n) 0 tasks.













(** *** What is not yet recorded *)







(** *** Steps keep the balance *)













Lemma size_insert_le (m : Ledger) k e : (size (<[k := e]> m) ≤ S (size m))%nat.
Proof. rewrite map_size_insert. destruct (m !! k); cbn; lia. Qed.

Lemma insert_capped_size m key total : (size (insert_capped m key total) ≤ S SESSION_BUDGET_MAX_ENTRIES)%nat.
Proof.
  unfold insert_capped. etrans; [apply size_insert_le|]. destruct (Nat.ltb_spec SESSION_BUDGET_MAX_ENTRIES (size m)).
  - rewrite map_size_empty. lia.
  - lia.
Qed.

Lemma size_overwrite (m : Ledger) k e e' : m !! k = Some e → size (<[k := e']> m) = size m.
Proof. intros H. rewrite map_size_insert, H. done. Qed.

(** ** Properties *)


(** Also: a round and a check whose steps nobody interrupts are the functions of the code. *)
Theorem uninterrupted_steps budget key u ds m :
  (let '(ds', m', t) := task_move budget ds m (ToInsert key u) in
   let '(ds', m', t) := task_move budget ds' m' t in
   t = Rounded ∧ (Some ds', m') = record_round_usage budget key (Some u) true (Some ds) m) ∧
  (let '(ds', m', t) := task_move budget ds m (ToCheck key) in
   let '(ds', m', t) := task_move budget ds' m' t in
   ds' = ds ∧ ∃ c, t = Checked c ∧ check_session_budget budget key (Some ds) m = (m', c)).
Proof.
  split.
  - cbn. by destruct (0 <? budget).
  - cbn. unfold check_session_budget. destruct (bool_decide (budget = 0)); [by split; [|eexists]|].
    destruct (current (Some ds) key m) as [m1 used]. unfold verdict. destruct (budget <=? used); [by split; [|eexists]|].
    destruct (_ <=? _); [|by split; [|eexists]]. cbn. by split; [|eexists].
Qed.

Lemma record_size ds key delta m : (size m ≤ S SESSION_BUDGET_MAX_ENTRIES)%nat →
  (size (record ds key delta m) ≤ S SESSION_BUDGET_MAX_ENTRIES)%nat.
Proof.
  intros H. unfold record. destruct (m !! key) as [e|] eqn:E; [by rewrite (size_overwrite m key e)|].
  apply insert_capped_size.
Qed.

Lemma current_size ds key m : (size m ≤ S SESSION_BUDGET_MAX_ENTRIES)%nat →
  (size (fst (current ds key m)) ≤ S SESSION_BUDGET_MAX_ENTRIES)%nat ∧ ∃ e, fst (current ds key m) !! key = Some e.
Proof.
  intros H. unfold current. destruct (m !! key) as [e|] eqn:E; cbn [fst]; [eauto|].
  split; [apply insert_capped_size|]. unfold insert_capped. rewrite lookup_insert_eq. eauto.
Qed.

Lemma check_size budget key ds m : (size m ≤ S SESSION_BUDGET_MAX_ENTRIES)%nat →
  (size (fst (check_session_budget budget key ds m)) ≤ S SESSION_BUDGET_MAX_ENTRIES)%nat.
Proof.
  intros H. unfold check_session_budget. destruct (bool_decide _); [done|].
  destruct (current_size ds key m H) as [K1 [e K2]]. destruct (current ds key m) as [m' used]. cbn in K1, K2.
  destruct (_ <=? _); [done|]. destruct (_ <=? _); [|done]. cbn. by rewrite (size_overwrite m' key e).
Qed.

Lemma task_step_size budget ds m t : (size m ≤ S SESSION_BUDGET_MAX_ENTRIES)%nat →
  (∀ key, t = ToLatch key → is_Some (m !! key)) →
  (size (snd (fst (task_move budget ds m t))) ≤ S SESSION_BUDGET_MAX_ENTRIES)%nat.
Proof.
  intros Hm Hl. destruct t as [key u|key u| |key|key|c|key|used]; cbn [task_move]; try exact Hm.
  - by apply record_size.
  - destruct (bool_decide _); [exact Hm|]. pose proof (current_size (Some ds) key m Hm) as [K _]. by destruct (current _ _ _).
  - destruct (Hl key eq_refl) as [e He]. unfold soft_latch. cbn. by rewrite (size_overwrite m key e).
  - pose proof (current_size (Some ds) key m Hm) as [K _]. by destruct (current _ _ _).
Qed.

(** Observed: the ledger of a long-running process stays bounded, for every budget,
    store and run in which no entry is dropped between the two operations of a check: one
    entry more than the constant says. *)
Theorem ledger_bounded budget es ds : undisturbed budget (mkBooks ds ∅ []) es →
  (size (bk_ledger (books_run budget (mkBooks ds ∅ []) es)) ≤ S SESSION_BUDGET_MAX_ENTRIES)%nat.
Proof.
  assert (∀ bk, size (bk_ledger bk) ≤ S SESSION_BUDGET_MAX_ENTRIES → undisturbed budget bk es →
    size (bk_ledger (books_run budget bk es)) ≤ S SESSION_BUDGET_MAX_ENTRIES)%nat as Hgo.
  { induction es as [|e es IH]; intros bk Hm Hc; [done|]. destruct Hc as [Hc Hcs]. cbn [books_run]. apply IH; [|done].
    destruct e as [key u|key|key|i]; try exact Hm. unfold calm in Hc. cbn [books_step].
    destruct (bk_tasks bk !! i) as [t|]; [|exact Hm].
    pose proof (task_step_size budget (bk_store bk) (bk_ledger bk) t Hm) as K.
    destruct (task_move _ _ _ t) as [[ds' m'] t']. apply K. by intros key ->. }
  apply Hgo. cbn. rewrite map_size_empty. lia.
Qed.

(** Observed: a full ledger is cleared by another session between the two locks of a
    check; the latch then re-creates the entry with a total of zero, and the
    rows of the store are not read again: the session starts over. *)
Theorem latch_forgets_account ds a b m e :
  a ≠ b → m !! a = Some e → m !! b = None → (SESSION_BUDGET_MAX_ENTRIES < size m)%nat →
  let m1 := fst (current (Some ds) b m) in
  snd (current (Some ds) a (fst (soft_latch a m1))) = 0.
Proof.
  intros Hn Ha Hb Hs m1.
  assert (m1 = insert_capped m b (default 0 (seed_total (Some ds) b))) as -> by (unfold m1, current; by rewrite Hb).
  unfold insert_capped. replace (SESSION_BUDGET_MAX_ENTRIES <? size m)%nat with true
    by (symmetry; by apply Nat.ltb_lt).
  unfold soft_latch. cbn [fst]. rewrite lookup_insert_ne, lookup_empty by done. cbn [default].
  unfold current. by rewrite lookup_insert_eq.
Qed.

(** Observed: rounds that end while the budget is off are not added to an entry that
    exists (the status query creates one at any time): when the budget is
    switched on, the session goes on although its rows exceed it. *)
Theorem budget_off_undercounts :
  let u := mkUsage 1000 0 None None in
  let m := fst (session_tokens_used (Some []) (lit "s") ∅) in
  let '(ds, m) := record_round_usage 0 (lit "s") (Some u) true (Some []) m in
  snd (check_session_budget 500 (lit "s") ds m) = Continue false ∧ account (default [] ds) (lit "s") = 1000.
Proof. by vm_compute. Qed.

(** Observed: the query of the status between the row of a round and its record seeds the
    entry with a sum that has the round already, and the record adds it again: the session
    is stopped although its rows are below the budget. *)
Theorem status_counts_twice :
  let u := mkUsage 300 0 None None in
  let bk := books_run 500 (mkBooks [] ∅ [])
    [RoundEnds (lit "s") u; StatusAsked (lit "s"); Moves 0; Moves 1; Moves 0] in
  account (bk_store bk) (lit "s") = 300 ∧ unrecorded (lit "s") (bk_tasks bk) = 0 ∧
  snd (check_session_budget 500 (lit "s") (Some (bk_store bk)) (bk_ledger bk)) = HardStop (hard_stop_notice 600 500).
Proof. by vm_compute. Qed.

(** ** Witnesses *)





