(* ===== verification/LlmErrors.v ===== *)
(** * Errors of the providers (nemesis-utils/src/llm_error_class.rs,
      nemesis-agent/src/loop/rate_limit.rs, the tables of loop/recovery.rs)

    The text of an error is all a turn knows of a call that failed.  Here it is put into a
    class, and class and keywords choose the ring of retries that takes the call up; the
    ring for rate limits reads off it how long to wait. *)
From stdpp Require Import strings.
From S2P Require Import Prelude RustStr Regex ShellBleed Scheduler.
Local Open Scope nb_scope.

(** ** Classes *)

Inductive LlmErrorClass :=
| ClassAuth
| ClassBilling
| ClassRateLimit
| ClassTimeout
| ClassFormat
| ClassOverloaded.

#[global] Instance class_eq_dec : EqDecision LlmErrorClass.
Proof. solve_decision. Defined.

Definition contains_any (msg : str) (patterns : list string) : bool :=
  existsb (λ p, contains (lit p) msg) patterns.

Section Classes.
Context {UC : Unicode} `{RegexCaptures}.

(** An expression that does not compile matches nothing. *)
Definition matches_any_regex (msg : str) (patterns : list string) : bool :=
  existsb (λ p, regex_match (lit "(?i)" ++ lit p) msg) patterns.

Definition is_image_dimension_error (msg : str) : bool := matches_any_regex msg ["image dimensions exceed max"]%string.
Definition is_image_size_error (msg : str) : bool := matches_any_regex msg ["image exceeds.*mb"]%string.

Definition STATUS_REGEX : str := lit "status[:\s]+(\d{3})".
Definition HTTP_REGEX : str := lit "HTTP[/\s]+\d*\.?\d*\s+(\d{3})".

(** [str::parse::<u16>] of a group. *)
Definition parse_u16 (s : str) : option N :=
  n ← parse_u64 s;
  guard (n < 65536)%N;;
  Some n.

(** The first group of the first match, as a number. *)
Definition status_in (src msg : str) : option N :=
  cap ← head (captures_iter src msg);
  m ← mjoin (head cap);
  parse_u16 (span_text msg m).

Definition extract_http_status (msg : str) : option N :=
  if bool_decide (compiles STATUS_REGEX) && bool_decide (compiles HTTP_REGEX)
  then match status_in STATUS_REGEX msg with
       | Some code => Some code
       | None => status_in HTTP_REGEX msg
       end
  else None.

Definition class_by_status (status : N) : option LlmErrorClass :=
  if existsb (N.eqb status) [401; 403]%N then Some ClassAuth
  else if (status =? 402%N) then Some ClassBilling
  else if (status =? 408%N) then Some ClassTimeout
  else if (status =? 429%N) then Some ClassRateLimit
  else if (status =? 400%N) then Some ClassFormat
  else if existsb (N.eqb status) [500; 502; 503; 521; 522; 523; 524; 529]%N then Some ClassOverloaded
  else None.

Definition matches_rate_limit (msg : str) : bool :=
  contains_any msg
    ["rate limit"; "rate_limit"; "too many requests"; "429"; "exceeded your current quota"; "resource has been exhausted";
     "resource_exhausted"; "quota exceeded"; "usage limit"]%string
  || matches_any_regex msg ["exceeded.*quota"; "resource.*exhausted"]%string.

Definition OVERLOADED_JSON_REGEX : str :=
  lit "(?i)" ++ [c_dquote] ++ lit "type" ++ [c_dquote] ++ lit "\s*:\s*" ++ [c_dquote] ++ lit "overloaded_error" ++ [c_dquote].

Definition matches_overloaded (msg : str) : bool :=
  contains_any msg ["overloaded"]%string
  || (matches_any_regex msg ["overloaded_error"]%string || regex_match OVERLOADED_JSON_REGEX msg).

Definition matches_timeout (msg : str) : bool :=
  contains_any msg ["timeout"; "timed out"; "deadline exceeded"; "context deadline exceeded"]%string.

Definition matches_billing (msg : str) : bool :=
  contains_any msg
    ["payment required"; "insufficient credits"; "credit balance"; "plans & billing"; "insufficient balance"]%string
  || matches_any_regex msg ["\b402\b"]%string.

Definition matches_auth (msg : str) : bool :=
  contains_any msg
    ["incorrect api key"; "invalid token"; "authentication"; "re-authenticate"; "oauth token refresh failed"; "unauthorized";
     "forbidden"; "access denied"; "expired"; "token has expired"; "no credentials found"; "no api key found"]%string
  || matches_any_regex msg ["invalid[_ ]?api[_ ]?key"; "\b401\b"; "\b403\b"]%string.

Definition matches_format (msg : str) : bool :=
  contains_any msg
    ["string should match pattern"; "tool_use.id"; "tool_use_id"; "messages.1.content.1.tool_use.id";
     "invalid request format"]%string.

Definition class_by_message (msg : str) : option LlmErrorClass :=
  if contains (lit "connect error") msg then Some ClassTimeout
  else if matches_rate_limit msg then Some ClassRateLimit
  else if matches_overloaded msg then Some ClassRateLimit
  else if matches_billing msg then Some ClassBilling
  else if matches_timeout msg then Some ClassTimeout
  else if matches_auth msg then Some ClassAuth
  else if matches_format msg then Some ClassFormat
  else None.

Definition classify_llm_error (error_msg : str) : option LlmErrorClass :=
  let msg := to_lowercase error_msg in
  if is_image_dimension_error msg || is_image_size_error msg then Some ClassFormat
  else match extract_http_status msg ≫= class_by_status with
       | Some class => Some class
       | None => class_by_message msg
       end.

(** ** The ring that takes an error up (loop/recovery.rs) *)

Definition CONTEXT_ERROR_KEYWORDS : list string := ["token"; "context"; "length"; "invalid"]%string.

Definition TRANSIENT_ERROR_KEYWORDS : list string :=
  ["timeout"; "timed out"; "connection reset"; "broken pipe"; "connect error"; "connection refused";
   "temporarily unavailable"; "reset by peer"; "502"; "503"; "504"; "service unavailable"; "status 500"]%string.

Definition RATE_LIMIT_ERROR_KEYWORDS : list string :=
  ["rate limited by provider"; "429"; "too many requests"; "overloaded"]%string.

Inductive Ring :=
| NoRetry (hint : str)
| ContextRing
| RateLimitRing
| TransientRing
| NoRing.

Definition AUTH_HINT : str := ulit "认证失败（401/403）：请检查该模型的 API key 或凭据配置，已停止重试".
Definition BILLING_HINT : str := ulit "计费失败（402）：请检查该模型账户余额或订阅状态，已停止重试".

Definition recovery_ring (err : str) : Ring :=
  let err_lower := to_lowercase err in
  let classified := classify_llm_error err in
  if bool_decide (classified = Some ClassAuth) then NoRetry AUTH_HINT
  else if bool_decide (classified = Some ClassBilling) then NoRetry BILLING_HINT
  else if contains_any err_lower CONTEXT_ERROR_KEYWORDS then ContextRing
  else if contains_any err_lower RATE_LIMIT_ERROR_KEYWORDS || bool_decide (classified = Some ClassRateLimit) then RateLimitRing
  else if contains_any err_lower TRANSIENT_ERROR_KEYWORDS
          || (bool_decide (classified = Some ClassTimeout) || bool_decide (classified = Some ClassOverloaded))
       then TransientRing
  else NoRing.

End Classes.

(** ** Waiting (loop/rate_limit.rs) *)

Definition RATE_LIMIT_BACKOFF_LADDER : list N := [5; 10; 20; 40; 60; 90; 120; 150; 180; 210]%N.

Definition rate_limit_ladder_secs (attempt : nat) : N :=
  default 0%N (RATE_LIMIT_BACKOFF_LADDER !! Nat.min (attempt - 1) (length RATE_LIMIT_BACKOFF_LADDER - 1)).

Definition RETRY_AFTER_MARK : str := lit "(retry_after=".

(** The digits behind the mark; text that ends with them carries no number. *)
Definition extract_retry_after_secs (err : str) : option N :=
  idx ← find_str RETRY_AFTER_MARK err;
  let rest := drop (idx + length RETRY_AFTER_MARK) err in
  '(end_, _) ← list_find (λ c, is_ascii_digit c = false) rest;
  parse_u64 (take end_ rest).

Definition rate_limit_wait_secs (err : str) (attempt : nat) : N :=
  match extract_retry_after_secs err with
  | Some ra => ra `max` rate_limit_ladder_secs attempt
  | None => rate_limit_ladder_secs attempt
  end%N.

Definition OVERLOADED_LABEL : str := ulit "上游过载".
Definition RATE_LIMIT_LABEL : str := ulit "上游限流".

Definition rate_limit_display_label `{!Unicode} (err_text : str) : str :=
  if contains (lit "overloaded") (to_lowercase err_text) then OVERLOADED_LABEL else RATE_LIMIT_LABEL.
