(* ===== verification/LlmCall.v ===== *)
(** * The call to the model (nemesis-agent/src/loop/recovery.rs, loop/length_escalation.rs,
      loop/llm_types.rs, the hooks on calls of hooks.rs, force_compression of loop/compact.rs)

    One round's call: under a timeout, up the ladder of output limits, through the ring of
    retries its error belongs to, past the hooks.  The provider, the clock and the
    interruptions are an environment; what a call changes is a state. *)
From stdpp Require Import strings.
From S2P Require Import Prelude RustStr Regex ShellBleed LlmErrors Json ToolGates Turns TokenBudget.
Local Open Scope nb_scope.

(** ** Requests and answers *)

(** [ChatOptions] without temperature, nucleus threshold and stop texts, which are constants
    of a turn. *)
Record ChatOptions := mkOptions {
  co_max_tokens : option N;
  co_reasoning_effort : option str;
}.

(** What goes to the provider; tools by their names. *)
Record Request := mkRequest {
  rq_model : str;
  rq_messages : list LlmMessage;
  rq_options : option ChatOptions;
  rq_tools : list str;
}.

(** [LlmResponse] without the raw bodies, which are only logged. *)
Record LlmResponse := mkResponse {
  rs_content : str;
  rs_tool_calls : list ToolCallInfo;
  rs_finished : bool;
  rs_reasoning_content : option str;
  rs_finish_reason : option str;
  rs_escalated_to : option N;
  rs_usage : option UsageInfo;
}.

Definition with_escalated (r : LlmResponse) (cap : option N) : LlmResponse :=
  mkResponse (rs_content r) (rs_tool_calls r) (rs_finished r) (rs_reasoning_content r) (rs_finish_reason r) cap (rs_usage r).

Definition with_max_tokens (o : ChatOptions) (cap : option N) : ChatOptions := mkOptions cap (co_reasoning_effort o).
Definition with_options (rq : Request) (o : option ChatOptions) : Request :=
  mkRequest (rq_model rq) (rq_messages rq) o (rq_tools rq).

(** Truncated, and nothing to show for it. *)
Definition burned (r : LlmResponse) : bool :=
  bool_decide (rs_finish_reason r = Some (lit "length")) && negb (nonempty (trim (rs_content r)))
  && negb (0 <? length (rs_tool_calls r))%nat.

Inductive AgentEvent :=
| AToolCall (calls : list ToolCallInfo)
| AToolResult (tool_name result : str) (is_error : bool)
| AError (text : str)
| ADone (text : str).

(** The instance as far as a call changes it: its history, and the summary with the length
    of the prefix it covers. *)
Record Conversation := mkConversation {
  cv_history : History;
  cv_summary : option (str * nat);
}.

Definition with_history (i : Conversation) (h : History) : Conversation := mkConversation h (cv_summary i).

(** ** Hooks on calls *)

Record HookLlmCall := mkHookLlmCall {
  hl_model : str;
  hl_session_key : str;
  hl_round : nat;
}.

Inductive LlmRequestDecision :=
| Proceed
| Append (extra : list LlmMessage)
| BlockRequest (reason : str).

Inductive LlmResponseDecision :=
| AllowResponse
| ReplaceResponse (r : LlmResponse)
| RetryResponse (reason : str)
| BlockResponse (reason : str).

(** A hook; its answers may depend on how many requests have been made. *)
Record LlmHook := mkLlmHook {
  lh_pre : nat → HookLlmCall → list LlmMessage → LlmRequestDecision;
  lh_post : nat → HookLlmCall → LlmResponse → LlmResponseDecision;
}.

Definition llm_hook_defaults : LlmHook := mkLlmHook (λ _ _ _, Proceed) (λ _ _ _, AllowResponse).

Inductive PostLlmOutcome :=
| OutcomeAllow (r : LlmResponse)
| OutcomeRetry (reason : str)
| OutcomeBlock (reason : str).

Fixpoint run_llm_pre_hooks (made : nat) (hooks : list LlmHook) (call : HookLlmCall) (messages appended : list LlmMessage)
    : result (list LlmMessage) str :=
  match hooks with
  | [] => Ok appended
  | hook :: hooks =>
      match lh_pre hook made call messages with
      | Proceed => run_llm_pre_hooks made hooks call messages appended
      | Append extra => run_llm_pre_hooks made hooks call messages (appended ++ extra)
      | BlockRequest reason => Err reason
      end
  end.

Fixpoint run_llm_post_hooks (made : nat) (hooks : list LlmHook) (call : HookLlmCall) (current : LlmResponse) : PostLlmOutcome :=
  match hooks with
  | [] => OutcomeAllow current
  | hook :: hooks =>
      match lh_post hook made call current with
      | AllowResponse => run_llm_post_hooks made hooks call current
      | ReplaceResponse new => run_llm_post_hooks made hooks call new
      | RetryResponse reason => OutcomeRetry reason
      | BlockResponse reason => OutcomeBlock reason
      end
  end.

Definition MAX_LLM_HOOK_RETRIES : nat := 2.

(** ** Environment and state *)

Inductive Interrupt := Cancelled | Stopped.

(** What a call finds outside, as a function of the number of requests made before: the
    provider's answer to a request and the milliseconds it takes, the settings that are read
    afresh, the emergency stop as the ladder looks at it, the arm that interrupts a call
    after so many requests of it, the summary of a prefix. *)
Record LlmEnv := mkLlmEnv {
  le_chat : nat → Request → result LlmResponse str;
  le_took : nat → N;
  le_call_timeout : nat → N;
  le_ceiling : nat → N;
  le_engaged : nat → bool;
  le_interrupt : nat → option (Interrupt * nat);
  le_summarize : nat → History → str → option str;
  le_build_messages : Conversation → list LlmMessage;
  le_tool_defs : list str;
  le_effective_tool_defs : list str;
  le_rate_limit_retries : Z;
  le_rate_limit_budget_secs : N;
  le_display_model : str;
  le_hooks : list LlmHook;
  le_stamp : N → str;
}.

(** The snapshot of a rate limit without its time of writing. *)
Record RateLimitStatus := mkRateStatus {
  rl_retry : nat;
  rl_max_retries : nat;
  rl_wait_secs : N;
  rl_model : str;
  rl_label : str;
}.

(** What the observer is told of a round. *)
Inductive Observed :=
| ObsRequest (round : nat)
| ObsError (round : nat) (content : str).

(** The requests made, in their order, the clock in milliseconds, the floors learned, the
    instance, the snapshots, what was said to the user meanwhile and to the observer. *)
Record Calls := mkCalls {
  ca_made : list Request;
  ca_clock : N;
  ca_floors : gmap str N;
  ca_instance : Conversation;
  ca_status : gmap str RateLimitStatus;
  ca_progress : list str;
  ca_observed : list Observed;
}.

Definition made (c : Calls) : nat := length (ca_made c).

Definition sent (rq : Request) (ms : N) (c : Calls) : Calls :=
  mkCalls (ca_made c ++ [rq]) (ca_clock c + ms) (ca_floors c) (ca_instance c) (ca_status c) (ca_progress c) (ca_observed c).
Definition slept (ms : N) (c : Calls) : Calls :=
  mkCalls (ca_made c) (ca_clock c + ms) (ca_floors c) (ca_instance c) (ca_status c) (ca_progress c) (ca_observed c).
Definition with_floors (floors : gmap str N) (c : Calls) : Calls :=
  mkCalls (ca_made c) (ca_clock c) floors (ca_instance c) (ca_status c) (ca_progress c) (ca_observed c).
Definition with_instance (i : Conversation) (c : Calls) : Calls :=
  mkCalls (ca_made c) (ca_clock c) (ca_floors c) i (ca_status c) (ca_progress c) (ca_observed c).
Definition with_status (status : gmap str RateLimitStatus) (c : Calls) : Calls :=
  mkCalls (ca_made c) (ca_clock c) (ca_floors c) (ca_instance c) status (ca_progress c) (ca_observed c).
Definition told_user (text : str) (c : Calls) : Calls :=
  mkCalls (ca_made c) (ca_clock c) (ca_floors c) (ca_instance c) (ca_status c) (ca_progress c ++ [text]) (ca_observed c).
Definition observed (o : Observed) (c : Calls) : Calls :=
  mkCalls (ca_made c) (ca_clock c) (ca_floors c) (ca_instance c) (ca_status c) (ca_progress c) (ca_observed c ++ [o]).

(** A part of a call; [None] when its ladder does not end within the fuel, or is cut off. *)
Definition CallM (A : Type) : Type := Calls → Calls * option A.

Definition back {A} (x : A) : CallM A := λ c, (c, Some x).
Definition call_bind {A B} (m : CallM A) (k : A → CallM B) : CallM B := λ c,
  match m c with
  | (c, Some x) => k x c
  | (c, None) => (c, None)
  end.
Definition doing (f : Calls → Calls) : CallM unit := λ c, (f c, Some tt).
Definition reading {A} (f : Calls → A) : CallM A := λ c, (c, Some (f c)).

Declare Scope call_scope.
Delimit Scope call_scope with call.
#[local] Notation "x <- m ; k" := (call_bind m (λ x, k))
  (at level 20, m at level 100, k at level 200, right associativity) : call_scope.
#[local] Notation "m ;; k" := (call_bind m (λ _, k)) (at level 100, k at level 200, right associativity) : call_scope.
#[local] Open Scope call_scope.

Definition u32_max : N := 4294967295.
Definition wrap64 (n : N) : N := n mod 2 ^ 64.
Definition ESCALATION_FLOOR : N := 32768.

Definition timeout_text (call_timeout : N) : str :=
  ulit "上游调用超时（" ++ lit (pretty call_timeout) ++ ulit "s 无响应，upstream timed out）".

(** Attempts that are enough for every limit below 2^63 ([ladder_ends]). *)
Definition LADDER_FUEL : nat := 64.

Definition MAX_TRANSIENT_RETRIES : nat := 3.
Definition MAX_CONTEXT_RETRIES : nat := 2.
Definition SMALL_K_FORCE : nat := 2.

Definition VOICE_PLAYBACK_SUFFIX : str :=
  ulit "（语音播报模式已开启，请用简洁、便于口语播报的方式回复，避免使用代码块、表格等不适合语音的内容。）".

Definition VISION_HINT : str :=
  [c_nl] ++ ulit "[提示: 本次请求携带了图片。若该错误与图像输入有关（如模型不支持视觉），可运行 `model probe <模型名>` 实测视觉能力，或在 config.json 对应模型条目设置 "
  ++ [c_dquote] ++ lit "vision" ++ [c_dquote] ++ lit ": " ++ [c_dquote] ++ lit "no" ++ [c_dquote] ++ ulit " 后重试。]".

Definition append_vision_fallback_hint (err_text : str) (request_had_images : bool) : str :=
  if request_had_images then err_text ++ VISION_HINT else err_text.

(** [RequestContext::format_rpc_message]. *)
Definition format_rpc_message (channel : str) (correlation_id : option str) (message : str) : str :=
  match correlation_id with
  | Some cid => if (channel =? lit "rpc") && nonempty cid then lit "[rpc:" ++ cid ++ lit "] " ++ message else message
  | None => message
  end.

(** The last message of the user gets the suffix. *)
Fixpoint voice_last (messages : list LlmMessage) : list LlmMessage :=
  match messages with
  | [] => []
  | m :: rest =>
      if (lm_role m =? r_user) && negb (existsb (λ m, lm_role m =? r_user) rest)
      then mkMessage (lm_role m) (lm_content m ++ VOICE_PLAYBACK_SUFFIX) (lm_tool_calls m) (lm_tool_call_id m)
             (lm_reasoning_content m) (lm_images m) :: rest
      else m :: voice_last rest
  end.

(** ** Learned floors *)

Definition escalated_floor_for_model (model : str) (c : Calls) : N := default 0%N (ca_floors c !! model).

Definition note_escalated_floor (model : str) (value : N) (c : Calls) : Calls :=
  let slot := escalated_floor_for_model model c in
  with_floors (<[model := if (slot <? value)%N then value else slot]> (ca_floors c)) c.

Definition clear_escalated_floors (c : Calls) : Calls := with_floors ∅ c.

Definition start_options (learned : N) (o : ChatOptions) : ChatOptions :=
  if (0 <? learned)%N && match co_max_tokens o with Some t => (t <? learned)%N | None => true end
  then with_max_tokens o (Some (learned mod 2 ^ 32)%N) else o.

Definition capped_options (current : option N) (o : ChatOptions) : ChatOptions :=
  match current with
  | Some cur => with_max_tokens o (Some (cur `min` u32_max)%N)
  | None => o
  end.

Definition next_rung (cur : N) : N := (wrap64 (cur * 2) `max` ESCALATION_FLOOR)%N.

Section Call.
Context {UC : Unicode} `{RegexCaptures}.
Variable env : LlmEnv.

(** [chat_call_bounded]: the timeout wins over an answer that takes longer.  Without a
    timeout every answer is waited for. *)
Definition chat_call_bounded (call_timeout : N) (rq : Request) : CallM (result LlmResponse str) := λ c,
  let n := made c in
  if (call_timeout =? 0%N) || (le_took env n <=? call_timeout * 1000)%N
  then (sent rq (le_took env n) c, Some (le_chat env n rq))
  else (sent rq (call_timeout * 1000) c, Some (Err (timeout_text call_timeout))).

(** The ladder: the same request with a higher limit as long as the answer is burned. *)
Fixpoint ladder (fuel : nat) (call_timeout ceiling : N) (rq : Request) (current : option N) (attempt : nat)
    : CallM (result LlmResponse str) := λ c,
  match fuel with
  | O => (c, None)
  | S fuel =>
      match chat_call_bounded call_timeout (with_options rq (capped_options current <$> rq_options rq)) c with
      | (c, Some (Ok r)) =>
          match current with
          | Some cur =>
              if burned r && negb (le_engaged env (made c)) && (next_rung cur <=? ceiling)%N
              then ladder fuel call_timeout ceiling rq (Some (next_rung cur)) (S attempt)
                     (note_escalated_floor (rq_model rq) (next_rung cur) c)
              else (c, Some (Ok (if (0 <? attempt)%nat then with_escalated r current else r)))
          | None => (c, Some (Ok r))
          end
      | (c, r) => (c, r)
      end
  end.

Definition escalating (fuel : nat) (call_timeout : N) (rq : Request) : CallM (result LlmResponse str) := λ c,
  let options := start_options (escalated_floor_for_model (rq_model rq) c) <$> rq_options rq in
  ladder fuel call_timeout (le_ceiling env (made c)) (with_options rq options)
    (options ≫= co_max_tokens) 0 c.

Definition chat_call_escalating : N → Request → CallM (result LlmResponse str) := escalating LADDER_FUEL.

Definition current_timeout (c : Calls) : N := le_call_timeout env (made c).

(** The same under [select!] with the cancellation and the emergency stop: an arm wins if
    the call is not back after so many requests. *)
Definition chat_call_selected (rq : Request) : CallM (Interrupt + result LlmResponse str) := λ c,
  match le_interrupt env (made c) with
  | Some (i, after) =>
      match escalating after (current_timeout c) rq c with
      | (c, Some r) => (c, Some (inr r))
      | (c, None) => (c, Some (inl i))
      end
  | None =>
      match chat_call_escalating (current_timeout c) rq c with
      | (c, Some r) => (c, Some (inr r))
      | (c, None) => (c, None)
      end
  end.

(** ** Compression (force_compression of loop/compact.rs) *)

(** Whether a summary was tried: the verbatim tail shrinks to the last two turns, or to
    none; the summary advances only if there is one. *)
Definition force_compression (c : Calls) : Calls * bool :=
  let i := ca_instance c in
  let h := cv_history i in
  let current_c := Nat.min (default 0%nat (snd <$> cv_summary i)) (length h) in
  let existing := default [] (fst <$> cv_summary i) in
  let raw_c := if (SMALL_K_FORCE <? length h - current_c)%nat then (length h - SMALL_K_FORCE)%nat else length h in
  let new_c := tool_safe_boundary h raw_c in
  if (new_c <=? current_c)%nat || (new_c =? 0)%nat then (c, false)
  else match le_summarize env (made c) (take new_c h) existing with
       | Some summary => (with_instance (mkConversation h (Some (summary, new_c))) c, true)
       | None => (c, true)
       end.

(** ** The rings *)

(** What all calls of a turn share. *)
Record TurnCall := mkTurnCall {
  cl_model : str;
  cl_options : ChatOptions;
  cl_session_key : str;
  cl_channel : str;
  cl_correlation_id : option str;
  cl_turns_used : nat;
  cl_voice_playback : bool;
  cl_had_images : bool;
}.

Variable tc : TurnCall.

Definition request (messages : list LlmMessage) (tools : list str) : Request :=
  mkRequest (cl_model tc) messages (Some (cl_options tc)) tools.

Definition rebuilt (c : Calls) : list LlmMessage := le_build_messages env (ca_instance c).

Definition add_assistant (text : str) (c : Calls) : Calls :=
  with_instance
    (with_history (ca_instance c)
       (add_assistant_message text [] None (le_stamp env (ca_clock c)) (cv_history (ca_instance c)))) c.

(** The end of every call that failed: observer, history, the text for the user. *)
Definition failed (raw shown : str) : CallM (result LlmResponse AgentEvent) :=
  doing (observed (ObsError (S (cl_turns_used tc)) (lit "Error: " ++ raw)));;
  doing (add_assistant (lit "Error: " ++ raw));;
  back (Err (AError (format_rpc_message (cl_channel tc) (cl_correlation_id tc)
                       (append_vision_fallback_hint (lit "Error: " ++ shown) (cl_had_images tc))))).

Definition finish_llm_error_no_retry (err hint : str) : CallM (result LlmResponse AgentEvent) :=
  failed err (hint ++ ulit "（原始错误：" ++ err ++ ulit "）").

Fixpoint context_tries (more : nat) (retry_err : str) : CallM (result LlmResponse str) :=
  match more with
  | O => back (Err retry_err)
  | S more =>
      doing (λ c, fst (force_compression c));;
      messages <- reading rebuilt;
      call_timeout <- reading current_timeout;
      r <- chat_call_escalating call_timeout
             (request (if cl_voice_playback tc then voice_last messages else messages) (le_tool_defs env));
      match r with
      | Ok resp => back (Ok resp)
      | Err e => context_tries more e
      end
  end.

Definition retry_after_context_error (err : str) : CallM (result LlmResponse AgentEvent) :=
  r <- context_tries MAX_CONTEXT_RETRIES err;
  match r with
  | Ok resp => back (Ok resp)
  | Err retry_err => failed retry_err retry_err
  end.

Definition progress_text (label : str) (retries max_retries : nat) (wait : N) : str :=
  ulit "⏳ " ++ label ++ ulit "（" ++ le_display_model env ++ ulit "），第 " ++ show_nat retries ++ lit "/"
  ++ show_nat max_retries ++ ulit " 次重试，等待 " ++ lit (pretty wait) ++ ulit " 秒…".

Definition announce (retries max_retries : nat) (err : str) (c : Calls) : Calls :=
  let wait := rate_limit_wait_secs err retries in
  let label := rate_limit_display_label err in
  with_status (<[cl_session_key tc := mkRateStatus retries max_retries wait (le_display_model env) label]> (ca_status c))
    (told_user (progress_text label retries max_retries wait) c).

Definition over_budget (started : N) (c : Calls) : bool :=
  (0 <? le_rate_limit_budget_secs env)%N && (le_rate_limit_budget_secs env * 1000 <=? ca_clock c - started)%N.

(** How a loop over the retries ended: with an answer, at the budget, or at their number. *)
Inductive RateEnd := Answered (r : LlmResponse) | BudgetExhausted (retries : nat) (err : str) | RetriesExhausted (retries : nat) (err : str).

Fixpoint rate_limit_tries (more retries max_retries : nat) (call_timeout started : N) (err : str) : CallM RateEnd := λ c,
  match more with
  | O => (c, Some (RetriesExhausted retries err))
  | S more =>
      if over_budget started c then (c, Some (BudgetExhausted retries err))
      else
        (doing (announce (S retries) max_retries err);;
         doing (slept (rate_limit_wait_secs err (S retries) * 1000));;
         messages <- reading rebuilt;
         r <- chat_call_escalating call_timeout (request messages (le_tool_defs env));
         match r with
         | Ok resp => back (Answered resp)
         | Err e => rate_limit_tries more (S retries) max_retries call_timeout started e
         end) c
  end.

Definition budget_text (label : str) (retries : nat) : str :=
  label ++ ulit "，重试总时长超过 " ++ lit (pretty (le_rate_limit_budget_secs env)) ++ ulit " 秒预算（已重试 "
  ++ show_nat retries ++ ulit " 次），停止重试".

Definition retries_text (label : str) (retries : nat) (err : str) : str :=
  label ++ ulit "，已重试 " ++ show_nat retries ++ ulit " 次：" ++ err.

Definition clear_status (c : Calls) : Calls := with_status (delete (cl_session_key tc) (ca_status c)) c.

(** [i64::max(0) as u32]. *)
Definition max_rate_retries : nat := Z.to_nat (Z.max 0 (le_rate_limit_retries env) mod 2 ^ 32).

Definition retry_rate_limited (err : str) : CallM (result LlmResponse str) :=
  call_timeout <- reading current_timeout;
  started <- reading ca_clock;
  e <- rate_limit_tries max_rate_retries 0 max_rate_retries call_timeout started err;
  doing clear_status;;
  match e with
  | Answered resp => back (Ok resp)
  | BudgetExhausted retries e => back (Err (budget_text (rate_limit_display_label e) retries))
  | RetriesExhausted retries e => back (Err (retries_text (rate_limit_display_label e) retries e))
  end.

(** Failures within a second are retried at once, others after one, two, four seconds. *)
Fixpoint transient_tries (more retries : nat) (call_timeout : N) (backoff_eligible : bool) (last_err : str) : CallM (result LlmResponse str) :=
  match more with
  | O => back (Err last_err)
  | S more =>
      doing (if backoff_eligible then slept (2 ^ N.of_nat (Nat.min retries 2) * 1000) else id);;
      messages <- reading rebuilt;
      attempt_start <- reading ca_clock;
      r <- chat_call_escalating call_timeout (request messages (le_tool_defs env));
      match r with
      | Ok resp => back (Ok resp)
      | Err e =>
          now <- reading ca_clock;
          transient_tries more (S retries) call_timeout (1000 <=? now - attempt_start)%N e
      end
  end.

Definition retry_transient (first_call_failed_after : N) (err : str) : CallM (result LlmResponse str) :=
  call_timeout <- reading current_timeout;
  transient_tries MAX_TRANSIENT_RETRIES 0 call_timeout (1000 <=? first_call_failed_after)%N err.

(** ** The hooks behind a call *)

Definition hook_llm_call : HookLlmCall := mkHookLlmCall (cl_model tc) (cl_session_key tc) (S (cl_turns_used tc)).

Definition hook_blocked_text (reason tail : str) : str :=
  ulit "⛔ HOOK BLOCKED [layer:hook|policy:llm_hook] " ++ reason ++ tail.

Definition post_block_text (reason : str) : str :=
  hook_blocked_text reason (ulit " — A registered LLM hook terminated this round. Inform the user.").

Definition cancelled_text : str := ulit "已取消".
Definition call_stopped_text : str := ulit "⛔ 已急停 (E-STOP) — LLM 调用已中断。发送 `nemesisbot estop --release` 恢复。".

Definition interrupt_text (i : Interrupt) : str :=
  match i with
  | Cancelled => cancelled_text
  | Stopped => call_stopped_text
  end.

Definition feedback_message (reason : str) : LlmMessage :=
  mkMessage r_system (lit "# Hook feedback: " ++ reason) None None None [].

(** With no more retries, or when the new call fails, the answer that the hooks wanted
    replaced goes through. *)
Fixpoint post_hooks_loop (more : nat) (response : LlmResponse) : CallM (result LlmResponse AgentEvent) := λ c,
  match run_llm_post_hooks (made c) (le_hooks env) hook_llm_call response with
  | OutcomeAllow final_resp => (c, Some (Ok final_resp))
  | OutcomeBlock reason => (c, Some (Err (ADone (post_block_text reason))))
  | OutcomeRetry reason =>
      match more with
      | O => (c, Some (Ok response))
      | S more =>
          (messages <- reading rebuilt;
           doing (observed (ObsRequest (S (cl_turns_used tc))));;
           r <- chat_call_selected (request (messages ++ [feedback_message reason]) (le_effective_tool_defs env));
           match r with
           | inl i => back (Err (ADone (interrupt_text i)))
           | inr (Ok resp) => post_hooks_loop more resp
           | inr (Err _) => back (Ok response)
           end) c
      end
  end.

Definition run_llm_post_hooks_guarded (response : LlmResponse) : CallM (result LlmResponse AgentEvent) :=
  match le_hooks env with
  | [] => back (Ok response)
  | _ => post_hooks_loop MAX_LLM_HOOK_RETRIES response
  end.

(** ** The whole call *)

Definition recovered (r : result LlmResponse str) : CallM (result LlmResponse AgentEvent) :=
  match r with
  | Ok resp => back (Ok resp)
  | Err last_err => failed last_err last_err
  end.

Definition recover (failed_after : N) (err : str) : CallM (result LlmResponse AgentEvent) :=
  match recovery_ring err with
  | NoRetry hint => finish_llm_error_no_retry err hint
  | ContextRing => retry_after_context_error err
  | RateLimitRing => r <- retry_rate_limited err; recovered r
  | TransientRing => r <- retry_transient failed_after err; recovered r
  | NoRing => failed err err
  end.

Definition call_llm_with_recovery (messages : list LlmMessage) (tool_defs : list str) : CallM (result LlmResponse AgentEvent) :=
  first_call_start <- reading ca_clock;
  chat_result <- chat_call_selected (request messages tool_defs);
  match chat_result with
  | inl i => back (Err (ADone (interrupt_text i)))
  | inr chat_result =>
      response <- match chat_result with
                  | Ok resp => back (Ok resp)
                  | Err err => now <- reading ca_clock; recover (now - first_call_start)%N err
                  end;
      match response with
      | Ok response => run_llm_post_hooks_guarded response
      | Err ev => back (Err ev)
      end
  end.

End Call.

(** ** What a call costs *)

(** It comes back, after at most so many requests. *)
Definition costs {A} (n : nat) (m : CallM A) : Prop := ∀ c, (made (fst (m c)) ≤ made c + n)%nat ∧ is_Some (snd (m c)).

Lemma costs_back {A} n (x : A) : costs n (back x).
Proof. intros c. split; [simpl; lia|by eexists]. Qed.

Lemma costs_weaken {A} n n' (m : CallM A) : costs n m → (n ≤ n')%nat → costs n' m.
Proof. intros Hm Hle c. destruct (Hm c) as [? ?]. split; [lia|done]. Qed.

Lemma costs_bind {A B} n k (m : CallM A) (f : A → CallM B) : costs n m → (∀ x, costs k (f x)) → costs (n + k) (call_bind m f).
Proof.
  intros Hm Hf c. unfold call_bind. destruct (Hm c) as [Hn [x Hx]]. destruct (m c) as [c1 o]. simpl in *. subst o.
  destruct (Hf x c1) as [Hk Hs]. split; [lia|done].
Qed.

(** A step without a request in front. *)
Lemma costs_free {A B} k (m : CallM A) (f : A → CallM B) : costs 0 m → (∀ x, costs k (f x)) → costs k (call_bind m f).
Proof. apply (costs_bind 0 k). Qed.

(** One behind. *)
Lemma costs_last {A B} n (m : CallM A) (f : A → CallM B) : costs n m → (∀ x, costs 0 (f x)) → costs n (call_bind m f).
Proof. rewrite <-(Nat.add_0_r n) at 2. apply costs_bind. Qed.

Lemma costs_reading {A} (f : Calls → A) : costs 0 (reading f).
Proof. intros c. split; [simpl; lia|by eexists]. Qed.

Lemma costs_doing f : (∀ c, made (f c) = made c) → costs 0 (doing f).
Proof. intros Hf c. split; [simpl; rewrite Hf; lia|by eexists]. Qed.

Lemma compression_free env c : made (fst (force_compression env c)) = made c.
Proof. unfold force_compression. by repeat case_match. Qed.

#[local] Hint Resolve costs_back costs_reading : core.
#[local] Hint Extern 1 (costs 0 (doing _)) => apply costs_doing; intros; try done; repeat case_match; done : core.

Lemma next_rung_double cur : (cur < 2 ^ 63)%N → (ESCALATION_FLOOR ≤ cur)%N → next_rung cur = (cur * 2)%N.
Proof. intros Hc Hf. unfold next_rung, wrap64, ESCALATION_FLOOR in *. rewrite N.mod_small by lia. lia. Qed.

Section Costs.
Context {UC : Unicode} `{RegexCaptures}.
Variable env : LlmEnv.

Lemma bounded_costs t rq : costs 1 (chat_call_bounded env t rq).
Proof. intros c. unfold chat_call_bounded, made. case_match; simpl; rewrite length_app; simpl; split; try lia; by eexists. Qed.

(** Above the floor the limits double. *)
Lemma ladder_climbs k : ∀ fuel t ceiling rq cur attempt, (ceiling < 2 ^ 63)%N → (cur < 2 ^ 63)%N → (ESCALATION_FLOOR ≤ cur)%N →
  (ceiling < cur * 2 ^ N.of_nat (S k))%N → (S k ≤ fuel)%nat →
  costs (S k) (ladder env fuel t ceiling rq (Some cur) attempt).
Proof.
  induction k as [|k IH]; intros fuel t ceiling rq cur attempt Hceil Hcur Hfloor Hk Hfuel c; (destruct fuel as [|fuel]; [lia|]);
    cbn [ladder]; set (rq' := with_options _ _); destruct (bounded_costs t rq' c) as [Hb [[r|e] Hs]];
    destruct (chat_call_bounded env t rq' c) as [c1 o]; simpl in Hb, Hs; subst o; try (split; [simpl; lia|by eexists]).
  - rewrite (next_rung_double cur) by done. replace (cur * 2 <=? ceiling)%N with false by (symmetry; apply N.leb_gt; lia).
    rewrite andb_false_r. split; [simpl; lia|by eexists].
  - case_match eqn:E; [|split; [simpl; lia|by eexists]]. apply andb_true_iff in E as [_ E%N.leb_le].
    rewrite (next_rung_double cur) in * by done.
    destruct (IH fuel t ceiling rq (cur * 2)%N (S attempt) Hceil) with (c := note_escalated_floor (rq_model rq) (cur * 2) c1) as [Hn Hs'].
    + lia.
    + unfold ESCALATION_FLOOR in *. lia.
    + rewrite Nat2N.inj_succ, N.pow_succ_r' in Hk. lia.
    + lia.
    + split; [|done]. replace (made (note_escalated_floor _ _ c1)) with (made c1) in Hn by done. lia.
Qed.

(** The attempts of one ladder under a ceiling. *)
Definition rungs (ceiling : N) : nat := 2 + N.to_nat (N.log2 (ceiling / ESCALATION_FLOOR)).

Lemma rungs_enough ceiling : (ceiling < ESCALATION_FLOOR * 2 ^ N.of_nat (rungs ceiling - 1))%N.
Proof.
  unfold rungs. replace (2 + _ - 1)%nat with (S (N.to_nat (N.log2 (ceiling / ESCALATION_FLOOR)))) by lia.
  rewrite Nat2N.inj_succ, N2Nat.id. set (q := (ceiling / ESCALATION_FLOOR)%N).
  assert (q < 2 ^ N.succ (N.log2 q))%N. { destruct (decide (q = 0)%N) as [->|Hq]; [done|]. apply N.log2_spec. lia. }
  pose proof (N.Div0.div_mod ceiling ESCALATION_FLOOR). pose proof (N.mod_lt ceiling ESCALATION_FLOOR ltac:(done)).
  fold q in H1. unfold ESCALATION_FLOOR in *. nia.
Qed.

Lemma rungs_fuel ceiling : (ceiling < 2 ^ 63)%N → (rungs ceiling ≤ LADDER_FUEL)%nat.
Proof.
  intros Hc. unfold rungs, LADDER_FUEL. assert (N.log2 (ceiling / ESCALATION_FLOOR) ≤ 62)%N as Hl.
  2: { revert Hl. generalize (N.log2 (ceiling / ESCALATION_FLOOR)). clear. intros n Hn. lia. }
  apply N.lt_succ_r. destruct (decide (ceiling / ESCALATION_FLOOR = 0)%N) as [->|Hz]; [done|].
  apply N.log2_lt_pow2; [by apply N.neq_0_lt_0|]. apply N.Div0.div_lt_upper_bound. unfold ESCALATION_FLOOR. lia.
Qed.

Lemma ladder_costs t ceiling rq cur attempt fuel : (ceiling < 2 ^ 63)%N → (cur < 2 ^ 63)%N → (rungs ceiling ≤ fuel)%nat →
  costs (rungs ceiling) (ladder env fuel t ceiling rq (Some cur) attempt).
Proof.
  intros Hceil Hcur Hfuel c. pose proof (rungs_enough ceiling) as Hr.
  assert (2 ≤ rungs ceiling)%nat as H2 by (unfold rungs; lia). set (k := rungs ceiling) in *. clearbody k.
  destruct fuel as [|fuel]; [lia|]. cbn [ladder].
  set (rq' := with_options _ _); destruct (bounded_costs t rq' c) as [Hb [[r|e] Hs]];
    destruct (chat_call_bounded env t rq' c) as [c1 o]; simpl in Hb, Hs; subst o; try (split; [simpl; lia|by eexists]).
  case_match eqn:E; [|split; [simpl; lia|by eexists]]. apply andb_true_iff in E as [_ E%N.leb_le].
  assert (ESCALATION_FLOOR ≤ next_rung cur)%N as Hf by (unfold next_rung; lia).
  destruct (ladder_climbs (k - 2) fuel t ceiling rq (next_rung cur) (S attempt) Hceil ltac:(lia) Hf) with
    (c := note_escalated_floor (rq_model rq) (next_rung cur) c1) as [Hn Hs'].
  - replace (N.of_nat (S (k - 2))) with (N.of_nat (k - 1)) by lia.
    eapply N.lt_le_trans; [exact Hr|]. by apply N.mul_le_mono_r.
  - lia.
  - split; [|done]. replace (made (note_escalated_floor _ _ c1)) with (made c1) in Hn by done. lia.
Qed.

(** The ceiling is bounded for the whole call, and the options hold 32-bit limits. *)
Variable C : N.
Hypothesis ceilings : ∀ n, (le_ceiling env n ≤ C)%N.
Hypothesis below : (C < 2 ^ 63)%N.

Definition u32_options (o : option ChatOptions) : Prop := ∀ t, o ≫= co_max_tokens = Some t → (t < 2 ^ 32)%N.

Lemma rungs_mono a b : (a ≤ b)%N → (rungs a ≤ rungs b)%nat.
Proof.
  intros Hab. unfold rungs.
  assert (N.log2 (a / ESCALATION_FLOOR) ≤ N.log2 (b / ESCALATION_FLOOR))%N as Hl
    by (apply N.log2_le_mono, N.Div0.div_le_mono; done).
  revert Hl. generalize (N.log2 (a / ESCALATION_FLOOR)) (N.log2 (b / ESCALATION_FLOOR)). clear. lia.
Qed.

Lemma started_u32 learned o : u32_options (Some o) → u32_options (Some (start_options learned o)).
Proof.
  intros Ho t. unfold start_options. case_match; [|apply Ho]. simpl. intros [= <-]. by apply N.mod_lt.
Qed.

Lemma escalating_costs t rq : u32_options (rq_options rq) → costs (rungs C) (chat_call_escalating env t rq).
Proof.
  intros Ho c. unfold chat_call_escalating, escalating. set (ceiling := le_ceiling env (made c)).
  assert (ceiling ≤ C)%N as Hc by apply ceilings. pose proof (rungs_mono _ _ Hc).
  destruct (_ ≫= co_max_tokens) as [cur|] eqn:E.
  - eapply costs_weaken; [apply ladder_costs|done]; [lia| |apply rungs_fuel; lia].
    assert (cur < 2 ^ 32)%N; [|lia].
    destruct (rq_options rq) as [o|]; [|done]. by apply (started_u32 (escalated_floor_for_model (rq_model rq) c) _ Ho).
  - unfold LADDER_FUEL. cbn [ladder]. set (rq' := with_options _ _). assert (1 ≤ rungs C)%nat by (unfold rungs; lia).
    destruct (bounded_costs t rq' c) as [Hb [[r|e] Hs]];
      destruct (chat_call_bounded env t rq' c) as [c1 o]; simpl in Hb, Hs; subst o; (split; [simpl; lia|by eexists]).
Qed.

(** More fuel gives more requests, and nothing else once the ladder has ended. *)
Lemma ladder_mono fuel : ∀ fuel' t ceiling rq cur attempt c, (fuel ≤ fuel')%nat →
  (made c ≤ made (fst (ladder env fuel t ceiling rq cur attempt c)))%nat ∧
  (made (fst (ladder env fuel t ceiling rq cur attempt c)) ≤ made (fst (ladder env fuel' t ceiling rq cur attempt c)))%nat ∧
  ∀ r, snd (ladder env fuel t ceiling rq cur attempt c) = Some r →
    ladder env fuel' t ceiling rq cur attempt c = ladder env fuel t ceiling rq cur attempt c.
Proof.
  assert (∀ t rq c, made c ≤ made (fst (chat_call_bounded env t rq c)))%nat as Hup.
  { intros t rq c. unfold chat_call_bounded, made. case_match; simpl; rewrite length_app; lia. }
  induction fuel as [|fuel IH]; intros fuel' t ceiling rq cur attempt c Hle.
  - simpl. split; [done|]. split; [|done]. revert t ceiling rq cur attempt c Hle. induction fuel' as [|f IHf]; intros; [done|].
    cbn [ladder]. set (rq' := with_options _ _). specialize (Hup t rq' c).
    destruct (chat_call_bounded env t rq' c) as [c1 [[r|e]|]]; simpl in Hup; try done.
    destruct cur as [cur|]; [|done]. case_match; [|done]. etrans; [exact Hup|]. by apply (IHf t ceiling rq _ _ (note_escalated_floor _ _ c1)); lia.
  - destruct fuel' as [|fuel']; [lia|]. cbn [ladder]. set (rq' := with_options _ _). specialize (Hup t rq' c).
    destruct (chat_call_bounded env t rq' c) as [c1 [[r|e]|]]; simpl in Hup; try done.
    destruct cur as [cur|]; [|done]. case_match; [|done].
    destruct (IH fuel' t ceiling rq (Some (next_rung cur)) (S attempt) (note_escalated_floor (rq_model rq) (next_rung cur) c1)) as (H1' & H2' & H3');
      [lia|]. split; [|done]. etrans; [exact Hup|]. exact H1'.
Qed.

Lemma escalating_mono fuel fuel' t rq c : (fuel ≤ fuel')%nat →
  (made (fst (escalating env fuel t rq c)) ≤ made (fst (escalating env fuel' t rq c)))%nat ∧
  ∀ r, snd (escalating env fuel t rq c) = Some r → escalating env fuel' t rq c = escalating env fuel t rq c.
Proof. intros Hle. unfold escalating. by apply ladder_mono. Qed.

Lemma escalating_cut fuel t rq c : u32_options (rq_options rq) →
  (made (fst (escalating env fuel t rq c)) ≤ made c + rungs C)%nat.
Proof.
  intros Ho. destruct (escalating_costs t rq Ho c) as [Hb [r Hr]]. unfold chat_call_escalating in Hb, Hr.
  destruct (decide (LADDER_FUEL ≤ fuel)%nat) as [Hle|Hle].
  - by rewrite (proj2 (escalating_mono _ _ t rq c Hle) r).
  - etrans; [|exact Hb]. apply escalating_mono. lia.
Qed.

Lemma selected_costs rq : u32_options (rq_options rq) → costs (rungs C) (chat_call_selected env rq).
Proof.
  intros Ho c. unfold chat_call_selected. destruct (le_interrupt env (made c)) as [[i after]|].
  - pose proof (escalating_cut after (current_timeout env c) rq c Ho).
    destruct (escalating _ _ _ _ _) as [c1 [r|]]; (split; [done|by eexists]).
  - destruct (escalating_costs (current_timeout env c) rq Ho c) as [Hb [r Hr]].
    destruct (chat_call_escalating _ _ _ _) as [c1 o]. simpl in *. subst o. split; [done|by eexists].
Qed.

Variable tc : TurnCall.
Hypothesis options_u32 : u32_options (Some (cl_options tc)).

Lemma failed_costs raw shown : costs 0 (failed env tc raw shown).
Proof. unfold failed. apply costs_free; [auto|]. intros _. apply costs_free; [auto|]. auto. Qed.

Lemma context_costs more : ∀ err, costs (more * rungs C) (context_tries env tc more err).
Proof.
  induction more as [|more IH]; intros err; [apply costs_back|]. cbn [context_tries]. apply costs_free.
  { apply costs_doing, compression_free. }
  intros _. apply costs_free; [auto|]. intros ms. apply costs_free; [auto|]. intros t.
  apply costs_bind; [by apply escalating_costs|]. intros [resp|e]; [apply costs_back|apply IH].
Qed.

Lemma rate_limit_costs more : ∀ retries max t started err, costs (more * rungs C) (rate_limit_tries env tc more retries max t started err).
Proof.
  induction more as [|more IH]; intros retries max t started err c; [apply costs_back|]. cbn [rate_limit_tries].
  destruct (over_budget _ _ _); [apply costs_back|]. revert c. apply costs_free; [auto|]. intros _. apply costs_free; [auto|].
  intros _. apply costs_free; [auto|]. intros ms.
  apply costs_bind; [by apply escalating_costs|]. intros [resp|e]; [apply costs_back|apply IH].
Qed.

Lemma transient_costs more : ∀ retries t eligible err, costs (more * rungs C) (transient_tries env tc more retries t eligible err).
Proof.
  induction more as [|more IH]; intros retries t eligible err; [apply costs_back|]. cbn [transient_tries]. apply costs_free; [auto|].
  intros _. apply costs_free; [auto|]. intros ms. apply costs_free; [auto|]. intros start.
  apply costs_bind; [by apply escalating_costs|]. intros [resp|e]; [apply costs_back|]. apply costs_free; [auto|]. intros now. apply IH.
Qed.

Lemma post_hooks_costs more : ∀ r, costs (more * rungs C) (post_hooks_loop env tc more r).
Proof.
  induction more as [|more IH]; intros r c; cbn [post_hooks_loop]; destruct (run_llm_post_hooks _ _ _ _); try apply costs_back.
  revert c. apply costs_free; [auto|]. intros ms. apply costs_free; [auto|]. intros _.
  apply costs_bind; [by apply selected_costs|]. intros [i|[resp|e]]; try apply costs_back. apply IH.
Qed.

(** The calls that a ring makes at most. *)
Definition ring_calls (r : Ring) : nat :=
  match r with
  | ContextRing => MAX_CONTEXT_RETRIES
  | RateLimitRing => max_rate_retries env
  | TransientRing => MAX_TRANSIENT_RETRIES
  | NoRetry _ | NoRing => 0
  end.

Lemma recover_costs after err : costs (ring_calls (recovery_ring err) * rungs C) (recover env tc after err).
Proof.
  unfold recover. destruct (recovery_ring err); cbn [ring_calls]; try apply failed_costs.
  - unfold retry_after_context_error. apply costs_last; [apply context_costs|].
    intros [resp|e]; [apply costs_back|apply failed_costs].
  - unfold retry_rate_limited. apply costs_last.
    + apply costs_free; [auto|]. intros t. apply costs_free; [auto|]. intros started. apply costs_last; [apply rate_limit_costs|]. intros e. apply costs_free; [auto|]. intros _. destruct e; apply costs_back.
    + intros [resp|e]; [apply costs_back|apply failed_costs].
  - unfold retry_transient. apply costs_last.
    + apply costs_free; [auto|]. intros t. apply transient_costs.
    + intros [resp|e]; [apply costs_back|apply failed_costs].
Qed.

(** The calls of a round: the first, the retries of its ring, the repetitions the hooks ask for. *)
Definition calls_bound : nat := 1 + Nat.max (max_rate_retries env) MAX_TRANSIENT_RETRIES + MAX_LLM_HOOK_RETRIES.

End Costs.

Lemma model_comes_back {UC : Unicode} `{RegexCaptures} env C tc messages tools :
  (∀ n, (le_ceiling env n ≤ C)%N) → (C < 2 ^ 63)%N → u32_options (Some (cl_options tc)) →
  costs (calls_bound env * rungs C) (call_llm_with_recovery env tc messages tools).
Proof.
  intros Hc Hb Ho. apply (costs_weaken ((1 + (Nat.max (max_rate_retries env) MAX_TRANSIENT_RETRIES + MAX_LLM_HOOK_RETRIES)) * rungs C));
    [|unfold calls_bound; lia].
  unfold call_llm_with_recovery. apply costs_free; [auto|]. intros start. rewrite Nat.mul_add_distr_r, Nat.mul_1_l.
  apply costs_bind; [by apply selected_costs|]. intros [i|r]; [apply costs_back|]. rewrite Nat.mul_add_distr_r.
  apply costs_bind.
  - destruct r as [resp|err]; [apply costs_back|]. apply costs_free; [auto|]. intros now.
    eapply costs_weaken; [by apply recover_costs|]. apply Nat.mul_le_mono_r. unfold ring_calls.
    destruct (recovery_ring err); unfold MAX_CONTEXT_RETRIES, MAX_TRANSIENT_RETRIES; lia.
  - intros [resp|ev]; [|apply costs_back]. unfold run_llm_post_hooks_guarded. case_match; [apply costs_back|].
    by apply post_hooks_costs.
Qed.

(** C18: a call to the model comes back, with an answer or the event that ends the turn,
    whatever the provider, the hooks and the interruptions do: after at most one first call,
    the retries of one ring and two repetitions for the hooks, each of as many requests as
    there are rungs under the ceiling. *)
Theorem call_comes_back {UC : Unicode} `{RegexCaptures} env C tc messages tools :
  (∀ n, (le_ceiling env n ≤ C)%N) → (C < 2 ^ 63)%N → u32_options (Some (cl_options tc)) →
  costs (calls_bound env * rungs C) (call_llm_with_recovery env tc messages tools).
Proof. apply model_comes_back. Qed.

(** ** The ladder *)

Definition rung (start : N) (k : nat) : N := Nat.iter k next_rung start.

Definition at_rung (rq : Request) (cur : N) : Request := with_options rq (capped_options (Some cur) <$> rq_options rq).

(** What becomes of the request sent after so many others. *)
Definition answered (env : LlmEnv) (call_timeout : N) (n : nat) (rq : Request) : result LlmResponse str :=
  if (call_timeout =? 0%N) || (le_took env n <=? call_timeout * 1000)%N then le_chat env n rq
  else Err (timeout_text call_timeout).

Lemma bounded_answer env t rq c : ∃ ms, chat_call_bounded env t rq c = (sent rq ms c, Some (answered env t (made c) rq)).
Proof. unfold chat_call_bounded, answered. case_match; by eexists. Qed.

(** The answer of a rung is worth another try one rung up. *)
Definition climbs (env : LlmEnv) (ceiling : N) (n : nat) (a : LlmResponse) (next : N) : Prop :=
  burned a = true ∧ le_engaged env n = false ∧ (next ≤ ceiling)%N.

Lemma climbs_iff env ceiling n a next :
  burned a && negb (le_engaged env n) && (next <=? ceiling)%N = true ↔ climbs env ceiling n a next.
Proof. unfold climbs. rewrite !andb_true_iff, negb_true_iff, N.leb_le. tauto. Qed.

Definition outcome_at (env : LlmEnv) (t ceiling : N) (n : nat) (rq : Request) (cur next : N) (again : bool)
    (r : result LlmResponse str) : Prop :=
  match answered env t n (at_rung rq cur) with
  | Ok a => r = Ok (if again then with_escalated a (Some cur) else a) ∧ ¬ climbs env ceiling (S n) a next
  | Err e => r = Err e
  end.

Lemma sent_made rq ms c : made (sent rq ms c) = S (made c).
Proof. unfold made. simpl. rewrite length_app. simpl. lia. Qed.

Lemma note_floor model model' v c :
  escalated_floor_for_model model' (note_escalated_floor model v c)
  = if model =? model' then N.max v (escalated_floor_for_model model c) else escalated_floor_for_model model' c.
Proof.
  unfold note_escalated_floor. unfold escalated_floor_for_model at 1. cbn [ca_floors with_floors].
  case_bool_decide as E; [subst; rewrite lookup_insert_eq|by rewrite lookup_insert_ne]. simpl.
  destruct (_ <? _)%N eqn:Hv; [apply N.ltb_lt in Hv|apply N.ltb_ge in Hv]; lia.
Qed.

Lemma rung_shift start k : rung (next_rung start) k = rung start (S k).
Proof. unfold rung. by rewrite Nat.iter_succ_r. Qed.

Lemma rungs_shift start i n : (rung (next_rung start) <$> seq i n) = (rung start <$> seq (S i) n).
Proof. rewrite <-seq_shift, <-list_fmap_compose. apply list_fmap_ext. intros _ j _. simpl. by rewrite rung_shift. Qed.

Lemma ladder_spec env t ceiling rq fuel : ∀ start attempt c c' r,
  ladder env fuel t ceiling rq (Some start) attempt c = (c', Some r) → ∃ k,
  ca_made c' = ca_made c ++ (at_rung rq ∘ rung start <$> seq 0 (S k)) ∧
  (∀ j, (j < k)%nat → ∃ a, answered env t (made c + j) (at_rung rq (rung start j)) = Ok a ∧
     climbs env ceiling (S (made c + j)) a (rung start (S j))) ∧
  outcome_at env t ceiling (made c + k) rq (rung start k) (rung start (S k)) (0 <? attempt + k)%nat r ∧
  (∀ model, escalated_floor_for_model model c'
            = if rq_model rq =? model then foldl N.max (escalated_floor_for_model model c) (rung start <$> seq 1 k)
              else escalated_floor_for_model model c).
Proof.
  induction fuel as [|fuel IH]; intros start attempt c c' r; [done|]. cbn [ladder]. fold (at_rung rq start).
  destruct (bounded_answer env t (at_rung rq start) c) as [ms ->].
  assert (∀ c1, c1 = sent (at_rung rq start) ms c → ca_made c1 = ca_made c ++ (at_rung rq ∘ rung start <$> seq 0 1)) as Hone
    by (intros ? ->; done).
  destruct (answered env t (made c) (at_rung rq start)) as [a|e] eqn:Ea.
  2: { intros [= <- <-]. exists 0%nat. rewrite Nat.add_0_r. split_and!; [by apply Hone|lia|unfold outcome_at, rung; simpl; by rewrite Ea|].
       intros model. simpl. by case_bool_decide. }
  rewrite sent_made. destruct (_ && _) eqn:Eb.
  - apply climbs_iff in Eb. intros (k & Hm & Hup & Hout & Hfl)%IH. exists (S k).
    replace (made (note_escalated_floor _ _ _)) with (S (made c)) in * by (symmetry; apply (sent_made (at_rung rq start) ms)).
    split_and!.
    + rewrite Hm. cbn [ca_made note_escalated_floor with_floors sent]. rewrite <-app_assoc. f_equal. cbn [seq fmap list_fmap].
      simpl. f_equal. f_equal. by rewrite !(list_fmap_compose _ (at_rung rq)), rungs_shift.
    + intros [|j] Hj.
      * exists a. rewrite Nat.add_0_r. done.
      * destruct (Hup j) as (a' & Ha & Hc); [lia|]. exists a'. by rewrite <-Nat.add_succ_comm, <-(rung_shift start j), <-(rung_shift start (S j)).
    + rewrite <-Nat.add_succ_comm, <-(rung_shift start k), <-(rung_shift start (S k)). replace (attempt + S k)%nat with (S attempt + k)%nat by lia. done.
    + intros model. rewrite (Hfl model), note_floor. case_bool_decide as Em; [|done]. subst.
      rewrite rungs_shift. cbn [seq fmap list_fmap foldl]. f_equal. unfold rung. simpl. apply N.max_comm.
  - intros [= <- <-]. exists 0%nat. rewrite !Nat.add_0_r. split_and!; [by apply Hone|lia| |intros model; simpl; by case_bool_decide].
    unfold outcome_at, rung. simpl. rewrite Ea. split; [done|]. intros Hc%climbs_iff. unfold rung in Hc. simpl in Hc. congruence.
Qed.

(** Also: the ladder asks with the limit of the options, or with the floor learned for the
    model if that is more, and goes one rung up exactly as long as the answer is burned, the
    emergency stop is off and the next rung is under the ceiling; the last answer goes back,
    marked with its rung if it is not the first, and the model's floor has risen to the
    highest rung tried. *)
Theorem escalation_exact {UC : Unicode} `{RegexCaptures} env t rq o start c c' r (fl := escalated_floor_for_model (rq_model rq) c) :
  rq_options rq = Some o → co_max_tokens (start_options fl o) = Some start →
  chat_call_escalating env t rq c = (c', Some r) → ∃ k,
  let rq := with_options rq (Some (start_options fl o)) in
  ca_made c' = ca_made c ++ (at_rung rq ∘ rung start <$> seq 0 (S k)) ∧
  (∀ j, (j < k)%nat → ∃ a, answered env t (made c + j) (at_rung rq (rung start j)) = Ok a ∧
     climbs env (le_ceiling env (made c)) (S (made c + j)) a (rung start (S j))) ∧
  outcome_at env t (le_ceiling env (made c)) (made c + k) rq (rung start k) (rung start (S k)) (0 <? k)%nat r ∧
  escalated_floor_for_model (rq_model rq) c' = foldl N.max fl (rung start <$> seq 1 k).
Proof.
  intros Ho Hs. unfold chat_call_escalating, escalating. rewrite Ho. cbn [fmap option_fmap option_map mbind option_bind]. fold fl.
  rewrite Hs. intros (k & Hm & Hup & Hout & Hfl)%ladder_spec. exists k. split_and!; [done..|].
  rewrite Hfl. cbn [rq_model with_options]. by rewrite bool_decide_true.
Qed.

(** ** What a call leaves in the history *)

Definition turns_of (c : Calls) : History := cv_history (ca_instance c).

Definition keeps {A} (m : CallM A) : Prop := ∀ c, turns_of (fst (m c)) = turns_of c.

Lemma keeps_bind {A B} (m : CallM A) (f : A → CallM B) : keeps m → (∀ x, keeps (f x)) → keeps (call_bind m f).
Proof. intros Hm Hf c. unfold call_bind. specialize (Hm c). destruct (m c) as [c1 [x|]]; [|done]. by rewrite Hf. Qed.

Lemma keeps_back {A} (x : A) : keeps (back x). Proof. done. Qed.
Lemma keeps_reading {A} (f : Calls → A) : keeps (reading f). Proof. done. Qed.
Lemma keeps_doing f : (∀ c, turns_of (f c) = turns_of c) → keeps (doing f). Proof. done. Qed.

Lemma keeps_bounded env t rq : keeps (chat_call_bounded env t rq).
Proof. intros c. unfold chat_call_bounded. by case_match. Qed.

Lemma keeps_ladder env fuel : ∀ t ceiling rq cur attempt, keeps (ladder env fuel t ceiling rq cur attempt).
Proof.
  induction fuel as [|fuel IH]; intros t ceiling rq cur attempt c; [done|]. cbn [ladder]. set (rq' := with_options _ _).
  pose proof (keeps_bounded env t rq' c) as Hk. destruct (chat_call_bounded env t rq' c) as [c1 [[r|e]|]]; try done.
  destruct cur as [cur|]; [|done]. case_match; [|done]. by rewrite IH.
Qed.

Lemma keeps_escalating env fuel t rq : keeps (escalating env fuel t rq).
Proof. intros c. apply keeps_ladder. Qed.

Lemma keeps_selected env rq : keeps (chat_call_selected env rq).
Proof.
  intros c. unfold chat_call_selected, chat_call_escalating. destruct (le_interrupt env (made c)) as [[i after]|];
    (match goal with |- context [escalating env ?f ?t rq c] => pose proof (keeps_escalating env f t rq c) as Hk;
      destruct (escalating env f t rq c) as [c1 [r|]] end); done.
Qed.

Create HintDb keeping.
#[local] Hint Resolve keeps_back keeps_reading keeps_escalating keeps_selected keeps_bind : keeping.
#[local] Hint Extern 1 (keeps (chat_call_escalating _ _ _)) => apply keeps_escalating : keeping.
#[local] Hint Extern 1 (keeps (doing _)) => apply keeps_doing; intros; try done; repeat case_match; done : keeping.
#[local] Hint Extern 2 (keeps (match ?r with _ => _ end)) => destruct r : keeping.

(** Compression advances the summary, never the history. *)
Lemma keeps_compression env : keeps (doing (λ c, fst (force_compression env c))).
Proof. apply keeps_doing. intros c. unfold force_compression. by repeat case_match. Qed.

#[local] Hint Resolve keeps_compression : keeping.

Lemma keeps_context {UC : Unicode} env tc more : ∀ err, keeps (context_tries env tc more err).
Proof. induction more as [|more IH]; intros err; cbn [context_tries]; eauto 8 with keeping. Qed.

Lemma keeps_transient {UC : Unicode} env tc more : ∀ retries t eligible err, keeps (transient_tries env tc more retries t eligible err).
Proof. induction more as [|more IH]; intros retries t eligible err; cbn [transient_tries]; eauto 10 with keeping. Qed.

Lemma keeps_rate_limit {UC : Unicode} env tc more : ∀ retries max t started err,
  keeps (rate_limit_tries env tc more retries max t started err).
Proof.
  induction more as [|more IH]; intros retries max t started err c; [done|]. cbn [rate_limit_tries].
  destruct (over_budget _ _ _); [done|]. match goal with |- turns_of (fst (?m c)) = _ => assert (keeps m) as Hk end; [|apply Hk].
  eauto 10 with keeping.
Qed.

Lemma keeps_post_hooks {UC : Unicode} env tc more : ∀ r, keeps (post_hooks_loop env tc more r).
Proof.
  induction more as [|more IH]; intros r c; cbn [post_hooks_loop]; destruct (run_llm_post_hooks _ _ _ _); try done.
  match goal with |- turns_of (fst (?m c)) = _ => assert (keeps m) as Hk end; [|apply Hk].
  apply keeps_bind; [auto with keeping|]. intros ms. apply keeps_bind; [auto with keeping|]. intros _.
  apply keeps_bind; [auto with keeping|]. intros [i|[resp|e]]; auto with keeping.
Qed.

(** The history grew by the error, and the turn ends with an error, or neither. *)
Definition recorded (h h' : History) (r : option (result LlmResponse AgentEvent)) : Prop :=
  match r with
  | Some (Err (AError text)) => ∃ raw now, h' = add_assistant_message (lit "Error: " ++ raw) [] None now h
  | Some (Err (ADone _)) | Some (Ok _) | None => h' = h
  | Some (Err _) => False
  end.

Definition records (m : CallM (result LlmResponse AgentEvent)) : Prop := ∀ c, recorded (turns_of c) (turns_of (fst (m c))) (snd (m c)).

Lemma records_after {A} (m : CallM A) f : keeps m → (∀ x, records (f x)) → records (call_bind m f).
Proof.
  intros Hm Hf c. unfold call_bind. specialize (Hm c). destruct (m c) as [c1 [x|]]; [|done]. simpl in Hm. rewrite <-Hm. apply Hf.
Qed.

Lemma records_ok r : records (back (Ok r)). Proof. done. Qed.
Lemma records_done text : records (back (Err (ADone text))). Proof. done. Qed.

Section Records.
Context {UC : Unicode} `{RegexCaptures}.
Variable env : LlmEnv.
Variable tc : TurnCall.

Lemma records_failed raw shown : records (failed env tc raw shown).
Proof. intros c. cbn. by eexists _, _. Qed.

#[local] Hint Resolve records_ok records_done records_failed : keeping.

Lemma records_recovered r : records (recovered env tc r).
Proof. destruct r; unfold recovered; auto with keeping. Qed.

Lemma records_recover after err : records (recover env tc after err).
Proof.
  unfold recover. destruct (recovery_ring err); unfold finish_llm_error_no_retry; auto with keeping.
  - apply records_after; [apply keeps_context|]. intros [r|e]; auto with keeping.
  - apply records_after; [|intros; apply records_recovered]. unfold retry_rate_limited.
    apply keeps_bind; [auto with keeping|]. intros t. apply keeps_bind; [auto with keeping|]. intros start.
    apply keeps_bind; [apply keeps_rate_limit|]. intros e. apply keeps_bind; [auto with keeping|]. intros _. destruct e; auto with keeping.
  - apply records_after; [|intros; apply records_recovered]. unfold retry_transient. apply keeps_bind; [auto with keeping|].
    intros t. apply keeps_transient.
Qed.

Lemma post_hooks_done more : ∀ r c ev, snd (post_hooks_loop env tc more r c) = Some (Err ev) → ∃ text, ev = ADone text.
Proof.
  induction more as [|more IH]; intros r c ev; cbn [post_hooks_loop]; destruct (run_llm_post_hooks _ _ _ _); try done;
    try (by intros [= <-]; eexists).
  unfold call_bind, reading, doing. destruct (chat_call_selected _ _ _) as [c1 [[i|[resp|e]]|]]; try done; [by intros [= <-]; eexists|].
  apply IH.
Qed.

Lemma records_post_hooks r : records (run_llm_post_hooks_guarded env tc r).
Proof.
  unfold run_llm_post_hooks_guarded. case_match; [auto with keeping|]. intros c.
  pose proof (keeps_post_hooks env tc MAX_LLM_HOOK_RETRIES r c) as Hk.
  pose proof (post_hooks_done MAX_LLM_HOOK_RETRIES r c) as Hd.
  destruct (post_hooks_loop _ _ _ _ _) as [c1 [[x|ev]|]]; try done. by destruct (Hd ev eq_refl) as [text ->].
Qed.

Lemma model_records messages tools : records (call_llm_with_recovery env tc messages tools).
Proof.
  unfold call_llm_with_recovery. apply records_after; [auto with keeping|]. intros start.
  apply records_after; [auto with keeping|]. intros [i|[resp|err]]; [auto with keeping| |].
  - intros c. apply records_post_hooks.
  - intros c. unfold call_bind, reading. cbv beta iota. set (ms := (_ - _)%N).
    pose proof (records_recover ms err c) as Hr. destruct (recover env tc ms err c) as [c1 [[x|ev]|]]; try done.
    simpl in Hr. rewrite <-Hr. apply records_post_hooks.
Qed.

(** Also: a call to the model writes to the history exactly when it ends the turn with an
    error, and then one turn of the assistant with the raw text of the error; retries,
    compression, hooks, cancellation and the emergency stop leave the history alone. *)
Theorem only_failures_are_recorded messages tools : records (call_llm_with_recovery env tc messages tools).
Proof. apply model_records. Qed.

End Records.

(** ** The time of the ring for rate limits *)

Lemma ladder_time env t fuel : (0 < t)%N → ∀ ceiling rq cur attempt c, let '(c', r) := ladder env fuel t ceiling rq cur attempt c in
  (ca_clock c' ≤ ca_clock c + N.of_nat (made c' - made c) * (t * 1000))%N ∧ ((ca_clock c ≤ ca_clock c')%N ∧ (made c ≤ made c')%nat) ∧
  ∀ e, r = Some (Err e) → ∃ n rq, answered env t n rq = Err e.
Proof.
  intros Ht. induction fuel as [|fuel IH]; intros ceiling rq cur attempt c; [split_and!; [lia|done|done|done]|]. cbn [ladder].
  set (rq' := with_options _ _).
  assert (∃ ms, chat_call_bounded env t rq' c = (sent rq' ms c, Some (answered env t (made c) rq')) ∧ (ms ≤ t * 1000)%N) as (ms & -> & Hms).
  { unfold chat_call_bounded, answered. destruct (_ || _) eqn:E; eexists; (split; [done|]); [|done].
    apply orb_true_iff in E as [E%bool_decide_eq_true|E%N.leb_le]; lia. }
  assert (ca_clock (sent rq' ms c) = ca_clock c + ms)%N as Hc by done. pose proof (sent_made rq' ms c) as Hm.
  destruct (answered env t (made c) rq') as [a|e] eqn:Ea.
  2: { rewrite Hm, Hc. split_and!; [lia|lia|lia|]. intros ? [= <-]. eauto. }
  destruct cur as [cur|]; [|rewrite Hm, Hc; split_and!; [lia|lia|lia|done]].
  destruct (burned a && negb (le_engaged env (made (sent rq' ms c))) && (next_rung cur <=? ceiling)%N); [|rewrite Hm, Hc; split_and!; [lia|lia|lia|done]].
  specialize (IH ceiling rq (Some (next_rung cur)) (S attempt) (note_escalated_floor (rq_model rq) (next_rung cur) (sent rq' ms c))).
  destruct (ladder _ _ _ _ _ _ _ _) as [c' r]. destruct IH as (Hck & [Hup Hmm] & He).
  replace (made (note_escalated_floor _ _ _)) with (S (made c)) in * by (symmetry; exact Hm).
  replace (ca_clock (note_escalated_floor _ _ _)) with (ca_clock c + ms)%N in * by done.
  split_and!; [|lia|lia|done]. replace (made c' - made c)%nat with (S (made c' - S (made c))) by lia. lia.
Qed.

Section Time.
Context {UC : Unicode} `{RegexCaptures}.
Variable env : LlmEnv.
Variable tc : TurnCall.
Variables C t W : N.
Hypothesis ceilings : ∀ n, (le_ceiling env n ≤ C)%N.
Hypothesis below : (C < 2 ^ 63)%N.
Hypothesis options_u32 : u32_options (Some (cl_options tc)).
Hypothesis timeout : (0 < t)%N.
Hypothesis waits : ∀ n rq e attempt, answered env t n rq = Err e → (rate_limit_wait_secs e attempt ≤ W)%N.

Definition attempt_ms : N := (W + N.of_nat (rungs C) * t) * 1000.

Lemma rate_limit_tries_time more : ∀ retries max started err c,
  (0 < le_rate_limit_budget_secs env)%N → (∀ attempt, (rate_limit_wait_secs err attempt ≤ W)%N) → (started ≤ ca_clock c)%N →
  (ca_clock c ≤ started + le_rate_limit_budget_secs env * 1000 + attempt_ms)%N →
  (ca_clock (fst (rate_limit_tries env tc more retries max t started err c)) ≤ started + le_rate_limit_budget_secs env * 1000 + attempt_ms)%N.
Proof.
  induction more as [|more IH]; intros retries max started err c Hbud Hw Hst Hc; [done|]. cbn [rate_limit_tries].
  destruct (over_budget env started c) eqn:Eo; [done|]. unfold over_budget in Eo.
  replace (0 <? le_rate_limit_budget_secs env)%N with true in Eo by (symmetry; by apply N.ltb_lt). apply N.leb_gt in Eo.
  unfold call_bind, doing, reading. cbv beta iota. set (c1 := slept _ _).
  assert (ca_clock c1 = ca_clock c + rate_limit_wait_secs err (S retries) * 1000)%N as Hc1 by done.
  specialize (Hw (S retries)). set (rq := request _ _ _).
  pose proof (escalating_costs env C ceilings below t rq options_u32 c1) as [Hcost _].
  unfold chat_call_escalating, escalating in *.
  match goal with |- context [ladder env LADDER_FUEL t ?ce ?r ?cu 0 c1] =>
    pose proof (ladder_time env t LADDER_FUEL timeout ce r cu 0 c1) as Ht; destruct (ladder env LADDER_FUEL t ce r cu 0 c1) as [c2 o] end.
  destruct Ht as (Hck & [Hup Hmm] & He). simpl in Hcost.
  assert (ca_clock c2 ≤ started + le_rate_limit_budget_secs env * 1000 + attempt_ms)%N as Hc2.
  { unfold attempt_ms. assert (N.of_nat (made c2 - made c1) ≤ N.of_nat (rungs C))%N by lia. nia. }
  destruct o as [[resp|e]|]; [done| |done]. apply IH; [done| | |done].
  - intros attempt. destruct (He e eq_refl) as (n & rq' & Ha). by eapply waits.
  - lia.
Qed.

(** Also: with a budget and a timeout, the ring for rate limits is over at the latest one
    wait and one call after the budget. *)
Theorem rate_limit_budget err c : (0 < le_rate_limit_budget_secs env)%N → current_timeout env c = t →
  (∀ attempt, (rate_limit_wait_secs err attempt ≤ W)%N) →
  (ca_clock (fst (retry_rate_limited env tc err c)) ≤ ca_clock c + (le_rate_limit_budget_secs env + W + N.of_nat (rungs C) * t) * 1000)%N.
Proof.
  intros Hbud Ht Hw. unfold retry_rate_limited, call_bind, reading, doing. cbv beta iota. rewrite Ht.
  pose proof (rate_limit_tries_time (max_rate_retries env) 0 (max_rate_retries env) (ca_clock c) err c Hbud Hw) as Hb.
  destruct (rate_limit_tries _ _ _ _ _ _ _ _ _) as [c1 o]. unfold attempt_ms in Hb. specialize (Hb ltac:(lia) ltac:(lia)). simpl in Hb.
  destruct o as [e|]; [|simpl; lia]. destruct e; simpl; lia.
Qed.

End Time.

(** ** Runs *)

Section Runs.
#[local] Existing Instances ascii_unicode literal_engine literal_find literal_captures.

Definition demo_answer (content : string) (reason : string) : LlmResponse :=
  mkResponse (lit content) [] true None (Some (lit reason)) None None.

(** A provider that answers one call after the other as listed, each in a second. *)
Definition demo_env (answers : list (result LlmResponse str)) (hooks : list LlmHook) : LlmEnv :=
  mkLlmEnv (λ n _, default (Err (lit "no more answers")) (answers !! n)) (λ _, 1000%N) (λ _, 480%N) (λ _, 262144%N) (λ _, false)
    (λ _, None) (λ _ _ _, None) (λ i, []) [] [] 10 900 (lit "demo") hooks (λ _, lit "t").

Definition demo_turn : TurnCall := mkTurnCall (lit "m") (mkOptions (Some 8192%N) None) (lit "s") (lit "cli") None 0 false false.
Definition demo_calls : Calls := mkCalls [] 0 ∅ (mkConversation [] None) ∅ [] [].

Definition asked (c : Calls) : list (option N) := (λ rq, rq_options rq ≫= co_max_tokens) <$> ca_made c.

Definition burned_twice : LlmEnv :=
  demo_env [Ok (demo_answer "" "length"); Ok (demo_answer " " "length"); Ok (demo_answer "hi" "stop")] [].

Lemma demo_ceilings answers hooks n : (le_ceiling (demo_env answers hooks) n ≤ 262144)%N.
Proof. done. Qed.

Lemma call_comes_back_witness : costs (calls_bound burned_twice * rungs 262144) (call_llm_with_recovery burned_twice demo_turn [] []).
Proof.
  apply call_comes_back; [apply demo_ceilings|vm_compute; reflexivity|]. intros t [= <-]. vm_compute. reflexivity.
Defined.

Definition demo_request : Request := mkRequest (lit "m") [] (Some (mkOptions (Some 8192%N) None)) [].

Lemma escalation_exact_witness :
  let '(c, r) := chat_call_escalating burned_twice 480 demo_request demo_calls in
  asked c = [Some 8192; Some 32768; Some 65536]%N ∧
  ∃ k, ca_made c = ca_made demo_calls ++ (at_rung demo_request ∘ rung 8192 <$> seq 0 (S k)).
Proof.
  split; [vm_compute; reflexivity|].
  destruct (escalation_exact burned_twice 480 demo_request (mkOptions (Some 8192%N) None) 8192 demo_calls
              (fst (chat_call_escalating burned_twice 480 demo_request demo_calls))
              (default (Err []) (snd (chat_call_escalating burned_twice 480 demo_request demo_calls))))
    as (k & Hm & _); [reflexivity|reflexivity|vm_compute; reflexivity|]. by exists k.
Defined.

(** Observed: the budget of the ring for rate limits is looked at in front of a wait, not
    behind it: a provider that asks for a day is waited for a day, under a budget of a quarter
    of an hour. *)
Theorem retry_after_overrules_budget :
  let '(c, r) := call_llm_with_recovery (demo_env [Err (lit "HTTP 429 (retry_after=86400s)"); Ok (demo_answer "hi" "stop")] [])
                   demo_turn [] [] demo_calls in
  ca_clock c = 86402000%N ∧ r = Some (Ok (demo_answer "hi" "stop")).
Proof. vm_compute. split; reflexivity. Qed.

(** Observed: the rings are not exclusive as the comment at the rate limits has it: an error
    of the class of rate limits whose text names tokens is taken for one of the context, so
    the history is compressed and the call repeated twice without any wait. *)
Theorem token_rate_limit_compresses (err := lit "rate limited by provider: 429 tokens per minute exceeded") :
  classify_llm_error err = Some ClassRateLimit ∧ contains_any (to_lowercase err) RATE_LIMIT_ERROR_KEYWORDS = true ∧
  recovery_ring err = ContextRing ∧
  ca_clock (fst (call_llm_with_recovery (demo_env [Err err; Err err; Err err] []) demo_turn [] [] demo_calls)) = 3000%N.
Proof. vm_compute. split_and!; reflexivity. Qed.

(** Observed: hooks that keep asking for another answer are overruled, and with them the hooks
    in front that replaced the answer: the original goes through. *)
Theorem overruled_hooks_lose_replacements (secret := demo_answer "secret" "stop")
  (redact := mkLlmHook (λ _ _ _, Proceed) (λ _ _ _, ReplaceResponse (demo_answer "redacted" "stop")))
  (retry := mkLlmHook (λ _ _ _, Proceed) (λ _ _ _, RetryResponse [])) :
  snd (call_llm_with_recovery (demo_env [Ok secret; Ok secret; Ok secret] [redact; retry]) demo_turn [] [] demo_calls) = Some (Ok secret).
Proof. vm_compute. reflexivity. Qed.

(** Powers of two up to 2^63 stay such, by the wrap of the doubling. *)
Definition power_rung (cur : N) : Prop := ∃ j, (j ≤ 63)%N ∧ cur = (2 ^ j)%N.

Lemma next_power cur : power_rung cur → power_rung (next_rung cur).
Proof.
  intros (j & Hj & ->). unfold next_rung, wrap64, ESCALATION_FLOOR. destruct (decide (j = 63)%N) as [->|Hne].
  { exists 15%N. split; [lia|reflexivity]. }
  replace (2 ^ j * 2)%N with (2 ^ (j + 1))%N by (rewrite N.pow_add_r; lia).
  rewrite N.mod_small by (apply N.pow_lt_mono_r; lia).
  destruct (decide (15 ≤ j + 1)%N) as [Hle|Hlt].
  - exists (j + 1)%N. split; [lia|]. apply N.max_l. change 32768%N with (2 ^ 15)%N. by apply N.pow_le_mono_r.
  - exists 15%N. split; [lia|]. change 32768%N with (2 ^ 15)%N. apply N.max_r, N.pow_le_mono_r; lia.
Qed.

(** Observed: with a ceiling of 2^63 or more the doubling wraps to the floor before it meets
    the ceiling, and a model that burns every answer is asked for ever. *)
Theorem huge_ceiling_never_ends env t ceiling rq fuel : (2 ^ 63 ≤ ceiling)%N → (∀ n, le_engaged env n = false) →
  (∀ n rq, ∃ a, answered env t n rq = Ok a ∧ burned a = true) →
  ∀ cur attempt c, power_rung cur → snd (ladder env fuel t ceiling rq (Some cur) attempt c) = None.
Proof.
  intros Hceil He Hb. induction fuel as [|fuel IH]; intros cur attempt c Hp; [done|]. cbn [ladder]. set (rq' := with_options _ _).
  destruct (bounded_answer env t rq' c) as [ms ->]. destruct (Hb (made c) rq') as (a & -> & ->). rewrite He.
  pose proof (next_power cur Hp) as Hn. assert (next_rung cur ≤ ceiling)%N as Hle.
  { destruct Hn as (j & Hj & ->). etrans; [|exact Hceil]. apply N.pow_le_mono_r; lia. }
  apply N.leb_le in Hle. rewrite Hle. cbn [negb andb]. by apply IH.
Qed.

End Runs.
