(* ===== verification/Inbox.v ===== *)
(** * Messages that arrive while a session is busy (nemesis-agent/src/inbox.rs)

    Two queues per session: messages that start the next turn, and messages that are put in
    front of the next call of the running one.  The mutex is held for one operation at a
    time, so threads interleave operations. *)
From stdpp Require Import strings.
From S2P Require Import Prelude RustStr Channel.
Local Open Scope nb_scope.

Definition DEFAULT_QUEUE_SIZE : nat := 8.

(** A message as it came in, and when it was queued. *)
Record QueuedMessage := mkQueued {
  qm_msg : InboundMessage;
  qm_timestamp : str;
}.

Definition qm_content (m : QueuedMessage) : str := im_content (qm_msg m).

(** All of a message but its content. *)
Definition qm_payload (m : QueuedMessage) : InboundMessage * str := (im_with_content (qm_msg m) [], qm_timestamp m).

Definition c_bang : char := 33.
Definition c_wide_bang : char := 65281.

Definition is_steer_message (content : str) : bool :=
  let t := trim_start content in
  starts_with [c_bang] t || starts_with [c_wide_bang] t.

Definition strip_steer_marker (content : str) : str :=
  let t := trim_start content in
  match strip_prefix [c_bang] t with
  | Some r => trim_start r
  | None => match strip_prefix [c_wide_bang] t with
            | Some r => trim_start r
            | None => content
            end
  end.

Inductive EnqueueOutcome := QueuedForNextTurn | QueuedForNextStep | Rejected.

Record SessionQueues := mkQueues {
  sq_next_turn : list QueuedMessage;
  sq_next_step : list QueuedMessage;
}.

Definition no_queues : SessionQueues := mkQueues [] [].

Record Inbox := mkInbox {
  ib_queues : gmap str SessionQueues;
  ib_capacity : nat;
}.

Definition inbox_new (capacity : nat) : Inbox := mkInbox ∅ (Nat.max capacity 1).

Definition queues_of (ib : Inbox) (key : str) : SessionQueues := default no_queues (ib_queues ib !! key).
Definition put_queues (ib : Inbox) (key : str) (q : SessionQueues) : Inbox :=
  mkInbox (<[key := q]> (ib_queues ib)) (ib_capacity ib).

(** [entry().or_default()]: a session that is refused gets its entry, too. *)
Definition enqueue_for_mode (ib : Inbox) (key : str) (msg : QueuedMessage) (steer_enabled : bool) : Inbox * EnqueueOutcome :=
  let steer := steer_enabled && is_steer_message (qm_content msg) in
  let q := queues_of ib key in
  if (ib_capacity ib <=? length (sq_next_turn q) + length (sq_next_step q))%nat then (put_queues ib key q, Rejected)
  else if steer then (put_queues ib key (mkQueues (sq_next_turn q) (sq_next_step q ++ [msg])), QueuedForNextStep)
  else (put_queues ib key (mkQueues (sq_next_turn q ++ [msg]) (sq_next_step q)), QueuedForNextTurn).

Definition enqueue (ib : Inbox) (key : str) (msg : QueuedMessage) : Inbox * EnqueueOutcome := enqueue_for_mode ib key msg true.

Definition claim_next_step (ib : Inbox) (key : str) : Inbox * list QueuedMessage :=
  match ib_queues ib !! key with
  | Some q => (put_queues ib key (mkQueues (sq_next_turn q) []), sq_next_step q)
  | None => (ib, [])
  end.

Definition claim_next_turn_head (ib : Inbox) (key : str) : Inbox * option QueuedMessage :=
  match ib_queues ib !! key with
  | Some (mkQueues (m :: rest) steps) => (put_queues ib key (mkQueues rest steps), Some m)
  | _ => (ib, None)
  end.

Definition has_next_step (ib : Inbox) (key : str) : bool :=
  match ib_queues ib !! key with
  | Some q => (0 <? length (sq_next_step q))%nat
  | None => false
  end.

Definition unmarked (m : QueuedMessage) : QueuedMessage :=
  mkQueued (im_with_content (qm_msg m) (strip_steer_marker (qm_content m))) (qm_timestamp m).

Definition transfer_next_step_to_next_turn (ib : Inbox) (key : str) : Inbox :=
  match ib_queues ib !! key with
  | Some q => put_queues ib key (mkQueues (sq_next_turn q ++ (unmarked <$> sq_next_step q)) [])
  | None => ib
  end.

Definition clear_queues (ib : Inbox) (key : str) : Inbox := mkInbox (delete key (ib_queues ib)) (ib_capacity ib).

Definition pending (ib : Inbox) (key : str) : nat * nat :=
  let q := queues_of ib key in (length (sq_next_turn q), length (sq_next_step q)).

(** ** What happens to the messages of a session *)

(** The operations, and what each hands out: to the turn that runs, or as a turn. *)
Inductive InboxOp :=
| OpEnqueue (key : str) (msg : QueuedMessage) (steer_enabled : bool)
| OpClaimStep (key : str)
| OpClaimTurn (key : str)
| OpTransfer (key : str)
| OpPeek (key : str).

Inductive Delivery := Step (m : QueuedMessage) | Turn (m : QueuedMessage).

Definition message (d : Delivery) : QueuedMessage := match d with Step m | Turn m => m end.

Definition inbox_step (ib : Inbox) (op : InboxOp) : Inbox * list (str * Delivery) :=
  match op with
  | OpEnqueue key msg steer => (fst (enqueue_for_mode ib key msg steer), [])
  | OpClaimStep key => let '(ib, l) := claim_next_step ib key in (ib, (λ m, (key, Step m)) <$> l)
  | OpClaimTurn key => let '(ib, o) := claim_next_turn_head ib key in (ib, (λ m, (key, Turn m)) <$> option_list o)
  | OpTransfer key => (transfer_next_step_to_next_turn ib key, [])
  | OpPeek key => (ib, [])
  end.

(** What an operation takes in. *)
Definition accepted (ib : Inbox) (op : InboxOp) (key : str) : list QueuedMessage :=
  match op with
  | OpEnqueue key' msg steer =>
      if key' =? key then match snd (enqueue_for_mode ib key' msg steer) with Rejected => [] | _ => [msg] end else []
  | _ => []
  end.

Fixpoint inbox_run (ib : Inbox) (ops : list InboxOp) : Inbox * list (str * Delivery) :=
  match ops with
  | [] => (ib, [])
  | op :: ops =>
      let '(ib, out) := inbox_step ib op in
      let '(ib, rest) := inbox_run ib ops in (ib, out ++ rest)
  end.

Fixpoint all_accepted (ib : Inbox) (ops : list InboxOp) (key : str) : list QueuedMessage :=
  match ops with
  | [] => []
  | op :: ops => accepted ib op key ++ all_accepted (fst (inbox_step ib op)) ops key
  end.

Definition delivered (out : list (str * Delivery)) (key : str) : list QueuedMessage :=
  omap (λ d, if fst d =? key then Some (message (snd d)) else None) out.

Definition waiting (ib : Inbox) (key : str) : list QueuedMessage :=
  sq_next_turn (queues_of ib key) ++ sq_next_step (queues_of ib key).

Lemma queues_put ib key q key' : queues_of (put_queues ib key q) key' = if key =? key' then q else queues_of ib key'.
Proof.
  unfold queues_of, put_queues. simpl. case_bool_decide as E; [subst; by rewrite lookup_insert_eq|by rewrite lookup_insert_ne].
Qed.

Lemma queues_some ib key q : ib_queues ib !! key = Some q → queues_of ib key = q.
Proof. unfold queues_of. by intros ->. Qed.

Lemma delivered_own key l : delivered ((λ d, (key, d)) <$> l) key = message <$> l.
Proof. unfold delivered. induction l as [|d l IH]; [done|]. simpl. rewrite bool_decide_true by done. f_equal. exact IH. Qed.

Lemma delivered_other key key' l : key ≠ key' → delivered ((λ d, (key, d)) <$> l) key' = [].
Proof. intros Hne. unfold delivered. induction l as [|d l IH]; [done|]. simpl. rewrite bool_decide_false by done. exact IH. Qed.

Lemma payload_unmarked (l : list QueuedMessage) : qm_payload <$> (unmarked <$> l) = qm_payload <$> l.
Proof. rewrite <-list_fmap_compose. by apply list_fmap_ext. Qed.

(** One step: what was waiting and comes in is what goes out and waits. *)
Lemma step_conserves ib op key :
  (qm_payload <$> waiting ib key ++ accepted ib op key)
  ≡ₚ (qm_payload <$> delivered (snd (inbox_step ib op)) key ++ waiting (fst (inbox_step ib op)) key).
Proof.
  unfold waiting. destruct op as [k msg steer|k|k|k|k]; cbn [inbox_step accepted].
  - unfold enqueue_for_mode. destruct (_ <=? _)%nat; [|destruct (steer && _)]; cbn [fst snd]; rewrite queues_put;
      (case_bool_decide; [subst|by rewrite app_nil_r]); rewrite ?app_nil_r; [done| |]; simpl; [by rewrite app_assoc|].
    rewrite <-!app_assoc, !fmap_app. apply Permutation_app_head. simpl. by rewrite <-Permutation_cons_append.
  - unfold claim_next_step. destruct (ib_queues ib !! k) as [q|] eqn:E; cbn [fst snd]; [|by rewrite app_nil_r].
    rewrite app_nil_r, queues_put. rewrite (list_fmap_compose Step (pair k)). case_bool_decide; subst.
    + rewrite delivered_own, (queues_some _ _ _ E), <-list_fmap_compose. simpl. rewrite app_nil_r, list_fmap_id, !fmap_app.
      apply Permutation_app_comm.
    + by rewrite delivered_other.
  - unfold claim_next_turn_head. destruct (ib_queues ib !! k) as [[[|m rest] steps]|] eqn:E; cbn [fst snd option_list fmap list_fmap];
      rewrite app_nil_r; try done. rewrite queues_put. case_bool_decide; subst.
    + rewrite (queues_some _ _ _ E). unfold delivered. simpl. by rewrite bool_decide_true.
    + unfold delivered. simpl. by rewrite bool_decide_false.
  - unfold transfer_next_step_to_next_turn. destruct (ib_queues ib !! k) as [q|] eqn:E; cbn [fst snd]; rewrite app_nil_r; [|done].
    rewrite queues_put. case_bool_decide; subst; [|done]. rewrite (queues_some _ _ _ E). simpl. rewrite app_nil_r, !fmap_app.
    by rewrite payload_unmarked.
  - by rewrite app_nil_r.
Qed.

Lemma delivered_app a b key : delivered (a ++ b) key = delivered a key ++ delivered b key.
Proof. apply omap_app. Qed.

Definition bounded (ib : Inbox) : Prop := ∀ key, (length (waiting ib key) ≤ ib_capacity ib)%nat.

Lemma step_bounded ib op : bounded ib → bounded (fst (inbox_step ib op)).
Proof.
  intros Hb key. specialize (Hb key). unfold waiting in *. rewrite length_app in *. destruct op as [k msg steer|k|k|k|k]; cbn [inbox_step].
  - unfold enqueue_for_mode. repeat case_match; simpl; rewrite queues_put; case_bool_decide; subst; try done; simpl; rewrite length_app; simpl;
      repeat match goal with H : (_ <=? _)%nat = false |- _ => apply Nat.leb_gt in H end; lia.
  - unfold claim_next_step. destruct (ib_queues ib !! k) as [q|] eqn:E; cbn [fst]; [|done]. rewrite queues_put.
    case_bool_decide; subst; [|done]. rewrite (queues_some _ _ _ E) in Hb. simpl. lia.
  - unfold claim_next_turn_head. destruct (ib_queues ib !! k) as [[[|m rest] steps]|] eqn:E; cbn [fst]; try done. rewrite queues_put.
    case_bool_decide; subst; [|done]. rewrite (queues_some _ _ _ E) in Hb. simpl in *. lia.
  - unfold transfer_next_step_to_next_turn. destruct (ib_queues ib !! k) as [q|] eqn:E; cbn [fst]; [|done]. rewrite queues_put.
    case_bool_decide; subst; [|done]. rewrite (queues_some _ _ _ E) in Hb. simpl. rewrite length_app, length_fmap. lia.
  - done.
Qed.

Lemma step_capacity ib op : ib_capacity (fst (inbox_step ib op)) = ib_capacity ib.
Proof.
  destruct op; cbn [inbox_step]; unfold enqueue_for_mode, claim_next_step, claim_next_turn_head, transfer_next_step_to_next_turn;
    repeat case_match; simplify_eq/=; done.
Qed.

Lemma run_conserves ops : ∀ ib key, bounded ib →
  (qm_payload <$> waiting ib key ++ all_accepted ib ops key)
  ≡ₚ (qm_payload <$> delivered (snd (inbox_run ib ops)) key ++ waiting (fst (inbox_run ib ops)) key) ∧
  bounded (fst (inbox_run ib ops)) ∧ ib_capacity (fst (inbox_run ib ops)) = ib_capacity ib.
Proof.
  induction ops as [|op ops IH]; intros ib key Hb; [by rewrite app_nil_r|]. cbn [inbox_run all_accepted].
  pose proof (step_conserves ib op key) as Hs. pose proof (step_bounded ib op Hb) as Hb1. pose proof (step_capacity ib op) as Hc1.
  destruct (inbox_step ib op) as [ib1 out]. simpl in *.
  destruct (IH ib1 key Hb1) as (Hr & Hb2 & Hc2). destruct (inbox_run ib1 ops) as [ib2 rest]. simpl in *.
  split; [|split; [done|congruence]]. rewrite delivered_app, app_assoc, fmap_app, Hs, <-app_assoc, !fmap_app.
  rewrite !fmap_app in Hr. rewrite <-!app_assoc. by apply Permutation_app_head.
Qed.

(** Also: whatever operations of sessions interleave, every message taken in is handed out
    once or still waits, whichever queue it has gone through, none is made up, and no session
    holds more messages than the capacity. *)
Theorem inbox_conserves capacity ops key (run := inbox_run (inbox_new capacity) ops) :
  (qm_payload <$> all_accepted (inbox_new capacity) ops key)
  ≡ₚ (qm_payload <$> delivered (snd run) key ++ waiting (fst run) key) ∧
  (length (waiting (fst run) key) ≤ Nat.max capacity 1)%nat.
Proof.
  assert (bounded (inbox_new capacity)) as Hb.
  { intros k. unfold waiting, queues_of. simpl. rewrite lookup_empty. simpl. lia. }
  destruct (run_conserves ops (inbox_new capacity) key Hb) as (Hr & Hb' & Hc). subst run. split.
  2: { change (Nat.max capacity 1) with (ib_capacity (inbox_new capacity)). rewrite <-Hc. apply Hb'. }
  rewrite <-Hr. unfold waiting, queues_of. simpl. by rewrite lookup_empty.
Qed.

(** Also: the marker is stripped once, so a text behind two keeps one, and a message that
    changes queues reads as one that is claimed. *)
Theorem marker_stripped_once content : strip_steer_marker (c_bang :: content) = trim_start content.
Proof.
  unfold strip_steer_marker. replace (trim_start (c_bang :: content)) with (c_bang :: content) by done. done.
Qed.
