(* ===== verification/TurnLoop.v ===== *)
(** * The rounds of a turn (nemesis-agent/src/loop/run_loop.rs, loop/tool_batch.rs,
      precompute_parallel_batch of loop/tool_defs.rs, spill.rs, the hooks on the end of a turn
      of hooks.rs)

    One turn: rounds of a call to the model and a batch of tools, until an answer is accepted,
    a limit is met or something breaks off.  The parts are those of the other files: the call
    (LlmCall), the guards (TurnGuard), the check of arguments (ArgsValidator), the history
    (Turns), the queues (Inbox), the budget of tokens (TokenBudget).  How a tool is run is an
    interface, [ToolRunner], which the dispatch implements (TurnDispatch). *)
From stdpp Require Import strings.
From S2P Require Import Prelude RustStr F64 Regex ShellBleed Sanitize Json EditHint ToolGates ArgsValidator TurnGuard Turns TokenBudget LlmErrors LlmCall Channel Inbox.
Local Open Scope nb_scope.

(** What runs a call at a depth of agents and gives the text for the model; [None] is a panic. *)
Class ToolRunner (D : Type) := run_call : D → ToolCallInfo → nat → D * option str.

(** ** Hooks on the end of a turn *)

Record HookTurnEnd := mkTurnEnd {
  he_session_key : str;
  he_channel : str;
  he_chat_id : str;
  he_final_content : str;
  he_stop_hook_active : bool;
}.

Inductive TurnEndDecision := StopTurn | ContinueTurn (feedback : str).

(** A hook; its answers may depend on how many requests have been made. *)
Definition LifecycleHook : Type := nat → HookTurnEnd → TurnEndDecision.

Fixpoint run_turn_end_hooks (made : nat) (hooks : list LifecycleHook) (end_ : HookTurnEnd) : TurnEndDecision :=
  match hooks with
  | [] => StopTurn
  | hook :: hooks =>
      match hook made end_ with
      | StopTurn => run_turn_end_hooks made hooks end_
      | ContinueTurn feedback => ContinueTurn feedback
      end
  end.

(** [is_internal_channel] of loop/bus.rs. *)
Definition is_internal_channel (channel : str) : bool :=
  existsb (λ c, lit c =? channel) ["cli"; "system"; "subagent"]%string.

Definition MAX_TURN_END_CONTINUES : nat := 2.
Definition MAX_SYNTAX_RETRIES : nat := 2.
Definition MAX_LENGTH_CONTINUATIONS : nat := 5.
Definition MAX_EMPTY_LENGTH_CONTINUATIONS : nat := 2.

(** ** Results that are too large (spill.rs) *)

Definition SPILL_THRESHOLD_CHARS : nat := N.to_nat 65536.
Definition SPILL_PREVIEW_CHARS : nat := N.to_nat 2000.

(** The segments of the path under the root. *)
Definition spill_path (session_key stamp call_id : str) : list str :=
  [sanitize_path_segment session_key; sanitize_path_segment stamp ++ lit "_" ++ sanitize_path_segment call_id ++ lit ".txt"].

Inductive SpillOutcome := BelowThreshold | SpillFailed | Spilled (text : str).

Definition spill_text (result tool_name shown_path : str) (hint_subagent : bool) : str :=
  take SPILL_PREVIEW_CHARS result ++ [c_nl] ++ ulit "[输出过大（" ++ show_nat (length result)
  ++ ulit " 字符）已完整保存到：" ++ shown_path
  ++ ulit "。可用 read_file 工具按 offset/limit 分段读取该文件，或用 grep 工具在其中检索关键词。"
  ++ (if hint_subagent then SUBAGENT_HINT_SUFFIX else []) ++ lit "]" ++ [c_nl] ++ ulit "（工具：" ++ tool_name ++ ulit "）".

(** [written] says whether the directory, the file and its bytes could be written; a file
    that is there is the text, a partial one is removed. *)
Definition spill_tool_result (written : bool) (shown : list str → str) (result tool_name session_key stamp call_id : str)
    (hint_subagent : bool) : SpillOutcome * option (list str * str) :=
  if (length result <? SPILL_THRESHOLD_CHARS)%nat then (BelowThreshold, None)
  else
    let path := spill_path session_key stamp call_id in
    if written then (Spilled (spill_text result tool_name (shown path) hint_subagent), Some (path, result))
    else (SpillFailed, None).

(** ** The state of a turn *)

Record TurnState := mkTurnState {
  ts_turns_used : N;
  ts_validation_failures : nat;
  ts_length_continuations : nat;
  ts_empty_length_continuations : nat;
  ts_grace_round : bool;
  ts_turn_guard : TurnGuard;
  ts_degenerate_nudge_pending : option str;
  ts_repetition_nudge_pending : option str;
  ts_steer_escape_used : bool;
  ts_terminal_reason : option str;
  ts_turn_end_continues : nat;
  ts_canvas_retries : nat;
  ts_log_boundaries : bool;
  ts_chat_opts : ChatOptions;
}.

Definition turn_new (log_boundaries : bool) (chat_opts : ChatOptions) : TurnState :=
  mkTurnState 0 0 0 0 false guard_new None None false None 0 0 log_boundaries chat_opts.

Definition used_turn (st : TurnState) : TurnState :=
  mkTurnState ((ts_turns_used st + 1) mod 2 ^ 32) (ts_validation_failures st) (ts_length_continuations st)
    (ts_empty_length_continuations st) (ts_grace_round st) (ts_turn_guard st) (ts_degenerate_nudge_pending st)
    (ts_repetition_nudge_pending st) (ts_steer_escape_used st) (ts_terminal_reason st) (ts_turn_end_continues st)
    (ts_canvas_retries st) (ts_log_boundaries st) (ts_chat_opts st).
Definition with_validation (n : nat) (st : TurnState) : TurnState :=
  mkTurnState (ts_turns_used st) n (ts_length_continuations st)
    (ts_empty_length_continuations st) (ts_grace_round st) (ts_turn_guard st) (ts_degenerate_nudge_pending st)
    (ts_repetition_nudge_pending st) (ts_steer_escape_used st) (ts_terminal_reason st) (ts_turn_end_continues st)
    (ts_canvas_retries st) (ts_log_boundaries st) (ts_chat_opts st).
Definition with_lengths (len empty : nat) (st : TurnState) : TurnState :=
  mkTurnState (ts_turns_used st) (ts_validation_failures st) len
    empty (ts_grace_round st) (ts_turn_guard st) (ts_degenerate_nudge_pending st)
    (ts_repetition_nudge_pending st) (ts_steer_escape_used st) (ts_terminal_reason st) (ts_turn_end_continues st)
    (ts_canvas_retries st) (ts_log_boundaries st) (ts_chat_opts st).
Definition with_grace (st : TurnState) : TurnState :=
  mkTurnState (ts_turns_used st) (ts_validation_failures st) (ts_length_continuations st)
    (ts_empty_length_continuations st) true (ts_turn_guard st) (ts_degenerate_nudge_pending st)
    (ts_repetition_nudge_pending st) (ts_steer_escape_used st) (ts_terminal_reason st) (ts_turn_end_continues st)
    (ts_canvas_retries st) (ts_log_boundaries st) (ts_chat_opts st).
Definition with_guard (g : TurnGuard) (st : TurnState) : TurnState :=
  mkTurnState (ts_turns_used st) (ts_validation_failures st) (ts_length_continuations st)
    (ts_empty_length_continuations st) (ts_grace_round st) g (ts_degenerate_nudge_pending st)
    (ts_repetition_nudge_pending st) (ts_steer_escape_used st) (ts_terminal_reason st) (ts_turn_end_continues st)
    (ts_canvas_retries st) (ts_log_boundaries st) (ts_chat_opts st).
Definition with_nudges (degenerate repetition : option str) (st : TurnState) : TurnState :=
  mkTurnState (ts_turns_used st) (ts_validation_failures st) (ts_length_continuations st)
    (ts_empty_length_continuations st) (ts_grace_round st) (ts_turn_guard st) degenerate
    repetition (ts_steer_escape_used st) (ts_terminal_reason st) (ts_turn_end_continues st)
    (ts_canvas_retries st) (ts_log_boundaries st) (ts_chat_opts st).
Definition with_steer_escape (st : TurnState) : TurnState :=
  mkTurnState (ts_turns_used st) (ts_validation_failures st) (ts_length_continuations st)
    (ts_empty_length_continuations st) (ts_grace_round st) (ts_turn_guard st) (ts_degenerate_nudge_pending st)
    (ts_repetition_nudge_pending st) true (ts_terminal_reason st) (ts_turn_end_continues st)
    (ts_canvas_retries st) (ts_log_boundaries st) (ts_chat_opts st).
Definition with_reason (reason : option str) (st : TurnState) : TurnState :=
  mkTurnState (ts_turns_used st) (ts_validation_failures st) (ts_length_continuations st)
    (ts_empty_length_continuations st) (ts_grace_round st) (ts_turn_guard st) (ts_degenerate_nudge_pending st)
    (ts_repetition_nudge_pending st) (ts_steer_escape_used st) reason (ts_turn_end_continues st)
    (ts_canvas_retries st) (ts_log_boundaries st) (ts_chat_opts st).
Definition with_retries (turn_end canvas : nat) (st : TurnState) : TurnState :=
  mkTurnState (ts_turns_used st) (ts_validation_failures st) (ts_length_continuations st)
    (ts_empty_length_continuations st) (ts_grace_round st) (ts_turn_guard st) (ts_degenerate_nudge_pending st)
    (ts_repetition_nudge_pending st) (ts_steer_escape_used st) (ts_terminal_reason st) turn_end
    canvas (ts_log_boundaries st) (ts_chat_opts st).

(** A round goes on to the next, or carries the event that ends the turn. *)
Inductive TurnFlow := FlowContinue | FlowStop (ev : AgentEvent).

Section Turn.
Context {UC : Unicode} `{RegexCaptures} `{HashOrder} `{JsonNumbers} `{!JsonChecks} `{!JsonCodec} {FL : Float}.
Context {D : Type} `{!ToolRunner D}.

(** ** Environment *)

Inductive PlanPresentVerdict := PlanApproved | PlanRejected | PlanTimeout.

(** The verdict on the canvas blocks of an answer: whether they pass, the text that sends them
    back at a retry, the blocks. *)
Record CanvasScan := mkCanvas {
  cs_ok : bool;
  cs_feedback : nat → str;
  cs_blocks : list str;
}.

(** What a turn finds outside.  Cancellation, emergency stop, configuration, questions to the
    user and messages that arrive are functions of the number of looks taken. *)
Record TurnEnv := mkTurnEnv {
  tv_llm : LlmEnv;
  tv_cancelled : nat → bool;
  tv_engaged : nat → bool;
  tv_arrivals : nat → list QueuedMessage;
  tv_steer_mode : bool;
  tv_max_tool_iterations : nat → option Z;
  tv_config_max_turns : N;
  tv_session_token_budget : Z;
  tv_usage_stored : nat → bool;
  tv_prepare_steer : str → str * list str;
  tv_lifecycle_hooks : list LifecycleHook;
  tv_canvas : str → CanvasScan;
  tv_probe_note : option str;
  tv_agent : AgentInstance;
  tv_parameters : str → option Value;
  tv_parallel_safe : str → bool;
  tv_parallel_order : nat → list nat;
  tv_depth : nat;
  tv_tier : ModelTier;
  tv_diagnose : ToolCallInfo → str → str;
  tv_spill_root : bool;
  tv_spill_written : nat → bool;
  tv_show_path : list str → str;
  tv_spill_stamp : N → str;
  tv_has_spawn : bool;
  tv_receipt : str → str → str → N → str;
  tv_doom_loop_approval : bool;
  tv_approval_auto : bool;
  tv_ask_doom_loop : nat → option bool;
  tv_plan_verdict : nat → option PlanPresentVerdict;
  tv_continuation_manager : bool;
  tv_active_model : str;
}.

(** Who asks, the identifier a remote caller waits for, and the budget of this turn. *)
Record TurnCtx := mkTurnCtx {
  tx_context : RequestContext;
  tx_correlation_id : option str;
  tx_voice_playback : bool;
  tx_turn_budget : option N;
}.

(** ** State *)

(** A saved continuation: the task, the messages up to here, the call that waits, the peer. *)
Record Snapshot := mkSnapshot {
  sn_task_id : str;
  sn_messages : list LlmMessage;
  sn_tool_call_id : str;
  sn_peer_id : str;
}.

(** What is published besides the events: texts between rounds, canvas blocks. *)
Inductive Published := PubRoundText (content : str) | PubCanvas (html : str) (index : nat).

Record World := mkWorld {
  wd_calls : Calls;
  wd_tools : D;
  wd_inbox : Inbox;
  wd_ledger : gmap str SessionBudgetEntry;
  wd_store : option (list RequestRow);
  wd_tick : nat;
  wd_events : list AgentEvent;
  wd_boundary : list (str * str);
  wd_snapshots : list Snapshot;
  wd_published : list Published;
  wd_spilled : list (list str * str);
}.

Definition with_calls (c : Calls) (w : World) : World :=
  mkWorld c (wd_tools w) (wd_inbox w) (wd_ledger w) (wd_store w) (wd_tick w) (wd_events w) (wd_boundary w) (wd_snapshots w)
    (wd_published w) (wd_spilled w).
Definition with_tools (d : D) (w : World) : World :=
  mkWorld (wd_calls w) d (wd_inbox w) (wd_ledger w) (wd_store w) (wd_tick w) (wd_events w) (wd_boundary w) (wd_snapshots w)
    (wd_published w) (wd_spilled w).
Definition with_inbox (ib : Inbox) (w : World) : World :=
  mkWorld (wd_calls w) (wd_tools w) ib (wd_ledger w) (wd_store w) (wd_tick w) (wd_events w) (wd_boundary w) (wd_snapshots w)
    (wd_published w) (wd_spilled w).
Definition with_budget (store : option (list RequestRow)) (ledger : gmap str SessionBudgetEntry) (w : World) : World :=
  mkWorld (wd_calls w) (wd_tools w) (wd_inbox w) ledger store (wd_tick w) (wd_events w) (wd_boundary w) (wd_snapshots w)
    (wd_published w) (wd_spilled w).
Definition ticked (w : World) : World :=
  mkWorld (wd_calls w) (wd_tools w) (wd_inbox w) (wd_ledger w) (wd_store w) (S (wd_tick w)) (wd_events w) (wd_boundary w)
    (wd_snapshots w) (wd_published w) (wd_spilled w).
Definition with_event (ev : AgentEvent) (w : World) : World :=
  mkWorld (wd_calls w) (wd_tools w) (wd_inbox w) (wd_ledger w) (wd_store w) (wd_tick w) (wd_events w ++ [ev]) (wd_boundary w)
    (wd_snapshots w) (wd_published w) (wd_spilled w).
Definition with_boundary (kind text : str) (w : World) : World :=
  mkWorld (wd_calls w) (wd_tools w) (wd_inbox w) (wd_ledger w) (wd_store w) (wd_tick w) (wd_events w)
    (wd_boundary w ++ [(kind, text)]) (wd_snapshots w) (wd_published w) (wd_spilled w).
Definition with_snapshot (s : Snapshot) (w : World) : World :=
  mkWorld (wd_calls w) (wd_tools w) (wd_inbox w) (wd_ledger w) (wd_store w) (wd_tick w) (wd_events w) (wd_boundary w)
    (wd_snapshots w ++ [s]) (wd_published w) (wd_spilled w).
Definition with_published (p : list Published) (w : World) : World :=
  mkWorld (wd_calls w) (wd_tools w) (wd_inbox w) (wd_ledger w) (wd_store w) (wd_tick w) (wd_events w) (wd_boundary w)
    (wd_snapshots w) (wd_published w ++ p) (wd_spilled w).
Definition with_spilled (s : option (list str * str)) (w : World) : World :=
  mkWorld (wd_calls w) (wd_tools w) (wd_inbox w) (wd_ledger w) (wd_store w) (wd_tick w) (wd_events w) (wd_boundary w)
    (wd_snapshots w) (wd_published w) (wd_spilled w ++ option_list s).

(** The turns so far, and how they grow. *)
Definition history (w : World) : History := turns_of (wd_calls w).

(** A part of a turn; [None] when it does not come back: a panic of a tool, a call to the
    model without end. *)
Definition TurnM (A : Type) : Type := World → World * option A.

Definition ret {A} (x : A) : TurnM A := λ w, (w, Some x).
Definition bind {A B} (m : TurnM A) (k : A → TurnM B) : TurnM B := λ w,
  match m w with
  | (w, Some x) => k x w
  | (w, None) => (w, None)
  end.
Definition act (f : World → World) : TurnM unit := λ w, (f w, Some tt).
Definition see {A} (f : World → A) : TurnM A := λ w, (w, Some (f w)).
Definition lift_call {A} (m : CallM A) : TurnM A := λ w, let '(c, r) := m (wd_calls w) in (with_calls c w, r).

Declare Scope turn_scope.
Delimit Scope turn_scope with turn.
#[local] Notation "x <- m ; k" := (bind m (λ x, k))
  (at level 20, m at level 100, k at level 200, right associativity) : turn_scope.
#[local] Notation "m ;; k" := (bind m (λ _, k)) (at level 100, k at level 200, right associativity) : turn_scope.
#[local] Open Scope turn_scope.

Variable env : TurnEnv.
Variable cx : TurnCtx.

Definition session_key : str := rc_session_key (tx_context cx).
Definition format_rpc (message : str) : str := format_rpc_message (rc_channel (tx_context cx)) (tx_correlation_id cx) message.

Definition stamp (w : World) : str := le_stamp (tv_llm env) (ca_clock (wd_calls w)).

Definition on_history (f : str → History → History) (w : World) : World :=
  with_calls (with_instance (with_history (ca_instance (wd_calls w)) (f (stamp w) (history w))) (wd_calls w)) w.

Definition say_assistant (content : str) (calls : list ToolCallInfo) (reasoning : option str) : TurnM unit :=
  act (on_history (λ now, add_assistant_message content calls reasoning now)).
Definition say_user (content : str) : TurnM unit := act (on_history (λ now, add_user_message content now)).
Definition say_result (id content : str) : TurnM unit := act (on_history (λ now, add_tool_result id content now)).

(** A look outside: what has arrived meanwhile is in the queues. *)
Definition arrive (ib : Inbox) (m : QueuedMessage) : Inbox := fst (enqueue_for_mode ib session_key m (tv_steer_mode env)).

Definition look {A} (f : nat → A) : TurnM A := λ w,
  let w' := ticked (with_inbox (foldl arrive (wd_inbox w) (tv_arrivals env (wd_tick w))) w) in
  (w', Some (f (wd_tick w))).

Definition steer_pending : TurnM bool := look (λ _, tt);; see (λ w, has_next_step (wd_inbox w) session_key).

(** ** The head of a round *)

Definition stopped_text : str := ulit "⛔ 已急停 (E-STOP) — 已停止当前任务。发送 `nemesisbot estop --release` 恢复。".

Definition cron_budget_text (n : N) : str :=
  ulit "已在定时任务预算 " ++ lit (pretty n)
  ++ ulit " 轮工具调用后暂停，已完成的工作已保存。定时任务未被删除，下次触发时会重新获得预算。".
Definition run_budget_text (n : N) : str :=
  ulit "已在任务预算 " ++ lit (pretty n)
  ++ ulit " 轮工具调用后暂停，已完成的工作已保存。本轮任务不会自动续跑——需要继续时请以更大的轮数预算重跑（run 模式：--max-turns；子代理：spawn max_turns）。".
Definition max_turns_text (n : N) : str :=
  ulit "已在 " ++ lit (pretty n)
  ++ ulit " 轮工具调用后暂停，已完成的工作已保存。发送下一条消息可继续，或调大 max_tool_iterations（设为 0 表示不限）。".

Definition is_cron_turn : bool := rc_user (tx_context cx) =? lit "cron".

(** [n as u32] of a positive [i64]. *)
Definition iterations_limit (n : option Z) : N :=
  match n with
  | Some n => if (n <=? 0)%Z then 0%N else (Z.to_N n mod 2 ^ 32)%N
  | None => tv_config_max_turns env
  end.

Definition effective_max_turns (read : option Z) : N :=
  match tx_turn_budget cx with
  | Some b => b
  | None => iterations_limit read
  end.

(** The event that ends the turn with its reason, or whether this is the grace round. *)
Definition prepare_round (st : TurnState) : TurnM (TurnState * option (AgentEvent * option str)) :=
  cancelled <- look (tv_cancelled env);
  if cancelled : bool then ret (st, Some (ADone cancelled_text, None))
  else
    engaged <- look (tv_engaged env);
    if engaged : bool then ret (st, Some (ADone stopped_text, None))
    else
      read <- look (tv_max_tool_iterations env);
      let limit := effective_max_turns read in
      if (0 <? limit)%N && (limit <=? ts_turns_used st)%N then
        if negb (ts_grace_round st) then ret (with_grace st, None)
        else match tx_turn_budget cx with
             | Some _ =>
                 ret (st, Some (ADone (if is_cron_turn then cron_budget_text limit else run_budget_text limit),
                                Some (lit "budget_exhausted")))
             | None => ret (st, Some (ADone (max_turns_text limit), Some (lit "max_turns")))
             end
      else ret (st, None).

Definition is_pause (reason : option str) : bool :=
  bool_decide (reason = Some (lit "budget_exhausted")) || bool_decide (reason = Some (lit "max_turns")).

Definition attach_pre_pause_probe_note (ev : AgentEvent) (st : TurnState) : AgentEvent :=
  match ev with
  | ADone text => match tv_probe_note env with
                  | Some note => if tg_had_writes (ts_turn_guard st) then ADone (text ++ note) else ev
                  | None => ev
                  end
  | _ => ev
  end.

(** The budget of tokens: a hard stop, or one forced compression and on. *)
Definition check_budget : TurnM (option AgentEvent) :=
  r <- (λ w, let '(m, r) := check_session_budget (tv_session_token_budget env) session_key (wd_store w) (wd_ledger w) in
             (with_budget (wd_store w) m w, Some r));
  match r with
  | HardStop notice => say_assistant notice [] None;; ret (Some (AError (format_rpc notice)))
  | Continue true => lift_call (doing (λ c, fst (force_compression (tv_llm env) c)));; ret None
  | Continue false => ret None
  end.

(** [claim_steer_messages]: every message becomes a turn of the user. *)
Fixpoint inject (log_boundaries : bool) (messages : list QueuedMessage) : TurnM unit :=
  match messages with
  | [] => ret tt
  | m :: rest =>
      let '(content, refs) := tv_prepare_steer env (strip_steer_marker (qm_content m)) in
      act (on_history (λ now, add_user_message_with_images content now refs));;
      act (if log_boundaries then with_boundary (lit "steer_injected") (lit "len=" ++ show_nat (byte_len (qm_content m))) else id);;
      inject log_boundaries rest
  end.

Definition claim_steer_messages (st : TurnState) : TurnM unit :=
  batch <- (λ w, let '(ib, l) := claim_next_step (wd_inbox w) session_key in (with_inbox ib w, Some l));
  inject (ts_log_boundaries st) batch.

Definition GRACE_ROUND_NUDGE : str :=
  ulit "工具调用预算已用尽，不要再调用任何工具。请基于已完成的工作给出最终答复：总结完成了什么、还有什么没做、需要用户做哪些决定。".

Definition plain_message (role content : str) : LlmMessage := mkMessage role content None None None [].

(** The messages of a round: the history as it is projected, then what this round alone adds. *)
Definition round_messages (st : TurnState) (built : list LlmMessage) : list LlmMessage :=
  (if tx_voice_playback cx then voice_last built else built)
  ++ (if ts_grace_round st then [plain_message r_system GRACE_ROUND_NUDGE] else [])
  ++ (plain_message r_user <$> option_list (ts_degenerate_nudge_pending st))
  ++ (plain_message r_system <$> option_list (ts_repetition_nudge_pending st)).

Definition call_of_turn (st : TurnState) (had_images : bool) : TurnCall :=
  mkTurnCall (tv_active_model env) (ts_chat_opts st) session_key (rc_channel (tx_context cx)) (tx_correlation_id cx)
    (N.to_nat (ts_turns_used st)) (tx_voice_playback cx) had_images.

Definition pre_block_text (reason : str) : str :=
  hook_blocked_text reason
    (ulit " — A registered LLM hook denied this round. Do NOT retry unless the user changes the hook policy.").

Definition has_images (m : LlmMessage) : bool := (0 <? length (lm_images m))%nat.

(** The messages, or the event of a hook that objects. *)
Definition build_round_messages (st : TurnState) : TurnM (result (list LlmMessage) AgentEvent) :=
  messages <- see (λ w, round_messages st (le_build_messages (tv_llm env) (ca_instance (wd_calls w))));
  n <- see (λ w, made (wd_calls w));
  match run_llm_pre_hooks n (le_hooks (tv_llm env)) (hook_llm_call (call_of_turn st false)) messages [] with
  | Err reason => ret (Err (ADone (pre_block_text reason)))
  | Ok appended =>
      let messages := messages ++ appended in
      lift_call (doing (observed (ObsRequest (S (N.to_nat (ts_turns_used st))))));;
      act (if ts_log_boundaries st
           then with_boundary (lit "llm_request")
                  (lit "model=" ++ tv_active_model env ++ lit " messages=" ++ show_nat (length messages) ++ lit " turns_used="
                   ++ lit (pretty (ts_turns_used st)))
           else id);;
      ret (Ok messages)
  end.

Definition call_model (st : TurnState) (messages : list LlmMessage) : TurnM (result LlmResponse AgentEvent) :=
  lift_call (call_llm_with_recovery (tv_llm env) (call_of_turn st (existsb has_images messages)) messages
               (le_effective_tool_defs (tv_llm env))).

(** The accounting of a round. *)
Definition record_usage (r : LlmResponse) : TurnM unit := λ w,
  let '(ds, m) := record_round_usage (tv_session_token_budget env) session_key (rs_usage r) (tv_usage_stored env (wd_tick w))
                    (wd_store w) (wd_ledger w) in
  (with_budget ds m w, Some tt).

(** ** Answers that were cut off *)

Definition CONTINUE_PROMPT : str :=
  ulit "Output limit reached. Continue exactly where you left off — no recap, no apology. If you were writing a large file, break it into smaller writes.".

Definition escalated_empty_text (n : nat) (v : N) : str :=
  ulit "模型连续 " ++ show_nat n ++ ulit " 轮空输出且撞 max_tokens 上限：翻倍重试至 " ++ lit (pretty v)
  ++ ulit " 仍为空（思考烧穿形态——思考 token 计入 max_tokens 把正文挤空）。请调大该模型条目的 max_output_tokens 或 agents.defaults.max_output_ceiling（当前封顶）后重试，或检查模型健康度。".
Definition empty_text (n : nat) (cap : N) : str :=
  ulit "模型连续 " ++ show_nat n ++ ulit " 轮空输出且撞 max_tokens 上限（" ++ lit (pretty cap)
  ++ ulit "），已提前停止续写以节省预算。请检查模型健康度或调整参数。".
Definition too_long_text (cap : N) : str :=
  ulit "输出反复超过 max_tokens 上限（" ++ lit (pretty cap)
  ++ ulit "）被截断，文件可能太大。请调大 max_tokens，或让我分段写入。".

Definition token_cap (st : TurnState) (r : LlmResponse) : N :=
  default 8192%N (match rs_escalated_to r with Some v => Some v | None => co_max_tokens (ts_chat_opts st) end).

(** [completion_tokens as u64]. *)
Definition hit_cap (st : TurnState) (r : LlmResponse) : bool :=
  match rs_usage r with
  | Some u => (token_cap st r <=? Z.to_N (us_completion_tokens u mod 2 ^ 64))%N
  | None => false
  end.

Definition stop_with_error (notice : str) : TurnM TurnFlow :=
  say_assistant notice [] None;; ret (FlowStop (AError (format_rpc notice))).

(** [None]: not cut off, the counters start again. *)
Definition handle_length_continuation (r : LlmResponse) (st : TurnState) : TurnM (TurnState * option TurnFlow) :=
  if hit_cap st r then
    let cap := token_cap st r in
    let empty := negb (nonempty (trim (rs_content r))) in
    let empties := if empty then S (ts_empty_length_continuations st) else 0%nat in
    let st := with_lengths (ts_length_continuations st) empties st in
    if empty && (MAX_EMPTY_LENGTH_CONTINUATIONS <=? empties)%nat then
      flow <- stop_with_error (match rs_escalated_to r with
                               | Some v => escalated_empty_text empties v
                               | None => empty_text empties cap
                               end);
      ret (st, Some flow)
    else if (ts_length_continuations st <? MAX_LENGTH_CONTINUATIONS)%nat then
      say_assistant (rs_content r) [] (rs_reasoning_content r);;
      say_user CONTINUE_PROMPT;;
      ret (with_lengths (S (ts_length_continuations st)) empties st, Some FlowContinue)
    else
      flow <- stop_with_error (too_long_text cap);
      ret (st, Some flow)
  else ret (with_lengths 0 0 st, None).

Definition note_repetition (r : LlmResponse) (st : TurnState) : TurnState :=
  let '(g, nudge) := check_text_repetition (ts_turn_guard st) (rs_content r) in
  with_nudges (ts_degenerate_nudge_pending st) nudge (with_guard g st).

(** ** Final answers *)

Definition is_heartbeat_turn : bool := rc_user (tx_context cx) =? lit "heartbeat".

Definition turn_end_of (content : str) (st : TurnState) : HookTurnEnd :=
  mkTurnEnd session_key (rc_channel (tx_context cx)) (rc_chat_id (tx_context cx)) content (0 <? ts_turn_end_continues st)%nat.

(** An accepted answer: its canvas blocks, a message that came in at the last moment, the
    hooks; one round more for each, within their budgets. *)
Definition accept_answer (content : str) (st : TurnState) : TurnM (TurnState * TurnFlow) :=
  let scan := tv_canvas env content in
  if negb (cs_ok scan) && (ts_canvas_retries st <? MAX_SYNTAX_RETRIES)%nat then
    let retries := S (ts_canvas_retries st) in
    say_user (cs_feedback scan retries);; ret (with_retries (ts_turn_end_continues st) retries st, FlowContinue)
  else
    steer <- (if ts_steer_escape_used st then ret false else steer_pending);
    if steer && tv_steer_mode env then ret (with_steer_escape st, FlowContinue)
    else
      n <- see (λ w, made (wd_calls w));
      let delivered : TurnM (TurnState * TurnFlow) :=
        act (with_published (if cs_ok scan then imap (λ i html, PubCanvas html i) (cs_blocks scan) else []));;
        ret (st, FlowStop (ADone (format_rpc content))) in
      match run_turn_end_hooks n (tv_lifecycle_hooks env) (turn_end_of content st) with
      | ContinueTurn feedback =>
          if (ts_turn_end_continues st <? MAX_TURN_END_CONTINUES)%nat then
            say_user feedback;; ret (with_retries (S (ts_turn_end_continues st)) (ts_canvas_retries st) st, FlowContinue)
          else delivered
      | StopTurn => delivered
      end.

(** [None]: no final answer, there are tools to run. *)
Definition judge_final_answer (r : LlmResponse) (st : TurnState) : TurnM (TurnState * option TurnFlow) :=
  let content := rs_content r in
  let say := say_assistant content [] (rs_reasoning_content r) in
  if (length (rs_tool_calls r) =? 0%nat) || rs_finished r then
    if is_heartbeat_turn then say;; ret (st, Some (FlowStop (ADone (format_rpc content))))
    else
      let '(g, verdict) := check_final_answer (ts_turn_guard st) content in
      let st := with_guard g st in
      match verdict with
      | AcceptAnswer =>
          say;;
          x <- accept_answer content st;
          ret (fst x, Some (snd x))
      | RetryWithNudge nudge =>
          say;; ret (with_nudges (Some nudge) (ts_repetition_nudge_pending st) st, Some FlowContinue)
      | GiveUp notice =>
          say_assistant notice [] None;; ret (st, Some (FlowStop (ADone (format_rpc notice))))
      end
  else ret (st, None).

(** ** One call of a batch *)

(** What a parallel run leaves for the replay of the guards. *)
Record PrecomputedTool := mkPrecomputed { pt_result : str; pt_validation_failed : bool }.

(** The tools' fences: of the detached run, then of the profession. *)
Definition fence_refusal (tool : str) : option str :=
  match detached_tool_refusal (tv_agent env) tool with
  | Some text => Some text
  | None => profession_fence_refusal (tv_agent env) tool
  end.

(** A tool that is not registered has no schema; the dispatch reports it. *)
Definition check_tool_args (tc : ToolCallInfo) : Outcome :=
  match tv_parameters env (tc_name tc) with
  | Some schema => check schema (tc_arguments tc)
  | None => Valid
  end.

Definition run_tool_call (tc : ToolCallInfo) : TurnM str := λ w,
  let '(d, r) := run_call (wd_tools w) tc (tv_depth env) in (with_tools d w, r).

Definition invalid_text (message : str) : str := lit "Tool error: " ++ message.

Definition checked_call (tc : ToolCallInfo) : TurnM PrecomputedTool :=
  match check_tool_args tc with
  | Valid => r <- run_tool_call tc; ret (mkPrecomputed r false)
  | Fixed fixed_args => r <- run_tool_call (with_arguments tc fixed_args); ret (mkPrecomputed r false)
  | Invalid message _ => ret (mkPrecomputed (invalid_text message) true)
  end.

(** [validation_retry_budget] of the tier. *)
Definition validation_retry_budget : nat :=
  match tv_tier env with
  | Mini => 3
  | Normal | Big | Auto => 2
  end.

Definition count_validation (failed : bool) (st : TurnState) : TurnState :=
  with_validation (if failed then S (ts_validation_failures st) else 0%nat) st.

(** One call by itself: a refused one leaves the count of failures alone. *)
Definition serial_call (tc : ToolCallInfo) (st : TurnState) : TurnM (TurnState * str) :=
  match fence_refusal (tc_name tc) with
  | Some refusal => ret (st, refusal)
  | None => p <- checked_call tc; ret (count_validation (pt_validation_failed p) st, pt_result p)
  end.

(** One of a parallel batch: a refused one is replayed as a success of the check. *)
Definition parallel_call (tc : ToolCallInfo) : TurnM PrecomputedTool :=
  match fence_refusal (tc_name tc) with
  | Some refusal => ret (mkPrecomputed refusal false)
  | None => checked_call tc
  end.

(** [precompute_parallel_batch]: the calls end in any order; their results are in the order
    of the calls. *)
Definition complete_order (n : nat) (order : list nat) : list nat :=
  let order := remove_dups (filter (λ i, (i < n)%nat) order) in
  order ++ filter (λ i, i ∉ order) (seq 0 n).

Fixpoint run_in_order (order : list nat) (calls : list ToolCallInfo) (results : gmap nat PrecomputedTool)
    : TurnM (gmap nat PrecomputedTool) :=
  match order with
  | [] => ret results
  | i :: order =>
      match calls !! i with
      | Some tc => p <- parallel_call tc; run_in_order order calls (<[i := p]> results)
      | None => run_in_order order calls results
      end
  end.

Definition precompute_parallel_batch (order : list nat) (calls : list ToolCallInfo) : TurnM (list PrecomputedTool) :=
  results <- run_in_order order calls ∅;
  ret (omap (λ i, results !! i) (seq 0 (length calls))).

(** ** The guards behind a call *)

Definition nudged (result : str) (nudge : option str) : str :=
  match nudge with
  | Some n => result ++ [c_nl] ++ n
  | None => result
  end.

Definition gate_of (result : str) (tc : ToolCallInfo) (written : bool) (now : str) : str * bool * bool * option (list str * str) :=
  let pruned :=
    match prune_tool_result result (tc_name tc) (tv_has_spawn env) with
    | Some p => (p, false, tv_has_spawn env)
    | None => (result, false, false)
    end in
  if tv_spill_root env then
    match spill_tool_result written (tv_show_path env) result (tc_name tc) session_key now (tc_id tc) (tv_has_spawn env) with
    | (Spilled text, file) => (text, true, false, file)
    | (_, file) => (pruned, file)
    end
  else (pruned, None).

(** [apply_tool_guards]: the text of the result goes to the history as it is, what the model
    sees in its place only if it cannot be computed from that. *)
Definition apply_tool_guards (tc : ToolCallInfo) (original : str) (st : TurnState) : TurnM TurnState := λ w,
  let succeeded := negb (tool_result_indicates_error original) in
  let '(g, write_nudge) := if succeeded then record_write_success (ts_turn_guard st) (tc_name tc) (tc_arguments tc)
                           else (ts_turn_guard st, None) in
  let '(g, read_nudge) := if succeeded then record_read_success g (tc_name tc) (tc_arguments tc) else (g, None) in
  let guard_nudged := match write_nudge, read_nudge with None, None => false | _, _ => true end in
  let result := nudged (nudged original write_nudge) read_nudge in
  let result := if succeeded then tv_diagnose env tc result else result in
  let '(gate_text, spill_applied, prune_hinted, file) :=
    gate_of result tc (tv_spill_written env (wd_tick w)) (tv_spill_stamp env (ca_clock (wd_calls w))) in
  let ts := ca_clock (wd_calls w) in
  let '(g, nudge) := record_tool_outcome_verified g (tc_name tc) (if succeeded then None else Some gate_text)
                       (Some (tv_receipt env (tc_name tc) (tc_arguments tc) original ts, ts)) in
  let projection :=
    if spill_applied || guard_nudged || bool_decide (is_Some nudge) || prune_hinted
    then Some (nudged gate_text nudge) else None in
  (on_history (λ now, add_tool_result_projected (tc_id tc) original (tc_name tc) projection now) (with_spilled file w),
   Some (with_guard g st)).

(** A failure that came back too often: a human, or the unattended switch, lets it start
    again, or the turn ends. *)
Definition check_escalation (st : TurnState) : TurnM (TurnState * option AgentEvent) :=
  match escalating_signature (ts_turn_guard st) with
  | None => ret (st, None)
  | Some (sig, count) =>
      answer <- look (λ n, if tv_doom_loop_approval env then
                             tv_approval_auto env || default false (tv_ask_doom_loop env n)
                           else false);
      if answer : bool then ret (with_guard (clear_signature (ts_turn_guard st) sig) st, None)
      else ret (st, Some (ADone (format_rpc (escalation_message sig count))))
  end.

Definition validation_exhausted_text (n : nat) (tool : str) : str :=
  ulit "工具参数校验连续失败 " ++ show_nat n ++ ulit " 次，已停止重试。最近工具：'" ++ tool
  ++ ulit "'。建议：换用更强的模型（model set-tier / 模型管理页）或把任务拆得更具体后重试。".

Definition check_validation_budget (failures : nat) (tool : str) : option AgentEvent :=
  if (validation_retry_budget <=? failures)%nat then Some (AError (validation_exhausted_text failures tool)) else None.

(** ** Calls that go on elsewhere *)

Definition ASYNC_MARK : str := lit "__ASYNC__:".
Definition BG_SPAWN_MARK : str := lit "__BG_SPAWN__:".

Definition save_snapshot (task_id tool_call_id peer : str) : TurnM unit :=
  if tv_continuation_manager env then
    messages <- see (λ w, le_build_messages (tv_llm env) (ca_instance (wd_calls w)));
    act (with_snapshot (mkSnapshot task_id messages tool_call_id peer))
  else ret tt.

Definition async_accepted_text (target task_id : str) : str :=
  lit "Request accepted by " ++ target ++ lit ". Task ID: " ++ task_id ++ lit " | __CLUSTER_ASYNC__{" ++ [c_dquote] ++ lit "task_id"
  ++ [c_dquote] ++ lit ":" ++ [c_dquote] ++ task_id ++ [c_dquote] ++ lit "," ++ [c_dquote] ++ lit "target" ++ [c_dquote] ++ lit ":"
  ++ [c_dquote] ++ target ++ [c_dquote] ++ lit "}".

Definition bg_accepted_text (task_id : str) : str :=
  lit "Background sub-agent accepted. Task ID: " ++ task_id ++ lit " | __BG_ASYNC__{" ++ [c_dquote] ++ lit "task_id" ++ [c_dquote]
  ++ lit ":" ++ [c_dquote] ++ task_id ++ [c_dquote] ++ lit "}".

Definition waiting_text (target_name : str) : str := ulit "已经联系 " ++ target_name ++ ulit " 了，稍等~".
Definition background_text : str := ulit "已派后台子代理任务，完成后结果会自动带回本会话~".

(** The marker [__ASYNC__:task:target:name]; the name may hold colons, be empty or missing. *)
Definition async_parts (result : str) : option (str * str * str) :=
  match split_on (N.eqb c_colon) result with
  | _ :: task_id :: target_id :: rest =>
      let name := join [c_colon] rest in
      Some (task_id, target_id, if nonempty name then name else target_id)
  | _ => None
  end.

Definition save_async_continuation (tc : ToolCallInfo) (result : str) : TurnM (option AgentEvent) :=
  match async_parts result with
  | None => ret None
  | Some (task_id, target_id, target_name) =>
      save_snapshot task_id (tc_id tc) target_id;;
      say_result (tc_id tc) (async_accepted_text target_id task_id);;
      ret (Some (ADone (format_rpc (waiting_text target_name))))
  end.

Definition save_bg_spawn_continuation (tc : ToolCallInfo) (bg_task_id : str) : TurnM AgentEvent :=
  let task_id := trim bg_task_id in
  save_snapshot task_id (tc_id tc) [];;
  say_result (tc_id tc) (bg_accepted_text task_id);;
  ret (ADone (format_rpc background_text)).

(** ** The batch *)

Definition STEER_SKIP_TOOL_RESULT : str := lit "Skipped due to queued user message.".
Definition batch_stopped_text : str := ulit "⛔ 已急停 (E-STOP) — 工具调用已拒绝。发送 `nemesisbot estop --release` 恢复。".

(** Every call that is left gets a result that says so. *)
Fixpoint skip_rest (calls : list ToolCallInfo) : TurnM unit :=
  match calls with
  | [] => ret tt
  | tc :: calls =>
      say_result (tc_id tc) STEER_SKIP_TOOL_RESULT;;
      act (with_event (AToolResult (tc_name tc) STEER_SKIP_TOOL_RESULT false));;
      skip_rest calls
  end.

(** The result of a call and what it means: [None] to go on with the next one. *)
Definition settle_call (tc : ToolCallInfo) (result : str) (st : TurnState) : TurnM (TurnState * option TurnFlow) :=
  async <- (if starts_with ASYNC_MARK result then save_async_continuation tc result else ret None);
  match async with
  | Some ev => ret (st, Some (FlowStop ev))
  | None =>
      match strip_prefix BG_SPAWN_MARK result with
      | Some bg_task_id => ev <- save_bg_spawn_continuation tc bg_task_id; ret (st, Some (FlowStop ev))
      | None =>
          act (with_event (AToolResult (tc_name tc) result false));;
          st <- apply_tool_guards tc result st;
          x <- check_escalation st;
          match x with
          | (st, Some ev) => ret (with_reason (Some (lit "escalation")) st, Some (FlowStop ev))
          | (st, None) =>
              match check_validation_budget (ts_validation_failures st) (tc_name tc) with
              | Some ev => ret (with_reason (Some (lit "validation_exhausted")) st, Some (FlowStop ev))
              | None => ret (st, None)
              end
          end
      end
  end.

(** The calls from some point on; a parallel batch brings their results along, and is
    neither cancelled nor steered any more.  [None]: all are done. *)
Fixpoint run_batch (calls : list ToolCallInfo) (precomputed : option (list PrecomputedTool)) (st : TurnState)
    : TurnM (TurnState * option TurnFlow) :=
  match calls with
  | [] => ret (st, None)
  | tc :: rest =>
      cancelled <- (match precomputed with None => look (tv_cancelled env) | Some _ => ret false end);
      if cancelled : bool then act (with_event (ADone cancelled_text));; ret (st, Some FlowContinue)
      else
        engaged <- look (tv_engaged env);
        if engaged : bool then act (with_event (ADone batch_stopped_text));; ret (st, Some FlowContinue)
        else
          steer <- (match precomputed with None => steer_pending | Some _ => ret false end);
          if steer : bool then skip_rest calls;; ret (st, Some FlowContinue)
          else
            x <- (match precomputed with
                  | Some (p :: _) => ret (count_validation (pt_validation_failed p) st, pt_result p)
                  | _ => serial_call tc st
                  end);
            y <- settle_call tc (snd x) (fst x);
            match y with
            | (st, Some flow) => ret (st, Some flow)
            | (st, None) => run_batch rest (tail <$> precomputed) st
            end
  end.

Definition plan_rejected_text : str :=
  ulit "❌ 计划已被用户驳回 — 本轮到此结束（仍处于 plan 模式）。请根据用户反馈修改计划后再次调用 present_plan。".
Definition plan_timeout_text : str := ulit "⏱ 计划审批超时未获响应 — 本轮到此结束（仍处于 plan 模式）。".

Definition consume_plan_verdict (st : TurnState) : TurnM (TurnState * TurnFlow) :=
  verdict <- look (tv_plan_verdict env);
  match verdict with
  | Some PlanRejected => ret (with_reason (Some (lit "plan_rejected")) st, FlowStop (ADone plan_rejected_text))
  | Some PlanTimeout => ret (with_reason (Some (lit "plan_timeout")) st, FlowStop (ADone plan_timeout_text))
  | Some PlanApproved | None => ret (st, FlowContinue)
  end.

(** Whether the batch runs in parallel: more than one call, all of them safe, nothing stopped. *)
Definition parallel_batch (calls : list ToolCallInfo) : TurnM bool :=
  if (2 <=? length calls)%nat then
    cancelled <- look (tv_cancelled env);
    if cancelled : bool then ret false
    else
      engaged <- look (tv_engaged env);
      ret (negb engaged && forallb (λ tc, tv_parallel_safe env (tc_name tc)) calls)
  else ret false.

Definition execute_tool_batch (r : LlmResponse) (st : TurnState) : TurnM (TurnState * TurnFlow) :=
  let st := with_nudges None (ts_repetition_nudge_pending st) st in
  let calls := rs_tool_calls r in
  say_assistant (rs_content r) calls (rs_reasoning_content r);;
  act (if nonempty (trim (rs_content r)) then with_published [PubRoundText (rs_content r)] else id);;
  act (with_event (AToolCall calls));;
  parallel <- parallel_batch calls;
  precomputed <- (if parallel : bool then
                    order <- see (λ w, tv_parallel_order env (wd_tick w));
                    p <- precompute_parallel_batch (complete_order (length calls) order) calls; ret (Some p)
                  else ret None);
  x <- run_batch calls precomputed st;
  match x with
  | (st, Some flow) => ret (st, flow)
  | (st, None) => consume_plan_verdict st
  end.

(** ** The turn *)

(** One round: the state and, if the turn ends, its event. *)
Definition round (st : TurnState) : TurnM (TurnState * TurnFlow) :=
  p <- prepare_round st;
  match p with
  | (st, Some (ev, reason)) =>
      ret (with_reason (match reason with Some r => Some r | None => ts_terminal_reason st end) st,
           FlowStop (if is_pause reason then attach_pre_pause_probe_note ev st else ev))
  | (st, None) =>
      budget <- check_budget;
      match budget with
      | Some ev => ret (with_reason (Some (lit "token_budget")) st, FlowStop ev)
      | None =>
          claim_steer_messages st;;
          built <- build_round_messages st;
          match built with
          | Err ev => ret (st, FlowStop ev)
          | Ok messages =>
              answer <- call_model st messages;
              match answer with
              | Err ev => ret (st, FlowStop ev)
              | Ok r =>
                  let st := used_turn st in
                  record_usage r;;
                  x <- handle_length_continuation r st;
                  match x with
                  | (st, Some flow) => ret (st, flow)
                  | (st, None) =>
                      y <- judge_final_answer r (note_repetition r st);
                      match y with
                      | (st, Some flow) => ret (st, flow)
                      | (st, None) => execute_tool_batch r st
                      end
                  end
              end
          end
      end
  end.

Definition finalize_turn (st : TurnState) : TurnM unit :=
  cancelled <- look (tv_cancelled env);
  let reason := if cancelled : bool then lit "cancelled" else default (lit "done") (ts_terminal_reason st) in
  act (if ts_log_boundaries st || bool_decide (ts_terminal_reason st = Some (lit "budget_exhausted"))
       then with_boundary (lit "turn_end") reason else id).

(** Rounds until one ends the turn; [None] as well when there are more than the fuel. *)
Fixpoint rounds (fuel : nat) (st : TurnState) : TurnM TurnState :=
  match fuel with
  | O => λ w, (w, None)
  | S fuel =>
      x <- round st;
      match x with
      | (st, FlowContinue) => rounds fuel st
      | (st, FlowStop ev) => act (with_event ev);; ret st
      end
  end.

Definition log_boundaries : bool :=
  negb is_heartbeat_turn && negb is_cron_turn && negb (is_internal_channel (rc_channel (tx_context cx))).

Definition run_llm_loop (fuel : nat) (chat_opts : ChatOptions) : TurnM TurnState :=
  act (if log_boundaries then with_boundary (lit "turn_start") [] else id);;
  st <- rounds fuel (turn_new log_boundaries chat_opts);
  finalize_turn st;;
  ret st.

(** ** A turn comes back *)

Definition requests (w : World) : nat := made (wd_calls w).

(** It comes back, with a result of which [P] holds, after so many requests to the model at most. *)
Definition yields {A} (k : nat) (P : A → Prop) (m : TurnM A) : Prop :=
  ∀ w, (requests (fst (m w)) ≤ requests w + k)%nat ∧ ∃ x, snd (m w) = Some x ∧ P x.

Lemma yields_ret {A} k (P : A → Prop) x : P x → yields k P (ret x).
Proof. intros HP w. split; [simpl; lia|]. by exists x. Qed.

Lemma yields_both {A B} k l (P : A → Prop) (Q : B → Prop) m f :
  yields k P m → (∀ x, P x → yields l Q (f x)) → yields (k + l) Q (bind m f).
Proof.
  intros Hm Hf w. unfold bind. destruct (Hm w) as (Hk & x & Hx & HP). destruct (m w) as [w1 o]. simpl in Hx, Hk. subst o.
  destruct (Hf x HP w1) as (Hl & Hy). split; [lia|done].
Qed.

(** The requests are all in the one part or all in the other. *)
Lemma yields_bind {A B} k (P : A → Prop) (Q : B → Prop) m f :
  yields 0 P m → (∀ x, P x → yields k Q (f x)) → yields k Q (bind m f).
Proof. apply (yields_both 0). Qed.
Lemma yields_first {A B} k (P : A → Prop) (Q : B → Prop) m f :
  yields k P m → (∀ x, P x → yields 0 Q (f x)) → yields k Q (bind m f).
Proof. rewrite <-(Nat.add_0_r k) at 2. apply yields_both. Qed.

(** A step whose result does not matter. *)
Lemma yields_then {A B} k (Q : B → Prop) (m : TurnM A) f : yields 0 (λ _, True) m → (∀ x, yields k Q (f x)) → yields k Q (bind m f).
Proof. intros Hm Hf. eapply yields_bind; [done|]. intros x _. apply Hf. Qed.

(** A step that ends, by its equation, without a request. *)
Lemma yields_plain {A} (P : A → Prop) (m : TurnM A) : (∀ w, ∃ w' x, m w = (w', Some x) ∧ requests w' = requests w ∧ P x) → yields 0 P m.
Proof. intros Hm w. destruct (Hm w) as (w' & x & -> & E & HP). split; [simpl; lia|]. by exists x. Qed.

Lemma yields_act f : (∀ w, requests (f w) = requests w) → yields 0 (λ _, True) (act f).
Proof. intros Hf. apply yields_plain. intros w. by exists (f w), tt. Qed.
Lemma yields_see {A} (f : World → A) : yields 0 (λ _, True) (see f).
Proof. apply yields_plain. intros w. by exists w, (f w). Qed.
Lemma yields_look {A} (f : nat → A) (P : A → Prop) : (∀ n, P (f n)) → yields 0 P (look f).
Proof. intros HP. apply yields_plain. intros w. by eexists _, _. Qed.
Lemma yields_lift {A} k (m : CallM A) : costs k m → yields k (λ _, True) (lift_call m).
Proof.
  intros Hm w. unfold lift_call. destruct (Hm (wd_calls w)) as [Hk [x Hx]]. destruct (m (wd_calls w)) as [c o]. simpl in *. subst o.
  split; [exact Hk|]. by exists x.
Qed.
Lemma yields_weaken {A} k k' (P Q : A → Prop) m : (k ≤ k')%nat → yields k P m → (∀ x, P x → Q x) → yields k' Q m.
Proof. intros Hk Hm HQ w. destruct (Hm w) as (Hr & x & Hx & HP). split; [lia|]. eauto. Qed.

(** Steps that come back whatever happens. *)
Create HintDb turning.
Hint Resolve yields_see : turning.
Hint Extern 1 (yields 0 (λ _, True) (act _)) => apply yields_act; intros ?; by repeat case_match : turning.
Hint Extern 1 (yields 0 (λ _, True) (look _)) => by apply yields_look : turning.
Hint Extern 1 (yields 0 (λ _, True) (ret _)) => by apply yields_ret : turning.
Hint Extern 2 (yields 0 (λ _, True) (say_assistant _ _ _)) => by apply yields_act : turning.
Hint Extern 2 (yields 0 (λ _, True) (say_user _)) => by apply yields_act : turning.
Hint Extern 2 (yields 0 (λ _, True) (say_result _ _)) => by apply yields_act : turning.
Hint Extern 2 (yields 0 (λ _, True) (if ?b then _ else _)) => destruct b : turning.

Ltac turning := repeat (apply yields_then; [by auto with turning|intros ?]).

(** ** Limits of a turn *)

(** Turns used, the grace round and the options stay. *)
Definition steady (st st' : TurnState) : Prop :=
  ts_turns_used st' = ts_turns_used st ∧ ts_grace_round st' = ts_grace_round st ∧ ts_chat_opts st' = ts_chat_opts st.

(** No failure has come back too often, no run of bad arguments is too long; at the end of a
    turn one may have just reached its limit. *)
Definition calm (st : TurnState) : Prop :=
  (∀ sig, (count_of (tg_fail_freq (ts_turn_guard st)) sig < ALTERNATING_LOOP_HARD_STOP)%nat) ∧
  (ts_validation_failures st < validation_retry_budget)%nat.
Definition within (st : TurnState) : Prop :=
  (∀ sig, (count_of (tg_fail_freq (ts_turn_guard st)) sig ≤ ALTERNATING_LOOP_HARD_STOP)%nat) ∧
  (ts_validation_failures st ≤ validation_retry_budget)%nat.

Lemma calm_within st : calm st → within st.
Proof. intros [Hf Hv]. split; [intros sig; specialize (Hf sig)|]; lia. Qed.

Definition terminal (ev : AgentEvent) : Prop := match ev with AError _ | ADone _ => True | _ => False end.

(** What is left of the state by a part that may end the turn. *)
Definition flowed (st : TurnState) (x : TurnState * TurnFlow) : Prop :=
  steady st (fst x) ∧ match snd x with FlowContinue => calm (fst x) | FlowStop ev => within (fst x) ∧ terminal ev end.
Definition parted (st : TurnState) (x : TurnState * option TurnFlow) : Prop :=
  match snd x with
  | Some flow => flowed st (fst x, flow)
  | None => steady st (fst x) ∧ calm (fst x)
  end.

Lemma steady_refl st : steady st st. Proof. done. Qed.
Lemma steady_trans a b c : steady a b → steady b c → steady a c.
Proof. unfold steady. intuition congruence. Qed.

Lemma flowed_from a b x : steady a b → flowed b x → flowed a x.
Proof. intros Hab [Hs Hx]. split; [by eapply steady_trans|done]. Qed.
Lemma parted_from a b x : steady a b → parted b x → parted a x.
Proof.
  intros Hab. unfold parted. destruct (snd x); [by apply flowed_from|]. intros [Hs Hx]. split; [by eapply steady_trans|done].
Qed.

Lemma freq_write (g : TurnGuard) tool args : tg_fail_freq (fst (record_write_success g tool args)) = tg_fail_freq g.
Proof. unfold record_write_success. by case_match. Qed.
Lemma freq_read (g : TurnGuard) tool args : tg_fail_freq (fst (record_read_success g tool args)) = tg_fail_freq g.
Proof. unfold record_read_success. by case_match. Qed.
Lemma freq_text (g : TurnGuard) content : tg_fail_freq (fst (check_text_repetition g content)) = tg_fail_freq g.
Proof. unfold check_text_repetition. by repeat case_match. Qed.
Lemma freq_final (g : TurnGuard) text : tg_fail_freq (fst (check_final_answer g text)) = tg_fail_freq g.
Proof. unfold check_final_answer. by repeat case_match. Qed.

(** One outcome counts one signature once at most. *)
Lemma freq_outcome (g : TurnGuard) tool error r :
  let freq := tg_fail_freq (fst (record_tool_outcome_verified g tool error (Some r))) in
  freq = tg_fail_freq g ∨ ∃ sig, freq = bump (tg_fail_freq g) sig.
Proof.
  destruct r as [r ts]. unfold record_tool_outcome_verified, record_tool_outcome. destruct error as [e|]; [|by left]. right.
  exists (error_signature tool e). by case_match.
Qed.

Lemma escalating_none (g : TurnGuard) :
  escalating_signature g = None → ∀ sig, (count_of (tg_fail_freq g) sig < ALTERNATING_LOOP_HARD_STOP)%nat.
Proof.
  intros Hn sig. unfold count_of. destruct (tg_fail_freq g !! sig) as [n|] eqn:E; [|simpl; unfold ALTERNATING_LOOP_HARD_STOP; lia].
  apply elem_of_hash_iter, list_elem_of_In in E. apply (find_none _ _ Hn) in E. cbn [snd] in E. by apply Nat.leb_gt in E.
Qed.

Lemma escalating_some (g : TurnGuard) sig n :
  escalating_signature g = Some (sig, n) → (ALTERNATING_LOOP_HARD_STOP ≤ count_of (tg_fail_freq g) sig)%nat.
Proof.
  intros (Hi & Hn)%find_some. apply list_elem_of_In, elem_of_hash_iter in Hi. unfold count_of. rewrite Hi. by apply Nat.leb_le in Hn.
Qed.

(** ** The parts of a round *)

Section Ends.
Variables C : N.
Hypothesis ceilings : ∀ n, (le_ceiling (tv_llm env) n ≤ C)%N.
Hypothesis below : (C < 2 ^ 63)%N.
Hypothesis runs : ∀ d tc depth, is_Some (snd (run_call d tc depth)).

Lemma run_tool_yields tc : yields 0 (λ _, True) (run_tool_call tc).
Proof.
  apply yields_plain. intros w. unfold run_tool_call. destruct (runs (wd_tools w) tc (tv_depth env)) as [x Hx].
  destruct (run_call _ _ _) as [d o]. simpl in *. subst o. by eexists _, x.
Qed.
Hint Resolve run_tool_yields : turning.

Lemma checked_yields tc : yields 0 (λ _, True) (checked_call tc).
Proof. unfold checked_call. destruct (check_tool_args tc); turning; auto with turning. Qed.
Hint Resolve checked_yields : turning.

Lemma count_steady b st : steady st (count_validation b st) ∧ ts_turn_guard (count_validation b st) = ts_turn_guard st ∧
  (ts_validation_failures (count_validation b st) ≤ S (ts_validation_failures st))%nat.
Proof. unfold count_validation, steady. destruct b; simpl; split_and!; auto with lia. Qed.

(** Of one more call: the guard has not seen it yet. *)
Definition called (st : TurnState) (st' : TurnState) : Prop :=
  steady st st' ∧ ts_turn_guard st' = ts_turn_guard st ∧ (ts_validation_failures st' ≤ S (ts_validation_failures st))%nat.

Lemma serial_yields tc st : yields 0 (λ x, called st (fst x)) (serial_call tc st).
Proof.
  unfold serial_call. case_match; [apply yields_ret; split_and!; simpl; auto with lia; done|]. turning. apply yields_ret, count_steady.
Qed.

Lemma in_order_yields calls order : ∀ results, yields 0 (λ _, True) (run_in_order order calls results).
Proof.
  induction order as [|i order IH]; intros results; [by apply yields_ret|]. cbn [run_in_order]. case_match; [|apply IH].
  eapply yields_then; [|intros ?; apply IH]. unfold parallel_call. case_match; auto with turning.
Qed.

Lemma guards_yields tc result st : yields 0 (λ st', steady st st' ∧ ts_validation_failures st' = ts_validation_failures st ∧
  (tg_fail_freq (ts_turn_guard st') = tg_fail_freq (ts_turn_guard st) ∨
   ∃ sig, tg_fail_freq (ts_turn_guard st') = bump (tg_fail_freq (ts_turn_guard st)) sig)) (apply_tool_guards tc result st).
Proof.
  apply yields_plain. intros w. unfold apply_tool_guards.
  assert (∀ g : TurnGuard, ∀ b : bool, tg_fail_freq (fst (if b then record_write_success g (tc_name tc) (tc_arguments tc) else (g, None))) = tg_fail_freq g) as Hw
    by (intros g []; [apply freq_write|done]).
  assert (∀ g : TurnGuard, ∀ b : bool, tg_fail_freq (fst (if b then record_read_success g (tc_name tc) (tc_arguments tc) else (g, None))) = tg_fail_freq g) as Hr
    by (intros g []; [apply freq_read|done]).
  set (ok := negb _). specialize (Hw (ts_turn_guard st) ok).
  destruct (if ok then record_write_success _ _ _ else _) as [g1 n1]. specialize (Hr g1 ok).
  destruct (if ok then record_read_success _ _ _ else _) as [g2 n2]. simpl in Hw, Hr.
  destruct (gate_of _ _ _ _) as [[[gate spill] hinted] file].
  set (receipt := (tv_receipt env _ _ _ _, _)). set (err := if ok then None else Some gate).
  pose proof (freq_outcome g2 (tc_name tc) err receipt) as Ho.
  destruct (record_tool_outcome_verified g2 (tc_name tc) err (Some receipt)) as [g3 n3]. simpl in Ho.
  eexists _, _. do 2 (split; [done|]). do 2 (split; [done|]). simpl. rewrite Hr, Hw in Ho. exact Ho.
Qed.

(** The guard may have met its limit, for one failure. *)
Lemma escalation_yields st : (∀ sig, (count_of (tg_fail_freq (ts_turn_guard st)) sig ≤ ALTERNATING_LOOP_HARD_STOP)%nat) →
  (∀ sig sig', (ALTERNATING_LOOP_HARD_STOP ≤ count_of (tg_fail_freq (ts_turn_guard st)) sig)%nat →
               (ALTERNATING_LOOP_HARD_STOP ≤ count_of (tg_fail_freq (ts_turn_guard st)) sig')%nat → sig = sig') →
  yields 0 (λ x, steady st (fst x) ∧ ts_validation_failures (fst x) = ts_validation_failures st ∧
     match snd x with
     | Some ev => terminal ev ∧ fst x = st
     | None => ∀ sig, (count_of (tg_fail_freq (ts_turn_guard (fst x))) sig < ALTERNATING_LOOP_HARD_STOP)%nat
     end) (check_escalation st).
Proof.
  intros Hle Hone. unfold check_escalation. destruct (escalating_signature (ts_turn_guard st)) as [[sig n]|] eqn:E.
  - apply escalating_some in E. eapply yields_then; [by apply yields_look|]. intros []; apply yields_ret; [|done].
    split; [done|]. split; [done|]. intros sig'. simpl. unfold count_of. destruct (decide (sig = sig')) as [<-|Hne].
    + rewrite lookup_delete_eq. unfold ALTERNATING_LOOP_HARD_STOP. simpl. lia.
    + rewrite lookup_delete_ne by done. change (default 0%nat _) with (count_of (tg_fail_freq (ts_turn_guard st)) sig').
      specialize (Hle sig'). destruct (decide (count_of (tg_fail_freq (ts_turn_guard st)) sig' = ALTERNATING_LOOP_HARD_STOP)) as [Heq|]; [|lia].
      exfalso. apply Hne, Hone; [done|by rewrite Heq].
  - apply yields_ret. split; [done|]. split; [done|]. intros sig. by apply escalating_none.
Qed.

Lemma snapshot_yields task id peer : yields 0 (λ _, True) (save_snapshot task id peer).
Proof. unfold save_snapshot. case_match; turning; auto with turning. Qed.
Hint Resolve snapshot_yields : turning.

Lemma async_yields tc result : yields 0 (λ o, match o with Some ev => terminal ev | None => True end) (save_async_continuation tc result).
Proof. unfold save_async_continuation. destruct (async_parts result) as [[[task target] nm]|]; turning; by apply yields_ret. Qed.

Lemma bg_yields tc task : yields 0 terminal (save_bg_spawn_continuation tc task).
Proof. unfold save_bg_spawn_continuation. turning. by apply yields_ret. Qed.

Lemma settle_yields tc result st0 st : calm st0 → called st0 st → yields 0 (parted st0) (settle_call tc result st).
Proof.
  intros [Hf Hv] (Hs & Hg & Hc). assert (within st) as Hw. { split; [intros sig; rewrite Hg; specialize (Hf sig)|]; lia. }
  unfold settle_call. eapply (yields_bind _ (λ o, match o with Some ev => terminal ev | None => True end)).
  { destruct (starts_with _ _); [apply async_yields|by apply yields_ret]. }
  intros [ev|] Hev; [by apply yields_ret|]. destruct (strip_prefix _ _) as [task|].
  { eapply yields_bind; [apply bg_yields|]. intros ev' Hev'. by apply yields_ret. }
  turning. eapply yields_bind; [apply guards_yields|]. intros st1 (Hs1 & Hv1 & Hfr).
  assert (∀ sig, (count_of (tg_fail_freq (ts_turn_guard st1)) sig ≤ ALTERNATING_LOOP_HARD_STOP)%nat) as Hle1.
  { intros sig. specialize (Hf sig). rewrite <-Hg in Hf. destruct Hfr as [->|(sig' & ->)]; [lia|].
    rewrite count_bump. case_bool_decide; lia. }
  eapply yields_bind; [apply (escalation_yields st1 Hle1)|].
  - intros sig sig' Ha Hb. destruct Hfr as [Hfr|(k & Hfr)]; rewrite Hfr in Ha, Hb.
    + specialize (Hf sig). rewrite <-Hg in Hf. lia.
    + rewrite count_bump in Ha, Hb. pose proof (Hf sig). pose proof (Hf sig'). rewrite Hg in *.
      repeat case_bool_decide; subst; try done; lia.
  - intros [st2 [ev|]] (Hs2 & Hv2 & Hx); simpl in *.
    + destruct Hx as [Ht ->]. apply yields_ret. split; [by eapply steady_trans|]. split; [|done]. split; simpl; [done|lia].
    + unfold check_validation_budget. destruct (_ <=? _)%nat eqn:Eb; apply yields_ret.
      * split; [by do 2 eapply steady_trans|]. split; [|done].
        split; [intros sig; apply Nat.lt_le_incl, Hx|]. cbn [fst with_reason ts_validation_failures]. rewrite Hv2, Hv1. etrans; [exact Hc|exact Hv].
      * apply Nat.leb_gt in Eb. split; [by do 2 eapply steady_trans|]. split; [done|]. exact Eb.
Qed.

Lemma skip_yields calls : yields 0 (λ _, True) (skip_rest calls).
Proof. induction calls as [|tc calls IH]; cbn [skip_rest]; turning; [by apply yields_ret|exact IH]. Qed.
Hint Resolve skip_yields : turning.

Lemma batch_yields calls : ∀ precomputed st, calm st → yields 0 (parted st) (run_batch calls precomputed st).
Proof.
  induction calls as [|tc rest IH]; intros pre st Hst; [by apply yields_ret|]. cbn [run_batch].
  assert (yields 0 (parted st) (ret (st, Some FlowContinue))) as Hearly by (by apply yields_ret).
  eapply yields_then; [destruct pre; auto with turning|]. intros []; [by turning|].
  turning. destruct x; [by turning|]. eapply yields_then; [destruct pre; unfold steer_pending; [auto with turning|turning; auto with turning]|].
  intros []; [by turning|]. eapply (yields_bind _ (λ x, called st (fst x))).
  { destruct pre as [[|p pre]|]; try apply serial_yields. apply yields_ret, count_steady. }
  intros [st1 result] Hst1. eapply yields_bind; [by apply settle_yields|]. intros [st2 [flow|]] Hst2; [by apply yields_ret|].
  destruct Hst2 as [Hs2 Hc2]. eapply yields_weaken; [done|by apply IH|]. intros x Hx. by eapply parted_from.
Qed.

Lemma tool_batch_yields r st : calm st → yields 0 (flowed st) (execute_tool_batch r st).
Proof.
  intros Hst. unfold execute_tool_batch. turning. eapply yields_then.
  { unfold parallel_batch. destruct (2 <=? _)%nat; [|auto with turning]. eapply yields_then; [auto with turning|]. intros []; [auto with turning|].
    turning. auto with turning. }
  intros par. eapply yields_then.
  { destruct par; [|auto with turning]. turning. unfold precompute_parallel_batch. eapply yields_then; [|intros; auto with turning].
    eapply yields_then; [apply in_order_yields|]. intros; auto with turning. }
  intros pre. eapply yields_bind; [by apply batch_yields|]. intros [st1 [flow|]] Hst1; [by apply yields_ret|].
  unfold consume_plan_verdict. eapply yields_then; [by apply yields_look|]. intros v. destruct Hst1 as [Hs1 Hc1].
  assert (within st1) by by apply calm_within. destruct v as [[]|]; by apply yields_ret.
Qed.

(** What a round leaves: one turn more is used, or the turn ends. *)
Lemma stop_yields st notice : within st → yields 0 (λ flow, flowed st (st, flow)) (stop_with_error notice).
Proof. intros Hst. unfold stop_with_error. turning. by apply yields_ret. Qed.

Lemma length_yields r st : calm st → yields 0 (parted st) (handle_length_continuation r st).
Proof.
  intros [Hf Hv]. unfold handle_length_continuation. destruct (hit_cap _ _); [|by apply yields_ret]. cbv zeta.
  set (st1 := with_lengths _ _ st). assert (within st1) as Hw by (by apply calm_within).
  destruct (_ && _); [eapply yields_bind; [by apply stop_yields|]; intros flow Hfl; by apply yields_ret|].
  destruct (_ <? _)%nat; [|eapply yields_bind; [by apply stop_yields|]; intros flow Hfl; by apply yields_ret].
  turning. by apply yields_ret.
Qed.

Lemma accept_yields content st : calm st → yields 0 (flowed st) (accept_answer content st).
Proof.
  intros Hst. unfold accept_answer. cbv zeta. destruct (_ && _); [turning; by apply yields_ret|].
  eapply yields_then; [unfold steer_pending; destruct (ts_steer_escape_used st); [auto with turning|turning; auto with turning]|].
  intros steer. destruct (_ && _); [by apply yields_ret|]. turning.
  assert (∀ p, yields 0 (flowed st) (act (with_published p);; ret (st, FlowStop (ADone (format_rpc content))))) as Hd.
  { intros p. turning. apply yields_ret. split; [done|]. split; [by apply calm_within|done]. }
  destruct (run_turn_end_hooks _ _ _); [apply Hd|]. destruct (_ <? _)%nat; [turning; by apply yields_ret|apply Hd].
Qed.

Lemma judge_yields r st : calm st → yields 0 (parted st) (judge_final_answer r st).
Proof.
  intros [Hf Hv]. unfold judge_final_answer. destruct (_ || _); [|by apply yields_ret].
  assert (within st) as Hw by (by apply calm_within).
  destruct is_heartbeat_turn; [turning; by apply yields_ret|].
  pose proof (freq_final (ts_turn_guard st) (rs_content r)) as Hg. destruct (check_final_answer _ _) as [g v]. simpl in Hg.
  assert (calm (with_guard g st)) as Hc by (split; [simpl; by rewrite Hg|done]).
  assert (within (with_guard g st)) as Hw' by (by apply calm_within).
  destruct v; turning; [|by apply yields_ret|by apply yields_ret].
  eapply yields_bind; [by apply accept_yields|]. intros [st1 flow] Hfl. by apply yields_ret.
Qed.

Lemma note_calm r st : calm st → calm (note_repetition r st) ∧ steady st (note_repetition r st).
Proof.
  intros [Hf Hv]. unfold note_repetition. pose proof (freq_text (ts_turn_guard st) (rs_content r)) as Hg.
  destruct (check_text_repetition _ _) as [g n]. simpl in Hg. split; [|done]. split; [simpl; by rewrite Hg|done].
Qed.

Variable B : N.
Hypothesis limited : ∀ n, (0 < effective_max_turns (tv_max_tool_iterations env n) ≤ B)%N.
Hypothesis no_wrap : (B + 1 < 2 ^ 32)%N.

(** The turns used stay under the bound, but for the grace round. *)
Definition paced (st : TurnState) : Prop :=
  calm st ∧ u32_options (Some (ts_chat_opts st)) ∧ (ts_turns_used st ≤ if ts_grace_round st then B + 1 else B)%N.

(** The rounds that are left, with the one that stops. *)
Definition rounds_left (st : TurnState) : N :=
  if (ts_turns_used st <? B)%N then B - ts_turns_used st + 2 else if ts_grace_round st then 1 else 2.

Definition over (st : TurnState) (ev : AgentEvent) : Prop := within st ∧ (ts_turns_used st ≤ B + 1)%N ∧ terminal ev.

(** A round that runs: under the bound, or the grace round itself. *)
Definition prepared (st : TurnState) (x : TurnState * option (AgentEvent * option str)) : Prop :=
  match snd x with
  | Some (ev, _) => fst x = st ∧ terminal ev
  | None => (fst x = st ∧ (ts_turns_used st < B)%N) ∨ (fst x = with_grace st ∧ ts_grace_round st = false)
  end.

Lemma prepare_yields st : yields 0 (prepared st) (prepare_round st).
Proof.
  unfold prepare_round. eapply yields_then; [by apply yields_look|]. intros []; [by apply yields_ret|].
  eapply yields_then; [by apply yields_look|]. intros []; [by apply yields_ret|].
  eapply (yields_bind _ (λ l, 0 < effective_max_turns l ≤ B)%N); [by apply yields_look|]. intros l [Hl HB]. cbv zeta.
  destruct (_ && _) eqn:E.
  - destruct (ts_grace_round st) eqn:G; cbn [negb]; [|apply yields_ret; by right]. destruct (tx_turn_budget cx); by apply yields_ret.
  - apply yields_ret. left. split; [done|]. apply andb_false_iff in E as [E%N.ltb_ge|E%N.leb_gt]; lia.
Qed.

Lemma budget_yields : yields 0 (λ o, match o with Some ev => terminal ev | None => True end) check_budget.
Proof.
  unfold check_budget. eapply yields_then.
  { apply yields_plain. intros w. destruct (check_session_budget _ _ _ _) as [m r]. by eexists _, r. }
  intros [[]|notice].
  - eapply yields_then; [by eapply (yields_lift 0), costs_doing, compression_free|]. intros ?. by apply yields_ret.
  - by apply yields_ret.
  - turning. by apply yields_ret.
Qed.

Lemma inject_yields b messages : yields 0 (λ _, True) (inject b messages).
Proof.
  induction messages as [|m messages IH]; cbn [inject]; [by apply yields_ret|]. destruct (tv_prepare_steer env _) as [content refs].
  turning. exact IH.
Qed.

Lemma claim_yields st : yields 0 (λ _, True) (claim_steer_messages st).
Proof.
  unfold claim_steer_messages. eapply yields_then; [|intros; apply inject_yields]. apply yields_plain. intros w.
  destruct (claim_next_step _ _) as [ib l]. by eexists _, l.
Qed.

Lemma build_yields st : yields 0 (λ o, match o with Err ev => terminal ev | Ok _ => True end) (build_round_messages st).
Proof.
  unfold build_round_messages. turning. destruct (run_llm_pre_hooks _ _ _ _ _); [|by apply yields_ret].
  eapply yields_then; [by apply (yields_lift 0), costs_doing|]. intros ?. turning. by apply yields_ret.
Qed.

(** The requests of one call. *)
Definition call_requests : nat := calls_bound (tv_llm env) * rungs C.

Lemma model_yields st messages : u32_options (Some (ts_chat_opts st)) →
  yields call_requests (λ o, match o with Err ev => terminal ev | Ok _ => True end) (call_model st messages).
Proof.
  intros Ho w. unfold call_model. set (tc := call_of_turn st _).
  assert (costs call_requests (call_llm_with_recovery (tv_llm env) tc messages (le_effective_tool_defs (tv_llm env)))) as Hc
    by by apply model_comes_back.
  pose proof (model_records (tv_llm env) tc messages (le_effective_tool_defs (tv_llm env)) (wd_calls w)) as Hr.
  unfold lift_call. destruct (Hc (wd_calls w)) as [Hk [x Hx]]. destruct (call_llm_with_recovery _ _ _ _ _) as [c o]. simpl in *. subst o.
  split; [exact Hk|]. exists x. split; [done|]. destruct x as [|[]]; done.
Qed.

(** One round more, or the end. *)
Definition advanced (st : TurnState) (x : TurnState * TurnFlow) : Prop :=
  match snd x with
  | FlowContinue => paced (fst x) ∧ (rounds_left (fst x) < rounds_left st)%N
  | FlowStop ev => over (fst x) ev
  end.

Lemma round_yields st : paced st → yields call_requests (advanced st) (round st).
Proof.
  intros ([Hf Hv] & Ho & Hu). unfold round. eapply yields_bind; [apply prepare_yields|]. intros [st1 [[ev reason]|]].
  - intros [E Ht]. simpl in E, Ht. subst st1. apply yields_ret. split; [by apply calm_within|]. simpl.
    split; [destruct (ts_grace_round st); lia|]. destruct (is_pause reason); [|done]. unfold attach_pre_pause_probe_note.
    destruct ev; try done. by repeat case_match.
  - intros Hp. unfold prepared in Hp. cbn [fst snd] in Hp.
    assert (calm st1 ∧ ts_chat_opts st1 = ts_chat_opts st ∧ ts_turns_used st1 = ts_turns_used st ∧ (ts_turns_used st1 ≤ B)%N ∧
            (rounds_left (used_turn st1) < rounds_left st)%N ∧ (ts_turns_used (used_turn st1) = ts_turns_used st1 + 1)%N ∧
            (ts_turns_used st1 < B ∨ ts_grace_round st1 = true)%N) as (Hc1 & Ho1 & Hu1 & HB1 & Hl1 & Hn1 & Hg1).
    { assert (ts_turns_used (used_turn st) = ts_turns_used st + 1)%N as Hn.
      { simpl. apply N.mod_small. destruct Hp as [[_ ?]|[_ G]]; [lia|]. rewrite G in Hu. lia. }
      destruct Hp as [[-> Hlt]|[-> G]].
      - split_and!; try done; [lia| |by left]. unfold rounds_left. rewrite Hn. simpl.
        destruct (N.ltb_spec (ts_turns_used st) B); [|lia]. destruct (N.ltb_spec (ts_turns_used st + 1) B); [lia|]. case_match; lia.
      - rewrite G in Hu. split_and!; try done; [|by right]. unfold rounds_left. rewrite G. simpl in *. rewrite Hn.
        destruct (N.ltb_spec (ts_turns_used st + 1) B), (N.ltb_spec (ts_turns_used st) B); lia. }
    assert (∀ x, flowed (used_turn st1) x → advanced st x) as Hadv.
    { intros [st2 flow] [(Hs2 & Hg2 & Hop2) Hx]. unfold advanced. simpl in *. destruct flow.
      - split.
        + split; [done|]. split; [by rewrite Hop2, Ho1|]. rewrite Hs2, Hg2. simpl in Hn1. rewrite Hn1.
          destruct Hg1 as [Hlt| ->]; [clear -HB1 Hlt; case_match; lia|clear -HB1; lia].
        + unfold rounds_left in Hl1 |- *. rewrite Hs2, Hg2. exact Hl1.
      - destruct Hx. split; [done|]. split; [|done]. rewrite Hs2. simpl in Hn1. rewrite Hn1. lia. }
    assert (within st1) as Hw1 by by apply calm_within. assert (∀ ev, terminal ev → advanced st (st1, FlowStop ev)) as Hstop.
    { intros ev Ht. split; [done|]. simpl. split; [lia|done]. }
    eapply yields_bind; [apply budget_yields|]. intros [ev|] Hev.
    { apply yields_ret. split; [done|]. simpl. split; [lia|done]. }
    eapply yields_then; [apply claim_yields|]. intros _. eapply yields_bind; [apply build_yields|].
    intros [messages|ev] Hb; [|by apply yields_ret, Hstop]. eapply yields_first; [by apply model_yields; rewrite Ho1|].
    intros [r|ev] Hr; [|by apply yields_ret, Hstop]. eapply yields_then.
    { apply yields_plain. intros w. unfold record_usage. destruct (record_round_usage _ _ _ _ _ _). by eexists _, _. }
    intros _. assert (calm (used_turn st1)) as Hc2 by done.
    eapply yields_bind; [by apply length_yields|]. intros [st2 [flow|]] H2'; [by apply yields_ret, Hadv|]. destruct H2' as [Hs2 Hc3].
    destruct (note_calm r st2 Hc3) as [Hc4 Hs4]. eapply yields_bind; [by apply judge_yields|].
    assert (steady (used_turn st1) (note_repetition r st2)) as Hs5 by by eapply steady_trans.
    intros [st3 [flow|]] H3'; [apply yields_ret, Hadv; by eapply flowed_from|]. destruct H3' as [Hs6 Hc6]. simpl in Hs6, Hc6.
    eapply yields_weaken; [done|by apply tool_batch_yields|]. intros x Hx. apply Hadv. eapply flowed_from; [|done].
    by eapply steady_trans.
Qed.

Lemma rounds_yields fuel : ∀ st, paced st → (rounds_left st ≤ N.of_nat fuel)%N →
  yields (N.to_nat (rounds_left st) * call_requests) (λ st', within st' ∧ (ts_turns_used st' ≤ B + 1)%N) (rounds fuel st).
Proof.
  induction fuel as [|fuel IH]; intros st Hp Hl.
  { exfalso. unfold rounds_left in Hl. repeat case_match; lia. }
  assert (0 < rounds_left st)%N as Hpos by (unfold rounds_left; repeat case_match; lia).
  cbn [rounds]. replace (N.to_nat (rounds_left st)) with (S (N.to_nat (rounds_left st - 1))) by lia.
  apply (yields_both call_requests (N.to_nat (rounds_left st - 1) * call_requests) (advanced st)); [by apply round_yields|]. intros [st1 [|ev]] Hx.
  - destruct Hx as [Hp1 Hl1]. simpl in Hl1. eapply yields_weaken; [|apply IH; [done|]|done]; [|lia]. apply Nat.mul_le_mono_r. lia.
  - destruct Hx as (Hw & Hu & Ht). turning. by apply yields_ret.
Qed.

Lemma loop_yields opts fuel : u32_options (Some opts) → (B + 2 ≤ N.of_nat fuel)%N →
  yields (N.to_nat (B + 2) * call_requests) (λ st, within st ∧ (ts_turns_used st ≤ B + 1)%N) (run_llm_loop fuel opts).
Proof.
  intros Ho Hf. unfold run_llm_loop. turning. eapply yields_first; [eapply yields_weaken; [|apply rounds_yields|done]|].
  - apply Nat.mul_le_mono_r. unfold rounds_left. simpl. destruct (N.ltb_spec 0 B); lia.
  - split; [|split; [done|simpl; lia]]. split; [|simpl; unfold validation_retry_budget; case_match; lia].
    intros sig. simpl. unfold count_of. rewrite lookup_empty. unfold ALTERNATING_LOOP_HARD_STOP. simpl. lia.
  - unfold rounds_left. simpl. destruct (N.ltb_spec 0 B); lia.
  - intros st Hst. eapply yields_then; [unfold finalize_turn; turning; auto with turning|]. intros _. by apply yields_ret.
Qed.

End Ends.

(** ** The steps of a turn *)

(** A call that may be run: no fence is in its way, and its arguments conform to the schema of
    the tool, if there is one. *)
Definition allowed (tc : ToolCallInfo) : Prop :=
  fence_refusal (tc_name tc) = None ∧
  (tv_parameters env (tc_name tc) = None ∨
   ∃ schema args, tv_parameters env (tc_name tc) = Some schema ∧ json_from_str (tc_arguments tc) = Some args ∧
     Conforms schema args).

(** Of tools, history and events one moves at a time: a call that may be run is run, a turn is
    added, an event goes out, or the step is in none of them. *)
Inductive turn_step (w w' : World) : Prop :=
| step_quiet : wd_tools w' = wd_tools w → history w' = history w → wd_events w' = wd_events w → turn_step w w'
| step_say t : wd_tools w' = wd_tools w → history w' = history w ++ [t] → wd_events w' = wd_events w → turn_step w w'
| step_emit ev : wd_tools w' = wd_tools w → history w' = history w → wd_events w' = wd_events w ++ [ev] → turn_step w w'
| step_run tc r : allowed tc → run_call (wd_tools w) tc (tv_depth env) = (wd_tools w', r) → history w' = history w →
    wd_events w' = wd_events w → turn_step w w'.

Definition steps {A} (m : TurnM A) : Prop := ∀ w, rtc turn_step w (fst (m w)).

Lemma steps_bind {A B} (m : TurnM A) (f : A → TurnM B) : steps m → (∀ x, steps (f x)) → steps (bind m f).
Proof. intros Hm Hf w. unfold bind. specialize (Hm w). destruct (m w) as [w1 [x|]]; [|done]. etrans; [exact Hm|apply Hf]. Qed.

(** The same where the rest depends on how the first part ended. *)
Lemma steps_ret {A} (x : A) : steps (ret x). Proof. intros w. constructor. Qed.
Lemma steps_see {A} (f : World → A) : steps (see f). Proof. intros w. constructor. Qed.
Lemma steps_quiet (f : World → World) : (∀ w, turn_step w (f w)) → steps (act f).
Proof. intros Hf w. by apply rtc_once. Qed.
Lemma steps_look {A} (f : nat → A) : steps (look f). Proof. intros w. apply rtc_once. by apply step_quiet. Qed.

Lemma steps_assistant content calls reasoning : steps (say_assistant content calls reasoning).
Proof. apply steps_quiet. intros w. by eapply step_say. Qed.
Lemma steps_user content : steps (say_user content).
Proof. apply steps_quiet. intros w. by eapply step_say. Qed.
Lemma steps_result id content : steps (say_result id content).
Proof. apply steps_quiet. intros w. by eapply step_say. Qed.

Create HintDb stepping.
Hint Resolve steps_ret steps_see steps_look steps_assistant steps_user steps_result : stepping.
Hint Extern 1 (steps (act _)) =>
  apply steps_quiet; intros ?; first [by apply step_quiet|by repeat case_match; apply step_quiet|by eapply step_say|by eapply step_emit] : stepping.

(** Step by step through the monad, by cases on what decides. *)
Ltac stepping :=
  repeat (cbv zeta; first
    [ solve [auto with stepping]
    | apply steps_bind; [|intros ?]
    | match goal with
      | |- steps (match ?x with _ => _ end) => destruct x
      end ]).

Lemma check_allowed tc : fence_refusal (tc_name tc) = None →
  match check_tool_args tc with
  | Valid => allowed tc
  | Fixed fixed_args => allowed (with_arguments tc fixed_args)
  | Invalid _ _ => True
  end.
Proof.
  intros Hf. unfold check_tool_args. destruct (tv_parameters env (tc_name tc)) as [schema|] eqn:Es; [|split; [done|by left]].
  unfold check. destruct (json_from_str (tc_arguments tc)) as [v|] eqn:Ea; [|done].
  pose proof (validate_nil schema v) as Hv. destruct (validate schema v) as [|x vs].
  { split; [done|]. right. exists schema, v. split_and!; [done..|by apply Hv]. }
  destruct (try_autofix schema v) as [fixed|] eqn:Ef; [|done]. pose proof (validate_nil schema fixed) as Hv'.
  destruct (validate schema fixed) eqn:E; [|done].
  destruct v as [| | | | |o]; try (unfold try_autofix in Ef; by destruct (properties schema)).
  pose proof (autofix_canonical _ _ _ (json_from_canonical _ _ Ea) Ef) as Hc.
  split; [done|]. right. exists schema, fixed. split_and!; [done|by apply json_roundtrip|by apply Hv'].
Qed.

Lemma steps_run_tool tc : allowed tc → steps (run_tool_call tc).
Proof.
  intros Ha w. unfold run_tool_call. destruct (run_call (wd_tools w) tc (tv_depth env)) as [d r] eqn:E. apply rtc_once. by eapply step_run.
Qed.

Lemma steps_checked tc : fence_refusal (tc_name tc) = None → steps (checked_call tc).
Proof.
  intros Hf%check_allowed. unfold checked_call. destruct (check_tool_args tc); [| |apply steps_ret];
    (apply steps_bind; [by apply steps_run_tool|intros ?; apply steps_ret]).
Qed.

Lemma steps_serial tc st : steps (serial_call tc st).
Proof.
  unfold serial_call. destruct (fence_refusal (tc_name tc)) eqn:E; [apply steps_ret|].
  apply steps_bind; [by apply steps_checked|intros ?; apply steps_ret].
Qed.

Lemma steps_in_order calls order : ∀ results, steps (run_in_order order calls results).
Proof.
  induction order as [|i order IH]; intros results; [apply steps_ret|]. cbn [run_in_order]. destruct (calls !! i); [|apply IH].
  apply steps_bind; [|intros ?; apply IH]. unfold parallel_call. destruct (fence_refusal _) eqn:E; [apply steps_ret|by apply steps_checked].
Qed.

Lemma steps_guards tc result st : steps (apply_tool_guards tc result st).
Proof. intros w. unfold apply_tool_guards. repeat case_match; apply rtc_once; by eapply step_say. Qed.

Lemma steps_pending : steps steer_pending.
Proof. unfold steer_pending. stepping. Qed.
Hint Resolve steps_serial steps_in_order steps_guards steps_pending : stepping.

Lemma steps_escalation st : steps (check_escalation st).
Proof. unfold check_escalation. stepping. Qed.

Lemma steps_snapshot task id peer : steps (save_snapshot task id peer).
Proof. unfold save_snapshot. stepping. Qed.
Hint Resolve steps_escalation steps_snapshot : stepping.

Lemma steps_settle tc result st : steps (settle_call tc result st).
Proof. unfold settle_call, save_async_continuation, save_bg_spawn_continuation. stepping. Qed.

Lemma steps_skip calls : steps (skip_rest calls).
Proof. induction calls as [|tc calls IH]; cbn [skip_rest]; stepping. Qed.
Hint Resolve steps_settle steps_skip : stepping.

Lemma steps_batch calls : ∀ precomputed st, steps (run_batch calls precomputed st).
Proof. induction calls as [|tc rest IH]; intros pre st; cbn [run_batch]; stepping. Qed.
Hint Resolve steps_batch : stepping.

Lemma steps_tool_batch r st : steps (execute_tool_batch r st).
Proof. unfold execute_tool_batch, parallel_batch, precompute_parallel_batch, consume_plan_verdict. stepping. Qed.

Hint Resolve steps_tool_batch : stepping.

(** A call to the model adds one turn at most. *)
Lemma steps_model st messages : steps (call_model st messages).
Proof.
  intros w. unfold call_model. set (tc := call_of_turn st _).
  pose proof (model_records (tv_llm env) tc messages (le_effective_tool_defs (tv_llm env)) (wd_calls w)) as Hr.
  unfold lift_call. destruct (call_llm_with_recovery _ _ _ _ _) as [c o]. cbn [fst snd] in *. apply rtc_once. destruct o as [[r|ev]|];
    [by apply step_quiet| |by apply step_quiet].
  destruct ev; try by exfalso. 2: by apply step_quiet.
  destruct Hr as (raw & now & Hr). by eapply step_say.
Qed.

Lemma steps_lift_quiet f : (∀ c, turns_of (f c) = turns_of c) → steps (lift_call (doing f)).
Proof. intros Hf w. apply rtc_once, step_quiet; [done| |done]. apply Hf. Qed.

Lemma steps_budget : steps check_budget.
Proof.
  unfold check_budget. apply steps_bind.
  { intros w. destruct (check_session_budget _ _ _ _) as [m r]. apply rtc_once. by apply step_quiet. }
  intros [[]|notice]; stepping. apply steps_lift_quiet. apply (keeps_compression (tv_llm env)).
Qed.

Lemma steps_inject b messages : steps (inject b messages).
Proof.
  induction messages as [|m messages IH]; cbn [inject]; stepping.
Qed.

Lemma steps_claim st : steps (claim_steer_messages st).
Proof.
  unfold claim_steer_messages. apply steps_bind; [|intros ?; apply steps_inject]. intros w.
  destruct (claim_next_step _ _) as [ib l]. apply rtc_once. by apply step_quiet.
Qed.

Lemma steps_build st : steps (build_round_messages st).
Proof. unfold build_round_messages. stepping. by apply steps_lift_quiet. Qed.

Lemma steps_usage r : steps (record_usage r).
Proof. intros w. unfold record_usage. destruct (record_round_usage _ _ _ _ _ _). apply rtc_once. by apply step_quiet. Qed.

Lemma steps_length r st : steps (handle_length_continuation r st).
Proof. unfold handle_length_continuation, stop_with_error. stepping. Qed.

Lemma steps_judge r st : steps (judge_final_answer r st).
Proof. unfold judge_final_answer, accept_answer. stepping. Qed.

Lemma steps_prepare st : steps (prepare_round st).
Proof. unfold prepare_round. stepping. Qed.
Hint Resolve steps_model steps_budget steps_claim steps_build steps_usage steps_length steps_judge steps_prepare : stepping.

Lemma steps_round st : steps (round st).
Proof. unfold round. stepping. Qed.
Hint Resolve steps_round : stepping.

Lemma steps_rounds fuel : ∀ st, steps (rounds fuel st).
Proof. induction fuel as [|fuel IH]; intros st; cbn [rounds]; [intros w; constructor|]. stepping. Qed.
Hint Resolve steps_rounds : stepping.

Lemma steps_loop opts fuel : steps (run_llm_loop fuel opts).
Proof. unfold run_llm_loop, finalize_turn. stepping. Qed.

(** The calls of a turn, one after the other. *)
Fixpoint run_calls (d : D) (calls : list ToolCallInfo) : D :=
  match calls with
  | [] => d
  | tc :: calls => run_calls (fst (run_call d tc (tv_depth env))) calls
  end.

Lemma stepped w w' : rtc turn_step w w' →
  (∃ calls, Forall allowed calls ∧ wd_tools w' = run_calls (wd_tools w) calls) ∧
  history w `prefix_of` history w' ∧ wd_events w `prefix_of` wd_events w'.
Proof.
  induction 1 as [w|w w1 w' Hs _ ((calls & Ha & Hr) & Hh & He)]; [split_and!; [by exists []|done..]|].
  destruct Hs as [Ht Hh1 He1|t Ht Hh1 He1|ev Ht Hh1 He1|tc r Htc Ht Hh1 He1].
  - rewrite <-Ht, <-Hh1, <-He1. split_and!; [by exists calls|done..].
  - rewrite <-Ht, <-He1. split_and!; [by exists calls| |done]. etrans; [|exact Hh]. rewrite Hh1. by exists [t].
  - rewrite <-Ht, <-Hh1. split_and!; [by exists calls|done|]. etrans; [|exact He]. rewrite He1. by exists [ev].
  - rewrite <-Hh1, <-He1. split_and!; [|done..]. exists (tc :: calls). split; [by constructor|]. simpl. by rewrite Ht.
Qed.

(** ** The answers of a batch *)

(** What holds where a part comes back. *)
Definition lands {A} (w : World) (m : TurnM A) (Q : A → World → Prop) : Prop :=
  match m w with
  | (w, Some x) => Q x w
  | (_, None) => True
  end.

Lemma lands_bind {A B} w (m : TurnM A) (f : A → TurnM B) Q : lands w m (λ x w', lands w' (f x) Q) → lands w (bind m f) Q.
Proof. unfold lands, bind. by destruct (m w) as [w1 [x|]]. Qed.
Lemma lands_weaken {A} w (m : TurnM A) (P Q : A → World → Prop) : lands w m P → (∀ x w', P x w' → Q x w') → lands w m Q.
Proof. unfold lands. destruct (m w) as [w1 [x|]]; auto. Qed.

Lemma lands_act {B} w f (k : unit → TurnM B) Q : lands (f w) (k tt) Q → lands w (bind (act f) k) Q.
Proof. done. Qed.

(** A part that leaves history and events alone. *)
Definition mute {A} (m : TurnM A) : Prop :=
  ∀ w, lands w m (λ _ w', history w' = history w ∧ wd_events w' = wd_events w).

Lemma mute_bind {A B} (m : TurnM A) (f : A → TurnM B) : mute m → (∀ x, mute (f x)) → mute (bind m f).
Proof.
  intros Hm Hf w. apply lands_bind. eapply lands_weaken; [apply Hm|]. intros x w1 [<- <-]. apply Hf.
Qed.

Lemma lands_mute {A B} w (m : TurnM A) (f : A → TurnM B) (Q : B → World → Prop) : mute m →
  (∀ x w', history w' = history w → wd_events w' = wd_events w → lands w' (f x) Q) → lands w (bind m f) Q.
Proof. intros Hm Hf. apply lands_bind. eapply lands_weaken; [apply Hm|]. intros x w' [??]. by apply Hf. Qed.

Lemma mute_ret {A} (x : A) : mute (ret x). Proof. done. Qed.
Lemma mute_see {A} (f : World → A) : mute (see f). Proof. done. Qed.
Lemma mute_look {A} (f : nat → A) : mute (look f). Proof. done. Qed.
Lemma mute_act f : (∀ w, history (f w) = history w ∧ wd_events (f w) = wd_events w) → mute (act f).
Proof. intros Hf w. apply Hf. Qed.
Lemma mute_run tc : mute (run_tool_call tc).
Proof. intros w. unfold lands, run_tool_call. by destruct (run_call _ _ _) as [d [r|]]. Qed.

Create HintDb muting.
Hint Resolve mute_ret mute_see mute_look mute_run : muting.
Hint Extern 1 (mute (act _)) => apply mute_act; intros ?; by repeat case_match : muting.

Ltac muting :=
  repeat (cbv zeta; first
    [ solve [auto with muting]
    | apply mute_bind; [|intros ?]
    | match goal with
      | |- mute (match ?x with _ => _ end) => destruct x
      end ]).

Lemma mute_checked tc : mute (checked_call tc).
Proof. unfold checked_call. muting. Qed.
Hint Resolve mute_checked : muting.
Lemma mute_serial tc st : mute (serial_call tc st).
Proof. unfold serial_call. muting. Qed.
Lemma mute_in_order calls order : ∀ results, mute (run_in_order order calls results).
Proof. induction order as [|i order IH]; intros results; cbn [run_in_order]; [|unfold parallel_call]; muting. Qed.
Lemma mute_snapshot task id peer : mute (save_snapshot task id peer).
Proof. unfold save_snapshot. muting. Qed.
Lemma mute_escalation st : mute (check_escalation st).
Proof. unfold check_escalation. muting. Qed.
Lemma mute_pending : mute steer_pending.
Proof. unfold steer_pending. muting. Qed.
Hint Resolve mute_serial mute_in_order mute_snapshot mute_escalation mute_pending : muting.

(** The history grew by one result for each of the calls, in their order. *)
Definition answered_calls (ids : list str) (h h' : History) : Prop :=
  ∃ ts, h' = h ++ ts ∧ Forall2 (λ id t, answers id t = true) ids ts.

Lemma answered_none h : answered_calls [] h h.
Proof. exists []. by rewrite app_nil_r. Qed.
Lemma answered_one id content now name projection h :
  answered_calls [id] h (h ++ [tool_turn id content now name projection]).
Proof. eexists. split; [done|]. repeat constructor. unfold answers. simpl. by rewrite bool_decide_eq_true_2. Qed.
Lemma answered_app ids ids' h h' h'' : answered_calls ids h h' → answered_calls ids' h' h'' → answered_calls (ids ++ ids') h h''.
Proof. intros (ts & -> & Hts) (ts' & -> & Hts'). exists (ts ++ ts'). rewrite app_assoc. split; [done|]. by apply Forall2_app. Qed.

Lemma lands_result {B} w id content (f : unit → TurnM B) (Q : B → World → Prop) :
  (∀ x w', answered_calls [id] (history w) (history w') → lands w' (f x) Q) → lands w (bind (say_result id content) f) Q.
Proof. intros Hf. apply lands_bind. unfold lands at 1. simpl. apply Hf. apply answered_one. Qed.

Lemma guards_answer tc result st w : lands w (apply_tool_guards tc result st) (λ _ w', answered_calls [tc_id tc] (history w) (history w')).
Proof.
  unfold lands, apply_tool_guards. repeat case_match; simplify_eq; apply answered_one.
Qed.

(** A call that is settled has its result, whatever becomes of the turn. *)
Lemma settle_answers tc result st w :
  lands w (settle_call tc result st)
    (λ x w', answered_calls [tc_id tc] (history w) (history w') ∧ snd x ≠ Some FlowContinue).
Proof.
  unfold settle_call. apply lands_bind.
  assert (lands w (if starts_with ASYNC_MARK result then save_async_continuation tc result else ret None)
            (λ o w', match o with
                     | Some _ => answered_calls [tc_id tc] (history w) (history w')
                     | None => history w' = history w
                     end)) as Ha.
  { destruct (starts_with _ _); [|done]. unfold save_async_continuation. destruct (async_parts _) as [[[task target] name]|]; [|done].
    apply lands_mute; [auto with muting|]. intros _ w1 <- _. apply lands_result. intros _ w2 Hw2. exact Hw2. }
  eapply lands_weaken; [exact Ha|]. intros [ev|] w1 Hw; [by split|]. rewrite <-Hw.
  destruct (strip_prefix _ _) as [task|].
  { unfold save_bg_spawn_continuation. do 2 apply lands_bind. eapply lands_weaken; [apply mute_snapshot|]. intros _ w2 [<- _].
    apply lands_result. intros _ w3 Hw3. by split. }
  apply lands_act. change (history w1) with (history (with_event (AToolResult (tc_name tc) result false) w1)).
  apply lands_bind. eapply lands_weaken; [apply guards_answer|]. intros st1 w2 Hw2. apply lands_mute; [auto with muting|].
  intros [st2 [ev|]] w3 Hw3 _; cbv beta in Hw2; rewrite <-Hw3 in Hw2; [by split|]. by destruct (check_validation_budget _ _).
Qed.

(** How a batch ends: a part of the calls is answered; all of them if it goes on to the next
    round, unless it was cancelled or stopped. *)
Definition batch_told (calls : list ToolCallInfo) (w w' : World) (flow : option TurnFlow) : Prop :=
  ∃ k, answered_calls (take k (tc_id <$> calls)) (history w) (history w') ∧
    match flow with
    | Some (FlowStop _) => True
    | Some FlowContinue =>
        (length calls ≤ k)%nat ∨ last (wd_events w') = Some (ADone cancelled_text) ∨ last (wd_events w') = Some (ADone batch_stopped_text)
    | None => (length calls ≤ k)%nat
    end.

Lemma skip_answers calls : ∀ w, lands w (skip_rest calls) (λ _ w', answered_calls (tc_id <$> calls) (history w) (history w')).
Proof.
  induction calls as [|tc calls IH]; intros w; cbn [skip_rest]; [apply answered_none|]. apply lands_result. intros _ w1 Hw1.
  apply lands_act. eapply lands_weaken; [apply IH|]. intros ? w2 Hw2. exact (answered_app [_] _ _ _ _ Hw1 Hw2).
Qed.

Lemma batch_answers calls : ∀ precomputed st w,
  lands w (run_batch calls precomputed st) (λ x w', batch_told calls w w' (snd x)).
Proof.
  induction calls as [|tc rest IH]; intros pre st w; cbn [run_batch]; [exists 0%nat; split; [apply answered_none|simpl; lia]|].
  assert (∀ w1 text, history w1 = history w → text = cancelled_text ∨ text = batch_stopped_text →
    lands w1 (act (with_event (ADone text));; ret (st, Some FlowContinue)) (λ x w', batch_told (tc :: rest) w w' (snd x))) as Hstop.
  { intros w1 text E Ht. exists 0%nat. split; [simpl; change (history (with_event (ADone text) w1)) with (history w1); rewrite E; apply answered_none|].
    right. simpl. rewrite last_snoc. destruct Ht as [-> | ->]; [by left|by right]. }
  apply lands_mute; [destruct pre; auto with muting|]. intros c w1 E1 _. destruct c; [apply Hstop; [done|by left]|].
  apply lands_mute; [auto with muting|]. intros e w2 E2 _. destruct e; [apply Hstop; [congruence|by right]|].
  apply lands_mute; [destruct pre; auto with muting|]. intros s w3 E3 _. rewrite E2, E1 in E3.
  destruct s.
  { apply lands_bind. eapply lands_weaken; [apply skip_answers|]. intros ? w4 Hw4. cbv beta in Hw4. rewrite E3 in Hw4.
    exists (length (tc :: rest)). split; [|by left]. by rewrite take_ge by (by rewrite length_fmap). }
  apply lands_mute; [destruct pre as [[]|]; auto with muting|]. intros [st1 result] w4 E4 _. rewrite E3 in E4.
  apply lands_bind. eapply lands_weaken; [apply settle_answers|]. intros [st2 [flow|]] w5 [Hw5 Hc]; cbv beta in Hw5; rewrite E4 in Hw5.
  - exists 1%nat. split; [done|]. simpl in *. by destruct flow.
  - eapply lands_weaken; [apply IH|]. intros [st3 flow] w6 (k & Hk & Hf). exists (S k).
    split; [exact (answered_app [_] _ _ _ _ Hw5 Hk)|]. cbn [snd] in *. destruct flow as [[]|]; simpl; [|done|lia].
    destruct Hf as [Hf|Hf]; [left; lia|by right].
Qed.

(** The answer with its calls, then the results of the first [k] calls. *)
Definition batch_answered (r : LlmResponse) (h : History) (x : TurnState * TurnFlow) (w' : World) : Prop :=
  ∃ now k,
    answered_calls (take k (tc_id <$> rs_tool_calls r))
      (add_assistant_message (rs_content r) (rs_tool_calls r) (rs_reasoning_content r) now h) (history w') ∧
    (snd x = FlowContinue → (length (rs_tool_calls r) ≤ k)%nat ∨ last (wd_events w') = Some (ADone cancelled_text) ∨
                            last (wd_events w') = Some (ADone batch_stopped_text)).

Lemma tool_batch_answers r st w : lands w (execute_tool_batch r st) (batch_answered r (history w)).
Proof.
  unfold execute_tool_batch. apply lands_act. set (w1 := on_history _ _).
  assert (∃ now, history w1 = add_assistant_message (rs_content r) (rs_tool_calls r) (rs_reasoning_content r) now (history w))
    as (now & E) by by eexists.
  clearbody w1. apply lands_mute; [auto with muting|]. intros _ w2 E2 _. apply lands_act.
  set (w3 := with_event _ _). assert (history w3 = history w1) as E3 by exact E2. clearbody w3.
  apply lands_mute; [unfold parallel_batch; muting|]. intros par w4 E4 _. apply lands_mute.
  { destruct par; [|auto with muting]. apply mute_bind; [auto with muting|]. intros order.
    apply mute_bind; [|auto with muting]. unfold precompute_parallel_batch. muting. }
  intros pre w5 E5 _. apply lands_bind. eapply lands_weaken; [apply batch_answers|]. intros [st1 flow] w6 (k & Hk & Hf).
  rewrite E5, E4, E3, E in Hk. destruct flow as [flow|].
  - exists now, k. split; [exact Hk|]. intros Ef. simpl in Ef. by subst flow.
  - unfold consume_plan_verdict. apply lands_mute; [auto with muting|]. intros v w7 E7 _.
    assert (∀ x : TurnState * TurnFlow, lands w7 (ret x) (batch_answered r (history w))) as Hret.
    { intros x. exists now, k. rewrite E7. split; [exact Hk|]. intros _. by left. }
    destruct v as [[]|]; apply Hret.
Qed.

End Turn.

(** ** What a turn does *)

(** C16: a turn ends.  Under a limit of rounds, and a ceiling of tokens that the doubling
    reaches, with tools that do not panic, the loop comes back within two rounds more than the
    limit, whatever the model, the tools, the hooks and the user do; it makes no more requests
    than each of its rounds may.  At its end no failure has come up more often than the loop
    guard's hard stop, and bad arguments no more often in a row than the tier allows. *)
Theorem turn_ends {UC : Unicode} `{RegexCaptures} `{HashOrder} `{JsonNumbers} `{!JsonChecks} `{!JsonCodec} {FL : Float}
    {D : Type} `{!ToolRunner D} (env : TurnEnv) (cx : TurnCtx) (C B : N) opts fuel (w : World) :
  (∀ n, (le_ceiling (tv_llm env) n ≤ C)%N) → (C < 2 ^ 63)%N → u32_options (Some opts) →
  (∀ (d : D) tc depth, is_Some (snd (run_call d tc depth))) →
  (∀ n, (0 < effective_max_turns env cx (tv_max_tool_iterations env n) ≤ B)%N) → (B + 1 < 2 ^ 32)%N →
  (B + 2 ≤ N.of_nat fuel)%N →
  let '(w', r) := run_llm_loop env cx fuel opts w in
  (requests w' ≤ requests w + N.to_nat (B + 2) * (calls_bound (tv_llm env) * rungs C))%nat ∧
  ∃ st, r = Some st ∧ (ts_turns_used st ≤ B + 1)%N ∧
    (∀ sig, count_of (tg_fail_freq (ts_turn_guard st)) sig ≤ ALTERNATING_LOOP_HARD_STOP)%nat ∧
    (ts_validation_failures st ≤ validation_retry_budget env)%nat.
Proof.
  intros Hc Hb Ho Hr Hl Hw Hf. pose proof (loop_yields env cx C Hc Hb Hr B Hl Hw opts fuel Ho Hf w) as [Hk (st & Hs & [Hg Hv] & Hu)].
  destruct (run_llm_loop _ _ _ _ _) as [w' r]. split; [exact Hk|]. by exists st.
Qed.

(** C17: whatever tools a turn runs, it runs them through its checks: the state behind the
    tools at its end is that of a sequence of calls each of which no fence refuses and whose
    arguments conform to the schema of the tool; history and events only grow. *)
Theorem turn_runs_checked_calls {UC : Unicode} `{RegexCaptures} `{HashOrder} `{JsonNumbers} `{!JsonChecks} `{!JsonCodec} {FL : Float}
    {D : Type} `{!ToolRunner D} (env : TurnEnv) (cx : TurnCtx) opts fuel (w : World) :
  let w' := fst (run_llm_loop env cx fuel opts w) in
  (∃ calls, Forall (allowed env) calls ∧ wd_tools w' = run_calls env (wd_tools w) calls) ∧
  history w `prefix_of` history w' ∧ wd_events w `prefix_of` wd_events w'.
Proof. apply (stepped env), steps_loop. Qed.

(** Also: a batch says which calls the model asked for, and answers them in their order, each
    with one result; if the turn goes on to its next round all of them are answered, unless a
    cancellation or an emergency stop was met and told. *)
Theorem batch_answers_its_calls {UC : Unicode} `{RegexCaptures} `{HashOrder} `{JsonNumbers} `{!JsonChecks} `{!JsonCodec} {FL : Float}
    {D : Type} `{!ToolRunner D} (env : TurnEnv) (cx : TurnCtx) r st (w : World) :
  lands w (execute_tool_batch env cx r st) (batch_answered r (history w)).
Proof. apply tool_batch_answers. Qed.

(** ** Runs *)

Section Runs.
#[local] Existing Instances ascii_unicode exact_float map_order literal_engine literal_find literal_captures unit_numbers toy_json unit_checks.

(** Tools that keep a list of the calls that ran, and say so. *)
#[local] Instance demo_runner : ToolRunner (list str) := λ ran tc _, (ran ++ [tc_id tc], Some (lit "done " ++ tc_id tc)).

Definition demo_agent : AgentInstance := mkInstance false None [] None.

(** A model that answers as listed, over a limit of rounds; nothing else is in the way. *)
Definition demo_queued (content : str) : QueuedMessage :=
  mkQueued (mkInbound (lit "web") (lit "u") (lit "c") content [] (lit "s") [] ∅ None) [].

Definition demo_turn_env (answers : list (result LlmResponse str)) (limit : Z) (engaged : nat → bool) (arrivals : nat → list QueuedMessage)
    (diagnose : ToolCallInfo → str → str) : TurnEnv :=
  mkTurnEnv (demo_env answers []) (λ _, false) engaged arrivals true (λ _, Some limit) 20 0 (λ _, true) (λ m, (m, []))
    [] (λ _, mkCanvas true (λ _, []) []) None demo_agent (λ _, None) (λ _, true) (λ _, []) 0 Big diagnose
    false (λ _, true) (λ p, concat p) (λ _, lit "t") false (λ _ _ _ _, lit "r") false false (λ _, None) (λ _, None) false (lit "m").

Definition demo_cx : TurnCtx := mkTurnCtx (mkRequestCtx (lit "web") (lit "c") (lit "u") (lit "s") None None) None false None.
Definition demo_opts : ChatOptions := mkOptions (Some 8192%N) None.
Definition demo_world : World (D := list str) := mkWorld demo_calls [] (inbox_new 8) ∅ None 0 [] [] [] [] [].

Definition plain_env answers limit := demo_turn_env answers limit (λ _, false) (λ _, []) (λ _ t, t).
Definition run env := run_llm_loop env demo_cx 64 demo_opts demo_world.

Definition asks (ids : list string) : LlmResponse :=
  mkResponse [] ((λ i, mkCall (lit i) (lit "read_file") (lit "{}")) <$> ids) false None (Some (lit "tool_calls")) None None.
Definition used (tokens : Z) (r : LlmResponse) : LlmResponse :=
  mkResponse (rs_content r) (rs_tool_calls r) (rs_finished r) (rs_reasoning_content r) (rs_finish_reason r) (rs_escalated_to r)
    (Some (mkUsage 10 tokens None None)).

Definition said (w : World (D := list str)) : list (str * str) := (λ t, (tu_role t, tu_content t)) <$> history w.

Example two_rounds :
  let w := fst (run (plain_env [Ok (asks ["a"; "b"]); Ok (demo_answer "It is done." "stop")] 5)) in
  wd_tools w = [lit "a"; lit "b"] ∧ last (wd_events w) = Some (ADone (lit "It is done.")) ∧
  said w = [(r_assistant, []); (r_tool, lit "done a"); (r_tool, lit "done b"); (r_assistant, lit "It is done.")].
Proof. vm_compute. done. Qed.

Lemma turn_ends_witness :
  let env := plain_env [Ok (asks ["a"]); Ok (asks ["b"]); Ok (asks ["c"]); Ok (asks ["d"])] 2 in
  let w' := fst (run_llm_loop env demo_cx 4 demo_opts demo_world) in
  last (wd_events w') = Some (ADone (max_turns_text 2)) ∧
  (requests w' ≤ requests demo_world + N.to_nat (2 + 2) * (calls_bound (tv_llm env) * rungs 262144))%nat.
Proof.
  split; [vm_compute; reflexivity|].
  set (env := plain_env _ 2).
  assert (let '(w', r) := run_llm_loop env demo_cx 4 demo_opts demo_world in
    (requests w' ≤ requests demo_world + N.to_nat (2 + 2) * (calls_bound (tv_llm env) * rungs 262144))%nat ∧
    ∃ st, r = Some st ∧ (ts_turns_used st ≤ 2 + 1)%N ∧
      (∀ sig, count_of (tg_fail_freq (ts_turn_guard st)) sig ≤ ALTERNATING_LOOP_HARD_STOP)%nat ∧
      (ts_validation_failures st ≤ validation_retry_budget env)%nat) as Ht.
  { apply (turn_ends env demo_cx 262144 2 demo_opts 4 demo_world).
    - apply demo_ceilings.
    - vm_compute. reflexivity.
    - intros t [= <-]. vm_compute. reflexivity.
    - intros d tc depth. by eexists.
    - intros n. split; vm_compute; done.
    - vm_compute. reflexivity.
    - vm_compute. done. }
  destruct (run_llm_loop _ _ _ _ _) as [w' r]. apply Ht.
Defined.

(** Observed: what the model learns about its tokens is lost on the check for answers that
    were cut off.  After a doubling the calls of the model start at the higher floor, but an
    answer that needed no doubling of its own does not say so: its tokens are measured against
    the configured 8192, and a complete answer of 10000 is taken for a torn one. *)
Theorem learned_floor_tears_answers :
  let w := fst (run (plain_env [Ok (demo_answer "" "length"); Ok (asks ["a"]);
                                Ok (used 10000 (demo_answer "It is done." "stop")); Ok (demo_answer "As I said." "stop")] 9)) in
  asked (wd_calls w) = [Some 8192; Some 32768; Some 32768; Some 32768]%N ∧
  said w = [(r_assistant, []); (r_tool, lit "done a"); (r_assistant, lit "It is done."); (r_user, CONTINUE_PROMPT);
            (r_assistant, lit "As I said.")].
Proof. vm_compute. done. Qed.

(** Observed: the diagnostics found after a write do not reach the model: the text with them
    goes to the guard only, the history keeps the original, and no projection is stored. *)
Theorem diagnostics_are_lost
  (writes := mkResponse [] [mkCall (lit "a") (lit "write_file") (lit "{}")] false None (Some (lit "tool_calls")) None None) :
  let w diagnose := fst (run (demo_turn_env [Ok writes; Ok (demo_answer "It is done." "stop")] 9 (λ _, false) (λ _, []) diagnose)) in
  history (w (λ _ text, text ++ lit " ERROR in line 3")) = history (w (λ _ text, text)).
Proof. vm_compute. done. Qed.

(** Observed: the limit of rounds is cut to 32 bits, and 2^32 becomes the zero that stands
    for no limit. *)
Theorem wide_limit_is_none :
  effective_max_turns (plain_env [] 0) demo_cx (Some 4294967296%Z) = 0%N ∧
  effective_max_turns (plain_env [] 0) demo_cx (Some 4294967297%Z) = 1%N.
Proof. vm_compute. done. Qed.

(** Observed: an emergency stop behind a parallel batch drops the results of tools that ran. *)
Theorem stop_drops_parallel_results :
  let w := fst (run (demo_turn_env [Ok (asks ["a"; "b"])] 9 (λ n, (5 <=? n)%nat) (λ _, []) (λ _ t, t))) in
  wd_tools w = [lit "a"; lit "b"] ∧ said w = [(r_assistant, [])].
Proof. vm_compute. done. Qed.

(** Observed: a message that comes in with the answer of the grace round sends the turn round
    once more, where the limit is met: the answer is in the history, but the turn ends with
    the text of the limit and leaves the message in the queue. *)
Theorem steer_spoils_the_grace_answer :
  let w := fst (run (demo_turn_env [Ok (asks ["a"]); Ok (demo_answer "It is done." "stop")] 1 (λ _, false)
                       (λ n, if (n =? 10)%nat then [demo_queued (lit "! and the tests?")] else []) (λ _ t, t))) in
  last (said w) = Some (r_assistant, lit "It is done.") ∧ last (wd_events w) = Some (ADone (max_turns_text 1)) ∧
  has_next_step (wd_inbox w) (lit "s") = true.
Proof. vm_compute. done. Qed.
End Runs.
