(* ===== verification/TurnDispatch.v ===== *)
(** * Turns over the dispatch (execute_tool_batch of loop/tool_batch.rs calling
      handle_tool_call_at_depth of loop/tool_dispatch.rs)

    The dispatch as the runner of a turn's tools: the loop of Dispatch behind the interface of
    TurnLoop.  What holds of single calls and of their sequences then holds of whole turns. *)
From stdpp Require Import strings.
From S2P Require Import Prelude RustStr Utils Regex F64 Matcher Json SecTypes Auditor Escalation Guardian Merkle Ssrf VirusScan Classifier Injection Credential Dlp HostPath ShellBleed Limits Pipeline ToolGates EditReplace EditHint EditTools TurnWal Dispatch TurnRecovery ArgsValidator TurnGuard Turns TokenBudget LlmErrors LlmCall Inbox TurnLoop.
Local Open Scope nb_scope.

Section TurnDispatch.
Context {UC : Unicode} {UU : UnicodeUpper} {CC : CharClass} {FL : Float} {DS : DebugStr} {PF : Platform}.
Context `{HashOrder} `{RegexCaptures} `{JsonNumbers} `{!JsonChecks} `{!JsonCodec} `{!JsonU64} {NET : Net} {SHA : Sha256}.

(** The configuration and the outside may have changed from one call to the next. *)
Variable cfg : nat → LoopConfig.
Variable io : nat → DispatchIo.
Variable context : RequestContext.

(** The loop, and how many calls it has served. *)
Record Desk := mkDesk {
  dk_served : nat;
  dk_loop : Loop;
}.

Definition reply_text (r : Reply) : option str :=
  match r with
  | Replied text => Some text
  | Panicked => None
  end.

#[export] Instance desk_runner : ToolRunner Desk := λ d call depth,
  let '(lp, r) := handle_tool_call_at_depth (cfg (dk_served d)) (io (dk_served d)) call context depth (dk_loop d) in
  (mkDesk (S (dk_served d)) lp, reply_text r).

(** The desk after the calls of a turn, and the loop behind it. *)
Definition desk_after (env : TurnEnv) (d : Desk) (calls : list ToolCallInfo) : Desk := run_calls env d calls.

(** The events of one call, served by a desk. *)
Definition call_events (env : TurnEnv) (d : Desk) (call : ToolCallInfo) : list Event :=
  drop (length (lp_events (dk_loop d))) (lp_events (dk_loop (desk_after env d [call]))).

Lemma run_calls_app (env : TurnEnv) (d : Desk) l1 l2 : run_calls env d (l1 ++ l2) = run_calls env (run_calls env d l1) l2.
Proof. revert d. induction l1 as [|tc l1 IH]; intros d; [done|]. apply IH. Qed.

(** One call is one call of the dispatch. *)
Lemma desk_one env (d : Desk) call :
  dk_loop (desk_after env d [call])
  = fst (handle_tool_call_at_depth (cfg (dk_served d)) (io (dk_served d)) call context (tv_depth env) (dk_loop d)) ∧
  dk_served (desk_after env d [call]) = S (dk_served d).
Proof.
  unfold desk_after. cbn [run_calls]. unfold run_call, desk_runner. by destruct (handle_tool_call_at_depth _ _ _ _ _ _).
Qed.

Lemma desk_cons env (d : Desk) call calls : desk_after env d (call :: calls) = desk_after env (desk_after env d [call]) calls.
Proof. done. Qed.

Lemma desk_served env calls : ∀ d : Desk, dk_served (desk_after env d calls) = dk_served d + length calls.
Proof.
  induction calls as [|call calls IH]; intros d; [cbn; lia|]. rewrite desk_cons, IH, (proj2 (desk_one env d call)). cbn. lia.
Qed.

Lemma desk_appends env calls : ∀ d : Desk, lp_events (dk_loop d) `prefix_of` lp_events (dk_loop (desk_after env d calls)).
Proof.
  induction calls as [|call calls IH]; intros d; [done|]. rewrite desk_cons. etrans; [|apply IH].
  rewrite (proj1 (desk_one env d call)). apply handle_appends.
Qed.

Lemma desk_armed env calls : ∀ d : Desk, is_Some (lp_security (dk_loop d)) → is_Some (lp_security (dk_loop (desk_after env d calls))).
Proof.
  induction calls as [|call calls IH]; intros d Hd; [done|]. rewrite desk_cons. apply IH.
  rewrite (proj1 (desk_one env d call)). by apply handle_armed.
Qed.

(** An event of a sequence of calls is an event of one of them, served after those before. *)
Lemma event_of_one env e calls : ∀ d : Desk,
  e ∈ drop (length (lp_events (dk_loop d))) (lp_events (dk_loop (desk_after env d calls))) →
  ∃ before call after, calls = before ++ call :: after ∧ e ∈ call_events env (desk_after env d before) call.
Proof.
  induction calls as [|call calls IH]; intros d He; [cbn in He; rewrite drop_all in He; by apply elem_of_nil in He|].
  rewrite desk_cons in He. destruct (desk_appends env [call] d) as [new Hnew].
  destruct (desk_appends env calls (desk_after env d [call])) as [more Hmore].
  rewrite Hmore, Hnew, <-app_assoc, drop_app_length in He. apply elem_of_app in He as [He|He].
  - exists [], call, calls. split; [done|].
    change (e ∈ drop (length (lp_events (dk_loop d))) (lp_events (dk_loop (desk_after env d [call])))).
    by rewrite Hnew, drop_app_length.
  - destruct (IH (desk_after env d [call])) as (before & call' & after & -> & He'); [by rewrite Hmore, drop_app_length|].
    exists (call :: before), call', after. split; [done|exact He'].
Qed.

(** C8: over a whole turn the tools do what they do in one sequence of calls that the loop let
    through, their arguments conforming to the schemas of the tools.  Each thing done, but for
    receipts, is done by one of these calls, which passed every gate of the dispatch in the
    state that the calls before it left: no emergency stop, no refusal, no hook against it,
    and, if the turn began with a security plugin, limits, pipeline, scan of scripts and judge
    of the plugin as it was then. *)
Theorem turn_effects_admitted (env : TurnEnv) (cx : TurnCtx) opts fuel (w : World (D := Desk)) :
  let w' := fst (run_llm_loop env cx fuel opts w) in
  ∃ calls, Forall (allowed env) calls ∧ wd_tools w' = desk_after env (wd_tools w) calls ∧
  ∀ e, e ∈ drop (length (lp_events (dk_loop (wd_tools w)))) (lp_events (dk_loop (wd_tools w'))) → ¬ is_receipt e →
  ∃ before call after, calls = before ++ call :: after ∧
    let d := desk_after env (wd_tools w) before in
    let n := dk_served (wd_tools w) + length before in
    e ∈ call_events env d call ∧ lc_estop_engaged (cfg n) = false ∧
    ∃ call' notes, rewritten_call (cfg n) call context = Some call' ∧ hidden_refusal (cfg n) call' = None ∧
      min_tier_refusal (cfg n) call' = None ∧ role_refusal (cfg n) call' = None ∧
      plan_refusal (cfg n) (io n) call' = None ∧ hook_refusal (cfg n) call' context = None ∧
      (is_Some (lp_security (dk_loop (wd_tools w))) →
       ∃ p, lp_security (dk_loop d) = Some p ∧ plugin_passes (cfg n) (io n) call' context (dk_loop d) p notes).
Proof.
  intros w'. destruct (stepped env w w' (steps_loop env cx opts fuel w)) as ((calls & Ha & Ht) & _ & _).
  exists calls. split; [done|]. split; [exact Ht|]. intros e He Hr. rewrite Ht in He.
  destruct (event_of_one env e calls (wd_tools w) He) as (before & call & after & -> & He'). exists before, call, after. split; [done|].
  cbv zeta. split; [done|]. rewrite <- desk_served with (env := env). set (d := desk_after env (wd_tools w) before) in *.
  unfold call_events in He'. rewrite (proj1 (desk_one env d call)) in He'.
  destruct (handle_tool_call_at_depth (cfg (dk_served d)) (io (dk_served d)) call context (tv_depth env) (dk_loop d)) as [lp' r] eqn:E.
  destruct (effects_admitted _ _ _ _ _ _ _ _ _ E He' Hr) as (He1 & call' & notes & Hc & ? & ? & ? & ? & ? & Hp).
  split; [done|]. exists call', notes. split_and!; [done..|]. intros Hs. destruct (desk_armed env before _ Hs) as [p Hp']. exists p.
  split; [done|]. by apply Hp.
Qed.
End TurnDispatch.

(** ** A run *)

Section Runs.
#[local] Existing Instances ascii_unicode ascii_uppercase ascii_class exact_float toy_debug unix map_order literal_engine literal_find literal_captures unit_numbers toy_net toy_sha toy_json no_u64 unit_checks.

Definition steady_config (_ : nat) : LoopConfig := demo_config.
Definition timed_io (n : nat) : DispatchIo := demo_dispatch (Z.of_nat n * 1000).

(** A turn of one round that lists the files, and the answer. *)
Definition listing_env : TurnEnv :=
  plain_env [Ok (mkResponse [] [demo_tool_call] false None (Some (lit "tool_calls")) None None);
             Ok (demo_answer "Two files." "stop")] 5.

Definition demo_fuel : nat := 8.

Definition desk_world : World (D := Desk) := mkWorld demo_calls (mkDesk 0 demo_loop) (inbox_new 8) ∅ None 0 [] [] [] [] [].

#[local] Notation listed :=
  (fst (run_llm_loop (ToolRunner0 := desk_runner steady_config timed_io demo_context) listing_env demo_cx demo_fuel demo_opts desk_world)).

Definition listed_effect : Event := EvExecute (lit "exec") (tc_arguments demo_tool_call) demo_context.

(** The turn does something. *)
Example listed_runs : listed_effect ∈ drop (length (lp_events (dk_loop (wd_tools desk_world)))) (lp_events (dk_loop (wd_tools listed))).
Proof.
  apply list_elem_of_In, (nth_error_In _ 3). vm_compute. reflexivity.
Qed.
Lemma turn_effects_admitted_witness :
  listed_effect ∈ drop (length (lp_events (dk_loop (wd_tools desk_world)))) (lp_events (dk_loop (wd_tools listed))) ∧
  ∃ before call p, allowed listing_env call ∧
    lp_security (dk_loop (desk_after steady_config timed_io demo_context listing_env (wd_tools desk_world) before)) = Some p.
Proof.
  split; [apply listed_runs|].
  destruct (turn_effects_admitted steady_config timed_io demo_context listing_env demo_cx demo_opts demo_fuel desk_world)
    as (calls & Ha & _ & Hall).
  specialize (Hall listed_effect listed_runs id). destruct Hall as (before & call & after & -> & Hcall). exists before, call.
  cbv zeta in Hcall. destruct Hcall as (_ & _ & call' & notes & _ & _ & _ & _ & _ & _ & Hp).
  destruct Hp as (p & Hs & _); [by exists (demo_plugin (lit "allow") false)|]. exists p. split; [|exact Hs].
  rewrite Forall_forall in Ha. apply Ha. apply elem_of_app. right. left.
Defined.
End Runs.
