(* ===== verification/Routing.v ===== *)
(** * Routes and session keys (nemesis-routing: agent_id.rs, session_key.rs, route.rs)

    A message is given to an agent by the first binding of the most specific kind that
    matches, and to a session whose key is made of the agent, the channel and the peer.
    Everything that keeps histories, locks and queues apart is kept under that key. *)
From stdpp Require Import strings.
From S2P Require Import Prelude RustStr.
Local Open Scope nb_scope.

(** ** Identifiers *)

Definition DEFAULT_AGENT_ID : str := lit "main".
Definition DEFAULT_ACCOUNT_ID : str := lit "default".
Definition MAX_AGENT_ID_LENGTH : nat := 64.

Definition id_char (c : char) : bool := is_ascii_alnum c || N.eqb c c_under || N.eqb c c_dash.

Definition is_valid_id (id : str) : bool :=
  match id with
  | [] => false
  | first :: _ =>
      if (MAX_AGENT_ID_LENGTH <? byte_len id)%nat then false
      else if negb (is_ascii_alnum first) then false
      else forallb id_char id
  end.

Definition dashed (s : str) : str := (λ c, if id_char c then c else c_dash) <$> s.
Definition undash (s : str) : str := trim_matches (N.eqb c_dash) s.

Definition or_default (d s : str) : str := if nonempty s then s else d.

Section Routing.
Context {UC : Unicode}.

(** The cut is made on bytes; what is cut holds ASCII characters only. *)
Definition normalize_agent_id (id : str) : str :=
  let trimmed := trim id in
  if negb (nonempty trimmed) then DEFAULT_AGENT_ID
  else let lower := to_lowercase trimmed in
  if is_valid_id lower then lower
  else or_default DEFAULT_AGENT_ID (undash (take MAX_AGENT_ID_LENGTH (undash (dashed lower)))).

Definition normalize_account_id (id : str) : str :=
  let trimmed := trim id in
  if negb (nonempty trimmed) then DEFAULT_ACCOUNT_ID
  else let lower := to_lowercase trimmed in
  if is_valid_id lower then lower
  else or_default DEFAULT_ACCOUNT_ID (undash (dashed lower)).

(** ** Session keys *)

Inductive DMScope := ScopeMain | PerPeer | PerChannelPeer | PerAccountChannelPeer.

#[export] Instance DMScope_eq_dec : EqDecision DMScope.
Proof. solve_decision. Defined.

Definition DMScope_from_str (s : str) : DMScope :=
  let s := to_lowercase (trim s) in
  if s =? lit "per-peer" then PerPeer
  else if s =? lit "per-channel-peer" then PerChannelPeer
  else if s =? lit "per-account-channel-peer" then PerAccountChannelPeer
  else ScopeMain.

Record RoutePeer := mkPeer { pr_kind : str; pr_id : str }.

(** The links are in the order the map is walked in. *)
Record SessionKeyParams := mkKeyParams {
  kp_agent_id : str;
  kp_channel : str;
  kp_account_id : str;
  kp_peer : option RoutePeer;
  kp_dm_scope : DMScope;
  kp_identity_links : list (str * list str);
}.

(** Pieces between colons, all in lower case. *)
Definition key_of (parts : list str) : str := to_lowercase (join [c_colon] parts).

Definition build_agent_main_session_key (agent_id : str) : str :=
  key_of [lit "agent"; normalize_agent_id agent_id; lit "main"].

Definition normalize_channel (channel : str) : str := or_default (lit "unknown") (to_lowercase (trim channel)).

Definition build_agent_session_key (agent_id channel peer_kind peer_id : str) : str :=
  key_of [lit "agent"; normalize_agent_id agent_id; normalize_channel channel;
          or_default (lit "direct") (trim peer_kind); or_default (lit "unknown") (trim peer_id)].

Definition resolve_linked_peer_id (links : list (str * list str)) (channel peer_id : str) : option str :=
  if bool_decide (links = []) then None
  else let peer_id := trim peer_id in
  if negb (nonempty peer_id) then None
  else
    let lower_peer := to_lowercase peer_id in
    let channel_lower := to_lowercase (trim channel) in
    let candidates := lower_peer :: (if nonempty channel_lower then [channel_lower ++ [c_colon] ++ lower_peer] else []) in
    first_some (λ '(canonical, ids),
      let canonical_name := trim canonical in
      if negb (nonempty canonical_name) then None
      else if existsb (λ id, let normalized := to_lowercase (trim id) in nonempty normalized && bool_decide (normalized ∈ candidates)) ids
      then Some canonical_name else None) links.

Definition build_agent_peer_session_key (params : SessionKeyParams) : str :=
  let agent_id := normalize_agent_id (kp_agent_id params) in
  let peer := default (mkPeer (lit "direct") []) (kp_peer params) in
  let peer_kind := or_default (lit "direct") (trim (pr_kind peer)) in
  let peer_kind_lower := to_lowercase peer_kind in
  if peer_kind_lower =? lit "direct" then
    let peer_id := trim (pr_id peer) in
    let peer_id :=
      if negb (bool_decide (kp_dm_scope params = ScopeMain)) && nonempty peer_id
      then default peer_id (resolve_linked_peer_id (kp_identity_links params) (kp_channel params) peer_id)
      else peer_id in
    let peer_id_lower := to_lowercase peer_id in
    let main := build_agent_main_session_key (kp_agent_id params) in
    match kp_dm_scope params with
    | PerAccountChannelPeer =>
        if nonempty peer_id_lower then
          key_of [lit "agent"; agent_id; normalize_channel (kp_channel params); normalize_account_id (kp_account_id params);
                  lit "direct"; peer_id_lower]
        else main
    | PerChannelPeer =>
        if nonempty peer_id_lower then
          key_of [lit "agent"; agent_id; normalize_channel (kp_channel params); lit "direct"; peer_id_lower]
        else main
    | PerPeer => if nonempty peer_id_lower then key_of [lit "agent"; agent_id; lit "direct"; peer_id_lower] else main
    | ScopeMain => main
    end
  else
    key_of [lit "agent"; agent_id; normalize_channel (kp_channel params); peer_kind_lower;
            or_default (lit "unknown") (to_lowercase (trim (pr_id peer)))].

(** [splitn(3, ':')]: two cuts at most. *)
Definition parse_agent_session_key (session_key : str) : option (str * str) :=
  let raw := trim session_key in
  if negb (nonempty raw) then None
  else
    match split_once [c_colon] raw with
    | Some (head, tail) =>
        match split_once [c_colon] tail with
        | Some (agent_id, rest) =>
            if head <>? lit "agent" then None
            else if negb (nonempty agent_id) || negb (nonempty rest) then None
            else Some (agent_id, rest)
        | None => None
        end
    | None => None
    end.

Definition is_subagent_session_key (session_key : str) : bool :=
  starts_with (lit "subagent:") (to_lowercase (trim session_key))
  || match parse_agent_session_key session_key with
     | Some (_, rest) => starts_with (lit "subagent:") (to_lowercase rest)
     | None => false
     end.

(** ** Routes *)

Record RouteInput := mkRouteInput {
  ri_channel : str;
  ri_account_id : str;
  ri_peer_kind : option str;
  ri_peer_id : option str;
  ri_parent_peer_kind : option str;
  ri_parent_peer_id : option str;
  ri_guild_id : option str;
  ri_team_id : option str;
  ri_identity_links : list (str * list str);
}.

Record ResolvedRoute := mkRoute {
  rr_agent_id : str;
  rr_channel : str;
  rr_account_id : str;
  rr_session_key : str;
  rr_main_session_key : str;
  rr_matched_by : str;
}.

Record AgentBinding := mkBinding {
  bn_agent_id : str;
  bn_match_channel : str;
  bn_match_account_id : str;
  bn_match_peer_kind : option str;
  bn_match_peer_id : option str;
  bn_match_guild_id : option str;
  bn_match_team_id : option str;
}.

Record AgentDef := mkAgentDef { ad_id : str; ad_is_default : bool }.

Record RouteConfig := mkRouteConfig {
  rc_bindings : list AgentBinding;
  rc_agents : list AgentDef;
  rc_dm_scope : str;
}.

Definition matches_account_id (match_account_id actual : str) : bool :=
  let trimmed := trim match_account_id in
  if negb (nonempty trimmed) then actual =? DEFAULT_ACCOUNT_ID
  else if trimmed =? lit "*" then true
  else to_lowercase trimmed =? to_lowercase actual.

Definition binding_applies (channel account_id : str) (b : AgentBinding) : bool :=
  if to_lowercase (trim (bn_match_channel b)) <>? channel then false
  else matches_account_id (bn_match_account_id b) account_id.

Definition filter_bindings (cfg : RouteConfig) (channel account_id : str) : list AgentBinding :=
  List.filter (binding_applies channel account_id) (rc_bindings cfg).

Definition peer_matches (peer_kind peer_id : str) (b : AgentBinding) : bool :=
  match bn_match_peer_kind b, bn_match_peer_id b with
  | Some k, Some id =>
      let bk := to_lowercase (trim k) in
      let bid := trim id in
      if negb (nonempty bk) || negb (nonempty bid) then false
      else (bk =? to_lowercase peer_kind) && (bid =? peer_id)
  | _, _ => false
  end.

Definition guild_matches (guild_id : str) (b : AgentBinding) : bool :=
  match bn_match_guild_id b with
  | Some g => nonempty (trim g) && (trim g =? guild_id)
  | None => false
  end.

Definition team_matches (team_id : str) (b : AgentBinding) : bool :=
  match bn_match_team_id b with
  | Some t => nonempty (trim t) && (trim t =? team_id)
  | None => false
  end.

Definition constrained (b : AgentBinding) : bool :=
  bool_decide (is_Some (bn_match_peer_kind b)) || bool_decide (is_Some (bn_match_peer_id b))
  || bool_decide (is_Some (bn_match_guild_id b)) || bool_decide (is_Some (bn_match_team_id b)).

Definition account_matches (b : AgentBinding) : bool :=
  if trim (bn_match_account_id b) =? lit "*" then false else negb (constrained b).

Definition wildcard_matches (b : AgentBinding) : bool :=
  if trim (bn_match_account_id b) <>? lit "*" then false else negb (constrained b).

Definition find_peer_match (bindings : list AgentBinding) (peer_kind peer_id : str) : option AgentBinding :=
  List.find (peer_matches peer_kind peer_id) bindings.
Definition find_guild_match (bindings : list AgentBinding) (guild_id : str) : option AgentBinding :=
  List.find (guild_matches guild_id) bindings.
Definition find_team_match (bindings : list AgentBinding) (team_id : str) : option AgentBinding :=
  List.find (team_matches team_id) bindings.
Definition find_account_match (bindings : list AgentBinding) : option AgentBinding := List.find account_matches bindings.
Definition find_channel_wildcard_match (bindings : list AgentBinding) : option AgentBinding := List.find wildcard_matches bindings.

Definition resolve_default_agent (cfg : RouteConfig) : str :=
  match List.find (λ a, ad_is_default a && nonempty (trim (ad_id a))) (rc_agents cfg) with
  | Some a => normalize_agent_id (trim (ad_id a))
  | None =>
      match rc_agents cfg with
      | a :: _ => if nonempty (trim (ad_id a)) then normalize_agent_id (trim (ad_id a)) else DEFAULT_AGENT_ID
      | [] => DEFAULT_AGENT_ID
      end
  end.

Definition pick_agent (cfg : RouteConfig) (agent_id : str) : str :=
  let normalized := normalize_agent_id agent_id in
  if bool_decide (length (rc_agents cfg) = 0%nat) then normalized
  else if existsb (λ a, normalize_agent_id (ad_id a) =? normalized) (rc_agents cfg) then normalized
  else resolve_default_agent cfg.

(** A field that is there and not blank, trimmed. *)
Definition filled (o : option str) : option str :=
  match o with
  | Some s => if nonempty (trim s) then Some (trim s) else None
  | None => None
  end.

Definition build_route (cfg : RouteConfig) (agent_id channel account_id : str) (input : RouteInput) (matched_by : str) : ResolvedRoute :=
  let resolved_id := pick_agent cfg agent_id in
  let peer_kind := default (lit "direct") (filled (ri_peer_kind input)) in
  let peer_id := default (lit "unknown") (filled (ri_peer_id input)) in
  mkRoute resolved_id channel account_id
    (build_agent_peer_session_key
       (mkKeyParams resolved_id channel account_id (Some (mkPeer peer_kind peer_id)) (DMScope_from_str (rc_dm_scope cfg))
          (ri_identity_links input)))
    (build_agent_main_session_key resolved_id) matched_by.

Definition by_peer (bindings : list AgentBinding) (kind id : option str) : option AgentBinding :=
  match filled kind, filled id with
  | Some k, Some i => find_peer_match bindings k i
  | _, _ => None
  end.

Definition resolve (cfg : RouteConfig) (input : RouteInput) : ResolvedRoute :=
  let channel := to_lowercase (trim (ri_channel input)) in
  let account_id := normalize_account_id (ri_account_id input) in
  let bindings := filter_bindings cfg channel account_id in
  let route agent_id := build_route cfg agent_id channel account_id input in
  match by_peer bindings (ri_peer_kind input) (ri_peer_id input) with
  | Some b => route (bn_agent_id b) (lit "binding.peer")
  | None =>
  match by_peer bindings (ri_parent_peer_kind input) (ri_parent_peer_id input) with
  | Some b => route (bn_agent_id b) (lit "binding.peer.parent")
  | None =>
  match (match filled (ri_guild_id input) with Some g => find_guild_match bindings g | None => None end) with
  | Some b => route (bn_agent_id b) (lit "binding.guild")
  | None =>
  match (match filled (ri_team_id input) with Some t => find_team_match bindings t | None => None end) with
  | Some b => route (bn_agent_id b) (lit "binding.team")
  | None =>
  match find_account_match bindings with
  | Some b => route (bn_agent_id b) (lit "binding.account")
  | None =>
  match find_channel_wildcard_match bindings with
  | Some b => route (bn_agent_id b) (lit "binding.channel")
  | None => route (resolve_default_agent cfg) (lit "default")
  end end end end end end.

(** The tests in the order of their precedence, with the names they go by. *)
Definition peer_test (kind id : option str) (b : AgentBinding) : bool :=
  match filled kind, filled id with
  | Some k, Some i => peer_matches k i b
  | _, _ => false
  end.

Definition field_test (matches : str → AgentBinding → bool) (o : option str) (b : AgentBinding) : bool :=
  match filled o with
  | Some s => matches s b
  | None => false
  end.

Definition precedence (input : RouteInput) : list (str * (AgentBinding → bool)) :=
  [(lit "binding.peer", peer_test (ri_peer_kind input) (ri_peer_id input));
   (lit "binding.peer.parent", peer_test (ri_parent_peer_kind input) (ri_parent_peer_id input));
   (lit "binding.guild", field_test guild_matches (ri_guild_id input));
   (lit "binding.team", field_test team_matches (ri_team_id input));
   (lit "binding.account", account_matches);
   (lit "binding.channel", wildcard_matches)].

(** The bindings of the message's channel and account. *)
Definition applicable (cfg : RouteConfig) (input : RouteInput) : list AgentBinding :=
  filter_bindings cfg (to_lowercase (trim (ri_channel input))) (normalize_account_id (ri_account_id input)).

(** What [to_lowercase] does to each character: an ASCII one has its one lower case; another
    may have several, or one that depends on what stands around it, but none is a colon or a
    capital of ASCII, and none is blank if the character is not. *)
Definition lowers (c : char) (l : str) : Prop :=
  if is_ascii_char c then l = [ascii_lower c]
  else l ≠ [] ∧ Forall (λ x, is_ascii_upper x = false ∧ x ≠ c_colon ∧ (is_ws x = true → is_ws c = true)) l.

Class Lowering := { lower_each : ∀ s, ∃ ls, Forall2 lowers s ls ∧ to_lowercase s = mjoin ls }.

(** [b] passes a test that no binding before it passes, and no binding at all passes a test
    of higher precedence. *)
Definition most_specific (bindings : list AgentBinding) (tests : list (str * (AgentBinding → bool))) (name : str) (b : AgentBinding) : Prop :=
  ∃ higher test lower before after,
    tests = higher ++ (name, test) :: lower ∧ bindings = before ++ b :: after ∧ test b = true ∧
    Forall (λ b', test b' = false) before ∧ Forall (λ t, Forall (λ b', snd t b' = false) bindings) higher.

Definition winner (bindings : list AgentBinding) (tests : list (str * (AgentBinding → bool))) : option (str * AgentBinding) :=
  first_some (λ t, pair (fst t) <$> List.find (snd t) bindings) tests.

(** A direct message, its fields in ASCII and no colon in the channel. *)
Definition direct_message (p : SessionKeyParams) (id : str) : Prop :=
  kp_peer p = Some (mkPeer (lit "direct") id) ∧ kp_identity_links p = [] ∧ trim id ≠ [] ∧
  is_ascii id = true ∧ is_ascii (kp_channel p) = true ∧ c_colon ∉ kp_channel p.

(** What a scope tells apart. *)
Definition told_apart (p : SessionKeyParams) (id : str) : list str :=
  let peer := ascii_lower <$> trim id in
  match kp_dm_scope p with
  | ScopeMain => []
  | PerPeer => [peer]
  | PerChannelPeer => [normalize_channel (kp_channel p); peer]
  | PerAccountChannelPeer => [normalize_channel (kp_channel p); normalize_account_id (kp_account_id p); peer]
  end.

(** ** Lemmas on lower case and identifiers *)

Lemma find_filter_Some {A} (f : A → bool) (l : list A) x : List.find f l = Some x →
  ∃ before after, l = before ++ x :: after ∧ f x = true ∧ Forall (λ y, f y = false) before.
Proof.
  induction l as [|y l IH]; [done|]. simpl. destruct (f y) eqn:E.
  - intros [= <-]. exists [], l. done.
  - intros H. destruct (IH H) as (before & after & -> & Hx & Hb). exists (y :: before), after. repeat split; [done|]. by constructor.
Qed.

Lemma find_filter_None {A} (f : A → bool) (l : list A) : List.find f l = None → Forall (λ y, f y = false) l.
Proof. induction l as [|y l IH]; [done|]. simpl. destruct (f y) eqn:E; [done|]. intros H. constructor; auto. Qed.

Lemma split_once_first c (a b : str) : c ∉ a → split_once [c] (a ++ c :: b) = Some (a, b).
Proof.
  intros Hc. unfold split_once. enough (find_str [c] (a ++ c :: b) = Some (length a)) as ->.
  { f_equal. f_equal; [by rewrite take_app_length|]. by rewrite drop_app_add. }
  induction a as [|x a IH]; simpl; [by rewrite N.eqb_refl|].
  rewrite not_elem_of_cons in Hc. destruct Hc as [Hx Ha].
  rewrite (proj2 (N.eqb_neq c x)) by done. simpl. by rewrite IH.
Qed.

Lemma trim_end_app (a b : str) : existsb (λ c, negb (is_ws c)) b = true → trim_end (a ++ b) = a ++ trim_end b ∧ trim_end b ≠ [].
Proof.
  intros Hb. destruct (trim_end_matches_prefix is_ws b) as (w & E & Hw).
  assert (trim_end b ≠ []) as Hne.
  { intros Hnil. unfold trim_end in Hnil. rewrite Hnil in E. simpl in E. subst w.
    apply existsb_exists in Hb as (c & Hc & Hn). rewrite forallb_forall in Hw. by rewrite (Hw c Hc) in Hn. }
  split; [|done]. unfold trim_end, trim_end_matches in *. rewrite rev_app_distr.
  destruct (trim_start_matches is_ws (rev b)) as [|x r] eqn:Hr; [done|].
  destruct (trim_start_matches_suffix is_ws (rev b)) as (p & Hp & Hpw). rewrite Hr in Hp. rewrite Hp, <-app_assoc.
  rewrite trim_start_matches_app by done. simpl. assert (is_ws x = false) as Hx.
  { apply (trim_start_matches_head is_ws (rev b)). by rewrite Hr. }
  rewrite Hx. simpl. rewrite rev_app_distr, rev_involutive, app_assoc. done.
Qed.

(** What a normalised identifier looks like. *)
Definition id_shape (s : str) : Prop :=
  s ≠ [] ∧ Forall (λ c, id_char c = true ∧ is_ascii_upper c = false) s ∧ head s ≠ Some c_dash.

Lemma id_char_ascii c : id_char c = true → is_ascii_char c = true.
Proof.
  unfold id_char, is_ascii_alnum, is_ascii_alpha, is_ascii_upper, is_ascii_lower, is_ascii_digit, is_ascii_char, c_under, c_dash.
  rewrite !orb_true_iff, !andb_true_iff, !N.leb_le, !N.eqb_eq, N.ltb_lt. lia.
Qed.

Lemma id_char_plain c : id_char c = true → is_ws c = false ∧ c ≠ c_colon.
Proof.
  unfold id_char, is_ascii_alnum, is_ascii_alpha, is_ascii_upper, is_ascii_lower, is_ascii_digit, c_under, c_dash, c_colon.
  rewrite !orb_true_iff, !andb_true_iff, !N.leb_le, !N.eqb_eq. intros H. split; [|lia].
  apply not_true_is_false. unfold is_ws. rewrite !orb_true_iff, !andb_true_iff, !N.leb_le, !N.eqb_eq. lia.
Qed.

Lemma id_char_dashed s : Forall (λ c, id_char c = true) (dashed s).
Proof. apply Forall_fmap, Forall_true. intros c. simpl. by destruct (id_char c) eqn:E. Qed.

Lemma dashed_id s : Forall (λ c, id_char c = true) s → dashed s = s.
Proof. intros H. unfold dashed. induction H as [|c s Hc _ IH]; [done|]. rewrite fmap_cons, IH. by rewrite Hc. Qed.

Lemma trim_matches_sublist p (s : str) : ∃ a b, s = a ++ trim_matches p s ++ b.
Proof.
  unfold trim_matches. destruct (trim_start_matches_suffix p s) as (a & Ha & _).
  destruct (trim_end_matches_prefix p (trim_start_matches p s)) as (b & Hb & _). exists a, b. by rewrite <-Hb.
Qed.

Lemma Forall_trim {P : char → Prop} p s : Forall P s → Forall P (trim_matches p s).
Proof. intros H. destruct (trim_matches_sublist p s) as (a & b & E). rewrite E, !Forall_app in H. tauto. Qed.

Lemma trim_start_matches_self p (s : str) : (∀ c, head s = Some c → p c = false) → trim_start_matches p s = s.
Proof. destruct s as [|c s]; [done|]. intros H. simpl. by rewrite (H c). Qed.

Lemma trim_end_matches_self p (s : str) : (∀ c, last s = Some c → p c = false) → trim_end_matches p s = s.
Proof.
  intros H. unfold trim_end_matches. rewrite trim_start_matches_self; [apply rev_involutive|].
  intros c Hc. apply H. rewrite rev_alt in Hc. fold (reverse s) in Hc. by rewrite head_reverse in Hc.
Qed.

Lemma trim_matches_self p (s : str) : (∀ c, head s = Some c → p c = false) → (∀ c, last s = Some c → p c = false) → trim_matches p s = s.
Proof. intros Hh Hl. unfold trim_matches. rewrite trim_start_matches_self by done. by apply trim_end_matches_self. Qed.

Lemma trim_matches_ends p (s : str) :
  (∀ c, head (trim_matches p s) = Some c → p c = false) ∧ (∀ c, last (trim_matches p s) = Some c → p c = false).
Proof.
  split; intros c Hc; [|by eapply trim_end_matches_last].
  unfold trim_matches in Hc. destruct (trim_end_matches_prefix p (trim_start_matches p s)) as (b & Hb & _).
  apply (trim_start_matches_head p s). rewrite Hb. by destruct (trim_end_matches p (trim_start_matches p s)).
Qed.

Lemma trim_plain s : Forall (λ c, is_ws c = false) s → trim s = s.
Proof.
  intros H. rewrite Forall_forall in H. unfold trim, trim_start, trim_end. rewrite trim_start_matches_self.
  - apply trim_end_matches_self. intros c Hc. apply H. by apply last_Some_elem_of.
  - intros c Hc. apply H. by apply head_Some_elem_of.
Qed.

Section Lower.
Context {LO : Lowering}.

Lemma lowers_ascii p ls : is_ascii p = true → Forall2 lowers p ls → mjoin ls = ascii_lower <$> p.
Proof.
  intros Hp H. induction H as [|c l p ls Hc _ IH]; [done|]. simpl in Hp. apply andb_true_iff in Hp as [Hca Hp].
  unfold lowers in Hc. rewrite Hca in Hc. subst l. simpl. by rewrite (IH Hp).
Qed.

Lemma lower_prefix p s : is_ascii p = true → ∃ t ls, to_lowercase (p ++ s) = (ascii_lower <$> p) ++ t ∧ t = mjoin ls ∧ Forall2 lowers s ls.
Proof.
  intros Hp. destruct (lower_each (p ++ s)) as (ls & H & ->). apply Forall2_app_inv_l in H as (l1 & l2 & H1 & H2 & ->).
  exists (mjoin l2), l2. by rewrite join_app, (lowers_ascii p l1).
Qed.

Lemma lower_visible s ls : Forall2 lowers s ls → existsb (λ c, negb (is_ws c)) s = true → existsb (λ c, negb (is_ws c)) (mjoin ls) = true.
Proof.
  induction 1 as [|c l s ls Hc _ IH]; [done|]. simpl. rewrite existsb_app. intros [Hv|Hv]%orb_true_iff; [|by rewrite IH, orb_true_r].
  apply orb_true_iff. left. unfold lowers in Hc. destruct (is_ascii_char c).
  - subst l. simpl. rewrite orb_false_r. unfold ascii_lower. destruct (is_ascii_upper c) eqn:E; [|done].
    unfold is_ascii_upper in E. apply negb_true_iff, not_true_is_false. unfold is_ws.
    rewrite !orb_true_iff, !andb_true_iff, !N.leb_le, !N.eqb_eq. apply andb_true_iff in E as [?%N.leb_le ?%N.leb_le]. lia.
  - destruct Hc as [Hne Hl]. destruct l as [|x l]; [done|]. apply Forall_cons in Hl as [(_ & _ & Hx) _]. simpl.
    destruct (is_ws x); [|done]. by rewrite Hx in Hv.
Qed.

Lemma lower_not_upper s : Forall (λ c, is_ascii_upper c = false) (to_lowercase s).
Proof.
  destruct (lower_each s) as (ls & H & ->). induction H as [|c l s ls Hc _ IH]; [done|]. simpl. apply Forall_app. split; [|done].
  unfold lowers in Hc. destruct (is_ascii_char c).
  - subst l. constructor; [|done]. unfold ascii_lower. destruct (is_ascii_upper c) eqn:E; [|done].
    unfold is_ascii_upper in *. apply andb_true_iff in E as [?%N.leb_le ?%N.leb_le]. apply not_true_is_false.
    rewrite andb_true_iff, !N.leb_le. lia.
  - eapply Forall_impl; [apply Hc|]. naive_solver.
Qed.

Lemma lower_id s : Forall (λ c, id_char c = true ∧ is_ascii_upper c = false) s → to_lowercase s = s.
Proof.
  intros H. rewrite to_lowercase_ascii.
  - induction H as [|c s [_ Hc] _ IH]; [done|]. rewrite fmap_cons, IH. unfold ascii_lower. by rewrite Hc.
  - unfold is_ascii. apply forallb_Forall_true. eapply Forall_impl; [apply H|]. intros c [Hc _]. by apply id_char_ascii.
Qed.

Definition id_letter (c : char) : Prop := id_char c = true ∧ is_ascii_upper c = false.

Lemma dashed_letters s : Forall (λ c, is_ascii_upper c = false) s → Forall id_letter (dashed s).
Proof.
  intros H. apply Forall_fmap. eapply Forall_impl; [apply H|]. intros c Hc. unfold id_letter. simpl.
  destruct (id_char c) eqn:E; [by rewrite E|by split].
Qed.

Lemma length_byte_len (s : str) : (length s ≤ byte_len s)%nat.
Proof.
  unfold byte_len. induction s as [|c s IH]; simpl; [done|]. assert (1 ≤ len_utf8 c)%nat by (unfold len_utf8; repeat case_match; lia). lia.
Qed.

Lemma valid_id_letters s : is_valid_id (to_lowercase s) = true →
  id_shape (to_lowercase s) ∧ (length (to_lowercase s) ≤ MAX_AGENT_ID_LENGTH)%nat.
Proof.
  pose proof (lower_not_upper s) as Hu. destruct (to_lowercase s) as [|c l]; [done|]. unfold is_valid_id.
  case_match eqn:Hlen; [done|]. case_match eqn:Hfirst; [done|]. intros Hall. apply negb_false_iff in Hfirst.
  assert (is_ascii (c :: l) = true) as Ha.
  { apply forallb_Forall_true. apply forallb_Forall_true in Hall. eapply Forall_impl; [apply Hall|]. apply id_char_ascii. }
  split.
  - split; [done|]. split; [apply Forall_and; split; [by apply forallb_Forall_true|done]|]. intros [= ->]. done.
  - apply Nat.ltb_ge in Hlen. etransitivity; [apply length_byte_len|exact Hlen].
Qed.

Lemma undash_shape s : Forall id_letter s → nonempty (undash s) = true → id_shape (undash s).
Proof.
  intros H Hne. split; [by apply nonempty_true|]. split; [by apply Forall_trim|]. intros Hd.
  by apply (trim_matches_ends (N.eqb c_dash) s) in Hd.
Qed.

Lemma or_default_cases d s (P : str → Prop) : (nonempty s = true → P s) → P d → P (or_default d s).
Proof. unfold or_default. destruct (nonempty s); auto. Qed.

Lemma default_id_shape : id_shape DEFAULT_AGENT_ID ∧ id_shape DEFAULT_ACCOUNT_ID.
Proof. split; (split; [done|]); (split; [|done]); repeat constructor. Qed.

Lemma agent_id_shape id : id_shape (normalize_agent_id id).
Proof.
  pose proof default_id_shape as [Hm _]. unfold normalize_agent_id. case_match; [done|]. case_match eqn:Hv; [by apply valid_id_letters|].
  apply (or_default_cases _ _ id_shape); [|done]. intros Hne. apply undash_shape; [|done]. apply Forall_take, Forall_trim.
  apply dashed_letters, lower_not_upper.
Qed.

Lemma account_id_shape id : id_shape (normalize_account_id id).
Proof.
  pose proof default_id_shape as [_ Hm]. unfold normalize_account_id. case_match; [done|]. case_match eqn:Hv; [by apply valid_id_letters|].
  apply (or_default_cases _ _ id_shape); [|done]. intros Hne. apply undash_shape; [|done]. apply dashed_letters, lower_not_upper.
Qed.

Lemma agent_id_length id : (length (normalize_agent_id id) ≤ MAX_AGENT_ID_LENGTH)%nat.
Proof.
  unfold normalize_agent_id. case_match; [vm_compute; lia|]. case_match eqn:Hv; [by apply valid_id_letters|].
  apply (or_default_cases _ _ (λ s, (length s ≤ _)%nat)); [|vm_compute; lia]. intros _.
  set (t := take MAX_AGENT_ID_LENGTH _). destruct (trim_matches_sublist (N.eqb c_dash) t) as (a & b & E).
  assert (length t ≤ MAX_AGENT_ID_LENGTH)%nat by (unfold t; rewrite length_take; lia).
  unfold undash at 1. apply (f_equal length) in E. rewrite !length_app in E. lia.
Qed.

(** An identifier of the shape is kept, and so is one that is normalised a second time. *)
Lemma shaped_id_kept s : id_shape s → last s ≠ Some c_dash ∨ is_valid_id s = true → (length s ≤ MAX_AGENT_ID_LENGTH)%nat →
  normalize_agent_id s = s.
Proof.
  intros (Hne & Hall & Hh) Hl Hlen. unfold normalize_agent_id. rewrite trim_plain.
  2: { eapply Forall_impl; [apply Hall|]. intros c [Hc _]. by apply id_char_plain. }
  rewrite (proj2 (nonempty_true s)) by done. simpl. rewrite lower_id by done. case_match eqn:Hv; [done|]. destruct Hl as [Hl|Hl]; [|congruence].
  rewrite dashed_id by (eapply Forall_impl; [apply Hall|]; naive_solver).
  assert (undash s = s) as Hs.
  { apply trim_matches_self; intros c Hc; apply N.eqb_neq; intros <-; naive_solver. }
  rewrite Hs, take_ge by done. rewrite Hs. unfold or_default. by rewrite (proj2 (nonempty_true s)).
Qed.

Lemma agent_id_ends id : last (normalize_agent_id id) ≠ Some c_dash ∨ is_valid_id (normalize_agent_id id) = true.
Proof.
  unfold normalize_agent_id. case_match; [by right|]. case_match eqn:Hv; [by right|]. left.
  apply (or_default_cases _ _ (λ s, last s ≠ Some c_dash)); [|done]. intros _ Hd.
  by apply (trim_matches_ends (N.eqb c_dash)) in Hd.
Qed.

Lemma agent_id_idempotent id : normalize_agent_id (normalize_agent_id id) = normalize_agent_id id.
Proof. apply shaped_id_kept; [apply agent_id_shape|apply agent_id_ends|apply agent_id_length]. Qed.

(** ** Lemmas on keys *)

Definition visible (s : str) : bool := existsb (λ c, negb (is_ws c)) s.

Lemma letters_lower id : Forall id_letter id → ascii_lower <$> id = id ∧ is_ascii id = true ∧ c_colon ∉ id.
Proof.
  intros H. split; [|split].
  - induction H as [|c s [_ Hc] _ IH]; [done|]. rewrite fmap_cons, IH. unfold ascii_lower. by rewrite Hc.
  - apply forallb_Forall_true. eapply Forall_impl; [apply H|]. intros c [Hc _]. by apply id_char_ascii.
  - intros Hin. rewrite Forall_forall in H. destruct (H _ Hin) as [Hc _]. by destruct (id_char_plain _ Hc).
Qed.

Lemma join_visible a b l : visible (join [c_colon] (a :: b :: l)) = true.
Proof. unfold visible. rewrite join_cons by done. rewrite existsb_app. apply orb_true_iff. right. done. Qed.

Lemma key_parses id parts : id ≠ [] → Forall id_letter id → parts ≠ [] → visible (join [c_colon] parts) = true →
  ∃ rest, parse_agent_session_key (key_of (lit "agent" :: id :: parts)) = Some (id, rest).
Proof.
  intros Hne Hid Hparts Hv. destruct (letters_lower id Hid) as (Hlow & Hasc & Hcol).
  assert (join [c_colon] (lit "agent" :: id :: parts) = (lit "agent" ++ c_colon :: id ++ [c_colon]) ++ join [c_colon] parts) as Hj.
  { rewrite join_cons by done. rewrite (join_cons _ id) by done. rewrite <-app_assoc. cbn [app]. by rewrite <-app_assoc. }
  unfold key_of. rewrite Hj. destruct (lower_prefix (lit "agent" ++ c_colon :: id ++ [c_colon]) (join [c_colon] parts)) as (t & ls & -> & -> & Hls).
  { unfold is_ascii in *. rewrite !forallb_app. simpl. by rewrite forallb_app, Hasc. }
  apply (lower_visible _ _ Hls) in Hv. set (t := mjoin ls) in *. clearbody t.
  assert (ascii_lower <$> lit "agent" ++ c_colon :: id ++ [c_colon] = lit "agent" ++ c_colon :: id ++ [c_colon]) as ->.
  { rewrite fmap_app, fmap_cons, fmap_app, Hlow. done. }
  destruct (trim_end_app (lit "agent" ++ c_colon :: id ++ [c_colon]) t Hv) as [Ht Htne].
  unfold parse_agent_session_key, trim. unfold trim_start. rewrite trim_start_matches_self by (intros c [= <-]; done).
  rewrite Ht. rewrite <-app_assoc. cbn [app]. rewrite <-app_assoc. cbn [app].
  exists (trim_end t). replace (nonempty _) with true by done. cbn [negb].
  rewrite split_once_first by (vm_compute; set_solver). rewrite split_once_first by done. simpl.
  destruct id; [done|]. by destruct (trim_end t).
Qed.

Lemma peer_key_parses params : kp_agent_id params = normalize_agent_id (kp_agent_id params) →
  ∃ rest, parse_agent_session_key (build_agent_peer_session_key params) = Some (kp_agent_id params, rest).
Proof.
  intros Hn. destruct (agent_id_shape (kp_agent_id params)) as (Hne & Hid & _). rewrite <-Hn in Hne, Hid.
  assert (∃ rest, parse_agent_session_key (build_agent_main_session_key (kp_agent_id params)) = Some (kp_agent_id params, rest)) as Hmain.
  { unfold build_agent_main_session_key. rewrite <-Hn. by apply key_parses. }
  unfold build_agent_peer_session_key. rewrite <-Hn. case_match; [|by apply key_parses; [..|apply join_visible]].
  destruct (kp_dm_scope params); [done|case_match; [|done]..]; (apply key_parses; [done..|apply join_visible]).
Qed.

Lemma main_key_parses agent_id : agent_id = normalize_agent_id agent_id →
  ∃ rest, parse_agent_session_key (build_agent_main_session_key agent_id) = Some (agent_id, rest).
Proof.
  intros Hn. destruct (agent_id_shape agent_id) as (Hne & Hid & _). rewrite <-Hn in Hne, Hid.
  unfold build_agent_main_session_key. rewrite <-Hn. by apply key_parses.
Qed.

(** Every key of a session of an agent begins so. *)
Lemma key_agent parts : parts ≠ [] → starts_with (lit "agent:") (key_of (lit "agent" :: parts)) = true.
Proof.
  intros Hne. unfold key_of. rewrite join_cons by done.
  destruct (lower_prefix (lit "agent:") (join [c_colon] parts)) as (t & ls & E & _); [done|].
  change (lit "agent" ++ [c_colon] ++ join [c_colon] parts) with (lit "agent:" ++ join [c_colon] parts). rewrite E.
  change (ascii_lower <$> lit "agent:") with (lit "agent:"). apply starts_with_app.
Qed.

Lemma peer_key_agent params : starts_with (lit "agent:") (build_agent_peer_session_key params) = true.
Proof.
  unfold build_agent_peer_session_key, build_agent_main_session_key. case_match; [|by apply key_agent].
  destruct (kp_dm_scope params); [by apply key_agent|case_match; by apply key_agent..].
Qed.

(** The names of the agents of a configuration; without any there is the default one. *)
Definition agent_names (cfg : RouteConfig) : list str := (normalize_agent_id ∘ ad_id) <$> rc_agents cfg.

Lemma trim_idem s : trim (trim s) = trim s.
Proof.
  change (trim_matches is_ws (trim_matches is_ws s) = trim_matches is_ws s).
  by apply trim_matches_self; apply trim_matches_ends.
Qed.

Lemma default_agent_named cfg : rc_agents cfg ≠ [] → resolve_default_agent cfg ∈ agent_names cfg.
Proof.
  intros Hne. unfold resolve_default_agent, agent_names.
  assert (∀ a, normalize_agent_id (trim (ad_id a)) = (normalize_agent_id ∘ ad_id) a) as Htrim.
  { intros a. unfold normalize_agent_id. simpl. unfold normalize_agent_id. by rewrite trim_idem. }
  case_match eqn:Hf.
  - apply List.find_some in Hf as [Hin _]. rewrite Htrim. apply list_elem_of_fmap_2. by apply list_elem_of_In.
  - destruct (rc_agents cfg) as [|a l]; [done|]. apply list_elem_of_fmap. exists a. split; [|left].
    case_match eqn:Hb; [apply Htrim|]. simpl. unfold normalize_agent_id. by rewrite Hb.
Qed.

Lemma picked_agent cfg agent_id :
  pick_agent cfg agent_id = normalize_agent_id (pick_agent cfg agent_id) ∧
  (rc_agents cfg ≠ [] → pick_agent cfg agent_id ∈ agent_names cfg).
Proof.
  assert (resolve_default_agent cfg = normalize_agent_id (resolve_default_agent cfg)) as Hd.
  { unfold resolve_default_agent. case_match; [by rewrite agent_id_idempotent|].
    assert (DEFAULT_AGENT_ID = normalize_agent_id []) as Hm by done.
    destruct (rc_agents cfg); [by rewrite Hm, agent_id_idempotent|].
    case_match; [by rewrite agent_id_idempotent|]. by rewrite Hm, agent_id_idempotent. }
  unfold pick_agent. split.
  - repeat case_match; rewrite ?agent_id_idempotent; done.
  - intros Hne. rewrite bool_decide_false by (by destruct (rc_agents cfg)). case_match eqn:He; [|by apply default_agent_named].
    apply existsb_exists in He as (a & Hin & Ha). bool_simpl. rewrite <-Ha. apply list_elem_of_fmap. exists a.
    split; [done|]. by apply list_elem_of_In.
Qed.

(** Whatever is resolved, it is a route that [build_route] has made. *)
Lemma resolve_route cfg input : ∃ agent_id matched_by,
  resolve cfg input = build_route cfg agent_id (to_lowercase (trim (ri_channel input))) (normalize_account_id (ri_account_id input)) input matched_by.
Proof. unfold resolve. repeat case_match; by eexists _, _. Qed.

(** ** Properties *)

(** C13: whatever the bindings and the message, the message goes to an agent of the
    configuration, and the agent can be read back from the key of the session and from the
    key of the agent's main session: two agents never share a history. *)
Theorem route_key_names_agent cfg input (r := resolve cfg input) :
  (rc_agents cfg ≠ [] → rr_agent_id r ∈ agent_names cfg) ∧
  (∃ rest, parse_agent_session_key (rr_session_key r) = Some (rr_agent_id r, rest)) ∧
  (∃ rest, parse_agent_session_key (rr_main_session_key r) = Some (rr_agent_id r, rest)).
Proof.
  subst r. destruct (resolve_route cfg input) as (agent_id & matched_by & ->). unfold build_route. simpl.
  destruct (picked_agent cfg agent_id) as [Hn Hin]. split; [done|]. split; [|by apply main_key_parses].
  match goal with |- context [build_agent_peer_session_key ?p] => apply (peer_key_parses p) end. done.
Qed.
End Lower.

Lemma winner_spec bindings tests : match winner bindings tests with
  | Some (name, b) => most_specific bindings tests name b
  | None => Forall (λ t, Forall (λ b, snd t b = false) bindings) tests
  end.
Proof.
  induction tests as [|[name test] tests IH]; [constructor|]. unfold winner. simpl. destruct (List.find test bindings) as [b|] eqn:E; simpl.
  - destruct (find_filter_Some _ _ _ E) as (before & after & -> & Hb & Hn). by exists [], test, tests, before, after.
  - apply find_filter_None in E. fold (winner bindings tests). destruct (winner bindings tests) as [[name' b]|]; [|by constructor].
    destruct IH as (higher & t & lower & before & after & -> & IH). exists ((name, test) :: higher), t, lower, before, after.
    split; [done|]. naive_solver.
Qed.

Lemma find_constant_false (bindings : list AgentBinding) : List.find (λ _, false) bindings = None.
Proof. by induction bindings. Qed.

Lemma resolve_winner cfg input :
  resolve cfg input =
  let route agent_id := build_route cfg agent_id (to_lowercase (trim (ri_channel input))) (normalize_account_id (ri_account_id input)) input in
  match winner (applicable cfg input) (precedence input) with
  | Some (name, b) => route (bn_agent_id b) name
  | None => route (resolve_default_agent cfg) (lit "default")
  end.
Proof.
  unfold resolve. fold (applicable cfg input). set (bs := applicable cfg input). unfold winner, precedence. cbn [first_some fst snd].
  assert (∀ kind id, by_peer bs kind id = List.find (peer_test kind id) bs) as Hpeer.
  { intros kind id. unfold by_peer, peer_test. destruct (filled kind), (filled id); by rewrite ?find_constant_false. }
  assert (∀ m o, match filled o with Some g => List.find (m g) bs | None => None end = List.find (field_test m o) bs) as Hfield.
  { intros m o. unfold field_test. destruct (filled o); by rewrite ?find_constant_false. }
  unfold find_guild_match, find_team_match, find_account_match, find_channel_wildcard_match. rewrite !Hpeer, (Hfield guild_matches), (Hfield team_matches).
  repeat (case_match; simplify_eq/=; try done).
Qed.

(** C14: the agent of a message is that of the first binding, among those of its channel and
    account, that passes the test of the highest precedence any of them passes: peer, parent
    peer, guild, team, account, channel; the default agent if none passes any. *)
Theorem resolve_most_specific cfg input (r := resolve cfg input) :
  (∃ name b, most_specific (applicable cfg input) (precedence input) name b ∧
     rr_matched_by r = name ∧ rr_agent_id r = pick_agent cfg (bn_agent_id b)) ∨
  (Forall (λ t, Forall (λ b, snd t b = false) (applicable cfg input)) (precedence input) ∧
     rr_matched_by r = lit "default" ∧ rr_agent_id r = pick_agent cfg (resolve_default_agent cfg)).
Proof.
  subst r. rewrite resolve_winner. pose proof (winner_spec (applicable cfg input) (precedence input)) as Hw.
  destruct (winner _ _) as [[name b]|]; [left; by exists name, b|by right].
Qed.

Lemma join_inj l1 : ∀ l2 x y, length l1 = length l2 → Forall (λ s, c_colon ∉ s) l1 → Forall (λ s, c_colon ∉ s) l2 →
  join [c_colon] (l1 ++ [x]) = join [c_colon] (l2 ++ [y]) → l1 = l2 ∧ x = y.
Proof.
  induction l1 as [|a l1 IH]; intros [|b l2] x y Hlen H1 H2 E; try done. simpl app in E.
  rewrite !join_cons in E by (by destruct l1, l2). apply Forall_cons in H1 as [Ha H1]. apply Forall_cons in H2 as [Hb H2].
  apply (f_equal (split_once [c_colon])) in E. simpl app in E. rewrite !split_once_first in E by done. injection E as -> E.
  simpl in Hlen. destruct (IH l2 x y) as [-> ->]; [lia|done..].
Qed.

Lemma ascii_lower_idem c : ascii_lower (ascii_lower c) = ascii_lower c.
Proof.
  unfold ascii_lower. destruct (is_ascii_upper c) eqn:E; [|by rewrite E]. unfold is_ascii_upper in *.
  apply andb_true_iff in E as [?%N.leb_le ?%N.leb_le]. case_match eqn:E; [|done]. apply andb_true_iff in E as [?%N.leb_le ?%N.leb_le]. lia.
Qed.

(** ASCII in lower case. *)
Definition low (s : str) : Prop := is_ascii s = true ∧ ascii_lower <$> s = s.

Lemma lower_low s : is_ascii s = true → low (to_lowercase s).
Proof.
  intros H. rewrite to_lowercase_ascii by done. split.
  - unfold is_ascii in *. apply forallb_Forall_true in H. apply forallb_Forall_true, Forall_fmap. eapply Forall_impl; [apply H|].
    intros c Hc. unfold is_ascii_char, ascii_lower, is_ascii_upper in *. simpl. apply N.ltb_lt in Hc.
    case_match eqn:E; apply N.ltb_lt; [|done]. apply andb_true_iff in E as [?%N.leb_le ?%N.leb_le]. lia.
  - rewrite <-list_fmap_compose. apply list_fmap_ext. intros i c _. apply ascii_lower_idem.
Qed.

Lemma low_app a b : low a → low b → low (a ++ b).
Proof. intros [Ha La] [Hb Lb]. split; [unfold is_ascii in *; by rewrite forallb_app, Ha, Hb|by rewrite fmap_app, La, Lb]. Qed.

Lemma low_join l : Forall low l → low (join [c_colon] l).
Proof.
  induction 1 as [|s l Hs Hl IH]; [done|]. destruct l; [done|]. rewrite join_cons by done. apply low_app; [done|]. by apply low_app.
Qed.

Lemma key_low l : Forall low l → key_of l = join [c_colon] l.
Proof. intros H. unfold key_of. destruct (low_join l H) as [Ha Hl]. by rewrite to_lowercase_ascii. Qed.

Lemma ascii_trim s : is_ascii s = true → is_ascii (trim s) = true.
Proof. unfold is_ascii. rewrite !forallb_Forall_true. apply (Forall_trim is_ws). Qed.

Lemma letters_low id : Forall id_letter id → low id ∧ c_colon ∉ id.
Proof. intros H. destruct (letters_lower id H) as (? & ? & ?). by split. Qed.

Section Isolation.
Context {LO : Lowering}.

Lemma channel_low channel : is_ascii channel = true → c_colon ∉ channel → low (normalize_channel channel) ∧ c_colon ∉ normalize_channel channel.
Proof.
  intros Ha Hc. unfold normalize_channel. apply (or_default_cases _ _ (λ s, low s ∧ c_colon ∉ s)).
  - intros _. pose proof (ascii_trim _ Ha) as Ht. split; [by apply lower_low|]. rewrite to_lowercase_ascii by done.
    intros (c & E & Hin)%list_elem_of_fmap. assert (c = c_colon) as ->.
    { unfold ascii_lower, c_colon in *. case_match eqn:Hu; [|done]. unfold is_ascii_upper in Hu. apply andb_true_iff in Hu as [?%N.leb_le ?%N.leb_le]. lia. }
    apply Hc. destruct (trim_matches_sublist is_ws channel) as (a & b & Es). rewrite Es. apply elem_of_app. right. apply elem_of_app. by left.
  - split; [done|]. vm_compute. set_solver.
Qed.

(** The pieces of a direct message's key before the peer. *)
Definition key_front (p : SessionKeyParams) : list str :=
  [lit "agent"; normalize_agent_id (kp_agent_id p)] ++
  match kp_dm_scope p with
  | PerChannelPeer => [normalize_channel (kp_channel p); lit "direct"]
  | PerAccountChannelPeer => [normalize_channel (kp_channel p); normalize_account_id (kp_account_id p); lit "direct"]
  | _ => [lit "direct"]
  end.

Lemma key_front_low p id : direct_message p id → Forall (λ s, low s ∧ c_colon ∉ s) (key_front p).
Proof.
  intros (_ & _ & _ & _ & Ha & Hc). pose proof (channel_low _ Ha Hc) as Hch.
  pose proof (agent_id_shape (kp_agent_id p)) as (_ & Hag%letters_low & _). pose proof (account_id_shape (kp_account_id p)) as (_ & Hac%letters_low & _).
  assert (low (lit "agent") ∧ c_colon ∉ lit "agent") as H1 by (split; [done|vm_compute; set_solver]).
  assert (low (lit "direct") ∧ c_colon ∉ lit "direct") as H2 by (split; [done|vm_compute; set_solver]).
  unfold key_front. destruct (kp_dm_scope p); repeat (constructor; [done|]); constructor.
Qed.

Lemma direct_key p id : direct_message p id →
  build_agent_peer_session_key p =
  if bool_decide (kp_dm_scope p = ScopeMain) then build_agent_main_session_key (kp_agent_id p)
  else join [c_colon] (key_front p ++ [ascii_lower <$> trim id]).
Proof.
  intros Hd. pose proof (key_front_low p id Hd) as Hf. destruct Hd as (Hp & Hl & Hne & Hi & _).
  pose proof (ascii_trim _ Hi) as Hti. pose proof (lower_low _ Hti) as Hlow. rewrite (to_lowercase_ascii _ Hti) in Hlow.
  assert (key_of (key_front p ++ [ascii_lower <$> trim id]) = join [c_colon] (key_front p ++ [ascii_lower <$> trim id])) as <-.
  { apply key_low, Forall_app. split; [eapply Forall_impl; [apply Hf|]; naive_solver|by constructor]. }
  unfold build_agent_peer_session_key. rewrite Hp. cbn [from_option Datatypes.id pr_kind pr_id].
  change (or_default (lit "direct") (trim (lit "direct"))) with (lit "direct"). rewrite (to_lowercase_ascii (lit "direct")) by done.
  rewrite bool_decide_true by done. rewrite Hl. unfold resolve_linked_peer_id. rewrite (bool_decide_true (@nil (str * list str) = [])) by done.
  match goal with |- context [to_lowercase (if ?b then ?x else ?y)] => replace (if b then x else y) with (trim id) by (by destruct b) end.
  rewrite (to_lowercase_ascii _ Hti).
  assert (nonempty (ascii_lower <$> trim id) = true) as -> by (by destruct (trim id)).
  unfold key_front. by destruct (kp_dm_scope p).
Qed.

(** C15: direct messages to one agent share a session exactly if they agree in all that the
    scope tells apart: nothing, the peer, the channel and the peer, or these and the account,
    compared without regard to case and surrounding blanks. *)
Theorem direct_sessions_isolated p q id id' :
  direct_message p id → direct_message q id' →
  normalize_agent_id (kp_agent_id p) = normalize_agent_id (kp_agent_id q) → kp_dm_scope p = kp_dm_scope q →
  build_agent_peer_session_key p = build_agent_peer_session_key q ↔ told_apart p id = told_apart q id'.
Proof.
  intros Hp Hq Ha Hs. rewrite (direct_key p id), (direct_key q id') by done. pose proof (key_front_low p id Hp) as Hfp.
  pose proof (key_front_low q id' Hq) as Hfq. case_bool_decide as Hm.
  - rewrite bool_decide_true by congruence. unfold told_apart, build_agent_main_session_key. by rewrite <-Hs, Hm, Ha.
  - rewrite bool_decide_false by congruence. split.
    + intros E. apply join_inj in E as [Ef Ep].
      * unfold key_front, told_apart in *. rewrite <-Hs in *. destruct (kp_dm_scope p); simplify_eq/=; congruence.
      * unfold key_front. rewrite <-Hs. by destruct (kp_dm_scope p).
      * eapply Forall_impl; [apply Hfp|naive_solver].
      * eapply Forall_impl; [apply Hfq|naive_solver].
    + intros E. f_equal. unfold key_front, told_apart in *. rewrite <-Hs, <-Ha in *. destruct (kp_dm_scope p); simplify_eq/=; congruence.
Qed.
End Isolation.

Section Observed.
Context {LO : Lowering}.

(** Observed: the account of a message is normalised and that of a binding is not, so a binding
    whose account has a character that normalising replaces matches no message at all. *)
Theorem unnormalised_account_never_matches m x :
  forallb id_char (to_lowercase (trim m)) = false → trim m ≠ [] → trim m ≠ lit "*" →
  matches_account_id m (normalize_account_id x) = false.
Proof.
  intros Hm Hne Hs. unfold matches_account_id. rewrite (proj2 (nonempty_true (trim m))) by done. cbn [negb].
  rewrite bool_decide_false by done. apply bool_decide_false. intros E. destruct (account_id_shape x) as (_ & Hx & _).
  rewrite (lower_id (normalize_account_id x)) in E by done. rewrite E in Hm. apply not_true_iff_false in Hm. apply Hm.
  apply forallb_Forall_true. eapply Forall_impl; [apply Hx|]. naive_solver.
Qed.
End Observed.

(** Observed: a constraint that is there but blank keeps a binding from the tests that take no
    constraint, and passes none of the others, so the binding is never chosen. *)
Theorem blank_constraint_is_dead input b :
  constrained b = true → filled (bn_match_peer_kind b) = None → filled (bn_match_guild_id b) = None → filled (bn_match_team_id b) = None →
  Forall (λ t, snd t b = false) (precedence input).
Proof.
  intros Hc Hk Hg Ht. assert (∀ o, filled o = None → ∀ s, o = Some s → nonempty (trim s) = false) as Hf.
  { intros o Ho s ->. unfold filled in Ho. by case_match. }
  assert (to_lowercase [] = []) as Hlow by (by rewrite to_lowercase_ascii).
  assert (∀ k i, peer_matches k i b = false) as Hp.
  { intros k i. unfold peer_matches. destruct (bn_match_peer_kind b) as [s|] eqn:E; [|done]. destruct (bn_match_peer_id b); [|done].
    pose proof (Hf _ Hk s eq_refl) as Hs. destruct (trim s); [|done]. by rewrite Hlow. }
  unfold precedence. repeat constructor; cbn [snd]; unfold peer_test, field_test.
  - destruct (filled (ri_peer_kind input)), (filled (ri_peer_id input)); try done; apply Hp.
  - destruct (filled (ri_parent_peer_kind input)), (filled (ri_parent_peer_id input)); try done; apply Hp.
  - case_match; [|done]. unfold guild_matches. case_match eqn:E; [|done]. by rewrite (Hf _ Hg _ eq_refl).
  - case_match; [|done]. unfold team_matches. case_match eqn:E; [|done]. by rewrite (Hf _ Ht _ eq_refl).
  - unfold account_matches. rewrite Hc. by case_match.
  - unfold wildcard_matches. rewrite Hc. by case_match.
Qed.
End Routing.

(** Observed: an identifier that is cut to shape may begin with an underscore. *)
Theorem underscore_may_begin : @normalize_agent_id ascii_unicode (lit "_x!") = lit "_x".
Proof. vm_compute. reflexivity. Qed.

(** Observed: a group whose kind is the name of an account and whose id begins with the word of
    direct messages shares the session of a direct message. *)
Theorem group_shares_direct_session :
  @build_agent_peer_session_key ascii_unicode
    (mkKeyParams (lit "main") (lit "tg") (lit "group") (Some (mkPeer (lit "direct") (lit "42"))) PerAccountChannelPeer []) =
  @build_agent_peer_session_key ascii_unicode
    (mkKeyParams (lit "main") (lit "tg") (lit "bot") (Some (mkPeer (lit "group") (lit "direct:42"))) PerAccountChannelPeer []).
Proof. vm_compute. reflexivity. Qed.

(** ** Witnesses *)

Definition ascii_lowering : @Lowering ascii_unicode.
Proof.
  constructor. intros s. exists ((λ c, [ascii_lower c]) <$> s). split.
  - induction s as [|c s IH]; [constructor|]. rewrite fmap_cons. constructor; [|done]. unfold lowers. case_match eqn:E; [done|]. split; [done|].
    unfold is_ascii_char in E. apply N.ltb_ge in E. assert (is_ascii_upper c = false) as Hu.
    { apply not_true_is_false. unfold is_ascii_upper. rewrite andb_true_iff, !N.leb_le. lia. }
    unfold ascii_lower. rewrite Hu. constructor; [|done]. split; [done|]. split; [|done]. unfold c_colon. lia.
  - simpl. induction s as [|c s IH]; [done|]. rewrite !fmap_cons. simpl. by rewrite IH.
Defined.

Definition demo_routes : RouteConfig :=
  mkRouteConfig
    [mkBinding (lit "Support Team") (lit "Telegram") (lit "*") None None None None;
     mkBinding (lit "boss") (lit "telegram") (lit "*") (Some (lit "Direct")) (Some (lit "7")) None None]
    [mkAgentDef (lit "main") true; mkAgentDef (lit "support team") false; mkAgentDef (lit "boss") false] (lit "per-channel-peer").

Definition demo_route_input (peer : str) : RouteInput :=
  mkRouteInput (lit "Telegram ") [] (Some (lit "direct")) (Some peer) None None None None [].

Example demo_route_taken :
  let r := @resolve ascii_unicode demo_routes (demo_route_input (lit "7")) in
  let r' := @resolve ascii_unicode demo_routes (demo_route_input (lit "Ada")) in
  (rr_agent_id r, rr_matched_by r, rr_session_key r) = (lit "boss", lit "binding.peer", lit "agent:boss:telegram:direct:7") ∧
  (rr_agent_id r', rr_matched_by r', rr_session_key r') = (lit "support-team", lit "binding.channel", lit "agent:support-team:telegram:direct:ada").
Proof. vm_compute. done. Qed.

Lemma route_key_names_agent_witness :
  ∃ rest, @parse_agent_session_key (rr_session_key (@resolve ascii_unicode demo_routes (demo_route_input (lit "7")))) = Some (lit "boss", rest).
Proof.
  destruct (@route_key_names_agent ascii_unicode ascii_lowering demo_routes (demo_route_input (lit "7"))) as (_ & [rest H] & _).
  exists rest. exact H.
Defined.

Definition demo_direct (peer : str) : SessionKeyParams :=
  mkKeyParams (lit "main") (lit "Telegram") [] (Some (mkPeer (lit "direct") peer)) PerChannelPeer [].

Lemma direct_sessions_isolated_witness :
  @build_agent_peer_session_key ascii_unicode (demo_direct (lit "Ada")) ≠ @build_agent_peer_session_key ascii_unicode (demo_direct (lit "Bob")).
Proof.
  assert (∀ peer, trim peer ≠ [] → is_ascii peer = true → direct_message (demo_direct peer) peer) as Hd.
  { intros peer Hne Ha. repeat split; try done. vm_compute. set_solver. }
  intros E. apply (@direct_sessions_isolated ascii_unicode ascii_lowering (demo_direct (lit "Ada")) (demo_direct (lit "Bob")) (lit "Ada") (lit "Bob"))
    in E; [|by apply Hd|by apply Hd|done|done]. vm_compute in E. discriminate E.
Defined.

Lemma unnormalised_account_never_matches_witness :
  @matches_account_id ascii_unicode (lit "@bot:matrix.org") (@normalize_account_id ascii_unicode (lit "@bot:matrix.org")) = false.
Proof. apply (@unnormalised_account_never_matches ascii_unicode ascii_lowering); done. Defined.

Lemma blank_constraint_is_dead_witness :
  Forall (λ t, snd t (mkBinding (lit "a") (lit "web") [] None None (Some []) None) = false) (@precedence ascii_unicode (demo_route_input (lit "7"))).
Proof. apply (@blank_constraint_is_dead ascii_unicode); done. Defined.
