(* ===== verification/Slash.v ===== *)
(** * Commands in messages

    What a message that begins with a slash means: templates that are expanded before the
    message is looked at, with the shell commands in them (loop/commands.rs, loop/messages.rs,
    nemesis-prompts/src/slash.rs), commands that are answered at once, maintenance of a session
    and dispatches to other nodes (loop/maintenance.rs), answers to approval cards
    (loop/admission.rs). *)
From stdpp Require Import strings.
From S2P Require Import Prelude RustStr Channel.
Local Open Scope nb_scope.

(** ** Shell commands in a template *)

Definition c_excl : char := 33.

Definition SHELL_INJECTION_TIMEOUT_SECS : nat := 3.
Definition SHELL_INJECTION_OUTPUT_CAP : nat := 4096.

(** The position of the first backtick. *)
Fixpoint find_backtick (s : str) : option nat :=
  match s with
  | [] => None
  | c :: s => if N.eqb c c_backtick then Some 0%nat else S <$> find_backtick s
  end.

(** A token of the text: where it begins and ends, and its command.  [skip] counts what is
    left of the token before; positions count characters, both marks are ASCII. *)
Fixpoint spans_from (i skip : nat) (s : str) : list (nat * nat * str) :=
  match s with
  | [] => []
  | c :: rest =>
      match skip with
      | S skip => spans_from (S i) skip rest
      | O =>
          match rest with
          | d :: after =>
              if N.eqb c c_excl && N.eqb d c_backtick then
                match find_backtick after with
                | Some j => (i, i + 2 + j + 1, trim (take j after))%nat :: spans_from (S i) (j + 2) rest
                | None => spans_from (S i) 0 rest
                end
              else spans_from (S i) 0 rest
          | [] => []
          end
      end
  end.

Definition shell_injection_spans (text : str) : list (nat * nat * str) := spans_from 0 0 text.

Definition extract_shell_injections (text : str) : list str :=
  foldl (λ out '(_, _, cmd), if nonempty cmd && negb (bool_decide (cmd ∈ out)) then out ++ [cmd] else out) [] (shell_injection_spans text).

(** [text[a..b]]. *)
Definition slice (text : str) (a b : nat) : str := take (b - a) (drop a text).

Fixpoint splice (text : str) (resolve : str → str) (last : nat) (spans : list (nat * nat * str)) : str :=
  match spans with
  | [] => drop last text
  | (a, b, cmd) :: spans =>
      slice text last a ++ (if nonempty cmd then resolve cmd else slice text a b) ++ splice text resolve b spans
  end.

Definition substitute_shell_injections (text : str) (resolve : str → str) : str :=
  match shell_injection_spans text with
  | [] => text
  | spans => splice text resolve 0 spans
  end.

Definition cap_injection_output (s : str) : str :=
  if (length s <=? SHELL_INJECTION_OUTPUT_CAP)%nat then s
  else take SHELL_INJECTION_OUTPUT_CAP s ++ ulit "…[truncated]".

Definition tail_line (s : str) (cap : nat) : str :=
  let line := default [] (List.find nonempty (trim <$> rev (lines s))) in
  if (length line <=? cap)%nat then line else take cap line ++ ulit "…".

(** How a command of the shell ended: its code, what it wrote, whether its time was up. *)
Record StageResult := mkStage {
  sr_code : option Z;
  sr_stdout : str;
  sr_stderr : str;
  sr_timed_out : bool;
}.

Definition failed_note (cmd reason : str) : str := lit "[command failed: " ++ cmd ++ lit ": " ++ reason ++ lit "]".

Definition exec_shell_injection (run_one_stage : str → StageResult) (cmd : str) : str :=
  let r := run_one_stage cmd in
  if sr_timed_out r then failed_note cmd (lit "timed out after " ++ show_nat SHELL_INJECTION_TIMEOUT_SECS ++ lit "s")
  else
    match sr_code r with
    | Some 0%Z =>
        let trimmed := trim_end (sr_stdout r) in
        if nonempty trimmed then cap_injection_output trimmed else lit "(no output)"
    | Some c =>
        let reason := tail_line (sr_stderr r) 200 in
        let code := lit "exit " ++ lit (pretty c) in
        if nonempty reason then failed_note cmd (code ++ lit ": " ++ reason) else failed_note cmd code
    | None => failed_note cmd (tail_line (sr_stderr r) 200)
    end.

(** The commands run one after the other, each once; what they gave is looked up by command. *)
Definition expand_shell_injections (run_one_stage : str → StageResult) (text : str) : str :=
  match extract_shell_injections text with
  | [] => text
  | cmds =>
      let results := list_to_map ((λ c, (c, exec_shell_injection run_one_stage c)) <$> cmds) : gmap str str in
      substitute_shell_injections text (λ c, default [] (results !! c))
  end.

(** ** Templates *)

Definition BUILTIN_SLASH_COMMANDS : list str :=
  lit <$> ["help"; "model"; "show"; "list"; "switch"; "compact"; "clear"; "plan"; "build"; "undo"]%string.

(** The texts of the templates are data of the build. *)
Class TemplateTexts := { template_text : str → str }.

Definition BUILTIN_TEMPLATES `{TemplateTexts} : list (str * str) :=
  (λ n, (n, template_text n)) <$> (lit <$> ["security-review"; "code-review"; "debug"; "fix"]%string).

Definition template_lookup `{TemplateTexts} (name : str) : option str :=
  snd <$> List.find (λ t, fst t =? name) BUILTIN_TEMPLATES.

Definition ARGUMENTS : str := lit "$ARGUMENTS".

Definition expand_template (template args : str) : str :=
  if contains ARGUMENTS template then replace_str ARGUMENTS args template
  else if nonempty args then template ++ [c_nl; c_nl] ++ args
  else template.

(** A command of config.commands.json; the description is for menus. *)
Record CommandEntry := mkCommandEntry { ce_name : str; ce_prompt : str }.

(** What the rewriting reads: the commands, if the table is attached, the names of the skills,
    if the loader is, and the shell. *)
Record SlashEnv := mkSlashEnv {
  sv_commands_hot : option (list CommandEntry);
  sv_skills_loader : option (list str);
  sv_run_one_stage : str → StageResult;
}.

(** [split_once] at the first character of a kind. *)
Fixpoint split_once_by (p : char → bool) (s : str) : option (str * str) :=
  match s with
  | [] => None
  | c :: s => if p c then Some ([], s) else ('(a, b) ← split_once_by p s; Some (c :: a, b))
  end.

Section Rewrite.
Context `{TemplateTexts} (env : SlashEnv).

Definition rewrite_skill_fallback (name args : str) (msg : InboundMessage) : InboundMessage :=
  match sv_skills_loader env with
  | None => msg
  | Some skills =>
      if negb (bool_decide (name ∈ skills)) then msg
      else im_with_content msg
        (if nonempty args then lit "Use the " ++ name ++ lit " skill to handle: " ++ args
         else lit "Use the " ++ name ++ lit " skill.")
  end.

Definition rewrite_builtin_template (name args : str) (msg : InboundMessage) : option InboundMessage :=
  template ← template_lookup name; Some (im_with_content msg (expand_template template args)).

Definition rewrite_fallbacks (name args : str) (msg : InboundMessage) : InboundMessage :=
  match rewrite_builtin_template name args msg with
  | Some msg => msg
  | None => rewrite_skill_fallback name args msg
  end.

(** The name and the arguments of a message that begins with a slash. *)
Definition slash_parts (content : str) : option (str * str) :=
  match trim content with
  | c :: rest =>
      if negb (N.eqb c c_slash) then None
      else Some (match split_once_by is_ws rest with Some (n, a) => (n, trim a) | None => (rest, []) end)
  | [] => None
  end.

Definition rewrite_custom_command (msg : InboundMessage) : InboundMessage :=
  match slash_parts (im_content msg) with
  | None => msg
  | Some (name, args) =>
      if negb (nonempty name) || bool_decide (name ∈ BUILTIN_SLASH_COMMANDS) then msg
      else
        match sv_commands_hot env with
        | None => rewrite_fallbacks name args msg
        | Some commands =>
            match List.find (λ c, ce_name c =? name) commands with
            | None => rewrite_fallbacks name args msg
            | Some cmd =>
                im_with_content msg (expand_shell_injections (sv_run_one_stage env) (expand_template (ce_prompt cmd) args))
            end
        end
  end.
End Rewrite.

(** ** Maintenance, dispatches, approvals *)

Inductive SessionMaintenance := Compact | Clear | Undo.

Definition parse_maintenance_command (content : str) : option (SessionMaintenance * str) :=
  name ← head (split_whitespace content);
  if name =? lit "/compact" then Some (Compact, ulit "⏳ 正在压缩会话…")
  else if name =? lit "/clear" then Some (Clear, ulit "⏳ 正在清空会话…")
  else if (name =? ulit "撤销") || (name =? lit "/undo") then Some (Undo, ulit "⏳ 正在撤销上一轮…")
  else None.

Definition parse_user_dispatch (content : str) : option (str * str) :=
  let trimmed := trim content in
  rest ← or_else (strip_prefix (lit "/build ") trimmed) (strip_prefix (lit "/plan ") trimmed);
  let rest := trim rest in
  if negb (nonempty rest) then None
  else
    let tokens := split_whitespace rest in
    last_token ← last tokens;
    node_id ← strip_prefix (lit "repo:") last_token;
    if negb (nonempty node_id) then None
    else
      let task_text := join [c_space] (take (length tokens - 1) tokens) in
      if negb (nonempty task_text) then None else Some (task_text, node_id).

Definition parse_approval_reply (content : str) : option str :=
  let trimmed := trim content in
  let reply verb rest :=
    let id := trim rest in
    if negb (nonempty id) || (64 <? byte_len id)%nat || negb (forallb is_ascii_alnum id) then None
    else Some (ulit "✓ 已收到审批回复（" ++ verb ++ lit " " ++ id ++ ulit "），结果另行通知。") in
  match strip_prefix (lit "/approve ") trimmed with
  | Some rest => reply (ulit "同意") rest
  | None =>
      match strip_prefix (lit "/deny ") trimmed with
      | Some rest => reply (ulit "拒绝") rest
      | None => None
      end
  end.

(** ** Commands answered at once *)

(** What the answers name; the lists are in the order of the maps they come from. *)
Record LoopNames := mkLoopNames {
  ln_active_model : str;
  ln_models : gmap str str;
  ln_model_order : list str;
  ln_agent_ids : list str;
  ln_tool_names : list str;
  ln_channels : list str;
}.

Definition with_active_model (n : LoopNames) (model : str) : LoopNames :=
  mkLoopNames model (ln_models n) (ln_model_order n) (ln_agent_ids n) (ln_tool_names n) (ln_channels n).

Definition comma_list (l : list str) : str := join (lit ", ") l.

Definition set_active_model (n : LoopNames) (alias_or_model : str) : LoopNames :=
  with_active_model n (default alias_or_model (ln_models n !! alias_or_model)).

Definition HELP_TEXT : str :=
  ulit "Commands: /show [model|channel|agents], /list [tools|models], /model <alias>, /plan (计划模式: 停用文件修改), /build (切回构建模式), /compact (压缩会话上下文), /clear (清空会话历史), /undo (撤销上一轮), /help".

Definition model_answer (n : LoopNames) (parts : list str) : LoopNames * str :=
  match parts with
  | _ :: name :: _ =>
      let n := set_active_model n name in (n, ulit "✓ Model switched to: " ++ ln_active_model n)
  | _ =>
      (n, lit "Current model: " ++ ln_active_model n ++ [c_nl] ++ lit "Aliases: "
          ++ (match ln_model_order n with [] => lit "(none configured)" | aliases => comma_list aliases end)
          ++ lit " (or pass any model id)")
  end.

Definition show_answer (n : LoopNames) (current_channel : str) (parts : list str) : str :=
  match parts with
  | _ :: target :: _ =>
      if target =? lit "model" then lit "Current model: " ++ ln_active_model n
      else if target =? lit "channel" then lit "Current channel: " ++ current_channel
      else if target =? lit "agents" then
        match ln_agent_ids n with
        | [] => lit "Registered agents (tools): " ++ comma_list (ln_tool_names n)
        | ids => lit "Registered agents: " ++ comma_list ids
        end
      else lit "Unknown show target: " ++ target
  | _ => lit "Usage: /show [model|channel|agents]"
  end.

Definition list_answer (n : LoopNames) (parts : list str) : str :=
  match parts with
  | _ :: target :: _ =>
      if target =? lit "tools" then lit "Available tools: " ++ comma_list (ln_tool_names n)
      else if (target =? lit "model") || (target =? lit "models") then
        lit "Current model: " ++ ln_active_model n ++ lit " (configured in config.json)"
      else if target =? lit "channels" then
        match ln_channels n with [] => lit "No channels enabled" | cs => lit "Enabled channels: " ++ comma_list cs end
      else if target =? lit "agents" then
        lit "Registered agents: " ++ comma_list (match ln_agent_ids n with [] => ln_tool_names n | ids => ids end)
      else lit "Unknown list target: " ++ target
  | _ => lit "Usage: /list [models|channels|agents|tools]"
  end.

Definition switch_answer (n : LoopNames) (parts : list str) : str :=
  match parts with
  | _ :: target :: to :: value :: _ =>
      if to <>? lit "to" then lit "Usage: /switch [model|channel] to <name>"
      else if target =? lit "model" then
        lit "Model switch requested: " ++ ln_active_model n ++ lit " -> " ++ value ++ lit " (restart required for persistent change)"
      else if target =? lit "channel" then lit "Target channel switched to: " ++ value
      else lit "Unknown switch target: " ++ target
  | _ => lit "Usage: /switch [model|channel] to <name>"
  end.

Definition handle_command_with_context (n : LoopNames) (content current_channel : str) : LoopNames * option str :=
  let content := trim content in
  if negb (starts_with [c_slash] content) then (n, None)
  else
    let parts := split_whitespace content in
    match parts with
    | [] => (n, None)
    | command :: _ =>
        if command =? lit "/help" then (n, Some HELP_TEXT)
        else if command =? lit "/model" then let '(n, answer) := model_answer n parts in (n, Some answer)
        else if command =? lit "/show" then (n, Some (show_answer n current_channel parts))
        else if command =? lit "/list" then (n, Some (list_answer n parts))
        else if command =? lit "/switch" then (n, Some (switch_answer n parts))
        else (n, None)
    end.

(** ** What a text with shell commands is made of *)

Inductive Piece := Plain (c : char) | Token (body : str).

Definition token_text (body : str) : str := [c_excl; c_backtick] ++ body ++ [c_backtick].

(** A token is taken where one begins and is closed; every other character is itself. *)
Inductive Pieces : str → list Piece → Prop :=
| pieces_nil : Pieces [] []
| pieces_token body rest ps : c_backtick ∉ body → Pieces rest ps → Pieces (token_text body ++ rest) (Token body :: ps)
| pieces_plain c rest ps :
    (∀ body rest', c :: rest ≠ token_text body ++ rest') → Pieces rest ps → Pieces (c :: rest) (Plain c :: ps).

Definition render (resolve : str → str) (p : Piece) : str :=
  match p with
  | Plain c => [c]
  | Token body => if nonempty (trim body) then resolve (trim body) else token_text body
  end.

(** The commands of the tokens. *)
Definition commands_of (ps : list Piece) : list str := omap (λ p, match p with Token body => Some (trim body) | _ => None end) ps.

Lemma find_backtick_Some s j : find_backtick s = Some j → ∃ body rest, s = body ++ c_backtick :: rest ∧ j = length body ∧ c_backtick ∉ body.
Proof.
  revert j. induction s as [|c s IH]; intros j; [done|]. simpl. destruct (N.eqb_spec c c_backtick) as [->|Hc].
  - intros [= <-]. exists [], s. repeat split. set_solver.
  - destruct (find_backtick s) as [k|]; [|done]. intros [= <-]. destruct (IH k eq_refl) as (body & rest & -> & -> & Hb).
    exists (c :: body), rest. repeat split. set_solver.
Qed.

Lemma find_backtick_None s : find_backtick s = None → c_backtick ∉ s.
Proof.
  induction s as [|c s IH]; [set_solver|]. simpl. destruct (N.eqb_spec c c_backtick) as [->|Hc]; [done|].
  destruct (find_backtick s); [done|]. set_solver.
Qed.

Lemma spans_skip a : ∀ i s, spans_from i (length a) (a ++ s) = spans_from (i + length a) 0 s.
Proof.
  induction a as [|c a IH]; intros i s; simpl; [by rewrite Nat.add_0_r|]. rewrite IH. f_equal. lia.
Qed.

Lemma spans_two i c d after :
  spans_from i 0 (c :: d :: after) =
  (if N.eqb c c_excl && N.eqb d c_backtick then
    match find_backtick after with
    | Some j => (i, i + 2 + j + 1, trim (take j after))%nat :: spans_from (S i) (j + 2) (d :: after)
    | None => spans_from (S i) 0 (d :: after)
    end
  else spans_from (S i) 0 (d :: after)).
Proof. reflexivity. Qed.

(** One step of the scan. *)
Lemma spans_step i s :
  match s with
  | [] => spans_from i 0 s = []
  | c :: rest =>
      (∃ body rest', (s = token_text body ++ rest') ∧ (c_backtick ∉ body) ∧
         spans_from i 0 s = ((i, i + length (token_text body), trim body)%nat :: spans_from (i + length (token_text body)) 0 rest')) ∨
      ((∀ body rest', s ≠ token_text body ++ rest') ∧ spans_from i 0 s = spans_from (S i) 0 rest)
  end.
Proof.
  destruct s as [|c rest]; [done|]. destruct rest as [|d after].
  { right. split; [intros body rest'; by destruct body|done]. }
  rewrite spans_two. destruct (N.eqb_spec c c_excl) as [->|Hc], (N.eqb_spec d c_backtick) as [->|Hd]; cbn [andb].
  2-4: right; split; [intros body rest' [=]; congruence|done].
  destruct (find_backtick after) as [j|] eqn:E.
  - left. destruct (find_backtick_Some _ _ E) as (body & rest' & -> & -> & Hb). exists body, rest'.
    split; [unfold token_text; simpl; by rewrite <-app_assoc|]. split; [done|]. rewrite take_app_length.
    assert (length (token_text body) = length body + 3)%nat as Hl by (unfold token_text; rewrite !length_app; simpl; lia).
    f_equal; [f_equal; f_equal; lia|]. replace (c_backtick :: body ++ c_backtick :: rest') with ((c_backtick :: body ++ [c_backtick]) ++ rest')
      by (simpl; by rewrite <-app_assoc).
    replace (length body + 2)%nat with (length (c_backtick :: body ++ [c_backtick])) by (simpl; rewrite length_app; simpl; lia).
    rewrite spans_skip. f_equal. simpl. rewrite length_app. simpl. lia.
  - right. split; [|done]. apply find_backtick_None in E. intros body rest' [= ->]. apply E. rewrite <-app_assoc. set_solver.
Qed.

Lemma slice_app pre a s : slice (pre ++ a ++ s) (length pre) (length pre + length a) = a.
Proof. unfold slice. rewrite drop_app_length. replace (_ - _)%nat with (length a) by lia. apply take_app_length. Qed.

Lemma slice_empty text n : slice text n n = [].
Proof. unfold slice. by rewrite Nat.sub_diag. Qed.

Lemma slice_snoc pre mid c s : slice (pre ++ mid ++ c :: s) (length pre) (S (length pre + length mid)) = mid ++ [c].
Proof.
  rewrite (cons_middle c mid s), app_assoc. pose proof (slice_app pre (mid ++ [c]) s) as H.
  rewrite length_app in H. simpl in H. rewrite <-app_assoc, (app_assoc mid [c] s). rewrite <-H at 2. f_equal. lia.
Qed.

(** The scan finds the pieces, and splicing renders them; [mid] is what was passed over since
    the token before. *)
Lemma scan_pieces resolve n : ∀ s pre mid, (length s ≤ n)%nat → ∃ ps,
  Pieces s ps ∧
  splice (pre ++ mid ++ s) resolve (length pre) (spans_from (length pre + length mid) 0 s) = mid ++ mjoin (render resolve <$> ps) ∧
  snd <$> spans_from (length pre + length mid) 0 s = commands_of ps.
Proof.
  induction n as [|n IH]; intros s pre mid Hn; pose proof (spans_step (length pre + length mid) s) as Hs.
  { destruct s; [|simpl in Hn; lia]. exists []. rewrite Hs. repeat split; [constructor|]. simpl. by rewrite drop_app_length. }
  destruct s as [|c rest]; [exists []; rewrite Hs; repeat split; [constructor|]; simpl; by rewrite drop_app_length|].
  destruct Hs as [(body & rest' & Es & Hb & ->)|[Hno ->]].
  - assert (length rest' ≤ n)%nat as Hl.
    { apply (f_equal length) in Es. simpl in Es. rewrite length_app in Es. unfold token_text in Es. simpl in Es, Hn. lia. }
    rewrite Es. destruct (IH rest' (pre ++ mid ++ token_text body) [] Hl) as (ps & Hps & Hsp & Hspans).
    exists (Token body :: ps). split; [by constructor|].
    replace (length (pre ++ mid ++ token_text body) + length [])%nat with (length pre + length mid + length (token_text body))%nat in Hsp, Hspans
      by (rewrite !length_app; simpl; lia).
    split; [|change (trim body :: (snd <$> spans_from (length pre + length mid + length (token_text body)) 0 rest') = trim body :: commands_of ps); by rewrite Hspans].
    cbn [splice]. rewrite slice_app. f_equal.
    replace (pre ++ mid ++ token_text body ++ rest') with ((pre ++ mid ++ token_text body) ++ [] ++ rest') by (by rewrite <-!app_assoc).
    replace (length pre + length mid + length (token_text body))%nat with (length (pre ++ mid ++ token_text body)) at 2
      by (rewrite !length_app; lia).
    rewrite Hsp. simpl. f_equal. case_match; [done|].
    pose proof (slice_app (pre ++ mid) (token_text body) rest') as Ha. rewrite length_app in Ha.
    rewrite <-!app_assoc in *. rewrite <-Ha at 2. done.
  - simpl in Hn. destruct (IH rest pre (mid ++ [c])) as (ps & Hps & Hsp & Hspans); [lia|]. exists (Plain c :: ps).
    split; [by constructor|]. replace (length pre + length (mid ++ [c]))%nat with (S (length pre + length mid)) in Hsp, Hspans
      by (rewrite length_app; simpl; lia).
    split; [|done]. rewrite <-app_assoc in Hsp. simpl in Hsp |- *. rewrite Hsp. by rewrite <-app_assoc.
Qed.

Definition raw (p : Piece) : str := match p with Plain c => [c] | Token body => token_text body end.

Lemma pieces_text s ps : Pieces s ps → s = mjoin (raw <$> ps).
Proof. induction 1 as [|body rest ps _ _ IH|c rest ps _ _ IH]; [done|..]; rewrite fmap_cons; simpl; by rewrite <-IH. Qed.

Lemma closed_inj a : ∀ b r r', c_backtick ∉ a → c_backtick ∉ b → (a ++ [c_backtick]) ++ r = (b ++ [c_backtick]) ++ r' → a = b ∧ r = r'.
Proof.
  induction a as [|x a IH]; intros [|y b] r r' Ha Hb E; simpl in E; simplify_eq; [done|set_solver..|].
  destruct (IH b r r') as [-> ->]; [set_solver..|done|done].
Qed.

(** A text is made of its pieces in one way. *)
Lemma pieces_unique s ps : Pieces s ps → ∀ ps', Pieces s ps' → ps' = ps.
Proof.
  induction 1 as [|body rest ps Hb Hps IH|c rest ps Hno Hps IH]; intros ps' H'.
  - by inversion H'.
  - inversion H' as [|body' rest' ps'' Hb' Hps' E|c rest' ps'' Hno' Hps' E]; subst.
    + apply closed_inj in E as [-> ->]; [|done..]. by rewrite (IH _ Hps').
    + exfalso. by apply (Hno' body rest).
  - inversion H' as [|body' rest' ps'' Hb' Hps' E|c' rest' ps'' Hno' Hps']; subst.
    + exfalso. by apply (Hno body' rest').
    + by rewrite (IH _ Hps').
Qed.

Lemma extract_go spans : ∀ out, NoDup out →
  let r := foldl (λ out '(_, _, cmd), if nonempty cmd && negb (bool_decide (cmd ∈ out)) then out ++ [cmd] else out) out (spans : list (nat * nat * str)) in
  NoDup r ∧ ∀ cmd, cmd ∈ r ↔ cmd ∈ out ∨ cmd ≠ [] ∧ cmd ∈ snd <$> spans.
Proof.
  induction spans as [|[[a b] c] spans IH]; intros out Hd; [split; [done|]; intros cmd; simpl; set_solver|]. cbn [foldl].
  destruct (nonempty c && negb (bool_decide (c ∈ out))) eqn:E.
  - bool_simpl. destruct (IH (out ++ [c])) as [Hn Hin]; [apply NoDup_app; repeat split; [done|set_solver|apply NoDup_singleton]|].
    split; [done|]. intros cmd. rewrite Hin. simpl. assert (c ≠ []) by (by apply nonempty_true). set_solver.
  - destruct (IH out Hd) as [Hn Hin]. split; [done|]. intros cmd. rewrite Hin. simpl.
    assert (c = [] ∨ c ∈ out). { destruct c; [by left|]. right. simpl in E. by case_bool_decide. } set_solver.
Qed.

Definition shell_results (run_one_stage : str → StageResult) (cmds : list str) : gmap str str :=
  list_to_map ((λ c, (c, exec_shell_injection run_one_stage c)) <$> cmds).

Lemma expand_some run_one_stage text : extract_shell_injections text ≠ [] →
  expand_shell_injections run_one_stage text =
  substitute_shell_injections text (λ c, default [] (shell_results run_one_stage (extract_shell_injections text) !! c)).
Proof. intros H. unfold expand_shell_injections. by destruct (extract_shell_injections text). Qed.

Lemma shell_result run_one_stage cmds c : NoDup cmds → c ∈ cmds →
  shell_results run_one_stage cmds !! c = Some (exec_shell_injection run_one_stage c).
Proof.
  intros Hn Hc. apply elem_of_list_to_map_1.
  - rewrite <-list_fmap_compose. by rewrite list_fmap_id.
  - apply list_elem_of_fmap. by exists c.
Qed.

(** Also: whatever a template with its arguments says, the shell runs what stands between an
    exclamation mark with a backtick and the next backtick, each command once and nothing
    else, and each of these places is replaced by the command's result and nothing else is
    changed; what a command writes is not looked at again. *)
Theorem shell_commands_exact run_one_stage text : ∃ ps,
  Pieces text ps ∧ (∀ ps', Pieces text ps' → ps' = ps) ∧
  NoDup (extract_shell_injections text) ∧
  (∀ cmd, cmd ∈ extract_shell_injections text ↔ cmd ≠ [] ∧ cmd ∈ commands_of ps) ∧
  expand_shell_injections run_one_stage text = mjoin (render (exec_shell_injection run_one_stage) <$> ps).
Proof.
  set (cmds := extract_shell_injections text).
  destruct (scan_pieces (λ c, default [] (shell_results run_one_stage cmds !! c)) (length text) text [] []) as (ps & Hps & Hsp & Hspans); [done|].
  destruct (extract_go (shell_injection_spans text) [] ltac:(constructor)) as [Hnd Hin].
  assert (NoDup cmds) as Hnodup by exact Hnd. clear Hnd.
  cbn [length Nat.add app] in Hspans, Hsp. fold (shell_injection_spans text) in Hspans, Hsp.
  assert (∀ cmd, cmd ∈ cmds ↔ cmd ≠ [] ∧ cmd ∈ commands_of ps) as Hcmds.
  { intros cmd. rewrite <-Hspans. unfold cmds, extract_shell_injections. rewrite Hin. set_solver. }
  exists ps. split; [done|]. split; [by apply pieces_unique|]. split; [done|]. split; [done|].
  assert (∀ body, Token body ∈ ps → nonempty (trim body) = true → trim body ∈ cmds) as Hbody.
  { intros body Hb Hne. apply Hcmds. split; [by apply nonempty_true|]. apply list_elem_of_omap. by exists (Token body). }
  destruct (decide (cmds = [])) as [Ec|Ec].
  - unfold expand_shell_injections. fold cmds. rewrite Ec. rewrite (pieces_text _ _ Hps) at 1. f_equal.
    apply list_fmap_ext. intros i [c|body] Hi; [done|]. simpl. destruct (nonempty (trim body)) eqn:E; [|done].
    apply list_elem_of_lookup_2 in Hi. specialize (Hbody _ Hi E). rewrite Ec in Hbody. set_solver.
  - rewrite (expand_some _ _ Ec). fold cmds. unfold substitute_shell_injections.
    destruct (shell_injection_spans text) as [|sp spans].
    { exfalso. apply Ec. destruct cmds as [|c0 cs]; [done|]. assert (c0 ∈ c0 :: cs) as H0 by left.
      apply Hcmds in H0 as [_ H0]. rewrite <-Hspans in H0. set_solver. }
    rewrite Hsp. f_equal. apply list_fmap_ext. intros i [c|body] Hi; [done|]. simpl.
    destruct (nonempty (trim body)) eqn:E; [|done]. apply list_elem_of_lookup_2 in Hi. rewrite shell_result; [done|done|by apply Hbody].
Qed.

(** ** Dispatches *)

Definition word (w : str) : Prop := w ≠ [] ∧ Forall (λ c, is_ws c = false) w.

Lemma split_words ws : Forall word ws → ws ≠ [] → split_on is_ws (join [c_space] ws) = ws.
Proof.
  induction 1 as [|w ws [_ Hw] Hws IH]; [done|]. intros _. destruct ws as [|v ws]; [by apply split_on_none|].
  rewrite join_cons by done. cbn [app]. rewrite split_on_app_sep by done. rewrite (split_on_none _ w) by done. by rewrite IH.
Qed.

Lemma split_whitespace_words ws : Forall word ws → split_whitespace (join [c_space] ws) = ws.
Proof.
  intros H. destruct ws as [|w ws]; [done|]. unfold split_whitespace. rewrite split_words by done.
  induction H as [|x l [Hx _] _ IH]; [done|]. simpl. rewrite (proj2 (nonempty_true x)) by done. by rewrite IH.
Qed.

Lemma words_trimmed ws : Forall word ws → trim (join [c_space] ws) = join [c_space] ws.
Proof.
  intros H. destruct (decide (ws = [])) as [->|Hne]; [done|]. unfold trim, trim_start, trim_end.
  assert (∀ w, word w → ∀ c, head w = Some c ∨ last w = Some c → is_ws c = false) as Hw.
  { intros w [_ Hf] c Hc. rewrite Forall_forall in Hf. apply Hf. destruct Hc; [by apply head_Some_elem_of|by apply last_Some_elem_of]. }
  assert (∀ c, head (join [c_space] ws) = Some c → is_ws c = false) as Hh.
  { destruct H as [|w ws Hx H]; [done|]. intros c Hc. apply (Hw w Hx). left. destruct Hx as [Hx _]. destruct w as [|y w]; [done|].
    destruct ws; [done|]. by rewrite join_cons in Hc. }
  assert (∀ c, last (join [c_space] ws) = Some c → is_ws c = false) as Hl.
  { clear Hh. induction H as [|w ws Hx H IH]; [done|]. destruct ws as [|v ws]; [intros c Hc; apply (Hw w Hx); by right|].
    rewrite join_cons by done. intros c Hc. apply IH; [done|]. rewrite app_assoc, last_app in Hc.
    destruct (last (join [c_space] (v :: ws))) eqn:E; [done|]. apply last_None in E. inversion H as [|? ? [Hv _]]; subst.
    destruct ws; [done|]. rewrite join_cons in E by done. by destruct v. }
  assert (trim_start_matches is_ws (join [c_space] ws) = join [c_space] ws) as ->.
  { destruct (join [c_space] ws); [done|]. simpl. by rewrite (Hh _ eq_refl). }
  unfold trim_end_matches. destruct (join [c_space] ws) as [|c s _] using rev_ind; [done|]. rewrite rev_app_distr. simpl.
  rewrite (Hl c) by apply last_snoc. simpl. by rewrite rev_involutive.
Qed.

(** Also: a task of words for a node is read back as it is written. *)
Theorem dispatch_read_back words node :
  words ≠ [] → Forall word words → word node →
  parse_user_dispatch (lit "/build " ++ join [c_space] (words ++ [lit "repo:" ++ node])) = Some (join [c_space] words, node).
Proof.
  intros Hne Hw [Hnode Hnw]. set (ws := words ++ [lit "repo:" ++ node]).
  assert (Forall word ws) as Hws.
  { apply Forall_app. split; [done|]. constructor; [|done]. split; [done|]. apply Forall_app. split; [|done]. repeat constructor. }
  assert (ws ≠ []) as Hwsne by (unfold ws; by destruct words).
  unfold parse_user_dispatch.
  assert (lit "/build " ++ join [c_space] ws = join [c_space] (lit "/build" :: ws)) as E by (by rewrite join_cons).
  assert (word (lit "/build")) as Hb by (split; [done|repeat constructor]).
  rewrite E, words_trimmed by (by constructor). rewrite <-E. rewrite (proj2 (strip_prefix_Some _ _ (join [c_space] ws)) eq_refl).
  cbn [or_else mbind option_bind]. rewrite words_trimmed by done. rewrite split_whitespace_words by done.
  assert (nonempty (join [c_space] ws) = true) as ->.
  { apply nonempty_true. intros Hj. apply (f_equal split_whitespace) in Hj. rewrite split_whitespace_words in Hj by done. done. }
  cbn [negb]. assert (last ws = Some (lit "repo:" ++ node)) as -> by (unfold ws; apply last_snoc). cbn [mbind option_bind].
  rewrite (proj2 (strip_prefix_Some _ _ node) eq_refl). cbn [mbind option_bind]. rewrite (proj2 (nonempty_true node)) by done. cbn [negb].
  unfold ws. rewrite length_app. simpl length. replace (length words + 1 - 1)%nat with (length words) by lia. rewrite take_app_length.
  assert (nonempty (join [c_space] words) = true) as ->; [|done].
  apply nonempty_true. intros Hj. apply (f_equal split_whitespace) in Hj. rewrite split_whitespace_words in Hj by done. done.
Qed.

(** Also: a message with the name of a command of the loop is not rewritten, whatever commands
    and skills there are. *)
Theorem builtin_names_kept `{TemplateTexts} env msg name args :
  slash_parts (im_content msg) = Some (name, args) → name ∈ BUILTIN_SLASH_COMMANDS → rewrite_custom_command env msg = msg.
Proof. intros E Hin. unfold rewrite_custom_command. rewrite E, (bool_decide_true (name ∈ _)) by done. by rewrite orb_true_r. Qed.

(** Observed: the node is the last token, which has to name it; a token before the last one is
    text of the task, and then there is no dispatch. *)
Theorem node_must_come_last : parse_user_dispatch (lit "/build fix it repo:n1 quickly") = None.
Proof. vm_compute. reflexivity. Qed.

Definition slash_message (content : string) : InboundMessage :=
  mkInbound (lit "web") (lit "u") (lit "c") (lit content) [] [] [] ∅ None.

(** Observed: the command that leaves discipline and the answers to approval cards are not
    among the names that are kept: a command or skill of that name takes the message, and
    neither the discipline nor the card sees it. *)
Theorem discipline_can_be_shadowed :
  let env := mkSlashEnv (Some [mkCommandEntry (lit "discipline") (lit "Be careful.")]) (Some [lit "approve"]) (λ _, mkStage None [] [] false) in
  let texts := {| template_text := λ _, [] |} in
  im_content (@rewrite_custom_command texts env (slash_message "/discipline off")) = lit "Be careful." ++ [c_nl; c_nl] ++ lit "off" ∧
  im_content (@rewrite_custom_command texts env (slash_message "/approve 1a2b3c")) = lit "Use the approve skill to handle: 1a2b3c" ∧
  parse_approval_reply (lit "/approve 1a2b3c") ≠ None.
Proof. split; [|split]; by vm_compute. Qed.

(** Observed: the arguments are put into the template before its shell commands are looked
    for, so a command in the arguments of a message runs, too. *)
Theorem arguments_reach_the_shell :
  let env := mkSlashEnv (Some [mkCommandEntry (lit "note") (lit "Note: $ARGUMENTS")]) None (λ c, mkStage (Some 0%Z) (lit "ran " ++ c) [] false) in
  im_content (@rewrite_custom_command {| template_text := λ _, [] |} env (slash_message "/note !`id`")) = lit "Note: ran id".
Proof. vm_compute. reflexivity. Qed.

Lemma dispatch_read_back_witness :
  parse_user_dispatch (lit "/build fix the build repo:n1") = Some (lit "fix the build", lit "n1").
Proof.
  apply (dispatch_read_back [lit "fix"; lit "the"; lit "build"] (lit "n1")); [done| |split; [done|repeat constructor]].
  repeat (constructor; [split; [done|repeat constructor]|]). constructor.
Defined.

Lemma builtin_names_kept_witness :
  let env := mkSlashEnv (Some [mkCommandEntry (lit "help") (lit "x")]) None (λ _, mkStage None [] [] false) in
  @rewrite_custom_command {| template_text := λ _, [] |} env (slash_message "/help me") = slash_message "/help me".
Proof. apply (@builtin_names_kept {| template_text := λ _, [] |} _ _ (lit "help") (lit "me")); [by vm_compute|by vm_compute; left]. Defined.
