(* ===== verification/Admission.v ===== *)
(** * Admission of messages (loop/admission.rs, loop/bus.rs, loop/maintenance.rs)

    What happens to a message between the channel and a turn.  One pump takes messages off a
    channel and runs the gate on each: it is answered at once, or its session is acquired and
    a task is spawned, or, if the session is busy, it is bounced or put into the session's
    queues.  The tasks run beside the pump; when one ends it releases its session and puts the
    head of the queue back on the channel.

    The operations are functions on the shared state of the loop; each takes one lock, so they
    are the steps that threads interleave. *)
From stdpp Require Import strings.
From S2P Require Import Prelude RustStr Json Channel ToolGates Inbox Routing Slash.
Local Open Scope nb_scope.

Inductive ConcurrentMode := ModeReject | ModeQueue | ModeSteer.

#[export] Instance ConcurrentMode_eq_dec : EqDecision ConcurrentMode.
Proof. solve_decision. Defined.

Definition parse_concurrent_mode `{Unicode} (s : str) : ConcurrentMode :=
  let s := to_lowercase (trim s) in
  if s =? lit "queue" then ModeQueue else if s =? lit "steer" then ModeSteer else ModeReject.

Definition BUSY_MESSAGE : str := ulit "⏳ AI is processing a previous request, please try again later".
Definition QUEUE_FULL : str := ulit "⏳ 排队已满，消息未能接收。请等当前任务完成后再发。".
Definition CLUSTER_CONTINUATION_PREFIX : str := lit "cluster_continuation:".
Definition SUBAGENT_CONTINUATION_PREFIX : str := lit "subagent_continuation:".

(** ** The shared state *)

Record SessionBusyState := mkBusy { bs_busy : bool; bs_queue_length : nat }.

(** The sessions under discipline, and those with progress of a falsification. *)
Record DisciplineState := mkDiscipline { di_participating : gset str; di_progress : gset str }.

(** What the loop does to the rest: rows of the chat log, the session store, events for the
    dashboard, messages to channels. *)
Inductive LoopEvent :=
| EvCheckpoint (turn : nat) (content : str)
| EvRow (session_key role content : str) (model cron_job_id cron_job_name : option str) (checkpoint_turn : option nat)
| EvSessionCreated (session_id session_key : str)
| EvStored (session_key role content : str)
| EvMode (mode : AgentMode) (session_key chat_id : str)
| EvWaived (session_key reason : str)
| EvPublished (m : OutboundMessage)
| EvContinuation (task_id : str) (m : InboundMessage)
| EvSnapshot (task_id task_text node_id target_id session_key : str) (m : InboundMessage).

Record LoopState := mkLoop {
  al_session_busy : gmap str SessionBusyState;
  al_cancel_tokens : gmap str nat;
  al_cancelled : gset nat;
  al_next_token : nat;
  al_inbox : Inbox;
  al_sent_in_round : gset str;
  al_mode : AgentMode;
  al_names : LoopNames;
  al_turn_counter : nat;
  al_discipline : option DisciplineState;
  al_logged : gset str;
  al_events : list LoopEvent;
}.

Definition with_busy (st : LoopState) (busy : gmap str SessionBusyState) : LoopState :=
  mkLoop busy (al_cancel_tokens st) (al_cancelled st) (al_next_token st) (al_inbox st) (al_sent_in_round st) (al_mode st) (al_names st)
    (al_turn_counter st) (al_discipline st) (al_logged st) (al_events st).
Definition with_tokens (st : LoopState) (tokens : gmap str nat) (cancelled : gset nat) (next : nat) : LoopState :=
  mkLoop (al_session_busy st) tokens cancelled next (al_inbox st) (al_sent_in_round st) (al_mode st) (al_names st)
    (al_turn_counter st) (al_discipline st) (al_logged st) (al_events st).
Definition with_inbox (st : LoopState) (ib : Inbox) : LoopState :=
  mkLoop (al_session_busy st) (al_cancel_tokens st) (al_cancelled st) (al_next_token st) ib (al_sent_in_round st) (al_mode st) (al_names st)
    (al_turn_counter st) (al_discipline st) (al_logged st) (al_events st).
Definition with_sent (st : LoopState) (sent : gset str) : LoopState :=
  mkLoop (al_session_busy st) (al_cancel_tokens st) (al_cancelled st) (al_next_token st) (al_inbox st) sent (al_mode st) (al_names st)
    (al_turn_counter st) (al_discipline st) (al_logged st) (al_events st).
Definition with_agent_mode (st : LoopState) (mode : AgentMode) : LoopState :=
  mkLoop (al_session_busy st) (al_cancel_tokens st) (al_cancelled st) (al_next_token st) (al_inbox st) (al_sent_in_round st) mode (al_names st)
    (al_turn_counter st) (al_discipline st) (al_logged st) (al_events st).
Definition with_names (st : LoopState) (names : LoopNames) : LoopState :=
  mkLoop (al_session_busy st) (al_cancel_tokens st) (al_cancelled st) (al_next_token st) (al_inbox st) (al_sent_in_round st) (al_mode st) names
    (al_turn_counter st) (al_discipline st) (al_logged st) (al_events st).
Definition with_turn_counter (st : LoopState) (n : nat) : LoopState :=
  mkLoop (al_session_busy st) (al_cancel_tokens st) (al_cancelled st) (al_next_token st) (al_inbox st) (al_sent_in_round st) (al_mode st) (al_names st)
    n (al_discipline st) (al_logged st) (al_events st).
Definition with_discipline (st : LoopState) (d : DisciplineState) : LoopState :=
  mkLoop (al_session_busy st) (al_cancel_tokens st) (al_cancelled st) (al_next_token st) (al_inbox st) (al_sent_in_round st) (al_mode st) (al_names st)
    (al_turn_counter st) (Some d) (al_logged st) (al_events st).
Definition with_events (st : LoopState) (logged : gset str) (events : list LoopEvent) : LoopState :=
  mkLoop (al_session_busy st) (al_cancel_tokens st) (al_cancelled st) (al_next_token st) (al_inbox st) (al_sent_in_round st) (al_mode st) (al_names st)
    (al_turn_counter st) (al_discipline st) logged events.

Definition emit (st : LoopState) (e : LoopEvent) : LoopState := with_events st (al_logged st) (al_events st ++ [e]).

(** ** Sessions: busy, cancelled, sent *)

Definition get_session_busy_state (st : LoopState) (key : str) : bool * nat :=
  match al_session_busy st !! key with Some b => (bs_busy b, bs_queue_length b) | None => (false, 0%nat) end.

Definition is_session_busy (st : LoopState) (key : str) : bool :=
  match al_session_busy st !! key with Some b => bs_busy b | None => false end.

Definition session_queue_length (st : LoopState) (key : str) : nat :=
  match al_session_busy st !! key with Some b => bs_queue_length b | None => 0%nat end.

Definition try_acquire_session (st : LoopState) (key : str) : LoopState * bool :=
  let state := default (mkBusy false 0) (al_session_busy st !! key) in
  if negb (bs_busy state) then (with_busy st (<[key := mkBusy true (bs_queue_length state)]> (al_session_busy st)), true)
  else (with_busy st (<[key := state]> (al_session_busy st)), false).

Definition release_session (st : LoopState) (key : str) : LoopState * bool :=
  match al_session_busy st !! key with
  | Some (mkBusy busy (S n)) => (with_busy st (<[key := mkBusy busy n]> (al_session_busy st)), true)
  | Some (mkBusy _ O) => (with_busy st (<[key := mkBusy false 0]> (al_session_busy st)), false)
  | None => (st, false)
  end.

Definition clear_session_busy (st : LoopState) : LoopState := with_busy st ∅.

Definition create_cancel_token (st : LoopState) (key : str) : LoopState * nat :=
  let token := al_next_token st in
  (with_tokens st (<[key := token]> (al_cancel_tokens st)) (al_cancelled st) (S token), token).

Definition remove_cancel_token (st : LoopState) (key : str) : LoopState :=
  with_tokens st (delete key (al_cancel_tokens st)) (al_cancelled st) (al_next_token st).

Definition cancel_session (st : LoopState) (key : str) : LoopState * bool :=
  match al_cancel_tokens st !! key with
  | Some token => (with_tokens st (al_cancel_tokens st) ({[ token ]} ∪ al_cancelled st) (al_next_token st), true)
  | None => (st, false)
  end.

Definition cancel_all_sessions (st : LoopState) : LoopState * nat :=
  (with_tokens st (al_cancel_tokens st) (list_to_set (map_to_list (al_cancel_tokens st)).*2 ∪ al_cancelled st) (al_next_token st),
   size (al_cancel_tokens st)).

Definition mark_sent (st : LoopState) (key : str) : LoopState := with_sent st ({[ key ]} ∪ al_sent_in_round st).
Definition has_sent_in_round (st : LoopState) (key : str) : bool := bool_decide (key ∈ al_sent_in_round st).
Definition sent_clear (st : LoopState) (key : str) : LoopState := with_sent st (al_sent_in_round st ∖ {[ key ]}).

Definition set_interactive (d : DisciplineState) (key : str) : DisciplineState * bool :=
  if bool_decide (key ∈ di_participating d) then (d, true)
  else (mkDiscipline ({[ key ]} ∪ di_participating d) (di_progress d ∖ {[ key ]}), false).

Definition clear_interactive (st : LoopState) (d : DisciplineState) (key : str) (reason : option str) : LoopState :=
  let st := with_discipline st (mkDiscipline (di_participating d ∖ {[ key ]}) (di_progress d)) in
  match reason with
  | Some why => if nonempty (trim why) then emit st (EvWaived key (trim why)) else st
  | None => st
  end.

(** ** The gate *)

Definition extract_peer (msg : InboundMessage) : str :=
  match im_metadata msg !! lit "peer_kind" with
  | Some peer_kind =>
      if nonempty peer_kind then
        let peer_id := default (if peer_kind =? lit "direct" then im_sender_id msg else im_chat_id msg) (im_metadata msg !! lit "peer_id") in
        peer_kind ++ [c_colon] ++ peer_id
      else im_sender_id msg
  | None => im_sender_id msg
  end.

(** The routing input of a message. *)
Definition route_input (msg : InboundMessage) : RouteInput :=
  let md := im_metadata msg in
  let peer_kind := md !! lit "peer_kind" in
  let fallback := kind ← peer_kind; Some (if kind =? lit "direct" then im_sender_id msg else im_chat_id msg) in
  mkRouteInput (im_channel msg) (default [] (md !! lit "account_id")) peer_kind (or_else (md !! lit "peer_id") fallback)
    (md !! lit "parent_peer_kind") (md !! lit "parent_peer_id") (md !! lit "guild_id") (md !! lit "team_id") [].

(** What the loop was built with; the model's display name and the time are read where needed. *)
Record LoopEnv := mkLoopEnv {
  ae_concurrent_mode : ConcurrentMode;
  ae_route_resolver : option RouteConfig;
  ae_default_agent_id : option str;
  ae_checkpoint_store : bool;
  ae_session_store : bool;
  ae_agent_event_tx : bool;
  ae_outbound_tx : bool;
  ae_continuation_manager : bool;
  ae_display_model : str → str;
  ae_now : str;
  ae_slash : SlashEnv;
}.

Record TurnAdmission := mkAdmission {
  ta_agent_id : str;
  ta_session_key : str;
  ta_cancel_token : nat;
  ta_cp_turn : option nat;
}.

Inductive GateOutcome :=
| Continuation (task_id : str)
| Immediate (agent_id response : str)
| Maintenance (kind : SessionMaintenance) (session_key receipt : str)
| UserDispatch (task_text node_id session_key : str)
| Ungated
| TurnAdmitted (admission : TurnAdmission).

(** The gate up to the session, and what is left when it is busy. *)
Inductive Gate := Decided (o : GateOutcome) | SessionBusy (agent_id session_key : str).

Section Loop.
Context {UC : Unicode} {TT : TemplateTexts} (env : LoopEnv).

Definition keeps_session_key (msg : InboundMessage) : bool := nonempty (im_session_key msg) && starts_with (lit "agent:") (im_session_key msg).

Definition route_message (msg : InboundMessage) : str * str :=
  match ae_route_resolver env with
  | Some cfg =>
      let route := resolve cfg (route_input msg) in
      (rr_agent_id route, if keeps_session_key msg then im_session_key msg else rr_session_key route)
  | None =>
      (default (lit "main") (ae_default_agent_id env),
       if keeps_session_key msg then im_session_key msg else im_channel msg ++ [c_colon] ++ extract_peer msg)
  end.

Definition turn_preamble (st : LoopState) (msg : InboundMessage) : LoopState * option nat :=
  let cp_turn := al_turn_counter st in
  let st := with_turn_counter st (S cp_turn) in
  if ae_checkpoint_store env then (emit st (EvCheckpoint cp_turn (im_content msg)), Some cp_turn) else (st, None).

Definition set_mode_with_event (st : LoopState) (mode : AgentMode) (key chat_id : str) : LoopState :=
  let st := with_agent_mode st mode in
  if ae_agent_event_tx env then emit st (EvMode mode key chat_id) else st.

(** What follows the last colon. *)
Definition session_id_of (key : str) : str := List.last (split_on (N.eqb c_colon) key) key.

(** A row of the chat log; the first one of a session makes the session known. *)
Definition append_first_row (st : LoopState) (key content : str) (cron_id cron_name : option str) (cp_turn : option nat)
    (rest : list LoopEvent) : LoopState :=
  let log_existed := bool_decide (key ∈ al_logged st) in
  let st := with_events st ({[ key ]} ∪ al_logged st) (al_events st ++ EvRow key (lit "user") content None cron_id cron_name cp_turn :: rest) in
  if negb log_existed && ae_agent_event_tx env then emit st (EvSessionCreated (session_id_of key) key) else st.

Definition persist_busy_refusal (st : LoopState) (msg : InboundMessage) (key bounce : str) : LoopState :=
  let cron_id := im_metadata msg !! lit "cron_job_id" in
  let cron_name := im_metadata msg !! lit "cron_job_name" in
  let model := Some (ae_display_model env (ln_active_model (al_names st))) in
  let st := append_first_row st key (im_content msg) cron_id cron_name None
              [EvRow key (lit "assistant") bounce model cron_id cron_name None] in
  if ae_session_store env then
    emit (emit st (EvStored key (lit "user") (im_content msg))) (EvStored key (lit "assistant") bounce)
  else st.

Definition is_history_request (msg : InboundMessage) : bool := bool_decide (im_metadata msg !! lit "request_type" = Some (lit "history")).

Definition continuation_of (msg : InboundMessage) : option str :=
  or_else (strip_prefix CLUSTER_CONTINUATION_PREFIX (im_sender_id msg)) (strip_prefix SUBAGENT_CONTINUATION_PREFIX (im_sender_id msg)).

Definition discipline_answer (st : LoopState) (key sub rest : str) : LoopState * str :=
  match al_discipline st with
  | None => (st, ulit "ℹ️ 纪律模式未启用（config: agents.discipline.enabled=false）。打开后可用 `/discipline on` 进入、`/discipline off [理由]` 退出。")
  | Some d =>
      if (sub =? []) || (sub =? lit "on") then
        let '(d, already) := set_interactive d key in
        (with_discipline st d,
         if already then ulit "ℹ️ 本会话已处于纪律模式。"
         else ulit "✓ 纪律模式已开启（本会话）：文件修改前需先写 .discipline/declaration.json（六字段声明）；收尾时自动跑证伪命令（预算 2 次）。")
      else if sub =? lit "off" then
        let reason := if nonempty rest then Some rest else None in
        (clear_interactive st d key reason,
         match reason with
         | Some why => ulit "✓ 纪律模式已退出（本会话）。理由已留痕：" ++ why
         | None => ulit "✓ 纪律模式已退出（本会话）。"
         end)
      else (st, ulit "Usage: /discipline [on|off [理由]]（未知子命令：" ++ sub ++ ulit "）")
  end.

(** What the gate makes of a text: the commands that hold a session, those that are answered
    at once, and everything else. *)
Inductive Verb :=
| VMaintenance (kind : SessionMaintenance) (receipt : str)
| VDispatch (task_text node_id : str)
| VApproval (response : str)
| VMode (want : AgentMode)
| VDiscipline (sub rest : str)
| VText.

Definition PLAN_ANSWER : str := ulit "✓ 已切换到 Plan 模式：文件修改类工具已停用（plans/ 目录写放行）。请以文本形式呈现计划；完成规划后用 /build 切回。".
Definition BUILD_ANSWER : str := ulit "✓ 已切换回 Build 模式：全量工具恢复。".

Definition classify (content : str) : Verb :=
  match parse_maintenance_command content with
  | Some (kind, receipt) => VMaintenance kind receipt
  | None =>
  match parse_user_dispatch content with
  | Some (task_text, node_id) => VDispatch task_text node_id
  | None =>
  match parse_approval_reply content with
  | Some response => VApproval response
  | None =>
      let trimmed := trim content in
      if trimmed =? lit "/plan" then VMode PlanMode
      else if trimmed =? lit "/build" then VMode BuildMode
      else if (trimmed =? lit "/discipline") || starts_with (lit "/discipline ") trimmed then
        let args := trim (drop (length (lit "/discipline")) trimmed) in
        let '(sub, rest) := match split_once_by is_ws args with Some (s, r) => (s, trim r) | None => (args, []) end in
        VDiscipline sub rest
      else VText
  end end end.

Definition gate_front (st : LoopState) (msg : InboundMessage) : LoopState * Gate :=
  let '(st, cp_turn) := turn_preamble st msg in
  if im_channel msg =? lit "system" then
    (st, Decided (match continuation_of msg with Some task_id => Continuation task_id | None => Ungated end))
  else if is_history_request msg then (st, Decided Ungated)
  else
    let '(agent_id, key) := route_message msg in
    match classify (im_content msg) with
    | VMaintenance kind receipt =>
        let '(st, acquired) := try_acquire_session st key in
        (st, Decided (if acquired then Maintenance kind key receipt
                      else Immediate [] (ulit "⏳ 会话正在处理消息，本次 /compact /clear 已忽略，请稍后再试")))
    | VDispatch task_text node_id =>
        let '(st, acquired) := try_acquire_session st key in
        (st, Decided (if acquired then UserDispatch task_text node_id key
                      else Immediate [] (ulit "⏳ 会话正在处理消息，本次远程派发已忽略，请稍后再试")))
    | VApproval response => (st, Decided (Immediate [] response))
    | VMode want =>
        (set_mode_with_event st want key (im_chat_id msg),
         Decided (Immediate agent_id (match want with PlanMode => PLAN_ANSWER | BuildMode => BUILD_ANSWER end)))
    | VDiscipline sub rest =>
        let '(st, response) := discipline_answer st key sub rest in (st, Decided (Immediate [] response))
    | VText =>
        let '(names, answer) := handle_command_with_context (al_names st) (im_content msg) (im_channel msg) in
        let st := with_names st names in
        match answer with
        | Some response => (st, Decided (Immediate [] response))
        | None =>
            let '(st, acquired) := try_acquire_session st key in
            if acquired then
              let '(st, token) := create_cancel_token st key in
              (st, Decided (TurnAdmitted (mkAdmission agent_id key token cp_turn)))
            else (st, SessionBusy agent_id key)
        end
    end.

(** A message for a busy session. *)
Definition gate_busy (st : LoopState) (msg : InboundMessage) (agent_id key : str) : LoopState * GateOutcome :=
  match ae_concurrent_mode env with
  | ModeReject => (persist_busy_refusal st msg key BUSY_MESSAGE, Immediate agent_id BUSY_MESSAGE)
  | mode =>
      let '(ib, outcome) := enqueue_for_mode (al_inbox st) key (mkQueued msg (ae_now env)) (bool_decide (mode = ModeSteer)) in
      let st := with_inbox st ib in
      match outcome with
      | QueuedForNextTurn => (st, Immediate agent_id (ulit "⏳ 当前正在处理上一条消息。你的消息已排队，将在本轮结束后继续处理。"))
      | QueuedForNextStep =>
          (st, Immediate agent_id (ulit "⚡ 已接收为紧急插话（消息以 ! 开头），将在 AI 的下一步思考前注入。非紧急消息请去掉 ! 前缀排队等待。"))
      | Rejected => (persist_busy_refusal st msg key QUEUE_FULL, Immediate agent_id QUEUE_FULL)
      end
  end.

Definition gate_inbound (st : LoopState) (msg : InboundMessage) : LoopState * GateOutcome :=
  match gate_front st msg with
  | (st, Decided o) => (st, o)
  | (st, SessionBusy agent_id key) => gate_busy st msg agent_id key
  end.

(** ** Answers *)

Definition finish_message (st : LoopState) (msg : InboundMessage) (response : str) (err : option str) (check_sent_in_round : bool) : LoopState :=
  let response := match err with Some e => lit "Error processing message: " ++ e | None => response end in
  if negb (nonempty response) then st
  else
    let already_sent := check_sent_in_round && has_sent_in_round st (im_session_key msg) in
    let st := if check_sent_in_round then sent_clear st (im_session_key msg) else st in
    if already_sent then st
    else if ae_outbound_tx env then
      let tag := lit "[rpc:" ++ im_correlation_id msg ++ lit "]" in
      let final_content :=
        if (im_channel msg =? lit "rpc") && nonempty (im_correlation_id msg) && negb (starts_with tag response)
        then tag ++ [c_space] ++ response else response in
      emit st (EvPublished (mkOutbound (im_channel msg) (im_chat_id msg) final_content []
        (mkOutMeta (Some (ae_display_model env (ln_active_model (al_names st))))
           (if nonempty (im_session_key msg) then Some (im_session_key msg) else None) None)))
    else st.

(** ** A turn's task *)

(** The message a turn works on: in steer mode the marker of an idle session's message goes,
    too. *)
Definition admitted_message (msg : InboundMessage) : InboundMessage :=
  if bool_decide (ae_concurrent_mode env = ModeSteer) && is_steer_message (im_content msg)
  then im_with_content msg (strip_steer_marker (im_content msg)) else msg.

(** What a turn begins with: the row of its message. *)
Definition begin_turn (st : LoopState) (msg : InboundMessage) (admission : TurnAdmission) : LoopState :=
  let msg := admitted_message msg in
  append_first_row st (ta_session_key admission) (im_content msg) (im_metadata msg !! lit "cron_job_id") (im_metadata msg !! lit "cron_job_name")
    (ta_cp_turn admission) [].

Definition end_turn (st : LoopState) (key : str) : LoopState := fst (release_session (remove_cancel_token st key) key).

Definition drains : bool := match ae_concurrent_mode env with ModeReject => false | _ => true end.

(** The end of the queue's draining: the head goes back under the key of its queue. *)
Definition reinjected (head : QueuedMessage) (key : str) : InboundMessage := im_with_key (qm_msg head) key.

Definition drop_empty_queues (st : LoopState) (key : str) : LoopState :=
  if bool_decide (pending (al_inbox st) key = (0, 0)%nat) then with_inbox st (clear_queues (al_inbox st) key) else st.

(** [drain_next_turn_queue] with the channel wired: what is to be sent on it. *)
Definition drain_next_turn_queue (st : LoopState) (key : str) : LoopState * option InboundMessage :=
  let st := with_inbox st (transfer_next_step_to_next_turn (al_inbox st) key) in
  if drains then
    let '(ib, head) := claim_next_turn_head (al_inbox st) key in
    let st := with_inbox st ib in
    (drop_empty_queues st key, (λ h, reinjected h key) <$> head)
  else (st, None).

(** ** Tasks *)

Inductive TaskKind :=
| KTurn (admission : TurnAdmission)
| KMaintenance (kind : SessionMaintenance) (receipt : str)
| KDispatch (task_text node_id : str).

(** Where a task is: spawned, at work, done with its work, and the steps of its tail, the
    session released: queues to be joined, head to be claimed, a message to be sent, queues to
    be looked at, queues to be dropped. *)
Inductive Phase := Spawned | Working | Finished | Released | Transferred | Sending (m : InboundMessage) | Peeking | Clearing.

Record Task := mkTask {
  tk_kind : TaskKind;
  tk_key : str;
  tk_msg : InboundMessage;
  tk_answer : str * option str;
  tk_phase : Phase;
}.

Definition at_phase (t : Task) (p : Phase) : Task := mkTask (tk_kind t) (tk_key t) (tk_msg t) (tk_answer t) p.

Definition dispatch_receipt (node_id : str) : str := ulit "⏳ 已把编码任务派发给节点 " ++ node_id ++ ulit "，完成后自动回复结果。".
Definition NO_CONTINUATION : str := ulit "⚠ 任务已提交但本实例不支持续行回灌（无 continuation manager），结果无法自动回复。".

(** What a task does before its work. *)
Definition task_begin (st : LoopState) (t : Task) : LoopState :=
  match tk_kind t with
  | KTurn admission => begin_turn st (tk_msg t) admission
  | KMaintenance _ receipt => finish_message st (tk_msg t) receipt None false
  | KDispatch _ node_id =>
      let st := finish_message st (tk_msg t) (dispatch_receipt node_id) None false in
      let st := append_first_row st (tk_key t) (im_content (tk_msg t)) None None None [] in
      if ae_session_store env then emit st (EvStored (tk_key t) (lit "user") (im_content (tk_msg t))) else st
  end.

(** The first two fields of an answer that promises a result later. *)
Definition async_fields (result : str) : option (str * str) :=
  rest ← strip_prefix (lit "__ASYNC__:") result;
  match split_on (N.eqb c_colon) rest with
  | task_id :: target_id :: _ => Some (task_id, target_id)
  | _ => None
  end.

(** What a dispatch does with the answer of its tool, its session still held. *)
Definition task_result (st : LoopState) (t : Task) (answer : str * option str) : LoopState :=
  match tk_kind t with
  | KDispatch task_text node_id =>
      match async_fields (fst answer) with
      | Some (task_id, target_id) =>
          if ae_continuation_manager env then emit st (EvSnapshot task_id task_text node_id target_id (tk_key t) (tk_msg t))
          else finish_message st (tk_msg t) NO_CONTINUATION None true
      | None => finish_message st (tk_msg t) (fst answer) None true
      end
  | _ => st
  end.

(** The token of a turn goes before its session does. *)
Definition task_cleanup (st : LoopState) (t : Task) : LoopState :=
  match tk_kind t with KTurn _ => remove_cancel_token st (tk_key t) | _ => st end.

(** The answer that is published last. *)
Definition task_finish (st : LoopState) (t : Task) : LoopState :=
  let '(response, err) := tk_answer t in
  match tk_kind t with
  | KTurn _ => finish_message st (tk_msg t) response err true
  | KMaintenance _ _ => finish_message st (tk_msg t) response err false
  | KDispatch _ _ => st
  end.

(** ** The pump and the tasks, interleaved *)

Definition INBOUND_CAPACITY : nat := 1024.

(** The channel, the message the pump is about to park, the tasks; then what has become of the
    messages: those that had their turn or answer, those a full channel refused, those that
    were dropped with a queue. *)
Record Config := mkConfig {
  cf_state : LoopState;
  cf_channel : list InboundMessage;
  cf_pump : option (InboundMessage * str * str);
  cf_tasks : list Task;
  cf_done : list InboundMessage;
  cf_refused : list InboundMessage;
  cf_cleared : list InboundMessage;
}.

Definition done_with (c : Config) (st : LoopState) (ms : list InboundMessage) : Config :=
  mkConfig st (cf_channel c) (cf_pump c) (cf_tasks c) (cf_done c ++ ms) (cf_refused c) (cf_cleared c).
Definition spawned (c : Config) (st : LoopState) (kind : TaskKind) (key : str) (msg : InboundMessage) : Config :=
  mkConfig st (cf_channel c) (cf_pump c) (cf_tasks c ++ [mkTask kind key msg ([], None) Spawned]) (cf_done c) (cf_refused c) (cf_cleared c).
Definition with_channel (c : Config) (ch : list InboundMessage) : Config :=
  mkConfig (cf_state c) ch (cf_pump c) (cf_tasks c) (cf_done c) (cf_refused c) (cf_cleared c).
Definition with_pump (c : Config) (st : LoopState) (p : option (InboundMessage * str * str)) : Config :=
  mkConfig st (cf_channel c) p (cf_tasks c) (cf_done c) (cf_refused c) (cf_cleared c).
Definition with_tasks (c : Config) (st : LoopState) (tasks : list Task) : Config :=
  mkConfig st (cf_channel c) (cf_pump c) tasks (cf_done c) (cf_refused c) (cf_cleared c).
Definition with_fates (c : Config) (refused cleared : list InboundMessage) : Config :=
  mkConfig (cf_state c) (cf_channel c) (cf_pump c) (cf_tasks c) (cf_done c) (cf_refused c ++ refused) (cf_cleared c ++ cleared).

(** What the pump does with an outcome; continuations and requests that hold no session are
    served elsewhere. *)
Definition pump_outcome (c : Config) (st : LoopState) (msg : InboundMessage) (o : GateOutcome) : Config :=
  match o with
  | Continuation task_id => done_with c (emit st (EvContinuation task_id msg)) [msg]
  | Immediate _ response => done_with c (finish_message st msg response None false) [msg]
  | Maintenance kind key receipt => spawned c st (KMaintenance kind receipt) key msg
  | UserDispatch task_text node_id key => spawned c st (KDispatch task_text node_id) key msg
  | Ungated => done_with c st [msg]
  | TurnAdmitted admission => spawned c st (KTurn admission) (ta_session_key admission) msg
  end.

(** The pump takes a message and runs the gate up to the session. *)
Definition pump_take (c : Config) : option Config :=
  match cf_pump c, cf_channel c with
  | None, m :: ch =>
      let c := with_channel c ch in
      let msg := rewrite_custom_command (ae_slash env) m in
      Some (match gate_front (cf_state c) msg with
            | (st, Decided o) => pump_outcome c st msg o
            | (st, SessionBusy agent_id key) => with_pump c st (Some (msg, agent_id, key))
            end)
  | _, _ => None
  end.

(** A message that is parked has not had its turn; one that is bounced has its answer. *)
Definition parks (st : LoopState) (msg : InboundMessage) (key : str) : bool :=
  match ae_concurrent_mode env with
  | ModeReject => false
  | mode =>
      match snd (enqueue_for_mode (al_inbox st) key (mkQueued msg (ae_now env)) (bool_decide (mode = ModeSteer))) with
      | Rejected => false
      | _ => true
      end
  end.

Definition busy_outcome (c : Config) (st : LoopState) (msg : InboundMessage) (agent_id key : str) : Config :=
  let '(st', o) := gate_busy st msg agent_id key in
  match o with
  | Immediate _ response => done_with c (finish_message st' msg response None false) (if parks st msg key then [] else [msg])
  | o => pump_outcome c st' msg o
  end.

Definition pump_park (c : Config) : option Config :=
  match cf_pump c with
  | Some (msg, agent_id, key) => Some (busy_outcome (with_pump c (cf_state c) None) (cf_state c) msg agent_id key)
  | None => None
  end.

(** One step of a task, [before] and [after] being the others. *)
Definition task_step (c : Config) (before : list Task) (t : Task) (after : list Task) (answer : str * option str) : Config :=
  let st := cf_state c in
  let key := tk_key t in
  let next st p := with_tasks c st (before ++ at_phase t p :: after) in
  let last c st := with_tasks c (task_finish st t) (before ++ after) in
  match tk_phase t with
  | Spawned => next (task_begin st t) Working
  | Working =>
      with_tasks c (task_cleanup (task_result st t answer) t) (before ++ mkTask (tk_kind t) key (tk_msg t) answer Finished :: after)
  | Finished => done_with (next (fst (release_session st key)) Released) (fst (release_session st key)) [tk_msg t]
  | Released =>
      let st := with_inbox st (transfer_next_step_to_next_turn (al_inbox st) key) in
      if drains then next st Transferred else last c st
  | Transferred =>
      let '(ib, head) := claim_next_turn_head (al_inbox st) key in
      next (with_inbox st ib) (match head with Some h => Sending (reinjected h key) | None => Peeking end)
  | Sending m =>
      if (length (cf_channel c) <? INBOUND_CAPACITY)%nat then with_channel (next st Peeking) (cf_channel c ++ [m])
      else with_fates (next st Peeking) [m] []
  | Peeking => if bool_decide (pending (al_inbox st) key = (0, 0)%nat) then next st Clearing else last c st
  | Clearing =>
      with_fates (last c (with_inbox st (clear_queues (al_inbox st) key))) [] (qm_msg <$> waiting (al_inbox st) key)
  end.

(** A turn at work takes the messages that wait for its next call. *)
Definition task_takes_steps (c : Config) (key : str) : Config :=
  let '(ib, ms) := claim_next_step (al_inbox (cf_state c)) key in
  done_with c (with_inbox (cf_state c) ib) (qm_msg <$> ms).

Inductive Move :=
| MArrive (m : InboundMessage)
| MTake
| MPark
| MTask (i : nat) (answer : str * option str)
| MSteps (i : nat)
| MCancel (key : str).

Definition move (c : Config) (mv : Move) : option Config :=
  match mv with
  | MArrive m => if (length (cf_channel c) <? INBOUND_CAPACITY)%nat then Some (with_channel c (cf_channel c ++ [m])) else None
  | MTake => pump_take c
  | MPark => pump_park c
  | MTask i answer => t ← cf_tasks c !! i; Some (task_step c (take i (cf_tasks c)) t (drop (S i) (cf_tasks c)) answer)
  | MSteps i =>
      t ← cf_tasks c !! i;
      match tk_phase t, tk_kind t with
      | Working, KTurn _ => Some (task_takes_steps c (tk_key t))
      | _, _ => None
      end
  | MCancel key => Some (with_tasks c (fst (cancel_session (cf_state c) key)) (cf_tasks c))
  end.

Fixpoint moves (c : Config) (mvs : list Move) : option Config :=
  match mvs with
  | [] => Some c
  | mv :: mvs => c ← move c mv; moves c mvs
  end.

Definition arrivals (mvs : list Move) : list InboundMessage := omap (λ mv, match mv with MArrive m => Some m | _ => None end) mvs.

(** ** One thread

    With one thread, what stands between two points where a task waits is one step: the gate,
    and the tail of a task from the end of its work on. *)

Definition block_take (c : Config) : option Config :=
  match cf_pump c, cf_channel c with
  | None, m :: ch =>
      let msg := rewrite_custom_command (ae_slash env) m in
      let c := with_channel c ch in
      match gate_front (cf_state c) msg with
      | (st, Decided o) => Some (pump_outcome c st msg o)
      | (st, SessionBusy agent_id key) => Some (busy_outcome (with_pump c st None) st msg agent_id key)
      end
  | _, _ => None
  end.

(** The end of a task: its result, its token, its session, the queue, its answer. *)
Definition block_end (c : Config) (before : list Task) (t : Task) (after : list Task) (answer : str * option str) : Config :=
  let key := tk_key t in
  let st := task_cleanup (task_result (cf_state c) t answer) t in
  let st := fst (release_session st key) in
  let '(st, head) := drain_next_turn_queue st key in
  let t := mkTask (tk_kind t) key (tk_msg t) answer Finished in
  let c := done_with (with_tasks c (task_finish st t) (before ++ after)) (task_finish st t) [tk_msg t] in
  match head with
  | None => c
  | Some m =>
      if (length (cf_channel c) <? INBOUND_CAPACITY)%nat then with_channel c (cf_channel c ++ [m]) else with_fates c [m] []
  end.

Inductive Block :=
| BArrive (m : InboundMessage)
| BTake
| BBegin (i : nat)
| BSteps (i : nat)
| BEnd (i : nat) (answer : str * option str)
| BCancel (key : str).

Definition block (c : Config) (b : Block) : option Config :=
  match b with
  | BArrive m => move c (MArrive m)
  | BTake => block_take c
  | BBegin i => t ← cf_tasks c !! i; match tk_phase t with Spawned => move c (MTask i ([], None)) | _ => None end
  | BSteps i => move c (MSteps i)
  | BEnd i answer =>
      t ← cf_tasks c !! i;
      match tk_phase t with
      | Working => Some (block_end c (take i (cf_tasks c)) t (drop (S i) (cf_tasks c)) answer)
      | _ => None
      end
  | BCancel key => move c (MCancel key)
  end.

Fixpoint blocks (c : Config) (bs : list Block) : option Config :=
  match bs with
  | [] => Some c
  | b :: bs => c ← block c b; blocks c bs
  end.

Definition block_arrivals (bs : list Block) : list InboundMessage := omap (λ b, match b with BArrive m => Some m | _ => None end) bs.

(** ** What is kept *)

(** A loop at rest, as it is built. *)
Definition fresh (st : LoopState) : Prop := al_session_busy st = ∅ ∧ ib_queues (al_inbox st) = ∅.
Definition initial (st : LoopState) : Config := mkConfig st [] None [] [] [] [].

Definition holding (p : Phase) : bool := match p with Spawned | Working | Finished => true | _ => false end.
Definition holds (key : str) (t : Task) : bool := (tk_key t =? key) && holding (tk_phase t).
Definition holders (key : str) (tasks : list Task) : nat := length (List.filter (holds key) tasks).

(** A session is busy exactly when one task holds it. *)
Definition exclusive (c : Config) : Prop :=
  ∀ key, holders key (cf_tasks c) = (if is_session_busy (cf_state c) key then 1 else 0)%nat ∧ session_queue_length (cf_state c) key = 0%nat.

(** A message but for what is rewritten on its way: its text, and the key it is put back with. *)
Definition ident (m : InboundMessage) : InboundMessage := im_with_key (im_with_content m []) [].

(** All that waits in the queues of all sessions. *)
Definition parked (ib : Inbox) : list InboundMessage :=
  map_to_list (ib_queues ib) ≫= λ kq, qm_msg <$> (sq_next_turn (snd kq) ++ sq_next_step (snd kq)).

Definition in_pump (c : Config) : list InboundMessage := match cf_pump c with Some (m, _, _) => [m] | None => [] end.
Definition in_task (t : Task) : list InboundMessage :=
  (if holding (tk_phase t) then [tk_msg t] else []) ++ match tk_phase t with Sending m => [m] | _ => [] end.

(** Where the messages are. *)
Definition everywhere (c : Config) : list InboundMessage :=
  cf_channel c ++ in_pump c ++ parked (al_inbox (cf_state c)) ++ (cf_tasks c ≫= in_task) ++ cf_done c ++ cf_refused c ++ cf_cleared c.

(** A text that no step of the gate takes for a command: no slash, and none of the word that
    undoes a turn. *)
Definition plain_text (content : str) : bool := forallb (λ c, negb (N.eqb c c_slash) && negb (N.eqb c 25764)) content.

Definition ordinary (m : InboundMessage) : Prop :=
  plain_text (im_content m) = true ∧ im_channel m ≠ lit "system" ∧ is_history_request m = false.
End Loop.
