(* ===== verification/AdmissionRuns.v ===== *)
(** * What holds whatever the pump and the tasks do (theorems on Admission)

    One task per session, every message accounted for, and on one thread no message left in a
    queue when the loop comes to rest. *)
From stdpp Require Import strings.
From S2P Require Import Prelude RustStr Json Channel ToolGates Inbox Routing Slash Admission.
Local Open Scope nb_scope.

Section Runs.
Context {UC : Unicode} {TT : TemplateTexts} (env : LoopEnv).

(** ** Steps that leave sessions and queues alone *)

Definition same_sessions (st st' : LoopState) : Prop :=
  al_session_busy st' = al_session_busy st ∧ al_inbox st' = al_inbox st.

#[local] Instance same_sessions_trans : Transitive same_sessions.
Proof. intros a b c [H1 H2] [H3 H4]. split; congruence. Qed.
#[local] Instance same_sessions_refl : Reflexive same_sessions.
Proof. by split. Qed.

Ltac same :=
  cbv zeta; repeat match goal with |- same_sessions _ (if ?b then _ else _) => destruct b end; split; reflexivity.

Lemma same_emit st e : same_sessions st (emit st e).
Proof. by split. Qed.

Lemma same_first_row st key content i n cp rest : same_sessions st (append_first_row env st key content i n cp rest).
Proof. unfold append_first_row. same. Qed.

Lemma same_finish st m r e b : same_sessions st (finish_message env st m r e b).
Proof. unfold finish_message. destruct b; same. Qed.

Lemma same_refusal st m key b : same_sessions st (persist_busy_refusal env st m key b).
Proof.
  unfold persist_busy_refusal. etransitivity; [apply same_first_row|]. destruct (ae_session_store env); [|done]. etransitivity; apply same_emit.
Qed.

Lemma same_task_begin st t : same_sessions st (task_begin env st t).
Proof.
  unfold task_begin, begin_turn. destruct (tk_kind t); [apply same_first_row|apply same_finish|].
  etransitivity; [apply same_finish|]. etransitivity; [apply same_first_row|]. destruct (ae_session_store env); [apply same_emit|done].
Qed.

Lemma same_task_result st t answer : same_sessions st (task_result env st t answer).
Proof.
  unfold task_result. destruct (tk_kind t) as [| |task_text node_id]; [by split..|]. destruct (async_fields (fst answer)) as [[id target]|]; [|apply same_finish].
  destruct (ae_continuation_manager env); [by split|apply same_finish].
Qed.

Lemma same_task_cleanup st t : same_sessions st (task_cleanup st t).
Proof. unfold task_cleanup. destruct (tk_kind t); by split. Qed.

Lemma same_task_finish st t : same_sessions st (task_finish env st t).
Proof. unfold task_finish. destruct (tk_answer t). destruct (tk_kind t); [apply same_finish..|by split]. Qed.

Lemma same_discipline st key sub rest : same_sessions st (fst (discipline_answer st key sub rest)).
Proof.
  unfold discipline_answer. destruct (al_discipline st) as [d|]; [|by split]. destruct ((sub =? []) || _).
  { destruct (set_interactive d key) as [d' already]. by split. }
  destruct (sub =? _); [|by split]. simpl. unfold clear_interactive. destruct (nonempty rest); [|by split]. destruct (nonempty (trim rest)); by split.
Qed.

Lemma same_preamble st m : same_sessions st (fst (turn_preamble env st m)).
Proof. unfold turn_preamble. destruct (ae_checkpoint_store env); by split. Qed.

Lemma same_mode st m k c : same_sessions st (set_mode_with_event env st m k c).
Proof. unfold set_mode_with_event. same. Qed.

(** ** Sessions *)

Definition acquires (st st' : LoopState) (key : str) : Prop :=
  is_session_busy st key = false ∧ al_inbox st' = al_inbox st ∧
  al_session_busy st' = <[key := mkBusy true (session_queue_length st key)]> (al_session_busy st).

Lemma acquire_spec st key :
  let '(st', acquired) := try_acquire_session st key in
  if acquired : bool then acquires st st' key else same_sessions st st' ∧ is_session_busy st key = true.
Proof.
  unfold try_acquire_session, acquires, is_session_busy, session_queue_length.
  destruct (al_session_busy st !! key) as [[[] n]|] eqn:E; simpl; [|done..]. split; [|done]. split; [|done]. simpl.
  by apply insert_id.
Qed.

Lemma busy_same st st' key : same_sessions st st' →
  is_session_busy st' key = is_session_busy st key ∧ session_queue_length st' key = session_queue_length st key.
Proof. intros [H _]. unfold is_session_busy, session_queue_length. by rewrite H. Qed.

Lemma acquires_same a b c key : same_sessions a b → acquires b c key → acquires a c key.
Proof.
  intros H (Hb & Hi & Hm). destruct (busy_same _ _ key H) as [E1 E2]. destruct H as [H1 H2].
  unfold acquires. rewrite <-E1, <-E2, <-H1, <-H2. done.
Qed.

Lemma acquires_then a b c key : acquires a b key → same_sessions b c → acquires a c key.
Proof. intros (Hb & Hi & Hm) [H1 H2]. unfold acquires. by rewrite H1, H2. Qed.

(** What the gate does to the sessions, by its outcome. *)
Definition gate_holds (g : Gate) : option str :=
  match g with
  | Decided (Maintenance _ key _) | Decided (UserDispatch _ _ key) => Some key
  | Decided (TurnAdmitted a) => Some (ta_session_key a)
  | _ => None
  end.

Lemma gate_front_spec st m :
  let '(st', g) := gate_front env st m in
  match gate_holds g with
  | Some key => acquires st st' key
  | None => same_sessions st st'
  end ∧ (∀ agent_id key, g = SessionBusy agent_id key → is_session_busy st key = true ∧ key = snd (route_message env m)).
Proof.
  unfold gate_front. pose proof (same_preamble st m) as Hp. destruct (turn_preamble env st m) as [st1 cp]. simpl in Hp.
  case_bool_decide; [destruct (continuation_of m); by split|]. destruct (is_history_request m); [by split|].
  destruct (route_message env m) as [agent_id key]. destruct (classify (im_content m)) as [kind receipt|task node|response|want|sub rest|] eqn:Hc.
  - pose proof (acquire_spec st1 key) as Ha. destruct (try_acquire_session st1 key) as [st2 []]; split; try done; [by eapply acquires_same|].
    destruct Ha. simpl. by etransitivity.
  - pose proof (acquire_spec st1 key) as Ha. destruct (try_acquire_session st1 key) as [st2 []]; split; try done; [by eapply acquires_same|].
    destruct Ha. simpl. by etransitivity.
  - by split.
  - split; [|done]. simpl. etransitivity; [exact Hp|apply same_mode].
  - pose proof (same_discipline st1 key sub rest) as Hd. destruct (discipline_answer st1 key sub rest) as [st2 r]. split; [|done]. simpl in *. by etransitivity.
  - destruct (handle_command_with_context _ _ _) as [names [answer|]]; [split; [|done]; simpl; etransitivity; [exact Hp|by split]|].
    assert (same_sessions st (with_names st1 names)) as Hn by (etransitivity; [exact Hp|by split]).
    pose proof (acquire_spec (with_names st1 names) key) as Ha. destruct (try_acquire_session (with_names st1 names) key) as [st2 []].
    + simpl. split; [|done]. eapply acquires_same; [exact Hn|]. eapply acquires_then; [exact Ha|by split].
    + destruct Ha as [Hs Hb]. split; [simpl; by etransitivity|]. intros a k [= <- <-]. split; [|done]. by rewrite <-(proj1 (busy_same _ _ key Hn)).
Qed.

Lemma release_spec st key : session_queue_length st key = 0%nat →
  let st' := fst (release_session st key) in
  al_inbox st' = al_inbox st ∧
  ∀ key', is_session_busy st' key' = (if bool_decide (key' = key) then false else is_session_busy st key') ∧
          session_queue_length st' key' = session_queue_length st key'.
Proof.
  unfold release_session, is_session_busy, session_queue_length. destruct (al_session_busy st !! key) as [[b [|n]]|] eqn:E; [|done|]; intros _; simpl.
  - split; [done|]. intros key'. case_bool_decide as Hk; [subst; by rewrite lookup_insert_eq, E|by rewrite lookup_insert_ne].
  - split; [done|]. intros key'. case_bool_decide as Hk; [subst; by rewrite E|done].
Qed.

(** ** One task per session *)

Definition excl (st : LoopState) (tasks : list Task) : Prop :=
  ∀ key, holders key tasks = (if is_session_busy st key then 1 else 0)%nat ∧ session_queue_length st key = 0%nat.

Lemma holders_app key a b : holders key (a ++ b) = (holders key a + holders key b)%nat.
Proof. unfold holders. by rewrite List.filter_app, length_app. Qed.

Lemma holders_cons key t b : holders key (t :: b) = ((if holds key t then 1 else 0) + holders key b)%nat.
Proof. unfold holders. simpl. by destruct (holds key t). Qed.

Lemma holds_phase key t b : holding (tk_phase t) = b → holds key t = (tk_key t =? key) && b.
Proof. by intros <-. Qed.

Lemma excl_same st st' tasks : same_sessions st st' → excl st tasks → excl st' tasks.
Proof. intros H He key. destruct (busy_same st st' key H) as [-> ->]. apply He. Qed.

(** A task is replaced by one that holds as much. *)
Lemma excl_task st before t t' after :
  (∀ key, holds key t' = holds key t) → excl st (before ++ t :: after) → excl st (before ++ t' :: after).
Proof. intros H He key. specialize (He key). by rewrite holders_app, holders_cons in *; rewrite H. Qed.

Lemma excl_gone st before t after : (∀ key, holds key t = false) → excl st (before ++ t :: after) → excl st (before ++ after).
Proof. intros H He key. specialize (He key). rewrite holders_app, holders_cons, H in He. by rewrite holders_app. Qed.

Lemma excl_acquire st st' tasks t : acquires st st' (tk_key t) → tk_phase t = Spawned → excl st tasks → excl st' (tasks ++ [t]).
Proof.
  intros (Hb & _ & Hm) Hp He key. destruct (He key) as [Hh Hq]. destruct (He (tk_key t)) as [_ Hq'].
  rewrite holders_app, holders_cons, (holds_phase key t true) by (by rewrite Hp). rewrite andb_true_r.
  unfold is_session_busy, session_queue_length in *. rewrite Hm. change (holders key []) with 0%nat.
  destruct (decide (tk_key t = key)) as [<-|Hne].
  - rewrite lookup_insert_eq, bool_decide_true by done. rewrite Hh, Hb. by split.
  - rewrite lookup_insert_ne, bool_decide_false by done. split; [simpl; lia|done].
Qed.

(** The one task of a session gives it up. *)
Lemma excl_release st before t after :
  tk_phase t = Finished → excl st (before ++ t :: after) →
  excl (fst (release_session st (tk_key t))) (before ++ at_phase t Released :: after).
Proof.
  intros Hp He key. destruct (He (tk_key t)) as [_ Hq]. destruct (release_spec st (tk_key t) Hq) as [_ Hr].
  destruct (Hr key) as [-> ->]. destruct (He key) as [Hh Hq']. split; [|done].
  rewrite holders_app, holders_cons in *. rewrite (holds_phase key t true) in Hh by (by rewrite Hp).
  rewrite (holds_phase key (at_phase t Released) false) by done. rewrite andb_true_r in Hh. rewrite andb_false_r.
  destruct (decide (tk_key t = key)) as [<-|Hne].
  - rewrite bool_decide_true in Hh by done. rewrite bool_decide_true by done. destruct (is_session_busy st (tk_key t)); lia.
  - rewrite bool_decide_false in Hh by done. rewrite bool_decide_false by congruence. exact Hh.
Qed.

Lemma excl_outcome c st msg o : exclusive c → gate_front env (cf_state c) msg = (st, Decided o) → exclusive (pump_outcome env c st msg o).
Proof.
  intros He Hg. pose proof (gate_front_spec (cf_state c) msg) as Hs. rewrite Hg in Hs. destruct Hs as [Hs _].
  change (excl (cf_state c) (cf_tasks c)) in He.
  assert (∀ ms st', same_sessions st st' → gate_holds (Decided o) = None → exclusive (done_with c st' ms)) as Hd.
  { intros ms st' Hs' Hn. rewrite Hn in Hs. apply (excl_same (cf_state c)); [by etransitivity|done]. }
  destruct o as [task_id|agent_id response|kind key receipt|task node key| |admission]; simpl in *.
  - by apply Hd.
  - apply Hd; [apply same_finish|done].
  - by apply excl_acquire with (cf_state c).
  - by apply excl_acquire with (cf_state c).
  - by apply Hd.
  - by apply excl_acquire with (cf_state c).
Qed.

Lemma excl_busy st st' tasks : al_session_busy st' = al_session_busy st → excl st tasks → excl st' tasks.
Proof. intros H He key. unfold is_session_busy, session_queue_length. rewrite H. apply He. Qed.

(** A message for a busy session is put into a queue or answered. *)
Lemma gate_busy_spec st msg agent_id key :
  let '(st', o) := gate_busy env st msg agent_id key in
  (∃ response, o = Immediate agent_id response) ∧ al_session_busy st' = al_session_busy st ∧
  al_inbox st' = match ae_concurrent_mode env with
                 | ModeReject => al_inbox st
                 | mode => fst (enqueue_for_mode (al_inbox st) key (mkQueued msg (ae_now env)) (bool_decide (mode = ModeSteer)))
                 end.
Proof.
  unfold gate_busy. destruct (ae_concurrent_mode env).
  - destruct (same_refusal st msg key BUSY_MESSAGE) as [H1 H2]. split; [by eexists|by split].
  - destruct (enqueue_for_mode _ _ _ _) as [ib []]; [by split; [eexists|]..|].
    destruct (same_refusal (with_inbox st ib) msg key QUEUE_FULL) as [H1 H2]. split; [by eexists|by split].
  - destruct (enqueue_for_mode _ _ _ _) as [ib []]; [by split; [eexists|]..|].
    destruct (same_refusal (with_inbox st ib) msg key QUEUE_FULL) as [H1 H2]. split; [by eexists|by split].
Qed.

Lemma excl_park c st msg agent_id key :
  excl st (cf_tasks c) → exclusive (busy_outcome env c st msg agent_id key).
Proof.
  intros He. unfold busy_outcome. pose proof (gate_busy_spec st msg agent_id key) as Hg.
  destruct (gate_busy env st msg agent_id key) as [st' o]. destruct Hg as ([response ->] & Hb & _).
  change (excl (finish_message env st' msg response None false) (cf_tasks c)).
  eapply excl_same; [apply same_finish|]. by eapply excl_busy.
Qed.

Lemma excl_step c before t after answer : cf_tasks c = before ++ t :: after → exclusive c → exclusive (task_step env c before t after answer).
Proof.
  intros Et He. change (excl (cf_state c) (cf_tasks c)) in He. rewrite Et in He.
  assert (∀ st p, al_session_busy st = al_session_busy (cf_state c) → holding p = holding (tk_phase t) →
            exclusive (with_tasks c st (before ++ at_phase t p :: after))) as Hnext.
  { intros st p Hb Hp. apply (excl_busy (cf_state c)); [done|]. apply (excl_task _ before t); [|done].
    intros key. rewrite (holds_phase key t _ eq_refl), (holds_phase key (at_phase t p) _ eq_refl). simpl. by rewrite Hp. }
  assert (∀ st, holding (tk_phase t) = false → al_session_busy st = al_session_busy (cf_state c) →
            exclusive (with_tasks c (task_finish env st t) (before ++ after))) as Hlast.
  { intros st Hp Hb. apply (excl_same st); [apply same_task_finish|]. apply (excl_busy (cf_state c)); [done|].
    apply (excl_gone _ before t); [|done]. intros key. by rewrite (holds_phase key t false), andb_false_r. }
  unfold task_step. destruct (tk_phase t) eqn:Hp.
  - apply Hnext; [apply same_task_begin|done].
  - change (excl (task_cleanup (task_result env (cf_state c) t answer) t) (before ++ mkTask (tk_kind t) (tk_key t) (tk_msg t) answer Finished :: after)).
    apply (excl_same (cf_state c)); [etransitivity; [apply same_task_result|apply same_task_cleanup]|].
    apply (excl_task _ before t); [|done]. intros key. by rewrite (holds_phase key t true) by (by rewrite Hp).
  - by apply (excl_release _ before t).
  - destruct (drains env); [by apply Hnext|by apply Hlast].
  - destruct (claim_next_turn_head _ _) as [ib head]. apply Hnext; [done|]. by destruct head.
  - case_match; by apply Hnext.
  - case_match; [by apply Hnext|by apply Hlast].
  - by apply Hlast.
Qed.

Lemma excl_move c mv c' : move env c mv = Some c' → exclusive c → exclusive c'.
Proof.
  intros Hm He. destruct mv as [m| | |i answer|i|key]; cbn [move] in Hm.
  - case_match; simplify_eq. exact He.
  - unfold pump_take in Hm. destruct (cf_pump c) as [|]; [done|]. destruct (cf_channel c) as [|m ch]; [done|]. injection Hm as <-.
    set (msg := rewrite_custom_command (ae_slash env) m). cbn [cf_state with_channel].
    pose proof (gate_front_spec (cf_state c) msg) as Hs. destruct (gate_front env (cf_state c) msg) as [st g] eqn:Hg.
    destruct g as [o|agent_id key]; [by apply excl_outcome|]. destruct Hs as [Hs _]. by apply (excl_same (cf_state c)).
  - unfold pump_park in Hm. destruct (cf_pump c) as [[[msg agent_id] key]|]; [|done]. injection Hm as <-. by apply excl_park.
  - destruct (cf_tasks c !! i) as [t|] eqn:Ht; [|done]. injection Hm as <-. apply excl_step; [|done].
    symmetry. by apply take_drop_middle.
  - destruct (cf_tasks c !! i) as [t|] eqn:Ht; [|done]. cbn [mbind option_bind] in Hm. destruct (tk_phase t), (tk_kind t); try done. injection Hm as <-.
    unfold task_takes_steps. destruct (claim_next_step _ _) as [ib ms]. exact He.
  - injection Hm as <-. unfold cancel_session. case_match; exact He.
Qed.

Lemma excl_moves mvs : ∀ c c', moves env c mvs = Some c' → exclusive c → exclusive c'.
Proof.
  induction mvs as [|mv mvs IH]; intros c c' Hm He; [by simplify_eq/=|]. cbn [moves] in Hm.
  destruct (move env c mv) as [c1|] eqn:E; [|done]. apply (IH c1); [done|]. by eapply excl_move.
Qed.

Lemma excl_initial st : fresh st → exclusive (initial st).
Proof. intros [Hb _] key. unfold is_session_busy, session_queue_length. simpl. rewrite Hb, lookup_empty. done. Qed.

Definition alone (key : str) (tasks : list Task) : Prop :=
  ∀ i j t t', tasks !! i = Some t → tasks !! j = Some t' → holds key t = true → holds key t' = true → i = j.

(** C9: however the pump and the tasks interleave, at most one task holds a session from its
    admission to its release, be it a turn, maintenance or a dispatch; a session is busy
    exactly while one does, so the turns of a session never overlap. *)
Theorem one_task_per_session st mvs c : fresh st → moves env (initial st) mvs = Some c → ∀ key,
  (is_session_busy (cf_state c) key = true ↔ ∃ i t, cf_tasks c !! i = Some t ∧ holds key t = true) ∧
  alone key (cf_tasks c).
Proof.
  intros Hf Hm key. destruct (excl_moves _ _ _ Hm (excl_initial _ Hf) key) as [Hh _].
  assert (∀ i t, cf_tasks c !! i = Some t → holds key t = true → (1 ≤ holders key (cf_tasks c))%nat) as Hone.
  { intros i t Ht Hk. rewrite <-(take_drop_middle _ _ _ Ht), holders_app, holders_cons, Hk. lia. }
  split; [split|].
  - intros Hb. rewrite Hb in Hh. destruct (List.filter (holds key) (cf_tasks c)) as [|t l] eqn:El; [unfold holders in Hh; by rewrite El in Hh|].
    destruct (elem_of_filter_bool (holds key) (cf_tasks c) t) as [Hin Hk]; [rewrite El; left|].
    apply list_elem_of_lookup_1 in Hin as [i Hi]. by exists i, t.
  - intros (i & t & Ht & Hk). pose proof (Hone i t Ht Hk). destruct (is_session_busy (cf_state c) key); [done|lia].
  - intros i j t t' Hi Hj Hk Hk'. destruct (decide (i = j)) as [|Hne]; [done|exfalso].
    enough (2 ≤ holders key (cf_tasks c))%nat by (destruct (is_session_busy (cf_state c) key); lia).
    assert (∀ i j t t', (i < j)%nat → cf_tasks c !! i = Some t → cf_tasks c !! j = Some t' → holds key t = true → holds key t' = true →
              (2 ≤ holders key (cf_tasks c))%nat) as Htwo.
    { clear. intros i j t t' Hlt Hi Hj Hk Hk'. rewrite <-(take_drop_middle _ _ _ Hi), holders_app, holders_cons, Hk.
      assert (drop (S i) (cf_tasks c) !! (j - S i)%nat = Some t') as Hd by (rewrite lookup_drop; by replace (S i + (j - S i))%nat with j by lia).
      rewrite <-(take_drop_middle _ _ _ Hd), holders_app, holders_cons, Hk'. lia. }
    destruct (decide (i < j)%nat); [by apply (Htwo i j t t')|apply (Htwo j i t' t); [lia|done..]].
Qed.

(** ** Every message is somewhere *)

Definition contents (q : SessionQueues) : list InboundMessage := qm_msg <$> (sq_next_turn q ++ sq_next_step q).

Lemma parked_put ib key q : parked (put_queues ib key q) ≡ₚ contents q ++ parked (clear_queues ib key).
Proof.
  unfold parked, put_queues, clear_queues. simpl. rewrite <-insert_delete_eq.
  rewrite map_to_list_insert by apply lookup_delete_eq. done.
Qed.

Lemma parked_at ib key : parked ib ≡ₚ (qm_msg <$> waiting ib key) ++ parked (clear_queues ib key).
Proof.
  unfold waiting, queues_of. destruct (ib_queues ib !! key) as [q|] eqn:E.
  - unfold parked, clear_queues. simpl. rewrite <-(map_to_list_delete _ _ _ E). done.
  - unfold parked, clear_queues. simpl. by rewrite delete_id.
Qed.

#[local] Abbreviation idents l := (ident <$> l).

Lemma parked_enqueue ib key m steer :
  idents (parked (fst (enqueue_for_mode ib key m steer))) ≡ₚ
  (match snd (enqueue_for_mode ib key m steer) with Rejected => [] | _ => [ident (qm_msg m)] end) ++ idents (parked ib).
Proof.
  unfold enqueue_for_mode. rewrite (parked_at ib key). unfold waiting.
  case_match; [|case_match]; cbn [fst snd]; rewrite parked_put; unfold contents; cbn [sq_next_turn sq_next_step]; [done| |];
    rewrite !fmap_app; simpl; solve_Permutation.
Qed.

Lemma parked_steps ib key : let '(ib', ms) := claim_next_step ib key in idents (parked ib) ≡ₚ idents (qm_msg <$> ms) ++ idents (parked ib').
Proof.
  unfold claim_next_step. destruct (ib_queues ib !! key) as [q|] eqn:E; [|done]. rewrite (parked_at ib key), parked_put.
  unfold waiting, contents. rewrite (queues_some _ _ _ E). cbn [sq_next_turn sq_next_step]. rewrite app_nil_r, !fmap_app. solve_Permutation.
Qed.

Lemma parked_head ib key :
  let '(ib', o) := claim_next_turn_head ib key in idents (parked ib) ≡ₚ (match o with Some m => [ident (qm_msg m)] | None => [] end) ++ idents (parked ib').
Proof.
  unfold claim_next_turn_head. destruct (ib_queues ib !! key) as [[[|m rest] steps]|] eqn:E; [done| |done].
  rewrite (parked_at ib key), parked_put. unfold waiting, contents. by rewrite (queues_some _ _ _ E).
Qed.

Lemma parked_transfer ib key : idents (parked (transfer_next_step_to_next_turn ib key)) ≡ₚ idents (parked ib).
Proof.
  unfold transfer_next_step_to_next_turn. destruct (ib_queues ib !! key) as [q|] eqn:E; [|done].
  rewrite (parked_at ib key), parked_put. unfold waiting, contents. rewrite (queues_some _ _ _ E). cbn [sq_next_turn sq_next_step].
  rewrite app_nil_r, !fmap_app, <-!list_fmap_compose. done.
Qed.

Lemma rewrite_ident sv m : ident (rewrite_custom_command sv m) = ident m.
Proof.
  unfold rewrite_custom_command, rewrite_fallbacks, rewrite_builtin_template, rewrite_skill_fallback.
  destruct (slash_parts (im_content m)) as [[name args]|]; [|done]. destruct (negb (nonempty name) || _); [done|].
  assert (ident match template ← template_lookup name; Some (im_with_content m (expand_template template args)) with
                | Some m' => m'
                | None => match sv_skills_loader sv with
                          | Some skills => if negb (bool_decide (name ∈ skills)) then m else
                              im_with_content m (if nonempty args then lit "Use the " ++ name ++ lit " skill to handle: " ++ args
                                                 else lit "Use the " ++ name ++ lit " skill.")
                          | None => m
                          end
                end = ident m) as H.
  { destruct (template_lookup name); [done|]. simpl. destruct (sv_skills_loader sv); [|done]. by destruct (negb _). }
  destruct (sv_commands_hot sv) as [commands|]; [|exact H]. destruct (List.find _ commands); [done|exact H].
Qed.

Lemma everywhere_same c st : al_inbox st = al_inbox (cf_state c) → everywhere (with_tasks c st (cf_tasks c)) = everywhere c.
Proof. intros H. unfold everywhere. simpl. by rewrite H. Qed.

Ltac places :=
  unfold everywhere, in_pump; cbn [cf_state cf_channel cf_pump cf_tasks cf_done cf_refused cf_cleared with_channel with_tasks done_with spawned with_pump with_fates
    al_inbox with_inbox];
  rewrite ?bind_app, ?bind_cons, ?fmap_app.

Lemma conserve_outcome c st msg o : al_inbox st = al_inbox (cf_state c) → idents (everywhere (pump_outcome env c st msg o)) ≡ₚ ident msg :: idents (everywhere c).
Proof.
  intros Hi. assert (∀ st', al_inbox st' = al_inbox (cf_state c) → idents (everywhere (done_with c st' [msg])) ≡ₚ ident msg :: idents (everywhere c)) as Hd.
  { intros st' H. places. rewrite H. solve_Permutation. }
  assert (∀ kind key, idents (everywhere (spawned c st kind key msg)) ≡ₚ ident msg :: idents (everywhere c)) as Hs.
  { intros kind key. places. rewrite Hi. unfold in_task at 2. simpl. solve_Permutation. }
  destruct o; simpl; auto. apply Hd. by rewrite (proj2 (same_finish _ _ _ _ _)).
Qed.

Lemma gate_front_inbox st m : al_inbox (fst (gate_front env st m)) = al_inbox st.
Proof.
  pose proof (gate_front_spec st m) as Hs. destruct (gate_front env st m) as [st' g]. destruct Hs as [Hs _]. simpl.
  destruct (gate_holds g); [by destruct Hs as (_ & ? & _)|by destruct Hs].
Qed.

Lemma conserve_busy c st msg agent_id key : al_inbox st = al_inbox (cf_state c) →
  idents (everywhere (busy_outcome env c st msg agent_id key)) ≡ₚ ident msg :: idents (everywhere c).
Proof.
  intros Hi. unfold busy_outcome, parks. pose proof (gate_busy_spec st msg agent_id key) as Hg.
  destruct (gate_busy env st msg agent_id key) as [st' o]. destruct Hg as ([response ->] & _ & Hib).
  destruct (same_finish st' msg response None false) as [_ Hf]. set (st2 := finish_message env st' msg response None false) in *. clearbody st2.
  set (steer := bool_decide (ae_concurrent_mode env = ModeSteer)).
  pose proof (parked_enqueue (al_inbox st) key (mkQueued msg (ae_now env))) as Hp. rewrite Hi in *. places. rewrite Hf, Hib.
  destruct (ae_concurrent_mode env); [solve_Permutation|..];
    specialize (Hp steer); subst steer; destruct (enqueue_for_mode _ _ _ _) as [ib []]; cbn [fst snd] in *; rewrite Hp; simpl; solve_Permutation.
Qed.

Lemma conserve_step c before t after answer : cf_tasks c = before ++ t :: after →
  idents (everywhere (task_step env c before t after answer)) ≡ₚ idents (everywhere c).
Proof.
  intros Et. unfold task_step. set (st := cf_state c).
  assert (idents (everywhere c) ≡ₚ idents (cf_channel c) ++ idents (in_pump c) ++ idents (parked (al_inbox st)) ++ idents (before ≫= in_task)
            ++ idents (in_task t) ++ idents (after ≫= in_task) ++ idents (cf_done c) ++ idents (cf_refused c) ++ idents (cf_cleared c)) as Hc.
  { unfold everywhere. rewrite Et. fold st. rewrite bind_app, bind_cons, !fmap_app. solve_Permutation. }
  assert (∀ st' t', al_inbox st' = al_inbox st → idents (in_task t') = idents (in_task t) →
            idents (everywhere (with_tasks c st' (before ++ t' :: after))) ≡ₚ idents (everywhere c)) as Hnext.
  { intros st' t' Hi Ht. rewrite Hc. places. rewrite Hi, Ht. solve_Permutation. }
  assert (∀ st', al_inbox st' = al_inbox st → in_task t = [] →
            idents (everywhere (with_tasks c (task_finish env st' t) (before ++ after))) ≡ₚ idents (everywhere c)) as Hlast.
  { intros st' Hi Ht. rewrite Hc, Ht. destruct (same_task_finish st' t) as [_ Hf]. places. rewrite Hf, Hi. solve_Permutation. }
  assert (∀ p, in_task (at_phase t p) = (if holding p then [tk_msg t] else []) ++ match p with Sending m => [m] | _ => [] end) as Hat by done.
  assert (∀ l, (if holding (tk_phase t) then [tk_msg t] else []) ++ match tk_phase t with Sending m => [m] | _ => [] end = l → in_task t = l)
    as Hin by done.
  destruct (tk_phase t) eqn:Hp.
  - apply Hnext; [apply same_task_begin|]. unfold in_task. by rewrite Hp.
  - apply Hnext; [|unfold in_task; by rewrite Hp]. rewrite (proj2 (same_task_cleanup _ _)). apply same_task_result.
  - rewrite Hc, (Hin [tk_msg t]) by done. places. rewrite (Hat Released).
    assert (al_inbox (fst (release_session st (tk_key t))) = al_inbox st) as -> by (unfold release_session; by repeat case_match).
    simpl. solve_Permutation.
  - rewrite Hc, (Hin []) by done. destruct (drains env).
    + places. rewrite parked_transfer, (Hat Transferred). simpl. solve_Permutation.
    + destruct (same_task_finish (with_inbox st (transfer_next_step_to_next_turn (al_inbox st) (tk_key t))) t) as [_ Hf].
      places. rewrite Hf. cbn [al_inbox with_inbox]. rewrite parked_transfer. solve_Permutation.
  - pose proof (parked_head (al_inbox st) (tk_key t)) as Hh. destruct (claim_next_turn_head (al_inbox st) (tk_key t)) as [ib head].
    rewrite Hc, Hh, (Hin []) by done. places. rewrite Hat. destruct head as [h|]; simpl; solve_Permutation.
  - rewrite Hc, (Hin [m]) by done. destruct (_ <? INBOUND_CAPACITY)%nat; places; rewrite (Hat Peeking); simpl; solve_Permutation.
  - destruct (bool_decide _); [apply Hnext; [done|]; by rewrite Hat, (Hin [])|]. apply Hlast; [done|]. by apply Hin.
  - destruct (same_task_finish (with_inbox st (clear_queues (al_inbox st) (tk_key t))) t) as [_ Hf].
    rewrite Hc, (parked_at (al_inbox st) (tk_key t)), (Hin []) by done. places. rewrite Hf. cbn [al_inbox with_inbox]. simpl. solve_Permutation.
Qed.

Lemma conserve_move c mv c' : move env c mv = Some c' →
  idents (everywhere c') ≡ₚ idents (arrivals [mv]) ++ idents (everywhere c).
Proof.
  intros Hm. destruct mv as [m| | |i answer|i|key]; cbn [move] in Hm; cbn [arrivals omap list_omap fmap list_fmap app].
  - case_match; simplify_eq. places. solve_Permutation.
  - unfold pump_take in Hm. destruct (cf_pump c) eqn:Hp; [done|]. destruct (cf_channel c) as [|m ch] eqn:Hch; [done|]. injection Hm as <-.
    set (msg := rewrite_custom_command (ae_slash env) m). cbn [cf_state with_channel].
    assert (idents (everywhere c) ≡ₚ ident msg :: idents (everywhere (with_channel c ch))) as ->.
    { unfold msg. rewrite rewrite_ident. places. rewrite Hch. done. }
    pose proof (gate_front_inbox (cf_state c) msg) as Hi. destruct (gate_front env (cf_state c) msg) as [st [o|agent_id key]]; simpl in Hi.
    + by apply conserve_outcome.
    + places. rewrite Hi, Hp. simpl. solve_Permutation.
  - unfold pump_park in Hm. destruct (cf_pump c) as [[[msg agent_id] key]|] eqn:Hp; [|done]. injection Hm as <-.
    rewrite conserve_busy by done. places. rewrite Hp. simpl. solve_Permutation.
  - destruct (cf_tasks c !! i) as [t|] eqn:Ht; [|done]. injection Hm as <-. apply conserve_step. symmetry. by apply take_drop_middle.
  - destruct (cf_tasks c !! i) as [t|] eqn:Ht; [|done]. cbn [mbind option_bind] in Hm. destruct (tk_phase t), (tk_kind t); try done. injection Hm as <-.
    unfold task_takes_steps. pose proof (parked_steps (al_inbox (cf_state c)) (tk_key t)) as Hs.
    destruct (claim_next_step _ _) as [ib ms]. places. cbn [al_inbox with_inbox]. rewrite Hs. solve_Permutation.
  - injection Hm as <-. rewrite everywhere_same; [done|]. unfold cancel_session. by case_match.
Qed.

Lemma arrivals_cons mv mvs : arrivals (mv :: mvs) = arrivals [mv] ++ arrivals mvs.
Proof. by destruct mv. Qed.

Lemma conserve_moves mvs : ∀ c c', moves env c mvs = Some c' → idents (everywhere c') ≡ₚ idents (arrivals mvs) ++ idents (everywhere c).
Proof.
  induction mvs as [|mv mvs IH]; intros c c' Hm; [by simplify_eq/=|]. cbn [moves] in Hm.
  destruct (move env c mv) as [c1|] eqn:E; [|done]. rewrite (IH c1 c' Hm), (conserve_move c mv c1 E), (arrivals_cons mv mvs), fmap_app.
  rewrite app_assoc. apply Permutation_app_tail, Permutation_app_comm.
Qed.

(** The same messages, but for order and for what is rewritten on their way. *)
Definition same_messages (l l' : list InboundMessage) : Prop := ident <$> l ≡ₚ ident <$> l'.

(** C10: however the pump and the tasks interleave, every message that has arrived is in one
    place: on the channel, with the pump, in a queue, with a task, or it has had its turn or
    answer, or a full channel has refused it, or it went with a queue that was dropped; none is
    there twice, none is made up, and all of it but the text and the key is as it came. *)
Theorem messages_accounted_for st mvs c : fresh st → moves env (initial st) mvs = Some c →
  same_messages (arrivals mvs) (everywhere c).
Proof.
  intros [_ Hq] Hm. unfold same_messages. rewrite (conserve_moves _ _ _ Hm). unfold everywhere, initial, parked. simpl. rewrite Hq, map_to_list_empty.
  simpl. by rewrite app_nil_r.
Qed.
End Runs.

(** ** Runs *)

Definition demo_loop_env (mode : ConcurrentMode) : LoopEnv :=
  mkLoopEnv mode None None false false true true true (λ m, m) [] (mkSlashEnv None None (λ _, mkStage None [] [] false)).

#[local] Instance demo_texts : TemplateTexts := {| template_text := λ _, [] |}.
#[local] Instance demo_unicode : Unicode := ascii_unicode.

Definition demo_loop : LoopState :=
  mkLoop ∅ ∅ ∅ 0 (inbox_new 8) ∅ BuildMode (mkLoopNames (lit "m") ∅ [] [] [] []) 0 None ∅ [].

Definition demo_inbound (chat content : string) : InboundMessage :=
  mkInbound (lit "web") (lit "u") (lit chat) (lit content) [] [] [] ∅ None.

Definition demo_key : str := lit "web:u".
Definition no_answer : str * option str := ([], None).

Definition run_moves (mode : ConcurrentMode) (mvs : list Move) : Config :=
  default (initial demo_loop) (moves (demo_loop_env mode) (initial demo_loop) mvs).

(** A turn runs while a second message comes in and is queued. *)
Definition demo_moves : list Move :=
  [MArrive (demo_inbound "1" "a"); MTake; MTask 0 no_answer; MArrive (demo_inbound "2" "b"); MTake; MPark].

Lemma demo_fresh : fresh demo_loop.
Proof. by split. Qed.

Lemma demo_moves_run : moves (demo_loop_env ModeQueue) (initial demo_loop) demo_moves = Some (run_moves ModeQueue demo_moves).
Proof. vm_compute. reflexivity. Qed.

Lemma one_task_per_session_witness :
  is_session_busy (cf_state (run_moves ModeQueue demo_moves)) demo_key = true ∧
  ∀ i j t t', cf_tasks (run_moves ModeQueue demo_moves) !! i = Some t → cf_tasks (run_moves ModeQueue demo_moves) !! j = Some t' →
    holds demo_key t = true → holds demo_key t' = true → i = j.
Proof.
  split; [vm_compute; reflexivity|].
  apply (one_task_per_session (demo_loop_env ModeQueue) demo_loop demo_moves (run_moves ModeQueue demo_moves) demo_fresh demo_moves_run demo_key).
Defined.

Lemma messages_accounted_for_witness :
  ident <$> arrivals demo_moves ≡ₚ ident <$> everywhere (run_moves ModeQueue demo_moves).
Proof. apply (messages_accounted_for (demo_loop_env ModeQueue) demo_loop demo_moves _ demo_fresh demo_moves_run). Defined.

(** Observed: the pump finds the session busy, the turn ends and finds its queue empty, and
    only then the pump queues the message: it waits, with no task and nothing on the channel
    that would ever take it, and the sender was told that it will be seen to. *)
Theorem message_queued_behind_the_last_turn :
  let c := run_moves ModeQueue (take 5 demo_moves ++ replicate 6 (MTask 0 no_answer) ++ [MPark]) in
  cf_tasks c = [] ∧ cf_channel c = [] ∧ cf_pump c = None ∧ is_session_busy (cf_state c) demo_key = false ∧
  qm_content <$> waiting (al_inbox (cf_state c)) demo_key = [lit "b"].
Proof. vm_compute. repeat split. Qed.

(** Observed: a turn that has found its queue empty drops it, whatever has been put into it
    since: here a message that a newer turn of the session should have taken. *)
Theorem queue_dropped_with_a_message :
  let c := run_moves ModeQueue
    ([MArrive (demo_inbound "1" "a"); MTake; MTask 0 no_answer; MTask 0 no_answer; MTask 0 no_answer; MTask 0 no_answer;
      MTask 0 no_answer; MTask 0 no_answer] ++
     [MArrive (demo_inbound "2" "b"); MTake; MArrive (demo_inbound "3" "c"); MTake; MPark; MTask 0 no_answer]) in
  im_content <$> cf_cleared c = [lit "c"] ∧ waiting (al_inbox (cf_state c)) demo_key = [] ∧ (tk_msg <$> cf_tasks c) = [demo_inbound "2" "b"].
Proof. vm_compute. repeat split. Qed.
