(* ===== verification/AdmissionRest.v ===== *)
(** * The loop on one thread (theorems on Admission)

    With one thread a task runs from one wait to the next as one step.  Such runs are runs of
    the threads that interleave; in them no queue is dropped with messages in it, the work is
    bounded by the messages that arrive, and when none is left every message has had its turn
    or answer. *)
From stdpp Require Import strings.
From S2P Require Import Prelude RustStr Json Channel ToolGates Inbox Routing Slash Admission AdmissionRuns.
Local Open Scope nb_scope.

Section Rest.
Context {UC : Unicode} {TT : TemplateTexts} (env : LoopEnv).

#[local] Abbreviation idents l := (ident <$> l).

(** ** Blocks are moves *)

Lemma move_task c before t after answer : cf_tasks c = before ++ t :: after →
  move env c (MTask (length before) answer) = Some (task_step env c before t after answer).
Proof.
  intros E. cbn [move]. rewrite E, list_lookup_middle by done. cbn [mbind option_bind]. f_equal.
  rewrite take_app_length. f_equal. replace (S (length before)) with (length before + 1)%nat by lia. by rewrite drop_app_add.
Qed.

Lemma moves_app mvs mvs' : ∀ c c' c'', moves env c mvs = Some c' → moves env c' mvs' = Some c'' → moves env c (mvs ++ mvs') = Some c''.
Proof.
  induction mvs as [|mv mvs IH]; intros c c' c'' H H'; [by simplify_eq/=|]. cbn [moves app] in *.
  destruct (move env c mv) as [c1|]; [|done]. by eapply IH.
Qed.

Lemma arrivals_app a b : arrivals (a ++ b) = arrivals a ++ arrivals b.
Proof. apply omap_app. Qed.

Lemma moves_cons c c1 c2 mv mvs : move env c mv = Some c1 → moves env c1 mvs = Some c2 → moves env c (mv :: mvs) = Some c2.
Proof. intros H H'. cbn [moves]. by rewrite H. Qed.

(** The tail of a task, step by step, from the release of its session on. *)
Lemma tail_moves c before t after :
  cf_tasks c = before ++ at_phase t Released :: after →
  let st := cf_state c in
  let '(st', head) := drain_next_turn_queue env st (tk_key t) in
  let c' := with_tasks c (task_finish env st' t) (before ++ after) in
  ∃ mvs, arrivals mvs = [] ∧
    moves env c mvs = Some (match head with
                            | None => c'
                            | Some m => if (length (cf_channel c) <? INBOUND_CAPACITY)%nat then with_channel c' (cf_channel c ++ [m]) else with_fates c' [m] []
                            end).
Proof.
  intros E. cbv zeta. unfold drain_next_turn_queue. set (i := length before).
  assert (∀ c0 p, cf_tasks c0 = before ++ at_phase t p :: after → move env c0 (MTask i ([], None)) = Some (task_step env c0 before (at_phase t p) after ([], None))) as Hmv.
  { intros c0 p H. by apply move_task. }
  set (ib1 := transfer_next_step_to_next_turn (al_inbox (cf_state c)) (tk_key t)).
  destruct (drains env) eqn:Hd.
  2: { exists [MTask i ([], None)]. split; [done|]. eapply moves_cons; [by apply (Hmv c Released)|]. unfold task_step. cbn [tk_phase at_phase]. by rewrite Hd. }
  cbn [al_inbox with_inbox]. destruct (claim_next_turn_head ib1 (tk_key t)) as [ib2 head] eqn:Eh.
  set (st2 := with_inbox (with_inbox (cf_state c) ib1) ib2).
  set (c2 := with_tasks c st2 (before ++ at_phase t (match head with Some h => Sending (reinjected h (tk_key t)) | None => Peeking end) :: after)).
  assert (moves env c [MTask i ([], None); MTask i ([], None)] = Some c2) as H2.
  { eapply moves_cons; [by apply (Hmv c Released)|]. unfold task_step at 1. cbn [tk_phase at_phase tk_key]. rewrite Hd.
    eapply moves_cons; [by apply (Hmv _ Transferred)|]. unfold task_step. cbn [tk_phase at_phase tk_key cf_state with_tasks al_inbox with_inbox].
    fold ib1. by rewrite Eh. }
  (* the end, from a look at the queues on *)
  assert (∀ c3, cf_state c3 = st2 → cf_tasks c3 = before ++ at_phase t Peeking :: after →
            ∃ mvs, arrivals mvs = [] ∧ moves env c3 mvs = Some (with_tasks c3 (task_finish env (drop_empty_queues st2 (tk_key t)) t) (before ++ after))) as Hend.
  { intros c3 Es Et. unfold drop_empty_queues. destruct (bool_decide (pending (al_inbox st2) (tk_key t) = (0, 0)%nat)) eqn:Ep.
    - exists [MTask i ([], None); MTask i ([], None)]. split; [done|]. eapply moves_cons; [by apply (Hmv c3 Peeking)|].
      unfold task_step at 1. cbn [tk_phase at_phase tk_key]. rewrite Es, Ep. eapply moves_cons; [by apply (Hmv _ Clearing)|].
      unfold task_step. cbn [tk_phase at_phase tk_key cf_state with_tasks]. apply bool_decide_eq_true in Ep.
      assert (waiting (al_inbox st2) (tk_key t) = []) as ->.
      { unfold pending in Ep. unfold waiting. by destruct (queues_of (al_inbox st2) (tk_key t)) as [[|? ?] [|? ?]]. }
      unfold with_fates, with_tasks. simpl. by rewrite !app_nil_r.
    - exists [MTask i ([], None)]. split; [done|]. eapply moves_cons; [by apply (Hmv c3 Peeking)|].
      unfold task_step. cbn [tk_phase at_phase tk_key]. by rewrite Es, Ep. }
  destruct head as [h|]; cbn [fmap option_fmap option_map].
  2: { destruct (Hend c2) as (mvs & Ha & Hm); [done..|]. exists ([MTask i ([], None); MTask i ([], None)] ++ mvs).
       split; [by rewrite arrivals_app, Ha|]. by eapply moves_app. }
  set (m := reinjected h (tk_key t)) in *.
  set (c3 := if (length (cf_channel c) <? INBOUND_CAPACITY)%nat
             then with_channel (with_tasks c2 st2 (before ++ at_phase t Peeking :: after)) (cf_channel c ++ [m])
             else with_fates (with_tasks c2 st2 (before ++ at_phase t Peeking :: after)) [m] []).
  assert (moves env c2 [MTask i ([], None)] = Some c3) as H3 by (eapply moves_cons; [by apply (Hmv c2 (Sending m))|done]).
  destruct (Hend c3) as (mvs & Ha & Hm); [unfold c3; by destruct (_ <? _)%nat..|].
  exists ([MTask i ([], None); MTask i ([], None)] ++ [MTask i ([], None)] ++ mvs). split; [by rewrite !arrivals_app, Ha|].
  eapply moves_app; [exact H2|]. eapply moves_app; [exact H3|]. rewrite Hm. f_equal. unfold c3. by destruct (_ <? _)%nat.
Qed.

Lemma busy_outcome_pump c st msg agent_id key :
  cf_pump (busy_outcome env c st msg agent_id key) = cf_pump c ∧ cf_cleared (busy_outcome env c st msg agent_id key) = cf_cleared c.
Proof.
  unfold busy_outcome. pose proof (gate_busy_spec env st msg agent_id key) as Hg.
  destruct (gate_busy env st msg agent_id key) as [st' o]. by destruct Hg as ([response ->] & _).
Qed.

Lemma outcome_pump c st msg o :
  cf_pump (pump_outcome env c st msg o) = cf_pump c ∧ cf_cleared (pump_outcome env c st msg o) = cf_cleared c.
Proof. by destruct o. Qed.

(** A block is a run of moves, and drops no queue with a message in it. *)
Lemma block_moves c b c' : cf_pump c = None → block env c b = Some c' →
  (∃ mvs, moves env c mvs = Some c' ∧ arrivals mvs = block_arrivals [b]) ∧ cf_pump c' = None ∧ cf_cleared c' = cf_cleared c.
Proof.
  intros Hp Hb. destruct b as [m| |i|i|i answer|key]; cbn [block] in Hb.
  - split; [exists [MArrive m]; split; [by eapply moves_cons|done]|]. cbn [move] in Hb. by case_match; simplify_eq.
  - unfold block_take in Hb. rewrite Hp in Hb. destruct (cf_channel c) as [|m ch] eqn:Hch; [done|].
    set (msg := rewrite_custom_command (ae_slash env) m) in *. cbn [cf_state with_channel] in Hb.
    assert (move env c MTake = Some match gate_front env (cf_state c) msg with
              | (st, Decided o) => pump_outcome env (with_channel c ch) st msg o
              | (st, SessionBusy agent_id key) => with_pump (with_channel c ch) st (Some (msg, agent_id, key))
              end) as Ht by (cbn [move]; unfold pump_take; by rewrite Hp, Hch).
    destruct (gate_front env (cf_state c) msg) as [st [o|agent_id key]]; simplify_eq.
    + split; [exists [MTake]; split; [by eapply moves_cons|done]|]. by destruct (outcome_pump (with_channel c ch) st msg o) as [-> ->].
    + split; [|by destruct (busy_outcome_pump (with_pump (with_channel c ch) st None) st msg agent_id key) as [-> ->]].
      exists [MTake; MPark]. split; [|done]. eapply moves_cons; [exact Ht|]. by eapply moves_cons.
  - destruct (cf_tasks c !! i) as [t|] eqn:Ht; [|done]. cbn [mbind option_bind] in Hb. destruct (tk_phase t) eqn:Hph; try done.
    split; [exists [MTask i ([], None)]; split; [by eapply moves_cons|done]|].
    cbn [move] in Hb. rewrite Ht in Hb. cbn [mbind option_bind] in Hb. injection Hb as <-. unfold task_step. by rewrite Hph.
  - split; [exists [MSteps i]; split; [by eapply moves_cons|done]|]. cbn [move] in Hb. destruct (cf_tasks c !! i) as [t|]; [|done].
    cbn [mbind option_bind] in Hb. destruct (tk_phase t), (tk_kind t); try done. injection Hb as <-. unfold task_takes_steps. by destruct (claim_next_step _ _).
  - destruct (cf_tasks c !! i) as [t|] eqn:Ht; [|done]. cbn [mbind option_bind] in Hb. destruct (tk_phase t) eqn:Hph; try done. injection Hb as <-.
    pose proof (take_drop_middle _ _ _ Ht) as Ets. set (before := take i (cf_tasks c)) in *. set (after := drop (S i) (cf_tasks c)) in *. symmetry in Ets.
    set (t1 := mkTask (tk_kind t) (tk_key t) (tk_msg t) answer Finished).
    set (st1 := task_cleanup (task_result env (cf_state c) t answer) t). set (st2 := fst (release_session st1 (tk_key t))).
    set (c1 := with_tasks c st1 (before ++ t1 :: after)).
    set (c2 := done_with (with_tasks c1 st2 (before ++ at_phase t1 Released :: after)) st2 [tk_msg t]).
    assert (moves env c [MTask (length before) answer; MTask (length before) ([], None)] = Some c2) as H2.
    { eapply moves_cons; [by apply (move_task c before t after)|]. unfold task_step at 1. rewrite Hph.
      eapply moves_cons; [by apply (move_task _ before t1 after)|]. done. }
    pose proof (tail_moves c2 before t1 after eq_refl) as Htail. cbv zeta in Htail. cbn [cf_state c2 done_with] in Htail.
    unfold block_end. fold st1 st2. change (tk_key t1) with (tk_key t) in Htail.
    destruct (drain_next_turn_queue env st2 (tk_key t)) as [st3 head]. destruct Htail as (mvs & Ha & Hm). split.
    + exists ([MTask (length before) answer; MTask (length before) ([], None)] ++ mvs).
      split; [|by rewrite arrivals_app, Ha]. eapply moves_app; [exact H2|]. rewrite Hm. by destruct head.
    + destruct head as [m|]; [|done]. destruct (_ <? _)%nat; [done|]. simpl. split; [done|]. by rewrite app_nil_r.
  - split; [exists [MCancel key]; split; [by eapply moves_cons|done]|]. cbn [move] in Hb. by injection Hb as <-.
Qed.

Lemma block_arrivals_cons b bs : block_arrivals (b :: bs) = block_arrivals [b] ++ block_arrivals bs.
Proof. by destruct b. Qed.

(** Also: a run on one thread is a run of interleaved threads. *)
Theorem blocks_refine_moves bs : ∀ c c', cf_pump c = None → blocks env c bs = Some c' →
  (∃ mvs, moves env c mvs = Some c' ∧ arrivals mvs = block_arrivals bs) ∧ cf_pump c' = None ∧ cf_cleared c' = cf_cleared c.
Proof.
  induction bs as [|b bs IH]; intros c c' Hp Hb; [simplify_eq/=; split; [by exists []|done]|]. cbn [blocks] in Hb.
  destruct (block env c b) as [c1|] eqn:E; [|done]. destruct (block_moves c b c1 Hp E) as ((mvs & Hm & Ha) & Hp1 & Hc1).
  destruct (IH c1 c' Hp1 Hb) as ((mvs' & Hm' & Ha') & Hp' & Hc'). split; [|split; [done|congruence]].
  exists (mvs ++ mvs'). split; [by eapply moves_app|]. by rewrite arrivals_app, block_arrivals_cons, Ha, Ha'.
Qed.

(** ** Ordinary messages *)

Definition plain (s : str) : Prop := Forall (λ c, c ≠ c_slash ∧ c ≠ 25764%N) s.

Lemma plain_iff s : plain_text s = true ↔ plain s.
Proof.
  unfold plain_text, plain. rewrite forallb_Forall_true. apply Forall_iff. intros c.
  rewrite andb_true_iff, !negb_true_iff, !N.eqb_neq. done.
Qed.

Lemma plain_trim s : plain s → plain (trim s).
Proof. apply Forall_trim. Qed.

Lemma plain_trim_start s : plain s → plain (trim_start s).
Proof. intros H. destruct (trim_start_matches_suffix is_ws s) as (a & E & _). rewrite E in H. by apply Forall_app in H as [_ H]. Qed.

Lemma plain_pieces p s : plain s → Forall plain (split_on p s).
Proof.
  induction 1 as [|c s Hc _ IH]; [by repeat constructor|]. simpl. destruct (p c); [by constructor; [constructor|]|].
  destruct (split_on p s) as [|t ts]; [constructor; [by constructor; [|constructor]|constructor]|].
  apply Forall_cons in IH as [Ht Hts]. constructor; [by constructor|done].
Qed.

Lemma plain_no_slash s t : plain (s ++ c_slash :: t) → False.
Proof. intros [_ [[H _] _]%Forall_cons]%Forall_app. done. Qed.

Lemma plain_words s w : plain s → w ∈ split_whitespace s → plain w.
Proof.
  intros H [Hw _]%elem_of_filter_bool. pose proof (plain_pieces is_ws s H) as Hp. rewrite Forall_forall in Hp. by apply Hp.
Qed.

Lemma plain_prefix p s : plain s → strip_prefix (c_slash :: p) s = None.
Proof.
  intros H. destruct (strip_prefix (c_slash :: p) s) as [t|] eqn:E; [|done]. apply strip_prefix_Some in E as ->.
  exfalso. by apply (plain_no_slash [] (p ++ t)).
Qed.

Lemma plain_ne s p q : plain s → s ≠ p ++ c_slash :: q.
Proof. intros H ->. by eapply plain_no_slash. Qed.

Lemma plain_starts s p : plain s → starts_with (c_slash :: p) s = false.
Proof. intros H. apply not_true_is_false. rewrite starts_with_iff. intros [t ->]. by apply (plain_no_slash [] (p ++ t)). Qed.

Lemma plain_slash_word s (w : string) : plain s → head (lit w) = Some c_slash → s ≠ lit w.
Proof. intros H Hw ->. destruct (lit w) as [|c l]; [done|]. simplify_eq/=. by apply (plain_no_slash [] l). Qed.

Lemma plain_maintenance s : plain s → parse_maintenance_command s = None.
Proof.
  intros H. unfold parse_maintenance_command. destruct (head (split_whitespace s)) as [w|] eqn:E; [|done]. cbn [mbind option_bind].
  apply head_Some_elem_of in E. pose proof (plain_words s w H E) as Hw.
  rewrite !(bool_decide_false (w = lit _)) by (by apply plain_slash_word). rewrite bool_decide_false; [done|]. intros ->.
  apply Forall_cons in Hw as [[_ Hw] _]. by apply Hw.
Qed.

Lemma plain_dispatch s : plain s → parse_user_dispatch s = None.
Proof.
  intros H%plain_trim. unfold parse_user_dispatch.
  rewrite (plain_prefix _ _ H : strip_prefix (lit "/build ") (trim s) = None), (plain_prefix _ _ H : strip_prefix (lit "/plan ") (trim s) = None). done.
Qed.

Lemma plain_approval s : plain s → parse_approval_reply s = None.
Proof.
  intros H%plain_trim. unfold parse_approval_reply.
  rewrite (plain_prefix _ _ H : strip_prefix (lit "/approve ") (trim s) = None), (plain_prefix _ _ H : strip_prefix (lit "/deny ") (trim s) = None). done.
Qed.

Lemma plain_classify s : plain s → classify s = VText.
Proof.
  intros H. unfold classify. rewrite plain_maintenance, plain_dispatch, plain_approval by done. pose proof (plain_trim s H) as Ht.
  rewrite !(bool_decide_false (trim s = lit _)) by (by apply plain_slash_word).
  rewrite (plain_starts _ _ Ht : starts_with (lit "/discipline ") (trim s) = false). done.
Qed.

Lemma plain_command n s ch : plain s → handle_command_with_context n s ch = (n, None).
Proof. intros H%plain_trim. unfold handle_command_with_context. by rewrite (plain_starts _ [] H). Qed.

Lemma plain_rewrite sv m : plain (im_content m) → rewrite_custom_command sv m = m.
Proof.
  intros H%plain_trim. unfold rewrite_custom_command, slash_parts. destruct (trim (im_content m)) as [|c rest]; [done|].
  apply Forall_cons in H as [[Hc _] _]. by rewrite (proj2 (N.eqb_neq _ _) Hc).
Qed.

Lemma plain_strip s : plain s → plain (strip_steer_marker s).
Proof.
  intros H. unfold strip_steer_marker. pose proof (plain_trim_start s H) as Ht.
  assert (∀ c r, strip_prefix [c] (trim_start s) = Some r → plain (trim_start r)) as Hs.
  { intros c r E. apply strip_prefix_Some in E. rewrite E in Ht. apply Forall_app in Ht as [_ Ht]. by apply plain_trim_start. }
  destruct (strip_prefix [c_bang] (trim_start s)) as [r|] eqn:E1; [by eapply Hs|].
  destruct (strip_prefix [c_wide_bang] (trim_start s)) as [r|] eqn:E2; [by eapply Hs|done].
Qed.

Lemma ordinary_text m content : ordinary m → plain content → ordinary (im_with_content m content).
Proof. intros (_ & Hs & Hh) Hp. split; [by apply plain_iff|done]. Qed.

Lemma ordinary_key m key : ordinary m → ordinary (im_with_key m key).
Proof. done. Qed.

(** The gate on an ordinary message: a turn for its session, or the session is busy. *)
Lemma gate_ordinary st m : ordinary m →
  let '(st', g) := gate_front env st m in
  (∃ a, g = Decided (TurnAdmitted a) ∧ ta_session_key a = snd (route_message env m) ∧ acquires st st' (snd (route_message env m))) ∨
  (∃ agent_id, g = SessionBusy agent_id (snd (route_message env m)) ∧ same_sessions st st' ∧ is_session_busy st (snd (route_message env m)) = true).
Proof.
  intros (Hp%plain_iff & Hs & Hh). pose proof (gate_front_spec env st m) as Hspec. unfold gate_front in *.
  destruct (turn_preamble env st m) as [st1 cp]. rewrite bool_decide_false in * by done. rewrite Hh, plain_classify in * by done.
  destruct (route_message env m) as [agent_id key]. rewrite plain_command in * by done.
  destruct (try_acquire_session _ key) as [st2 []]; cbn [snd].
  - left. eexists. by destruct Hspec.
  - right. exists agent_id. destruct Hspec as [Hsame Hb]. split; [done|]. split; [done|]. by apply (Hb agent_id key).
Qed.

(** ** Where a message goes *)

Section Routes.
Context {LO : Lowering}.

Definition session_of (m : InboundMessage) : str := snd (route_message env m).

Lemma session_content m content : session_of (im_with_content m content) = session_of m.
Proof. done. Qed.

(** Put back under the key of its session, a message goes to that session again. *)
Lemma session_stable m : session_of (im_with_key m (session_of m)) = session_of m.
Proof.
  unfold session_of, route_message. destruct (ae_route_resolver env) as [cfg|]; cbn [snd].
  - change (route_input (im_with_key m _)) with (route_input m). set (r := resolve cfg (route_input m)).
    assert (starts_with (lit "agent:") (rr_session_key r) = true) as Hr.
    { unfold r. destruct (resolve_route cfg (route_input m)) as (agent_id & matched_by & ->). apply peer_key_agent. }
    destruct (keeps_session_key m) eqn:Hk.
    + unfold keeps_session_key in *. cbn [im_session_key im_with_key]. by rewrite Hk.
    + unfold keeps_session_key. cbn [im_session_key im_with_key]. rewrite Hr. by destruct (rr_session_key r).
  - change (extract_peer (im_with_key m _)) with (extract_peer m). change (im_channel (im_with_key m _)) with (im_channel m).
    destruct (keeps_session_key m) eqn:Hk.
    + unfold keeps_session_key in *. cbn [im_session_key im_with_key]. by rewrite Hk.
    + destruct (keeps_session_key (im_with_key m _)); done.
Qed.

(** ** What waits in a queue *)

Lemma waiting_put ib key q key' : waiting (put_queues ib key q) key' = (if key =? key' then sq_next_turn q ++ sq_next_step q else waiting ib key').
Proof. unfold waiting. rewrite queues_put. by case_bool_decide. Qed.

Lemma waiting_clear ib key key' : waiting (clear_queues ib key) key' = (if key =? key' then [] else waiting ib key').
Proof.
  unfold waiting, queues_of, clear_queues. simpl. case_bool_decide as E; [subst; by rewrite lookup_delete_eq|by rewrite lookup_delete_ne].
Qed.

Lemma waiting_enqueue ib key m steer key' :
  let ib' := fst (enqueue_for_mode ib key m steer) in
  (key' ≠ key → waiting ib' key' = waiting ib key') ∧ (∀ q, q ∈ waiting ib' key' → q ∈ waiting ib key' ∨ q = m).
Proof.
  unfold enqueue_for_mode. repeat case_match; cbn [fst]; rewrite waiting_put; (case_bool_decide; [subst key'; split; [done|]|split; [done|by left]]);
    intros q; unfold waiting; simpl; rewrite !elem_of_app; rewrite ?list_elem_of_singleton; naive_solver.
Qed.

Lemma waiting_steps ib key : let '(ib', ms) := claim_next_step ib key in ∀ key' q, q ∈ waiting ib' key' → q ∈ waiting ib key'.
Proof.
  unfold claim_next_step. destruct (ib_queues ib !! key) as [q0|] eqn:E; [|done]. intros key' q. rewrite waiting_put.
  case_bool_decide; [subst key'|done]. unfold waiting. rewrite (queues_some _ _ _ E). simpl. rewrite !elem_of_app. set_solver.
Qed.

(** A message that waits, as it came or without its marker. *)
Definition derived (q0 q : QueuedMessage) : Prop := q = q0 ∨ q = unmarked q0.

Definition at_home (key : str) (q : QueuedMessage) : Prop := ordinary (qm_msg q) ∧ session_of (qm_msg q) = key.

Lemma derived_home key q0 q : derived q0 q → at_home key q0 → at_home key q.
Proof.
  intros [->| ->] [Ho Hs]; [done|]. split; [|done]. apply ordinary_text; [done|]. apply plain_strip. by apply plain_iff, Ho.
Qed.

Lemma waiting_transfer ib key key' :
  let ib' := transfer_next_step_to_next_turn ib key in
  (key' ≠ key → waiting ib' key' = waiting ib key') ∧ sq_next_step (queues_of ib' key) = [] ∧
  (∀ q, q ∈ waiting ib' key' → ∃ q0, q0 ∈ waiting ib key' ∧ derived q0 q).
Proof.
  unfold transfer_next_step_to_next_turn. destruct (ib_queues ib !! key) as [q0|] eqn:E.
  - rewrite queues_put, bool_decide_true by done. rewrite waiting_put. case_bool_decide as Hk.
    + subst key'. split; [done|]. split; [done|]. intros q. unfold waiting. rewrite (queues_some _ _ _ E). simpl.
      rewrite app_nil_r, elem_of_app, list_elem_of_fmap. intros [H|(q1 & -> & H)].
      * exists q. split; [set_solver|by left].
      * exists q1. split; [set_solver|by right].
    + split; [done|]. split; [done|]. intros q H. exists q. split; [done|by left].
  - split; [done|]. split; [unfold queues_of; by rewrite E|]. intros q H. exists q. split; [done|by left].
Qed.

Lemma waiting_drain st key key' :
  let '(st', head) := drain_next_turn_queue env st key in
  (key' ≠ key → waiting (al_inbox st') key' = waiting (al_inbox st) key') ∧
  (∀ q, q ∈ waiting (al_inbox st') key' → ∃ q0, q0 ∈ waiting (al_inbox st) key' ∧ derived q0 q) ∧
  (ae_concurrent_mode env ≠ ModeReject →
   match head with
   | None => waiting (al_inbox st') key = []
   | Some m => ∃ q0 q, q0 ∈ waiting (al_inbox st) key ∧ derived q0 q ∧ m = reinjected q key
   end) ∧
  (ae_concurrent_mode env = ModeReject → head = None).
Proof.
  unfold drain_next_turn_queue. set (ib1 := transfer_next_step_to_next_turn (al_inbox st) key).
  pose proof (waiting_transfer (al_inbox st) key key') as (Hne & Hstep & Hin). fold ib1 in Hne, Hstep, Hin.
  pose proof (waiting_transfer (al_inbox st) key key) as (_ & _ & Hkey). fold ib1 in Hkey.
  destruct (drains env) eqn:Hd; [|split; [done|]; split; [done|]; split; [|done]; intros Hm; unfold drains in Hd; by destruct (ae_concurrent_mode env)].
  cbn [al_inbox with_inbox]. destruct (claim_next_turn_head ib1 key) as [ib2 head] eqn:Eh.
  assert ((key' ≠ key → waiting ib2 key' = waiting ib1 key') ∧ (∀ q, q ∈ waiting ib2 key' → q ∈ waiting ib1 key') ∧
          match head with None => waiting ib2 key = [] | Some h => h ∈ waiting ib1 key end) as (H1 & H2 & H3).
  { unfold claim_next_turn_head in Eh. destruct (ib_queues ib1 !! key) as [[[|m rest] steps]|] eqn:E; injection Eh as <- <-.
    - split; [done|]. split; [done|]. unfold waiting. rewrite Hstep, (queues_some _ _ _ E). done.
    - rewrite waiting_put. split; [intros Hk; by rewrite bool_decide_false|]. split; [|unfold waiting; rewrite (queues_some _ _ _ E); left].
      case_bool_decide; [subst key'|done]. intros q. unfold waiting. rewrite (queues_some _ _ _ E). simpl. set_solver.
    - split; [done|]. split; [done|]. unfold waiting, queues_of. by rewrite E. }
  assert (∀ k, waiting (al_inbox (drop_empty_queues (with_inbox (with_inbox st ib1) ib2) key)) k = waiting ib2 k) as Hdrop.
  { intros k. unfold drop_empty_queues. cbn [al_inbox with_inbox]. case_bool_decide as Ep; [|done]. cbn [al_inbox with_inbox].
    rewrite waiting_clear. case_bool_decide; [subst k|done]. unfold pending in Ep. unfold waiting. by destruct (queues_of ib2 key) as [[|? ?] [|? ?]]. }
  rewrite !Hdrop. split; [intros Hk; by rewrite H1, Hne|]. split; [intros q Hq; by apply Hin, H2|].
  split; [|unfold drains in Hd; intros Hm; by rewrite Hm in Hd]. intros _. destruct head as [h|]; [|done]. cbn [fmap option_fmap option_map].
  destruct (Hkey h H3) as (q0 & Hq0 & Hder). by exists q0, h.
Qed.

(** ** Nothing waits without a reason *)

(** A reason for messages to wait in the queue of a session: a task that will drain it, a
    message on the channel that will start one, or a channel that was full. *)
Definition reason (c : Config) (key : str) : Prop :=
  cf_refused c ≠ [] ∨ (∃ t, t ∈ cf_tasks c ∧ tk_key t = key) ∨ (∃ m, m ∈ cf_channel c ∧ session_of m = key).

Definition between_waits (t : Task) : Prop := tk_phase t = Spawned ∨ tk_phase t = Working.

Record settled (c : Config) : Prop := mkSettled {
  se_pump : cf_pump c = None;
  se_tasks : Forall between_waits (cf_tasks c);
  se_channel : Forall ordinary (cf_channel c);
  se_home : ∀ key, Forall (at_home key) (waiting (al_inbox (cf_state c)) key);
  se_reason : ∀ key, waiting (al_inbox (cf_state c)) key ≠ [] → reason c key;
  se_reject : ae_concurrent_mode env = ModeReject → ∀ key, waiting (al_inbox (cf_state c)) key = [];
}.

(** The same tasks, channel and refusals, and nothing new in the queues. *)
Lemma settled_less c c' : cf_pump c' = None → cf_tasks c' = cf_tasks c → cf_channel c' = cf_channel c → cf_refused c' = cf_refused c →
  (∀ key q, q ∈ waiting (al_inbox (cf_state c')) key → q ∈ waiting (al_inbox (cf_state c)) key) → settled c → settled c'.
Proof.
  intros Hp Ht Hc Hr Hw [_ H2 H3 H4 H5 H6]. constructor; [done|by rewrite Ht|by rewrite Hc|..].
  - intros key. rewrite Forall_forall in *. intros q Hq. specialize (H4 key). rewrite Forall_forall in H4. by apply H4, Hw.
  - intros key Hne. unfold reason. rewrite Ht, Hc, Hr. apply H5. destruct (waiting (al_inbox (cf_state c')) key) as [|q l] eqn:E; [done|].
    assert (q ∈ waiting (al_inbox (cf_state c)) key) as Hq by (apply Hw; rewrite E; left). intros E'. rewrite E' in Hq. set_solver.
  - intros Hm key. specialize (H6 Hm key). destruct (waiting (al_inbox (cf_state c')) key) as [|q l] eqn:E; [done|].
    assert (q ∈ waiting (al_inbox (cf_state c)) key) as Hq by (apply Hw; rewrite E; left). rewrite H6 in Hq. set_solver.
Qed.

Lemma holder_of c key : exclusive c → is_session_busy (cf_state c) key = true → ∃ t, t ∈ cf_tasks c ∧ tk_key t = key.
Proof.
  intros He Hb. destruct (He key) as [Hh _]. rewrite Hb in Hh. unfold holders in Hh.
  destruct (List.filter (holds key) (cf_tasks c)) as [|t l] eqn:El; [done|].
  destruct (elem_of_filter_bool (holds key) (cf_tasks c) t) as [Hin Hk]; [rewrite El; left|].
  unfold holds in Hk. exists t. split; [done|]. by apply andb_true_iff in Hk as [Hk%bool_decide_eq_true _].
Qed.

Lemma settled_take c c' : exclusive c → settled c → block_take env c = Some c' → settled c'.
Proof.
  intros He Hset Hb. destruct Hset as [Hp Ht Hc Hw Hr Hrej]. unfold block_take in Hb. rewrite Hp in Hb.
  destruct (cf_channel c) as [|m ch] eqn:Hch; [done|]. apply Forall_cons in Hc as [Hm Hc].
  rewrite plain_rewrite in Hb by (by apply plain_iff, Hm). cbn [cf_state with_channel] in Hb.
  pose proof (gate_ordinary (cf_state c) m Hm) as Hg. fold (session_of m) in Hg.
  destruct (gate_front env (cf_state c) m) as [st g]. destruct Hg as [(a & -> & Hk & _ & Hi & _)|(agent_id & -> & [_ Hi] & Hbusy)]; injection Hb as <-.
  - constructor; cbn [pump_outcome spawned cf_state cf_pump cf_tasks cf_channel cf_refused with_channel]; rewrite ?Hi; try done.
    + apply Forall_app. split; [done|]. constructor; [by left|constructor].
    + intros key Hne. destruct (Hr key Hne) as [H|[(t & Hin & Hkey)|(m' & Hin & Hkey)]]; [by left|right..].
      * left. exists t. cbn [cf_tasks]. split; [set_solver|done].
      * rewrite Hch in Hin. apply elem_of_cons in Hin as [->|Hin].
        -- left. exists (mkTask (KTurn a) (ta_session_key a) m ([], None) Spawned). cbn [cf_tasks tk_key]. split; [set_solver|congruence].
        -- right. by exists m'.
  - destruct (busy_outcome_pump (with_pump (with_channel c ch) st None) st m agent_id (session_of m)) as [Hpump _].
    unfold busy_outcome in *. pose proof (gate_busy_spec env st m agent_id (session_of m)) as Hg.
    destruct (gate_busy env st m agent_id (session_of m)) as [st' o]. destruct Hg as ([response ->] & _ & Hib).
    destruct (same_finish env st' m response None false) as [_ Hf].
    assert (∀ key, (key ≠ session_of m → waiting (al_inbox st') key = waiting (al_inbox (cf_state c)) key) ∧
              (ae_concurrent_mode env = ModeReject → waiting (al_inbox st') key = waiting (al_inbox (cf_state c)) key) ∧
              (∀ q, q ∈ waiting (al_inbox st') key → q ∈ waiting (al_inbox (cf_state c)) key ∨ (key = session_of m ∧ q = mkQueued m (ae_now env)))) as Hwait.
    { intros key. rewrite Hib, Hi. destruct (ae_concurrent_mode env) eqn:Emode; [naive_solver|..];
        (match goal with |- context [enqueue_for_mode ?ib ?k ?qm ?steer] => destruct (waiting_enqueue ib k qm steer key) as [H1 H2] end;
         split; [exact H1|]; split; [intros [=]|]; intros q Hq;
         destruct (decide (key = session_of m)) as [Heq|Hne]; [destruct (H2 q Hq); [by left|by right]|left; by rewrite <-H1]). }
    constructor; cbn [done_with cf_state cf_pump cf_tasks cf_channel cf_refused with_pump with_channel]; try done; rewrite ?Hf.
    + intros key. rewrite Forall_forall. intros q Hq. destruct (proj2 (proj2 (Hwait key)) q Hq) as [Hq'|[-> ->]].
      * specialize (Hw key). rewrite Forall_forall in Hw. by apply Hw.
      * by split.
    + intros key Hne. destruct (decide (key = session_of m)) as [->|Hkey].
      * right. left. exact (holder_of c _ He Hbusy).
      * rewrite (proj1 (Hwait key) Hkey) in Hne. destruct (Hr key Hne) as [H|[H|(m' & Hin & Hkey')]]; [by left|right; by left|].
        right. right. rewrite Hch in Hin. apply elem_of_cons in Hin as [->|Hin]; [done|]. by exists m'.
    + intros Hm' key. rewrite (proj1 (proj2 (Hwait key)) Hm'). by apply Hrej.
Qed.

Lemma settled_end c before t after answer : cf_tasks c = before ++ t :: after → settled c → settled (block_end env c before t after answer).
Proof.
  intros Et [Hp Ht Hc Hw Hr Hrej]. unfold block_end. rewrite Et in Ht.
  apply Forall_app in Ht as [Hbef [_ Haft]%Forall_cons].
  set (st1 := task_cleanup (task_result env (cf_state c) t answer) t). set (st2 := fst (release_session st1 (tk_key t))).
  assert (al_inbox st2 = al_inbox (cf_state c)) as Hi2.
  { unfold st2. transitivity (al_inbox st1); [unfold release_session; by repeat case_match|]. unfold st1.
    rewrite (proj2 (same_task_cleanup _ _)). apply same_task_result. }
  pose proof (λ key, waiting_drain st2 (tk_key t) key) as Hd. destruct (drain_next_turn_queue env st2 (tk_key t)) as [st3 head].
  rewrite Hi2 in Hd. set (t1 := mkTask (tk_kind t) (tk_key t) (tk_msg t) answer Finished).
  destruct (same_task_finish env st3 t1) as [_ Hf]. set (st4 := task_finish env st3 t1) in *. clearbody st4.
  set (c1 := done_with (with_tasks c st4 (before ++ after)) st4 [tk_msg t]).
  assert (∀ m, head = Some m → ordinary m ∧ session_of m = tk_key t) as Hhead.
  { intros m ->. destruct (Hd (tk_key t)) as (_ & _ & H & Hrj).
    assert (ae_concurrent_mode env ≠ ModeReject) as Hmode by (intros E; by specialize (Hrj E)).
    destruct (H Hmode) as (q0 & q & Hq0 & Hder & ->). specialize (Hw (tk_key t)). rewrite Forall_forall in Hw.
    destruct (derived_home _ _ _ Hder (Hw q0 Hq0)) as [Ho Hs]. split; [by apply ordinary_key|].
    unfold reinjected. rewrite <-Hs. apply session_stable. }
  assert (∀ c2, cf_state c2 = st4 → cf_pump c2 = None → cf_tasks c2 = before ++ after → Forall ordinary (cf_channel c2) →
            (∀ m, m ∈ cf_channel c → m ∈ cf_channel c2) → (cf_refused c ≠ [] → cf_refused c2 ≠ []) →
            (waiting (al_inbox st4) (tk_key t) ≠ [] → cf_refused c2 ≠ [] ∨ ∃ m, m ∈ cf_channel c2 ∧ session_of m = tk_key t) → settled c2) as Hset.
  { intros c2 Es Hp2 Ht2 Hc2 Hsub Href Hkey. constructor; [done|rewrite Ht2; by apply Forall_app|done|..]; rewrite ?Es, ?Hf.
    - intros key. rewrite Forall_forall. intros q Hq. destruct (proj1 (proj2 (Hd key)) q Hq) as (q0 & Hq0 & Hder).
      specialize (Hw key). rewrite Forall_forall in Hw. eapply derived_home; [done|by apply Hw].
    - intros key Hne. destruct (decide (key = tk_key t)) as [->|Hk].
      + rewrite Hf in Hkey. destruct (Hkey Hne) as [H|H]; [by left|right; by right].
      + rewrite (proj1 (Hd key) Hk) in Hne. destruct (Hr key Hne) as [H|[(t' & Hin & Hkey')|(m & Hin & Hm)]].
        * left. by apply Href.
        * right. left. exists t'. rewrite Et in Hin. rewrite Ht2. split; [|done]. apply elem_of_app in Hin as [Hin|Hin]; [set_solver|].
          apply elem_of_cons in Hin as [->|Hin]; [done|set_solver].
        * right. right. exists m. split; [by apply Hsub|done].
    - intros Hm key. destruct (waiting (al_inbox st3) key) as [|q l] eqn:E; [done|]. exfalso.
      destruct (proj1 (proj2 (Hd key)) q) as (q0 & Hq0 & _); [rewrite E; left|]. rewrite (Hrej Hm key) in Hq0. set_solver. }
  destruct head as [m|].
  - destruct (Hhead m eq_refl) as [Ho Hs]. destruct (_ <? _)%nat; apply Hset; try done.
    + apply Forall_app. split; [done|]. by constructor; [|constructor].
    + intros m' Hin. cbn. set_solver.
    + intros _. right. exists m. split; [cbn; set_solver|done].
    + intros _. cbn. by destruct (cf_refused c).
    + intros _. left. cbn. by destruct (cf_refused c).
  - apply Hset; try done. intros Hne. exfalso. apply Hne. rewrite Hf. destruct (decide (ae_concurrent_mode env = ModeReject)) as [Hm|Hm].
    + destruct (waiting (al_inbox st3) (tk_key t)) as [|q l] eqn:E; [done|]. exfalso.
      destruct (proj1 (proj2 (Hd (tk_key t))) q) as (q0 & Hq0 & _); [rewrite E; left|]. rewrite (Hrej Hm) in Hq0. set_solver.
    + by apply (proj1 (proj2 (proj2 (Hd (tk_key t)))) Hm).
Qed.

Lemma settled_block c b c' : exclusive c → Forall ordinary (block_arrivals [b]) → settled c → block env c b = Some c' → settled c'.
Proof.
  intros He Ho Hs Hb. destruct b as [m| |i|i|i answer|key]; cbn [block] in Hb.
  - cbn [move] in Hb. case_match; [|done]. injection Hb as <-. destruct Hs as [H1 H2 H3 H4 H5 H6]. apply Forall_cons in Ho as [Hm _].
    constructor; try done; cbn [with_channel cf_channel]; [apply Forall_app; split; [done|by constructor]|].
    intros key Hne. destruct (H5 key Hne) as [Hr|[Hr|(m' & Hin & Hk)]]; [by left|right; by left|right; right]. exists m'. split; [|done]. cbn. set_solver.
  - by eapply settled_take.
  - destruct (cf_tasks c !! i) as [t|] eqn:Ht; [|done]. cbn [mbind option_bind] in Hb. destruct (tk_phase t) eqn:Hp; try done.
    cbn [move] in Hb. rewrite Ht in Hb. cbn [mbind option_bind] in Hb. injection Hb as <-. unfold task_step. rewrite Hp.
    pose proof (take_drop_middle _ _ _ Ht) as Et. set (before := take i (cf_tasks c)) in *. set (after := drop (S i) (cf_tasks c)) in *.
    destruct (same_task_begin env (cf_state c) t) as [_ Hi]. destruct Hs as [H1 H2 H3 H4 H5 H6].
    constructor; cbn [with_tasks cf_state cf_pump cf_tasks cf_channel cf_refused]; rewrite ?Hi; try done.
    + rewrite <-Et in H2. apply Forall_app in H2 as [Hb [_ Ha]%Forall_cons]. apply Forall_app. split; [done|]. constructor; [by right|done].
    + intros key Hne. destruct (H5 key Hne) as [H|[(t' & Hin & Hk)|H]]; [by left|right; left|right; by right]. cbn [with_tasks cf_tasks].
      rewrite <-Et in Hin. apply elem_of_app in Hin as [Hin|Hin]; [exists t'; set_solver|]. apply elem_of_cons in Hin as [->|Hin]; [|exists t'; set_solver].
      exists (at_phase t Working). split; [set_solver|done].
  - cbn [move] in Hb. destruct (cf_tasks c !! i) as [t|] eqn:Ht; [|done]. cbn [mbind option_bind] in Hb. destruct (tk_phase t), (tk_kind t); try done.
    injection Hb as <-. unfold task_takes_steps. pose proof (waiting_steps (al_inbox (cf_state c)) (tk_key t)) as Hw.
    destruct (claim_next_step _ _) as [ib ms]. apply (settled_less c); try done. apply Hs.
  - destruct (cf_tasks c !! i) as [t|] eqn:Ht; [|done]. cbn [mbind option_bind] in Hb. destruct (tk_phase t); try done. injection Hb as <-.
    apply settled_end; [|done]. symmetry. by apply take_drop_middle.
  - cbn [move] in Hb. injection Hb as <-. apply (settled_less c); try done; [apply Hs|]. intros key' q. unfold cancel_session. by case_match.
Qed.

Lemma settled_initial st : fresh st → settled (initial st).
Proof.
  intros [_ Hq]. assert (∀ key, waiting (al_inbox st) key = []) as Hw by (intros key; unfold waiting, queues_of; by rewrite Hq, lookup_empty).
  constructor; cbn [initial cf_state]; [done|constructor|constructor|intros key; by rewrite Hw|intros key; by rewrite Hw|intros _ key; apply Hw].
Qed.

Lemma settled_blocks bs : ∀ c c', exclusive c → Forall ordinary (block_arrivals bs) → settled c → blocks env c bs = Some c' → settled c'.
Proof.
  induction bs as [|b bs IH]; intros c c' He Ho Hs Hb; [by simplify_eq/=|]. cbn [blocks] in Hb. destruct (block env c b) as [c1|] eqn:E; [|done].
  rewrite block_arrivals_cons in Ho. apply Forall_app in Ho as [Ho1 Ho2]. apply (IH c1); [|done|by eapply settled_block|done].
  destruct (block_moves c b c1 (se_pump _ Hs) E) as ((mvs & Hm & _) & _). by eapply excl_moves.
Qed.

(** ** The work is bounded *)

Definition productive (b : Block) : bool := match b with BTake | BBegin _ | BEnd _ _ => true | _ => false end.

Definition task_weight (t : Task) : nat := match tk_phase t with Spawned => 3 | Working => 2 | _ => 0 end.

(** What is left to be done; each step of the work takes some of it. *)
Definition weight (c : Config) : nat :=
  4 * length (cf_channel c) + 3 * length (parked (al_inbox (cf_state c))) + sum_list_with task_weight (cf_tasks c).

Lemma parked_length (l l' : list InboundMessage) : idents l ≡ₚ idents l' → length l = length l'.
Proof. intros H%Permutation_length. by rewrite !length_fmap in H. Qed.

Lemma parked_drain st key : let '(st', head) := drain_next_turn_queue env st key in
  (length (parked (al_inbox st')) + (match head with Some _ => 1 | None => 0 end) ≤ length (parked (al_inbox st)))%nat.
Proof.
  unfold drain_next_turn_queue. set (ib1 := transfer_next_step_to_next_turn (al_inbox st) key).
  pose proof (parked_length _ _ (parked_transfer (al_inbox st) key)) as H1. fold ib1 in H1.
  destruct (drains env); [|cbn [al_inbox with_inbox]; lia]. cbn [al_inbox with_inbox].
  pose proof (parked_head ib1 key) as H2. destruct (claim_next_turn_head ib1 key) as [ib2 head].
  apply Permutation_length in H2. rewrite length_app, !length_fmap in H2.
  assert (length (parked (al_inbox (drop_empty_queues (with_inbox (with_inbox st ib1) ib2) key))) ≤ length (parked ib2))%nat as H3.
  { unfold drop_empty_queues. cbn [al_inbox with_inbox]. case_bool_decide; [|done]. cbn [al_inbox with_inbox].
    rewrite (parked_at ib2 key). rewrite length_app. lia. }
  destruct head; simpl in *; lia.
Qed.

Lemma weight_at c i t : cf_tasks c !! i = Some t →
  sum_list_with task_weight (cf_tasks c) =
  (sum_list_with task_weight (take i (cf_tasks c)) + (task_weight t + sum_list_with task_weight (drop (S i) (cf_tasks c))))%nat.
Proof. intros Ht. rewrite <-(take_drop_middle _ _ _ Ht) at 1. by rewrite sum_list_with_app. Qed.

Lemma weight_block c b c' : block env c b = Some c' →
  (weight c' + (if productive b then 1 else 0) ≤ weight c + 4 * length (block_arrivals [b]))%nat.
Proof.
  intros Hb. unfold weight. destruct b as [m| |i|i|i answer|key]; cbn [block] in Hb; cbn [productive block_arrivals omap list_omap length].
  - cbn [move] in Hb. case_match; [|done]. injection Hb as <-. cbn [with_channel cf_channel cf_state cf_tasks]. rewrite length_app. simpl. lia.
  - unfold block_take in Hb. destruct (cf_pump c); [done|]. destruct (cf_channel c) as [|m ch]; [done|].
    set (msg := rewrite_custom_command (ae_slash env) m) in *. cbn [cf_state with_channel] in Hb.
    pose proof (gate_front_inbox env (cf_state c) msg) as Hi. destruct (gate_front env (cf_state c) msg) as [st [o|agent_id key]]; injection Hb as <-; cbn [fst] in Hi.
    + destruct o; cbn [pump_outcome done_with spawned cf_channel cf_state cf_tasks with_channel]; rewrite ?(proj2 (same_finish _ _ _ _ _ _)), ?sum_list_with_app;
        cbn [emit with_events al_inbox]; rewrite ?Hi; simpl; lia.
    + unfold busy_outcome. pose proof (gate_busy_spec env st msg agent_id key) as Hg.
      destruct (gate_busy env st msg agent_id key) as [st' o]. destruct Hg as ([response ->] & _ & Hib).
      cbn [done_with cf_channel cf_state cf_tasks with_pump with_channel]. rewrite (proj2 (same_finish _ _ _ _ _ _)), Hib, Hi.
      match goal with |- (4 * _ + 3 * length (parked ?x) + _ + _ ≤ _)%nat =>
        enough (length (parked x) ≤ S (length (parked (al_inbox (cf_state c)))))%nat by (rewrite length_cons; lia) end.
      destruct (ae_concurrent_mode env); [lia|..];
        (match goal with |- context [enqueue_for_mode ?ib ?k ?qm ?steer] => pose proof (parked_enqueue ib k qm steer) as Hp end;
         apply Permutation_length in Hp; rewrite length_app, !length_fmap in Hp; rewrite Hp; case_match; simpl; lia).
  - destruct (cf_tasks c !! i) as [t|] eqn:Ht; [|done]. cbn [mbind option_bind] in Hb. destruct (tk_phase t) eqn:Hp; try done.
    cbn [move] in Hb. rewrite Ht in Hb. cbn [mbind option_bind] in Hb. injection Hb as <-. unfold task_step. rewrite Hp.
    cbn [with_tasks cf_channel cf_state cf_tasks]. rewrite (proj2 (same_task_begin _ _ _)).
    pose proof (weight_at c i t Ht) as Hw. assert (task_weight t = 3%nat) as Ht3 by (unfold task_weight; by rewrite Hp).
    rewrite Hw, !sum_list_with_app. cbn [sum_list_with]. change (task_weight (at_phase t Working)) with 2%nat. lia.
  - cbn [move] in Hb. destruct (cf_tasks c !! i) as [t|] eqn:Ht; [|done]. cbn [mbind option_bind] in Hb. destruct (tk_phase t), (tk_kind t); try done.
    injection Hb as <-. unfold task_takes_steps. pose proof (parked_steps (al_inbox (cf_state c)) (tk_key t)) as Hw.
    destruct (claim_next_step _ _) as [ib ms]. apply Permutation_length in Hw. rewrite length_app, !length_fmap in Hw.
    cbn [done_with cf_channel cf_state cf_tasks al_inbox with_inbox]. lia.
  - destruct (cf_tasks c !! i) as [t|] eqn:Ht; [|done]. cbn [mbind option_bind] in Hb. destruct (tk_phase t) eqn:Hp; try done. injection Hb as <-.
    unfold block_end. set (st1 := task_cleanup (task_result env (cf_state c) t answer) t). set (st2 := fst (release_session st1 (tk_key t))).
    assert (al_inbox st2 = al_inbox (cf_state c)) as Hi2.
    { unfold st2. transitivity (al_inbox st1); [unfold release_session; by repeat case_match|]. unfold st1.
      rewrite (proj2 (same_task_cleanup _ _)). apply same_task_result. }
    pose proof (parked_drain st2 (tk_key t)) as Hd. destruct (drain_next_turn_queue env st2 (tk_key t)) as [st3 head]. rewrite Hi2 in Hd.
    assert (sum_list_with task_weight (cf_tasks c) = 2 + sum_list_with task_weight (take i (cf_tasks c) ++ drop (S i) (cf_tasks c)))%nat as ->.
    { rewrite (weight_at c i t Ht), sum_list_with_app. assert (task_weight t = 2%nat) as -> by (unfold task_weight; by rewrite Hp). lia. }
    destruct head as [m|]; [destruct (_ <? _)%nat|]; cbn [with_channel with_fates done_with with_tasks cf_channel cf_state cf_tasks];
      rewrite (proj2 (same_task_finish _ _ _)); rewrite ?length_app; simpl; lia.
  - cbn [move] in Hb. injection Hb as <-. cbn [with_tasks cf_channel cf_state cf_tasks].
    assert (al_inbox (fst (cancel_session (cf_state c) key)) = al_inbox (cf_state c)) as -> by (unfold cancel_session; by case_match). lia.
Qed.

Lemma weight_blocks bs : ∀ c c', blocks env c bs = Some c' →
  (length (List.filter productive bs) + weight c' ≤ weight c + 4 * length (block_arrivals bs))%nat.
Proof.
  induction bs as [|b bs IH]; intros c c' Hb; [simplify_eq/=; lia|]. cbn [blocks] in Hb. destruct (block env c b) as [c1|] eqn:E; [|done].
  pose proof (weight_block c b c1 E) as Hw. specialize (IH c1 c' Hb). rewrite block_arrivals_cons, length_app. cbn [List.filter].
  destruct (productive b); cbn [length]; lia.
Qed.

Lemma waiting_none ib : (∀ key, waiting ib key = []) → parked ib = [].
Proof.
  intros Hw. unfold parked. assert (∀ kq, kq ∈ map_to_list (ib_queues ib) → qm_msg <$> (sq_next_turn kq.2 ++ sq_next_step kq.2) = []) as H.
  { intros [k q] Hin%elem_of_map_to_list. specialize (Hw k). unfold waiting in Hw. rewrite (queues_some _ _ _ Hin) in Hw. simpl. by rewrite Hw. }
  induction (map_to_list (ib_queues ib)) as [|kq l IH]; [done|]. rewrite bind_cons, H by left. apply IH. intros kq' Hin. apply H. by right.
Qed.

(** C12: the work on messages ends: however long a run on one thread is, each message that has
    arrived accounts for at most four of its steps of work, so a queue that is put back on the
    channel does not go round for ever. *)
Theorem work_is_bounded st bs c : fresh st → blocks env (initial st) bs = Some c →
  (length (List.filter productive bs) ≤ 4 * length (block_arrivals bs))%nat.
Proof.
  intros [_ Hq] Hb. pose proof (weight_blocks bs _ _ Hb) as Hw. unfold weight at 2, initial, parked in Hw. cbn in Hw.
  rewrite Hq, map_to_list_empty in Hw. cbn in Hw. lia.
Qed.

(** C11: on one thread, if all the messages that arrive are ordinary and the channel is never
    full, then when no step of work is left every one of them has had its turn or answer:
    nothing is left in a queue, nothing went with one, and every session is free.  A command
    among them can break this ([command_breaks_the_drain]). *)
Theorem rest_means_served st bs c :
  fresh st → Forall ordinary (block_arrivals bs) → blocks env (initial st) bs = Some c →
  (∀ b, productive b = true → block env c b = None) → cf_refused c = [] →
  idents (block_arrivals bs) ≡ₚ idents (cf_done c) ∧ (∀ key, is_session_busy (cf_state c) key = false ∧ waiting (al_inbox (cf_state c)) key = []).
Proof.
  intros Hf Ho Hb Hstop Href. pose proof (settled_blocks bs _ _ (excl_initial _ Hf) Ho (settled_initial st Hf) Hb) as Hs.
  destruct (blocks_refine_moves bs (initial st) c eq_refl Hb) as ((mvs & Hm & Ha) & Hpump & Hclr).
  assert (cf_channel c = []) as Hch.
  { pose proof (Hstop BTake eq_refl) as H. cbn [block] in H. unfold block_take in H. rewrite Hpump in H. destruct (cf_channel c); [done|].
    by destruct (gate_front env (cf_state (with_channel c l)) _) as [? []]. }
  assert (cf_tasks c = []) as Ht.
  { destruct (cf_tasks c) as [|t l] eqn:E; [done|exfalso]. pose proof (se_tasks _ Hs) as Hp. rewrite E in Hp. apply Forall_cons in Hp as [[Hp|Hp] _].
    - pose proof (Hstop (BBegin 0) eq_refl) as H. cbn [block] in H. rewrite E in H. cbn in H. rewrite Hp in H. cbn [move] in H. by rewrite E in H.
    - pose proof (Hstop (BEnd 0 ([], None)) eq_refl) as H. cbn [block] in H. rewrite E in H. cbn in H. by rewrite Hp in H. }
  assert (∀ key, waiting (al_inbox (cf_state c)) key = []) as Hw.
  { intros key. destruct (decide (waiting (al_inbox (cf_state c)) key = [])) as [|Hne]; [done|exfalso].
    destruct (se_reason _ Hs key Hne) as [H|[(t & H & _)|(m & H & _)]]; [done|rewrite Ht in H; set_solver|rewrite Hch in H; set_solver]. }
  split.
  - rewrite <-Ha. pose proof (conserve_moves env mvs _ _ Hm) as Hc.
    assert (everywhere (initial st) = []) as E0.
    { unfold everywhere, in_pump. cbn [initial cf_state cf_channel cf_pump cf_tasks cf_done cf_refused cf_cleared].
      rewrite waiting_none; [done|]. intros key. unfold waiting, queues_of. by rewrite (proj2 Hf), lookup_empty. }
    assert (everywhere c = cf_done c) as E1.
    { unfold everywhere, in_pump. rewrite Hch, Hpump, Ht, Href, Hclr, (waiting_none _ Hw). simpl. by rewrite !app_nil_r. }
    rewrite E0, E1, app_nil_r in Hc. by symmetry.
  - intros key. split; [|done]. destruct (excl_moves env _ _ _ Hm (excl_initial _ Hf) key) as [Hh _]. rewrite Ht in Hh.
    by destruct (is_session_busy (cf_state c) key).
Qed.
End Routes.
End Rest.

(** ** Runs *)

#[local] Instance demo_texts : TemplateTexts := {| template_text := λ _, [] |}.
#[local] Instance demo_unicode : Unicode := ascii_unicode.
#[local] Instance demo_lowering : Lowering := ascii_lowering.

Definition run_blocks (mode : ConcurrentMode) (bs : list Block) : Config :=
  default (initial demo_loop) (blocks (demo_loop_env mode) (initial demo_loop) bs).

(** Two messages, the second while the turn of the first runs; it has its turn after that. *)
Definition demo_blocks : list Block :=
  [BArrive (demo_inbound "1" "a"); BTake; BBegin 0; BArrive (demo_inbound "2" "b"); BTake; BEnd 0 no_answer;
   BTake; BBegin 0; BEnd 0 no_answer].

Lemma demo_blocks_run : blocks (demo_loop_env ModeQueue) (initial demo_loop) demo_blocks = Some (run_blocks ModeQueue demo_blocks).
Proof. vm_compute. reflexivity. Qed.

Lemma work_is_bounded_witness : (length (List.filter productive demo_blocks) ≤ 4 * length (block_arrivals demo_blocks))%nat.
Proof. apply (work_is_bounded (demo_loop_env ModeQueue) demo_loop demo_blocks _ demo_fresh demo_blocks_run). Defined.

Lemma demo_blocks_at_rest b : productive b = true → block (demo_loop_env ModeQueue) (run_blocks ModeQueue demo_blocks) b = None.
Proof. by destruct b. Qed.

Lemma demo_blocks_ordinary : Forall ordinary (block_arrivals demo_blocks).
Proof. repeat constructor; vm_compute; done. Qed.

Lemma rest_means_served_witness :
  ident <$> block_arrivals demo_blocks ≡ₚ ident <$> cf_done (run_blocks ModeQueue demo_blocks) ∧
  (∀ key, is_session_busy (cf_state (run_blocks ModeQueue demo_blocks)) key = false ∧
          waiting (al_inbox (cf_state (run_blocks ModeQueue demo_blocks))) key = []).
Proof.
  apply (rest_means_served (demo_loop_env ModeQueue) demo_loop demo_blocks _ demo_fresh demo_blocks_ordinary demo_blocks_run demo_blocks_at_rest).
  vm_compute. reflexivity.
Defined.

(** A turn is at work on [a], then [rest]. *)
Definition while_at_work (rest : list Block) : list Block := BArrive (demo_inbound "1" "a") :: BTake :: BBegin 0 :: rest.
Definition comes (content : string) : list Block := [BArrive (demo_inbound "2" content); BTake].

Definition user_rows (c : Config) : list str :=
  omap (λ e, match e with EvRow _ _ content _ _ _ _ => Some content | _ => None end) (al_events (cf_state c)).

(** Observed: the marker of a message that waited for the next call and did not get there goes
    twice, once when the queues are joined and once when the message is admitted. *)
Theorem marker_stripped_twice :
  user_rows (run_blocks ModeSteer (while_at_work (comes "!!x" ++ [BEnd 0 no_answer; BTake; BBegin 0]))) = [lit "a"; lit "x"] ∧
  strip_steer_marker (lit "!!x") = lit "!x".
Proof. vm_compute. by split. Qed.

(** Observed: a command among the queued messages is answered at once and starts no turn, so
    nothing takes what is behind it in the queue. *)
Theorem command_breaks_the_drain :
  let c := run_blocks ModeSteer (while_at_work (comes "!/show model" ++ comes "!c" ++ [BEnd 0 no_answer; BTake])) in
  cf_tasks c = [] ∧ cf_channel c = [] ∧ is_session_busy (cf_state c) demo_key = false ∧
  qm_content <$> waiting (al_inbox (cf_state c)) demo_key = [lit "c"].
Proof. vm_compute. repeat split. Qed.

(** Observed: a queued message goes back behind what is already on the channel, so a newer
    message of the same session has its turn first. *)
Theorem queued_message_overtaken :
  let c := run_blocks ModeQueue (while_at_work (comes "b" ++ [BArrive (demo_inbound "3" "c"); BEnd 0 no_answer; BTake; BBegin 0; BTake])) in
  user_rows c = [lit "a"; lit "c"] ∧ qm_content <$> waiting (al_inbox (cf_state c)) demo_key = [lit "b"].
Proof. vm_compute. by split. Qed.
