(* ===== verification/Quota.v ===== *)
(** * Discussion quota of the board

    [nemesis-board/src/quota.rs]: per-minute rate limit and hourly budget of a
    node, turn quota of a thread.  One mutex guards the two maps for a whole
    operation; the configuration is read anew by every operation, so it is an
    argument.  Times are the caller's [i64] seconds; [len() as u32] truncates. *)
From S2P Require Import Prelude RustStr Window.
From Stdlib Require Import Sorted.
Local Open Scope Z_scope.

(** ** State *)

(** Zero switches a gate off. *)
Record QuotaConfig := mkQuota {
  qc_max_agent_turns_per_thread : Z;
  qc_hourly_budget_per_node : Z;
  qc_rate_limit_per_min : Z;
}.

Definition quota_config_default : QuotaConfig := mkQuota 8 20 12.

Inductive QuotaDenied := ThreadQuotaExhausted | HourlyBudgetExhausted | RateLimited.

Definition quota_message (d : QuotaDenied) : str :=
  match d with
  | ThreadQuotaExhausted => lit "thread agent-turn quota exhausted (discuss on the board, not in this thread)"
  | HourlyBudgetExhausted => lit "hourly discussion budget exhausted for this node"
  | RateLimited => lit "rate limited: too many messages per minute"
  end.

Definition error_code (d : QuotaDenied) : str :=
  match d with
  | ThreadQuotaExhausted | HourlyBudgetExhausted => lit "quota_exhausted"
  | RateLimited => lit "rate_limited"
  end.

Record NodeWindow := mkNode { nw_minute : list Z; nw_hour : list Z }.

Definition node_empty : NodeWindow := mkNode [] [].

(** A [ThreadLedger] is its counter. *)
Record LedgerInner := mkInner { li_nodes : gmap str NodeWindow; li_threads : gmap str Z }.

Definition ledger_new : LedgerInner := mkInner ∅ ∅.

Definition u32_max : Z := 2 ^ 32 - 1.
Definition len_u32 (l : list Z) : Z := Z.of_nat (length l) mod 2 ^ 32.
Definition saturating_sub (a b : Z) : Z := Z.max 0 (a - b).

Definition node_of (st : LedgerInner) (node : str) : NodeWindow := default node_empty (li_nodes st !! node).
Definition used_of (st : LedgerInner) (thread : str) : Z := default 0 (li_threads st !! thread).

Definition set_node (st : LedgerInner) (node : str) (w : NodeWindow) : LedgerInner :=
  mkInner (<[node := w]> (li_nodes st)) (li_threads st).
Definition set_used (st : LedgerInner) (thread : str) (n : Z) : LedgerInner :=
  mkInner (li_nodes st) (<[thread := n]> (li_threads st)).

(** ** Operations *)

Definition turns_left (cfg : QuotaConfig) (thread : str) (st : LedgerInner) : Z :=
  if bool_decide (qc_max_agent_turns_per_thread cfg = 0) then u32_max
  else saturating_sub (qc_max_agent_turns_per_thread cfg) (used_of st thread).

(** The three gates, each with what it does to the ledger. *)
Definition gate_minute (cfg : QuotaConfig) (node : str) (now : Z) (st : LedgerInner) : LedgerInner * bool :=
  if 0 <? qc_rate_limit_per_min cfg then
    let w := node_of st node in
    let minute := recent 60 now (nw_minute w) in
    (set_node st node (mkNode minute (nw_hour w)), len_u32 minute <? qc_rate_limit_per_min cfg)
  else (st, true).

Definition gate_hour (cfg : QuotaConfig) (node : str) (now : Z) (st : LedgerInner) : LedgerInner * bool :=
  if 0 <? qc_hourly_budget_per_node cfg then
    let w := node_of st node in
    let hour := recent 3600 now (nw_hour w) in
    (set_node st node (mkNode (nw_minute w) hour), len_u32 hour <? qc_hourly_budget_per_node cfg)
  else (st, true).

Definition gate_thread (cfg : QuotaConfig) (thread : str) (st : LedgerInner) : LedgerInner * bool :=
  if 0 <? qc_max_agent_turns_per_thread cfg then
    (set_used st thread (used_of st thread), used_of st thread <? qc_max_agent_turns_per_thread cfg)
  else (st, true).

Definition try_consume_post (cfg : QuotaConfig) (thread node : str) (now : Z) (st : LedgerInner)
    : LedgerInner * result Z QuotaDenied :=
  let '(st, pass) := gate_minute cfg node now st in
  if negb pass then (st, Err RateLimited)
  else
    let '(st, pass) := gate_hour cfg node now st in
    if negb pass then (st, Err HourlyBudgetExhausted)
    else
      let '(st, pass) := gate_thread cfg thread st in
      if negb pass then (st, Err ThreadQuotaExhausted)
      else
        let w := node_of st node in
        let st := set_node st node (mkNode (nw_minute w ++ [now]) (nw_hour w ++ [now])) in
        let st := if 0 <? qc_max_agent_turns_per_thread cfg then set_used st thread (used_of st thread + 1) else st in
        (st, Ok (turns_left cfg thread st)).

Definition can_post (cfg : QuotaConfig) (node : str) (now : Z) (st : LedgerInner) : result unit QuotaDenied :=
  match li_nodes st !! node with
  | None => Ok tt
  | Some w =>
      if (0 <? qc_rate_limit_per_min cfg)
         && (qc_rate_limit_per_min cfg <=? len_u32 (recent 60 now (nw_minute w))) then Err RateLimited
      else if (0 <? qc_hourly_budget_per_node cfg)
              && (qc_hourly_budget_per_node cfg <=? len_u32 (recent 3600 now (nw_hour w))) then Err HourlyBudgetExhausted
      else Ok tt
  end.

(** ** Runs *)

Inductive QuotaOp :=
| Consume (thread node : str) (now : Z)
| Ask (node : str) (now : Z)
| Left (thread : str).

(** The answers of the three operations. *)
Inductive QuotaAnswer :=
| Consumed (r : result Z QuotaDenied)
| Asked (r : result unit QuotaDenied)
| LeftIs (n : Z).

Definition quota_step (cfg : QuotaConfig) (st : LedgerInner) (o : QuotaOp) : LedgerInner * QuotaAnswer :=
  match o with
  | Consume thread node now => let '(st, r) := try_consume_post cfg thread node now st in (st, Consumed r)
  | Ask node now => (st, Asked (can_post cfg node now st))
  | Left thread => (st, LeftIs (turns_left cfg thread st))
  end.

(** Every operation sees the configuration of its moment. *)
Fixpoint quota_answers (st : LedgerInner) (ops : list (QuotaConfig * QuotaOp)) : list QuotaAnswer :=
  match ops with
  | [] => []
  | (cfg, o) :: ops => let '(st', a) := quota_step cfg st o in a :: quota_answers st' ops
  end.

(** The accepted post of a step, and of a run: thread, node and time. *)
Definition accepted_by (o : QuotaOp) (a : QuotaAnswer) : list (str * str * Z) :=
  match o, a with Consume thread node now, Consumed (Ok _) => [(thread, node, now)] | _, _ => [] end.

Fixpoint accepted (cfg : QuotaConfig) (st : LedgerInner) (ops : list QuotaOp) : list (str * str * Z) :=
  match ops with
  | [] => []
  | o :: ops => let '(st', a) := quota_step cfg st o in accepted_by o a ++ accepted cfg st' ops
  end.


Definition posts_of_node (node : str) (l : list (str * str * Z)) : list Z :=
  (λ p, snd p) <$> filter (λ p, snd (fst p) = node) l.
Definition posts_in_thread (thread : str) (l : list (str * str * Z)) : list (str * str * Z) :=
  filter (λ p, fst (fst p) = thread) l.

(** ** Ledgers that answer alike *)

(** From [now] on, the two ledgers count the same posts. *)
Record same_from (now : Z) (st st' : LedgerInner) : Prop := mkSame {
  same_minute : ∀ node later, now ≤ later →
    recent 60 later (nw_minute (node_of st node)) = recent 60 later (nw_minute (node_of st' node));
  same_hour : ∀ node later, now ≤ later →
    recent 3600 later (nw_hour (node_of st node)) = recent 3600 later (nw_hour (node_of st' node));
  same_used : ∀ thread, used_of st thread = used_of st' thread;
}.

#[global] Instance same_from_equivalence now : Equivalence (same_from now).
Proof.
  split.
  - intros st. by split.
  - intros st st' [H1 H2 H3]. split; intros; symmetry; auto.
  - intros st1 st2 st3 [H1 H2 H3] [K1 K2 K3]. split; intros; [rewrite H1|rewrite H2|rewrite H3]; auto.
Qed.

Lemma same_from_later now later st st' : now ≤ later → same_from now st st' → same_from later st st'.
Proof. intros Hl [H1 H2 H3]. split; intros; [apply H1|apply H2|apply H3]; lia. Qed.

Lemma node_of_set st node w node' : node_of (set_node st node w) node' = if decide (node = node') then w else node_of st node'.
Proof.
  unfold node_of, set_node. cbn. destruct (decide (node = node')) as [->|H];
    [by rewrite lookup_insert_eq|by rewrite lookup_insert_ne].
Qed.

Lemma used_of_set st thread n thread' : used_of (set_used st thread n) thread' = if decide (thread = thread') then n else used_of st thread'.
Proof.
  unfold used_of, set_used. cbn. destruct (decide (thread = thread')) as [->|H];
    [by rewrite lookup_insert_eq|by rewrite lookup_insert_ne].
Qed.

(** A gate only prunes. *)
Lemma gate_minute_same cfg node now st : same_from now st (fst (gate_minute cfg node now st)).
Proof.
  unfold gate_minute. destruct (0 <? _); [|done]. cbn [fst].
  split; intros; rewrite ?node_of_set; try done; destruct (decide _) as [->|]; try done.
  symmetry. by apply recent_recent.
Qed.

Lemma gate_hour_same cfg node now st : same_from now st (fst (gate_hour cfg node now st)).
Proof.
  unfold gate_hour. destruct (0 <? _); [|done]. cbn [fst].
  split; intros; rewrite ?node_of_set; try done; destruct (decide _) as [->|]; try done.
  symmetry. by apply recent_recent.
Qed.

Lemma gate_thread_same cfg thread now st : same_from now st (fst (gate_thread cfg thread st)).
Proof.
  unfold gate_thread. destruct (0 <? _); [|done]. cbn [fst].
  split; intros; rewrite ?used_of_set; try done. by destruct (decide _) as [->|].
Qed.

(** What the gates decide, on the ledger as it was. *)
Definition minute_free (cfg : QuotaConfig) (node : str) (now : Z) (st : LedgerInner) : bool :=
  negb (0 <? qc_rate_limit_per_min cfg) || (len_u32 (recent 60 now (nw_minute (node_of st node))) <? qc_rate_limit_per_min cfg).
Definition hour_free (cfg : QuotaConfig) (node : str) (now : Z) (st : LedgerInner) : bool :=
  negb (0 <? qc_hourly_budget_per_node cfg) || (len_u32 (recent 3600 now (nw_hour (node_of st node))) <? qc_hourly_budget_per_node cfg).
Definition turn_free (cfg : QuotaConfig) (thread : str) (st : LedgerInner) : bool :=
  negb (0 <? qc_max_agent_turns_per_thread cfg) || (used_of st thread <? qc_max_agent_turns_per_thread cfg).

(** The record of an accepted post. *)
Definition consumed (cfg : QuotaConfig) (thread node : str) (now : Z) (st : LedgerInner) : LedgerInner :=
  let w := node_of st node in
  let st := set_node st node (mkNode (nw_minute w ++ [now]) (nw_hour w ++ [now])) in
  if 0 <? qc_max_agent_turns_per_thread cfg then set_used st thread (used_of st thread + 1) else st.

Lemma consumed_same cfg thread node now st st' :
  same_from now st st' → same_from now (consumed cfg thread node now st) (consumed cfg thread node now st').
Proof.
  intros [H1 H2 H3]. unfold consumed.
  assert (∀ st st' : LedgerInner, same_from now st st' →
    same_from now (if 0 <? qc_max_agent_turns_per_thread cfg then set_used st thread (used_of st thread + 1) else st)
                  (if 0 <? qc_max_agent_turns_per_thread cfg then set_used st' thread (used_of st' thread + 1) else st')) as Ht.
  { intros s s' [K1 K2 K3]. destruct (0 <? _); [|done]. split; intros; [by apply K1|by apply K2|].
    rewrite !used_of_set, !K3. done. }
  apply Ht. split; intros; rewrite ?node_of_set; [| |apply H3]; destruct (decide _) as [->|]; auto; cbn [nw_minute nw_hour];
    rewrite !recent_app; f_equal; auto.
Qed.

Lemma try_consume_spec cfg thread node now st :
  let '(st', r) := try_consume_post cfg thread node now st in
  if minute_free cfg node now st && hour_free cfg node now st && turn_free cfg thread st then
    same_from now (consumed cfg thread node now st) st' ∧ r = Ok (turns_left cfg thread (consumed cfg thread node now st))
  else
    same_from now st st' ∧
    r = Err (if negb (minute_free cfg node now st) then RateLimited
             else if negb (hour_free cfg node now st) then HourlyBudgetExhausted else ThreadQuotaExhausted).
Proof.
  unfold try_consume_post.
  pose proof (gate_minute_same cfg node now st) as S1.
  assert (snd (gate_minute cfg node now st) = minute_free cfg node now st) as P1.
  { unfold gate_minute, minute_free. by destruct (0 <? _). }
  destruct (gate_minute cfg node now st) as [st1 p1]. cbn in S1, P1. subst p1.
  destruct (minute_free cfg node now st); cbn [andb negb]; [|done].
  pose proof (gate_hour_same cfg node now st1) as S2.
  assert (snd (gate_hour cfg node now st1) = hour_free cfg node now st) as P2.
  { unfold gate_hour, hour_free. rewrite (same_hour _ _ _ S1) by lia. by destruct (0 <? _). }
  destruct (gate_hour cfg node now st1) as [st2 p2]. cbn in S2, P2. subst p2.
  assert (same_from now st st2) as S12 by (by etransitivity).
  destruct (hour_free cfg node now st); cbn [andb negb]; [|done].
  pose proof (gate_thread_same cfg thread now st2) as S3.
  assert (snd (gate_thread cfg thread st2) = turn_free cfg thread st) as P3.
  { unfold gate_thread, turn_free. rewrite (same_used _ _ _ S12). by destruct (0 <? _). }
  destruct (gate_thread cfg thread st2) as [st3 p3]. cbn in S3, P3. subst p3.
  assert (same_from now st st3) as S13 by (by etransitivity).
  destruct (turn_free cfg thread st); cbn [andb negb]; [|done].
  fold (consumed cfg thread node now st3). pose proof (consumed_same cfg thread node now st st3 S13) as Hc.
  split; [done|]. unfold turns_left. by rewrite (same_used _ _ _ Hc).
Qed.

Lemma free_same cfg thread node now st st' : same_from now st st' →
  minute_free cfg node now st = minute_free cfg node now st' ∧
  hour_free cfg node now st = hour_free cfg node now st' ∧
  turn_free cfg thread st = turn_free cfg thread st'.
Proof.
  intros [H1 H2 H3]. unfold minute_free, hour_free, turn_free. rewrite H1, H2, H3 by lia. done.
Qed.

(** The forecast and the consumption read the same windows. *)
Lemma can_post_spec cfg node now st : 0 ≤ qc_rate_limit_per_min cfg → 0 ≤ qc_hourly_budget_per_node cfg →
  can_post cfg node now st =
    if negb (minute_free cfg node now st) then Err RateLimited
    else if negb (hour_free cfg node now st) then Err HourlyBudgetExhausted else Ok tt.
Proof.
  intros Hr Hh. unfold can_post, minute_free, hour_free, node_of.
  destruct (li_nodes st !! node) as [w|].
  - change (default node_empty (Some w)) with w. by rewrite !negb_orb, !negb_involutive, !Z.leb_antisym.
  - change (len_u32 (recent 60 now (nw_minute (default node_empty None)))) with 0.
    change (len_u32 (recent 3600 now (nw_hour (default node_empty None)))) with 0.
    by destruct (0 <? qc_rate_limit_per_min cfg), (0 <? qc_hourly_budget_per_node cfg).
Qed.

Definition config_ok (cfg : QuotaConfig) : Prop :=
  0 ≤ qc_max_agent_turns_per_thread cfg ≤ u32_max ∧ 0 ≤ qc_hourly_budget_per_node cfg ≤ u32_max ∧
  0 ≤ qc_rate_limit_per_min cfg ≤ u32_max.

(** The time a ledger is at after a step. *)
Definition step_now (now : Z) (o : QuotaOp) : Z := match o with Consume _ _ n | Ask _ n => n | Left _ => now end.

Lemma quota_step_same cfg now st st' o : config_ok cfg → same_from now st st' → now ≤ step_now now o →
  snd (quota_step cfg st o) = snd (quota_step cfg st' o) ∧
  same_from (step_now now o) (fst (quota_step cfg st o)) (fst (quota_step cfg st' o)).
Proof.
  intros (Hm & Hh & Hr) Hs Hn. apply (same_from_later _ (step_now now o)) in Hs; [|done]. destruct o as [thread node n|node n|thread]; cbn in *.
  - destruct (free_same cfg thread node n st st' Hs) as (F1 & F2 & F3).
    pose proof (try_consume_spec cfg thread node n st) as H. pose proof (try_consume_spec cfg thread node n st') as H'.
    rewrite <- F1, <- F2, <- F3 in H'.
    destruct (try_consume_post cfg thread node n st) as [s1 r1], (try_consume_post cfg thread node n st') as [s2 r2]. cbn.
    destruct (minute_free cfg node n st && hour_free cfg node n st && turn_free cfg thread st).
    + destruct H as [H ->], H' as [H' ->]. pose proof (consumed_same cfg thread node n st st' Hs) as Hc.
      split; [do 2 f_equal; unfold turns_left; by rewrite (same_used _ _ _ Hc)|]. rewrite <- H, <- H'. done.
    + destruct H as [H ->], H' as [H' ->]. split; [done|]. rewrite <- H, <- H'. done.
  - split; [|done]. f_equal. rewrite !can_post_spec by lia.
    destruct (free_same cfg [] node n st st' Hs) as (F1 & F2 & _). by rewrite F1, F2.
  - split; [|done]. f_equal. unfold turns_left. by rewrite (same_used _ _ _ Hs).
Qed.

(** The clock of the callers does not go back. *)
Fixpoint clock_ok (now : Z) (ops : list QuotaOp) : Prop :=
  match ops with [] => True | o :: ops => now ≤ step_now now o ∧ clock_ok (step_now now o) ops end.

Lemma quota_answers_same ops : ∀ now st st', Forall (λ p, config_ok (fst p)) ops → clock_ok now (snd <$> ops) → same_from now st st' →
  quota_answers st ops = quota_answers st' ops.
Proof.
  induction ops as [|[cfg o] ops IH]; intros now st st' Hcfg Hclk Hs; [done|]. cbn in Hclk. destruct Hclk as [Hn Hclk].
  apply Forall_cons in Hcfg as [Hc Hcfg]. destruct (quota_step_same cfg now st st' o Hc Hs Hn) as [Ha Hst]. cbn.
  destruct (quota_step cfg st o) as [s1 a1], (quota_step cfg st' o) as [s2 a2]. cbn in Ha, Hst. subst a2. f_equal.
  by eapply IH.
Qed.

(** ** Properties *)

(** Also: a denied post leaves no trace: from then on every operation, under any
    configurations, answers as if it had not been tried. *)
Theorem denial_is_invisible cfg thread node now st st' d ops :
  try_consume_post cfg thread node now st = (st', Err d) →
  Forall (λ p, config_ok (fst p)) ops → clock_ok now (snd <$> ops) →
  quota_answers st' ops = quota_answers st ops.
Proof.
  intros E Hcfg Hclk. symmetry. eapply quota_answers_same; [done|done|].
  pose proof (try_consume_spec cfg thread node now st) as H. rewrite E in H.
  destruct (_ && _); by destruct H.
Qed.

(** The ledger counts the accepted posts. *)
Record counts (cfg : QuotaConfig) (now : Z) (st : LedgerInner) (past : list (str * str * Z)) : Prop := mkCounts {
  ct_minute : ∀ node later, now ≤ later →
    recent 60 later (nw_minute (node_of st node)) = recent 60 later (posts_of_node node past);
  ct_hour : ∀ node later, now ≤ later →
    recent 3600 later (nw_hour (node_of st node)) = recent 3600 later (posts_of_node node past);
  ct_used : 0 < qc_max_agent_turns_per_thread cfg →
    ∀ thread, used_of st thread = Z.of_nat (length (posts_in_thread thread past));
  ct_past : Forall (λ p, snd p ≤ now) past;
  ct_minute_max : 0 < qc_rate_limit_per_min cfg →
    ∀ node, spaced 60 (Z.to_nat (qc_rate_limit_per_min cfg)) (posts_of_node node past);
  ct_hour_max : 0 < qc_hourly_budget_per_node cfg →
    ∀ node, spaced 3600 (Z.to_nat (qc_hourly_budget_per_node cfg)) (posts_of_node node past);
  ct_turns_max : 0 < qc_max_agent_turns_per_thread cfg →
    ∀ thread, Z.of_nat (length (posts_in_thread thread past)) ≤ qc_max_agent_turns_per_thread cfg;
}.

Lemma posts_of_node_snoc node past thread n t :
  posts_of_node node (past ++ [(thread, n, t)]) = posts_of_node node past ++ (if decide (n = node) then [t] else []).
Proof.
  unfold posts_of_node. rewrite filter_app, fmap_app, filter_cons, filter_nil. cbn. by destruct (decide (n = node)).
Qed.

Lemma posts_in_thread_snoc thread past th n t :
  length (posts_in_thread thread (past ++ [(th, n, t)])) =
  (length (posts_in_thread thread past) + if decide (th = thread) then 1 else 0)%nat.
Proof.
  unfold posts_in_thread. rewrite filter_app, length_app, filter_cons, filter_nil. cbn. by destruct (decide (th = thread)).
Qed.

Lemma posts_of_node_past now node past : Forall (λ p, snd p ≤ now) past → Forall (λ t, t ≤ now) (posts_of_node node past).
Proof.
  intros H. apply Forall_fmap, Forall_forall. intros p [_ Hp]%list_elem_of_filter. rewrite Forall_forall in H. by apply H.
Qed.

(** Below the maximum the truncated length is the length. *)
Lemma len_u32_spaced w max now l : 0 ≤ max ≤ u32_max → spaced w (Z.to_nat max) l → Forall (λ t, t ≤ now) l →
  len_u32 (recent w now l) = Z.of_nat (length (recent w now l)).
Proof.
  intros Hmax Hs Hl. unfold len_u32. apply Z.mod_small. split; [lia|].
  rewrite recent_window by done. pose proof (spaced_window w (Z.to_nat max) l (now - w + 1) Hs) as H.
  unfold u32_max in Hmax. lia.
Qed.

Lemma counts_same cfg now st st' past : same_from now st st' → counts cfg now st past → counts cfg now st' past.
Proof.
  intros [H1 H2 H3] [C1 C2 C3 C4 C5 C6 C7]. split; try done.
  - intros node later Hl. rewrite <- H1 by done. auto.
  - intros node later Hl. rewrite <- H2 by done. auto.
  - intros Hp thread. rewrite <- H3. auto.
Qed.

Lemma counts_later cfg now later st past : now ≤ later → counts cfg now st past → counts cfg later st past.
Proof.
  intros Hl [C1 C2 C3 C4 C5 C6 C7]. split; try done.
  - intros node t Ht. apply C1. lia.
  - intros node t Ht. apply C2. lia.
  - eapply Forall_impl; [exact C4|]. cbn. lia.
Qed.

Lemma counts_consumed cfg thread node now st past : config_ok cfg → counts cfg now st past →
  minute_free cfg node now st && hour_free cfg node now st && turn_free cfg thread st = true →
  counts cfg now (consumed cfg thread node now st) (past ++ [(thread, node, now)]).
Proof.
  intros (Hm & Hh & Hr) [C1 C2 C3 C4 C5 C6 C7] Hf. apply andb_true_iff in Hf as [Hf F3]. apply andb_true_iff in Hf as [F1 F2].
  assert (∀ node', node_of (consumed cfg thread node now st) node' =
    if decide (node = node') then mkNode (nw_minute (node_of st node) ++ [now]) (nw_hour (node_of st node) ++ [now]) else node_of st node') as Hnode.
  { intros node'. unfold consumed. destruct (0 <? _); cbn [set_used]; rewrite <- node_of_set; done. }
  split.
  - intros node' later Hl. rewrite Hnode, posts_of_node_snoc. destruct (decide (node = node')) as [->|];
      [|rewrite app_nil_r; auto]. cbn [nw_minute]. rewrite !recent_app, C1; done.
  - intros node' later Hl. rewrite Hnode, posts_of_node_snoc. destruct (decide (node = node')) as [->|];
      [|rewrite app_nil_r; auto]. cbn [nw_hour]. rewrite !recent_app, C2; done.
  - intros Hp thread'. rewrite posts_in_thread_snoc. unfold consumed. destruct (Z.ltb_spec 0 (qc_max_agent_turns_per_thread cfg)); [|lia].
    rewrite used_of_set. change (used_of (set_node st node ?w)) with (used_of st).
    destruct (decide (thread = thread')) as [->|]; rewrite (C3 Hp); lia.
  - apply Forall_app. split; [done|]. repeat constructor. cbn. lia.
  - intros Hp node'. rewrite posts_of_node_snoc. destruct (decide (node = node')) as [->|]; [|rewrite app_nil_r; auto].
    apply spaced_snoc; [auto|]. unfold minute_free in F1. rewrite C1 in F1 by lia.
    rewrite (len_u32_spaced 60 (qc_rate_limit_per_min cfg)) in F1; [|done|auto|by apply posts_of_node_past].
    replace (0 <? qc_rate_limit_per_min cfg) with true in F1 by lia. cbn [negb orb] in F1. lia.
  - intros Hp node'. rewrite posts_of_node_snoc. destruct (decide (node = node')) as [->|]; [|rewrite app_nil_r; auto].
    apply spaced_snoc; [auto|]. unfold hour_free in F2. rewrite C2 in F2 by lia.
    rewrite (len_u32_spaced 3600 (qc_hourly_budget_per_node cfg)) in F2; [|done|auto|by apply posts_of_node_past].
    replace (0 <? qc_hourly_budget_per_node cfg) with true in F2 by lia. cbn [negb orb] in F2. lia.
  - intros Hp thread'. rewrite posts_in_thread_snoc. destruct (decide (thread = thread')) as [->|]; [|rewrite Nat.add_0_r; auto].
    unfold turn_free in F3. rewrite (C3 Hp) in F3. replace (0 <? qc_max_agent_turns_per_thread cfg) with true in F3 by lia.
    cbn [negb orb] in F3. lia.
Qed.

Lemma quota_step_counts cfg now st past o : config_ok cfg → counts cfg now st past → now ≤ step_now now o →
  let '(st', a) := quota_step cfg st o in counts cfg (step_now now o) st' (past ++ accepted_by o a).
Proof.
  intros Hc Hct Hn. apply (counts_later _ _ _ _ _ Hn) in Hct. destruct o as [thread node n|node n|thread]; cbn in *.
  - pose proof (try_consume_spec cfg thread node n st) as H. pose proof (counts_consumed cfg thread node n st past Hc Hct) as K.
    destruct (try_consume_post cfg thread node n st) as [st' r].
    destruct (minute_free cfg node n st && hour_free cfg node n st && turn_free cfg thread st); destruct H as [H ->]; cbn.
    + eapply counts_same; [exact H|auto].
    + rewrite app_nil_r. by eapply counts_same.
  - by rewrite app_nil_r.
  - by rewrite app_nil_r.
Qed.

Lemma accepted_counts cfg ops : ∀ now st past, config_ok cfg → counts cfg now st past → clock_ok now ops →
  ∃ now' st', counts cfg now' st' (past ++ accepted cfg st ops).
Proof.
  induction ops as [|o ops IH]; intros now st past Hc Hct Hclk; cbn; [rewrite app_nil_r; eauto|].
  cbn in Hclk. destruct Hclk as [Hn Hclk]. pose proof (quota_step_counts cfg now st past o Hc Hct Hn) as H.
  destruct (quota_step cfg st o) as [st' a]. rewrite app_assoc. by eapply IH.
Qed.

(** Also: whatever is asked in whatever order, while the clock does not go back:
    at most [rate_limit_per_min] posts of a node are accepted in any 60 seconds,
    at most [hourly_budget_per_node] in any 3600 seconds, and at most
    [max_agent_turns_per_thread] posts ever in a thread. *)
Theorem quota_bounds cfg now ops :
  config_ok cfg → clock_ok now ops →
  let posts := accepted cfg ledger_new ops in
  (0 < qc_rate_limit_per_min cfg → ∀ node a,
     Z.of_nat (length (in_window 60 a (posts_of_node node posts))) ≤ qc_rate_limit_per_min cfg) ∧
  (0 < qc_hourly_budget_per_node cfg → ∀ node a,
     Z.of_nat (length (in_window 3600 a (posts_of_node node posts))) ≤ qc_hourly_budget_per_node cfg) ∧
  (0 < qc_max_agent_turns_per_thread cfg → ∀ thread,
     Z.of_nat (length (posts_in_thread thread posts)) ≤ qc_max_agent_turns_per_thread cfg).
Proof.
  intros Hc Hclk posts.
  destruct (accepted_counts cfg ops now ledger_new [] Hc) as (now' & st' & [C1 C2 C3 C4 C5 C6 C7]); [|done|].
  { split; try done; intros; cbn; try lia; try apply spaced_nil. }
  split; [|split].
  - intros Hp node a. pose proof (spaced_window _ _ _ a (C5 Hp node)) as H. fold posts in H. cbn [app] in H. lia.
  - intros Hp node a. pose proof (spaced_window _ _ _ a (C6 Hp node)) as H. fold posts in H. cbn [app] in H. lia.
  - intros Hp thread. apply (C7 Hp).
Qed.

(** Observed: with a gate switched off its window is filled by every accepted post and
    never pruned: the memory of a node grows with its posts, without bound. *)
Theorem disabled_window_grows n times node thread :
  length times = n →
  let cfg := mkQuota 0 0 0 in
  let st := foldl (λ st now, fst (try_consume_post cfg thread node now st)) ledger_new times in
  length (nw_minute (node_of st node)) = n ∧ length (nw_hour (node_of st node)) = n.
Proof.
  intros Hn cfg. assert (∀ st, let st' := foldl (λ st now, fst (try_consume_post cfg thread node now st)) st times in
    length (nw_minute (node_of st' node)) = (length (nw_minute (node_of st node)) + n)%nat ∧
    length (nw_hour (node_of st' node)) = (length (nw_hour (node_of st node)) + n)%nat) as H; [|apply (H ledger_new)].
  subst n. induction times as [|t times IH]; intros st; cbn [foldl length]; [by rewrite !Nat.add_0_r|].
  destruct (IH (fst (try_consume_post cfg thread node t st))) as [-> ->]. cbn -[node_of set_node].
  rewrite node_of_set. destruct (decide (node = node)); [|done]. cbn. rewrite !length_app. cbn. lia.
Qed.

(** ** Witnesses *)

Definition demo_posts : list QuotaOp :=
  [Consume (lit "t") (lit "n") 0; Consume (lit "t") (lit "n") 10; Consume (lit "u") (lit "n") 59;
   Consume (lit "t") (lit "n") 60; Ask (lit "n") 61; Consume (lit "t") (lit "m") 61].

Lemma quota_bounds_witness :
  accepted (mkQuota 3 20 2) ledger_new demo_posts =
    [(lit "t", lit "n", 0); (lit "t", lit "n", 10); (lit "t", lit "n", 60)] ∧
  Z.of_nat (length (in_window 60 0 (posts_of_node (lit "n") (accepted (mkQuota 3 20 2) ledger_new demo_posts)))) ≤ 2.
Proof.
  split; [by vm_compute|].
  refine (proj1 (quota_bounds (mkQuota 3 20 2) 0 demo_posts _ _) _ (lit "n") 0).
  - unfold config_ok, u32_max. cbn. lia.
  - cbn. lia.
  - cbn. lia.
Defined.

Lemma denial_is_invisible_witness :
  let st := fst (try_consume_post (mkQuota 3 20 1) (lit "t") (lit "n") 0 ledger_new) in
  let st' := fst (try_consume_post (mkQuota 3 20 1) (lit "t") (lit "n") 59 st) in
  quota_answers st' [(mkQuota 3 20 1, Consume (lit "t") (lit "n") 60)] =
  quota_answers st [(mkQuota 3 20 1, Consume (lit "t") (lit "n") 60)].
Proof.
  apply (denial_is_invisible (mkQuota 3 20 1) (lit "t") (lit "n") 59 _ _ RateLimited).
  - by vm_compute.
  - repeat constructor; unfold u32_max; cbn; lia.
  - cbn. lia.
Defined.
