(* ===== verification/FailStreak.v ===== *)
(** * Same-cause failure fuse of the board

    [nemesis-board/src/fail_streak.rs]: the signature of a failed review, the
    ledger of consecutive failures with one signature, its file and the two
    stops.  Every operation takes the process-wide lock, reads the file again
    and writes it back, so the reviews that run in parallel, each with its own
    [FailStreakLedger], are a sequence of operations on one file.

    The file is what parsing it gives ([None]: missing or unreadable); of an
    anchor result the raw text and the verdict count. *)
From stdpp Require Import sorting.
From S2P Require Import Prelude RustStr.
Local Open Scope Z_scope.

(** ** Signatures *)

Inductive ReviewVerdict := Pass | Fail_ | Unsure.

#[global] Instance ReviewVerdict_eq_dec : EqDecision ReviewVerdict.
Proof. solve_decision. Defined.

Definition verdict_as_str (v : ReviewVerdict) : str :=
  match v with Pass => lit "PASS" | Fail_ => lit "FAIL" | Unsure => lit "UNSURE" end.

Record AnchorResult := mkAnchorResult { an_raw : str; an_passed : bool }.

Definition failed_anchors (results : list AnchorResult) : list str :=
  an_raw <$> filter (λ r, an_passed r = false) results.

Definition failure_signature (results : list AnchorResult) (verdict : ReviewVerdict) : str :=
  let failed := failed_anchors results in
  let anchor_part := match failed with
                     | [] => lit "no-anchors"
                     | _ => join (lit "|") (merge_sort str_le failed)
                     end in
  (ascii_lower <$> verdict_as_str verdict) ++ lit "|" ++ anchor_part.

Definition UNSURE_SIGNATURE : str := lit "unsure|no-anchors".

(** ** Ledger *)

Definition FAIL_STREAK_THRESHOLD : Z := 3.

Record StreakEntry := mkStreak { se_signature : str; se_count : Z }.

Abbreviation LedgerFile := (gmap str StreakEntry) (only parsing).

Inductive StreakOutcome := Continue (n : Z) | Tripped (n : Z).

(** What becomes of a write: a failure leaves the old file, or a torn one. *)
Inductive SaveFate := Saved | Kept | Torn.

Definition save (fate : SaveFate) (inner : LedgerFile) (disk : option LedgerFile) : option LedgerFile :=
  match fate with Saved => Some inner | Kept => disk | Torn => None end.

(** [issue_id.to_string()]. *)
Definition issue_key (id : Z) : str := lit (pretty id).

Definition reload (disk : option LedgerFile) (inner : LedgerFile) : LedgerFile := default inner disk.

Definition load (disk : option LedgerFile) : LedgerFile := reload disk ∅.

Definition wrap_u32 (n : Z) : Z := n mod 2 ^ 32.

(** The file after the call, the instance, and the answer. *)
Definition record_and_check (fate : SaveFate) (id : Z) (signature : str) (disk : option LedgerFile) (inner : LedgerFile)
    : option LedgerFile * LedgerFile * StreakOutcome :=
  let inner := reload disk inner in
  let entry := default (mkStreak signature 0) (inner !! issue_key id) in
  let entry := if bool_decide (se_signature entry = signature) then entry else mkStreak signature 0 in
  let count := wrap_u32 (se_count entry + 1) in
  let inner := <[issue_key id := mkStreak (se_signature entry) count]> inner in
  (save fate inner disk, inner, if FAIL_STREAK_THRESHOLD <=? count then Tripped count else Continue count).

Definition clear (fate : SaveFate) (id : Z) (disk : option LedgerFile) (inner : LedgerFile)
    : option LedgerFile * LedgerFile :=
  let inner := reload disk inner in
  match inner !! issue_key id with
  | Some _ => let inner := delete (issue_key id) inner in (save fate inner disk, inner)
  | None => (disk, inner)
  end.

Definition unsure_gate_trips (verdict : ReviewVerdict) (outcome : StreakOutcome) (max_unsure : Z) : bool :=
  if negb (bool_decide (verdict = Unsure)) || bool_decide (max_unsure = 0) then false
  else match outcome with Continue n => max_unsure <=? n | Tripped _ => false end.

(** ** Runs *)

(** The reviews in progress, each with an instance of the ledger. *)
Record Streaks := mkStreaks { st_disk : option LedgerFile; st_instances : gmap nat LedgerFile }.

Inductive StreakOp :=
| OpLoad (i : nat)
| OpRecord (i : nat) (id : Z) (signature : str)
| OpClear (i : nat) (id : Z).

(** An operation of an instance that is not loaded does not exist. *)
Definition streak_step (st : Streaks) (o : StreakOp) : Streaks * option StreakOutcome :=
  match o with
  | OpLoad i => (mkStreaks (st_disk st) (<[i := load (st_disk st)]> (st_instances st)), None)
  | OpRecord i id signature =>
      match st_instances st !! i with
      | None => (st, None)
      | Some inner =>
          let '(disk, inner, outcome) := record_and_check Saved id signature (st_disk st) inner in
          (mkStreaks disk (<[i := inner]> (st_instances st)), Some outcome)
      end
  | OpClear i id =>
      match st_instances st !! i with
      | None => (st, None)
      | Some inner =>
          let '(disk, inner) := clear Saved id (st_disk st) inner in
          (mkStreaks disk (<[i := inner]> (st_instances st)), None)
      end
  end.

Fixpoint streak_outcomes (st : Streaks) (ops : list StreakOp) : list (option StreakOutcome) :=
  match ops with
  | [] => []
  | o :: ops => let '(st', r) := streak_step st o in r :: streak_outcomes st' ops
  end.

(** The abstract ledger: what has happened, the latest first. *)
Inductive Event := Recorded (id : Z) (signature : str) | Cleared (id : Z).

(** How often in a row, up to now, the issue failed with this signature. *)
Fixpoint streak (id : Z) (signature : str) (past : list Event) : Z :=
  match past with
  | [] => 0
  | Recorded id' s :: past =>
      if bool_decide (id' = id) then (if bool_decide (s = signature) then 1 + streak id signature past else 0)
      else streak id signature past
  | Cleared id' :: past => if bool_decide (id' = id) then 0 else streak id signature past
  end.

Definition outcome_of (n : Z) : StreakOutcome := if FAIL_STREAK_THRESHOLD <=? n then Tripped n else Continue n.

(** Which instances are loaded does not depend on the files. *)
Fixpoint spec_outcomes (loaded : gset nat) (past : list Event) (ops : list StreakOp) : list (option StreakOutcome) :=
  match ops with
  | [] => []
  | OpLoad i :: ops => None :: spec_outcomes ({[i]} ∪ loaded) past ops
  | OpRecord i id s :: ops =>
      if decide (i ∈ loaded)
      then Some (outcome_of (1 + streak id s past)) :: spec_outcomes loaded (Recorded id s :: past) ops
      else None :: spec_outcomes loaded past ops
  | OpClear i id :: ops =>
      if decide (i ∈ loaded) then None :: spec_outcomes loaded (Cleared id :: past) ops
      else None :: spec_outcomes loaded past ops
  end.

(** ** Lemmas *)

Lemma issue_key_inj id id' : issue_key id = issue_key id' → id = id'.
Proof. intros H%lit_inj. by apply (inj pretty) in H. Qed.

(** The file is the abstract ledger, an instance never knows more. *)
Record refines (st : Streaks) (loaded : gset nat) (past : list Event) : Prop := mkRefines {
  rf_entry : ∀ id s, streak id s past =
    match load (st_disk st) !! issue_key id with
    | Some e => if bool_decide (se_signature e = s) then se_count e else 0
    | None => 0
    end;
  rf_fresh : st_disk st = None → ∀ i inner, st_instances st !! i = Some inner → inner = ∅;
  rf_loaded : ∀ i, i ∈ loaded ↔ is_Some (st_instances st !! i);
}.

Lemma streak_bound id s past : 0 ≤ streak id s past ≤ Z.of_nat (length past).
Proof. induction past as [|[id' s'|id'] past IH]; cbn [streak length]; [lia|..]; repeat case_bool_decide; lia. Qed.

Lemma refines_reload st loaded past i inner :
  refines st loaded past → st_instances st !! i = Some inner → reload (st_disk st) inner = load (st_disk st).
Proof. intros [_ Hf _] Hi. unfold load, reload. destruct (st_disk st); [done|]. by rewrite (Hf eq_refl i inner Hi). Qed.

Lemma loaded_insert st loaded past i inner disk inner' :
  refines st loaded past → st_instances st !! i = Some inner →
  ∀ j, j ∈ loaded ↔ is_Some (st_instances (mkStreaks disk (<[i := inner']> (st_instances st))) !! j).
Proof.
  intros [_ _ Hl] Hi j. cbn. rewrite Hl. destruct (decide (i = j)) as [->|Hn].
  - rewrite lookup_insert_eq, Hi. split; eauto.
  - by rewrite lookup_insert_ne.
Qed.

Lemma record_refines st loaded past i inner id s :
  refines st loaded past → st_instances st !! i = Some inner → 1 + streak id s past < 2 ^ 32 →
  let '(disk, inner', r) := record_and_check Saved id s (st_disk st) inner in
  refines (mkStreaks disk (<[i := inner']> (st_instances st))) loaded (Recorded id s :: past) ∧
  r = outcome_of (1 + streak id s past).
Proof.
  intros Hr Hi Hb. unfold record_and_check. rewrite (refines_reload _ _ _ _ _ Hr Hi).
  set (m := load (st_disk st)).
  set (e := default (mkStreak s 0) (m !! issue_key id)).
  set (e' := if bool_decide (se_signature e = s) then e else mkStreak s 0).
  assert (se_signature e' = s) as Es by (unfold e'; by case_bool_decide).
  assert (wrap_u32 (se_count e' + 1) = 1 + streak id s past) as Ec.
  { assert (se_count e' = streak id s past) as Hc.
    { rewrite (rf_entry _ _ _ Hr). fold m. unfold e', e. destruct (m !! issue_key id) as [x|]; cbn; [|by rewrite bool_decide_true].
      by case_bool_decide. }
    rewrite Hc. pose proof (streak_bound id s past). unfold wrap_u32. rewrite Z.mod_small; lia. }
  rewrite Es, Ec. split; [|done]. split.
  - intros id' s'. cbn. destruct (decide (id = id')) as [->|Hn].
    + rewrite bool_decide_true by done. rewrite lookup_insert_eq. cbn. destruct (decide (s = s')) as [->|Hs].
      * by rewrite !bool_decide_true.
      * by rewrite !bool_decide_false.
    + rewrite bool_decide_false by done. rewrite lookup_insert_ne by (intros H%issue_key_inj; done).
      apply (rf_entry _ _ _ Hr).
  - done.
  - by eapply loaded_insert.
Qed.

Lemma clear_refines st loaded past i inner id :
  refines st loaded past → st_instances st !! i = Some inner →
  let '(disk, inner') := clear Saved id (st_disk st) inner in
  refines (mkStreaks disk (<[i := inner']> (st_instances st))) loaded (Cleared id :: past).
Proof.
  intros Hr Hi. unfold clear. rewrite (refines_reload _ _ _ _ _ Hr Hi).
  set (m := load (st_disk st)).
  assert (∀ id' s, streak id' s (Cleared id :: past) =
    match delete (issue_key id) m !! issue_key id' with
    | Some e => if bool_decide (se_signature e = s) then se_count e else 0 | None => 0 end) as He.
  { intros id' s. cbn. destruct (decide (id = id')) as [->|Hn].
    - by rewrite bool_decide_true, lookup_delete_eq.
    - rewrite bool_decide_false, lookup_delete_ne by (done || by intros H%issue_key_inj). apply (rf_entry _ _ _ Hr). }
  destruct (m !! issue_key id) as [e|] eqn:E.
  - split; [exact He|done|by eapply loaded_insert].
  - split; [|intros Hd j inner'; cbn|by eapply loaded_insert].
    + intros id' s. rewrite He. cbn. fold m. rewrite delete_id by done. done.
    + cbn in Hd. rewrite lookup_insert_Some. intros [[_ <-]|[_ H]]; [|by eapply (rf_fresh _ _ _ Hr)].
      unfold m, load. by rewrite Hd.
Qed.

Lemma load_refines st loaded past i : refines st loaded past →
  refines (mkStreaks (st_disk st) (<[i := load (st_disk st)]> (st_instances st))) ({[i]} ∪ loaded) past.
Proof.
  intros [H1 H2 H3]. split; [exact H1| |].
  - cbn. intros Hd j inner. rewrite lookup_insert_Some. intros [[_ <-]|[_ H]]; [unfold load; by rewrite Hd|by eapply H2].
  - intros j. cbn. rewrite elem_of_union, elem_of_singleton, H3. destruct (decide (i = j)) as [->|Hn].
    + rewrite lookup_insert_eq. split; [eauto|by left].
    + rewrite lookup_insert_ne by done. split; [intros [->|]; done|by right].
Qed.

Lemma outcomes_refine ops : ∀ st loaded past,
  refines st loaded past → Z.of_nat (length past + length ops) < 2 ^ 32 →
  streak_outcomes st ops = spec_outcomes loaded past ops.
Proof.
  induction ops as [|o ops IH]; intros st loaded past Hr Hb; [done|]. cbn [length] in Hb.
  destruct o as [i|i id s|i id]; cbn [streak_outcomes spec_outcomes streak_step].
  - f_equal. apply IH; [by apply load_refines|lia].
  - pose proof (rf_loaded _ _ _ Hr i) as Hl. destruct (st_instances st !! i) as [inner|] eqn:E.
    + rewrite decide_True by (apply Hl; eauto).
      pose proof (streak_bound id s past). pose proof (record_refines st loaded past i inner id s Hr E) as H'.
      destruct (record_and_check Saved id s (st_disk st) inner) as [[disk inner'] r].
      destruct H' as [H1 ->]; [lia|]. f_equal. apply IH; [done|cbn [length]; lia].
    + rewrite decide_False by (rewrite Hl; by intros [? ?]). f_equal. apply IH; [done|lia].
  - pose proof (rf_loaded _ _ _ Hr i) as Hl. destruct (st_instances st !! i) as [inner|] eqn:E.
    + rewrite decide_True by (apply Hl; eauto). pose proof (clear_refines st loaded past i inner id Hr E) as H'.
      destruct (clear Saved id (st_disk st) inner) as [disk inner']. f_equal. apply IH; [done|cbn [length]; lia].
    + rewrite decide_False by (rewrite Hl; by intros [? ?]). f_equal. apply IH; [done|lia].
Qed.


(** ** Signatures name causes *)

Lemma join_pipe_head x l : ∃ rest, join (lit "|") (x :: l) = x ++ rest ∧ (rest = [] ∨ ∃ t, rest = c_pipe :: t).
Proof. destruct l as [|y l]; cbn; [exists []; by rewrite app_nil_r; auto|]. eexists. split; [done|]. right. eauto. Qed.

(** The first separator ends the first piece. *)
Lemma app_pipe_inj (a b ra rb : str) :
  c_pipe ∉ a → c_pipe ∉ b → (ra = [] ∨ ∃ t, ra = c_pipe :: t) → (rb = [] ∨ ∃ t, rb = c_pipe :: t) →
  a ++ ra = b ++ rb → a = b ∧ ra = rb.
Proof.
  revert b. induction a as [|x a IH]; intros [|y b] Ha Hb Hra Hrb; cbn.
  - done.
  - intros ->. destruct Hra as [?|[t [= -> _]]]; [done|]. exfalso. apply Hb. by left.
  - intros <-. destruct Hrb as [?|[t [= -> _]]]; [done|]. exfalso. apply Ha. by left.
  - intros [= -> H]. apply not_elem_of_cons in Ha as [_ Ha]. apply not_elem_of_cons in Hb as [_ Hb].
    destruct (IH b Ha Hb Hra Hrb H) as [-> ->]. done.
Qed.

Lemma join_pipe_inj l l' :
  l ≠ [] → l' ≠ [] → Forall (λ s, c_pipe ∉ s) l → Forall (λ s, c_pipe ∉ s) l' →
  join (lit "|") l = join (lit "|") l' → l = l'.
Proof.
  revert l'. induction l as [|x l IH]; intros l' Hn Hn' Hl Hl'; [done|]. destruct l' as [|y l']; [done|].
  apply Forall_cons in Hl as [Hx Hl]. apply Forall_cons in Hl' as [Hy Hl'].
  assert (∀ z k, join (lit "|") (z :: k) = z ++ match k with [] => [] | _ => c_pipe :: join (lit "|") k end) as Hj.
  { intros z [|? ?]; cbn; [by rewrite app_nil_r|done]. }
  rewrite !Hj. intros E. apply app_pipe_inj in E as [-> E]; [|done|done|destruct l; eauto|destruct l'; eauto].
  destruct l as [|x' l], l' as [|y' l']; try done. injection E as E. f_equal. by apply IH.
Qed.

(** Anchors whose text can be told apart in a signature. *)
Definition anchors_ok (results : list AnchorResult) : Prop :=
  Forall (λ s, (c_pipe ∉ s) ∧ s ≠ lit "no-anchors") (failed_anchors results).

Lemma merge_sort_str_perm (l l' : list str) : l ≡ₚ l' → merge_sort str_le l = merge_sort str_le l'.
Proof.
  intros H. apply (Sorted_unique str_le); [by apply Sorted_merge_sort; apply _|by apply Sorted_merge_sort; apply _|].
  by rewrite !merge_sort_Permutation.
Qed.

Definition anchor_part (l : list str) : str :=
  match l with [] => lit "no-anchors" | _ => join (lit "|") (merge_sort str_le l) end.

Lemma anchor_part_inj l l' :
  Forall (λ s, (c_pipe ∉ s) ∧ s ≠ lit "no-anchors") l → Forall (λ s, (c_pipe ∉ s) ∧ s ≠ lit "no-anchors") l' →
  anchor_part l = anchor_part l' → l ≡ₚ l'.
Proof.
  assert (∀ x k, Forall (λ s, (c_pipe ∉ s) ∧ s ≠ lit "no-anchors") (x :: k) → join (lit "|") (merge_sort str_le (x :: k)) ≠ lit "no-anchors") as Hno.
  { intros x k Hk E. pose proof (merge_sort_Permutation str_le (x :: k)) as Hp.
    assert (Forall (λ s, (c_pipe ∉ s) ∧ s ≠ lit "no-anchors") (merge_sort str_le (x :: k))) as Hm by (by rewrite Hp).
    destruct (merge_sort str_le (x :: k)) as [|y m]; [by apply Permutation_nil_cons in Hp|].
    apply Forall_cons in Hm as [[Hy1 Hy2] _]. destruct (join_pipe_head y m) as (rest & Ej & Hr). rewrite Ej in E.
    destruct (app_pipe_inj y (lit "no-anchors") rest []) as [H _]; [done| |done|by left|by rewrite app_nil_r|done].
    vm_compute. intros H. repeat (apply elem_of_cons in H as [H|H]; [done|]). by apply elem_of_nil in H. }
  intros Hl Hl'. destruct l as [|x k], l' as [|x' k']; cbn [anchor_part].
  - done.
  - intros E. by destruct (Hno x' k' Hl').
  - intros E. by destruct (Hno x k Hl).
  - intros E. rewrite <- (merge_sort_Permutation str_le (x :: k)), <- (merge_sort_Permutation str_le (x' :: k')).
    apply join_pipe_inj in E; [by rewrite E| | | |].
    + intros H. pose proof (merge_sort_Permutation str_le (x :: k)) as Hp. rewrite H in Hp. by apply Permutation_nil_cons in Hp.
    + intros H. pose proof (merge_sort_Permutation str_le (x' :: k')) as Hp. rewrite H in Hp. by apply Permutation_nil_cons in Hp.
    + rewrite merge_sort_Permutation. eapply Forall_impl; [exact Hl|]. by intros ? [? _].
    + rewrite merge_sort_Permutation. eapply Forall_impl; [exact Hl'|]. by intros ? [? _].
Qed.

(** ** Properties *)

(** Also: two failed reviews have one signature exactly when they have the same
    verdict and the same failed anchors, in any order. *)
Theorem signature_names_cause r r' v v' : anchors_ok r → anchors_ok r' →
  failure_signature r v = failure_signature r' v' ↔ v = v' ∧ failed_anchors r ≡ₚ failed_anchors r'.
Proof.
  intros Hr Hr'. unfold failure_signature. fold (anchor_part (failed_anchors r)). fold (anchor_part (failed_anchors r')). split.
  - intros E. apply app_pipe_inj in E as [Ev E]; [| | |right; eauto|right; eauto].
    + split; [by destruct v, v'|]. injection E as E. by apply anchor_part_inj.
    + destruct v; vm_compute; intros H; repeat (apply elem_of_cons in H as [H|H]; [done|]); by apply elem_of_nil in H.
    + destruct v'; vm_compute; intros H; repeat (apply elem_of_cons in H as [H|H]; [done|]); by apply elem_of_nil in H.
  - intros [-> Hp]. do 2 f_equal. destruct (failed_anchors r) as [|x l].
    + by apply Permutation_nil_l in Hp as <-.
    + destruct (failed_anchors r') as [|x' l']; [by symmetry in Hp; apply Permutation_nil_cons in Hp|]. cbn [anchor_part]. f_equal. by apply merge_sort_str_perm.
Qed.

(** Also: parallel reviews, each with its own instance, loaded whenever, answer as
    one abstract ledger: the count is the number of failures of the issue with
    this signature in a row since it was last cleared, and the fuse blows from
    the third on. *)
Theorem fuse_exact ops :
  Z.of_nat (length ops) < 2 ^ 32 →
  streak_outcomes (mkStreaks None ∅) ops = spec_outcomes ∅ [] ops.
Proof.
  intros Hb. apply outcomes_refine; [|cbn; lia]. split; cbn.
  - intros id s. unfold load. cbn. by rewrite lookup_empty.
  - intros _ i inner. by rewrite lookup_empty.
  - intros i. rewrite lookup_empty, elem_of_empty. split; [done|by intros [? ?]].
Qed.

(** Observed: while writes fail and the old file stays, every review reads that file
    again, so its count never grows and the fuse never blows. *)
Theorem failing_writes_disarm n id s inner :
  foldr (λ _ '(st, outcomes), let '(disk, inner, r) := record_and_check Kept id s (fst st) (snd st) in ((disk, inner), r :: outcomes))
        ((Some ∅, inner), []) (seq 0 n)
  = ((Some ∅, match n with O => inner | S _ => {[issue_key id := mkStreak s 1]} end), replicate n (Continue 1)).
Proof.
  assert (∀ k, foldr (λ _ '(st, outcomes), let '(disk, inner, r) := record_and_check Kept id s (fst st) (snd st) in ((disk, inner), r :: outcomes))
        ((Some ∅, inner), []) (seq k n)
    = ((Some ∅, match n with O => inner | S _ => {[issue_key id := mkStreak s 1]} end), replicate n (Continue 1))) as H; [|apply H].
  induction n as [|n IH]; intros k; [done|]. cbn [seq foldr]. rewrite (IH (S k)). cbn [fst snd].
  unfold record_and_check, reload. cbn -[issue_key wrap_u32]. rewrite lookup_empty. cbn -[issue_key]. by rewrite bool_decide_true.
Qed.

(** ** Witnesses *)

Lemma signature_names_cause_witness :
  failure_signature [mkAnchorResult (lit "b") false; mkAnchorResult (lit "x") true; mkAnchorResult (lit "a") false] Fail_ =
  failure_signature [mkAnchorResult (lit "a") false; mkAnchorResult (lit "b") false] Fail_.
Proof.
  apply signature_names_cause.
  - repeat constructor; try discriminate; vm_compute; intros H; repeat (apply elem_of_cons in H as [H|H]; [discriminate|]); by apply elem_of_nil in H.
  - repeat constructor; try discriminate; vm_compute; intros H; repeat (apply elem_of_cons in H as [H|H]; [discriminate|]); by apply elem_of_nil in H.
  - split; [done|]. vm_compute. constructor.
Defined.

(** Two parallel reviews of issue 7: the third failure with one signature trips. *)
Lemma fuse_exact_witness :
  streak_outcomes (mkStreaks None ∅)
    [OpLoad 0; OpLoad 1; OpRecord 0 7 (lit "a"); OpRecord 1 7 (lit "a"); OpRecord 0 7 (lit "b"); OpRecord 1 7 (lit "b"); OpRecord 0 7 (lit "b")]
  = [None; None; Some (Continue 1); Some (Continue 2); Some (Continue 1); Some (Continue 2); Some (Tripped 3)].
Proof.
  rewrite fuse_exact; [by vm_compute|]. cbn. lia.
Defined.
