(* ===== verification/Arbiter.v ===== *)
(** * Who is woken by a message on the board

    [nemesis-board/src/arbitrator.rs]: the mentions of a message, the plan of
    nodes to wake, and the test by which a node that was offline picks up what
    mentions it ([sync_entry_targets_me] of [nemesisbot/src/board_bus.rs]).

    Which characters are alphanumeric is a table of the standard library; only
    its ASCII part is fixed ([CharClass]). *)
From S2P Require Import Prelude RustStr.

(** ** Data *)

Record NodeCandidate := mkCandidate {
  nc_id : str;
  nc_name : str;
  nc_role : str;
  nc_category : str;
  nc_online : bool;
}.

Record WakeInput := mkWakeInput {
  wi_thread_kind : str;
  wi_content : str;
  wi_sender_id : str;
  wi_issue_assignee : option str;
}.

Inductive SkipReason := Offline | Sender | NotFound | NoAssignee.

Record SkipRecord := mkSkip { sk_node_id : str; sk_reason : SkipReason }.

Record WakePlan := mkPlan { wp_targets : list str; wp_skipped : list SkipRecord; wp_to_moderator : bool }.

Definition plan_default : WakePlan := mkPlan [] [] false.

Definition thread_kind_channel : str := lit "channel".
Definition c_at : char := 64%N.

(** ** Operations *)

Section Arbiter.
Context {UC : Unicode} {CC : CharClass}.

(** A mention ends at a blank or at one of three CJK marks. *)
Definition ends_mention (c : char) : bool :=
  is_ws c || N.eqb c 65292 || N.eqb c 12290 || N.eqb c 12289.

Fixpoint take_token (s : str) : str :=
  match s with
  | [] => []
  | c :: s => if ends_mention c then [] else c :: take_token s
  end.

(** The form of a mail address is no mention. *)
Definition after_word (prev : option char) : bool :=
  match prev with Some p => is_alphanumeric p || N.eqb p c_under | None => false end.

Fixpoint mentions_from (prev : option char) (s : str) : list str :=
  match s with
  | [] => []
  | c :: s' =>
      (if N.eqb c c_at && negb (after_word prev) && nonempty (take_token s') then [take_token s'] else [])
      ++ mentions_from (Some c) s'
  end.

Definition extract_mentions (content : str) : list str := mentions_from None content.

Definition has_mentions (content : str) : bool := negb (bool_decide (extract_mentions content = [])).

(** The closure of [mentions_node]. *)
Definition token_names (node_id node_name node_role node_category t : str) : bool :=
  match strip_prefix (lit "role:") t with
  | Some role =>
      let role_lc := to_lowercase role in
      negb (bool_decide (role_lc = []))
      && (bool_decide (to_lowercase node_role = role_lc) || bool_decide (to_lowercase node_category = role_lc))
  | None =>
      let t_lc := to_lowercase t in
      bool_decide (t_lc = lit "all")
      || bool_decide (t_lc = to_lowercase node_id) || bool_decide (t_lc = to_lowercase node_name)
  end.

Definition mentions_node (content node_id node_name node_role node_category : str) : bool :=
  existsb (token_names node_id node_name node_role node_category) (extract_mentions content).

Definition push_target_or_skip (sender : str) (plan : WakePlan) (node : NodeCandidate) : WakePlan :=
  if existsb (λ t, bool_decide (t = nc_id node)) (wp_targets plan)
     || existsb (λ s, bool_decide (sk_node_id s = nc_id node)) (wp_skipped plan) then plan
  else if bool_decide (nc_id node = sender) then
    mkPlan (wp_targets plan) (wp_skipped plan ++ [mkSkip (nc_id node) Sender]) (wp_to_moderator plan)
  else if nc_online node then
    mkPlan (wp_targets plan ++ [nc_id node]) (wp_skipped plan) (wp_to_moderator plan)
  else mkPlan (wp_targets plan) (wp_skipped plan ++ [mkSkip (nc_id node) Offline]) (wp_to_moderator plan).

Definition skip_with (plan : WakePlan) (id : str) (reason : SkipReason) : WakePlan :=
  mkPlan (wp_targets plan) (wp_skipped plan ++ [mkSkip id reason]) (wp_to_moderator plan).

Definition has_role (role_lc : str) (node : NodeCandidate) : bool :=
  bool_decide (to_lowercase (nc_role node) = role_lc) || bool_decide (to_lowercase (nc_category node) = role_lc).

Definition has_name (token_lc : str) (node : NodeCandidate) : bool :=
  bool_decide (to_lowercase (nc_id node) = token_lc) || bool_decide (to_lowercase (nc_name node) = token_lc).

(** The body of the loop over the mentions. *)
Definition resolve_token (sender : str) (nodes : list NodeCandidate) (plan : WakePlan) (token : str) : WakePlan :=
  match strip_prefix (lit "role:") token with
  | Some role =>
      let role_lc := to_lowercase role in
      if bool_decide (role_lc = []) then skip_with plan (c_at :: token) NotFound
      else
        let plan := foldl (λ plan node, if has_role role_lc node then push_target_or_skip sender plan node else plan) plan nodes in
        if existsb (has_role role_lc) nodes then plan else skip_with plan (c_at :: token) NotFound
  | None =>
      if bool_decide (to_lowercase token = lit "all") then foldl (push_target_or_skip sender) plan nodes
      else
        match List.find (has_name (to_lowercase token)) nodes with
        | Some node => push_target_or_skip sender plan node
        | None => skip_with plan (c_at :: token) NotFound
        end
  end.

Definition resolve_wake_targets (input : WakeInput) (nodes : list NodeCandidate) : WakePlan :=
  match extract_mentions (wi_content input) with
  | [] =>
      if bool_decide (wi_thread_kind input = thread_kind_channel) then mkPlan [] [] true
      else
        match wi_issue_assignee input with
        | Some (c :: s) =>
            match List.find (λ n, bool_decide (nc_id n = c :: s)) nodes with
            | Some node => if nc_online node then mkPlan [c :: s] [] false else mkPlan [] [mkSkip (c :: s) Offline] false
            | None => mkPlan [] [mkSkip (c :: s) NotFound] false
            end
        | _ => mkPlan [] [mkSkip (lit "(issue)") NoAssignee] false
        end
  | mentions => foldl (resolve_token (wi_sender_id input) nodes) plan_default mentions
  end.

(** What a node asks about an entry it missed; [participated] is its memory of
    the threads it took part in. *)
Definition sync_entry_targets_me (self : NodeCandidate) (participated : bool) (content sender : str) : bool :=
  if bool_decide (sender = nc_id self) then false
  else participated || mentions_node content (nc_id self) (nc_name self) (nc_role self) (nc_category self).

Definition node_mentioned (content : str) (n : NodeCandidate) : bool :=
  mentions_node content (nc_id n) (nc_name n) (nc_role n) (nc_category n).

(** ** Lemmas *)

Definition handled (plan : WakePlan) (id : str) : Prop :=
  id ∈ wp_targets plan ∨ ∃ r, mkSkip id r ∈ wp_skipped plan.

Definition names (token : str) (n : NodeCandidate) : bool := token_names (nc_id n) (nc_name n) (nc_role n) (nc_category n) token.

(** What every entry of a plan stands for. *)
Record plan_ok (sender : str) (nodes : list NodeCandidate) (tokens : list str) (plan : WakePlan) : Prop := mkPlanOk {
  po_nodup : NoDup (wp_targets plan);
  po_targets : ∀ id, id ∈ wp_targets plan → ∃ n, n ∈ nodes ∧ nc_id n = id ∧ nc_online n = true ∧ id ≠ sender ∧
    existsb (λ t, names t n) tokens = true;
  po_skipped : ∀ s, s ∈ wp_skipped plan → (∃ t, sk_node_id s = c_at :: t) ∨
    ∃ n, n ∈ nodes ∧ nc_id n = sk_node_id s ∧ (nc_id n = sender ∨ nc_online n = false);
}.

Lemma push_handled sender plan n id : handled plan id → handled (push_target_or_skip sender plan n) id.
Proof.
  unfold push_target_or_skip, handled. destruct (_ || _); [done|]. destruct (bool_decide _); [|destruct (nc_online n)];
    cbn; intros [H|[r H]]; [by left|right; exists r|by left; apply elem_of_app; left|right; by exists r|by left|right; exists r]; apply elem_of_app; by left.
Qed.

Lemma push_handles sender plan n : handled (push_target_or_skip sender plan n) (nc_id n).
Proof.
  unfold push_target_or_skip, handled. destruct (existsb _ (wp_targets plan)) eqn:E1; cbn [orb].
  { apply existsb_exists in E1 as (t & Ht & E). apply bool_decide_eq_true in E as ->. left. by apply list_elem_of_In. }
  destruct (existsb _ (wp_skipped plan)) eqn:E2.
  { apply existsb_exists in E2 as ([i r] & Ht & E). apply bool_decide_eq_true in E. cbn in E. subst i. right. exists r. by apply list_elem_of_In. }
  destruct (bool_decide _); [|destruct (nc_online n)]; cbn.
  - right. exists Sender. apply elem_of_app. right. by left.
  - left. apply elem_of_app. right. by left.
  - right. exists Offline. apply elem_of_app. right. by left.
Qed.

Lemma push_ok sender nodes tokens plan n : n ∈ nodes → existsb (λ t, names t n) tokens = true →
  plan_ok sender nodes tokens plan → plan_ok sender nodes tokens (push_target_or_skip sender plan n).
Proof.
  intros Hn Ht [H1 H2 H3]. unfold push_target_or_skip.
  destruct (existsb (λ t, bool_decide (t = nc_id n)) (wp_targets plan)) eqn:E1; cbn [orb]; [done|].
  destruct (existsb _ (wp_skipped plan)); [done|].
  destruct (bool_decide (nc_id n = sender)) eqn:Es; [|destruct (nc_online n) eqn:Eo]; split; cbn; try done.
  - intros s [Hs|Hs%list_elem_of_singleton]%elem_of_app; [by apply H3|]. subst s. right. exists n. apply bool_decide_eq_true in Es.
    cbn. auto.
  - apply NoDup_app. split; [done|]. split; [|apply NoDup_singleton].
    intros x Hx Hx'%list_elem_of_singleton. subst x.
    assert (existsb (λ t, bool_decide (t = nc_id n)) (wp_targets plan) = true) as C; [|congruence].
    apply existsb_exists. exists (nc_id n). split; [by apply list_elem_of_In|by apply bool_decide_eq_true].
  - intros id [Hid|Hid%list_elem_of_singleton]%elem_of_app; [by apply H2|]. subst id. exists n.
    apply bool_decide_eq_false in Es. done.
  - intros s [Hs|Hs%list_elem_of_singleton]%elem_of_app; [by apply H3|]. subst s. right. exists n. cbn. auto.
Qed.

Lemma skip_ok sender nodes tokens plan t : plan_ok sender nodes tokens plan → plan_ok sender nodes tokens (skip_with plan (c_at :: t) NotFound).
Proof.
  intros [H1 H2 H3]. split; cbn; [done|done|]. intros s [Hs|Hs%list_elem_of_singleton]%elem_of_app; [by apply H3|]. subst s. left. by exists t.
Qed.

Lemma skip_handled plan i r id : handled plan id → handled (skip_with plan i r) id.
Proof. intros [H|[r' H]]; [by left|]. right. exists r'. cbn. apply elem_of_app. by left. Qed.

(** A fold over the nodes that pushes those [f] selects. *)
Lemma fold_push sender nodes tokens (f : NodeCandidate → bool) l : ∀ plan,
  (∀ n, n ∈ l → n ∈ nodes ∧ (f n = true → existsb (λ t, names t n) tokens = true)) →
  plan_ok sender nodes tokens plan →
  let plan' := foldl (λ plan n, if f n then push_target_or_skip sender plan n else plan) plan l in
  plan_ok sender nodes tokens plan' ∧ (∀ id, handled plan id → handled plan' id) ∧
  (∀ n, n ∈ l → f n = true → handled plan' (nc_id n)).
Proof.
  induction l as [|n l IH]; intros plan Hl Hok; cbn; [by split_and!; [done|done|intros n Hn; apply elem_of_nil in Hn]|].
  destruct (Hl n (list_elem_of_here _ _)) as [Hn Hf].
  set (plan1 := if f n then push_target_or_skip sender plan n else plan).
  assert (plan_ok sender nodes tokens plan1) as Hok1 by (unfold plan1; destruct (f n) eqn:E; [apply push_ok; auto|done]).
  destruct (IH plan1 (λ m Hm, Hl m (list_elem_of_further _ _ _ Hm)) Hok1) as (K1 & K2 & K3).
  split; [done|]. split.
  - intros id Hid. apply K2. unfold plan1. destruct (f n); [by apply push_handled|done].
  - intros m [->|Hm]%elem_of_cons Hfm; [|by apply K3]. apply K2. unfold plan1. rewrite Hfm. apply push_handles.
Qed.

(** One name, one node. *)
Definition unambiguous (nodes : list NodeCandidate) : Prop :=
  ∀ t n n', n ∈ nodes → n' ∈ nodes → has_name t n = true → has_name t n' = true → n = n'.

Lemma resolve_token_spec sender nodes tokens plan token : token ∈ tokens → plan_ok sender nodes tokens plan →
  let plan' := resolve_token sender nodes plan token in
  plan_ok sender nodes tokens plan' ∧ (∀ id, handled plan id → handled plan' id) ∧
  (unambiguous nodes → ∀ n, n ∈ nodes → names token n = true → handled plan' (nc_id n)).
Proof.
  intros Ht Hok. unfold resolve_token.
  assert (∀ n, names token n = true → existsb (λ t, names t n) tokens = true) as Htok.
  { intros n Hn. apply existsb_exists. exists token. split; [by apply list_elem_of_In|done]. }
  unfold names, token_names in *. destruct (strip_prefix (lit "role:") token) as [role|] eqn:Er.
  - destruct (bool_decide (to_lowercase role = [])) eqn:Ee; cbn [negb andb] in *.
    { split; [by apply skip_ok|]. split; [intros id; apply skip_handled|done]. }
    destruct (fold_push sender nodes tokens (has_role (to_lowercase role)) nodes plan) as (K1 & K2 & K3);
      [intros n Hn; split; [done|intros Hr; apply Htok; exact Hr]|done|].
    destruct (existsb (has_role (to_lowercase role)) nodes).
    + split; [done|]. split; [done|]. intros _ n Hn Hr. by apply K3.
    + split; [by apply skip_ok|]. split; [intros id Hid; by apply skip_handled, K2|]. intros _ n Hn Hr. apply skip_handled. by apply K3.
  - destruct (bool_decide (to_lowercase token = lit "all")) eqn:Ea; cbn [orb] in *.
    { pose proof (fold_push sender nodes tokens (λ _, true) nodes plan) as H. cbn in H.
      change (foldl (λ plan n, push_target_or_skip sender plan n) plan nodes) with (foldl (push_target_or_skip sender) plan nodes) in H.
      destruct H as (K1 & K2 & K3); [intros n Hn; split; [done|intros _; by apply Htok]|done|]. split; [done|]. split; [done|]. intros _ n Hn _. by apply K3. }
    assert (∀ n, has_name (to_lowercase token) n =
      bool_decide (to_lowercase token = to_lowercase (nc_id n)) || bool_decide (to_lowercase token = to_lowercase (nc_name n))) as Hname.
    { intros n. unfold has_name. f_equal; apply bool_decide_ext; split; congruence. }
    destruct (List.find (has_name (to_lowercase token)) nodes) as [m|] eqn:Ef.
    + apply List.find_some in Ef as [Hm Hmn]. apply list_elem_of_In in Hm. split; [|split].
      * apply push_ok; [done|apply Htok; by rewrite <- Hname|done].
      * intros id. apply push_handled.
      * intros Hu n Hn Hnn. rewrite <- Hname in Hnn. rewrite (Hu _ n m Hn Hm Hnn Hmn). apply push_handles.
    + split; [by apply skip_ok|]. split; [intros id; apply skip_handled|]. intros _ n Hn Hnn. rewrite <- Hname in Hnn.
      apply list_elem_of_In in Hn. by rewrite (List.find_none _ _ Ef n Hn) in Hnn.
Qed.

Lemma resolve_tokens_spec sender nodes tokens l : ∀ plan, (∀ t, t ∈ l → t ∈ tokens) → plan_ok sender nodes tokens plan →
  let plan' := foldl (resolve_token sender nodes) plan l in
  plan_ok sender nodes tokens plan' ∧ (∀ id, handled plan id → handled plan' id) ∧
  (unambiguous nodes → ∀ n, n ∈ nodes → existsb (λ t, names t n) l = true → handled plan' (nc_id n)).
Proof.
  induction l as [|t l IH]; intros plan Hl Hok; cbn [foldl]; [done|].
  destruct (resolve_token_spec sender nodes tokens plan t (Hl t (list_elem_of_here _ _)) Hok) as (H1 & H2 & H3).
  destruct (IH _ (λ u Hu, Hl u (list_elem_of_further _ _ _ Hu)) H1) as (K1 & K2 & K3).
  split; [done|]. split; [auto|]. intros Hu n Hn. cbn. destruct (names t n) eqn:E; cbn; auto.
Qed.

(** Node ids that a mention can be told from. *)
Definition nodes_ok (nodes : list NodeCandidate) : Prop :=
  unambiguous nodes ∧ ∀ n, n ∈ nodes → head (nc_id n) ≠ Some c_at.

Lemma plan_exact sender nodes tokens plan n : nodes_ok nodes → plan_ok sender nodes tokens plan → n ∈ nodes →
  handled plan (nc_id n) → nc_online n = true → nc_id n ≠ sender → nc_id n ∈ wp_targets plan.
Proof.
  intros [Hu Hat] Hok Hn [H|[r H]] Ho Hs; [done|]. exfalso.
  destruct (po_skipped _ _ _ _ Hok _ H) as [[t Et]|(m & Hm & Em & Hr)]; cbn in *.
  - apply (Hat n Hn). by rewrite Et.
  - assert (m = n) as ->; [|destruct Hr; congruence].
    apply (Hu (to_lowercase (nc_id n)) m n Hm Hn); unfold has_name; rewrite ?Em; by rewrite bool_decide_true.
Qed.

(** ** Properties *)

(** Also: when a message has mentions, the nodes to wake are exactly the online
    nodes, other than its sender, that the node-side test [mentions_node]
    names, each once. *)
Theorem wake_exact input nodes :
  nodes_ok nodes → has_mentions (wi_content input) = true →
  let plan := resolve_wake_targets input nodes in
  NoDup (wp_targets plan) ∧
  ∀ id, id ∈ wp_targets plan ↔
    ∃ n, n ∈ nodes ∧ nc_id n = id ∧ nc_online n = true ∧ id ≠ wi_sender_id input ∧ node_mentioned (wi_content input) n = true.
Proof.
  intros Hn Hm. unfold has_mentions in Hm. unfold resolve_wake_targets, node_mentioned, mentions_node.
  set (tokens := extract_mentions (wi_content input)) in *.
  assert (∀ plan, plan = foldl (resolve_token (wi_sender_id input) nodes) plan_default tokens →
    NoDup (wp_targets plan) ∧ ∀ id, id ∈ wp_targets plan ↔
    ∃ n, n ∈ nodes ∧ nc_id n = id ∧ nc_online n = true ∧ id ≠ wi_sender_id input ∧ existsb (λ t, names t n) tokens = true) as H.
  { intros plan ->.
    destruct (resolve_tokens_spec (wi_sender_id input) nodes tokens tokens plan_default) as (K1 & _ & K3); [done| |].
    { split; cbn; [constructor|by intros id ?%elem_of_nil|by intros s ?%elem_of_nil]. }
    split; [apply K1|]. intros id. split; [apply K1|]. intros (n & Hin & <- & Ho & Hs & Ht).
    apply (plan_exact _ _ _ _ _ Hn K1 Hin); [apply K3; [apply Hn|done|done]|done|done]. }
  destruct tokens as [|t l] eqn:E; [by rewrite bool_decide_true in Hm|]. by apply H.
Qed.

(** Also: no mention is lost: a mentioned node that did not write the message is
    woken when it is online, and picks the message up from the next
    synchronisation when it is not; a node is never woken by its own mention. *)
Theorem mention_reaches input nodes n participated :
  nodes_ok nodes → n ∈ nodes → node_mentioned (wi_content input) n = true →
  let plan := resolve_wake_targets input nodes in
  if bool_decide (nc_id n = wi_sender_id input) then
    (nc_id n ∉ wp_targets plan) ∧ sync_entry_targets_me n participated (wi_content input) (wi_sender_id input) = false
  else if nc_online n then nc_id n ∈ wp_targets plan
  else sync_entry_targets_me n participated (wi_content input) (wi_sender_id input) = true.
Proof.
  intros Hn Hin Hm. set (tokens := extract_mentions (wi_content input)).
  destruct (resolve_tokens_spec (wi_sender_id input) nodes tokens tokens plan_default) as (K1 & _ & K3); [done| |].
  { split; cbn; [constructor|by intros id ?%elem_of_nil|by intros s ?%elem_of_nil]. }
  assert (resolve_wake_targets input nodes = foldl (resolve_token (wi_sender_id input) nodes) plan_default tokens) as E.
  { unfold resolve_wake_targets. fold tokens. unfold node_mentioned, mentions_node in Hm. fold tokens in Hm. by destruct tokens. }
  rewrite E. unfold sync_entry_targets_me. destruct (bool_decide (nc_id n = wi_sender_id input)) eqn:Es.
  - apply bool_decide_eq_true in Es. rewrite bool_decide_true by done. split; [|done].
    intros Ht. destruct (po_targets _ _ _ _ K1 _ Ht) as (m & _ & _ & _ & Hs & _). done.
  - apply bool_decide_eq_false in Es. rewrite bool_decide_false by congruence.
    destruct (nc_online n) eqn:Eo.
    + apply (plan_exact _ _ _ _ _ Hn K1 Hin); [apply K3; [apply Hn|done|done]|done|done].
    + unfold node_mentioned in Hm. rewrite Hm. by rewrite orb_true_r.
Qed.

(** Observed: without a mention the sender is not excluded: the assignee of an issue
    is woken by a comment of its own. *)
Theorem assignee_woken_by_itself content n :
  extract_mentions content = [] → nc_id n ≠ [] → nc_online n = true →
  wp_targets (resolve_wake_targets (mkWakeInput (lit "issue") content (nc_id n) (Some (nc_id n))) [n]) = [nc_id n].
Proof.
  intros Hc Hid Ho. unfold resolve_wake_targets. cbn [wi_content wi_thread_kind wi_issue_assignee]. rewrite Hc.
  rewrite (bool_decide_false (lit "issue" = thread_kind_channel)) by done.
  destruct (nc_id n) as [|c s] eqn:E; [done|]. cbn [List.find]. rewrite E, bool_decide_true by done. by rewrite Ho.
Qed.

(** Observed: of two nodes with one name only the first is woken, although each of
    them takes the mention for its own. *)
Theorem shared_name_wakes_one a b sender :
  nc_name a = nc_name b → nc_id a ≠ nc_id b → nc_online a = true → nc_id a ≠ sender →
  strip_prefix (lit "role:") (nc_name a) = None → to_lowercase (nc_name a) ≠ lit "all" →
  wp_targets (resolve_token sender [a; b] plan_default (nc_name a)) = [nc_id a] ∧
  names (nc_name a) b = true.
Proof.
  intros En Hid Ho Hs Hr Hall. unfold resolve_token, names, token_names. rewrite Hr.
  rewrite (bool_decide_false (to_lowercase (nc_name a) = lit "all")) by done. split.
  - cbn [List.find]. unfold has_name at 1. rewrite (bool_decide_true (to_lowercase (nc_name a) = to_lowercase (nc_name a))) by done.
    rewrite orb_true_r. unfold push_target_or_skip. cbn. rewrite bool_decide_false by done. by rewrite Ho.
  - rewrite En. rewrite (bool_decide_true (to_lowercase (nc_name b) = to_lowercase (nc_name b))) by done. by rewrite orb_true_r.
Qed.
End Arbiter.

(** ** Witnesses *)

Definition demo_nodes : list NodeCandidate :=
  [mkCandidate (lit "n1") (lit "Alpha") (lit "worker") (lit "qa") true;
   mkCandidate (lit "n2") (lit "Beta") (lit "worker") (lit "dev") false;
   mkCandidate (lit "n3") (lit "Gamma") (lit "coordinator") (lit "general") true].

Lemma demo_nodes_ok : @nodes_ok ascii_unicode demo_nodes.
Proof.
  split.
  - intros t n n' Hn Hn' H H'. unfold demo_nodes in *.
    assert (∀ m, m ∈ demo_nodes → @has_name ascii_unicode t m = true →
      (t = ascii_lower <$> nc_id m ∨ t = ascii_lower <$> nc_name m)) as Hm.
    { intros m _ E. unfold has_name in E. apply orb_true_iff in E as [E|E]; apply bool_decide_eq_true in E; [left|right]; by rewrite <- E. }
    pose proof (Hm n Hn H) as K. pose proof (Hm n' Hn' H') as K'. clear Hm H H'.
    repeat (apply elem_of_cons in Hn as [->|Hn]); try (by apply elem_of_nil in Hn);
    repeat (apply elem_of_cons in Hn' as [->|Hn']); try (by apply elem_of_nil in Hn'); try done;
    exfalso; destruct K as [-> | ->], K' as [K'|K']; by vm_compute in K'.
  - intros n Hn. unfold demo_nodes in Hn. repeat (apply elem_of_cons in Hn as [->|Hn]); try done. by apply elem_of_nil in Hn.
Qed.

Lemma wake_exact_witness :
  wp_targets (@resolve_wake_targets ascii_unicode ascii_class
    (mkWakeInput (lit "issue") (lit "@role:worker and @gamma: mail a@b.com") (lit "n9") None) demo_nodes) = [lit "n1"] ∧
  NoDup (wp_targets (@resolve_wake_targets ascii_unicode ascii_class
    (mkWakeInput (lit "issue") (lit "@role:worker and @gamma: mail a@b.com") (lit "n9") None) demo_nodes)).
Proof.
  split; [by vm_compute|].
  refine (proj1 (@wake_exact ascii_unicode ascii_class (mkWakeInput (lit "issue") (lit "@role:worker and @gamma: mail a@b.com") (lit "n9") None)
    demo_nodes demo_nodes_ok _)).
  by vm_compute.
Defined.

Lemma mention_reaches_witness :
  @sync_entry_targets_me ascii_unicode ascii_class (mkCandidate (lit "n2") (lit "Beta") (lit "worker") (lit "dev") false) false
    (lit "@all hello") (lit "n1") = true.
Proof.
  refine (@mention_reaches ascii_unicode ascii_class (mkWakeInput (lit "issue") (lit "@all hello") (lit "n1") None) demo_nodes
    (mkCandidate (lit "n2") (lit "Beta") (lit "worker") (lit "dev") false) false demo_nodes_ok _ _).
  - unfold demo_nodes. right. by left.
  - by vm_compute.
Defined.
