(* ===== verification/Planner.v ===== *)
(** * Plans of sub-issues

    [nemesis-board/src/planner.rs]: what of a model's answer is accepted as a
    plan.  The answer's JSON array is cut out, parsed (serde, the class
    [PlanJson]) and checked: size, titles, professions
    ([nemesis-prompts/src/professions/meta.rs]), capabilities, the ranges of the
    dependencies, cycles (a depth-first search in three colours) and files that
    two sub-issues write at the same time.

    [visit] recurses once per grey node, so one unit of fuel more than there are
    white nodes is enough ([visit_spec]); [None] is an index out of range or no
    fuel, which the checks before the search exclude. *)
From stdpp Require Import sorting relations.
From S2P Require Import Prelude RustStr.

(** ** Data *)

Record PlannedSubIssue := mkSub {
  ps_title : str;
  ps_description : str;
  ps_required_role : str;
  ps_required_tags : list str;
  ps_required_profession : str;
  ps_required_capabilities : list str;
  ps_acceptance_criteria : str;
  ps_depends_on : list nat;
}.

Definition MAX_SUBISSUES : nat := 20.

(** [serde_json::from_str] on the array text; the error is its message. *)
Class PlanJson := { plan_from_str : str → result (list PlannedSubIssue) str }.

Record LenientPlan := mkLenient { lp_plan : list PlannedSubIssue; lp_downgraded : list (nat * str) }.

Definition c_lbracket : char := 91%N.
Definition c_rbracket : char := 93%N.

(** ** Text *)

Fixpoint find_char (c : char) (s : str) : option nat :=
  match s with
  | [] => None
  | x :: s => if N.eqb x c then Some 0 else S <$> find_char c s
  end.

Fixpoint rfind_char (c : char) (s : str) : option nat :=
  match s with
  | [] => None
  | x :: s => match rfind_char c s with
              | Some i => Some (S i)
              | None => if N.eqb x c then Some 0 else None
              end
  end.

Definition extract_json_array (raw : str) : option str :=
  start ← find_char c_lbracket raw;
  end_ ← rfind_char c_rbracket raw;
  if end_ <? start then None else Some (take (S end_ - start) (drop start raw)).

Definition parse_touch_paths (acceptance_criteria : str) : list str :=
  foldl (λ out line,
    match strip_prefix (lit "[TOUCH]") (trim line) with
    | Some p => let p := trim p in if bool_decide (p = []) || bool_decide (p ∈ out) then out else out ++ [p]
    | None => out
    end) [] (lines acceptance_criteria).

(** ** Professions and capabilities *)

Inductive SlugError := SlugEmpty | SlugTooLong | SlugMalformed.

Definition show_slug_error (e : SlugError) : str :=
  match e with
  | SlugEmpty => ulit "职能 slug 为空"
  | SlugTooLong => ulit "职能 slug 超过 64 字符"
  | SlugMalformed => ulit "职能 slug 形态非法（要求 family[:spec]，小写字母/数字/下划线/连字符）"
  end.

Definition valid_segment (s : str) : bool :=
  nonempty s && forallb (λ b, is_ascii_lower b || is_ascii_digit b || N.eqb b c_under || N.eqb b c_dash) s.

Definition validate_slug (slug : str) : result unit SlugError :=
  if bool_decide (slug = []) then Err SlugEmpty
  else if 64 <? byte_len slug then Err SlugTooLong
  else
    match find_char c_colon slug with
    | None => if valid_segment slug then Ok tt else Err SlugMalformed
    | Some i => if valid_segment (take i slug) && valid_segment (drop (S i) slug) then Ok tt else Err SlugMalformed
    end.

Definition profession_format_error (index : nat) (raw : str) : option str :=
  let trimmed := trim raw in
  if bool_decide (trimmed = []) then None
  else
    match validate_slug trimmed with
    | Ok _ => None
    | Err e => Some (ulit "第 " ++ show_nat index ++ ulit " 个子任务的 required_profession=" ++ [c_dquote] ++ trimmed ++ [c_dquote]
                     ++ ulit " 格式非法：" ++ show_slug_error e
                     ++ ulit "。职能 slug 形如 dev、dev:cpp（小写字母/数字/连字符/下划线，至多一个冒号分段）；无职能需求填空串。")
    end.

Definition bad_capability (cap : str) : bool :=
  let trimmed := trim cap in
  bool_decide (trimmed = []) || existsb is_ws trimmed || (64 <? length trimmed).

Definition capabilities_format_error (index : nat) (caps : list str) : option str :=
  match List.find bad_capability caps with
  | Some cap => Some (ulit "第 " ++ show_nat index ++ ulit " 个子任务的 required_capabilities 含非法项 " ++ [c_dquote] ++ cap ++ [c_dquote]
                      ++ ulit "。能力词必须是非空单段短词（如 chrome、docker，不含空格）；无能力需求用空数组。")
  | None => None
  end.

(** ** Dependencies *)

Definition out_of_range_message (i dep n : nat) : str :=
  ulit "第 " ++ show_nat i ++ ulit " 个子任务的 depends_on 引用了序号 " ++ show_nat dep ++ ulit "，但本批只有 "
  ++ show_nat n ++ ulit " 个子任务（序号 0-" ++ show_nat (n - 1) ++ ulit "）。".

Definition self_reference_message (i dep : nat) : str :=
  ulit "第 " ++ show_nat i ++ ulit " 个子任务的 depends_on 包含自身（" ++ show_nat dep ++ ulit "），不允许自引用。".

Fixpoint check_deps (i n : nat) (deps : list nat) : option str :=
  match deps with
  | [] => None
  | dep :: deps =>
      if n <=? dep then Some (out_of_range_message i dep n)
      else if dep =? i then Some (self_reference_message i dep)
      else check_deps i n deps
  end.

Definition cycle_message (members : list nat) : str :=
  ulit "depends_on 存在循环依赖：" ++ join (lit " -> ") (show_nat <$> members) ++ ulit "。请打断环路后重新输出。".

(** Colours (0 white, 1 grey, 2 black) and the stack of the search. *)
Definition Search : Type := list nat * list nat.

(** The loop over the dependencies of a node. *)
Fixpoint visit_all (f : nat → Search → option (result Search str)) (deps : list nat) (st : Search)
    : option (result Search str) :=
  match deps with
  | [] => Some (Ok st)
  | dep :: deps =>
      r ← f dep st;
      match r with
      | Ok st => visit_all f deps st
      | Err e => Some (Err e)
      end
  end.

Fixpoint visit (fuel : nat) (plan : list PlannedSubIssue) (i : nat) (st : Search) : option (result Search str) :=
  match fuel with
  | O => None
  | S fuel =>
      let '(color, stack) := st in
      c ← color !! i;
      if bool_decide (c = 2) then Some (Ok st)
      else if bool_decide (c = 1) then
        let cycle_start := default 0 (fst <$> find_idx (λ s, bool_decide (s = i)) stack) in
        Some (Err (cycle_message (drop cycle_start stack ++ [i])))
      else
        sub ← plan !! i;
        r ← visit_all (visit fuel plan) (ps_depends_on sub) (<[i := 1]> color, stack ++ [i]);
        match r with
        | Err e => Some (Err e)
        | Ok (color, stack) => Some (Ok (<[i := 2]> color, removelast stack))
        end
  end.

Definition detect_cycle (plan : list PlannedSubIssue) : option (result unit str) :=
  r ← visit_all (visit (S (length plan)) plan) (seq 0 (length plan)) (replicate (length plan) 0, []);
  match r with
  | Ok _ => Some (Ok tt)
  | Err e => Some (Err e)
  end.

(** ** Shared files *)

(** The map from a path to the sub-issues that declare it, as its sorted list. *)
Definition touch_owners (plan : list PlannedSubIssue) : gmap str (list nat) :=
  foldl (λ owners p, let '(i, sub) := p in
    foldl (λ owners path, <[path := default [] (owners !! path) ++ [i]]> owners) owners
      (parse_touch_paths (ps_acceptance_criteria sub)))
    ∅ (imap pair plan).

Definition path_le (a b : str * list nat) : Prop := str_le (fst a) (fst b).

#[export] Instance path_le_dec a b : Decision (path_le a b).
Proof. unfold path_le. apply _. Defined.

Definition depends (plan : list PlannedSubIssue) (a b : nat) : bool :=
  match plan !! a with Some sub => bool_decide (b ∈ ps_depends_on sub) | None => false end.

Fixpoint pair_violations (plan : list PlannedSubIssue) (path : str) (subs : list nat) : list str :=
  match subs with
  | [] => []
  | a :: subs =>
      omap (λ b, if depends plan a b || depends plan b a then None
                 else Some (ulit "第 " ++ show_nat a ++ ulit " 和第 " ++ show_nat b ++ ulit " 个子任务都声明写「" ++ path
                            ++ ulit "」但没有依赖边（并行执行会在合并时冲突）")) subs
      ++ pair_violations plan path subs
  end.

Definition touch_violations (plan : list PlannedSubIssue) : list str :=
  merge_sort path_le (map_to_list (touch_owners plan)) ≫= λ '(path, subs),
    if length subs <? 2 then [] else pair_violations plan path subs.

Definition analyze_shared_touch (plan : list PlannedSubIssue) : result unit str :=
  match touch_violations plan with
  | [] => Ok tt
  | violations => Err (ulit "共享文件冲突：" ++ join (ulit "；") violations
      ++ ulit "。请修正后重新输出：给冲突双方之一加 depends_on 串行化、或合并为一个子任务、或修正 [TOUCH] 声明使其准确反映各自实际写入范围。")
  end.

(** ** Parsing *)

Definition check_sub (i n : nat) (sub : PlannedSubIssue) : option str :=
  if bool_decide (trim (ps_title sub) = []) then
    Some (ulit "第 " ++ show_nat i ++ ulit " 个子任务的 title 为空。每个子任务都必须有非空标题。")
  else
    match profession_format_error i (ps_required_profession sub) with
    | Some e => Some e
    | None =>
        match capabilities_format_error i (ps_required_capabilities sub) with
        | Some e => Some e
        | None => check_deps i n (ps_depends_on sub)
        end
    end.

Fixpoint check_subs (i n : nat) (plan : list PlannedSubIssue) : option str :=
  match plan with
  | [] => None
  | sub :: plan => match check_sub i n sub with Some e => Some e | None => check_subs (S i) n plan end
  end.

(** The last two checks; [None] as in [detect_cycle]. *)
Definition check_graph (plan : list PlannedSubIssue) : option (result unit str) :=
  r ← detect_cycle plan;
  match r with
  | Err e => Some (Err e)
  | Ok _ => Some (analyze_shared_touch plan)
  end.

Section Parse.
Context {JS : PlanJson}.

(** What both parsers start with. *)
Definition decode_plan (raw : str) : result (list PlannedSubIssue) str :=
  match extract_json_array raw with
  | None => Err (ulit "输出中找不到 JSON 数组（应以 '[' 开头、']' 结尾）。请只输出 JSON 数组本身。")
  | Some text =>
      match plan_from_str text with
      | Err e => Err (ulit "JSON 解析失败：" ++ e ++ ulit "。请检查引号/逗号/字段类型，只输出 JSON 数组。")
      | Ok plan =>
          if bool_decide (plan = []) then Err (ulit "拆解结果为空数组。请至少拆解出 1 个子任务。")
          else if MAX_SUBISSUES <? length plan then
            Err (ulit "子任务数量 " ++ show_nat (length plan) ++ ulit " 超过上限 " ++ show_nat MAX_SUBISSUES
                 ++ ulit "。请合并粒度、减少数量后重新输出。")
          else Ok plan
      end
  end.

Definition parse_plan (raw : str) : option (result (list PlannedSubIssue) str) :=
  match decode_plan raw with
  | Err e => Some (Err e)
  | Ok plan =>
      match check_subs 0 (length plan) plan with
      | Some e => Some (Err e)
      | None => r ← check_graph plan; Some (match r with Err e => Err e | Ok _ => Ok plan end)
      end
  end.

Definition with_profession (sub : PlannedSubIssue) (p : str) : PlannedSubIssue :=
  mkSub (ps_title sub) (ps_description sub) (ps_required_role sub) (ps_required_tags sub) p
        (ps_required_capabilities sub) (ps_acceptance_criteria sub) (ps_depends_on sub).

Definition with_capabilities (sub : PlannedSubIssue) (caps : list str) : PlannedSubIssue :=
  mkSub (ps_title sub) (ps_description sub) (ps_required_role sub) (ps_required_tags sub) (ps_required_profession sub)
        caps (ps_acceptance_criteria sub) (ps_depends_on sub).

(** The two changes the lenient parser makes in place. *)
Definition soften_sub (i : nat) (sub : PlannedSubIssue) : PlannedSubIssue * list (nat * str) :=
  let '(sub, down) := match profession_format_error i (ps_required_profession sub) with
                      | Some _ => (with_profession sub [], [(i, ps_required_profession sub)])
                      | None => (sub, [])
                      end in
  (with_capabilities sub (List.filter (λ cap, negb (bad_capability cap)) (ps_required_capabilities sub)), down).

(** The loop of the lenient parser. *)
Fixpoint soften (i n : nat) (plan : list PlannedSubIssue) : result (list PlannedSubIssue * list (nat * str)) str :=
  match plan with
  | [] => Ok ([], [])
  | sub :: plan =>
      if bool_decide (trim (ps_title sub) = []) then
        Err (ulit "第 " ++ show_nat i ++ ulit " 个子任务的 title 为空。每个子任务都必须有非空标题。")
      else
        let '(sub, down) := soften_sub i sub in
        match check_deps i n (ps_depends_on sub) with
        | Some e => Err e
        | None =>
            match soften (S i) n plan with
            | Err e => Err e
            | Ok (plan, downs) => Ok (sub :: plan, down ++ downs)
            end
        end
  end.

Definition parse_plan_lenient (raw : str) : option (result LenientPlan str) :=
  match decode_plan raw with
  | Err e => Some (Err e)
  | Ok plan =>
      match soften 0 (length plan) plan with
      | Err e => Some (Err e)
      | Ok (plan, downgraded) =>
          r ← check_graph plan; Some (match r with Err e => Err e | Ok _ => Ok (mkLenient plan downgraded) end)
      end
  end.
End Parse.

(** ** The search *)

#[local] Arguments cycle_message _ : simpl never.

Section Search.
Variable plan : list PlannedSubIssue.

Definition dep (i d : nat) : Prop := ∃ sub, plan !! i = Some sub ∧ d ∈ ps_depends_on sub.

Definition in_range : Prop := ∀ i d, dep i d → d < length plan.

(** Consecutive members depend on one another. *)
Definition chain (l : list nat) : Prop := ∀ k a b, l !! k = Some a → l !! S k = Some b → dep a b.

Definition is_cycle (members : list nat) : Prop :=
  ∃ a l, members = a :: l ++ [a] ∧ chain members.

Definition white (c : nat) : Prop := c ≠ 1 ∧ c ≠ 2.

#[local] Instance white_dec c : Decision (white c).
Proof. unfold white. apply _. Defined.

Definition whites (color : list nat) : nat := length (filter white color).

Record search_ok (color stack : list nat) : Prop := mkSearchOk {
  so_length : length color = length plan;
  so_grey : ∀ j, color !! j = Some 1 ↔ j ∈ stack;
  so_closed : ∀ j d, color !! j = Some 2 → dep j d → color !! d = Some 2;
  so_acyclic : ∀ j, color !! j = Some 2 → ¬ tc dep j j;
  so_chain : chain stack;
}.

Lemma chain_snoc l a : chain l → (∀ top, last l = Some top → dep top a) → chain (l ++ [a]).
Proof.
  intros Hl Ha k x y Hx Hy. destruct (decide (S k < length l)).
  - rewrite lookup_app_l in Hx, Hy by lia. by eapply Hl.
  - apply lookup_lt_Some in Hy as Hk. rewrite length_app in Hk. cbn in Hk. assert (S k = length l) as Hk' by lia.
    rewrite lookup_app_l in Hx by lia. rewrite lookup_app_r in Hy by lia. rewrite Hk', Nat.sub_diag in Hy. injection Hy as <-.
    apply Ha. rewrite last_lookup, <- Hk'. done.
Qed.

Lemma chain_drop l k : chain l → chain (drop k l).
Proof. intros Hl j a b. rewrite !lookup_drop. intros Ha Hb. apply (Hl (k + j) a b Ha). by rewrite Nat.add_succ_r in Hb. Qed.

Lemma chain_tail a l : chain (a :: l) → chain l.
Proof. intros H k x y Hx Hy. by apply (H (S k)). Qed.

Lemma chain_tc a l b : chain (a :: l ++ [b]) → tc dep a b.
Proof.
  revert a. induction l as [|x l IH]; intros a H.
  - apply tc_once. by apply (H 0).
  - apply (tc_l _ _ x); [by apply (H 0)|]. apply IH. by apply chain_tail in H.
Qed.

Lemma cycle_tc members : is_cycle members → ∃ v, tc dep v v.
Proof. intros (a & l & -> & H). exists a. by eapply chain_tc. Qed.

Lemma whites_insert color i c c' : color !! i = Some c → white c → ¬ white c' → S (whites (<[i := c']> color)) = whites color.
Proof.
  intros Hi Hc Hc'. unfold whites. rewrite <- (take_drop_middle color i c Hi) at 2.
  rewrite insert_take_drop by (by eapply lookup_lt_Some).
  rewrite !filter_app, !length_app, filter_cons_False, filter_cons_True by done. cbn. lia.
Qed.

Lemma whites_insert_same color i c c' : color !! i = Some c → ¬ white c → ¬ white c' → whites (<[i := c']> color) = whites color.
Proof.
  intros Hi Hc Hc'. unfold whites. rewrite <- (take_drop_middle color i c Hi) at 2.
  rewrite insert_take_drop by (by eapply lookup_lt_Some).
  rewrite !filter_app, !length_app, !filter_cons_False by done. done.
Qed.

(** What a call of [visit] does to a search in order. *)
Definition visited (targets : list nat) (color stack : list nat) (r : option (result Search str)) : Prop :=
  match r with
  | None => False
  | Some (Ok (color', stack')) =>
      stack' = stack ∧ search_ok color' stack ∧ (∀ i, i ∈ targets → color' !! i = Some 2) ∧
      (∀ j, color !! j = Some 2 → color' !! j = Some 2) ∧ whites color' ≤ whites color
  | Some (Err e) => ∃ members, e = cycle_message members ∧ is_cycle members
  end.

Lemma visit_all_spec f fuel deps : ∀ color stack,
  (∀ i color stack, whites color < fuel → search_ok color stack → i < length plan →
     (∀ top, last stack = Some top → dep top i) → visited [i] color stack (f i (color, stack))) →
  whites color < fuel → search_ok color stack → Forall (λ d, d < length plan) deps →
  (∀ d top, d ∈ deps → last stack = Some top → dep top d) →
  visited deps color stack (visit_all f deps (color, stack)).
Proof.
  induction deps as [|d deps IH]; intros color stack Hf Hw Hok Hr Hs; cbn [visit_all].
  { split; [done|]. split; [done|]. split; [by intros i ?%elem_of_nil|]. split; [done|lia]. }
  apply Forall_cons in Hr as [Hd Hr].
  pose proof (Hf d color stack Hw Hok Hd (λ top Ht, Hs d top (list_elem_of_here _ _) Ht)) as H.
  destruct (f d (color, stack)) as [[[color1 stack1]|e]|]; cbn; [|done|done].
  destruct H as (-> & Hok1 & Hd1 & Hb1 & Hw1).
  assert (visited deps color1 stack (visit_all f deps (color1, stack))) as K.
  { apply IH; [done|lia|done|done|]. intros d' top Hd' Ht. apply Hs; [by right|done]. }
  destruct (visit_all f deps (color1, stack)) as [[[color2 stack2]|e]|]; cbn in K; [|done|done].
  destruct K as (-> & Hok2 & Hd2 & Hb2 & Hw2). split; [done|]. split; [done|]. split; [|split; [auto|lia]].
  intros i [->|Hi]%elem_of_cons; [|by apply Hd2]. apply Hb2, Hd1. by left.
Qed.

Lemma grey_ok color stack i c : search_ok color stack → color !! i = Some c → white c →
  (∀ top, last stack = Some top → dep top i) → search_ok (<[i := 1]> color) (stack ++ [i]).
Proof.
  intros [H1 H2 H3 H4 H5] Hi [Hc1 Hc2] Htop.
  assert (∀ j, <[i := 1]> color !! j = Some 2 → color !! j = Some 2 ∧ j ≠ i) as Hb.
  { intros j. rewrite list_lookup_insert_Some. intros [(_ & [=] & _)|[Hn Hj]]; done. }
  split.
  - by rewrite length_insert.
  - intros j. rewrite elem_of_app, list_elem_of_singleton, <- H2. destruct (decide (i = j)) as [->|Hn].
    + rewrite list_lookup_insert_eq by (by eapply lookup_lt_Some). split; [by right|done].
    + rewrite list_lookup_insert_ne by done. split; [by left|intros [?| ->]; done].
  - intros j d Hj Hd. apply Hb in Hj as [Hj _]. specialize (H3 j d Hj Hd).
    rewrite list_lookup_insert_ne; [done|]. intros ->. congruence.
  - intros j Hj. apply Hb in Hj as [Hj _]. by apply H4.
  - by apply chain_snoc.
Qed.

Lemma black_ok color stack i : search_ok color (stack ++ [i]) → i ∉ stack →
  (∀ d, dep i d → color !! d = Some 2) → search_ok (<[i := 2]> color) stack.
Proof.
  intros [H1 H2 H3 H4 H5] Hi Hd.
  assert (color !! i = Some 1) as Hg by (apply H2, elem_of_app; right; by left).
  assert (∀ j d, color !! j = Some 2 → rtc dep j d → color !! d = Some 2) as Hrtc.
  { intros j d Hj Hr. induction Hr as [|j k d Hjk _ IH]; [done|]. apply IH. by eapply H3. }
  assert (∀ d, color !! d = Some 2 → <[i := 2]> color !! d = Some 2) as Hk.
  { intros d Hb. rewrite list_lookup_insert_ne; [done|]. intros ->. congruence. }
  split.
  - by rewrite length_insert.
  - intros j. destruct (decide (i = j)) as [->|Hn].
    + rewrite list_lookup_insert_eq by (by eapply lookup_lt_Some). split; done.
    + rewrite list_lookup_insert_ne, H2, elem_of_app, list_elem_of_singleton by done. split; [intros [?| ->]; done|by left].
  - intros j d. rewrite list_lookup_insert_Some. intros [(-> & _ & _)|[_ Hj]] Hjd; apply Hk; [by apply Hd|by eapply H3].
  - intros j. rewrite list_lookup_insert_Some. intros [(-> & _ & _)|[_ Hj]]; [|by apply H4].
    intros Ht. assert (∃ d, dep j d ∧ rtc dep d j) as (d & Hjd & Hr).
    { inversion Ht as [? ? Hjd|? d ? Hjd Hr]; subst; eexists; (split; [exact Hjd|]); [done|by apply tc_rtc]. }
    specialize (Hrtc d j (Hd d Hjd) Hr). congruence.
  - intros k a b Ha Hb. apply (H5 k a b); by apply lookup_app_l_Some.
Qed.

Lemma visit_spec fuel : ∀ i color stack, in_range → whites color < fuel → search_ok color stack → i < length plan →
  (∀ top, last stack = Some top → dep top i) → visited [i] color stack (visit fuel plan i (color, stack)).
Proof.
  induction fuel as [|fuel IH]; intros i color stack Hrange Hw Hok Hi Htop; [lia|]. cbn [visit].
  destruct (color !! i) as [c|] eqn:Ec; cbn [mbind option_bind].
  2: { apply lookup_ge_None in Ec. rewrite (so_length _ _ Hok) in Ec. lia. }
  destruct (bool_decide (c = 2)) eqn:E2.
  { apply bool_decide_eq_true in E2 as ->. split; [done|]. split; [done|]. split; [by intros j ->%list_elem_of_singleton|]. split; [done|lia]. }
  destruct (bool_decide (c = 1)) eqn:E1.
  - apply bool_decide_eq_true in E1 as ->. apply (so_grey _ _ Hok) in Ec as Hin. eexists. split; [done|].
    destruct (find_idx (λ s, bool_decide (s = i)) stack) as [[k x]|] eqn:Ef.
    + apply find_idx_Some in Ef as (Hk & Hx). apply bool_decide_eq_true in Hx as ->. cbn.
      rewrite (drop_S _ i k) by done. exists i, (drop (S k) stack). split; [done|].
      rewrite <- (drop_S _ i k) by done. apply chain_snoc; [by apply chain_drop, Hok|].
      intros top Ht. apply Htop. rewrite last_lookup in *. rewrite length_drop, lookup_drop in Ht.
      apply lookup_lt_Some in Hk. rewrite <- Ht. f_equal. lia.
    + exfalso. rewrite find_idx_None in Ef. specialize (Ef i Hin).
      by rewrite bool_decide_true in Ef.
  - apply bool_decide_eq_false in E1, E2. assert (white c) as Hc by done.
    destruct (plan !! i) as [sub|] eqn:Es; cbn [mbind option_bind]; [|apply lookup_ge_None in Es; lia].
    pose proof (whites_insert color i c 1 Ec Hc) as Hw1. specialize (Hw1 ltac:(unfold white; lia)).
    assert (visited (ps_depends_on sub) (<[i := 1]> color) (stack ++ [i])
      (visit_all (visit fuel plan) (ps_depends_on sub) (<[i := 1]> color, stack ++ [i]))) as K.
    { apply (visit_all_spec _ fuel); [by intros; apply IH|lia|by eapply grey_ok| |].
      - apply Forall_forall. intros d Hd. apply (Hrange i). by exists sub.
      - intros d top Hd. rewrite last_snoc. intros [= <-]. by exists sub. }
    destruct (visit_all _ _ _) as [[[color2 stack2]|e]|]; cbn in K |- *; [|done|done].
    destruct K as (-> & Hok2 & Hd2 & Hb2 & Hw2). rewrite removelast_last.
    assert (i ∉ stack) as Hni by (rewrite <- (so_grey _ _ Hok); congruence).
    assert (color2 !! i = Some 1) as Hg by (apply (so_grey _ _ Hok2), elem_of_app; right; by left).
    split; [done|]. split; [apply black_ok; [done|done|]|split; [|split]].
    + intros d (sub' & Hsub & Hd). rewrite Es in Hsub. injection Hsub as <-. by apply Hd2.
    + intros j ->%list_elem_of_singleton. apply list_lookup_insert_eq. by eapply lookup_lt_Some.
    + intros j Hj. assert (i ≠ j) by congruence. rewrite list_lookup_insert_ne by done. apply Hb2. by rewrite list_lookup_insert_ne.
    + rewrite (whites_insert_same color2 i 1 2 Hg); unfold white; lia.
Qed.

Definition acyclic_plan : Prop := ∀ v, ¬ tc dep v v.

Lemma detect_cycle_spec : in_range →
  match detect_cycle plan with
  | None => False
  | Some (Ok _) => acyclic_plan
  | Some (Err e) => ∃ members, e = cycle_message members ∧ is_cycle members
  end.
Proof.
  intros Hr. unfold detect_cycle.
  assert (whites (replicate (length plan) 0) < S (length plan)) as Hw.
  { unfold whites. apply Nat.lt_succ_r. etrans; [apply length_filter|]. by rewrite length_replicate. }
  assert (search_ok (replicate (length plan) 0) []) as Hok.
  { split.
    - by rewrite length_replicate.
    - intros j. rewrite elem_of_nil. split; [|done]. by intros [? _]%lookup_replicate.
    - intros j d [? _]%lookup_replicate. done.
    - intros j [? _]%lookup_replicate. done.
    - intros k a b. by rewrite lookup_nil. }
  pose proof (visit_all_spec (visit (S (length plan)) plan) (S (length plan)) (seq 0 (length plan)) _ [] (λ i c s, visit_spec _ i c s Hr) Hw Hok) as K.
  destruct (visit_all _ _ _) as [[[color stack]|e]|]; cbn [mbind option_bind].
  - destruct K as (_ & Hok' & Hb & _); [by apply Forall_seq; lia|done|]. intros v Hv. apply (so_acyclic _ _ Hok' v); [|done].
    apply Hb, elem_of_seq. assert (∃ d, dep v d) as (d & sub & Hs & _) by (inversion Hv; eauto). apply lookup_lt_Some in Hs. lia.
  - apply K; [by apply Forall_seq; lia|done].
  - apply K; [by apply Forall_seq; lia|done].
Qed.
End Search.

(** ** Shared files *)

Definition touches (sub : PlannedSubIssue) : list str := parse_touch_paths (ps_acceptance_criteria sub).

Definition declares (plan : list PlannedSubIssue) (i : nat) (path : str) : Prop :=
  ∃ sub, plan !! i = Some sub ∧ path ∈ touches sub.

Lemma parse_touch_NoDup s : NoDup (parse_touch_paths s).
Proof.
  unfold parse_touch_paths. assert (∀ l out, NoDup out → NoDup (foldl (λ out line,
    match strip_prefix (lit "[TOUCH]") (trim line) with
    | Some p => let p := trim p in if bool_decide (p = []) || bool_decide (p ∈ out) then out else out ++ [p]
    | None => out end) out l)) as H; [|apply H; constructor].
  induction l as [|line l IH]; intros out Hout; [done|]. cbn [foldl]. apply IH.
  destruct (strip_prefix _ _) as [p|]; [|done]. cbn zeta. destruct (bool_decide (trim p = [])); [done|].
  destruct (bool_decide (trim p ∈ out)) eqn:E; [done|]. apply bool_decide_eq_false in E. cbn [orb].
  apply NoDup_app. split; [done|]. split; [|apply NoDup_singleton]. intros x Hx ->%list_elem_of_singleton. done.
Qed.

(** The owners after one more sub-issue. *)
Definition add_owner (i : nat) (owners : gmap str (list nat)) (path : str) : gmap str (list nat) :=
  <[path := default [] (owners !! path) ++ [i]]> owners.

Lemma add_owners_lookup i paths path : ∀ owners, NoDup paths →
  default [] (foldl (add_owner i) owners paths !! path) =
  default [] (owners !! path) ++ (if decide (path ∈ paths) then [i] else []).
Proof.
  induction paths as [|p paths IH]; intros owners Hp; cbn [foldl].
  { rewrite decide_False by (by intros ?%elem_of_nil). by rewrite app_nil_r. }
  apply NoDup_cons in Hp as [Hn Hp]. rewrite IH by done. unfold add_owner. destruct (decide (p = path)) as [->|Hne].
  - rewrite lookup_insert_eq. cbn [default from_option]. rewrite decide_False by done. rewrite decide_True by (by left). by rewrite app_nil_r.
  - rewrite lookup_insert_ne by done. f_equal. destruct (decide (path ∈ paths)) as [Hin|Hin].
    + by rewrite decide_True by (by right).
    + rewrite decide_False; [done|]. by intros [->|?]%elem_of_cons.
Qed.

Lemma touch_owners_snoc plan sub : touch_owners (plan ++ [sub]) = foldl (add_owner (length plan)) (touch_owners plan) (touches sub).
Proof. unfold touch_owners. rewrite imap_app, foldl_app. cbn. by rewrite Nat.add_0_r. Qed.

Lemma declares_snoc plan sub i path :
  declares (plan ++ [sub]) i path ↔ declares plan i path ∨ (i = length plan ∧ path ∈ touches sub).
Proof.
  unfold declares. split.
  - intros (s & [Hs|[Hle Hs]]%lookup_app_Some & Hp); [left; eauto|]. right.
    apply list_lookup_singleton_Some in Hs as [Hi ->]. split; [lia|done].
  - intros [(s & Hs & Hp)|[-> Hp]]; [exists s; split; [by apply lookup_app_l_Some|done]|].
    exists sub. split; [|done]. by rewrite lookup_app_r, Nat.sub_diag by lia.
Qed.

Lemma touch_owners_spec plan path :
  StronglySorted lt (default [] (touch_owners plan !! path)) ∧
  ∀ i, i ∈ default [] (touch_owners plan !! path) ↔ declares plan i path.
Proof.
  induction plan as [|sub plan [IH1 IH2]] using rev_ind.
  { unfold touch_owners. cbn. rewrite lookup_empty. split; [constructor|]. intros i. rewrite elem_of_nil. split; [done|].
    intros (s & Hs & _). by rewrite lookup_nil in Hs. }
  rewrite touch_owners_snoc, add_owners_lookup by apply parse_touch_NoDup. split.
  - apply StronglySorted_app. split; [|split; [done|destruct (decide _); repeat constructor]].
    intros x y Hx Hy. apply IH2 in Hx as (s & Hs & _). apply lookup_lt_Some in Hs.
    destruct (decide _); [apply list_elem_of_singleton in Hy as ->; done|by apply elem_of_nil in Hy].
  - intros i. rewrite elem_of_app, IH2, declares_snoc. destruct (decide (path ∈ touches sub)) as [H|H].
    + rewrite list_elem_of_singleton. split; [intros [?| ->]; auto|intros [?|[-> _]]; auto].
    + rewrite elem_of_nil. split; [intros [?|[]]; auto|intros [?|[_ ?]]; [auto|done]].
Qed.

Definition edge (plan : list PlannedSubIssue) (a b : nat) : bool := depends plan a b || depends plan b a.

Lemma omap_nil_iff {A B} (f : A → option B) l : omap f l = [] ↔ ∀ x, x ∈ l → f x = None.
Proof.
  induction l as [|x l IH]; cbn.
  - split; [by intros _ x ?%elem_of_nil|done].
  - destruct (f x) as [y|] eqn:E.
    + split; [done|]. intros H. specialize (H x (list_elem_of_here _ _)). congruence.
    + rewrite IH. split; [intros H z [->|Hz]%elem_of_cons; auto|intros H z Hz; apply H; by right].
Qed.

Lemma pair_violations_nil plan path subs : StronglySorted lt subs →
  pair_violations plan path subs = [] ↔ ∀ a b, a ∈ subs → b ∈ subs → a < b → edge plan a b = true.
Proof.
  induction 1 as [|a subs Hs IH Ha]; cbn [pair_violations].
  { split; [by intros _ a b ?%elem_of_nil|done]. }
  rewrite Forall_forall in Ha. rewrite app_nil, IH, omap_nil_iff. split.
  - intros [H1 H2] x y [->|Hx]%elem_of_cons [->|Hy]%elem_of_cons Hlt; [lia| | |by apply H2].
    + specialize (H1 y Hy). unfold edge. by destruct (depends plan a y || depends plan y a).
    + specialize (Ha x Hx). lia.
  - intros H. split.
    + intros b Hb. specialize (H a b (list_elem_of_here _ _) (list_elem_of_further _ _ _ Hb) (Ha b Hb)). unfold edge in H. by rewrite H.
    + intros x y Hx Hy. apply H; by right.
Qed.

(** No two sub-issues write one file without an order between them. *)
Definition touch_ok (plan : list PlannedSubIssue) : Prop :=
  ∀ a b path, a < b → declares plan a path → declares plan b path → edge plan a b = true.

Lemma bind_nil_iff {A B} (f : A → list B) l : l ≫= f = [] ↔ ∀ x, x ∈ l → f x = [].
Proof.
  induction l as [|x l IH]; cbn; [split; [by intros _ x ?%elem_of_nil|done]|]. rewrite app_nil, IH.
  split; [intros [H1 H2] y [->|Hy]%elem_of_cons; auto|intros H; split; [apply H; by left|intros y Hy; apply H; by right]].
Qed.

Lemma touch_violations_nil plan : touch_violations plan = [] ↔ touch_ok plan.
Proof.
  unfold touch_violations. rewrite bind_nil_iff. split.
  - intros H a b path Hlt Ha Hb. destruct (touch_owners_spec plan path) as [Hs Hin].
    apply Hin in Ha. apply Hin in Hb. destruct (touch_owners plan !! path) as [l|] eqn:E; [|by apply elem_of_nil in Ha].
    cbn in Ha, Hb, Hs. assert ((path, l) ∈ merge_sort path_le (map_to_list (touch_owners plan))) as Hm.
    { rewrite merge_sort_Permutation. by apply elem_of_map_to_list. }
    specialize (H _ Hm). cbn beta iota in H. destruct (Nat.ltb_spec (length l) 2) as [Hl|Hl].
    + destruct l as [|x [|y l]]; [by apply elem_of_nil in Ha| |cbn in Hl; lia].
      apply list_elem_of_singleton in Ha, Hb. lia.
    + by apply (proj1 (pair_violations_nil plan path l Hs) H).
  - intros H [path l] Hm. rewrite merge_sort_Permutation in Hm. apply elem_of_map_to_list in Hm.
    destruct (touch_owners_spec plan path) as [Hs Hin]. rewrite Hm in Hs, Hin. cbn in Hs, Hin.
    destruct (length l <? 2); [done|]. apply pair_violations_nil; [done|]. intros a b Ha Hb Hlt.
    apply (H a b path Hlt); by apply Hin.
Qed.

Lemma analyze_shared_touch_spec plan : is_ok (analyze_shared_touch plan) = true ↔ touch_ok plan.
Proof. unfold analyze_shared_touch. rewrite <- touch_violations_nil. by destruct (touch_violations plan). Qed.

(** ** Well-formed plans *)

Definition profession_ok (p : str) : Prop := trim p = [] ∨ validate_slug (trim p) = Ok tt.

Record sub_ok (i n : nat) (sub : PlannedSubIssue) : Prop := mkSubOk {
  sb_title : trim (ps_title sub) ≠ [];
  sb_profession : profession_ok (ps_required_profession sub);
  sb_capabilities : Forall (λ cap, bad_capability cap = false) (ps_required_capabilities sub);
  sb_depends : Forall (λ d, d < n ∧ d ≠ i) (ps_depends_on sub);
}.

Record well_formed (plan : list PlannedSubIssue) : Prop := mkWellFormed {
  wl_nonempty : plan ≠ [];
  wl_max : length plan ≤ MAX_SUBISSUES;
  wl_subs : ∀ i sub, plan !! i = Some sub → sub_ok i (length plan) sub;
  wl_acyclic : acyclic_plan plan;
  wl_touch : touch_ok plan;
}.

Lemma profession_format_error_None i p : profession_format_error i p = None ↔ profession_ok p.
Proof.
  unfold profession_format_error, profession_ok. destruct (decide (trim p = [])) as [->|H].
  - split; [by left|done].
  - rewrite bool_decide_false by done. destruct (validate_slug (trim p)) as [[]|e]; [split; [by right|done]|].
    split; [done|by intros [?|?]].
Qed.

Lemma capabilities_format_error_None i caps :
  capabilities_format_error i caps = None ↔ Forall (λ cap, bad_capability cap = false) caps.
Proof.
  unfold capabilities_format_error. rewrite Forall_forall. destruct (List.find bad_capability caps) as [cap|] eqn:E.
  - split; [done|]. intros H. apply List.find_some in E as [Hin Hb]. rewrite (H cap) in Hb; [done|by apply list_elem_of_In].
  - split; [|done]. intros _ cap Hcap. apply (List.find_none _ _ E). by apply list_elem_of_In.
Qed.

Lemma check_deps_None i n deps : check_deps i n deps = None ↔ Forall (λ d, d < n ∧ d ≠ i) deps.
Proof.
  induction deps as [|d deps IH]; cbn [check_deps]; [split; [constructor|done]|]. rewrite Forall_cons, <- IH.
  destruct (Nat.leb_spec n d); [split; [done|lia]|]. destruct (Nat.eqb_spec d i); [split; [done|by intros [[_ ?] _]]|].
  split; [done|by intros [_ ?]].
Qed.

Lemma check_sub_None i n sub : check_sub i n sub = None ↔ sub_ok i n sub.
Proof.
  unfold check_sub. destruct (decide (trim (ps_title sub) = [])) as [Ht|Ht].
  { rewrite bool_decide_true by done. split; [done|by intros []]. }
  rewrite bool_decide_false by done. split.
  - destruct (profession_format_error _ _) eqn:E1; [done|]. destruct (capabilities_format_error _ _) eqn:E2; [done|].
    intros E3. split; [done|by apply (profession_format_error_None i)|by apply (capabilities_format_error_None i)|by apply check_deps_None].
  - intros [_ H2 H3 H4]. apply (profession_format_error_None i) in H2. apply (capabilities_format_error_None i) in H3.
    rewrite H2, H3. by apply check_deps_None.
Qed.

Lemma check_subs_None i n plan : check_subs i n plan = None ↔ ∀ k sub, plan !! k = Some sub → sub_ok (i + k) n sub.
Proof.
  revert i. induction plan as [|s plan IH]; intros i; cbn [check_subs]; [split; [by intros _ k sub H; rewrite lookup_nil in H|done]|].
  split.
  - destruct (check_sub i n s) eqn:E; [done|]. intros H [|k] sub Hk; cbn in Hk.
    + injection Hk as <-. rewrite Nat.add_0_r. by apply check_sub_None.
    + rewrite Nat.add_succ_r. by apply (proj1 (IH (S i)) H).
  - intros H. pose proof (H 0 s eq_refl) as H0. rewrite Nat.add_0_r in H0. apply check_sub_None in H0. rewrite H0.
    apply IH. intros k sub Hk. specialize (H (S k) sub Hk). by rewrite Nat.add_succ_r in H.
Qed.

Lemma subs_in_range plan : (∀ i sub, plan !! i = Some sub → sub_ok i (length plan) sub) → in_range plan.
Proof.
  intros H i d (sub & Hs & Hd). destruct (H i sub Hs) as [_ _ _ Hf]. rewrite Forall_forall in Hf. by apply Hf.
Qed.

Lemma check_graph_spec plan : in_range plan →
  match check_graph plan with
  | None => False
  | Some (Ok _) => acyclic_plan plan ∧ touch_ok plan
  | Some (Err _) => ¬ (acyclic_plan plan ∧ touch_ok plan)
  end.
Proof.
  intros Hr. unfold check_graph. pose proof (detect_cycle_spec plan Hr) as H.
  destruct (detect_cycle plan) as [[[]|e]|]; cbn [mbind option_bind]; [| |done].
  - pose proof (analyze_shared_touch_spec plan) as K. destruct (analyze_shared_touch plan) as [[]|e]; cbn in K.
    + split; [done|]. by apply K.
    + intros [_ Ht]. apply K in Ht. done.
  - intros [Ha _]. destruct H as (members & _ & Hc). apply cycle_tc in Hc as [v Hv]. by apply (Ha v).
Qed.

Lemma decode_plan_Ok {JS : PlanJson} raw plan : decode_plan raw = Ok plan ↔
  (∃ text, extract_json_array raw = Some text ∧ plan_from_str text = Ok plan) ∧ plan ≠ [] ∧ length plan ≤ MAX_SUBISSUES.
Proof.
  unfold decode_plan. destruct (extract_json_array raw) as [text|]; [|split; [done|by intros [(? & ? & _) _]]].
  destruct (plan_from_str text) as [plan'|e] eqn:E; [|split; [done|intros [(? & [= <-] & ?) _]; congruence]].
  split.
  - destruct (decide (plan' = [])) as [->|Hn]; [done|]. rewrite bool_decide_false by done.
    destruct (Nat.ltb_spec MAX_SUBISSUES (length plan')); [done|]. intros [= <-]. eauto.
  - intros [(? & [= <-] & E') [Hn Hl]]. rewrite E in E'. injection E' as ->. rewrite bool_decide_false by done.
    destruct (Nat.ltb_spec MAX_SUBISSUES (length plan)); [lia|done].
Qed.

(** The strict parser, on each branch. *)
Lemma parse_plan_Ok {JS : PlanJson} raw plan : parse_plan raw = Some (Ok plan) →
  (∃ text, extract_json_array raw = Some text ∧ plan_from_str text = Ok plan) ∧ well_formed plan.
Proof.
  unfold parse_plan. pose proof (decode_plan_Ok raw) as Hd. destruct (decode_plan raw) as [plan'|e]; [|done].
  destruct (proj1 (Hd plan') eq_refl) as [H [H3 H4]].
  destruct (check_subs 0 (length plan') plan') eqn:E; [done|]. pose proof (proj1 (check_subs_None _ _ _) E) as Hsub.
  pose proof (check_graph_spec plan' (subs_in_range plan' Hsub)) as Hg.
  destruct (check_graph plan') as [[[]|e]|]; cbn; intros [= ->]. destruct Hg. split; [done|by split].
Qed.

Lemma parse_plan_Err {JS : PlanJson} raw : (∀ plan, parse_plan raw ≠ Some (Ok plan)) →
  ∃ e, parse_plan raw = Some (Err e) ∧
    ¬ ∃ text plan, extract_json_array raw = Some text ∧ plan_from_str text = Ok plan ∧ well_formed plan.
Proof.
  intros Hno. assert (∀ plan, decode_plan raw = Ok plan → well_formed plan → parse_plan raw = Some (Ok plan)) as Hacc.
  { intros plan Hd [_ _ Hs Ha Ht]. unfold parse_plan. rewrite Hd, (proj2 (check_subs_None 0 _ _) Hs).
    pose proof (check_graph_spec plan (subs_in_range plan Hs)) as Hg.
    destruct (check_graph plan) as [[[]|e]|]; cbn; [done| |done]. by destruct Hg. }
  assert (∃ e, parse_plan raw = Some (Err e)) as [e He].
  { unfold parse_plan in *. destruct (decode_plan raw) as [plan|e]; [|eauto].
    destruct (check_subs 0 (length plan) plan) eqn:E; [eauto|]. pose proof (proj1 (check_subs_None _ _ _) E) as Hsub.
    pose proof (check_graph_spec plan (subs_in_range plan Hsub)) as Hg.
    destruct (check_graph plan) as [[[]|e]|]; cbn in *; [by destruct (Hno plan)|eauto|done]. }
  exists e. split; [done|]. intros (text & plan & H1 & H2 & Hw). apply (Hno plan), Hacc; [|done].
  apply decode_plan_Ok. destruct Hw. eauto.
Qed.

(** ** Properties *)

(** Also: the parser always answers, and accepts exactly the answers whose array
    parses to a well-formed plan: up to twenty titled sub-issues with legal
    professions and capabilities, dependencies in range and free of cycles, and
    an edge between any two that write the same file. *)
Theorem parse_plan_spec {JS : PlanJson} raw :
  match parse_plan raw with
  | None => False
  | Some (Ok plan) =>
      (∃ text, extract_json_array raw = Some text ∧ plan_from_str text = Ok plan) ∧ well_formed plan
  | Some (Err _) =>
      ¬ ∃ text plan, extract_json_array raw = Some text ∧ plan_from_str text = Ok plan ∧ well_formed plan
  end.
Proof.
  destruct (parse_plan raw) as [[plan|e]|] eqn:E.
  - by apply parse_plan_Ok.
  - destruct (parse_plan_Err raw) as (e' & _ & H); [congruence|done].
  - destruct (parse_plan_Err raw) as (e' & H & _); congruence.
Qed.

(** A cycle that is reported is one of the plan's. *)
Definition reports_cycle (plan : list PlannedSubIssue) (e : str) : Prop :=
  ∃ members, e = cycle_message members ∧ is_cycle plan members.

(** Also: the search comes to an end on every plan whose dependencies are in
    range; it reports a cycle exactly when there is one, and the one it names is
    a cycle of the plan. *)
Theorem detect_cycle_exact plan : in_range plan →
  (detect_cycle plan = Some (Ok tt) ∧ acyclic_plan plan) ∨
  (∃ e, detect_cycle plan = Some (Err e) ∧ reports_cycle plan e ∧ ¬ acyclic_plan plan).
Proof.
  intros Hr. pose proof (detect_cycle_spec plan Hr) as H. destruct (detect_cycle plan) as [[[]|e]|]; [by left| |done].
  right. exists e. split; [done|]. split; [done|]. intros Ha. destruct H as (members & _ & Hc).
  apply cycle_tc in Hc as [v Hv]. by apply (Ha v).
Qed.

(** Also: an accepted plan cannot get stuck: whatever is finished, as long as
    something is left one of the rest has all its dependencies finished. *)
Theorem plan_never_stuck {JS : PlanJson} raw plan (finished : gset nat) i :
  parse_plan raw = Some (Ok plan) → i < length plan → i ∉ finished →
  ∃ j, j < length plan ∧ (j ∉ finished) ∧ ∀ d, dep plan j d → d ∈ finished.
Proof.
  intros Hp Hi Hf. apply parse_plan_Ok in Hp as [_ [_ _ Hs Ha _]].
  pose proof (subs_in_range plan Hs) as Hr.
  assert (sn (dep plan) i) as Hsn.
  { apply tc_finite_sn; [intros v; apply Ha|]. eapply pred_finite_impl; [apply (pred_finite_lt (length plan))|].
    intros x Hx. cbn. clear -Hr Hx. induction Hx as [i x Hx|i k x _ _ IH]; [by eapply Hr|done]. }
  revert Hi Hf. induction Hsn as [j _ IH]. intros Hj Hfj.
  destruct (plan !! j) as [sub|] eqn:E; [|apply lookup_ge_None in E; lia].
  destruct (decide (Forall (λ d, d ∈ finished) (ps_depends_on sub))) as [Hall|Hnot].
  - exists j. split; [done|]. split; [done|]. intros d (sub' & Hsub & Hd). rewrite E in Hsub. injection Hsub as <-.
    rewrite Forall_forall in Hall. by apply Hall.
  - apply not_Forall_Exists in Hnot; [|apply _]. apply Exists_exists in Hnot as (d & Hd & Hdf).
    assert (dep plan j d) as Hjd by (by exists sub). apply (IH d Hjd); [by eapply Hr|done].
Qed.

Lemma filter_all {A} (f : A → bool) l : Forall (λ x, f x = true) l → List.filter f l = l.
Proof. induction 1 as [|x l Hx _ IH]; cbn; [done|]. by rewrite Hx, IH. Qed.

Lemma with_capabilities_same sub caps : ps_required_capabilities sub = caps → with_capabilities sub caps = sub.
Proof. by destruct sub; intros <-. Qed.

(** What the lenient loop makes of a sub-issue. *)
Definition softened (i : nat) (sub sub' : PlannedSubIssue) : Prop :=
  sub' = with_capabilities (with_profession sub (if bool_decide (profession_format_error i (ps_required_profession sub) = None)
                                                 then ps_required_profession sub else []))
           (List.filter (λ cap, negb (bad_capability cap)) (ps_required_capabilities sub)).

Lemma soften_sub_spec i sub :
  let '(sub', down) := soften_sub i sub in
  softened i sub sub' ∧ ps_title sub' = ps_title sub ∧ ps_depends_on sub' = ps_depends_on sub ∧
  profession_ok (ps_required_profession sub') ∧ Forall (λ cap, bad_capability cap = false) (ps_required_capabilities sub') ∧
  (∀ n, sub_ok i n sub → sub' = sub ∧ down = []).
Proof.
  assert (∀ caps, Forall (λ cap, bad_capability cap = false) (List.filter (λ cap, negb (bad_capability cap)) caps)) as Hc.
  { intros caps. apply Forall_forall. intros cap Hcap. apply list_elem_of_In in Hcap. apply List.filter_In in Hcap as [_ Hcap].
    by apply negb_true_iff in Hcap. }
  unfold soften_sub, softened. destruct (profession_format_error i (ps_required_profession sub)) as [e|] eqn:Ep.
  - split; [done|]. split; [done|]. split; [done|]. split; [by left|]. split; [apply Hc|].
    intros n [_ Hp _ _]. apply (profession_format_error_None i) in Hp. congruence.
  - split; [by destruct sub|]. split; [done|]. split; [done|]. split; [by apply (profession_format_error_None i)|]. split; [apply Hc|].
    intros n [_ _ Hcaps _]. split; [|done]. apply with_capabilities_same. symmetry. apply filter_all.
    eapply Forall_impl; [exact Hcaps|]. cbn. by intros cap ->.
Qed.

(** The lenient loop on sub-issues that are all right. *)
Lemma soften_ok i n plan : (∀ k sub, plan !! k = Some sub → sub_ok (i + k) n sub) → soften i n plan = Ok (plan, []).
Proof.
  revert i. induction plan as [|s plan IH]; intros i H; [done|]. cbn [soften].
  pose proof (H 0 s eq_refl) as Hs. rewrite Nat.add_0_r in Hs. pose proof (soften_sub_spec i s) as K.
  destruct (soften_sub i s) as [s' down]. destruct K as (_ & _ & _ & _ & _ & K). destruct (K n Hs) as [-> ->].
  destruct Hs as [Ht _ _ Hd]. rewrite bool_decide_false by done. apply check_deps_None in Hd. rewrite Hd. rewrite (IH (S i)); [done|].
  intros k sub Hk. specialize (H (S k) sub Hk). by rewrite Nat.add_succ_r in H.
Qed.

Lemma soften_spec i n plan plan' downs : soften i n plan = Ok (plan', downs) →
  length plan' = length plan ∧
  (∀ k sub, plan !! k = Some sub → ∃ sub', plan' !! k = Some sub' ∧ softened (i + k) sub sub') ∧
  (∀ k sub', plan' !! k = Some sub' → sub_ok (i + k) n sub').
Proof.
  revert i plan' downs. induction plan as [|s plan IH]; intros i plan' downs H; cbn [soften] in H.
  { injection H as <- <-. split; [done|]. split; intros k sub Hk; by rewrite lookup_nil in Hk. }
  destruct (bool_decide (trim (ps_title s) = [])) eqn:Et; [done|]. apply bool_decide_eq_false in Et.
  pose proof (soften_sub_spec i s) as K. destruct (soften_sub i s) as [s' down]. destruct K as (K1 & K2 & K3 & K4 & K5 & _).
  destruct (check_deps i n (ps_depends_on s')) eqn:Ed; [done|].
  destruct (soften (S i) n plan) as [[plan1 downs1]|e] eqn:Es; [|done]. injection H as <- <-.
  destruct (IH (S i) plan1 downs1 Es) as (H1 & H2 & H3). split; [cbn; by rewrite H1|]. split.
  - intros [|k] sub Hk; cbn in Hk.
    + injection Hk as <-. exists s'. by rewrite Nat.add_0_r.
    + destruct (H2 k sub Hk) as (sub' & ? & ?). exists sub'. by rewrite Nat.add_succ_r.
  - intros [|k] sub Hk; cbn in Hk; [|rewrite Nat.add_succ_r; by apply H3]. injection Hk as <-. rewrite Nat.add_0_r.
    split; [by rewrite K2|done|done|by apply check_deps_None].
Qed.

(** Also: the lenient parser of the last round accepts every plan the strict one
    accepts, unchanged; and what it accepts is well-formed, the parsed plan with
    illegal professions emptied and illegal capabilities left out. *)
Theorem lenient_spec {JS : PlanJson} raw :
  (∀ plan, parse_plan raw = Some (Ok plan) → parse_plan_lenient raw = Some (Ok (mkLenient plan []))) ∧
  (∀ lp, parse_plan_lenient raw = Some (Ok lp) →
     well_formed (lp_plan lp) ∧
     ∃ text plan, extract_json_array raw = Some text ∧ plan_from_str text = Ok plan ∧
       ∀ k sub, plan !! k = Some sub → ∃ sub', lp_plan lp !! k = Some sub' ∧ softened k sub sub').
Proof.
  unfold parse_plan, parse_plan_lenient. pose proof (decode_plan_Ok raw) as Hd.
  destruct (decode_plan raw) as [plan|e]; [|by split].
  destruct (proj1 (Hd plan) eq_refl) as [(text & H1 & H2) [H3 H4]]. split.
  - intros plan' Hp. destruct (check_subs 0 (length plan) plan) eqn:E; [done|].
    rewrite soften_ok by (by apply check_subs_None). destruct (check_graph plan) as [[[]|]|]; cbn in *; by simplify_eq.
  - intros lp Hlp. destruct (soften 0 (length plan) plan) as [[plan' downs]|e] eqn:Es; [|done].
    destruct (soften_spec 0 _ _ _ _ Es) as (K1 & K2 & K3). rewrite <- K1 in K3.
    pose proof (check_graph_spec plan' (subs_in_range plan' K3)) as Hg.
    destruct (check_graph plan') as [[[]|e]|]; cbn in Hlp; simplify_eq. cbn. destruct Hg. split; [|eauto 6]. split; try done.
    + intros ->. destruct plan; done.
    + by rewrite K1.
Qed.

(** ** Witnesses *)

Definition demo_sub (title : string) (deps : list nat) (criteria : string) : PlannedSubIssue :=
  mkSub (lit title) [] [] [] (lit "dev:rust") [lit "docker"] (lit criteria) deps.

Definition demo_plan : list PlannedSubIssue :=
  [demo_sub "a" [] "[TOUCH] src/x"; demo_sub "b" [0] "[TOUCH] src/x "; demo_sub "c" [0; 1] ""].

Definition demo_json : PlanJson := {| plan_from_str := λ _, Ok demo_plan |}.

Definition looping_plan : list PlannedSubIssue := [demo_sub "a" [1] ""; demo_sub "b" [2] ""; demo_sub "c" [1] ""].

Lemma detect_cycle_exact_witness :
  detect_cycle looping_plan = Some (Err (cycle_message [1; 2; 1])) ∧ ¬ acyclic_plan looping_plan.
Proof.
  assert (in_range looping_plan) as Hr.
  { intros i d (sub & Hs & Hd).
    destruct i as [|[|[|i]]]; cbn in Hs; simplify_eq; cbn in Hd; apply list_elem_of_singleton in Hd as ->; cbn; lia. }
  assert (detect_cycle looping_plan = Some (Err (cycle_message [1; 2; 1]))) as E by (by vm_compute).
  split; [exact E|]. destruct (detect_cycle_exact looping_plan Hr) as [[H _]|(e & _ & _ & H)]; [|exact H].
  rewrite E in H. discriminate H.
Defined.

Lemma plan_never_stuck_witness :
  ∃ j, j < length demo_plan ∧ (j ∉ ({[0]} : gset nat)) ∧ ∀ d, dep demo_plan j d → d ∈ ({[0]} : gset nat).
Proof.
  refine (@plan_never_stuck demo_json (lit "[]") demo_plan {[0]} 2 _ _ _).
  - by vm_compute.
  - cbn. lia.
  - by apply not_elem_of_singleton.
Defined.
