(* ===== verification/BoardStore.v ===== *)
(** * Issues and dispatches of the board store

    The status machine of an issue ([nemesis-board/src/state_machine.rs],
    [models.rs]) and the operations of [nemesis-board/src/store.rs] that change a
    status, an assignment or a dispatch row, each with the comments, activity
    rows and notifications it writes.

    The tables are maps and lists in the order of their row ids; an operation
    holds the connection lock, so concurrent callers are a sequence of
    operations.  Times of day and columns nothing here reads are left out.
    SQLite's failures are an argument ([Sql]): a statement that reads, one that
    writes (the transaction rolls back), the statements whose failure rolls
    nothing back, and the read after the commit. *)
From S2P Require Import Prelude RustStr.
Local Open Scope nb_scope.

(** ** Statuses *)

Inductive IssueStatus := Backlog | Todo | InProgress | InReview | Done | Blocked | Cancelled.

#[global] Instance IssueStatus_eq_dec : EqDecision IssueStatus.
Proof. solve_decision. Defined.

Definition status_as_str (s : IssueStatus) : str :=
  match s with
  | Backlog => lit "backlog" | Todo => lit "todo" | InProgress => lit "in_progress" | InReview => lit "in_review"
  | Done => lit "done" | Blocked => lit "blocked" | Cancelled => lit "cancelled"
  end.

Definition status_from_str (s : str) : option IssueStatus :=
  if bool_decide (s = lit "backlog") then Some Backlog
  else if bool_decide (s = lit "todo") then Some Todo
  else if bool_decide (s = lit "in_progress") then Some InProgress
  else if bool_decide (s = lit "in_review") then Some InReview
  else if bool_decide (s = lit "done") then Some Done
  else if bool_decide (s = lit "blocked") then Some Blocked
  else if bool_decide (s = lit "cancelled") then Some Cancelled
  else None.

Definition is_terminal (s : IssueStatus) : bool := match s with Done | Cancelled => true | _ => false end.

Definition allowed_targets (s : IssueStatus) : str :=
  match s with
  | Backlog => lit "todo/in_progress/done/blocked/cancelled"
  | Todo => lit "in_progress/done/blocked/cancelled"
  | InProgress => lit "in_review/done/blocked/cancelled"
  | InReview => lit "in_progress/done/blocked/cancelled"
  | Blocked => lit "todo/in_progress/cancelled"
  | Done => ulit "（终态）"
  | Cancelled => ulit "backlog（issue.reopen）"
  end.

Definition can_transition (from to : IssueStatus) : bool :=
  if bool_decide (from = to) then false
  else
    match from, to with
    | Backlog, (Todo | InProgress | Done | Blocked | Cancelled) => true
    | Todo, (InProgress | Done | Blocked | Cancelled) => true
    | InProgress, (InReview | Done | Blocked | Cancelled) => true
    | InReview, (InProgress | Done | Blocked | Cancelled) => true
    | Blocked, (Todo | InProgress | Cancelled) => true
    | Cancelled, Backlog => true
    | _, _ => false
    end.

Definition validate_transition (from to : IssueStatus) : result unit str :=
  if bool_decide (from = to) then Err (ulit "issue 已处于 " ++ status_as_str from ++ ulit " 状态")
  else if can_transition from to then Ok tt
  else Err (ulit "非法状态转移 " ++ status_as_str from ++ ulit " → " ++ status_as_str to ++ ulit "（" ++ status_as_str from
            ++ ulit " 可转移到 " ++ allowed_targets from ++ ulit "）").

(** ** Tables *)

Inductive AssignmentType := ManagerSelf | Worker.

#[global] Instance AssignmentType_eq_dec : EqDecision AssignmentType.
Proof. solve_decision. Defined.

Definition assignment_as_str (a : AssignmentType) : str :=
  match a with ManagerSelf => lit "manager_self" | Worker => lit "worker" end.

Record Actor := mkActor { at_kind : str; at_id : str }.

#[global] Instance Actor_eq_dec : EqDecision Actor.
Proof. solve_decision. Defined.

Definition actor_system (id : str) : Actor := mkActor (lit "system") id.

Record Issue := mkIssue {
  is_number : str;
  is_title : str;
  is_status : IssueStatus;
  is_assignee : option AssignmentType;
  is_assignee_id : option str;
  is_parent : option Z;
  is_position : Z;
  is_hidden : bool;
}.

Inductive CommentType := CStatusChange | CSystem.

Record Comment := mkComment { cm_issue : Z; cm_author : Actor; cm_content : str; cm_ctype : CommentType }.

Record Activity := mkActivity { ac_issue : Z; ac_actor : Actor; ac_action : str; ac_details : str }.

Record Notification := mkNotification { nt_recipient : Actor; nt_kind : str; nt_title : str; nt_content : str; nt_issue : Z }.

Inductive DispatchState := DISPATCHED | RUNNING | DDONE | FAILED | CANCELLED.

#[global] Instance DispatchState_eq_dec : EqDecision DispatchState.
Proof. solve_decision. Defined.

Record DispatchRecord := mkDispatch { dp_task_id : str; dp_issue_id : Z; dp_worker_id : str; dp_state : DispatchState }.

Record Store := mkStore {
  bs_issues : gmap Z Issue;
  bs_comments : list Comment;
  bs_activity : list Activity;
  bs_notifications : list Notification;
  bs_dispatches : list DispatchRecord;
  bs_dependencies : list (Z * Z);
}.

Record Sql := mkSql { sq_read : option str; sq_write : option str; sq_note : bool; sq_reread : option str }.

Definition sql_ok : Sql := mkSql None None true None.

(** ** Statements *)

Definition show_Z (n : Z) : str := lit (pretty n).

(** A string as [serde_json] prints it. *)
Definition json_char (c : char) : str :=
  if bool_decide (c = c_dquote) || bool_decide (c = c_backslash) then [c_backslash; c]
  else if bool_decide (c = 8%N) then [c_backslash; ch "b"]
  else if bool_decide (c = 9%N) then [c_backslash; ch "t"]
  else if bool_decide (c = 10%N) then [c_backslash; ch "n"]
  else if bool_decide (c = 12%N) then [c_backslash; ch "f"]
  else if bool_decide (c = 13%N) then [c_backslash; ch "r"]
  else if (c <? 32)%N then [c_backslash; ch "u"; ch "0"; ch "0"; hex_digit (c / 16); hex_digit (c mod 16)]
  else [c].

Definition quoted (s : str) : str := [c_dquote] ++ mjoin (json_char <$> s) ++ [c_dquote].
Definition arrow : str := ulit "→".

Definition not_found (id : Z) : str := lit "issue " ++ show_Z id ++ lit " not found".

Definition with_issues (st : Store) (m : gmap Z Issue) : Store :=
  mkStore m (bs_comments st) (bs_activity st) (bs_notifications st) (bs_dispatches st) (bs_dependencies st).
Definition with_dispatches (st : Store) (l : list DispatchRecord) : Store :=
  mkStore (bs_issues st) (bs_comments st) (bs_activity st) (bs_notifications st) l (bs_dependencies st).

Definition set_issue (st : Store) (id : Z) (i : Issue) : Store := with_issues st (<[id := i]> (bs_issues st)).

Definition set_status (i : Issue) (s : IssueStatus) : Issue :=
  mkIssue (is_number i) (is_title i) s (is_assignee i) (is_assignee_id i) (is_parent i) (is_position i) (is_hidden i).
Definition set_assignee (i : Issue) (a : option AssignmentType) (id : option str) : Issue :=
  mkIssue (is_number i) (is_title i) (is_status i) a id (is_parent i) (is_position i) (is_hidden i).
Definition set_position (i : Issue) (p : Z) : Issue :=
  mkIssue (is_number i) (is_title i) (is_status i) (is_assignee i) (is_assignee_id i) (is_parent i) p (is_hidden i).
Definition unhide (i : Issue) : Issue :=
  mkIssue (is_number i) (is_title i) (is_status i) (is_assignee i) (is_assignee_id i) (is_parent i) (is_position i) false.

Definition insert_comment (st : Store) (c : Comment) : Store :=
  mkStore (bs_issues st) (bs_comments st ++ [c]) (bs_activity st) (bs_notifications st) (bs_dispatches st) (bs_dependencies st).
Definition insert_activity (st : Store) (a : Activity) : Store :=
  mkStore (bs_issues st) (bs_comments st) (bs_activity st ++ [a]) (bs_notifications st) (bs_dispatches st) (bs_dependencies st).
Definition insert_notification (st : Store) (n : Notification) : Store :=
  mkStore (bs_issues st) (bs_comments st) (bs_activity st) (bs_notifications st ++ [n]) (bs_dispatches st) (bs_dependencies st).

Definition get_issue (sql : option str) (id : Z) (st : Store) : result Issue str :=
  match sql with
  | Some e => Err e
  | None => match bs_issues st !! id with Some i => Ok i | None => Err (not_found id) end
  end.

(** The commit of a transaction that answers with the row read again. *)
Definition commit (sql : Sql) (id : Z) (st st' : Store) : Store * result Issue str :=
  match sq_write sql with
  | Some e => (st, Err e)
  | None => (st', get_issue (sq_reread sql) id st')
  end.

Definition active (d : DispatchRecord) : bool := match dp_state d with DISPATCHED | RUNNING => true | _ => false end.

Definition has_active_dispatch (issue : Z) (st : Store) : bool :=
  existsb (λ d, bool_decide (dp_issue_id d = issue) && active d) (bs_dispatches st).

(** The latest active row. *)
Definition get_active_dispatch (issue : Z) (st : Store) : option DispatchRecord :=
  List.find (λ d, bool_decide (dp_issue_id d = issue) && active d) (rev (bs_dispatches st)).

Definition get_dispatch (task : str) (st : Store) : option DispatchRecord :=
  List.find (λ d, bool_decide (dp_task_id d = task)) (bs_dispatches st).

Definition dependencies_of (id : Z) (st : Store) : list Z :=
  snd <$> filter (λ e, fst e = id) (bs_dependencies st).

(** ** Operations on issues *)

Definition notify_assignee (actor : Actor) (id : Z) (old : Issue) (note : str) (st : Store) : Store :=
  match is_assignee old, is_assignee_id old with
  | Some at_, Some aid =>
      let assignee := mkActor (assignment_as_str at_) aid in
      if bool_decide (assignee = actor) then st
      else insert_notification st
             (mkNotification assignee (lit "status_changed") (is_number old ++ lit " " ++ is_title old) note id)
  | _, _ => st
  end.

Definition transition_note (from to : IssueStatus) : str := status_as_str from ++ ulit " → " ++ status_as_str to.

Definition transition_details (from to : IssueStatus) : str :=
  lit "{" ++ quoted (lit "from") ++ lit ":" ++ quoted (status_as_str from) ++ lit ","
  ++ quoted (lit "to") ++ lit ":" ++ quoted (status_as_str to) ++ lit "}".

Definition skip_review_note (from : IssueStatus) (actor : Actor) : str :=
  ulit "⚠ 跳过评审直达完成：" ++ status_as_str from ++ ulit " → done（操作者 " ++ at_kind actor ++ lit "/" ++ at_id actor
  ++ ulit "）。本单未经验收链，如需正式验收请走 in_review。".

Definition transition_issue (sql : Sql) (id : Z) (to : IssueStatus) (actor : Actor) (st : Store) : Store * result Issue str :=
  match get_issue (sq_read sql) id st with
  | Err e => (st, Err e)
  | Ok old =>
      match validate_transition (is_status old) to with
      | Err e => (st, Err e)
      | Ok _ =>
          let note := transition_note (is_status old) to in
          let st1 := set_issue st id (set_status old to) in
          let st1 := insert_comment st1 (mkComment id actor note CStatusChange) in
          let st1 := if bool_decide (to = Done) && negb (bool_decide (is_status old = InReview))
                        && negb (bool_decide (at_kind actor = lit "agent")) && sq_note sql
                     then insert_comment st1 (mkComment id (actor_system (lit "audit")) (skip_review_note (is_status old) actor) CSystem)
                     else st1 in
          let st1 := insert_activity st1 (mkActivity id actor (lit "status_changed") (transition_details (is_status old) to)) in
          commit sql id st (notify_assignee actor id old note st1)
      end
  end.

Definition rollback_details (prev : IssueStatus) (prev_id : option str) : str :=
  ulit "送达失败回退：in_progress → " ++ status_as_str prev ++ ulit "（指派恢复为 " ++ default (ulit "（无）") prev_id ++ ulit "）".

Definition rollback_dispatch_failure (sql : Sql) (id : Z) (prev : IssueStatus) (prev_assignee : option AssignmentType)
    (prev_assignee_id : option str) (actor : Actor) (st : Store) : Store * result bool str :=
  match get_issue (sq_read sql) id st with
  | Err e => (st, Err e)
  | Ok old =>
      if negb (bool_decide (is_status old = InProgress)) || bool_decide (prev = InProgress) then (st, Ok false)
      else
        match sq_write sql with
        | Some e => (st, Err e)
        | None =>
            if has_active_dispatch id st then (st, Ok false)
            else
              let st1 := set_issue st id (set_assignee (set_status old prev) prev_assignee prev_assignee_id) in
              (insert_activity st1 (mkActivity id actor (lit "dispatch_rolled_back") (rollback_details prev prev_assignee_id)), Ok true)
        end
  end.

(** The checks of [reopen_issue] before the transition. *)
Definition reopen_guard (sql : Sql) (old : Issue) (id : Z) (st : Store) : result unit str :=
  match is_status old with
  | Cancelled =>
      _ <-? match is_parent old with
            | None => Ok tt
            | Some pid =>
                parent <-? get_issue (sq_read sql) pid st;
                if bool_decide (is_status parent = Cancelled)
                then Err (ulit "父单 " ++ is_number parent ++ ulit " 已取消：子单不可单独 reopen，请先 reopen 父单") else Ok tt
            end;
      foldr (λ up_id r,
        up <-? get_issue (sq_read sql) up_id st;
        if bool_decide (is_status up = Cancelled)
        then Err (ulit "上游依赖 " ++ is_number up ++ ulit " 已取消：本单不可单独 reopen，请先恢复上游") else r)
        (Ok tt) (dependencies_of id st)
  | s => Err (is_number old ++ ulit " 当前状态为 " ++ status_as_str s ++ ulit "，只有已取消（cancelled）单可 reopen")
  end.

(** The second transaction runs after the first is committed: [sql2] is its luck. *)
Definition reopen_issue (sql sql2 : Sql) (id : Z) (actor : Actor) (st : Store) : Store * result Issue str :=
  match get_issue (sq_read sql) id st with
  | Err e => (st, Err e)
  | Ok old =>
      match reopen_guard sql old id st with
      | Err e => (st, Err e)
      | Ok _ =>
          let '(st1, r) := transition_issue sql id Backlog actor st in
          match r with
          | Err e => (st1, Err e)
          | Ok issue =>
              let st2 := set_issue st1 id (unhide issue) in
              let st2 := insert_comment st2 (mkComment id (actor_system (lit "board"))
                           (ulit "♻ " ++ is_number issue ++ ulit "「" ++ is_title issue ++ ulit "」由 " ++ at_kind actor ++ lit "/" ++ at_id actor
                            ++ ulit " reopen：cancelled → backlog（时间见本条评论时间戳）") CSystem) in
              commit sql2 id st1 st2
          end
      end
  end.

Definition display_assignee (i : Issue) : str :=
  match is_assignee i, is_assignee_id i with
  | Some a, Some id => assignment_as_str a ++ lit "/" ++ id
  | _, _ => ulit "（无）"
  end.

(** Subscribers are another table. *)
Definition assign_issue (sql : Sql) (id : Z) (assignee : option AssignmentType) (assignee_id : option str) (actor : Actor) (st : Store)
    : Store * result Issue str :=
  let invalid := match assignee with
                 | Some a => if bool_decide (trim (default [] assignee_id) = [])
                             then Some (lit "assignee " ++ assignment_as_str a ++ lit " requires assignee_id") else None
                 | None => if bool_decide (assignee_id = None) then None
                           else Some (lit "assignee and assignee_id must be set together")
                 end in
  match invalid with
  | Some e => (st, Err e)
  | None =>
        match get_issue (sq_read sql) id st with
        | Err e => (st, Err e)
        | Ok old =>
            let st1 := set_issue st id (set_assignee old assignee assignee_id) in
            let detail := match assignee, assignee_id with
                          | Some a, Some aid => assignment_as_str a ++ lit "/" ++ aid
                          | _, _ => ulit "（清空）"
                          end in
            let st1 := insert_activity st1 (mkActivity id actor (lit "assigned")
                         (at_id actor ++ lit ": " ++ display_assignee old ++ ulit " → " ++ detail)) in
            let st1 :=
              match assignee, assignee_id with
              | Some a, Some aid =>
                  let new := mkActor (assignment_as_str a) aid in
                  if (negb (bool_decide (is_assignee old = assignee)) || negb (bool_decide (is_assignee_id old = assignee_id)))
                     && negb (bool_decide (new = actor))
                  then insert_notification st1 (mkNotification new (lit "assigned") (is_number old ++ lit " " ++ is_title old)
                         (at_kind actor ++ lit "/" ++ at_id actor ++ ulit " 把任务指派给了你") id)
                  else st1
              | _, _ => st1
              end in
            commit sql id st st1
        end
  end.

Definition move_details (from to : IssueStatus) (position : Z) : str :=
  lit "{" ++ quoted (lit "from") ++ lit ":" ++ quoted (status_as_str from) ++ lit ","
  ++ quoted (lit "position") ++ lit ":" ++ show_Z position ++ lit ","
  ++ quoted (lit "to") ++ lit ":" ++ quoted (status_as_str to) ++ lit "}".

Definition move_issue (sql : Sql) (id : Z) (to : IssueStatus) (position : Z) (actor : Actor) (st : Store) : Store * result Issue str :=
  match get_issue (sq_read sql) id st with
  | Err e => (st, Err e)
  | Ok old =>
      if bool_decide (is_status old = to) then
        let st1 := set_issue st id (set_position old position) in
        commit sql id st (insert_activity st1 (mkActivity id actor (lit "reordered")
          (lit "{" ++ quoted (lit "position") ++ lit ":" ++ show_Z position ++ lit "}")))
      else
        match validate_transition (is_status old) to with
        | Err e => (st, Err e)
        | Ok _ =>
            let note := transition_note (is_status old) to in
            let st1 := set_issue st id (set_position (set_status old to) position) in
            let st1 := insert_comment st1 (mkComment id actor note CStatusChange) in
            let st1 := insert_activity st1 (mkActivity id actor (lit "status_changed") (move_details (is_status old) to position)) in
            commit sql id st (notify_assignee actor id old note st1)
        end
  end.

(** Activity ids are row numbers from one. *)
Definition activity_at (activity_id : nat) (st : Store) : option Activity :=
  match activity_id with O => None | S n => bs_activity st !! n end.

Definition audit_rollback_details (activity_id : nat) : str :=
  ulit "audit_rollback:done→in_review:activity_id=" ++ show_nat activity_id.

Definition rollback_decision (sql : Sql) (activity_id : nat) (st : Store) : Store * result Issue str :=
  match sq_read sql with
  | Some e => (st, Err e)
  | None =>
      match activity_at activity_id st with
      | None => (st, Err (ulit "活动 " ++ show_nat activity_id ++ ulit " 不存在"))
      | Some activity =>
          if negb (bool_decide (ac_action activity = lit "auto_decide")) then
            (st, Err (ulit "活动 " ++ show_nat activity_id ++ ulit " 不是自动决策记录（action=" ++ ac_action activity ++ ulit "），不支持回滚"))
          else
            let id := ac_issue activity in
            match bs_issues st !! id with
            | None => (st, Err (lit "issue " ++ show_Z id ++ ulit " 不存在"))
            | Some issue =>
                if negb (bool_decide (is_status issue = Done)) then
                  (st, Err (lit "issue " ++ is_number issue ++ ulit " 当前状态 " ++ status_as_str (is_status issue)
                            ++ ulit "，仅支持回滚已自动收货（done）的决策"))
                else
                  match sq_write sql with
                  | Some e => (st, Err (lit "rollback_decision: " ++ e))
                  | None =>
                      let issue := set_status issue InReview in
                      let actor := actor_system (lit "board-audit") in
                      let st1 := set_issue st id issue in
                      let st1 := insert_comment st1 (mkComment id actor
                        (ulit "↩ 审计回滚：撤销此前「agent 验收通过并自动收货」的决策，单据退回 in_review 等待重新处置。") CSystem) in
                      (insert_activity st1 (mkActivity id actor (lit "status_changed") (audit_rollback_details activity_id)), Ok issue)
                  end
            end
      end
  end.

Definition done_rollback_details (reason : str) : str := ulit "done_rollback:done→in_review:" ++ reason.

Definition rollback_done_to_in_review (sql : Sql) (id : Z) (reason : str) (st : Store) : Store * result bool str :=
  match sq_read sql with
  | Some e => (st, Err e)
  | None =>
      match bs_issues st !! id with
      | None => (st, Err (lit "issue " ++ show_Z id ++ ulit " 不存在"))
      | Some issue =>
          if negb (bool_decide (is_status issue = Done)) then (st, Ok false)
          else
            match sq_write sql with
            | Some e => (st, Err (lit "rollback_done_to_in_review: " ++ e))
            | None =>
                let actor := actor_system (lit "board-archive") in
                let st1 := set_issue st id (set_status issue InReview) in
                let st1 := insert_comment st1 (mkComment id actor
                  (ulit "↩ 终态回滚：" ++ reason ++ ulit "——单据退回 in_review 等待人工处置。") CSystem) in
                (insert_activity st1 (mkActivity id actor (lit "status_changed") (done_rollback_details reason)), Ok true)
            end
      end
  end.

(** ** Operations on dispatches *)

(** The row is written first, the activity after it, outside of a transaction:
    when only the second fails the row stays. *)
Definition insert_dispatch_locked (sql : Sql) (task : str) (issue : Z) (worker : str) (actor : Actor) (st : Store)
    : Store * result unit str :=
  match sq_write sql with
  | Some e => (st, Err (lit "insert_dispatch: " ++ e))
  | None =>
      if bool_decide (is_Some (get_dispatch task st)) then
        (st, Err (lit "insert_dispatch: UNIQUE constraint failed: issue_dispatch.task_id"))
      else if bool_decide (bs_issues st !! issue = None) then
        (st, Err (lit "insert_dispatch: FOREIGN KEY constraint failed"))
      else
        let st1 := with_dispatches st (bs_dispatches st ++ [mkDispatch task issue worker DISPATCHED]) in
        if sq_note sql then
          (insert_activity st1 (mkActivity issue actor (lit "dispatched")
             (lit "{" ++ quoted (lit "task_id") ++ lit ":" ++ quoted task ++ lit ","
              ++ quoted (lit "worker_id") ++ lit ":" ++ quoted worker ++ lit "}")), Ok tt)
        else (st1, Err (lit "database error"))
  end.

Definition try_claim_dispatch (sql : Sql) (task : str) (issue : Z) (worker : str) (actor : Actor) (st : Store)
    : Store * result bool str :=
  match sq_read sql with
  | Some e => (st, Err e)
  | None =>
      if has_active_dispatch issue st then (st, Ok false)
      else
        let '(st, r) := insert_dispatch_locked sql task issue worker actor st in
        (st, match r with Ok _ => Ok true | Err e => Err e end)
  end.

(** The guarded update all terminations share: rows of the task that are active. *)
Definition close_rows (task : str) (to : DispatchState) (l : list DispatchRecord) : list DispatchRecord :=
  (λ d, if bool_decide (dp_task_id d = task) && active d
        then mkDispatch (dp_task_id d) (dp_issue_id d) (dp_worker_id d) to else d) <$> l.

Definition open_row (task : str) (l : list DispatchRecord) : bool :=
  existsb (λ d, bool_decide (dp_task_id d = task) && active d) l.

Definition finish_dispatch (sql : Sql) (task state : str) (st : Store) : Store * result bool str :=
  if negb (bool_decide (state = lit "done")) && negb (bool_decide (state = lit "failed")) then
    (st, Err (lit "invalid dispatch state: " ++ state ++ ulit "（可选 done/failed）"))
  else
    match sq_write sql with
    | Some e => (st, Err e)
    | None =>
        (with_dispatches st (close_rows task (if bool_decide (state = lit "done") then DDONE else FAILED) (bs_dispatches st)),
         Ok (open_row task (bs_dispatches st)))
    end.

Definition mark_dispatch_running (sql : Sql) (task worker : str) (st : Store) : Store * result bool str :=
  match sq_write sql with
  | Some e => (st, Err (lit "mark_dispatch_running: " ++ e))
  | None =>
      let hit d := bool_decide (dp_task_id d = task) && bool_decide (dp_worker_id d = worker) && bool_decide (dp_state d = DISPATCHED) in
      (with_dispatches st ((λ d, if hit d then mkDispatch (dp_task_id d) (dp_issue_id d) (dp_worker_id d) RUNNING else d) <$> bs_dispatches st),
       Ok (existsb hit (bs_dispatches st)))
  end.

(** [cancel_dispatch] and [fail_dispatch]: the update and its activity in one
    transaction. *)
Definition close_dispatch (sql : Sql) (task : str) (to : DispatchState) (actor : Actor) (action details : str) (st : Store)
    : Store * result (option DispatchRecord) str :=
  match sq_write sql with
  | Some e => (st, Err e)
  | None =>
      if negb (open_row task (bs_dispatches st)) then (st, Ok None)
      else
        match get_dispatch task st with
        | None => (st, Ok None)
        | Some d =>
            let st1 := with_dispatches st (close_rows task to (bs_dispatches st)) in
            let st1 := insert_activity st1 (mkActivity (dp_issue_id d) actor action details) in
            (st1, match sq_reread sql with Some e => Err e | None => Ok (get_dispatch task st1) end)
        end
  end.

Definition cancel_dispatch (sql : Sql) (task : str) (actor : Actor) (st : Store) : Store * result (option DispatchRecord) str :=
  close_dispatch sql task CANCELLED actor (lit "dispatch_cancelled")
    (lit "{" ++ quoted (lit "task_id") ++ lit ":" ++ quoted task ++ lit "}") st.

Definition fail_dispatch (sql : Sql) (task details : str) (st : Store) : Store * result (option DispatchRecord) str :=
  close_dispatch sql task FAILED (actor_system (lit "board")) (lit "dispatch_timeout")
    (lit "{" ++ quoted (lit "details") ++ lit ":" ++ quoted details ++ lit "," ++ quoted (lit "task_id") ++ lit ":" ++ quoted task ++ lit "}") st.

(** ** Runs *)

Inductive StoreOp :=
| OpTransition (sql : Sql) (id : Z) (to : IssueStatus) (actor : Actor)
| OpMove (sql : Sql) (id : Z) (to : IssueStatus) (position : Z) (actor : Actor)
| OpReopen (sql sql2 : Sql) (id : Z) (actor : Actor)
| OpAssign (sql : Sql) (id : Z) (assignee : option AssignmentType) (assignee_id : option str) (actor : Actor)
| OpDispatchBack (sql : Sql) (id : Z) (prev : IssueStatus) (assignee : option AssignmentType) (assignee_id : option str) (actor : Actor)
| OpAuditBack (sql : Sql) (activity_id : nat)
| OpDoneBack (sql : Sql) (id : Z) (reason : str)
| OpClaim (sql : Sql) (task : str) (issue : Z) (worker : str) (actor : Actor)
| OpFinish (sql : Sql) (task state : str)
| OpRunning (sql : Sql) (task worker : str)
| OpCancel (sql : Sql) (task : str) (actor : Actor)
| OpTimeout (sql : Sql) (task details : str).

Inductive StoreAnswer :=
| AIssue (r : result Issue str)
| ABool (r : result bool str)
| ADispatch (r : result (option DispatchRecord) str).

Definition store_step (st : Store) (o : StoreOp) : Store * StoreAnswer :=
  match o with
  | OpTransition sql id to actor => let '(st, r) := transition_issue sql id to actor st in (st, AIssue r)
  | OpMove sql id to position actor => let '(st, r) := move_issue sql id to position actor st in (st, AIssue r)
  | OpReopen sql sql2 id actor => let '(st, r) := reopen_issue sql sql2 id actor st in (st, AIssue r)
  | OpAssign sql id a aid actor => let '(st, r) := assign_issue sql id a aid actor st in (st, AIssue r)
  | OpDispatchBack sql id prev a aid actor => let '(st, r) := rollback_dispatch_failure sql id prev a aid actor st in (st, ABool r)
  | OpAuditBack sql n => let '(st, r) := rollback_decision sql n st in (st, AIssue r)
  | OpDoneBack sql id reason => let '(st, r) := rollback_done_to_in_review sql id reason st in (st, ABool r)
  | OpClaim sql task issue worker actor => let '(st, r) := try_claim_dispatch sql task issue worker actor st in (st, ABool r)
  | OpFinish sql task state => let '(st, r) := finish_dispatch sql task state st in (st, ABool r)
  | OpRunning sql task worker => let '(st, r) := mark_dispatch_running sql task worker st in (st, ABool r)
  | OpCancel sql task actor => let '(st, r) := cancel_dispatch sql task actor st in (st, ADispatch r)
  | OpTimeout sql task details => let '(st, r) := fail_dispatch sql task details st in (st, ADispatch r)
  end.

Definition store_run (st : Store) (ops : list StoreOp) : Store := foldl (λ st o, fst (store_step st o)) st ops.

(** ** The log of statuses *)

Definition status_at (st : Store) (id : Z) : option IssueStatus := is_status <$> bs_issues st !! id.

Definition status_action (a : Activity) : bool :=
  bool_decide (ac_action a = lit "status_changed") || bool_decide (ac_action a = lit "dispatch_rolled_back").

(** The activity rows that tell of a status of the issue. *)
Definition status_log (id : Z) (st : Store) : list Activity :=
  filter (λ a, ac_issue a = id ∧ status_action a = true) (bs_activity st).

(** What a row says: the status the issue left and the one it reached. *)
Inductive logged (a : Activity) : IssueStatus → IssueStatus → Prop :=
| logged_transition from to :
    ac_action a = lit "status_changed" → ac_details a = transition_details from to → can_transition from to = true → logged a from to
| logged_move from to position :
    ac_action a = lit "status_changed" → ac_details a = move_details from to position → can_transition from to = true → logged a from to
| logged_audit n :
    ac_action a = lit "status_changed" → ac_details a = audit_rollback_details n → logged a Done InReview
| logged_done_back reason :
    ac_action a = lit "status_changed" → ac_details a = done_rollback_details reason → logged a Done InReview
| logged_dispatch_back prev aid :
    ac_action a = lit "dispatch_rolled_back" → ac_details a = rollback_details prev aid → prev ≠ InProgress → logged a InProgress prev.

(** The rows in order lead from one status to another. *)
Inductive trail (s : IssueStatus) : list Activity → IssueStatus → Prop :=
| trail_nil : trail s [] s
| trail_snoc l a m t : trail s l m → logged a m t → trail s (l ++ [a]) t.

(** The effect of an operation on statuses and their log: none, or one change
    with its row. *)
Inductive effect (st st' : Store) : Prop :=
| effect_none : (∀ id, status_at st' id = status_at st id) → (∀ id, status_log id st' = status_log id st) → effect st st'
| effect_change id from to a :
    status_at st id = Some from → logged a from to →
    (∀ j, status_at st' j = if decide (id = j) then Some to else status_at st j) →
    (∀ j, status_log j st' = status_log j st ++ (if decide (id = j) then [a] else [])) → effect st st'.

Lemma logged_action a from to : logged a from to → status_action a = true.
Proof. unfold status_action. by destruct 1 as [? ? -> _ _|? ? ? -> _ _|? -> _|? -> _|? ? -> _ _]. Qed.

Lemma status_log_app id st l : filter (λ a, ac_issue a = id ∧ status_action a = true) (bs_activity st ++ l) =
  status_log id st ++ filter (λ a, ac_issue a = id ∧ status_action a = true) l.
Proof. apply filter_app. Qed.

Lemma filter_quiet j l : Forall (λ a, status_action a = false) l → filter (λ a, ac_issue a = j ∧ status_action a = true) l = [].
Proof.
  induction 1 as [|a l Ha _ IH]; [done|]. rewrite filter_cons_False; [exact IH|]. intros [_ ?]. congruence.
Qed.

Lemma effect_refl st : effect st st.
Proof. by apply effect_none. Qed.

(** An issue is written with its old status, and no row tells of one. *)
Lemma effect_quiet st st' id old new l :
  bs_issues st !! id = Some old → is_status new = is_status old →
  bs_issues st' = <[id := new]> (bs_issues st) → bs_activity st' = bs_activity st ++ l →
  Forall (λ a, status_action a = false) l → effect st st'.
Proof.
  intros Ho Hs Hi Ha Hl. apply effect_none.
  - intros j. unfold status_at. rewrite Hi. destruct (decide (id = j)) as [->|Hn].
    + rewrite lookup_insert_eq, Ho. cbn. by rewrite Hs.
    + by rewrite lookup_insert_ne.
  - intros j. unfold status_log at 1. rewrite Ha, status_log_app. rewrite <- (app_nil_r (status_log j st)) at 2. f_equal.
    by apply filter_quiet.
Qed.

(** Statuses and activity rows are as they were. *)
Lemma effect_same st st' l :
  bs_issues st' = bs_issues st → bs_activity st' = bs_activity st ++ l → Forall (λ a, status_action a = false) l → effect st st'.
Proof.
  intros Hi Ha Hl. apply effect_none.
  - intros j. unfold status_at. by rewrite Hi.
  - intros j. unfold status_log at 1. rewrite Ha, status_log_app. rewrite <- (app_nil_r (status_log j st)) at 2. f_equal.
    by apply filter_quiet.
Qed.

(** An issue is written with another status, and the row of the change. *)
Lemma effect_write st st' id old new a :
  bs_issues st !! id = Some old → bs_issues st' = <[id := new]> (bs_issues st) →
  bs_activity st' = bs_activity st ++ [a] → ac_issue a = id → logged a (is_status old) (is_status new) → effect st st'.
Proof.
  intros Ho Hi Ha Hid Hl. apply (effect_change _ _ id (is_status old) (is_status new) a); [unfold status_at; by rewrite Ho|done| |].
  - intros j. unfold status_at. rewrite Hi. destruct (decide (id = j)) as [->|Hn]; [by rewrite lookup_insert_eq|by rewrite lookup_insert_ne].
  - intros j. unfold status_log at 1. rewrite Ha, status_log_app. f_equal. apply logged_action in Hl.
    destruct (decide (id = j)) as [->|Hn]; [by rewrite filter_cons_True|rewrite filter_cons_False; [done|]]. intros [? _]. congruence.
Qed.

Lemma notify_issues actor id old note st : bs_issues (notify_assignee actor id old note st) = bs_issues st.
Proof. unfold notify_assignee. destruct (is_assignee old), (is_assignee_id old); try done. by destruct (bool_decide _). Qed.

Lemma notify_activity actor id old note st : bs_activity (notify_assignee actor id old note st) = bs_activity st.
Proof. unfold notify_assignee. destruct (is_assignee old), (is_assignee_id old); try done. by destruct (bool_decide _). Qed.

Lemma notify_comments actor id old note st : bs_comments (notify_assignee actor id old note st) = bs_comments st.
Proof. unfold notify_assignee. destruct (is_assignee old), (is_assignee_id old); try done. by destruct (bool_decide _). Qed.

Lemma notify_dispatches actor id old note st : bs_dispatches (notify_assignee actor id old note st) = bs_dispatches st.
Proof. unfold notify_assignee. destruct (is_assignee old), (is_assignee_id old); try done. by destruct (bool_decide _). Qed.

Lemma get_issue_Ok sql id st i : get_issue sql id st = Ok i → sql = None ∧ bs_issues st !! id = Some i.
Proof. unfold get_issue. destruct sql; [done|]. destruct (bs_issues st !! id); [by intros [= ->]|done]. Qed.

Lemma validate_transition_Ok from to : validate_transition from to = Ok tt ↔ can_transition from to = true.
Proof.
  unfold validate_transition. destruct (bool_decide (from = to)) eqn:E.
  - apply bool_decide_eq_true in E as ->. split; [done|]. unfold can_transition. by rewrite bool_decide_true.
  - by destruct (can_transition from to).
Qed.

(** The two outcomes of a commit. *)
Lemma commit_effect sql id st st' : effect st st' → effect st (fst (commit sql id st st')).
Proof. intros H. unfold commit. destruct (sq_write sql); [apply effect_refl|done]. Qed.

Lemma transition_effect sql id to actor st : effect st (fst (transition_issue sql id to actor st)).
Proof.
  unfold transition_issue. destruct (get_issue (sq_read sql) id st) as [old|e] eqn:Eg; [|apply effect_refl].
  apply get_issue_Ok in Eg as [_ Ho]. destruct (validate_transition (is_status old) to) as [[]|e] eqn:Ev; [|apply effect_refl].
  apply validate_transition_Ok in Ev. apply commit_effect.
  apply (effect_write _ _ id old (set_status old to) (mkActivity id actor (lit "status_changed") (transition_details (is_status old) to))); [done| | |done|].
  - rewrite notify_issues. by destruct (_ && sq_note sql).
  - rewrite notify_activity. by destruct (_ && sq_note sql).
  - by apply logged_transition.
Qed.

Lemma move_effect sql id to position actor st : effect st (fst (move_issue sql id to position actor st)).
Proof.
  unfold move_issue. destruct (get_issue (sq_read sql) id st) as [old|e] eqn:Eg; [|apply effect_refl].
  apply get_issue_Ok in Eg as [_ Ho]. destruct (bool_decide (is_status old = to)).
  - apply commit_effect. eapply (effect_quiet _ _ id old (set_position old position)); [done|done|done|done|]. by repeat constructor.
  - destruct (validate_transition (is_status old) to) as [[]|e] eqn:Ev; [|apply effect_refl].
    apply validate_transition_Ok in Ev. apply commit_effect.
    apply (effect_write _ _ id old (set_position (set_status old to) position)
      (mkActivity id actor (lit "status_changed") (move_details (is_status old) to position))); [done|by rewrite notify_issues|by rewrite notify_activity|done|].
    by eapply logged_move.
Qed.

Lemma assign_effect sql id a aid actor st : effect st (fst (assign_issue sql id a aid actor st)).
Proof.
  unfold assign_issue. set (invalid := match a with Some _ => _ | None => _ end). destruct invalid; [apply effect_refl|].
  destruct (get_issue (sq_read sql) id st) as [old|e] eqn:Eg; [|apply effect_refl].
  apply get_issue_Ok in Eg as [_ Ho]. apply commit_effect.
  set (row := mkActivity id actor (lit "assigned") _).
  apply (effect_quiet _ _ id old (set_assignee old a aid) [row]); [done|done| | |by repeat constructor];
    destruct a as [a|], aid as [aid|]; try done; by destruct (_ && _).
Qed.

Lemma dispatch_back_effect sql id prev a aid actor st : effect st (fst (rollback_dispatch_failure sql id prev a aid actor st)).
Proof.
  unfold rollback_dispatch_failure. destruct (get_issue (sq_read sql) id st) as [old|e] eqn:Eg; [|apply effect_refl].
  apply get_issue_Ok in Eg as [_ Ho]. destruct (bool_decide (is_status old = InProgress)) eqn:E1; cbn [negb orb]; [|apply effect_refl].
  destruct (bool_decide (prev = InProgress)) eqn:E2; [apply effect_refl|].
  apply bool_decide_eq_true in E1. apply bool_decide_eq_false in E2.
  destruct (sq_write sql); [apply effect_refl|]. destruct (has_active_dispatch id st); [apply effect_refl|].
  eapply (effect_write _ _ id old (set_assignee (set_status old prev) a aid)); [done|done|done|done|].
  cbn [is_status set_status set_assignee]. rewrite E1. by eapply logged_dispatch_back.
Qed.

Lemma audit_back_effect sql n st : effect st (fst (rollback_decision sql n st)).
Proof.
  unfold rollback_decision. destruct (sq_read sql); [apply effect_refl|]. destruct (activity_at n st) as [act|]; [|apply effect_refl].
  destruct (negb (bool_decide (ac_action act = lit "auto_decide"))); [apply effect_refl|].
  destruct (bs_issues st !! ac_issue act) as [old|] eqn:Ho; [|apply effect_refl].
  destruct (bool_decide (is_status old = Done)) eqn:E1; cbn [negb]; [|apply effect_refl]. apply bool_decide_eq_true in E1.
  destruct (sq_write sql); [apply effect_refl|].
  eapply (effect_write _ _ (ac_issue act) old (set_status old InReview)); [done|done|done|done|].
  cbn [is_status set_status]. rewrite E1. by eapply logged_audit.
Qed.

Lemma done_back_effect sql id reason st : effect st (fst (rollback_done_to_in_review sql id reason st)).
Proof.
  unfold rollback_done_to_in_review. destruct (sq_read sql); [apply effect_refl|].
  destruct (bs_issues st !! id) as [old|] eqn:Ho; [|apply effect_refl].
  destruct (bool_decide (is_status old = Done)) eqn:E1; cbn [negb]; [|apply effect_refl]. apply bool_decide_eq_true in E1.
  destruct (sq_write sql); [apply effect_refl|].
  eapply (effect_write _ _ id old (set_status old InReview)); [done|done|done|done|].
  cbn [is_status set_status]. rewrite E1. by eapply logged_done_back.
Qed.

(** A reopening is a transition and a write that leaves the status alone. *)
Lemma reopen_effect sql sql2 id actor st : rtc effect st (fst (reopen_issue sql sql2 id actor st)).
Proof.
  unfold reopen_issue. destruct (get_issue (sq_read sql) id st) as [old|e]; [|done].
  destruct (reopen_guard sql old id st) as [[]|e]; [|done].
  pose proof (transition_effect sql id Backlog actor st) as H1.
  destruct (transition_issue sql id Backlog actor st) as [st1 r] eqn:Et. cbn [fst] in H1.
  destruct r as [issue|e]; [|by apply rtc_once]. eapply rtc_l; [exact H1|]. apply rtc_once.
  assert (bs_issues st1 !! id = Some issue) as Hi.
  { unfold transition_issue in Et. destruct (get_issue (sq_read sql) id st); [|congruence].
    destruct (validate_transition _ _); [|congruence]. unfold commit in Et. destruct (sq_write sql); [congruence|].
    apply pair_equal_spec in Et as [<- Eg]. apply get_issue_Ok in Eg as [_ Eg]. exact Eg. }
  apply commit_effect. eapply (effect_quiet _ _ id issue (unhide issue) []); [done|done|done|by rewrite app_nil_r|constructor].
Qed.

Lemma claim_same sql task issue worker actor st :
  effect st (fst (try_claim_dispatch sql task issue worker actor st)).
Proof.
  unfold try_claim_dispatch. destruct (sq_read sql); [apply effect_refl|]. destruct (has_active_dispatch issue st); [apply effect_refl|].
  unfold insert_dispatch_locked. destruct (sq_write sql); [apply effect_refl|]. destruct (bool_decide _); [apply effect_refl|].
  destruct (bool_decide _); [apply effect_refl|]. destruct (sq_note sql).
  - eapply (effect_same _ _ [_]); [done|done|]. by repeat constructor.
  - apply (effect_same _ _ []); [done|by rewrite app_nil_r|constructor].
Qed.

Lemma close_dispatch_same sql task to actor action details st :
  status_action (mkActivity 0 actor action details) = false → effect st (fst (close_dispatch sql task to actor action details st)).
Proof.
  intros Hq. unfold close_dispatch. destruct (sq_write sql); [apply effect_refl|]. destruct (negb _); [apply effect_refl|].
  destruct (get_dispatch task st); [|apply effect_refl]. eapply (effect_same _ _ [_]); [done|done|]. by repeat constructor.
Qed.

Lemma store_step_effect st o : rtc effect st (fst (store_step st o)).
Proof.
  destruct o as [sql id to actor|sql id to p actor|sql sql2 id actor|sql id a aid actor|sql id prev a aid actor|sql n|sql id reason
                |sql task issue worker actor|sql task state|sql task worker|sql task actor|sql task details]; cbn [store_step].
  - pose proof (transition_effect sql id to actor st). destruct (transition_issue _ _ _ _ _). by apply rtc_once.
  - pose proof (move_effect sql id to p actor st). destruct (move_issue _ _ _ _ _ _). by apply rtc_once.
  - pose proof (reopen_effect sql sql2 id actor st). by destruct (reopen_issue _ _ _ _ _).
  - pose proof (assign_effect sql id a aid actor st). destruct (assign_issue _ _ _ _ _ _). by apply rtc_once.
  - pose proof (dispatch_back_effect sql id prev a aid actor st). destruct (rollback_dispatch_failure _ _ _ _ _ _ _). by apply rtc_once.
  - pose proof (audit_back_effect sql n st). destruct (rollback_decision _ _ _). by apply rtc_once.
  - pose proof (done_back_effect sql id reason st). destruct (rollback_done_to_in_review _ _ _ _). by apply rtc_once.
  - pose proof (claim_same sql task issue worker actor st). destruct (try_claim_dispatch _ _ _ _ _ _). by apply rtc_once.
  - apply rtc_once. unfold finish_dispatch. destruct (_ && _); [apply effect_refl|]. destruct (sq_write sql); [apply effect_refl|].
    apply (effect_same _ _ []); [done|by rewrite app_nil_r|constructor].
  - apply rtc_once. unfold mark_dispatch_running. destruct (sq_write sql); [apply effect_refl|].
    apply (effect_same _ _ []); [done|by rewrite app_nil_r|constructor].
  - unfold cancel_dispatch. pose proof (close_dispatch_same sql task CANCELLED actor (lit "dispatch_cancelled")) as H.
    specialize (H (lit "{" ++ quoted (lit "task_id") ++ lit ":" ++ quoted task ++ lit "}") st eq_refl).
    destruct (close_dispatch _ _ _ _ _ _ _). by apply rtc_once.
  - unfold fail_dispatch. pose proof (close_dispatch_same sql task FAILED (actor_system (lit "board")) (lit "dispatch_timeout")) as H.
    specialize (H (lit "{" ++ quoted (lit "details") ++ lit ":" ++ quoted details ++ lit "," ++ quoted (lit "task_id") ++ lit ":" ++ quoted task ++ lit "}") st eq_refl).
    destruct (close_dispatch _ _ _ _ _ _ _). by apply rtc_once.
Qed.

(** The log of every issue leads from [s] to its status. *)
Definition log_ok (s : Z → IssueStatus) (st : Store) : Prop :=
  ∀ id t, status_at st id = Some t → trail (s id) (status_log id st) t.

Lemma effect_log_ok s st st' : effect st st' → log_ok s st → log_ok s st'.
Proof.
  intros [Hs Hl|id from to a Hf Ha Hs Hl] Hok j t Ht; rewrite Hs in Ht; rewrite Hl.
  - by apply Hok.
  - destruct (decide (id = j)) as [->|Hn]; [|rewrite app_nil_r; by apply Hok].
    injection Ht as <-. apply (trail_snoc _ _ _ from); [by apply Hok|done].
Qed.

Lemma run_log_ok s ops : ∀ st, log_ok s st → log_ok s (store_run st ops).
Proof.
  induction ops as [|o ops IH]; intros st Hok; [done|]. unfold store_run. cbn [foldl]. apply IH.
  pose proof (store_step_effect st o) as H. clear IH. induction H as [st|st st1 st2 H _ IH]; [done|]. apply IH. by eapply effect_log_ok.
Qed.

(** ** Dispatch rows *)

(** The answer tells its caller that it ended the task. *)
Definition wins (task : str) (o : StoreOp) (a : StoreAnswer) : bool :=
  match o, a with
  | OpFinish _ t _, ABool (Ok true) => bool_decide (t = task)
  | OpCancel _ t _, ADispatch (Ok (Some _)) => bool_decide (t = task)
  | OpTimeout _ t _, ADispatch (Ok (Some _)) => bool_decide (t = task)
  | _, _ => false
  end.

Fixpoint winners (task : str) (st : Store) (ops : list StoreOp) : nat :=
  match ops with
  | [] => 0
  | o :: ops => let '(st', a) := store_step st o in (if wins task o a then 1 else 0) + winners task st' ops
  end.

Definition active_rows (issue : Z) (l : list DispatchRecord) : nat :=
  length (filter (λ d, dp_issue_id d = issue ∧ active d = true) l).

(** The effect on the rows: one new active row for an issue without one, or a
    change of states that opens nothing. *)
Inductive row_change (l : list DispatchRecord) : list DispatchRecord → Prop :=
| rows_map f : (∀ d, dp_task_id (f d) = dp_task_id d ∧ dp_issue_id (f d) = dp_issue_id d ∧ (active (f d) = true → active d = true)) →
    row_change l (f <$> l)
| rows_new d : dp_state d = DISPATCHED → (∀ x, x ∈ l → dp_task_id x ≠ dp_task_id d) → active_rows (dp_issue_id d) l = 0%nat →
    row_change l (l ++ [d]).

Lemma row_change_refl l : row_change l l.
Proof. rewrite <- (list_fmap_id l) at 2. by apply rows_map. Qed.

Lemma rows_of_commit sql id st st' : row_change (bs_dispatches st) (bs_dispatches st') →
  row_change (bs_dispatches st) (bs_dispatches (fst (commit sql id st st'))).
Proof. unfold commit. destruct (sq_write sql); [intros; apply row_change_refl|done]. Qed.

Lemma close_rows_change task to l : active (mkDispatch [] 0 [] to) = false → row_change l (close_rows task to l).
Proof.
  intros Ht. apply rows_map. intros d. destruct (bool_decide (dp_task_id d = task) && active d) eqn:E; [|done].
  split; [done|]. split; [done|]. unfold active in *. cbn in *. congruence.
Qed.

Lemma no_active_rows issue l : existsb (λ d, bool_decide (dp_issue_id d = issue) && active d) l = false → active_rows issue l = 0%nat.
Proof.
  unfold active_rows. induction l as [|d l IH]; cbn [existsb]; [done|]. intros [H1 H2]%orb_false_iff. rewrite filter_cons_False; [by apply IH|].
  intros [Hi Ha]. by rewrite bool_decide_true, Ha in H1.
Qed.

Lemma transition_rows sql id to actor st :
  bs_dispatches (fst (transition_issue sql id to actor st)) = bs_dispatches st.
Proof.
  unfold transition_issue. destruct (get_issue _ _ _) as [old|]; [|done]. destruct (validate_transition _ _); [|done].
  unfold commit. destruct (sq_write sql); [done|]. cbn [fst]. rewrite notify_dispatches. by destruct (_ && sq_note sql).
Qed.

Lemma store_step_rows st o : row_change (bs_dispatches st) (bs_dispatches (fst (store_step st o))).
Proof.
  destruct o as [sql id to actor|sql id to p actor|sql sql2 id actor|sql id a aid actor|sql id prev a aid actor|sql n|sql id reason
                |sql task issue worker actor|sql task state|sql task worker|sql task actor|sql task details]; cbn [store_step].
  - pose proof (transition_rows sql id to actor st) as H. destruct (transition_issue _ _ _ _ _). cbn in *. rewrite H. apply row_change_refl.
  - unfold move_issue. destruct (get_issue _ _ _) as [old|]; [|apply row_change_refl]. destruct (bool_decide _).
    + unfold commit. destruct (sq_write sql); apply row_change_refl.
    + destruct (validate_transition _ _); [|apply row_change_refl]. unfold commit. destruct (sq_write sql); [apply row_change_refl|].
      cbn [fst]. rewrite notify_dispatches. apply row_change_refl.
  - unfold reopen_issue. destruct (get_issue _ _ _) as [old|]; [|apply row_change_refl]. destruct (reopen_guard _ _ _ _); [|apply row_change_refl].
    pose proof (transition_rows sql id Backlog actor st) as H. destruct (transition_issue _ _ _ _ _) as [st1 [issue|e]]; cbn [fst] in H |- *;
      [|rewrite H; apply row_change_refl].
    unfold commit. destruct (sq_write sql2); cbn; rewrite H; apply row_change_refl.
  - unfold assign_issue. set (invalid := match a with Some _ => _ | None => _ end). destruct invalid; [apply row_change_refl|].
    destruct (get_issue _ _ _) as [old|]; [|apply row_change_refl]. unfold commit. destruct (sq_write sql); [apply row_change_refl|].
    destruct a as [a|], aid as [aid|]; try apply row_change_refl. destruct (_ && _); apply row_change_refl.
  - unfold rollback_dispatch_failure. destruct (get_issue _ _ _); [|apply row_change_refl]. destruct (_ || _); [apply row_change_refl|].
    destruct (sq_write sql); [apply row_change_refl|]. destruct (has_active_dispatch _ _); apply row_change_refl.
  - unfold rollback_decision. destruct (sq_read sql); [apply row_change_refl|]. destruct (activity_at _ _); [|apply row_change_refl].
    destruct (negb _); [apply row_change_refl|]. destruct (bs_issues st !! _); [|apply row_change_refl].
    destruct (negb _); [apply row_change_refl|]. destruct (sq_write sql); apply row_change_refl.
  - unfold rollback_done_to_in_review. destruct (sq_read sql); [apply row_change_refl|]. destruct (bs_issues st !! _); [|apply row_change_refl].
    destruct (negb _); [apply row_change_refl|]. destruct (sq_write sql); apply row_change_refl.
  - unfold try_claim_dispatch. destruct (sq_read sql); [apply row_change_refl|]. destruct (has_active_dispatch issue st) eqn:Ea; [apply row_change_refl|].
    unfold insert_dispatch_locked. destruct (sq_write sql); [apply row_change_refl|].
    destruct (bool_decide (is_Some (get_dispatch task st))) eqn:Eg; [apply row_change_refl|].
    destruct (bool_decide (bs_issues st !! issue = None)); [apply row_change_refl|].
    assert (row_change (bs_dispatches st) (bs_dispatches st ++ [mkDispatch task issue worker DISPATCHED])) as K; [|by destruct (sq_note sql)].
    apply rows_new; [done| |by apply no_active_rows]. intros x Hx Hxt. apply bool_decide_eq_false in Eg. apply Eg. unfold get_dispatch.
    destruct (List.find _ _) as [y|] eqn:Ef; [eauto|]. exfalso. cbn in Hxt. apply list_elem_of_In in Hx.
    pose proof (List.find_none _ _ Ef x Hx) as N. cbn beta in N. by rewrite bool_decide_true in N.
  - unfold finish_dispatch. destruct (_ && _); [apply row_change_refl|]. destruct (sq_write sql); [apply row_change_refl|].
    apply close_rows_change. by destruct (bool_decide _).
  - unfold mark_dispatch_running. destruct (sq_write sql); [apply row_change_refl|]. apply rows_map. intros d.
    destruct (_ && bool_decide (dp_state d = DISPATCHED)) eqn:E; [|done]. split; [done|]. split; [done|]. intros _.
    apply andb_true_iff in E as [_ E]. apply bool_decide_eq_true in E. unfold active. by rewrite E.
  - unfold cancel_dispatch, close_dispatch. destruct (sq_write sql); [apply row_change_refl|]. destruct (negb _); [apply row_change_refl|].
    destruct (get_dispatch task st); [|apply row_change_refl]. by apply close_rows_change.
  - unfold fail_dispatch, close_dispatch. destruct (sq_write sql); [apply row_change_refl|]. destruct (negb _); [apply row_change_refl|].
    destruct (get_dispatch task st); [|apply row_change_refl]. by apply close_rows_change.
Qed.

(** A task that has had a row, with none active. *)
Definition closed (task : str) (l : list DispatchRecord) : Prop :=
  (∃ d, d ∈ l ∧ dp_task_id d = task) ∧ open_row task l = false.

Lemma open_row_false task l : open_row task l = false ↔ ∀ d, d ∈ l → dp_task_id d = task → active d = false.
Proof.
  unfold open_row. split.
  - intros H d Hd Ht. destruct (active d) eqn:Ea; [|done]. assert (existsb (λ d, bool_decide (dp_task_id d = task) && active d) l = true) as C; [|congruence].
    apply existsb_exists. exists d. split; [by apply list_elem_of_In|]. by rewrite bool_decide_true, Ea.
  - intros H. destruct (existsb _ l) eqn:E; [|done]. apply existsb_exists in E as (d & Hd & E). apply andb_true_iff in E as [E1 E2].
    apply bool_decide_eq_true in E1. apply list_elem_of_In in Hd. by rewrite (H d Hd E1) in E2.
Qed.

Lemma closed_stays task l l' : row_change l l' → closed task l → closed task l'.
Proof.
  intros [f Hf|d Hd Hnew _] [(x & Hx & Ht) Ho].
  - split.
    + exists (f x). split; [by apply list_elem_of_fmap_2|]. by rewrite (proj1 (Hf x)).
    + apply open_row_false. intros y (z & -> & Hz)%list_elem_of_fmap Hy. destruct (Hf z) as (E1 & _ & E3). rewrite E1 in Hy.
      rewrite open_row_false in Ho. specialize (Ho z Hz Hy). destruct (active (f z)); [|done]. by rewrite E3 in Ho.
  - split; [exists x; split; [apply elem_of_app; by left|done]|]. apply open_row_false.
    intros y [Hy|Hy%list_elem_of_singleton]%elem_of_app Hyt; [by apply (proj1 (open_row_false task l) Ho)|]. subst y. destruct (Hnew x Hx). congruence.
Qed.

Lemma open_row_exists task l : open_row task l = true → ∃ d, d ∈ l ∧ dp_task_id d = task.
Proof.
  unfold open_row. intros (d & Hd & E)%existsb_exists. exists d. apply andb_true_iff in E as [E _]. apply bool_decide_eq_true in E.
  split; [by apply list_elem_of_In|done].
Qed.

Lemma close_rows_closed task to l : active (mkDispatch [] 0 [] to) = false → open_row task l = true → closed task (close_rows task to l).
Proof.
  intros Ht Ho. apply open_row_exists in Ho as (d & Hd & Hdt). split.
  - eexists. split; [by apply list_elem_of_fmap_2|]. by destruct (bool_decide (dp_task_id d = task) && active d).
  - apply open_row_false. intros y (z & -> & Hz)%list_elem_of_fmap. destruct (bool_decide (dp_task_id z = task) && active z) eqn:E; [done|].
    intros Hy. by rewrite bool_decide_true in E.
Qed.

Lemma wins_spec task st o st' a : store_step st o = (st', a) → wins task o a = true →
  open_row task (bs_dispatches st) = true ∧ closed task (bs_dispatches st').
Proof.
  destruct o; cbn [store_step]; intros E H.
  all: try (repeat match type of E with (let '(_, _) := ?x in _) = _ => destruct x end; injection E as <- <-; done).
  - unfold finish_dispatch in E. destruct (_ && _); [by injection E as <- <-|]. destruct (sq_write sql); [by injection E as <- <-|].
    injection E as <- <-. cbn in H. destruct (open_row task0 (bs_dispatches st)) eqn:Eo; [|done]. apply bool_decide_eq_true in H as ->.
    split; [done|]. apply close_rows_closed; [by destruct (bool_decide _)|done].
  - unfold cancel_dispatch, close_dispatch in E. destruct (sq_write sql); [by injection E as <- <-|].
    destruct (open_row task0 (bs_dispatches st)) eqn:Eo; cbn [negb] in E; [|by injection E as <- <-].
    destruct (get_dispatch task0 st); [|by injection E as <- <-]. injection E as <- <-.
    assert (task0 = task) as ->. { cbn in H. destruct (sq_reread sql); [done|]. destruct (List.find _ _); [|done]. by apply bool_decide_eq_true in H. }
    split; [done|]. by apply close_rows_closed.
  - unfold fail_dispatch, close_dispatch in E. destruct (sq_write sql); [by injection E as <- <-|].
    destruct (open_row task0 (bs_dispatches st)) eqn:Eo; cbn [negb] in E; [|by injection E as <- <-].
    destruct (get_dispatch task0 st); [|by injection E as <- <-]. injection E as <- <-.
    assert (task0 = task) as ->. { cbn in H. destruct (sq_reread sql); [done|]. destruct (List.find _ _); [|done]. by apply bool_decide_eq_true in H. }
    split; [done|]. by apply close_rows_closed.
Qed.

Lemma winners_closed task ops : ∀ st, closed task (bs_dispatches st) → winners task st ops = 0%nat.
Proof.
  induction ops as [|o ops IH]; intros st Hc; [done|]. cbn [winners]. pose proof (store_step_rows st o) as Hr.
  destruct (store_step st o) as [st' a] eqn:E. cbn [fst] in Hr. rewrite IH by (by eapply closed_stays).
  destruct (wins task o a) eqn:Ew; [|done]. destruct (wins_spec _ _ _ _ _ E Ew) as [Ho _]. destruct Hc as [_ Hc]. congruence.
Qed.

Lemma active_rows_change issue l l' : row_change l l' → (active_rows issue l ≤ 1)%nat → (active_rows issue l' ≤ 1)%nat.
Proof.
  intros [f Hf|d Hd _ H0] Hl.
  - etrans; [|exact Hl]. clear Hl. unfold active_rows. induction l as [|x l IH]; cbn [fmap list_fmap]; [done|].
    destruct (Hf x) as (_ & E2 & E3). rewrite !filter_cons.
    destruct (decide (dp_issue_id (f x) = issue ∧ active (f x) = true)) as [[H1 H2]|].
    + rewrite decide_True by (split; [congruence|auto]). cbn. lia.
    + destruct (decide _); cbn; lia.
  - unfold active_rows in *. rewrite filter_app, length_app, filter_cons, filter_nil. destruct (decide _) as [[<- _]|]; cbn; lia.
Qed.

(** ** Properties *)

(** C39: in every run of the operations on a store whose issues are in the
    statuses [s], the activity rows of each issue, in their order, lead from
    that status to its present one: every change is a legal transition or one of
    the roll-backs, and none goes unrecorded. *)
Theorem status_audit_trail s st ops : log_ok s st →
  ∀ id t, status_at (store_run st ops) id = Some t → trail (s id) (status_log id (store_run st ops)) t.
Proof. intros H. by apply run_log_ok. Qed.

(** C40: however claims, reports, cancellations, timeouts and every other operation
    interleave: an issue never has two active dispatches, and of all the calls that
    end one task exactly one caller, at most, is told that it did. *)
Theorem dispatch_exclusive st ops task issue :
  (∀ i, active_rows i (bs_dispatches st) ≤ 1)%nat →
  (active_rows issue (bs_dispatches (store_run st ops)) ≤ 1)%nat ∧ (winners task st ops ≤ 1)%nat.
Proof.
  intros Hst. split.
  - revert st Hst. induction ops as [|o ops IH]; intros st Hst; [apply Hst|]. unfold store_run. cbn [foldl]. apply IH.
    intros i. eapply active_rows_change; [apply store_step_rows|apply Hst].
  - clear Hst. revert st. induction ops as [|o ops IH]; intros st; cbn [winners]; [lia|].
    destruct (store_step st o) as [st' a] eqn:E. destruct (wins task o a) eqn:Ew; [|apply IH].
    destruct (wins_spec _ _ _ _ _ E Ew) as [_ Hc]. rewrite winners_closed by done. lia.
Qed.

(** The statements after a commit, and those outside of a transaction, succeed. *)
Definition late_ok (o : StoreOp) : Prop :=
  match o with
  | OpTransition sql _ _ _ | OpMove sql _ _ _ _ | OpAssign sql _ _ _ _ | OpCancel sql _ _ | OpTimeout sql _ _ => sq_reread sql = None
  | OpReopen sql sql2 _ _ => sq_reread sql = None ∧ sq_reread sql2 = None ∧ sq_write sql2 = None
  | OpClaim sql _ _ _ _ => sq_note sql = true
  | _ => True
  end.

Definition answer_ok (a : StoreAnswer) : bool :=
  match a with AIssue r => is_ok r | ABool r => is_ok r | ADispatch r => is_ok r end.

Lemma commit_atomic sql id st st' : sq_reread sql = None → is_Some (bs_issues st' !! id) →
  is_ok (snd (commit sql id st st')) = false → fst (commit sql id st st') = st.
Proof. intros Hr [i Hi]. unfold commit. destruct (sq_write sql); [done|]. unfold get_issue. cbn. by rewrite Hr, Hi. Qed.

Lemma set_issue_lookup st id i : bs_issues (set_issue st id i) !! id = Some i.
Proof. cbn. by rewrite lookup_insert_eq. Qed.

Lemma transition_atomic sql id to actor st : sq_reread sql = None →
  is_ok (snd (transition_issue sql id to actor st)) = false → fst (transition_issue sql id to actor st) = st.
Proof.
  intros Hr. unfold transition_issue. destruct (get_issue _ _ _) as [old|]; [|done]. destruct (validate_transition _ _); [|done].
  apply commit_atomic; [done|]. rewrite notify_issues. destruct (_ && sq_note sql); cbn; rewrite lookup_insert_eq; eauto.
Qed.

(** Also: an operation that answers with an error has changed nothing, when the
    statements that run after its commit, or outside of a transaction, succeed. *)
Theorem store_errors_roll_back st o : late_ok o →
  answer_ok (snd (store_step st o)) = false → fst (store_step st o) = st.
Proof.
  destruct o as [sql id to actor|sql id to p actor|sql sql2 id actor|sql id a aid actor|sql id prev a aid actor|sql n|sql id reason
                |sql task issue worker actor|sql task state|sql task worker|sql task actor|sql task details]; cbn [store_step late_ok]; intros Hl.
  - pose proof (transition_atomic sql id to actor st Hl). by destruct (transition_issue _ _ _ _ _).
  - assert (is_ok (snd (move_issue sql id to p actor st)) = false → fst (move_issue sql id to p actor st) = st) as H;
      [|by destruct (move_issue _ _ _ _ _ _)].
    unfold move_issue. destruct (get_issue _ _ _) as [old|]; [|done]. destruct (bool_decide _).
    + apply commit_atomic; [done|]. cbn. rewrite lookup_insert_eq. eauto.
    + destruct (validate_transition _ _); [|done]. apply commit_atomic; [done|]. rewrite notify_issues. cbn. rewrite lookup_insert_eq. eauto.
  - destruct Hl as (Hr & Hr2 & Hw2). unfold reopen_issue. destruct (get_issue _ _ _) as [old|]; [|done].
    destruct (reopen_guard _ _ _ _); [|done]. pose proof (transition_atomic sql id Backlog actor st Hr) as H.
    destruct (transition_issue _ _ _ _ _) as [st1 [issue|e]]; [|exact H].
    unfold commit, get_issue. rewrite Hw2, Hr2. cbn. by rewrite lookup_insert_eq.
  - assert (is_ok (snd (assign_issue sql id a aid actor st)) = false → fst (assign_issue sql id a aid actor st) = st) as H;
      [|by destruct (assign_issue _ _ _ _ _ _)].
    unfold assign_issue. set (invalid := match a with Some _ => _ | None => _ end). destruct invalid; [done|].
    destruct (get_issue _ _ _) as [old|]; [|done]. apply commit_atomic; [done|].
    destruct a as [a|], aid as [aid|]; try destruct (_ && _); cbn; rewrite lookup_insert_eq; eauto.
  - unfold rollback_dispatch_failure. destruct (get_issue _ _ _); [|done]. destruct (_ || _); [done|].
    destruct (sq_write sql); [done|]. by destruct (has_active_dispatch _ _).
  - unfold rollback_decision. destruct (sq_read sql); [done|]. destruct (activity_at _ _); [|done]. destruct (negb _); [done|].
    destruct (bs_issues st !! _); [|done]. destruct (negb _); [done|]. by destruct (sq_write sql).
  - unfold rollback_done_to_in_review. destruct (sq_read sql); [done|]. destruct (bs_issues st !! _); [|done].
    destruct (negb _); [done|]. by destruct (sq_write sql).
  - unfold try_claim_dispatch. destruct (sq_read sql); [done|]. destruct (has_active_dispatch _ _); [done|].
    unfold insert_dispatch_locked. rewrite Hl. destruct (sq_write sql); [done|]. destruct (bool_decide _); [done|]. by destruct (bool_decide _).
  - unfold finish_dispatch. destruct (_ && _); [done|]. by destruct (sq_write sql).
  - unfold mark_dispatch_running. by destruct (sq_write sql).
  - unfold cancel_dispatch, close_dispatch. destruct (sq_write sql); [done|]. destruct (negb _); [done|].
    destruct (get_dispatch _ _); [|done]. by rewrite Hl.
  - unfold fail_dispatch, close_dispatch. destruct (sq_write sql); [done|]. destruct (negb _); [done|].
    destruct (get_dispatch _ _); [|done]. by rewrite Hl.
Qed.

(** Observed: the log of a refused claim may leave a row behind: when only the activity
    row fails, the caller is told of an error and the dispatch is active, so that
    every later claim of the issue is turned away. *)
Theorem claim_leaves_ghost st issue i task worker actor :
  bs_issues st !! issue = Some i → get_dispatch task st = None → has_active_dispatch issue st = false →
  let '(st', r) := try_claim_dispatch (mkSql None None false None) task issue worker actor st in
  is_ok r = false ∧ ∀ task' worker' actor', try_claim_dispatch sql_ok task' issue worker' actor' st' = (st', Ok false).
Proof.
  intros Hi Ht Ha. unfold try_claim_dispatch. cbn. rewrite Ha. unfold insert_dispatch_locked. cbn.
  rewrite Ht, (bool_decide_false (is_Some None)) by (by intros [? ?]). rewrite Hi, (bool_decide_false (Some i = None)) by done.
  split; [done|]. intros task' worker' actor'. unfold has_active_dispatch. cbn. rewrite existsb_app. cbn.
  by rewrite (bool_decide_true (issue = issue)), orb_true_r.
Qed.

(** Observed: dragging an issue to the done column skips the review without the audit
    comment that the same change by [transition_issue] leaves. *)
Theorem drag_skips_audit st id i position admin :
  bs_issues st !! id = Some i → is_status i = InProgress →
  bs_comments (fst (move_issue sql_ok id Done position (mkActor (lit "admin") admin) st)) =
    bs_comments st ++ [mkComment id (mkActor (lit "admin") admin) (transition_note InProgress Done) CStatusChange] ∧
  mkComment id (actor_system (lit "audit")) (skip_review_note InProgress (mkActor (lit "admin") admin)) CSystem
    ∈ bs_comments (fst (transition_issue sql_ok id Done (mkActor (lit "admin") admin) st)).
Proof.
  intros Hi Hs. unfold move_issue, transition_issue, get_issue, commit. cbn [sq_read sq_write sq_note sql_ok]. rewrite Hi.
  rewrite (bool_decide_false (is_status i = Done)) by (by rewrite Hs). rewrite Hs.
  change (validate_transition InProgress Done) with (@Ok unit str tt).
  cbn [fst at_kind]. rewrite !notify_comments. rewrite (bool_decide_false (lit "admin" = lit "agent")) by done.
  split; [done|]. apply elem_of_app. right. by left.
Qed.

(** Observed: [reopen_issue] revives no issue whose parent or dependency is cancelled;
    the same transition asked for as a status change does. *)
Theorem reopen_guards st id i pid parent actor :
  bs_issues st !! id = Some i → is_status i = Cancelled → is_parent i = Some pid →
  bs_issues st !! pid = Some parent → is_status parent = Cancelled →
  is_ok (snd (reopen_issue sql_ok sql_ok id actor st)) = false ∧
  status_at (fst (transition_issue sql_ok id Backlog actor st)) id = Some Backlog.
Proof.
  intros Hi Hs Hp Hpar Hps. split.
  - unfold reopen_issue, reopen_guard, get_issue. cbn [sq_read sql_ok]. rewrite Hi, Hs, Hp, Hpar.
    cbn [res_bind]. by rewrite (bool_decide_true (is_status parent = Cancelled)).
  - unfold transition_issue, get_issue, commit. cbn [sq_read sq_write sql_ok]. rewrite Hi, Hs.
    change (validate_transition Cancelled Backlog) with (@Ok unit str tt). cbn [fst]. unfold status_at. rewrite notify_issues.
    rewrite (bool_decide_false (Backlog = Done)) by done. cbn [andb bs_issues insert_activity insert_comment set_issue with_issues].
    by rewrite lookup_insert_eq.
Qed.

(** ** Witnesses *)

Definition demo_issue (s : IssueStatus) : Issue := mkIssue (lit "NB-1") (lit "t") s None None None 0 false.

Definition demo_store : Store := mkStore {[ 1%Z := demo_issue Backlog ]} [] [] [] [] [].

Definition demo_admin : Actor := mkActor (lit "admin") (lit "a").

Definition demo_store_ops : list StoreOp :=
  [OpTransition sql_ok 1 Todo demo_admin; OpMove sql_ok 1 InProgress 3 demo_admin; OpTransition sql_ok 1 Backlog demo_admin;
   OpTransition sql_ok 1 Done demo_admin; OpDoneBack sql_ok 1 (lit "r")].

Lemma demo_log_ok : log_ok (λ _, Backlog) demo_store.
Proof.
  intros id t Ht. unfold status_at, demo_store in Ht. cbn in Ht. destruct (decide (id = 1%Z)) as [->|Hn].
  - cbn in Ht. injection Ht as <-. constructor.
  - by rewrite lookup_singleton_ne in Ht.
Qed.

Lemma status_audit_trail_witness :
  status_at (store_run demo_store demo_store_ops) 1 = Some InReview ∧
  length (status_log 1 (store_run demo_store demo_store_ops)) = 4%nat ∧
  trail Backlog (status_log 1 (store_run demo_store demo_store_ops)) InReview.
Proof.
  split; [by vm_compute|]. split; [by vm_compute|].
  apply (status_audit_trail (λ _, Backlog) demo_store demo_store_ops demo_log_ok 1). by vm_compute.
Defined.

Definition demo_race : list StoreOp :=
  [OpClaim sql_ok (lit "t1") 1 (lit "w") demo_admin; OpClaim sql_ok (lit "t2") 1 (lit "w") demo_admin; OpRunning sql_ok (lit "t1") (lit "w");
   OpCancel sql_ok (lit "t1") demo_admin; OpFinish sql_ok (lit "t1") (lit "done"); OpTimeout sql_ok (lit "t1") []].

Lemma dispatch_exclusive_witness :
  winners (lit "t1") demo_store demo_race = 1%nat ∧
  (active_rows 1 (bs_dispatches (store_run demo_store demo_race)) ≤ 1)%nat.
Proof.
  split; [by vm_compute|].
  refine (proj1 (dispatch_exclusive demo_store demo_race (lit "t1") 1 _)). intros i. cbn. lia.
Defined.

Lemma store_errors_roll_back_witness :
  fst (store_step demo_store (OpTransition sql_ok 1 InReview demo_admin)) = demo_store.
Proof. apply store_errors_roll_back; by vm_compute. Defined.
